(* ===== verification/_CoqProject ===== *)
-Q . S2P
Prelude.v
Files.v
GoStd.v
Heap.v
Netip.v
Float.v
FloatSign.v
Store.v
StoreClient.v
Race.v
Scoreboard.v
Memory.v
CounterCache.v
AttackMode.v
Bytes.v
Pebble.v
Health.v
Base64.v
Utf8.v
Text.v
UrlPath.v
Refusal.v
Http.v
Escalation.v
Sha256.v
IpSet.v
HeaderExempt.v
BotVerify.v
Enforce.v
Waf.v
Anomaly.v
ModelCache.v
Segments.v
Train.v
Compare.v
Stateless.v
Duration.v
DomainConfig.v
Scalars.v
Intel.v
Snapshot.v
ChallengeRecord.v
Pow.v
PowStateless.v
Token.v
Rotation.v
Recent.v
Settings.v
ConfigLoad.v
Pipeline.v
Policy.v
Engine.v
Verdicts.v
Operator.v
Server.v
Admission.v
Pass.v
Transport.v
Admin.v
AdminViews.v
