(* ===== verification/Prelude.v ===== *)
(** * Angie Guardian: verification development

    Guardian is a daemon beside the Angie web server.  For every request Angie
    asks it, over an auth subrequest, whether to allow, deny or challenge the
    client; a challenged client is redirected to a page that makes it solve a
    proof of work, and the solution buys a signed cookie that passes later
    requests.  Guardian counts what clients do in a store that instances may
    share, blocks the ones that misbehave, and raises its guard under attack.
    This library models those paths from the Go sources and proves what they
    promise.

    ** Conventions

    A Go string or byte slice is [gostring], a list of bytes.  Instants and
    durations are integers of nanoseconds ([Z]); an [int64] is a [Z] wrapped
    with [wrap64] wherever the code can overflow it, a smaller integer likewise
    at its width; a float64 is [SpecFloat] at precision 53 (Float).  A Go call
    that can fail returns [Store.result] or an option; a panic (an index out of
    range, an integer division by zero) is a value of its own.  A clock is a
    parameter: a function that reads it several times takes one reading per
    call site, in the order of the source, and nothing is assumed of the
    readings but what a theorem states.

    Code that calls the shared store is a program of [StoreClient.prog], a tree
    with a node per store call.  [run] executes it on a backend; [interleaved]
    executes it while other instances change the store between any two of its
    calls.  Where goroutines share memory, the critical sections or atomic
    operations are the steps of an inductive relation, and theorems hold of
    every state a sequence of steps reaches.

    ** The files

    Foundations
    - Prelude: bytes, prefixes, machine-integer wrap-around, clock readings,
      invariants of a step relation ([rtc_invariant]).
    - GoStd, Text, Utf8, Netip, Float, FloatSign, Bytes, Sha256, Base64, Heap:
      the parts of the Go standard library the program leans on, defined and
      executable (integer formatting and parsing, ASCII case and trimming,
      UTF-8, IP addresses, float64 arithmetic and its signs, hexadecimal,
      SHA-256 and HMAC, unpadded URL base64, container/heap over an interface).
    - Files: the calls of package os on shared files as programs, processes
      that interleave them, are killed or lose power, and the rely-guarantee
      rule for their invariants.

    Shared state
    - Store (core/store/store.go): the contract of a store as functions on one
      map of entries with deadlines, and its interface [StoreOps] and
      [StoreLaws], against which all clients are proved.
    - StoreClient, Race: programs over a store; a key claimed by
      compare-and-swap is claimed once, whatever interleaves.
    - Memory (core/store/sharded_memory.go, expiry.go) and Pebble
      (core/store/pebble.go): two backends that implement the contract.
    - CounterCache (core/store/countercache.go): batched event counters between
      the callers and the store.
    - Health (core/health/health.go): the store probe and readiness.

    Deciding about a request
    - UrlPath, Stateless (core/stateless/stateless.go): paths, lists,
      honeypots, the evaluator of the WASM guest.
    - IpSet, Intel (core/intel): range sets, reputation feeds, geo databases.
    - HeaderExempt, BotVerify, Waf (core/headerexempt, core/botverify,
      core/waf): exemptions, verified crawlers, rules.
    - Duration, Scalars, DomainConfig, Settings, ConfigLoad
      (internal/duration, core/config.go): configuration values, validation of
      every section, the scope that governs a request, and the load that turns
      a document into settings, defaults, domains and path overlays.
    - Recent, Pipeline, Policy, Engine, Verdicts, Operator (core/recent.go,
      core/pipeline.go, core/engine.go): the twelve stages with their memoized
      lookups, the memo-free policy they implement, the engine around them, and
      the operator's unblock.
    - Scoreboard, Enforce, AttackMode (core/scoreboard.go, core/enforce,
      core/attackmode): counting and blocking, the in-process mirror of the
      blocks, and the attack posture.
    - Snapshot (core/engine.go, core/intel/geoip.go): lifetime of what a reload
      replaces while requests still use it.

    Anomaly models
    - Anomaly (core/anomaly/model.go): features, baselines, scoring, validation.
    - Segments, Train (core/anomaly/train.go, cmd/guardian-train): which
      segments are worth a baseline, the two training passes, the write of the
      artifact.
    - Compare (core/anomaly/compare.go): the gate before a promotion.
    - ModelCache (core/anomaly/cache.go, internal/safefile): the models in
      service.

    Proof of work
    - ChallengeRecord, Pow, PowStateless, Escalation, Token (core/pow): stored
      and stateless challenges, the proof policy, tokens and their keys,
      escalating difficulty.
    - Rotation (core/pow/key.go, rotation_lock_linux.go): the key files and
      their rotation by processes that share them.

    The HTTP transport
    - Refusal, Http, Server, Admission, Pass, Transport (transport/http): who is
      refused a challenge, the three handlers Angie calls, the bounds on
      concurrent work, and what the hops guarantee together.
    - Admin, AdminViews (admin.go, admin_diagnostics.go): the operator's
      listener, what it lets change what, and its tables.

    A component's file holds its data, its operations in the order of the
    source, then its lemmas and properties; a Module [Ex] at its end holds
    concrete runs.  The state of a Go struct is a Record with the struct's
    fields (prefixed where the names would clash), a method is a function that
    returns the new state, named as in Go.

    ** How they interact

    [Server] calls [Engine.Evaluate], which runs [Pipeline.stages] over the
    record [Services] of lookups into the other components; [Policy] states
    what those lookups mean and [Verdicts] proves the decision from them.  The
    engine's writes go through [Scoreboard], whose programs run on any
    [StoreOps]; a block notifies [Enforce].  [Pass] runs [Pow.Redeem] or
    [PowStateless] and answers the browser; [Escalation] and the transport's
    rate limits sit on [CounterCache].
    [Admin] names the operations of [Operator], [Rotation], [AttackMode] and
    [Enforce] it carries out.  [Train] feeds the records [Segments] accepts to
    both passes, writes through [Files] what [Anomaly] validates, and
    [ModelCache] serves it to the pipeline's scorer.

    ** What the properties show

    - Decisions: the staged evaluation is the first opinion of the policy; no
      token or exemption lifts a hard denial; who is challenged and how hard; a
      failing store fails open; the overload gate agrees with the evaluation.
    - Blocking: thresholds count exactly; an unblock clears its counters and
      fences events and blocks already on their way; a mirror that missed a
      change reads through to the store.
    - Store: both backends refine the contract; no counted event is lost or
      pushed twice by the counter cache, and a successful flush pushed all;
      readiness is earned by a probe in time and is never stale.
    - Proof of work: a challenge of either kind is redeemed at most once, by
      someone who did the work, from authentic material; records and stateless
      challenges round-trip; a failed redemption changes nothing; an accepted
      token is genuine.
    - Transport: the hops of one challenge agree across reloads; concurrent
      work is bounded; answers match outcomes.
    - Keys: a rotation, however it is cut short and whatever runs beside it,
      loses no key that signed a token.
    - Administration: what the listener changes was asked for with the token,
      across no origin, and is valid before it reaches the store; a block made
      there takes effect.
    - Anomaly models: a score is a number between 0 and 1 from the most specific
      baseline; a segment above its share is trained, on a bounded heap of
      shared counters that refines an abstract count; an artifact is whole on
      disk; the gate passes exactly the acceptable candidates.
    - Reloads: snapshots are never closed in use; rules, feeds and models
      keep the last good version; the posture does not drop faster than its dwell time.
    - Matching and configuration: range sets, path entries and overlays answer
      exactly what their reference definitions say; whatever loads is a
      configuration the daemon can run, in any order of its domains: every
      request has a validated scope of the type the pipeline relies on, under
      the shared rules, with a model where it is scored; durations and scalars
      parse to what they say and round-trip.

    ** Fuel and bounds

    Recursion that is not structural has fuel that is proved, or computed, to
    be enough.  [Duration.duration_terms] and [mixed_terms] consume a byte per
    round and get the length of the input; [parse_terminates_in_bounds] shows
    they never run out.  [Store.backoff_loop] gets 64 rounds: the duration
    doubles until the cap, so an int64 is exhausted after 63.
    [GoStd.format_digits] gets 64 digits, enough for base 2.
    [Memory.pow2_loop] gets 64 doublings, [Netip.parse6_loop] a round for each of
    the eight groups, [IpSet.search] the length of the range it halves,
    [PowStateless.write_base64] one round per input byte, and [Sha256.root]
    computes constants that are evaluated once.  [Heap.up] and [Heap.down] get the
    index and the length of the heap, [Utf8.valid_loop] the length of the string.  The one loop of the source that
    need not end, [nextPow2] above 2^62, is cut at its 63 doublings.

    ** Not modelled

    - Libraries outside the repository are interfaces or parameters with their
      documented behaviour as laws: the JWT library, Argon2, the JSON and YAML
      codecs, URL parsing, the regular-expression engine, the logarithm of package math, the MaxMind reader, the Pebble
      database, DNS, Unicode tables beyond ASCII.  Laws are instantiated by
      concrete functions in the witnesses.
    - The BuntDB and Redis backends: BuntDB keeps the contract through its own
      transactions and Redis through Lua scripts run by the server; the
      contract and two backends are modelled instead.
    - Metrics, logging, HTML templates, embedded assets, the netlink sink,
      process start-up, flags and the operator's command-line client: they
      write to the outside and no decision reads them.
    - The WASM host ABI; the evaluator the guest runs is modelled in Stateless.
    - Goroutine scheduling is modelled by interleaving; fairness and real
      time are not, except where a file says so (timers in Health fire on
      time). *)

From stdpp Require Export base tactics option list list_numbers gmap sorting.
From Stdlib Require Export ZArith Lia Ascii.
From Stdlib Require Export String.
From stdpp Require Export strings.

#[export] Set Default Goal Selector "!".
Open Scope Z_scope.
Open Scope list_scope.

(** ** Strings and byte slices

    A Go string and a Go byte slice are both finite sequences of 8-bit bytes;
    they are modelled by [list ascii].  Where the source distinguishes a nil
    slice from an empty one, the model uses [option gostring]. *)
Abbreviation gostring := (list ascii).

#[global] Instance gostring_eq_dec : EqDecision gostring | 0 := list_eq_dec.
#[global] Instance gostring_countable : Countable gostring | 0 := list_countable.

Definition lit (s : string) : gostring := String.list_ascii_of_string s.
Arguments lit !s / : simpl nomatch.

(** The value of a byte as an integer, and back (Go's [byte(n)] truncates). *)
Definition byteZ (c : ascii) : Z := Z.of_N (N_of_ascii c).
Definition Zbyte (n : Z) : ascii := ascii_of_N (Z.to_N (n mod 256)).

Lemma byteZ_range c : 0 <= byteZ c < 256.
Proof. unfold byteZ. pose proof (N_ascii_bounded c). lia. Qed.

Lemma Zbyte_byteZ c : Zbyte (byteZ c) = c.
Proof.
  unfold Zbyte. rewrite Z.mod_small by apply byteZ_range.
  unfold byteZ. rewrite N2Z.id. apply ascii_N_embedding.
Qed.

Lemma byteZ_Zbyte n : byteZ (Zbyte n) = n mod 256.
Proof.
  unfold byteZ, Zbyte. pose proof (Z.mod_pos_bound n 256 ltac:(lia)).
  rewrite N_ascii_embedding by lia. lia.
Qed.

Lemma byteZ_inj a b : byteZ a = byteZ b -> a = b.
Proof. intros H. by rewrite <- (Zbyte_byteZ a), H, Zbyte_byteZ. Qed.

(** [strings.HasPrefix] and [strings.TrimPrefix]-style splitting. *)
Fixpoint has_prefix (p s : gostring) : bool :=
  match p, s with
  | [], _ => true
  | a :: p', b :: s' => Ascii.eqb a b && has_prefix p' s'
  | _ :: _, [] => false
  end.

Lemma has_prefix_spec p s : has_prefix p s = true <-> exists r, s = p ++ r.
Proof.
  revert s; induction p as [|a p IH]; intros s; simpl.
  - split; [by exists s | done].
  - destruct s as [|b s].
    + split; [done | intros [r Hr]; discriminate].
    + rewrite andb_true_iff, Ascii.eqb_eq, IH. split.
      * intros [-> [r ->]]. by exists r.
      * intros [r Hr]. simplify_eq. eauto.
Qed.

Lemma has_prefix_app p s : has_prefix p (p ++ s) = true.
Proof. apply has_prefix_spec. by exists s. Qed.

(** ** Machine integers

    [int64], [int] (64-bit on every supported platform) and [time.Duration]
    are integers in [[-2^63, 2^63)]; arithmetic wraps, written out. *)
Definition int64_min : Z := - 2 ^ 63.
Definition int64_max : Z := 2 ^ 63 - 1.
Definition int64_ok (n : Z) : Prop := int64_min <= n <= int64_max.
Definition wrap64 (n : Z) : Z := (n + 2 ^ 63) mod 2 ^ 64 - 2 ^ 63.
Definition wrapu64 (n : Z) : Z := n mod 2 ^ 64.
Definition wrapu32 (n : Z) : Z := n mod 2 ^ 32.

#[global] Instance int64_ok_dec n : Decision (int64_ok n).
Proof. unfold int64_ok. apply _. Defined.

Lemma wrap64_id n : int64_ok n -> wrap64 n = n.
Proof. unfold int64_ok, wrap64, int64_min, int64_max. intros. rewrite Z.mod_small; lia. Qed.

Lemma wrap64_ok n : int64_ok (wrap64 n).
Proof.
  unfold int64_ok, wrap64, int64_min, int64_max.
  pose proof (Z.mod_pos_bound (n + 2 ^ 63) (2 ^ 64) ltac:(lia)). lia.
Qed.

(** Division of a non-negative dividend by a positive divisor truncates the
    same way in Go and in [Z.quot]; Go's [/] and [%] are [Z.quot], [Z.rem]. *)

(** ** Durations (nanoseconds) *)
Definition nanosecond : Z := 1.
Definition microsecond : Z := 1000.
Definition millisecond : Z := 1000 * microsecond.
Definition second : Z := 1000 * millisecond.
Definition minute : Z := 60 * second.
Definition hour : Z := 60 * minute.

(** ** Errors

    Go functions that return [(T, error)] return an [outcome]. *)
Inductive outcome (E A : Type) : Type :=
| Ok (a : A)
| Err (e : E).
Arguments Ok {E A} a.
Arguments Err {E A} e.

Declare Scope go_scope.
Delimit Scope go_scope with go.
Notation "'let!' x ':=' c 'in' k" :=
  (match c with Ok x => k | Err e => Err e end)
  (at level 10, x pattern, c at level 100, k at level 200) : go_scope.
Open Scope go_scope.

#[global] Instance outcome_eq_dec {E A} `{EqDecision E, EqDecision A} : EqDecision (outcome E A).
Proof. solve_decision. Defined.

Definition is_ok {E A} (r : outcome E A) : bool := if r is Ok _ then true else false.

(** ** Clock readings

    An operation reads [time.Now()] at several call sites.  [t k] is the value
    (unix nanoseconds) read at the operation's [k]-th call site, in program
    order.  [ticks lo hi t] says that the readings do not go backwards and lie
    between [lo] (when the operation starts) and [hi] (when it returns). *)
Abbreviation clock := (nat -> Z).

Definition ticks (lo hi : Z) (t : clock) : Prop :=
  (forall i, lo <= t i <= hi) /\ (forall i j, (i <= j)%nat -> t i <= t j).

Lemma ticks_const n lo hi : lo <= n <= hi -> ticks lo hi (fun _ => n).
Proof. split; intros; lia. Qed.

Lemma ticks_bound lo hi t i : ticks lo hi t -> lo <= t i <= hi.
Proof. intros [H _]; apply H. Qed.

Lemma ticks_le lo hi t i j : ticks lo hi t -> (i <= j)%nat -> t i <= t j.
Proof. intros [_ H]; apply H. Qed.

Lemma ticks_mono lo hi t : ticks lo hi t -> lo <= hi.
Proof. intros H. pose proof (ticks_bound _ _ _ 0%nat H). lia. Qed.

Lemma ticks_shift lo hi t n : ticks lo hi t -> ticks lo hi (fun k => t (n + k)%nat).
Proof. intros [H1 H2]. split; intros; [apply H1 | apply H2; lia]. Qed.

(** ** Automation *)
Create HintDb guardian.
#[export] Hint Resolve has_prefix_app wrap64_ok byteZ_range ticks_shift ticks_mono : guardian.
Create Rewrite HintDb guardian.
#[export] Hint Rewrite @Zbyte_byteZ @byteZ_Zbyte : guardian.

(** Split a boolean/propositional conjunction of hypotheses and close the
    arithmetic leaves. *)
Ltac split_ands := repeat match goal with |- _ /\ _ => split end.
Ltac bool_to_prop :=
  repeat match goal with
  | H : (_ && _)%bool = true |- _ => apply andb_true_iff in H; destruct H
  | H : (_ || _)%bool = false |- _ => apply orb_false_iff in H; destruct H
  | H : negb _ = true |- _ => apply negb_true_iff in H
  | H : negb _ = false |- _ => apply negb_false_iff in H
  | H : (_ <? _) = true |- _ => apply Z.ltb_lt in H
  | H : (_ <? _) = false |- _ => apply Z.ltb_ge in H
  | H : (_ <=? _) = true |- _ => apply Z.leb_le in H
  | H : (_ <=? _) = false |- _ => apply Z.leb_gt in H
  | H : (_ =? _) = true |- _ => apply Z.eqb_eq in H
  | H : (_ =? _) = false |- _ => apply Z.eqb_neq in H
  end.
Ltac case_if H := match goal with |- context [if ?b then _ else _] => destruct b eqn:H end.

(** Relations: reachability as stdpp's [rtc], and invariants by induction. *)
Lemma rtc_invariant {A} (R : relation A) (I : A -> Prop) :
  (forall x y, R x y -> I x -> I y) -> forall x y, rtc R x y -> I x -> I y.
Proof. intros HR x y. induction 1; eauto. Qed.
