(* ===== verification/Files.v ===== *)
(** * Files and the processes that share them

    The system calls of package os the key and token files are kept with, as
    programs; processes that run such programs interleave call by call, may be
    killed between any two calls, and may all be lost in a power loss: with the
    contents not fsynced, and with the creations, renames and removals made in
    a directory since it was last fsynced, any of which may or may not have
    reached the disk.  A directory itself is taken to be on disk.
    [safe_reachable] is the rely-guarantee rule the files' invariants are
    proved with. *)

From S2P Require Export Prelude.

Open Scope Z_scope.

Record path := mk_path { p_dir : gostring; p_base : gostring }.
#[global] Instance path_eq_dec : EqDecision path.
Proof. solve_decision. Defined.
#[global] Program Instance path_countable : Countable path :=
  inj_countable' (fun p => (p_dir p, p_base p)) (fun x => mk_path x.1 x.2) _.
Next Obligation. by intros []. Qed.

(** A file: its bytes, and whether they were fsynced since they last changed. *)
Record file := mk_file { fl_data : gostring; fl_synced : bool }.

(** The files; for each path the entries its directory held there since it was
    last fsynced, the latest first; the owner of the advisory lock on the one
    lock file; and two records no program reads: everything ever renamed into
    place, and the files as they were each time the lock was taken. *)
Record fs := mk_fs {
  fs_files : gmap path file;
  fs_stale : gmap path (list (option file));
  fs_lock : option nat;
  fs_log : list (path * gostring);
  fs_seen : list (gmap path file)
}.

Definition set_files (f : gmap path file) (s : fs) : fs := mk_fs f (fs_stale s) (fs_lock s) (fs_log s) (fs_seen s).
Definition set_lock (l : option nat) (s : fs) : fs := mk_fs (fs_files s) (fs_stale s) l (fs_log s) (fs_seen s).
Definition log_file (p : path) (f : file) (s : fs) : fs := mk_fs (fs_files s) (fs_stale s) (fs_lock s) ((p, fl_data f) :: fs_log s) (fs_seen s).
Definition take_lock (i : nat) (s : fs) : fs := mk_fs (fs_files s) (fs_stale s) (Some i) (fs_log s) (fs_files s :: fs_seen s).

Definition stale (s : fs) (p : path) : list (option file) := default [] (fs_stale s !! p).

(** A new entry at [p], or none, and the old one not yet superseded on disk. *)
Definition set_entry (p : path) (e : option file) (s : fs) : fs :=
  mk_fs (match e with Some f => <[p := f]> (fs_files s) | None => delete p (fs_files s) end)
    (<[p := fs_files s !! p :: stale s p]> (fs_stale s)) (fs_lock s) (fs_log s) (fs_seen s).

(** The directory's entries are on disk. *)
Definition sync_entries (dir : gostring) (s : fs) : fs :=
  mk_fs (fs_files s) (filter (fun x => p_dir x.1 <> dir) (fs_stale s)) (fs_lock s) (fs_log s) (fs_seen s).

Inductive fs_error := ErrNotExist | ErrExist | ErrIO.

(** The calls.  A file opened for writing is named by its path: no program
    renames or removes another's open file. *)
Inductive syscall : Type -> Type :=
| ReadFile (p : path) : syscall (outcome fs_error gostring)
| OpenExcl (p : path) : syscall (outcome fs_error unit)              (* O_WRONLY|O_CREATE|O_EXCL *)
| CreateTemp (dir prefix : gostring) : syscall (outcome fs_error path)
| Chmod (p : path) : syscall (outcome fs_error unit)
| Write (p : path) (b : gostring) : syscall (outcome fs_error unit)
| Sync (p : path) : syscall (outcome fs_error unit)
| Close (p : path) : syscall (outcome fs_error unit)
| Rename (a b : path) : syscall (outcome fs_error unit)
| Link (a b : path) : syscall (outcome fs_error unit)
| Remove (p : path) : syscall (outcome fs_error unit)
| MkdirAll (dir : gostring) : syscall (outcome fs_error unit)
| OpenDir (dir : gostring) : syscall (outcome fs_error unit)
| SyncDir (dir : gostring) : syscall (outcome fs_error unit)
| CloseDir (dir : gostring) : syscall (outcome fs_error unit)
| Flock : syscall (outcome fs_error unit)
| Unlock : syscall unit
| RandRead (n : Z) : syscall (outcome fs_error gostring).

(** ** What a call may do *)

(** [does i c s x s']: process [i]'s call [c] may answer [x] and leave [s'].
    Every call may fail; a failed write may have written a part. *)
Definition does {X} (i : nat) (c : syscall X) (s : fs) : X -> fs -> Prop :=
  match c in syscall X return X -> fs -> Prop with
  | ReadFile p => fun r s' => s' = s /\
      match r with
      | Ok raw => fl_data <$> fs_files s !! p = Some raw
      | Err ErrNotExist => fs_files s !! p = None
      | Err _ => True
      end
  | OpenExcl p => fun r s' =>
      match r with
      | Ok _ => fs_files s !! p = None /\ s' = set_entry p (Some (mk_file [] false)) s
      | Err ErrExist => is_Some (fs_files s !! p) /\ s' = s
      | Err _ => s' = s
      end
  | CreateTemp dir prefix => fun r s' =>
      match r with
      | Ok p => p_dir p = dir /\ (exists random, random <> [] /\ p_base p = prefix ++ random) /\
          fs_files s !! p = None /\ s' = set_entry p (Some (mk_file [] false)) s
      | Err _ => s' = s
      end
  | Write p b => fun r s' => exists f, fs_files s !! p = Some f /\
      exists part, (match r with Ok _ => part = b | Err _ => part `prefix_of` b end) /\
      s' = set_files (<[p := mk_file (fl_data f ++ part) false]> (fs_files s)) s
  | Sync p => fun r s' => exists f, fs_files s !! p = Some f /\
      s' = match r with Ok _ => set_files (<[p := mk_file (fl_data f) true]> (fs_files s)) s | Err _ => s end
  | Rename a b => fun r s' =>
      match r with
      | Ok _ => exists f, fs_files s !! a = Some f /\ s' = log_file b f (set_entry b (Some f) (set_entry a None s))
      | Err _ => s' = s
      end
  | Link a b => fun r s' =>
      match r with
      | Ok _ => exists f, fs_files s !! a = Some f /\ fs_files s !! b = None /\ s' = log_file b f (set_entry b (Some f) s)
      | Err ErrExist => is_Some (fs_files s !! b) /\ s' = s
      | Err _ => s' = s
      end
  | Remove p => fun r s' => match r with Ok _ => s' = set_entry p None s | Err _ => s' = s end
  | Flock => fun r s' => match r with Ok _ => fs_lock s = None /\ s' = take_lock i s | Err _ => s' = s end
  | Unlock => fun _ s' => s' = if decide (fs_lock s = Some i) then set_lock None s else s
  | RandRead n => fun r s' => s' = s /\ match r with Ok b => Z.of_nat (length b) = n | Err _ => True end
  | Chmod _ => fun _ s' => s' = s
  | Close _ => fun _ s' => s' = s
  | MkdirAll _ => fun _ s' => s' = s
  | OpenDir _ => fun _ s' => s' = s
  | SyncDir dir => fun r s' => match r with Ok _ => s' = sync_entries dir s | Err _ => s' = s end
  | CloseDir _ => fun _ s' => s' = s
  end.

(** ** Programs *)
Inductive fprog (A : Type) : Type :=
| Return (a : A)
| Do {X : Type} (c : syscall X) (k : X -> fprog A).
Arguments Return {A} a.
Arguments Do {A X} c k.

Fixpoint fbind {A B : Type} (p : fprog A) (f : A -> fprog B) : fprog B :=
  match p with
  | Return a => f a
  | Do c k => Do c (fun x => fbind (k x) f)
  end.

(** A call whose failure ends the function with [err e], and one whose answer
    is dropped. *)
Notation "'check!' c 'else' e 'in' k" := (Do c (fun answer => match answer with Ok _ => k | Err _ => e end))
  (at level 200, c at level 100, e at level 100, k at level 200).
Notation "'sys!' c 'in' k" := (Do c (fun _ => k)) (at level 200, c at level 100, k at level 200).

(** ** Processes *)
Section Processes.
Context {A : Type}.

Record system := mk_sys { sy_fs : fs; sy_procs : gmap nat (fprog A) }.

Definition release (i : nat) (s : fs) : fs := if decide (fs_lock s = Some i) then set_lock None s else s.

(** What a power loss may leave at each path: the entry there, or one its
    directory held since it was last fsynced; and of a file the synced contents, or anything
    when they were not.  What is left is on disk. *)
Definition power_loss (s s' : fs) : Prop :=
  fs_lock s' = None /\ fs_log s' = fs_log s /\ fs_seen s' = fs_seen s /\ fs_stale s' = ∅ /\
  forall p, exists e, e ∈ fs_files s !! p :: stale s p /\
    match e with
    | None => fs_files s' !! p = None
    | Some f => exists d, fs_files s' !! p = Some (mk_file d true) /\ (fl_synced f = true -> d = fl_data f)
    end.

(** What may go wrong besides a failing call: single processes are killed; the
    power is lost; removing a file, or opening or fsyncing a directory, fails. *)
Record faults := mk_faults { ft_kill : bool; ft_power : bool; ft_dir : bool }.

Definition allowed (F : faults) {X} (c : syscall X) : X -> Prop :=
  match c in syscall X return X -> Prop with
  | Remove _ => fun r => ft_dir F = true \/ r = Ok tt
  | OpenDir _ => fun r => ft_dir F = true \/ r = Ok tt
  | SyncDir _ => fun r => ft_dir F = true \/ r = Ok tt
  | _ => fun _ => True
  end.

(** [starts p]: a process may start with program [p]. *)
Inductive proc_step (starts : fprog A -> Prop) (F : faults) (s : system) : system -> Prop :=
| step_start i p : sy_procs s !! i = None -> fs_lock (sy_fs s) <> Some i -> starts p -> proc_step starts F s (mk_sys (sy_fs s) (<[i := p]> (sy_procs s)))
| step_call i X (c : syscall X) k x s' : sy_procs s !! i = Some (Do c k) -> does i c (sy_fs s) x s' -> allowed F c x ->
    proc_step starts F s (mk_sys s' (<[i := k x]> (sy_procs s)))
| step_kill i : ft_kill F = true -> proc_step starts F s (mk_sys (release i (sy_fs s)) (delete i (sy_procs s)))
| step_power s' : ft_power F = true -> power_loss (sy_fs s) s' -> proc_step starts F s (mk_sys s' ∅).

(** ** Driving a process: every call succeeds *)
Definition succeed {X} (i : nat) (c : syscall X) (s : fs) : option (X * fs) :=
  match c in syscall X return option (X * fs) with
  | ReadFile p => Some (match fs_files s !! p with Some f => Ok (fl_data f) | None => Err ErrNotExist end, s)
  | OpenExcl p => Some (match fs_files s !! p with
                        | Some _ => (Err ErrExist, s)
                        | None => (Ok tt, set_entry p (Some (mk_file [] false)) s)
                        end)
  | CreateTemp dir prefix =>
    let p := mk_path dir (prefix ++ lit "1") in
    match fs_files s !! p with Some _ => None | None => Some (Ok p, set_entry p (Some (mk_file [] false)) s) end
  | Write p b => f ← fs_files s !! p; Some (Ok tt, set_files (<[p := mk_file (fl_data f ++ b) false]> (fs_files s)) s)
  | Sync p => f ← fs_files s !! p; Some (Ok tt, set_files (<[p := mk_file (fl_data f) true]> (fs_files s)) s)
  | Rename a b => f ← fs_files s !! a; Some (Ok tt, log_file b f (set_entry b (Some f) (set_entry a None s)))
  | Link a b =>
    f ← fs_files s !! a;
    Some (match fs_files s !! b with
          | Some _ => (Err ErrExist, s)
          | None => (Ok tt, log_file b f (set_entry b (Some f) s))
          end)
  | Remove p => Some (Ok tt, set_entry p None s)
  | Flock => match fs_lock s with None => Some (Ok tt, take_lock i s) | Some _ => None end
  | Unlock => Some (tt, release i s)
  | RandRead n => if n <? 0 then None else Some (Ok (replicate (Z.to_nat n) "r"%char), s)
  | Chmod _ => Some (Ok tt, s)
  | Close _ => Some (Ok tt, s)
  | MkdirAll _ => Some (Ok tt, s)
  | OpenDir _ => Some (Ok tt, s)
  | SyncDir dir => Some (Ok tt, sync_entries dir s)
  | CloseDir _ => Some (Ok tt, s)
  end.

Lemma succeed_does {X} i (c : syscall X) s x s' : succeed i c s = Some (x, s') -> does i c s x s'.
Proof.
  destruct c; cbn; intros Hs; try (injection Hs as <- <-; done).
  - injection Hs as <- <-. split; [done |]. by destruct (fs_files s !! p).
  - destruct (fs_files s !! p) eqn:E; injection Hs as <- <-; [split; [by eexists | done] | done].
  - destruct (fs_files s !! _) eqn:E; [done |]. injection Hs as <- <-. split; [done |]. split; [by exists (lit "1") | done].
  - destruct (fs_files s !! p) as [f |] eqn:E; cbn in Hs; [| done]. injection Hs as <- <-. exists f. split; [done |]. by exists b.
  - destruct (fs_files s !! p) as [f |] eqn:E; cbn in Hs; [| done]. injection Hs as <- <-. by exists f.
  - destruct (fs_files s !! a) as [f |] eqn:E; cbn in Hs; [| done]. injection Hs as <- <-. by exists f.
  - destruct (fs_files s !! a) as [f |] eqn:E; cbn in Hs; [| done]. destruct (fs_files s !! b) eqn:Eb; injection Hs as <- <-; [split; [by eexists | done] | by exists f].
  - destruct (fs_lock s) eqn:E; [done |]. by injection Hs as <- <-.
  - destruct (n <? 0) eqn:E; [done |]. injection Hs as <- <-. split; [done |]. rewrite length_replicate. apply Z.ltb_ge in E. lia.
Qed.

Fixpoint drive (n i : nat) (s : system) : option system :=
  match n with
  | O => Some s
  | S n =>
    match sy_procs s !! i with
    | Some (Do c k) =>
      match succeed i c (sy_fs s) with
      | Some (x, s') => drive n i (mk_sys s' (<[i := k x]> (sy_procs s)))
      | None => None
      end
    | _ => None
    end
  end.

Lemma succeed_allowed F {X} i (c : syscall X) s x s' : succeed i c s = Some (x, s') -> allowed F c x.
Proof. destruct c; cbn; intros Hs; try done; injection Hs as <- _; by right. Qed.

Lemma drive_steps starts F n i s s' : drive n i s = Some s' -> rtc (proc_step starts F) s s'.
Proof.
  revert s. induction n as [| n IH]; cbn; intros s Hs; [by injection Hs as -> |].
  destruct (sy_procs s !! i) as [[a | X c k] |] eqn:Ep; [done | | done]. destruct (succeed i c (sy_fs s)) as [[x s1] |] eqn:Ec; [| done].
  eapply rtc_l; [by eapply step_call; [| apply succeed_does | eapply succeed_allowed] | by apply IH].
Qed.

(** ** Rely and guarantee *)
Section Rely.
Variables (starts : fprog A -> Prop) (F : faults) (Inv : fs -> Prop) (R : nat -> fs -> fs -> Prop) (Q : A -> fs -> Prop).

(** From [s], whatever the others do within [R], process [i] running [p] keeps
    the invariant and what the others rely on, and ends with [Q]. *)
Fixpoint safe (i : nat) (p : fprog A) (s : fs) : Prop :=
  forall s1, R i s s1 -> Inv s1 ->
  match p with
  | Return a => Q a s1
  | Do c k => forall x s2, does i c s1 x s2 -> allowed F c x -> Inv s2 /\ (forall j, j <> i -> R j s1 s2) /\ safe i (k x) s2
  end.

Class RelyLaws := {
  rely_refl i s : R i s s;
  rely_trans i s1 s2 s3 : R i s1 s2 -> R i s2 s3 -> R i s1 s3;
  rely_release i j s : ft_kill F = true -> Inv s -> j <> i -> Inv (release i s) /\ R j s (release i s);
  inv_power s s' : ft_power F = true -> Inv s -> power_loss s s' -> Inv s';
  starts_safe i p s : Inv s -> fs_lock s <> Some i -> starts p -> safe i p s
}.
Context `{!RelyLaws}.

Lemma safe_rely i p s s' : R i s s' -> safe i p s -> safe i p s'.
Proof. intros Hr Hs. destruct p; intros s1 Hr1 Hi; apply (Hs s1); eauto using rely_trans. Qed.

Definition system_ok (s : system) : Prop := Inv (sy_fs s) /\ forall i p, sy_procs s !! i = Some p -> safe i p (sy_fs s).

Lemma inv_release i s : ft_kill F = true -> Inv s -> Inv (release i s).
Proof. intros Hk Hi. exact (proj1 (rely_release i (S i) s Hk Hi ltac:(lia))). Qed.

Lemma system_preserved s s' : proc_step starts F s s' -> system_ok s -> system_ok s'.
Proof.
  intros Hstep [Hi Hs]. destruct Hstep as [i p Hn Hlk Hp | i X c k x s' Hp Hd Hal | i Hkill | s' Hpow Hl]; split; cbn [sy_fs sy_procs].
  - done.
  - intros j q. destruct (decide (i = j)) as [<- | Hne].
    + rewrite lookup_insert_eq. intros [= <-]. by apply starts_safe.
    + rewrite lookup_insert_ne by done. apply Hs.
  - pose proof (Hs i _ Hp _ (rely_refl i _) Hi) as Hc. apply (Hc x s' Hd Hal).
  - pose proof (Hs i _ Hp _ (rely_refl i _) Hi) as Hc. destruct (Hc x s' Hd Hal) as (_ & Hg & Hk).
    intros j q. destruct (decide (i = j)) as [<- | Hne].
    + rewrite lookup_insert_eq. by intros [= <-].
    + rewrite lookup_insert_ne by done. intros Hq. eapply safe_rely; [by apply Hg |]. by apply Hs.
  - by apply inv_release.
  - intros j q. destruct (decide (i = j)) as [<- | Hne]; [by rewrite lookup_delete_eq |]. rewrite lookup_delete_ne by done. intros Hq.
    eapply safe_rely; [by apply rely_release |]. by apply Hs.
  - by eapply inv_power.
  - intros j q. by rewrite lookup_empty.
Qed.

(** The rule: what holds initially holds of every reachable system, and a
    process that has ended has established its postcondition. *)
Lemma safe_reachable s s' : rtc (proc_step starts F) s s' -> system_ok s ->
  system_ok s' /\ (forall i a, sy_procs s' !! i = Some (Return a) -> Q a (sy_fs s')).
Proof.
  intros Hr Hs. pose proof (rtc_invariant _ system_ok system_preserved _ _ Hr Hs) as Hok. split; [done |].
  intros i a Ha. destruct Hok as [Hi Hsafe]. exact (Hsafe i _ Ha _ (rely_refl i _) Hi).
Qed.
End Rely.
End Processes.
Arguments system : clear implicits.
