(* ===== verification/GoStd.v ===== *)
(** * The parts of the Go standard library the program relies on

    [strconv] (decimal and hexadecimal formatting, [ParseInt]) and
    [strings.IndexByte], on the byte-sequence model of the prelude, with the
    round-trip lemmas the components use. *)

From S2P Require Export Prelude.

(** ** strconv *)
Inductive parse_error := ErrSyntax | ErrRange.

#[global] Instance parse_error_eq_dec : EqDecision parse_error.
Proof. solve_decision. Defined.

(** The digit character of [d], [0 <= d < 16], as [strconv] prints it. *)
Definition digit_char (d : Z) : ascii :=
  Zbyte (if d <? 10 then 48 + d else 87 + d).

(** The value of a decimal digit character. *)
Definition dec_digit (c : ascii) : option Z :=
  let v := byteZ c in
  if (48 <=? v) && (v <=? 57) then Some (v - 48) else None.

Fixpoint format_digits (fuel : nat) (base n : Z) (acc : gostring) : gostring :=
  match fuel with
  | O => acc
  | S f => if n <? base then digit_char n :: acc
           else format_digits f base (n / base) (digit_char (n mod base) :: acc)
  end.

(** Sixty-four digits hold any 64-bit magnitude in any base from 2 on. *)
Definition FormatUint (base n : Z) : gostring := format_digits 64 base n [].

Definition FormatInt (n : Z) : gostring :=
  if n <? 0 then "-"%char :: FormatUint 10 (- n) else FormatUint 10 n.

Fixpoint dec_value (acc : Z) (s : gostring) : option Z :=
  match s with
  | [] => Some acc
  | c :: s' => match dec_digit c with
               | Some d => dec_value (acc * 10 + d) s'
               | None => None
               end
  end.

(** [strconv.ParseInt(s, 10, 64)].  The clamped number Go returns beside a
    range error is never used by the program, so an error carries no number. *)
Definition parse_magnitude (s : gostring) : option Z :=
  match s with [] => None | _ => dec_value 0 s end.

Definition ParseInt (s : gostring) : outcome parse_error Z :=
  let '(neg, body) := match s with
                      | "-"%char :: r => (true, r)
                      | "+"%char :: r => (false, r)
                      | _ => (false, s)
                      end in
  match parse_magnitude body with
  | None => Err ErrSyntax
  | Some m => let n := if neg : bool then - m else m in
              if decide (int64_ok n) then Ok n else Err ErrRange
  end.

Lemma dec_digit_char d : 0 <= d < 10 -> dec_digit (digit_char d) = Some d.
Proof.
  intros H. unfold dec_digit, digit_char.
  destruct (d <? 10) eqn:E; [| lia].
  rewrite byteZ_Zbyte, Z.mod_small by lia.
  destruct (48 <=? 48 + d) eqn:E1; [| lia]. destruct (48 + d <=? 57) eqn:E2; [| lia].
  simpl. f_equal. lia.
Qed.

Lemma dec_digit_range c d : dec_digit c = Some d -> 0 <= d < 10.
Proof. unfold dec_digit. destruct (_ && _) eqn:E; [| done]. intros [= <-]. bool_to_prop. lia. Qed.

Lemma dec_value_format fuel : forall n l, 0 <= n < 10 ^ Z.of_nat fuel ->
  dec_value 0 (format_digits fuel 10 n l) = dec_value n l.
Proof.
  induction fuel as [|f IH]; intros n l H.
  - simpl in H. replace n with 0 by lia. done.
  - simpl format_digits. destruct (n <? 10) eqn:E.
    + simpl. rewrite dec_digit_char by lia. done.
    + rewrite IH.
      * simpl. rewrite dec_digit_char by (apply Z.mod_pos_bound; lia).
        f_equal. pose proof (Z.div_mod n 10). lia.
      * rewrite Nat2Z.inj_succ, Z.pow_succ_r in H by lia. split.
        -- apply Z.div_pos; lia.
        -- apply Z.div_lt_upper_bound; lia.
Qed.

Lemma format_digits_nonempty fuel base n l :
  (0 < fuel)%nat \/ l <> [] -> format_digits fuel base n l <> [].
Proof.
  revert n l; induction fuel as [|f IH]; intros n l H; simpl.
  - destruct H; [lia | done].
  - destruct (n <? base); [done | apply IH; by right].
Qed.

Lemma format_digits_head fuel base n l : 2 <= base <= 16 -> 0 <= n -> (0 < fuel)%nat ->
  exists d r, format_digits fuel base n l = digit_char d :: r /\ 0 <= d < base.
Proof.
  revert n l; induction fuel as [|f IH]; intros n l Hb Hn Hf; [lia |].
  simpl. destruct (n <? base) eqn:E; [exists n; eexists; split; [done | lia] |].
  destruct f as [|f'].
  - simpl. exists (n mod base), l. split; [done | apply Z.mod_pos_bound; lia].
  - apply IH; [done | apply Z.div_pos; lia | lia].
Qed.

Lemma digit_char_not_sign d : 0 <= d < 16 -> digit_char d <> "-"%char /\ digit_char d <> "+"%char.
Proof.
  intros H. unfold digit_char.
  split; intros He; apply (f_equal byteZ) in He; rewrite byteZ_Zbyte in He;
    rewrite Z.mod_small in He by (destruct (d <? 10) eqn:E; lia);
    vm_compute (byteZ _) in He; destruct (d <? 10) eqn:E; lia.
Qed.

Lemma format_digits_Forall (P : ascii -> Prop) base : 2 <= base <= 16 -> (forall d, 0 <= d < base -> P (digit_char d)) ->
  forall fuel n l, 0 <= n -> Forall P l -> Forall P (format_digits fuel base n l).
Proof.
  intros Hb HP fuel; induction fuel as [|f IH]; intros n l Hn Hl; simpl; [done |].
  destruct (n <? base) eqn:E.
  - constructor; [| done]. apply HP. bool_to_prop. lia.
  - apply IH; [apply Z.div_pos; lia |]. constructor; [| done]. apply HP. apply Z.mod_pos_bound. lia.
Qed.

(** The bytes a printed digit can be. *)
Lemma digit_char_range d : 0 <= d < 16 -> 48 <= byteZ (digit_char d) <= 57 \/ 97 <= byteZ (digit_char d) <= 102.
Proof.
  intros H. unfold digit_char. rewrite byteZ_Zbyte. destruct (d <? 10) eqn:E; bool_to_prop; rewrite Z.mod_small; lia.
Qed.

(** A printed number holds none of the separators [:], [/], [-], NUL. *)
Lemma FormatUint_not_in base n c : 2 <= base <= 16 -> 0 <= n ->
  (byteZ c < 48 \/ 57 < byteZ c < 97) -> c ∉ FormatUint base n.
Proof.
  intros Hb Hn Hc Hin.
  assert (Forall (fun x => x <> c) (FormatUint base n)) as HF.
  { apply format_digits_Forall; [done | | done | constructor]. intros d Hd <-.
    pose proof (digit_char_range d ltac:(lia)). lia. }
  rewrite Forall_forall in HF. by apply (HF c).
Qed.

Lemma parse_magnitude_format n : 0 <= n < 10 ^ 64 -> parse_magnitude (FormatUint 10 n) = Some n.
Proof.
  intros H. unfold parse_magnitude, FormatUint.
  pose proof (format_digits_nonempty 64 10 n [] ltac:(left; lia)) as Hne.
  destruct (format_digits 64 10 n []) eqn:E; [done |].
  rewrite <- E. by rewrite dec_value_format.
Qed.

Lemma ParseInt_unsigned s : (forall r, s <> "-"%char :: r) -> (forall r, s <> "+"%char :: r) ->
  ParseInt s = match parse_magnitude s with
               | None => Err ErrSyntax
               | Some m => if decide (int64_ok m) then Ok m else Err ErrRange
               end.
Proof.
  intros H1 H2. unfold ParseInt. destruct s as [|c s']; [done |].
  destruct c as [[] [] [] [] [] [] [] []];
    first [done | by destruct (H1 s') | by destruct (H2 s')].
Qed.

(** Formatting then parsing a 64-bit integer gives it back. *)
Lemma ParseInt_FormatInt n : int64_ok n -> ParseInt (FormatInt n) = Ok n.
Proof.
  intros Hn. pose proof Hn as Hn'. unfold int64_ok, int64_min, int64_max in Hn'.
  unfold FormatInt. destruct (n <? 0) eqn:E.
  - unfold ParseInt. rewrite parse_magnitude_format by lia.
    rewrite Z.opp_involutive. by rewrite decide_True.
  - destruct (format_digits_head 64 10 n [] ltac:(lia) ltac:(lia) ltac:(lia)) as (d & r & Hr & Hd).
    pose proof (digit_char_not_sign d ltac:(lia)) as [Hs1 Hs2].
    rewrite ParseInt_unsigned.
    + rewrite parse_magnitude_format by lia. by rewrite decide_True.
    + intros r' Hr'. unfold FormatUint in Hr'. rewrite Hr in Hr'. congruence.
    + intros r' Hr'. unfold FormatUint in Hr'. rewrite Hr in Hr'. congruence.
Qed.

Lemma FormatInt_inj m n : int64_ok m -> int64_ok n -> FormatInt m = FormatInt n -> m = n.
Proof.
  intros Hm Hn H. apply (f_equal ParseInt) in H.
  rewrite !ParseInt_FormatInt in H by done. congruence.
Qed.

(** ** strings *)

(** [strings.IndexByte], as the split around the first occurrence. *)
Fixpoint split_at_byte (c : ascii) (s : gostring) : option (gostring * gostring) :=
  match s with
  | [] => None
  | d :: s' => if Ascii.eqb c d then Some ([], s')
               else match split_at_byte c s' with
                    | Some (a, b) => Some (d :: a, b)
                    | None => None
                    end
  end.

Lemma split_at_byte_Some c s a b :
  split_at_byte c s = Some (a, b) <-> s = a ++ c :: b /\ c ∉ a.
Proof.
  revert a b; induction s as [|d s IH]; intros a b; simpl.
  - split; [done | intros [H _]; destruct a; discriminate].
  - destruct (Ascii.eqb c d) eqn:E.
    + apply Ascii.eqb_eq in E as <-. split.
      * intros [= <- <-]. split; [done | set_solver].
      * intros [H Hn]. destruct a as [|x a]; simplify_eq/=; [done |]. set_solver.
    + apply Ascii.eqb_neq in E. destruct (split_at_byte c s) as [[a' b']|] eqn:F.
      * destruct (IH a' b') as [H1 _]. specialize (H1 eq_refl) as [-> Hn]. split.
        -- intros [= <- <-]. split; [done | set_solver].
        -- intros [H Hn']. destruct a as [|x a]; simplify_eq/=.
           assert (Some (a', b') = Some (a, b)) as [= -> ->]; [| done].
           apply IH. split; [done | set_solver].
      * split; [done |]. intros [H Hn]. destruct a as [|x a]; simplify_eq/=.
        assert (None = Some (a, b)) as [=]. apply IH. split; [done | set_solver].
Qed.

Lemma split_at_byte_None c s : split_at_byte c s = None <-> c ∉ s.
Proof.
  induction s as [|d s IH]; simpl; [set_solver |].
  destruct (Ascii.eqb c d) eqn:E.
  - apply Ascii.eqb_eq in E as <-. set_solver.
  - apply Ascii.eqb_neq in E. destruct (split_at_byte c s) as [[a b]|].
    + split; [done |]. intros Hn. destruct IH as [_ IH].
      rewrite not_elem_of_cons in Hn. destruct Hn as [_ Hn]. by specialize (IH Hn).
    + rewrite not_elem_of_cons. naive_solver.
Qed.

#[export] Hint Resolve ParseInt_FormatInt : guardian.
