(* ===== verification/Heap.v ===== *)
(** * container/heap

    The heap operations of the Go standard library over an interface: a client
    supplies [Len], [Less], [Swap] and [Push] on its own state
    ([HeapInterface]), and [up], [down], [Fix] and [HeapPush] are the library's
    loops over them.  An operation that would index out of range is [None].

    The laws a client owes ([HeapLaws]) say that its state carries a sequence
    of elements which [Less] compares and [Swap] exchanges; from them
    [up_restores] and [down_restores] prove that the loops end, stay in range,
    permute the elements and restore the heap order, and [heap_root_least] that
    the element at the front is then a least one. *)

From S2P Require Export Prelude.

Local Open Scope nat_scope.

Class HeapInterface (S X : Type) := {
  h_Len : S -> nat;
  h_Less : S -> nat -> nat -> option bool;
  h_Swap : S -> nat -> nat -> option S;
  h_Push : S -> X -> option S
}.

Section Ops.
Context {S X : Type} `{HeapInterface S X}.

(** [heap.up]; the fuel bounds the depth. *)
Fixpoint up (fuel : nat) (h : S) (j : nat) : option S :=
  match fuel with
  | O => Some h
  | Datatypes.S fuel =>
    let i := (j - 1) / 2 in
    if decide (i = j) then Some h else
    less ← h_Less h j i;
    if (less : bool) then h ← h_Swap h i j; up fuel h i else Some h
  end.

(** [heap.down]: the state and the final index. *)
Fixpoint down (fuel : nat) (h : S) (i n : nat) : option (S * nat) :=
  match fuel with
  | O => Some (h, i)
  | Datatypes.S fuel =>
    let j1 := 2 * i + 1 in
    if n <=? j1 then Some (h, i) else
    right ← (if j1 + 1 <? n then h_Less h (j1 + 1) j1 else Some false);
    let j := if (right : bool) then j1 + 1 else j1 in
    less ← h_Less h j i;
    if (less : bool) then h ← h_Swap h i j; down fuel h j n else Some (h, i)
  end.

Definition Fix (h : S) (i : nat) : option S :=
  '(h, k) ← down (h_Len h) h i (h_Len h);
  if i <? k then Some h else up (Datatypes.S i) h i.

Definition HeapPush (h : S) (x : X) : option S :=
  h ← h_Push h x; up (h_Len h) h (h_Len h - 1).
End Ops.

(** Exchanging two positions of a list. *)
Definition swapped {A} (i j : nat) (l : list A) : list A :=
  match l !! i, l !! j with Some x, Some y => <[i := y]> (<[j := x]> l) | _, _ => l end.

(** A client's state [s] with [ok s] carries the elements [view s]. *)
Class HeapLaws {S X A : Type} `{HeapInterface S X} (less : A -> A -> bool) (ok : S -> Prop) (view : S -> list A) := {
  law_len s : ok s -> h_Len s = length (view s);
  law_less s i j x y : ok s -> view s !! i = Some x -> view s !! j = Some y -> h_Less s i j = Some (less x y);
  law_swap s i j : ok s -> i < length (view s) -> j < length (view s) ->
    exists s', h_Swap s i j = Some s' /\ ok s' /\ view s' = swapped i j (view s)
}.

(** A strict order whose incomparability is transitive. *)
Class StrictWeak {A} (less : A -> A -> bool) := {
  weak_asym x y : less x y = true -> less y x = false;
  weak_trans x y z : less y x = false -> less z y = false -> less z x = false
}.

Definition parent (j : nat) : nat := (j - 1) / 2.

(** ** Positions *)
Lemma parent_lt j : 0 < j -> parent j < j.
Proof. intros Hj. unfold parent. apply Nat.Div0.div_lt_upper_bound. lia. Qed.

Lemma parent_child i j : 0 < j -> parent j = i <-> j = 2 * i + 1 \/ j = 2 * i + 2.
Proof.
  intros Hj. unfold parent. pose proof (Nat.div_mod_eq (j - 1) 2). pose proof (Nat.mod_upper_bound (j - 1) 2 ltac:(lia)). lia.
Qed.

Lemma swapped_length {A} i j (l : list A) : length (swapped i j l) = length l.
Proof. unfold swapped. destruct (l !! i), (l !! j); rewrite ?length_insert; done. Qed.

Lemma swapped_Permutation {A} i j (l : list A) : swapped i j l ≡ₚ l.
Proof.
  unfold swapped. destruct (l !! i) eqn:Ei, (l !! j) eqn:Ej; try done. by apply Permutation_insert_swap.
Qed.

Lemma swapped_lookup {A} i j k (l : list A) x y : l !! i = Some x -> l !! j = Some y ->
  swapped i j l !! k = if decide (k = i) then Some y else if decide (k = j) then Some x else l !! k.
Proof.
  intros Hi Hj. unfold swapped. rewrite Hi, Hj. rewrite !list_lookup_insert, length_insert.
  apply lookup_lt_Some in Hi, Hj. repeat case_decide; try done; lia.
Qed.

Lemma swapped_fmap {A B} (f : A -> B) i j (l : list A) : f <$> swapped i j l = swapped i j (f <$> l).
Proof. unfold swapped. rewrite !list_lookup_fmap. destruct (l !! i), (l !! j); cbn; try done. by rewrite !list_fmap_insert. Qed.

Section Order.
Context {A : Type} (less : A -> A -> bool) `{!StrictWeak less}.
Implicit Types l : list A.

Lemma weak_refl x : less x x = false.
Proof. destruct (less x x) eqn:E; [| done]. pose proof (weak_asym x x E). congruence. Qed.

(** The element at [j] is not less than its parent. *)
Definition ordered_at l (j : nat) : Prop :=
  forall x p, l !! j = Some x -> l !! parent j = Some p -> less x p = false.
Definition heap_order l : Prop := forall j, 0 < j -> ordered_at l j.

(** The order holds but between [j] and its parent, and below [j] it holds
    towards the parent of [j]: what an insertion at [j] leaves. *)
Definition but_up l (j : nat) : Prop :=
  (forall k, 0 < k -> k <> j -> ordered_at l k) /\
  (forall k x p, 0 < j -> 0 < k -> parent k = j -> l !! k = Some x -> l !! parent j = Some p -> less x p = false).

(** The order holds but between [i] and its children: what a growth of the
    element at [i] leaves. *)
Definition but_down l (i : nat) : Prop :=
  (forall k, 0 < k -> parent k <> i -> ordered_at l k) /\
  (forall k x p, 0 < i -> 0 < k -> parent k = i -> l !! k = Some x -> l !! parent i = Some p -> less x p = false).

Lemma heap_root_least l : heap_order l -> forall j x r, l !! j = Some x -> l !! 0 = Some r -> less x r = false.
Proof.
  intros Hh. induction j as [j IH] using lt_wf_ind. intros x r Hx Hr. destruct (decide (j = 0)) as [-> | Hj].
  - rewrite Hr in Hx. injection Hx as ->. apply weak_refl.
  - pose proof (parent_lt j ltac:(lia)) as Hp. destruct (lookup_lt_is_Some_2 l (parent j)) as [p Ep].
    { apply lookup_lt_Some in Hx. lia. }
    apply (weak_trans r p x); [by apply (IH (parent j)) | by apply (Hh j); [lia | ..]].
Qed.

Lemma but_up_0 l : but_up l 0 -> heap_order l.
Proof. intros [Hu _] j Hj. apply Hu; lia. Qed.

Lemma but_up_snoc l x : heap_order l -> but_up (l ++ [x]) (length l).
Proof.
  intros Hh. split.
  - intros k Hk Hne y p Hy Hp. pose proof (parent_lt k Hk). pose proof (lookup_lt_Some _ _ _ Hy) as Hlt. rewrite length_app in Hlt. cbn in Hlt.
    rewrite lookup_app_l in Hy, Hp by lia. by apply (Hh k).
  - intros k y p _ Hk Hpk Hy _. pose proof (parent_lt k Hk). apply lookup_lt_Some in Hy. rewrite length_app in Hy. cbn in Hy. lia.
Qed.

Lemma but_up_step l j x p : 0 < j -> but_up l j -> l !! j = Some x -> l !! parent j = Some p -> less x p = true ->
  but_up (swapped (parent j) j l) (parent j).
Proof.
  intros Hj [Hu Hg] Hx Hp Hlt. pose proof (parent_lt j Hj) as Hpj. apply weak_asym in Hlt. split.
  - intros k Hk Hne y q. rewrite !(swapped_lookup _ _ _ _ p x) by done. rewrite (decide_False (P := k = parent j)) by done.
    destruct (decide (k = j)) as [-> | Hkj]; [rewrite decide_True by done; congruence |]. intros Hy.
    destruct (decide (parent k = parent j)) as [Hkp | Hkp]; [| destruct (decide (parent k = j)) as [Hkc | Hkc]]; intros Hq.
    + injection Hq as <-. apply (weak_trans x p y); [done |]. apply (Hu k Hk Hkj y p Hy). congruence.
    + injection Hq as <-. by apply (Hg k y p Hj Hk Hkc Hy).
    + by apply (Hu k Hk Hkj y q).
  - intros k y q Hpos Hk Hpk. rewrite !(swapped_lookup _ _ _ _ p x) by done. pose proof (parent_lt (parent j) Hpos). pose proof (parent_lt k Hk).
    rewrite (decide_False (P := k = parent j)), (decide_False (P := parent (parent j) = parent j)), (decide_False (P := parent (parent j) = j)) by lia.
    assert (Hqp : l !! parent (parent j) = Some q -> less p q = false) by (intros Hq; apply (Hu (parent j) Hpos ltac:(lia) p q Hp Hq)).
    destruct (decide (k = j)) as [-> | Hkj]; intros Hy Hq; simplify_eq; [by apply Hqp |].
    apply (weak_trans q p y); [by apply Hqp |]. apply (Hu k Hk Hkj y p Hy). congruence.
Qed.

(** The smaller child of [i]. *)
Definition least_child l (i j : nat) (y : A) : Prop :=
  0 < j /\ parent j = i /\ l !! j = Some y /\ forall k z, 0 < k -> parent k = i -> l !! k = Some z -> less z y = false.

Lemma but_down_step l i j x y : but_down l i -> l !! i = Some x -> least_child l i j y -> less y x = true ->
  but_down (swapped i j l) j.
Proof.
  intros [Hd Hg] Hx (Hj & Hpj & Hy & Hmin) Hlt. pose proof (parent_lt j Hj) as Hij. apply weak_asym in Hlt. split.
  - intros k Hk Hne z q. rewrite !(swapped_lookup _ _ _ _ x y) by done. rewrite (decide_False (P := parent k = j)) by done.
    destruct (decide (k = i)) as [-> | Hki]; [| destruct (decide (k = j)) as [-> | Hkj]]; intros Hz.
    + pose proof (parent_lt i Hk). rewrite decide_False by lia. intros Hq. injection Hz as <-. by apply (Hg j y q Hk Hj Hpj Hy).
    + rewrite decide_True by done. intros Hq. by simplify_eq.
    + destruct (decide (parent k = i)) as [Hpi | Hpi]; intros Hq; [injection Hq as <-; by apply (Hmin k z Hk Hpi) | by apply (Hd k Hk Hpi z q)].
  - intros k z q _ Hk Hpk. rewrite !(swapped_lookup _ _ _ _ x y) by done. rewrite Hpj. pose proof (parent_lt k Hk).
    rewrite (decide_True (P := i = i)), (decide_False (P := k = i)), (decide_False (P := k = j)) by (done || lia). intros Hz Hq. injection Hq as <-.
    apply (Hd k Hk ltac:(lia) z y Hz). congruence.
Qed.

Lemma but_down_done l i x : but_down l i -> l !! i = Some x ->
  (forall k z, 0 < k -> parent k = i -> l !! k = Some z -> less z x = false) -> heap_order l.
Proof.
  intros [Hd _] Hx Hc k Hk. destruct (decide (parent k = i)) as [Hp | Hp]; [| by apply Hd].
  intros z q Hz Hq. rewrite Hp, Hx in Hq. simplify_eq. by eapply (Hc k).
Qed.

(** An element that grows leaves the order broken only below it. *)
Lemma but_down_grown l i x y : heap_order l -> l !! i = Some x -> less y x = false -> but_down (<[i := y]> l) i.
Proof.
  intros Hh Hx Hyx. pose proof (lookup_lt_Some _ _ _ Hx) as Hi. split.
  - intros k Hk Hne z q. rewrite (list_lookup_insert_ne l i (parent k)) by done. rewrite list_lookup_insert.
    case_decide as Hki; intros Hz Hq; [| by apply (Hh k Hk)]. destruct Hki as [<- _]. simplify_eq.
    apply (weak_trans q x z); [by apply (Hh i Hk) | done].
  - intros k z q Hpos Hk Hpk. pose proof (parent_lt k Hk). pose proof (parent_lt i Hpos). rewrite !list_lookup_insert_ne by lia. intros Hz Hq.
    apply (weak_trans q x z); [by apply (Hh i Hpos) |]. apply (Hh k Hk z x Hz). by rewrite Hpk.
Qed.
End Order.

(** ** The loops restore the order *)
Section Loops.
Context {S X A : Type} `{HeapInterface S X} {less : A -> A -> bool} {ok : S -> Prop} {view : S -> list A}.
Context `{!StrictWeak less} `{!HeapLaws less ok view}.

(** A state reached from [h] by exchanges, in heap order. *)
Definition restored (h h' : S) : Prop := ok h' /\ view h' ≡ₚ view h /\ heap_order less (view h').

Lemma law_swap_lookup h i j x y : ok h -> view h !! i = Some x -> view h !! j = Some y ->
  exists h', h_Swap h i j = Some h' /\ ok h' /\ view h' = swapped i j (view h).
Proof. intros Hok Hx Hy. apply law_swap; [done | by eapply lookup_lt_Some ..]. Qed.

Lemma up_restores fuel : forall h j, ok h -> j < length (view h) -> j < fuel -> but_up less (view h) j ->
  exists h', up fuel h j = Some h' /\ restored h h'.
Proof.
  induction fuel as [| fuel IH]; intros h j Hok Hj Hf Hu; [lia |]. cbn [up]. fold (parent j).
  destruct (decide (parent j = j)) as [E | E].
  - destruct (decide (j = 0)) as [-> | Hz]; [| pose proof (parent_lt j ltac:(lia)); lia].
    exists h. split; [done |]. split; [done | split; [done |]]. by apply but_up_0.
  - assert (0 < j) as Hpos by (destruct j; [done | lia]). pose proof (parent_lt j Hpos) as Hpj.
    destruct (lookup_lt_is_Some_2 (view h) j Hj) as [x Hx]. destruct (lookup_lt_is_Some_2 (view h) (parent j) ltac:(lia)) as [p Hp].
    rewrite (law_less h j (parent j) x p) by done. cbn [mbind option_bind]. destruct (less x p) eqn:El.
    + destruct (law_swap_lookup h (parent j) j p x Hok Hp Hx) as (h1 & -> & Hok1 & Hv1). cbn [mbind option_bind].
      destruct (IH h1 (parent j)) as (h' & -> & Hok' & Hperm & Hh); [done | by rewrite Hv1, swapped_length; lia | lia | |].
      { rewrite Hv1. by apply (but_up_step less (view h) j x p). }
      exists h'. split; [done |]. split; [done | split; [| done]]. by rewrite Hperm, Hv1, swapped_Permutation.
    + exists h. split; [done |]. split; [done | split; [done |]]. intros k Hk. destruct (decide (k = j)) as [-> | Hkj].
      * intros y q Hy Hq. by simplify_eq.
      * by apply (proj1 Hu).
Qed.

Lemma up_idle fuel h j : ok h -> j < length (view h) -> heap_order less (view h) -> up (Datatypes.S fuel) h j = Some h.
Proof.
  intros Hok Hj Hh. cbn [up]. fold (parent j). destruct (decide (parent j = j)) as [| E]; [done |].
  assert (0 < j) as Hpos by (destruct j; [done | lia]). pose proof (parent_lt j Hpos) as Hpj.
  destruct (lookup_lt_is_Some_2 (view h) j Hj) as [x Hx]. destruct (lookup_lt_is_Some_2 (view h) (parent j) ltac:(lia)) as [p Hp].
  rewrite (law_less h j (parent j) x p) by done. cbn [mbind option_bind]. by rewrite (Hh j Hpos x p Hx Hp).
Qed.

(** The child [down] descends to is the least of the children. *)
Lemma least_child_found h i : ok h -> 2 * i + 1 < length (view h) ->
  exists right y, (if 2 * i + 1 + 1 <? length (view h) then h_Less h (2 * i + 1 + 1) (2 * i + 1) else Some false) = Some right /\
  least_child less (view h) i (if right then 2 * i + 1 + 1 else 2 * i + 1) y.
Proof.
  intros Hok Hlt. set (j1 := 2 * i + 1) in *. destruct (lookup_lt_is_Some_2 (view h) j1 Hlt) as [y1 Hy1].
  destruct (Nat.ltb_spec (j1 + 1) (length (view h))) as [H2 | H2].
  - destruct (lookup_lt_is_Some_2 (view h) (j1 + 1) H2) as [y2 Hy2]. rewrite (law_less h (j1 + 1) j1 y2 y1) by done.
    exists (less y2 y1). destruct (less y2 y1) eqn:El; [exists y2 | exists y1]; (split; [done |]); subst j1.
    all: split; [lia | split; [apply parent_child; lia | split; [done |]]]; intros k z Hk Hpk Hz;
      apply parent_child in Hpk as [-> | ->]; [| | done ..]; rewrite ?Hy1 in Hz; simplify_eq.
    all: replace (2 * i + 2) with (2 * i + 1 + 1) in * by lia; simplify_eq.
    all: (by apply weak_refl) || (by apply weak_asym) || done.
  - exists false, y1. split; [done |]. subst j1. split; [lia | split; [apply parent_child; lia | split; [done |]]]. intros k z Hk Hpk Hz.
    apply parent_child in Hpk as [-> | ->]; [| | done]; [simplify_eq; by apply weak_refl | apply lookup_lt_Some in Hz; lia].
Qed.

Lemma down_restores fuel : forall h i, ok h -> i < length (view h) -> length (view h) <= i + fuel -> but_down less (view h) i ->
  exists h' k, down fuel h i (length (view h)) = Some (h', k) /\ restored h h' /\ (i <= k) /\ (k = i -> h' = h).
Proof.
  induction fuel as [| fuel IH]; intros h i Hok Hi Hf Hd; [lia |]. cbn [down].
  destruct (lookup_lt_is_Some_2 (view h) i Hi) as [x Hx]. destruct (Nat.leb_spec (length (view h)) (2 * i + 1)) as [Hn | Hn].
  - exists h, i. split; [done |]. split; [| done]. split; [done | split; [done |]]. apply (but_down_done less (view h) i x Hd Hx).
    intros k z Hk Hpk Hz. apply lookup_lt_Some in Hz. apply parent_child in Hpk; lia.
  - destruct (least_child_found h i Hok Hn) as (right & y & -> & Hc). cbn [mbind option_bind].
    set (j := if right then _ else _) in *. pose proof Hc as (Hj & Hpj & Hy & Hmin). pose proof (parent_lt j Hj) as Hij.
    rewrite (law_less h j i y x) by done. cbn [mbind option_bind]. destruct (less y x) eqn:El.
    + destruct (law_swap_lookup h i j x y Hok Hx Hy) as (h1 & -> & Hok1 & Hv1). cbn [mbind option_bind].
      assert (Hl1 : length (view h1) = length (view h)) by (by rewrite Hv1, swapped_length). rewrite <- Hl1.
      destruct (IH h1 j) as (h' & k & -> & (Hok' & Hperm & Hh) & Hk & _); [done | rewrite Hl1; by eapply lookup_lt_Some | lia | |].
      { rewrite Hv1. by apply (but_down_step less (view h) i j x y). }
      exists h', k. split; [done |]. split; [| lia]. split; [done | split; [| done]]. by rewrite Hperm, Hv1, swapped_Permutation.
    + exists h, i. split; [done |]. split; [| done]. split; [done | split; [done |]]. apply (but_down_done less (view h) i x Hd Hx).
      intros k z Hk Hpk Hz. apply (weak_trans x y z); [done | by apply (Hmin k z)].
Qed.

(** [Fix] after the element at [i] grew. *)
Lemma Fix_restores h i : ok h -> i < length (view h) -> but_down less (view h) i -> exists h', Fix h i = Some h' /\ restored h h'.
Proof.
  intros Hok Hi Hd. unfold Fix. rewrite (law_len h Hok).
  destruct (down_restores (length (view h)) h i Hok Hi ltac:(lia) Hd) as (h' & k & -> & Hr & Hk & Hsame). cbn [mbind option_bind].
  destruct (Nat.ltb_spec i k) as [Hlt | Hge]; [by exists h' |].
  assert (h' = h) as -> by (apply Hsame; lia). exists h. split; [| done]. apply up_idle; [done | done | apply Hr].
Qed.

(** [Push] of an element at the end. *)
Lemma HeapPush_restores h x h1 a : heap_order less (view h) -> h_Push h x = Some h1 -> ok h1 -> view h1 = view h ++ [a] ->
  exists h', HeapPush h x = Some h' /\ restored h1 h'.
Proof.
  intros Hh Hpush Hok1 Hv1. unfold HeapPush. rewrite Hpush. cbn [mbind option_bind]. rewrite (law_len h1 Hok1), Hv1, length_app. cbn [length].
  rewrite Nat.add_sub. apply up_restores; [done | rewrite Hv1, length_app; cbn; lia | lia |]. rewrite Hv1. by apply but_up_snoc.
Qed.
End Loops.
