(* ===== verification/Netip.v ===== *)
(** * net/netip: addresses as the program reads and prints them

    [netip.ParseAddr], [Addr.Unmap] and [Addr.String], which decide the
    identity of a client in every per-IP key, the prefix operations used by
    the static lists, and the proof that printing is a canonical form. *)

From S2P Require Export GoStd.

(** An IPv4 address is its 32-bit number; an IPv6 address its eight 16-bit
    groups and its zone ([[]] for none). *)
Inductive addr :=
| V4 (a : Z)
| V6 (groups : list Z) (zone : gostring).

#[export] Instance addr_eq_dec : EqDecision addr.
Proof. solve_decision. Defined.

#[export] Program Instance addr_countable : Countable addr :=
  inj_countable' (fun a => match a with V4 n => inl n | V6 g z => inr (g, z) end)
    (fun s => match s with inl n => V4 n | inr (g, z) => V6 g z end) _.
Next Obligation. by intros []. Qed.

Definition addr_ok (a : addr) : Prop :=
  match a with
  | V4 n => 0 <= n < 2 ^ 32
  | V6 g _ => length g = 8%nat /\ Forall (fun x => 0 <= x < 2 ^ 16) g
  end.

(** ** Parsing *)

(** One dotted-quad scan: [pos] fields are complete in [done]; [val] and
    [digits] describe the field being read. *)
Fixpoint parse4_go (s : gostring) (fields : list Z) (val : Z) (digits : nat) : option (list Z) :=
  match s with
  | [] => if (length fields =? 3)%nat && negb (digits =? 0)%nat then Some (fields ++ [val]) else None
  | c :: r =>
    match dec_digit c with
    | Some d =>
      if (digits =? 1)%nat && (val =? 0) then None else
      if 255 <? val * 10 + d then None else parse4_go r fields (val * 10 + d) (S digits)
    | None =>
      if bool_decide (c = "."%char) then
        if (digits =? 0)%nat || (length fields =? 3)%nat then None
        else parse4_go r (fields ++ [val]) 0 0
      else None
    end
  end.

Definition parseIPv4 (s : gostring) : option (list Z) := parse4_go s [] 0 0.

Definition hex_digit (c : ascii) : option Z :=
  let v := byteZ c in
  if (48 <=? v) && (v <=? 57) then Some (v - 48)
  else if (97 <=? v) && (v <=? 102) then Some (v - 87)
  else if (65 <=? v) && (v <=? 70) then Some (v - 55)
  else None.

(** Reads one group of at most four hex digits: its value, the number of
    digits read, and the rest. *)
Fixpoint hex_field (room : nat) (n : nat) (acc : Z) (s : gostring) {struct s} : option (Z * nat * gostring) :=
  match s with
  | [] => Some (acc, n, [])
  | c :: r =>
    match hex_digit c with
    | None => Some (acc, n, s)
    | Some d => match room with O => None | S k => hex_field k (S n) (acc * 16 + d) r end
    end
  end.

(** The group loop; [groups] are complete, [ell] is the position of [::]. *)
Fixpoint parse6_loop (fuel : nat) (groups : list Z) (ell : option nat) (s : gostring)
  : option (list Z * option nat) :=
  match fuel with
  | O => match s with [] => Some (groups, ell) | _ => None end
  | S f =>
    match hex_field 4 0 0 s with
    | None => None
    | Some (_, O, _) => None
    | Some (v, S _, rest) =>
      match rest with
      | [] => Some (groups ++ [v], ell)
      | "."%char :: _ =>
        if (match ell with None => negb (length groups =? 6)%nat | Some _ => false end)
           || (8 <? length groups + 2)%nat then None
        else match parseIPv4 s with
             | Some [a; b; c; d] => Some (groups ++ [a * 256 + b; c * 256 + d], ell)
             | _ => None
             end
      | ":"%char :: [] => None
      | ":"%char :: ":"%char :: r =>
        match ell with
        | Some _ => None
        | None =>
          let g := groups ++ [v] in
          match r with
          | [] => Some (g, Some (length g))
          | _ => parse6_loop f g (Some (length g)) r
          end
        end
      | ":"%char :: r => parse6_loop f (groups ++ [v]) ell r
      | _ => None
      end
    end
  end.

Definition expand_ellipsis (groups : list Z) (ell : option nat) : option (list Z) :=
  if (length groups <? 8)%nat then
    match ell with
    | None => None
    | Some e => Some (take e groups ++ replicate (8 - length groups) 0 ++ drop e groups)
    end
  else match ell with Some _ => None | None => Some groups end.

Definition parse6_body (s : gostring) : option (list Z) :=
  match s with
  | ":"%char :: ":"%char :: [] => Some (replicate 8 0)
  | ":"%char :: ":"%char :: r =>
    match parse6_loop 8 [] (Some 0%nat) r with
    | Some (g, e) => expand_ellipsis g e
    | None => None
    end
  | _ => match parse6_loop 8 [] None s with
         | Some (g, e) => expand_ellipsis g e
         | None => None
         end
  end.

Definition parseIPv6 (s : gostring) : option addr :=
  match split_at_byte "%"%char s with
  | Some (_, []) => None
  | Some (body, zone) => match parse6_body body with Some g => Some (V6 g zone) | None => None end
  | None => match parse6_body s with Some g => Some (V6 g []) | None => None end
  end.

(** The first of [.], [:] and [%] decides the family. *)
Fixpoint first_sep (s : gostring) : option ascii :=
  match s with
  | [] => None
  | c :: r => if bool_decide (c = "."%char \/ c = ":"%char \/ c = "%"%char) then Some c else first_sep r
  end.

Definition ParseAddr (s : gostring) : option addr :=
  match first_sep s with
  | Some "."%char =>
    match parseIPv4 s with
    | Some [a; b; c; d] => Some (V4 (((a * 256 + b) * 256 + c) * 256 + d))
    | _ => None
    end
  | Some ":"%char => parseIPv6 s
  | _ => None
  end.

(** ** Unmapping and printing *)
Definition Is4In6 (a : addr) : bool :=
  match a with
  | V6 [0; 0; 0; 0; 0; 65535; _; _] _ => true
  | _ => false
  end.

Definition Unmap (a : addr) : addr :=
  match a with
  | V6 [0; 0; 0; 0; 0; 65535; h; l] _ => V4 (h * 65536 + l)
  | _ => a
  end.

Definition print4 (n : Z) : gostring :=
  FormatUint 10 (n / 16777216) ++ "."%char :: FormatUint 10 (n / 65536 mod 256) ++ "."%char ::
  FormatUint 10 (n / 256 mod 256) ++ "."%char :: FormatUint 10 (n mod 256).

(** The longest run of at least two zero groups, leftmost first, as
    (start, length); start 255 for none. *)
Fixpoint zero_run (g : list Z) : nat :=
  match g with 0 :: r => S (zero_run r) | _ => O end.

Fixpoint best_run (i : nat) (g : list Z) (start len : nat) : nat * nat :=
  match g with
  | [] => (start, len)
  | _ :: r =>
    let l := zero_run g in
    if (2 <=? l)%nat && (len <? l)%nat then best_run (S i) r i l else best_run (S i) r start len
  end.

Fixpoint print_groups (first : bool) (g : list Z) : gostring :=
  match g with
  | [] => []
  | v :: r => (if first then [] else [":"%char]) ++ FormatUint 16 v ++ print_groups false r
  end.

Definition print6 (g : list Z) : gostring :=
  match best_run 0 g 255 0 with
  | (_, O) => print_groups true g
  | (start, len) =>
    print_groups true (take start g) ++ [":"%char; ":"%char] ++ print_groups true (drop (start + len) g)
  end.

Definition addr_String (a : addr) : gostring :=
  match a with
  | V4 n => print4 n
  | V6 g zone =>
    let body := match g with
                | [0; 0; 0; 0; 0; 65535; h; l] => lit "::ffff:" ++ print4 (h * 65536 + l)
                | _ => print6 g
                end in
    match zone with [] => body | _ => body ++ "%"%char :: zone end
  end.

(** * Printing then parsing *)

(** Short numbers, digit by digit. *)
Section ShortFormat.
Context (b : Z) (Hb : 2 <= b).
Lemma format1 n : 0 <= n < b -> FormatUint b n = [digit_char n].
Proof. intros H. unfold FormatUint, format_digits. destruct (n <? b) eqn:E; [done | lia]. Qed.

Lemma format2 n : b <= n < b * b -> FormatUint b n = [digit_char (n / b); digit_char (n mod b)].
Proof.
  intros H. unfold FormatUint. change 64%nat with (S (S 62)). cbn [format_digits].
  assert (n / b < b) by (apply Z.div_lt_upper_bound; lia).
  destruct (n <? b) eqn:E; [lia |]. destruct (n / b <? b) eqn:E1; [done | lia].
Qed.

Lemma format3 n : b * b <= n < b * b * b ->
  FormatUint b n = [digit_char (n / b / b); digit_char (n / b mod b); digit_char (n mod b)].
Proof.
  intros H. unfold FormatUint. change 64%nat with (S (S (S 61))). cbn [format_digits].
  assert (b <= n / b) by (apply Z.div_le_lower_bound; nia).
  assert (n / b / b < b) by (rewrite Z.div_div by lia; apply Z.div_lt_upper_bound; nia).
  destruct (n <? b) eqn:E; [nia |]. destruct (n / b <? b) eqn:E1; [lia |].
  destruct (n / b / b <? b) eqn:E2; [done | lia].
Qed.

Lemma format4 n : b * b * b <= n < b * b * b * b ->
  FormatUint b n = [digit_char (n / b / b / b); digit_char (n / b / b mod b); digit_char (n / b mod b);
                    digit_char (n mod b)].
Proof.
  intros H. unfold FormatUint. change 64%nat with (S (S (S (S 60)))). cbn [format_digits].
  assert (b * b <= n / b) by (apply Z.div_le_lower_bound; nia).
  assert (b <= n / b / b) by (apply Z.div_le_lower_bound; nia).
  assert (n / b / b / b < b).
  { rewrite !Z.div_div by nia. apply Z.div_lt_upper_bound; nia. }
  destruct (n <? b) eqn:E; [nia |]. destruct (n / b <? b) eqn:E1; [nia |].
  destruct (n / b / b <? b) eqn:E2; [nia |]. destruct (n / b / b / b <? b) eqn:E3; [done | lia].
Qed.
End ShortFormat.

Lemma hex_digit_char d : 0 <= d < 16 -> hex_digit (digit_char d) = Some d.
Proof.
  intros H. unfold hex_digit, digit_char. destruct (d <? 10) eqn:E; bool_to_prop;
    rewrite byteZ_Zbyte, Z.mod_small by lia.
  - destruct (48 <=? 48 + d) eqn:E1; [| lia]. destruct (48 + d <=? 57) eqn:E2; [| lia]. simpl. f_equal; lia.
  - destruct (87 + d <=? 57) eqn:E2; [lia |]. rewrite andb_false_r.
    destruct (97 <=? 87 + d) eqn:E1; [| lia]. destruct (87 + d <=? 102) eqn:E3; [| lia]. simpl. f_equal; lia.
Qed.

Lemma parse4_octet v rest fields : 0 <= v < 256 ->
  exists k, parse4_go (FormatUint 10 v ++ rest) fields 0 0 = parse4_go rest fields v (S k).
Proof.
  intros H. pose proof (Z.mod_pos_bound v 10 ltac:(lia)). pose proof (Z.div_mod v 10 ltac:(lia)).
  destruct (decide (v < 10)); [| destruct (decide (v < 100))].
  - exists 0%nat. rewrite format1 by lia. cbn [app parse4_go]. rewrite dec_digit_char by lia. simpl andb.
    destruct (255 <? 0 * 10 + v) eqn:E; [lia | done].
  - exists 1%nat. assert (0 < v / 10 < 10) by (split; [apply Z.div_str_pos; lia | apply Z.div_lt_upper_bound; lia]).
    rewrite format2 by lia. cbn [app parse4_go]. rewrite !dec_digit_char by lia. cbn [Nat.eqb andb].
    destruct (255 <? 0 * 10 + v / 10) eqn:E; [lia |]. destruct (0 * 10 + v / 10 =? 0) eqn:E0; [lia |].
    destruct (255 <? (0 * 10 + v / 10) * 10 + v mod 10) eqn:E1; [lia |]. f_equal; lia.
  - exists 2%nat. assert (10 <= v / 10 < 100) by (split; [apply Z.div_le_lower_bound; lia | apply Z.div_lt_upper_bound; lia]).
    pose proof (Z.mod_pos_bound (v / 10) 10 ltac:(lia)). pose proof (Z.div_mod (v / 10) 10 ltac:(lia)).
    rewrite format3 by lia. cbn [app parse4_go]. rewrite !dec_digit_char by lia. cbn [Nat.eqb andb].
    destruct (255 <? 0 * 10 + v / 10 / 10) eqn:E; [lia |]. destruct (0 * 10 + v / 10 / 10 =? 0) eqn:E0; [lia |].
    destruct (255 <? (0 * 10 + v / 10 / 10) * 10 + (v / 10) mod 10) eqn:E1; [lia |].
    destruct (255 <? ((0 * 10 + v / 10 / 10) * 10 + (v / 10) mod 10) * 10 + v mod 10) eqn:E2; [lia |].
    f_equal; lia.
Qed.

Lemma parse4_dot rest fields v k : (length fields < 3)%nat ->
  parse4_go ("."%char :: rest) fields v (S k) = parse4_go rest (fields ++ [v]) 0 0.
Proof.
  intros H. cbn [parse4_go]. replace (dec_digit "."%char) with (@None Z) by (by vm_compute).
  rewrite bool_decide_eq_true_2 by done. destruct (length fields =? 3)%nat eqn:E; [apply Nat.eqb_eq in E; lia | done].
Qed.

Lemma first_sep_digits n rest : 0 <= n < 256 ->
  first_sep (FormatUint 10 n ++ "."%char :: rest) = Some "."%char.
Proof.
  intros H.
  assert (forall s, Forall (fun c => is_Some (hex_digit c)) s ->
    first_sep (s ++ "."%char :: rest) = Some "."%char) as Hs.
  { intros s Hs. induction Hs as [|c s [d Hc] Hs IH]; [done |]. simpl.
    rewrite bool_decide_eq_false_2; [done |]. intros [->|[->| ->]]; by vm_compute in Hc. }
  apply Hs. destruct (decide (n < 10)); [| destruct (decide (n < 100))].
  - rewrite format1 by lia. repeat constructor. rewrite hex_digit_char; [done | lia].
  - rewrite format2 by lia. repeat constructor; rewrite hex_digit_char; try done.
    + split; [apply Z.div_pos; lia |]. assert (n / 10 < 10) by (apply Z.div_lt_upper_bound; lia). lia.
    + pose proof (Z.mod_pos_bound n 10). lia.
  - rewrite format3 by lia. repeat constructor; rewrite hex_digit_char; try done.
    + rewrite Z.div_div by lia. split; [apply Z.div_pos; lia |].
      assert (n / (10 * 10) < 10) by (apply Z.div_lt_upper_bound; lia). lia.
    + pose proof (Z.mod_pos_bound (n / 10) 10). lia.
    + pose proof (Z.mod_pos_bound n 10). lia.
Qed.

Lemma ParseAddr_print4 n : 0 <= n < 2 ^ 32 -> ParseAddr (print4 n) = Some (V4 n).
Proof.
  intros H. unfold print4.
  assert (0 <= n / 16777216 < 256) as Ha by (split; [apply Z.div_pos; lia | apply Z.div_lt_upper_bound; lia]).
  pose proof (Z.mod_pos_bound (n / 65536) 256 ltac:(lia)) as Hb.
  pose proof (Z.mod_pos_bound (n / 256) 256 ltac:(lia)) as Hc.
  pose proof (Z.mod_pos_bound n 256 ltac:(lia)) as Hd.
  unfold ParseAddr. rewrite first_sep_digits by done. unfold parseIPv4.
  destruct (parse4_octet (n / 16777216)
    ("."%char :: FormatUint 10 (n / 65536 mod 256) ++ "."%char ::
       FormatUint 10 (n / 256 mod 256) ++ "."%char :: FormatUint 10 (n mod 256)) [] Ha) as [k1 ->].
  rewrite parse4_dot by (simpl; lia).
  destruct (parse4_octet (n / 65536 mod 256)
    ("."%char :: FormatUint 10 (n / 256 mod 256) ++ "."%char :: FormatUint 10 (n mod 256))
    ([] ++ [n / 16777216]) Hb) as [k2 ->].
  rewrite parse4_dot by (simpl; lia).
  destruct (parse4_octet (n / 256 mod 256) ("."%char :: FormatUint 10 (n mod 256))
    (([] ++ [n / 16777216]) ++ [n / 65536 mod 256]) Hc) as [k3 ->].
  rewrite parse4_dot by (simpl; lia).
  rewrite <- (app_nil_r (FormatUint 10 (n mod 256))).
  destruct (parse4_octet (n mod 256) [] ((([] ++ [n / 16777216]) ++ [n / 65536 mod 256]) ++
    [n / 256 mod 256]) Hd) as [k4 ->].
  simpl. f_equal. f_equal.
  pose proof (Z.div_mod n 256 ltac:(lia)). pose proof (Z.div_mod (n / 256) 256 ltac:(lia)) as H1.
  rewrite Z.div_div in H1 by lia. pose proof (Z.div_mod (n / 65536) 256 ltac:(lia)) as H2.
  rewrite Z.div_div in H2 by lia. change (256 * 256) with 65536 in H1. change (65536 * 256) with 16777216 in H2. lia.
Qed.

(** Reading back one printed group. *)
Definition ends_group (rest : gostring) : Prop :=
  match rest with [] => True | c :: _ => c = ":"%char end.

Lemma hex_field_group v rest : 0 <= v < 2 ^ 16 -> ends_group rest ->
  exists k, hex_field 4 0 0 (FormatUint 16 v ++ rest) = Some (v, S k, rest).
Proof.
  intros H Hr.
  assert (forall room n acc, hex_field room n acc rest = Some (acc, n, rest)) as Hend.
    { intros room n acc. destruct rest as [|c r]; [by destruct room |]. simpl in Hr. subst c. by destruct room. }
  pose proof (Z.mod_pos_bound v 16 ltac:(lia)). pose proof (Z.div_mod v 16 ltac:(lia)).
  pose proof (Z.mod_pos_bound (v / 16) 16 ltac:(lia)). pose proof (Z.div_mod (v / 16) 16 ltac:(lia)).
  pose proof (Z.mod_pos_bound (v / 16 / 16) 16 ltac:(lia)). pose proof (Z.div_mod (v / 16 / 16) 16 ltac:(lia)).
  destruct (decide (v < 16)); [| destruct (decide (v < 256)); [| destruct (decide (v < 4096))]].
  - exists 0%nat. rewrite format1 by lia. cbn [app hex_field]. rewrite hex_digit_char by lia. rewrite Hend.
    repeat f_equal; lia.
  - exists 1%nat. rewrite format2 by lia. cbn [app hex_field]. rewrite !hex_digit_char by lia. rewrite Hend.
    repeat f_equal; lia.
  - exists 2%nat. rewrite format3 by lia. cbn [app hex_field]. rewrite !hex_digit_char by lia. rewrite Hend.
    repeat f_equal; lia.
  - exists 3%nat. rewrite format4 by lia. cbn [app hex_field]. rewrite !hex_digit_char by lia. rewrite Hend.
    repeat f_equal; lia.
Qed.

Lemma FormatUint16_hex v : 0 <= v < 2 ^ 16 ->
  FormatUint 16 v <> [] /\ Forall (fun c => is_Some (hex_digit c)) (FormatUint 16 v).
Proof.
  intros H. pose proof (Z.mod_pos_bound v 16 ltac:(lia)). pose proof (Z.div_mod v 16 ltac:(lia)).
  pose proof (Z.mod_pos_bound (v / 16) 16 ltac:(lia)). pose proof (Z.div_mod (v / 16) 16 ltac:(lia)).
  pose proof (Z.mod_pos_bound (v / 16 / 16) 16 ltac:(lia)). pose proof (Z.div_mod (v / 16 / 16) 16 ltac:(lia)).
  destruct (decide (v < 16)); [| destruct (decide (v < 256)); [| destruct (decide (v < 4096))]];
    [rewrite format1 by lia | rewrite format2 by lia | rewrite format3 by lia | rewrite format4 by lia];
    (split; [done |]; repeat (apply Forall_cons; split); try apply Forall_nil_2;
     rewrite hex_digit_char by lia; done).
Qed.

(** One round of the group loop on a printed group. *)
Lemma loop_colon f groups ell v rest : 0 <= v < 2 ^ 16 ->
  match rest with c :: _ => is_Some (hex_digit c) | [] => False end ->
  parse6_loop (S f) groups ell (FormatUint 16 v ++ ":"%char :: rest) =
  parse6_loop f (groups ++ [v]) ell rest.
Proof.
  intros H Hr. destruct (hex_field_group v (":"%char :: rest) H ltac:(done)) as [k Hk].
  cbn [parse6_loop]. rewrite Hk. destruct rest as [|c r]; [done |].
  destruct Hr as [d Hd]. destruct c as [[] [] [] [] [] [] [] []]; try done; by vm_compute in Hd.
Qed.

Lemma loop_ellipsis f groups v rest : 0 <= v < 2 ^ 16 ->
  parse6_loop (S f) groups None (FormatUint 16 v ++ ":"%char :: ":"%char :: rest) =
  match rest with
  | [] => Some (groups ++ [v], Some (length (groups ++ [v])))
  | _ => parse6_loop f (groups ++ [v]) (Some (length (groups ++ [v]))) rest
  end.
Proof.
  intros H. destruct (hex_field_group v (":"%char :: ":"%char :: rest) H ltac:(done)) as [k Hk].
  cbn [parse6_loop]. rewrite Hk. done.
Qed.

Lemma loop_last f groups ell v : 0 <= v < 2 ^ 16 ->
  parse6_loop (S f) groups ell (FormatUint 16 v) = Some (groups ++ [v], ell).
Proof.
  intros H. destruct (hex_field_group v [] H ltac:(done)) as [k Hk]. rewrite app_nil_r in Hk.
  cbn [parse6_loop]. by rewrite Hk.
Qed.

Notation u16 := (fun x => 0 <= x < 2 ^ 16).

Lemma print_groups_cons v g : g <> [] ->
  print_groups true (v :: g) = FormatUint 16 v ++ ":"%char :: print_groups true g.
Proof. destruct g as [|w g]; [done |]. intros _. done. Qed.

Lemma print_groups_head g : Forall u16 g -> g <> [] ->
  match print_groups true g with c :: _ => is_Some (hex_digit c) | [] => False end.
Proof.
  intros H Hne. destruct g as [|v g]; [done |]. apply Forall_cons in H as [Hv _].
  destruct (FormatUint16_hex v Hv) as [H1 H2]. simpl.
  destruct (FormatUint 16 v) as [|c r]; [done |]. by apply Forall_cons in H2 as [H2 _].
Qed.

(** The loop reads a printed run of groups to the end of the string. *)
Lemma loop_groups g : forall f acc ell, Forall u16 g -> g <> [] -> (length g <= f)%nat ->
  parse6_loop f acc ell (print_groups true g) = Some (acc ++ g, ell).
Proof.
  induction g as [|v g IH]; intros f acc ell H Hne Hf; [done |].
  apply Forall_cons in H as [Hv Hg]. destruct f as [|f]; [simpl in Hf; lia |].
  destruct g as [|w g].
  - simpl print_groups. rewrite app_nil_r. by rewrite loop_last.
  - rewrite print_groups_cons by done. rewrite loop_colon; [| done | by apply print_groups_head].
    rewrite IH; [| done | done | simpl in *; lia]. by rewrite <- app_assoc.
Qed.

(** ... or to a double colon followed by the tail of the address. *)
Lemma loop_groups_ellipsis g tail : forall f acc, Forall u16 g -> g <> [] ->
  Forall u16 tail -> (length g + length tail <= f)%nat ->
  parse6_loop f acc None (print_groups true g ++ ":"%char :: ":"%char :: print_groups true tail) =
  Some (acc ++ g ++ tail, Some (length (acc ++ g))).
Proof.
  induction g as [|v g IH]; intros f acc H Hne Ht Hf; [done |].
  apply Forall_cons in H as [Hv Hg]. destruct f as [|f]; [simpl in Hf; lia |].
  destruct g as [|w g].
  - simpl print_groups at 1. rewrite app_nil_r, loop_ellipsis by done.
    destruct tail as [|x tail]; [done |].
    pose proof (print_groups_head (x :: tail) Ht ltac:(done)) as Hh.
    destruct (print_groups true (x :: tail)) as [|c r] eqn:E; [done |]. rewrite <- E.
    rewrite loop_groups; [| done | done | simpl in *; lia]. by rewrite <- app_assoc.
  - rewrite print_groups_cons by done. rewrite <- app_assoc, <- app_comm_cons.
    rewrite loop_colon; [| done |].
    + rewrite IH; [| done | done | done | simpl in *; lia]. by rewrite <- !app_assoc.
    + pose proof (print_groups_head (w :: g) Hg ltac:(done)) as Hh.
      destruct (print_groups true (w :: g)) as [|c r]; [destruct Hh | exact Hh].
Qed.

(** ** The zero run chosen by the printer *)
Lemma zero_run_spec g : g = replicate (zero_run g) 0 ++ drop (zero_run g) g /\ (zero_run g <= length g)%nat.
Proof.
  induction g as [|v g [IH1 IH2]]; [split; simpl; [done | lia] |].
  destruct v; simpl; try (split; [done | lia]). split; [by f_equal | lia].
Qed.

Definition run_ok (g : list Z) (p : nat * nat) : Prop :=
  p.2 = 0%nat \/ (g = take p.1 g ++ replicate p.2 0 ++ drop (p.1 + p.2) g /\ (0 < p.2)%nat /\ (p.1 + p.2 <= length g)%nat).

Lemma best_run_ok r : forall pre s l, run_ok (pre ++ r) (s, l) ->
  run_ok (pre ++ r) (best_run (length pre) r s l).
Proof.
  induction r as [|v r IH]; intros pre s l H; [done |]. cbn [best_run].
  assert (Hgo : forall s l, run_ok (pre ++ v :: r) (s, l) ->
    run_ok (pre ++ v :: r) (best_run (S (length pre)) r s l)).
  { intros s' l' H'. specialize (IH (pre ++ [v]) s' l'). rewrite length_app in IH. simpl in IH.
    rewrite Nat.add_1_r, <- app_assoc in IH. by apply IH. }
  destruct ((2 <=? zero_run (v :: r))%nat && _) eqn:E; apply Hgo; [| done].
  apply andb_true_iff in E as [E _]. apply Nat.leb_le in E. right. cbn [fst snd].
  destruct (zero_run_spec (v :: r)) as [H1 H2]. set (k := zero_run (v :: r)) in *. split_ands.
  - rewrite take_app_length, drop_app_ge by lia. f_equal.
    replace (length pre + k - length pre)%nat with k by lia. done.
  - lia.
  - rewrite length_app. lia.
Qed.

Lemma best_run_spec g : run_ok g (best_run 0 g 255 0).
Proof. apply (best_run_ok g []). by left. Qed.

Lemma hex_not_sep c d : hex_digit c = Some d -> c <> ":"%char /\ c <> "%"%char /\ c <> "."%char.
Proof. intros H. split_ands; intros ->; by vm_compute in H. Qed.

(** The body of an IPv6 string goes to the general branch when it starts with
    a digit. *)
Lemma parse6_body_digit c s d : hex_digit c = Some d ->
  parse6_body (c :: s) =
  match parse6_loop 8 [] None (c :: s) with Some (g, e) => expand_ellipsis g e | None => None end.
Proof.
  intros H. apply hex_not_sep in H as [H _]. unfold parse6_body.
  destruct c as [[] [] [] [] [] [] [] []]; try done; by destruct H.
Qed.

Lemma parse6_print6 g : length g = 8%nat -> Forall u16 g -> parse6_body (print6 g) = Some g.
Proof.
  intros Hl Hg. unfold print6. pose proof (best_run_spec g) as Hrun.
  destruct (best_run 0 g 255 0) as [start len]. destruct Hrun as [Hrun|(Hrun & Hpos & Hle)]; simpl in *.
  - subst len. assert (g <> []) as Hne by (by destruct g).
    pose proof (print_groups_head g Hg Hne) as Hh. pose proof (loop_groups g 8 [] None Hg Hne ltac:(lia)) as Hloop.
    destruct (print_groups true g) as [|c r]; [done |]. destruct Hh as [d Hd].
    rewrite (parse6_body_digit c r d Hd), Hloop. simpl. unfold expand_ellipsis. by rewrite Hl.
  - destruct len as [|len]; [lia |]. set (tail := drop (start + S len) g) in *.
    set (pre := take start g) in *.
    assert (Forall u16 pre /\ Forall u16 tail) as [Hpre Htail].
    { split; [by apply Forall_take | by apply Forall_drop]. }
    assert (length pre = start) as Hlp by (unfold pre; rewrite length_take; lia).
    assert (length pre + S len + length tail = 8)%nat as Hsum.
    { rewrite <- Hl, Hrun, !length_app, length_replicate. lia. }
    destruct pre as [|v pre'] eqn:Epre.
    + simpl app. destruct tail as [|w tail'] eqn:Etail.
      * assert (len = 7%nat) as -> by (simpl in Hsum; lia). rewrite Hrun. done.
      * pose proof (print_groups_head (w :: tail') Htail ltac:(done)) as Hh.
        pose proof (loop_groups (w :: tail') 8 [] (Some 0%nat) Htail ltac:(done) ltac:(lia)) as Hloop.
        change (print_groups true []) with (@nil ascii). simpl app.
        destruct (print_groups true (w :: tail')) as [|c r]; [done |]. destruct Hh as [d Hd].
        unfold parse6_body. rewrite Hloop. unfold expand_ellipsis. change ([] ++ w :: tail') with (w :: tail').
        rewrite (proj2 (Nat.ltb_lt (length (w :: tail')) 8)) by lia.
        assert (8 - length (w :: tail') = S len)%nat as -> by (simpl in Hsum; simpl; lia).
        f_equal. symmetry. exact Hrun.
    + pose proof (print_groups_head (v :: pre') Hpre ltac:(done)) as Hh.
      pose proof (loop_groups_ellipsis (v :: pre') tail 8 [] Hpre ltac:(done) Htail ltac:(lia)) as Hloop.
      change ([":"%char; ":"%char] ++ print_groups true tail) with
        (":"%char :: ":"%char :: print_groups true tail).
      destruct (print_groups true (v :: pre')) as [|c r]; [done |]. destruct Hh as [d Hd].
      rewrite <- app_comm_cons in *. rewrite (parse6_body_digit c _ d Hd), Hloop. unfold expand_ellipsis.
      change ([] ++ (v :: pre') ++ tail) with ((v :: pre') ++ tail). change ([] ++ v :: pre') with (v :: pre').
      rewrite length_app. rewrite (proj2 (Nat.ltb_lt (length (v :: pre') + length tail) 8)) by lia.
      assert (8 - (length (v :: pre') + length tail) = S len)%nat as -> by lia.
      rewrite take_app_length, drop_app_length. f_equal. symmetry. exact Hrun.
Qed.

(** Characters of a printed IPv6 body. *)
Definition body_char (c : ascii) : Prop := c = ":"%char \/ is_Some (hex_digit c).

Lemma print_groups_chars first g : Forall u16 g -> Forall body_char (print_groups first g).
Proof.
  revert first; induction g as [|v g IH]; intros first H; simpl; [constructor |].
  apply Forall_cons in H as [Hv Hg]. apply Forall_app. split.
  - destruct first; [constructor |]. constructor; [by left | constructor].
  - apply Forall_app. split; [| by apply IH]. destruct (FormatUint16_hex v Hv) as [_ H].
    eapply Forall_impl; [exact H |]. intros c Hc. by right.
Qed.

Lemma print6_chars g : length g = 8%nat -> Forall u16 g ->
  Forall body_char (print6 g) /\ ":"%char ∈ print6 g.
Proof.
  intros Hl Hg. unfold print6. destruct (best_run 0 g 255 0) as [start [|len]].
  - split; [by apply print_groups_chars |]. destruct g as [|v [|w g]]; try done.
    rewrite print_groups_cons by done. apply elem_of_app. right. left.
  - split.
    + apply Forall_app. split; [by apply print_groups_chars, Forall_take |].
      apply Forall_app. split; [repeat constructor | by apply print_groups_chars, Forall_drop].
    + apply elem_of_app. right. left.
Qed.

Lemma first_sep_body s rest : Forall body_char s -> ":"%char ∈ s -> first_sep (s ++ rest) = Some ":"%char.
Proof.
  induction 1 as [|c s Hc Hs IH]; intros Hin; [by apply not_elem_of_nil in Hin |]. simpl.
  destruct Hc as [->|[d Hd]]; [by rewrite bool_decide_eq_true_2 by tauto |].
  destruct (hex_not_sep c d Hd) as (H1 & H2 & H3). rewrite bool_decide_eq_false_2 by naive_solver.
  apply IH. apply elem_of_cons in Hin as [<-|Hin]; done.
Qed.

Lemma percent_not_body s : Forall body_char s -> "%"%char ∉ s.
Proof.
  intros H Hin. rewrite Forall_forall in H. destruct (H _ Hin) as [Hc | [d Hd]]; [done |].
  by vm_compute in Hd.
Qed.

Lemma addr_String_v6 g zone : length g = 8%nat -> Is4In6 (V6 g zone) = false ->
  addr_String (V6 g zone) = match zone with [] => print6 g | _ => print6 g ++ "%"%char :: zone end.
Proof.
  intros Hl H. unfold addr_String.
  assert (match g with
          | [0; 0; 0; 0; 0; 65535; h; l] => lit "::ffff:" ++ print4 (h * 65536 + l)
          | _ => print6 g end = print6 g) as ->; [| done].
  repeat match goal with
  | |- match ?x with _ => _ end = _ => destruct x; try done
  end.
Qed.

(** A canonical address reads back as itself. *)
Lemma ParseAddr_String a : addr_ok a -> Is4In6 a = false -> ParseAddr (addr_String a) = Some a.
Proof.
  destruct a as [n|g zone]; simpl addr_ok.
  - intros H _. by apply ParseAddr_print4.
  - intros [Hl Hg] H4. rewrite addr_String_v6 by done.
    destruct (print6_chars g Hl Hg) as [Hc Hin]. pose proof (percent_not_body _ Hc) as Hp.
    pose proof (parse6_print6 g Hl Hg) as Hbody.
    destruct zone as [|z zone].
    + rewrite <- (app_nil_r (print6 g)) at 1. unfold ParseAddr. rewrite first_sep_body, app_nil_r by done.
      unfold parseIPv6. apply split_at_byte_None in Hp. by rewrite Hp, Hbody.
    + unfold ParseAddr. rewrite first_sep_body by done. unfold parseIPv6.
      assert (split_at_byte "%"%char (print6 g ++ "%"%char :: z :: zone) = Some (print6 g, z :: zone)) as ->
        by (apply split_at_byte_Some; done).
      by rewrite Hbody.
Qed.

(** ** What the parser returns is well formed *)
Lemma hex_digit_range c d : hex_digit c = Some d -> 0 <= d < 16.
Proof.
  unfold hex_digit. intros H. repeat (case_match; try done); simplify_eq; bool_to_prop; lia.
Qed.

Lemma parse4_go_ok s : forall fields val digits r,
  Forall (fun x => 0 <= x < 256) fields -> 0 <= val < 256 ->
  parse4_go s fields val digits = Some r -> length r = 4%nat /\ Forall (fun x => 0 <= x < 256) r.
Proof.
  induction s as [|c s IH]; intros fields val digits r Hf Hv H; cbn [parse4_go] in H.
  - destruct (length fields =? 3)%nat eqn:E; [| done]. destruct (digits =? 0)%nat; [done |]. simplify_eq/=.
    apply Nat.eqb_eq in E. rewrite length_app, E. split; [done |]. apply Forall_app. split; [done |]. by constructor.
  - destruct (dec_digit c) as [d|] eqn:Hd.
    + apply dec_digit_range in Hd. destruct ((digits =? 1)%nat && (val =? 0)); [done |].
      destruct (255 <? val * 10 + d) eqn:E; [done |]. bool_to_prop. eapply IH; [done | | exact H]. lia.
    + case_bool_decide; [| done]. destruct (_ || _); [done |]. eapply IH; [| | exact H]; [| lia].
      apply Forall_app. split; [done |]. by constructor.
Qed.

Lemma hex_field_ok s : forall room n acc v k rest, 0 <= acc < 16 ^ Z.of_nat n -> (n + room <= 4)%nat ->
  hex_field room n acc s = Some (v, k, rest) -> 0 <= v < 2 ^ 16.
Proof.
  induction s as [|c s IH]; intros room n acc v k rest Ha Hn H; cbn [hex_field] in H.
  - simplify_eq. split; [lia |]. assert (16 ^ Z.of_nat k <= 16 ^ 4) by (apply Z.pow_le_mono_r; lia). lia.
  - destruct (hex_digit c) as [d|] eqn:Hd.
    + apply hex_digit_range in Hd. destruct room as [|room]; [done |].
      eapply (IH room (S n)); [| lia | exact H]. rewrite Nat2Z.inj_succ, Z.pow_succ_r by lia. lia.
    + simplify_eq. split; [lia |]. assert (16 ^ Z.of_nat k <= 16 ^ 4) by (apply Z.pow_le_mono_r; lia). lia.
Qed.

(** One turn of the group loop, with the separator compared rather than matched. *)
Lemma parse6_loop_S f groups ell s :
  parse6_loop (S f) groups ell s =
  match hex_field 4 0 0 s with
  | Some (v, S _, []) => Some (groups ++ [v], ell)
  | Some (v, S _, c :: r) =>
    if decide (c = "."%char) then
      if (match ell with None => negb (length groups =? 6)%nat | Some _ => false end)
         || (8 <? length groups + 2)%nat then None
      else match parseIPv4 s with
           | Some [a; b; c; d] => Some (groups ++ [a * 256 + b; c * 256 + d], ell)
           | _ => None
           end
    else if decide (c = ":"%char) then
      match r with
      | [] => None
      | c' :: r' =>
        if decide (c' = ":"%char) then
          match ell with
          | Some _ => None
          | None =>
            match r' with
            | [] => Some (groups ++ [v], Some (length (groups ++ [v])))
            | _ => parse6_loop f (groups ++ [v]) (Some (length (groups ++ [v]))) r'
            end
          end
        else parse6_loop f (groups ++ [v]) ell r
      end
    else None
  | _ => None
  end.
Proof.
  cbn [parse6_loop]. destruct (hex_field 4 0 0 s) as [[[v [|k]] [|c r]]|]; try done.
  destruct (decide (c = "."%char)) as [->|H1]; [done |].
  destruct (decide (c = ":"%char)) as [->|H2].
  - destruct r as [|c' r']; [done |]. destruct (decide (c' = ":"%char)) as [->|H3]; [done |].
    destruct c' as [[] [] [] [] [] [] [] []]; done.
  - destruct c as [[] [] [] [] [] [] [] []]; done.
Qed.

Lemma parseIPv4_ok s r : parseIPv4 s = Some r -> length r = 4%nat /\ Forall (fun x => 0 <= x < 256) r.
Proof. intros H. unfold parseIPv4 in H. apply parse4_go_ok in H; [done | constructor | lia]. Qed.

Definition within (ell : option nat) (n : nat) : Prop :=
  match ell with Some i => (i <= n)%nat | None => True end.

Lemma within_mono ell n m : within ell n -> (n <= m)%nat -> within ell m.
Proof. destruct ell; simpl; lia. Qed.

Lemma parse6_loop_ok f : forall groups ell s g e, Forall u16 groups -> (length groups + f = 8)%nat ->
  within ell (length groups) -> parse6_loop f groups ell s = Some (g, e) ->
  Forall u16 g /\ (length g <= 8)%nat /\ within e (length g).
Proof.
  induction f as [|f IH]; intros groups ell s g e Hg Hl He H.
  - cbn in H. destruct s; [| done]. simplify_eq. split_ands; [done | lia | done].
  - rewrite parse6_loop_S in H.
    destruct (hex_field 4 0 0 s) as [[[v [|k]] rest]|] eqn:Hh; [done | | done].
    apply hex_field_ok in Hh; [| simpl; lia | lia].
    assert (Forall u16 (groups ++ [v])) as Hg' by (apply Forall_app; split; [done | by constructor]).
    assert (length (groups ++ [v]) = S (length groups)) as Hl' by (rewrite length_app; simpl; lia).
    assert (He' : within ell (length (groups ++ [v]))) by (eapply within_mono; [exact He | lia]).
    destruct rest as [|c r]; [simplify_eq; split_ands; [done | lia | done] |].
    destruct (decide (c = "."%char)) as [->|_].
    + destruct (_ || _) eqn:E; [done |]. apply orb_false_iff in E as [_ E]. apply Nat.ltb_ge in E.
      destruct (parseIPv4 s) as [q|] eqn:E4; [| done]. apply parseIPv4_ok in E4 as [_ E4].
      destruct q as [|? [|? [|? [|? [|]]]]]; try done. decompose_Forall_hyps.
      rewrite length_app. split_ands; [| simpl; lia | eapply within_mono; [exact He | lia]].
      apply Forall_app. split; [done |]. repeat constructor; lia.
    + destruct (decide (c = ":"%char)) as [->|_]; [| done]. destruct r as [|c' r']; [done |].
      destruct (decide (c' = ":"%char)) as [->|_]; [| eapply IH; [exact Hg' | lia | exact He' | exact H]].
      destruct ell; [done |]. destruct r'; [simplify_eq; split_ands; [done | lia | simpl; lia] |].
      eapply IH; [exact Hg' | lia | | exact H]. simpl; lia.
Qed.

Lemma expand_ellipsis_ok groups ell g : Forall u16 groups -> (length groups <= 8)%nat ->
  within ell (length groups) ->
  expand_ellipsis groups ell = Some g -> length g = 8%nat /\ Forall u16 g.
Proof.
  intros Hg Hl He H. unfold expand_ellipsis in H. destruct (length groups <? 8)%nat eqn:E.
  - apply Nat.ltb_lt in E. destruct ell as [i|]; [| done]. simplify_eq.
    rewrite !length_app, length_take, length_replicate, length_drop. split; [lia |].
    apply Forall_app. split; [by apply Forall_take |]. apply Forall_app. split; [| by apply Forall_drop].
    apply Forall_replicate. lia.
  - apply Nat.ltb_ge in E. destruct ell; [done |]. simplify_eq. split; [lia | done].
Qed.

Lemma parse6_body_alt s :
  parse6_body s = Some (replicate 8 0) \/
  exists ell r, within ell 0 /\
    parse6_body s = match parse6_loop 8 [] ell r with Some (g, e) => expand_ellipsis g e | None => None end.
Proof.
  assert (Hs : (exists r, s = ":"%char :: ":"%char :: r) \/
    parse6_body s = match parse6_loop 8 [] None s with Some (g, e) => expand_ellipsis g e | None => None end).
  { destruct s as [|c s]; [by right |].
    destruct (decide (c = ":"%char)) as [->|H]; [| right; destruct c as [[] [] [] [] [] [] [] []]; done].
    destruct s as [|c' s]; [by right |].
    destruct (decide (c' = ":"%char)) as [->|H]; [left; eauto | right; destruct c' as [[] [] [] [] [] [] [] []]; done]. }
  destruct Hs as [[[|c r] ->] | ->]; [by left | right; exists (Some 0%nat), (c :: r) | right; by exists None, s].
  split; [simpl; lia | done].
Qed.

Lemma parse6_body_ok s g : parse6_body s = Some g -> length g = 8%nat /\ Forall u16 g.
Proof.
  destruct (parse6_body_alt s) as [-> | (ell & r & He & ->)]; intros H.
  - simplify_eq. split; [done | repeat constructor; lia].
  - destruct (parse6_loop 8 [] ell r) as [[g' e]|] eqn:E; [| done].
    apply parse6_loop_ok in E as (H1 & H2 & H3); [| constructor | done | done].
    by eapply expand_ellipsis_ok.
Qed.

Lemma ParseAddr_ok s a : ParseAddr s = Some a -> addr_ok a.
Proof.
  unfold ParseAddr. destruct (first_sep s) as [c|]; [| done].
  assert (Hv6 : parseIPv6 s = Some a -> addr_ok a).
  { unfold parseIPv6. intros H. destruct (split_at_byte _ s) as [[body zone]|].
    - destruct zone; [done |]. destruct (parse6_body body) eqn:E; [| done]. simplify_eq. by apply parse6_body_ok in E.
    - destruct (parse6_body s) eqn:E; [| done]. simplify_eq. by apply parse6_body_ok in E. }
  destruct c as [[] [] [] [] [] [] [] []]; try done.
  destruct (parseIPv4 s) as [r|] eqn:E; [| done]. unfold parseIPv4 in E.
  apply parse4_go_ok in E as [_ E]; [| constructor | lia].
  destruct r as [|? [|? [|? [|? [|]]]]]; try done. intros [= <-]. decompose_Forall_hyps. simpl. lia.
Qed.

Lemma Unmap_id a : Is4In6 a = false -> Unmap a = a.
Proof.
  destruct a as [n | g zone]; [done |]. unfold Is4In6, Unmap.
  repeat match goal with
  | |- match ?x with _ => _ end = false -> _ => destruct x; try reflexivity
  end. discriminate.
Qed.

Lemma Unmap_ok a : addr_ok a -> addr_ok (Unmap a) /\ Is4In6 (Unmap a) = false.
Proof.
  destruct a as [n|g zone]; [done |]. intros [Hl Hg].
  destruct (Is4In6 (V6 g zone)) eqn:E.
  - assert (exists h l, g = [0; 0; 0; 0; 0; 65535; h; l]) as (h & l & ->).
    { unfold Is4In6 in E. repeat (case_match; try done). eauto. }
    decompose_Forall_hyps. simpl. split; [lia | done].
  - by rewrite Unmap_id.
Qed.
