(* ===== verification/Float.v ===== *)
(** * Floating point

    Go's float64 is [SpecFloat] at precision 53 and maximal exponent 1024.
    Integer operands whose exact result fits 53 bits are computed exactly:
    [f64_mul] and [f64_trunc], proved on the mantissas. *)

From Stdlib Require Export SpecFloat.
From S2P Require Export Prelude.

Open Scope Z_scope.

Abbreviation float := spec_float.
Definition f64 (n : Z) : float := binary_normalize 53 1024 n 0 false.   (* float64(n) *)
Definition fdiv (a b : float) : float := SFdiv 53 1024 a b.
Definition fmul (a b : float) : float := SFmul 53 1024 a b.
Definition fadd (a b : float) : float := SFadd 53 1024 a b.
Definition fsub (a b : float) : float := SFsub 53 1024 a b.
Definition fgt (a b : float) : bool := SFltb b a.
Definition fge (a b : float) : bool := SFleb b a.
Definition flt (a b : float) : bool := SFltb a b.
Definition positive (a : float) : bool := fgt a (f64 0).

(** A finite float truncated towards zero. *)
Definition float_trunc (f : float) : option Z :=
  match f with
  | S754_zero _ => Some 0
  | S754_finite s m e => let n := if 0 <=? e then Z.pos m * 2 ^ e else Z.pos m / 2 ^ (- e) in Some (if s then - n else n)
  | _ => None
  end.

(** [int(f)] of a float64; Go leaves it to the implementation outside int64. *)
Class FloatToInt := { int_unrepresentable : float -> Z }.
Definition int_of_float `{FloatToInt} (f : float) : Z :=
  match float_trunc f with Some n => if decide (int64_ok n) then n else int_unrepresentable f | None => int_unrepresentable f end.

(** [uint64(f)], likewise. *)
Definition uint64_of_float `{FloatToInt} (f : float) : Z :=
  match float_trunc f with Some n => if decide (0 <= n < 2 ^ 64) then n else wrapu64 (int_unrepresentable f) | None => wrapu64 (int_unrepresentable f) end.

(** ** Integers below 2^53 *)

(** The digits of a positive integer, and its float with a 53-bit mantissa. *)
Definition digits (n : Z) : Z := Z.log2 n + 1.
Definition exact (n : Z) : float := S754_finite false (Z.to_pos (n * 2 ^ (53 - digits n))) (digits n - 53).

Lemma digits_pos n : 0 < n -> 2 ^ (digits n - 1) <= n < 2 ^ digits n.
Proof. intros Hn. unfold digits. rewrite Z.add_simpl_r. pose proof (Z.log2_spec n Hn). rewrite <- Z.add_1_r in *. lia. Qed.

Lemma digits_small n : 0 < n < 2 ^ 53 -> 1 <= digits n <= 53.
Proof. intros Hn. unfold digits. pose proof (Z.log2_nonneg n). assert (Z.log2 n < 53) by (apply Z.log2_lt_pow2; lia). lia. Qed.

Lemma digits_scale n k : 0 < n -> 0 <= k -> digits (n * 2 ^ k) = digits n + k.
Proof. intros. unfold digits. rewrite Z.log2_mul_pow2 by lia. lia. Qed.

Lemma digits2_digits p : Z.pos (digits2_pos p) = digits (Z.pos p).
Proof.
  induction p as [p IH | p IH |]; cbn [digits2_pos]; [| | reflexivity]; rewrite Pos2Z.inj_succ, IH; unfold digits.
  - by rewrite Pos2Z.inj_xI, Z.log2_succ_double by lia.
  - by rewrite Pos2Z.inj_xO, Z.log2_double by lia.
Qed.

(** Shifting out zero bits is exact. *)
Lemma shr_1_double m : 0 <= m -> shr_1 (Build_shr_record (m * 2) false false) = Build_shr_record m false false.
Proof. intros Hm. destruct m as [| p | p]; [reflexivity | | lia]. by replace (Z.pos p * 2) with (Z.pos p~0) by lia. Qed.

Lemma iter_pos_exact (p : BinNums.positive) : forall m, 0 <= m ->
  SpecFloat.iter_pos shr_1 p (Build_shr_record (m * 2 ^ Z.pos p) false false) = Build_shr_record m false false.
Proof.
  induction p as [p IH | p IH |]; intros m Hm; cbn [SpecFloat.iter_pos].
  - pose proof (Z.pow_nonneg 2 (Z.pos p) ltac:(lia)).
    replace (2 ^ Z.pos p~1) with (2 ^ Z.pos p * 2 ^ Z.pos p * 2)
      by (rewrite <- Z.pow_add_r, Z.mul_comm, <- Z.pow_succ_r by lia; f_equal; lia).
    rewrite !Z.mul_assoc, shr_1_double, !IH by nia. done.
  - pose proof (Z.pow_nonneg 2 (Z.pos p) ltac:(lia)).
    replace (2 ^ Z.pos p~0) with (2 ^ Z.pos p * 2 ^ Z.pos p) by (rewrite <- Z.pow_add_r by lia; f_equal; lia).
    rewrite Z.mul_assoc, !IH by nia. done.
  - by apply shr_1_double.
Qed.

Lemma shr_exact m k e : 0 <= m -> 0 <= k -> shr (Build_shr_record (m * 2 ^ k) false false) e k = (Build_shr_record m false false, e + k).
Proof.
  intros Hm Hk. destruct k as [| p | p]; [| | lia]; cbn [shr].
  - by rewrite Z.mul_1_r, Z.add_0_r.
  - by rewrite iter_pos_exact.
Qed.

Lemma shr_fexp_exact m k e : 0 < m -> 0 <= k -> fexp 53 1024 (digits m + k + e) - e = k ->
  shr_fexp 53 1024 (m * 2 ^ k) e loc_Exact = (Build_shr_record m false false, e + k).
Proof.
  intros Hm Hk He. unfold shr_fexp, shr_record_of_loc.
  replace (Zdigits2 (m * 2 ^ k)) with (digits m + k).
  - rewrite He. apply shr_exact; lia.
  - rewrite <- digits_scale by done. assert (0 < m * 2 ^ k) by (apply Z.mul_pos_pos; [done | by apply Z.pow_pos_nonneg]).
    destruct (m * 2 ^ k); [lia | symmetry; apply digits2_digits | lia].
Qed.

(** Rounding an integer of at most 53 digits, wherever its mantissa starts. *)
Lemma round_exact n k : 0 < n < 2 ^ 53 -> 53 - digits n <= k ->
  binary_round_aux 53 1024 false (n * 2 ^ k) (- k) loc_Exact = exact n.
Proof.
  intros Hn Hk. pose proof (digits_small n Hn) as Hd. set (m := n * 2 ^ (53 - digits n)).
  assert (Hm : 0 < m) by (apply Z.mul_pos_pos; [lia | apply Z.pow_pos_nonneg; lia]).
  assert (Hdm : digits m = 53) by (unfold m; rewrite digits_scale by lia; lia).
  unfold binary_round_aux. replace (n * 2 ^ k) with (m * 2 ^ (k - (53 - digits n))).
  - rewrite (shr_fexp_exact m) by (unfold fexp, emin; lia). cbn [shr_m loc_of_shr_record round_nearest_even].
    replace (- k + (k - (53 - digits n))) with (digits n - 53) by lia.
    rewrite <- (Z.mul_1_r m) at 1. change 1 with (2 ^ 0). rewrite (shr_fexp_exact m) by (unfold fexp, emin; lia).
    cbn [shr_m]. unfold exact. fold m. destruct m as [| p | p]; [lia | | lia]. cbn [Z.to_pos].
    by rewrite (proj2 (Z.leb_le _ _)) by lia; rewrite Z.add_0_r.
  - unfold m. rewrite <- Z.mul_assoc, <- Z.pow_add_r by lia. do 2 f_equal. lia.
Qed.

(** [shl_align] moves zero bits into the mantissa. *)
Lemma iter_xO p d : Z.pos (Pos.iter xO p d) = Z.pos p * 2 ^ Z.pos d.
Proof.
  induction d as [| d IH] using Pos.peano_ind; [cbn; lia |].
  rewrite Pos.iter_succ, Pos2Z.inj_xO, IH, Pos2Z.inj_succ, Z.pow_succ_r by lia. lia.
Qed.

Lemma f64_exact n : 0 < n < 2 ^ 53 -> f64 n = exact n.
Proof.
  intros Hn. pose proof (digits_small n Hn) as Hd. rewrite <- (round_exact n (53 - digits n)) by lia.
  unfold f64, binary_normalize. destruct n as [| p | p]; [lia | | lia]. unfold binary_round, shl_align.
  rewrite digits2_digits. replace (fexp 53 1024 (digits (Z.pos p) + 0) - 0) with (digits (Z.pos p) - 53) by (unfold fexp, emin; lia).
  destruct (digits (Z.pos p) - 53) as [| d | d] eqn:Ed; [| lia |].
  - replace (53 - digits (Z.pos p)) with 0 by lia. by rewrite Z.mul_1_r.
  - rewrite iter_xO. replace (fexp 53 1024 (digits (Z.pos p) + 0)) with (Z.neg d) by (unfold fexp, emin; lia).
    by replace (53 - digits (Z.pos p)) with (Z.pos d) by lia.
Qed.

Lemma exact_mul a b : 0 < a -> 0 < b -> a * b < 2 ^ 53 -> fmul (exact a) (exact b) = exact (a * b).
Proof.
  intros Ha Hb Hab. assert (digits a <= 53 /\ digits b <= 53) as [Hda Hdb] by (split; apply digits_small; nia).
  pose proof (Z.log2_mul_below a b Ha Hb) as Hl. rewrite <- (round_exact (a * b) (106 - digits a - digits b)) by (unfold digits in *; lia).
  unfold fmul, exact, SFmul. cbn [xorb]. rewrite Pos2Z.inj_mul.
  assert (Hp : forall n k, 0 < n -> 0 <= k -> Z.pos (Z.to_pos (n * 2 ^ k)) = n * 2 ^ k).
  { intros n k Hn Hk. apply Z2Pos.id, Z.mul_pos_pos; [done | by apply Z.pow_pos_nonneg]. }
  rewrite !Hp by lia. f_equal; [| lia].
  replace (106 - digits a - digits b) with ((53 - digits a) + (53 - digits b)) by lia. rewrite Z.pow_add_r by lia. lia.
Qed.

(** ** What the development uses *)
Lemma f64_mul a b : 0 < a -> 0 < b -> a * b < 2 ^ 53 -> fmul (f64 a) (f64 b) = f64 (a * b).
Proof. intros. rewrite !f64_exact by nia. by apply exact_mul. Qed.

Lemma f64_trunc n : 0 <= n < 2 ^ 53 -> float_trunc (f64 n) = Some n.
Proof.
  intros Hn. destruct (decide (n = 0)) as [-> | Hz]; [done |]. rewrite f64_exact by lia.
  pose proof (digits_small n ltac:(lia)) as Hd. unfold exact, float_trunc.
  rewrite Z2Pos.id by (apply Z.mul_pos_pos; [lia | apply Z.pow_pos_nonneg; lia]). f_equal.
  case_if He; bool_to_prop.
  - replace (digits n) with 53 by lia. cbn. lia.
  - replace (- (digits n - 53)) with (53 - digits n) by lia. apply Z.div_mul, Z.pow_nonzero; lia.
Qed.
