(* ===== verification/FloatSign.v ===== *)
(** * Signs and order of floating-point results

    What a float64 computation on non-negative operands can be: a non-negative
    float, maybe infinite, never NaN; [math.Max], [math.Min] and [math.Abs] of
    the Go library; and that [1 - u] is not negative for a [u] between 0 and
    1. *)

From S2P Require Export Float.

Open Scope Z_scope.

(** ** math.Max, math.Min and math.Abs *)
Definition is_nan (x : float) : bool := match x with S754_nan => true | _ => false end.
Definition is_inf (x : float) (negative : bool) : bool := match x with S754_infinity s => Bool.eqb s negative | _ => false end.
Definition signbit (x : float) : bool := match x with S754_zero s | S754_infinity s | S754_finite s _ _ => s | S754_nan => false end.
Definition is_zero (x : float) : bool := match x with S754_zero _ => true | _ => false end.

Definition Max (x y : float) : float :=
  if is_inf x false || is_inf y false then S754_infinity false
  else if is_nan x || is_nan y then S754_nan
  else if is_zero x && is_zero y then (if signbit x then y else x)
  else if fgt x y then x else y.

Definition Min (x y : float) : float :=
  if is_inf x true || is_inf y true then S754_infinity true
  else if is_nan x || is_nan y then S754_nan
  else if is_zero x && is_zero y then (if signbit x then x else y)
  else if flt x y then x else y.

Definition Abs (x : float) : float := SFabs x.

(** [finite] of core/anomaly/model.go. *)
Definition finite (v : float) : bool := match v with S754_zero _ | S754_finite _ _ _ => true | _ => false end.

(** Not negative, not NaN; -0 counts as 0, as in a comparison. *)
Definition nonneg (x : float) : Prop :=
  match x with S754_zero _ => True | S754_infinity s => s = false | S754_nan => False | S754_finite s _ _ => s = false end.
Definition nonzero (x : float) : Prop := match x with S754_finite s _ _ => s = false | _ => False end.

(** A mantissa of at most 53 bits, as every result of an operation has. *)
Definition narrow (x : float) : Prop := match x with S754_finite _ m _ => Z.pos m < 2 ^ 53 | _ => True end.

(** Between 0 and 1. *)
Definition unit_interval (x : float) : Prop := nonneg x /\ SFleb x (f64 1) = true.

(** ** Rounding keeps the sign *)
Lemma shr_1_m r : 0 <= shr_m r -> shr_m (shr_1 r) = shr_m r / 2.
Proof.
  destruct r as [[| [p | p |] | p] r s]; cbn [shr_m shr_1]; intros; try lia; try done.
  - rewrite Pos2Z.inj_xI. apply (Z.div_unique_pos _ 2 _ 1); lia.
  - rewrite Pos2Z.inj_xO. apply (Z.div_unique_pos _ 2 _ 0); lia.
Qed.

Lemma iter_shr_m (p : BinNums.positive) : forall r, 0 <= shr_m r ->
  shr_m (SpecFloat.iter_pos shr_1 p r) = shr_m r / 2 ^ Z.pos p.
Proof.
  assert (Hdiv : forall a n, 0 <= a -> 0 <= n -> 0 <= a / 2 ^ n) by (intros; apply Z.div_pos; [done | by apply Z.pow_pos_nonneg]).
  induction p as [p IH | p IH |]; intros r Hr; cbn [SpecFloat.iter_pos].
  - assert (H1 : 0 <= shr_m (shr_1 r)) by (rewrite shr_1_m by done; by apply (Hdiv _ 1)).
    rewrite (IH (SpecFloat.iter_pos shr_1 p _)), (IH (shr_1 r)), shr_1_m by (rewrite ?IH by done; by try apply Hdiv).
    replace (Z.pos p~1) with (1 + Z.pos p + Z.pos p) by lia. rewrite !Z.pow_add_r, Z.pow_1_r by lia.
    assert (0 < 2 ^ Z.pos p) by (by apply Z.pow_pos_nonneg). rewrite !Z.div_div by nia. f_equal. lia.
  - rewrite (IH (SpecFloat.iter_pos shr_1 p _)), (IH r) by (rewrite ?IH by done; by try apply Hdiv).
    replace (Z.pos p~0) with (Z.pos p + Z.pos p) by lia. rewrite !Z.pow_add_r by lia.
    assert (0 < 2 ^ Z.pos p) by (by apply Z.pow_pos_nonneg). by rewrite Z.div_div by lia.
  - by apply shr_1_m.
Qed.

Lemma shr_loc_m m l : shr_m (shr_record_of_loc m l) = m.
Proof. by destruct l as [| []]. Qed.

Lemma shr_fexp_m m e l : 0 <= m -> shr_m (fst (shr_fexp 53 1024 m e l)) = m / 2 ^ Z.max 0 (fexp 53 1024 (Zdigits2 m + e) - e).
Proof.
  intros Hm. unfold shr_fexp. set (k := fexp _ _ _ - e). destruct k as [| p | p] eqn:Ek; cbn [shr fst].
  - by rewrite shr_loc_m, Z.div_1_r.
  - rewrite iter_shr_m by (by rewrite shr_loc_m). by rewrite shr_loc_m.
  - by rewrite shr_loc_m, Z.div_1_r.
Qed.

Lemma shr_fexp_nonneg m e l : 0 <= m -> 0 <= shr_m (fst (shr_fexp 53 1024 m e l)).
Proof. intros Hm. rewrite shr_fexp_m by done. apply Z.div_pos; [done | apply Z.pow_pos_nonneg; lia]. Qed.

Lemma shr_fexp_narrow m e l : 0 <= m -> shr_m (fst (shr_fexp 53 1024 m e l)) < 2 ^ 53.
Proof.
  intros Hm. rewrite shr_fexp_m by done.
  apply Z.div_lt_upper_bound; [apply Z.pow_pos_nonneg; lia |]. rewrite <- Z.pow_add_r by lia.
  destruct m as [| p | p]; [apply Z.pow_pos_nonneg; lia | | lia]. cbn [Zdigits2]. rewrite digits2_digits.
  pose proof (digits_pos (Z.pos p) ltac:(lia)) as [_ Hd]. eapply Z.lt_le_trans; [exact Hd |]. apply Z.pow_le_mono_r; [lia |].
  unfold fexp. lia.
Qed.

Lemma round_even_nonneg m l : 0 <= m -> 0 <= round_nearest_even m l.
Proof. intros Hm. unfold round_nearest_even. repeat case_match; lia. Qed.

Lemma round_aux_nonneg m e l : 0 <= m -> nonneg (binary_round_aux 53 1024 false m e l).
Proof.
  intros Hm. unfold binary_round_aux. pose proof (shr_fexp_nonneg m e l Hm) as H1. destruct (shr_fexp 53 1024 m e l) as [r1 e1]. cbn [fst] in H1.
  pose proof (shr_fexp_nonneg _ e1 loc_Exact (round_even_nonneg (shr_m r1) (loc_of_shr_record r1) H1)) as H2.
  destruct (shr_fexp 53 1024 _ e1 loc_Exact) as [r2 e2]. cbn [fst] in H2.
  destruct (shr_m r2); [done | case_match; done | lia].
Qed.

Lemma round_aux_narrow s m e l : 0 <= m -> narrow (binary_round_aux 53 1024 s m e l).
Proof.
  intros Hm. unfold binary_round_aux. pose proof (shr_fexp_nonneg m e l Hm) as H1. destruct (shr_fexp 53 1024 m e l) as [r1 e1]. cbn [fst] in H1.
  pose proof (shr_fexp_narrow _ e1 loc_Exact (round_even_nonneg (shr_m r1) (loc_of_shr_record r1) H1)) as H2.
  destruct (shr_fexp 53 1024 _ e1 loc_Exact) as [r2 e2]. cbn [fst] in H2.
  destruct (shr_m r2); [done | case_match; done | done].
Qed.

Lemma round_aux_not_nan s m e l : 0 <= m -> binary_round_aux 53 1024 s m e l <> S754_nan.
Proof.
  intros Hm. pose proof (round_aux_nonneg m e l Hm) as Hn. revert Hn. unfold binary_round_aux.
  destruct (shr_fexp 53 1024 m e l) as [r1 e1]. destruct (shr_fexp 53 1024 _ e1 loc_Exact) as [r2 e2].
  destruct (shr_m r2); [done | case_match; done | done].
Qed.

Lemma round_nonneg m e : nonneg (binary_round 53 1024 false m e).
Proof. unfold binary_round. destruct (shl_align _ _ _). by apply round_aux_nonneg. Qed.

Lemma normalize_nonneg m e : 0 <= m -> nonneg (binary_normalize 53 1024 m e false).
Proof. intros Hm. destruct m; [done | apply round_nonneg | lia]. Qed.

Lemma normalize_not_nan m e s : binary_normalize 53 1024 m e s <> S754_nan.
Proof.
  destruct m as [| p | p]; [done | |]; unfold binary_normalize, binary_round; destruct (shl_align _ _ _); by apply round_aux_not_nan.
Qed.

(** ** The operations *)
Lemma f64_nonneg n : 0 <= n -> nonneg (f64 n).
Proof. apply normalize_nonneg. Qed.

Lemma f64_not_inf_nan n : 0 < n < 2 ^ 53 -> nonzero (f64 n).
Proof. intros Hn. by rewrite f64_exact. Qed.

Lemma nonzero_nonneg x : nonzero x -> nonneg x.
Proof. by destruct x. Qed.

Lemma fadd_nonneg x y : nonneg x -> nonneg y -> nonneg (fadd x y).
Proof.
  unfold fadd. destruct x as [sx | sx | | sx mx ex], y as [sy | sy | | sy my ey]; cbn [nonneg SFadd]; intros; subst; try done; try (by destruct sx, sy).
  apply normalize_nonneg. cbn [cond_Zopp]. lia.
Qed.

Lemma fmul_nonneg x y : nonzero x -> nonneg y -> nonneg (fmul x y).
Proof.
  unfold fmul. destruct x as [sx | sx | | sx mx ex], y as [sy | sy | | sy my ey]; cbn [nonneg nonzero SFmul]; intros; subst; try done.
  by apply round_aux_nonneg.
Qed.

Lemma fmul_nonneg_r x y : nonneg x -> nonzero y -> nonneg (fmul x y).
Proof.
  unfold fmul. destruct x as [sx | sx | | sx mx ex], y as [sy | sy | | sy my ey]; cbn [nonneg nonzero SFmul]; intros; subst; try done.
  by apply round_aux_nonneg.
Qed.

Lemma fmul_narrow x y : narrow (fmul x y).
Proof. unfold fmul. destruct x, y; cbn [SFmul]; try done. by apply round_aux_narrow. Qed.

Lemma fdiv_core_nonneg m1 e1 m2 e2 : 0 <= m1 -> 0 < m2 -> 0 <= fst (fst (SFdiv_core_binary 53 1024 m1 e1 m2 e2)).
Proof.
  intros H1 H2. unfold SFdiv_core_binary. cbv zeta. set (s := e1 - e2 - _). set (m' := match s with Z0 => m1 | _ => _ end).
  assert (0 <= m') by (unfold m'; destruct s; [done | by apply Z.shiftl_nonneg | done]).
  pose proof (Z.div_pos m' m2 ltac:(done) H2) as Hd. unfold Z.div in Hd. by destruct (Z.div_eucl m' m2).
Qed.

Lemma fdiv_nonneg x y : nonneg x -> nonzero y -> nonneg (fdiv x y).
Proof.
  unfold fdiv. destruct x as [sx | sx | | sx mx ex], y as [sy | sy | | sy my ey]; cbn [nonneg nonzero SFdiv]; intros; subst; try done.
  pose proof (fdiv_core_nonneg (Z.pos mx) ex (Z.pos my) ey ltac:(lia) ltac:(lia)) as Hq.
  destruct (SFdiv_core_binary 53 1024 _ _ _ _) as [[mz ez] lz]. by apply round_aux_nonneg.
Qed.

(** The distance of a number from a finite one is a number. *)
Lemma fsub_abs x y : nonneg x -> finite y -> nonneg (Abs (fsub x y)).
Proof.
  unfold fsub. intros Hx Hy. enough (SFsub 53 1024 x y <> S754_nan) by (by destruct (SFsub 53 1024 x y)).
  destruct x as [sx | sx | | sx mx ex], y as [sy | sy | | sy my ey]; cbn [SFsub]; try done; try (by destruct sx, sy).
  apply normalize_not_nan.
Qed.

(** Taking away what is not positive. *)
Lemma fsub_nonpos x y : nonneg x -> nonneg (SFopp y) -> nonneg (fsub x y).
Proof.
  unfold fsub. destruct x as [sx | sx | | sx mx ex], y as [sy | sy | | sy my ey]; cbn [nonneg SFopp SFsub]; intros Hx Hy; subst;
    try done; try (by destruct sx, sy); try (destruct sy; done).
  destruct sy; [| done]. apply normalize_nonneg. cbn [cond_Zopp]. lia.
Qed.

Lemma round_aux_nonpos m e l : 0 <= m -> nonneg (SFopp (binary_round_aux 53 1024 true m e l)).
Proof.
  intros Hm. pose proof (round_aux_nonneg m e l Hm) as Hn. revert Hn. unfold binary_round_aux.
  destruct (shr_fexp 53 1024 m e l) as [r1 e1]. destruct (shr_fexp 53 1024 _ e1 loc_Exact) as [r2 e2].
  destruct (shr_m r2); [done | case_match; done | done].
Qed.

Lemma fmul_nonpos x y : nonneg x -> finite x -> finite y -> nonneg (SFopp y) -> nonneg (SFopp (fmul x y)).
Proof.
  unfold fmul. destruct x as [sx | sx | | sx mx ex], y as [sy | sy | | sy my ey]; cbn [nonneg finite SFopp SFmul]; intros; subst; try done.
  destruct sy; [| done]. by apply round_aux_nonpos.
Qed.

(** ** Results of moderate size are finite *)
Lemma shr_fexp_e m e l : snd (shr_fexp 53 1024 m e l) = e + Z.max 0 (fexp 53 1024 (Zdigits2 m + e) - e).
Proof. unfold shr_fexp. destruct (fexp _ _ _ - e) eqn:Ek; cbn [shr snd]; lia. Qed.

Lemma Zdigits2_le m n : 0 <= m < 2 ^ n -> 0 <= n -> Zdigits2 m <= n.
Proof.
  intros [H0 Hm] Hn. destruct m as [| p | p]; [done | | lia]. cbn [Zdigits2]. rewrite digits2_digits. unfold digits.
  assert (Z.log2 (Z.pos p) < n) by (apply Z.log2_lt_pow2; lia). lia.
Qed.

Lemma round_even_le m l : round_nearest_even m l <= m + 1.
Proof. unfold round_nearest_even. repeat case_match; lia. Qed.

Lemma round_aux_finite s m e l : 0 <= m -> Zdigits2 m + e <= 1000 -> e <= 900 -> finite (binary_round_aux 53 1024 s m e l).
Proof.
  intros Hm Hd He. unfold binary_round_aux. pose proof (shr_fexp_nonneg m e l Hm) as H1. pose proof (shr_fexp_narrow m e l Hm) as Hn1.
  pose proof (shr_fexp_e m e l) as He1. destruct (shr_fexp 53 1024 m e l) as [r1 e1]. cbn [fst snd] in *.
  set (m1 := round_nearest_even (shr_m r1) (loc_of_shr_record r1)).
  assert (0 <= m1) as Hm1 by (by apply round_even_nonneg). pose proof (round_even_le (shr_m r1) (loc_of_shr_record r1)) as Hle. fold m1 in Hle.
  assert (Zdigits2 m1 <= 54) as Hd1 by (apply Zdigits2_le; [change (2 ^ 54) with (2 * 2 ^ 53) |]; lia).
  pose proof (shr_fexp_nonneg m1 e1 loc_Exact Hm1) as H2. pose proof (shr_fexp_e m1 e1 loc_Exact) as He2.
  destruct (shr_fexp 53 1024 m1 e1 loc_Exact) as [r2 e2]. cbn [fst snd] in *. unfold fexp, emin in *.
  destruct (shr_m r2); [done | | lia]. rewrite (proj2 (Z.leb_le _ _)) by lia. done.
Qed.

(** A share is a number. *)
Lemma share_finite c n : 0 < c <= n -> n < 2 ^ 53 -> finite (fdiv (f64 c) (f64 n)).
Proof.
  intros Hc Hn. rewrite !f64_exact by lia. pose proof (digits_small c ltac:(lia)) as Hdc. pose proof (digits_small n ltac:(lia)) as Hdn.
  unfold fdiv, exact. cbn [SFdiv xorb].
  assert (Hp : forall k, 0 < k < 2 ^ 53 -> 0 < k * 2 ^ (53 - digits k) /\ digits (k * 2 ^ (53 - digits k)) = 53).
  { intros k Hk. pose proof (digits_small k Hk). split; [apply Z.mul_pos_pos; [lia | apply Z.pow_pos_nonneg; lia] |]. rewrite digits_scale by lia. lia. }
  destruct (Hp c ltac:(lia)) as [Hc0 Hc1], (Hp n ltac:(lia)) as [Hn0 Hn1]. unfold SFdiv_core_binary. cbn [Zdigits2].
  rewrite !digits2_digits, !Z2Pos.id, Hc1, Hn1 by done. cbv zeta.
  replace (Z.min _ _) with (digits c - digits n - 53) by (unfold fexp, emin; lia).
  replace (digits c - 53 - (digits n - 53) - (digits c - digits n - 53)) with 53 by lia.
  set (m := c * _) in *. set (d := n * _) in *. set (m' := Z.shiftl m 53).
  assert (Hm' : m' = m * 2 ^ 53) by (apply Z.shiftl_mul_pow2; lia).
  pose proof (digits_pos m Hc0) as Hm. rewrite Hc1 in Hm. pose proof (Z.div_pos m' d ltac:(lia) Hn0) as Hq0.
  assert (Hq : m' / d < 2 ^ 106) by (apply Z.div_lt_upper_bound; [done |]; change (2 ^ 106) with (2 ^ 53 * 2 ^ 53); nia).
  unfold Z.div in Hq0, Hq. destruct (Z.div_eucl m' d) as [q r]. pose proof (Zdigits2_le q 106 ltac:(lia) ltac:(lia)).
  apply round_aux_finite; lia.
Qed.

(** ** Comparisons *)
Lemma one_float : f64 1 = S754_finite false (2 ^ 52) (-52).
Proof. vm_compute. reflexivity. Qed.

Lemma Min_below (m : BinNums.positive) e y : nonneg y ->
  nonneg (Min (S754_finite false m e) y) /\ SFleb (Min (S754_finite false m e) y) (S754_finite false m e) = true.
Proof.
  intros Hy. unfold Min. destruct y as [s | s | | s n f]; cbn [nonneg] in Hy; subst; try done; cbn [is_inf is_nan is_zero orb andb];
    unfold flt, SFltb, SFleb; cbn [SFcompare].
  1: by cbn [eqb SFcompare nonneg]; rewrite Z.compare_refl, Pos.compare_cont_refl.
  destruct (Z.compare_spec e f) as [<- | H1 | H1].
  - destruct (Pos.compare_cont Eq m n) eqn:Em; cbn [nonneg SFcompare]; rewrite Z.compare_refl, ?Pos.compare_cont_refl; split; try done.
    all: change (Pos.compare_cont Eq n m) with (Pos.compare n m); change (Pos.compare_cont Eq m n) with (Pos.compare m n) in Em;
      by rewrite Pos.compare_antisym, Em.
  - cbn [nonneg SFcompare]. by rewrite Z.compare_refl, Pos.compare_cont_refl.
  - cbn [nonneg SFcompare]. split; [done |]. apply Z.compare_lt_iff in H1. by rewrite H1.
Qed.

Lemma Min_one_unit y : nonneg y -> unit_interval (Min (f64 1) y).
Proof. unfold unit_interval. rewrite one_float. apply Min_below. Qed.

Lemma Min_narrow x y : narrow x -> narrow y -> narrow (Min x y).
Proof. intros Hx Hy. unfold Min. by repeat case_match. Qed.

(** A maximum with a positive number is positive. *)
Lemma Max_nonzero x y : finite x -> nonzero y -> nonzero (Max x y).
Proof.
  intros Hx Hy. destruct y as [| | | s m e]; cbn [nonzero] in Hy; subst; try done. unfold Max.
  destruct x as [sx | sx | | sx mx ex]; try done. unfold fgt, SFltb. cbn [is_inf is_nan is_zero orb andb SFcompare].
  destruct sx; [done |]. by case_match.
Qed.

(** [1 - u] for [u] between 0 and 1. *)
Lemma unit_minus (c : BinNums.positive) u : nonneg u -> SFleb u (S754_finite false c (-52)) = true -> narrow u -> 2 ^ 53 <= 2 * Z.pos c ->
  nonneg (fsub (S754_finite false c (-52)) u).
Proof.
  intros Hn Hle Hw Hc. destruct u as [s | s | | s m e]; cbn [nonneg narrow] in *; subst; try done. unfold fsub. cbn [SFsub cond_Zopp].
  apply normalize_nonneg. unfold SFleb in Hle. cbn [SFcompare] in Hle. unfold shl_align.
  destruct (Z.compare_spec e (-52)) as [E | H1 | H1]; [| | done].
  - rewrite E, Z.min_id, Z.sub_diag. cbn [fst]. change (Pos.compare_cont Eq m c) with (Pos.compare m c) in Hle.
    destruct (Pos.compare_spec m c) as [-> | Hlt | Hgt]; [lia | | done]. apply Pos2Z.pos_lt_pos in Hlt. lia.
  - rewrite Z.min_r, Z.sub_diag by lia. cbn [fst]. destruct (e - -52) as [| d | d] eqn:Ed; try lia. cbn [fst].
    rewrite iter_xO. assert (2 ^ 1 <= 2 ^ Z.pos d) by (apply Z.pow_le_mono_r; lia). nia.
Qed.

Lemma one_minus_unit u : unit_interval u -> narrow u -> nonneg (fsub (f64 1) u).
Proof. unfold unit_interval. rewrite one_float. intros [Hn Hle] Hw. by apply unit_minus. Qed.
