(* ===== verification/Store.v ===== *)
(** * The shared-state contract (core/store/store.go)

    The value types of the store package, the block-value and backoff helpers,
    the contract of a [Store] as functions on one abstract map of entries with
    deadlines, and the type classes [StoreOps] / [StoreLaws] through which the
    clients (scoreboard, challenge manager, counter cache) use a backend. *)

From S2P Require Export GoStd.

(** ** Entries and deadlines *)

(** One stored value; [None] is Go's zero [time.Time], "no expiry". *)
Record entry := mk_entry { e_value : gostring; e_expires : option Z }.

#[global] Instance entry_eq_dec : EqDecision entry.
Proof. solve_decision. Defined.

(** [now.After(expiresAt)]: an entry is still live at its deadline itself. *)
Definition expired (e : entry) (now : Z) : bool :=
  match e_expires e with
  | None => false
  | Some d => d <? now
  end.

(** A TTL as an absolute deadline, read off the clock at [now]. *)
Definition expiry (ttl now : Z) : option Z :=
  if ttl <=? 0 then None else Some (now + ttl).

(** [time.Time.UnixNano]: the low 64 bits. *)
Definition UnixNano (now : Z) : Z := wrap64 now.

Lemma expired_mono e t t' : t <= t' -> expired e t = true -> expired e t' = true.
Proof. unfold expired. destruct (e_expires e); [| done]. intros. bool_to_prop. lia. Qed.

(** ** Commit records *)
Record KV := mk_kv { kv_key : gostring; kv_value : gostring; kv_expires : option Z }.

Record BlockCommit := mk_block_commit {
  bc_BlockKey : gostring;
  bc_ExpectedBlock : option gostring;
  bc_NewBlock : gostring;
  bc_BaseTTL : Z;
  bc_MaxTTL : Z;
  bc_CounterKey : gostring;
  bc_CounterTTL : Z;
  bc_HoldKey : gostring;
  bc_GuardKey : gostring;
  bc_GuardValue : option gostring
}.

Inductive BlockRefusal :=
| BlockRefusalNone
| BlockRefusalHold
| BlockRefusalGeneration
| BlockRefusalBlock.

#[global] Instance BlockRefusal_eq_dec : EqDecision BlockRefusal.
Proof. solve_decision. Defined.

Definition BlockRefusal_String (r : BlockRefusal) : gostring :=
  lit match r with
      | BlockRefusalNone => "none"
      | BlockRefusalHold => "unblock_in_flight"
      | BlockRefusalGeneration => "unblock_completed"
      | BlockRefusalBlock => "newer_block"
      end.

Record BlockCommitResult := mk_block_result {
  br_Committed : bool;
  br_Offenses : Z;
  br_TTL : Z;
  br_Refusal : BlockRefusal
}.

(** A refused commit carries Go's zero values beside its cause. *)
Definition refused (r : BlockRefusal) : BlockCommitResult := mk_block_result false 0 0 r.

Record EventCommit := mk_event_commit {
  ec_CounterKey : gostring;
  ec_CounterTTL : Z;
  ec_HoldKey : gostring
}.

Record EventCommitResult := mk_event_result { er_Committed : bool; er_Value : Z }.

Record UnblockCommit := mk_unblock_commit {
  uc_HoldKey : gostring;
  uc_HoldValue : gostring;
  uc_HoldTTL : Z;
  uc_GenerationKey : gostring;
  uc_Generation : gostring;
  uc_GenerationTTL : Z;
  uc_BlockKey : gostring;
  uc_CounterKey : gostring;
  uc_ResetBackoff : bool
}.

(** ** Errors a store operation can return *)
Inductive store_error :=
| EParse (e : parse_error)
| ENotBlockKey (op key : gostring)
| EUnsupported                      (* ErrCapabilityUnsupported *)
| EInvalidVote (level ttl : Z)
| EBackend (code : Z).              (* I/O, timeout, cancelled context *)

#[global] Instance store_error_eq_dec : EqDecision store_error.
Proof. solve_decision. Defined.

Abbreviation result A := (outcome store_error A).

(** ** Block values *)
Definition blockValueSep : ascii := Zbyte 0.

(** [BlockValue]; [token] is the value [rand.Uint64] returned. *)
Definition BlockValue (reason : gostring) (token : Z) : gostring :=
  reason ++ blockValueSep :: FormatUint 16 token.

Definition BlockReason (v : gostring) : gostring :=
  match split_at_byte blockValueSep v with
  | Some (r, _) => r
  | None => v
  end.

Lemma BlockReason_BlockValue_aux reason token :
  blockValueSep ∉ reason -> BlockReason (BlockValue reason token) = reason.
Proof.
  intros H. unfold BlockReason, BlockValue.
  destruct (split_at_byte blockValueSep _) as [[a b]|] eqn:E.
  - assert (Some (a, b) = Some (reason, FormatUint 16 token)) as [= -> ->]; [| done].
    rewrite <- E. by apply split_at_byte_Some.
  - apply split_at_byte_None in E. set_solver.
Qed.

(** ** The backoff ladder *)
Definition defaultBlockBaseTTL : Z := minute.
Definition defaultBlockMaxTTL : Z := 30 * 24 * hour.

Definition BackoffBounds (base cap : Z) : Z * Z :=
  (if base <=? 0 then defaultBlockBaseTTL else base,
   if cap <=? 0 then defaultBlockMaxTTL else cap).

(** The doubling loop.  [inl] is the early [return cap], [inr] the value of
    [ttl] when the loop condition fails. *)
Fixpoint backoff_loop (fuel : nat) (n ttl cap offenses : Z) : Z + Z :=
  match fuel with
  | O => inr ttl
  | S f =>
    if (n <? offenses) && (ttl <? cap) then
      if cap ÷ 2 <? ttl then inl cap
      else backoff_loop f (n + 1) (wrap64 (ttl * 2)) cap offenses
    else inr ttl
  end.

(** The loop doubles a positive [ttl] below a cap of at most [2^63 - 1], so it
    runs at most 63 times (see [backoff_loop_spec]). *)
Definition blockBackoffTTL (base0 cap0 offenses : Z) : Z :=
  let '(base, cap) := BackoffBounds base0 cap0 in
  match backoff_loop 64 1 base cap offenses with
  | inl c => c
  | inr ttl => if (cap <? ttl) || (ttl <=? 0) then cap else ttl
  end.

Definition counterValue (v : gostring) : Z :=
  match ParseInt v with
  | Ok n => if n <? 0 then 0 else n
  | Err _ => 0
  end.

Lemma backoff_loop_spec fuel : forall n ttl cap offenses,
  0 < ttl -> ttl <= int64_max -> 0 < cap <= int64_max -> 1 <= n -> cap <= ttl * 2 ^ Z.of_nat fuel ->
  (let r := match backoff_loop fuel n ttl cap offenses with
            | inl c => c
            | inr x => if (cap <? x) || (x <=? 0) then cap else x
            end in
   r = Z.min cap (ttl * 2 ^ (Z.max 0 (offenses - n)))).
Proof.
  induction fuel as [|f IH]; intros n ttl cap offenses Ht Htm Hc Hn Hfuel; simpl.
  - rewrite Z.mul_1_r in Hfuel.
    assert (0 < 2 ^ Z.max 0 (offenses - n)) by (apply Z.pow_pos_nonneg; lia).
    destruct (cap <? ttl) eqn:E1; simpl; bool_to_prop; [nia |].
    destruct (ttl <=? 0) eqn:E2; bool_to_prop; nia.
  - rewrite Nat2Z.inj_succ, Z.pow_succ_r in Hfuel by lia.
    assert (0 < 2 ^ Z.max 0 (offenses - n)) by (apply Z.pow_pos_nonneg; lia).
    destruct (n <? offenses) eqn:E1; simpl; bool_to_prop.
    + destruct (ttl <? cap) eqn:E2; bool_to_prop.
      * rewrite (Z.quot_div_nonneg cap 2) by lia.
        assert (Hp : 2 ^ Z.max 0 (offenses - n) = 2 * 2 ^ Z.max 0 (offenses - (n + 1))).
        { rewrite <- Z.pow_succ_r by lia. f_equal. lia. }
        assert (0 < 2 ^ Z.max 0 (offenses - (n + 1))) by (apply Z.pow_pos_nonneg; lia).
        pose proof (Z.div_mod cap 2 ltac:(lia)). pose proof (Z.mod_pos_bound cap 2 ltac:(lia)).
        destruct (cap / 2 <? ttl) eqn:E3; bool_to_prop.
        -- rewrite Hp. nia.
        -- unfold int64_max in *. rewrite wrap64_id by (unfold int64_ok, int64_min, int64_max; lia).
           rewrite IH by (unfold int64_max; nia). rewrite Hp. f_equal. ring.
      * destruct (cap <? ttl) eqn:E3; simpl; bool_to_prop; [nia |].
        destruct (ttl <=? 0) eqn:E4; bool_to_prop; nia.
    + rewrite Z.max_l by lia. rewrite Z.mul_1_r.
      destruct (cap <? ttl) eqn:E3; simpl; bool_to_prop; [lia |].
      destruct (ttl <=? 0) eqn:E4; bool_to_prop; lia.
Qed.

Lemma BackoffBounds_pos base cap : int64_ok base -> int64_ok cap ->
  0 < fst (BackoffBounds base cap) <= int64_max /\ 0 < snd (BackoffBounds base cap) <= int64_max.
Proof.
  unfold BackoffBounds, int64_ok, int64_max, defaultBlockBaseTTL, defaultBlockMaxTTL, hour,
    minute, second, millisecond, microsecond. intros. simpl.
  destruct (base <=? 0) eqn:E1; destruct (cap <=? 0) eqn:E2; bool_to_prop; lia.
Qed.

Lemma blockBackoffTTL_closed base cap offenses : int64_ok base -> int64_ok cap ->
  blockBackoffTTL base cap offenses =
  Z.min (snd (BackoffBounds base cap))
        (fst (BackoffBounds base cap) * 2 ^ Z.max 0 (offenses - 1)).
Proof.
  intros Hb Hc. destruct (BackoffBounds_pos base cap Hb Hc) as [H1 H2].
  unfold blockBackoffTTL. destruct (BackoffBounds base cap) as [b c]. cbn [fst snd] in *.
  apply (backoff_loop_spec 64); unfold int64_max in *; lia.
Qed.

Lemma blockBackoffTTL_pos base cap offenses : int64_ok base -> int64_ok cap ->
  0 < blockBackoffTTL base cap offenses <= snd (BackoffBounds base cap).
Proof.
  intros Hb Hc. destruct (BackoffBounds_pos base cap Hb Hc) as [H1 H2].
  rewrite blockBackoffTTL_closed by done.
  assert (0 < 2 ^ Z.max 0 (offenses - 1)) by (apply Z.pow_pos_nonneg; lia). nia.
Qed.

(** ** The contract, on one abstract map

    The store is one map from keys to entries; an entry past its deadline is
    as good as absent ([live]).  Each operation is given the clock readings of
    its call sites and never deletes an expired entry by itself: physical
    removal is an implementation matter that [st_rel] below hides. *)
Abbreviation amap := (gmap gostring entry).

Definition live (t : Z) (m : amap) (k : gostring) : option entry :=
  match m !! k with
  | Some e => if expired e t then None else Some e
  | None => None
  end.

(** The comparison of [CompareAndSwap] and [CommitBlock]: a nil expectation
    requires the key to be absent. *)
Definition matches (cur : option entry) (want : option gostring) : bool :=
  match want, cur with
  | None, None => true
  | None, Some _ => false
  | Some w, Some e => bool_decide (e_value e = w)
  | Some _, None => false
  end.

Definition spec_get (t : clock) (k : gostring) (m : amap) : amap * result (option gostring) :=
  (m, Ok (e_value <$> live (t 0%nat) m k)).

Definition spec_set (t : clock) (k v : gostring) (ttl : Z) (m : amap) : amap * result unit :=
  (<[k := mk_entry v (expiry ttl (t 0%nat))]> m, Ok tt).

Definition spec_delete (k : gostring) (m : amap) : amap * result unit := (delete k m, Ok tt).

Definition spec_incr_by_deadline (t : clock) (k : gostring) (delta deadline : Z) (m : amap)
  : amap * result (Z * bool) :=
  if negb (deadline =? 0) && (deadline <=? UnixNano (t 0%nat)) then
    match live (t 1%nat) m k with
    | Some e => (m, match ParseInt (e_value e) with Ok n => Ok (n, false) | Err x => Err (EParse x) end)
    | None => (m, Ok (0, false))
    end
  else
    match live (t 1%nat) m k with
    | None =>
      (<[k := mk_entry (FormatInt delta) (if deadline =? 0 then None else Some deadline)]> m,
       Ok (delta, true))
    | Some e =>
      match ParseInt (e_value e) with
      | Err x => (m, Err (EParse x))
      | Ok n => (<[k := mk_entry (FormatInt (wrap64 (n + delta))) (e_expires e)]> m,
                 Ok (wrap64 (n + delta), true))
      end
    end.

Definition spec_cas (t : clock) (k : gostring) (old : option gostring) (new : gostring) (ttl : Z)
  (m : amap) : amap * result bool :=
  if matches (live (t 0%nat) m k) old
  then (<[k := mk_entry new (expiry ttl (t 1%nat))]> m, Ok true)
  else (m, Ok false).

Definition spec_cad (t : clock) (k : gostring) (old : option gostring) (m : amap) : amap * result bool :=
  match old with
  | None => (m, Ok false)
  | Some _ => if matches (live (t 0%nat) m k) old then (delete k m, Ok true) else (m, Ok false)
  end.

(** The count the next offense gets, and the deadline of its counter. *)
Definition next_offense (cur : option entry) (ttl now : Z) : Z * option Z :=
  match cur with
  | Some e => (wrap64 (counterValue (e_value e) + 1), e_expires e)
  | None => (1, expiry ttl now)
  end.

Definition spec_commit_block (t : clock) (c : BlockCommit) (m : amap) : amap * result BlockCommitResult :=
  if live (t 0%nat) m (bc_HoldKey c) is Some _ then (m, Ok (refused BlockRefusalHold)) else
  if negb (matches (live (t 1%nat) m (bc_GuardKey c)) (bc_GuardValue c))
  then (m, Ok (refused BlockRefusalGeneration)) else
  if negb (matches (live (t 2%nat) m (bc_BlockKey c)) (bc_ExpectedBlock c))
  then (m, Ok (refused BlockRefusalBlock)) else
  let '(offenses, cexp) :=
    next_offense (live (t 3%nat) m (bc_CounterKey c)) (bc_CounterTTL c) (t 4%nat) in
  let ttl := blockBackoffTTL (bc_BaseTTL c) (bc_MaxTTL c) offenses in
  (<[bc_BlockKey c := mk_entry (bc_NewBlock c) (expiry ttl (t 5%nat))]>
     (<[bc_CounterKey c := mk_entry (FormatInt offenses) cexp]> m),
   Ok (mk_block_result true offenses ttl BlockRefusalNone)).

Definition spec_commit_event (t : clock) (c : EventCommit) (m : amap) : amap * result EventCommitResult :=
  if live (t 0%nat) m (ec_HoldKey c) is Some _ then (m, Ok (mk_event_result false 0)) else
  let deadline := if 0 <? ec_CounterTTL c then UnixNano (t 1%nat + ec_CounterTTL c) else 0 in
  match spec_incr_by_deadline (fun i => t (2 + i)%nat) (ec_CounterKey c) 1 deadline m with
  | (m', Ok (v, applied)) => (m', Ok (mk_event_result applied v))
  | (m', Err e) => (m', Err e)
  end.

Definition spec_commit_unblock (t : clock) (c : UnblockCommit) (m : amap) : amap * result unit :=
  let m1 := <[uc_HoldKey c := mk_entry (uc_HoldValue c) (expiry (uc_HoldTTL c) (t 0%nat))]> m in
  let m2 := <[uc_GenerationKey c :=
                mk_entry (uc_Generation c) (expiry (uc_GenerationTTL c) (t 1%nat))]> m1 in
  let m3 := delete (uc_BlockKey c) m2 in
  (if uc_ResetBackoff c then delete (uc_CounterKey c) m3 else m3, Ok tt).

(** Which keys may appear where in a commit: the block key is in the reserved
    namespace and the side keys are not. *)
Definition isCentral (key : gostring) : bool := has_prefix (lit "block:") key.

Definition block_commit_keys (c : BlockCommit) : Prop :=
  isCentral (bc_BlockKey c) = true /\ isCentral (bc_HoldKey c) = false /\
  isCentral (bc_GuardKey c) = false /\ isCentral (bc_CounterKey c) = false.

Definition unblock_commit_keys (c : UnblockCommit) : Prop :=
  isCentral (uc_BlockKey c) = true /\ isCentral (uc_HoldKey c) = false /\
  isCentral (uc_GenerationKey c) = false /\ isCentral (uc_CounterKey c) = false.

Definition event_commit_keys (c : EventCommit) : Prop :=
  isCentral (ec_HoldKey c) = false /\ isCentral (ec_CounterKey c) = false.

(** ** The interface *)
Class StoreOps (S : Type) := {
  st_get : clock -> gostring -> S -> S * result (option gostring);
  st_set : clock -> gostring -> gostring -> Z -> S -> S * result unit;
  st_delete : gostring -> S -> S * result unit;
  st_incr_by_deadline : clock -> gostring -> Z -> Z -> S -> S * result (Z * bool);
  st_cas : clock -> gostring -> option gostring -> gostring -> Z -> S -> S * result bool;
  st_cad : clock -> gostring -> option gostring -> S -> S * result bool;
  st_commit_block : clock -> BlockCommit -> S -> S * result BlockCommitResult;
  st_commit_event : clock -> EventCommit -> S -> S * result EventCommitResult;
  st_commit_unblock : clock -> UnblockCommit -> S -> S * result unit
}.

(** A backend's operation keeps the contract when it returns the contract's
    answer and moves to a state standing for the contract's state; or when it
    reports an error, after which the mutation either happened or did not (a
    remote write may land although its reply is lost). *)
Definition keeps {S A : Type} (R : S -> amap -> Prop) (m : amap)
  (conc : S * result A) (abs : amap * result A) : Prop :=
  (conc.2 = abs.2 /\ R conc.1 abs.1) \/
  (exists e, conc.2 = Err e /\ (R conc.1 m \/ R conc.1 abs.1)).

(** [st_rel now s m]: from instant [now] on, the backend state [s] stands for
    the abstract map [m]. *)
Class StoreLaws (S : Type) `{!StoreOps S} := {
  st_rel : Z -> S -> amap -> Prop;
  st_rel_later : forall lo hi s m, lo <= hi -> st_rel lo s m -> st_rel hi s m;
  st_get_law : forall lo hi t k s m, ticks lo hi t -> st_rel lo s m ->
    keeps (st_rel hi) m (st_get t k s) (spec_get t k m);
  st_set_law : forall lo hi t k v ttl s m, ticks lo hi t -> st_rel lo s m ->
    keeps (st_rel hi) m (st_set t k v ttl s) (spec_set t k v ttl m);
  st_delete_law : forall now k s m, st_rel now s m ->
    keeps (st_rel now) m (st_delete k s) (spec_delete k m);
  st_incr_law : forall lo hi t k d dl s m, ticks lo hi t -> st_rel lo s m ->
    keeps (st_rel hi) m (st_incr_by_deadline t k d dl s) (spec_incr_by_deadline t k d dl m);
  st_cas_law : forall lo hi t k old new ttl s m, ticks lo hi t -> st_rel lo s m ->
    keeps (st_rel hi) m (st_cas t k old new ttl s) (spec_cas t k old new ttl m);
  st_cad_law : forall lo hi t k old s m, ticks lo hi t -> st_rel lo s m ->
    keeps (st_rel hi) m (st_cad t k old s) (spec_cad t k old m);
  st_commit_block_law : forall lo hi t c s m, block_commit_keys c -> ticks lo hi t -> st_rel lo s m ->
    keeps (st_rel hi) m (st_commit_block t c s) (spec_commit_block t c m);
  st_commit_event_law : forall lo hi t c s m, event_commit_keys c -> ticks lo hi t -> st_rel lo s m ->
    keeps (st_rel hi) m (st_commit_event t c s) (spec_commit_event t c m);
  st_commit_unblock_law : forall lo hi t c s m, unblock_commit_keys c -> ticks lo hi t -> st_rel lo s m ->
    keeps (st_rel hi) m (st_commit_unblock t c s) (spec_commit_unblock t c m)
}.

(** ** Facts about the contract shared by the clients *)
Lemma live_insert t m k e : live t (<[k := e]> m) k = if expired e t then None else Some e.
Proof. unfold live. by rewrite lookup_insert_eq. Qed.

Lemma live_insert_ne t m k k' e : k <> k' -> live t (<[k := e]> m) k' = live t m k'.
Proof. intros H. unfold live. by rewrite lookup_insert_ne. Qed.

Lemma live_delete t m k : live t (delete k m) k = None.
Proof. unfold live. by rewrite lookup_delete_eq. Qed.

Lemma live_delete_ne t m k k' : k <> k' -> live t (delete k m) k' = live t m k'.
Proof. intros H. unfold live. by rewrite lookup_delete_ne. Qed.

Lemma live_Some t m k e : live t m k = Some e <-> m !! k = Some e /\ expired e t = false.
Proof.
  unfold live. destruct (m !! k) as [e'|]; [destruct (expired e' t) eqn:E |];
    (split; [intros H | intros [H1 H2]]); simplify_eq; split_ands; congruence.
Qed.

(** An absent key stays absent as time passes. *)
Lemma live_None_later t t' m k : t <= t' -> live t m k = None -> live t' m k = None.
Proof.
  unfold live. intros Hle. destruct (m !! k) as [e|]; [| done].
  destruct (expired e t) eqn:E; [| done]. by rewrite (expired_mono e t t').
Qed.

Lemma live_Some_earlier t t' m k e : t <= t' -> live t' m k = Some e -> live t m k = Some e.
Proof.
  intros Hle H. apply live_Some in H as [H1 H2]. apply live_Some. split; [done |].
  destruct (expired e t) eqn:E; [| done]. by rewrite (expired_mono e t t') in H2.
Qed.

Lemma matches_Some cur w : matches cur (Some w) = true <-> exists e, cur = Some e /\ e_value e = w.
Proof.
  unfold matches. destruct cur as [e|]; [rewrite bool_decide_eq_true |]; split.
  - intros H. by exists e.
  - intros (e' & [= ->] & H). done.
  - done.
  - intros (e' & H & _). done.
Qed.

Lemma matches_None cur : matches cur None = true <-> cur = None.
Proof. unfold matches. destruct cur; done. Qed.

#[export] Hint Rewrite live_insert live_delete : guardian.
#[export] Hint Rewrite live_insert_ne live_delete_ne using congruence : guardian.

(** * Properties *)

(** the repeat-offender ladder never produces a permanent or overflowing
    block.  For any 64-bit inputs the TTL is positive, at most the normalized
    cap, equal to the base doubled once per further offense until the cap, and
    it never shrinks as offenses grow. *)
Theorem block_backoff_ladder : forall base cap offenses,
  int64_ok base -> int64_ok cap ->
  let '(b, c) := BackoffBounds base cap in
  blockBackoffTTL base cap offenses = Z.min c (b * 2 ^ Z.max 0 (offenses - 1)) /\
  0 < blockBackoffTTL base cap offenses <= c /\
  forall more, offenses <= more -> blockBackoffTTL base cap offenses <= blockBackoffTTL base cap more.
Proof.
  intros base cap offenses Hb Hc. destruct (BackoffBounds base cap) as [b c] eqn:E.
  pose proof (blockBackoffTTL_closed base cap offenses Hb Hc) as H1. rewrite E in H1.
  pose proof (blockBackoffTTL_pos base cap offenses Hb Hc) as H2. rewrite E in H2.
  split; [done |]. split; [done |]. intros more Hm. rewrite !blockBackoffTTL_closed by done. rewrite E. simpl.
  destruct (BackoffBounds_pos base cap Hb Hc) as [Hp _]. rewrite E in Hp. simpl in Hp.
  assert (2 ^ Z.max 0 (offenses - 1) <= 2 ^ Z.max 0 (more - 1)) by (apply Z.pow_le_mono_r; lia). nia.
Qed.

Lemma block_backoff_ladder_witness :
  blockBackoffTTL minute (10 * minute) 4 = 8 * minute /\
  blockBackoffTTL minute (10 * minute) 5 = 10 * minute /\
  0 < blockBackoffTTL minute (10 * minute) 4.
Proof.
  split; [by vm_compute |]. split; [by vm_compute |].
  exact (proj1 (proj1 (proj2 (block_backoff_ladder minute (10 * minute) 4
    ltac:(unfold int64_ok; vm_compute; done) ltac:(unfold int64_ok; vm_compute; done))))).
Defined.
