(* ===== verification/StoreClient.v ===== *)
(** * Clients of the store: programs, interleaving, refinement

    A client is a program tree whose nodes are store calls ([Call]) and visible
    effects ([Tell]: log lines and notifications to the enforcement manager).
    The same tree is run against a backend, one call after another ([run]), and
    against the contract with other instances' calls in between
    ([interleaved]).  Every client of this development is written once, in the
    [prog] monad, in the order of the calls in the source. *)

From S2P Require Export Netip Store.

(** ** Store calls *)
Inductive store_op : Type -> Type :=
| OGet (k : gostring) : store_op (option gostring)
| OSet (k v : gostring) (ttl : Z) : store_op unit
| ODelete (k : gostring) : store_op unit
| OIncr (k : gostring) (delta deadline : Z) : store_op (Z * bool)
| OCas (k : gostring) (old : option gostring) (new : gostring) (ttl : Z) : store_op bool
| OCad (k : gostring) (old : option gostring) : store_op bool
| OCommitBlock (c : BlockCommit) : store_op BlockCommitResult
| OCommitEvent (c : EventCommit) : store_op EventCommitResult
| OCommitUnblock (c : UnblockCommit) : store_op unit.

(** The contract's answer to a call. *)
Definition spec_op {R : Type} (t : clock) (op : store_op R) (m : amap) : amap * result R :=
  match op in store_op R return amap * result R with
  | OGet k => spec_get t k m
  | OSet k v ttl => spec_set t k v ttl m
  | ODelete k => spec_delete k m
  | OIncr k d dl => spec_incr_by_deadline t k d dl m
  | OCas k old new ttl => spec_cas t k old new ttl m
  | OCad k old => spec_cad t k old m
  | OCommitBlock c => spec_commit_block t c m
  | OCommitEvent c => spec_commit_event t c m
  | OCommitUnblock c => spec_commit_unblock t c m
  end.

(** A backend's answer. *)
Definition exec_op {S : Type} `{!StoreOps S} {R : Type} (t : clock) (op : store_op R) (s : S) : S * result R :=
  match op in store_op R return S * result R with
  | OGet k => st_get t k s
  | OSet k v ttl => st_set t k v ttl s
  | ODelete k => st_delete k s
  | OIncr k d dl => st_incr_by_deadline t k d dl s
  | OCas k old new ttl => st_cas t k old new ttl s
  | OCad k old => st_cad t k old s
  | OCommitBlock c => st_commit_block t c s
  | OCommitEvent c => st_commit_event t c s
  | OCommitUnblock c => st_commit_unblock t c s
  end.

(** The keys of a commit sit in the namespaces the contract asks for. *)
Definition op_keys {R : Type} (op : store_op R) : Prop :=
  match op with
  | OCommitBlock c => block_commit_keys c
  | OCommitEvent c => event_commit_keys c
  | OCommitUnblock c => unblock_commit_keys c
  | _ => True
  end.

(** The keys a call may change. *)
Definition writes {R : Type} (op : store_op R) : list gostring :=
  match op with
  | OGet _ => []
  | OSet k _ _ | ODelete k | OIncr k _ _ | OCas k _ _ _ | OCad k _ => [k]
  | OCommitBlock c => [bc_BlockKey c; bc_CounterKey c]
  | OCommitEvent c => [ec_CounterKey c]
  | OCommitUnblock c => [uc_HoldKey c; uc_GenerationKey c; uc_BlockKey c; uc_CounterKey c]
  end.

Lemma incr_frame (t : clock) (k k' : gostring) (d dl : Z) (m : amap) : k' <> k ->
  (spec_incr_by_deadline t k d dl m).1 !! k' = m !! k'.
Proof.
  intros Hne. unfold spec_incr_by_deadline. repeat (case_match; simpl; try done);
    by rewrite lookup_insert_ne.
Qed.

(** A call leaves every other key alone. *)
Lemma spec_op_frame {R} (t : clock) (op : store_op R) (m : amap) (k : gostring) :
  k ∉ writes op -> (spec_op t op m).1 !! k = m !! k.
Proof.
  destruct op; simpl; rewrite ?not_elem_of_cons; intros Hk; destruct_and?.
  - done.
  - by rewrite lookup_insert_ne.
  - by rewrite lookup_delete_ne.
  - by apply incr_frame.
  - unfold spec_cas. case_match; simpl; [by rewrite lookup_insert_ne | done].
  - unfold spec_cad. destruct old; [| done]. case_match; simpl; [by rewrite lookup_delete_ne | done].
  - unfold spec_commit_block. repeat (case_match; simpl; try done). by rewrite !lookup_insert_ne.
  - unfold spec_commit_event. case_match; simpl; [done |].
    match goal with |- context [spec_incr_by_deadline ?t ?k ?d ?dl ?m] =>
      pose proof (fun k' => incr_frame t k k' d dl m) as Hf; destruct (spec_incr_by_deadline t k d dl m) as [m1 [[v b]|e]] end;
      simpl in *; auto.
  - unfold spec_commit_unblock. case_match; simpl;
      repeat first [rewrite lookup_delete_ne by done | rewrite lookup_insert_ne by done]; done.
Qed.

(** What a client may observe of one call: the contract's answer and effect, or
    an error after which the effect did or did not happen. *)
Inductive contract_step {R : Type} (lo hi : Z) (op : store_op R) (m : amap) : result R -> amap -> Prop :=
| cs_ok t : ticks lo hi t -> contract_step lo hi op m (spec_op t op m).2 (spec_op t op m).1
| cs_lost e : lo <= hi -> contract_step lo hi op m (Err e) m
| cs_unknown t e : ticks lo hi t -> contract_step lo hi op m (Err e) (spec_op t op m).1.

Lemma contract_step_time {R} lo hi (op : store_op R) m r m' : contract_step lo hi op m r m' -> lo <= hi.
Proof. intros []; eauto using ticks_mono. Qed.

(** Whatever the outcome of a call, a key it does not write is untouched. *)
Lemma contract_step_frame {R} (lo hi : Z) (op : store_op R) (m : amap) (r : result R) (m' : amap) (k : gostring) :
  k ∉ writes op -> contract_step lo hi op m r m' -> m' !! k = m !! k.
Proof. intros Hk []; [by apply spec_op_frame | done | by apply spec_op_frame]. Qed.

(** Any backend with the laws takes only contract steps. *)
Lemma exec_op_contract {S : Type} `{StoreLaws S} {R : Type} lo hi t (op : store_op R) s m :
  op_keys op -> ticks lo hi t -> st_rel lo s m ->
  exists m', contract_step lo hi op m (exec_op t op s).2 m' /\ st_rel hi (exec_op t op s).1 m'.
Proof.
  intros Hk Ht Hrel.
  assert (keeps (st_rel hi) m (exec_op t op s) (spec_op t op m)) as Hkeep.
  { destruct op; simpl in *; [by eapply st_get_law | by eapply st_set_law | | by eapply st_incr_law
      | by eapply st_cas_law | by eapply st_cad_law | by eapply st_commit_block_law
      | by eapply st_commit_event_law | by eapply st_commit_unblock_law].
    apply st_delete_law. by apply (st_rel_later lo hi), Hrel; eapply ticks_mono. }
  destruct Hkeep as [[Hr HR] | (e & -> & [HR | HR])].
  - exists (spec_op t op m).1. split; [| done]. rewrite Hr. by constructor.
  - exists m. split; [constructor; by eapply ticks_mono | done].
  - exists (spec_op t op m).1. split; [by constructor | done].
Qed.

(** ** Programs *)

(** What a client makes visible outside the store: log lines, notifications,
    callbacks of its caller. *)
Inductive effect :=
| LogBlocking (ip reason : gostring) (ttl offenses : Z)
| LogNotBlocking (ip reason : gostring) (cause : BlockRefusal)
| EnforceNotify (ip : addr) (reason : gostring) (ttl : Z) (remove : bool)
| EnforceNotifyOwned (ip : addr) (reason : gostring) (ttl : Z) (key owner : gostring)
| ClaimSpent (digest : gostring) (expiry : Z)     (* the local replay cache is told *)
| ForgetCounter (key : gostring)                  (* a counter-cache key is forgotten *)
| AskNoJS (uri : gostring)                        (* the caller's AcquireNoJS *)
| AskArgon                                        (* the caller's AcquireArgon *)
| ReleaseArgonSlot.                               (* the caller's ReleaseArgon *)

Inductive prog (A : Type) : Type :=
| Ret (a : A)
| Call {R : Type} (op : store_op R) (k : result R -> prog A)
| Tell (e : effect) (k : prog A).
Arguments Ret {A} a.
Arguments Call {A R} op k.
Arguments Tell {A} e k.

Fixpoint bind {A B : Type} (p : prog A) (f : A -> prog B) : prog B :=
  match p with
  | Ret a => f a
  | Call op k => Call op (fun r => bind (k r) f)
  | Tell e k => Tell e (bind k f)
  end.

(** [x, err := call; if err != nil { return err }] *)
Notation "'try!' x ':=' op 'in' k" :=
  (Call op (fun r => match r with Ok x => k | Err e => Ret (Err e) end))
  (at level 10, x pattern, op at level 100, k at level 200) : go_scope.

(** One call after another on a backend; the [n]-th call reads clock [tm n]. *)
Fixpoint run {S A : Type} `{!StoreOps S} (p : prog A) (tm : nat -> clock) (s : S) : S * list effect * A :=
  match p with
  | Ret a => (s, [], a)
  | Call op k =>
    let '(s', r) := exec_op (tm 0%nat) op s in
    run (k r) (fun n => tm (Datatypes.S n)) s'
  | Tell e k => let '(s', es, a) := run k tm s in (s', e :: es, a)
  end.

(** The contract itself as a backend. *)
#[export] Instance contract_ops : StoreOps amap := {
  st_get := spec_get; st_set := spec_set; st_delete := spec_delete;
  st_incr_by_deadline := spec_incr_by_deadline; st_cas := spec_cas; st_cad := spec_cad;
  st_commit_block := spec_commit_block; st_commit_event := spec_commit_event;
  st_commit_unblock := spec_commit_unblock
}.

(** Calls of other clients, of any result type. *)
Definition any_op : Type := { R : Type & store_op R }.
Definition some_op {R : Type} (op : store_op R) : any_op := existT R op.

(** Other clients' calls, between two instants. *)
Inductive env_run (Rely : any_op -> Prop) : Z -> amap -> Z -> amap -> Prop :=
| env_none lo hi m : lo <= hi -> env_run Rely lo m hi m
| env_step lo mid hi {R} (op : store_op R) m r m1 m' :
    Rely (some_op op) -> contract_step lo mid op m r m1 -> env_run Rely mid m1 hi m' ->
    env_run Rely lo m hi m'.

Lemma env_run_time Rely lo m hi m' : env_run Rely lo m hi m' -> lo <= hi.
Proof.
  induction 1; [done |]. match goal with H : contract_step _ _ _ _ _ _ |- _ => apply contract_step_time in H end. lia.
Qed.

(** [interleaved Rely lo m p hi m' a es own]: the program [p], started at
    instant [lo] on contents [m], can finish at [hi] with result [a] on contents
    [m'], while other clients make any calls allowed by [Rely] in between; [es]
    are its effects, and [own] the contents before and after each of its own
    calls. *)
Fixpoint interleaved {A : Type} (Rely : any_op -> Prop) (lo : Z) (m : amap) (p : prog A)
  (hi : Z) (m' : amap) (a : A) (es : list effect) (own : list (amap * amap)) : Prop :=
  match p with
  | Ret x => env_run Rely lo m hi m' /\ a = x /\ es = [] /\ own = []
  | Tell e k => exists es', es = e :: es' /\ interleaved Rely lo m k hi m' a es' own
  | Call op k => exists at_ mid m0 r m1 own',
      env_run Rely lo m at_ m0 /\ contract_step at_ mid op m0 r m1 /\
      own = (m0, m1) :: own' /\ interleaved Rely mid m1 (k r) hi m' a es own'
  end.

Lemma interleaved_time {A} Rely (p : prog A) : forall lo m hi m' a es own,
  interleaved Rely lo m p hi m' a es own -> lo <= hi.
Proof.
  induction p as [x | R op k IH | e k IH]; simpl; intros lo m hi m' a es own Hr.
  - destruct Hr as [Hr _]. by eapply env_run_time.
  - destruct Hr as (at_ & mid & m0 & r & m1 & own' & He & Hc & _ & Hr).
    apply env_run_time in He. apply contract_step_time in Hc. apply IH in Hr. lia.
  - destruct Hr as (es' & _ & Hr). by eapply IH.
Qed.

(** Every call a program can make satisfies [P]. *)
Fixpoint issues {A : Type} (P : any_op -> Prop) (p : prog A) : Prop :=
  match p with
  | Ret _ => True
  | Call op k => P (some_op op) /\ forall r, issues P (k r)
  | Tell _ k => issues P k
  end.

Lemma issues_bind {A B} P (p : prog A) (f : A -> prog B) :
  issues P p -> (forall a, issues P (f a)) -> issues P (bind p f).
Proof. intros Hp Hf. induction p as [x | R op k IH | e k IH]; simpl in *; [by apply Hf | destruct Hp; split; auto | auto]. Qed.

Lemma issues_mono {A} (P Q : any_op -> Prop) (p : prog A) :
  (forall o, P o -> Q o) -> issues P p -> issues Q p.
Proof. intros HPQ. induction p as [x | R op k IH | e k IH]; simpl; [done | intros []; split; auto | auto]. Qed.

(** Every answer a program can give satisfies [P]. *)
Fixpoint returns {A : Type} (P : A -> Prop) (p : prog A) : Prop :=
  match p with
  | Ret a => P a
  | Call op k => forall r, returns P (k r)
  | Tell _ k => returns P k
  end.

Lemma returns_bind {A B} (Q : A -> Prop) (P : B -> Prop) (p : prog A) (f : A -> prog B) :
  returns Q p -> (forall a, Q a -> returns P (f a)) -> returns P (bind p f).
Proof. intros Hp Hf. induction p as [x | R op k IH | e k IH]; simpl in *; auto. Qed.

Lemma returns_mono {A} (P Q : A -> Prop) (p : prog A) : (forall a, P a -> Q a) -> returns P p -> returns Q p.
Proof. intros HPQ. induction p as [x | R op k IH | e k IH]; simpl; auto. Qed.

Lemma returns_any {A} (p : prog A) : returns (fun _ => True) p.
Proof. induction p as [x | R op k IH | e k IH]; simpl; auto. Qed.

Lemma returns_run {S A : Type} `{!StoreOps S} (P : A -> Prop) (p : prog A) : forall (tm : nat -> clock) (s : S),
  returns P p -> P (run p tm s).2.
Proof.
  induction p as [x | R op k IH | e k IH]; simpl; intros tm s Hp; [done | |].
  - destruct (exec_op (tm 0%nat) op s) as [s' r]. by apply IH.
  - specialize (IH tm s Hp). by destruct (run k tm s) as [[? ?] ?].
Qed.

(** Running [bind p f] is running [p] and then [f]. *)
Lemma interleaved_bind {A B} Rely (p : prog A) (f : A -> prog B) : forall lo m hi m' b es own,
  interleaved Rely lo m (bind p f) hi m' b es own ->
  exists mid m1 a es1 own1 es2 own2,
    (forall later m2, env_run Rely mid m1 later m2 -> interleaved Rely lo m p later m2 a es1 own1) /\
    interleaved Rely mid m1 (f a) hi m' b es2 own2 /\ es = es1 ++ es2 /\ own = own1 ++ own2.
Proof.
  induction p as [x | R op k IH | e k IH]; simpl; intros lo m hi m' b es own Hr.
  - exists lo, m, x, [], [], es, own. split_ands; try done.
  - destruct Hr as (at_ & mid & m0 & r & m1 & own' & He & Hc & -> & Hr).
    apply IH in Hr as (mid' & m2 & a & es1 & own1 & es2 & own2 & H1 & H2 & -> & ->).
    exists mid', m2, a, es1, ((m0, m1) :: own1), es2, own2. split_ands; [| done | done | done].
    intros. exists at_, mid, m0, r, m1, own1. split_ands; [done.. |]. by apply H1.
  - destruct Hr as (es' & -> & Hr).
    apply IH in Hr as (mid' & m2 & a & es1 & own1 & es2 & own2 & H1 & H2 & -> & ->).
    exists mid', m2, a, (e :: es1), own1, es2, own2. split_ands; [| done | done | done].
    intros. exists es1. split; [done |]. by apply H1.
Qed.

(** A run among quieter clients is a run among noisier ones. *)
Lemma env_run_mono (P Q : any_op -> Prop) lo m hi m' : (forall o, P o -> Q o) -> env_run P lo m hi m' -> env_run Q lo m hi m'.
Proof. intros HPQ. induction 1; [by constructor | eapply env_step; eauto]. Qed.

Lemma interleaved_mono {A} (P Q : any_op -> Prop) (p : prog A) : (forall o, P o -> Q o) ->
  forall lo m hi m' a es own, interleaved P lo m p hi m' a es own -> interleaved Q lo m p hi m' a es own.
Proof.
  intros HPQ. induction p as [x | R op k IH | e k IH]; simpl; intros lo m hi m' a es own Hr.
  - destruct Hr as (He & ?). split; [by eapply env_run_mono | done].
  - destruct Hr as (at_ & mid & m0 & r & m1 & own' & He & Hc & -> & Hr). exists at_, mid, m0, r, m1, own'.
    split_ands; [by eapply env_run_mono | done | done | by apply IH].
  - destruct Hr as (es' & -> & Hr). exists es'. split; [done | by apply IH].
Qed.

(** Running [bind p f] on a backend is running [p] and then [f]. *)
Lemma run_bind {S A B : Type} `{!StoreOps S} (p : prog A) (f : A -> prog B) : forall (tm : nat -> clock) (s : S), exists tm',
  run (bind p f) tm s = let '(s1, es1, a) := run p tm s in let '(s2, es2, b) := run (f a) tm' s1 in (s2, es1 ++ es2, b).
Proof.
  induction p as [x | R op k IH | e k IH]; simpl; intros tm s.
  - exists tm. by destruct (run (f x) tm s) as [[? ?] ?].
  - destruct (exec_op (tm 0%nat) op s) as [s' r]. apply IH.
  - destruct (IH tm s) as [tm' Hr]. exists tm'. rewrite Hr. destruct (run k tm s) as [[s1 es1] a]. by destruct (run (f a) tm' s1) as [[? ?] ?].
Qed.

Ltac split_run := match goal with |- context [run (bind ?p ?f) ?tm ?s] =>
  let t := fresh "tm" in destruct (run_bind p f tm s) as [t ->] end.

(** A run on the contract itself, nobody interfering, all clocks reading [now]:
    the contents around each call. *)
Fixpoint trace {A : Type} (p : prog A) (now : Z) (m : amap) : list (amap * amap) :=
  match p with
  | Ret _ => []
  | Call op k => let '(m', r) := spec_op (fun _ => now) op m in (m, m') :: trace (k r) now m'
  | Tell _ k => trace k now m
  end.

Lemma spec_exec_op {R : Type} (t : clock) (op : store_op R) (m : amap) : exec_op t op m = spec_op t op m.
Proof. by destruct op. Qed.

Lemma run_interleaved {A : Type} (Rely : any_op -> Prop) (p : prog A) (now : Z) : forall (m m' : amap) es a,
  run p (fun _ _ => now) m = (m', es, a) -> interleaved Rely now m p now m' a es (trace p now m).
Proof.
  induction p as [x | R op k IH | e k IH]; simpl; intros m m' es a Hr.
  - simplify_eq. split_ands; try done. by constructor.
  - rewrite spec_exec_op in Hr.
    assert (Hc : contract_step now now op m (spec_op (fun _ => now) op m).2 (spec_op (fun _ => now) op m).1)
      by (constructor; by apply ticks_const).
    destruct (spec_op (fun _ => now) op m) as [m1 r]. simpl in Hc.
    exists now, now, m, r, m1, (trace (k r) now m1). split_ands; try done; [by constructor |]. by apply IH.
  - destruct (run k _ m) as [[m1 es1] a1] eqn:E. simplify_eq. exists es1. split; [done |]. by apply IH.
Qed.

Lemma run_interleaved_result {A : Type} (Rely : any_op -> Prop) (p : prog A) (now : Z) (m : amap) a :
  (run p (fun _ _ => now) m).2 = a ->
  interleaved Rely now m p now (run p (fun _ _ => now) m).1.1 a (run p (fun _ _ => now) m).1.2 (trace p now m).
Proof. intros <-. apply run_interleaved. by destruct (run p (fun _ _ => now) m) as [[??]?]. Qed.

(** ** Refinement: a run on any backend is a run on the contract *)
Section Refine.
Context {S : Type} `{StoreLaws S}.

(** The instants of a sequential run: call [n] reads its clock inside
    [[bounds n, bounds (n+1)]]. *)
Definition run_times (tm : nat -> clock) (bounds : nat -> Z) : Prop :=
  forall n, ticks (bounds n) (bounds (Datatypes.S n)) (tm n).

Lemma run_refines {A} (p : prog A) : forall tm bounds s m,
  run_times tm bounds -> issues (fun o => op_keys (projT2 o)) p -> st_rel (bounds 0%nat) s m ->
  exists hi m' own, let '(s', es, a) := run p tm s in
    interleaved (fun _ => False) (bounds 0%nat) m p hi m' a es own /\ st_rel hi s' m'.
Proof.
  induction p as [a | R op k IH | e k IH]; intros tm bounds s m Htm Hi Hrel; simpl.
  - exists (bounds 0%nat), m, []. split_ands; try done. by constructor.
  - destruct Hi as [Hop Hk].
    destruct (exec_op_contract _ _ _ op s m Hop (Htm 0%nat) Hrel) as (m1 & Hstep & Hrel').
    destruct (exec_op (tm 0%nat) op s) as [s1 r]. simpl in *.
    destruct (IH r (fun n => tm (Datatypes.S n)) (fun n => bounds (Datatypes.S n)) s1 m1) as (hi & m' & own & Hrun);
      [by intros n; apply Htm | done | done |].
    exists hi, m', ((m, m1) :: own). destruct (run (k r) _ s1) as [[s2 es] a]. destruct Hrun as [H1 H2].
    split; [| done]. exists (bounds 0%nat), (bounds 1%nat), m, r, m1, own.
    split_ands; try done. by constructor.
  - simpl in Hi. destruct (IH tm bounds s m) as (hi & m' & own & Hrun); [done.. |].
    exists hi, m', own. destruct (run k tm s) as [[s2 es] a]. destruct Hrun as [H1' H2].
    split; [| done]. by exists es.
Qed.
End Refine.
