(* ===== verification/Race.v ===== *)
(** * Races for one key

    Many programs of one kind on one store, with other clients interfering, and
    the argument that a key claimed by compare-and-swap is claimed once: the
    spent transition of a stored challenge and the spent marker of a stateless
    one are its two instances. *)

From S2P Require Export StoreClient.

(** ** Pools

    A state is the instant, the contents, and what is left of each program.
    [When] says at which instants program [i] ([Some i]) and the other clients
    ([None]) may make a call. *)
Section Pool.
Context {A : Type} (Rely : any_op -> Prop) (When : option nat -> Z -> Z -> Prop).

Inductive pool_step : Z * amap * list (prog A) -> Z * amap * list (prog A) -> Prop :=
| pool_call lo at_ mid m m1 ps i {R} (op : store_op R) k r :
    ps !! i = Some (Call op k) -> lo <= at_ -> When (Some i) at_ mid -> contract_step at_ mid op m r m1 ->
    pool_step (lo, m, ps) (mid, m1, <[i := k r]> ps)
| pool_tell lo m ps i e k :
    ps !! i = Some (Tell e k) -> pool_step (lo, m, ps) (lo, m, <[i := k]> ps)
| pool_env lo at_ mid m m1 ps {R} (op : store_op R) r :
    Rely (some_op op) -> lo <= at_ -> When None at_ mid -> contract_step at_ mid op m r m1 ->
    pool_step (lo, m, ps) (mid, m1, ps).

(** A program of the pool may run alone for a while. *)
Lemma pool_run (now : Z) (p : prog A) : forall m m' es a ps i, When (Some i) now now ->
  run p (fun _ _ => now) m = (m', es, a) -> ps !! i = Some p ->
  rtc pool_step (now, m, ps) (now, m', <[i := Ret a]> ps).
Proof.
  induction p as [x | R op k IH | e k IH]; simpl; intros m m' es a ps i Hw Hr Hi.
  - simplify_eq. rewrite list_insert_id by done. apply rtc_refl.
  - rewrite spec_exec_op in Hr.
    assert (Hc : contract_step now now op m (spec_op (fun _ => now) op m).2 (spec_op (fun _ => now) op m).1)
      by (constructor; by apply ticks_const).
    destruct (spec_op (fun _ => now) op m) as [m1 r]. simpl in Hc.
    eapply rtc_l; [eapply pool_call; [exact Hi | done | exact Hw | exact Hc] |].
    rewrite <- (list_insert_insert_eq ps i (Ret a) (k r)). eapply IH; [done | exact Hr |].
    apply list_lookup_insert_eq. by eapply lookup_lt_Some.
  - destruct (run k _ m) as [[m1 es1] a1] eqn:E. simplify_eq.
    eapply rtc_l; [eapply pool_tell; exact Hi |].
    rewrite <- (list_insert_insert_eq ps i (Ret a) k). eapply IH; [done | exact E |].
    apply list_lookup_insert_eq. by eapply lookup_lt_Some.
Qed.

(** Two programs one after the other. *)
Lemma pool_two_runs (now : Z) (p q : prog A) (m : amap) : (forall i, When (Some i) now now) ->
  let first := run p (fun _ _ => now) m in let second := run q (fun _ _ => now) first.1.1 in
  rtc pool_step (now, m, [p; q]) (now, second.1.1, [Ret first.2; Ret second.2]).
Proof.
  intros Hw first second. eapply (transitivity (R := rtc _)).
  - apply (pool_run now p m first.1.1 first.1.2 first.2 [p; q] 0%nat (Hw _)); [unfold first; by destruct (run p _ m) as [[]] | done].
  - apply (pool_run now q first.1.1 second.1.1 second.1.2 second.2 [Ret first.2; q] 1%nat (Hw _)); [unfold second; by destruct (run q _ first.1.1) as [[]] | done].
Qed.
End Pool.

(** ** Compare-and-swap wins *)
Definition swapped {R} (op : store_op R) : result R -> bool :=
  match op in store_op R return result R -> bool with
  | OCas _ _ _ _ => fun r => match r with Ok b => b | Err _ => false end
  | _ => fun _ => false
  end.

Lemma won_cas {lo hi k old new ttl m r m'} : contract_step lo hi (OCas k old new ttl) m r m' -> r = Ok true ->
  exists t, ticks lo hi t /\ m' = <[k := mk_entry new (expiry ttl (t 1%nat))]> m /\ matches (live (t 0%nat) m k) old = true.
Proof.
  intros [t Ht | |]; simpl; [| done | done]. unfold spec_cas. destruct (matches _ _) eqn:E; [| done].
  intros _. by exists t.
Qed.

(** A swap whose expectation no longer holds does nothing. *)
Lemma lost_cas {lo hi k old new ttl m r m'} : contract_step lo hi (OCas k old new ttl) m r m' ->
  (forall t, lo <= t <= hi -> matches (live t m k) old = false) -> m' = m /\ swapped (OCas k old new ttl) r = false.
Proof.
  intros Hc Hno. assert (Hspec : forall t, ticks lo hi t -> spec_op t (OCas k old new ttl) m = (m, Ok false)).
  { intros t Ht. simpl. unfold spec_cas. by rewrite Hno by apply Ht. }
  destruct Hc as [t Ht | e _ | t e Ht]; [rewrite (Hspec t Ht) | done | rewrite (Hspec t Ht)]; done.
Qed.

(** ** The race

    [claims i] are the calls by which program [i] claims the key [K]; [Taken] says that it is
    claimed; [fine a] that a program may answer [a] without having claimed. *)
Section Race.
Context {A : Type} (K : gostring) (claims : nat -> forall R, store_op R -> Prop) (Taken : amap -> Prop) (fine : A -> Prop).
Context (Rely : any_op -> Prop) (When : option nat -> Z -> Z -> Prop).

Hypothesis claims_write : forall i R (op : store_op R), claims i _ op -> K ∈ writes op.
Hypothesis taken_elsewhere : forall m m', m' !! K = m !! K -> Taken m -> Taken m'.
Hypothesis claim_lost : forall i at_ mid R (op : store_op R) m r m', When (Some i) at_ mid -> claims i _ op ->
  contract_step at_ mid op m r m' -> Taken m -> Taken m' /\ swapped op r = false.
Hypothesis claim_won : forall i at_ mid R (op : store_op R) m r m', When (Some i) at_ mid -> claims i _ op ->
  contract_step at_ mid op m r m' -> swapped op r = true -> Taken m'.
Hypothesis env_keeps : forall at_ mid R (op : store_op R) m r m', When None at_ mid -> Rely (some_op op) ->
  contract_step at_ mid op m r m' -> Taken m -> Taken m'.

(** Programs that leave [K] alone, and programs still in the race: without
    winning it they only give fine answers. *)
Fixpoint idle {B} (p : prog B) : Prop :=
  match p with
  | Ret _ => True
  | Tell _ k => idle k
  | Call op k => K ∉ writes op /\ forall r, idle (k r)
  end.
Fixpoint racing (i : nat) (p : prog A) : Prop :=
  match p with
  | Ret a => fine a
  | Tell _ k => racing i k
  | Call op k => (K ∉ writes op /\ forall r, racing i (k r)) \/
                 (claims i _ op /\ forall r, if swapped op r then idle (k r) else racing i (k r))
  end.

Lemma idle_bind {B C} (p : prog B) (f : B -> prog C) : idle p -> (forall a, idle (f a)) -> idle (bind p f).
Proof. intros Hp Hf. induction p as [x | R op k IH | e k IH]; simpl in *; [done | destruct Hp; split; auto | auto]. Qed.

Lemma racing_bind i (p : prog A) (f : A -> prog A) :
  (forall a, fine a -> racing i (f a)) -> (forall a, idle (f a)) -> racing i p -> racing i (bind p f).
Proof.
  intros He Hi. induction p as [x | R op k IH | e k IH]; simpl; [auto | | auto].
  intros [[H1 H2] | [H1 H2]]; [left; auto | right]. split; [done |]. intros r. specialize (H2 r).
  destruct (swapped op r); [by apply idle_bind | auto].
Qed.

(** A pool in which the programs [mine] race for [K] and the others do not
    touch it. *)
Record race_inv (mine : nat -> bool) (x : Z * amap * list (prog A)) : Prop := {
  rc_others : forall i p, mine i = false -> x.2 !! i = Some p -> idle p;
  rc_mine : exists winner : option nat,
    (forall i p, mine i = true -> x.2 !! i = Some p -> winner <> Some i -> racing i p) /\
    (winner <> None -> Taken x.1.2) /\
    (forall i p, winner = Some i -> x.2 !! i = Some p -> idle p)
}.

Lemma insert_cases {B} (ps : list B) i j x p : <[i := x]> ps !! j = Some p -> (j = i /\ p = x) \/ (j <> i /\ ps !! j = Some p).
Proof. intros Hj. apply list_lookup_insert_Some in Hj as [(-> & -> & _) | []]; auto. Qed.

(** Replacing program [i] by one that is at least as far. *)
Lemma race_replace mine lo lo' m m' (ps : list (prog A)) i p p' :
  ps !! i = Some p -> (idle p -> idle p') -> (racing i p -> racing i p') -> (Taken m -> Taken m') ->
  race_inv mine (lo, m, ps) -> race_inv mine (lo', m', <[i := p']> ps).
Proof.
  intros Hi Hid Hra Hsp [Ho (w & Hw1 & Hw2 & Hw3)]. simpl in *. split; simpl.
  - intros j q Hj Hq. destruct (insert_cases _ _ _ _ _ Hq) as [[-> ->] | [_ Hq']]; [eauto | by apply (Ho j)].
  - exists w. split_ands; [| auto |].
    + intros j q Hj Hq Hne. destruct (insert_cases _ _ _ _ _ Hq) as [[-> ->] | [_ Hq']]; [eauto | by apply (Hw1 j)].
    + intros j q -> Hq. destruct (insert_cases _ _ _ _ _ Hq) as [[-> ->] | [_ Hq']]; [eauto | by apply (Hw3 j)].
Qed.

(** Program [i] wins the race. *)
Lemma race_winner mine lo lo' m m' (ps : list (prog A)) i p' :
  mine i = true -> idle p' -> ~ Taken m -> Taken m' -> race_inv mine (lo, m, ps) -> race_inv mine (lo', m', <[i := p']> ps).
Proof.
  intros Hmi Hid Hns Hsp [Ho (w & Hw1 & Hw2 & Hw3)]. simpl in *.
  assert (w = None) as -> by (destruct w; [by destruct Hns; apply Hw2 | done]). split; simpl.
  - intros j q Hj Hq. destruct (insert_cases _ _ _ _ _ Hq) as [[-> ->] | [_ Hq']]; [congruence | by apply (Ho j)].
  - exists (Some i). split_ands; [| done |].
    + intros j q Hj Hq Hne. destruct (insert_cases _ _ _ _ _ Hq) as [[-> ->] | [_ Hq']]; [done | by apply (Hw1 j)].
    + intros j q [= <-] Hq. destruct (insert_cases _ _ _ _ _ Hq) as [[_ ->] | [Hne _]]; done.
Qed.

(** The racing call of program [i], if it touches [K]. *)
Lemma race_claim mine lo m ps i R (op : store_op R) k : race_inv mine (lo, m, ps) -> ps !! i = Some (Call op k) ->
  K ∈ writes op -> mine i = true /\ claims i _ op /\ forall r, if swapped op r then idle (k r) else racing i (k r).
Proof.
  intros [Ho (w & Hw1 & Hw2 & Hw3)] Hi Hk. simpl in *.
  destruct (mine i) eqn:Em; [| by destruct (Ho i _ Em Hi)].
  assert (w <> Some i) as Hwi by (intros ->; by destruct (Hw3 i _ eq_refl Hi)).
  by destruct (Hw1 i _ Em Hi Hwi) as [[Hn _] | [Hc Hr]].
Qed.

Lemma race_step mine (x y : Z * amap * list (prog A)) : pool_step Rely When x y -> race_inv mine x -> race_inv mine y.
Proof.
  intros Hstep Hinv.
  destruct Hstep as [lo at_ mid m m1 ps i R op k r Hi Hat Hw Hc | lo m ps i e k Hi | lo at_ mid m m1 ps R op r Hop Hat Hw Hc].
  - destruct (decide (K ∈ writes op)) as [Hk | Hk].
    + destruct (race_claim mine lo m ps i R op k Hinv Hi Hk) as (Hm & Hcl & Hr). specialize (Hr r).
      destruct (swapped op r) eqn:Esw.
      * apply (race_winner mine lo mid m m1); [done | done | | by eapply claim_won | done].
        intros Ht. destruct (claim_lost _ _ _ _ _ _ _ _ Hw Hcl Hc Ht). congruence.
      * apply (race_replace mine lo mid m m1 ps i (Call op k)); try done; [by intros [] |].
        intros Ht. by destruct (claim_lost _ _ _ _ _ _ _ _ Hw Hcl Hc Ht).
    + apply (race_replace mine lo mid m m1 ps i (Call op k)); try done; simpl.
      * intros [_ Hr]. apply Hr.
      * intros [[_ Hr] | [Hs _]]; [apply Hr | by destruct Hk; eapply claims_write].
      * apply taken_elsewhere. by eapply contract_step_frame.
  - by apply (race_replace mine lo lo m m ps i (Tell e k)).
  - destruct Hinv as [Ho (w & Hw1 & Hw2 & Hw3)]. simpl in *. split; [done |]. exists w. split_ands; try done.
    intros Hne. eapply env_keeps; eauto.
Qed.

(** At most one program of a race gives an answer that is not fine. *)
Lemma race_one_winner (mine : nat -> bool) lo m (ps0 : list (prog A)) y i j a b :
  (forall k p, ps0 !! k = Some p -> if mine k then racing k p else idle p) ->
  rtc (pool_step Rely When) (lo, m, ps0) y ->
  mine i = true -> mine j = true -> y.2 !! i = Some (Ret a) -> y.2 !! j = Some (Ret b) -> ~ fine a -> ~ fine b -> i = j.
Proof.
  intros H0 Hrun Hmi Hmj Hi Hj Ha Hb.
  assert (Hinv : race_inv mine y).
  { apply (rtc_invariant (pool_step Rely When) (race_inv mine)) with (x := (lo, m, ps0)); [apply race_step | done |].
    split; simpl.
    - intros k p Hk Hp. specialize (H0 k p Hp). by rewrite Hk in H0.
    - exists None. split_ands; try done. intros k p Hk Hp _. specialize (H0 k p Hp). by rewrite Hk in H0. }
  destruct Hinv as [_ (w & Hw & _ & _)].
  assert (Hwin : forall k c, mine k = true -> y.2 !! k = Some (Ret c) -> ~ fine c -> w = Some k).
  { intros k c Hk Hp Hc. destruct (decide (w = Some k)) as [| Hne]; [done |]. by destruct Hc; apply (Hw k _ Hk Hp Hne). }
  rewrite (Hwin i a Hmi Hi Ha) in Hwin. specialize (Hwin j b Hmj Hj Hb). congruence.
Qed.
End Race.
