(* ===== verification/Scoreboard.v ===== *)
(** * The behaviour scoreboard (core/scoreboard.go)

    Events are counted per client in time-bucketed, generation-scoped keys; a
    client over a threshold is blocked with exponential backoff; an operator's
    unblock rotates the generation.  Each method is a [prog] with the store
    calls of the source in their order. *)

From S2P Require Export StoreClient.

(** ** Client identity and keys *)
Definition canonIP (ip : gostring) : gostring :=
  match ParseAddr ip with
  | Some a => addr_String (Unmap a)
  | None => ip
  end.

Definition blockKeyPrefix : gostring := lit "block:".

(** The hot-path spelling: prefix and address appended to one buffer. *)
Definition BlockKey (ip : gostring) : gostring :=
  match ParseAddr ip with
  | None => blockKeyPrefix ++ ip
  | Some a => blockKeyPrefix ++ addr_String (Unmap a)
  end.

Definition blockCountKey (ip : gostring) : gostring := lit "blkct:" ++ ip.
Definition unblockHoldKey (ip : gostring) : gostring := lit "unblk:" ++ ip.
Definition unblockGenKey (ip : gostring) : gostring := lit "unblkgen:" ++ ip.

Definition unblockHoldWindow : Z := 2 * second.
Definition unblockGenRetention : Z := 24 * hour.
Definition hardMaxBlockTTL : Z := 30 * 24 * hour.

(** [store], [log] and [enforcer] are the calls and effects of the programs;
    [now] is an argument of the methods that read it. *)
Record Scoreboard := mk_scoreboard { sb_unblockHold : Z }.

Definition NewScoreboard : Scoreboard := mk_scoreboard unblockHoldWindow.

(** [hi], [lo]: the two [rand.Uint64] draws. *)
Definition unblockGenValue (hi lo : Z) : gostring := FormatUint 16 hi ++ FormatUint 16 lo.

Definition HoldUnblock (s : Scoreboard) (ip : gostring) (gen : gostring) : prog (result unit) :=
  if sb_unblockHold s <=? 0 then Ret (Ok tt) else
  let ip := canonIP ip in
  try! _ := OSet (unblockHoldKey ip) (lit "1") (sb_unblockHold s) in
  Call (OSet (unblockGenKey ip) gen unblockGenRetention) Ret.

Definition unblockToken (s : Scoreboard) (ip : gostring) : prog (result gostring) :=
  if sb_unblockHold s <=? 0 then Ret (Ok []) else
  try! v := OGet (unblockGenKey ip) in
  Ret (Ok (match v with Some g => g | None => [] end)).

Definition notifyEnforcer (ip reason : gostring) (ttl : Z) (remove : bool) {A : Type} (k : prog A) : prog A :=
  match ParseAddr ip with
  | None => k
  | Some a => Tell (EnforceNotify a reason ttl remove) k
  end.

Definition notifyOwnedEnforcer (ip reason : gostring) (ttl : Z) (key owner : gostring)
  {A : Type} (k : prog A) : prog A :=
  match ParseAddr ip with
  | None => k
  | Some a => Tell (EnforceNotifyOwned a reason ttl key owner) k
  end.

(** ** Event counters *)

(** [now] in unix nanoseconds; [Time.Unix] floors, Go's [/] truncates. *)
Definition eventBucket (now window : Z) : Z := Z.quot (now / second) (Z.max (Z.quot window second) 1).

Definition eventKey (evtype ip generation : gostring) (bucket : Z) : gostring :=
  lit "ev:" ++ evtype ++ ":"%char :: ip ++ ":"%char ::
  (match generation with [] => ["0"%char] | _ => "g"%char :: generation end) ++ ":"%char :: FormatInt bucket.

(** ** Blocking *)

(** The commit [Block] submits, from what it read: the admitted generation and
    the block already there. *)
Definition block_commit (ip ttl_reason : gostring) (ttl maxBlockTTL : Z) (admitted : gostring)
  (prev : option gostring) (mine : gostring) : BlockCommit :=
  {| bc_BlockKey := BlockKey ip;
     bc_ExpectedBlock := prev;
     bc_NewBlock := mine;
     bc_BaseTTL := if ttl <=? 0 then minute else ttl;
     bc_MaxTTL := if maxBlockTTL <=? 0 then hardMaxBlockTTL else maxBlockTTL;
     bc_CounterKey := blockCountKey ip;
     bc_CounterTTL := 24 * hour;
     bc_HoldKey := unblockHoldKey ip;
     bc_GuardKey := unblockGenKey ip;
     bc_GuardValue := match admitted with [] => None | _ => Some admitted end |}.

(** [Block] after its generation read; [token] is the draw behind the owner
    token of the new block value. *)
Definition Block_admitted (ip reason : gostring) (ttl maxBlockTTL token : Z) (admitted : gostring)
  : prog (result unit) :=
  let key := BlockKey ip in
  try! prev := OGet key in
  let mine := BlockValue reason token in
  try! committed := OCommitBlock (block_commit ip reason ttl maxBlockTTL admitted prev mine) in
  if negb (br_Committed committed)
  then Tell (LogNotBlocking ip reason (br_Refusal committed)) (Ret (Ok tt))
  else Tell (LogBlocking ip reason (br_TTL committed) (br_Offenses committed))
         (notifyOwnedEnforcer ip reason (br_TTL committed) key mine (Ret (Ok tt))).

Definition Block (s : Scoreboard) (ip reason : gostring) (ttl maxBlockTTL token : Z) : prog (result unit) :=
  let ip := canonIP ip in
  bind (unblockToken s ip) (fun r =>
    match r with
    | Err e => Ret (Err e)
    | Ok admitted => Block_admitted ip reason ttl maxBlockTTL token admitted
    end).

(** [RecordEvent] after its generation read. *)
Definition RecordEvent_admitted (s : Scoreboard) (now : Z) (ip evtype : gostring)
  (limit window blockTTL maxBlockTTL token : Z) (generation : gostring) : prog (bool * result unit) :=
  Call (OCommitEvent {| ec_CounterKey := eventKey evtype ip generation (eventBucket now window);
                        ec_CounterTTL := wrap64 (2 * window);
                        ec_HoldKey := unblockHoldKey ip |})
    (fun r => match r with
     | Err e => Ret (false, Err e)
     | Ok result =>
       if negb (er_Committed result) || (er_Value result <? limit) then Ret (false, Ok tt)
       else bind (Block s ip (lit "threshold:" ++ evtype) blockTTL maxBlockTTL token)
              (fun e => Ret (true, e))
     end).

Definition RecordEvent (s : Scoreboard) (now : Z) (ip evtype : gostring)
  (limit window blockTTL maxBlockTTL token : Z) : prog (bool * result unit) :=
  if (limit <=? 0) || (window <=? 0) then Ret (false, Ok tt) else
  let ip := canonIP ip in
  bind (unblockToken s ip) (fun r =>
    match r with
    | Err e => Ret (false, Err e)
    | Ok generation => RecordEvent_admitted s now ip evtype limit window blockTTL maxBlockTTL token generation
    end).

(** ** Lifting a block *)
Definition Unblock (ip : gostring) : prog (result unit) :=
  try! _ := ODelete (BlockKey ip) in
  notifyEnforcer ip [] 0 true (Ret (Ok tt)).

Definition ResetBackoff (ip : gostring) : prog (result unit) :=
  Call (ODelete (blockCountKey (canonIP ip))) Ret.

Definition unblock_commit (s : Scoreboard) (ip gen : gostring) (resetBackoff : bool) : UnblockCommit :=
  {| uc_HoldKey := unblockHoldKey ip;
     uc_HoldValue := lit "1";
     uc_HoldTTL := sb_unblockHold s;
     uc_GenerationKey := unblockGenKey ip;
     uc_Generation := gen;
     uc_GenerationTTL := unblockGenRetention;
     uc_BlockKey := BlockKey ip;
     uc_CounterKey := blockCountKey ip;
     uc_ResetBackoff := resetBackoff |}.

Definition CommitUnblock (s : Scoreboard) (ip gen : gostring) (resetBackoff : bool) : prog (result unit) :=
  let ip := canonIP ip in
  if sb_unblockHold s <=? 0 then
    if resetBackoff then
      bind (ResetBackoff ip) (fun r => match r with Err e => Ret (Err e) | Ok _ => Unblock ip end)
    else Unblock ip
  else
    try! _ := OCommitUnblock (unblock_commit s ip gen resetBackoff) in
    notifyEnforcer ip [] 0 true (Ret (Ok tt)).

Record BehaviourWindow := mk_window { bw_Event : gostring; bw_Window : Z }.

Definition reset_keys (ip generation : gostring) (now : Z) (w : BehaviourWindow) : list gostring :=
  let bucket := eventBucket now (bw_Window w) in
  (fun b => eventKey (bw_Event w) ip generation b) <$> [bucket - 1; bucket; bucket + 1].

Fixpoint delete_keys (keys : list gostring) (count failed : Z) (k : Z -> Z -> prog (Z * Z)) : prog (Z * Z) :=
  match keys with
  | [] => k count failed
  | key :: rest =>
    Call (ODelete key) (fun r => match r with
      | Ok _ => delete_keys rest (count + 1) failed k
      | Err _ => delete_keys rest (count + 1) (failed + 1) k
      end)
  end.

Fixpoint reset_windows (ip generation : gostring) (now : Z) (windows : list BehaviourWindow)
  (keys failed : Z) : prog (Z * Z) :=
  match windows with
  | [] => Ret (keys, failed)
  | w :: rest =>
    if bool_decide (bw_Event w = []) || (bw_Window w <=? 0)
    then reset_windows ip generation now rest keys failed
    else delete_keys (reset_keys ip generation now w) keys failed (reset_windows ip generation now rest)
  end.

Definition ResetEventCounters (now : Z) (ip generation : gostring) (windows : list BehaviourWindow) : prog (Z * Z) :=
  reset_windows (canonIP ip) generation now windows 0 0.

(** ** The operator's explicit block (core/engine.go, [BlockIP]) *)
Definition BlockIP (ip reason : gostring) (ttl token : Z) : prog (result unit) :=
  try! _ := OSet (BlockKey ip) (BlockValue reason token) ttl in
  notifyEnforcer ip reason ttl false (Ret (Ok tt)).

(** ** Client identity *)
Lemma canonIP_idem ip : canonIP (canonIP ip) = canonIP ip.
Proof.
  unfold canonIP at 2 3. destruct (ParseAddr ip) as [a|] eqn:E.
  - apply ParseAddr_ok, Unmap_ok in E as [H1 H2]. unfold canonIP. rewrite ParseAddr_String by done.
    assert (Unmap (Unmap a) = Unmap a) as ->; [| done].
    destruct (Unmap a) as [n|g zone]; [done |]. unfold Is4In6, Unmap in *. repeat (case_match; try done).
  - unfold canonIP. by rewrite E.
Qed.

Lemma BlockKey_canon ip : BlockKey ip = blockKeyPrefix ++ canonIP ip.
Proof. unfold BlockKey, canonIP. by destruct (ParseAddr ip). Qed.

Lemma isCentral_BlockKey ip : isCentral (BlockKey ip) = true.
Proof. rewrite BlockKey_canon. apply has_prefix_app. Qed.

(** Two keys of different families differ. *)
Ltac key_ne := unfold blockCountKey, unblockHoldKey, unblockGenKey, eventKey; rewrite ?BlockKey_canon;
  unfold blockKeyPrefix; simpl; intros ?; congruence.
#[export] Hint Extern 1 (_ <> _) => key_ne : guardian.

#[export] Instance unblockGenKey_inj : Inj (=) (=) unblockGenKey.
Proof. intros a b H. unfold unblockGenKey in H. by apply (inj (app _)) in H. Qed.
#[export] Instance unblockHoldKey_inj : Inj (=) (=) unblockHoldKey.
Proof. intros a b H. unfold unblockHoldKey in H. by apply (inj (app _)) in H. Qed.

(** Every commit of the scoreboard keeps to the store's namespaces. *)
Lemma block_commit_ok ip reason ttl mx adm prev mine :
  block_commit_keys (block_commit ip reason ttl mx adm prev mine).
Proof. repeat split; try done. apply isCentral_BlockKey. Qed.

Lemma unblock_commit_ok s ip gen rb : unblock_commit_keys (unblock_commit s ip gen rb).
Proof. repeat split; try done. apply isCentral_BlockKey. Qed.
#[export] Hint Resolve block_commit_ok unblock_commit_ok : guardian.

(** ** A fact about one key that other clients respect

    [fence k P]: from some instant on the key [k] holds an entry satisfying
    [P]; the rely lets others replace it only by such an entry. *)
Section Fence.
Variable k : gostring.
Variable good : gostring -> Prop.     (* admissible values *)
Variable life : Z.                    (* the TTL they are written with *)
Hypothesis life_pos : 0 < life.

(** The key holds an admissible value until [until] at least. *)
Definition held (until : Z) (m : amap) : Prop :=
  exists e, m !! k = Some e /\ good (e_value e) /\ (match e_expires e with None => True | Some d => until <= d end).

(** A call that renews the entry. *)
Definition renews (o : any_op) : Prop :=
  match projT2 o with
  | OSet k' v ttl => k' = k /\ good v /\ ttl = life
  | OCommitUnblock c =>
    (uc_GenerationKey c = k /\ good (uc_Generation c) /\ uc_GenerationTTL c = life \/
     uc_HoldKey c = k /\ uc_GenerationKey c <> k /\ good (uc_HoldValue c) /\ uc_HoldTTL c = life) /\
    uc_BlockKey c <> k /\ uc_CounterKey c <> k
  | _ => False
  end.

Definition respects (o : any_op) : Prop := k ∉ writes (projT2 o) \/ renews o.

Lemma held_insert (until : Z) (m : amap) (v : gostring) (now : Z) :
  good v -> until <= now + life -> held until (<[k := mk_entry v (expiry life now)]> m).
Proof using life_pos.
  intros Hv Hu. exists (mk_entry v (expiry life now)). rewrite lookup_insert_eq. split_ands; [done | done |].
  unfold expiry. simpl. destruct (life <=? 0) eqn:E; bool_to_prop; lia.
Qed.

Lemma held_mono (until : Z) (m m' : amap) : m' !! k = m !! k -> held until m -> held until m'.
Proof. unfold held. by intros ->. Qed.

Lemma renewed (lo hi until : Z) (o : any_op) (t : clock) (m : amap) : renews o -> ticks lo hi t ->
  until <= lo + life -> held until (spec_op t (projT2 o) m).1.
Proof using life_pos.
  destruct o as [R op]. unfold renews. simpl. intros Hr Ht Hu.
  pose proof (ticks_bound _ _ _ 0%nat Ht). pose proof (ticks_bound _ _ _ 1%nat Ht). destruct op; try done.
  - destruct Hr as (-> & Hv & ->). apply held_insert; [done | lia].
  - destruct Hr as [Hr [Hb Hc]]. simpl. unfold spec_commit_unblock.
    assert (Hin : forall m0 : amap, held until m0 -> held until (if uc_ResetBackoff c then delete (uc_CounterKey c) (delete (uc_BlockKey c) m0)
      else delete (uc_BlockKey c) m0)).
    { intros m0 Hm. eapply held_mono; [| exact Hm]. destruct (uc_ResetBackoff c); by rewrite !lookup_delete_ne. }
    destruct Hr as [(-> & Hg & ->) | (-> & Hne & Hg & ->)]; simpl; apply Hin.
    + apply held_insert; [done | lia].
    + eapply held_mono; [by apply lookup_insert_ne |]. apply held_insert; [done | lia].
Qed.

Lemma held_step (lo hi until : Z) (o : any_op) (m : amap) (r : result (projT1 o)) (m' : amap) :
  respects o -> until <= lo + life -> contract_step lo hi (projT2 o) m r m' -> held until m -> held until m'.
Proof using life_pos.
  intros [Hr | Hr] Hu Hs Hm.
  - eapply held_mono; [| exact Hm]. by eapply contract_step_frame.
  - inversion Hs; subst; [by eapply renewed | done | by eapply renewed].
Qed.

Lemma held_env (lo : Z) (m : amap) (hi : Z) (m' : amap) (until : Z) :
  env_run respects lo m hi m' -> until <= lo + life -> held until m -> held until m'.
Proof using life_pos.
  induction 1 as [| lo mid hi R op m r m1 m' Ho Hs Hrun IH]; intros Hu Hm; [done |].
  apply contract_step_time in Hs as Ht. apply IH; [lia |]. eapply (held_step _ _ _ (some_op op)); eauto.
Qed.

(** What is still live is what [held] says. *)
Lemma held_live (until now : Z) (m : amap) : held until m -> now <= until ->
  exists e, live now m k = Some e /\ good (e_value e).
Proof.
  intros (e & He & Hg & Hd) Hn. exists e. split; [| done]. apply live_Some. split; [done |].
  unfold expired. destruct (e_expires e); [| done]. apply Z.ltb_ge. lia.
Qed.
End Fence.

(** ** In-flight blocks against a completed unblock *)

(** What the other instances may do, for a client's generation key: anything
    but touch it, except by an unblock that writes a generation other than
    [v]. *)
Definition gen_rely (ip v : gostring) : any_op -> Prop :=
  respects (unblockGenKey ip) (fun g => g <> v) unblockGenRetention.

Lemma gen_retention_pos : 0 < unblockGenRetention.
Proof. done. Qed.

Definition no_block_effect (e : effect) : Prop := exists ip reason cause, e = LogNotBlocking ip reason cause.
Definition unchanged (p : amap * amap) : Prop := p.1 = p.2.

Definition gen_rotated (ip v : gostring) (until : Z) (m : amap) : Prop :=
  held (unblockGenKey ip) (fun g => g <> v) until m.

(** A commit whose guard no longer matches changes nothing, whatever else it
    finds. *)
Lemma commit_block_guard_fails lo hi (c : BlockCommit) (m : amap) (r : result BlockCommitResult) (m' : amap) :
  (forall now, lo <= now <= hi -> matches (live now m (bc_GuardKey c)) (bc_GuardValue c) = false) ->
  contract_step lo hi (OCommitBlock c) m r m' ->
  m' = m /\ (forall x, r = Ok x -> br_Committed x = false).
Proof.
  intros Hg Hs.
  assert (Hspec : forall t, ticks lo hi t -> (spec_commit_block t c m).1 = m /\
    exists cause, (spec_commit_block t c m).2 = Ok (refused cause)).
  { intros t Ht. unfold spec_commit_block. destruct (live (t 0%nat) m (bc_HoldKey c)); [by eauto |].
    rewrite (Hg (t 1%nat)) by (by apply (ticks_bound lo hi)). simpl. eauto. }
  inversion Hs as [t Ht | e Hle | t e Ht]; subst; simpl.
  - destruct (Hspec t Ht) as [-> [cause ->]]. split; [done |]. by intros x [= <-].
  - done.
  - destruct (Hspec t Ht) as [-> _]. done.
Qed.

Lemma rotated_guard_fails ip v until now (m : amap) :
  gen_rotated ip v until m -> now <= until ->
  matches (live now m (unblockGenKey ip)) (match v with [] => None | _ => Some v end) = false.
Proof.
  intros Hm Hn. destruct (held_live _ _ until now m Hm Hn) as (e & -> & Hne).
  destruct v; simpl; [done |]. by apply bool_decide_eq_false_2.
Qed.

(** [Block], admitted under a generation that has been rotated since, places
    nothing. *)
Lemma stale_block_refused ip reason ttl mx token v until : forall lo (m : amap) hi (m' : amap) r es own,
  gen_rotated ip v until m -> hi <= until -> until <= lo + unblockGenRetention ->
  interleaved (gen_rely ip v) lo m (Block_admitted ip reason ttl mx token v) hi m' r es own ->
  Forall unchanged own /\ Forall no_block_effect es.
Proof.
  intros lo m hi m' r es own Hrot Hhi Hlo (t1 & t2 & m0 & r1 & m1 & own1 & He & Hget & -> & Hrun).
  pose proof (env_run_time _ _ _ _ _ He) as Hlt. pose proof (contract_step_time _ _ _ _ _ _ Hget) as Hlt2.
  assert (gen_rotated ip v until m0) as Hrot0 by
    (eapply (held_env _ _ _ gen_retention_pos); [exact He | done | done]).
  assert (m1 = m0) as -> by (inversion Hget; done).
  destruct r1 as [prev | e]; [| destruct Hrun as (_ & _ & -> & ->); by repeat constructor].
  destruct Hrun as (t3 & t4 & m2 & r2 & m3 & own2 & He2 & Hc & -> & Hrun).
  pose proof (env_run_time _ _ _ _ _ He2) as Hlt3. pose proof (contract_step_time _ _ _ _ _ _ Hc) as Hlt4.
  assert (gen_rotated ip v until m2) as Hrot2 by
    (eapply (held_env _ _ _ gen_retention_pos); [exact He2 | lia | done]).
  apply interleaved_time in Hrun as Hend.
  apply commit_block_guard_fails in Hc as [-> Hr2].
  2:{ intros now Hnow. simpl. eapply rotated_guard_fails; [exact Hrot2 | lia]. }
  destruct r2 as [x | e]; [| destruct Hrun as (_ & _ & -> & ->); by repeat constructor].
  rewrite (Hr2 x eq_refl) in Hrun. simpl in Hrun. destruct Hrun as (es' & -> & _ & _ & -> & ->).
  split; [by repeat constructor |]. repeat constructor. by eexists _, _, _.
Qed.

(** A completed [CommitUnblock] leaves the generation rotated for the whole
    retention. *)
Lemma commit_unblock_rotates s ip gen rb v lo (m : amap) hi (m' : amap) es own :
  0 < sb_unblockHold s -> gen <> v ->
  interleaved (gen_rely (canonIP ip) v) lo m (CommitUnblock s ip gen rb) hi m' (Ok tt) es own ->
  gen_rotated (canonIP ip) v (lo + unblockGenRetention) m'.
Proof.
  intros Hh Hg. unfold CommitUnblock. rewrite (proj2 (Z.leb_gt _ _)) by done.
  intros (t1 & t2 & m0 & r1 & m1 & own1 & He & Hc & -> & Hrun).
  apply env_run_time in He as Hlt. apply contract_step_time in Hc as Hlt2.
  destruct r1 as [[]|e]; [| by destruct Hrun as (_ & ? & _)].
  assert (gen_rotated (canonIP ip) v (lo + unblockGenRetention) m1) as H1.
  { inversion Hc as [t Ht | |]; subst.
    eapply (renewed _ _ _ gen_retention_pos t1 t2 _ (some_op (OCommitUnblock _))); [| exact Ht | lia].
    split; [by left |].
    split; [change (BlockKey (canonIP ip) <> unblockGenKey (canonIP ip)) |
            change (blockCountKey (canonIP ip) <> unblockGenKey (canonIP ip))]; auto with guardian. }
  assert (exists hi' es', env_run (gen_rely (canonIP ip) v) t2 m1 hi' m' /\ es = es' /\ hi' = hi) as (? & ? & Henv & _).
  { unfold notifyEnforcer in Hrun. destruct (ParseAddr (canonIP ip)).
    - destruct Hrun as (es' & -> & Hrun & _). by eauto.
    - destruct Hrun as (Hrun & _). by eauto. }
  eapply (held_env _ _ _ gen_retention_pos); [exact Henv | lia | done].
Qed.

(** ** The unblock hold *)
Definition hold_rely (s : Scoreboard) (ip : gostring) : any_op -> Prop :=
  respects (unblockHoldKey ip) (fun _ => True) (sb_unblockHold s).
Definition on_hold (ip : gostring) (until : Z) (m : amap) : Prop :=
  held (unblockHoldKey ip) (fun _ => True) until m.

(** A run that changes nothing of its own and places no block. *)
Definition inert (es : list effect) (own : list (amap * amap)) : Prop :=
  Forall unchanged own /\ Forall no_block_effect es.

Lemma inert_nil : inert [] [].
Proof. split; constructor. Qed.
Lemma inert_call (m : amap) es own : inert es own -> inert es ((m, m) :: own).
Proof. intros [H1 H2]. split; [by constructor | done]. Qed.
Lemma inert_log ip reason cause own : Forall unchanged own -> inert [LogNotBlocking ip reason cause] own.
Proof. intros H. split; [done |]. repeat constructor. by eexists _, _, _. Qed.
#[export] Hint Resolve inert_nil inert_call inert_log : guardian.

Section Hold.
Variables (s : Scoreboard) (ip : gostring) (until : Z).
Hypothesis hold_pos : 0 < sb_unblockHold s.

Lemma hold_env lo (m : amap) hi (m' : amap) :
  env_run (hold_rely s ip) lo m hi m' -> until <= lo + sb_unblockHold s -> on_hold ip until m -> on_hold ip until m'.
Proof using hold_pos. by apply held_env. Qed.

(** Reads change nothing. *)
Lemma get_step lo hi k (m : amap) (r : result (option gostring)) (m' : amap) :
  contract_step lo hi (OGet k) m r m' -> m' = m.
Proof. by inversion 1. Qed.

Lemma commit_block_on_hold lo hi (c : BlockCommit) (m : amap) (r : result BlockCommitResult) (m' : amap) :
  bc_HoldKey c = unblockHoldKey ip -> on_hold ip until m -> hi <= until ->
  contract_step lo hi (OCommitBlock c) m r m' ->
  m' = m /\ (forall x, r = Ok x -> br_Committed x = false).
Proof.
  intros Hk Hm Hhi Hs.
  assert (Hspec : forall t, ticks lo hi t -> spec_commit_block t c m = (m, Ok (refused BlockRefusalHold))).
  { intros t Ht. unfold spec_commit_block. rewrite Hk. pose proof (ticks_bound _ _ _ 0%nat Ht).
    destruct (held_live _ _ until (t 0%nat) m Hm ltac:(lia)) as (e & -> & _). done. }
  inversion Hs as [t Ht | | t e Ht]; subst; simpl; rewrite ?Hspec by done; (split; [done |]);
    [by intros x [= <-] | done | done].
Qed.

Lemma commit_event_on_hold lo hi (c : EventCommit) (m : amap) (r : result EventCommitResult) (m' : amap) :
  ec_HoldKey c = unblockHoldKey ip -> on_hold ip until m -> hi <= until ->
  contract_step lo hi (OCommitEvent c) m r m' ->
  m' = m /\ (forall x, r = Ok x -> er_Committed x = false).
Proof.
  intros Hk Hm Hhi Hs.
  assert (Hspec : forall t, ticks lo hi t -> spec_commit_event t c m = (m, Ok (mk_event_result false 0))).
  { intros t Ht. unfold spec_commit_event. rewrite Hk. pose proof (ticks_bound _ _ _ 0%nat Ht).
    destruct (held_live _ _ until (t 0%nat) m Hm ltac:(lia)) as (e & -> & _). done. }
  inversion Hs as [t Ht | | t e Ht]; subst; simpl; rewrite ?Hspec by done; (split; [done |]);
    [by intros x [= <-] | done | done].
Qed.

(** The generation read, and what follows it. *)
Lemma token_then {A} (f : result gostring -> prog A) lo (m : amap) hi (m' : amap) a es own :
  on_hold ip until m -> until <= lo + sb_unblockHold s ->
  interleaved (hold_rely s ip) lo m (bind (unblockToken s ip) f) hi m' a es own ->
  exists mid m1 r own', lo <= mid /\ on_hold ip until m1 /\
    interleaved (hold_rely s ip) mid m1 (f r) hi m' a es own' /\ (inert es own' -> inert es own).
Proof using hold_pos.
  unfold unblockToken. destruct (sb_unblockHold s <=? 0) eqn:E; [bool_to_prop; lia |].
  intros Hm Hu (t1 & t2 & m0 & r & m1 & own' & He & Hc & -> & Hrun).
  apply hold_env in He as Hm0; [| done | done]. apply env_run_time in He. apply contract_step_time in Hc as Ht.
  apply get_step in Hc as ->.
  destruct r as [v | e]; (eexists t2, m0, _, own'; split_ands; [lia | done | exact Hrun | auto with guardian]).
Qed.

Lemma block_admitted_on_hold reason ttl mx token v lo (m : amap) hi (m' : amap) r es own :
  on_hold ip until m -> hi <= until -> until <= lo + sb_unblockHold s ->
  interleaved (hold_rely s ip) lo m (Block_admitted ip reason ttl mx token v) hi m' r es own -> inert es own.
Proof using hold_pos.
  intros Hm Hhi Hlo (t1 & t2 & m0 & r1 & m1 & own1 & He & Hget & -> & Hrun).
  apply hold_env in He as Hm0; [| done | done]. apply env_run_time in He. apply contract_step_time in Hget as Ht.
  apply get_step in Hget as ->.
  destruct r1 as [prev | e]; [| destruct Hrun as (_ & _ & -> & ->); auto with guardian].
  destruct Hrun as (t3 & t4 & m2 & r2 & m3 & own2 & He2 & Hc & -> & Hrun).
  apply hold_env in He2 as Hm2; [| lia | done]. apply env_run_time in He2. apply interleaved_time in Hrun as Ht3.
  eapply commit_block_on_hold in Hc as [-> Hr2]; [| reflexivity | exact Hm2 | lia].
  destruct r2 as [x | e]; [| destruct Hrun as (_ & _ & -> & ->); auto with guardian].
  rewrite (Hr2 x eq_refl) in Hrun. destruct Hrun as (es' & -> & _ & _ & -> & ->).
  apply inert_log. by repeat constructor.
Qed.

Lemma record_admitted_on_hold now evtype limit window bttl mx token g lo (m : amap) hi (m' : amap) r es own :
  on_hold ip until m -> hi <= until -> until <= lo + sb_unblockHold s ->
  interleaved (hold_rely s ip) lo m
    (RecordEvent_admitted s now ip evtype limit window bttl mx token g) hi m' r es own ->
  inert es own /\ r.1 = false.
Proof using hold_pos.
  intros Hm Hhi Hlo (t1 & t2 & m0 & r1 & m1 & own1 & He & Hc & -> & Hrun).
  apply hold_env in He as Hm0; [| done | done]. apply interleaved_time in Hrun as Ht3.
  eapply commit_event_on_hold in Hc as [-> Hr1]; [| reflexivity | exact Hm0 | lia].
  destruct r1 as [x | e]; [| destruct Hrun as (_ & -> & -> & ->); auto with guardian].
  rewrite (Hr1 x eq_refl) in Hrun. destruct Hrun as (_ & -> & -> & ->). auto with guardian.
Qed.
End Hold.

(** A completed [CommitUnblock] leaves the client on hold for the window. *)
Lemma commit_unblock_holds s ip gen rb lo (m : amap) hi (m' : amap) es own :
  0 < sb_unblockHold s ->
  interleaved (hold_rely s (canonIP ip)) lo m (CommitUnblock s ip gen rb) hi m' (Ok tt) es own ->
  on_hold (canonIP ip) (lo + sb_unblockHold s) m'.
Proof.
  intros Hh. unfold CommitUnblock. rewrite (proj2 (Z.leb_gt _ _)) by done.
  intros (t1 & t2 & m0 & r1 & m1 & own1 & He & Hc & -> & Hrun).
  apply env_run_time in He as Hlt. apply contract_step_time in Hc as Hlt2.
  destruct r1 as [[]|e]; [| by destruct Hrun as (_ & ? & _)].
  assert (on_hold (canonIP ip) (lo + sb_unblockHold s) m1) as H1.
  { inversion Hc as [t Ht | |]; subst.
    eapply (renewed _ _ _ Hh t1 t2 _ (some_op (OCommitUnblock _))); [| exact Ht | lia].
    split; [right | split].
    - split_ands; try done.
    - change (BlockKey (canonIP ip) <> unblockHoldKey (canonIP ip)). auto with guardian.
    - change (blockCountKey (canonIP ip) <> unblockHoldKey (canonIP ip)). auto with guardian. }
  assert (exists hi', env_run (hold_rely s (canonIP ip)) t2 m1 hi' m' /\ hi' = hi) as (? & Henv & _).
  { unfold notifyEnforcer in Hrun. destruct (ParseAddr (canonIP ip)); [destruct Hrun as (es' & -> & Hrun & _) |
      destruct Hrun as (Hrun & _)]; by eauto. }
  eapply (held_env _ _ _ Hh); [exact Henv | lia | done].
Qed.

(** While the hold stands, scoring and blocking are inert. *)
Lemma record_event_on_hold s ip form until now evtype limit window bttl mx token lo (m : amap) hi (m' : amap) r es own :
  0 < sb_unblockHold s -> canonIP form = ip -> on_hold ip until m -> hi <= until -> until <= lo + sb_unblockHold s ->
  interleaved (hold_rely s ip) lo m (RecordEvent s now form evtype limit window bttl mx token) hi m' r es own ->
  inert es own /\ r.1 = false.
Proof.
  intros Hs Hf Hm Hhi Hu Hr. unfold RecordEvent in Hr. destruct (_ || _); [destruct Hr as (_ & -> & -> & ->); auto with guardian |].
  rewrite Hf in Hr. eapply token_then in Hr as (mid' & m1 & tok & own' & Hle & Hm' & Hr & Hown); [| done..].
  destruct tok as [g | e]; [| destruct Hr as (_ & -> & -> & ->); auto with guardian].
  eapply record_admitted_on_hold in Hr as [H1 H2]; [auto | done | exact Hm' | done | lia].
Qed.

Lemma block_on_hold s ip form until reason ttl mx token lo (m : amap) hi (m' : amap) r es own :
  0 < sb_unblockHold s -> canonIP form = ip -> on_hold ip until m -> hi <= until -> until <= lo + sb_unblockHold s ->
  interleaved (hold_rely s ip) lo m (Block s form reason ttl mx token) hi m' r es own -> inert es own.
Proof.
  intros Hs Hf Hm Hhi Hu Hr. unfold Block in Hr. rewrite Hf in Hr.
  eapply token_then in Hr as (mid' & m1 & tok & own' & Hle & Hm' & Hr & Hown); [| done..].
  destruct tok as [g | e]; [| destruct Hr as (_ & _ & -> & ->); auto with guardian].
  eapply block_admitted_on_hold in Hr; [auto | done | exact Hm' | done | lia].
Qed.

(** ** What the programs may do to each other *)

(** A call that keeps to the namespaces, cannot bring back the generation [v]
    of the client [ip], and never takes a hold away. *)
Definition scoreboard_op (s : Scoreboard) (ip v : gostring) (o : any_op) : Prop :=
  op_keys (projT2 o) /\ gen_rely ip v o /\ hold_rely s ip o.

Ltac not_in_writes := cbn [projT2 some_op writes bc_BlockKey bc_CounterKey block_commit ec_CounterKey];
  rewrite ?not_elem_of_cons; split_ands; try apply not_elem_of_nil; auto with guardian.

Section Guarantee.
Variables (s : Scoreboard) (ip v : gostring).
Let ok := scoreboard_op s ip v.

Lemma frame_ok {R} (op : store_op R) : op_keys op -> unblockGenKey ip ∉ writes op ->
  unblockHoldKey ip ∉ writes op -> ok (some_op op).
Proof. intros H1 H2 H3. split; [done |]. split; by left. Qed.

Lemma get_ok k : ok (some_op (OGet k)).
Proof. by apply frame_ok; [| not_in_writes ..]. Qed.

Lemma delete_ok k : k <> unblockGenKey ip -> k <> unblockHoldKey ip -> ok (some_op (ODelete k)).
Proof. intros. by apply frame_ok; [| not_in_writes ..]. Qed.

Lemma commit_block_ok i reason ttl mx adm prev mine :
  ok (some_op (OCommitBlock (block_commit i reason ttl mx adm prev mine))).
Proof. apply frame_ok; [simpl; auto with guardian | not_in_writes ..]. Qed.

Lemma commit_event_ok i evtype g b ttl :
  ok (some_op (OCommitEvent (mk_event_commit (eventKey evtype i g b) ttl (unblockHoldKey i)))).
Proof. by apply frame_ok; [| not_in_writes ..]. Qed.

Lemma set_block_ok i x ttl : ok (some_op (OSet (BlockKey i) x ttl)).
Proof. by apply frame_ok; [| not_in_writes ..]. Qed.

Lemma set_gen_ok i g : g <> v -> ok (some_op (OSet (unblockGenKey i) g unblockGenRetention)).
Proof.
  intros Hg. split; [done |]. split; [| left; not_in_writes].
  destruct (decide (i = ip)) as [-> | H]; [by right |]. left. simpl.
  rewrite not_elem_of_cons. split; [by intros ->%(inj unblockGenKey) | apply not_elem_of_nil].
Qed.

Lemma set_hold_ok i x : ok (some_op (OSet (unblockHoldKey i) x (sb_unblockHold s))).
Proof.
  split; [done |]. split; [left; not_in_writes |].
  destruct (decide (i = ip)) as [-> | H]; [by right |]. left. simpl.
  rewrite not_elem_of_cons. split; [by intros ->%(inj unblockHoldKey) | apply not_elem_of_nil].
Qed.

Lemma commit_unblock_ok i g rb : g <> v -> ok (some_op (OCommitUnblock (unblock_commit s i g rb))).
Proof.
  intros Hg. split; [simpl; auto with guardian |].
  assert (Hb : forall i', BlockKey i <> unblockGenKey i' /\ BlockKey i <> unblockHoldKey i') by
    (split; auto with guardian).
  destruct (decide (i = ip)) as [-> | H].
  - split; right; unfold renews; cbn [projT2 some_op uc_BlockKey uc_CounterKey unblock_commit];
      (split; [| split; [apply Hb | auto with guardian]]); [by left |].
    right. cbn [uc_HoldKey uc_GenerationKey uc_HoldValue uc_HoldTTL]. split_ands; auto with guardian.
  - split; left; cbn [projT2 some_op writes uc_HoldKey uc_GenerationKey uc_BlockKey uc_CounterKey unblock_commit];
      rewrite !not_elem_of_cons; split_ands; try apply not_elem_of_nil; auto with guardian;
      first [by intros ->%(inj unblockGenKey) | by intros ->%(inj unblockHoldKey)
            | by apply not_eq_sym, Hb].
Qed.
End Guarantee.

#[export] Hint Resolve get_ok delete_ok commit_block_ok commit_event_ok set_block_ok set_gen_ok set_hold_ok
  commit_unblock_ok : guardian.

Section ProgramsGuarantee.
Variables (s : Scoreboard) (ip v : gostring).
Abbreviation ok := (scoreboard_op s ip v).

Lemma token_ok i {A} (f : result gostring -> prog A) :
  (forall r, issues ok (f r)) -> issues ok (bind (unblockToken s i) f).
Proof.
  intros Hf. unfold unblockToken. case_match; simpl; [by apply Hf |].
  split; [auto with guardian |]. intros [r | e]; apply Hf.
Qed.

Lemma notify_ok {A} i reason ttl rm (k : prog A) : issues ok k -> issues ok (notifyEnforcer i reason ttl rm k).
Proof. intros. unfold notifyEnforcer. by case_match. Qed.

Lemma Block_ok i reason ttl mx token : issues ok (Block s i reason ttl mx token).
Proof.
  apply token_ok. intros [adm | e]; [| done]. split; [auto with guardian |]. intros [prev | e]; [| done].
  split; [auto with guardian |]. intros [c | e]; [| done]. destruct (br_Committed c); simpl; [| done].
  unfold notifyOwnedEnforcer. by case_match.
Qed.

Lemma RecordEvent_ok now i evtype limit window bttl mx token :
  issues ok (RecordEvent s now i evtype limit window bttl mx token).
Proof.
  unfold RecordEvent. case_match; [done |]. apply token_ok. intros [g | e]; [| done].
  split; [auto with guardian |]. intros [r | e]; [| done]. case_match; [done |].
  apply issues_bind; [apply Block_ok | done].
Qed.

Lemma delete_keys_ok keys : forall n f k, Forall (fun x => x <> unblockGenKey ip /\ x <> unblockHoldKey ip) keys ->
  (forall a b, issues ok (k a b)) -> issues ok (delete_keys keys n f k).
Proof.
  induction keys as [| x keys IH]; simpl; intros n f k Hk Hf; [done |].
  apply Forall_cons in Hk as [[H1 H2] Hk]. split; [auto with guardian |]. intros [r | e]; by apply IH.
Qed.

Lemma ResetEventCounters_ok now i g windows : issues ok (ResetEventCounters now i g windows).
Proof.
  unfold ResetEventCounters. generalize 0 at 2. generalize 0.
  induction windows as [| w windows IH]; intros n f; simpl; [done |]. case_match; [done |].
  apply (delete_keys_ok (reset_keys (canonIP i) g now w)); [| done].
  repeat constructor; auto with guardian.
Qed.

Lemma Unblock_ok i : issues ok (Unblock i).
Proof.
  split; [apply delete_ok; auto with guardian |]. intros [r | e]; [| done]. by apply notify_ok.
Qed.

Lemma ResetBackoff_ok i : issues ok (ResetBackoff i).
Proof. split; [apply delete_ok; auto with guardian | done]. Qed.

Lemma HoldUnblock_ok i g : g <> v -> issues ok (HoldUnblock s i g).
Proof.
  intros Hg. unfold HoldUnblock. case_match; [done |]. split; [auto with guardian |].
  intros [r | e]; [| done]. split; [auto with guardian | done].
Qed.

Lemma CommitUnblock_ok i g rb : g <> v -> issues ok (CommitUnblock s i g rb).
Proof.
  intros Hg. unfold CommitUnblock. case_match.
  - destruct rb; [| apply Unblock_ok]. apply issues_bind; [apply ResetBackoff_ok |].
    intros [r | e]; [apply Unblock_ok | done].
  - split; [auto with guardian |]. intros [r | e]; [| done]. by apply notify_ok.
Qed.

Lemma BlockIP_ok i reason ttl token : issues ok (BlockIP i reason ttl token).
Proof. split; [auto with guardian |]. intros [r | e]; [| done]. by apply notify_ok. Qed.
End ProgramsGuarantee.

(** ** Sequential behaviour on the contract *)
Section Sequential.
Variables (s : Scoreboard) (ip evtype : gostring) (limit window bttl mx : Z) (lo hi : Z).
Hypothesis limit_pos : 0 < limit.
Hypothesis limit_ok : int64_ok limit.
Hypothesis window_pos : 0 < window.
(* the counter outlives the run, and its deadline is an int64 *)
Hypothesis time_lo : 0 <= lo <= hi.
Hypothesis short : hi < lo + 2 * window.
Hypothesis no_overflow : hi + 2 * window <= int64_max.

Let cip := canonIP ip.
Variable bucket : Z.
Let key := eventKey evtype cip [] bucket.

Definition within (tm : nat -> clock) : Prop := forall n i, lo <= tm n i <= hi.

(** Nobody unblocked the client lately. *)
Definition no_unblock (m : amap) : Prop :=
  live lo m (unblockHoldKey cip) = None /\ live lo m (unblockGenKey cip) = None.

(** The event counter stands at [n]. *)
Definition counted (n : Z) (m : amap) : Prop :=
  if n =? 0 then live lo m key = None
  else exists d, m !! key = Some (mk_entry (FormatInt n) (Some d)) /\ hi <= d.

Lemma run_token {A} (f : result gostring -> prog A) tm (m : amap) : within tm -> no_unblock m ->
  exists tm', within tm' /\ run (bind (unblockToken s cip) f) tm m = run (f (Ok [])) tm' m.
Proof using.
  intros Htm [_ Hg]. unfold unblockToken. case_match; simpl; [by exists tm |].
  unfold spec_get. rewrite (live_None_later lo) by (done || apply Htm). simpl.
  eexists; split; [| done]. intros n i. apply Htm.
Qed.

(** One event: the counter goes up by one, and the limit decides. *)
Lemma run_event (t : clock) (n : Z) (m : amap) : (forall i, lo <= t i <= hi) -> 0 <= n < limit ->
  no_unblock m -> counted n m ->
  exists d, hi <= d /\
    spec_commit_event t (mk_event_commit key (wrap64 (2 * window)) (unblockHoldKey cip)) m =
    (<[key := mk_entry (FormatInt (n + 1)) (Some d)]> m, Ok (mk_event_result true (n + 1))).
Proof using limit_ok window_pos time_lo short no_overflow.
  intros Ht Hn [Hh _] Hc. unfold spec_commit_event. cbn [ec_HoldKey ec_CounterKey ec_CounterTTL].
  pose proof (Ht 0%nat). pose proof (Ht 1%nat). pose proof (Ht 2%nat). pose proof (Ht 3%nat).
  rewrite (live_None_later lo) by (done || lia). unfold int64_ok, int64_min, int64_max in *.
  rewrite wrap64_id by (unfold int64_ok, int64_min, int64_max; lia).
  rewrite (proj2 (Z.ltb_lt 0 (2 * window))) by lia. unfold UnixNano.
  rewrite wrap64_id by (unfold int64_ok, int64_min, int64_max; lia). unfold spec_incr_by_deadline, UnixNano.
  rewrite (wrap64_id (t (2 + 0)%nat)) by (unfold int64_ok, int64_min, int64_max; simpl; lia).
  rewrite (proj2 (Z.eqb_neq (t 1%nat + 2 * window) 0)) by lia.
  rewrite (proj2 (Z.leb_gt (t 1%nat + 2 * window) (t (2 + 0)%nat))) by (simpl; lia). cbn [negb andb].
  unfold counted in Hc. destruct (n =? 0) eqn:E; bool_to_prop.
  - subst n. rewrite (live_None_later lo) by (done || (simpl; lia)). eexists; split; [| reflexivity]. lia.
  - destruct Hc as (d & Hd & Hle).
    assert (live (t (2 + 1)%nat) m key = Some (mk_entry (FormatInt n) (Some d))) as ->.
    { apply live_Some. split; [done |]. apply Z.ltb_ge. simpl. lia. }
    cbn [e_value e_expires]. rewrite ParseInt_FormatInt by (unfold int64_ok, int64_min, int64_max; lia).
    rewrite wrap64_id by (unfold int64_ok, int64_min, int64_max; lia). eexists; split; [| reflexivity]. done.
Qed.
(** The keys a counted event does not touch. *)
Lemma no_unblock_counted (e : entry) (m : amap) : no_unblock m -> no_unblock (<[key := e]> m).
Proof. intros [H1 H2]. unfold no_unblock, key. by rewrite !live_insert_ne by auto with guardian. Qed.

(** A block of a client that is not blocked and has no offenses. *)
Definition first_offense (m : amap) : Prop :=
  live lo m (BlockKey cip) = None /\ live lo m (blockCountKey cip) = None.

Lemma first_offense_counted (e : entry) (m : amap) : first_offense m -> first_offense (<[key := e]> m).
Proof. intros [H1 H2]. unfold first_offense, key. by rewrite !live_insert_ne by auto with guardian. Qed.

Definition first_block (reason : gostring) (token : Z) (m : amap) : Prop :=
  exists t t', lo <= t <= hi /\ lo <= t' <= hi /\
    m !! BlockKey cip = Some (mk_entry (BlockValue reason token)
      (Some (t + blockBackoffTTL (if bttl <=? 0 then minute else bttl) (if mx <=? 0 then hardMaxBlockTTL else mx) 1))) /\
    m !! blockCountKey cip = Some (mk_entry (FormatInt 1) (Some (t' + 24 * hour))).

Lemma run_notify_owned {A} reason ttl owner (a : A) tm (m : amap) :
  exists es, run (notifyOwnedEnforcer cip reason ttl (BlockKey cip) owner (Ret a)) tm m = (m, es, a).
Proof. unfold notifyOwnedEnforcer. case_match; by eexists. Qed.

Lemma run_first_block reason token tm (m : amap) : int64_ok bttl -> int64_ok mx ->
  within tm -> no_unblock m -> first_offense m ->
  exists m' es, run (Block s cip reason bttl mx token) tm m = (m', es, Ok tt) /\ first_block reason token m'.
Proof.
  intros Hb Hmx Htm Hu [Hbl Hct]. unfold Block. assert (canonIP cip = cip) as -> by apply canonIP_idem.
  edestruct (run_token (fun r => match r with Ok a => Block_admitted cip reason bttl mx token a | Err e => Ret (Err e) end)
    tm m Htm Hu) as (tm' & Htm' & ->).
  destruct Hu as [Hh Hg]. unfold Block_admitted. cbn [run]. rewrite spec_exec_op. cbn [spec_op]. unfold spec_get.
  rewrite (live_None_later lo) by (done || apply Htm'). cbn [fmap option_fmap option_map]. cbn [run].
  rewrite spec_exec_op. cbn [spec_op]. unfold spec_commit_block.
  cbn [bc_HoldKey bc_GuardKey bc_GuardValue bc_BlockKey bc_ExpectedBlock bc_CounterKey bc_CounterTTL bc_NewBlock
    bc_BaseTTL bc_MaxTTL block_commit].
  rewrite !(live_None_later lo) by (done || apply Htm'). cbn [matches negb next_offense].
  set (base := if bttl <=? 0 then minute else bttl). set (cap := if mx <=? 0 then hardMaxBlockTTL else mx).
  assert (int64_ok base /\ int64_ok cap) as [Hbase Hcap].
  { unfold base, cap. split; case_match; try done; unfold int64_ok; by vm_compute. }
  destruct (blockBackoffTTL_pos base cap 1 Hbase Hcap) as [Hpos _].
  unfold br_Committed. cbn [negb run br_TTL br_Offenses].
  match goal with |- context [run (notifyOwnedEnforcer _ ?r ?t _ ?o (Ret ?a)) ?tm ?m] => destruct (run_notify_owned r t o a tm m) as [es ->] end.
  do 2 eexists. split; [reflexivity |].
  exists (tm' 1%nat 5%nat), (tm' 1%nat 4%nat). split_ands; try apply Htm'.
  - rewrite lookup_insert_eq. unfold expiry. by rewrite (proj2 (Z.leb_gt _ _)).
  - rewrite lookup_insert_ne by auto with guardian. by rewrite lookup_insert_eq.
Qed.

(** Events of one client, in any textual form of its address, in one bucket
    of the recording instances' clocks. *)
Definition event_input : Type := gostring * Z * (nat -> clock) * Z.
Definition event_ok (i : event_input) : Prop :=
  let '(form, now, tm, _) := i in canonIP form = cip /\ eventBucket now window = bucket /\ within tm.

Fixpoint run_events (inputs : list event_input) (m : amap) : list (bool * result unit) * amap :=
  match inputs with
  | [] => ([], m)
  | (form, now, tm, token) :: rest =>
    let '(m', _, r) := run (RecordEvent s now form evtype limit window bttl mx token) tm m in
    let '(rs, m'') := run_events rest m' in (r :: rs, m'')
  end.

Lemma run_record n (i : event_input) (m : amap) : event_ok i -> 0 <= n < limit -> no_unblock m -> counted n m ->
  let '(form, now, tm, token) := i in
  exists d tm', hi <= d /\ within tm' /\
    run (RecordEvent s now form evtype limit window bttl mx token) tm m =
    let m' := <[key := mk_entry (FormatInt (n + 1)) (Some d)]> m in
    if n + 1 <? limit then (m', [], (false, Ok tt))
    else let '(m'', es, r) := run (Block s cip (lit "threshold:" ++ evtype) bttl mx token) tm' m' in
         (m'', es, (true, r)).
Proof.
  destruct i as [[[form now] tm] token]. intros (Hf & Hb & Htm) Hn Hu Hc. unfold RecordEvent.
  rewrite (proj2 (Z.leb_gt limit 0)), (proj2 (Z.leb_gt window 0)) by lia. cbn [orb]. rewrite Hf.
  edestruct (run_token (fun r => match r with
    | Ok g => RecordEvent_admitted s now cip evtype limit window bttl mx token g | Err e => Ret (false, Err e) end)
    tm m Htm Hu) as (tm' & Htm' & ->).
  unfold RecordEvent_admitted. cbn [run]. rewrite spec_exec_op. cbn [spec_op]. rewrite Hb.
  destruct (run_event (tm' 0%nat) n m (Htm' 0%nat) Hn Hu Hc) as (d & Hd & Hev). fold key. rewrite Hev.
  exists d, (fun n => tm' (Datatypes.S n)). split; [done |]. split; [by intros ? ?; apply Htm' |].
  cbn [er_Committed er_Value negb orb]. destruct (n + 1 <? limit); [done |].
  generalize (Block s cip (lit "threshold:" ++ evtype) bttl mx token). intros p.
  generalize (fun n => tm' (Datatypes.S n)), (<[key:=mk_entry (FormatInt (n + 1)) (Some d)]> m).
  induction p as [x | R op k IH | e k IH]; simpl; intros tm2 m2; [done | |].
  - destruct (exec_op (tm2 0%nat) op m2). apply IH.
  - rewrite IH. by destruct (run k tm2 m2) as [[] ].
Qed.

Lemma run_events_count (inputs : list event_input) : forall n (m : amap), Forall event_ok inputs -> 0 <= n ->
  inputs <> [] -> n + Z.of_nat (length inputs) = limit -> int64_ok bttl -> int64_ok mx ->
  no_unblock m -> first_offense m -> counted n m ->
  exists m' token, run_events inputs m = (replicate (length inputs - 1) (false, Ok tt) ++ [(true, Ok tt)], m') /\
    first_block (lit "threshold:" ++ evtype) token m'.
Proof.
  induction inputs as [| i inputs IH]; intros n m Hi Hn Hne Hlen Hb Hmx Hu Ho Hc; [done |].
  apply Forall_cons in Hi as [Hi Hin]. cbn [length] in Hlen.
  pose proof (run_record n i m Hi ltac:(lia) Hu Hc) as Hr. destruct i as [[[form now] tm] token].
  destruct Hr as (d & tm' & Hd & Htm' & Hr). cbn [run_events]. rewrite Hr. cbv zeta.
  destruct inputs as [| i inputs].
  - rewrite (proj2 (Z.ltb_ge _ _)) by (simpl in Hlen; lia).
    destruct (run_first_block (lit "threshold:" ++ evtype) token tm' (<[key:=mk_entry (FormatInt (n + 1)) (Some d)]> m))
      as (m' & es & Hrun & Hfb); auto using no_unblock_counted, first_offense_counted.
    rewrite Hrun. exists m', token. split; [done | exact Hfb].
  - rewrite (proj2 (Z.ltb_lt _ _)) by (simpl in Hlen; lia).
    destruct (IH (n + 1) (<[key:=mk_entry (FormatInt (n + 1)) (Some d)]> m)) as (m' & tok & Hrun & Hfb);
      auto using no_unblock_counted, first_offense_counted; [lia | lia | |].
    { unfold counted. rewrite (proj2 (Z.eqb_neq _ _)) by lia. exists d. by rewrite lookup_insert_eq. }
    rewrite Hrun. exists m', tok. split; [| done].
    cbn [length]. by replace (S (S (length inputs)) - 1)%nat with (S (S (length inputs) - 1))%nat by lia.
Qed.
End Sequential.

(** ** Counter keys and buckets *)
Lemma split_last {A} (c : A) (x y x' y' : list A) : c ∉ y -> c ∉ y' ->
  x ++ c :: y = x' ++ c :: y' -> x = x' /\ y = y'.
Proof.
  intros Hy Hy' H. apply (f_equal (@List.rev A)) in H. rewrite !rev_app_distr in H. simpl in H.
  rewrite <- !app_assoc in H. simpl in H.
  assert ((c ∉ List.rev y) /\ (c ∉ List.rev y')) as [Hr Hr'] by
    (split; rewrite list_elem_of_In, <- in_rev, <- list_elem_of_In; done).
  assert (Hsplit : forall a a' b b' : list A, c ∉ a -> c ∉ a' -> a ++ c :: b = a' ++ c :: b' -> a = a' /\ b = b').
  { induction a as [| z a IH]; intros [| z' a'] b b' Ha Ha' He; simpl in He.
    - by injection He as ->.
    - injection He as Hz _. destruct Ha'. rewrite Hz. by left.
    - injection He as Hz _. destruct Ha. rewrite Hz. by left.
    - injection He as -> He. apply not_elem_of_cons in Ha as [_ Ha], Ha' as [_ Ha']. by destruct (IH a' b b' Ha Ha' He) as [-> ->]. }
  destruct (Hsplit _ _ _ _ Hr Hr' H) as [H1 H2].
  split; [rewrite <- (rev_involutive x), H2 | rewrite <- (rev_involutive y), H1]; apply rev_involutive.
Qed.

Lemma FormatInt_no_colon n : int64_ok n -> ":"%char ∉ FormatInt n.
Proof.
  intros Hn. assert (byteZ ":"%char = 58) as Hc by reflexivity.
  unfold FormatInt, int64_ok, int64_min, int64_max in *.
  case_match eqn:E; bool_to_prop; rewrite ?not_elem_of_cons; try split; try done;
    apply FormatUint_not_in; lia.
Qed.

Lemma eventKey_inj evtype ip g b evtype' ip' g' b' :
  ":"%char ∉ evtype -> ":"%char ∉ evtype' -> ":"%char ∉ g -> ":"%char ∉ g' -> int64_ok b -> int64_ok b' ->
  eventKey evtype ip g b = eventKey evtype' ip' g' b' -> evtype = evtype' /\ ip = ip' /\ g = g' /\ b = b'.
Proof.
  intros He He' Hg Hg' Hb Hb' H. unfold eventKey in H. apply (inj (app _)) in H.
  set (G g := match g with [] => ["0"%char] | _ => "g"%char :: g end) in H.
  assert (HG : forall g, ":"%char ∉ g -> ":"%char ∉ G g).
  { intros [|c l] Hc; simpl; rewrite not_elem_of_cons; (split; [done |]); [apply not_elem_of_nil | done]. }
  assert (HGi : G g = G g' -> g = g') by (destruct g, g'; simpl; intros; simplify_eq; done).
  assert (Hcut : evtype = evtype' /\ ip ++ ":"%char :: G g ++ ":"%char :: FormatInt b =
                                      ip' ++ ":"%char :: G g' ++ ":"%char :: FormatInt b').
  { apply (f_equal (@List.rev ascii)) in H. rewrite !rev_app_distr in H. simpl in H. rewrite <- !app_assoc in H.
    apply split_last in H as [H1 H2]; [| by rewrite list_elem_of_In, <- in_rev, <- list_elem_of_In ..].
    split; [rewrite <- (rev_involutive evtype), H2 | apply (f_equal (@List.rev ascii)) in H1; rewrite !rev_involutive in H1];
      [apply rev_involutive | done]. }
  destruct Hcut as [-> H2].
  rewrite !app_comm_cons, !app_assoc in H2. apply split_last in H2 as [H2 H3]; [| by apply FormatInt_no_colon ..].
  apply split_last in H2 as [-> H4]; [| by apply HG ..].
  apply FormatInt_inj in H3; [| done ..]. auto.
Qed.

(** The bucket of an instance whose clock is off by at most one window. *)
Lemma eventBucket_skew now now' window : 0 <= now -> 0 <= now' -> second <= window ->
  Z.abs (now - now') <= Z.quot window second * second ->
  eventBucket now window - 1 <= eventBucket now' window <= eventBucket now window + 1.
Proof.
  intros Hn Hn' Hw Hd. unfold eventBucket. assert (0 < second) by done.
  rewrite (Z.quot_div_nonneg window second) in * by lia.
  assert (1 <= window / second) by (apply Z.div_le_lower_bound; lia).
  rewrite Z.max_l by lia. set (w := window / second) in *.
  rewrite !Z.quot_div_nonneg by (apply Z.div_pos || idtac; lia).
  rewrite !Z.div_div by lia.
  assert (0 < second * w) by nia.
  assert (now - second * w <= now' <= now + second * w) by lia.
  assert (Hsub : (now + (-1) * (second * w)) / (second * w) = now / (second * w) + -1) by (apply Z.div_add; lia).
  assert (Hadd : (now + 1 * (second * w)) / (second * w) = now / (second * w) + 1) by (apply Z.div_add; lia).
  assert ((now + (-1) * (second * w)) / (second * w) <= now' / (second * w)) by (apply Z.div_le_mono; lia).
  assert (now' / (second * w) <= (now + 1 * (second * w)) / (second * w)) by (apply Z.div_le_mono; lia). lia.
Qed.

(** ** The event reset on the contract *)
Fixpoint delete_all (keys : list gostring) (m : amap) : amap :=
  match keys with [] => m | k :: rest => delete_all rest (delete k m) end.

Lemma delete_all_lookup keys : forall (m : amap) (k : gostring), k ∈ keys \/ m !! k = None -> delete_all keys m !! k = None.
Proof.
  induction keys as [| x keys IH]; simpl; intros m k H.
  - destruct H as [H | H]; [by apply not_elem_of_nil in H | done].
  - apply IH. destruct (decide (k = x)) as [-> | Hne]; [right; apply lookup_delete_eq |].
    destruct H as [H | H]; [left; by apply elem_of_cons in H as [-> |] | right; by rewrite lookup_delete_ne].
Qed.

Lemma run_delete_keys keys : forall n f k tm (m : amap), exists tm',
  run (delete_keys keys n f k) tm m = run (k (n + Z.of_nat (length keys)) f) tm' (delete_all keys m).
Proof.
  induction keys as [| x keys IH]; simpl; intros n f k tm m.
  - exists tm. by rewrite Z.add_0_r.
  - edestruct (IH (n + 1) f k) as [tm' Hr]. exists tm'. rewrite Hr. f_equal. f_equal. lia.
Qed.

Definition eligible (w : BehaviourWindow) : bool := negb (bool_decide (bw_Event w = []) || (bw_Window w <=? 0)).

Lemma run_reset_windows ip g now windows : forall n f tm (m : amap), exists m',
  run (reset_windows ip g now windows n f) tm m =
    (m', [], (n + 3 * Z.of_nat (length (List.filter eligible windows)), f)) /\
  (forall k, m !! k = None -> m' !! k = None) /\
  (forall w k, In w windows -> eligible w = true -> k ∈ reset_keys ip g now w -> m' !! k = None).
Proof.
  induction windows as [| w windows IH]; cbn [reset_windows List.filter]; intros n f tm m.
  - exists m. split_ands; [by rewrite Z.add_0_r | done | done].
  - unfold eligible at 1. destruct (bool_decide (bw_Event w = []) || (bw_Window w <=? 0)) eqn:E; cbn [negb].
    + destruct (IH n f tm m) as (m' & Hr & Hk & Hd). exists m'. split_ands; [done | done |].
      intros w' k [-> | Hin] He; [| by apply Hd]. unfold eligible in He. by rewrite E in He.
    + destruct (run_delete_keys (reset_keys ip g now w) n f (reset_windows ip g now windows) tm m) as [tm' Hr].
      destruct (IH (n + 3) f tm' (delete_all (reset_keys ip g now w) m)) as (m' & Hr' & Hk & Hd).
      exists m'. split_ands.
      * rewrite Hr. change (Z.of_nat (length (reset_keys ip g now w))) with 3. rewrite Hr'.
        cbn [length]. f_equal. f_equal. lia.
      * intros k Hm. apply Hk. apply delete_all_lookup. by right.
      * intros w' k [<- | Hin] He Hkin; [| by eapply Hd]. apply Hk, delete_all_lookup. by left.
Qed.

(** * Properties *)

(** an unblock fences the automatic blocks in flight.  Once a
    [CommitUnblock] of a client has returned success, a [Block] that read the
    client's generation before it (any value other than the fresh generation)
    and reaches the store afterwards changes nothing, publishes nothing to the
    enforcer, and leaves no offense -- whatever other instances do in between,
    for as long as the generation is retained. *)
Theorem unblock_fences_inflight_block : forall s ip gen rb v lo m mid m1 es1 own1
  reason ttl mx token hi m2 r es own,
  0 < sb_unblockHold s -> gen <> v ->
  interleaved (gen_rely (canonIP ip) v) lo m (CommitUnblock s ip gen rb) mid m1 (Ok tt) es1 own1 ->
  interleaved (gen_rely (canonIP ip) v) mid m1 (Block_admitted (canonIP ip) reason ttl mx token v) hi m2 r es own ->
  hi <= lo + unblockGenRetention ->
  Forall unchanged own /\ Forall no_block_effect es.
Proof.
  intros s ip gen rb v lo m mid m1 es1 own1 reason ttl mx token hi m2 r es own Hs Hg Hc Hb Hhi.
  apply interleaved_time in Hc as Ht.
  eapply (stale_block_refused _ _ _ _ _ _ (lo + unblockGenRetention)); [| exact Hhi | | exact Hb]; [| lia].
  by eapply commit_unblock_rotates.
Qed.

Definition demo_ip : gostring := lit "203.0.113.9".
Definition demo_stale : amap := {[ unblockGenKey demo_ip := mk_entry (lit "aa") None ]}.
Definition demo_unblock : prog (result unit) := CommitUnblock NewScoreboard demo_ip (lit "bb") true.
Definition demo_unblocked : amap := (run demo_unblock (fun _ _ => 5) demo_stale).1.1.
Definition demo_unblock_effects : list effect := (run demo_unblock (fun _ _ => 5) demo_stale).1.2.
Definition demo_block : prog (result unit) :=
  Block_admitted (canonIP demo_ip) (lit "threshold:tamper") minute hour 7 (lit "aa").

Lemma unblock_fences_inflight_block_witness :
  let '(m2, es, r) := run demo_block (fun _ _ => 5) demo_unblocked in
  r = Ok tt /\ Forall unchanged (trace demo_block 5 demo_unblocked) /\ Forall no_block_effect es.
Proof.
  pose proof (run_interleaved_result (gen_rely (canonIP demo_ip) (lit "aa")) demo_unblock 5 demo_stale (Ok tt)
    ltac:(vm_compute; reflexivity)) as H1.
  pose proof (run_interleaved_result (gen_rely (canonIP demo_ip) (lit "aa")) demo_block 5 demo_unblocked (Ok tt)
    ltac:(vm_compute; reflexivity)) as H2.
  assert ((run demo_block (fun _ _ => 5) demo_unblocked).2 = Ok tt) as Hr by (vm_compute; reflexivity).
  destruct (run demo_block (fun _ _ => 5) demo_unblocked) as [[m2 es] r]. split; [exact Hr |].
  apply (unblock_fences_inflight_block NewScoreboard demo_ip (lit "bb") true (lit "aa") 5 demo_stale 5 demo_unblocked
    _ _ (lit "threshold:tamper") minute hour 7 5 _ (Ok tt) es _ ltac:(done) ltac:(done) H1 H2). vm_compute. discriminate.
Defined.

(** while an unblock's hold lasts, no instance scores or blocks the
    client.  A [RecordEvent] or a [Block] of it that runs within the hold
    window of a successful [CommitUnblock] leaves the store as it found it
    and publishes nothing; the event is not counted and reports no block. *)
Theorem hold_suppresses_scoring : forall s ip gen rb lo m mid m1 es1 own1,
  0 < sb_unblockHold s ->
  interleaved (hold_rely s (canonIP ip)) lo m (CommitUnblock s ip gen rb) mid m1 (Ok tt) es1 own1 ->
  forall form, canonIP form = canonIP ip ->
  (forall now evtype limit window bttl mx token hi m2 r es own,
     hi <= lo + sb_unblockHold s ->
     interleaved (hold_rely s (canonIP ip)) mid m1
       (RecordEvent s now form evtype limit window bttl mx token) hi m2 r es own ->
     inert es own /\ r.1 = false) /\
  (forall reason ttl mx token hi m2 r es own,
     hi <= lo + sb_unblockHold s ->
     interleaved (hold_rely s (canonIP ip)) mid m1 (Block s form reason ttl mx token) hi m2 r es own ->
     inert es own).
Proof.
  intros s ip gen rb lo m mid m1 es1 own1 Hs Hc form Hf. apply interleaved_time in Hc as Ht.
  apply commit_unblock_holds in Hc as Hm; [| done]. split; intros.
  - by eapply record_event_on_hold; [.. | eassumption]; [| | exact Hm | | lia].
  - by eapply block_on_hold; [.. | eassumption]; [| | exact Hm | | lia].
Qed.

Definition demo_event : prog (bool * result unit) :=
  RecordEvent NewScoreboard 5 (lit "::ffff:203.0.113.9") (lit "tamper") 1 minute minute hour 7.

Lemma hold_suppresses_scoring_witness :
  let '(m2, es, r) := run demo_event (fun _ _ => 5) demo_unblocked in
  r = (false, Ok tt) /\ inert es (trace demo_event 5 demo_unblocked).
Proof.
  pose proof (run_interleaved_result (hold_rely NewScoreboard (canonIP demo_ip)) demo_unblock 5 demo_stale (Ok tt)
    ltac:(vm_compute; reflexivity)) as H1.
  pose proof (run_interleaved_result (hold_rely NewScoreboard (canonIP demo_ip)) demo_event 5 demo_unblocked
    (false, Ok tt) ltac:(vm_compute; reflexivity)) as H2.
  assert ((run demo_event (fun _ _ => 5) demo_unblocked).2 = (false, Ok tt)) as Hr by (vm_compute; reflexivity).
  destruct (run demo_event (fun _ _ => 5) demo_unblocked) as [[m2 es] r]. split; [exact Hr |].
  apply (proj1 (hold_suppresses_scoring NewScoreboard demo_ip (lit "bb") true 5 demo_stale 5 demo_unblocked
    _ _ ltac:(done) H1 (lit "::ffff:203.0.113.9") ltac:(vm_compute; reflexivity)) 5 (lit "tamper") 1 minute minute hour 7 5
    _ (false, Ok tt) es _ ltac:(vm_compute; discriminate) H2).
Defined.

(** the scoreboard's own programs are what the two unblock guarantees ask
    of the other instances.  For any client [ip] and generation [v], every
    store call of [RecordEvent], [Block], [ResetEventCounters], [ResetBackoff],
    [Unblock], [BlockIP] -- of any client -- and of an unblock that draws a
    generation other than [v] keeps to the store's namespaces, cannot bring [v]
    back as [ip]'s generation, and never shortens a hold. *)
Theorem scoreboard_programs_respect_unblock : forall s ip v i,
  (forall now evtype limit window bttl mx token,
     issues (scoreboard_op s ip v) (RecordEvent s now i evtype limit window bttl mx token)) /\
  (forall reason ttl mx token, issues (scoreboard_op s ip v) (Block s i reason ttl mx token)) /\
  (forall now g windows, issues (scoreboard_op s ip v) (ResetEventCounters now i g windows)) /\
  issues (scoreboard_op s ip v) (ResetBackoff i) /\ issues (scoreboard_op s ip v) (Unblock i) /\
  (forall reason ttl token, issues (scoreboard_op s ip v) (BlockIP i reason ttl token)) /\
  (forall g rb, g = v \/ issues (scoreboard_op s ip v) (HoldUnblock s i g) /\
                         issues (scoreboard_op s ip v) (CommitUnblock s i g rb)).
Proof.
  intros s ip v i. split_ands.
  - intros; apply RecordEvent_ok.
  - intros; apply Block_ok.
  - intros; apply ResetEventCounters_ok.
  - apply ResetBackoff_ok.
  - apply Unblock_ok.
  - intros; apply BlockIP_ok.
  - intros g rb. destruct (decide (g = v)) as [-> | Hg]; [by left | right].
    split; [by apply HoldUnblock_ok | by apply CommitUnblock_ok].
Qed.

(** C8: a client is blocked by exactly the [limit]-th event of a bucket.
    Starting with no counter, block, offense or recent unblock, [limit] events
    in one bucket -- each in any textual form of the client's address, each
    recorded by an instance whose clock is in the bucket -- return "not
    blocked" [limit - 1] times and "blocked" the last time; the block then in
    place carries the threshold as its reason and the base TTL of a first
    offense, and the repeat-offender counter stands at 1 for 24 hours. *)
Theorem threshold_blocks_exactly_at_limit : forall s ip evtype limit window bttl mx lo hi bucket inputs m,
  0 < limit -> int64_ok limit -> 0 < window -> int64_ok bttl -> int64_ok mx ->
  0 <= lo <= hi -> hi < lo + 2 * window -> hi + 2 * window <= int64_max ->
  Forall (event_ok ip window lo hi bucket) inputs -> Z.of_nat (length inputs) = limit ->
  no_unblock ip lo m -> first_offense ip lo m ->
  live lo m (eventKey evtype (canonIP ip) [] bucket) = None ->
  exists m' token,
    run_events s evtype limit window bttl mx inputs m =
      (replicate (length inputs - 1) (false, Ok tt) ++ [(true, Ok tt)], m') /\
    first_block ip bttl mx lo hi (lit "threshold:" ++ evtype) token m'.
Proof.
  intros s ip evtype limit window bttl mx lo hi bucket inputs m H1 H2 H3 Hb Hmx H4 H5 H6 Hi Hlen Hu Ho Hc.
  apply (run_events_count s ip evtype limit window bttl mx lo hi H1 H2 H3 H4 H5 H6 bucket inputs 0 m); try done.
  destruct inputs; [simpl in Hlen; lia | done].
Qed.

Definition demo_events : list event_input :=
  [(demo_ip, 100 * second, (fun _ _ => 100 * second), 1);
   (lit "::ffff:203.0.113.9", 110 * second, (fun _ _ => 101 * second), 2);
   (lit "::FFFF:cb00:7109", 119 * second, (fun _ _ => 102 * second), 3)].

Lemma threshold_blocks_exactly_at_limit_witness : exists m' token,
  run_events NewScoreboard (lit "tamper") 3 (10 * minute) (10 * minute) 0 demo_events ∅ =
    ([(false, Ok tt); (false, Ok tt); (true, Ok tt)], m') /\
  first_block demo_ip (10 * minute) 0 (100 * second) (119 * second) (lit "threshold:tamper") token m'.
Proof.
  assert (Hev : forall form now lo tok, canonIP form = canonIP demo_ip -> eventBucket now (10 * minute) = 0 ->
    100 * second <= lo <= 119 * second ->
    event_ok demo_ip (10 * minute) (100 * second) (119 * second) 0 (form, now, (fun _ _ => lo), tok)).
  { intros form now lo tok H1 H2 H3. split; [exact H1 |]. split; [exact H2 |]. intros _ _. exact H3. }
  assert (Hin : Forall (event_ok demo_ip (10 * minute) (100 * second) (119 * second) 0) demo_events).
  { apply Forall_cons; split; [| apply Forall_cons; split; [| apply Forall_cons; split; [| apply Forall_nil; exact I]]];
      (apply Hev; [vm_compute; reflexivity | vm_compute; reflexivity | split; vm_compute; discriminate]). }
  assert (Hmin : int64_ok 3 /\ int64_ok (10 * minute) /\ int64_ok 0) by (split_ands; split; vm_compute; discriminate).
  exact (threshold_blocks_exactly_at_limit NewScoreboard demo_ip (lit "tamper") 3 (10 * minute) (10 * minute) 0
    (100 * second) (119 * second) 0 demo_events ∅ ltac:(done) (proj1 Hmin) ltac:(done) (proj1 (proj2 Hmin))
    (proj2 (proj2 Hmin)) ltac:(split; vm_compute; discriminate) ltac:(vm_compute; reflexivity)
    ltac:(vm_compute; discriminate) Hin eq_refl (conj eq_refl eq_refl) (conj eq_refl eq_refl) eq_refl).
Defined.

(** every textual form of one address is the same client.  Two spellings
    that parse to the same unmapped address get the same block, offense, hold,
    generation and event keys, and canonicalizing twice changes nothing. *)
Theorem scoreboard_keys_canonical : forall a b x y evtype g n,
  ParseAddr a = Some x -> ParseAddr b = Some y -> Unmap x = Unmap y ->
  BlockKey a = BlockKey b /\ canonIP a = canonIP b /\ canonIP (canonIP a) = canonIP a /\
  BlockKey (canonIP a) = BlockKey a /\
  blockCountKey (canonIP a) = blockCountKey (canonIP b) /\
  unblockHoldKey (canonIP a) = unblockHoldKey (canonIP b) /\
  unblockGenKey (canonIP a) = unblockGenKey (canonIP b) /\
  eventKey evtype (canonIP a) g n = eventKey evtype (canonIP b) g n /\
  ParseAddr (canonIP a) = Some (Unmap x).
Proof.
  intros a b x y evtype g n Ha Hb Hxy.
  assert (canonIP a = canonIP b) as He by (unfold canonIP; by rewrite Ha, Hb, Hxy).
  assert (ParseAddr (canonIP a) = Some (Unmap x)) as Hp.
  { unfold canonIP. rewrite Ha. apply ParseAddr_ok, Unmap_ok in Ha as [H1 H2]. by apply ParseAddr_String. }
  rewrite !BlockKey_canon, canonIP_idem, <- !He. by split_ands.
Qed.

Lemma scoreboard_keys_canonical_witness :
  BlockKey (lit "2001:DB8:0:0:0:0:0:1") = BlockKey (lit "2001:db8::1") /\
  BlockKey (lit "::ffff:192.0.2.7") = BlockKey (lit "192.0.2.7").
Proof.
  split.
  - apply (scoreboard_keys_canonical (lit "2001:DB8:0:0:0:0:0:1") (lit "2001:db8::1")
      (V6 [8193; 3512; 0; 0; 0; 0; 0; 1] []) (V6 [8193; 3512; 0; 0; 0; 0; 0; 1] []) [] [] 0); reflexivity.
  - apply (scoreboard_keys_canonical (lit "::ffff:192.0.2.7") (lit "192.0.2.7")
      (V6 [0; 0; 0; 0; 0; 65535; 49152; 519] []) (V4 3221225991) [] [] 0); reflexivity.
Defined.

(** counters of different event types, clients, unblock generations or
    buckets never share a store key; in particular an event admitted under a
    replaced generation cannot refill the current one. *)
Theorem event_counters_disjoint : forall evtype ip g b evtype' ip' g' b',
  ":"%char ∉ evtype -> ":"%char ∉ evtype' -> ":"%char ∉ g -> ":"%char ∉ g' -> int64_ok b -> int64_ok b' ->
  (evtype, ip, g, b) <> (evtype', ip', g', b') ->
  eventKey evtype ip g b <> eventKey evtype' ip' g' b'.
Proof.
  intros evtype ip g b evtype' ip' g' b' H1 H2 H3 H4 H5 H6 Hne He. apply Hne.
  apply eventKey_inj in He as (-> & -> & -> & ->); done.
Qed.

Lemma event_counters_disjoint_witness :
  eventKey (lit "tamper") demo_ip (unblockGenValue 171 205) 7 <> eventKey (lit "tamper") demo_ip [] 7.
Proof.
  apply event_counters_disjoint; try (apply (bool_decide_unpack _); vm_compute; exact I).
Defined.

(** the reset clears every bucket a skewed peer may be writing.  After
    [ResetEventCounters], for each configured event and window, the counter of
    the bucket that any clock within one window of the caller's is in is gone;
    exactly three keys per window are addressed and none fails on the
    contract. *)
Theorem reset_event_counters_covers_skew : forall now ip generation windows tm m,
  exists m', run (ResetEventCounters now ip generation windows) tm m =
    (m', [], (3 * Z.of_nat (length (List.filter eligible windows)), 0)) /\
  (forall k, m !! k = None -> m' !! k = None) /\
  forall w now', In w windows -> bw_Event w <> [] -> second <= bw_Window w -> 0 <= now -> 0 <= now' ->
    Z.abs (now - now') <= Z.quot (bw_Window w) second * second ->
    m' !! eventKey (bw_Event w) (canonIP ip) generation (eventBucket now' (bw_Window w)) = None.
Proof.
  intros now ip generation windows tm m.
  destruct (run_reset_windows (canonIP ip) generation now windows 0 0 tm m) as (m' & Hr & Hk & Hd).
  exists m'. split; [exact Hr |]. split; [exact Hk |].
  intros w now' Hin Hev Hw Hn Hn' Hskew. apply (Hd w); [done | |].
  - unfold eligible. rewrite bool_decide_eq_false_2 by done. cbn [orb]. apply negb_true_iff, Z.leb_gt.
    assert (0 < second) by done. lia.
  - pose proof (eventBucket_skew now now' (bw_Window w) Hn Hn' Hw Hskew) as Hb. unfold reset_keys.
    apply list_elem_of_fmap. exists (eventBucket now' (bw_Window w)). split; [reflexivity |].
    revert Hb. generalize (eventBucket now (bw_Window w)), (eventBucket now' (bw_Window w)).
    intros b b' Hb. rewrite !elem_of_cons. lia.
Qed.
