(* ===== verification/Memory.v ===== *)
(** * ShardedMemory (core/store/sharded_memory.go, core/store/expiry.go)

    The in-process backend: the keyspace split over a power-of-two number of
    shards, the reserved [block:] namespace and the posture votes in one
    central struct, lazy expiry on access, the janitor sweep, the multi-key
    commits and the scans.  The second half proves that it keeps the contract
    of [Store.StoreLaws] whatever the interleaving of clock readings. *)

From S2P Require Export Store.

(** ** State *)
Record postureVote := mk_vote { pv_level : Z; pv_expires : option Z }.

Record ShardedMemory := mk_sm {
  sm_shards : list (gmap gostring entry);
  sm_mask : Z;
  sm_central : gmap gostring entry;          (* central.m *)
  sm_activeBlocks : gset gostring;           (* central.activeBlocks *)
  sm_postureVotes : gmap gostring postureVote;
  sm_closed : bool                           (* the closed [done] channel *)
}.

Definition with_shards (l : list (gmap gostring entry)) (s : ShardedMemory) : ShardedMemory :=
  mk_sm l (sm_mask s) (sm_central s) (sm_activeBlocks s) (sm_postureVotes s) (sm_closed s).
Definition with_central (m : gmap gostring entry) (a : gset gostring) (s : ShardedMemory) : ShardedMemory :=
  mk_sm (sm_shards s) (sm_mask s) m a (sm_postureVotes s) (sm_closed s).
Definition with_votes (v : gmap gostring postureVote) (s : ShardedMemory) : ShardedMemory :=
  mk_sm (sm_shards s) (sm_mask s) (sm_central s) (sm_activeBlocks s) v (sm_closed s).

Definition defaultShards : Z := 256.

(** The shift loop of [nextPow2]; 63 doublings reach every [n <= 2^62]. *)
Fixpoint pow2_loop (fuel : nat) (p n : Z) : Z :=
  match fuel with
  | O => p
  | S f => if p <? n then pow2_loop f (wrap64 (p * 2)) n else p
  end.

Definition nextPow2 (n : Z) : Z := pow2_loop 63 1 (if n <=? 0 then defaultShards else n).

Definition NewShardedMemory (shards : Z) : ShardedMemory :=
  let n := nextPow2 shards in
  mk_sm (replicate (Z.to_nat n) ∅) (wrapu32 (n - 1)) ∅ ∅ ∅ false.

Definition NewMemory : ShardedMemory := NewShardedMemory 0.

(** FNV-1a over the key bytes, in 32-bit arithmetic. *)
Definition offset32 : Z := 2166136261.
Definition prime32 : Z := 16777619.
Definition fnv1a32 (s : gostring) : Z :=
  foldl (fun h c => wrapu32 (Z.lxor h (byteZ c) * prime32)) offset32 s.

Definition shard_index (s : ShardedMemory) (key : gostring) : nat :=
  Z.to_nat (Z.land (fnv1a32 key) (sm_mask s)).

(** [s.shardFor(key).m]; the index is in range in every reachable state
    ([shard_index_lt]). *)
Definition shardFor (s : ShardedMemory) (key : gostring) : gmap gostring entry :=
  default ∅ (sm_shards s !! shard_index s key).
Definition set_shard (s : ShardedMemory) (key : gostring) (m : gmap gostring entry) : ShardedMemory :=
  with_shards (<[shard_index s key := m]> (sm_shards s)) s.

(** ** Lazy expiry *)
Definition getShard (m : gmap gostring entry) (key : gostring) (now : Z)
  : option entry * gmap gostring entry :=
  match m !! key with
  | Some e => if expired e now then (None, delete key m) else (Some e, m)
  | None => (None, delete key m)
  end.

Definition getCentral (s : ShardedMemory) (key : gostring) (now : Z) : option entry * ShardedMemory :=
  let gone := with_central (delete key (sm_central s)) (sm_activeBlocks s ∖ {[key]}) s in
  match sm_central s !! key with
  | Some e => if expired e now then (None, gone) else (Some e, s)
  | None => (None, gone)
  end.

(** [getShard] on the shard of [key], written back. *)
Definition get_in_shard (s : ShardedMemory) (key : gostring) (now : Z) : option entry * ShardedMemory :=
  let '(e, m) := getShard (shardFor s key) key now in (e, set_shard s key m).

Definition put_in_shard (key : gostring) (e : entry) (s : ShardedMemory) : ShardedMemory :=
  set_shard s key (<[key := e]> (shardFor s key)).
Definition del_in_shard (key : gostring) (s : ShardedMemory) : ShardedMemory :=
  set_shard s key (delete key (shardFor s key)).
Definition put_central (key : gostring) (e : entry) (s : ShardedMemory) : ShardedMemory :=
  with_central (<[key := e]> (sm_central s)) (sm_activeBlocks s) s.
Definition put_central_indexed (key : gostring) (e : entry) (s : ShardedMemory) : ShardedMemory :=
  with_central (<[key := e]> (sm_central s))
    (if has_prefix (lit "block:") key then {[key]} ∪ sm_activeBlocks s else sm_activeBlocks s) s.
Definition del_central (key : gostring) (s : ShardedMemory) : ShardedMemory :=
  with_central (delete key (sm_central s)) (sm_activeBlocks s ∖ {[key]}) s.

(** ** Single-key operations *)
Definition Get (t : clock) (key : gostring) (s : ShardedMemory)
  : ShardedMemory * result (option gostring) :=
  if isCentral key then
    let '(e, s1) := getCentral s key (t 0%nat) in (s1, Ok (e_value <$> e))
  else
    let '(e, s1) := get_in_shard s key (t 0%nat) in (s1, Ok (e_value <$> e)).

Definition GetWithExpiry (t : clock) (key : gostring) (s : ShardedMemory)
  : ShardedMemory * result (option KV) :=
  let kv e := mk_kv key (e_value e) (e_expires e) in
  if isCentral key then
    let '(e, s1) := getCentral s key (t 0%nat) in (s1, Ok (kv <$> e))
  else
    let '(e, s1) := get_in_shard s key (t 0%nat) in (s1, Ok (kv <$> e)).

(** [ExpiresAt] reports the deadline of a live key (itself possibly zero). *)
Definition ExpiresAt (t : clock) (key : gostring) (s : ShardedMemory)
  : ShardedMemory * option (option Z) :=
  if isCentral key then
    let '(e, s1) := getCentral s key (t 0%nat) in (s1, e_expires <$> e)
  else
    let '(e, s1) := get_in_shard s key (t 0%nat) in (s1, e_expires <$> e).

Definition Set_ (t : clock) (key value : gostring) (ttl : Z) (s : ShardedMemory)
  : ShardedMemory * result unit :=
  let e := mk_entry value (expiry ttl (t 0%nat)) in
  if isCentral key then (put_central_indexed key e s, Ok tt)
  else (put_in_shard key e s, Ok tt).

Definition Delete (key : gostring) (s : ShardedMemory) : ShardedMemory * result unit :=
  if isCentral key then (del_central key s, Ok tt) else (del_in_shard key s, Ok tt).

(** The shared body of [IncrByDeadline], over a state with a lazy-expiring
    getter and a setter, exactly as the Go function is parameterised. *)
Definition incrByDeadline {X : Type} (get : X -> gostring -> Z -> option entry * X)
  (put : gostring -> entry -> X -> X) (t : clock) (key : gostring) (delta deadline : Z) (x : X)
  : X * result (Z * bool) :=
  let now := t 0%nat in
  if negb (deadline =? 0) && (deadline <=? UnixNano now) then
    match get x key (t 1%nat) with
    | (Some e, x1) =>
      (x1, match ParseInt (e_value e) with Ok n => Ok (n, false) | Err err => Err (EParse err) end)
    | (None, x1) => (x1, Ok (0, false))
    end
  else
    match get x key (t 1%nat) with
    | (None, x1) =>
      let exp := if deadline =? 0 then None else Some deadline in
      (put key (mk_entry (FormatInt delta) exp) x1, Ok (delta, true))
    | (Some e, x1) =>
      match ParseInt (e_value e) with
      | Err err => (x1, Err (EParse err))
      | Ok n0 =>
        let n := wrap64 (n0 + delta) in
        (put key (mk_entry (FormatInt n) (e_expires e)) x1, Ok (n, true))
      end
    end.

Definition IncrByDeadline (t : clock) (key : gostring) (delta deadline : Z) (s : ShardedMemory)
  : ShardedMemory * result (Z * bool) :=
  if isCentral key then incrByDeadline getCentral put_central t key delta deadline s
  else incrByDeadline get_in_shard put_in_shard t key delta deadline s.

Definition IncrBy (t : clock) (key : gostring) (delta ttl : Z) (s : ShardedMemory)
  : ShardedMemory * result Z :=
  let deadline := if 0 <? ttl then UnixNano (t 0%nat + ttl) else 0 in
  match IncrByDeadline (fun i => t (1 + i)%nat) key delta deadline s with
  | (s1, Ok (n, _)) => (s1, Ok n)
  | (s1, Err e) => (s1, Err e)
  end.

Definition Incr (t : clock) (key : gostring) (ttl : Z) (s : ShardedMemory) : ShardedMemory * result Z :=
  IncrBy t key 1 ttl s.

Definition CompareAndSwap (t : clock) (key : gostring) (old : option gostring) (new : gostring)
  (ttl : Z) (s : ShardedMemory) : ShardedMemory * result bool :=
  if isCentral key then
    let '(e, s1) := getCentral s key (t 0%nat) in
    if matches e old
    then (put_central_indexed key (mk_entry new (expiry ttl (t 1%nat))) s1, Ok true)
    else (s1, Ok false)
  else
    let '(e, s1) := get_in_shard s key (t 0%nat) in
    if matches e old
    then (put_in_shard key (mk_entry new (expiry ttl (t 1%nat))) s1, Ok true)
    else (s1, Ok false).

Definition CompareAndDelete (t : clock) (key : gostring) (old : option gostring) (s : ShardedMemory)
  : ShardedMemory * result bool :=
  match old with
  | None => (s, Ok false)
  | Some _ =>
    if isCentral key then
      let '(e, s1) := getCentral s key (t 0%nat) in
      if matches e old then (del_central key s1, Ok true) else (s1, Ok false)
    else
      let '(e, s1) := get_in_shard s key (t 0%nat) in
      if matches e old then (del_in_shard key s1, Ok true) else (s1, Ok false)
  end.

(** ** Multi-key commits *)
Definition CommitBlock (t : clock) (c : BlockCommit) (s : ShardedMemory)
  : ShardedMemory * result BlockCommitResult :=
  if negb (isCentral (bc_BlockKey c)) then
    (s, Err (ENotBlockKey (lit "CommitBlock") (bc_BlockKey c)))
  else
  let '(held, s1) := get_in_shard s (bc_HoldKey c) (t 0%nat) in
  if held is Some _ then (s1, Ok (refused BlockRefusalHold)) else
  let '(guard, s2) := get_in_shard s1 (bc_GuardKey c) (t 1%nat) in
  if negb (matches guard (bc_GuardValue c)) then (s2, Ok (refused BlockRefusalGeneration)) else
  let '(curBlock, s3) := getCentral s2 (bc_BlockKey c) (t 2%nat) in
  if negb (matches curBlock (bc_ExpectedBlock c)) then (s3, Ok (refused BlockRefusalBlock)) else
  let '(curCounter, s4) := get_in_shard s3 (bc_CounterKey c) (t 3%nat) in
  let '(offenses, counterExpiry) :=
    match curCounter with
    | Some cur => (wrap64 (counterValue (e_value cur) + 1), e_expires cur)
    | None => (1, expiry (bc_CounterTTL c) (t 4%nat))
    end in
  let ttl := blockBackoffTTL (bc_BaseTTL c) (bc_MaxTTL c) offenses in
  let s5 := put_in_shard (bc_CounterKey c) (mk_entry (FormatInt offenses) counterExpiry) s4 in
  let s6 := with_central
              (<[bc_BlockKey c := mk_entry (bc_NewBlock c) (expiry ttl (t 5%nat))]> (sm_central s5))
              ({[bc_BlockKey c]} ∪ sm_activeBlocks s5) s5 in
  (s6, Ok (mk_block_result true offenses ttl BlockRefusalNone)).

Definition CommitEvent (t : clock) (c : EventCommit) (s : ShardedMemory)
  : ShardedMemory * result EventCommitResult :=
  let '(held, s1) := get_in_shard s (ec_HoldKey c) (t 0%nat) in
  if held is Some _ then (s1, Ok (mk_event_result false 0)) else
  let deadline := if 0 <? ec_CounterTTL c then UnixNano (t 1%nat + ec_CounterTTL c) else 0 in
  match incrByDeadline get_in_shard put_in_shard (fun i => t (2 + i)%nat)
          (ec_CounterKey c) 1 deadline s1 with
  | (s2, Ok (value, applied)) => (s2, Ok (mk_event_result applied value))
  | (s2, Err e) => (s2, Err e)
  end.

Definition CommitUnblock (t : clock) (c : UnblockCommit) (s : ShardedMemory)
  : ShardedMemory * result unit :=
  if negb (isCentral (uc_BlockKey c)) then
    (s, Err (ENotBlockKey (lit "CommitUnblock") (uc_BlockKey c)))
  else
  let s1 := put_in_shard (uc_HoldKey c) (mk_entry (uc_HoldValue c) (expiry (uc_HoldTTL c) (t 0%nat))) s in
  let s2 := put_in_shard (uc_GenerationKey c)
              (mk_entry (uc_Generation c) (expiry (uc_GenerationTTL c) (t 1%nat))) s1 in
  let s3 := del_central (uc_BlockKey c) s2 in
  (if uc_ResetBackoff c then del_in_shard (uc_CounterKey c) s3 else s3, Ok tt).

(** ** The janitor sweep, one tick carrying the time [now] *)
Definition vote_expired (v : postureVote) (now : Z) : bool :=
  match pv_expires v with None => false | Some d => d <? now end.

Definition janitor_tick (now : Z) (s : ShardedMemory) : ShardedMemory :=
  let keep (p : gostring * entry) := expired p.2 now = false in
  let central' := filter keep (sm_central s) in
  let swept := dom (sm_central s) ∖ dom central' in
  mk_sm (filter keep <$> sm_shards s) (sm_mask s) central' (sm_activeBlocks s ∖ swept)
    (filter (fun p => vote_expired p.2 now = false) (sm_postureVotes s)) (sm_closed s).

(** ** Scans

    Go visits a map in an unspecified order; [order] is the order in which this
    run visits the index, any permutation of its keys. *)
Fixpoint bytes_leb (a b : gostring) : bool :=
  match a, b with
  | [], _ => true
  | _ :: _, [] => false
  | x :: a', y :: b' =>
    if byteZ x <? byteZ y then true
    else if byteZ y <? byteZ x then false else bytes_leb a' b'
  end.

Definition kv_le (x y : KV) : Prop := bytes_leb (kv_key x) (kv_key y) = true.
#[global] Instance kv_le_dec : RelDecision kv_le.
Proof. intros x y. unfold kv_le. apply _. Defined.

Definition gather (prefix : gostring) (now : Z) (m : gmap gostring entry) : list KV :=
  (fun p => mk_kv p.1 (e_value p.2) (e_expires p.2)) <$>
  filter (fun p => has_prefix prefix p.1 && negb (expired p.2 now) = true) (map_to_list m).

Definition ScanLimit (t : clock) (prefix : gostring) (limit : Z) (s : ShardedMemory)
  : result (list KV * bool) :=
  let now := t 0%nat in
  let out := (sm_shards s ≫= gather prefix now) ++ gather prefix now (sm_central s) in
  let sorted := merge_sort kv_le out in
  if (0 <? limit) && (limit <? Z.of_nat (length sorted))
  then Ok (take (Z.to_nat limit) sorted, false) else Ok (sorted, true).

Definition Scan (t : clock) (prefix : gostring) (s : ShardedMemory) : result (list KV) :=
  match ScanLimit t prefix 0 s with Ok (out, _) => Ok out | Err e => Err e end.

Fixpoint scan_index (now limit : Z) (order : list gostring) (out : list KV) (s : ShardedMemory)
  : ShardedMemory * list KV * bool :=
  match order with
  | [] => (s, out, true)
  | key :: rest =>
    match sm_central s !! key with
    | Some e =>
      if expired e now then scan_index now limit rest out (del_central key s)
      else
        let out1 := out ++ [mk_kv key (e_value e) (e_expires e)] in
        if (0 <? limit) && (limit <? Z.of_nat (length out1))
        then (s, take (Z.to_nat limit) out1, false)
        else scan_index now limit rest out1 s
    | None => scan_index now limit rest out (del_central key s)
    end
  end.

Definition ScanActiveBlocks (t : clock) (order : list gostring) (prefix : gostring) (limit : Z)
  (s : ShardedMemory) : ShardedMemory * result (list KV * bool) :=
  if negb (bool_decide (prefix = lit "block:")) then (s, Err EUnsupported) else
  let '(s1, out, complete) := scan_index (t 0%nat) limit order [] s in
  (s1, Ok (merge_sort kv_le out, complete)).

(** ** Posture votes *)
Definition SetPostureVote (t : clock) (instanceID : gostring) (level ttl : Z) (s : ShardedMemory)
  : ShardedMemory * result unit :=
  if (level <? 1) || (2 <? level) || (ttl <=? 0) then (s, Err (EInvalidVote level ttl)) else
  (with_votes (<[instanceID := mk_vote level (Some (t 0%nat + ttl))]> (sm_postureVotes s)) s, Ok tt).

Definition DeletePostureVote (instanceID : gostring) (s : ShardedMemory) : ShardedMemory * result unit :=
  (with_votes (delete instanceID (sm_postureVotes s)) s, Ok tt).

(** The vote loop; the maximum and the set of live votes do not depend on the
    visiting order, so the map is folded in its canonical order. *)
Definition MaxPostureVote (t : clock) (exclude : gostring) (s : ShardedMemory) : ShardedMemory * result Z :=
  let now := t 0%nat in
  let votes := filter (fun p => vote_expired p.2 now = false) (sm_postureVotes s) in
  let step id v (acc : Z) :=
    if negb (bool_decide (id = exclude)) && (acc <? pv_level v) then pv_level v else acc in
  (with_votes votes s, Ok (map_fold step 0 votes)).

Definition Close (s : ShardedMemory) : ShardedMemory * result unit :=
  (mk_sm (sm_shards s) (sm_mask s) (sm_central s) (sm_activeBlocks s) (sm_postureVotes s) true, Ok tt).

(** ** Lock order

    [lockShardKeys] sorts and deduplicates the shard indices of its keys;
    [CommitBlock] and [CommitUnblock] take the central mutex before calling it.
    Locks are named by [None] (central) and [Some i] (shard [i]). *)
Fixpoint Compact (l : list nat) : list nat :=      (* slices.Compact *)
  match l with
  | x :: ((y :: _) as r) => if (x =? y)%nat then Compact r else x :: Compact r
  | _ => l
  end.

Definition lockShardKeys (s : ShardedMemory) (keys : list gostring) : list nat :=
  Compact (merge_sort Nat.le (shard_index s <$> filter (fun k => isCentral k = false) keys)).

Definition lock_rank (l : option nat) : nat := match l with None => 0 | Some i => S i end.

Definition CommitBlock_locks (s : ShardedMemory) (c : BlockCommit) : list (option nat) :=
  None :: (Some <$> lockShardKeys s [bc_GuardKey c; bc_HoldKey c; bc_CounterKey c]).
Definition CommitUnblock_locks (s : ShardedMemory) (c : UnblockCommit) : list (option nat) :=
  None :: (Some <$> lockShardKeys s [uc_HoldKey c; uc_GenerationKey c; uc_CounterKey c]).
Definition CommitEvent_locks (s : ShardedMemory) (c : EventCommit) : list (option nat) :=
  let h := shard_index s (ec_HoldKey c) in
  let k := shard_index s (ec_CounterKey c) in
  if (h =? k)%nat then [Some h]
  else if (k <? h)%nat then [Some k; Some h] else [Some h; Some k].
Definition single_key_lock (s : ShardedMemory) (key : gostring) : list (option nat) :=
  if isCentral key then [None] else [Some (shard_index s key)].

(** * Theory *)

(** ** Well-formed states *)
Record sm_wf (s : ShardedMemory) : Prop := {
  wf_mask : sm_mask s = Z.of_nat (length (sm_shards s)) - 1;
  wf_nonempty : (0 < length (sm_shards s))%nat;
  wf_index : forall k, k ∈ sm_activeBlocks s -> is_Some (sm_central s !! k);
  wf_central : forall k, is_Some (sm_central s !! k) -> isCentral k = true;
  wf_shard : forall i m k, sm_shards s !! i = Some m -> is_Some (m !! k) ->
    isCentral k = false /\ shard_index s k = i
}.

(** Where the state keeps [k] physically. *)
Definition phys (s : ShardedMemory) (k : gostring) : option entry :=
  if isCentral k then sm_central s !! k else shardFor s k !! k.

Definition liveo (t : Z) (o : option entry) : option entry :=
  match o with Some e => if expired e t then None else Some e | None => None end.

Lemma live_liveo t m k : live t m k = liveo t (m !! k).
Proof. done. Qed.

(** The simulation relation: from [now] on, every key reads the same. *)
Definition sm_rel (now : Z) (s : ShardedMemory) (m : amap) : Prop :=
  sm_wf s /\ forall k t, now <= t -> liveo t (phys s k) = live t m k.

Lemma land_mask_lt h n : 0 <= h -> (0 < n)%nat -> (Z.to_nat (Z.land h (Z.of_nat n - 1)) < n)%nat.
Proof.
  intros Hh Hn. rewrite Z.land_comm. set (a := Z.of_nat n - 1).
  assert (0 <= Z.land a h) by (apply Z.land_nonneg; lia).
  assert (Z.land a h + Z.ldiff a h = a) as Hsum.
  { rewrite Z.add_nocarry_lxor.
    - apply Z.bits_inj'. intros i Hi. rewrite Z.lxor_spec, Z.land_spec, Z.ldiff_spec.
      destruct (Z.testbit a i), (Z.testbit h i); done.
    - apply Z.bits_inj'. intros i Hi. rewrite !Z.land_spec, Z.ldiff_spec, Z.bits_0.
      destruct (Z.testbit a i), (Z.testbit h i); done. }
  assert (0 <= Z.ldiff a h) by (apply Z.ldiff_nonneg; lia). lia.
Qed.

Lemma fnv1a32_range key : 0 <= fnv1a32 key < 2 ^ 32.
Proof.
  unfold fnv1a32. assert (forall h, 0 <= h < 2 ^ 32 ->
    0 <= foldl (fun h c => wrapu32 (Z.lxor h (byteZ c) * prime32)) h key < 2 ^ 32) as H.
  { induction key as [|c key IH]; intros h Hh; simpl; [done |].
    apply IH. unfold wrapu32. apply Z.mod_pos_bound. lia. }
  apply H. unfold offset32. lia.
Qed.

Lemma shard_index_lt s key : sm_wf s -> (shard_index s key < length (sm_shards s))%nat.
Proof.
  intros Hwf. unfold shard_index. rewrite (wf_mask s Hwf).
  apply land_mask_lt; [apply fnv1a32_range | apply (wf_nonempty s Hwf)].
Qed.

Lemma shard_index_shards l s key : shard_index (with_shards l s) key = shard_index s key.
Proof. done. Qed.
Lemma shard_index_central m a s key : shard_index (with_central m a s) key = shard_index s key.
Proof. done. Qed.

Lemma shard_index_set s k m key : shard_index (set_shard s k m) key = shard_index s key.
Proof. done. Qed.

Lemma shardFor_set s k m k' : sm_wf s ->
  shardFor (set_shard s k m) k' =
  if decide (shard_index s k = shard_index s k') then m else shardFor s k'.
Proof.
  intros Hwf. pose proof (shard_index_lt s k Hwf) as Hlt.
  unfold shardFor, set_shard. rewrite shard_index_shards. simpl.
  case_decide as H.
  - rewrite <- H. by rewrite list_lookup_insert_eq.
  - by rewrite list_lookup_insert_ne.
Qed.

Lemma shardFor_lookup s k : sm_wf s -> sm_shards s !! shard_index s k = Some (shardFor s k).
Proof.
  intros Hwf. pose proof (shard_index_lt s k Hwf) as Hlt.
  apply lookup_lt_is_Some in Hlt as [m Hm]. unfold shardFor. by rewrite Hm.
Qed.

(** Replacing the shard of a non-central key by one that differs at that key
    only keeps the state well formed. *)
Lemma wf_set_shard (s : ShardedMemory) (k : gostring) (m : gmap gostring entry) : sm_wf s -> isCentral k = false ->
  (forall k', is_Some (m !! k') -> k' = k \/ is_Some (shardFor s k !! k')) ->
  sm_wf (set_shard s k m).
Proof.
  intros Hwf Hk Hm. pose proof (shard_index_lt s k Hwf) as Hlt. split; simpl.
  - rewrite length_insert. apply (wf_mask s Hwf).
  - rewrite length_insert. apply (wf_nonempty s Hwf).
  - apply (wf_index s Hwf).
  - apply (wf_central s Hwf).
  - intros i m0 k' Hi Hs. rewrite shard_index_set.
    destruct (decide (i = shard_index s k)) as [->|Hne].
    + rewrite list_lookup_insert_eq in Hi by done. simplify_eq.
      destruct (Hm k' Hs) as [->|Hs']; [done |].
      apply (wf_shard s Hwf _ (shardFor s k)); [by apply shardFor_lookup | done].
    + rewrite list_lookup_insert_ne in Hi by done. by apply (wf_shard s Hwf i m0).
Qed.

Lemma phys_set_shard s k m k' : sm_wf s -> isCentral k = false ->
  (forall k'', k'' <> k -> m !! k'' = shardFor s k !! k'') ->
  phys (set_shard s k m) k' = if decide (k = k') then m !! k else phys s k'.
Proof.
  intros Hwf Hk Hm. unfold phys. case_decide as H.
  - subst k'. rewrite Hk. rewrite shardFor_set by done. by rewrite decide_True.
  - destruct (isCentral k') eqn:Hk'; [done |]. rewrite shardFor_set by done.
    case_decide as Hi; [| done]. rewrite Hm by done. unfold shardFor. by rewrite Hi.
Qed.

Lemma rel_later lo hi s m : lo <= hi -> sm_rel lo s m -> sm_rel hi s m.
Proof. intros Hle [Hwf H]. split; [done |]. intros k t Ht. apply H. lia. Qed.

Lemma rel_put_shard now k e s m : isCentral k = false -> sm_rel now s m ->
  sm_rel now (put_in_shard k e s) (<[k := e]> m).
Proof.
  intros Hk [Hwf H]. unfold put_in_shard. split.
  - apply wf_set_shard; [done | done |]. intros k' Hs.
    destruct (decide (k' = k)); [by left |]. rewrite lookup_insert_ne in Hs by done. by right.
  - intros k' t Ht. rewrite phys_set_shard; [| done | done |].
    + case_decide as Hd.
      * subst k'. by rewrite lookup_insert_eq, live_insert.
      * rewrite live_insert_ne by done. by apply H.
    + intros k'' Hne. by rewrite lookup_insert_ne.
Qed.

Lemma rel_del_shard now k s m : isCentral k = false -> sm_rel now s m ->
  sm_rel now (del_in_shard k s) (delete k m).
Proof.
  intros Hk [Hwf H]. unfold del_in_shard. split.
  - apply wf_set_shard; [done | done |]. intros k' Hs.
    destruct (decide (k' = k)); [by left |]. rewrite lookup_delete_ne in Hs by done. by right.
  - intros k' t Ht. rewrite phys_set_shard; [| done | done |].
    + case_decide as Hd.
      * subst k'. by rewrite lookup_delete_eq, live_delete.
      * rewrite live_delete_ne by done. by apply H.
    + intros k'' Hne. by rewrite lookup_delete_ne.
Qed.

Lemma wf_with_central s m a : sm_wf s ->
  (forall k, k ∈ a -> is_Some (m !! k)) -> (forall k, is_Some (m !! k) -> isCentral k = true) ->
  sm_wf (with_central m a s).
Proof. intros [] Ha Hm. split; done. Qed.

Lemma rel_put_central_gen now k e a s m : isCentral k = true -> sm_rel now s m ->
  (forall k', k' ∈ a -> k' = k \/ k' ∈ sm_activeBlocks s) ->
  sm_rel now (with_central (<[k := e]> (sm_central s)) a s) (<[k := e]> m).
Proof.
  intros Hk [Hwf H] Ha. split.
  - apply wf_with_central; [done | |].
    + intros k' Hin. destruct (decide (k' = k)) as [->|Hne]; [rewrite lookup_insert_eq; eauto |].
      rewrite lookup_insert_ne by done. destruct (Ha k' Hin); [done |]. by apply (wf_index s Hwf).
    + intros k' Hs. destruct (decide (k' = k)) as [->|Hne]; [done |].
      rewrite lookup_insert_ne in Hs by done. by apply (wf_central s Hwf).
  - intros k' t Ht. unfold phys. simpl. destruct (isCentral k') eqn:Hk'.
    + destruct (decide (k = k')) as [<-|Hne].
      * by rewrite lookup_insert_eq, live_insert.
      * rewrite lookup_insert_ne, live_insert_ne by done.
        specialize (H k' t Ht). unfold phys in H. by rewrite Hk' in H.
    + rewrite live_insert_ne by congruence.
      specialize (H k' t Ht). unfold phys in H. by rewrite Hk' in H.
Qed.

Lemma rel_put_central now k e s m : isCentral k = true -> sm_rel now s m ->
  sm_rel now (put_central k e s) (<[k := e]> m).
Proof. intros. apply rel_put_central_gen; [done | done |]. intros; by right. Qed.

Lemma rel_put_central_indexed now k e s m : isCentral k = true -> sm_rel now s m ->
  sm_rel now (put_central_indexed k e s) (<[k := e]> m).
Proof.
  intros Hk H. apply rel_put_central_gen; [done | done |]. intros k'.
  destruct (has_prefix _ _); [| by right]. rewrite elem_of_union, elem_of_singleton. done.
Qed.

Lemma rel_del_central now k s m : isCentral k = true -> sm_rel now s m ->
  sm_rel now (del_central k s) (delete k m).
Proof.
  intros Hk [Hwf H]. split.
  - apply wf_with_central; [done | |].
    + intros k' Hin. apply elem_of_difference in Hin as [Hin Hne].
      rewrite elem_of_singleton in Hne. rewrite lookup_delete_ne by done. by apply (wf_index s Hwf).
    + intros k' Hs. destruct (decide (k' = k)) as [->|Hne]; [done |].
      rewrite lookup_delete_ne in Hs by done. by apply (wf_central s Hwf).
  - intros k' t Ht. unfold phys. simpl. destruct (decide (k = k')) as [<-|Hne].
    + rewrite Hk. by rewrite lookup_delete_eq, live_delete.
    + rewrite live_delete_ne by done. specialize (H k' t Ht). unfold phys in H.
      destruct (isCentral k'); [by rewrite lookup_delete_ne | done].
Qed.

(** Dropping a key that reads absent at [now] changes nothing from [now] on. *)
Lemma rel_drop_dead (now : Z) (s' : ShardedMemory) (m : amap) (k : gostring) : live now m k = None ->
  sm_rel now s' (delete k m) -> sm_rel now s' m.
Proof.
  intros Hd [Hwf H]. split; [done |]. intros k' t Ht. rewrite H by done.
  destruct (decide (k = k')) as [<-|Hne]; [| by rewrite live_delete_ne].
  rewrite live_delete. symmetry. by eapply live_None_later.
Qed.

Lemma rel_get_shard lo now k s m : isCentral k = false -> lo <= now -> sm_rel lo s m ->
  (get_in_shard s k now).1 = live now m k /\ sm_rel now (get_in_shard s k now).2 m.
Proof.
  intros Hk Hle Hrel. apply (rel_later lo now) in Hrel; [| done].
  pose proof Hrel as [Hwf H]. pose proof (H k now ltac:(lia)) as Hn.
  pose proof (rel_del_shard now k s m Hk Hrel) as Hdel.
  unfold phys in Hn. rewrite Hk in Hn. unfold get_in_shard, getShard, liveo in *.
  destruct (shardFor s k !! k) as [e|] eqn:E; [destruct (expired e now) eqn:Ex |]; simpl.
  - split; [done |]. by eapply rel_drop_dead.
  - split; [done |]. assert (set_shard s k (shardFor s k) = s) as ->; [| done].
    unfold set_shard, with_shards. rewrite list_insert_id by (by apply shardFor_lookup). by destruct s.
  - split; [done |]. by eapply rel_drop_dead.
Qed.

Lemma rel_get_central lo now k s m : isCentral k = true -> lo <= now -> sm_rel lo s m ->
  (getCentral s k now).1 = live now m k /\ sm_rel now (getCentral s k now).2 m.
Proof.
  intros Hk Hle Hrel. apply (rel_later lo now) in Hrel; [| done].
  pose proof Hrel as [Hwf H]. pose proof (H k now ltac:(lia)) as Hn.
  pose proof (rel_del_central now k s m Hk Hrel) as Hdel.
  unfold phys in Hn. rewrite Hk in Hn. unfold getCentral, liveo in *.
  destruct (sm_central s !! k) as [e|] eqn:E; [destruct (expired e now) eqn:Ex |]; simpl;
    (split; [done |]); first [done | by eapply rel_drop_dead].
Qed.

(** ** The shared increment, against any getter/setter that simulate the map *)
Section IncrSim.
Context {X : Type} (get : X -> gostring -> Z -> option entry * X)
  (put : gostring -> entry -> X -> X) (R : Z -> X -> amap -> Prop) (key : gostring).
Hypothesis get_ok : forall lo now x m, lo <= now -> R lo x m ->
  (get x key now).1 = live now m key /\ R now (get x key now).2 m.
Hypothesis put_ok : forall now e x m, R now x m -> R now (put key e x) (<[key := e]> m).

Lemma incr_sim lo hi t delta deadline x m : ticks lo hi t -> R lo x m ->
  (incrByDeadline get put t key delta deadline x).2 = (spec_incr_by_deadline t key delta deadline m).2 /\
  R (t 1%nat) (incrByDeadline get put t key delta deadline x).1
    (spec_incr_by_deadline t key delta deadline m).1.
Proof.
  intros Ht HR. pose proof (ticks_bound _ _ _ 1%nat Ht) as Hb.
  destruct (get_ok lo (t 1%nat) x m ltac:(lia) HR) as [Hg HR1].
  unfold incrByDeadline, spec_incr_by_deadline.
  destruct (get x key (t 1%nat)) as [o x1]. simpl in Hg, HR1. subst o.
  destruct (negb _ && _); destruct (live (t 1%nat) m key) as [e|]; simpl; [done | done | | by auto].
  destruct (ParseInt (e_value e)); simpl; auto.
Qed.
End IncrSim.

(** This backend never reports an I/O error: its operations keep the contract
    with the contract's own answer. *)
Definition exactly {S A : Type} (R : S -> amap -> Prop) (conc : S * result A) (abs : amap * result A) : Prop :=
  conc.2 = abs.2 /\ R conc.1 abs.1.

Lemma exactly_keeps {S A : Type} (R : S -> amap -> Prop) (m : amap)
  (conc : S * result A) (abs : amap * result A) : exactly R conc abs -> keeps R m conc abs.
Proof. intros H. by left. Qed.

Create HintDb memory.
#[export] Hint Resolve rel_put_shard rel_del_shard rel_put_central rel_put_central_indexed
  rel_del_central : memory.

(** Read a key at clock site [i]: introduces the entry read and the relation
    at that instant. *)
Ltac read_shard key i H :=
  match goal with
  | Ht : ticks _ _ ?t, HR : sm_rel ?lo ?s ?m |- _ =>
    let Hle := fresh "Hle" in let E := fresh "E" in let HR' := fresh "HR" in
    let o := fresh "o" in let s' := fresh "s" in
    assert (lo <= t i) as Hle by (first [apply (ticks_bound _ _ _ _ Ht) | apply (ticks_le _ _ _ _ _ Ht); lia]);
    destruct (rel_get_shard lo (t i) key s m H Hle HR) as [E HR'];
    destruct (get_in_shard s key (t i)) as [o s']; cbn [fst snd] in E, HR'; subst o; clear HR Hle
  end.
Ltac read_central key i H :=
  match goal with
  | Ht : ticks _ _ ?t, HR : sm_rel ?lo ?s ?m |- _ =>
    let Hle := fresh "Hle" in let E := fresh "E" in let HR' := fresh "HR" in
    let o := fresh "o" in let s' := fresh "s" in
    assert (lo <= t i) as Hle by (first [apply (ticks_bound _ _ _ _ Ht) | apply (ticks_le _ _ _ _ _ Ht); lia]);
    destruct (rel_get_central lo (t i) key s m H Hle HR) as [E HR'];
    destruct (getCentral s key (t i)) as [o s']; cbn [fst snd] in E, HR'; subst o; clear HR Hle
  end.
(** Close an [exactly] goal whose final relation holds at clock site [i]. *)
Ltac keep i :=
  match goal with
  | Ht : ticks _ _ ?t |- _ =>
    split; [done | apply (rel_later (t i)); [apply (ticks_bound _ _ _ _ Ht) |]; cbn [fst snd]; auto with memory]
  end.

Lemma sm_get_law lo hi t k s m : ticks lo hi t -> sm_rel lo s m ->
  exactly (sm_rel hi) (Get t k s) (spec_get t k m).
Proof.
  intros Ht HR. unfold Get, spec_get. destruct (isCentral k) eqn:Hk.
  - read_central k 0%nat Hk. keep 0%nat.
  - read_shard k 0%nat Hk. keep 0%nat.
Qed.

Lemma sm_set_law lo hi t k v ttl s m : ticks lo hi t -> sm_rel lo s m ->
  exactly (sm_rel hi) (Set_ t k v ttl s) (spec_set t k v ttl m).
Proof.
  intros Ht HR. apply (rel_later lo hi) in HR; [| by eapply ticks_mono].
  unfold Set_, spec_set. destruct (isCentral k) eqn:Hk; split; simpl; auto with memory.
Qed.

Lemma sm_delete_law now k s m : sm_rel now s m ->
  exactly (sm_rel now) (Delete k s) (spec_delete k m).
Proof. intros HR. unfold Delete, spec_delete. destruct (isCentral k) eqn:Hk; split; simpl; auto with memory. Qed.

Lemma sm_incr_law lo hi t k d dl s m : ticks lo hi t -> sm_rel lo s m ->
  exactly (sm_rel hi) (IncrByDeadline t k d dl s) (spec_incr_by_deadline t k d dl m).
Proof.
  intros Ht HR. pose proof (ticks_bound _ _ _ 1%nat Ht) as Hb. unfold IncrByDeadline.
  destruct (isCentral k) eqn:Hk.
  - destruct (incr_sim getCentral put_central sm_rel k) with (lo := lo) (hi := hi) (t := t)
      (delta := d) (deadline := dl) (x := s) (m := m) as [H1 H2]; eauto with memory.
    + intros. by eapply rel_get_central.
    + split; [done |]. eapply rel_later; [| done]; lia.
  - destruct (incr_sim get_in_shard put_in_shard sm_rel k) with (lo := lo) (hi := hi) (t := t)
      (delta := d) (deadline := dl) (x := s) (m := m) as [H1 H2]; eauto with memory.
    + intros. by eapply rel_get_shard.
    + split; [done |]. eapply rel_later; [| done]; lia.
Qed.

Lemma sm_cas_law lo hi t k old new ttl s m : ticks lo hi t -> sm_rel lo s m ->
  exactly (sm_rel hi) (CompareAndSwap t k old new ttl s) (spec_cas t k old new ttl m).
Proof.
  intros Ht HR. unfold CompareAndSwap, spec_cas. destruct (isCentral k) eqn:Hk.
  - read_central k 0%nat Hk. destruct (matches _ _); keep 0%nat.
  - read_shard k 0%nat Hk. destruct (matches _ _); keep 0%nat.
Qed.

Lemma sm_cad_law lo hi t k old s m : ticks lo hi t -> sm_rel lo s m ->
  exactly (sm_rel hi) (CompareAndDelete t k old s) (spec_cad t k old m).
Proof.
  intros Ht HR. unfold CompareAndDelete, spec_cad. destruct old as [w|].
  - destruct (isCentral k) eqn:Hk.
    + read_central k 0%nat Hk. destruct (matches _ _); keep 0%nat.
    + read_shard k 0%nat Hk. destruct (matches _ _); keep 0%nat.
  - split; [done |]. eapply rel_later; [| done]. by eapply ticks_mono.
Qed.

Lemma sm_commit_block_law lo hi t c s m : block_commit_keys c -> ticks lo hi t -> sm_rel lo s m ->
  exactly (sm_rel hi) (CommitBlock t c s) (spec_commit_block t c m).
Proof.
  intros (Hb & Hh & Hg & Hc) Ht HR. unfold CommitBlock, spec_commit_block. rewrite Hb. simpl negb.
  read_shard (bc_HoldKey c) 0%nat Hh.
  destruct (live (t 0%nat) m (bc_HoldKey c)); [keep 0%nat |].
  read_shard (bc_GuardKey c) 1%nat Hg.
  destruct (negb (matches (live (t 1%nat) m _) _)); [keep 1%nat |].
  read_central (bc_BlockKey c) 2%nat Hb.
  destruct (negb (matches (live (t 2%nat) m _) _)); [keep 2%nat |].
  read_shard (bc_CounterKey c) 3%nat Hc.
  unfold next_offense. destruct (live (t 3%nat) m (bc_CounterKey c)) as [e|]; cbv zeta;
    (split; [done |]; apply (rel_later (t 3%nat)); [apply (ticks_bound _ _ _ _ Ht) |]);
    (apply rel_put_central_gen; [done | by apply rel_put_shard |]);
    intros k'; rewrite elem_of_union, elem_of_singleton; done.
Qed.

Lemma sm_commit_event_law lo hi t c s m : event_commit_keys c -> ticks lo hi t -> sm_rel lo s m ->
  exactly (sm_rel hi) (CommitEvent t c s) (spec_commit_event t c m).
Proof.
  intros (Hh & Hc) Ht HR. unfold CommitEvent, spec_commit_event.
  read_shard (ec_HoldKey c) 0%nat Hh.
  destruct (live (t 0%nat) m (ec_HoldKey c)); [keep 0%nat |]. cbv zeta.
  set (dl := if 0 <? ec_CounterTTL c then _ else 0).
  set (t' := fun i : nat => t (2 + i)%nat).
  assert (ticks (t 0%nat) hi t') as Ht'.
  { split; intros; [| apply (ticks_le _ _ _ _ _ Ht); lia].
    split; [apply (ticks_le _ _ _ _ _ Ht); lia | apply (ticks_bound _ _ _ _ Ht)]. }
  destruct (incr_sim get_in_shard put_in_shard sm_rel (ec_CounterKey c)) with (lo := t 0%nat) (hi := hi)
    (t := t') (delta := 1) (deadline := dl) (x := s0) (m := m) as [H1 H2]; eauto with memory.
  - intros. by eapply rel_get_shard.
  - destruct (incrByDeadline _ _ _ _ _ _ _) as [s2 r2], (spec_incr_by_deadline _ _ _ _ _) as [m2 r2'].
    simpl in H1, H2. subst r2'.
    assert (sm_rel hi s2 m2) by (eapply rel_later; [apply (ticks_bound _ _ _ 1%nat Ht') | done]).
    destruct r2 as [[v a]|]; done.
Qed.

Lemma sm_commit_unblock_law lo hi t c s m : unblock_commit_keys c -> ticks lo hi t -> sm_rel lo s m ->
  exactly (sm_rel hi) (CommitUnblock t c s) (spec_commit_unblock t c m).
Proof.
  intros (Hb & Hh & Hg & Hc) Ht HR. apply (rel_later lo hi) in HR; [| by eapply ticks_mono].
  unfold CommitUnblock, spec_commit_unblock. rewrite Hb. simpl negb. cbv zeta.
  destruct (uc_ResetBackoff c); split; cbn [fst snd]; eauto 10 with memory.
Qed.

(** ** The instance: ShardedMemory implements the store contract *)
#[export] Instance sharded_memory_ops : StoreOps ShardedMemory := {
  st_get := Get; st_set := Set_; st_delete := Delete; st_incr_by_deadline := IncrByDeadline;
  st_cas := CompareAndSwap; st_cad := CompareAndDelete; st_commit_block := CommitBlock;
  st_commit_event := CommitEvent; st_commit_unblock := CommitUnblock
}.

#[export] Instance sharded_memory_laws : StoreLaws ShardedMemory := {
  st_rel := sm_rel;
  st_rel_later := rel_later;
  st_get_law lo hi t k s m H1 H2 := exactly_keeps _ _ _ _ (sm_get_law lo hi t k s m H1 H2); st_set_law lo hi t k v ttl s m H1 H2 := exactly_keeps _ _ _ _ (sm_set_law lo hi t k v ttl s m H1 H2); st_delete_law now k s m H1 := exactly_keeps _ _ _ _ (sm_delete_law now k s m H1);
  st_incr_law lo hi t k d dl s m H1 H2 := exactly_keeps _ _ _ _ (sm_incr_law lo hi t k d dl s m H1 H2); st_cas_law lo hi t k o n ttl s m H1 H2 := exactly_keeps _ _ _ _ (sm_cas_law lo hi t k o n ttl s m H1 H2); st_cad_law lo hi t k o s m H1 H2 := exactly_keeps _ _ _ _ (sm_cad_law lo hi t k o s m H1 H2);
  st_commit_block_law lo hi t c s m H0 H1 H2 := exactly_keeps _ _ _ _ (sm_commit_block_law lo hi t c s m H0 H1 H2); st_commit_event_law lo hi t c s m H0 H1 H2 := exactly_keeps _ _ _ _ (sm_commit_event_law lo hi t c s m H0 H1 H2);
  st_commit_unblock_law lo hi t c s m H0 H1 H2 := exactly_keeps _ _ _ _ (sm_commit_unblock_law lo hi t c s m H0 H1 H2)
}.

(** ** Whole runs

    A run is a list of operations, each with the clock readings it took; the
    same run can be replayed on the abstract map. *)
Inductive mem_op :=
| OGet (k : gostring)
| OSet (k v : gostring) (ttl : Z)
| ODelete (k : gostring)
| OIncr (k : gostring) (delta deadline : Z)
| OCas (k : gostring) (old : option gostring) (new : gostring) (ttl : Z)
| OCad (k : gostring) (old : option gostring)
| OCommitBlock (c : BlockCommit)
| OCommitEvent (c : EventCommit)
| OCommitUnblock (c : UnblockCommit)
| OJanitor.

Inductive response :=
| RGet (r : result (option gostring))
| RUnit (r : result unit)
| RIncr (r : result (Z * bool))
| RBool (r : result bool)
| RBlock (r : result BlockCommitResult)
| REvent (r : result EventCommitResult).

Definition on_snd {A B C : Type} (f : B -> C) (p : A * B) : A * C := (p.1, f p.2).

Definition mem_exec (t : clock) (op : mem_op) (s : ShardedMemory) : ShardedMemory * response :=
  match op with
  | OGet k => on_snd RGet (Get t k s)
  | OSet k v ttl => on_snd RUnit (Set_ t k v ttl s)
  | ODelete k => on_snd RUnit (Delete k s)
  | OIncr k d dl => on_snd RIncr (IncrByDeadline t k d dl s)
  | OCas k o n ttl => on_snd RBool (CompareAndSwap t k o n ttl s)
  | OCad k o => on_snd RBool (CompareAndDelete t k o s)
  | OCommitBlock c => on_snd RBlock (CommitBlock t c s)
  | OCommitEvent c => on_snd REvent (CommitEvent t c s)
  | OCommitUnblock c => on_snd RUnit (CommitUnblock t c s)
  | OJanitor => (janitor_tick (t 0%nat) s, RUnit (Ok tt))
  end.

Definition spec_exec (t : clock) (op : mem_op) (m : amap) : amap * response :=
  match op with
  | OGet k => on_snd RGet (spec_get t k m)
  | OSet k v ttl => on_snd RUnit (spec_set t k v ttl m)
  | ODelete k => on_snd RUnit (spec_delete k m)
  | OIncr k d dl => on_snd RIncr (spec_incr_by_deadline t k d dl m)
  | OCas k o n ttl => on_snd RBool (spec_cas t k o n ttl m)
  | OCad k o => on_snd RBool (spec_cad t k o m)
  | OCommitBlock c => on_snd RBlock (spec_commit_block t c m)
  | OCommitEvent c => on_snd REvent (spec_commit_event t c m)
  | OCommitUnblock c => on_snd RUnit (spec_commit_unblock t c m)
  | OJanitor => (m, RUnit (Ok tt))
  end.

Definition op_ok (op : mem_op) : Prop :=
  match op with
  | OCommitBlock c => block_commit_keys c
  | OCommitEvent c => event_commit_keys c
  | OCommitUnblock c => unblock_commit_keys c
  | _ => True
  end.

Fixpoint run_with {S : Type} (exec : clock -> mem_op -> S -> S * response)
  (trace : list (clock * mem_op)) (s : S) : list response :=
  match trace with
  | [] => []
  | (t, op) :: rest => let '(s1, r) := exec t op s in r :: run_with exec rest s1
  end.

(** Operations follow one another in time: each starts no earlier than the
    previous one ended. *)
Inductive timed : Z -> list (clock * mem_op) -> Prop :=
| timed_nil now : timed now []
| timed_cons lo hi t op rest :
    ticks lo hi t -> op_ok op -> timed hi rest -> timed lo ((t, op) :: rest).

(** ** Construction *)
Lemma pow2_loop_spec fuel : forall p n, (exists k, 0 <= k /\ p = 2 ^ k) ->
  n <= p * 2 ^ Z.of_nat fuel -> n <= 2 ^ 62 -> p <= 2 ^ 62 ->
  exists k, 0 <= k /\ pow2_loop fuel p n = 2 ^ k /\ n <= 2 ^ k /\ (2 ^ k <= p \/ 2 ^ k < 2 * n).
Proof.
  induction fuel as [|f IH]; intros p n (k & Hk & ->) Hf Hn Hp; simpl.
  - exists k. rewrite Z.mul_1_r in Hf. split_ands; try done. lia.
  - rewrite Nat2Z.inj_succ, Z.pow_succ_r in Hf by lia.
    destruct (2 ^ k <? n) eqn:E; bool_to_prop.
    + assert (H2 : 2 ^ k * 2 = 2 ^ (k + 1)) by (rewrite Z.pow_add_r by lia; lia).
      assert (0 < 2 ^ k) by (apply Z.pow_pos_nonneg; lia).
      rewrite wrap64_id by (unfold int64_ok, int64_min, int64_max; lia). rewrite H2.
      assert (k < 62) by (apply (Z.pow_lt_mono_r_iff 2); lia).
      destruct (IH (2 ^ (k + 1)) n) as (k' & ? & ? & ? & Ho).
      * exists (k + 1). split; [lia | done].
      * rewrite <- H2. nia.
      * done.
      * apply Z.pow_le_mono_r; lia.
      * exists k'. split_ands; try done. right. destruct Ho; lia.
    + exists k. split_ands; try done. by left.
Qed.

Lemma nextPow2_spec n : n <= 2 ^ 62 ->
  exists k, 0 <= k /\ nextPow2 n = 2 ^ k /\ (if n <=? 0 then k = 8 else n <= 2 ^ k < 2 * n \/ (n = 1 /\ k = 0)).
Proof.
  intros Hn. unfold nextPow2. destruct (n <=? 0) eqn:E.
  - exists 8. done.
  - bool_to_prop. destruct (pow2_loop_spec 63 1 n) as (k & H1 & H2 & H3 & H4).
    + exists 0. done.
    + change (Z.of_nat 63) with 63. lia.
    + done.
    + lia.
    + exists k. split_ands; try done. destruct H4 as [H4|H4]; [| lia].
      assert (n = 1) by lia. subst n. right. split; [done |].
      destruct (decide (k = 0)); [done |].
      assert (2 ^ 1 <= 2 ^ k) by (apply Z.pow_le_mono_r; lia). lia.
Qed.

Lemma wf_NewShardedMemory shards now : shards <= 2 ^ 31 -> sm_rel now (NewShardedMemory shards) ∅.
Proof.
  intros Hs. destruct (nextPow2_spec shards ltac:(lia)) as (k & Hk & Hn & Hb).
  assert (0 < nextPow2 shards <= 2 ^ 32) as Hr.
  { rewrite Hn. split; [by apply Z.pow_pos_nonneg |].
    destruct (shards <=? 0) eqn:E; [subst k; lia |]. destruct Hb as [|[-> ->]]; lia. }
  unfold NewShardedMemory. set (n := nextPow2 shards) in *.
  assert (Hempty : forall i (m : gmap gostring entry), replicate (Z.to_nat n) ∅ !! i = Some m -> m = ∅).
  { intros i m Hi. by apply lookup_replicate in Hi as [-> _]. }
  split.
  - split; simpl.
    + rewrite length_replicate. unfold wrapu32. rewrite Z.mod_small by lia. lia.
    + rewrite length_replicate. lia.
    + set_solver.
    + intros k' [x Hx]. by rewrite lookup_empty in Hx.
    + intros i m k' Hi [x Hx]. apply Hempty in Hi as ->. by rewrite lookup_empty in Hx.
  - intros k' t Ht. unfold live. rewrite lookup_empty. unfold phys, shardFor. simpl.
    destruct (isCentral k'); [by rewrite lookup_empty |].
    destruct (replicate _ _ !! _) eqn:E; simpl; [apply Hempty in E as -> |]; by rewrite lookup_empty.
Qed.

(** ** The janitor *)
Lemma lookup_keep (m : gmap gostring entry) now k :
  filter (fun p : gostring * entry => expired p.2 now = false) m !! k =
  match m !! k with Some e => if expired e now then None else Some e | None => None end.
Proof.
  rewrite map_lookup_filter. destruct (m !! k) as [e|]; simpl; [| done].
  destruct (expired e now) eqn:E; [rewrite option_guard_False | rewrite option_guard_True]; simpl; congruence.
Qed.

Lemma rel_janitor lo now s m : lo <= now -> sm_rel lo s m -> sm_rel now (janitor_tick now s) m.
Proof.
  intros Hle [Hwf H]. split.
  - split; simpl.
    + rewrite length_fmap. apply (wf_mask s Hwf).
    + rewrite length_fmap. apply (wf_nonempty s Hwf).
    + intros k Hin. apply elem_of_difference in Hin as [Hin Hn].
      destruct (wf_index s Hwf k Hin) as [e He].
      apply not_elem_of_difference in Hn as [Hn|Hn].
      * exfalso. apply Hn. apply elem_of_dom. by exists e.
      * by apply elem_of_dom in Hn.
    + intros k [e He]. apply map_lookup_filter_Some in He as [He _].
      apply (wf_central s Hwf). by exists e.
    + intros i m0 k Hi [e He]. apply list_lookup_fmap_Some in Hi as (m1 & -> & Hi).
      apply map_lookup_filter_Some in He as [He _].
      apply (wf_shard s Hwf i m1); [done | by exists e].
  - intros k t Ht. rewrite <- H by lia.
    assert (phys (janitor_tick now s) k =
            match phys s k with Some e => if expired e now then None else Some e | None => None end) as ->.
    { unfold phys. destruct (isCentral k); simpl; [apply lookup_keep |].
      unfold shardFor. simpl. change (shard_index (janitor_tick now s) k) with (shard_index s k).
      rewrite list_lookup_fmap. destruct (sm_shards s !! _); simpl; [apply lookup_keep | by rewrite lookup_empty]. }
    unfold liveo. destruct (phys s k) as [e|]; [| done].
    destruct (expired e now) eqn:E; [| done]. by rewrite (expired_mono e now t).
Qed.

Lemma mem_exec_sim lo hi t op s m : ticks lo hi t -> op_ok op -> sm_rel lo s m ->
  (mem_exec t op s).2 = (spec_exec t op m).2 /\ sm_rel hi (mem_exec t op s).1 (spec_exec t op m).1.
Proof.
  intros Ht Hok HR.
  assert (forall (A : Type) (f : result A -> response) c a, exactly (sm_rel hi) c a ->
    (on_snd f c).2 = (on_snd f a).2 /\ sm_rel hi (on_snd f c).1 (on_snd f a).1) as Hs.
  { intros A f c a [H1 H2]. unfold on_snd. simpl. by rewrite H1. }
  destruct op; simpl mem_exec; simpl spec_exec; try apply Hs.
  - by apply (sm_get_law lo). - by apply (sm_set_law lo).
  - apply sm_delete_law. eapply rel_later; [by eapply ticks_mono | done].
  - by apply (sm_incr_law lo). - by apply (sm_cas_law lo). - by apply (sm_cad_law lo).
  - by apply (sm_commit_block_law lo). - by apply (sm_commit_event_law lo).
  - by apply (sm_commit_unblock_law lo).
  - split; [done |]. apply (rel_later (t 0%nat)); [apply (ticks_bound _ _ _ _ Ht) |].
    eapply rel_janitor; [| done]. apply (ticks_bound _ _ _ _ Ht).
Qed.

(** ** Lock order *)
Definition increasing (l : list (option nat)) : Prop :=
  StronglySorted (fun a b => (lock_rank a < lock_rank b)%nat) l.

Lemma Compact_elem l x : x ∈ Compact l <-> x ∈ l.
Proof.
  induction l as [|a l IH]; simpl; [done |]. destruct l as [|b l]; [done |].
  destruct (a =? b)%nat eqn:E.
  - apply Nat.eqb_eq in E as ->. rewrite IH, !elem_of_cons. tauto.
  - rewrite !elem_of_cons in *. rewrite IH. done.
Qed.

Lemma Compact_sorted l : StronglySorted Nat.le l -> StronglySorted Nat.lt (Compact l).
Proof.
  induction l as [|a l IH]; intros H; [constructor |].
  apply StronglySorted_inv in H as [H Ha]. specialize (IH H).
  destruct l as [|b l]; [repeat constructor |]. change (Compact (a :: b :: l)) with
    (if (a =? b)%nat then Compact (b :: l) else a :: Compact (b :: l)).
  destruct (a =? b)%nat eqn:E; [done |]. apply Nat.eqb_neq in E.
  constructor; [done |]. apply Forall_forall. intros x Hx. rewrite Compact_elem in Hx.
  apply Forall_cons in Ha as [Hab Ha]. apply elem_of_cons in Hx as [->|Hx].
  - unfold Nat.lt, Nat.le in *. lia.
  - apply StronglySorted_inv in H as [_ Hb].
    rewrite Forall_forall in Hb. specialize (Hb x Hx). unfold Nat.lt, Nat.le in *. lia.
Qed.

Lemma lockShardKeys_sorted s keys : StronglySorted Nat.lt (lockShardKeys s keys).
Proof. apply Compact_sorted. apply (StronglySorted_merge_sort Nat.le). Qed.

Lemma lockShardKeys_covers s keys k : k ∈ keys -> isCentral k = false ->
  shard_index s k ∈ lockShardKeys s keys.
Proof.
  intros Hin Hk. unfold lockShardKeys. apply Compact_elem.
  rewrite merge_sort_Permutation. apply list_elem_of_fmap. exists k. split; [done |].
  by apply list_elem_of_filter.
Qed.

Lemma increasing_shards l : StronglySorted Nat.lt l -> increasing (Some <$> l).
Proof.
  induction 1 as [|a l Hl IH Ha]; simpl; constructor; [done |].
  apply Forall_fmap. eapply Forall_impl; [exact Ha |]. simpl. intros x Hx. unfold Nat.lt in Hx. lia.
Qed.

Lemma increasing_central l : StronglySorted Nat.lt l -> increasing (None :: (Some <$> l)).
Proof.
  intros H. constructor; [by apply increasing_shards |].
  apply Forall_fmap. apply Forall_forall. intros x _. simpl. lia.
Qed.

(** The lock programs of the operations. *)
Inductive lock_program (s : ShardedMemory) : list (option nat) -> Prop :=
| lp_single key : lock_program s (single_key_lock s key)
| lp_block c : lock_program s (CommitBlock_locks s c)
| lp_unblock c : lock_program s (CommitUnblock_locks s c)
| lp_event c : lock_program s (CommitEvent_locks s c).

Lemma lock_program_increasing s l : lock_program s l -> increasing l.
Proof.
  destruct 1.
  - unfold single_key_lock. destruct (isCentral key); repeat constructor.
  - apply increasing_central, lockShardKeys_sorted.
  - apply increasing_central, lockShardKeys_sorted.
  - unfold CommitEvent_locks. destruct (_ =? _)%nat eqn:E; [repeat constructor |].
    apply Nat.eqb_neq in E. destruct (_ <? _)%nat eqn:F.
    + apply Nat.ltb_lt in F. constructor; [repeat constructor | constructor; [simpl; lia | constructor]].
    + apply Nat.ltb_ge in F. constructor; [repeat constructor | constructor; [simpl; lia | constructor]].
Qed.

(** Threads taking their locks one by one, and dropping them all at the end
    (the deferred unlocks). *)
Record thread := mk_thread { th_held : list (option nat); th_todo : list (option nat) }.

Inductive lock_step : list thread -> list thread -> Prop :=
| step_acquire ts i th l rest :
    ts !! i = Some th -> th_todo th = l :: rest ->
    (forall j th', ts !! j = Some th' -> l ∉ th_held th') ->
    lock_step ts (<[i := mk_thread (th_held th ++ [l]) rest]> ts)
| step_release ts i th :
    ts !! i = Some th -> th_todo th = [] -> th_held th <> [] ->
    lock_step ts (<[i := mk_thread [] []]> ts).

Definition threads_ok (ts : list thread) : Prop :=
  forall i th, ts !! i = Some th -> increasing (th_held th ++ th_todo th).

Lemma lock_step_ok ts ts' : lock_step ts ts' -> threads_ok ts -> threads_ok ts'.
Proof.
  intros Hstep Hok j th' Hj. destruct Hstep as [ts i th l rest Hi Ht _|ts i th Hi Ht _].
  - apply list_lookup_insert_Some in Hj as [(-> & <- & _)|[_ Hj]]; [| by eapply Hok].
    simpl. rewrite <- app_assoc. simpl. rewrite <- Ht. by eapply Hok.
  - apply list_lookup_insert_Some in Hj as [(-> & <- & _)|[_ Hj]]; [| by eapply Hok].
    constructor.
Qed.

Lemma exists_max {A : Type} (f : A -> nat) (l : list A) : l <> [] ->
  exists x, x ∈ l /\ forall y, y ∈ l -> (f y <= f x)%nat.
Proof.
  induction l as [|a l IH]; [done |]. intros _. destruct l as [|b l].
  - exists a. split; [by left |]. intros y ->%list_elem_of_singleton. done.
  - destruct IH as (x & Hx & Hm); [done |]. destruct (decide (f x <= f a)%nat).
    + exists a. split; [by left |]. intros y [->|Hy]%elem_of_cons; [done |]. specialize (Hm y Hy). lia.
    + exists x. split; [by right |]. intros y [->|Hy]%elem_of_cons; [lia |]. by apply Hm.
Qed.

Lemma sorted_app_lt l1 l2 a b : increasing (l1 ++ l2) -> a ∈ l1 -> b ∈ l2 -> (lock_rank a < lock_rank b)%nat.
Proof.
  intros H Ha Hb.
  exact (StronglySorted_app_1_elem_of (fun a b => (lock_rank a < lock_rank b)%nat) l1 l2 a b H Ha Hb).
Qed.

(** A thread that still has something to do and is not waiting for a lock. *)
Lemma lock_progress ts : threads_ok ts ->
  (exists i th, ts !! i = Some th /\ (th_held th <> [] \/ th_todo th <> [])) ->
  exists ts', lock_step ts ts'.
Proof.
  intros Hok (i0 & th0 & Hi0 & Hact).
  set (held := ts ≫= th_held).
  destruct (decide (held = [])) as [Hnone|Hsome].
  - assert (forall j th, ts !! j = Some th -> th_held th = []) as Hh.
    { intros j th Hj. destruct (th_held th) as [|l r] eqn:E; [done |]. exfalso.
      assert (l ∈ held) as Hl; [| rewrite Hnone in Hl; by apply not_elem_of_nil in Hl].
      apply list_elem_of_bind. exists th. split; [rewrite E; left | by eapply list_elem_of_lookup_2]. }
    destruct (th_todo th0) as [|l rest] eqn:E.
    + destruct Hact as [Hact|Hact]; [| done]. by rewrite (Hh _ _ Hi0) in Hact.
    + eexists. eapply step_acquire; [done | done |]. intros j th' Hj. rewrite (Hh _ _ Hj).
      apply not_elem_of_nil.
  - destruct (exists_max lock_rank held Hsome) as (x & Hx & Hmax).
    apply list_elem_of_bind in Hx as (th & Hx & Hth). apply list_elem_of_lookup in Hth as [i Hi].
    destruct (th_todo th) as [|l rest] eqn:E.
    + eexists. eapply step_release; [done | done |]. by destruct (th_held th); [apply not_elem_of_nil in Hx |].
    + eexists. eapply step_acquire; [done | done |]. intros j th' Hj Hl.
      pose proof (Hok i th Hi) as Hs. rewrite E in Hs.
      pose proof (sorted_app_lt _ _ x l Hs Hx ltac:(left)) as Hlt.
      assert (lock_rank l <= lock_rank x)%nat; [| lia]. apply Hmax.
      apply list_elem_of_bind. exists th'. split; [done | by eapply list_elem_of_lookup_2].
Qed.

(** ** The active-block index *)
Definition indexed (s : ShardedMemory) : Prop :=
  forall k, is_Some (sm_central s !! k) -> k ∈ sm_activeBlocks s.

(** [Incr] is not a block mutation API (the [ActiveBlockScanner] contract). *)
Definition indexing_op (op : mem_op) : Prop :=
  match op with OIncr k _ _ => isCentral k = false | _ => True end.

Lemma indexed_getCentral s k now : indexed s -> indexed (getCentral s k now).2.
Proof.
  intros H. unfold getCentral.
  assert (indexed (with_central (delete k (sm_central s)) (sm_activeBlocks s ∖ {[k]}) s)) as Hd.
  { intros k' [e He]. simpl in *. apply lookup_delete_Some in He as [Hne He].
    apply elem_of_difference. split; [apply H; by exists e |]. by rewrite elem_of_singleton. }
  destruct (sm_central s !! k); [destruct (expired _ _) |]; done.
Qed.

Lemma indexed_put s k e : indexed s ->
  indexed (with_central (<[k := e]> (sm_central s)) ({[k]} ∪ sm_activeBlocks s) s).
Proof.
  intros H k' [x Hx]. simpl in *. apply lookup_insert_Some in Hx as [[-> _]|[Hne Hx]].
  - apply elem_of_union. left. by apply elem_of_singleton.
  - apply elem_of_union. right. apply H. by exists x.
Qed.

Lemma indexed_put_central_indexed s k e : isCentral k = true -> indexed s ->
  indexed (put_central_indexed k e s).
Proof. intros Hk H. unfold put_central_indexed. unfold isCentral in Hk. rewrite Hk. by apply indexed_put. Qed.

Lemma indexed_del_central s k : indexed s -> indexed (del_central k s).
Proof.
  intros H k' [x Hx]. simpl in *. apply lookup_delete_Some in Hx as [Hne Hx].
  apply elem_of_difference. split; [apply H; by exists x |]. by rewrite elem_of_singleton.
Qed.

(** Shard operations leave the central struct alone. *)
Lemma central_get_in_shard s k now : indexed s -> indexed (get_in_shard s k now).2.
Proof. intros H. unfold get_in_shard. by destruct (getShard _ _ _). Qed.
Lemma central_put_in_shard s k e : indexed s -> indexed (put_in_shard k e s).
Proof. done. Qed.
Lemma central_del_in_shard s k : indexed s -> indexed (del_in_shard k s).
Proof. done. Qed.
#[export] Hint Resolve indexed_getCentral indexed_put indexed_put_central_indexed indexed_del_central
  central_get_in_shard central_put_in_shard central_del_in_shard : memory.

Ltac idx_get :=
  match goal with
  | H : indexed ?s |- context [getCentral ?s ?k ?n] =>
    pose proof (indexed_getCentral s k n H); destruct (getCentral s k n) as [? ?]; cbn [fst snd] in *; clear H
  | H : indexed ?s |- context [get_in_shard ?s ?k ?n] =>
    pose proof (central_get_in_shard s k n H); destruct (get_in_shard s k n) as [? ?]; cbn [fst snd] in *; clear H
  end.

Lemma indexed_incr_shard t k d dl s : indexed s ->
  indexed (incrByDeadline get_in_shard put_in_shard t k d dl s).1.
Proof.
  intros H. unfold incrByDeadline. destruct (negb _ && _); idx_get;
    destruct o as [e|]; try done; destruct (ParseInt _); done.
Qed.

Lemma indexed_exec t op s : indexing_op op -> indexed s -> indexed (mem_exec t op s).1.
Proof.
  intros Hop H. destruct op; simpl in *.
  - unfold Get. destruct (isCentral k); idx_get; done.
  - unfold Set_. destruct (isCentral k) eqn:E; simpl; auto with memory.
  - unfold Delete. destruct (isCentral k) eqn:E; simpl; auto with memory.
  - unfold IncrByDeadline. rewrite Hop. by apply indexed_incr_shard.
  - unfold CompareAndSwap. destruct (isCentral k) eqn:E; idx_get; destruct (matches _ _); simpl; auto with memory.
  - unfold CompareAndDelete. destruct old; [| done].
    destruct (isCentral k) eqn:E; idx_get; destruct (matches _ _); simpl; auto with memory.
  - unfold CommitBlock. destruct (negb _); [done |]. idx_get. destruct o; [done |].
    idx_get. destruct (negb _); [done |]. idx_get. destruct (negb _); [done |]. idx_get.
    destruct o1; cbn [fst]; apply (indexed_put (put_in_shard _ _ _)); done.
  - unfold CommitEvent. idx_get. destruct o; [done |]. cbv zeta.
    match goal with H' : indexed _ |- context [incrByDeadline _ _ ?t' ?k ?d ?dl ?x] =>
      pose proof (indexed_incr_shard t' k d dl x H') end.
    destruct (incrByDeadline _ _ _ _ _ _ _) as [s2 [[v a]|]]; done.
  - unfold CommitUnblock. destruct (negb _); [done |].
    assert (indexed (del_central (uc_BlockKey c)
      (put_in_shard (uc_GenerationKey c) (mk_entry (uc_Generation c) (expiry (uc_GenerationTTL c) (t 1%nat)))
         (put_in_shard (uc_HoldKey c) (mk_entry (uc_HoldValue c) (expiry (uc_HoldTTL c) (t 0%nat))) s)))) as Hd
      by auto with memory.
    destruct (uc_ResetBackoff c); done.
  - intros k [e He]. simpl in *. pose proof He as He'. apply map_lookup_filter_Some in He as [He _].
    apply elem_of_difference. split; [apply H; by exists e |].
    rewrite elem_of_difference. intros [_ Hn]. apply Hn. apply elem_of_dom. by exists e.
Qed.

Definition kv_of (k : gostring) (e : entry) : KV := mk_kv k (e_value e) (e_expires e).

(** The scan's results among the keys still to visit. *)
Definition found (now : Z) (s : ShardedMemory) (order : list gostring) (kv : KV) : Prop :=
  exists k e, k ∈ order /\ sm_central s !! k = Some e /\ expired e now = false /\ kv = kv_of k e.

Lemma found_dead (now : Z) (s : ShardedMemory) (key : gostring) (rest : list gostring) (kv : KV) : key ∉ rest ->
  (forall e, sm_central s !! key = Some e -> expired e now = true) ->
  found now s (key :: rest) kv <-> found now (del_central key s) rest kv.
Proof.
  intros Hnot Hdead. split; intros (k & e & Hk & He & Hx & ->); exists k, e; simpl in *.
  - apply elem_of_cons in Hk as [->|Hk]; [by rewrite (Hdead e He) in Hx |].
    rewrite lookup_delete_ne by set_solver. done.
  - rewrite lookup_delete_ne in He by set_solver. split_ands; try done. by right.
Qed.

Lemma found_live (now : Z) (s : ShardedMemory) (key : gostring) (rest : list gostring) (e : entry) (kv : KV) : sm_central s !! key = Some e -> expired e now = false ->
  found now s (key :: rest) kv <-> kv = kv_of key e \/ found now s rest kv.
Proof.
  intros He Hx. split.
  - intros (k & e' & Hk & He' & Hx' & ->). apply elem_of_cons in Hk as [->|Hk]; [left; congruence |].
    right. by exists k, e'.
  - intros [->|(k & e' & Hk & He' & Hx' & ->)].
    + exists key, e. split_ands; try done. by left.
    + exists k, e'. split_ands; try done. by right.
Qed.

(** What a finished scan says, [c] being its [complete] flag. *)
Definition scan_spec (now limit : Z) (s : ShardedMemory) (order : list gostring)
  (out out' : list KV) (c : bool) : Prop :=
  if c then forall kv, kv ∈ out' <-> kv ∈ out \/ found now s order kv
  else 0 < limit /\ (Z.of_nat (length out) <= limit -> Z.of_nat (length out') = limit) /\
       forall kv, kv ∈ out' -> kv ∈ out \/ found now s order kv.

Lemma scan_index_spec now limit order : forall out s s' out' c,
  NoDup order -> scan_index now limit order out s = (s', out', c) ->
  scan_spec now limit s order out out' c.
Proof.
  induction order as [|key rest IH]; intros out s s' out' c Hnd Hrun; simpl in Hrun.
  - simplify_eq. simpl. intros kv. split; [by left |]. intros [|(k & e & Hk & _)]; [done | set_solver].
  - apply NoDup_cons in Hnd as [Hnot Hnd].
    assert (Hskip : (forall e, sm_central s !! key = Some e -> expired e now = true) ->
      scan_index now limit rest out (del_central key s) = (s', out', c) ->
      scan_spec now limit s (key :: rest) out out' c).
    { intros Hdead Hr. apply IH in Hr; [| done]. unfold scan_spec in *.
      destruct c; [| destruct Hr as (? & ? & Hr); split_ands; try done];
        intros kv; specialize (Hr kv); by rewrite found_dead. }
    destruct (sm_central s !! key) as [e|] eqn:E; [destruct (expired e now) eqn:Ex |].
    + apply Hskip; [| done]. by intros e' [= <-].
    + clear Hskip. destruct ((0 <? limit) && _) eqn:El.
      * simplify_eq. bool_to_prop. split; [done |]. rewrite length_app in *. simpl in *. split.
        -- intros Hlo. rewrite length_take, length_app. simpl. lia.
        -- intros kv Hkv. rewrite found_live by done. apply elem_of_take in Hkv as (i & Hi & _).
           apply list_elem_of_lookup_2 in Hi. rewrite elem_of_app, list_elem_of_singleton in Hi.
           destruct Hi as [|Hi]; [by left | by right; left].
      * apply IH in Hrun; [| done]. unfold scan_spec in *. destruct c.
        -- intros kv. rewrite Hrun, elem_of_app, list_elem_of_singleton, (found_live _ _ _ _ e) by done.
           unfold kv_of. tauto.
        -- destruct Hrun as (Hl & Hlen & Hin). split; [done |]. rewrite length_app in *. simpl in *. split.
           ++ intros Hlo. apply Hlen. apply andb_false_iff in El. destruct El; bool_to_prop; lia.
           ++ intros kv Hkv. specialize (Hin kv Hkv). rewrite elem_of_app, list_elem_of_singleton in Hin.
              rewrite (found_live _ _ _ _ e) by done. unfold kv_of. tauto.
    + by apply Hskip.
Qed.

(** ** Key order and votes *)
Lemma bytes_leb_total a b : bytes_leb a b = true \/ bytes_leb b a = true.
Proof.
  revert b; induction a as [|x a IH]; intros [|y b]; simpl; auto.
  destruct (byteZ x <? byteZ y) eqn:E1; [by left |].
  destruct (byteZ y <? byteZ x) eqn:E2; [by right |]. apply IH.
Qed.

Lemma bytes_leb_trans a b c : bytes_leb a b = true -> bytes_leb b c = true -> bytes_leb a c = true.
Proof.
  revert b c; induction a as [|x a IH]; intros [|y b] [|z c]; simpl; try done.
  destruct (byteZ x <? byteZ y) eqn:E1, (byteZ y <? byteZ x) eqn:E2,
    (byteZ y <? byteZ z) eqn:E3, (byteZ z <? byteZ y) eqn:E4,
    (byteZ x <? byteZ z) eqn:E5, (byteZ z <? byteZ x) eqn:E6; bool_to_prop;
    try done; try lia; apply IH.
Qed.

Lemma bytes_leb_antisym a : forall b, bytes_leb a b = true -> bytes_leb b a = true -> a = b.
Proof.
  induction a as [| x a IH]; intros [| y b]; cbn [bytes_leb]; try done.
  destruct (byteZ x <? byteZ y) eqn:E1, (byteZ y <? byteZ x) eqn:E2; bool_to_prop; try done; try lia.
  intros ? ?. f_equal; [apply byteZ_inj; lia | by apply IH].
Qed.

#[export] Instance kv_le_total : Total kv_le.
Proof. intros x y. apply bytes_leb_total. Qed.
#[export] Instance kv_le_trans : Transitive kv_le.
Proof. intros x y z. apply bytes_leb_trans. Qed.

(** The live, non-excluded votes bound the adopted posture, which is one of
    them (or zero). *)
Lemma max_vote_fold (exclude : gostring) (votes : gmap gostring postureVote) :
  let r := map_fold (fun id v acc =>
    if negb (bool_decide (id = exclude)) && (acc <? pv_level v) then pv_level v else acc) 0 votes in
  0 <= r /\
  (forall id v, votes !! id = Some v -> id <> exclude -> pv_level v <= r) /\
  (r = 0 \/ exists id v, votes !! id = Some v /\ id <> exclude /\ pv_level v = r).
Proof.
  simpl. apply (map_fold_weak_ind (fun r votes => 0 <= r /\
    (forall id v, votes !! id = Some v -> id <> exclude -> pv_level v <= r) /\
    (r = 0 \/ exists id v, votes !! id = Some v /\ id <> exclude /\ pv_level v = r))).
  - split_ands; [lia | | by left]. intros id v H. by rewrite lookup_empty in H.
  - intros i x m r Hi (Hr & Hle & Hex).
    case_bool_decide as Hd; simpl; [| destruct (r <? pv_level x) eqn:E; bool_to_prop].
    + split_ands; [done | |].
      * intros id v H Hne. apply lookup_insert_Some in H as [[-> _]|[_ H]]; [done | by eapply Hle].
      * destruct Hex as [|(id & v & H & Hne & Hv)]; [by left | right]. exists id, v.
        rewrite lookup_insert_ne by congruence. done.
    + split_ands; [lia | |].
      * intros id v H Hne. apply lookup_insert_Some in H as [[-> ->]|[_ H]]; [done |].
        specialize (Hle id v H Hne). lia.
      * right. exists i, x. rewrite lookup_insert_eq. done.
    + split_ands; [done | |].
      * intros id v H Hne. apply lookup_insert_Some in H as [[-> ->]|[_ H]]; [done | by eapply Hle].
      * destruct Hex as [|(id & v & H & Hne & Hv)]; [by left | right]. exists id, v.
        rewrite lookup_insert_ne by congruence. done.
Qed.

(** * Properties *)

Lemma run_sim trace : forall lo s m, timed lo trace -> sm_rel lo s m ->
  run_with mem_exec trace s = run_with spec_exec trace m.
Proof.
  induction trace as [|[t op] rest IH]; intros lo s m Ht HR; [done |].
  inversion Ht as [|lo' hi t' op' rest' Htk Hok Hrest]; subst.
  destruct (mem_exec_sim lo hi t op s m Htk Hok HR) as [H1 H2]. simpl.
  destruct (mem_exec t op s) as [s1 r1], (spec_exec t op m) as [m1 r2]. simpl in *. subst r2.
  f_equal. by eapply IH.
Qed.

(** C9: a freshly built sharded store answers every sequence of store
    operations, janitor sweeps included, exactly as the contract's single map
    does, whatever the (non-decreasing) clock readings: routing by FNV hash,
    lazy deletion of expired entries and the sweep are unobservable. *)
Theorem sharded_memory_refines_contract : forall shards lo trace,
  shards <= 2 ^ 31 -> timed lo trace ->
  run_with mem_exec trace (NewShardedMemory shards) = run_with spec_exec trace ∅.
Proof. intros. eapply run_sim; [done |]. by apply wf_NewShardedMemory. Qed.

Lemma sharded_memory_refines_contract_witness :
  run_with mem_exec
    [((fun _ => 5), OSet (lit "k") (lit "v") 10); ((fun _ => 15), OGet (lit "k"));
     ((fun _ => 16), OGet (lit "k")); ((fun _ => 17), OJanitor);
     ((fun _ => 20), OCommitEvent (mk_event_commit (lit "ev:x") 100 (lit "unblk:x")))]
    (NewShardedMemory 4) =
  [RUnit (Ok tt); RGet (Ok (Some (lit "v"))); RGet (Ok None); RUnit (Ok tt);
   REvent (Ok (mk_event_result true 1))].
Proof.
  rewrite (sharded_memory_refines_contract 4 0); [by vm_compute | lia |].
  repeat match goal with
  | |- timed ?lo ((?f, _) :: _) => apply (timed_cons lo (f 0%nat)); [apply ticks_const; lia | done |]
  | |- timed _ [] => constructor
  end.
Defined.

(** States reachable through the API, with the abstract map they stand for,
    when no counter operation is aimed at a block key. *)
Inductive mem_reach : Z -> ShardedMemory -> amap -> Prop :=
| reach_new shards lo : shards <= 2 ^ 31 -> mem_reach lo (NewShardedMemory shards) ∅
| reach_op lo hi t op s m : mem_reach lo s m -> ticks lo hi t -> op_ok op -> indexing_op op ->
    mem_reach hi (mem_exec t op s).1 (spec_exec t op m).1.

Lemma mem_reach_inv now s m : mem_reach now s m -> sm_rel now s m /\ indexed s.
Proof.
  induction 1 as [shards lo H|lo hi t op s m _ [HR Hidx] Ht Hok Hi].
  - split; [by apply wf_NewShardedMemory |]. intros k [e He].
    change ((∅ : gmap gostring entry) !! k = Some e) in He. by rewrite lookup_empty in He.
  - split; [by eapply mem_exec_sim | by apply indexed_exec].
Qed.

(** the store's mutexes cannot deadlock.  Whatever operations run
    concurrently, each taking the locks its source takes in its order and
    releasing them at the end, every reachable configuration in which some
    operation is unfinished has a possible step. *)
Theorem store_locks_no_deadlock : forall s programs ts,
  Forall (lock_program s) programs ->
  rtc lock_step ((fun p => mk_thread [] p) <$> programs) ts ->
  (exists i th, ts !! i = Some th /\ (th_held th <> [] \/ th_todo th <> [])) ->
  exists ts', lock_step ts ts'.
Proof.
  intros s programs ts Hp Hrun. apply lock_progress.
  eapply (rtc_invariant lock_step threads_ok); [apply lock_step_ok | done |].
  intros i th Hi. apply list_lookup_fmap_Some in Hi as (p & -> & Hi). simpl.
  eapply lock_program_increasing. by eapply Forall_lookup_1.
Qed.

Lemma store_locks_no_deadlock_witness : exists ts',
  lock_step [mk_thread [] [None; Some 1%nat]; mk_thread [] [Some 1%nat]] ts'.
Proof.
  apply (store_locks_no_deadlock (NewShardedMemory 2)
    [CommitBlock_locks (NewShardedMemory 2)
       (mk_block_commit (lit "block:a") None (lit "r") 1 2 (lit "b") 3 (lit "b") (lit "b") None);
     single_key_lock (NewShardedMemory 2) (lit "b")]).
  - repeat constructor.
  - vm_compute. apply rtc_refl.
  - exists 0%nat. eexists. split; [reflexivity |]. right. done.
Defined.

(** after any run that does not use the counter API on block keys, the
    active-block index is exact: the enumeration returns precisely the live
    [block:] entries when it reports completeness, and otherwise exactly
    [limit] of them, in whatever order the index is visited. *)
Theorem scan_active_blocks_exact : forall now t order limit s m s' out complete,
  mem_reach now s m -> now <= t 0%nat -> Permutation order (elements (sm_activeBlocks s)) ->
  ScanActiveBlocks t order (lit "block:") limit s = (s', Ok (out, complete)) ->
  let is_live kv := isCentral (kv_key kv) = true /\
    live (t 0%nat) m (kv_key kv) = Some (mk_entry (kv_value kv) (kv_expires kv)) in
  StronglySorted kv_le out /\
  (complete = true -> forall kv, kv ∈ out <-> is_live kv) /\
  (complete = false -> 0 < limit /\ Z.of_nat (length out) = limit /\ forall kv, kv ∈ out -> is_live kv).
Proof.
  intros now t order limit s m s' out complete Hreach Ht Hperm Hrun is_live.
  destruct (mem_reach_inv _ _ _ Hreach) as [[Hwf HR] Hidx].
  assert (NoDup order) as Hnd by (rewrite Hperm; apply NoDup_elements).
  assert (Hfound : forall kv, found (t 0%nat) s order kv <-> is_live kv).
  { intros kv. unfold found, is_live. split.
    - intros (k & e & Hk & He & Hx & ->). simpl.
      pose proof (wf_central s Hwf k ltac:(by exists e)) as Hc. split; [done |].
      rewrite <- HR by done. unfold phys. rewrite Hc, He. simpl. rewrite Hx. by destruct e.
    - intros [Hc Hl]. rewrite <- HR in Hl by done. unfold phys in Hl. rewrite Hc in Hl.
      destruct (sm_central s !! kv_key kv) as [e|] eqn:He; [| done]. simpl in Hl.
      destruct (expired e (t 0%nat)) eqn:Hx; [done |]. exists (kv_key kv), e. simplify_eq.
      split_ands; [| done | done | by destruct kv].
      rewrite Hperm. apply elem_of_elements, Hidx. by eexists. }
  unfold ScanActiveBlocks in Hrun. rewrite bool_decide_eq_true_2 in Hrun by done. simpl negb in Hrun.
  destruct (scan_index (t 0%nat) limit order [] s) as [[s1 o] c] eqn:E. simplify_eq.
  apply scan_index_spec in E; [| done]. split; [by apply (StronglySorted_merge_sort kv_le) |].
  split; intros ->; simpl in E.
  - intros kv. rewrite merge_sort_Permutation, E, Hfound. set_solver.
  - destruct E as (Hl & Hlen & Hin). split; [done |]. rewrite merge_sort_Permutation.
    split; [apply Hlen; simpl; lia |]. intros kv Hkv.
    rewrite merge_sort_Permutation in Hkv. destruct (Hin kv Hkv) as [|Hf]; [set_solver | by apply Hfound].
Qed.

Definition demo_store : ShardedMemory := (Set_ (fun _ => 0) (lit "block:a") (lit "r") 0 (NewShardedMemory 1)).1.

Lemma scan_active_blocks_exact_witness :
  mk_kv (lit "block:a") (lit "r") None ∈ [mk_kv (lit "block:a") (lit "r") None] <->
    isCentral (lit "block:a") = true /\
    live 5 {[lit "block:a" := mk_entry (lit "r") None]} (lit "block:a") = Some (mk_entry (lit "r") None).
Proof.
  refine (proj1 (proj2 (scan_active_blocks_exact 0 (fun _ => 5) [lit "block:a"] 0 demo_store
    {[lit "block:a" := mk_entry (lit "r") None]} demo_store _ true _ _ _ _)) eq_refl (mk_kv (lit "block:a") (lit "r") None)).
  - apply (reach_op 0 0 (fun _ => 0) (OSet (lit "block:a") (lit "r") 0) (NewShardedMemory 1) ∅); [| | done | done].
    + by apply reach_new.
    + by apply ticks_const.
  - done.
  - vm_compute. reflexivity.
  - vm_compute. reflexivity.
Defined.

(** the posture a replica adopts is the largest level among the unexpired
    votes of the other replicas, and zero when there is none. *)
Theorem max_posture_vote_is_max : forall t exclude s,
  let votes := sm_postureVotes s in
  let live_vote id v := votes !! id = Some v /\ vote_expired v (t 0%nat) = false /\ id <> exclude in
  exists level, (MaxPostureVote t exclude s).2 = Ok level /\ 0 <= level /\
    (forall id v, live_vote id v -> pv_level v <= level) /\
    (level = 0 \/ exists id v, live_vote id v /\ pv_level v = level).
Proof.
  intros t exclude s votes live_vote. unfold MaxPostureVote. simpl.
  destruct (max_vote_fold exclude (filter (fun p => vote_expired p.2 (t 0%nat) = false) votes))
    as (H1 & H2 & H3).
  eexists. split; [done |]. split; [done |]. split.
  - intros id v (Hv & Hx & Hne). eapply H2; [| done]. by apply map_lookup_filter_Some.
  - destruct H3 as [|(id & v & Hv & Hne & Hl)]; [by left | right]. exists id, v.
    apply map_lookup_filter_Some in Hv as [Hv Hx]. done.
Qed.
