(* ===== verification/CounterCache.v ===== *)
(** * The counter cache (core/store/countercache.go)

    Event counters are bumped in a bounded local map and pushed to the shared
    store by at most [maxFlushWorkers] drainers.  Every critical section of the
    source (code between [c.mu.Lock] and [c.mu.Unlock]) is one function on the
    cache state; a drainer's position between two of them is a [drainer]; the
    system steps one critical section or one store round at a time. *)

From S2P Require Export StoreClient.

(** ** State *)
Record counterEntry := mk_counter { ce_n : Z; ce_expires : Z; ce_pending : Z }.
Record overflowCounterCell := mk_cell { oc_n : Z; oc_expires : Z }.
Record dirtyEntry := mk_dirty { de_delta : Z; de_deadline : Z; de_del : bool }.

Definition maxCounterEntries : Z := 2 ^ 17.
Definition overflowCounterDepth : nat := 4.
Definition overflowCounterWidth : Z := 2 ^ 14.
Definition maxFlushWorkers : Z := 8.
Definition maxFlushQueue : Z := 2 ^ 14.
Definition minCounterWindow : Z := second.

(** A sketch row: [overflowCounterWidth] cells, the zero cell unless written. *)
Abbreviation sketch_row := (gmap Z overflowCounterCell).
Definition zero_cell : overflowCounterCell := mk_cell 0 0.
Definition cell_at (row : sketch_row) (idx : Z) : overflowCounterCell :=
  match row !! idx with Some c => c | None => zero_cell end.

Record CounterCache := mk_cache {
  cc_m : gmap gostring counterEntry;
  cc_dirty : gmap gostring dirtyEntry;
  cc_queue : list gostring;
  cc_workers : Z;
  cc_nextRoomSweep : Z;
  cc_overflow : list sketch_row
}.

Definition NewCounterCache : CounterCache := mk_cache ∅ ∅ [] 0 0 (replicate overflowCounterDepth ∅).

Definition with_m (m : gmap gostring counterEntry) (c : CounterCache) : CounterCache :=
  mk_cache m (cc_dirty c) (cc_queue c) (cc_workers c) (cc_nextRoomSweep c) (cc_overflow c).
Definition with_dirty (d : gmap gostring dirtyEntry) (c : CounterCache) : CounterCache :=
  mk_cache (cc_m c) d (cc_queue c) (cc_workers c) (cc_nextRoomSweep c) (cc_overflow c).
Definition with_queue (q : list gostring) (c : CounterCache) : CounterCache :=
  mk_cache (cc_m c) (cc_dirty c) q (cc_workers c) (cc_nextRoomSweep c) (cc_overflow c).
Definition with_workers (n : Z) (c : CounterCache) : CounterCache :=
  mk_cache (cc_m c) (cc_dirty c) (cc_queue c) n (cc_nextRoomSweep c) (cc_overflow c).
Definition with_sweep (t : Z) (c : CounterCache) : CounterCache :=
  mk_cache (cc_m c) (cc_dirty c) (cc_queue c) (cc_workers c) t (cc_overflow c).
Definition with_overflow (o : list sketch_row) (c : CounterCache) : CounterCache :=
  mk_cache (cc_m c) (cc_dirty c) (cc_queue c) (cc_workers c) (cc_nextRoomSweep c) o.

Section Cache.
(** [maphash.String] under the seed of row [i]: any function to uint64. *)
Variable hash : nat -> gostring -> Z.

Definition row_index (i : nat) (key : gostring) : Z := Z.land (hash i key) (overflowCounterWidth - 1).

(** ** The overflow sketch *)
Definition cell_lapsed (c : overflowCounterCell) (now : Z) : bool :=
  (oc_n c =? 0) || ((0 <? oc_expires c) && (oc_expires c <=? now)).

Definition bump_cell (c : overflowCounterCell) (now ttl : Z) : overflowCounterCell :=
  let c := if cell_lapsed c now then mk_cell 0 0 else c in
  let exp := if 0 <? ttl then Z.max (oc_expires c) (wrap64 (now + ttl)) else oc_expires c in
  mk_cell (if oc_n c <? int64_max then oc_n c + 1 else oc_n c) exp.

Fixpoint incr_rows (i : nat) (rows : list sketch_row) (key : gostring) (now ttl minimum : Z)
  : Z * list sketch_row :=
  match rows with
  | [] => (minimum, [])
  | row :: rest =>
    let idx := row_index i key in
    let c := bump_cell (cell_at row idx) now ttl in
    let '(n, rest') := incr_rows (S i) rest key now ttl (Z.min minimum (oc_n c)) in
    (n, <[idx := c]> row :: rest')
  end.

Definition incrOverflowLocked (key : gostring) (now ttl : Z) (c : CounterCache) : Z * CounterCache :=
  let '(n, rows) := incr_rows 0 (cc_overflow c) key now ttl int64_max in
  (n, with_overflow rows c).

Fixpoint count_rows (i : nat) (rows : list sketch_row) (key : gostring) (now minimum : Z) : Z :=
  match rows with
  | [] => minimum
  | row :: rest =>
    let c := cell_at row (row_index i key) in
    if cell_lapsed c now then 0 else count_rows (S i) rest key now (Z.min minimum (oc_n c))
  end.

Definition overflowCountLocked (key : gostring) (now : Z) (c : CounterCache) : Z :=
  count_rows 0 (cc_overflow c) key now int64_max.

(** ** Marking work *)
Definition foldOpLocked (d : dirtyEntry) (deadline : Z) (del : bool) : dirtyEntry :=
  if del then mk_dirty 0 (de_deadline d) true
  else if negb (de_deadline d =? deadline) then mk_dirty 1 deadline (de_del d)
  else mk_dirty (de_delta d + 1) (de_deadline d) (de_del d).

(** Go's [c.m[key]] for an absent key is the zero entry. *)
Definition entry_at (c : CounterCache) (key : gostring) : counterEntry :=
  match cc_m c !! key with Some e => e | None => mk_counter 0 0 0 end.

(** The tail of [markDirtyLocked] and [releaseLocked]: queue the key and say
    whether a drainer is to be started. *)
Definition enqueue (key : gostring) (c : CounterCache) : bool * CounterCache :=
  let c := with_queue (cc_queue c ++ [key]) c in
  if cc_workers c <? maxFlushWorkers then (true, with_workers (cc_workers c + 1) c) else (false, c).

Definition markDirtyLocked (key : gostring) (deadline : Z) (del : bool) (c : CounterCache) : bool * CounterCache :=
  match cc_dirty c !! key with
  | Some d => (false, with_dirty (<[key := foldOpLocked d deadline del]> (cc_dirty c)) c)
  | None =>
    if maxFlushQueue <=? Z.of_nat (length (cc_queue c)) then (false, c) else
    if del then enqueue key (with_dirty (<[key := mk_dirty 0 deadline true]> (cc_dirty c)) c)
    else
      let e := entry_at c key in
      let c := with_m (<[key := mk_counter (ce_n e) (ce_expires e) 0]> (cc_m c)) c in
      enqueue key (with_dirty (<[key := mk_dirty (ce_pending e) deadline false]> (cc_dirty c)) c)
  end.

(** ** Making room *)
Definition reclaimable (c : CounterCache) (now : Z) (key : gostring) (e : counterEntry) : bool :=
  ((ce_pending e =? 0) || (ce_expires e <=? now)) &&
  (match cc_dirty c !! key with Some _ => false | None => true end).

(** [now] is the sweep's own clock reading. *)
Definition makeCounterRoomLocked (now : Z) (c : CounterCache) : bool * CounterCache :=
  if Z.of_nat (size (cc_m c)) <? maxCounterEntries then (true, c) else
  if now <? cc_nextRoomSweep c then (false, c) else
  let c := with_sweep (now + second) c in
  let c := with_m (filter (fun ke => reclaimable c now ke.1 ke.2 = false) (cc_m c)) c in
  (Z.of_nat (size (cc_m c)) <? maxCounterEntries, c).

(** ** Counting: the critical section of [Incr]

    Answers the running total, whether to start a drainer, and the state. *)
Definition Incr (key : gostring) (ttl now sweep_now : Z) (c : CounterCache) : Z * bool * CounterCache :=
  let ttl := if ttl <=? 0 then minCounterWindow else ttl in
  let count e (c : CounterCache) :=
    let n := ce_n e + 1 in
    let pending := match cc_dirty c !! key with Some _ => ce_pending e | None => ce_pending e + 1 end in
    let c := with_m (<[key := mk_counter n (ce_expires e) pending]> (cc_m c)) c in
    let '(spawn, c) := markDirtyLocked key (ce_expires e) false c in
    (n, spawn, c) in
  match cc_m c !! key with
  | Some e =>
    if ce_expires e <=? now then count (mk_counter 0 (wrap64 (now + ttl)) 0) (with_m (delete key (cc_m c)) c)
    else count e c
  | None =>
    let '(room, c) := makeCounterRoomLocked sweep_now c in
    if room then count (mk_counter 0 (wrap64 (now + ttl)) 0) c
    else let '(n, c) := incrOverflowLocked key now ttl c in (n, false, c)
  end.

(** ** Forgetting *)
Definition Forget (key : gostring) (c : CounterCache) : bool * CounterCache :=
  markDirtyLocked key 0 true (with_m (delete key (cc_m c)) c).

(** The probe that ends [ForgetSync]: may the sketch still hold the key? *)
Definition ForgetSync_incomplete (key : gostring) (now : Z) (c : CounterCache) : bool :=
  0 <? overflowCountLocked key now c.

(** ** Draining *)
Definition releaseLocked (key : gostring) (c : CounterCache) : bool * CounterCache :=
  match cc_dirty c !! key with
  | None => (false, c)
  | Some d =>
    if (de_delta d =? 0) && negb (de_del d) then (false, with_dirty (delete key (cc_dirty c)) c)
    else enqueue key c
  end.

Definition preserveFailedIncr (key : gostring) (claimed deadline : Z) (c : CounterCache) : bool * CounterCache :=
  match cc_dirty c !! key with
  | None => (false, c)
  | Some d =>
    if de_del d then releaseLocked key c else
    let c := match cc_m c !! key with
      | None => c
      | Some e =>
        let p := if ce_expires e =? deadline then ce_pending e + claimed else ce_pending e in
        let p := if (0 <? de_delta d) && (ce_expires e =? de_deadline d) then p + de_delta d else p in
        with_m (<[key := mk_counter (ce_n e) (ce_expires e) p]> (cc_m c)) c
      end in
    (false, with_dirty (delete key (cc_dirty c)) c)
  end.

(** The merge after a successful round ([flushIncr]). *)
Definition flushIncr_merge (key : gostring) (deadline shared now : Z) (c : CounterCache) : CounterCache :=
  match cc_m c !! key with
  | Some e =>
    if (ce_expires e =? deadline) && (now <? ce_expires e) && (ce_n e <? shared)
    then with_m (<[key := mk_counter shared (ce_expires e) (ce_pending e)]> (cc_m c)) c
    else c
  | None => c
  end.

(** ** Flush at shutdown: its first critical section, over the map's keys in
    some [order], and its verdict. *)
Fixpoint promote (order : list gostring) (now : Z) (c : CounterCache) : CounterCache :=
  match order with
  | [] => c
  | key :: rest =>
    promote rest now
      match cc_m c !! key with
      | None => c
      | Some e =>
        if (ce_pending e =? 0) || (ce_expires e <=? now) then c else
        match cc_dirty c !! key with
        | Some _ => c
        | None =>
          with_queue (cc_queue c ++ [key])
            (with_m (<[key := mk_counter (ce_n e) (ce_expires e) 0]> (cc_m c))
               (with_dirty (<[key := mk_dirty (ce_pending e) (ce_expires e) false]> (cc_dirty c)) c))
        end
      end
  end.

Definition Flush_spawn (c : CounterCache) : nat :=
  Z.to_nat (Z.min maxFlushWorkers (Z.of_nat (length (cc_queue c))) - cc_workers c).

Definition Flush_begin (order : list gostring) (now : Z) (c : CounterCache) : nat * CounterCache :=
  let c := promote order now c in
  let spawn := Flush_spawn c in
  (spawn, with_workers (cc_workers c + Z.of_nat spawn) c).

Definition Flush_idle (c : CounterCache) : bool :=
  (match cc_queue c with [] => true | _ => false end) && (cc_workers c =? 0).

Definition Flush_left (now : Z) (c : CounterCache) : nat :=
  size (filter (fun ke => 0 < ce_pending ke.2 /\ now < ce_expires ke.2) (cc_m c)).

(** ** Drainers *)
Inductive drainer :=
| DPop                                             (* head of [drain]'s loop *)
| DFlush (key : gostring)                          (* head of [flushKey]'s loop *)
| DDelete (key : gostring)                         (* in [flushDelete]'s store call *)
| DRelease (key : gostring)                        (* before [release] *)
| DIncr (key : gostring) (delta deadline : Z)      (* in [flushIncr]'s store call *)
| DMerge (key : gostring) (delta deadline shared : Z)   (* before [flushIncr]'s merge *)
| DFailed (key : gostring) (delta deadline : Z).   (* before [preserveFailedIncr] *)

(** [drain]: take the head of the queue, or exit ([None]). *)
Definition drain_pop (c : CounterCache) : option drainer * CounterCache :=
  match cc_queue c with
  | [] => (None, with_workers (cc_workers c - 1) c)
  | key :: rest => (Some (DFlush key), with_queue rest c)
  end.

(** One turn of [flushKey]'s loop up to its next unlock: where the drainer
    goes, whether it starts another one, and the state. *)
Definition flushKey_turn (key : gostring) (now : Z) (c : CounterCache) : drainer * bool * CounterCache :=
  match cc_dirty c !! key with
  | None => (DPop, false, c)
  | Some d =>
    if de_del d then
      (DDelete key, false, with_dirty (<[key := mk_dirty (de_delta d) (de_deadline d) false]> (cc_dirty c)) c)
    else if de_delta d =? 0 then
      let '(spawn, c) := releaseLocked key c in (DPop, spawn, c)
    else
      let c' := with_dirty (<[key := mk_dirty 0 (de_deadline d) false]> (cc_dirty c)) c in
      if negb (de_deadline d =? 0) && (de_deadline d <=? now) then (DFlush key, false, c')
      else (DIncr key (de_delta d) (de_deadline d), false, c')
  end.
End Cache.

(** ** The system: request threads, drainers, the shared store

    [s_now] is the latest clock reading; [s_tally] is a ghost: for the last
    window a key was counted in (its deadline), the events counted there, those
    the store applied, and those the store refused because by its own clock the
    window was over.  It outlives the entry: only a new window or a Forget
    clears it.  An event the full map leaves to the sketch is not in it. *)
Record tally := mk_tally { t_window : Z; t_bumps : Z; t_acked : Z; t_refused : Z }.

Record sys := mk_sys {
  s_cache : CounterCache;
  s_drainers : list drainer;
  s_now : Z;
  s_store : amap;
  s_store_now : Z;
  s_tally : gmap gostring tally
}.

Definition started (spawn : bool) : list drainer := if spawn then [DPop] else [].

Definition bumped (t : tally) : tally := mk_tally (t_window t) (t_bumps t + 1) (t_acked t) (t_refused t).

(** An [Incr] at [now] took the cache from [c] to [c']. *)
Definition tally_incr (c c' : CounterCache) (key : gostring) (now : Z) (g : gmap gostring tally) : gmap gostring tally :=
  match cc_m c' !! key with
  | None => g
  | Some e' =>
    let fresh := <[key := mk_tally (ce_expires e') 1 0 0]> g in
    match cc_m c !! key, g !! key with
    | Some e, Some t => if ce_expires e <=? now then fresh else <[key := bumped t]> g
    | _, _ => fresh
    end
  end.

(** The round's outcome at the store. *)
Definition rounded (applied : bool) (n : Z) (t : tally) : tally :=
  if applied then mk_tally (t_window t) (t_bumps t) (t_acked t + n) (t_refused t)
  else mk_tally (t_window t) (t_bumps t) (t_acked t) (t_refused t + n).

(** A round is credited to the window it was pushed for, unless a Forget has
    overtaken it. *)
Definition tally_round (c : CounterCache) (key : gostring) (delta deadline : Z) (applied : bool)
  (g : gmap gostring tally) : gmap gostring tally :=
  match cc_m c !! key, cc_dirty c !! key, g !! key with
  | Some e, Some d, Some t =>
    if (ce_expires e =? deadline) && negb (de_del d) then
      <[key := rounded applied delta t]> g
    else g
  | _, _, _ => g
  end.

Section System.
Variable hash : nat -> gostring -> Z.

Inductive step : sys -> sys -> Prop :=
| step_incr c ds t st stn g key ttl now sweep t' n spawn c' :
    (* [now] is read before the lock, so it may be older than [t] *)
    0 <= now -> now + Z.max ttl minCounterWindow <= int64_max -> now <= t' -> t <= sweep <= t' ->
    Incr hash key ttl now sweep c = (n, spawn, c') ->
    step (mk_sys c ds t st stn g)
         (mk_sys c' (ds ++ started spawn) t' st stn (tally_incr c c' key now g))
| step_forget c ds t st stn g key spawn c' :
    Forget key c = (spawn, c') ->
    step (mk_sys c ds t st stn g) (mk_sys c' (ds ++ started spawn) t st stn (delete key g))
| step_pop c l1 l2 t st stn g key c' :
    drain_pop c = (Some (DFlush key), c') ->
    step (mk_sys c (l1 ++ DPop :: l2) t st stn g) (mk_sys c' (l1 ++ DFlush key :: l2) t st stn g)
| step_exit c l1 l2 t st stn g c' :
    drain_pop c = (None, c') ->
    step (mk_sys c (l1 ++ DPop :: l2) t st stn g) (mk_sys c' (l1 ++ l2) t st stn g)
| step_turn c l1 l2 t st stn g key now d spawn c' :
    t <= now -> flushKey_turn key now c = (d, spawn, c') ->
    step (mk_sys c (l1 ++ DFlush key :: l2) t st stn g)
         (mk_sys c' (l1 ++ d :: l2 ++ started spawn) now st stn g)
| step_delete c l1 l2 t st stn stn' g key r st' :
    contract_step stn stn' (ODelete key) st r st' ->
    step (mk_sys c (l1 ++ DDelete key :: l2) t st stn g)
         (mk_sys c (l1 ++ (if is_ok r then DFlush key else DRelease key) :: l2) t st' stn' g)
| step_release c l1 l2 t st stn g key spawn c' :
    releaseLocked key c = (spawn, c') ->
    step (mk_sys c (l1 ++ DRelease key :: l2) t st stn g)
         (mk_sys c' (l1 ++ DPop :: l2 ++ started spawn) t st stn g)
| step_push c l1 l2 t st stn stn' g key delta deadline shared applied st' :
    contract_step stn stn' (OIncr key delta deadline) st (Ok (shared, applied)) st' ->
    step (mk_sys c (l1 ++ DIncr key delta deadline :: l2) t st stn g)
         (mk_sys c (l1 ++ (if applied : bool then DMerge key delta deadline shared else DFlush key) :: l2)
            t st' stn' (tally_round c key delta deadline applied g))
| step_push_failed c l1 l2 t st stn stn' g key delta deadline e st' :
    contract_step stn stn' (OIncr key delta deadline) st (Err e) st' ->
    step (mk_sys c (l1 ++ DIncr key delta deadline :: l2) t st stn g)
         (mk_sys c (l1 ++ DFailed key delta deadline :: l2) t st' stn' g)
| step_merge c l1 l2 t st stn g key delta deadline shared now :
    t <= now ->
    step (mk_sys c (l1 ++ DMerge key delta deadline shared :: l2) t st stn g)
         (mk_sys (flushIncr_merge key deadline shared now c) (l1 ++ DFlush key :: l2) now st stn g)
| step_preserve c l1 l2 t st stn g key delta deadline spawn c' :
    preserveFailedIncr key delta deadline c = (spawn, c') ->
    step (mk_sys c (l1 ++ DFailed key delta deadline :: l2) t st stn g)
         (mk_sys c' (l1 ++ DPop :: l2 ++ started spawn) t st stn g)
| step_flush c ds t st stn g order now spawn c' :
    t <= now -> Flush_begin order now c = (spawn, c') ->
    step (mk_sys c ds t st stn g) (mk_sys c' (ds ++ replicate spawn DPop) now st stn g)
| step_env c ds t st stn g st' stn' :
    env_run (fun _ => True) stn st stn' st' ->
    step (mk_sys c ds t st stn g) (mk_sys c ds t st' stn' g).

Definition initial (s : sys) : Prop :=
  s_cache s = NewCounterCache /\ s_drainers s = [] /\ s_tally s = ∅.

Definition reachable (s : sys) : Prop := exists s0, initial s0 /\ rtc step s0 s.
End System.

(** ** Ownership *)
Definition owned (d : drainer) : option gostring :=
  match d with
  | DPop => None
  | DFlush k | DDelete k | DRelease k | DIncr k _ _ | DMerge k _ _ _ | DFailed k _ _ => Some k
  end.

Definition owners (ds : list drainer) : list gostring := omap owned ds.

(** Every dirty key is waiting in the queue or owned by one drainer, never
    both and never twice; the worker count is the number of live drainers; a
    waiting key has a drainer to come for it; the map stays within its bound. *)
Record ownership (c : CounterCache) (ds : list drainer) : Prop := {
  ow_nodup : NoDup (cc_queue c ++ owners ds);
  ow_dirty : forall k, is_Some (cc_dirty c !! k) <-> k ∈ cc_queue c ++ owners ds;
  ow_workers : cc_workers c = Z.of_nat (length ds);
  ow_cap : cc_workers c <= maxFlushWorkers;
  ow_served : cc_queue c <> [] -> ds <> [];
  ow_size : Z.of_nat (size (cc_m c)) <= maxCounterEntries
}.

Lemma owners_app l1 l2 : owners (l1 ++ l2) = owners l1 ++ owners l2.
Proof. apply omap_app. Qed.

Lemma owners_started b : owners (started b) = [].
Proof. by destruct b. Qed.

(** Changing the map, the sketch or the clock leaves ownership alone. *)
Lemma ownership_m m (c : CounterCache) ds : Z.of_nat (size m) <= maxCounterEntries ->
  ownership c ds -> ownership (with_m m c) ds.
Proof. intros Hm []. by constructor. Qed.

Lemma ownership_dirty_update (k : gostring) (d : dirtyEntry) (c : CounterCache) ds : is_Some (cc_dirty c !! k) ->
  ownership c ds -> ownership (with_dirty (<[k := d]> (cc_dirty c)) c) ds.
Proof.
  intros Hk []. constructor; simpl; try done. intros k'. rewrite <- ow_dirty0.
  destruct (decide (k = k')) as [<- |]; [rewrite lookup_insert_eq | by rewrite lookup_insert_ne].
  split; [done | by intros; eexists].
Qed.

(** Queueing a key nobody holds, and starting a drainer if one is allowed. *)
Lemma ownership_enqueue (k : gostring) (c c' : CounterCache) ds ds' spawn :
  NoDup (cc_queue c ++ owners ds') -> (k ∉ cc_queue c ++ owners ds') ->
  (forall k', is_Some (cc_dirty c !! k') <-> k' = k \/ k' ∈ cc_queue c ++ owners ds') ->
  cc_workers c = Z.of_nat (length ds') -> cc_workers c <= maxFlushWorkers ->
  Z.of_nat (size (cc_m c)) <= maxCounterEntries ->
  enqueue k c = (spawn, c') -> ds = ds' ++ started spawn -> ownership c' ds.
Proof.
  intros Hnd Hk Hd Hw Hcap Hsz He ->. unfold enqueue in He. cbn [cc_workers with_queue] in He.
  assert (Hnd' : NoDup ((cc_queue c ++ [k]) ++ owners ds')).
  { rewrite <- app_assoc. apply NoDup_app in Hnd as (H1 & H2 & H3).
    apply not_elem_of_app in Hk as [Hk1 Hk2]. apply NoDup_app. split_ands; [done | |].
    - intros x Hx [-> | Hin]%elem_of_cons; [done | by apply (H2 x)].
    - simpl. by constructor. }
  assert (Hd' : forall k', is_Some (cc_dirty c !! k') <-> k' ∈ (cc_queue c ++ [k]) ++ owners ds').
  { intros k'. rewrite Hd, !elem_of_app, list_elem_of_singleton. tauto. }
  destruct (cc_workers c <? maxFlushWorkers) eqn:E; simplify_eq; bool_to_prop.
  - constructor; simpl; rewrite ?owners_app, ?owners_started, ?app_nil_r; try done.
    + rewrite length_app. simpl. lia.
    + lia.
    + by destruct ds'.
  - constructor; simpl; rewrite ?app_nil_r; try done.
    intros _ ->. unfold maxFlushWorkers in *. simpl in Hw. lia.
Qed.

Lemma owners_mid l1 d l2 :
  owners (l1 ++ d :: l2) = owners l1 ++ (match owned d with Some k => [k] | None => [] end) ++ owners l2.
Proof. rewrite owners_app. unfold owners at 2. cbn [omap list_omap]. by destruct (owned d). Qed.

Lemma ownership_ds (c : CounterCache) ds ds' : owners ds ≡ₚ owners ds' -> length ds = length ds' ->
  ownership c ds -> ownership c ds'.
Proof.
  intros Hp Hl []. constructor; try done.
  - by rewrite <- Hp.
  - intros k. rewrite ow_dirty0. by rewrite Hp.
  - by rewrite <- Hl.
  - intros Hq ->. apply nil_length_inv in Hl. by apply ow_served0.
Qed.

Lemma ownership_replace (c : CounterCache) l1 d d' l2 : owned d = owned d' ->
  ownership c (l1 ++ d :: l2) -> ownership c (l1 ++ d' :: l2).
Proof.
  intros Hd. apply ownership_ds; [by rewrite !owners_mid, Hd | by rewrite !length_app].
Qed.

Lemma ownership_mark (key : gostring) deadline del (c c' : CounterCache) ds spawn :
  (del = false -> is_Some (cc_m c !! key)) -> ownership c ds ->
  markDirtyLocked key deadline del c = (spawn, c') -> ownership c' (ds ++ started spawn).
Proof.
  intros Hm Ho. unfold markDirtyLocked. destruct (cc_dirty c !! key) as [d|] eqn:Hd.
  - intros [= <- <-]. simpl. rewrite app_nil_r. apply ownership_dirty_update; [by rewrite Hd | done].
  - destruct (_ <=? _); [intros [= <- <-]; simpl; by rewrite app_nil_r |].
    destruct Ho. assert (Hk : key ∉ cc_queue c ++ owners ds).
    { intros Hin. apply ow_dirty0 in Hin. rewrite Hd in Hin. by destruct Hin. }
    assert (Hin : forall x k', is_Some ((<[key := x]> (cc_dirty c) : gmap gostring dirtyEntry) !! k') <->
                               k' = key \/ k' ∈ cc_queue c ++ owners ds).
    { intros x k'. rewrite <- ow_dirty0. destruct (decide (key = k')) as [<- | Hne].
      - rewrite lookup_insert_eq. split; [by left | by eexists].
      - rewrite lookup_insert_ne by done. split; [by right | by intros [-> | H]]. }
    destruct del; intros He.
    + by refine ((fun H1 H2 H3 H4 H5 H6 => ownership_enqueue key _ c' _ ds spawn H1 H2 H3 H4 H5 H6 He eq_refl)
        _ _ (Hin _) _ _ _).
    + refine ((fun H1 H2 H3 H4 H5 H6 => ownership_enqueue key _ c' _ ds spawn H1 H2 H3 H4 H5 H6 He eq_refl)
        _ _ (Hin _) _ _ _); try done.
      simpl. destruct (Hm eq_refl) as [e Hke]. rewrite map_size_insert, Hke. done.
Qed.

(** An owner that lets go of its key. *)
Lemma ownership_release (key : gostring) (c c' : CounterCache) l1 d l2 spawn : owned d = Some key ->
  ownership c (l1 ++ d :: l2) -> releaseLocked key c = (spawn, c') ->
  ownership c' (l1 ++ DPop :: l2 ++ started spawn).
Proof.
  intros Hd Ho Hr. unfold releaseLocked in Hr.
  assert (Hperm : cc_queue c ++ owners (l1 ++ d :: l2) ≡ₚ key :: cc_queue c ++ owners (l1 ++ DPop :: l2)).
  { rewrite !owners_mid, Hd. simpl. rewrite <- !Permutation_middle. done. }
  destruct Ho. rewrite Hperm in ow_nodup0. apply NoDup_cons in ow_nodup0 as [Hk Hnd].
  assert (Hdirty : forall k', is_Some (cc_dirty c !! k') <-> k' = key \/ k' ∈ cc_queue c ++ owners (l1 ++ DPop :: l2)).
  { intros k'. rewrite ow_dirty0, Hperm, elem_of_cons. done. }
  assert (Hlen : length (l1 ++ DPop :: l2) = length (l1 ++ d :: l2)) by (rewrite !length_app; done).
  assert (is_Some (cc_dirty c !! key)) as [de Hde] by (apply Hdirty; by left).
  rewrite Hde in Hr. destruct (_ && _) eqn:E.
  - injection Hr as <- <-. simpl. rewrite app_nil_r. constructor; simpl; rewrite ?Hlen; try done.
    + intros k'. destruct (decide (key = k')) as [<- | Hne].
      * rewrite lookup_delete_eq. split; [by intros [? ?] | done].
      * rewrite lookup_delete_ne, Hdirty by done. split; [by intros [-> | H] | by right].
    + intros _ H. by apply (app_cons_not_nil l1 l2 DPop).
  - refine (ownership_enqueue key c c' _ (l1 ++ DPop :: l2) spawn _ _ _ _ _ _ Hr _);
      [done | done | done | by rewrite Hlen | done | done | by rewrite <- app_assoc].
Qed.

(** An owner that drops its key with its dirty entry. *)
Lemma ownership_drop (key : gostring) m (c : CounterCache) l1 d l2 : owned d = Some key ->
  Z.of_nat (size m) <= maxCounterEntries ->
  ownership c (l1 ++ d :: l2) ->
  ownership (with_dirty (delete key (cc_dirty c)) (with_m m c)) (l1 ++ DPop :: l2).
Proof.
  intros Hd Hm Ho.
  assert (Hrel : releaseLocked key (with_dirty (<[key := mk_dirty 0 0 false]> (cc_dirty c)) (with_m m c)) =
    (false, with_dirty (delete key (cc_dirty c)) (with_m m c))).
  { unfold releaseLocked. simpl. rewrite lookup_insert_eq. simpl. unfold with_dirty. simpl. by rewrite delete_insert_eq. }
  apply (ownership_release _ _ _ l1 d l2 false Hd) in Hrel; [simpl in Hrel; by rewrite app_nil_r in Hrel |].
  change (cc_dirty c) with (cc_dirty (with_m m c)).
  apply ownership_dirty_update; [| by apply ownership_m]. simpl.
  apply (ow_dirty c _ Ho), elem_of_app. right. rewrite owners_mid, Hd, !elem_of_app. right; left. by left.
Qed.

Section OwnershipSteps.
Variable hash : nat -> gostring -> Z.

Lemma size_insert_le (m : gmap gostring counterEntry) (k : gostring) (e : counterEntry) :
  is_Some (m !! k) -> size (<[k := e]> m) = size m.
Proof. intros [x Hx]. by rewrite map_size_insert, Hx. Qed.

(** Counting an event on an entry the map has room for. *)
Lemma ownership_count key n expires pending deadline (c c' : CounterCache) ds spawn :
  Z.of_nat (size (<[key := mk_counter n expires pending]> (cc_m c))) <= maxCounterEntries ->
  ownership c ds ->
  markDirtyLocked key deadline false (with_m (<[key := mk_counter n expires pending]> (cc_m c)) c) = (spawn, c') ->
  ownership c' (ds ++ started spawn).
Proof.
  intros Hs Ho Hm. eapply ownership_mark; [| | exact Hm].
  - intros _. simpl. by rewrite lookup_insert_eq.
  - by apply ownership_m.
Qed.

Lemma room_size now (c c' : CounterCache) room : Z.of_nat (size (cc_m c)) <= maxCounterEntries ->
  makeCounterRoomLocked now c = (room, c') ->
  cc_dirty c' = cc_dirty c /\ cc_queue c' = cc_queue c /\ cc_workers c' = cc_workers c /\
  Z.of_nat (size (cc_m c')) <= maxCounterEntries /\
  (room = true -> Z.of_nat (size (cc_m c')) < maxCounterEntries).
Proof.
  intros Hs. unfold makeCounterRoomLocked.
  destruct (_ <? maxCounterEntries) eqn:E; [intros [= <- <-]; bool_to_prop; split_ands; try done; lia |].
  destruct (now <? _); [by intros [= <- <-] |]. intros [= <- <-]. cbn [with_m cc_dirty cc_queue cc_workers cc_m].
  split_ands; try done; [| by intros ?%Z.ltb_lt].
  pose proof (map_subseteq_size _ _ (map_filter_subseteq (fun ke : gostring * counterEntry =>
    reclaimable (with_sweep (now + second) c) now ke.1 ke.2 = false) (cc_m c))). simpl. lia.
Qed.

Lemma ownership_same (c c' : CounterCache) ds :
  cc_dirty c' = cc_dirty c -> cc_queue c' = cc_queue c -> cc_workers c' = cc_workers c ->
  Z.of_nat (size (cc_m c')) <= maxCounterEntries -> ownership c ds -> ownership c' ds.
Proof. intros H1 H2 H3 H4 []. by constructor; rewrite ?H1, ?H2, ?H3. Qed.

Lemma ownership_Incr key ttl now sweep n spawn (c c' : CounterCache) ds :
  ownership c ds -> Incr hash key ttl now sweep c = (n, spawn, c') -> ownership c' (ds ++ started spawn).
Proof.
  intros Ho. unfold Incr. cbv zeta. pose proof (ow_size _ _ Ho) as Hs.
  destruct (cc_m c !! key) as [e|] eqn:He.
  - destruct (ce_expires e <=? now).
    + match goal with |- (let '(_, _) := ?x in _) = _ -> _ => destruct x as [b c''] eqn:Em end.
      intros [= <- <- <-].
      change (cc_dirty (with_m (delete key (cc_m c)) c)) with (cc_dirty c) in Em.
      change (cc_m (with_m (delete key (cc_m c)) c)) with (delete key (cc_m c)) in Em.
      rewrite insert_delete_eq in Em. eapply (ownership_count key _ _ _ _ c); [| exact Ho | exact Em].
      rewrite size_insert_le by done. done.
    + match goal with |- (let '(_, _) := ?x in _) = _ -> _ => destruct x as [b c''] eqn:Em end.
      intros [= <- <- <-]. eapply ownership_count; [| exact Ho | exact Em]. by rewrite size_insert_le.
  - destruct (makeCounterRoomLocked sweep c) as [room c1] eqn:Er.
    destruct (room_size _ _ _ _ Hs Er) as (H1 & H2 & H3 & H4 & H5).
    assert (Ho1 : ownership c1 ds) by (by eapply ownership_same).
    destruct room.
    + match goal with |- (let '(_, _) := ?x in _) = _ -> _ => destruct x as [b c''] eqn:Em end.
      intros [= <- <- <-]. eapply ownership_count; [| exact Ho1 | exact Em].
      rewrite map_size_insert. specialize (H5 eq_refl). destruct (cc_m c1 !! key); simpl; lia.
    + destruct (incrOverflowLocked hash key now _ c1) as [n' c2] eqn:Eo. intros [= <- <- <-].
      unfold incrOverflowLocked in Eo. destruct (incr_rows _ _ _ _ _ _ _). simplify_eq/=.
      rewrite app_nil_r. by eapply ownership_same; [.. | exact Ho1].
Qed.

Lemma ownership_Forget key spawn (c c' : CounterCache) ds :
  ownership c ds -> Forget key c = (spawn, c') -> ownership c' (ds ++ started spawn).
Proof.
  intros Ho Hf. refine (ownership_mark key 0 true _ c' ds spawn _ _ Hf); [done |]. apply ownership_m; [| done].
  pose proof (ow_size _ _ Ho). rewrite map_size_delete. destruct (cc_m c !! key); simpl; lia.
Qed.

Lemma ownership_pop key (c c' : CounterCache) l1 l2 :
  ownership c (l1 ++ DPop :: l2) -> drain_pop c = (Some (DFlush key), c') -> ownership c' (l1 ++ DFlush key :: l2).
Proof.
  intros Ho. unfold drain_pop. destruct (cc_queue c) as [|k rest] eqn:Hq; [done |]. intros [= -> <-].
  assert (Hp : rest ++ owners (l1 ++ DFlush key :: l2) ≡ₚ cc_queue c ++ owners (l1 ++ DPop :: l2)).
  { rewrite Hq, !owners_mid. simpl. rewrite <- !Permutation_middle. done. }
  destruct Ho. constructor; simpl; try done.
  - by rewrite Hp.
  - intros k'. by rewrite Hp.
  - rewrite ow_workers0. by rewrite !length_app.
  - intros _ H. by apply (app_cons_not_nil l1 l2 (DFlush key)).
Qed.

Lemma ownership_exit (c c' : CounterCache) l1 l2 :
  ownership c (l1 ++ DPop :: l2) -> drain_pop c = (None, c') -> ownership c' (l1 ++ l2).
Proof.
  intros Ho. unfold drain_pop. destruct (cc_queue c) as [|k rest] eqn:Hq; [| done]. intros [= <-].
  assert (Hp : owners (l1 ++ l2) = owners (l1 ++ DPop :: l2)) by (rewrite owners_mid, owners_app; done).
  destruct Ho. constructor; simpl; rewrite ?Hp; try done.
  - rewrite ow_workers0, !length_app. simpl. lia.
  - lia.
Qed.

Lemma ownership_turn key now d spawn (c c' : CounterCache) l1 l2 :
  ownership c (l1 ++ DFlush key :: l2) -> flushKey_turn key now c = (d, spawn, c') ->
  ownership c' (l1 ++ d :: l2 ++ started spawn).
Proof.
  intros Ho. unfold flushKey_turn.
  assert (Hin : is_Some (cc_dirty c !! key)).
  { apply (ow_dirty _ _ Ho). rewrite owners_mid, !elem_of_app. right; right; left. by left. }
  destruct Hin as [de Hde]. rewrite Hde.
  assert (Hup : forall x d', owned d' = Some key ->
    ownership (with_dirty (<[key := x]> (cc_dirty c)) c) (l1 ++ d' :: l2 ++ [])).
  { intros x d' Hd'. rewrite app_nil_r. apply (ownership_replace _ _ (DFlush key)); [done |].
    by apply ownership_dirty_update. }
  destruct (de_del de); [intros [= <- <- <-]; by apply Hup |].
  destruct (de_delta de =? 0).
  - destruct (releaseLocked key c) as [b c1] eqn:Er. intros [= <- <- <-]. by eapply (ownership_release key c _ _ (DFlush key)).
  - destruct (_ && _); intros [= <- <- <-]; by apply Hup.
Qed.

Lemma ownership_preserve key delta deadline spawn (c c' : CounterCache) l1 l2 :
  ownership c (l1 ++ DFailed key delta deadline :: l2) -> preserveFailedIncr key delta deadline c = (spawn, c') ->
  ownership c' (l1 ++ DPop :: l2 ++ started spawn).
Proof.
  intros Ho. unfold preserveFailedIncr.
  assert (Hin : is_Some (cc_dirty c !! key)).
  { apply (ow_dirty _ _ Ho). rewrite owners_mid, !elem_of_app. right; right; left. by left. }
  destruct Hin as [de Hde]. rewrite Hde. destruct (de_del de); [intros Hr; by eapply (ownership_release key c _ _ (DFailed key delta deadline)) |].
  pose proof (ow_size _ _ Ho) as Hs. intros [= <- <-]. cbn [started]. rewrite app_nil_r.
  destruct (cc_m c !! key) as [e|] eqn:He.
  - refine (ownership_drop key _ c l1 (DFailed key delta deadline) l2 eq_refl _ Ho). by rewrite size_insert_le.
  - pose proof (ownership_drop key (cc_m c) c l1 (DFailed key delta deadline) l2 eq_refl Hs Ho) as H.
    by destruct c.
Qed.

Lemma ownership_merge key deadline shared now (c : CounterCache) ds :
  ownership c ds -> ownership (flushIncr_merge key deadline shared now c) ds.
Proof.
  intros Ho. unfold flushIncr_merge. destruct (cc_m c !! key) eqn:He; [| done]. case_match; [| done].
  apply ownership_m; [| done]. rewrite size_insert_le by done. by apply (ow_size _ _ Ho).
Qed.

(** Promotion queues keys nobody holds and changes no entry count. *)
Lemma promote_spec order now : forall (c : CounterCache) ds,
  NoDup (cc_queue c ++ owners ds) -> (forall k, is_Some (cc_dirty c !! k) <-> k ∈ cc_queue c ++ owners ds) ->
  let c' := promote order now c in
  NoDup (cc_queue c' ++ owners ds) /\ (forall k, is_Some (cc_dirty c' !! k) <-> k ∈ cc_queue c' ++ owners ds) /\
  cc_workers c' = cc_workers c /\ size (cc_m c') = size (cc_m c).
Proof.
  induction order as [| key order IH]; intros c ds Hnd Hd; simpl; [done |].
  destruct (cc_m c !! key) as [e|] eqn:He; [| by apply IH].
  destruct (_ || _); [by apply IH |]. destruct (cc_dirty c !! key) as [d|] eqn:Hde; [by apply IH |].
  assert (Hk : key ∉ cc_queue c ++ owners ds) by (intros Hin; apply Hd in Hin; rewrite Hde in Hin; by destruct Hin).
  match goal with |- context [promote order now ?c1] => destruct (IH c1 ds) as (H1 & H2 & H3 & H4) end; simpl.
  - rewrite <- app_assoc. simpl. rewrite <- Permutation_middle. by constructor.
  - intros k. destruct (decide (key = k)) as [<- | Hne].
    + rewrite lookup_insert_eq, !elem_of_app, list_elem_of_singleton. split; [by intros; left; right | by eexists].
    + rewrite lookup_insert_ne by done. rewrite Hd, !elem_of_app, list_elem_of_singleton.
      split; [tauto | intros [[? | ->] | ?]; tauto].
  - split_ands; [done | done | done |]. rewrite H4. simpl. by apply size_insert_le.
Qed.

Lemma owners_replicate n : owners (replicate n DPop) = [].
Proof. by induction n. Qed.

Lemma ownership_Flush order now spawn (c c' : CounterCache) ds :
  ownership c ds -> Flush_begin order now c = (spawn, c') -> ownership c' (ds ++ replicate spawn DPop).
Proof.
  intros Ho [= <- <-]. destruct Ho. destruct (promote_spec order now c ds) as (H1 & H2 & H3 & H4); [done.. |].
  set (c1 := promote order now c) in *. unfold Flush_spawn, maxFlushWorkers in *.
  constructor; simpl; rewrite ?owners_app, ?owners_replicate, ?app_nil_r, ?H4; try done.
  - rewrite length_app, length_replicate, H3, ow_workers0. lia.
  - unfold maxFlushWorkers. rewrite H3. lia.
  - intros Hq Hnil. apply app_eq_nil in Hnil as [-> Hr]. simpl in ow_workers0.
    apply (f_equal length) in Hr. rewrite length_replicate, H3, ow_workers0 in Hr.
    destruct (cc_queue c1); [done |]. simpl in Hr. lia.
Qed.

Lemma ownership_step s s' : step hash s s' -> ownership (s_cache s) (s_drainers s) -> ownership (s_cache s') (s_drainers s').
Proof.
  destruct 1; cbn [s_cache s_drainers]; intros Ho.
  - by eapply ownership_Incr.
  - by eapply ownership_Forget.
  - by eapply ownership_pop.
  - by eapply ownership_exit.
  - by eapply ownership_turn.
  - eapply ownership_replace; [| exact Ho]. by destruct (is_ok r).
  - by eapply (ownership_release _ _ _ _ (DRelease key)).
  - eapply ownership_replace; [| exact Ho]. by destruct applied.
  - by eapply ownership_replace; [| exact Ho].
  - by apply ownership_merge, (ownership_replace _ _ (DMerge key delta deadline shared)).
  - by eapply ownership_preserve.
  - by eapply ownership_Flush.
  - done.
Qed.

Lemma ownership_reachable s : reachable hash s -> ownership (s_cache s) (s_drainers s).
Proof.
  intros (s0 & (Hc & Hd & _) & Hr).
  apply (rtc_invariant (step hash) (fun s => ownership (s_cache s) (s_drainers s))) with (x := s0);
    [intros x y; apply ownership_step | done |].
  rewrite Hc, Hd. constructor; simpl; try done; [apply NoDup_nil_2 |].
  - intros k. rewrite lookup_empty. split; [by intros [] | by intros ?%not_elem_of_nil].
Qed.
End OwnershipSteps.

(** ** The ledger: no counted event is lost *)

(** The rounds in flight for a key: (delta, window). *)
Definition claim (k : gostring) (d : drainer) : option (Z * Z) :=
  match d with
  | DIncr k' n w | DFailed k' n w => if decide (k' = k) then Some (n, w) else None
  | _ => None
  end.
Definition claims (k : gostring) (ds : list drainer) : list (Z * Z) := omap (claim k) ds.

Fixpoint inflight (window : Z) (cl : list (Z * Z)) : Z :=
  match cl with
  | [] => 0
  | (n, w) :: rest => (if w =? window then n else 0) + inflight window rest
  end.

(** The events of the entry's window that are still to reach the store. *)
Definition unpushed (e : counterEntry) (de : option dirtyEntry) (cl : list (Z * Z)) : Z :=
  ce_pending e +
  match de with
  | None => 0
  | Some d => (if de_deadline d =? ce_expires e then de_delta d else 0) +
              (if de_del d then 0 else inflight (ce_expires e) cl)
  end.

Record key_ok (me : option counterEntry) (de : option dirtyEntry) (cl : list (Z * Z)) (now : Z)
  (tg : option tally) : Prop := {
  ko_entry : forall e, me = Some e -> 0 <= ce_pending e /\ exists t, tg = Some t /\
    0 <= t_bumps t <= ce_n e /\
    (now < ce_expires e -> t_bumps t = t_acked t + t_refused t + unpushed e de cl);
  ko_dirty : forall d, de = Some d -> 0 <= de_delta d /\
    (0 < de_delta d -> exists e, me = Some e /\ de_deadline d <= ce_expires e);
  ko_claims : forall n w, (n, w) ∈ cl -> 0 < n /\ exists d, de = Some d /\
    (de_del d = false -> exists e, me = Some e /\ w <= ce_expires e)
}.

Lemma inflight_zero window cl : (forall n w, (n, w) ∈ cl -> w <> window) -> inflight window cl = 0.
Proof.
  induction cl as [| [n w] cl IH]; simpl; intros H; [done |].
  rewrite (proj2 (Z.eqb_neq _ _)) by (apply (H n); left). rewrite IH; [done |]. intros n' w' Hin. apply (H n'). by right.
Qed.

Lemma inflight_app window l1 l2 : inflight window (l1 ++ l2) = inflight window l1 + inflight window l2.
Proof. induction l1 as [| [n w] l1 IH]; simpl; [done | rewrite IH; lia]. Qed.

(** Time passing, and replacing the drainers by others with the same rounds. *)
Lemma key_ok_time me de cl now now' tg : now <= now' -> key_ok me de cl now tg -> key_ok me de cl now' tg.
Proof.
  intros Hn []. constructor; [| done | done]. intros e He. destruct (ko_entry0 e He) as (Hp & t & Ht & Hb & Heq).
  split; [done |]. exists t. split_ands; try done; try lia.
Qed.

(** A window opening over an absent or expired entry starts from nothing. *)
Lemma key_ok_fresh me de cl now now' tg window :
  key_ok me de cl now tg -> (forall e, me = Some e -> ce_expires e < window) ->
  key_ok (Some (mk_counter 0 window 0)) de cl now' (Some (mk_tally window 0 0 0)).
Proof.
  intros [] Hw. constructor.
  - intros e [= <-]. simpl. split; [done |]. eexists; split; [done |]. simpl. split; [lia |]. intros _.
    unfold unpushed. simpl. destruct de as [d|] eqn:Hd; [| done]. destruct (ko_dirty0 d eq_refl) as [H0 H1].
    assert ((if de_deadline d =? window then de_delta d else 0) = 0) as ->.
    { destruct (de_deadline d =? window) eqn:E; bool_to_prop; [| done].
      destruct (decide (0 < de_delta d)) as [Hpos |]; [| lia].
      destruct (H1 Hpos) as (e & He & Hle). specialize (Hw e He). lia. }
    destruct (de_del d) eqn:Hdel; [done |]. rewrite inflight_zero; [done |].
    intros n w Hin ->. destruct (ko_claims0 n window Hin) as (_ & d' & [= <-] & Hex).
    destruct (Hex Hdel) as (e & He & Hle). specialize (Hw e He). lia.
  - intros d Hd. destruct (ko_dirty0 d Hd) as [H0 H1]. split; [done |]. intros Hpos.
    destruct (H1 Hpos) as (e & He & Hle). eexists; split; [done |]. simpl. specialize (Hw e He). lia.
  - intros n w Hin. destruct (ko_claims0 n w Hin) as (Hn & d & Hd & Hex). split; [done |]. exists d. split; [done |].
    intros Hdel. destruct (Hex Hdel) as (e & He & Hle). eexists; split; [done |]. simpl. specialize (Hw e He). lia.
Qed.


(** Counting an event on a dirty key: it goes into the dirty entry. *)
Lemma key_ok_bump_dirty n w p d cl now t : key_ok (Some (mk_counter n w p)) (Some d) cl now (Some t) ->
  key_ok (Some (mk_counter (n + 1) w p)) (Some (foldOpLocked d w false)) cl now (Some (bumped t)).
Proof.
  intros []. destruct (ko_entry0 _ eq_refl) as (Hp & t' & [= <-] & Hb & Heq).
  destruct (ko_dirty0 _ eq_refl) as [H0 H1]. simpl in *. constructor.
  - intros e [= <-]. simpl. split; [done |]. eexists; split; [done |]. simpl. split; [lia |]. intros Hn.
    specialize (Heq Hn). unfold unpushed, foldOpLocked in *. simpl in *.
    destruct (de_deadline d =? w) eqn:E; simpl; [rewrite E | rewrite Z.eqb_refl]; lia.
  - intros d' [= <-]. unfold foldOpLocked. destruct (de_deadline d =? w) eqn:E; simpl; bool_to_prop;
      (split; [lia |]); intros _; eexists; (split; [done |]); simpl; lia.
  - intros m x Hin. destruct (ko_claims0 m x Hin) as (Hm & d' & [= <-] & Hex). split; [done |].
    eexists; split; [done |]. unfold foldOpLocked.
    assert (de_del (if negb (de_deadline d =? w) then mk_dirty 1 w (de_del d)
      else mk_dirty (de_delta d + 1) (de_deadline d) (de_del d)) = de_del d) as -> by (by case_match).
    intros Hdel. destruct (Hex Hdel) as (e & [= <-] & Hle). by eexists.
Qed.

(** ... on a clean key whose work finds no slot: it waits in the entry ... *)
Lemma key_ok_bump_parked n w p now t : key_ok (Some (mk_counter n w p)) None [] now (Some t) ->
  key_ok (Some (mk_counter (n + 1) w (p + 1))) None [] now (Some (bumped t)).
Proof.
  intros []. destruct (ko_entry0 _ eq_refl) as (Hp & t' & [= <-] & Hb & Heq). simpl in *.
  constructor; [| done | by intros ? ? ?%not_elem_of_nil].
  intros e [= <-]. simpl. split; [lia |]. eexists; split; [done |]. simpl. split; [lia |]. intros Hn.
  specialize (Heq Hn). unfold unpushed in *. simpl in *. lia.
Qed.

(** ... or is queued with everything waiting there. *)
Lemma key_ok_queue n w p now t : key_ok (Some (mk_counter n w p)) None [] now (Some t) ->
  key_ok (Some (mk_counter n w 0)) (Some (mk_dirty p w false)) [] now (Some t).
Proof.
  intros []. destruct (ko_entry0 _ eq_refl) as (Hp & t' & [= <-] & Hb & Heq). simpl in *.
  constructor; [| | by intros ? ? ?%not_elem_of_nil].
  - intros e [= <-]. simpl. split; [done |]. eexists; split; [done |]. simpl. split; [lia |]. intros Hn.
    specialize (Heq Hn). unfold unpushed in *. simpl in *. rewrite Z.eqb_refl. lia.
  - intros d [= <-]. simpl. split; [done |]. intros _. eexists; split; [done |]. simpl. lia.
Qed.

(** A Forget drops the window and marks the rest superseded. *)
Lemma key_ok_forget me d cl now tg tg' : key_ok me (Some d) cl now tg ->
  key_ok None (Some (foldOpLocked d 0 true)) cl now tg'.
Proof.
  intros []. constructor; [done | |].
  - intros d' [= <-]. simpl. split; [lia |]. lia.
  - intros n w Hin. destruct (ko_claims0 n w Hin) as (Hn & d' & _). split; [done |]. eexists; split; [done |]. done.
Qed.

Lemma key_ok_gone de now tg : key_ok None None [] now tg /\
  (forall w, de = Some (mk_dirty 0 w true) -> key_ok None de [] now tg).
Proof.
  split; [constructor; try done; by intros ? ? ?%not_elem_of_nil |].
  intros w ->. constructor; [done | | by intros ? ? ?%not_elem_of_nil]. intros d [= <-]. simpl. split; lia.
Qed.

(** [flushKey]: the delete is taken up. *)
Lemma key_ok_take_delete me d now tg : de_del d = true -> key_ok me (Some d) [] now tg ->
  key_ok me (Some (mk_dirty (de_delta d) (de_deadline d) false)) [] now tg.
Proof.
  intros Hdel []. constructor; [| | by intros ? ? ?%not_elem_of_nil].
  - intros e He. destruct (ko_entry0 e He) as (Hp & t & Ht & Hb & Heq). split; [done |]. exists t. split_ands; try done; try lia.
    intros Hn. rewrite (Heq Hn). unfold unpushed. by rewrite Hdel.
  - intros d' [= <-]. by apply (ko_dirty0 d).
Qed.

(** A key with nothing left is released. *)
Lemma key_ok_release me d now tg : de_delta d = 0 -> key_ok me (Some d) [] now tg -> key_ok me None [] now tg.
Proof.
  intros Hz []. constructor; [| done | by intros ? ? ?%not_elem_of_nil].
  intros e He. destruct (ko_entry0 e He) as (Hp & t & Ht & Hb & Heq). split; [done |]. exists t. split_ands; try done; try lia.
  intros Hn. rewrite (Heq Hn). unfold unpushed. simpl. rewrite Hz. repeat case_match; lia.
Qed.

(** A delta whose window is over is dropped. *)
Lemma key_ok_drop me d now now' tg : now <= now' -> de_deadline d <= now' -> key_ok me (Some d) [] now tg ->
  key_ok me (Some (mk_dirty 0 (de_deadline d) false)) [] now' tg.
Proof.
  intros Hn Hd []. constructor; [| | by intros ? ? ?%not_elem_of_nil].
  - intros e He. destruct (ko_entry0 e He) as (Hp & t & Ht & Hb & Heq). split; [done |]. exists t. split_ands; try done; try lia.
    intros Hlive. rewrite Heq by lia. unfold unpushed. simpl.
    rewrite (proj2 (Z.eqb_neq _ _)) by lia. by destruct (de_del d).
  - intros d' [= <-]. simpl. split; lia.
Qed.

(** A delta is claimed by its owner. *)
Lemma key_ok_claim me d now now' tg : now <= now' -> de_del d = false -> de_delta d <> 0 ->
  key_ok me (Some d) [] now tg ->
  key_ok me (Some (mk_dirty 0 (de_deadline d) false)) [(de_delta d, de_deadline d)] now' tg.
Proof.
  intros Hn Hdel Hd []. destruct (ko_dirty0 d eq_refl) as [H0 H1]. constructor.
  - intros e He. destruct (ko_entry0 e He) as (Hp & t & Ht & Hb & Heq). split; [done |]. exists t. split_ands; try done; try lia.
    intros Hlive. rewrite Heq by lia. unfold unpushed. simpl. rewrite Hdel. case_match; lia.
  - intros d' [= <-]. simpl. split; lia.
  - intros n w Hin. apply list_elem_of_singleton in Hin as [= -> ->]. split; [lia |].
    eexists; split; [done |]. intros _. apply H1. lia.
Qed.


Lemma key_ok_round applied me d n w now t : key_ok me (Some d) [(n, w)] now (Some t) ->
  key_ok me (Some d) [] now
    (Some (match me with
           | Some e => if (ce_expires e =? w) && negb (de_del d) then rounded applied n t else t
           | None => t
           end)).
Proof.
  intros []. constructor; [| done | by intros ? ? ?%not_elem_of_nil].
  intros e He. destruct (ko_entry0 e He) as (Hp & t' & [= <-] & Hb & Heq). rewrite He. split; [done |].
  eexists; split; [done |]. unfold unpushed in *. simpl in *. rewrite (Z.eqb_sym w) in Heq.
  destruct (ce_expires e =? w) eqn:E, (de_del d) eqn:Hd; simpl; unfold rounded; (split; [by destruct applied |]);
    intros Hn; specialize (Heq Hn); try destruct applied; simpl; lia.
Qed.

(** The merge only raises the local total. *)
Lemma key_ok_merge e de cl now now' tg shared : now <= now' -> ce_n e <= shared ->
  key_ok (Some e) de cl now tg -> key_ok (Some (mk_counter shared (ce_expires e) (ce_pending e))) de cl now' tg.
Proof.
  intros Hn Hs Hk. apply (key_ok_time _ _ _ _ now') in Hk; [| done]. destruct Hk. constructor.
  - intros e' [= <-]. destruct (ko_entry0 e eq_refl) as (Hp & t & Ht & Hb & Heq). simpl. split; [done |].
    exists t. split_ands; try done; try lia.
  - intros d Hd. destruct (ko_dirty0 d Hd) as [H0 H1]. split; [done |]. intros Hpos.
    destruct (H1 Hpos) as (e' & [= <-] & Hle). by eexists.
  - intros n w Hin. destruct (ko_claims0 n w Hin) as (Hpos & d & Hd & Hex). split; [done |]. exists d. split; [done |].
    intros Hdel. destruct (Hex Hdel) as (e' & [= <-] & Hle). by eexists.
Qed.

(** A failed round goes back to the entry it came from. *)
Definition preserved (e : counterEntry) (d : dirtyEntry) (n w : Z) : counterEntry :=
  let p := if ce_expires e =? w then ce_pending e + n else ce_pending e in
  let p := if (0 <? de_delta d) && (ce_expires e =? de_deadline d) then p + de_delta d else p in
  mk_counter (ce_n e) (ce_expires e) p.

Lemma key_ok_preserve me d n w now tg : de_del d = false -> key_ok me (Some d) [(n, w)] now tg ->
  key_ok ((fun e => preserved e d n w) <$> me) None [] now tg.
Proof.
  intros Hdel []. constructor; [| done | by intros ? ? ?%not_elem_of_nil].
  destruct (ko_dirty0 d eq_refl) as [H0 _]. destruct (ko_claims0 n w) as [H1 _]; [by left |].
  intros e' He'. destruct me as [e|]; [| done]. injection He' as <-.
  destruct (ko_entry0 e eq_refl) as (Hp & t & Ht & Hb & Heq). unfold preserved. simpl. split.
  - repeat case_match; lia.
  - exists t. split_ands; try done; try lia. intros Hn. rewrite (Heq Hn). unfold unpushed. simpl.
    rewrite Hdel, (Z.eqb_sym w), (Z.eqb_sym (de_deadline d)).
    destruct (0 <? de_delta d) eqn:E; bool_to_prop; simpl; repeat case_match; lia.
Qed.

Lemma key_ok_superseded me d n w now tg : de_del d = true -> key_ok me (Some d) [(n, w)] now tg ->
  key_ok me (Some d) [] now tg.
Proof.
  intros Hdel []. constructor; [| done | by intros ? ? ?%not_elem_of_nil].
  intros e He. destruct (ko_entry0 e He) as (Hp & t & Ht & Hb & Heq). split; [done |]. exists t. split_ands; try done; try lia.
  intros Hn. rewrite (Heq Hn). unfold unpushed. by rewrite Hdel.
Qed.

(** ** What each critical section does to its key and to the others *)
Definition ledger (s : sys) : Prop :=
  forall k, key_ok (cc_m (s_cache s) !! k) (cc_dirty (s_cache s) !! k) (claims k (s_drainers s)) (s_now s) (s_tally s !! k).

Lemma claims_app k l1 l2 : claims k (l1 ++ l2) = claims k l1 ++ claims k l2.
Proof. apply omap_app. Qed.

Lemma claims_cons k d l : claims k (d :: l) = match claim k d with Some x => [x] | None => [] end ++ claims k l.
Proof. unfold claims. cbn [omap list_omap]. by destruct (claim k d). Qed.

Lemma claims_nil k ds : k ∉ owners ds -> claims k ds = [].
Proof.
  induction ds as [| d ds IH]; intros Hk; [done |]. rewrite claims_cons.
  unfold owners in Hk. cbn [omap list_omap] in Hk. destruct (owned d) as [k'|] eqn:Ho.
  - apply not_elem_of_cons in Hk as [Hne Hk]. rewrite (IH Hk).
    destruct d; simpl in *; simplify_eq; rewrite ?decide_False by done; done.
  - rewrite (IH Hk). by destruct d.
Qed.

Lemma claims_started k b : claims k (started b) = [].
Proof. by destruct b. Qed.

(** The owner of a key is the only one with rounds for it. *)
Lemma claims_owner key (c : CounterCache) l1 d l2 : ownership c (l1 ++ d :: l2) -> owned d = Some key ->
  claims key l1 = [] /\ claims key l2 = [] /\ key ∉ cc_queue c.
Proof.
  intros Ho Hd. destruct Ho. rewrite owners_mid, Hd in ow_nodup0. apply NoDup_app in ow_nodup0 as (H1 & H2 & H3).
  apply NoDup_app in H3 as (H4 & H5 & H6). apply NoDup_app in H6 as (H7 & H8 & H9). split_ands.
  - apply claims_nil. intros Hin. apply (H5 key Hin). by left.
  - apply claims_nil. intros Hin. apply (H8 key); [by left | done].
  - intros Hin. apply (H2 key Hin). rewrite !elem_of_app. right; left. by left.
Qed.

Lemma claims_clean key (c : CounterCache) ds : ownership c ds -> cc_dirty c !! key = None -> claims key ds = [].
Proof.
  intros Ho Hd. apply claims_nil. intros Hin. pose proof (ow_dirty _ _ Ho key) as H. rewrite Hd, elem_of_app in H.
  destruct H as [_ H]. destruct H; [by right | done].
Qed.

Lemma claim_other k key d : owned d = Some key -> k <> key -> claim k d = None.
Proof. destruct d; simpl; intros; simplify_eq; rewrite ?decide_False by done; done. Qed.

(** A step that concerns one key: the others see at most time passing. *)
Lemma ledger_frame key (c c' : CounterCache) ds ds' now now' (g g' : gmap gostring tally) st stn st' stn' :
  now <= now' ->
  (forall k, k <> key -> cc_m c' !! k = cc_m c !! k /\ cc_dirty c' !! k = cc_dirty c !! k /\ claims k ds' = claims k ds /\
    g' !! k = g !! k) ->
  key_ok (cc_m c' !! key) (cc_dirty c' !! key) (claims key ds') now' (g' !! key) ->
  ledger (mk_sys c ds now st stn g) -> ledger (mk_sys c' ds' now' st' stn' g').
Proof.
  intros Hn Hf Hk Hl k. simpl. destruct (decide (k = key)) as [-> | Hne]; [done |].
  destruct (Hf k Hne) as (-> & -> & -> & ->). apply (key_ok_time _ _ _ now); [done | apply Hl].
Qed.

Lemma enqueue_lookup key (c c' : CounterCache) spawn : enqueue key c = (spawn, c') ->
  cc_m c' = cc_m c /\ cc_dirty c' = cc_dirty c.
Proof. unfold enqueue. case_match; intros [= <- <-]; done. Qed.

(** [markDirtyLocked] on a key with an up-to-date entry. *)
Lemma mark_lookup key deadline del (c c' : CounterCache) spawn : markDirtyLocked key deadline del c = (spawn, c') ->
  (forall k, k <> key -> cc_m c' !! k = cc_m c !! k /\ cc_dirty c' !! k = cc_dirty c !! k) /\
  match cc_dirty c !! key with
  | Some d => cc_m c' !! key = cc_m c !! key /\ cc_dirty c' !! key = Some (foldOpLocked d deadline del)
  | None =>
    (cc_m c' !! key = cc_m c !! key /\ cc_dirty c' !! key = None) \/
    if del then cc_m c' !! key = cc_m c !! key /\ cc_dirty c' !! key = Some (mk_dirty 0 deadline true)
    else let e := entry_at c key in
         cc_m c' !! key = Some (mk_counter (ce_n e) (ce_expires e) 0) /\
         cc_dirty c' !! key = Some (mk_dirty (ce_pending e) deadline false)
  end.
Proof.
  unfold markDirtyLocked. destruct (cc_dirty c !! key) as [d|] eqn:Hd.
  - intros [= <- <-]. simpl. rewrite lookup_insert_eq. split; [| done]. intros k Hk. by rewrite lookup_insert_ne.
  - destruct (_ <=? _); [intros [= <- <-]; split; [done |]; by left |].
    destruct del; intros He; apply enqueue_lookup in He as [-> ->]; simpl; rewrite !lookup_insert_eq;
      (split; [| by right]); intros k Hk; by rewrite ?lookup_insert_ne.
Qed.

(** The entry an event is counted in keeps its window. *)
Lemma count_entry key n w p (c c' : CounterCache) spawn :
  markDirtyLocked key w false (with_m (<[key := mk_counter n w p]> (cc_m c)) c) = (spawn, c') ->
  (forall k, k <> key -> cc_m c' !! k = cc_m c !! k) /\ exists e, cc_m c' !! key = Some e /\ ce_expires e = w.
Proof.
  intros Hm. apply mark_lookup in Hm as [Hoth Hkey]. cbn [cc_m with_m cc_dirty] in Hoth, Hkey. split.
  - intros k Hne. destruct (Hoth k Hne) as [-> _]. by rewrite lookup_insert_ne.
  - unfold entry_at in Hkey. cbn [cc_m with_m] in Hkey. rewrite lookup_insert_eq in Hkey.
    destruct (cc_dirty c !! key); [destruct Hkey as [-> _]; by eexists |]. by destruct Hkey as [[-> _] | [-> _]]; eexists.
Qed.

Lemma release_lookup key (c c' : CounterCache) spawn d : cc_dirty c !! key = Some d ->
  releaseLocked key c = (spawn, c') ->
  cc_m c' = cc_m c /\ (forall k, k <> key -> cc_dirty c' !! k = cc_dirty c !! k) /\
  (cc_dirty c' !! key = Some d \/ cc_dirty c' !! key = None /\ de_delta d = 0).
Proof.
  intros Hd. unfold releaseLocked. rewrite Hd. destruct (_ && _) eqn:E.
  - intros [= <- <-]. simpl. split_ands; [done | |].
    + intros k Hk. by rewrite lookup_delete_ne.
    + right. rewrite lookup_delete_eq. bool_to_prop. done.
  - intros He. apply enqueue_lookup in He as [-> ->]. split_ands; try done. by left.
Qed.

Section LedgerSteps.
Variable hash : nat -> gostring -> Z.

(** The sweep only evicts entries with nothing left to push. *)
Lemma ledger_room sweep (c c' : CounterCache) room ds now st stn g : ownership c ds ->
  makeCounterRoomLocked sweep c = (room, c') -> ledger (mk_sys c ds now st stn g) ->
  ledger (mk_sys c' ds now st stn g).
Proof.
  intros Ho. unfold makeCounterRoomLocked. case_match; [by intros [= _ <-] |]. case_match; [by intros [= _ <-] |].
  intros [= _ <-] Hl k. simpl. specialize (Hl k). simpl in Hl.
  rewrite map_lookup_filter. destruct (cc_m c !! k) as [e|] eqn:He; simpl; [| done].
  case_guard as Hr; simpl; [done |].
  apply not_false_iff_true in Hr. unfold reclaimable in Hr. simpl in Hr.
  destruct (cc_dirty c !! k) as [d|] eqn:Hd; [by rewrite andb_false_r in Hr |].
  rewrite (claims_clean k c ds) by done. apply (key_ok_gone None).
Qed.

Lemma room_lookup sweep (c c' : CounterCache) room key : makeCounterRoomLocked sweep c = (room, c') ->
  cc_m c !! key = None -> cc_m c' !! key = None /\ cc_dirty c' = cc_dirty c.
Proof.
  unfold makeCounterRoomLocked. case_match; [by intros [= _ <-] |]. case_match; [by intros [= _ <-] |].
  intros [= _ <-] Hn. simpl. split; [| done]. by rewrite map_lookup_filter, Hn.
Qed.

(** The counting tail of [Incr], from an entry the ledger holds for. *)
Lemma ledger_count key n w p t (c c1 c' : CounterCache) ds now now' st stn g spawn :
  now <= now' -> ownership c ds ->
  (forall k, k <> key -> cc_m c1 !! k = cc_m c !! k) -> cc_dirty c1 = cc_dirty c ->
  key_ok (Some (mk_counter n w p)) (cc_dirty c !! key) (claims key ds) now' (Some t) ->
  markDirtyLocked key w false
    (with_m (<[key := mk_counter (n + 1) w (match cc_dirty c1 !! key with Some _ => p | None => p + 1 end)]> (cc_m c1)) c1)
    = (spawn, c') ->
  ledger (mk_sys c ds now st stn g) ->
  ledger (mk_sys c' (ds ++ started spawn) now' st stn (<[key := bumped t]> g)).
Proof.
  intros Hn Ho Hm1 Hd1 Hk Hmark. apply mark_lookup in Hmark as [Hoth Hkey]. simpl in Hoth, Hkey.
  rewrite Hd1 in Hkey, Hoth. unfold entry_at in Hkey. simpl in Hkey. rewrite lookup_insert_eq in Hkey. simpl in Hkey.
  apply (ledger_frame key); [done | |].
  - intros k Hne. destruct (Hoth k Hne) as [-> ->]. rewrite !lookup_insert_ne by done. rewrite Hm1 by done.
    by rewrite claims_app, claims_started, app_nil_r.
  - rewrite claims_app, claims_started, app_nil_r, lookup_insert_eq. destruct (cc_dirty c !! key) as [d|] eqn:Hd.
    + destruct Hkey as [-> ->]. by apply key_ok_bump_dirty.
    + rewrite (claims_clean key c ds) in * by done. apply key_ok_bump_parked in Hk.
      destruct Hkey as [[-> ->] | [-> ->]]; [done |]. by apply key_ok_queue.
Qed.

Lemma ledger_Incr key ttl now sweep n spawn (c c' : CounterCache) ds t t' st stn g :
  0 <= now -> now + Z.max ttl minCounterWindow <= int64_max -> t <= t' ->
  ownership c ds -> Incr hash key ttl now sweep c = (n, spawn, c') ->
  ledger (mk_sys c ds t st stn g) ->
  ledger (mk_sys c' (ds ++ started spawn) t' st stn (tally_incr c c' key now g)).
Proof.
  intros Hnow Hmax Ht Ho. unfold Incr, tally_incr. cbv zeta.
  assert (Httl : exists ttl', (if ttl <=? 0 then minCounterWindow else ttl) = ttl' /\ 0 < ttl' /\ now + ttl' <= int64_max).
  { eexists. split; [done |]. assert (0 < minCounterWindow) by done. case_match; bool_to_prop; lia. }
  destruct Httl as (ttl' & -> & Hpos & Hle).
  assert (wrap64 (now + ttl') = now + ttl') as -> by
    (apply wrap64_id; unfold int64_ok, int64_min, int64_max in *; lia).
  intros HI Hl. pose proof (Hl key) as Hk. simpl in Hk. destruct (cc_m c !! key) as [e|] eqn:He.
  - destruct (ko_entry _ _ _ _ _ Hk e eq_refl) as (_ & tl & Htl & _). rewrite Htl.
    destruct (ce_expires e <=? now) eqn:Hexp; bool_to_prop; cbn [ce_n ce_expires ce_pending] in HI;
      match type of HI with (let '(_, _) := ?x in _) = _ => destruct x as [b c''] eqn:Em end; simplify_eq;
      destruct (count_entry _ _ _ _ _ _ _ Em) as (_ & e' & -> & Hw).
    + rewrite Hw. apply (ledger_count key 0 (now + ttl') 0 (mk_tally (now + ttl') 0 0 0) c (with_m (delete key (cc_m c)) c) _ _ t); try done.
      * intros k Hne. simpl. by rewrite lookup_delete_ne.
      * eapply key_ok_fresh; [exact Hk |]. intros e0 [= <-]. lia.
    + apply (ledger_count key (ce_n e) (ce_expires e) (ce_pending e) tl c c _ _ t); try done.
      rewrite Htl in Hk. destruct e. by apply (key_ok_time _ _ _ t).
  - destruct (makeCounterRoomLocked sweep c) as [room c1] eqn:Er.
    apply (ledger_room _ _ _ _ ds t st stn g Ho) in Er as Hl1; [| done].
    destruct (room_lookup _ _ _ _ key Er He) as [Hn1 Hd1].
    assert (Ho1 : ownership c1 ds).
    { destruct (room_size _ _ _ _ (ow_size _ _ Ho) Er) as (H1 & H2 & H3 & H4 & H5). by eapply ownership_same. }
    destruct room.
    + cbn [ce_n ce_expires ce_pending] in HI.
      match type of HI with (let '(_, _) := ?x in _) = _ => destruct x as [b c''] eqn:Em end; simplify_eq.
      destruct (count_entry _ _ _ _ _ _ _ Em) as (_ & e' & -> & ->).
      apply (ledger_count key 0 (now + ttl') 0 (mk_tally (now + ttl') 0 0 0) c1 c1 _ _ t); try done.
      eapply key_ok_fresh; [apply (Hl1 key) |]. simpl. rewrite Hn1. by intros ?.
    + destruct (incrOverflowLocked hash key now _ c1) as [n' c2] eqn:Eo. simplify_eq.
      unfold incrOverflowLocked in Eo. destruct (incr_rows _ _ _ _ _ _ _). simplify_eq/=. rewrite app_nil_r, Hn1.
      intros k. apply (key_ok_time _ _ _ t); [done |]. apply (Hl1 k).
Qed.

Lemma ledger_Forget key spawn (c c' : CounterCache) ds t st stn g : ownership c ds ->
  Forget key c = (spawn, c') -> ledger (mk_sys c ds t st stn g) ->
  ledger (mk_sys c' (ds ++ started spawn) t st stn (delete key g)).
Proof.
  intros Ho Hf Hl. apply mark_lookup in Hf as [Hoth Hkey]. simpl in Hoth, Hkey. rewrite lookup_delete_eq in Hkey.
  pose proof (Hl key) as Hk. simpl in Hk.
  apply (ledger_frame key c _ ds _ t t g _ st stn); [done | | | done].
  - intros k Hne. destruct (Hoth k Hne) as [-> ->]. rewrite !lookup_delete_ne by done.
    by rewrite claims_app, claims_started, app_nil_r.
  - rewrite claims_app, claims_started, app_nil_r. destruct (cc_dirty c !! key) as [d|] eqn:Hd.
    + destruct Hkey as [-> ->]. by eapply key_ok_forget.
    + rewrite (claims_clean key c ds) by done.
      destruct Hkey as [[-> ->] | [-> ->]]; [apply (key_ok_gone None) | by eapply key_ok_gone].
Qed.

(** A drainer step that only moves the drainer. *)
Lemma ledger_move (c : CounterCache) l1 l2 d d' t t' st stn st' stn' g : t <= t' ->
  (forall k, claim k d = claim k d') -> ledger (mk_sys c (l1 ++ d :: l2) t st stn g) ->
  ledger (mk_sys c (l1 ++ d' :: l2) t' st' stn' g).
Proof.
  intros Ht Hc Hl k. specialize (Hl k). simpl in *. rewrite !claims_app, !claims_cons, <- Hc in *.
  by apply (key_ok_time _ _ _ t).
Qed.

Lemma ledger_pop key (c c' : CounterCache) l1 l2 t st stn g : drain_pop c = (Some (DFlush key), c') ->
  ledger (mk_sys c (l1 ++ DPop :: l2) t st stn g) -> ledger (mk_sys c' (l1 ++ DFlush key :: l2) t st stn g).
Proof.
  unfold drain_pop. destruct (cc_queue c); [done |]. intros [= -> <-] Hl.
  by apply (ledger_move c l1 l2 DPop (DFlush key) t t st stn st stn g) in Hl.
Qed.

Lemma ledger_exit (c c' : CounterCache) l1 l2 t st stn g : drain_pop c = (None, c') ->
  ledger (mk_sys c (l1 ++ DPop :: l2) t st stn g) -> ledger (mk_sys c' (l1 ++ l2) t st stn g).
Proof.
  unfold drain_pop. destruct (cc_queue c); [| done]. intros [= <-] Hl k. specialize (Hl k). simpl in *.
  by rewrite !claims_app, claims_cons in *.
Qed.

(** An owner's step on its key. *)
Lemma ledger_owner key (c c' : CounterCache) l1 d l2 d' spawn t t' st stn st' stn' (g g' : gmap gostring tally) :
  t <= t' -> ownership c (l1 ++ d :: l2) -> owned d = Some key -> (owned d' = Some key \/ d' = DPop) ->
  (forall k, k <> key -> cc_m c' !! k = cc_m c !! k /\ cc_dirty c' !! k = cc_dirty c !! k /\ g' !! k = g !! k) ->
  key_ok (cc_m c' !! key) (cc_dirty c' !! key) (match claim key d' with Some x => [x] | None => [] end) t' (g' !! key) ->
  ledger (mk_sys c (l1 ++ d :: l2) t st stn g) ->
  ledger (mk_sys c' (l1 ++ d' :: l2 ++ started spawn) t' st' stn' g').
Proof.
  intros Ht Ho Hd Hd' Hoth Hk. destruct (claims_owner key c l1 d l2 Ho Hd) as (H1 & H2 & _).
  apply (ledger_frame key); [done | |].
  - intros k Hne. destruct (Hoth k Hne) as (-> & -> & ->).
    rewrite !claims_app, !claims_cons, claims_app, claims_started, app_nil_r, (claim_other k key d) by done.
    assert (claim k d' = None) as -> by (destruct Hd' as [Hd' | ->]; [by eapply claim_other | done]). done.
  - rewrite !claims_app, claims_cons, claims_app, claims_started, H1, H2, !app_nil_r. done.
Qed.

Lemma ledger_at_owner key (c : CounterCache) l1 d l2 t st stn g : ownership c (l1 ++ d :: l2) -> owned d = Some key ->
  ledger (mk_sys c (l1 ++ d :: l2) t st stn g) ->
  is_Some (cc_dirty c !! key) /\
  key_ok (cc_m c !! key) (cc_dirty c !! key) (match claim key d with Some x => [x] | None => [] end) t (g !! key).
Proof.
  intros Ho Hd Hl. destruct (claims_owner key c l1 d l2 Ho Hd) as (H1 & H2 & _). split.
  - apply (ow_dirty _ _ Ho), elem_of_app. right. rewrite owners_mid, Hd, !elem_of_app. right; left. by left.
  - specialize (Hl key). simpl in Hl. by rewrite claims_app, claims_cons, H1, H2, app_nil_r in Hl.
Qed.
End LedgerSteps.

Section LedgerDrain.
Variable hash : nat -> gostring -> Z.

Lemma ledger_turn key now d spawn (c c' : CounterCache) l1 l2 t st stn g : t <= now ->
  ownership c (l1 ++ DFlush key :: l2) -> flushKey_turn key now c = (d, spawn, c') ->
  ledger (mk_sys c (l1 ++ DFlush key :: l2) t st stn g) ->
  ledger (mk_sys c' (l1 ++ d :: l2 ++ started spawn) now st stn g).
Proof.
  intros Ht Ho Hturn Hl. destruct (ledger_at_owner key _ _ _ _ _ _ _ _ Ho eq_refl Hl) as [[de Hde] Hk].
  unfold flushKey_turn in Hturn. rewrite Hde in Hturn. rewrite Hde in Hk. cbn [claim] in Hk.
  assert (Hup : forall x d', owned d' = Some key \/ d' = DPop ->
    key_ok (cc_m c !! key) (Some x) (match claim key d' with Some y => [y] | None => [] end) now (g !! key) ->
    ledger (mk_sys (with_dirty (<[key := x]> (cc_dirty c)) c) (l1 ++ d' :: l2 ++ started false) now st stn g)).
  { intros x d' Hd' Hx. eapply (ledger_owner key c _ _ (DFlush key)); [exact Ht | done | done | done | | | exact Hl].
    - intros k Hne. simpl. by rewrite lookup_insert_ne.
    - simpl. by rewrite lookup_insert_eq. }
  destruct (de_del de) eqn:Hdel.
  { simplify_eq. apply Hup; [by left |]. apply (key_ok_time _ _ _ t); [done |]. by apply key_ok_take_delete. }
  destruct (de_delta de =? 0) eqn:Hz; bool_to_prop.
  - destruct (releaseLocked key c) as [b c1] eqn:Er. simplify_eq.
    destruct (release_lookup _ _ _ _ _ Hde Er) as (Hm & Hoth & Hkey).
    eapply (ledger_owner key c _ _ (DFlush key)); [exact Ht | done | done | by right | | | exact Hl].
    + intros k Hne. by rewrite Hm, Hoth.
    + rewrite Hm. cbn [claim]. apply (key_ok_time _ _ _ t); [done |].
      destruct Hkey as [-> | [-> _]]; [done |]. by eapply key_ok_release.
  - destruct (negb (de_deadline de =? 0) && (de_deadline de <=? now)) eqn:He; simplify_eq; apply Hup; try (by left).
    + bool_to_prop. cbn [claim]. by apply (key_ok_drop _ _ t).
    + cbn [claim]. rewrite decide_True by done. by apply (key_ok_claim _ _ t).
Qed.

Lemma ledger_release key spawn (c c' : CounterCache) l1 l2 t st stn g : ownership c (l1 ++ DRelease key :: l2) ->
  releaseLocked key c = (spawn, c') -> ledger (mk_sys c (l1 ++ DRelease key :: l2) t st stn g) ->
  ledger (mk_sys c' (l1 ++ DPop :: l2 ++ started spawn) t st stn g).
Proof.
  intros Ho Er Hl. destruct (ledger_at_owner key _ _ _ _ _ _ _ _ Ho eq_refl Hl) as [[de Hde] Hk].
  rewrite Hde in Hk. cbn [claim] in Hk. destruct (release_lookup _ _ _ _ _ Hde Er) as (Hm & Hoth & Hkey).
  eapply (ledger_owner key c _ _ (DRelease key)); [done | done | done | by right | | | exact Hl].
  - intros k Hne. by rewrite Hm, Hoth.
  - rewrite Hm. cbn [claim]. destruct Hkey as [-> | [-> Hz]]; [done |]. by eapply key_ok_release.
Qed.

Lemma ledger_round key delta deadline (applied : bool) d' (c : CounterCache) l1 l2 t st stn st' stn' g :
  ownership c (l1 ++ DIncr key delta deadline :: l2) -> owned d' = Some key -> claim key d' = None ->
  ledger (mk_sys c (l1 ++ DIncr key delta deadline :: l2) t st stn g) ->
  ledger (mk_sys c (l1 ++ d' :: l2) t st' stn' (tally_round c key delta deadline applied g)).
Proof.
  intros Ho Hd' Hcl Hl. destruct (ledger_at_owner key _ _ _ _ _ _ _ _ Ho eq_refl Hl) as [[de Hde] Hk].
  rewrite Hde in Hk. cbn [claim] in Hk. rewrite decide_True in Hk by done.
  assert (Hg : forall k, k <> key -> tally_round c key delta deadline applied g !! k = g !! k).
  { intros k Hne. unfold tally_round. repeat case_match; try done; by rewrite lookup_insert_ne. }
  rewrite <- (app_nil_r l2). change (@nil drainer) with (started false).
  eapply (ledger_owner key c _ _ (DIncr key delta deadline)); [done | done | done | by left | | | exact Hl].
  - intros k Hne. by rewrite Hg.
  - rewrite Hcl, Hde. destruct (g !! key) as [tl|] eqn:Hgk.
    + assert (tally_round c key delta deadline applied g !! key = Some (match cc_m c !! key with
        | Some e => if (ce_expires e =? deadline) && negb (de_del de) then rounded applied delta tl else tl
        | None => tl end)) as ->; [| by eapply key_ok_round].
      unfold tally_round. rewrite Hde, Hgk. destruct (cc_m c !! key); [| done].
      case_match; [| done]. by rewrite lookup_insert_eq.
    + assert (tally_round c key delta deadline applied g = g) as -> by
        (unfold tally_round; rewrite Hgk; by repeat case_match).
      rewrite Hgk. destruct (cc_m c !! key) as [e|] eqn:He.
      * destruct (ko_entry _ _ _ _ _ Hk e eq_refl) as (_ & ? & ? & _). done.
      * destruct Hk. constructor; [done | done | by intros ? ? ?%not_elem_of_nil].
Qed.

Lemma ledger_merge key delta deadline shared now (c : CounterCache) l1 l2 t st stn g : t <= now ->
  ledger (mk_sys c (l1 ++ DMerge key delta deadline shared :: l2) t st stn g) ->
  ledger (mk_sys (flushIncr_merge key deadline shared now c) (l1 ++ DFlush key :: l2) now st stn g).
Proof.
  intros Ht Hl. apply (ledger_move _ _ _ _ (DFlush key) _ now _ _ st stn) in Hl; [| done | done].
  unfold flushIncr_merge. destruct (cc_m c !! key) as [e|] eqn:He; [| done].
  destruct (_ && _) eqn:E; [| done]. bool_to_prop.
  eapply (ledger_frame key c _ _ _ now); [done | | | exact Hl].
  - intros k Hne. simpl. by rewrite lookup_insert_ne.
  - specialize (Hl key). simpl in *. rewrite lookup_insert_eq. rewrite He in Hl.
    apply (key_ok_merge _ _ _ now); [done | lia | done].
Qed.

Lemma ledger_preserve key delta deadline spawn (c c' : CounterCache) l1 l2 t st stn g :
  ownership c (l1 ++ DFailed key delta deadline :: l2) -> preserveFailedIncr key delta deadline c = (spawn, c') ->
  ledger (mk_sys c (l1 ++ DFailed key delta deadline :: l2) t st stn g) ->
  ledger (mk_sys c' (l1 ++ DPop :: l2 ++ started spawn) t st stn g).
Proof.
  intros Ho Hp Hl. destruct (ledger_at_owner key _ _ _ _ _ _ _ _ Ho eq_refl Hl) as [[de Hde] Hk].
  rewrite Hde in Hk. cbn [claim] in Hk. rewrite decide_True in Hk by done.
  unfold preserveFailedIncr in Hp. rewrite Hde in Hp. destruct (de_del de) eqn:Hdel.
  - destruct (release_lookup _ _ _ _ _ Hde Hp) as (Hm & Hoth & Hkey).
    eapply (ledger_owner key c _ _ (DFailed key delta deadline)); [done | done | done | by right | | | exact Hl].
    + intros k Hne. by rewrite Hm, Hoth.
    + rewrite Hm. cbn [claim]. apply key_ok_superseded in Hk; [| done].
      destruct Hkey as [-> | [-> Hz]]; [done |]. by eapply key_ok_release.
  - simplify_eq. eapply (ledger_owner key c _ _ (DFailed key delta deadline)); [done | done | done | by right | | | exact Hl].
    + intros k Hne. simpl. rewrite lookup_delete_ne by done. destruct (cc_m c !! key); [| done].
      simpl. by rewrite lookup_insert_ne.
    + simpl. rewrite lookup_delete_eq. apply key_ok_preserve in Hk; [| done].
      destruct (cc_m c !! key) as [e|] eqn:He; simpl in Hk |- *; [by rewrite lookup_insert_eq | by rewrite He].
Qed.

(** Promotion moves parked work into the queue. *)
Lemma ledger_promote order now : forall (c : CounterCache) ds t st stn g,
  NoDup (cc_queue c ++ owners ds) -> (forall k, is_Some (cc_dirty c !! k) <-> k ∈ cc_queue c ++ owners ds) ->
  ledger (mk_sys c ds t st stn g) -> ledger (mk_sys (promote order now c) ds t st stn g).
Proof.
  induction order as [| key order IH]; intros c ds t st stn g Hnd Hd Hl; simpl; [done |].
  destruct (cc_m c !! key) as [e|] eqn:He; [| by apply IH].
  destruct (_ || _); [by apply IH |]. destruct (cc_dirty c !! key) as [d|] eqn:Hde; [by apply IH |].
  assert (Hk : key ∉ cc_queue c ++ owners ds) by (intros Hin; apply Hd in Hin; rewrite Hde in Hin; by destruct Hin).
  apply IH; simpl.
  - rewrite <- app_assoc. simpl. rewrite <- Permutation_middle. by constructor.
  - intros k. destruct (decide (key = k)) as [<- | Hne].
    + rewrite lookup_insert_eq, !elem_of_app, list_elem_of_singleton. split; [by intros; left; right | by eexists].
    + rewrite lookup_insert_ne by done. rewrite Hd, !elem_of_app, list_elem_of_singleton.
      split; [tauto | intros [[? | ->] | ?]; tauto].
  - eapply (ledger_frame key c _ ds ds t t g g st stn); [done | | | exact Hl].
    + intros k Hne. simpl. by rewrite !lookup_insert_ne.
    + specialize (Hl key). simpl in *. rewrite !lookup_insert_eq. rewrite He, Hde in Hl.
      rewrite claims_nil in * by (apply not_elem_of_app in Hk; tauto).
      destruct (ko_entry _ _ _ _ _ Hl e eq_refl) as (_ & tl & Htl & _). rewrite Htl in *. destruct e.
      by apply key_ok_queue.
Qed.

Lemma claims_replicate k n : claims k (replicate n DPop) = [].
Proof. by induction n. Qed.

Lemma ledger_Flush order now spawn (c c' : CounterCache) ds t st stn g : t <= now -> ownership c ds ->
  Flush_begin order now c = (spawn, c') -> ledger (mk_sys c ds t st stn g) ->
  ledger (mk_sys c' (ds ++ replicate spawn DPop) now st stn g).
Proof.
  intros Ht Ho [= <- <-] Hl. destruct Ho. eapply (ledger_promote order now) in Hl; [| done | done].
  intros k. specialize (Hl k). simpl in *. rewrite claims_app, claims_replicate, app_nil_r.
  by apply (key_ok_time _ _ _ t).
Qed.

Lemma ledger_step s s' : step hash s s' -> ownership (s_cache s) (s_drainers s) -> ledger s -> ledger s'.
Proof.
  destruct 1; cbn [s_cache s_drainers]; intros Ho Hl.
  - by eapply ledger_Incr; [.. | exact Hl]; eauto; lia.
  - by eapply ledger_Forget.
  - by eapply ledger_pop.
  - by eapply ledger_exit.
  - by eapply ledger_turn.
  - eapply ledger_move; [done | | exact Hl]. intros k. by destruct (is_ok r).
  - by eapply ledger_release.
  - eapply ledger_round; [exact Ho | | | exact Hl]; by destruct applied.
  - by eapply ledger_move; [done | | exact Hl].
  - by eapply ledger_merge.
  - by eapply ledger_preserve.
  - by eapply ledger_Flush.
  - intros k. apply (Hl k).
Qed.

Lemma ledger_reachable s : reachable hash s -> ownership (s_cache s) (s_drainers s) /\ ledger s.
Proof.
  intros (s0 & (Hc & Hd & Hg) & Hr).
  assert (H0 : ownership (s_cache s0) (s_drainers s0)) by
    (apply (ownership_reachable hash); exists s0; split; [done | constructor]).
  apply (rtc_invariant (step hash) (fun s => ownership (s_cache s) (s_drainers s) /\ ledger s)) with (x := s0);
    [| done |].
  - intros x y Hs [H1 H2]. split; [by eapply ownership_step | by eapply ledger_step].
  - split; [done |]. intros k. rewrite Hc, Hd, Hg. simpl. rewrite !lookup_empty. apply (key_ok_gone None).
Qed.
End LedgerDrain.

(** ** The books: an evicted window owes nothing

    A tally and the local entry of its key are of one window; a tally whose
    entry has left the map is settled, or its window is over. *)
Definition settled (t : tally) : Prop := t_bumps t = t_acked t + t_refused t.

Definition books (c : CounterCache) (now : Z) (g : gmap gostring tally) : Prop :=
  forall k t, g !! k = Some t ->
    match cc_m c !! k with Some e => t_window t = ce_expires e | None => now < t_window t -> settled t end.

Definition same_windows (c c' : CounterCache) : Prop := forall k, ce_expires <$> cc_m c' !! k = ce_expires <$> cc_m c !! k.

Lemma same_windows_m (c c' : CounterCache) : cc_m c' = cc_m c -> same_windows c c'.
Proof. intros H k. by rewrite H. Qed.

Lemma same_windows_insert key e e' (c : CounterCache) : cc_m c !! key = Some e -> ce_expires e' = ce_expires e ->
  same_windows c (with_m (<[key := e']> (cc_m c)) c).
Proof.
  intros He Hw k. cbn [cc_m with_m]. destruct (decide (k = key)) as [-> |]; [| by rewrite lookup_insert_ne].
  rewrite lookup_insert_eq, He. cbn. by rewrite Hw.
Qed.

Lemma books_frame (c c' : CounterCache) now now' g : now <= now' -> same_windows c c' -> books c now g -> books c' now' g.
Proof.
  intros Hn Hs Hb k t Ht. specialize (Hb k t Ht). specialize (Hs k).
  destruct (cc_m c' !! k) as [e' |], (cc_m c !! k) as [e |]; cbn in Hs; simplify_eq; [congruence |].
  intros Hlive. apply Hb. lia.
Qed.

Lemma books_round (c : CounterCache) key delta deadline applied now g : books c now g ->
  books c now (tally_round c key delta deadline applied g).
Proof.
  intros Hb. unfold tally_round. destruct (cc_m c !! key) as [e |] eqn:He; [| done].
  destruct (cc_dirty c !! key); [| done]. destruct (g !! key) as [t |] eqn:Ht; [| done]. case_match; [| done].
  intros k t'. destruct (decide (k = key)) as [-> |]; [| rewrite lookup_insert_ne by done; apply Hb].
  rewrite lookup_insert_eq, He. intros [= <-]. specialize (Hb key t Ht). rewrite He in Hb. by destruct applied.
Qed.

(** The sweep evicts an entry only when nothing of its window is unpushed. *)
Lemma books_room sweep (c c' : CounterCache) room ds t t' st stn g : ownership c ds -> ledger (mk_sys c ds t st stn g) ->
  t <= t' -> sweep <= t' -> makeCounterRoomLocked sweep c = (room, c') -> books c t g -> books c' t' g.
Proof.
  intros Ho Hl Ht Hsw Hr Hb.
  assert (Hsame : forall c1, cc_m c1 = cc_m c -> books c1 t' g) by
    (intros c1 Hc; by apply (books_frame c c1 t t' g Ht (same_windows_m c c1 Hc))).
  unfold makeCounterRoomLocked in Hr. case_match; [simplify_eq; by apply Hsame |]. case_match; [simplify_eq; by apply Hsame |].
  injection Hr as _ <-. intros k tl Htl. specialize (Hb k tl Htl). specialize (Hl k). cbn [s_cache s_drainers s_now s_tally] in Hl.
  cbn [cc_m with_m with_sweep]. rewrite map_lookup_filter. destruct (cc_m c !! k) as [e |] eqn:He; cbn; [| intros ?; apply Hb; lia].
  case_guard as Hrc; cbn; [done |]. intros Hlive. apply not_false_iff_true in Hrc. unfold reclaimable in Hrc. cbn in Hrc.
  destruct (cc_dirty c !! k) as [d |] eqn:Hd; [by rewrite andb_false_r in Hrc |]. rewrite andb_true_r in Hrc.
  destruct (ko_entry _ _ _ _ _ Hl e eq_refl) as (_ & t0 & Ht0 & _ & Heq). rewrite Htl in Ht0. injection Ht0 as <-.
  assert (Hlive' : t < ce_expires e) by lia. specialize (Heq Hlive').
  rewrite (claims_clean k c ds Ho Hd) in Heq. unfold settled, unpushed in *. bool_to_prop. lia.
Qed.

Section Books.
Variable hash : nat -> gostring -> Z.

Lemma books_count key n w p (c c' : CounterCache) spawn t' g (tl : tally) :
  markDirtyLocked key w false (with_m (<[key := mk_counter n w p]> (cc_m c)) c) = (spawn, c') ->
  t_window tl = w -> (forall k t, k <> key -> g !! k = Some t -> match cc_m c !! k with Some e => t_window t = ce_expires e | None => t' < t_window t -> settled t end) ->
  books c' t' (<[key := tl]> g).
Proof.
  intros Hm Hw Hb k t. destruct (count_entry _ _ _ _ _ _ _ Hm) as (Hoth & e & He & Hexp).
  destruct (decide (k = key)) as [-> | Hne].
  - rewrite lookup_insert_eq, He. intros [= <-]. by rewrite Hexp.
  - rewrite lookup_insert_ne, Hoth by done. by apply Hb.
Qed.

Lemma books_Incr key ttl now sweep n spawn (c c' : CounterCache) ds t t' st stn g :
  t <= t' -> sweep <= t' -> ownership c ds -> ledger (mk_sys c ds t st stn g) ->
  Incr hash key ttl now sweep c = (n, spawn, c') -> books c t g -> books c' t' (tally_incr c c' key now g).
Proof.
  intros Ht Hsw Ho Hl HI Hb. unfold Incr in HI. cbv zeta in HI. unfold tally_incr.
  destruct (cc_m c !! key) as [e |] eqn:He.
  - pose proof (Hl key) as Hk. cbn in Hk. rewrite He in Hk. destruct (ko_entry _ _ _ _ _ Hk e eq_refl) as (_ & tl & Htl & _). rewrite Htl.
    assert (Hb' : books c t' g) by (by apply (books_frame c c t t' g Ht (same_windows_m c c eq_refl))).
    destruct (ce_expires e <=? now) eqn:Hexp; cbn [ce_n ce_expires ce_pending] in HI;
      match type of HI with (let '(_, _) := ?x in _) = _ => destruct x as [b c''] eqn:Em end; simplify_eq;
      destruct (count_entry _ _ _ _ _ _ _ Em) as (_ & e' & -> & Hw).
    + eapply books_count; [exact Em | done |]. intros k t0 Hne Ht0. cbn [cc_m with_m]. rewrite lookup_delete_ne by done. by apply Hb'.
    + eapply books_count; [exact Em | |]; [cbn; pose proof (Hb key tl Htl) as Hx; by rewrite He in Hx |]. intros k t0 _ Ht0. by apply Hb'.
  - destruct (makeCounterRoomLocked sweep c) as [room c1] eqn:Er.
    pose proof (books_room _ _ _ _ ds t t' st stn g Ho Hl Ht Hsw Er Hb) as Hb1. destruct (room_lookup _ _ _ _ key Er He) as [Hn1 _].
    destruct room.
    + cbn [ce_n ce_expires ce_pending] in HI.
      match type of HI with (let '(_, _) := ?x in _) = _ => destruct x as [b c''] eqn:Em end; simplify_eq.
      destruct (count_entry _ _ _ _ _ _ _ Em) as (_ & e' & -> & Hw). eapply books_count; [exact Em | done |]. intros k t0 _ Ht0. by apply Hb1.
    + destruct (incrOverflowLocked hash key now _ c1) as [n' c2] eqn:Eo. simplify_eq.
      unfold incrOverflowLocked in Eo. destruct (incr_rows _ _ _ _ _ _ _). simplify_eq. cbn [cc_m with_overflow]. by rewrite Hn1.
Qed.

Lemma books_Forget key spawn (c c' : CounterCache) now g : Forget key c = (spawn, c') -> books c now g ->
  books c' now (delete key g).
Proof.
  intros Hf Hb k t. apply mark_lookup in Hf as [Hoth _]. destruct (decide (k = key)) as [-> | Hne]; [by rewrite lookup_delete_eq |].
  rewrite lookup_delete_ne by done. destruct (Hoth k Hne) as [-> _]. cbn [cc_m with_m]. rewrite lookup_delete_ne by done. apply Hb.
Qed.

Lemma turn_m key now d spawn (c c' : CounterCache) : flushKey_turn key now c = (d, spawn, c') -> cc_m c' = cc_m c.
Proof.
  unfold flushKey_turn. destruct (cc_dirty c !! key) as [de |] eqn:Hd; [| by intros [= <- <- <-]].
  destruct (de_del de); [by intros [= <- <- <-] |]. destruct (de_delta de =? 0).
  - destruct (releaseLocked key c) as [b c1] eqn:Er. intros [= <- <- <-]. by destruct (release_lookup _ _ _ _ _ Hd Er).
  - case_match; by intros [= <- <- <-].
Qed.

Lemma release_m key spawn (c c' : CounterCache) : releaseLocked key c = (spawn, c') -> cc_m c' = cc_m c.
Proof.
  intros Hr. destruct (cc_dirty c !! key) as [d |] eqn:Hd; [by destruct (release_lookup _ _ _ _ _ Hd Hr) |].
  unfold releaseLocked in Hr. rewrite Hd in Hr. by injection Hr as _ <-.
Qed.

Lemma merge_windows key deadline shared now (c : CounterCache) : same_windows c (flushIncr_merge key deadline shared now c).
Proof.
  unfold flushIncr_merge. destruct (cc_m c !! key) as [e |] eqn:He; [| by apply same_windows_m].
  case_match; [| by apply same_windows_m]. by apply (same_windows_insert key e).
Qed.

Lemma preserve_windows key delta deadline spawn (c c' : CounterCache) : preserveFailedIncr key delta deadline c = (spawn, c') ->
  same_windows c c'.
Proof.
  unfold preserveFailedIncr. destruct (cc_dirty c !! key) as [d |]; [| intros [= <- <-]; by apply same_windows_m].
  destruct (de_del d); [intros Hr; by apply same_windows_m, (release_m _ _ _ _ Hr) |]. intros [= <- <-].
  destruct (cc_m c !! key) as [e |] eqn:He; [| by apply same_windows_m]. intros k.
  exact (same_windows_insert key e (mk_counter _ (ce_expires e) _) c He eq_refl k).
Qed.

Lemma promote_windows order now : forall (c : CounterCache), same_windows c (promote order now c).
Proof.
  induction order as [| key order IH]; intros c; [by apply same_windows_m |]. cbn [promote].
  match goal with |- same_windows c (promote order now ?c1) => assert (same_windows c c1) as H1; [| intros k; by rewrite IH, H1] end.
  destruct (cc_m c !! key) as [e |] eqn:He; [| by apply same_windows_m]. case_match; [by apply same_windows_m |].
  case_match; [by apply same_windows_m |]. intros k. exact (same_windows_insert key e (mk_counter _ (ce_expires e) _) c He eq_refl k).
Qed.

Lemma books_step s s' : step hash s s' -> ownership (s_cache s) (s_drainers s) -> ledger s ->
  books (s_cache s) (s_now s) (s_tally s) -> books (s_cache s') (s_now s') (s_tally s').
Proof.
  destruct 1; cbn [s_cache s_drainers s_now s_tally]; intros Ho Hl Hb; try done.
  - eapply books_Incr; [| | exact Ho | exact Hl | eassumption | exact Hb]; lia.
  - by eapply books_Forget.
  - apply (books_frame c c' t t g); [done | | done]. apply same_windows_m. unfold drain_pop in *. by case_match; simplify_eq.
  - apply (books_frame c c' t t g); [done | | done]. apply same_windows_m. unfold drain_pop in *. by case_match; simplify_eq.
  - apply (books_frame c c' t now g); [done | | done]. apply same_windows_m. by eapply turn_m.
  - apply (books_frame c c' t t g); [done | | done]. apply same_windows_m. by eapply release_m.
  - by apply books_round.
  - by apply (books_frame c _ t now g), Hb; [| apply merge_windows].
  - apply (books_frame c c' t t g); [done | | done]. by eapply preserve_windows.
  - apply (books_frame c c' t now g); [done | | done]. unfold Flush_begin in *. simplify_eq. intros k. apply (promote_windows order now c k).
Qed.

Lemma books_reachable s : reachable hash s -> books (s_cache s) (s_now s) (s_tally s).
Proof.
  intros (s0 & Hi & Hr).
  assert (Hinv : forall x y, step hash x y -> reachable hash x /\ books (s_cache x) (s_now x) (s_tally x) ->
    reachable hash y /\ books (s_cache y) (s_now y) (s_tally y)).
  { intros x y Hs [Hx Hb]. pose proof (ledger_reachable hash x Hx) as [Ho Hl]. split; [| by eapply books_step].
    destruct Hx as (x0 & Hi0 & Hr0). exists x0. split; [done |]. by eapply rtc_r. }
  apply (rtc_invariant (step hash) _ Hinv s0 s); [done |]. split; [exists s0; split; [done | constructor] |].
  destruct Hi as (_ & _ & ->). intros k t. by rewrite lookup_empty.
Qed.

(** An event is left to the sketch only when the map was full. *)
Lemma Incr_counted key ttl now sweep n spawn (c c' : CounterCache) : Incr hash key ttl now sweep c = (n, spawn, c') ->
  is_Some (cc_m c' !! key) \/ (cc_m c !! key = None /\ maxCounterEntries <= Z.of_nat (size (cc_m c))).
Proof.
  unfold Incr. cbv zeta. destruct (cc_m c !! key) as [e |] eqn:He.
  - case_match; match goal with |- (let '(_, _) := ?x in _) = _ -> _ => destruct x as [b c''] eqn:Em end; intros [= <- <- <-];
      destruct (count_entry _ _ _ _ _ _ _ Em) as (_ & e' & -> & _); left; by eexists.
  - destruct (makeCounterRoomLocked sweep c) as [room c1] eqn:Er. destruct room.
    + match goal with |- (let '(_, _) := ?x in _) = _ -> _ => destruct x as [b c''] eqn:Em end; intros [= <- <- <-].
      destruct (count_entry _ _ _ _ _ _ _ Em) as (_ & e' & -> & _). left. by eexists.
    + intros _. right. split; [done |]. unfold makeCounterRoomLocked in Er. case_match eqn:E; [done |]. by apply Z.ltb_ge in E.
Qed.
End Books.

(** ** The sketch against exact counts *)
Section Sketch.
Variable hash : nat -> gostring -> Z.
Variable T : Z.       (* the instant the count is asked at *)

(** One event counted in the sketch: key, clock reading, window. *)
Definition shed : Type := gostring * Z * Z.
Definition shed_ok (o : shed) : Prop := let '(_, t, ttl) := o in 0 <= t <= T /\ 0 < ttl /\ t + ttl <= int64_max.
Definition still_open (o : shed) : bool := let '(_, t, ttl) := o in T <? t + ttl.

Definition hit (i : nat) (idx : Z) (o : shed) : bool := (row_index hash i o.1.1 =? idx) && still_open o.
Definition hits (i : nat) (idx : Z) (ops : list shed) : Z := Z.of_nat (length (List.filter (hit i idx) ops)).
(** Events of the key itself whose window is open at [T]. *)
Definition events (key : gostring) (ops : list shed) : Z :=
  Z.of_nat (length (List.filter (fun o => bool_decide (o.1.1 = key) && still_open o) ops)).

Record cell_good (i : nat) (idx : Z) (ops : list shed) (c : overflowCounterCell) : Prop := {
  cg_count : Z.min int64_max (hits i idx ops) <= oc_n c;
  cg_max : 0 <= oc_n c <= int64_max;
  cg_open : forall o, In o ops -> row_index hash i o.1.1 = idx -> still_open o = true -> o.1.2 + o.2 <= oc_expires c;
  cg_exp : 0 <= oc_expires c
}.

Lemma hits_events i key ops : events key ops <= hits i (row_index hash i key) ops.
Proof.
  unfold events, hits. induction ops as [| o ops IH]; simpl; [done |]. unfold hit at 1.
  destruct (still_open o); rewrite ?andb_false_r, ?andb_true_r; [| done].
  destruct (bool_decide (o.1.1 = key)) eqn:E.
  - apply bool_decide_eq_true in E as ->. rewrite Z.eqb_refl. simpl. lia.
  - destruct (_ =? _); simpl; lia.
Qed.

Lemma hits_lapsed i idx ops c now : now <= T -> cell_good i idx ops c -> cell_lapsed c now = true -> hits i idx ops = 0.
Proof.
  intros Hn [] Hl. unfold cell_lapsed in Hl. apply orb_true_iff in Hl as [Hl | Hl]; bool_to_prop.
  - unfold int64_max in *. unfold hits in *. lia.
  - unfold hits. destruct (List.filter (hit i idx) ops) as [| o l] eqn:E; [done |].
    assert (In o ops /\ hit i idx o = true) as [Hin Ho] by (apply filter_In; rewrite E; by left).
    unfold hit in Ho. bool_to_prop. specialize (cg_open0 o Hin ltac:(done) ltac:(done)).
    destruct o as [[k t] ttl]. unfold still_open in *. simpl in *. bool_to_prop. lia.
Qed.

Lemma hits_snoc i idx ops o :
  hits i idx (ops ++ [o]) = hits i idx ops + (if hit i idx o then 1 else 0).
Proof. unfold hits. rewrite List.filter_app, length_app. simpl. case_match; simpl; lia. Qed.

Lemma events_snoc key ops t ttl : T < t + ttl -> events key (ops ++ [(key, t, ttl)]) = events key ops + 1.
Proof.
  intros H. unfold events. rewrite List.filter_app, length_app, Nat2Z.inj_add. cbn [List.filter still_open fst snd].
  by rewrite bool_decide_eq_true_2, (proj2 (Z.ltb_lt _ _)).
Qed.

(** Bumping a cell counts the event; other cells are untouched. *)
Lemma bump_good i ops c key t ttl : shed_ok (key, t, ttl) -> cell_good i (row_index hash i key) ops c ->
  cell_good i (row_index hash i key) (ops ++ [(key, t, ttl)]) (bump_cell c t ttl).
Proof.
  intros (Ht & Httl & Hmax) Hc. unfold bump_cell. rewrite (proj2 (Z.ltb_lt 0 ttl)) by done.
  rewrite wrap64_id by (unfold int64_ok, int64_min, int64_max in *; lia).
  set (c' := if cell_lapsed c t then mk_cell 0 0 else c).
  assert (Hc' : Z.min int64_max (hits i (row_index hash i key) ops) <= oc_n c' /\ 0 <= oc_n c' <= int64_max /\
    (forall o, In o ops -> row_index hash i o.1.1 = row_index hash i key -> still_open o = true -> o.1.2 + o.2 <= oc_expires c') /\
    0 <= oc_expires c').
  { unfold c'. destruct (cell_lapsed c t) eqn:El; [| by destruct Hc]. 
    pose proof (hits_lapsed _ _ _ _ t ltac:(lia) Hc El) as Hz. rewrite Hz. simpl. unfold int64_max in *. split_ands; try lia.
    intros o Hin Hr Ho. exfalso. unfold hits in Hz.
    assert (In o (List.filter (hit i (row_index hash i key)) ops)) as Hf.
    { apply filter_In. split; [done |]. unfold hit. by rewrite Hr, Z.eqb_refl, Ho. }
    destruct (List.filter (hit i (row_index hash i key)) ops); [done | simpl in Hz; lia]. }
  destruct Hc' as (H1 & H2 & H3 & H4). unfold int64_max in *. constructor; simpl.
  - rewrite hits_snoc. simpl. unfold int64_max in *. destruct (oc_n c' <? 2 ^ 63 - 1) eqn:E; bool_to_prop; case_match; lia.
  - unfold int64_max in *. destruct (oc_n c' <? 2 ^ 63 - 1) eqn:E; bool_to_prop; lia.
  - intros o [Hin | [<- | []]]%in_app_or Hr Ho; [specialize (H3 o Hin Hr Ho); lia | simpl; lia].
  - lia.
Qed.

Lemma other_good i idx ops c o : row_index hash i o.1.1 <> idx -> cell_good i idx ops c -> cell_good i idx (ops ++ [o]) c.
Proof.
  intros Hne []. constructor; try done.
  - rewrite hits_snoc. unfold hit. rewrite (proj2 (Z.eqb_neq _ _)) by done. simpl. by rewrite Z.add_0_r.
  - intros o' [Hin | [<- | []]]%in_app_or; auto. by intros ?.
Qed.

Fixpoint rows_good (i : nat) (rows : list sketch_row) (ops : list shed) : Prop :=
  match rows with
  | [] => True
  | row :: rest => (forall idx, cell_good i idx ops (cell_at row idx)) /\ rows_good (S i) rest ops
  end.

Lemma cell_at_insert (row : sketch_row) (idx idx' : Z) (c : overflowCounterCell) :
  cell_at (<[idx := c]> row) idx' = if decide (idx = idx') then c else cell_at row idx'.
Proof.
  unfold cell_at. case_decide as H; [rewrite H, lookup_insert_eq | rewrite lookup_insert_ne by done]; done.
Qed.

Lemma incr_rows_good ops key t ttl : shed_ok (key, t, ttl) -> forall i rows minimum n rows',
  rows_good i rows ops -> incr_rows hash i rows key t ttl minimum = (n, rows') ->
  rows_good i rows' (ops ++ [(key, t, ttl)]) /\
  Z.min minimum (Z.min int64_max (events key (ops ++ [(key, t, ttl)]))) <= n.
Proof.
  intros Hok i rows. revert i. induction rows as [| row rows IH]; intros i minimum n rows' Hg Hr; cbn [incr_rows] in Hr.
  - simplify_eq. split; [done | lia].
  - destruct (incr_rows _ (S i) _ _ _ _ _) as [n1 rest] eqn:E. simplify_eq. destruct Hg as [Hrow Hrest].
    destruct (IH (S i) _ _ _ Hrest E) as [H1 H2].
    pose proof (bump_good i ops _ key t ttl Hok (Hrow (row_index hash i key))) as Hb. split.
    + split; [| done]. intros idx. rewrite cell_at_insert. case_decide as H; [by subst idx |]. by apply other_good.
    + pose proof (hits_events i key (ops ++ [(key, t, ttl)])). destruct Hb. unfold int64_max in *. lia.
Qed.

Lemma count_rows_good ops key now : now <= T -> forall i rows minimum, 0 <= minimum -> rows_good i rows ops ->
  Z.min minimum (Z.min int64_max (events key ops)) <= count_rows hash i rows key now minimum.
Proof.
  intros Hn i rows. revert i. induction rows as [| row rows IH]; intros i minimum Hm Hg; cbn [count_rows]; [lia |].
  destruct Hg as [Hrow Hrest]. specialize (Hrow (row_index hash i key)).
  pose proof (hits_events i key ops). destruct (cell_lapsed _ now) eqn:El.
  - rewrite (hits_lapsed _ _ _ _ now Hn Hrow El) in *. lia.
  - destruct Hrow. specialize (IH (S i) (Z.min minimum (oc_n (cell_at row (row_index hash i key)))) ltac:(lia) Hrest). lia.
Qed.

(** The cache after a series of events counted in its sketch. *)
Fixpoint shed_all (ops : list shed) (c : CounterCache) : CounterCache :=
  match ops with
  | [] => c
  | (key, t, ttl) :: rest => shed_all rest (incrOverflowLocked hash key t ttl c).2
  end.

Lemma shed_all_good ops : forall done c, Forall shed_ok ops -> rows_good 0 (cc_overflow c) done ->
  rows_good 0 (cc_overflow (shed_all ops c)) (done ++ ops).
Proof.
  induction ops as [| [[key t] ttl] ops IH]; intros done c Hok Hg; simpl; [by rewrite app_nil_r |].
  apply Forall_cons in Hok as [Ho Hok]. change ((key, t, ttl) :: ops) with ([(key, t, ttl)] ++ ops).
  rewrite app_assoc. apply IH; [done |]. unfold incrOverflowLocked.
  destruct (incr_rows hash 0 (cc_overflow c) key t ttl int64_max) as [n rows] eqn:E. simpl.
  by eapply incr_rows_good in E as [H _].
Qed.

Lemma new_rows_good i n : rows_good i (replicate n (∅ : sketch_row)) [].
Proof.
  revert i; induction n as [| n IH]; intros i; simpl; [done |]. split; [| apply IH].
  intros idx. constructor; unfold cell_at; rewrite lookup_empty; simpl; unfold int64_max; try lia; done.
Qed.
End Sketch.

(** * Properties *)

(** C25: no event counted in the map is lost.  In any reachable state of the
    cache with its drainers and a store that other instances also write -- and
    whose rounds may fail at any time, before or after taking effect -- for
    each key whose last window is open and was not forgotten, the events
    counted in the map in that window are those the store applied, plus those
    it refused (its own clock was past the window), plus those still waiting: in the
    local entry, queued, or in a round in flight.  When the entry has been
    evicted, nothing is waiting: all of them reached the store.  A local entry's total is
    never below the events counted in its window.  Only an event of an absent key that finds
    [maxCounterEntries] entries in the map is counted elsewhere, in the
    sketch, which is never pushed to the store. *)
Theorem counter_increments_lossless : forall hash s, reachable hash s ->
  (forall key t, s_tally s !! key = Some t -> s_now s < t_window t ->
     t_bumps t = t_acked t + t_refused t +
       match cc_m (s_cache s) !! key with
       | Some e => unpushed e (cc_dirty (s_cache s) !! key) (claims key (s_drainers s))
       | None => 0
       end) /\
  (forall key e, cc_m (s_cache s) !! key = Some e ->
     exists t, s_tally s !! key = Some t /\ t_window t = ce_expires e /\ t_bumps t <= ce_n e) /\
  (forall key ttl now sweep n spawn c', Incr hash key ttl now sweep (s_cache s) = (n, spawn, c') ->
     is_Some (cc_m c' !! key) \/
     (cc_m (s_cache s) !! key = None /\ maxCounterEntries <= Z.of_nat (size (cc_m (s_cache s))))).
Proof.
  intros hash s Hr. pose proof (books_reachable hash s Hr) as Hb. apply ledger_reachable in Hr as [_ Hl]. split_ands.
  - intros key t Ht Hlive. specialize (Hb key t Ht). specialize (Hl key). destruct (cc_m (s_cache s) !! key) as [e |] eqn:He.
    + destruct (ko_entry _ _ _ _ _ Hl e eq_refl) as (_ & t' & Ht' & _ & Heq). rewrite Ht in Ht'. injection Ht' as <-. apply Heq. lia.
    + specialize (Hb Hlive). unfold settled in Hb. lia.
  - intros key e He. specialize (Hl key). destruct (ko_entry _ _ _ _ _ Hl e He) as (_ & t & Ht & Hn & _).
    exists t. specialize (Hb key t Ht). rewrite He in Hb. split_ands; [done | done | lia].
  - intros key ttl now sweep n spawn c'. apply Incr_counted.
Qed.

(** Every clock at [now], the drainer run inline: an [Incr] and its drain. *)
Definition demo_hash : nat -> gostring -> Z := fun i k => Z.of_nat (i + length k).
Definition demo_counter : gostring := lit "chesc:h:203.0.113.9".

Lemma counter_increments_lossless_witness : exists s e t,
  cc_m (s_cache s) !! demo_counter = Some e /\ ce_n e = 2 /\ s_tally s !! demo_counter = Some t /\ t_bumps t = 2 /\
  t_bumps t = t_acked t + t_refused t + unpushed e (cc_dirty (s_cache s) !! demo_counter) (claims demo_counter (s_drainers s)).
Proof.
  set (s0 := mk_sys NewCounterCache [] 0 ∅ 0 ∅).
  set (c1 := (Incr demo_hash demo_counter minute 10 10 NewCounterCache).2).
  set (s1 := mk_sys c1 [DPop] 10 ∅ 0 (tally_incr NewCounterCache c1 demo_counter 10 ∅)).
  set (c2 := (Incr demo_hash demo_counter minute 11 11 c1).2).
  set (s2 := mk_sys c2 [DPop] 11 ∅ 0 (tally_incr c1 c2 demo_counter 11 (s_tally s1))).
  assert (Hr : reachable demo_hash s2).
  { exists s0. split; [done |]. eapply rtc_l; [| eapply rtc_l; [| apply rtc_refl]].
    - apply (step_incr demo_hash NewCounterCache [] 0 ∅ 0 ∅ demo_counter minute 10 10 10 1 true c1);
        try (vm_compute; discriminate); [split; vm_compute; discriminate |]. vm_compute. reflexivity.
    - apply (step_incr demo_hash c1 [DPop] 10 ∅ 0 (s_tally s1) demo_counter minute 11 11 11 2 false c2);
        try (vm_compute; discriminate); [split; vm_compute; discriminate |]. vm_compute. reflexivity. }
  assert (He : cc_m (s_cache s2) !! demo_counter = Some (mk_counter 2 (10 + minute) 0)) by (vm_compute; reflexivity).
  assert (Ht : s_tally s2 !! demo_counter = Some (mk_tally (10 + minute) 2 0 0)) by (vm_compute; reflexivity).
  destruct (counter_increments_lossless demo_hash s2 Hr) as (Heq & _ & _).
  exists s2, (mk_counter 2 (10 + minute) 0), (mk_tally (10 + minute) 2 0 0).
  split; [exact He |]. split; [reflexivity |]. split; [exact Ht |]. split; [reflexivity |].
  specialize (Heq _ _ Ht ltac:(vm_compute; reflexivity)). by rewrite He in Heq.
Defined.

(** at most one drainer works on a key, and none is stranded.  In every
    reachable state each dirty key is in the queue or owned by one drainer,
    never twice; the worker count is the number of live drainers and at most
    [maxFlushWorkers]; whenever a key waits, some drainer is alive to come for
    it; and the local map never exceeds [maxCounterEntries]. *)
Theorem counter_cache_ownership : forall hash s, reachable hash s ->
  let c := s_cache s in
  NoDup (cc_queue c ++ owners (s_drainers s)) /\
  (forall k, is_Some (cc_dirty c !! k) <-> k ∈ cc_queue c ++ owners (s_drainers s)) /\
  cc_workers c = Z.of_nat (length (s_drainers s)) /\ cc_workers c <= maxFlushWorkers /\
  (cc_queue c <> [] -> s_drainers s <> []) /\
  Z.of_nat (size (cc_m c)) <= maxCounterEntries.
Proof. intros hash s Hr. apply ownership_reachable in Hr as []. by split_ands. Qed.

Lemma counter_cache_ownership_witness :
  let c := s_cache (mk_sys NewCounterCache [] 0 ∅ 0 ∅) in cc_workers c = 0 /\ cc_workers c <= maxFlushWorkers.
Proof.
  assert (Hr : reachable demo_hash (mk_sys NewCounterCache [] 0 ∅ 0 ∅)) by
    (exists (mk_sys NewCounterCache [] 0 ∅ 0 ∅); split; [done | apply rtc_refl]).
  pose proof (counter_cache_ownership demo_hash _ Hr) as (_ & _ & H1 & H2 & _). split; [exact H1 | exact H2].
Defined.



(** the overflow sketch never under-counts.  After any series of events
    counted in the sketch (of any keys, clocks not past [now]), the next event
    of a key answers at least the number of that key's events whose window is
    still open at [now], itself included, saturating at the largest int64; the
    read-only probe answers at least their number, so [ForgetSync] reports an
    incomplete reset whenever such an event exists. *)
Theorem overflow_sketch_never_undercounts : forall hash now ops key ttl,
  Forall (shed_ok now) ops -> 0 <= now -> 0 < ttl -> now + ttl <= int64_max ->
  let c := shed_all hash ops NewCounterCache in
  Z.min int64_max (events now key ops + 1) <= (incrOverflowLocked hash key now ttl c).1 /\
  Z.min int64_max (events now key ops) <= overflowCountLocked hash key now c /\
  (0 < events now key ops -> ForgetSync_incomplete hash key now c = true).
Proof.
  intros hash now ops key ttl Hops Hnow Httl Hmax c.
  assert (Hg : rows_good hash now 0 (cc_overflow c) ops).
  { apply (shed_all_good hash now ops [] NewCounterCache); [done |]. apply new_rows_good. }
  assert (Hc : Z.min int64_max (events now key ops) <= overflowCountLocked hash key now c).
  { pose proof (count_rows_good hash now ops key now ltac:(lia) 0 (cc_overflow c) int64_max ltac:(by vm_compute) Hg) as H.
    unfold overflowCountLocked. lia. }
  split_ands; [| done |].
  - unfold incrOverflowLocked. destruct (incr_rows hash 0 (cc_overflow c) key now ttl int64_max) as [n rows] eqn:E.
    eapply (incr_rows_good hash now ops key now ttl) in E as [_ H]; [| unfold shed_ok; lia | exact Hg].
    rewrite events_snoc in H by lia. cbn [fst]. lia.
  - intros Hpos. unfold ForgetSync_incomplete. apply Z.ltb_lt. assert (0 < int64_max) by done. lia.
Qed.

Lemma overflow_sketch_never_undercounts_witness :
  let c := shed_all demo_hash [(lit "a", 1, 100); (lit "b", 2, 100); (lit "a", 3, 100)] NewCounterCache in
  Z.min int64_max 3 <= (incrOverflowLocked demo_hash (lit "a") 50 100 c).1.
Proof.
  apply (overflow_sketch_never_undercounts demo_hash 50 [(lit "a", 1, 100); (lit "b", 2, 100); (lit "a", 3, 100)] (lit "a") 100);
    [| vm_compute; discriminate | vm_compute; reflexivity | vm_compute; discriminate].
  repeat constructor; vm_compute; discriminate.
Defined.
