(* ===== verification/AttackMode.v ===== *)
(** * The attack posture (core/attackmode/attackmode.go)

    Counters are aggregated over a ring of buckets into window signals; a
    three-level state machine with half-threshold hysteresis, operator pins and
    peer votes turns them into the published [State].  Rates are float64,
    computed with [SpecFloat] at precision 53.  An index out of the
    three-element [lastAbove] array panics in Go and is [None] here. *)

From S2P Require Export Memory Float.

(** ** Levels, configuration, state *)

(** [Level] is an int32; only the three constants are valid. *)
Definition Normal : Z := 0.
Definition Elevated : Z := 1.
Definition Attack : Z := 2.
Definition level_ok (l : Z) : Prop := Normal <= l <= Attack.

Definition Level_String (l : Z) : gostring :=
  lit (if l =? Elevated then "elevated" else if l =? Attack then "attack" else "normal").

(** (level, auto, ok) *)
Definition ParseLevel (s : gostring) : Z * bool * bool :=
  if decide (s = lit "auto") then (Normal, true, true)
  else if decide (s = lit "normal") then (Normal, false, true)
  else if decide (s = lit "elevated") then (Elevated, false, true)
  else if decide (s = lit "attack") then (Attack, false, true)
  else (Normal, false, false).

Definition bucketWidth : Z := 5 * second.
Definition minStoreOps : Z := 20.
Definition minSolveSamples : Z := 50.

Record Config := mk_config {
  Enabled : bool;
  Window : Z;
  MinDwell : Z;
  SharePosture : bool;
  ChallengeRate : float;
  AttackChallengeRate : float;
  MinSolveRatio : float;
  RequestRate : float;
  StoreErrorRatio : float;
  StoreSlowRatio : float;
  ElevatedBits : Z;
  AttackBits : Z;
  cfg_CapBits : Z;
  cfg_ForceAlways : bool;
  cfg_Stateless : bool
}.

Record State := mk_state {
  st_Level : Z;
  st_ExtraBits : Z;
  st_CapBits : Z;
  st_ForceAlways : bool;
  st_Stateless : bool;
  st_Since : Z;
  st_Reason : gostring
}.

Definition normalState : State := mk_state Normal 0 0 false false 0 [].

(** [Cap]; [None] is the nil state. *)
Definition Cap (s : option State) (maxBits : Z) : Z :=
  match s with
  | None => maxBits
  | Some s => if (st_ExtraBits s =? 0) || (st_CapBits s =? 0) then maxBits else st_CapBits s
  end.

(** The raw counters and one bucket of deltas have the same shape. *)
Record bucket := mk_bucket {
  evals : Z; issued : Z; redeemed : Z; storeOps : Z; storeErrs : Z; storeSlow : Z
}.
Definition zero_bucket : bucket := mk_bucket 0 0 0 0 0 0.

Record Signals := mk_signals {
  sig_ChallengeRate : float;
  sig_RequestRate : float;
  sig_SolveRatio : float;
  sig_StoreErrorRatio : float;
  sig_StoreSlowRatio : float
}.

(** Mutexes, the logger and the goroutine handles are left out; [d_c], [d_prev]
    are the counters, [d_pinUntil] is 0 for no expiry. *)
Record Detector := mk_detector {
  d_cfg : Config;
  d_c : bucket;
  d_prev : bucket;
  d_ring : list bucket;
  d_ringPos : nat;
  d_ringFull : bool;
  d_state : State;
  d_lastAbove : list Z;
  d_localLvl : Z;
  d_pinned : bool;
  d_pinLevel : Z;
  d_pinUntil : Z;
  d_sig : Signals;
  d_voteLive : bool;
  d_instanceID : gostring
}.

Definition zero_signals : Signals := mk_signals (f64 0) (f64 0) (f64 0) (f64 0) (f64 0).

Definition ring_size (cfg : Config) : nat := Z.to_nat (Z.max (Z.quot (Window cfg) bucketWidth) 1).

Definition applyConfig (cfg : Config) (d : Detector) : Detector :=
  mk_detector cfg (d_c d) (d_prev d) (replicate (ring_size cfg) zero_bucket) 0 false (d_state d) (d_lastAbove d)
    (d_localLvl d) (d_pinned d) (d_pinLevel d) (d_pinUntil d) (d_sig d) (d_voteLive d) (d_instanceID d).

Definition New (cfg : Config) (instanceID : gostring) (now : Z) : Detector :=
  applyConfig cfg
    (mk_detector cfg zero_bucket zero_bucket [] 0 false (mk_state Normal 0 0 false false now []) [0; 0; 0]
       Normal false 0 0 zero_signals false instanceID).

(** ** Hot-path feeds *)
Definition with_c (c : bucket) (d : Detector) : Detector :=
  mk_detector (d_cfg d) c (d_prev d) (d_ring d) (d_ringPos d) (d_ringFull d) (d_state d) (d_lastAbove d)
    (d_localLvl d) (d_pinned d) (d_pinLevel d) (d_pinUntil d) (d_sig d) (d_voteLive d) (d_instanceID d).

Definition Evaluated (d : Detector) : Detector :=
  let c := d_c d in with_c (mk_bucket (evals c + 1) (issued c) (redeemed c) (storeOps c) (storeErrs c) (storeSlow c)) d.
Definition ChallengeIssued (d : Detector) : Detector :=
  let c := d_c d in with_c (mk_bucket (evals c) (issued c + 1) (redeemed c) (storeOps c) (storeErrs c) (storeSlow c)) d.
Definition ChallengeRedeemed (d : Detector) : Detector :=
  let c := d_c d in with_c (mk_bucket (evals c) (issued c) (redeemed c + 1) (storeOps c) (storeErrs c) (storeSlow c)) d.

(** [slow]: whether the operation took at least [slowOpThreshold]. *)
Definition StoreOp (failed slow : bool) (d : Detector) : Detector :=
  let c := d_c d in
  with_c (mk_bucket (evals c) (issued c) (redeemed c) (storeOps c + 1)
            (storeErrs c + (if failed then 1 else 0)) (storeSlow c + (if slow then 1 else 0))) d.

(** ** Aggregation *)
Definition delta (cur prev : Z) : Z := if cur - prev <? 0 then 0 else cur - prev.

Definition bucket_delta (cur prev : bucket) : bucket :=
  mk_bucket (delta (evals cur) (evals prev)) (delta (issued cur) (issued prev))
    (delta (redeemed cur) (redeemed prev)) (delta (storeOps cur) (storeOps prev))
    (delta (storeErrs cur) (storeErrs prev)) (delta (storeSlow cur) (storeSlow prev)).

Definition bucket_add (a b : bucket) : bucket :=
  mk_bucket (evals a + evals b) (issued a + issued b) (redeemed a + redeemed b)
    (storeOps a + storeOps b) (storeErrs a + storeErrs b) (storeSlow a + storeSlow b).

Definition sum_buckets (l : list bucket) : bucket := fold_left bucket_add l zero_bucket.

(** Rates and ratios of a window of [n] buckets whose counts add up to [sum];
    [bucketWidth.Seconds()] is 5. *)
Definition signals_of (sum : bucket) (n : Z) : Signals :=
  let secs := fmul (f64 (Z.max n 1)) (f64 5) in
  mk_signals
    (fdiv (f64 (issued sum)) secs)
    (fdiv (f64 (evals sum)) secs)
    (if minSolveSamples <=? issued sum then fdiv (f64 (redeemed sum)) (f64 (issued sum)) else f64 1)
    (if minStoreOps <=? storeOps sum then fdiv (f64 (storeErrs sum)) (f64 (storeOps sum)) else f64 0)
    (if minStoreOps <=? storeOps sum then fdiv (f64 (storeSlow sum)) (f64 (storeOps sum)) else f64 0).

Definition windowSignals (d : Detector) : Signals :=
  let n := if d_ringFull d then length (d_ring d) else d_ringPos d in
  signals_of (sum_buckets (d_ring d)) (Z.of_nat n).

(** The first half of [tick]: one bucket of deltas into the ring. *)
Definition tick_sample (d : Detector) : Detector :=
  let b := bucket_delta (d_c d) (d_prev d) in
  let ring := <[d_ringPos d := b]> (d_ring d) in
  let pos := Nat.modulo (S (d_ringPos d)) (length (d_ring d)) in
  let d := mk_detector (d_cfg d) (d_c d) (d_c d) ring pos (if (pos =? 0)%nat then true else d_ringFull d)
    (d_state d) (d_lastAbove d) (d_localLvl d) (d_pinned d) (d_pinLevel d) (d_pinUntil d) (d_sig d)
    (d_voteLive d) (d_instanceID d) in
  mk_detector (d_cfg d) (d_c d) (d_prev d) (d_ring d) (d_ringPos d) (d_ringFull d) (d_state d) (d_lastAbove d)
    (d_localLvl d) (d_pinned d) (d_pinLevel d) (d_pinUntil d) (windowSignals d) (d_voteLive d) (d_instanceID d).

(** ** Entry and hold conditions *)
Definition elevatedSignal (cfg : Config) (sig : Signals) : bool * gostring :=
  if positive (ChallengeRate cfg) && fgt (sig_ChallengeRate sig) (ChallengeRate cfg) then (true, lit "challenge_rate")
  else if positive (RequestRate cfg) && fgt (sig_RequestRate sig) (RequestRate cfg) then (true, lit "request_rate")
  else if positive (StoreErrorRatio cfg) && fgt (sig_StoreErrorRatio sig) (StoreErrorRatio cfg) then (true, lit "store_errors")
  else if positive (StoreSlowRatio cfg) && fgt (sig_StoreSlowRatio sig) (StoreSlowRatio cfg) then (true, lit "store_slow")
  else (false, []).

Definition attackSignal (cfg : Config) (sig : Signals) : bool * gostring :=
  if positive (AttackChallengeRate cfg) && fgt (sig_ChallengeRate sig) (AttackChallengeRate cfg) &&
     flt (sig_SolveRatio sig) (MinSolveRatio cfg) then (true, lit "challenge_rate")
  else if positive (StoreErrorRatio cfg) && fgt (sig_StoreErrorRatio sig) (fmul (f64 3) (StoreErrorRatio cfg))
  then (true, lit "store_errors")
  else (false, []).

Definition elevatedHalf (cfg : Config) (sig : Signals) : bool :=
  (positive (ChallengeRate cfg) && fge (sig_ChallengeRate sig) (fdiv (ChallengeRate cfg) (f64 2))) ||
  (positive (RequestRate cfg) && fge (sig_RequestRate sig) (fdiv (RequestRate cfg) (f64 2))) ||
  (positive (StoreErrorRatio cfg) && fge (sig_StoreErrorRatio sig) (fdiv (StoreErrorRatio cfg) (f64 2))) ||
  (positive (StoreSlowRatio cfg) && fge (sig_StoreSlowRatio sig) (fdiv (StoreSlowRatio cfg) (f64 2))).

Definition attackHalf (cfg : Config) (sig : Signals) : bool :=
  (positive (AttackChallengeRate cfg) && fge (sig_ChallengeRate sig) (fdiv (AttackChallengeRate cfg) (f64 2)) &&
   flt (sig_SolveRatio sig) (MinSolveRatio cfg)) ||
  (positive (StoreErrorRatio cfg) &&
   fge (sig_StoreErrorRatio sig) (fdiv (fmul (f64 3) (StoreErrorRatio cfg)) (f64 2))).

(** ** The state machine *)

(** [lastAbove[l]] and [lastAbove[l] = v]: [None] is the index panic. *)
Definition in_array (l : Z) : bool := (0 <=? l) && (l <? 3).
Definition la_get (la : list Z) (l : Z) : option Z := if in_array l then la !! Z.to_nat l else None.
Definition la_set (la : list Z) (l v : Z) : option (list Z) :=
  if in_array l then Some (<[Z.to_nat l := v]> la) else None.

Definition decayFrom (cfg : Config) (la : list Z) (cur now : Z) : option Z :=
  if cur =? Normal then Some Normal else
  match la_get la cur with
  | None => None
  | Some last => Some (if negb (last =? 0) && (now - last <? MinDwell cfg) then cur else cur - 1)
  end.

Definition bitsFor (cfg : Config) (level : Z) : Z :=
  if level =? Elevated then ElevatedBits cfg else if level =? Attack then AttackBits cfg else 0.

Definition same_posture (a b : State) : bool :=
  (st_Level a =? st_Level b) && bool_decide (st_Reason a = st_Reason b) && (st_ExtraBits a =? st_ExtraBits b) &&
  (st_CapBits a =? st_CapBits b) && Bool.eqb (st_ForceAlways a) (st_ForceAlways b) &&
  Bool.eqb (st_Stateless a) (st_Stateless b).

(** The new state, and the transition reported to [onTransition] if any. *)
Definition publish (cfg : Config) (level : Z) (reason : gostring) (now : Z) (cur : State)
  : State * option (Z * Z * gostring) :=
  let reason := if bool_decide (reason = []) && (level =? st_Level cur) then st_Reason cur else reason in
  let next := mk_state level (bitsFor cfg level) (cfg_CapBits cfg)
                ((level =? Attack) && cfg_ForceAlways cfg) ((level =? Attack) && cfg_Stateless cfg) now reason in
  if same_posture cur next then (cur, None) else
  let next := if st_Level cur =? level
    then mk_state (st_Level next) (st_ExtraBits next) (st_CapBits next) (st_ForceAlways next) (st_Stateless next)
           (st_Since cur) (st_Reason next)
    else next in
  (next, if st_Level cur =? level then None else Some (st_Level cur, level, reason)).

(** The pin in force, and the pinned flag after expiring it. *)
Definition resolvePin (d : Detector) (now : Z) : option Z * bool :=
  if negb (d_pinned d) then (None, false)
  else if negb (d_pinUntil d =? 0) && (d_pinUntil d <=? now) then (None, false)
  else (Some (d_pinLevel d), true).

Definition with_eval (s : State) (la : list Z) (lvl : Z) (pinned : bool) (d : Detector) : Detector :=
  mk_detector (d_cfg d) (d_c d) (d_prev d) (d_ring d) (d_ringPos d) (d_ringFull d) s la lvl pinned (d_pinLevel d)
    (d_pinUntil d) (d_sig d) (d_voteLive d) (d_instanceID d).

Definition evaluate (cfg : Config) (sig : Signals) (peer now : Z) (d : Detector)
  : option (Detector * option (Z * Z * gostring)) :=
  let peer := if (peer <? Normal) || (Attack <? peer) then Normal else peer in
  let '(pin, pinned) := resolvePin d now in
  let la := d_lastAbove d in
  match pin with
  | Some lvl =>
    let '(s, tr) := publish cfg lvl (lit "forced") now (d_state d) in
    Some (with_eval s la lvl pinned d, tr)
  | None =>
    if negb (Enabled cfg) then
      let '(s, tr) := publish cfg Normal [] now (d_state d) in Some (with_eval s la Normal pinned d, tr)
    else
      let '(elevatedHit, elevatedReason) := elevatedSignal cfg sig in
      let '(attackHit, attackReason) := attackSignal cfg sig in
      la ← (if elevatedHit || elevatedHalf cfg sig then la_set la Elevated now else Some la);
      la ← (if attackHit || attackHalf cfg sig then la_set la Attack now else Some la);
      let cur := d_localLvl d in
      lr ← (if attackHit then Some (Attack, attackReason)
            else if elevatedHit && (cur <? Attack) then Some (Elevated, elevatedReason)
            else l ← decayFrom cfg la cur now; Some (l, []));
      let '(local, reason) := lr in
      let '(desired, treason) := if local <? peer then (peer, lit "peer") else (local, reason) in
      la ← (if Normal <? peer then la_set la peer now else Some la);
      let published := st_Level (d_state d) in
      out ← (if (desired <? published) && negb (bool_decide (st_Reason (d_state d) = lit "forced")) then
               decayed ← decayFrom cfg la published now;
               let target := Z.max decayed desired in
               la ← (if (target <? published) && (Normal <? target) then la_set la target now else Some la);
               Some (target, if target =? published then [] else treason, la)
             else Some (desired, treason, la));
      let '(target, treason, la) := out in
      let '(s, tr) := publish cfg target treason now (d_state d) in
      Some (with_eval s la local pinned d, tr)
  end.

(** ** Operator pins *)
Definition set_pin (pinned : bool) (level until : Z) (d : Detector) : Detector :=
  mk_detector (d_cfg d) (d_c d) (d_prev d) (d_ring d) (d_ringPos d) (d_ringFull d) (d_state d) (d_lastAbove d)
    (d_localLvl d) pinned level until (d_sig d) (d_voteLive d) (d_instanceID d).

Definition recompute (now : Z) (d : Detector) : option (Detector * option (Z * Z * gostring)) :=
  evaluate (d_cfg d) (d_sig d) Normal now d.

Definition Pinned (d : option Detector) : Z * bool :=
  match d with
  | None => (Normal, false)
  | Some d => if d_pinned d then (d_pinLevel d, true) else (Normal, false)
  end.

(** ** Difficulty *)
Definition EffectiveBits (st : option State) (baseBits maxBits capBits : Z) : Z * Z :=
  match st with
  | None => (baseBits, maxBits)
  | Some s =>
    if st_ExtraBits s =? 0 then (baseBits, maxBits) else
    let cap := Z.max capBits maxBits in
    let effBase := Z.max (Z.min (baseBits + st_ExtraBits s) cap) baseBits in
    let effMax := Z.max (Z.min (maxBits + st_ExtraBits s) cap) effBase in
    (effBase, effMax)
  end.

(** ** Posture sharing *)

(** The optional vote capability of a store; every call may fail.  A call
    refused as unsupported wrote nothing. *)
Class PostureVotes (V : Type) := {
  vote_set : clock -> gostring -> Z -> Z -> V -> V * result unit;
  vote_delete : gostring -> V -> V * result unit;
  vote_max : clock -> gostring -> V -> V * result Z
}.

#[export] Instance memory_votes : PostureVotes ShardedMemory := {
  vote_set := SetPostureVote; vote_delete := DeletePostureVote; vote_max := MaxPostureVote
}.

(** The detector's store: nil, without the capability, or with it. *)
Inductive posture_store (V : Type) :=
| NoStore
| PlainStore
| VoteStore (v : V).
Arguments NoStore {V}.
Arguments PlainStore {V}.
Arguments VoteStore {V} v.

Definition set_voteLive (b : bool) (d : Detector) : Detector :=
  mk_detector (d_cfg d) (d_c d) (d_prev d) (d_ring d) (d_ringPos d) (d_ringFull d) (d_state d) (d_lastAbove d)
    (d_localLvl d) (d_pinned d) (d_pinLevel d) (d_pinUntil d) (d_sig d) b (d_instanceID d).

(** [clearSharedVote] (its locked body). *)
Definition clearSharedVote {V} `{!PostureVotes V} (d : Detector) (st : posture_store V) : Detector * posture_store V :=
  match st with
  | VoteStore v =>
    if d_voteLive d then
      let '(v, r) := vote_delete (d_instanceID d) v in
      (if is_ok r then set_voteLive false d else d, VoteStore v)
    else (d, st)
  | _ => (d, st)
  end.

(** Answers the adopted peer level. *)
Definition sharePosture {V} `{!PostureVotes V} (t : clock) (local : Z) (d : Detector) (st : posture_store V)
  : Z * Detector * posture_store V :=
  match st with
  | NoStore | PlainStore => (Normal, d, st)
  | VoteStore v =>
    if d_pinned d || negb (Enabled (d_cfg d)) || negb (SharePosture (d_cfg d)) then
      let '(d, st) := clearSharedVote d st in (Normal, d, st)
    else
      let '(d, v) :=
        if Normal <? local then
          let d := set_voteLive true d in
          let '(v, r) := vote_set t (d_instanceID d) local (Window (d_cfg d)) v in
          (if r is Err EUnsupported then set_voteLive false d else d, v)
        else
          let '(v, r) := vote_delete (d_instanceID d) v in
          (match r with Ok _ | Err EUnsupported => set_voteLive false d | _ => d end, v) in
      let '(v, r) := vote_max (fun i => t (1 + i)%nat) (d_instanceID d) v in
      (match r with
       | Err _ => Normal
       | Ok level => if (level <? Elevated) || (Attack <? level) then Normal else level
       end, d, VoteStore v)
  end.

(** [tick]: sample, share, evaluate. *)
Definition tick {V} `{!PostureVotes V} (t : clock) (now : Z) (d : Detector) (st : posture_store V)
  : option (Detector * posture_store V * option (Z * Z * gostring)) :=
  let cfg := d_cfg d in
  let d := tick_sample d in
  let sig := d_sig d in
  let '(peer, d, st) :=
    if Enabled cfg && SharePosture cfg && (if st is NoStore then false else true) && negb (d_pinned d)
    then sharePosture t (d_localLvl d) d st
    else let '(d, st) := clearSharedVote d st in (Normal, d, st) in
  dt ← evaluate cfg sig peer now d;
  Some (dt.1, st, dt.2).

(** [ttl <= 0]: until unpinned. *)
Definition Pin {V} `{!PostureVotes V} (level ttl now : Z) (d : Detector) (st : posture_store V)
  : option (Detector * posture_store V) :=
  let until := if 0 <? ttl then wrap64 (now + ttl) else 0 in
  dt ← recompute now (set_pin true level until d);
  Some (clearSharedVote dt.1 st).

Definition Unpin (now : Z) (d : Detector) : option Detector :=
  dt ← recompute now (set_pin false (d_pinLevel d) (d_pinUntil d) d); Some dt.1.

Definition SetConfig {V} `{!PostureVotes V} (cfg : Config) (d : Detector) (st : posture_store V)
  : Detector * posture_store V :=
  let d := applyConfig cfg d in
  if negb (Enabled cfg) || negb (SharePosture cfg) then clearSharedVote d st else (d, st).

(** ** Well-formed detectors *)
Record wf (d : Detector) : Prop := {
  wf_la : length (d_lastAbove d) = 3%nat;
  wf_local : level_ok (d_localLvl d);
  wf_state : level_ok (st_Level (d_state d));
  wf_pin : d_pinned d = true -> level_ok (d_pinLevel d)
}.

Lemma la_get_ok la l : length la = 3%nat -> level_ok l -> exists v, la_get la l = Some v /\ la !! Z.to_nat l = Some v.
Proof.
  unfold level_ok, Normal, Attack, la_get, in_array. intros Hl [H1 H2].
  rewrite (proj2 (Z.leb_le _ _)), (proj2 (Z.ltb_lt _ _)) by lia.
  destruct (lookup_lt_is_Some_2 la (Z.to_nat l)) as [v Hv]; [lia |]. exists v. by rewrite Hv.
Qed.

Lemma la_set_ok la l v : level_ok l -> la_set la l v = Some (<[Z.to_nat l := v]> la).
Proof.
  unfold level_ok, Normal, Attack, la_set, in_array. intros [H1 H2].
  by rewrite (proj2 (Z.leb_le _ _)), (proj2 (Z.ltb_lt _ _)) by lia.
Qed.

Lemma decayFrom_ok cfg la cur now : length la = 3%nat -> level_ok cur ->
  exists l, decayFrom cfg la cur now = Some l /\ level_ok l /\ cur - 1 <= l <= cur /\
    (l < cur -> exists last, la !! Z.to_nat cur = Some last /\ (last = 0 \/ MinDwell cfg <= now - last)).
Proof.
  unfold decayFrom. intros Hl Hc. unfold level_ok, Normal, Attack in *.
  destruct (cur =? 0) eqn:E; bool_to_prop; [exists 0; split_ands; try done; lia |].
  destruct (la_get_ok la cur Hl Hc) as (last & -> & Hlast).
  destruct (negb (last =? 0) && (now - last <? MinDwell cfg)) eqn:E2.
  - exists cur. split_ands; try done; lia.
  - exists (cur - 1). split_ands; try done; try lia. intros _. exists last. split; [done |].
    apply andb_false_iff in E2 as [E2 | E2]; bool_to_prop; [by left | right; lia].
Qed.

Lemma publish_level cfg level reason now cur : st_Level (publish cfg level reason now cur).1 = level.
Proof.
  unfold publish. destruct (same_posture _ _) eqn:Hs.
  - unfold same_posture in Hs. bool_to_prop. done.
  - cbn [fst]. by destruct (st_Level cur =? level).
Qed.

(** A posture that was not forced is not said to be, whatever other reason is given. *)
Lemma publish_reason cfg level (reason : gostring) now cur : reason <> lit "forced" -> st_Reason cur <> lit "forced" ->
  st_Reason (publish cfg level reason now cur).1 <> lit "forced".
Proof.
  intros Hr Hc. unfold publish. cbv zeta.
  assert (Hre : (if bool_decide (reason = []) && (level =? st_Level cur) then st_Reason cur else reason) <> lit "forced") by (by case_match).
  destruct (same_posture _ _); [done |]. cbn [fst]. by destruct (st_Level cur =? level).
Qed.

(** The clamped peer level of [evaluate]. *)
Definition peer_of (peer : Z) : Z := if (peer <? Normal) || (Attack <? peer) then Normal else peer.
Lemma peer_of_ok peer : level_ok (peer_of peer).
Proof.
  unfold peer_of, level_ok, Normal, Attack. destruct (_ || _) eqn:E; [lia |].
  apply orb_false_iff in E as [E1 E2]. bool_to_prop. lia.
Qed.

(** What one unpinned, enabled evaluation decides: [la] is the dwell array
    after the signals and the peer were noted. *)
Record decision (cfg : Config) (sig : Signals) (peer now : Z) (d d' : Detector) : Prop := {
  dc_wf : wf d';
  dc_pin : d_pinLevel d' = d_pinLevel d /\ d_pinUntil d' = d_pinUntil d;
  (* entry is immediate *)
  dc_attack : (attackSignal cfg sig).1 = true -> st_Level (d_state d') = Attack;
  dc_elevated : (elevatedSignal cfg sig).1 = true -> Elevated <= st_Level (d_state d');
  dc_peer : peer_of peer <= st_Level (d_state d');
  (* exit is stepwise and dwelled *)
  dc_drop : st_Reason (d_state d) <> lit "forced" -> st_Level (d_state d') < st_Level (d_state d) ->
    st_Level (d_state d') = st_Level (d_state d) - 1;
  dc_quiet : st_Reason (d_state d) <> lit "forced" -> st_Level (d_state d') < st_Level (d_state d) ->
    0 < MinDwell cfg -> now <> 0 ->
    (exists last, d_lastAbove d !! Z.to_nat (st_Level (d_state d)) = Some last /\
      (last = 0 \/ MinDwell cfg <= now - last)) /\
    (st_Level (d_state d) = Attack -> (attackSignal cfg sig).1 = false /\ attackHalf cfg sig = false) /\
    (st_Level (d_state d) = Elevated -> (elevatedSignal cfg sig).1 = false /\ elevatedHalf cfg sig = false);
  (* a drop to an intermediate level starts its dwell *)
  dc_fresh : st_Reason (d_state d) <> lit "forced" -> st_Level (d_state d') < st_Level (d_state d) ->
    Normal < st_Level (d_state d') -> d_lastAbove d' !! Z.to_nat (st_Level (d_state d')) = Some now;
  (* a raise starts the dwell of the level it enters *)
  dc_raise : d_localLvl d <= st_Level (d_state d) -> st_Level (d_state d) < st_Level (d_state d') ->
    d_lastAbove d' !! Z.to_nat (st_Level (d_state d')) = Some now;
  dc_local : d_localLvl d' <= st_Level (d_state d');
  dc_reason : st_Reason (d_state d) <> lit "forced" -> st_Reason (d_state d') <> lit "forced";
  (* dwell times only move to now *)
  dc_dwell : forall l last, d_lastAbove d !! l = Some last ->
    d_lastAbove d' !! l = Some last \/ d_lastAbove d' !! l = Some now
}.

(** Noting a level's hold condition. *)
Lemma note_ok la l now (b : bool) : length la = 3%nat -> level_ok l ->
  exists la', (if b then la_set la l now else Some la) = Some la' /\ length la' = 3%nat /\
    (forall k last, la !! k = Some last -> la' !! k = Some last \/ la' !! k = Some now) /\
    (b = true -> la' !! Z.to_nat l = Some now) /\
    (forall k, (k <> Z.to_nat l \/ b = false) -> la' !! k = la !! k).
Proof.
  intros Hl Hok. destruct b.
  - rewrite la_set_ok by done. eexists; split; [done |]. rewrite length_insert.
    assert (Z.to_nat l < length la)%nat by (unfold level_ok, Normal, Attack in Hok; lia).
    split_ands; [done | | |].
    + intros k last Hk. destruct (decide (k = Z.to_nat l)) as [-> | Hne].
      * right. by apply list_lookup_insert_eq.
      * left. by rewrite list_lookup_insert_ne.
    + intros _. by apply list_lookup_insert_eq.
    + intros k [Hk | Hk]; [by rewrite list_lookup_insert_ne | done].
  - exists la. split_ands; try done. by left.
Qed.

(** The local decision, before the fleet is considered. *)
Lemma local_ok cfg la cur now (attackHit elevatedHit : bool) (ar er : gostring) : length la = 3%nat -> level_ok cur ->
  exists local reason,
    (if attackHit then Some (Attack, ar)
     else if elevatedHit && (cur <? Attack) then Some (Elevated, er)
     else l ← decayFrom cfg la cur now; Some (l, @nil ascii)) = Some (local, reason) /\
    level_ok local /\ (attackHit = true -> local = Attack) /\ (elevatedHit = true -> Elevated <= local) /\
    (reason = ar \/ reason = er \/ reason = []) /\
    (local <= cur \/ (attackHit = true /\ local = Attack) \/ (elevatedHit = true /\ local = Elevated)).
Proof.
  intros Hl Hc. destruct attackHit; [exists Attack, ar; split_ands; auto; done |].
  destruct (elevatedHit && (cur <? Attack)) eqn:E; [exists Elevated, er; bool_to_prop; split_ands; auto; done |].
  destruct (decayFrom_ok cfg la cur now Hl Hc) as (l & -> & Hok & Hb & _). exists l, []. split_ands; auto; [done | | left; lia].
  intros ->. cbn [andb] in E. bool_to_prop. unfold Elevated, Attack in *. lia.
Qed.

(** The published target. *)
Lemma target_ok cfg la published desired now (forced : bool) (treason : gostring) : length la = 3%nat ->
  level_ok published -> level_ok desired ->
  exists target reason la',
    (if (desired <? published) && negb forced then
       decayed ← decayFrom cfg la published now;
       let target := Z.max decayed desired in
       la ← (if (target <? published) && (Normal <? target) then la_set la target now else Some la);
       Some (target, if target =? published then [] else treason, la)
     else Some (desired, treason, la)) = Some (target, reason, la') /\
    level_ok target /\ desired <= target /\ length la' = 3%nat /\
    (forall k last, la !! k = Some last -> la' !! k = Some last \/ la' !! k = Some now) /\
    (forced = false -> target < published ->
       target = published - 1 /\
       (exists last, la !! Z.to_nat published = Some last /\ (last = 0 \/ MinDwell cfg <= now - last)) /\
       (Normal < target -> la' !! Z.to_nat target = Some now)) /\
    (reason = [] \/ reason = treason) /\ (published < target -> target = desired /\ la' = la).
Proof.
  intros Hl Hp Hd. destruct ((desired <? published) && negb forced) eqn:E.
  - bool_to_prop. subst. destruct (decayFrom_ok cfg la published now Hl Hp) as (dec & -> & Hok & Hb & Hlast).
    cbn [mbind option_bind].
    set (target := Z.max dec desired). assert (level_ok target) as Ht by (unfold level_ok, target in *; lia).
    destruct (note_ok la target now ((target <? published) && (Normal <? target)) Hl Ht) as (la' & -> & Hl' & Hsame & Hset & _).
    cbn [mbind option_bind]. exists target, (if target =? published then [] else treason), la'.
    split_ands; try done; [lia | | (case_match; [by left | by right]) | unfold target; lia].
    intros _ Hlt. split_ands.
    + unfold target in *. lia.
    + apply Hlast. unfold target in *. lia.
    + intros Hpos. apply Hset. rewrite !(proj2 (Z.ltb_lt _ _)) by done. done.
  - exists desired, treason, la. split_ands; try done; [by left | | by right]. intros -> Hlt.
    rewrite andb_true_r in E. bool_to_prop. lia.
Qed.

(** No signal gives the reason of a pin. *)
Lemma signal_reasons cfg sig : (attackSignal cfg sig).2 <> lit "forced" /\ (elevatedSignal cfg sig).2 <> lit "forced".
Proof. unfold attackSignal, elevatedSignal. split; by repeat case_match. Qed.

Lemma evaluate_auto cfg sig peer now d : wf d -> (resolvePin d now).1 = None -> Enabled cfg = true ->
  exists d' tr, evaluate cfg sig peer now d = Some (d', tr) /\ decision cfg sig peer now d d'.
Proof.
  intros [Hla Hlocal Hstate Hpin] Hres Hen. unfold evaluate. fold (peer_of peer).
  pose proof (peer_of_ok peer) as Hpeer. set (p := peer_of peer) in *.
  destruct (resolvePin d now) as [pin pinned] eqn:Erp. cbn [fst] in Hres. subst pin.
  assert (pinned = false) as -> by (unfold resolvePin in Erp; repeat (case_match; simplify_eq; try done)).
  rewrite Hen. cbn [negb].
  destruct (elevatedSignal cfg sig) as [eh er] eqn:Ee. destruct (attackSignal cfg sig) as [ah ar] eqn:Ea.
  destruct (note_ok (d_lastAbove d) Elevated now (eh || elevatedHalf cfg sig) Hla ltac:(done)) as (la1 & -> & Hl1 & Hs1 & Hn1 & Hf1).
  cbn [mbind option_bind].
  destruct (note_ok la1 Attack now (ah || attackHalf cfg sig) Hl1 ltac:(done)) as (la2 & -> & Hl2 & Hs2 & Hn2 & Hf2).
  cbn [mbind option_bind].
  destruct (local_ok cfg la2 (d_localLvl d) now ah eh ar er Hl2 Hlocal) as (local & reason & -> & Hlok & Hla' & Hle & Hrsn & Hlup).
  cbn [mbind option_bind].
  assert (Hdes : exists desired treason, (if local <? p then (p, lit "peer") else (local, reason)) = (desired, treason) /\
    level_ok desired /\ local <= desired /\ p <= desired /\ (treason = lit "peer" \/ treason = reason) /\
    (desired = local \/ desired = p)).
  { destruct (local <? p) eqn:E; bool_to_prop; do 2 eexists; (split; [done |]); split_ands; auto; lia. }
  destruct Hdes as (desired & treason & -> & Hdok & Hd1 & Hd2 & Htr & Hdeq).
  destruct (note_ok la2 p now (Normal <? p) Hl2 Hpeer) as (la3 & -> & Hl3 & Hs3 & Hn3 & _). cbn [mbind option_bind].
  destruct (target_ok cfg la3 (st_Level (d_state d)) desired now (bool_decide (st_Reason (d_state d) = lit "forced")) treason
    Hl3 Hstate Hdok) as (target & treason' & la4 & Htgt & Htok & Htd & Hl4 & Hs4 & Hdrop & Htr' & Hup).
  cbn [mbind option_bind] in Htgt. rewrite Htgt. clear Htgt. cbn [mbind option_bind].
  pose proof (publish_level cfg target treason' now (d_state d)) as Hpub.
  pose proof (publish_reason cfg target treason' now (d_state d)) as Hrs.
  destruct (publish cfg target treason' now (d_state d)) as [s tr]. cbn [fst] in Hpub, Hrs.
  exists (with_eval s la4 local false d), tr. split; [done |].
  assert (Hchain : forall k last, d_lastAbove d !! k = Some last -> la3 !! k = Some last \/ la3 !! k = Some now).
  { intros k last Hk. destruct (Hs1 k last Hk) as [H1 | H1]; destruct (Hs2 _ _ H1) as [H2 | H2];
      destruct (Hs3 _ _ H2) as [H3 | H3]; auto. }
  constructor; cbn [d_state d_lastAbove d_pinned d_pinLevel d_pinUntil d_localLvl with_eval]; rewrite ?Hpub; rewrite ?Ea, ?Ee; cbn [fst].
  - constructor; simpl; [done | done | by rewrite Hpub | done].
  - done.
  - intros H. specialize (Hla' H). unfold level_ok in *. lia.
  - intros H. specialize (Hle H). lia.
  - lia.
  - intros Hr Hlt. apply Hdrop; [by apply bool_decide_eq_false_2 | done].
  - intros Hr Hlt Hmd Hnow. destruct (Hdrop ltac:(by apply bool_decide_eq_false_2) Hlt) as (_ & (last & Hlast & Hcase) & _).
    assert (Hnn : last <> now) by lia. split_ands.
    + destruct (lookup_lt_is_Some_2 (d_lastAbove d) (Z.to_nat (st_Level (d_state d)))) as [l0 Hl0];
        [unfold level_ok, Normal, Attack in *; lia |].
      destruct (Hchain _ _ Hl0) as [H | H]; rewrite H in Hlast; simplify_eq. by exists last.
    + intros Hat. apply orb_false_iff. destruct (ah || attackHalf cfg sig) eqn:E; [| done]. exfalso.
      specialize (Hn2 eq_refl). rewrite Hat in Hlast. destruct (Hs3 _ _ Hn2) as [H | H]; rewrite H in Hlast; simplify_eq.
    + intros Hel. apply orb_false_iff. destruct (eh || elevatedHalf cfg sig) eqn:E; [| done]. exfalso.
      specialize (Hn1 eq_refl). rewrite Hel in Hlast.
      destruct (Hs2 _ _ Hn1) as [H2 | H2]; destruct (Hs3 _ _ H2) as [H | H]; rewrite H in Hlast; simplify_eq.
  - intros Hr Hlt Hpos. apply Hdrop; [by apply bool_decide_eq_false_2 | done | done].
  - intros Hlp Hlt. destruct (Hup Hlt) as [-> ->].
    destruct Hdeq as [-> | ->]; [| apply Hn3, Z.ltb_lt; unfold level_ok, Normal in *; lia].
    destruct Hlup as [? | [[-> ->] | [-> ->]]]; [lia | |].
    + destruct (Hs3 _ _ (Hn2 eq_refl)) as [H | H]; exact H.
    + destruct (Hs2 _ _ (Hn1 eq_refl)) as [H | H]; destruct (Hs3 _ _ H) as [H' | H']; exact H'.
  - lia.
  - intros Hr. apply Hrs; [| done]. pose proof (signal_reasons cfg sig) as [Hra Hre]. rewrite Ea, Ee in *. cbn [snd] in *.
    destruct Htr' as [-> | ->]; [done |]. destruct Htr as [-> | ->]; [done |]. by destruct Hrsn as [-> | [-> | ->]].
  - intros k last Hk. destruct (Hchain k last Hk) as [H | H]; destruct (Hs4 _ _ H) as [H4 | H4]; auto.
Qed.

(** An evaluation changes the published state, the dwell array, the local level
    and the pinned flag only. *)
Lemma evaluate_shape cfg sig peer now d d' tr : evaluate cfg sig peer now d = Some (d', tr) ->
  exists s la lvl pinned, d' = with_eval s la lvl pinned d.
Proof.
  unfold evaluate. intros H.
  repeat match type of H with
  | (_ ≫= _) = Some _ => apply bind_Some in H as (? & _ & H)
  | match ?x with _ => _ end = Some _ => destruct x
  end; simplify_eq; by repeat eexists.
Qed.

(** Every evaluation of a well-formed detector returns. *)
Lemma evaluate_total cfg sig peer now d : wf d ->
  exists d' tr, evaluate cfg sig peer now d = Some (d', tr) /\ wf d' /\
    d_pinLevel d' = d_pinLevel d /\ d_cfg d' = d_cfg d /\ d_voteLive d' = d_voteLive d /\
    d_instanceID d' = d_instanceID d /\
    (forall l last, d_lastAbove d !! l = Some last -> d_lastAbove d' !! l = Some last \/ d_lastAbove d' !! l = Some now).
Proof.
  intros Hwf.
  assert (Hkeep : forall d' tr, evaluate cfg sig peer now d = Some (d', tr) ->
    d_pinLevel d' = d_pinLevel d /\ d_cfg d' = d_cfg d /\ d_voteLive d' = d_voteLive d /\ d_instanceID d' = d_instanceID d).
  { intros d' tr He. by apply evaluate_shape in He as (? & ? & ? & ? & ->). }
  destruct (resolvePin d now) as [pin pinned] eqn:Erp. destruct pin as [lvl|]; [| destruct (Enabled cfg) eqn:Een].
  - assert (level_ok lvl /\ pinned = true) as [Hlvl ->].
    { unfold resolvePin in Erp. destruct Hwf. destruct (d_pinned d) eqn:Hp; simpl in Erp; [| done].
      case_match; simplify_eq. auto. }
    pose proof (publish_level cfg lvl (lit "forced") now (d_state d)) as Hpub.
    assert (evaluate cfg sig peer now d =
      let '(s, tr) := publish cfg lvl (lit "forced") now (d_state d) in Some (with_eval s (d_lastAbove d) lvl true d, tr)) as He
      by (unfold evaluate; by rewrite Erp).
    destruct (publish cfg lvl (lit "forced") now (d_state d)) as [s tr]. simpl in Hpub.
    destruct (Hkeep _ _ He) as (H1 & H2 & H3 & H4). do 2 eexists; split; [exact He |]. split_ands; try done; [| by left].
    destruct Hwf. constructor; simpl; [done | done | by rewrite Hpub | ].
    intros _. assert (d_pinLevel d = lvl) as -> by (unfold resolvePin in Erp; repeat (case_match; simplify_eq; try done)). done.
  - destruct (evaluate_auto cfg sig peer now d Hwf) as (d' & tr & He & Hd); [by rewrite Erp | done |].
    destruct (Hkeep _ _ He) as (H1 & H2 & H3 & H4). exists d', tr. destruct Hd. by split_ands.
  - pose proof (publish_level cfg Normal [] now (d_state d)) as Hpub.
    assert (evaluate cfg sig peer now d =
      let '(s, tr) := publish cfg Normal [] now (d_state d) in Some (with_eval s (d_lastAbove d) Normal pinned d, tr)) as He
      by (unfold evaluate; rewrite Erp, Een; done).
    destruct (publish cfg Normal [] now (d_state d)) as [s tr]. simpl in Hpub.
    destruct (Hkeep _ _ He) as (H1 & H2 & H3 & H4). do 2 eexists; split; [exact He |]. split_ands; try done; [| by left].
    destruct Hwf. constructor; simpl; [done | done | by rewrite Hpub |].
    intros ->. unfold resolvePin in Erp. repeat (case_match; simplify_eq; try done).
Qed.

(** ** The sliding window *)
Lemma bucket_add_comm a b : bucket_add a b = bucket_add b a.
Proof. unfold bucket_add. f_equal; lia. Qed.
Lemma bucket_add_assoc a b c : bucket_add a (bucket_add b c) = bucket_add (bucket_add a b) c.
Proof. unfold bucket_add. simpl. f_equal; lia. Qed.
Lemma bucket_add_zero a : bucket_add zero_bucket a = a.
Proof. destruct a. unfold bucket_add. simpl. done. Qed.

Lemma sum_buckets_acc l : forall a, fold_left bucket_add l a = bucket_add a (sum_buckets l).
Proof.
  unfold sum_buckets. induction l as [| b l IH]; intros a; simpl.
  - by rewrite bucket_add_comm, bucket_add_zero.
  - rewrite IH, (IH (bucket_add zero_bucket b)), bucket_add_zero. by rewrite bucket_add_assoc.
Qed.

Lemma sum_buckets_cons b l : sum_buckets (b :: l) = bucket_add b (sum_buckets l).
Proof. unfold sum_buckets at 1. simpl. by rewrite bucket_add_zero, sum_buckets_acc. Qed.

Lemma sum_buckets_app l1 l2 : sum_buckets (l1 ++ l2) = bucket_add (sum_buckets l1) (sum_buckets l2).
Proof.
  induction l1 as [| b l1 IH]; simpl; [by rewrite bucket_add_zero |].
  by rewrite !sum_buckets_cons, IH, bucket_add_assoc.
Qed.

Lemma sum_buckets_zeros n : sum_buckets (replicate n zero_bucket) = zero_bucket.
Proof. induction n as [| n IH]; [done |]. simpl. by rewrite sum_buckets_cons, IH. Qed.

(** The last [n] elements, the oldest first. *)
Definition lastn {A} (n : nat) (l : list A) : list A := drop (length l - n) l.

(** One sample: the counters have reached [c], the ticker fires. *)
Definition sample (c : bucket) (d : Detector) : Detector := tick_sample (with_c c d).

(** The deltas of successive counter readings. *)
Fixpoint deltas (prev : bucket) (cs : list bucket) : list bucket :=
  match cs with [] => [] | c :: rest => bucket_delta c prev :: deltas c rest end.

(** The ring is the window rotated by the write position. *)
Record ring_inv (n : nat) (hist : list bucket) (d : Detector) : Prop := {
  ri_pos : d_ringPos d = (length hist mod n)%nat;
  ri_full : d_ringFull d = (n <=? length hist)%nat;
  ri_ring : let w := lastn n (replicate n zero_bucket ++ hist) in
            d_ring d = drop (n - d_ringPos d) w ++ take (n - d_ringPos d) w
}.

Lemma lastn_length {A} n (l : list A) : (n <= length l)%nat -> length (lastn n l) = n.
Proof. intros H. unfold lastn. rewrite length_drop. lia. Qed.

Lemma lastn_snoc {A} n (l : list A) x : (n <= length l)%nat -> (0 < n)%nat -> 
  exists y r, lastn n l = y :: r /\ lastn n (l ++ [x]) = r ++ [x].
Proof.
  intros Hl Hn. pose proof (lastn_length n l Hl) as Hlen. destruct (lastn n l) as [| y r] eqn:E; [simpl in Hlen; lia |].
  exists y, r. split; [done |]. unfold lastn in *. rewrite length_app. simpl.
  replace (length l + 1 - n)%nat with (S (length l - n)) by lia.
  rewrite drop_app_le by lia. f_equal. 
  assert (drop 1 (drop (length l - n) l) = r) as <- by (by rewrite E). rewrite drop_drop. f_equal. lia.
Qed.

Lemma sample_ring n hist c d : (0 < n)%nat -> ring_inv n hist d ->
  ring_inv n (hist ++ [bucket_delta c (d_prev d)]) (sample c d) /\ d_prev (sample c d) = c.
Proof.
  intros Hn [Hpos Hfull Hring]. set (b := bucket_delta c (d_prev d)).
  set (w := lastn n (replicate n zero_bucket ++ hist)) in *. cbv zeta in Hring.
  assert (Hlw : length w = n) by (apply lastn_length; rewrite length_app, length_replicate; lia).
  destruct (lastn_snoc n (replicate n zero_bucket ++ hist) b) as (y & r & Hw & Hw');
    [rewrite length_app, length_replicate; lia | done |].
  rewrite <- app_assoc in Hw'. fold w in Hw. assert (Hlr : S (length r) = n) by (rewrite <- Hlw, Hw; done).
  assert (Hp : (d_ringPos d < n)%nat) by (rewrite Hpos; apply Nat.mod_upper_bound; lia).
  assert (Hlen : length (d_ring d) = n) by (rewrite Hring, length_app, length_drop, length_take; lia).
  assert (Hnew : <[d_ringPos d := b]> (d_ring d) = drop (n - S (d_ringPos d)) r ++ b :: take (n - S (d_ringPos d)) r).
  { rewrite Hring, Hw. replace (n - d_ringPos d)%nat with (S (n - S (d_ringPos d))) by lia. cbn [drop take].
    rewrite insert_app_r_alt by (rewrite length_drop; lia). f_equal.
    rewrite length_drop. replace (d_ringPos d - (length r - (n - S (d_ringPos d))))%nat with 0%nat by lia. done. }
  assert (Hnext : ((length hist + 1) mod n = S (d_ringPos d) mod n)%nat).
  { rewrite Hpos. replace (S (length hist mod n)) with (length hist mod n + 1)%nat by lia. by rewrite Nat.Div0.add_mod_idemp_l. }
  assert (Hlen' : length (hist ++ [b]) = (length hist + 1)%nat) by (rewrite length_app; done).
  split; [| done]. unfold sample, tick_sample. constructor; cbn [d_ringPos d_ringFull d_ring with_c d_c d_prev]; fold b.
  - by rewrite Hlen, Hlen', Hnext.
  - rewrite Hlen, Hlen', Hfull.
    destruct (decide (S (d_ringPos d) = n)) as [He | He].
    + rewrite He, Nat.Div0.mod_same. simpl. symmetry. apply Nat.leb_le.
      assert (length hist mod n <= length hist)%nat by (apply Nat.Div0.mod_le). lia.
    + rewrite Nat.mod_small by lia. simpl.
      destruct (n <=? length hist)%nat eqn:E; symmetry; [apply Nat.leb_le in E; apply Nat.leb_le; lia |].
      apply Nat.leb_gt in E. apply Nat.leb_gt. rewrite Hpos, Nat.mod_small in He by lia. lia.
  - rewrite Hw', Hlen, Hnew.
    destruct (decide (S (d_ringPos d) = n)) as [He | He].
    + rewrite He, Nat.Div0.mod_same, !Nat.sub_diag, Nat.sub_0_r. 
      rewrite drop_0, take_0, (drop_ge (r ++ [b])), (take_ge (r ++ [b])) by (rewrite length_app; simpl; lia). done.
    + rewrite Nat.mod_small by lia. rewrite drop_app_le, take_app_le by lia. by rewrite <- app_assoc.
Qed.

(** Successive samples: the counters read [cs], one reading per tick. *)
Fixpoint sample_all (cs : list bucket) (d : Detector) : Detector :=
  match cs with [] => d | c :: rest => sample_all rest (sample c d) end.

Lemma sample_all_ring n cs : forall hist d, (0 < n)%nat -> ring_inv n hist d ->
  ring_inv n (hist ++ deltas (d_prev d) cs) (sample_all cs d).
Proof.
  induction cs as [| c cs IH]; intros hist d Hn Hr; simpl; [by rewrite app_nil_r |].
  destruct (sample_ring n hist c d Hn Hr) as [H1 H2]. specialize (IH _ _ Hn H1).
  rewrite H2, <- app_assoc in IH. exact IH.
Qed.

Lemma sample_sig c d : d_sig (sample c d) = windowSignals (sample c d).
Proof. done. Qed.

Lemma deltas_length cs : forall prev, length (deltas prev cs) = length cs.
Proof. induction cs as [| c cs IH]; intros prev; simpl; [done | by rewrite IH]. Qed.

Lemma ring_window n hist d : (0 < n)%nat -> ring_inv n hist d ->
  windowSignals d = signals_of (sum_buckets (lastn n hist)) (Z.of_nat (Nat.min n (length hist))).
Proof.
  intros Hn [Hpos Hfull Hring]. cbv zeta in Hring. unfold windowSignals. f_equal.
  - rewrite Hring, sum_buckets_app, bucket_add_comm, <- sum_buckets_app, take_drop.
    unfold lastn. rewrite length_app, length_replicate.
    destruct (decide (n <= length hist)%nat) as [H | H].
    + rewrite drop_app_ge by (rewrite length_replicate; lia). rewrite length_replicate. do 2 f_equal. lia.
    + rewrite drop_app_le by (rewrite length_replicate; lia). rewrite sum_buckets_app, drop_replicate, sum_buckets_zeros.
      rewrite bucket_add_zero. by replace (length hist - n)%nat with 0%nat by lia.
  - rewrite Hfull. destruct (n <=? length hist)%nat eqn:E; [apply Nat.leb_le in E | apply Nat.leb_gt in E].
    + f_equal. rewrite Hring, length_app, length_drop, length_take.
      rewrite lastn_length by (rewrite length_app, length_replicate; lia). lia.
    + rewrite Hpos, Nat.mod_small by lia. f_equal. lia.
Qed.

(** ** The shared vote *)

(** What the detector relies on: whether an instance has a vote in the store,
    that a call touches only its own instance's vote, that a store answering
    "unsupported" holds no votes, and that a successful delete leaves none. *)
Class VoteLaws (V : Type) `{!PostureVotes V} := {
  voted : V -> gostring -> Prop;
  vote_set_law : forall t id level ttl v,
    let '(v', r) := vote_set t id level ttl v in
    (r = Err EUnsupported -> ~ voted v' id) /\ forall id', id' <> id -> (voted v' id' <-> voted v id');
  vote_delete_law : forall id v,
    let '(v', r) := vote_delete id v in
    (r = Ok tt -> ~ voted v' id) /\ forall id', voted v' id' -> voted v id';
  vote_delete_unsupported : forall id v v', vote_delete id v = (v', Err EUnsupported) -> ~ voted v' id;
  vote_max_law : forall t id v, let '(v', _) := vote_max t id v in forall id', voted v' id' -> voted v id'
}.

#[export] Program Instance memory_vote_laws : VoteLaws ShardedMemory := {
  voted := fun s id => is_Some (sm_postureVotes s !! id)
}.
Next Obligation.
  intros t id level ttl v. simpl. unfold SetPostureVote.
  destruct (_ || _ || _); simpl; (split; [done |]); intros id' H; [done | by rewrite lookup_insert_ne].
Qed.
Next Obligation.
  intros id v. simpl. split.
  - intros _. rewrite lookup_delete_eq. by intros [].
  - intros id'. destruct (decide (id = id')) as [-> |]; [rewrite lookup_delete_eq; by intros [] | by rewrite lookup_delete_ne].
Qed.
Next Obligation. done. Qed.
Next Obligation.
  intros t id v. simpl. intros id' [x Hx]. apply map_lookup_filter_Some in Hx as [Hx _]. by rewrite Hx.
Qed.

Section Votes.
Context {V : Type} `{VoteLaws V}.

(** A vote of ours in the store is remembered. *)
Definition vote_known (d : Detector) (st : posture_store V) : Prop :=
  match st with
  | VoteStore v => voted v (d_instanceID d) -> d_voteLive d = true
  | _ => True
  end.

Lemma clear_known d st : vote_known d st -> vote_known (clearSharedVote d st).1 (clearSharedVote d st).2.
Proof.
  destruct st as [| | v]; simpl; try done. intros Hk. destruct (d_voteLive d) eqn:El; simpl; [| by rewrite El].
  pose proof (vote_delete_law (d_instanceID d) v) as Hd. destruct (vote_delete (d_instanceID d) v) as [v' r].
  destruct Hd as [Hok Hsub]. destruct r as [[]|e]; simpl; [intros Hv; by destruct (Hok eq_refl) | done].
Qed.

(** After a clear whose delete succeeded, or with no vote alive, none is there. *)
Lemma clear_gone d v : vote_known d (VoteStore v) ->
  forall v', (clearSharedVote d (VoteStore v)).2 = VoteStore v' ->
  d_voteLive (clearSharedVote d (VoteStore v)).1 = false -> ~ voted v' (d_instanceID d).
Proof.
  intros Hk v'. simpl. destruct (d_voteLive d) eqn:El.
  - pose proof (vote_delete_law (d_instanceID d) v) as Hd. destruct (vote_delete (d_instanceID d) v) as [v1 r].
    destruct Hd as [Hok _]. simpl. intros [= ->]. destruct r as [[]|e]; simpl; [auto | by rewrite El].
  - simpl. intros [= ->] _ Hv. specialize (Hk Hv). congruence.
Qed.

Lemma clear_shape d st : clearSharedVote d st = ((clearSharedVote d st).1, (clearSharedVote d st).2) /\
  ((clearSharedVote d st).1 = d \/ (clearSharedVote d st).1 = set_voteLive false d).
Proof.
  split; [by destruct (clearSharedVote d st) |]. destruct st as [| | v]; simpl; auto.
  destruct (d_voteLive d); simpl; auto. destruct (vote_delete _ _) as [v' r]. simpl. destruct (is_ok r); auto.
Qed.

Lemma share_known t local d st : vote_known d st ->
  let '(_, d', st') := sharePosture t local d st in
  vote_known d' st' /\ exists b, d' = set_voteLive b d \/ d' = d.
Proof.
  intros Hk. destruct st as [| | v]; simpl; [by split; [| exists true; right] | by split; [| exists true; right] |].
  destruct (d_pinned d || negb (Enabled (d_cfg d)) || negb (SharePosture (d_cfg d))).
  - pose proof (clear_known d (VoteStore v) Hk) as Hc. destruct (clear_shape d (VoteStore v)) as [Heq Hs].
    simpl in Heq, Hc, Hs. rewrite Heq. split; [done |]. exists false. tauto.
  - destruct (Normal <? local).
    + pose proof (vote_set_law t (d_instanceID d) local (Window (d_cfg d)) v) as Hs. simpl.
      destruct (vote_set t (d_instanceID d) local (Window (d_cfg d)) v) as [v1 r1]. destruct Hs as [Hun _].
      match goal with |- context [vote_max ?t ?id v1] => pose proof (vote_max_law t id v1) as Hm; destruct (vote_max t id v1) as [v2 r2] end.
      destruct r1 as [|[]]; simpl; (split; [| eexists; left; reflexivity]); try done.
      intros Hv. apply Hm in Hv. by destruct (Hun eq_refl).
    + pose proof (vote_delete_law (d_instanceID d) v) as Hd. pose proof (vote_delete_unsupported (d_instanceID d) v) as Hun.
      destruct (vote_delete (d_instanceID d) v) as [v1 r1]. destruct Hd as [Hok Hsub].
      match goal with |- context [vote_max ?t ?id v1] => pose proof (vote_max_law t id v1) as Hm; destruct (vote_max t id v1) as [v2 r2] end.
      destruct r1 as [[]|[]]; simpl; (split; [| first [by exists false; left | by exists false; right]]);
        intros Hv; apply Hm in Hv; try (by apply Hk, Hsub).
      * by destruct (Hok eq_refl).
      * by destruct (Hun v1 eq_refl).
Qed.

(** Detector operations on its store, at any clock readings. *)
Inductive posture_step : Detector * posture_store V -> Detector * posture_store V -> Prop :=
| ps_feed c d st : posture_step (d, st) (with_c c d, st)
| ps_tick t now d st d' st' tr : tick t now d st = Some (d', st', tr) -> posture_step (d, st) (d', st')
| ps_pin level ttl now d st d' st' : level_ok level -> Pin level ttl now d st = Some (d', st') -> posture_step (d, st) (d', st')
| ps_unpin now d st d' : Unpin now d = Some d' -> posture_step (d, st) (d', st)
| ps_config cfg d st : posture_step (d, st) (SetConfig cfg d st).

(** A fresh detector on a store without its vote. *)
Definition posture_start (x : Detector * posture_store V) : Prop :=
  exists cfg id now, x.1 = New cfg id now /\ match x.2 with VoteStore v => ~ voted v id | _ => True end.

Definition posture_inv (x : Detector * posture_store V) : Prop := wf x.1 /\ vote_known x.1 x.2.

Lemma wf_fields d d' : d_lastAbove d' = d_lastAbove d -> d_localLvl d' = d_localLvl d -> d_state d' = d_state d ->
  (d_pinned d' = true -> level_ok (d_pinLevel d')) -> wf d -> wf d'.
Proof. intros H1 H2 H3 H4 []. constructor; rewrite ?H1, ?H2, ?H3; auto. Qed.

Lemma wf_voteLive b d : wf d -> wf (set_voteLive b d).
Proof. intros Hw. apply (wf_fields d); try done. apply Hw. Qed.

(** The part of [tick] before the evaluation. *)
Definition tick_peer (t : clock) (d : Detector) (st : posture_store V) : Z * Detector * posture_store V :=
  if Enabled (d_cfg d) && SharePosture (d_cfg d) && (if st is NoStore then false else true) && negb (d_pinned d)
  then sharePosture t (d_localLvl d) d st
  else let '(d, st) := clearSharedVote d st in (Normal, d, st).

Lemma tick_unfold t now d st : tick t now d st =
  let '(peer, d', st') := tick_peer t (tick_sample d) st in
  dt ← evaluate (d_cfg d) (d_sig (tick_sample d)) peer now d'; Some (dt.1, st', dt.2).
Proof. done. Qed.

Lemma tick_peer_known t d st : vote_known d st ->
  let '(_, d', st') := tick_peer t d st in vote_known d' st' /\ exists b, d' = set_voteLive b d \/ d' = d.
Proof.
  intros Hk. unfold tick_peer. destruct (_ && negb (d_pinned d)); [by apply share_known |].
  pose proof (clear_known d st Hk) as Hc. destruct (clear_shape d st) as [-> Hs]. split; [done |]. exists false. tauto.
Qed.

Lemma known_fields d d' st : d_instanceID d' = d_instanceID d -> d_voteLive d' = d_voteLive d ->
  vote_known d st -> vote_known d' st.
Proof. intros H1 H2. destruct st; simpl; [done | done |]. by rewrite H1, H2. Qed.

Lemma tick_inv t now d st : posture_inv (d, st) ->
  exists d' st' tr, tick t now d st = Some (d', st', tr) /\ posture_inv (d', st').
Proof.
  intros [Hw Hk]. simpl in *. rewrite tick_unfold.
  assert (Hk1 : vote_known (tick_sample d) st) by (by apply (known_fields d)).
  assert (Hw1 : wf (tick_sample d)) by (apply (wf_fields d); try done; apply Hw).
  pose proof (tick_peer_known t (tick_sample d) st Hk1) as Hp.
  destruct (tick_peer t (tick_sample d) st) as [[peer d1] st1]. destruct Hp as [Hk2 [b Hb]].
  assert (Hw2 : wf d1) by (destruct Hb as [-> | ->]; [by apply wf_voteLive | done]).
  destruct (evaluate_total (d_cfg d) (d_sig (tick_sample d)) peer now d1 Hw2) as (d2 & tr & -> & Hw3 & _ & _ & Hl & Hid & _).
  exists d2, st1, tr. split; [done |]. split; [done |]. by apply (known_fields d1).
Qed.

Lemma Pin_inv level ttl now d st : level_ok level -> posture_inv (d, st) ->
  exists d1, recompute now (set_pin true level (if 0 <? ttl then wrap64 (now + ttl) else 0) d) = Some d1 /\
    Pin level ttl now d st = Some (clearSharedVote d1.1 st) /\ posture_inv (d1.1, st) /\ posture_inv (clearSharedVote d1.1 st).
Proof.
  intros Hl [Hw Hk]. simpl in *. unfold Pin, recompute. set (until := if 0 <? ttl then wrap64 (now + ttl) else 0).
  assert (Hw1 : wf (set_pin true level until d)) by (by apply (wf_fields d)).
  destruct (evaluate_total (d_cfg (set_pin true level until d)) (d_sig (set_pin true level until d)) Normal now _ Hw1)
    as (d2 & tr & -> & Hw3 & _ & _ & Hv & Hid & _).
  assert (Hk2 : vote_known d2 st) by (by apply (known_fields d)).
  exists (d2, tr). split_ands; try done.
  pose proof (clear_known d2 st Hk2) as Hc. destruct (clear_shape d2 st) as [Heq Hs]. simpl. rewrite Heq. split; [| done].
  simpl. destruct Hs as [-> | ->]; [done | by apply wf_voteLive].
Qed.

Lemma Unpin_inv now d st : posture_inv (d, st) -> exists d', Unpin now d = Some d' /\ posture_inv (d', st).
Proof.
  intros [Hw Hk]. simpl in *. unfold Unpin, recompute.
  assert (Hw1 : wf (set_pin false (d_pinLevel d) (d_pinUntil d) d)) by (by apply (wf_fields d)).
  destruct (evaluate_total (d_cfg (set_pin false (d_pinLevel d) (d_pinUntil d) d))
    (d_sig (set_pin false (d_pinLevel d) (d_pinUntil d) d)) Normal now _ Hw1) as (d2 & tr & -> & Hw3 & _ & _ & Hv & Hid & _).
  exists d2. split; [done |]. split; [done |]. by apply (known_fields d).
Qed.

Lemma SetConfig_inv cfg d st : posture_inv (d, st) -> posture_inv (SetConfig cfg d st).
Proof.
  intros [Hw Hk]. simpl in *. unfold SetConfig.
  assert (Hw1 : wf (applyConfig cfg d)) by (apply (wf_fields d); try done; apply Hw).
  assert (Hk1 : vote_known (applyConfig cfg d) st) by (by apply (known_fields d)).
  destruct (_ || _); [| by split]. pose proof (clear_known _ st Hk1) as Hc.
  destruct (clear_shape (applyConfig cfg d) st) as [_ Hs].
  split; [| exact Hc]. destruct Hs as [-> | ->]; [done | by apply wf_voteLive].
Qed.

Lemma posture_step_inv x y : posture_step x y -> posture_inv x -> posture_inv y.
Proof.
  intros Hs Hi. destruct Hs as [c d st | t now d st d' st' tr Ht0 | level ttl now d st d' st' Hl Hp0 | now d st d' Hu0 | cfg d st].
  - destruct Hi as [Hw Hk]. split; simpl in *; [apply (wf_fields d); try done; apply Hw | by apply (known_fields d)].
  - destruct (tick_inv t now d st Hi) as (? & ? & ? & Ht & Hi'). rewrite Ht in Ht0. by simplify_eq.
  - destruct (Pin_inv level ttl now d st Hl Hi) as (d1 & _ & Hp & _ & Hi'). rewrite Hp in Hp0. injection Hp0 as Hp0. by rewrite Hp0 in Hi'.
  - destruct (Unpin_inv now d st Hi) as (? & Hu & Hi'). rewrite Hu in Hu0. by simplify_eq.
  - by apply SetConfig_inv.
Qed.

Lemma posture_reach_inv x y : posture_start x -> rtc posture_step x y -> posture_inv y.
Proof.
  intros (cfg & id & now & Hx & Hv) Hr. apply (rtc_invariant posture_step posture_inv) with (x := x); [exact posture_step_inv | done |].
  destruct x as [d st]. simpl in *. subst d. split; simpl.
  - constructor; simpl; unfold level_ok; try done; vm_compute; split; discriminate.
  - destruct st; simpl; [done | done |]. intros H'. by destruct Hv.
Qed.
End Votes.

(** ** Runs in time *)

(** What happens to a detector left to itself after [t0]: evaluations at clocks
    that do not go backwards, under any configuration with detection enabled,
    any signals and peer votes, none of which finds a pin in force; and the
    operations between them, raises, reloads and pins that lapse or are
    withdrawn before an evaluation sees them included. *)
Inductive automatic (t0 : Z) (d0 : Detector) : Z -> Detector -> Prop :=
| auto_now : automatic t0 d0 t0 d0
| auto_eval cfg sig peer t now d d' tr : automatic t0 d0 t d -> t <= now ->
    (resolvePin d now).1 = None -> Enabled cfg = true ->
    evaluate cfg sig peer now d = Some (d', tr) -> automatic t0 d0 now d'
| auto_feed c t d : automatic t0 d0 t d -> automatic t0 d0 t (with_c c d)
| auto_sample t d : automatic t0 d0 t d -> automatic t0 d0 t (tick_sample d)
| auto_pin b level until t d : automatic t0 d0 t d -> level_ok level -> automatic t0 d0 t (set_pin b level until d)
| auto_config cfg t d : automatic t0 d0 t d -> automatic t0 d0 t (applyConfig cfg d)
| auto_vote b t d : automatic t0 d0 t d -> automatic t0 d0 t (set_voteLive b d).

(** The level published since [t0] has had its dwell restarted since. *)
Record dwelling (t0 : Z) (d : Detector) : Prop := {
  dw_wf : wf d;
  dw_local : d_localLvl d <= st_Level (d_state d);
  dw_reason : st_Reason (d_state d) <> lit "forced";
  dw_last : Normal < st_Level (d_state d) ->
    exists last, d_lastAbove d !! Z.to_nat (st_Level (d_state d)) = Some last /\ t0 <= last
}.

Lemma dwelling_fields t0 d d' : d_lastAbove d' = d_lastAbove d -> d_localLvl d' = d_localLvl d -> d_state d' = d_state d ->
  (d_pinned d' = true -> level_ok (d_pinLevel d')) -> dwelling t0 d -> dwelling t0 d'.
Proof. intros H1 H2 H3 H4 []. constructor; rewrite ?H1, ?H2, ?H3; try done. by apply (wf_fields d). Qed.

Lemma dwelling_eval t0 cfg sig peer now d d' : t0 <= now -> dwelling t0 d -> decision cfg sig peer now d d' -> dwelling t0 d'.
Proof.
  intros Hn [] []. constructor; [done | done | by apply dc_reason0 |]. intros Hpos.
  destruct (Z.lt_trichotomy (st_Level (d_state d')) (st_Level (d_state d))) as [Hlt | [Heq | Hgt]].
  - exists now. split; [by apply dc_fresh0 | done].
  - rewrite Heq in *. destruct (dw_last0 Hpos) as (last & Hl & Hle). destruct (dc_dwell0 _ _ Hl) as [H | H]; eexists; (split; [exact H | lia]).
  - exists now. split; [by apply dc_raise0 | done].
Qed.

Lemma automatic_dwelling t0 d0 t d : automatic t0 d0 t d -> dwelling t0 d0 -> dwelling t0 d /\ t0 <= t.
Proof.
  intros Ha Hd.
  induction Ha as [| cfg sig peer t now d d' tr _ IH Ht Hp Hen He | c t d _ IH | t d _ IH | b level until t d _ IH Hok | cfg t d _ IH | b t d _ IH].
  1: { split; [done | lia]. }
  all: destruct IH as [Hw Hle].
  1: { destruct (evaluate_auto cfg sig peer now d (dw_wf _ _ Hw) Hp Hen) as (d2 & tr2 & He2 & Hdec).
       rewrite He2 in He. simplify_eq. split; [| lia]. by apply (dwelling_eval t0 cfg sig peer now d); [lia | |]. }
  all: split; [apply (dwelling_fields t0 d); try done; apply Hw | done].
Qed.

(** * Properties *)

(** One unpinned evaluation enters Attack (or at least Elevated, or the
    peers' level) at once when its signal fires, and leaves a level only one
    step at a time, only after the level's dwell has passed and only when
    neither its entry nor its half-threshold condition holds. *)
Theorem posture_hysteresis cfg sig peer now d : wf d -> (resolvePin d now).1 = None -> Enabled cfg = true ->
  0 < MinDwell cfg -> now <> 0 ->
  exists d' tr, evaluate cfg sig peer now d = Some (d', tr) /\ wf d' /\
    ((attackSignal cfg sig).1 = true -> st_Level (d_state d') = Attack) /\
    ((elevatedSignal cfg sig).1 = true -> Elevated <= st_Level (d_state d')) /\
    peer_of peer <= st_Level (d_state d') /\
    (st_Reason (d_state d) <> lit "forced" -> st_Level (d_state d') < st_Level (d_state d) ->
      st_Level (d_state d') = st_Level (d_state d) - 1 /\
      (exists last, d_lastAbove d !! Z.to_nat (st_Level (d_state d)) = Some last /\
        (last = 0 \/ MinDwell cfg <= now - last)) /\
      (st_Level (d_state d) = Attack -> (attackSignal cfg sig).1 = false /\ attackHalf cfg sig = false) /\
      (st_Level (d_state d) = Elevated -> (elevatedSignal cfg sig).1 = false /\ elevatedHalf cfg sig = false)).
Proof.
  intros Hw Hp He Hm Hn. destruct (evaluate_auto cfg sig peer now d Hw Hp He) as (d' & tr & Hev & []).
  exists d', tr. split_ands; try done. intros Hr Hlt. destruct (dc_quiet0 Hr Hlt Hm Hn) as (H1 & H2 & H3). split_ands; auto.
Qed.

Definition ex_cfg : Config :=
  mk_config true (60 * second) (30 * second) true (f64 10) (f64 40) (fdiv (f64 1) (f64 4)) (f64 0) (f64 0) (f64 0)
    2 4 24 false true.
Definition ex_sig (rate : Z) : Signals := mk_signals (f64 rate) (f64 0) (f64 0) (f64 0) (f64 0).

(** A detector that entered Attack at second 100. *)
Definition ex_attack : Detector :=
  match evaluate ex_cfg (ex_sig 50) Normal (100 * second) (New ex_cfg (lit "a") second) with
  | Some (d, _) => d | None => New ex_cfg (lit "a") second end.

Lemma ex_attack_wf : wf ex_attack.
Proof. constructor; [done | | | done]; vm_compute; split; discriminate. Qed.

Theorem posture_hysteresis_witness : exists d' tr, evaluate ex_cfg (ex_sig 1) Normal (131 * second) ex_attack = Some (d', tr) /\
  st_Level (d_state ex_attack) = Attack /\ st_Level (d_state d') = Elevated /\ wf d'.
Proof.
  destruct (posture_hysteresis ex_cfg (ex_sig 1) Normal (131 * second) ex_attack ex_attack_wf eq_refl eq_refl ltac:(done) ltac:(done))
    as (d' & tr & He & Hw & _).
  exists d', tr. split; [done |]. split; [done |]. split; [| done].
  vm_compute in He. injection He as <- _. vm_compute. reflexivity.
Defined.


Definition ex_run (now : Z) (d : Detector) : Detector :=
  match evaluate ex_cfg (ex_sig 1) Normal now d with Some (d', _) => d' | None => d end.
Definition ex_tr (now : Z) (d : Detector) : option (Z * Z * gostring) :=
  match evaluate ex_cfg (ex_sig 1) Normal now d with Some (_, tr) => tr | None => None end.

(** Attack at second 100, down to Elevated at 131; raised again by a peer's
    Attack vote at 140, which is withdrawn, the posture drops at 171. *)
Definition ex_peer (now : Z) (d : Detector) : Detector :=
  match evaluate ex_cfg (ex_sig 1) Attack now d with Some (d', _) => d' | None => d end.
Definition ex_peer_tr (now : Z) (d : Detector) : option (Z * Z * gostring) :=
  match evaluate ex_cfg (ex_sig 1) Attack now d with Some (_, tr) => tr | None => None end.
Definition ex_down : Detector := ex_run (131 * second) ex_attack.
Definition ex_up : Detector := ex_peer (140 * second) ex_down.


(** A pin to Attack at second 132, one second after that drop, and an unpin at
    133: the posture drops again at once, with no dwell. *)
Example unpinned_posture_drops_at_once :
  (fun d => st_Level (d_state d)) <$> (x ← Pin Attack 0 (132 * second) ex_down (@NoStore ShardedMemory); Unpin (133 * second) x.1) =
  Some Elevated.
Proof. vm_compute. reflexivity. Qed.

(** In every reachable detector state the published and local levels are
    valid, no operation can index outside lastAbove, and a vote of this
    instance in the shared store is remembered as live, on any vote store that
    obeys the vote laws. *)
Theorem posture_reachable_safe {V} `{VoteLaws V} x y (Hstart : posture_start x) (Hreach : rtc posture_step x y) :
  let '(d, st) := y in
  level_ok (st_Level (d_state d)) /\ level_ok (d_localLvl d) /\ vote_known d st /\
  (forall t now, is_Some (tick t now d st)) /\
  (forall level ttl now, level_ok level -> is_Some (Pin level ttl now d st)) /\
  (forall now, is_Some (Unpin now d)).
Proof.
  pose proof (posture_reach_inv x y Hstart Hreach) as Hi. destruct y as [d st]. destruct Hi as [Hw Hk].
  split_ands; [apply Hw | apply Hw | done | | |].
  - intros t now. destruct (tick_inv t now d st (conj Hw Hk)) as (d' & st' & tr & -> & _). done.
  - intros level ttl now Hl. destruct (Pin_inv level ttl now d st Hl (conj Hw Hk)) as (d1 & _ & -> & _). done.
  - intros now. destruct (Unpin_inv now d st (conj Hw Hk)) as (d' & -> & _). done.
Qed.

Definition ex_start : Detector * posture_store ShardedMemory := (New ex_cfg (lit "a") second, VoteStore NewMemory).
Lemma ex_start_ok : posture_start ex_start.
Proof. exists ex_cfg, (lit "a"), second. split; [done |]. simpl. unfold NewMemory, NewShardedMemory. simpl. rewrite lookup_empty. by intros []. Qed.

Theorem posture_reachable_safe_witness :
  rtc posture_step ex_start (ChallengeIssued ex_start.1, ex_start.2) /\
  is_Some (tick (fun _ => second) second (ChallengeIssued ex_start.1) ex_start.2).
Proof.
  assert (Hr : rtc posture_step ex_start (ChallengeIssued ex_start.1, ex_start.2)) by (apply rtc_once; constructor).
  split; [exact Hr |].
  destruct (posture_reachable_safe ex_start _ ex_start_ok Hr) as (_ & _ & _ & Ht & _). apply Ht.
Defined.

(** A pin publishes exactly the pinned level, and once its withdrawal of
    the shared vote has succeeded the store holds no vote of this instance and
    no later pinned tick writes one. *)
Theorem pin_overrides_and_withdraws_vote {V} `{VoteLaws V} x d v level ttl now d' v'
  (Hstart : posture_start x) (Hreach : rtc posture_step x (d, VoteStore v)) (Hl : level_ok level)
  (Hpin : Pin level ttl now d (VoteStore v) = Some (d', VoteStore v'))
  (Hlive : ttl <= 0 \/ (0 < ttl /\ 0 < now /\ int64_ok (now + ttl))) :
  st_Level (d_state d') = level /\ Pinned (Some d') = (level, true) /\
  (d_voteLive d' = false -> ~ voted v' (d_instanceID d') /\
    forall t now' d'' st'' tr, tick t now' d' (VoteStore v') = Some (d'', st'', tr) -> st'' = VoteStore v').
Proof.
  pose proof (posture_reach_inv x _ Hstart Hreach) as Hi.
  destruct (Pin_inv level ttl now d (VoteStore v) Hl Hi) as ([d1 tr1] & Hrec & Hp & [_ Hk] & _). rewrite Hp in Hpin.
  cbn [fst] in Hpin, Hp, Hk. destruct (clear_shape d1 (VoteStore v)) as [Heq Hs].
  assert (Hc : clearSharedVote d1 (VoteStore v) = (d', VoteStore v')) by congruence.
  set (until := if 0 <? ttl then wrap64 (now + ttl) else 0) in *.
  assert (Hd1 : st_Level (d_state d1) = level /\ d_pinned d1 = true /\ d_pinLevel d1 = level).
  { unfold recompute, evaluate in Hrec.
    assert (resolvePin (set_pin true level until d) now = (Some level, true)) as Hres.
    { unfold resolvePin, until; cbn [d_pinned set_pin d_pinUntil d_pinLevel negb]. destruct Hlive as [Ht | (Ht & Hn & Hok)].
      - rewrite (proj2 (Z.ltb_ge _ _)) by lia. done.
      - rewrite (proj2 (Z.ltb_lt _ _)) by lia. rewrite (wrap64_id _ Hok).
        destruct (now + ttl <=? now) eqn:E; bool_to_prop; [lia | by rewrite andb_false_r]. }
    rewrite Hres in Hrec.
    match type of Hrec with context [publish ?c ?l ?r ?n ?s] =>
      pose proof (publish_level c l r n s) as Hpub; destruct (publish c l r n s) as [s' tr'] end.
    cbn [fst] in Hpub. injection Hrec as Hd _. rewrite <- Hd. done. }
  destruct Hd1 as (H1 & H2 & H3).
  assert (Hd' : d' = d1 \/ d' = set_voteLive false d1) by (rewrite Hc in Hs; exact Hs).
  assert (Hf : st_Level (d_state d') = level /\ d_pinned d' = true /\ d_pinLevel d' = level /\ d_instanceID d' = d_instanceID d1)
    by (destruct Hd' as [-> | ->]; done).
  destruct Hf as (F1 & F2 & F3 & F4). split_ands; [done | unfold Pinned; by rewrite F2, F3 |].
  intros Hvl. split.
  - rewrite F4. apply (clear_gone d1 v Hk v'); rewrite Hc; done.
  - intros t now' d'' st'' tr Ht. rewrite tick_unfold in Ht. unfold tick_peer in Ht.
    cbn [d_pinned tick_sample] in Ht. rewrite F2, andb_false_r in Ht. simpl in Ht. rewrite Hvl in Ht.
    apply bind_Some in Ht as ([d2 tr2] & _ & Ht). by simplify_eq.
Qed.

(** Two ticks under 5,000 challenges per window put the instance's vote in the store. *)
Definition ex_tick (now : Z) (x : Detector * posture_store ShardedMemory) : Detector * posture_store ShardedMemory :=
  match tick (fun _ => now) now x.1 x.2 with Some (d, st, _) => (d, st) | None => x end.
Definition ex_voting : Detector * posture_store ShardedMemory :=
  ex_tick (12 * second) (ex_tick (7 * second) (with_c (mk_bucket 5000 5000 0 0 0 0) ex_start.1, ex_start.2)).

Lemma ex_tick_step now x : is_Some (tick (fun _ => now) now x.1 x.2) -> posture_step x (ex_tick now x).
Proof.
  destruct x as [d st]. unfold ex_tick. simpl. intros [[[d' st'] tr] Ht]. rewrite Ht. by eapply ps_tick.
Qed.

Lemma ex_voting_reach : rtc posture_step ex_start ex_voting.
Proof.
  eapply rtc_l; [| eapply rtc_l; [| eapply rtc_l; [| apply rtc_refl]]].
  - apply (ps_feed (mk_bucket 5000 5000 0 0 0 0) ex_start.1 ex_start.2).
  - apply (ex_tick_step (7 * second)). vm_compute. eexists; reflexivity.
  - apply (ex_tick_step (12 * second)). vm_compute. eexists; reflexivity.
Qed.

Definition ex_votes (x : posture_store ShardedMemory) : ShardedMemory := if x is VoteStore v then v else NewMemory.
Lemma ex_voting_shape : (ex_voting.1, VoteStore (ex_votes ex_voting.2)) = ex_voting.
Proof.
  assert (H : (if ex_voting.2 is VoteStore _ then true else false) = true) by (vm_compute; reflexivity).
  destruct ex_voting as [d [| | v]]; simpl in *; [discriminate | discriminate | reflexivity].
Qed.
Definition ex_pin : Detector * posture_store ShardedMemory :=
  match Pin Elevated 0 (13 * second) ex_voting.1 ex_voting.2 with Some x => x | None => ex_voting end.

Theorem pin_overrides_and_withdraws_vote_witness :
  is_Some (sm_postureVotes (ex_votes ex_voting.2) !! lit "a") /\
  ~ is_Some (sm_postureVotes (ex_votes ex_pin.2) !! lit "a").
Proof.
  split; [vm_compute; eexists; reflexivity |].
  assert (Hr : rtc posture_step ex_start (ex_voting.1, VoteStore (ex_votes ex_voting.2)))
    by (rewrite ex_voting_shape; exact ex_voting_reach).
  assert (Hl : level_ok Elevated) by (vm_compute; split; discriminate).
  assert (Hp : Pin Elevated 0 (13 * second) ex_voting.1 (VoteStore (ex_votes ex_voting.2)) =
    Some (ex_pin.1, VoteStore (ex_votes ex_pin.2))) by (vm_compute; reflexivity).
  assert (Hg : d_voteLive ex_pin.1 = false) by (vm_compute; reflexivity).
  assert (Hid : d_instanceID ex_pin.1 = lit "a") by (vm_compute; reflexivity).
  pose proof (pin_overrides_and_withdraws_vote _ _ _ Elevated 0 (13 * second) _ _ ex_start_ok Hr Hl Hp (or_introl (Z.le_refl 0)))
    as (_ & _ & Hgone).
  specialize (Hgone Hg) as [Hv _]. rewrite Hid in Hv. exact Hv.
Defined.

(** The posture can only raise the proof-of-work difficulty: the effective
    base and maximum are at least the configured ones, at most the configured
    ones plus the extra bits, ordered, and capped. *)
Theorem effective_bits_only_raise s baseBits maxBits capBits (Hx : 0 <= st_ExtraBits s) (Hbm : baseBits <= maxBits) :
  let '(effBase, effMax) := EffectiveBits (Some s) baseBits maxBits capBits in
  baseBits <= effBase <= baseBits + st_ExtraBits s /\ maxBits <= effMax <= maxBits + st_ExtraBits s /\
  effBase <= effMax <= Z.max capBits maxBits /\
  (maxBits + st_ExtraBits s <= capBits -> effBase = baseBits + st_ExtraBits s /\ effMax = maxBits + st_ExtraBits s).
Proof.
  unfold EffectiveBits. destruct (st_ExtraBits s =? 0) eqn:E; bool_to_prop; lia.
Qed.

Theorem effective_bits_only_raise_witness :
  EffectiveBits (Some (d_state ex_attack)) 18 22 24 = (22, 24) /\
  let '(b, m) := EffectiveBits (Some (d_state ex_attack)) 18 22 24 in 18 <= b /\ 22 <= m.
Proof.
  split; [vm_compute; reflexivity |].
  destruct (EffectiveBits (Some (d_state ex_attack)) 18 22 24) as [b m] eqn:E.
  assert (0 <= st_ExtraBits (d_state ex_attack)) as Hx by (vm_compute; discriminate).
  pose proof (effective_bits_only_raise (d_state ex_attack) 18 22 24 Hx ltac:(lia)) as H. rewrite E in H. lia.
Defined.

(** After any number of ticks the signals are those of the deltas of the
    last min(window, ticks) counter readings: the ring buffer implements the
    sliding window. *)
Theorem window_is_last_deltas cfg id now c cs :
  let n := ring_size cfg in
  let d := sample_all (c :: cs) (New cfg id now) in
  d_sig d = signals_of (sum_buckets (lastn n (deltas zero_bucket (c :: cs))))
    (Z.of_nat (Nat.min n (S (length cs)))).
Proof.
  intros n d. assert (Hn : (0 < n)%nat) by (unfold n, ring_size; lia).
  assert (Hr : ring_inv n (deltas zero_bucket (c :: cs)) d).
  { unfold d. apply (sample_all_ring n (c :: cs) [] (New cfg id now) Hn).
    constructor; simpl; rewrite ?length_replicate; fold n.
    - by rewrite Nat.Div0.mod_0_l.
    - symmetry. apply Nat.leb_gt. lia.
    - unfold lastn. rewrite !app_nil_r, length_replicate, Nat.sub_diag, drop_0, Nat.sub_0_r.
      rewrite drop_ge, take_ge by (rewrite length_replicate; lia). done. }
  assert (d_sig d = windowSignals d) as ->.
  { unfold d. clear. simpl. assert (forall cs d0, d_sig d0 = windowSignals d0 -> d_sig (sample_all cs d0) = windowSignals (sample_all cs d0)) as Hg.
    { induction cs0 as [| x xs IH]; intros d0 H0; simpl; [done | by apply IH]. }
    by apply Hg. }
  rewrite (ring_window n _ d Hn Hr), deltas_length. done.
Qed.
