(* ===== verification/Bytes.v ===== *)
(** * Byte slices, hexadecimal, big-endian integers, SHA-256

    Slice expressions with their bounds panic, [encoding/hex],
    [encoding/binary.BigEndian], [crypto/sha256] and [crypto/hmac] as the
    proof-of-work code uses them, all executable. *)

From S2P Require Export GoStd.

(** ** Slicing *)

(** [s[lo:hi]]; [None] is the bounds panic. *)
Definition slice (s : gostring) (lo hi : Z) : option gostring :=
  if (0 <=? lo) && (lo <=? hi) && (hi <=? Z.of_nat (length s))
  then Some (take (Z.to_nat (hi - lo)) (drop (Z.to_nat lo) s)) else None.

(** [s[i]]. *)
Definition index (s : gostring) (i : Z) : option ascii := if 0 <=? i then s !! Z.to_nat i else None.

Definition len (s : gostring) : Z := Z.of_nat (length s).

Lemma len_app a b : len (a ++ b) = len a + len b.
Proof. unfold len. rewrite length_app. lia. Qed.
Lemma len_cons c b : len (c :: b) = 1 + len b.
Proof. unfold len. simpl length. lia. Qed.
Lemma len_nonneg s : 0 <= len s.
Proof. unfold len. lia. Qed.
Lemma len_nil : len [] = 0.
Proof. done. Qed.

Lemma slice_in s lo hi : 0 <= lo -> lo <= hi -> hi <= len s ->
  exists r, slice s lo hi = Some r /\ len r = hi - lo.
Proof.
  intros H1 H2 H3. unfold slice, len in *. rewrite !(proj2 (Z.leb_le _ _)) by lia. simpl. eexists; split; [done |].
  rewrite length_take, length_drop. lia.
Qed.

(** A slice that falls on a chunk of a concatenation. *)
Lemma slice_app a b c lo hi : len a = lo -> lo + len b = hi -> slice (a ++ b ++ c) lo hi = Some b.
Proof.
  unfold slice, len. intros H1 H2. rewrite !length_app.
  rewrite !(proj2 (Z.leb_le _ _)) by lia. simpl. f_equal.
  rewrite drop_app_length' by lia. rewrite take_app_length' by lia. done.
Qed.

Lemma slice_app_end a b lo hi : len a = lo -> lo + len b = hi -> slice (a ++ b) lo hi = Some b.
Proof. intros H1 H2. rewrite <- (app_nil_r b) at 1. by apply slice_app. Qed.

Lemma slice_Some s lo hi r : slice s lo hi = Some r ->
  0 <= lo <= hi /\ hi <= len s /\ r = take (Z.to_nat (hi - lo)) (drop (Z.to_nat lo) s).
Proof.
  unfold slice, len. destruct ((0 <=? lo) && (lo <=? hi) && (hi <=? Z.of_nat (length s))) eqn:E; [| done].
  intros [= <-]. bool_to_prop. split_ands; try done; lia.
Qed.

(** Consecutive slices put a string together again. *)
Lemma slice_cat s a b c x y : slice s a b = Some x -> slice s b c = Some y -> slice s a c = Some (x ++ y).
Proof.
  intros H1 H2. apply slice_Some in H1 as ([Ha Hab] & Hb & ->). apply slice_Some in H2 as ([_ Hbc] & Hc & ->).
  unfold slice, len in *. rewrite !(proj2 (Z.leb_le _ _)) by lia. simpl. f_equal.
  replace (drop (Z.to_nat b) s) with (drop (Z.to_nat (b - a)) (drop (Z.to_nat a) s)) by (rewrite drop_drop; f_equal; lia).
  replace (Z.to_nat (c - a)) with (Z.to_nat (b - a) + Z.to_nat (c - b))%nat by lia.
  generalize (drop (Z.to_nat a) s) as t. intros t.
  by rewrite take_take_drop.
Qed.

Lemma slice_all s n : len s = n -> slice s 0 n = Some s.
Proof. intros <-. rewrite <- (app_nil_l s) at 1. by apply slice_app_end. Qed.

(** ** encoding/binary.BigEndian *)

(** The low [n] bytes of [w], most significant first. *)
Fixpoint be_bytes (n : nat) (w : Z) : gostring :=
  match n with
  | O => []
  | S k => Zbyte (Z.shiftr w (8 * Z.of_nat k)) :: be_bytes k w
  end.

Fixpoint be_value_from (acc : Z) (bs : gostring) : Z :=
  match bs with [] => acc | c :: r => be_value_from (acc * 256 + byteZ c) r end.
Definition be_value (bs : gostring) : Z := be_value_from 0 bs.

Lemma be_bytes_length n w : length (be_bytes n w) = n.
Proof. induction n as [| n IH]; simpl; [done | by rewrite IH]. Qed.
Lemma be_bytes_len n w : len (be_bytes n w) = Z.of_nat n.
Proof. unfold len. by rewrite be_bytes_length. Qed.

Lemma be_value_from_bytes n : forall acc w,
  be_value_from acc (be_bytes n w) = acc * 256 ^ Z.of_nat n + w mod 256 ^ Z.of_nat n.
Proof.
  induction n as [| n IH]; intros acc w; [simpl; rewrite Z.mod_1_r; lia |].
  cbn [be_bytes be_value_from]. rewrite IH, byteZ_Zbyte, Z.shiftr_div_pow2 by lia.
  rewrite Nat2Z.inj_succ, Z.pow_succ_r, Z.mul_comm with (n := 256) by lia.
  replace (2 ^ (8 * Z.of_nat n)) with (256 ^ Z.of_nat n) by (rewrite Z.pow_mul_r by lia; done).
  rewrite (Z.rem_mul_r w) by lia. ring.
Qed.

Lemma be_value_bytes n w : be_value (be_bytes n w) = w mod 256 ^ Z.of_nat n.
Proof. unfold be_value. rewrite be_value_from_bytes. lia. Qed.

Lemma be_value_from_range bs : forall acc, 0 <= acc -> 
  acc * 256 ^ len bs <= be_value_from acc bs < (acc + 1) * 256 ^ len bs.
Proof.
  induction bs as [| c bs IH]; intros acc Ha; [simpl; rewrite len_nil; lia |].
  cbn [be_value_from]. pose proof (byteZ_range c). specialize (IH (acc * 256 + byteZ c) ltac:(lia)).
  rewrite len_cons, Z.pow_add_r, Z.pow_1_r by (pose proof (len_nonneg bs); lia).
  assert (0 < 256 ^ len bs) by (apply Z.pow_pos_nonneg; [lia | apply len_nonneg]). nia.
Qed.

Lemma be_value_range bs : 0 <= be_value bs < 256 ^ len bs.
Proof. pose proof (be_value_from_range bs 0 ltac:(lia)). unfold be_value. lia. Qed.

Lemma be_value_from_split bs : forall acc, be_value_from acc bs = acc * 256 ^ len bs + be_value bs.
Proof.
  unfold be_value. induction bs as [| c bs IH]; intros acc; [simpl; rewrite len_nil; lia |].
  cbn [be_value_from]. rewrite IH, (IH (0 * 256 + byteZ c)), len_cons, Z.pow_add_r, Z.pow_1_r
    by (pose proof (len_nonneg bs); lia). ring.
Qed.

Lemma Zbyte_mod n : Zbyte (n mod 256) = Zbyte n.
Proof. unfold Zbyte. by rewrite Zmod_mod. Qed.

Lemma be_bytes_mod n : forall w, be_bytes n (w mod 256 ^ Z.of_nat n) = be_bytes n w.
Proof.
  assert (H : forall k m w, (k <= m)%nat -> be_bytes k (w mod 256 ^ Z.of_nat m) = be_bytes k w).
  { induction k as [| k IH]; intros m w Hk; [done |]. cbn [be_bytes]. f_equal; [| apply IH; lia].
    rewrite <- Zbyte_mod, <- (Zbyte_mod (Z.shiftr w _)). f_equal.
    rewrite !Z.shiftr_div_pow2 by lia. replace (2 ^ (8 * Z.of_nat k)) with (256 ^ Z.of_nat k) by (rewrite Z.pow_mul_r by lia; done).
    replace (Z.of_nat m) with (Z.of_nat k + (1 + Z.of_nat (m - k - 1))) by lia.
    rewrite (Z.pow_add_r 256 (Z.of_nat k)), (Z.pow_add_r 256 1), Z.pow_1_r by lia.
    rewrite Z.rem_mul_r by lia. rewrite Z.mul_comm with (n := 256 ^ Z.of_nat k), Z.div_add by lia.
    rewrite (Z.div_small (w mod _)) by (apply Z.mod_pos_bound; lia). rewrite Z.add_0_l.
    rewrite (Z.rem_mul_r _ 256) by lia. rewrite Z.mul_comm, Z_mod_plus_full. apply Zmod_mod. }
  intros w. by apply H.
Qed.

Lemma be_bytes_value bs : be_bytes (length bs) (be_value bs) = bs.
Proof.
  induction bs as [| c bs IH]; [done |]. cbn [length be_bytes].
  assert (Hv : be_value (c :: bs) = byteZ c * 256 ^ len bs + be_value bs).
  { unfold be_value at 1. cbn [be_value_from]. rewrite be_value_from_split. ring. }
  pose proof (be_value_range bs) as Hr. pose proof (byteZ_range c) as Hc. f_equal.
  - rewrite Z.shiftr_div_pow2 by lia. replace (2 ^ (8 * Z.of_nat (length bs))) with (256 ^ len bs) by (unfold len; rewrite Z.pow_mul_r by lia; done).
    rewrite Hv, Z.add_comm, Z.div_add by lia. rewrite Z.div_small by done. apply Zbyte_byteZ.
  - transitivity (be_bytes (length bs) (be_value bs)); [| exact IH].
    rewrite <- (be_bytes_mod _ (be_value (c :: bs))). fold (len bs). rewrite Hv.
    rewrite Z.add_comm, Z_mod_plus_full, Z.mod_small by done. done.
Qed.

(** ** encoding/hex *)
Definition hex_encode (bs : gostring) : gostring :=
  flat_map (fun c => [digit_char (byteZ c / 16); digit_char (byteZ c mod 16)]) bs.

(** The value of a hexadecimal digit of either case. *)
Definition hex_digit (c : ascii) : option Z :=
  let v := byteZ c in
  if (48 <=? v) && (v <=? 57) then Some (v - 48)
  else if (97 <=? v) && (v <=? 102) then Some (v - 87)
  else if (65 <=? v) && (v <=? 70) then Some (v - 55)
  else None.

(** [hex.Decode]; [None] is an error. *)
Fixpoint hex_decode (s : gostring) : option gostring :=
  match s with
  | [] => Some []
  | [_] => None
  | a :: b :: r =>
    match hex_digit a, hex_digit b with
    | Some x, Some y => bs ← hex_decode r; Some (Zbyte (x * 16 + y) :: bs)
    | _, _ => None
    end
  end.

Lemma hex_encode_len bs : len (hex_encode bs) = 2 * len bs.
Proof. induction bs as [| c bs IH]; [done |]. cbn [hex_encode flat_map]. fold (hex_encode bs). rewrite len_app, IH, !len_cons, len_nil. lia. Qed.

Lemma hex_value_char d : 0 <= d < 16 -> hex_digit (digit_char d) = Some d.
Proof.
  intros H. unfold hex_digit, digit_char. rewrite byteZ_Zbyte. destruct (d <? 10) eqn:E; bool_to_prop;
    rewrite Z.mod_small by lia; repeat (case_match; bool_to_prop; try (f_equal; lia)); exfalso;
    repeat match goal with H : (_ && _)%bool = false |- _ => apply andb_false_iff in H as [H | H]; bool_to_prop end; lia.
Qed.

Lemma hex_decode_encode bs : hex_decode (hex_encode bs) = Some bs.
Proof.
  induction bs as [| c bs IH]; [done |]. cbn [hex_encode flat_map app hex_decode]. fold (hex_encode bs).
  pose proof (byteZ_range c). rewrite !hex_value_char by (split; [apply Z.div_pos || apply Z.mod_pos_bound; lia | first [apply Z.div_lt_upper_bound; lia | apply Z.mod_pos_bound; lia]]).
  rewrite IH. simpl. f_equal. f_equal. rewrite <- (Zbyte_byteZ c) at 3. f_equal.
  pose proof (Z.div_mod (byteZ c) 16 ltac:(lia)). lia.
Qed.

Lemma hex_encode_inj a b : hex_encode a = hex_encode b -> a = b.
Proof. intros H. apply (f_equal hex_decode) in H. rewrite !hex_decode_encode in H. congruence. Qed.

(** ** Layouts: a byte string as a list of chunks *)
Definition total (cs : list gostring) : Z := foldr (fun c n => len c + n) 0 cs.

Lemma total_concat cs : len (concat cs) = total cs.
Proof. induction cs as [| c cs IH]; [done |]. cbn [concat total foldr]. fold (total cs). by rewrite len_app, IH. Qed.

Lemma slice_chunk cs k b lo hi : cs !! k = Some b -> total (take k cs) = lo -> lo + len b = hi ->
  slice (concat cs) lo hi = Some b.
Proof.
  intros Hk Hlo Hhi. rewrite <- (take_drop_middle cs k b Hk), concat_app. cbn [concat].
  apply slice_app; [by rewrite total_concat | done].
Qed.

Lemma index_chunk cs k c i : cs !! k = Some [c] -> total (take k cs) = i -> index (concat cs) i = Some c.
Proof.
  intros Hk Hi. rewrite <- (take_drop_middle cs k [c] Hk), concat_app. cbn [concat].
  assert (len (concat (take k cs)) = i) as Hl by (by rewrite total_concat).
  unfold index, len in *. rewrite (proj2 (Z.leb_le _ _)) by lia.
  rewrite lookup_app_r by lia. replace (Z.to_nat i - length (concat (take k cs)))%nat with 0%nat by lia. done.
Qed.

(** Cutting a string. *)
Lemma cut_at (n : nat) (s : gostring) : Z.of_nat n <= len s -> exists a b, s = a ++ b /\ length a = n.
Proof.
  intros H. exists (take n s), (drop n s). rewrite take_drop, length_take. unfold len in H. split; [done | lia].
Qed.

Lemma cut_cons (s : gostring) : 1 <= len s -> exists c b, s = c :: b.
Proof. destruct s as [| c b]; [rewrite len_nil; lia | by exists c, b]. Qed.
