(* ===== verification/Pebble.v ===== *)
(** * The durable store (core/store/pebble.go)

    The adapter over Pebble, an embedded ordered key-value database: values are
    prefixed with an 8-byte deadline, compare-and-swap and counters are read
    and written under the key's shard lock, and a janitor deletes what has
    expired.  The database is an interface with its documented behaviour.

    The locks make each operation one step.  An operation is a function of the
    database and of the clock readings of its call sites. *)

From S2P Require Export Memory StoreClient Bytes.

Open Scope Z_scope.

(** ** The database *)
Inductive batch_op := BSet (k v : gostring) | BDelete (k : gostring).

Definition apply_op (m : gmap gostring gostring) (op : batch_op) : gmap gostring gostring :=
  match op with BSet k v => <[k := v]> m | BDelete k => delete k m end.
Definition apply_batch (ops : list batch_op) (m : gmap gostring gostring) : gmap gostring gostring := foldl apply_op m ops.

(** Keys between [lower] and [upper], [None] being unbounded. *)
Definition key_lt (a b : gostring) : Prop := bytes_leb b a = false.
#[global] Instance key_lt_dec : RelDecision key_lt.
Proof. intros x y. unfold key_lt. apply _. Defined.
Definition in_range (lower : gostring) (upper : option gostring) (k : gostring) : Prop :=
  bytes_leb lower k = true /\ match upper with None => True | Some u => key_lt k u end.

Class PebbleDB (D : Type) := {
  db_Get : gostring -> D -> result (option gostring);           (* [None]: ErrNotFound *)
  db_Commit : list batch_op -> D -> D * result unit;
  db_Iter : gostring -> option gostring -> D -> result (list (gostring * gostring))
}.

(** A batch is atomic; one that fails may or may not have been written.  An
    iterator visits the keys of its range in order. *)
Class PebbleLaws (D : Type) `{!PebbleDB D} := {
  db_contents : D -> gmap gostring gostring;
  db_Get_ok : forall k d v, db_Get k d = Ok v -> v = db_contents d !! k;
  db_Commit_ok : forall ops d d', db_Commit ops d = (d', Ok tt) -> db_contents d' = apply_batch ops (db_contents d);
  db_Commit_err : forall ops d d' e, db_Commit ops d = (d', Err e) ->
    db_contents d' = db_contents d \/ db_contents d' = apply_batch ops (db_contents d);
  db_Iter_ok : forall lower upper d l, db_Iter lower upper d = Ok l ->
    StronglySorted key_lt (l.*1) /\
    forall k v, (k, v) ∈ l <-> db_contents d !! k = Some v /\ in_range lower upper k
}.

(** ** TTL-prefixed values *)
Definition expiryDeadline (ttl now : Z) : Z := if 0 <? ttl then UnixNano (now + ttl) else 0.

Definition encodeExpiryDeadline (value : gostring) (deadline : Z) : gostring :=
  be_bytes 8 (if deadline <? 0 then 0 else deadline) ++ value.
Definition encodeExpiry (value : gostring) (ttl now : Z) : gostring :=
  be_bytes 8 (wrapu64 (expiryDeadline ttl now)) ++ value.

Definition splitExpiry (raw : gostring) : option (Z * gostring) :=
  if (length raw <? 8)%nat then None else Some (wrap64 (be_value (take 8 raw)), drop 8 raw).

Definition past (exp now : Z) : bool := negb (exp =? 0) && (exp <=? UnixNano now).

Definition decodeExpiry (raw : gostring) (now : Z) : option gostring :=
  match splitExpiry raw with
  | Some (exp, payload) => if past exp now then None else Some payload
  | None => None
  end.

Definition expiryTime (exp : Z) : option Z := if exp =? 0 then None else Some exp.

(** The least key above every key with the prefix. *)
Fixpoint bump_last (rev_prefix : gostring) : option gostring :=
  match rev_prefix with
  | [] => None
  | c :: r => if byteZ c =? 255 then bump_last r else Some (rev (Zbyte (byteZ c + 1) :: r))
  end.
Definition prefixUpperBound (prefix : gostring) : option gostring := bump_last (rev prefix).

Section Pebble.
Context {D : Type} `{!PebbleDB D}.

(** ** Reads *)
Definition get (key : gostring) (now : Z) (d : D) : result (option gostring) :=
  match db_Get key d with
  | Ok None => Ok None
  | Ok (Some raw) => Ok (decodeExpiry raw now)
  | Err e => Err e
  end.

Definition getExpiry (key : gostring) (now : Z) (d : D) : result (option (gostring * Z)) :=
  match db_Get key d with
  | Ok None => Ok None
  | Ok (Some raw) =>
    match splitExpiry raw with
    | Some (exp, payload) => Ok (if past exp now then None else Some (payload, exp))
    | None => Ok None
    end
  | Err e => Err e
  end.

Definition Get (t : clock) (key : gostring) (d : D) : D * result (option gostring) := (d, get key (t 0%nat) d).

(** ** Writes *)
Definition setWithExpiry (key value : gostring) (deadline : Z) (d : D) : D * result unit :=
  db_Commit [BSet key (encodeExpiryDeadline value deadline)] d.
Definition setDeadline := setWithExpiry.
Definition rawSet (key value : gostring) (ttl now : Z) (d : D) : D * result unit := setWithExpiry key value (expiryDeadline ttl now) d.

Definition Set_ (t : clock) (key value : gostring) (ttl : Z) (d : D) : D * result unit :=
  setWithExpiry key value (expiryDeadline ttl (t 0%nat)) d.
Definition Delete (key : gostring) (d : D) : D * result unit := db_Commit [BDelete key] d.

(** ** Emulated atomics *)

(** The current value is the expected one; nil expects no value. *)
Definition as_expected (cur want : option gostring) : bool :=
  match want with None => negb (bool_decide (is_Some cur)) | Some w => bool_decide (cur = Some w) end.

Definition compareAndSwapEmulated (t : clock) (key : gostring) (old : option gostring) (new : gostring) (ttl : Z) (d : D) : D * result bool :=
  match get key (t 0%nat) d with
  | Err e => (d, Err e)
  | Ok cur =>
    if negb (as_expected cur old) then (d, Ok false)
    else match rawSet key new ttl (t 1%nat) d with
         | (d', Ok _) => (d', Ok true)
         | (d', Err e) => (d', Err e)
         end
  end.
Definition CompareAndSwap := compareAndSwapEmulated.

Definition compareAndDeleteEmulated (t : clock) (key : gostring) (old : option gostring) (d : D) : D * result bool :=
  match old with
  | None => (d, Ok false)
  | Some w =>
    match get key (t 0%nat) d with
    | Err e => (d, Err e)
    | Ok cur =>
      if negb (bool_decide (cur = Some w)) then (d, Ok false)
      else match Delete key d with
           | (d', Ok _) => (d', Ok true)
           | (d', Err e) => (d', Err e)
           end
    end
  end.
Definition CompareAndDelete := compareAndDeleteEmulated.

Definition incrByDeadlineEmulated (t : clock) (key : gostring) (delta deadline : Z) (d : D) : D * result (Z * bool) :=
  let now := UnixNano (t 0%nat) in
  match getExpiry key (t 1%nat) d with
  | Err e => (d, Err e)
  | Ok cur =>
    if negb (deadline =? 0) && (deadline <=? now) then
      (d, match cur with
          | None => Ok (0, false)
          | Some (v, _) => match ParseInt v with Ok n => Ok (n, false) | Err e => Err (EParse e) end
          end)
    else
      match cur with
      | None =>
        match setDeadline key (FormatInt delta) deadline d with
        | (d', Ok _) => (d', Ok (delta, true))
        | (d', Err e) => (d', Err e)
        end
      | Some (v, storedExp) =>
        match ParseInt v with
        | Err e => (d, Err (EParse e))
        | Ok n0 =>
          let n := wrap64 (n0 + delta) in
          match setDeadline key (FormatInt n) storedExp d with
          | (d', Ok _) => (d', Ok (n, true))
          | (d', Err e) => (d', Err e)
          end
        end
      end
  end.
Definition IncrByDeadline := incrByDeadlineEmulated.

Definition IncrBy (t : clock) (key : gostring) (delta ttl : Z) (d : D) : D * result Z :=
  let deadline := if 0 <? ttl then UnixNano (t 0%nat + ttl) else 0 in
  match IncrByDeadline (fun i => t (1 + i)%nat) key delta deadline d with
  | (d', Ok (n, _)) => (d', Ok n)
  | (d', Err e) => (d', Err e)
  end.
Definition Incr (t : clock) (key : gostring) (ttl : Z) (d : D) : D * result Z := IncrBy t key 1 ttl d.

(** ** Commits *)

(** The next value of a counter and its deadline. *)
Definition next_count (cur : option (gostring * Z)) (ttl now : Z) : Z * Z :=
  match cur with
  | Some (v, exp) => (wrap64 (counterValue v + 1), exp)
  | None => (1, if 0 <? ttl then UnixNano (now + ttl) else 0)
  end.

Definition CommitBlock (t : clock) (c : BlockCommit) (d : D) : D * result BlockCommitResult :=
  match get (bc_HoldKey c) (t 0%nat) d with
  | Err e => (d, Err e)
  | Ok (Some _) => (d, Ok (refused BlockRefusalHold))
  | Ok None =>
  match get (bc_GuardKey c) (t 1%nat) d with
  | Err e => (d, Err e)
  | Ok guard =>
  if negb (as_expected guard (bc_GuardValue c)) then (d, Ok (refused BlockRefusalGeneration)) else
  match get (bc_BlockKey c) (t 2%nat) d with
  | Err e => (d, Err e)
  | Ok block =>
  if negb (as_expected block (bc_ExpectedBlock c)) then (d, Ok (refused BlockRefusalBlock)) else
  match getExpiry (bc_CounterKey c) (t 3%nat) d with
  | Err e => (d, Err e)
  | Ok counter =>
    let '(offenses, counterExpiry) := next_count counter (bc_CounterTTL c) (t 4%nat) in
    let ttl := blockBackoffTTL (bc_BaseTTL c) (bc_MaxTTL c) offenses in
    match db_Commit [BSet (bc_CounterKey c) (encodeExpiryDeadline (FormatInt offenses) counterExpiry);
                     BSet (bc_BlockKey c) (encodeExpiry (bc_NewBlock c) ttl (t 5%nat))] d with
    | (d', Ok _) => (d', Ok (mk_block_result true offenses ttl BlockRefusalNone))
    | (d', Err e) => (d', Err e)
    end
  end end end end.

Definition CommitEvent (t : clock) (c : EventCommit) (d : D) : D * result EventCommitResult :=
  match get (ec_HoldKey c) (t 0%nat) d with
  | Err e => (d, Err e)
  | Ok (Some _) => (d, Ok (mk_event_result false 0))
  | Ok None =>
    match getExpiry (ec_CounterKey c) (t 1%nat) d with
    | Err e => (d, Err e)
    | Ok counter =>
      let '(value, counterExpiry) := next_count counter (ec_CounterTTL c) (t 2%nat) in
      match setDeadline (ec_CounterKey c) (FormatInt value) counterExpiry d with
      | (d', Ok _) => (d', Ok (mk_event_result true value))
      | (d', Err e) => (d', Err e)
      end
    end
  end.

Definition CommitUnblock (t : clock) (c : UnblockCommit) (d : D) : D * result unit :=
  db_Commit
    ([BSet (uc_HoldKey c) (encodeExpiry (uc_HoldValue c) (uc_HoldTTL c) (t 0%nat));
      BSet (uc_GenerationKey c) (encodeExpiry (uc_Generation c) (uc_GenerationTTL c) (t 1%nat));
      BDelete (uc_BlockKey c)] ++
     (if uc_ResetBackoff c then [BDelete (uc_CounterKey c)] else [])) d.

(** ** Scans *)

(** The iterator's loop: [out] so far, and whether it reached the end. *)
Fixpoint scan_loop (now limit : Z) (l : list (gostring * gostring)) (out : list KV) : list KV * bool :=
  match l with
  | [] => (out, true)
  | (k, raw) :: r =>
    match splitExpiry raw with
    | None => scan_loop now limit r out
    | Some (exp, payload) =>
      if past exp now then scan_loop now limit r out
      else if (0 <? limit) && (Z.of_nat (length out) =? limit) then (out, false)
      else scan_loop now limit r (out ++ [mk_kv k payload (expiryTime exp)])
    end
  end.

Definition ScanLimit (t : clock) (prefix : gostring) (limit : Z) (d : D) : result (list KV * bool) :=
  match db_Iter prefix (prefixUpperBound prefix) d with
  | Err e => Err e
  | Ok l => Ok (scan_loop (t 0%nat) limit l [])
  end.
Definition Scan (t : clock) (prefix : gostring) (d : D) : result (list KV) :=
  match ScanLimit t prefix 0 d with Ok (out, _) => Ok out | Err e => Err e end.
Definition ScanActiveBlocks := ScanLimit.

(** ** The janitor

    The expired records of one snapshot, and the deletion of one of them. *)
Definition sweep_candidates (now : Z) (d : D) : list gostring :=
  match db_Iter [] None d with
  | Err _ => []
  | Ok l => (List.filter (fun p => match splitExpiry p.2 with Some (exp, _) => past exp now | None => true end) l).*1
  end.

Definition sweep_key (now : Z) (key : gostring) (d : D) : D :=
  match getExpiry key now d with Ok None => (db_Commit [BDelete key] d).1 | _ => d end.

(** ** Posture votes over the keyspace *)
Definition posturePrefix : gostring := lit "guardian-posture:".
Definition postureVoteKey (instanceID : gostring) : gostring := posturePrefix ++ instanceID.

Definition SetPostureVote (t : clock) (instanceID : gostring) (level ttl : Z) (d : D) : D * result unit :=
  if (level <? 1) || (2 <? level) || (ttl <=? 0) then (d, Err (EInvalidVote level ttl))
  else Set_ t (postureVoteKey instanceID) [Zbyte level] ttl d.
Definition DeletePostureVote (instanceID : gostring) (d : D) : D * result unit := Delete (postureVoteKey instanceID) d.

Definition vote_level (exclude : gostring) (kv : KV) : Z :=
  if bool_decide (kv_key kv = exclude) then 0 else match kv_value kv with [c] => byteZ c | _ => 0 end.

Definition MaxPostureVote (t : clock) (excludeInstanceID : gostring) (d : D) : result Z :=
  match Scan t posturePrefix d with
  | Err e => Err e
  | Ok kvs => Ok (foldl (fun level kv => Z.max level (vote_level (postureVoteKey excludeInstanceID) kv)) 0 kvs)
  end.

#[export] Instance pebble_ops : StoreOps D := {|
  st_get := Get; st_set := Set_; st_delete := Delete; st_incr_by_deadline := IncrByDeadline; st_cas := CompareAndSwap;
  st_cad := CompareAndDelete; st_commit_block := CommitBlock; st_commit_event := CommitEvent; st_commit_unblock := CommitUnblock |}.
End Pebble.

(** ** Lock order

    [lockMany] sorts the lock indices of its keys and drops the duplicates. *)
Definition shardLocks_mask : Z := 255.
Definition lock_index (key : gostring) : nat := Z.to_nat (Z.land (fnv1a32 key) shardLocks_mask).
Definition lockMany (keys : list gostring) : list nat := Compact (merge_sort Nat.le (lock_index <$> keys)).

(** * Theory *)

(** ** The upper bound of a prefix *)
Lemma prefixUpperBound_cons c p : prefixUpperBound (c :: p) =
  match prefixUpperBound p with
  | Some u => Some (c :: u)
  | None => if byteZ c =? 255 then None else Some [Zbyte (byteZ c + 1)]
  end.
Proof.
  unfold prefixUpperBound. cbn [rev]. induction (rev p) as [| x r IH]; cbn [bump_last app rev]; [done |].
  destruct (byteZ x =? 255); [done |]. cbn [rev]. by rewrite rev_app_distr.
Qed.

Lemma bytes_leb_cons a p b k : bytes_leb (a :: p) (b :: k) = if byteZ a <? byteZ b then true else if byteZ b <? byteZ a then false else bytes_leb p k.
Proof. done. Qed.

(** Exactly the keys with the prefix lie in its scan range. *)
Lemma prefix_range_exact p : forall k, in_range p (prefixUpperBound p) k <-> has_prefix p k = true.
Proof.
  induction p as [| c p IH]; intros k; [split; [done | intros _; by split] |]. rewrite prefixUpperBound_cons.
  destruct k as [| x k]; [split; [by intros [? _] | done] |]. cbn [has_prefix]. unfold in_range in *.
  rewrite bytes_leb_cons. specialize (IH k). pose proof (byteZ_range c). pose proof (byteZ_range x).
  assert (Heq : Ascii.eqb c x = (byteZ c =? byteZ x)).
  { destruct (Ascii.eqb_spec c x) as [-> | Hne]; [symmetry; apply Z.eqb_refl |]. symmetry. apply Z.eqb_neq. intros He. by apply byteZ_inj in He. }
  rewrite Heq. destruct (Z.ltb_spec (byteZ c) (byteZ x)); [| destruct (Z.ltb_spec (byteZ x) (byteZ c))].
  - rewrite (proj2 (Z.eqb_neq (byteZ c) (byteZ x))) by lia. cbn [andb]. split; [| done]. intros [_ Hu].
    destruct (prefixUpperBound p) as [u |]; [| destruct (Z.eqb_spec (byteZ c) 255); [lia |]]; unfold key_lt in Hu; rewrite bytes_leb_cons in Hu.
    + by rewrite (proj2 (Z.ltb_lt _ _)) in Hu by lia.
    + rewrite byteZ_Zbyte, Z.mod_small in Hu by lia. destruct (_ <? _); [done |]. by rewrite (proj2 (Z.ltb_ge _ _)) in Hu by lia.
  - rewrite (proj2 (Z.eqb_neq (byteZ c) (byteZ x))) by lia. cbn [andb]. split; [by intros [? _] | done].
  - rewrite (proj2 (Z.eqb_eq (byteZ c) (byteZ x))) by lia. cbn [andb]. rewrite <- IH.
    destruct (prefixUpperBound p) as [u |]; [| destruct (Z.eqb_spec (byteZ c) 255)].
    + unfold key_lt. rewrite bytes_leb_cons. by rewrite (proj2 (Z.ltb_ge (byteZ c) (byteZ x))), (proj2 (Z.ltb_ge (byteZ x) (byteZ c))) by lia.
    + done.
    + unfold key_lt. rewrite bytes_leb_cons, byteZ_Zbyte, Z.mod_small by lia.
      rewrite (proj2 (Z.ltb_ge (byteZ c + 1) _)), (proj2 (Z.ltb_lt _ _)) by lia. by split; intros [? _].
Qed.

(** ** Stored values and abstract entries

    A record is dead at its deadline itself, an abstract entry only after it:
    a record read at [t] is the entry read at [t + 1]. *)
Definition decoded (raw : option gostring) (t : Z) : option entry :=
  match raw ≫= splitExpiry with
  | Some (exp, payload) => if past exp t then None else Some (mk_entry payload (expiryTime exp))
  | None => None
  end.

Lemma UnixNano_id t : int64_ok t -> UnixNano t = t.
Proof. apply wrap64_id. Qed.

Lemma splitExpiry_app dl v : 0 <= dl <= int64_max -> splitExpiry (be_bytes 8 dl ++ v) = Some (dl, v).
Proof.
  intros Hd. unfold splitExpiry. rewrite length_app, be_bytes_length. rewrite take_app_length', drop_app_length' by (symmetry; apply be_bytes_length).
  destruct (Nat.ltb_spec (8 + length v) 8); [lia |]. rewrite be_value_bytes. unfold int64_max in *. rewrite Z.mod_small by (cbn; lia).
  by rewrite wrap64_id by (unfold int64_ok, int64_min, int64_max; lia).
Qed.

(** The deadline and the payload are those of the entry. *)
Definition stands_for (raw : gostring) (e : entry) : Prop := forall t, 0 < t <= int64_max -> decoded (Some raw) t = liveo (t + 1) (Some e).

Lemma encode_stands v dl : 0 <= dl <= int64_max -> stands_for (be_bytes 8 dl ++ v) (mk_entry v (expiryTime dl)).
Proof.
  intros Hd t Ht. unfold decoded. cbn [mbind option_bind]. rewrite splitExpiry_app by done. unfold past, liveo, expired, expiryTime. cbn [e_expires].
  rewrite UnixNano_id by (unfold int64_ok, int64_min; lia). destruct (Z.eqb_spec dl 0); cbn [negb andb]; [done |].
  destruct (Z.leb_spec dl t); [by rewrite (proj2 (Z.ltb_lt _ _)) by lia | by rewrite (proj2 (Z.ltb_ge _ _)) by lia].
Qed.

Lemma encodeExpiryDeadline_stands v dl : 0 <= dl <= int64_max -> stands_for (encodeExpiryDeadline v dl) (mk_entry v (expiryTime dl)).
Proof. intros Hd. unfold encodeExpiryDeadline. rewrite (proj2 (Z.ltb_ge _ _)) by lia. by apply encode_stands. Qed.

Lemma expiryDeadline_spec ttl now : 0 < now -> now + ttl <= int64_max -> now <= int64_max ->
  0 <= expiryDeadline ttl now <= int64_max /\ expiryTime (expiryDeadline ttl now) = expiry ttl now.
Proof.
  intros Hn Hm Hx. unfold expiryDeadline, expiry. destruct (Z.ltb_spec 0 ttl).
  - rewrite UnixNano_id by (unfold int64_ok, int64_min; lia). rewrite (proj2 (Z.leb_gt _ _)) by lia. unfold expiryTime.
    rewrite (proj2 (Z.eqb_neq _ _)) by lia. split; [lia | done].
  - rewrite (proj2 (Z.leb_le _ _)) by lia. split; [unfold int64_max; lia | done].
Qed.

Lemma encodeExpiry_stands v ttl now : 0 < now -> now + ttl <= int64_max -> now <= int64_max ->
  stands_for (encodeExpiry v ttl now) (mk_entry v (expiry ttl now)).
Proof.
  intros Hn Hm Hx. destruct (expiryDeadline_spec ttl now Hn Hm Hx) as [Hr <-]. unfold encodeExpiry, wrapu64.
  rewrite Z.mod_small by (unfold int64_max in *; lia). by apply encode_stands.
Qed.

(** ** The simulation *)
Section Refinement.
Context {D : Type} `{PebbleLaws D}.

(** From instant [now] on, every key reads one nanosecond later in the map. *)
Definition pebble_rel (now : Z) (d : D) (m : amap) : Prop :=
  forall k t, now <= t -> 0 < t <= int64_max -> decoded (db_contents d !! k) t = live (t + 1) m k.

Lemma pebble_rel_later lo hi d m : lo <= hi -> pebble_rel lo d m -> pebble_rel hi d m.
Proof. intros Hle Hr k t Ht Hx. apply Hr; [lia | done]. Qed.

Lemma pebble_rel_same lo d d' m : db_contents d' = db_contents d -> pebble_rel lo d m -> pebble_rel lo d' m.
Proof. intros He Hr k t Ht Hx. rewrite He. by apply Hr. Qed.

(** A batch and the abstract updates it makes. *)
Inductive map_op := MSet (k : gostring) (e : entry) | MDelete (k : gostring).
Definition apply_map_op (m : amap) (op : map_op) : amap := match op with MSet k e => <[k := e]> m | MDelete k => delete k m end.
Inductive op_stands : batch_op -> map_op -> Prop :=
| set_stands k raw e : stands_for raw e -> op_stands (BSet k raw) (MSet k e)
| delete_stands k : op_stands (BDelete k) (MDelete k).

Lemma batch_rel lo ops mops : Forall2 op_stands ops mops -> forall (c : gmap gostring gostring) (m : amap),
  (forall k t, lo <= t -> 0 < t <= int64_max -> decoded (c !! k) t = live (t + 1) m k) ->
  forall k t, lo <= t -> 0 < t <= int64_max -> decoded (apply_batch ops c !! k) t = live (t + 1) (foldl apply_map_op m mops) k.
Proof.
  induction 1 as [| op mop ops mops Hop _ IH]; intros c m Hc; [done |]. cbn [apply_batch foldl]. apply IH. clear IH.
  intros k t Ht Hx. destruct Hop as [k' raw e He | k']; cbn [apply_op apply_map_op]; rewrite live_liveo; destruct (decide (k' = k)) as [-> | Hne].
  - rewrite !lookup_insert_eq. by apply He.
  - rewrite !lookup_insert_ne by done. by apply Hc.
  - by rewrite !lookup_delete_eq.
  - rewrite !lookup_delete_ne by done. by apply Hc.
Qed.

(** Committing a batch keeps the contract, whether it succeeds or not. *)
Lemma commit_keeps {A} lo d m ops mops (a : A) : Forall2 op_stands ops mops -> pebble_rel lo d m ->
  keeps (pebble_rel lo) m (match db_Commit ops d with (d', Ok _) => (d', Ok a) | (d', Err e) => (d', Err e) end) (foldl apply_map_op m mops, Ok a).
Proof.
  intros Hops Hr. destruct (db_Commit ops d) as [d' [[] | e]] eqn:Ec.
  - left. split; [done |]. cbn [fst snd]. intros k t Ht Hx. rewrite (db_Commit_ok _ _ _ Ec). by apply (batch_rel lo).
  - right. exists e. split; [done |]. cbn [fst snd]. destruct (db_Commit_err _ _ _ _ Ec) as [He | He].
    + left. by apply (pebble_rel_same lo d).
    + right. intros k t Ht Hx. rewrite He. by apply (batch_rel lo).
Qed.

Lemma keeps_error {A} lo d m e (abs : amap * result A) : pebble_rel lo d m -> keeps (pebble_rel lo) m (d, Err e) abs.
Proof. intros Hr. right. exists e. split; [done | by left]. Qed.

Lemma keeps_answer {A} lo d m (a : A) abs : pebble_rel lo d m -> abs = (m, Ok a) -> keeps (pebble_rel lo) m (d, Ok a) abs.
Proof. intros Hr ->. by left. Qed.

Lemma get_value lo d m k t v : pebble_rel lo d m -> lo <= t -> 0 < t <= int64_max -> get k t d = Ok v -> v = e_value <$> live (t + 1) m k.
Proof.
  intros Hr Hlo Ht. unfold get. destruct (db_Get k d) as [raw | e] eqn:Eg; [| done]. apply db_Get_ok in Eg. rewrite <- (Hr k t) by done. rewrite <- Eg.
  destruct raw as [raw |]; intros [= <-]; [| done]. unfold decoded, decodeExpiry. cbn [mbind option_bind].
  destruct (splitExpiry raw) as [[exp payload] |]; [| done]. by destruct (past exp t).
Qed.

Lemma getExpiry_value lo d m k t v : pebble_rel lo d m -> lo <= t -> 0 < t <= int64_max -> getExpiry k t d = Ok v ->
  match live (t + 1) m k with
  | Some e => exists exp, v = Some (e_value e, exp) /\ expiryTime exp = e_expires e /\ 0 <= exp <= int64_max
  | None => v = None
  end.
Proof.
  intros Hr Hlo Ht. unfold getExpiry. destruct (db_Get k d) as [raw | e] eqn:Eg; [| done]. apply db_Get_ok in Eg. rewrite <- (Hr k t) by done. rewrite <- Eg.
  destruct raw as [raw |]; [| by intros [= <-]]. unfold decoded. cbn [mbind option_bind].
  destruct (splitExpiry raw) as [[exp payload] |] eqn:Es; [| by intros [= <-]]. unfold past. destruct (negb _ && _) eqn:Ep; intros [= <-]; [done |].
  exists exp. split_ands; [done | done | |].
  - unfold past in Ep. apply andb_false_iff in Ep as [Hz%negb_false_iff%Z.eqb_eq | Hl%Z.leb_gt]; [lia |].
    rewrite UnixNano_id in Hl by (unfold int64_ok, int64_min; lia). lia.
  - unfold splitExpiry in Es. destruct (length raw <? 8)%nat; [done |]. injection Es as <- _. pose proof (wrap64_ok (be_value (take 8 raw))) as Hw.
    unfold int64_ok in Hw. lia.
Qed.

(** The expectation test is the contract's [matches]. *)
Lemma as_expected_matches cur want : as_expected (e_value <$> cur) want = matches cur want.
Proof.
  unfold as_expected, matches. destruct want as [w |], cur as [e |]; cbn; try done.
  case_bool_decide as Hw; case_bool_decide as Hv; congruence.
Qed.

(** The readings of a call: not before [lo], and with room for the TTLs. *)
Definition sane (lo horizon : Z) (t : clock) : Prop := 0 <= horizon /\ forall i, lo <= t i /\ 0 < t i /\ t i + horizon <= int64_max.

Definition bounded_ttls {R} (horizon : Z) (op : store_op R) : Prop :=
  match op with
  | OSet _ _ ttl | OCas _ _ _ ttl => ttl <= horizon
  | OIncr _ _ deadline => deadline <= int64_max
  | OCommitBlock c => int64_ok (bc_BaseTTL c) /\ int64_ok (bc_MaxTTL c) /\ (BackoffBounds (bc_BaseTTL c) (bc_MaxTTL c)).2 <= horizon /\ bc_CounterTTL c <= horizon
  | OCommitEvent c => ec_CounterTTL c <= horizon
  | OCommitUnblock c => uc_HoldTTL c <= horizon /\ uc_GenerationTTL c <= horizon
  | _ => True
  end.

(** The counter an event is counted on, if it is live, holds a non-negative
    number: anything else reads as 0 here and does not in the contract. *)
Definition counters_ok {R} (now : Z) (m : amap) (op : store_op R) : Prop :=
  match op with
  | OCommitEvent c => forall e, live now m (ec_CounterKey c) = Some e -> exists n, ParseInt (e_value e) = Ok n /\ 0 <= n
  | _ => True
  end.

(** Readings that are [t]'s, or one nanosecond later. *)
Definition near (t t' : clock) : Prop := forall i, exists j, t' i = t j \/ t' i = t j + 1.

Section Ops.
Context (lo horizon : Z) (t : clock) (d : D) (m : amap).
Context (Ht : sane lo horizon t) (Hr : pebble_rel lo d m).

Lemma reading i : lo <= t i /\ 0 < t i <= int64_max.
Proof. destruct Ht as [Hh Hi]. specialize (Hi i). lia. Qed.

Lemma set_keeps k v ttl : ttl <= horizon -> keeps (pebble_rel lo) m (Set_ t k v ttl d) (spec_set t k v ttl m).
Proof.
  intros Hl. destruct Ht as [Hh Hi]. specialize (Hi 0%nat). destruct (expiryDeadline_spec ttl (t 0%nat)) as [Hd He]; [lia.. |].
  assert (Hs : Forall2 op_stands [BSet k (encodeExpiryDeadline v (expiryDeadline ttl (t 0%nat)))] [MSet k (mk_entry v (expiry ttl (t 0%nat)))]).
  { repeat constructor. rewrite <- He. by apply encodeExpiryDeadline_stands. }
  pose proof (commit_keeps lo d m _ _ tt Hs Hr) as Hk. unfold Set_, setWithExpiry. by destruct (db_Commit _ d) as [d' [[] | e]].
Qed.

Lemma delete_keeps k : keeps (pebble_rel lo) m (Delete k d) (spec_delete k m).
Proof.
  pose proof (commit_keeps lo d m [BDelete k] [MDelete k] tt ltac:(repeat constructor) Hr) as Hk.
  unfold Delete. by destruct (db_Commit _ d) as [d' [[] | e]].
Qed.

Lemma get_keeps k : keeps (pebble_rel lo) m (Get t k d) (spec_get (fun i => t i + 1) k m).
Proof.
  unfold Get. destruct (get k (t 0%nat) d) as [v | e] eqn:Eg; [| by apply keeps_error]. destruct (reading 0) as [Hlo Hx].
  rewrite (get_value _ _ _ _ _ _ Hr Hlo Hx Eg). by apply keeps_answer.
Qed.

Lemma cas_keeps k old new ttl : ttl <= horizon ->
  keeps (pebble_rel lo) m (CompareAndSwap t k old new ttl d) (spec_cas (fun i => match i with O => t 0%nat + 1 | _ => t i end) k old new ttl m).
Proof.
  intros Hl. unfold CompareAndSwap, compareAndSwapEmulated, spec_cas. destruct (get k (t 0%nat) d) as [v | e] eqn:Eg; [| by apply keeps_error].
  destruct (reading 0) as [Hlo Hx]. rewrite (get_value _ _ _ _ _ _ Hr Hlo Hx Eg), as_expected_matches.
  destruct (matches _ _); cbn [negb]; [| by apply keeps_answer].
  destruct Ht as [Hh Hi]. specialize (Hi 1%nat). destruct (expiryDeadline_spec ttl (t 1%nat)) as [Hd He]; [lia.. |].
  apply (commit_keeps lo d m [BSet k (encodeExpiryDeadline new (expiryDeadline ttl (t 1%nat)))] [MSet k (mk_entry new (expiry ttl (t 1%nat)))]); [| done].
  repeat constructor. rewrite <- He. by apply encodeExpiryDeadline_stands.
Qed.

Lemma cad_keeps k old : keeps (pebble_rel lo) m (CompareAndDelete t k old d) (spec_cad (fun i => t i + 1) k old m).
Proof.
  unfold CompareAndDelete, compareAndDeleteEmulated, spec_cad. destruct old as [w |]; [| by apply keeps_answer].
  destruct (get k (t 0%nat) d) as [v | e] eqn:Eg; [| by apply keeps_error].
  destruct (reading 0) as [Hlo Hx]. rewrite (get_value _ _ _ _ _ _ Hr Hlo Hx Eg).
  change (bool_decide (e_value <$> live (t 0%nat + 1) m k = Some w)) with (as_expected (e_value <$> live (t 0%nat + 1) m k) (Some w)).
  rewrite as_expected_matches. destruct (matches _ _); cbn [negb]; [| by apply keeps_answer].
  apply (commit_keeps lo d m [BDelete k] [MDelete k]); [repeat constructor | done].
Qed.

(** One counter write: the value with an absolute deadline. *)
Lemma deadline_set {A} k n exp (a : A) x : 0 <= exp <= int64_max -> x = expiryTime exp ->
  keeps (pebble_rel lo) m (match setDeadline k (FormatInt n) exp d with (d', Ok _) => (d', Ok a) | (d', Err e) => (d', Err e) end)
    (<[k := mk_entry (FormatInt n) x]> m, Ok a).
Proof.
  intros He ->. apply (commit_keeps lo d m [BSet k (encodeExpiryDeadline (FormatInt n) exp)] [MSet k (mk_entry (FormatInt n) (expiryTime exp))]); [| done].
  repeat constructor. by apply encodeExpiryDeadline_stands.
Qed.

Lemma incr_keeps k delta deadline : deadline <= int64_max ->
  keeps (pebble_rel lo) m (IncrByDeadline t k delta deadline d)
    (spec_incr_by_deadline (fun i => match i with S O => t 1%nat + 1 | _ => t i end) k delta deadline m).
Proof.
  intros Hl. unfold IncrByDeadline, incrByDeadlineEmulated, spec_incr_by_deadline. cbn zeta.
  destruct (getExpiry k (t 1%nat) d) as [cur | e] eqn:Eg; [| by apply keeps_error]. destruct (reading 1) as [Hlo Hx].
  pose proof (getExpiry_value _ _ _ _ _ _ Hr Hlo Hx Eg) as Hv. destruct (reading 0) as [_ Hx0].
  destruct (negb (deadline =? 0) && _) eqn:Ep.
  - destruct (live (t 1%nat + 1) m k) as [e |]; [destruct Hv as (exp & -> & _) | subst cur; by apply keeps_answer].
    left. split; [| done]. cbn. by destruct (ParseInt (e_value e)).
  - assert (Hd : 0 <= deadline <= int64_max).
    { split; [| done]. rewrite UnixNano_id in Ep by (unfold int64_ok, int64_min; lia). apply andb_false_iff in Ep as [Hz%negb_false_iff%Z.eqb_eq | Hg%Z.leb_gt]; lia. }
    destruct (live (t 1%nat + 1) m k) as [e |].
    + destruct Hv as (exp & -> & He & Hb). destruct (ParseInt (e_value e)) as [n | x]; [| left; by split].
      by apply deadline_set.
    + subst cur. apply deadline_set; [done |]. unfold expiryTime. by destruct (deadline =? 0).
Qed.

(** The next value of a counter, against the contract's. *)
Lemma next_count_offense cur ttl j : lo <= t j -> ttl <= horizon -> forall e,
  match e with Some e => exists exp, cur = Some (e_value e, exp) /\ expiryTime exp = e_expires e /\ 0 <= exp <= int64_max | None => cur = None end ->
  exists exp, next_count cur ttl (t j) = ((next_offense e ttl (t j)).1, exp) /\ (next_offense e ttl (t j)).2 = expiryTime exp /\ 0 <= exp <= int64_max.
Proof.
  intros _ Hl e He. destruct e as [e |].
  - destruct He as (exp & -> & Hx & Hb). exists exp. cbn [next_count next_offense fst snd]. by rewrite Hx.
  - subst cur. destruct Ht as [Hh Hi]. specialize (Hi j). destruct (expiryDeadline_spec ttl (t j)) as [Hd He]; [lia.. |].
    exists (expiryDeadline ttl (t j)). cbn. by rewrite <- He.
Qed.

Lemma commit_block_keeps c : bounded_ttls horizon (OCommitBlock c) ->
  keeps (pebble_rel lo) m (CommitBlock t c d) (spec_commit_block (fun i => if (i <? 4)%nat then t i + 1 else t i) c m).
Proof.
  intros (Hb & Hm & Hcap & Hc). unfold CommitBlock, spec_commit_block. cbn [Nat.ltb Nat.leb].
  destruct (get (bc_HoldKey c) _ d) as [hold | e] eqn:Eh; [| by apply keeps_error]. destruct (reading 0) as [Hlo Hx].
  pose proof (get_value _ _ _ _ _ _ Hr Hlo Hx Eh) as ->. destruct (live _ m (bc_HoldKey c)); cbn [fmap option_fmap option_map]; [by apply keeps_answer |].
  destruct (get (bc_GuardKey c) _ d) as [guard | e] eqn:Eg; [| by apply keeps_error]. destruct (reading 1) as [Hlo1 Hx1].
  pose proof (get_value _ _ _ _ _ _ Hr Hlo1 Hx1 Eg) as ->. rewrite as_expected_matches. destruct (matches _ (bc_GuardValue c)); cbn [negb]; [| by apply keeps_answer].
  destruct (get (bc_BlockKey c) _ d) as [block | e] eqn:Eb; [| by apply keeps_error]. destruct (reading 2) as [Hlo2 Hx2].
  pose proof (get_value _ _ _ _ _ _ Hr Hlo2 Hx2 Eb) as ->. rewrite as_expected_matches. destruct (matches _ (bc_ExpectedBlock c)); cbn [negb]; [| by apply keeps_answer].
  destruct (getExpiry (bc_CounterKey c) _ d) as [counter | e] eqn:Ec; [| by apply keeps_error]. destruct (reading 3) as [Hlo3 Hx3].
  pose proof (getExpiry_value _ _ _ _ _ _ Hr Hlo3 Hx3 Ec) as Hv. destruct (reading 4) as [Hlo4 _].
  destruct (next_count_offense counter (bc_CounterTTL c) 4 Hlo4 Hc _ Hv) as (exp & -> & Hexp & Hbound).
  destruct (next_offense _ (bc_CounterTTL c) (t 4%nat)) as [offenses cexp]. cbn [fst snd] in *. subst cexp.
  set (ttl := blockBackoffTTL _ _ offenses). pose proof (blockBackoffTTL_pos (bc_BaseTTL c) (bc_MaxTTL c) offenses Hb Hm) as Httl. fold ttl in Httl.
  destruct Ht as [Hh Hi]. specialize (Hi 5%nat).
  apply (commit_keeps lo d m _ [MSet (bc_CounterKey c) (mk_entry (FormatInt offenses) (expiryTime exp)); MSet (bc_BlockKey c) (mk_entry (bc_NewBlock c) (expiry ttl (t 5%nat)))]); [| done].
  repeat constructor; [by apply encodeExpiryDeadline_stands | apply encodeExpiry_stands; lia].
Qed.

Lemma commit_event_keeps c : ec_CounterTTL c <= horizon -> counters_ok (t 1%nat + 1) m (OCommitEvent c) ->
  keeps (pebble_rel lo) m (CommitEvent t c d)
    (spec_commit_event (fun i => match i with O => t 0%nat + 1 | S O | S (S O) => t 2%nat | _ => t 1%nat + 1 end) c m).
Proof.
  intros Hc Hok. unfold CommitEvent, spec_commit_event. destruct (get (ec_HoldKey c) _ d) as [hold | e] eqn:Eh; [| by apply keeps_error].
  destruct (reading 0) as [Hlo Hx]. pose proof (get_value _ _ _ _ _ _ Hr Hlo Hx Eh) as ->.
  destruct (live _ m (ec_HoldKey c)); cbn [fmap option_fmap option_map]; [by apply keeps_answer |].
  destruct (getExpiry (ec_CounterKey c) _ d) as [counter | e] eqn:Ec; [| by apply keeps_error]. destruct (reading 1) as [Hlo1 Hx1].
  pose proof (getExpiry_value _ _ _ _ _ _ Hr Hlo1 Hx1 Ec) as Hv. destruct Ht as [Hh Hi]. specialize (Hi 2%nat).
  unfold spec_incr_by_deadline. cbn [Nat.add]. rewrite (UnixNano_id (t 2%nat)) by (unfold int64_ok, int64_min; lia).
  destruct (expiryDeadline_spec (ec_CounterTTL c) (t 2%nat)) as [Hd He]; [lia.. |]. unfold expiryDeadline in Hd, He.
  set (deadline := if 0 <? ec_CounterTTL c then UnixNano (t 2%nat + ec_CounterTTL c) else 0) in *.
  assert (Hfut : negb (deadline =? 0) && (deadline <=? t 2%nat) = false).
  { unfold deadline. destruct (Z.ltb_spec 0 (ec_CounterTTL c)); [| done]. rewrite UnixNano_id by (unfold int64_ok, int64_min; lia).
    rewrite (proj2 (Z.leb_gt _ _)) by lia. apply andb_false_r. }
  rewrite Hfut. destruct (live (t 1%nat + 1) m (ec_CounterKey c)) as [e |] eqn:El.
  - destruct Hv as (exp & -> & Hexp & Hbound). destruct (Hok e El) as (n & Hn & Hpos). cbn [next_count].
    unfold counterValue. rewrite Hn, (proj2 (Z.ltb_ge _ _)) by lia. by apply deadline_set.
  - subst counter. cbn [next_count]. fold deadline. by apply deadline_set.
Qed.

Lemma commit_unblock_keeps c : bounded_ttls horizon (OCommitUnblock c) ->
  keeps (pebble_rel lo) m (CommitUnblock t c d) (spec_commit_unblock t c m).
Proof.
  intros [Hhold Hgen]. destruct Ht as [Hh Hi]. pose proof (Hi 0%nat). pose proof (Hi 1%nat).
  set (mops := [MSet (uc_HoldKey c) (mk_entry (uc_HoldValue c) (expiry (uc_HoldTTL c) (t 0%nat)));
                MSet (uc_GenerationKey c) (mk_entry (uc_Generation c) (expiry (uc_GenerationTTL c) (t 1%nat))); MDelete (uc_BlockKey c)]
               ++ (if uc_ResetBackoff c then [MDelete (uc_CounterKey c)] else [])).
  assert (Hspec : spec_commit_unblock t c m = (foldl apply_map_op m mops, Ok tt)) by (unfold spec_commit_unblock, mops; by destruct (uc_ResetBackoff c)).
  rewrite Hspec. unfold CommitUnblock. match goal with |- keeps _ _ (db_Commit ?ops d) _ => assert (Hs : Forall2 op_stands ops mops) end.
  { apply Forall2_app; [| destruct (uc_ResetBackoff c); repeat constructor]. repeat constructor; apply encodeExpiry_stands; lia. }
  pose proof (commit_keeps lo d m _ _ tt Hs Hr) as Hk. by destruct (db_Commit _ d) as [d' [[] | e]].
Qed.
End Ops.

(** ** The janitor *)
Lemma sweep_key_rel lo now key d m : lo <= now -> 0 < now <= int64_max -> pebble_rel lo d m -> pebble_rel now (sweep_key now key d) m.
Proof.
  intros Hlo Hx Hr. pose proof (pebble_rel_later lo now d m Hlo Hr) as Hn. unfold sweep_key.
  destruct (getExpiry key now d) as [[v |] | e] eqn:Eg; [done | | done].
  pose proof (getExpiry_value _ _ _ _ _ _ Hr Hlo Hx Eg) as Hv.
  assert (Hdead : live (now + 1) m key = None).
  { destruct (live (now + 1) m key) as [e |]; [| done]. destruct Hv as (exp & Hv & _). done. }
  assert (Hgone : forall d', db_contents d' = delete key (db_contents d) -> pebble_rel now d' m).
  { intros d' He k t Ht Htx. rewrite He. destruct (decide (key = k)) as [<- | Hne].
    - rewrite lookup_delete_eq. symmetry. by apply (live_None_later (now + 1)); [lia |].
    - rewrite lookup_delete_ne by done. by apply Hn. }
  destruct (db_Commit [BDelete key] d) as [d' [[] | e]] eqn:Ec; cbn [fst].
  - apply Hgone. by rewrite (db_Commit_ok _ _ _ Ec).
  - destruct (db_Commit_err _ _ _ _ Ec) as [He | He]; [by apply (pebble_rel_same now d) | by apply Hgone; rewrite He].
Qed.

(** ** Scans *)
Definition kv_at (now : Z) (p : gostring * gostring) : option KV :=
  match decoded (Some p.2) now with Some e => Some (mk_kv p.1 (e_value e) (e_expires e)) | None => None end.

Lemma omap_cons {A B} (f : A -> option B) x l : omap f (x :: l) = match f x with Some y => y :: omap f l | None => omap f l end.
Proof. done. Qed.

Lemma scan_loop_spec now limit l : forall out, (0 < limit -> Z.of_nat (length out) <= limit) ->
  scan_loop now limit l out =
    let all := out ++ omap (kv_at now) l in
    if (0 <? limit) && (limit <? Z.of_nat (length all)) then (take (Z.to_nat limit) all, false) else (all, true).
Proof.
  induction l as [| [k raw] l IH]; intros out Hout; cbn [scan_loop]; cbn zeta.
  - cbn [omap list_omap]. rewrite app_nil_r. destruct (Z.ltb_spec 0 limit); [| done]. by rewrite (proj2 (Z.ltb_ge _ _)) by lia.
  - cbn zeta in IH. assert (Hk : kv_at now (k, raw) = match splitExpiry raw with Some (exp, payload) => if past exp now then None else Some (mk_kv k payload (expiryTime exp)) | None => None end).
    { unfold kv_at, decoded. cbn [mbind option_bind fst snd]. destruct (splitExpiry raw) as [[exp payload] |]; [| done]. by destruct (past exp now). }
    rewrite omap_cons, Hk. clear Hk. destruct (splitExpiry raw) as [[exp payload] |]; [| by apply IH]. destruct (past exp now); [by apply IH |].
    destruct ((0 <? limit) && (Z.of_nat (length out) =? limit)) eqn:He.
    + bool_to_prop. rewrite (proj2 (Z.ltb_lt 0 limit)), (proj2 (Z.ltb_lt limit _)) by (rewrite ?length_app; cbn [length]; lia). cbn [andb].
      rewrite take_app_le by lia. by rewrite take_ge by lia.
    + rewrite IH; [by rewrite <- app_assoc |]. intros Hl. rewrite length_app. cbn [length].
      rewrite (proj2 (Z.ltb_lt 0 limit)) in He by done. bool_to_prop. lia.
Qed.

Lemma kv_at_key now p kv : kv_at now p = Some kv -> kv_key kv = p.1.
Proof. unfold kv_at. destruct (decoded _ _); [| done]. by intros [= <-]. Qed.

Lemma omap_sorted now l : StronglySorted key_lt l.*1 -> StronglySorted key_lt (kv_key <$> omap (kv_at now) l).
Proof.
  induction l as [| p l IH]; cbn; [done |]. intros Hs. apply StronglySorted_inv in Hs as [Hs Hf]. destruct (kv_at now p) as [kv |] eqn:Ek; [| by apply IH].
  cbn. constructor; [by apply IH |]. rewrite (kv_at_key _ _ _ Ek). rewrite Forall_forall in Hf |- *. intros k Hk.
  apply list_elem_of_fmap in Hk as (kv' & -> & Hk). apply list_elem_of_omap in Hk as (p' & Hin & Hp'). rewrite (kv_at_key _ _ _ Hp').
  apply Hf. apply list_elem_of_fmap. by exists p'.
Qed.

(** The live entries of a prefix, in key order. *)
Definition listing (now : Z) (prefix : gostring) (m : amap) (all : list KV) : Prop :=
  StronglySorted key_lt (kv_key <$> all) /\
  forall k v x, mk_kv k v x ∈ all <-> has_prefix prefix k = true /\ live now m k = Some (mk_entry v x).

Lemma ScanLimit_listing lo t prefix limit d m out complete : pebble_rel lo d m -> lo <= t 0%nat -> 0 < t 0%nat <= int64_max ->
  ScanLimit t prefix limit d = Ok (out, complete) ->
  exists all, listing (t 0%nat + 1) prefix m all /\
    (out, complete) = if (0 <? limit) && (limit <? Z.of_nat (length all)) then (take (Z.to_nat limit) all, false) else (all, true).
Proof.
  intros Hr Hlo Hx. unfold ScanLimit. destruct (db_Iter prefix (prefixUpperBound prefix) d) as [l | e] eqn:El; [| done]. intros [= Hs].
  apply db_Iter_ok in El as [Hsort Hin]. rewrite (scan_loop_spec (t 0%nat) limit l []) in Hs by (cbn; lia). cbn [app] in Hs.
  exists (omap (kv_at (t 0%nat)) l). split; [split; [by apply omap_sorted |] | by rewrite <- Hs].
  intros k v x. rewrite list_elem_of_omap. rewrite <- (prefix_range_exact prefix k), <- (Hr k (t 0%nat)) by done. split.
  - intros ([k' raw] & Hk & He). unfold kv_at in He. cbn [fst snd] in He. apply Hin in Hk as [Hk Hrange].
    destruct (decoded (Some raw) (t 0%nat)) as [[v' x'] |] eqn:Ed; [| done]. injection He as <- <- <-. by rewrite Hk.
  - intros [Hrange Hd]. destruct (db_contents d !! k) as [raw |] eqn:Ek; [| done]. exists (k, raw). split; [by apply Hin |].
    unfold kv_at. cbn [fst snd]. by rewrite Hd.
Qed.

(** ** Posture votes *)
Lemma vote_level_range exclude kv : 0 <= vote_level exclude kv.
Proof. unfold vote_level. case_bool_decide; [done |]. destruct (kv_value kv) as [| c [|]]; try done. apply byteZ_range. Qed.

Lemma foldl_max {A} (f : A -> Z) l : forall n, let r := foldl (fun a x => Z.max a (f x)) n l in
  n <= r /\ Forall (fun x => f x <= r) l /\ (r = n \/ exists x, x ∈ l /\ f x = r).
Proof.
  induction l as [| x l IH]; intros n; cbn [foldl]; cbn zeta; [split_ands; [lia | constructor | by left] |].
  destruct (IH (Z.max n (f x))) as (Hn & Hl & Hr). split_ands; [lia | constructor; [lia | done] |].
  destruct Hr as [Hr | (y & Hy & Hr)]; [| right; exists y; split; [by right | done]].
  destruct (Z.max_spec n (f x)) as [[_ Hm] | [_ Hm]]; rewrite Hm in Hr |- *; [right; exists x; split; [by left | by symmetry] | by left].
Qed.
End Refinement.

Lemma lockMany_sorted keys : StronglySorted Nat.lt (lockMany keys).
Proof. apply Compact_sorted. apply (StronglySorted_merge_sort Nat.le). Qed.

(** * Properties *)


(** *)
Theorem pebble_listing_exact {D : Type} `{PebbleLaws D} lo t d m (Hr : pebble_rel lo d m) (Hlo : lo <= t 0%nat) (Hx : 0 < t 0%nat <= int64_max) :
  (forall prefix limit out complete, ScanLimit t prefix limit d = Ok (out, complete) ->
     exists all, listing (t 0%nat + 1) prefix m all /\
       (complete = true -> out = all) /\ (complete = false -> out = take (Z.to_nat limit) all /\ 0 < limit < Z.of_nat (length all))) /\
  (forall self n, MaxPostureVote t self d = Ok n ->
     (forall id c x, id <> self -> live (t 0%nat + 1) m (postureVoteKey id) = Some (mk_entry [c] x) -> byteZ c <= n) /\
     (n = 0 \/ exists id c x, id <> self /\ live (t 0%nat + 1) m (postureVoteKey id) = Some (mk_entry [c] x) /\ byteZ c = n)).
Proof.
  split.
  - intros prefix limit out complete Hs. destruct (ScanLimit_listing _ _ _ _ _ _ _ _ Hr Hlo Hx Hs) as (all & Hall & Heq). exists all. split; [done |].
    destruct ((0 <? limit) && _) eqn:Eb; injection Heq as -> ->; [| done]. bool_to_prop. split; [done |]. split; [done | lia].
  - intros self n. unfold MaxPostureVote, Scan. destruct (ScanLimit t posturePrefix 0 d) as [[out complete] | e] eqn:Es; [| done]. intros [= <-].
    destruct (ScanLimit_listing _ _ _ _ _ _ _ _ Hr Hlo Hx Es) as (all & [_ Hall] & Heq). cbn [Z.ltb Z.compare andb] in Heq. injection Heq as -> ->.
    destruct (foldl_max (vote_level (postureVoteKey self)) all 0) as (_ & Hmax & Hatt). cbn zeta in *. split.
    + intros id c x Hid Hl. rewrite Forall_forall in Hmax. specialize (Hmax (mk_kv (postureVoteKey id) [c] x)). cbn [vote_level kv_key kv_value] in Hmax.
      unfold vote_level in Hmax at 1. cbn [kv_key kv_value] in Hmax. rewrite bool_decide_eq_false_2 in Hmax by (intros He; by apply app_inv_head in He).
      apply Hmax. apply Hall. split; [apply has_prefix_app | done].
    + destruct Hatt as [-> | ([k v x] & Hin & Hv)]; [by left |]. apply Hall in Hin as [(id & ->)%has_prefix_spec Hl]. rewrite <- Hv. unfold vote_level. cbn [kv_key kv_value].
      case_bool_decide as He; [by left |]. destruct v as [| c [| c' v]]; [by left | | by left]. right. exists id, c, x.
      split_ands; [by intros -> | done | done].
Qed.

(** ** A map as the database *)
Module Ex.
Definition pair_le (a b : gostring * gostring) : Prop := bytes_leb a.1 b.1 = true.
#[local] Instance pair_le_dec : RelDecision pair_le.
Proof. intros x y. unfold pair_le. apply _. Defined.
#[local] Instance pair_le_total : Total pair_le.
Proof. intros x y. apply bytes_leb_total. Qed.
#[local] Instance pair_le_trans : Transitive pair_le.
Proof. intros x y z. apply bytes_leb_trans. Qed.

Definition ranged (lower : gostring) (upper : option gostring) (k : gostring) : bool :=
  bytes_leb lower k && match upper with None => true | Some u => negb (bytes_leb u k) end.

#[local] Instance map_db : PebbleDB (gmap gostring gostring) := {|
  db_Get k d := Ok (d !! k);
  db_Commit ops d := (apply_batch ops d, Ok tt);
  db_Iter lower upper d := Ok (List.filter (fun p => ranged lower upper p.1) (merge_sort pair_le (map_to_list d))) |}.

Lemma strict_keys l : StronglySorted pair_le l -> NoDup l.*1 -> StronglySorted key_lt l.*1.
Proof.
  induction 1 as [| p l _ IH Hf]; cbn; [constructor |]. intros [Hp Hn]%NoDup_cons. constructor; [by apply IH |].
  rewrite Forall_forall in Hf. rewrite Forall_forall. intros k Hk. pose proof Hk as Hk'. apply list_elem_of_fmap in Hk as (p' & -> & Hin). specialize (Hf p' Hin).
  unfold key_lt. destruct (bytes_leb p'.1 p.1) eqn:E; [| done]. by rewrite (bytes_leb_antisym _ _ Hf E) in Hp.
Qed.

Lemma filter_sorted {A B} (R : relation B) (g : A -> B) (f : A -> bool) l : StronglySorted R (g <$> l) -> StronglySorted R (g <$> List.filter f l).
Proof.
  induction l as [| x l IH]; cbn; [done |]. intros [Hs Hf]%StronglySorted_inv. destruct (f x); [| by apply IH]. cbn. constructor; [by apply IH |].
  rewrite Forall_forall in Hf. rewrite Forall_forall. intros y Hy. apply Hf. apply list_elem_of_fmap in Hy as (z & -> & Hz). apply list_elem_of_fmap. exists z. split; [done |].
  apply list_elem_of_In in Hz. apply List.filter_In in Hz as [Hz _]. by apply list_elem_of_In.
Qed.

#[local] Program Instance map_db_laws : PebbleLaws (gmap gostring gostring) := {| db_contents d := d |}.
Next Obligation. intros k d v [= <-]. done. Qed.
Next Obligation. intros ops d d' [= <-]. done. Qed.
Next Obligation. intros ops d d' e Hc. discriminate. Qed.
Next Obligation.
  intros lower upper d l [= <-]. split.
  - apply (filter_sorted key_lt fst). apply strict_keys; [apply (StronglySorted_merge_sort pair_le) |].
    eapply NoDup_Permutation_proper; [apply fmap_Permutation, merge_sort_Permutation | apply NoDup_fst_map_to_list].
  - intros k v. rewrite list_elem_of_In, List.filter_In, <- list_elem_of_In, merge_sort_Permutation, elem_of_map_to_list. cbn [fst].
    unfold ranged, in_range, key_lt. rewrite andb_true_iff. destruct upper as [u |]; [by rewrite negb_true_iff | by intuition].
Qed.

(** A block placed at 10 s for one minute, read a second later and at its end. *)
Definition placed : gmap gostring gostring := (Set_ (fun _ => 10 * second) (lit "block:192.0.2.1") (lit "tamper") minute ∅).1.
Definition reading_at (n : Z) : clock := fun _ => n.
Definition abstract : amap := {[ lit "block:192.0.2.1" := mk_entry (lit "tamper") (Some (70 * second)) ]}.

Lemma abstract_rel : pebble_rel (10 * second) placed abstract.
Proof.
  intros k t Ht Hx. unfold placed, abstract, db_contents, map_db_laws. cbn [Set_ setWithExpiry db_Commit map_db fst apply_batch foldl apply_op].
  rewrite live_liveo, lookup_singleton. destruct (decide (lit "block:192.0.2.1" = k)) as [<- | Hne].
  - rewrite lookup_insert_eq. apply (encodeExpiryDeadline_stands (lit "tamper") (70 * second)); [by vm_compute | done].
  - by rewrite lookup_insert_ne by done.
Qed.


(** At the deadline itself the durable store has already expired what the
    in-process store still holds. *)
Lemma deadline_instant_differs :
  (Get (reading_at (70 * second)) (lit "block:192.0.2.1") placed).2 = Ok None /\
  (spec_get (reading_at (70 * second)) (lit "block:192.0.2.1") abstract).2 = Ok (Some (lit "tamper")).
Proof. split; vm_compute; reflexivity. Qed.

(** A counter driven below zero through the store's own interface, and one
    that is no number: the next event restarts both at one, where the contract
    goes on counting and refuses. *)
Definition event : EventCommit := mk_event_commit (lit "ev:1") minute (lit "hold:1").
Definition below_zero : gmap gostring gostring := (IncrByDeadline (reading_at (10 * second)) (lit "ev:1") (-5) 0 ∅).1.
Definition garbled : gmap gostring gostring := (Set_ (reading_at (10 * second)) (lit "ev:1") (lit "x") 0 ∅).1.
Lemma damaged_counter_restarts :
  (CommitEvent (reading_at (11 * second)) event below_zero).2 = Ok (mk_event_result true 1) /\
  (spec_commit_event (reading_at (11 * second)) event (spec_incr_by_deadline (reading_at (10 * second)) (lit "ev:1") (-5) 0 ∅).1).2 = Ok (mk_event_result true (-4)) /\
  (CommitEvent (reading_at (11 * second)) event garbled).2 = Ok (mk_event_result true 1) /\
  (exists e, (spec_commit_event (reading_at (11 * second)) event (spec_set (reading_at (10 * second)) (lit "ev:1") (lit "x") 0 ∅).1).2 = Err e).
Proof. split_ands; [vm_compute; reflexivity.. | eexists; vm_compute; reflexivity]. Qed.

Lemma pebble_listing_exact_witness : exists all, listing (11 * second + 1) (lit "block:") abstract all /\
  all = [mk_kv (lit "block:192.0.2.1") (lit "tamper") (Some (70 * second))].
Proof.
  destruct (pebble_listing_exact (10 * second) (reading_at (11 * second)) placed abstract abstract_rel) as [Hscan _]; [by vm_compute | by vm_compute |].
  destruct (Hscan (lit "block:") 0 [mk_kv (lit "block:192.0.2.1") (lit "tamper") (Some (70 * second))] true) as (all & Hl & Ht & _); [vm_compute; reflexivity |].
  exists all. split; [exact Hl | symmetry; apply Ht; reflexivity].
Defined.
End Ex.
