(* ===== verification/Health.v ===== *)
(** * Store health (core/health/health.go)

    A background loop probes the store with one write and read-back under a
    hard deadline and publishes a snapshot guarded by a staleness timer.  The
    checker's critical sections are functions; the loop, the probe goroutines,
    the timer callbacks and [Close] interleave as a step relation with a clock.
    The backend name, the latency, the metrics and the clock-skew warning are
    only reported and are left out. *)

From S2P Require Export StoreClient.

Open Scope Z_scope.

Definition probeInterval : Z := 10 * second.
Definition probeTimeout : Z := 2 * second.
Definition probeTTL : Z := minute.
Definition staleFactor : Z := 3.
Definition probeKeyPrefix : gostring := lit "guardian:health:probe:".

Inductive probe_error :=
| EStillRunning | ENotResponding | ECancelled      (* boundedProbe *)
| ENonce | EWrite (e : store_error) | ERead (e : store_error) | EAbsent | EMismatch.

(** ** One probe *)

(** The round trip; [nonce] is [None] when the random source failed. *)
Definition probeOnce (key : gostring) (nonce : option gostring) (ttl : Z) : prog (option probe_error) :=
  match nonce with
  | None => Ret (Some ENonce)
  | Some nonce =>
    Call (OSet key nonce ttl) (fun set =>
    match set with
    | Err e => Ret (Some (EWrite e))
    | Ok _ =>
      Call (OGet key) (fun got =>
      Ret (match got with
           | Err e => Some (ERead e)
           | Ok None => Some EAbsent
           | Ok (Some v) => if bool_decide (v = nonce) then None else Some EMismatch
           end))
    end)
  end.

(** ** The checker *)

(** [hs_gen] and [ck_gen] are uint64 counters of publications. *)
Record Status := mk_status { hs_Probed : bool; hs_Up : bool; hs_Stale : bool; hs_CheckedAt : Z; hs_Err : option probe_error; hs_gen : Z }.

(** [ck_timer] is the armed staleness timer: its generation and its instant. *)
Record Checker := mk_checker { ck_snap : option Status; ck_gen : Z; ck_timer : option (Z * Z); ck_closed : bool; ck_inflight : option nat }.

Definition new_checker : Checker := mk_checker None 0 None false None.

Definition zero_status : Status := mk_status false false false 0 None 0.
Definition status (c : option Checker) : Status := match c with Some c => default zero_status (ck_snap c) | None => zero_status end.

Definition probe_status (err : option probe_error) (now : Z) : Status := mk_status true (bool_decide (err = None)) false now err 0.

Definition publish (s : Status) (now : Z) (c : Checker) : Checker :=
  let gen := ck_gen c + 1 in
  let snap := Some (mk_status (hs_Probed s) (hs_Up s) (hs_Stale s) (hs_CheckedAt s) (hs_Err s) gen) in
  mk_checker snap gen (if ck_closed c then ck_timer c else Some (gen, now + probeInterval * staleFactor)) (ck_closed c) (ck_inflight c).

Definition markStale (gen : Z) (c : Checker) : Checker :=
  match ck_snap c with
  | None => c
  | Some prev =>
    if ck_closed c || negb (ck_gen c =? gen) then c
    else
      let gen := ck_gen c + 1 in
      mk_checker (Some (mk_status (hs_Probed prev) false true (hs_CheckedAt prev) (hs_Err prev) gen)) gen (ck_timer c) (ck_closed c) (ck_inflight c)
  end.

Definition close (c : Checker) : Checker := if ck_closed c then c else mk_checker (ck_snap c) (ck_gen c) None true (ck_inflight c).

(** The slot of the running attempt: taken by a new one, or refused. *)
Definition begin_probe (att : nat) (c : Checker) : option Checker :=
  match ck_inflight c with
  | Some _ => None
  | None => Some (mk_checker (ck_snap c) (ck_gen c) (ck_timer c) (ck_closed c) (Some att))
  end.
Definition clear_inflight (att : nat) (c : Checker) : Checker :=
  if bool_decide (ck_inflight c = Some att) then mk_checker (ck_snap c) (ck_gen c) (ck_timer c) (ck_closed c) None else c.

(** ** Readiness (transport/http/admin.go) *)
Definition reasonProbePending : gostring := lit "store probe pending".
Definition reasonProbeUnavailable : gostring := lit "store probe unavailable".
Definition reasonProbeFailed : gostring := lit "store probe failed".
Definition reasonProbeStale : gostring := lit "store probe stale".

Definition notReadyReason (hc : option Checker) : gostring :=
  match hc with
  | None => reasonProbeUnavailable
  | Some _ =>
    let st := status hc in
    if negb (hs_Probed st) then reasonProbePending
    else if hs_Stale st then reasonProbeStale
    else if negb (hs_Up st) then reasonProbeFailed
    else []
  end.

(** ** Interleaving *)

(** A store call of a probe, with the instant and the answer of the backend:
    any answer, an expired context included. *)
Inductive exchange :=
| Wrote (at_ : Z) (key v : gostring) (ttl : Z) (a : result unit)
| Got (at_ : Z) (key : gostring) (a : result (option gostring)).
Definition x_at (x : exchange) : Z := match x with Wrote t _ _ _ _ => t | Got t _ _ => t end.

(** What a running probe does with an answered call: nothing unless it is the
    call the program makes next. *)
Definition stepped (p : prog (option probe_error)) (x : exchange) : option (prog (option probe_error)) :=
  match p with
  | Call op k =>
    match op in store_op X return (result X -> prog (option probe_error)) -> option (prog (option probe_error)) with
    | OSet key v ttl => fun k => match x with Wrote _ key' v' ttl' a => if bool_decide (key' = key /\ v' = v /\ ttl' = ttl) then Some (k a) else None | _ => None end
    | OGet key => fun k => match x with Got _ key' a => if bool_decide (key' = key) then Some (k a) else None | _ => None end
    | _ => fun _ => None
    end k
  | _ => None
  end.
Fixpoint replay (p : prog (option probe_error)) (tr : list exchange) : option (prog (option probe_error)) :=
  match tr with [] => Some p | x :: rest => match stepped p x with Some p' => replay p' rest | None => None end end.

(** A probe goroutine: running the rest of [probeOnce], done but holding the
    slot, past the slot, and with its result in the channel; with its start
    and the calls it has made. *)
Inductive phase := Running (p : prog (option probe_error)) | Finished (err : option probe_error) | Released (err : option probe_error) | Sent (err : option probe_error).
Record attempt := mk_attempt { at_start : Z; at_trace : list exchange; at_phase : phase }.

(** The probing loop: between ticks; waiting for an attempt until a deadline;
    with an outcome to publish, which came from [answered] if from any. *)
Inductive prober := Idle | Waiting (att : nat) (start : Z) | Outcome (err : option probe_error) (answered : option nat) (start ended : Z).

(** [sy_callbacks] are the generations of the timers that fired and wait for the
    mutex; [sy_earned] remembers the attempt behind the last outcome published. *)
Record system := mk_system {
  sy_checker : Checker; sy_now : Z; sy_attempts : gmap nat attempt; sy_next : nat; sy_prober : prober;
  sy_callbacks : list Z; sy_cancelled : bool; sy_earned : option nat * Z * Z; sy_published : Z
}.

Definition start_system (now : Z) : system := mk_system new_checker now ∅ 0 Idle [] false (None, 0, 0) 0.

Definition set_attempt (i : nat) (a : attempt) (s : system) : system :=
  mk_system (sy_checker s) (sy_now s) (<[i := a]> (sy_attempts s)) (sy_next s) (sy_prober s) (sy_callbacks s) (sy_cancelled s) (sy_earned s) (sy_published s).
Definition set_prober (p : prober) (s : system) : system :=
  mk_system (sy_checker s) (sy_now s) (sy_attempts s) (sy_next s) p (sy_callbacks s) (sy_cancelled s) (sy_earned s) (sy_published s).
Definition set_checker (c : Checker) (s : system) : system :=
  mk_system c (sy_now s) (sy_attempts s) (sy_next s) (sy_prober s) (sy_callbacks s) (sy_cancelled s) (sy_earned s) (sy_published s).

(** Timers fire on time: the clock does not pass the deadline of a waiting
    probe, the instant of an armed timer or a callback that is due. *)
Definition may_wait_until (t : Z) (s : system) : Prop :=
  sy_callbacks s = [] /\
  (forall gen at_, ck_timer (sy_checker s) = Some (gen, at_) -> t <= at_) /\
  (forall att start, sy_prober s = Waiting att start -> t <= start + probeTimeout).

(** [key] is the key of this process, [nonce] what its random source answers. *)
Inductive health_step (key : gostring) (s : system) : system -> Prop :=
| step_time t : sy_now s <= t -> may_wait_until t s ->
    health_step key s (mk_system (sy_checker s) t (sy_attempts s) (sy_next s) (sy_prober s) (sy_callbacks s) (sy_cancelled s) (sy_earned s) (sy_published s))
| step_tick_busy : sy_prober s = Idle -> begin_probe (sy_next s) (sy_checker s) = None ->
    health_step key s (set_prober (Outcome (Some EStillRunning) None (sy_now s) (sy_now s)) s)
| step_tick c nonce : sy_prober s = Idle -> begin_probe (sy_next s) (sy_checker s) = Some c ->
    health_step key s (mk_system c (sy_now s) (<[sy_next s := mk_attempt (sy_now s) [] (Running (probeOnce key nonce probeTTL))]> (sy_attempts s)) (S (sy_next s)) (Waiting (sy_next s) (sy_now s))
      (sy_callbacks s) (sy_cancelled s) (sy_earned s) (sy_published s))
| step_call i start tr p x p' : sy_attempts s !! i = Some (mk_attempt start tr (Running p)) -> x_at x = sy_now s -> stepped p x = Some p' ->
    health_step key s (set_attempt i (mk_attempt start (tr ++ [x]) (Running p')) s)
| step_finish i start tr err : sy_attempts s !! i = Some (mk_attempt start tr (Running (Ret err))) -> health_step key s (set_attempt i (mk_attempt start tr (Finished err)) s)
| step_release i start tr err : sy_attempts s !! i = Some (mk_attempt start tr (Finished err)) ->
    health_step key s (set_attempt i (mk_attempt start tr (Released err)) (set_checker (clear_inflight i (sy_checker s)) s))
| step_send i start tr err : sy_attempts s !! i = Some (mk_attempt start tr (Released err)) -> health_step key s (set_attempt i (mk_attempt start tr (Sent err)) s)
| step_receive i start a err : sy_prober s = Waiting i start -> sy_attempts s !! i = Some a -> at_phase a = Sent err ->
    health_step key s (set_prober (Outcome err (Some i) start (sy_now s)) s)
| step_timeout i start : sy_prober s = Waiting i start -> start + probeTimeout <= sy_now s ->
    health_step key s (set_prober (Outcome (Some ENotResponding) None start (sy_now s)) s)
| step_cancelled i start : sy_prober s = Waiting i start -> sy_cancelled s = true ->
    health_step key s (set_prober (Outcome (Some ECancelled) None start (sy_now s)) s)
| step_publish err from start ended : sy_prober s = Outcome err from start ended ->
    health_step key s (mk_system (publish (probe_status err (sy_now s)) (sy_now s) (sy_checker s)) (sy_now s) (sy_attempts s) (sy_next s) Idle
      (sy_callbacks s) (sy_cancelled s) (from, start, ended) (sy_now s))
| step_fire gen at_ : ck_timer (sy_checker s) = Some (gen, at_) -> at_ <= sy_now s ->
    health_step key s (mk_system (mk_checker (ck_snap (sy_checker s)) (ck_gen (sy_checker s)) None (ck_closed (sy_checker s)) (ck_inflight (sy_checker s)))
      (sy_now s) (sy_attempts s) (sy_next s) (sy_prober s) (gen :: sy_callbacks s) (sy_cancelled s) (sy_earned s) (sy_published s))
| step_stale gen l r : sy_callbacks s = l ++ gen :: r ->
    health_step key s (mk_system (markStale gen (sy_checker s)) (sy_now s) (sy_attempts s) (sy_next s) (sy_prober s) (l ++ r) (sy_cancelled s) (sy_earned s) (sy_published s))
| step_cancel : health_step key s (mk_system (sy_checker s) (sy_now s) (sy_attempts s) (sy_next s) (sy_prober s) (sy_callbacks s) true (sy_earned s) (sy_published s))
| step_close : health_step key s (mk_system (close (sy_checker s)) (sy_now s) (sy_attempts s) (sy_next s) (sy_prober s) (sy_callbacks s) true (sy_earned s) (sy_published s)).

(** * Theory *)

(** ** One attempt at a time *)

(** An attempt that still holds the slot. *)
Definition holding (o : option attempt) : Prop := match o with Some a => match at_phase a with Running _ | Finished _ => True | _ => False end | None => False end.

Record slot_inv (s : system) : Prop := {
  si_slot : forall i, holding (sy_attempts s !! i) <-> ck_inflight (sy_checker s) = Some i;
  si_fresh : forall i, is_Some (sy_attempts s !! i) -> (i < sy_next s)%nat
}.

Lemma slot_same s s' : slot_inv s -> sy_attempts s' = sy_attempts s -> sy_next s' = sy_next s ->
  ck_inflight (sy_checker s') = ck_inflight (sy_checker s) -> slot_inv s'.
Proof. intros [Hs Hf] Ha Hn Hi. split; intros i; rewrite Ha, ?Hn, ?Hi; auto. Qed.

Lemma slot_update s i a : slot_inv s -> is_Some (sy_attempts s !! i) -> (holding (Some a) <-> holding (sy_attempts s !! i)) -> slot_inv (set_attempt i a s).
Proof.
  intros [Hs Hf] Hi Ha. split; intros j; cbn [set_attempt sy_attempts sy_checker sy_next]; destruct (decide (i = j)) as [<- | Hne].
  - rewrite lookup_insert_eq, Ha. apply Hs.
  - rewrite lookup_insert_ne by done. apply Hs.
  - intros _. by apply Hf.
  - rewrite lookup_insert_ne by done. apply Hf.
Qed.

Lemma slot_preserved key s s' : health_step key s s' -> slot_inv s -> slot_inv s'.
Proof.
  intros Hstep Hinv. destruct Hstep; try (by eapply slot_same).
  - destruct Hinv as [Hs Hf]. unfold begin_probe in *. destruct (ck_inflight (sy_checker s)) eqn:Ei; [done |]. simplify_eq.
    split; intros i; cbn [sy_attempts sy_checker sy_next ck_inflight]; destruct (decide (sy_next s = i)) as [<- | Hne].
    + by rewrite lookup_insert_eq.
    + rewrite lookup_insert_ne by done. split; [intros Hi; by apply Hs in Hi | congruence].
    + lia.
    + rewrite lookup_insert_ne by done. intros Hi%Hf. lia.
  - apply slot_update; [done | by eexists |]. by rewrite H.
  - apply slot_update; [done | by eexists |]. by rewrite H.
  - destruct Hinv as [Hs Hf]. assert (Hi : ck_inflight (sy_checker s) = Some i) by (apply Hs; by rewrite H).
    split; intros j; cbn [set_attempt set_checker sy_attempts sy_checker sy_next]; unfold clear_inflight; rewrite ?bool_decide_eq_true_2 by done; cbn [ck_inflight];
      destruct (decide (i = j)) as [<- | Hne]; rewrite ?lookup_insert_eq, ?lookup_insert_ne by done.
    + done.
    + split; [| done]. intros Hj%Hs. congruence.
    + intros _. apply Hf. by rewrite H.
    + apply Hf.
  - apply slot_update; [done | by eexists |]. by rewrite H.
  - eapply slot_same; [done | done | done |]. cbn [sy_checker]. unfold markStale. destruct (ck_snap _); [| done]. by destruct (_ || _).
  - eapply slot_same; [done | done | done |]. cbn [sy_checker]. unfold close. by destruct (ck_closed _).
Qed.

(** ** What a snapshot is worth *)

(** The call a program makes, and what an attempt's calls amount to. *)
Definition rest_of (a : attempt) : prog (option probe_error) :=
  match at_phase a with Running p => p | Finished err | Released err | Sent err => Ret err end.
Definition attempt_ok (key : gostring) (now : Z) (a : attempt) : Prop :=
  (exists nonce, replay (probeOnce key nonce probeTTL) (at_trace a) = Some (rest_of a)) /\ at_start a <= now /\ Forall (fun x => at_start a <= x_at x <= now) (at_trace a).

Lemma replay_snoc tr x : forall p q, replay p tr = Some q -> replay p (tr ++ [x]) = stepped q x.
Proof.
  induction tr as [| y tr IH]; intros p q; cbn [app replay]; [intros [= ->]; by destruct (stepped q x) |].
  destruct (stepped p y) as [p' |]; [apply IH | done].
Qed.

(** A probe that succeeds wrote its nonce and read it back, in this order. *)
Definition round_trip (key : gostring) (start ended : Z) (tr : list exchange) : Prop :=
  exists nonce t1 t2, tr = [Wrote t1 key nonce probeTTL (Ok ()); Got t2 key (Ok (Some nonce))] /\ start <= t1 <= ended /\ start <= t2 <= ended.

Lemma replay_success key nonce tr : replay (probeOnce key nonce probeTTL) tr = Some (Ret None) ->
  exists n t1 t2, tr = [Wrote t1 key n probeTTL (Ok ()); Got t2 key (Ok (Some n))].
Proof.
  destruct nonce as [n |]; cbn [probeOnce]; [| by destruct tr].
  destruct tr as [| [t1 k1 v1 ttl1 a1 | t1 k1 a1] tr]; cbn [replay stepped]; [done | | done].
  case_bool_decide as E1; [destruct E1 as (-> & -> & ->) | done]. destruct a1 as [[] | e]; [| by destruct tr].
  destruct tr as [| [t2 k2 v2 ttl2 a2 | t2 k2 a2] tr]; cbn [replay stepped]; [done | done |].
  case_bool_decide as E2; [subst k2 | done]. destruct tr as [| x tr]; cbn [replay stepped]; [| done].
  intros [= Hv]. destruct a2 as [[v |] | e]; [| done | done]. case_bool_decide as Ev; [subst v | done]. by exists n, t1, t2.
Qed.

(** The outcome of a probe that met its deadline. *)
Definition earned_by (key : gostring) (s : system) (from : option nat) (start ended : Z) : Prop :=
  exists i a, from = Some i /\ sy_attempts s !! i = Some a /\ at_phase a = Sent None /\ at_start a = start /\
  round_trip key start ended (at_trace a) /\ start <= ended <= start + probeTimeout.

Definition guarded (s : system) : Prop :=
  let c := sy_checker s in
  let until := sy_published s + probeInterval * staleFactor in
  ck_closed c = true \/ ck_timer c = Some (ck_gen c, until) \/ (ck_gen c ∈ sy_callbacks s /\ sy_now s <= until).

Record health_inv (key : gostring) (s : system) : Prop := {
  hi_attempts : forall i a, sy_attempts s !! i = Some a -> attempt_ok key (sy_now s) a;
  hi_prober : match sy_prober s with
              | Idle => True
              | Waiting i start => start <= sy_now s <= start + probeTimeout /\ exists a, sy_attempts s !! i = Some a /\ at_start a = start
              | Outcome err from start ended => ended <= sy_now s /\ (err = None -> earned_by key s from start ended)
              end;
  hi_timer : forall gen at_, ck_timer (sy_checker s) = Some (gen, at_) -> sy_now s <= at_;
  hi_snap : forall st, ck_snap (sy_checker s) = Some st -> hs_gen st = ck_gen (sy_checker s) /\
    (hs_Up st = true -> hs_Stale st = false /\ hs_CheckedAt st = sy_published s /\ guarded s /\
       exists from start ended, sy_earned s = (from, start, ended) /\ earned_by key s from start ended /\ ended <= sy_published s)
}.

Lemma earned_same key s s' from start ended :
  (forall i a, sy_attempts s !! i = Some a -> at_phase a = Sent None -> sy_attempts s' !! i = Some a) ->
  earned_by key s from start ended -> earned_by key s' from start ended.
Proof. intros Ha (i & a & Hf & Hi & Hp & Hrest). exists i, a. auto. Qed.

Lemma attempt_ok_later key now now' a : now <= now' -> attempt_ok key now a -> attempt_ok key now' a.
Proof. intros Hle (Hr & Hs & Hf). split; [done |]. split; [lia |]. eapply Forall_impl; [exact Hf |]. cbn. lia. Qed.

(** Changing an attempt that is not done leaves every snapshot as it was. *)
Lemma attempt_inv key s i a : health_inv key s -> attempt_ok key (sy_now s) a ->
  (forall b, sy_attempts s !! i = Some b -> at_start b = at_start a /\ forall err, at_phase b <> Sent err) -> health_inv key (set_attempt i a s).
Proof.
  intros [Hat Hp Ht Hs] Hok Hi.
  assert (Hkeep : forall j b, sy_attempts s !! j = Some b -> at_phase b = Sent None -> sy_attempts (set_attempt i a s) !! j = Some b).
  { intros j b Hj Hb. cbn. rewrite lookup_insert_ne; [done |]. intros <-. by destruct (proj2 (Hi _ Hj) None). }
  split; [| | exact Ht |].
  - cbn [set_attempt sy_attempts sy_now]. intros j b [[<- <-] | [_ Hj]]%lookup_insert_Some; [done | by eapply Hat].
  - cbn [set_attempt sy_prober sy_now sy_attempts]. destruct (sy_prober s) as [| j start | err from start ended]; [done | |].
    + destruct Hp as [Hle (b & Hb & Hst)]. split; [done |]. destruct (decide (i = j)) as [<- | Hne].
      * exists a. rewrite lookup_insert_eq. split; [done |]. by rewrite <- (proj1 (Hi _ Hb)).
      * exists b. by rewrite lookup_insert_ne.
    + destruct Hp as [He Ho]. split; [done |]. intros Hn. apply (earned_same key s); [done | by apply Ho].
  - cbn [set_attempt sy_checker sy_published sy_earned]. intros st Hst. destruct (Hs st Hst) as [Hg Hu]. split; [done |]. intros Hup.
    destruct (Hu Hup) as (Hx & Hc & Hgd & from & start & ended & He & Hb & Hle). split_ands; [done | done | exact Hgd |].
    exists from, start, ended. split_ands; [done | by apply (earned_same key s) | done].
Qed.

(** Changing the prober's state leaves every snapshot as it was. *)
Lemma prober_inv key s p : health_inv key s ->
  match p with
  | Idle => True
  | Waiting i start => start <= sy_now s <= start + probeTimeout /\ exists a, sy_attempts s !! i = Some a /\ at_start a = start
  | Outcome err from start ended => ended <= sy_now s /\ (err = None -> earned_by key s from start ended)
  end ->
  health_inv key (set_prober p s).
Proof. intros [Hat Hp Ht Hs] Hnew. by split. Qed.

Lemma time_inv key s t : health_inv key s -> sy_now s <= t -> may_wait_until t s ->
  health_inv key (mk_system (sy_checker s) t (sy_attempts s) (sy_next s) (sy_prober s) (sy_callbacks s) (sy_cancelled s) (sy_earned s) (sy_published s)).
Proof.
  intros [Hok Hp Ht Hs] Hle (Hcb & Hat & Hw). split; cbn [sy_checker sy_now sy_attempts sy_prober sy_published sy_earned].
  - intros i a Hi. eapply attempt_ok_later; [done | by eapply Hok].
  - destruct (sy_prober s) as [| i start | err from start ended] eqn:Ep; [done | |].
    + specialize (Hw i start eq_refl). destruct Hp as [Hl Ha]. split; [lia | exact Ha].
    + destruct Hp as [He Ho]. split; [lia | exact Ho].
  - intros gen at_ Hg. by eapply Hat.
  - intros st Hst. destruct (Hs st Hst) as [Hg Hu]. split; [done |]. intros Hup. destruct (Hu Hup) as (Hx & Hc & Hgd & Hrest). split_ands; [done | done | | exact Hrest].
    destruct Hgd as [Hcl | [Htm | [Hin _]]]; [by left | by right; left |]. rewrite Hcb in Hin. by apply not_elem_of_nil in Hin.
Qed.

Lemma publish_inv key s err from start ended : health_inv key s -> sy_prober s = Outcome err from start ended ->
  health_inv key (mk_system (publish (probe_status err (sy_now s)) (sy_now s) (sy_checker s)) (sy_now s) (sy_attempts s) (sy_next s) Idle
      (sy_callbacks s) (sy_cancelled s) (from, start, ended) (sy_now s)).
Proof.
  intros [Hat Hp Ht Hs] Ep. rewrite Ep in Hp. destruct Hp as [He Ho]. unfold publish. split; cbn [sy_checker sy_now sy_attempts sy_prober sy_published sy_earned ck_timer ck_snap ck_gen].
  - exact Hat.
  - done.
  - intros gen at_. destruct (ck_closed _); [apply Ht |]. intros [= _ <-]. unfold probeInterval, staleFactor, second, millisecond, microsecond. lia.
  - intros st [= <-]. cbn [hs_gen hs_Up hs_Stale hs_CheckedAt probe_status]. split; [done |]. intros Hup%bool_decide_eq_true. split_ands; [done | done | |].
    + unfold guarded. cbn [sy_checker ck_closed ck_timer ck_gen sy_published]. destruct (ck_closed _); [by left | right; by left].
    + exists from, start, ended. split_ands; [done | by apply Ho | done].
Qed.

Lemma fire_inv key s gen at_ : health_inv key s -> ck_timer (sy_checker s) = Some (gen, at_) -> at_ <= sy_now s ->
  health_inv key (mk_system (mk_checker (ck_snap (sy_checker s)) (ck_gen (sy_checker s)) None (ck_closed (sy_checker s)) (ck_inflight (sy_checker s)))
      (sy_now s) (sy_attempts s) (sy_next s) (sy_prober s) (gen :: sy_callbacks s) (sy_cancelled s) (sy_earned s) (sy_published s)).
Proof.
  intros [Hat Hp Ht Hs] Et Hle. split; cbn [sy_checker sy_now sy_attempts sy_prober sy_published sy_earned ck_timer ck_snap ck_gen]; [exact Hat | exact Hp | done |].
  intros st Hst. destruct (Hs st Hst) as [Hg Hu]. split; [done |]. intros Hup. destruct (Hu Hup) as (Hx & Hc & Hgd & Hrest). split_ands; [done | done | | exact Hrest].
  unfold guarded in *. cbn [sy_checker ck_closed ck_timer ck_gen sy_published sy_callbacks sy_now]. rewrite Et in Hgd.
  destruct Hgd as [Hcl | [[= -> ->] | [Hin Hnow]]]; [by left | right; right; split; [by left | by apply Ht in Et] | right; right; split; [by right | done]].
Qed.

Lemma stale_inv key s gen l r : health_inv key s -> sy_callbacks s = l ++ gen :: r ->
  health_inv key (mk_system (markStale gen (sy_checker s)) (sy_now s) (sy_attempts s) (sy_next s) (sy_prober s) (l ++ r) (sy_cancelled s) (sy_earned s) (sy_published s)).
Proof.
  intros [Hat Hp Ht Hs] Ecb. unfold markStale. destruct (ck_snap (sy_checker s)) as [prev |] eqn:Esnap.
  2:{ split; cbn [sy_checker sy_now sy_attempts sy_prober sy_published sy_earned]; [exact Hat | exact Hp | exact Ht |]. intros st Hst. congruence. }
  destruct (ck_closed (sy_checker s) || _) eqn:Eb.
  - split; cbn [sy_checker sy_now sy_attempts sy_prober sy_published sy_earned]; [exact Hat | exact Hp | exact Ht |]. intros st Hst. rewrite Esnap in Hst. destruct (Hs st Hst) as [Hg Hu].
    split; [done |]. intros Hup. destruct (Hu Hup) as (Hx & Hc & Hgd & Hrest). split_ands; [done | done | | exact Hrest].
    unfold guarded in *. cbn [sy_checker sy_published sy_callbacks sy_now]. destruct Hgd as [Hcl | [Htm | [Hin Hnow]]]; [by left | by right; left |].
    apply orb_true_iff in Eb as [Hcl | Hne%negb_true_iff%Z.eqb_neq]; [by left |]. right; right. split; [| done].
    rewrite Ecb, elem_of_app, elem_of_cons in Hin. rewrite elem_of_app. destruct Hin as [? | [? | ?]]; [by left | congruence | by right].
  - split; cbn [sy_checker sy_now sy_attempts sy_prober sy_published sy_earned ck_timer ck_snap ck_gen]; [exact Hat | exact Hp | exact Ht |]. by intros st [= <-].
Qed.

Lemma close_inv key s : health_inv key s ->
  health_inv key (mk_system (close (sy_checker s)) (sy_now s) (sy_attempts s) (sy_next s) (sy_prober s) (sy_callbacks s) true (sy_earned s) (sy_published s)).
Proof.
  intros [Hat Hp Ht Hs]. unfold close. destruct (ck_closed (sy_checker s)) eqn:Ec; [by split |].
  split; cbn [sy_checker sy_now sy_attempts sy_prober sy_published sy_earned ck_timer ck_snap ck_gen]; [exact Hat | exact Hp | done |].
  intros st Hst. destruct (Hs st Hst) as [Hg Hu]. split; [done |]. intros Hup. destruct (Hu Hup) as (Hx & Hc & _ & Hrest). split_ands; [done | done | by left | exact Hrest].
Qed.

(** Only the slot changes. *)
Lemma slot_only_inv key s c : health_inv key s -> ck_snap c = ck_snap (sy_checker s) -> ck_gen c = ck_gen (sy_checker s) -> ck_timer c = ck_timer (sy_checker s) ->
  ck_closed c = ck_closed (sy_checker s) -> health_inv key (set_checker c s).
Proof.
  intros [Hat Hp Ht Hs] Hsn Hg Htm Hc. split; cbn [set_checker sy_checker sy_now sy_prober sy_published sy_earned]; [exact Hat | exact Hp | by rewrite Htm |].
  rewrite Hsn, Hg. intros st Hst. destruct (Hs st Hst) as [Hgen Hu]. split; [done |]. intros Hup. destruct (Hu Hup) as (Hx & Hck & Hgd & Hrest).
  split_ands; [done | done | | exact Hrest]. unfold guarded in *. cbn [set_checker sy_checker sy_published sy_callbacks sy_now]. by rewrite Hc, Htm, Hg.
Qed.

Lemma next_inv key s n : health_inv key s ->
  health_inv key (mk_system (sy_checker s) (sy_now s) (sy_attempts s) n (sy_prober s) (sy_callbacks s) (sy_cancelled s) (sy_earned s) (sy_published s)).
Proof. intros [Hat Hp Ht Hs]. by split. Qed.

Lemma probe_tick_inv key s c nonce : slot_inv s -> health_inv key s -> begin_probe (sy_next s) (sy_checker s) = Some c ->
  health_inv key (mk_system c (sy_now s) (<[sy_next s := mk_attempt (sy_now s) [] (Running (probeOnce key nonce probeTTL))]> (sy_attempts s))
    (S (sy_next s)) (Waiting (sy_next s) (sy_now s)) (sy_callbacks s) (sy_cancelled s) (sy_earned s) (sy_published s)).
Proof.
  intros Hslot Hinv Hc. unfold begin_probe in Hc. destruct (ck_inflight _); [done |]. injection Hc as <-.
  assert (Hnew : sy_attempts s !! sy_next s = None).
  { destruct (sy_attempts s !! sy_next s) eqn:E; [| done]. pose proof (si_fresh s Hslot (sy_next s) ltac:(by eexists)). lia. }
  refine (next_inv _ (set_prober (Waiting (sy_next s) (sy_now s)) (set_attempt (sy_next s) (mk_attempt (sy_now s) [] (Running (probeOnce key nonce probeTTL))) (set_checker _ s))) _ _).
  apply prober_inv.
  - apply attempt_inv; [by apply slot_only_inv | | by cbn; intros b; rewrite Hnew]. split; [by exists nonce | split; [done | constructor]].
  - cbn. split; [unfold probeTimeout, second, millisecond, microsecond; lia |]. eexists. by rewrite lookup_insert_eq.
Qed.

(** A phase change keeps what an attempt amounts to. *)
Lemma attempt_moves key s i start tr ph ph' : health_inv key s -> sy_attempts s !! i = Some (mk_attempt start tr ph) ->
  rest_of (mk_attempt start tr ph') = rest_of (mk_attempt start tr ph) -> (forall err, ph <> Sent err) -> health_inv key (set_attempt i (mk_attempt start tr ph') s).
Proof.
  intros Hinv Hi Hrest Hph. apply attempt_inv; [done | |].
  - destruct (hi_attempts key s Hinv i _ Hi) as ([nonce Hr] & Hf). split; [exists nonce; by rewrite Hrest | exact Hf].
  - intros b Hb. assert (b = mk_attempt start tr ph) as -> by congruence. by split.
Qed.

Lemma release_inv key s i start tr err : health_inv key s -> sy_attempts s !! i = Some (mk_attempt start tr (Finished err)) ->
  health_inv key (set_attempt i (mk_attempt start tr (Released err)) (set_checker (clear_inflight i (sy_checker s)) s)).
Proof.
  intros Hinv Hi. eapply attempt_moves; [| exact Hi | done | done]. unfold clear_inflight. case_bool_decide; by apply slot_only_inv.
Qed.

Lemma call_inv key s i start tr x p p' : health_inv key s -> sy_attempts s !! i = Some (mk_attempt start tr (Running p)) -> x_at x = sy_now s ->
  stepped p x = Some p' -> health_inv key (set_attempt i (mk_attempt start (tr ++ [x]) (Running p')) s).
Proof.
  intros Hinv Hi Hx Hs. apply attempt_inv; [done | |].
  - destruct (hi_attempts key s Hinv i _ Hi) as ([nonce Hr] & Hst & Hf). cbn in Hst. split; [| split; [done |]].
    + exists nonce. cbn. rewrite (replay_snoc _ _ _ _ Hr). exact Hs.
    + cbn. apply Forall_app. split; [exact Hf |]. constructor; [cbn; lia | constructor].
  - intros b Hb. assert (b = mk_attempt start tr (Running p)) as -> by congruence. by split.
Qed.

(** What a received success was. *)
Lemma received_earned key s i start a : health_inv key s -> sy_attempts s !! i = Some a -> at_phase a = Sent None -> at_start a = start ->
  start <= sy_now s <= start + probeTimeout -> earned_by key s (Some i) start (sy_now s).
Proof.
  intros Hinv Hi Hp Hst Ht. destruct (hi_attempts key s Hinv i a Hi) as ([nonce Hr] & _ & Hf). unfold rest_of in Hr. rewrite Hp in Hr.
  exists i, a. split_ands; [done | done | done | done | | lia | lia]. destruct (replay_success key nonce _ Hr) as (n & t1 & t2 & Htr).
  exists n, t1, t2. rewrite Htr, Hst in Hf. apply Forall_cons in Hf as [H1 [H2 _]%Forall_cons]. done.
Qed.

Lemma health_preserved key s s' : health_step key s s' -> slot_inv s /\ health_inv key s -> slot_inv s' /\ health_inv key s'.
Proof.
  intros Hstep [Hslot Hinv]. split; [by eapply slot_preserved |]. pose proof (hi_prober key s Hinv) as Hp. destruct Hstep.
  - by apply time_inv.
  - apply prober_inv; [done |]. by split.
  - by apply probe_tick_inv.
  - by eapply call_inv.
  - by eapply attempt_moves.
  - by apply release_inv.
  - by eapply attempt_moves.
  - apply prober_inv; [done |]. rewrite H in Hp. destruct Hp as [Ht (b & Hb & Hst)]. split; [done |]. intros ->.
    assert (b = a) as -> by congruence. by eapply received_earned.
  - apply prober_inv; [done |]. by split.
  - apply prober_inv; [done |]. by split.
  - by apply publish_inv.
  - by eapply fire_inv.
  - by eapply stale_inv.
  - destruct Hinv as [Hat Hp' Ht Hs]. by split.
  - by apply close_inv.
Qed.

Lemma start_inv key now : slot_inv (start_system now) /\ health_inv key (start_system now).
Proof.
  split; split; cbn; [| by intros i [a Ha] | done | done | done | done]. intros i. split; [done | discriminate].
Qed.

(** On the contract, an undisturbed probe succeeds. *)
Lemma probe_succeeds key nonce tm (m : amap) : tm 1%nat 0%nat <= tm 0%nat 0%nat + probeTTL -> (run (probeOnce key (Some nonce) probeTTL) tm m).2 = None.
Proof.
  intros Ht. cbn [probeOnce run exec_op st_set st_get contract_ops spec_set spec_get]. rewrite live_insert.
  unfold expired. cbn [e_expires expiry Z.leb Z.compare probeTTL]. change (expiry probeTTL (tm 0%nat 0%nat)) with (Some (tm 0%nat 0%nat + probeTTL)). cbn [e_expires].
  rewrite (proj2 (Z.ltb_ge _ _)) by done. cbn. by rewrite bool_decide_eq_true_2.
Qed.

(** * Properties *)

(** C20: In every interleaving of the probing loop, its probe goroutines, the
    staleness timers and Close, whatever the backend answers, at most one
    attempt holds the slot, and readiness reports ready only on an attempt
    that wrote its nonce and then read that very nonce back, both within the
    two seconds after its start in which it also reported; while the checker
    is not closed, that outcome is at most three intervals old. *)
Theorem readiness_is_earned_and_fresh key now s (Hr : rtc (health_step key) (start_system now) s) :
  (forall i j, holding (sy_attempts s !! i) -> holding (sy_attempts s !! j) -> i = j) /\
  (notReadyReason (Some (sy_checker s)) = [] ->
     exists st i tr nonce start t1 t2 ended, ck_snap (sy_checker s) = Some st /\ sy_attempts s !! i = Some (mk_attempt start tr (Sent None)) /\
       tr = [Wrote t1 key nonce probeTTL (Ok ()); Got t2 key (Ok (Some nonce))] /\ start <= t1 <= ended /\ start <= t2 <= ended /\
       ended <= start + probeTimeout /\ ended <= hs_CheckedAt st /\
       (ck_closed (sy_checker s) = false -> sy_now s <= hs_CheckedAt st + probeInterval * staleFactor)).
Proof.
  destruct (rtc_invariant (health_step key) (fun s => slot_inv s /\ health_inv key s) (health_preserved key) _ _ Hr (start_inv key now)) as [Hslot Hinv]. split.
  - intros i j Hi%(si_slot s Hslot) Hj%(si_slot s Hslot). congruence.
  - unfold notReadyReason, status. destruct (ck_snap (sy_checker s)) as [st |] eqn:Est; [| done]. unfold id; cbn [default from_option].
    destruct (negb (hs_Probed st)); [done |]. destruct (hs_Stale st); [done |]. destruct (hs_Up st) eqn:Eup; [| done]. intros _.
    destruct (hi_snap key s Hinv st Est) as [_ Hu]. destruct (Hu Eup) as (_ & Hc & Hg & from & start & ended & _ & (i & [st' tr ph] & _ & Hi & Hph & Hst & Hrt & Ht) & Hle).
    destruct Hrt as (nonce & t1 & t2 & Htr & Ht1 & Ht2). cbn in Hph, Hst, Htr. subst ph st'.
    exists st, i, tr, nonce, start, t1, t2, ended. split_ands; [done | done | done | lia | lia | lia | lia | lia | by rewrite Hc |]. intros Hopen. rewrite Hc.
    destruct Hg as [Hcl | [Htm | [_ Hn]]]; [congruence | by apply (hi_timer key s Hinv) in Htm | done].
Qed.

(** One probe that answers within a second. *)
Module Ex.
Definition probe_key : gostring := probeKeyPrefix ++ lit "1".
Definition nonce : gostring := lit "sixteen bytes!!!".
Definition calls : list exchange := [Wrote second probe_key nonce probeTTL (Ok ()); Got second probe_key (Ok (Some nonce))].
Definition answered : system :=
  mk_system (publish (probe_status None second) second (mk_checker None 0 None false None)) second
    {[ 0%nat := mk_attempt 0 calls (Sent None) ]} 1 Idle [] false (Some 0%nat, 0, second) second.

Lemma answered_reachable : rtc (health_step probe_key) (start_system 0) answered.
Proof.
  eapply rtc_l; [eapply step_tick with (nonce := Some nonce); reflexivity |]. cbn [start_system sy_now sy_attempts sy_next sy_callbacks sy_cancelled sy_earned sy_published].
  eapply rtc_l; [apply (step_time _ _ second); [by vm_compute |]; split; [done |]; split; [done |]; intros att start [= <- <-]; by vm_compute |].
  eapply rtc_l; [eapply step_call with (i := 0%nat) (x := Wrote second probe_key nonce probeTTL (Ok ())); reflexivity |].
  eapply rtc_l; [eapply step_call with (i := 0%nat) (x := Got second probe_key (Ok (Some nonce))); reflexivity |].
  eapply rtc_l; [by apply (step_finish _ _ 0%nat 0 calls None) |]. eapply rtc_l; [by apply (step_release _ _ 0%nat 0 calls None) |].
  eapply rtc_l; [by apply (step_send _ _ 0%nat 0 calls None) |]. eapply rtc_l; [by apply (step_receive _ _ 0%nat 0 (mk_attempt 0 calls (Sent None)) None) |].
  eapply rtc_l; [by apply (step_publish _ _ None (Some 0%nat) 0 second) |]. apply rtc_refl.
Qed.

Lemma readiness_is_earned_and_fresh_witness : exists st, ck_snap (sy_checker answered) = Some st /\ sy_now answered <= hs_CheckedAt st + 30 * second /\
  exists t1 n, Wrote t1 probe_key n probeTTL (Ok ()) ∈ calls.
Proof.
  destruct (proj2 (readiness_is_earned_and_fresh probe_key 0 answered answered_reachable) eq_refl) as (st & i & tr & n & start & t1 & t2 & ended & Hst & Hi & Htr & _ & _ & _ & _ & Hn).
  exists st. split; [exact Hst | split; [exact (Hn eq_refl) |]]. exists second, nonce. by left.
Defined.
End Ex.
