(* ===== verification/Base64.v ===== *)
(** * encoding/base64: RawURLEncoding

    The unpadded URL alphabet; the decoder is Go's non-strict one, which skips
    CR and LF and ignores the unused low bits of a final partial group. *)

From S2P Require Export Bytes.

Definition b64_char (d : Z) : ascii :=
  Zbyte (if d <? 26 then 65 + d else if d <? 52 then 71 + d else if d <? 62 then d - 4 else if d =? 62 then 45 else 95).

Definition b64_value (c : ascii) : option Z :=
  let v := byteZ c in
  if (65 <=? v) && (v <=? 90) then Some (v - 65)
  else if (97 <=? v) && (v <=? 122) then Some (v - 71)
  else if (48 <=? v) && (v <=? 57) then Some (v + 4)
  else if v =? 45 then Some 62
  else if v =? 95 then Some 63
  else None.

Fixpoint b64_encode (s : gostring) : gostring :=
  match s with
  | a :: b :: c :: r =>
    let n := byteZ a * 65536 + byteZ b * 256 + byteZ c in
    b64_char (n / 262144) :: b64_char (n / 4096 mod 64) :: b64_char (n / 64 mod 64) :: b64_char (n mod 64) :: b64_encode r
  | [a; b] =>
    let n := byteZ a * 65536 + byteZ b * 256 in
    [b64_char (n / 262144); b64_char (n / 4096 mod 64); b64_char (n / 64 mod 64)]
  | [a] => let n := byteZ a * 65536 in [b64_char (n / 262144); b64_char (n / 4096 mod 64)]
  | [] => []
  end.

Fixpoint b64_groups (vs : list Z) : option gostring :=
  match vs with
  | a :: b :: c :: d :: r =>
    let n := a * 262144 + b * 4096 + c * 64 + d in
    rest ← b64_groups r; Some (Zbyte (n / 65536) :: Zbyte (n / 256) :: Zbyte n :: rest)
  | [a; b; c] => let n := a * 262144 + b * 4096 + c * 64 in Some [Zbyte (n / 65536); Zbyte (n / 256)]
  | [a; b] => let n := a * 262144 + b * 4096 in Some [Zbyte (n / 65536)]
  | [_] => None
  | [] => Some []
  end.

Definition newline (c : ascii) : bool := (byteZ c =? 10) || (byteZ c =? 13).

(** [DecodeString]; [None] is an error. *)
Definition b64_decode (s : gostring) : option gostring :=
  vs ← mapM b64_value (filter (fun c => newline c = false) s); b64_groups vs.

Lemma b64_value_char d : 0 <= d < 64 -> b64_value (b64_char d) = Some d /\ newline (b64_char d) = false /\ b64_char d <> "."%char.
Proof.
  intros H. assert (Hall : forallb (fun d => bool_decide (b64_value (b64_char d) = Some d) && negb (newline (b64_char d)) &&
    negb (Ascii.eqb (b64_char d) "."%char)) (map Z.of_nat (seq 0 64)) = true) by (vm_compute; reflexivity).
  rewrite forallb_forall in Hall.
  specialize (Hall d ltac:(apply in_map_iff; exists (Z.to_nat d); split; [lia | apply in_seq; lia])).
  apply andb_true_iff in Hall as [Hall H3]. apply andb_true_iff in Hall as [H1 H2].
  apply bool_decide_eq_true in H1. apply negb_true_iff in H2, H3. apply Ascii.eqb_neq in H3. by split_ands.
Qed.

(** Three bytes at a time. *)
Lemma triples_ind (P : gostring -> Prop) :
  P [] -> (forall a, P [a]) -> (forall a b, P [a; b]) -> (forall a b c r, P r -> P (a :: b :: c :: r)) -> forall s, P s.
Proof.
  intros H0 H1 H2 H3. fix IH 1. intros [| a [| b [| c r]]]; [exact H0 | apply H1 | apply H2 | apply H3, IH].
Qed.

Lemma base64_digits n : n / 262144 * 262144 + n / 4096 mod 64 * 4096 + n / 64 mod 64 * 64 + n mod 64 = n.
Proof.
  replace (n / 4096) with (n / 64 / 64) by (rewrite Z.div_div by lia; done).
  replace (n / 262144) with (n / 64 / 64 / 64) by (rewrite !Z.div_div by lia; done).
  pose proof (Z.div_mod n 64 ltac:(lia)). pose proof (Z.div_mod (n / 64) 64 ltac:(lia)).
  pose proof (Z.div_mod (n / 64 / 64) 64 ltac:(lia)). lia.
Qed.

Lemma triple_bytes a b c : 0 <= a -> 0 <= b < 256 -> 0 <= c < 256 ->
  let n := a * 65536 + b * 256 + c in n / 65536 = a /\ (n / 256) mod 256 = b /\ n mod 256 = c.
Proof.
  intros Ha Hb Hc n. assert (n / 256 = a * 256 + b) as H1 by (symmetry; apply (Z.div_unique n 256 _ c); unfold n; lia).
  split_ands.
  - symmetry. apply (Z.div_unique n 65536 _ (b * 256 + c)); unfold n; lia.
  - rewrite H1. symmetry. apply (Z.mod_unique _ 256 a); lia.
  - symmetry. apply (Z.mod_unique n 256 (a * 256 + b)); unfold n; lia.
Qed.

Lemma Zbyte_is n v c : n = v -> v = byteZ c -> Zbyte n = c.
Proof. intros -> ->. apply Zbyte_byteZ. Qed.
Lemma Zbyte_is_mod n c : n mod 256 = byteZ c -> Zbyte n = c.
Proof. intros H. rewrite <- Zbyte_mod, H. apply Zbyte_byteZ. Qed.

Lemma b64_chars s : Forall (fun c => newline c = false /\ c <> "."%char) (b64_encode s) /\
  exists vs, mapM b64_value (b64_encode s) = Some vs /\ b64_groups vs = Some s.
Proof.
  induction s as [| a | a b | a b c r [IH (vs & Hm & Hg)]] using triples_ind.
  - split; [constructor | by exists []].
  - pose proof (byteZ_range a). cbn [b64_encode].
    destruct (b64_value_char (byteZ a * 65536 / 262144)) as (V1 & N1 & D1); [split; [apply Z.div_pos; lia | apply Z.div_lt_upper_bound; lia] |].
    destruct (b64_value_char (byteZ a * 65536 / 4096 mod 64)) as (V2 & N2 & D2); [apply Z.mod_pos_bound; lia |].
    split; [by repeat constructor |]. eexists. split; [cbn [mapM mbind option_bind]; by rewrite V1; cbn; rewrite V2 |]. cbn [b64_groups]. do 2 f_equal.
    apply (Zbyte_is _ (byteZ a)); [| done]. set (n := byteZ a * 65536).
    assert (Hn : n / 262144 * 262144 + n / 4096 mod 64 * 4096 = n).
    { pose proof (base64_digits n).
      assert (n mod 64 = 0) by (unfold n; apply Z.mod_divide; [lia |]; exists (byteZ a * 1024); lia).
      assert (n / 64 = byteZ a * 16 * 64) as H64 by (symmetry; apply (Z.div_unique n 64 _ 0); unfold n; lia).
      rewrite H64, Z_mod_mult in *. lia. }
    rewrite Hn. unfold n. by rewrite Z.div_mul.
  - pose proof (byteZ_range a). pose proof (byteZ_range b). cbn [b64_encode]. set (n := byteZ a * 65536 + byteZ b * 256).
    destruct (b64_value_char (n / 262144)) as (V1 & N1 & D1); [split; [apply Z.div_pos; lia | apply Z.div_lt_upper_bound; lia] |].
    destruct (b64_value_char (n / 4096 mod 64)) as (V2 & N2 & D2); [apply Z.mod_pos_bound; lia |].
    destruct (b64_value_char (n / 64 mod 64)) as (V3 & N3 & D3); [apply Z.mod_pos_bound; lia |].
    split; [by repeat constructor |]. eexists. split; [cbn [mapM mbind option_bind]; rewrite V1; cbn; rewrite V2; cbn; by rewrite V3 |]. cbn [b64_groups].
    assert (Hn : n / 262144 * 262144 + n / 4096 mod 64 * 4096 + n / 64 mod 64 * 64 = n)
      by (pose proof (base64_digits n); assert (n mod 64 = 0) by (unfold n; apply Z.mod_divide; [lia |]; exists (byteZ a * 1024 + byteZ b * 4); lia); lia).
    rewrite Hn.
    destruct (triple_bytes (byteZ a) (byteZ b) 0) as (B1 & B2 & _); [lia.. |]. rewrite Z.add_0_r in B1, B2. fold n in B1, B2.
    do 2 f_equal; [| f_equal]; [by eapply Zbyte_is | by apply Zbyte_is_mod].
  - pose proof (byteZ_range a). pose proof (byteZ_range b). pose proof (byteZ_range c). cbn [b64_encode].
    set (n := byteZ a * 65536 + byteZ b * 256 + byteZ c).
    destruct (b64_value_char (n / 262144)) as (V1 & N1 & D1); [split; [apply Z.div_pos; lia | apply Z.div_lt_upper_bound; lia] |].
    destruct (b64_value_char (n / 4096 mod 64)) as (V2 & N2 & D2); [apply Z.mod_pos_bound; lia |].
    destruct (b64_value_char (n / 64 mod 64)) as (V3 & N3 & D3); [apply Z.mod_pos_bound; lia |].
    destruct (b64_value_char (n mod 64)) as (V4 & N4 & D4); [apply Z.mod_pos_bound; lia |].
    split; [by repeat constructor |]. eexists. split.
    { cbn [mapM mbind option_bind]. rewrite V1; cbn; rewrite V2; cbn; rewrite V3; cbn; rewrite V4; cbn. by rewrite Hm. }
    cbn [b64_groups]. assert (Hn : n / 262144 * 262144 + n / 4096 mod 64 * 4096 + n / 64 mod 64 * 64 + n mod 64 = n) by apply base64_digits.
    rewrite Hn, Hg. cbn [mbind option_bind].
    destruct (triple_bytes (byteZ a) (byteZ b) (byteZ c)) as (B1 & B2 & B3); [lia.. |]. fold n in B1, B2, B3.
    do 2 f_equal; [| f_equal; [| f_equal]]; [by eapply Zbyte_is | by apply Zbyte_is_mod | by apply Zbyte_is_mod].
Qed.

Lemma filter_all {A} (P : A -> Prop) `{forall x, Decision (P x)} (l : list A) : Forall P l -> filter P l = l.
Proof. induction 1 as [| x l Hx _ IH]; [done |]. rewrite filter_cons_True by done. by rewrite IH. Qed.

Lemma b64_decode_encode s : b64_decode (b64_encode s) = Some s.
Proof.
  destruct (b64_chars s) as [Hf (vs & Hm & Hg)]. unfold b64_decode. rewrite filter_all; [by rewrite Hm |].
  eapply Forall_impl; [exact Hf | by intros ? []].
Qed.

Lemma b64_no_dot s : "."%char ∉ b64_encode s.
Proof. destruct (b64_chars s) as [Hf _]. rewrite Forall_forall in Hf. intros Hin. by destruct (Hf _ Hin). Qed.

(** Whole groups of three encode independently. *)
Lemma b64_encode_app a b : len a mod 3 = 0 -> b64_encode (a ++ b) = b64_encode a ++ b64_encode b.
Proof.
  induction a as [| x | x y | x y z r IH] using triples_ind; intros Hl; [done | done | done |].
  cbn [app b64_encode]. rewrite IH; [done |]. rewrite !len_cons in Hl.
  replace (1 + (1 + (1 + len r))) with (len r + 1 * 3) in Hl by lia. by rewrite Z_mod_plus_full in Hl.
Qed.

Example b64_example : b64_encode (lit "hello?>") = lit "aGVsbG8_Pg".
Proof. vm_compute. reflexivity. Qed.
