(* ===== verification/Utf8.v ===== *)
(** * unicode/utf8 and strings.ToValidUTF8

    Which byte sequences encode a character: [rune_width] is the length of the
    encoding a string starts with, by the ranges of RFC 3629. *)

From S2P Require Export Bytes.

Open Scope Z_scope.

Definition between (lo hi : Z) (c : ascii) : bool := (lo <=? byteZ c) && (byteZ c <=? hi).
Definition continuation : ascii -> bool := between 128 191.

(** The width of the first character; [None] where the string does not start
    with a valid encoding. *)
Definition rune_width (s : gostring) : option nat :=
  match s with
  | [] => None
  | a :: r =>
    if byteZ a <? 128 then Some 1%nat else
    match r with
    | b :: r =>
      if between 194 223 a then (if continuation b then Some 2%nat else None) else
      match r with
      | c :: r =>
        if byteZ a =? 224 then (if between 160 191 b && continuation c then Some 3%nat else None)
        else if byteZ a =? 237 then (if between 128 159 b && continuation c then Some 3%nat else None)
        else if between 225 239 a then (if continuation b && continuation c then Some 3%nat else None) else
        match r with
        | d :: _ =>
          if byteZ a =? 240 then (if between 144 191 b && continuation c && continuation d then Some 4%nat else None)
          else if byteZ a =? 244 then (if between 128 143 b && continuation c && continuation d then Some 4%nat else None)
          else if between 241 243 a then (if continuation b && continuation c && continuation d then Some 4%nat else None)
          else None
        | [] => None
        end
      | [] => None
      end
    | [] => None
    end
  end.

(** One round per character, so the length of the string is fuel enough. *)
Fixpoint valid_loop (fuel : nat) (s : gostring) : bool :=
  match s, fuel with
  | [], _ => true
  | _, O => false
  | _, S fuel => match rune_width s with Some w => valid_loop fuel (drop w s) | None => false end
  end.
Definition ValidString (s : gostring) : bool := valid_loop (length s) s.

(** [strings.ToValidUTF8]: a run of invalid bytes becomes one replacement. *)
Fixpoint to_valid (fuel : nat) (replacement : gostring) (invalid : bool) (s : gostring) : gostring :=
  match s, fuel with
  | [], _ => []
  | _, O => []
  | _ :: rest, S fuel =>
    match rune_width s with
    | Some w => take w s ++ to_valid fuel replacement false (drop w s)
    | None => (if invalid then [] else replacement) ++ to_valid fuel replacement true rest
    end
  end.
Definition ToValidUTF8 (s replacement : gostring) : gostring := to_valid (length s) replacement false s.

(** U+FFFD. *)
Definition replacement_rune : gostring := [Zbyte 239; Zbyte 191; Zbyte 189].

Lemma rune_width_bounds s w : rune_width s = Some w -> (1 <= w <= 4)%nat /\ (w <= length s)%nat.
Proof.
  unfold rune_width. destruct s as [| a [| b [| c [| d r]]]]; repeat case_match; intros Hw; simplify_eq; cbn [length]; lia.
Qed.

(** The loop never runs out of rounds: more fuel changes nothing. *)
Lemma valid_loop_fuel f g : forall s, (length s <= f)%nat -> (length s <= g)%nat -> valid_loop f s = valid_loop g s.
Proof.
  revert g. induction f as [| f IH]; intros g [| a s] Hf Hg; cbn [length] in *; try lia; destruct g; try lia; try done.
  cbn [valid_loop]. destruct (rune_width (a :: s)) as [w |] eqn:Ew; [| done]. apply rune_width_bounds in Ew as [Hw Hl].
  apply IH; rewrite length_drop; cbn [length] in *; lia.
Qed.

Lemma rune_width_take s w : rune_width s = Some w -> forall t, rune_width (take w s ++ t) = Some w.
Proof.
  unfold rune_width. destruct s as [| a [| b [| c [| d r]]]]; repeat case_match; intros Hw t; simplify_eq; cbn [take app];
    repeat (first [done | match goal with E : ?c = _ |- context [?c] => rewrite E end]).
Qed.

Lemma ValidString_cons s w : rune_width s = Some w -> forall t, ValidString (take w s ++ t) = ValidString t.
Proof.
  intros Hw t. pose proof (rune_width_bounds s w Hw) as [H1 H2]. unfold ValidString.
  assert (Hl : length (take w s) = w) by (rewrite length_take; lia).
  destruct (take w s ++ t) as [| a q] eqn:E; [apply (f_equal length) in E; rewrite length_app in E; cbn in E; lia |].
  cbn [length]. cbn [valid_loop]. rewrite <- E, rune_width_take by done. rewrite drop_app_length' by done.
  apply valid_loop_fuel; [| done]. apply (f_equal length) in E. rewrite length_app in E. cbn [length] in E. lia.
Qed.

Lemma ValidString_app s : forall t, ValidString s = true -> ValidString (s ++ t) = ValidString t.
Proof.
  induction s as [s IH] using (induction_ltof1 _ length). intros t Hs. unfold ltof in IH. destruct s as [| a s]; [done |].
  unfold ValidString in Hs. cbn [length valid_loop] in Hs. destruct (rune_width (a :: s)) as [w |] eqn:Ew; [| done].
  pose proof (rune_width_bounds _ w Ew) as [H1 H2]. rewrite <- (take_drop w (a :: s)), <- app_assoc, ValidString_cons by done.
  apply IH; [rewrite length_drop; cbn [length] in *; lia |]. rewrite <- Hs. apply valid_loop_fuel; rewrite length_drop; cbn [length] in *; lia.
Qed.

(** The result is valid where the replacement is. *)
Lemma ToValidUTF8_valid s replacement : ValidString replacement = true -> ValidString (ToValidUTF8 s replacement) = true.
Proof.
  intros Hr. unfold ToValidUTF8. enough (forall f t invalid, ValidString (to_valid f replacement invalid t) = true) by done.
  clear s. induction f as [| f IH]; intros t invalid; [by destruct t |]. destruct t as [| a t]; [done |]. cbn [to_valid].
  destruct (rune_width (a :: t)) as [w |] eqn:Ew; [by rewrite ValidString_cons |].
  destruct invalid; [apply IH |]. by rewrite ValidString_app.
Qed.

(** A valid string is left alone. *)
Lemma ToValidUTF8_id s replacement : ValidString s = true -> ToValidUTF8 s replacement = s.
Proof.
  unfold ToValidUTF8, ValidString. enough (forall f g t, valid_loop f t = true -> (length t <= g)%nat -> to_valid g replacement false t = t) by eauto.
  clear s. induction f as [| f IH]; intros g [| a t] Hv Hg; try done; [by destruct g .. |]. cbn [valid_loop] in Hv.
  destruct g; [cbn in Hg; lia |]. cbn [to_valid]. destruct (rune_width (a :: t)) as [w |] eqn:Ew; [| done].
  pose proof (rune_width_bounds _ w Ew) as [H1 H2]. rewrite IH; [by rewrite take_drop | done |].
  rewrite length_drop. cbn [length] in *. lia.
Qed.
