(* ===== verification/Text.v ===== *)
(** * Text helpers of the standard library: strings and net

    [strings.ToLower], [ToUpper], [EqualFold], [Contains], [TrimSpace], [Trim], [TrimSuffix] and
    [net.SplitHostPort].  On a string of ASCII bytes these are defined here; the
    Unicode tables they fall back to on other bytes are the class [Unicode]. *)

From S2P Require Export Bytes.

(** What [strings] computes once a byte outside ASCII is met. *)
Class Unicode := {
  unicode_lower : gostring -> gostring;              (* Map(unicode.ToLower, s) *)
  unicode_upper : gostring -> gostring;              (* Map(unicode.ToUpper, s) *)
  unicode_fold : gostring -> gostring -> bool;       (* simple folding of the rest *)
  unicode_trim : gostring -> gostring;               (* TrimFunc(s, unicode.IsSpace) *)
  unicode_trim_right : gostring -> gostring          (* TrimRightFunc(s, unicode.IsSpace) *)
}.

Definition ascii_byte (c : ascii) : bool := byteZ c <? 128.
Definition is_ascii (s : gostring) : bool := forallb ascii_byte s.

Definition lower_byte (c : ascii) : ascii :=
  let v := byteZ c in if (65 <=? v) && (v <=? 90) then Zbyte (v + 32) else c.

Definition upper_byte (c : ascii) : ascii :=
  let v := byteZ c in if (97 <=? v) && (v <=? 122) then Zbyte (v - 32) else c.

Definition ToUpper `{Unicode} (s : gostring) : gostring :=
  if is_ascii s then map upper_byte s else unicode_upper s.

Definition ToLower `{Unicode} (s : gostring) : gostring :=
  if is_ascii s then map lower_byte s else unicode_lower s.

Fixpoint EqualFold `{Unicode} (s t : gostring) : bool :=
  match s, t with
  | a :: s', b :: t' =>
    if negb (ascii_byte a) || negb (ascii_byte b) then unicode_fold s t
    else if Ascii.eqb (lower_byte a) (lower_byte b) then EqualFold s' t' else false
  | [], [] => true
  | _, _ => false
  end.

Definition ascii_space (c : ascii) : bool := let v := byteZ c in ((9 <=? v) && (v <=? 13)) || (v =? 32).

Fixpoint drop_while (P : ascii -> bool) (s : gostring) : gostring :=
  match s with c :: r => if P c then drop_while P r else s | [] => [] end.
Definition drop_while_right (P : ascii -> bool) (s : gostring) : gostring := rev (drop_while P (rev s)).

Definition TrimSpace `{Unicode} (s : gostring) : gostring :=
  match drop_while ascii_space s with
  | [] => []
  | c :: r =>
    if negb (ascii_byte c) then unicode_trim (c :: r) else
    match drop_while ascii_space (rev (c :: r)) with
    | [] => []
    | d :: q => if negb (ascii_byte d) then unicode_trim_right (rev (d :: q)) else rev (d :: q)
    end
  end.

(** [strings.Trim(s, cutset)] for an ASCII cutset. *)
Definition Trim (cutset s : gostring) : gostring :=
  drop_while_right (fun c => bool_decide (c ∈ cutset)) (drop_while (fun c => bool_decide (c ∈ cutset)) s).

Definition TrimSuffix (suffix s : gostring) : gostring :=
  if has_prefix (rev suffix) (rev s) then take (length s - length suffix) s else s.

(** [strings.Contains(s, needle)]. *)
Fixpoint Contains (needle s : gostring) : bool :=
  has_prefix needle s || match s with [] => false | _ :: r => Contains needle r end.

Definition contains (c : ascii) (s : gostring) : bool := bool_decide (c ∈ s).

(** [strings.LastIndexByte], as the split around the last occurrence. *)
Definition split_last (c : ascii) (s : gostring) : option (gostring * gostring) :=
  match split_at_byte c (rev s) with Some (a, b) => Some (rev b, rev a) | None => None end.

(** [net.SplitHostPort]; [None] is an error. *)
Definition SplitHostPort (s : gostring) : option (gostring * gostring) :=
  match split_last ":"%char s with
  | None => None
  | Some (before, port) =>
    match s with
    | "["%char :: body =>
      match split_at_byte "]"%char body with
      | None => None
      | Some (host, after) =>
        if negb (bool_decide (after = ":"%char :: port)) then None
        else if contains "["%char body || contains "]"%char after then None
        else Some (host, port)
      end
    | _ =>
      if contains ":"%char before then None
      else if contains "["%char s || contains "]"%char s then None
      else Some (before, port)
    end
  end.

(** ** Lemmas *)
Lemma Contains_spec needle s : Contains needle s = true <-> exists a b, s = a ++ needle ++ b.
Proof.
  induction s as [| c s IH]; cbn [Contains]; rewrite orb_true_iff, has_prefix_spec.
  - split; [intros [[r Hr] | ?]; [by exists [], r | done] | intros (a & b & Hab); left; exists b; by destruct a].
  - rewrite IH. split.
    + intros [[r Hr] | (a & b & ->)]; [by exists [], r | by exists (c :: a), b].
    + intros ([| x a] & b & Hab); [left; by exists b | right; simplify_eq/=; by exists a, b].
Qed.

Lemma lower_byte_idem c : lower_byte (lower_byte c) = lower_byte c.
Proof. destruct c as [[] [] [] [] [] [] [] []]; vm_compute; done. Qed.

Lemma lower_byte_ascii c : ascii_byte (lower_byte c) = ascii_byte c.
Proof. destruct c as [[] [] [] [] [] [] [] []]; vm_compute; done. Qed.

Lemma is_ascii_lower s : is_ascii (map lower_byte s) = is_ascii s.
Proof. induction s as [| c s IH]; simpl; [done |]. fold (is_ascii (map lower_byte s)). by rewrite lower_byte_ascii, IH. Qed.

Section Text.
Context `{Unicode}.

Lemma ToLower_ascii s : is_ascii s = true -> ToLower s = map lower_byte s.
Proof. unfold ToLower. by intros ->. Qed.

Lemma ToLower_idem s : is_ascii s = true -> ToLower (ToLower s) = ToLower s.
Proof.
  intros Ha. rewrite (ToLower_ascii s) by done. rewrite ToLower_ascii by (by rewrite is_ascii_lower).
  rewrite map_map. apply map_ext. apply lower_byte_idem.
Qed.

(** On ASCII strings, folding is equality of the lower-cased strings. *)
Lemma EqualFold_ascii s : forall t, is_ascii s = true -> is_ascii t = true ->
  EqualFold s t = bool_decide (map lower_byte s = map lower_byte t).
Proof.
  induction s as [| a s IH]; intros [| b t] Hs Ht; try done.
  unfold is_ascii in *. cbn [forallb] in Hs, Ht. bool_to_prop.
  cbn [EqualFold map]. repeat match goal with H : ascii_byte _ = true |- _ => rewrite H; clear H end. cbn [negb orb].
  destruct (Ascii.eqb (lower_byte a) (lower_byte b)) eqn:E.
  - apply Ascii.eqb_eq in E. rewrite IH by done. rewrite E. apply bool_decide_ext. split; [by intros -> | by intros [= ?]].
  - apply Ascii.eqb_neq in E. symmetry. apply bool_decide_eq_false_2. intros [= ? ?]; done.
Qed.

Lemma EqualFold_refl s : is_ascii s = true -> EqualFold s s = true.
Proof. intros Hs. rewrite EqualFold_ascii by done. by apply bool_decide_eq_true_2. Qed.

Lemma EqualFold_lower s t : is_ascii s = true -> is_ascii t = true -> EqualFold (ToLower s) t = EqualFold s t.
Proof.
  intros Hs Ht. rewrite ToLower_ascii by done. rewrite !EqualFold_ascii by (rewrite ?is_ascii_lower; done).
  rewrite map_map. rewrite (map_ext _ lower_byte) by apply lower_byte_idem. done.
Qed.
End Text.

(** No Unicode input: the tables are never consulted. *)
Definition ascii_only : Unicode := {|
  unicode_lower := fun s => s; unicode_upper := fun s => s; unicode_fold := fun s t => bool_decide (s = t);
  unicode_trim := fun s => s; unicode_trim_right := fun s => s |}.

Example split_host_port_v4 : SplitHostPort (lit "example.org:8443") = Some (lit "example.org", lit "8443").
Proof. vm_compute. reflexivity. Qed.
Example split_host_port_v6 : SplitHostPort (lit "[2001:db8::1]:443") = Some (lit "2001:db8::1", lit "443").
Proof. vm_compute. reflexivity. Qed.
Example split_host_port_bare : SplitHostPort (lit "2001:db8::1") = None.
Proof. vm_compute. reflexivity. Qed.
