(* ===== verification/UrlPath.v ===== *)
(** * Request paths and path lists (core/stateless/stateless.go, URI helpers)

    Percent-decoding, path normalization and the path entries of the allow-,
    deny- and honeypot lists; [url.PathUnescape], [url.QueryUnescape] and
    [path.Clean] of the standard library are defined here.  A normalized path
    is a list of segments, and a validated entry matches on segment
    boundaries. *)

From S2P Require Export Text.

(** ** The standard library *)

(** [url.PathUnescape] and, with [plus], [url.QueryUnescape]; [None] is an
    [EscapeError]. *)
Fixpoint unescape (plus : bool) (s : gostring) : option gostring :=
  match s with
  | [] => Some []
  | "%"%char :: rest =>
    match rest with
    | a :: b :: r =>
      match hex_digit a, hex_digit b with
      | Some x, Some y => d ← unescape plus r; Some (Zbyte (x * 16 + y) :: d)
      | _, _ => None
      end
    | _ => None
    end
  | c :: r => d ← unescape plus r; Some ((if plus && Ascii.eqb c "+"%char then " "%char else c) :: d)
  end.
Definition PathUnescape := unescape false.
Definition QueryUnescape := unescape true.

(** [strings.Split(s, c)] for a one-byte separator. *)
Fixpoint split_on (c : ascii) (s : gostring) : list gostring :=
  match s with
  | [] => [[]]
  | d :: r => if Ascii.eqb d c then [] :: split_on c r
              else match split_on c r with h :: t => (d :: h) :: t | [] => [[d]] end
  end.

Fixpoint join (sep : gostring) (xs : list gostring) : gostring :=
  match xs with [] => [] | [x] => x | x :: r => x ++ sep ++ join sep r end.

Definition dot : gostring := ["."%char].
Definition dotdot : gostring := ["."%char; "."%char].

(** [path.Clean], on the elements of the path; [stack] holds the output,
    last element first. *)
Fixpoint clean_elems (rooted : bool) (stack elems : list gostring) : list gostring :=
  match elems with
  | [] => rev stack
  | e :: r =>
    if bool_decide (e = []) || bool_decide (e = dot) then clean_elems rooted stack r
    else if bool_decide (e = dotdot) then
      match stack with
      | top :: below => if bool_decide (top = dotdot) then clean_elems rooted (e :: stack) r else clean_elems rooted below r
      | [] => clean_elems rooted (if rooted then [] else [e]) r
      end
    else clean_elems rooted (e :: stack) r
  end.

Definition Clean (p : gostring) : gostring :=
  let rooted := has_prefix ["/"%char] p in
  let body := join ["/"%char] (clean_elems rooted [] (split_on "/"%char p)) in
  match (if rooted then "/"%char :: body else body) with [] => dot | q => q end.

Definition has_suffix (t s : gostring) : bool := has_prefix (rev t) (rev s).
Definition contains_any (cs s : gostring) : bool := existsb (fun c => contains c s) cs.

(** ** Taking a URI apart *)
Definition RequestPath (uri : gostring) : gostring :=
  match split_at_byte "?"%char uri with Some (p, _) => p | None => uri end.

Definition RequestQuery (uri : gostring) : gostring :=
  match split_at_byte "?"%char uri with Some (_, q) => q | None => [] end.

Definition DecodePath (p : gostring) : gostring :=
  if negb (contains "%"%char p) then p else match PathUnescape p with Some d => d | None => p end.

Definition DecodeQuery (q : gostring) : gostring :=
  if negb (contains_any (lit "%+") q) then q else match QueryUnescape q with Some d => d | None => q end.

Definition NormalizePath (p : gostring) : gostring :=
  let p := DecodePath p in
  match p with
  | [] => lit "/"
  | _ =>
    let trailingSlash := has_suffix (lit "/") p in
    let p := if has_prefix (lit "/") p then p else "/"%char :: p in
    let p := Clean p in
    if trailingSlash && negb (bool_decide (p = lit "/")) then p ++ lit "/" else p
  end.

(** ** Path lists *)
Definition match_entry (path entry : gostring) : bool :=
  if has_suffix (lit "/") entry
  then has_prefix entry path || bool_decide (path = TrimSuffix (lit "/") entry)
  else bool_decide (path = entry).
Definition MatchPathList (entries : list gostring) (path : gostring) : bool := existsb (match_entry path) entries.

Inductive path_error := PathEmpty | PathRelative | PathRoot | PathQuery | PathNotNormal (norm : gostring).

Section Host.
Context `{Unicode}.

(** [nil] is [None]. *)
Definition ValidateMatchPath (entry : gostring) : option path_error :=
  if bool_decide (TrimSpace entry = []) then Some PathEmpty
  else if negb (has_prefix (lit "/") entry) then Some PathRelative
  else if bool_decide (entry = lit "/") then Some PathRoot
  else if contains_any (lit "?#") entry then Some PathQuery
  else if negb (bool_decide (NormalizePath entry = entry)) then Some (PathNotNormal (NormalizePath entry))
  else None.

Definition NormalizeHost (host : gostring) : gostring :=
  let host := ToLower (TrimSpace host) in
  let host := if contains ":"%char host
              then match SplitHostPort host with Some (h, _) => h | None => host end else host in
  TrimSuffix (lit ".") (Trim (lit "[]") host).

(** [None] is the load error naming the earlier raw key. *)
Definition NormalizeHostKey (seen : gmap gostring gostring) (host : gostring) : outcome (gostring * gostring) (gostring * gmap gostring gostring) :=
  let key := NormalizeHost host in
  match seen !! key with
  | Some prev => Err (prev, key)
  | None => Ok (key, <[key := host]> seen)
  end.
End Host.

(** ** Segments *)

(** The path with these segments, ending in a slash or not. *)
Definition flat (segs : list gostring) : gostring := concat (map (fun s => "/"%char :: s) segs).
Definition path_of (segs : list gostring) (slash : bool) : gostring :=
  match segs with [] => lit "/" | _ => flat segs ++ (if slash then lit "/" else []) end.

Definition segment_ok (s : gostring) : Prop := s <> [] /\ s <> dot /\ s <> dotdot /\ "/"%char ∉ s.

Lemma split_on_no_sep c s : Forall (fun e => c ∉ e) (split_on c s).
Proof.
  induction s as [| d s IH]; simpl; [constructor; [by intros ?%not_elem_of_nil | done] |].
  destruct (Ascii.eqb d c) eqn:E; [constructor; [by intros ?%not_elem_of_nil | done] |].
  apply Ascii.eqb_neq in E. destruct (split_on c s) as [| h t].
  - apply Forall_singleton. intros Hc%list_elem_of_singleton. congruence.
  - apply Forall_cons in IH as [Hh Ht]. apply Forall_cons. split; [| done]. intros [Hc | Hc]%elem_of_cons; [congruence | done].
Qed.

Lemma split_on_segs segs : Forall (fun s => "/"%char ∉ s) segs -> forall tail, "/"%char ∉ tail ->
  forall x, "/"%char ∉ x -> split_on "/"%char (x ++ flat segs ++ "/"%char :: tail) = x :: segs ++ [tail].
Proof.
  intros Hs tail Ht.
  assert (Hone : forall x, "/"%char ∉ x -> forall rest, split_on "/"%char (x ++ "/"%char :: rest) = x :: split_on "/"%char rest).
  { induction x as [| c x IH]; intros Hx rest; [done |]. apply not_elem_of_cons in Hx as [Hc Hx]. cbn [app split_on].
    rewrite (proj2 (Ascii.eqb_neq _ _)) by congruence. by rewrite IH. }
  assert (Hlast : forall x, "/"%char ∉ x -> split_on "/"%char x = [x]).
  { induction x as [| c x IH]; intros Hx; [done |]. apply not_elem_of_cons in Hx as [Hc Hx]. cbn [split_on].
    rewrite (proj2 (Ascii.eqb_neq _ _)) by congruence. by rewrite IH. }
  induction Hs as [| s segs Hsl _ IH]; intros x Hx; cbn [flat map concat app].
  - rewrite Hone by done. by rewrite Hlast.
  - fold (flat segs). rewrite Hone by done. rewrite <- app_assoc. by rewrite IH.
Qed.

Lemma join_flat segs : segs <> [] -> "/"%char :: join ["/"%char] segs = flat segs.
Proof.
  induction segs as [| s segs IH]; [done |]. intros _. destruct segs as [| s2 segs]; [by unfold flat; simpl; rewrite app_nil_r |].
  change (join ["/"%char] (s :: s2 :: segs)) with (s ++ "/"%char :: join ["/"%char] (s2 :: segs)).
  by rewrite IH.
Qed.

(** Cleaning a rooted path leaves proper segments, and proper segments alone. *)
Lemma clean_elems_ok elems : forall stack, Forall segment_ok stack -> Forall (fun e => "/"%char ∉ e) elems ->
  Forall segment_ok (clean_elems true stack elems).
Proof.
  induction elems as [| e elems IH]; intros stack Hst He; cbn [clean_elems]; [by apply Forall_rev |].
  inversion He as [| ? ? He1 He2]; subst.
  destruct (decide (e = [])) as [-> | Hn1]; [by rewrite bool_decide_eq_true_2 by done; apply IH |].
  destruct (decide (e = dot)) as [-> | Hn2]; [by rewrite orb_comm, bool_decide_eq_true_2 by done; apply IH |].
  rewrite (bool_decide_eq_false_2 (e = [])), (bool_decide_eq_false_2 (e = dot)) by done. cbn [orb].
  destruct (decide (e = dotdot)) as [-> | Hn3].
  - rewrite bool_decide_eq_true_2 by done. destruct stack as [| top below]; [by apply IH |].
    inversion Hst as [| ? ? (_ & _ & Ht & _) Hb]; subst. rewrite bool_decide_eq_false_2 by done. by apply IH.
  - rewrite bool_decide_eq_false_2 by done. apply IH; [constructor; done | done].
Qed.

Lemma clean_elems_segs segs : forall stack, Forall segment_ok segs -> clean_elems true stack segs = rev stack ++ segs.
Proof.
  induction segs as [| e segs IH]; intros stack Hs; cbn [clean_elems]; [by rewrite app_nil_r |].
  inversion Hs as [| ? ? (H1 & H2 & H3 & _) Hs']; subst. rewrite !bool_decide_eq_false_2 by done. cbn [orb].
  rewrite IH by done. cbn [rev]. by rewrite <- app_assoc.
Qed.

Lemma clean_elems_trailing elems : forall stack, clean_elems true stack (elems ++ [[]]) = clean_elems true stack elems.
Proof.
  induction elems as [| e elems IH]; intros stack; cbn [app clean_elems]; [done |].
  destruct (_ || _); [apply IH |]. destruct (bool_decide (e = dotdot)); [| apply IH].
  destruct stack; [apply IH |]. destruct (bool_decide _); apply IH.
Qed.

Lemma split_on_flat segs slash : Forall segment_ok segs -> segs <> [] ->
  exists tail, (tail = [] \/ tail = [[]]) /\ split_on "/"%char (path_of segs slash) = [] :: segs ++ tail.
Proof.
  intros Hs Hne. assert (Hns : Forall (fun s => "/"%char ∉ s) segs) by (eapply Forall_impl; [exact Hs | intros s (_ & _ & _ & H); exact H]).
  pose proof Hns as Hall. destruct segs as [| s0 segs0] using rev_ind; [done |]. clear IHsegs0. apply Forall_app in Hns as [Hn0 Hn1]. rewrite Forall_singleton in Hn1.
  assert (Hflat : flat (segs0 ++ [s0]) = flat segs0 ++ "/"%char :: s0) by (unfold flat; by rewrite map_app, concat_app; cbn; rewrite app_nil_r).
  assert (Hpo : path_of (segs0 ++ [s0]) slash = flat (segs0 ++ [s0]) ++ (if slash then lit "/" else [])) by (by destruct segs0).
  rewrite Hpo. destruct slash.
  - exists [[]]. split; [by right |].
    rewrite <- (split_on_segs (segs0 ++ [s0]) Hall [] (not_elem_of_nil _) [] (not_elem_of_nil _)).
    done.
  - exists []. split; [by left |]. rewrite !app_nil_r, Hflat.
    rewrite <- (split_on_segs segs0 Hn0 s0 Hn1 [] (not_elem_of_nil _)). done.
Qed.

Lemma Clean_rooted p : has_prefix (lit "/") p = true ->
  exists segs, Clean p = path_of segs false /\ Forall segment_ok segs /\ segs = clean_elems true [] (split_on "/"%char p).
Proof.
  intros Hp. exists (clean_elems true [] (split_on "/"%char p)). unfold Clean. change (has_prefix ["/"%char] p) with (has_prefix (lit "/") p). rewrite Hp.
  assert (Hok : Forall segment_ok (clean_elems true [] (split_on "/"%char p)))
    by (apply clean_elems_ok; [constructor | apply split_on_no_sep]).
  split_ands; try done. destruct (clean_elems true [] _) as [| s segs] eqn:E; [done |].
  rewrite join_flat by done. unfold path_of. by rewrite app_nil_r.
Qed.

Lemma path_of_slash segs : segs <> [] -> path_of segs false ++ lit "/" = path_of segs true.
Proof. destruct segs; [done |]. intros _. unfold path_of. by rewrite app_nil_r. Qed.

Lemma path_of_root segs : path_of segs false = lit "/" -> Forall segment_ok segs -> segs = [].
Proof.
  destruct segs as [| s [| s2 segs]]; [done | |]; unfold path_of, flat; intros He Hs; apply Forall_cons in Hs as [(Hn & _) _];
    destruct s; simplify_eq/=; try done.
Qed.

(** Every normalized path is absolute, made of proper segments only: no empty
    one, no [.], no [..]. *)
Lemma NormalizePath_shape p : exists segs slash, NormalizePath p = path_of segs slash /\ Forall segment_ok segs.
Proof.
  unfold NormalizePath. destruct (DecodePath p) as [| c d] eqn:E; [by exists [], false |].
  set (q := if has_prefix (lit "/") (c :: d) then c :: d else "/"%char :: c :: d).
  assert (Hq : has_prefix (lit "/") q = true) by (unfold q; destruct (has_prefix (lit "/") (c :: d)) eqn:Eh; done).
  destruct (Clean_rooted q Hq) as (segs & Hc & Hs & _). rewrite Hc.
  destruct (_ && _) eqn:Eb; [| by exists segs, false]. exists segs, true. split; [| done].
  apply path_of_slash. intros ->. apply andb_true_iff in Eb as [_ Eb]. done.
Qed.

Lemma path_of_head segs slash : exists r, path_of segs slash = "/"%char :: r.
Proof. destruct segs; [by exists [] |]. unfold path_of, flat. simpl. by eexists. Qed.

Lemma rev_flat_last segs : segs <> [] -> Forall segment_ok segs -> exists c r, rev (flat segs) = c :: r /\ c <> "/"%char.
Proof.
  intros Hne Hs. destruct segs as [| s segs _] using rev_ind; [done |]. apply Forall_app in Hs as [_ Hs].
  rewrite Forall_singleton in Hs. destruct Hs as (Hn & _ & _ & Hsl). unfold flat. rewrite map_app, concat_app, rev_app_distr. cbn [map concat app].
  rewrite app_nil_r. cbn [rev]. destruct s as [| c s _] using rev_ind; [done |]. rewrite rev_app_distr. cbn [rev app].
  exists c. eexists. split; [done |]. intros ->. apply Hsl. apply elem_of_app. right. by left.
Qed.

Lemma suffix_path_of segs slash : Forall segment_ok segs ->
  has_suffix (lit "/") (path_of segs slash) = bool_decide (segs = []) || slash.
Proof.
  intros Hs. unfold has_suffix. change (rev (lit "/")) with (lit "/"). destruct (decide (segs = [])) as [-> | Hne]; [done |].
  rewrite bool_decide_eq_false_2 by done. cbn [orb]. destruct (rev_flat_last segs Hne Hs) as (c & r & Hr & Hc).
  destruct segs as [| s segs]; [done |]. unfold path_of. rewrite rev_app_distr. destruct slash; [done |]. cbn [rev app]. rewrite Hr.
  change (Ascii.eqb "/"%char c && true = false). by rewrite (proj2 (Ascii.eqb_neq _ _)) by congruence.
Qed.

Lemma DecodePath_plain p : "%"%char ∉ p -> DecodePath p = p.
Proof. intros Hp. unfold DecodePath, contains. by rewrite bool_decide_eq_false_2. Qed.

(** Without a percent sign, a normalized path is normalized again to itself. *)
Lemma NormalizePath_fix segs slash : Forall segment_ok segs -> "%"%char ∉ path_of segs slash ->
  NormalizePath (path_of segs slash) = path_of segs slash.
Proof.
  intros Hs Hp. unfold NormalizePath. rewrite (DecodePath_plain (path_of segs slash)) by done.
  destruct (path_of_head segs slash) as [r Hr]. rewrite Hr. rewrite <- Hr. clear r Hr.
  assert (Hpre : has_prefix (lit "/") (path_of segs slash) = true) by (destruct (path_of_head segs slash) as [r ->]; done).
  rewrite Hpre, suffix_path_of by done. destruct (decide (segs = [])) as [-> | Hne]; [vm_compute; reflexivity |].
  rewrite (bool_decide_eq_false_2 (segs = [])) by done. cbn [orb].
  destruct (Clean_rooted _ Hpre) as (segs' & -> & Hs' & He). destruct (split_on_flat segs slash Hs Hne) as (tail & Ht & Hsp).
  assert (segs' = segs) as ->.
  { rewrite He, Hsp. change (clean_elems true [] ([] :: segs ++ tail)) with (clean_elems true [] (segs ++ tail)).
    destruct Ht as [-> | ->]; [rewrite app_nil_r | rewrite clean_elems_trailing]; by rewrite clean_elems_segs. }
  rewrite bool_decide_eq_false_2 by (intros Hx; apply Hne; by apply path_of_root). cbn [negb]. rewrite andb_true_r.
  destruct slash; [by apply path_of_slash | done].
Qed.

(** ** Entries against paths *)
Lemma no_slash segs : Forall segment_ok segs -> Forall (fun s => "/"%char ∉ s) segs.
Proof. intros Hs. eapply Forall_impl; [exact Hs | by intros s (_ & _ & _ & H)]. Qed.

Lemma split_unique a b x y : "/"%char ∉ a -> "/"%char ∉ b -> a ++ "/"%char :: x = b ++ "/"%char :: y -> a = b /\ x = y.
Proof.
  intros Ha Hb He. pose proof (proj2 (split_at_byte_Some "/"%char (a ++ "/"%char :: x) a x) (conj eq_refl Ha)) as H1.
  rewrite He in H1. rewrite (proj2 (split_at_byte_Some "/"%char (b ++ "/"%char :: y) b y) (conj eq_refl Hb)) in H1. by simplify_eq.
Qed.

Definition tail_of (slash : bool) : gostring := if slash then lit "/" else [].

Lemma flat_prefix_inv es : forall segs b r, Forall (fun s => "/"%char ∉ s) es -> Forall (fun s => "/"%char ∉ s) segs ->
  flat segs ++ tail_of b = flat es ++ "/"%char :: r -> es `prefix_of` segs /\ (segs = es -> b = true).
Proof.
  induction es as [| e es IH]; intros segs b r He Hs Heq.
  - split; [apply prefix_nil |]. intros ->. by destruct b.
  - destruct segs as [| s segs].
    { destruct b; [| done]. unfold flat in Heq. simpl in Heq. injection Heq as Heq.
      rewrite <- app_assoc in Heq. by destruct e; [destruct (concat _) |]. }
    apply Forall_cons in He as [He1 He2]. apply Forall_cons in Hs as [Hs1 Hs2].
    unfold flat in Heq. cbn [map concat] in Heq. fold (flat segs) (flat es) in Heq. cbn [app] in Heq. injection Heq as Heq.
    rewrite <- !app_assoc in Heq.
    assert (exists y, flat es ++ "/"%char :: r = "/"%char :: y) as [y Hy] by (destruct es; [by exists r | unfold flat; simpl; by eexists]).
    assert (Hx : flat segs ++ tail_of b = [] \/ exists x, flat segs ++ tail_of b = "/"%char :: x)
      by (destruct segs; [destruct b; [right; by exists [] | by left] | right; unfold flat; simpl; by eexists]).
    destruct Hx as [Hx | [x Hx]]; rewrite Hx, Hy in Heq.
    + rewrite app_nil_r in Heq. subst s. destruct Hs1. apply elem_of_app. right. by left.
    + destruct (split_unique _ _ _ _ Hs1 He1 Heq) as [-> ->]. rewrite <- Hy in Hx. destruct (IH segs b r He2 Hs2 Hx) as [Hpre Hlast].
      split; [by apply prefix_cons |]. intros [= ->]. by apply Hlast.
Qed.

Lemma flat_app a b : flat (a ++ b) = flat a ++ flat b.
Proof. unfold flat. by rewrite map_app, concat_app. Qed.

Lemma path_of_flat segs b : segs <> [] -> path_of segs b = flat segs ++ tail_of b.
Proof. by destruct segs. Qed.

Lemma TrimSuffix_app s t : TrimSuffix t (s ++ t) = s.
Proof.
  unfold TrimSuffix. rewrite rev_app_distr, has_prefix_app. apply take_app_length'. rewrite length_app. lia.
Qed.

(** An entry of proper segments covers exactly itself, or its subtree when it
    ends in a slash. *)
Lemma match_entry_spec es eb segs b : Forall segment_ok es -> es <> [] -> Forall segment_ok segs ->
  match_entry (path_of segs b) (path_of es eb) = true <-> path_of segs b = path_of es eb \/ (eb = true /\ es `prefix_of` segs).
Proof.
  intros He Hne Hs. unfold match_entry. rewrite suffix_path_of, (bool_decide_eq_false_2 (es = [])) by done. cbn [orb].
  destruct eb; [| rewrite bool_decide_eq_true; split; [by left | by intros [| []]]].
  rewrite (path_of_flat es true), orb_true_iff, has_prefix_spec, bool_decide_eq_true by done. unfold tail_of. rewrite TrimSuffix_app.
  split.
  - intros [[r Hr] | Hr]; right; (split; [done |]).
    + rewrite <- app_assoc in Hr. destruct segs as [| s segs].
      { destruct es as [| [| c e] es]; [done | apply Forall_cons in He as [(Hn & _) _]; done | done]. }
      rewrite path_of_flat in Hr by done. by apply (flat_prefix_inv es (s :: segs) b r) in Hr as [? _]; [| apply no_slash..].
    + destruct segs as [| s segs].
      { destruct es as [| [| c e] es]; [done | apply Forall_cons in He as [(Hn & _) _]; done | done]. }
      rewrite path_of_flat in Hr by done.
      apply (f_equal (fun x => x ++ "/"%char :: [])) in Hr. destruct b.
      * unfold tail_of in Hr. rewrite <- app_assoc in Hr.
        assert (Hr2 : flat (s :: segs) ++ tail_of true = flat es).
        { apply (app_inj_tail (flat (s :: segs) ++ tail_of true) (flat es) "/"%char "/"%char). unfold tail_of. by rewrite <- app_assoc. }
        destruct (rev_flat_last es Hne He) as (c & r & Hrv & Hc). rewrite <- Hr2, rev_app_distr in Hrv. by simplify_eq/=.
      * unfold tail_of in Hr. rewrite app_nil_r in Hr.
        by apply (flat_prefix_inv es (s :: segs) true []) in Hr as [? _]; [| apply no_slash..].
  - intros [Heq | [_ [ks ->]]].
    + left. exists []. by rewrite app_nil_r, Heq.
    + assert (es ++ ks <> []) by (by destruct es). rewrite path_of_flat, flat_app, <- app_assoc by done.
      destruct ks as [| k ks]; [| left; exists (k ++ flat ks ++ tail_of b); unfold flat; cbn [map concat]; by rewrite <- !app_assoc].
      destruct b; [left; exists []; unfold tail_of; cbn; by rewrite app_nil_r | right; cbn; by rewrite app_nil_r].
Qed.

Section Valid.
Context `{Unicode}.

Lemma ValidateMatchPath_ok entry : ValidateMatchPath entry = None ->
  "?"%char ∉ entry /\ entry <> lit "/" /\ NormalizePath entry = entry /\
  exists es eb, entry = path_of es eb /\ es <> [] /\ Forall segment_ok es.
Proof.
  unfold ValidateMatchPath. destruct (bool_decide (TrimSpace entry = [])); [done |].
  destruct (has_prefix (lit "/") entry) eqn:Ep; cbn [negb]; [| done].
  destruct (bool_decide (entry = lit "/")) eqn:Er; [done |]. apply bool_decide_eq_false in Er.
  destruct (contains_any (lit "?#") entry) eqn:Eq; [done |]. destruct (bool_decide (NormalizePath entry = entry)) eqn:En; [| done].
  intros _. apply bool_decide_eq_true in En. split_ands; try done.
  - unfold contains_any, contains in Eq. cbn [existsb lit String.list_ascii_of_string] in Eq. apply orb_false_iff in Eq as [Eq _].
    by apply bool_decide_eq_false in Eq.
  - destruct (NormalizePath_shape entry) as (es & eb & He & Hs). exists es, eb. rewrite <- He. split_ands; try done.
    intros ->. apply Er. rewrite <- En, He. done.
Qed.

Lemma RequestPath_plain p : "?"%char ∉ p -> RequestPath p = p.
Proof.
  intros Hp. unfold RequestPath. destruct (split_at_byte "?"%char p) as [[a b] |] eqn:E; [| done].
  apply split_at_byte_Some in E as [-> _]. destruct Hp. apply elem_of_app. right. by left.
Qed.
End Valid.

(** * Properties *)

(** A path entry accepted by validation matches a request exactly when the
    normalized request path is the entry or lies in its subtree, in any
    spelling of the request: dot segments, repeated slashes and percent-
    encoding included. *)
Theorem path_entry_covers_subtree `{Unicode} entry uri : ValidateMatchPath entry = None ->
  exists es eb segs b, entry = path_of es eb /\ Forall segment_ok es /\ es <> [] /\
    NormalizePath (RequestPath uri) = path_of segs b /\ Forall segment_ok segs /\
    (MatchPathList [entry] (NormalizePath (RequestPath uri)) = true <->
       NormalizePath (RequestPath uri) = entry \/ (eb = true /\ es `prefix_of` segs)) /\
    MatchPathList [entry] (NormalizePath (RequestPath entry)) = true /\ MatchPathList [entry] (lit "/") = false.
Proof.
  intros Hv. destruct (ValidateMatchPath_ok entry Hv) as (Hq & Hr & Hn & es & eb & -> & Hne & Hes).
  destruct (NormalizePath_shape (RequestPath uri)) as (segs & b & Hp & Hs). exists es, eb, segs, b.
  unfold MatchPathList. cbn [existsb]. rewrite !orb_false_r, Hp. split_ands; try done.
  - by apply match_entry_spec.
  - rewrite RequestPath_plain, Hn by done. apply match_entry_spec; try done. by left.
  - apply not_true_iff_false. change (lit "/") with (path_of [] false). rewrite match_entry_spec by done.
    intros [Hx | [_ Hx]]; [by apply Hr | by apply prefix_nil_inv in Hx].
Qed.

Theorem path_entry_covers_subtree_witness :
  MatchPathList [lit "/admin/"] (NormalizePath (RequestPath (lit "/static/..//%61dmin/x?q=1"))) = true /\
  MatchPathList [lit "/admin/"] (lit "/") = false.
Proof.
  destruct (path_entry_covers_subtree (H := ascii_only) (lit "/admin/") (lit "/static/..//%61dmin/x?q=1") ltac:(vm_compute; reflexivity))
    as (es & eb & segs & b & He & _ & _ & Hp & _ & _ & _ & Hroot). split; [vm_compute; reflexivity | exact Hroot].
Defined.
