(* ===== verification/Refusal.v ===== *)
(** * Who is refused a challenge (transport/http/accept.go, fetchdest.go)

    The Fetch metadata and [Accept] heuristics by which the transport decides
    that a request could not complete a challenge, and the verdict one hop
    relays to the next.  The hand-written scanners of media ranges are proved
    equivalent to the grammar of RFC 9110 they implement. *)

From S2P Require Export UrlPath.

Open Scope Z_scope.

(** ** Request headers: canonical name to field values, in order *)
Abbreviation Header := (gmap gostring (list gostring)).
Definition Values (h : Header) (name : gostring) : list gostring := default [] (h !! name).
Definition HGet (h : Header) (name : gostring) : gostring := hd [] (Values h name).

Definition hdrAccept : gostring := lit "Accept".
Definition hdrRefusal : gostring := lit "X-Guardian-Refusal".
Definition hdrSecFetchDest : gostring := lit "Sec-Fetch-Dest".
Definition hdrSecFetchSite : gostring := lit "Sec-Fetch-Site".
Definition hdrSecFetchMode : gostring := lit "Sec-Fetch-Mode".
Definition modeNavigate : gostring := lit "navigate".

Definition outcomeSubresourceRefused : gostring := lit "subresource_refused".
Definition outcomeAcceptRefused : gostring := lit "accept_heuristic_refused".
Definition refusalNone : gostring := lit "none".

(** ** Fetch destinations *)
Definition one_of (names : list string) (s : gostring) : bool := existsb (fun n => bool_decide (s = lit n)) names.

Definition isFramedDest (dest : gostring) : bool := one_of ["frame"; "iframe"; "embed"; "object"]%string dest.
Definition isDocumentDest (dest : gostring) : bool :=
  bool_decide (dest = lit "document") || bool_decide (dest = lit "fencedframe") || isFramedDest dest.
Definition isForeignSite (site : gostring) : bool := one_of ["cross-site"; "same-site"]%string site.
Definition unscorableFrame (dest site : gostring) : bool :=
  bool_decide (dest = lit "fencedframe") || (isFramedDest dest && isForeignSite site).
Definition isSubresourceDest (dest : gostring) : bool :=
  one_of ["audio"; "audioworklet"; "empty"; "font"; "image"; "json"; "manifest"; "paintworklet"; "report"; "script";
    "serviceworker"; "sharedworker"; "style"; "text"; "track"; "video"; "webidentity"; "worker"; "xslt"]%string dest.

(** ** The [Accept] header *)
Definition DQUOTE : ascii := Zbyte 34.
Definition digit (c : ascii) : bool := (48 <=? byteZ c) && (byteZ c <=? 57).
Definition letter (c : ascii) : bool := ((97 <=? byteZ c) && (byteZ c <=? 122)) || ((65 <=? byteZ c) && (byteZ c <=? 90)).
Definition tchar (c : ascii) : bool := contains c (lit "!#$%&'*+-.^_`|~") || digit c || letter c.

Definition isToken (s : gostring) : bool := negb (bool_decide (s = [])) && forallb tchar s.

(** The loop over the bytes between the quotes. *)
Fixpoint quoted_inner (s : gostring) : bool :=
  match s with
  | [] => true
  | c :: r =>
    if Ascii.eqb c "\"%char then match r with [] => false | _ :: r' => quoted_inner r' end
    else if Ascii.eqb c DQUOTE then false
    else if ((byteZ c <? 32) && negb (byteZ c =? 9)) || (byteZ c =? 127) then false
    else quoted_inner r
  end.

Definition isQuotedString (s : gostring) : bool :=
  match s with
  | q :: r =>
    match rev r with
    | q' :: inner => Ascii.eqb q DQUOTE && Ascii.eqb q' DQUOTE && quoted_inner (rev inner)
    | [] => false
    end
  | [] => false
  end.

Definition isWeight (s : gostring) : bool :=
  match s with
  | lead :: rest =>
    if Ascii.eqb lead "0"%char || Ascii.eqb lead "1"%char then
      match rest with
      | [] => true
      | p :: ds =>
        if negb (Ascii.eqb p "."%char) || (5 <? Z.of_nat (length s)) then false
        else forallb (fun d => digit d && negb (Ascii.eqb lead "1"%char && negb (Ascii.eqb d "0"%char))) ds
      end
    else false
  | [] => false
  end.

Section Refusal.
Context `{Unicode}.

Definition valid_parameter (p : gostring) : bool :=
  match split_at_byte "="%char p with
  | None => false
  | Some (name, value) =>
    isToken name && (isToken value || isQuotedString value) && negb (EqualFold name (lit "q") && negb (isWeight value))
  end.

Definition validMediaParameters (s : gostring) : bool :=
  forallb (fun p => let p := TrimSpace p in bool_decide (p = []) || valid_parameter p) (split_on ";"%char s).

(** What the loop body does with one list element. *)
Inductive element := Skip | Condemn | Usable.

Definition media_element (seg : gostring) : element :=
  let '(range, params, hasParams) := match split_at_byte ";"%char seg with Some (a, b) => (a, b, true) | None => (seg, [], false) end in
  let range := TrimSpace range in
  if bool_decide (range = []) then (if hasParams : bool then Condemn else Skip) else
  if hasParams && negb (validMediaParameters params) then Condemn else
  match split_at_byte "/"%char range with
  | None => Condemn
  | Some (mediaType, subtype) =>
    if negb (isToken mediaType) || negb (isToken subtype) then Condemn else
    if bool_decide (mediaType = lit "*") && negb (bool_decide (subtype = lit "*")) then Condemn else
    if EqualFold mediaType (lit "text") && (bool_decide (subtype = lit "*") || EqualFold subtype (lit "html")) then Condemn else
    Usable
  end.

Fixpoint accept_loop (segs : list gostring) (usable : bool) : bool :=
  match segs with
  | [] => usable
  | seg :: rest =>
    match media_element seg with Skip => accept_loop rest usable | Condemn => false | Usable => accept_loop rest true end
  end.

Definition accept_elements (values : list gostring) : list gostring := mjoin (map (split_on ","%char) values).
Definition acceptLooksNonNavigational (values : list gostring) : bool := accept_loop (accept_elements values) false.

(** ** The verdict *)
Definition refusalKind (h : Header) : gostring :=
  let dest := HGet h hdrSecFetchDest in
  if isSubresourceDest dest then outcomeSubresourceRefused
  else if negb (isDocumentDest dest) && negb (bool_decide (HGet h hdrSecFetchMode = modeNavigate))
          && acceptLooksNonNavigational (Values h hdrAccept) then outcomeAcceptRefused
  else [].

(** The kind, and whether a verdict was relayed. *)
Definition relayedRefusal (h : Header) : gostring * bool :=
  let v := HGet h hdrRefusal in
  if bool_decide (v = refusalNone) then ([], true)
  else if bool_decide (v = outcomeSubresourceRefused) || bool_decide (v = outcomeAcceptRefused) then (v, true)
  else ([], false).

(** ** The grammar of RFC 9110 *)
Definition token (s : gostring) : Prop := s <> [] /\ Forall (fun c => tchar c = true) s.

Definition qdtext (c : ascii) : Prop := c <> "\"%char /\ c <> DQUOTE /\ (32 <= byteZ c \/ byteZ c = 9) /\ byteZ c <> 127.

Inductive quoted_text : gostring -> Prop :=
| qt_nil : quoted_text []
| qt_pair c r : quoted_text r -> quoted_text ("\"%char :: c :: r)
| qt_char c r : qdtext c -> quoted_text r -> quoted_text (c :: r).

Definition quoted_string (s : gostring) : Prop := exists inner, s = DQUOTE :: inner ++ [DQUOTE] /\ quoted_text inner.

Inductive weight : gostring -> Prop :=
| w_zero : weight (lit "0")
| w_one : weight (lit "1")
| w_fraction ds : (length ds <= 3)%nat -> Forall (fun d => digit d = true) ds -> weight (lit "0." ++ ds)
| w_padded k : (k <= 3)%nat -> weight (lit "1." ++ replicate k "0"%char).

(** [parameter-name "=" parameter-value]; a [q] carries a weight. *)
Definition parameter (p : gostring) : Prop := exists name value, p = name ++ "="%char :: value /\ token name /\
  (token value \/ quoted_string value) /\ (EqualFold name (lit "q") = true -> weight value).

Definition parameters (s : gostring) : Prop := Forall (fun p => TrimSpace p = [] \/ parameter (TrimSpace p)) (split_on ";"%char s).

(** [seg] is the media range [t/st], with its parameters. *)
Definition media_range (seg t st : gostring) : Prop :=
  token t /\ token st /\ (t = lit "*" -> st = lit "*") /\
  exists range, TrimSpace range = t ++ "/"%char :: st /\
    ((";"%char ∉ seg /\ seg = range) \/ exists params, seg = range ++ ";"%char :: params /\ ";"%char ∉ range /\ parameters params).

Definition html_range (t st : gostring) : Prop := EqualFold t (lit "text") = true /\ (st = lit "*" \/ EqualFold st (lit "html") = true).
Definition blank (seg : gostring) : Prop := ";"%char ∉ seg /\ TrimSpace seg = [].

(** Every element of the list is blank or a media range that is not HTML's, and
    one of them is not blank. *)
Definition asks_for_no_document (values : list gostring) : Prop :=
  Forall (fun seg => blank seg \/ exists t st, media_range seg t st /\ ~ html_range t st) (accept_elements values) /\
  Exists (fun seg => ~ blank seg) (accept_elements values).

(** ** The scanners implement the grammar *)
Lemma isToken_spec s : isToken s = true <-> token s.
Proof.
  unfold isToken, token. rewrite andb_true_iff, negb_true_iff, bool_decide_eq_false, forallb_forall, Forall_forall.
  split; intros [? Ha]; (split; [done |]); intros c Hc; apply Ha; by apply list_elem_of_In.
Qed.

Lemma token_no_sep c s : tchar c = false -> token s -> c ∉ s.
Proof. intros Hc [_ Hs] Hin. rewrite Forall_forall in Hs. specialize (Hs c Hin). simpl in Hs. congruence. Qed.

Lemma split_at_first c a b : c ∉ a -> split_at_byte c (a ++ c :: b) = Some (a, b).
Proof. intros Ha. by apply split_at_byte_Some. Qed.

Lemma qdtext_spec c : (Ascii.eqb c "\"%char = false /\ Ascii.eqb c DQUOTE = false /\
    ((byteZ c <? 32) && negb (byteZ c =? 9)) || (byteZ c =? 127) = false) <-> qdtext c.
Proof.
  unfold qdtext. rewrite !Ascii.eqb_neq, orb_false_iff, andb_false_iff, negb_false_iff, Z.ltb_ge, Z.eqb_eq, Z.eqb_neq.
  naive_solver.
Qed.

Lemma quoted_inner_complete s : quoted_text s -> quoted_inner s = true.
Proof.
  induction 1 as [| c r Hr IH | c r Hc Hr IH]; cbn [quoted_inner]; [done | by rewrite Ascii.eqb_refl |].
  apply qdtext_spec in Hc as (-> & -> & ->). done.
Qed.

Lemma quoted_inner_sound n : forall s, (length s <= n)%nat -> quoted_inner s = true -> quoted_text s.
Proof.
  induction n as [| n IH]; intros [| c r] Hl Hq; try (constructor; done); [simpl in Hl; lia |].
  cbn [quoted_inner length] in *. destruct (Ascii.eqb c "\"%char) eqn:E1.
  - apply Ascii.eqb_eq in E1 as ->. destruct r as [| d r]; [done |]. constructor. apply IH; [simpl in Hl; lia | done].
  - destruct (Ascii.eqb c DQUOTE) eqn:E2; [done |]. destruct (_ || (byteZ c =? 127)) eqn:E3; [done |].
    apply qt_char; [by apply qdtext_spec | apply IH; [lia | done]].
Qed.

Lemma isQuotedString_spec s : isQuotedString s = true <-> quoted_string s.
Proof.
  unfold isQuotedString, quoted_string. destruct s as [| q r]; [split; [done | by intros (? & ? & _)] |].
  destruct (rev r) as [| q' inner] eqn:Er.
  - split; [done |]. intros (inner & Hs & _). injection Hs as -> ->. by rewrite rev_app_distr in Er.
  - assert (r = rev inner ++ [q']) as -> by (apply (f_equal (@rev _)) in Er; rewrite rev_involutive in Er; by rewrite Er).
    rewrite !andb_true_iff, !Ascii.eqb_eq. split.
    + intros [[-> ->] Hq]. exists (rev inner). split; [done |]. by apply (quoted_inner_sound (length (rev inner))).
    + intros (i & Hi & Hq). injection Hi as -> Hi. apply app_inj_tail in Hi as [Hi ->]. split; [done |]. rewrite Hi. by apply quoted_inner_complete.
Qed.

Lemma isWeight_spec s : isWeight s = true <-> weight s.
Proof.
  split.
  - unfold isWeight. destruct s as [| lead rest]; [done |]. destruct (Ascii.eqb lead "0"%char || Ascii.eqb lead "1"%char) eqn:El; [| done].
    destruct rest as [| p ds].
    + intros _. apply orb_true_iff in El as [El | El]; apply Ascii.eqb_eq in El as ->; [apply w_zero | apply w_one].
    + destruct (negb _ || _) eqn:Ep; [done |]. bool_to_prop. rename select (Ascii.eqb p "."%char = true) into Hp.
      apply Ascii.eqb_eq in Hp as ->. intros Hds. rename select (Z.of_nat _ <= 5) into Hlen. cbn [length] in Hlen.
      rewrite forallb_forall in Hds. apply orb_true_iff in El as [El | El]; apply Ascii.eqb_eq in El as ->.
      * apply w_fraction; [lia |]. apply Forall_forall. intros d Hd. apply list_elem_of_In in Hd. specialize (Hds d Hd). by bool_to_prop.
      * assert (ds = replicate (length ds) "0"%char) as ->; [| apply w_padded; lia].
        symmetry. apply replicate_as_elem_of. split; [done |]. intros d Hd. apply list_elem_of_In in Hd. specialize (Hds d Hd).
        apply andb_true_iff in Hds as [_ Hds]. apply negb_true_iff, andb_false_iff in Hds as [Hds | Hds]; [done |].
        apply negb_false_iff in Hds. by apply Ascii.eqb_eq in Hds.
  - intros [| | ds Hl Hd | k Hk]; [done | done | |]; cbn [isWeight lit String.list_ascii_of_string app Ascii.eqb Bool.eqb orb negb andb length].
    + rewrite (proj2 (Z.ltb_ge 5 _)) by lia. apply forallb_forall. intros d Hin. rewrite Forall_forall in Hd.
      rewrite Hd by (by apply list_elem_of_In). done.
    + rewrite length_replicate, (proj2 (Z.ltb_ge 5 _)) by lia. apply forallb_forall. intros d Hin. apply list_elem_of_In in Hin.
      apply elem_of_replicate in Hin as [-> _]. done.
Qed.

Lemma valid_parameter_spec p : valid_parameter p = true <-> parameter p.
Proof.
  unfold valid_parameter, parameter. split.
  - destruct (split_at_byte "="%char p) as [[name value] |] eqn:E; [| done]. apply split_at_byte_Some in E as [-> _].
    intros Hv. bool_to_prop. exists name, value. split_ands; [done | by apply isToken_spec | |].
    + rename select (_ || _ = true) into Hv. apply orb_true_iff in Hv as [Hv | Hv]; [left; by apply isToken_spec | right; by apply isQuotedString_spec].
    + intros Hq. rename select (_ && _ = false) into Hw. rewrite Hq in Hw. apply isWeight_spec. by destruct (isWeight value).
  - intros (name & value & -> & Hn & Hv & Hw). rewrite split_at_first by (by apply token_no_sep).
    rewrite (proj2 (isToken_spec name) Hn). assert (isToken value || isQuotedString value = true) as ->
      by (apply orb_true_iff; destruct Hv; [left; by apply isToken_spec | right; by apply isQuotedString_spec]).
    destruct (EqualFold name _) eqn:E; [| done]. by rewrite (proj2 (isWeight_spec value) (Hw eq_refl)).
Qed.

Lemma validMediaParameters_spec s : validMediaParameters s = true <-> parameters s.
Proof.
  unfold validMediaParameters, parameters. rewrite forallb_forall, Forall_forall.
  split; intros Hp p Hin; specialize (Hp p); simpl in *; rewrite ?orb_true_iff, bool_decide_eq_true, valid_parameter_spec in *;
    apply Hp; by apply list_elem_of_In.
Qed.

(** One list element is skipped when blank, and counts when it is a media range
    that does not accept HTML; anything else condemns the header. *)
Lemma media_element_skip seg : media_element seg = Skip <-> blank seg.
Proof.
  unfold media_element, blank. destruct (split_at_byte ";"%char seg) as [[a b] |] eqn:E.
  - split.
    + repeat case_match; done.
    + intros [Hn _]. apply split_at_byte_None in Hn. congruence.
  - apply split_at_byte_None in E. cbn [andb]. split.
    + case_bool_decide; [done |]. repeat case_match; done.
    + intros [_ ->]. by rewrite bool_decide_true.
Qed.

(** The part of an element before its parameters, and the parameters' test. *)
Definition range_part (seg : gostring) : gostring * bool :=
  match split_at_byte ";"%char seg with Some (a, b) => (TrimSpace a, validMediaParameters b) | None => (TrimSpace seg, true) end.

Lemma range_part_spec seg range : range_part seg = (range, true) <->
  exists raw, TrimSpace raw = range /\
    ((";"%char ∉ seg /\ seg = raw) \/ exists params, seg = raw ++ ";"%char :: params /\ ";"%char ∉ raw /\ parameters params).
Proof.
  unfold range_part. destruct (split_at_byte ";"%char seg) as [[a b] |] eqn:E.
  - apply split_at_byte_Some in E as [-> Ha]. split.
    + intros [= <- Hb]. exists a. split; [done |]. right. exists b. split_ands; [done.. |]. by apply validMediaParameters_spec.
    + intros (raw & <- & [[Hn _] | (params & Heq & Hraw & Hp)]); [set_solver |].
      assert (Some (a, b) = Some (raw, params)) as [= -> ->].
      { rewrite <- (split_at_first ";"%char raw params) by done. rewrite <- Heq. symmetry. by apply split_at_first. }
      f_equal. by apply validMediaParameters_spec.
  - apply split_at_byte_None in E. split.
    + intros [= <-]. exists seg. split; [done | by left].
    + intros (raw & <- & [[_ ->] | (params & -> & _)]); [done | set_solver].
Qed.

Lemma media_element_usable seg : media_element seg = Usable <-> exists t st, media_range seg t st /\ ~ html_range t st.
Proof.
  transitivity (exists t st, range_part seg = (t ++ "/"%char :: st, true) /\ token t /\ token st /\ (t = lit "*" -> st = lit "*") /\ ~ html_range t st).
  - unfold media_element, range_part.
    assert (Hbody : forall range, (match split_at_byte "/"%char range with
        | None => Condemn
        | Some (mediaType, subtype) =>
          if negb (isToken mediaType) || negb (isToken subtype) then Condemn else
          if bool_decide (mediaType = lit "*") && negb (bool_decide (subtype = lit "*")) then Condemn else
          if EqualFold mediaType (lit "text") && (bool_decide (subtype = lit "*") || EqualFold subtype (lit "html")) then Condemn else Usable
        end = Usable) <-> exists t st, range = t ++ "/"%char :: st /\ token t /\ token st /\ (t = lit "*" -> st = lit "*") /\ ~ html_range t st).
    { intros range. unfold html_range. split.
      - destruct (split_at_byte "/"%char range) as [[t st] |] eqn:E; [| done]. apply split_at_byte_Some in E as [-> _].
        destruct (negb _ || _) eqn:E1; [done |]. destruct (bool_decide _ && _) eqn:E2; [done |]. destruct (EqualFold _ _ && _) eqn:E3; [done |].
        intros _. bool_to_prop. exists t, st. split_ands; [done | by apply isToken_spec | by apply isToken_spec | |].
        + intros Ht. rewrite (bool_decide_true _ Ht) in E2. cbn [andb] in E2. apply negb_false_iff, bool_decide_eq_true in E2. done.
        + intros [Ht Hs]. rewrite Ht in E3. cbn [andb] in E3. apply orb_false_iff in E3 as [E3 E4]. apply bool_decide_eq_false in E3. destruct Hs; congruence.
      - intros (t & st & -> & Ht & Hst & Hstar & Hh). rewrite split_at_first by (by apply token_no_sep).
        rewrite (proj2 (isToken_spec t) Ht), (proj2 (isToken_spec st) Hst). cbn [negb orb].
        destruct (bool_decide _ && _) eqn:E2.
        { apply andb_true_iff in E2 as [E2 E3]. apply bool_decide_eq_true in E2. by rewrite (bool_decide_true _ (Hstar E2)) in E3. }
        destruct (EqualFold _ _ && _) eqn:E3; [| done]. destruct Hh. apply andb_true_iff in E3 as [-> E3]. split; [done |].
        apply orb_true_iff in E3 as [E3 | E3]; [left; by apply bool_decide_eq_true in E3 | by right]. }
    assert (Hne : forall (t st : gostring), t ++ "/"%char :: st <> []) by (intros [|] ?; done).
    destruct (split_at_byte ";"%char seg) as [[a b] |]; cbn [andb].
    + case_bool_decide as Hr.
      * split; [done |]. intros (t & st & Heq & _). injection Heq as Heq _. rewrite Hr in Heq. by destruct (Hne t st).
      * destruct (validMediaParameters b); cbn [negb].
        -- rewrite Hbody. split; intros (t & st & Heq & ?); exists t, st; (split; [congruence | done]).
        -- split; [done |]. by intros (t & st & Heq & _).
    + case_bool_decide as Hr.
      * split; [done |]. intros (t & st & Heq & _). injection Heq as Heq. rewrite Hr in Heq. by destruct (Hne t st).
      * rewrite Hbody. split; intros (t & st & Heq & ?); exists t, st; (split; [congruence | done]).
  - split.
    + intros (t & st & Hr & Ht & Hst & Hstar & Hh). exists t, st. split; [| done]. unfold media_range. split_ands; try done.
      by apply range_part_spec.
    + intros (t & st & (Ht & Hst & Hstar & Hr) & Hh). exists t, st. split_ands; try done. by apply range_part_spec.
Qed.

Lemma accept_loop_spec segs usable : accept_loop segs usable = true <->
  Forall (fun seg => media_element seg <> Condemn) segs /\ (usable = true \/ Exists (fun seg => media_element seg <> Skip) segs).
Proof.
  revert usable. induction segs as [| seg segs IH]; intros usable; cbn [accept_loop].
  - rewrite Forall_nil, Exists_nil. naive_solver.
  - rewrite Forall_cons, Exists_cons. destruct (media_element seg) eqn:E; rewrite ?IH; naive_solver.
Qed.

Lemma acceptLooksNonNavigational_spec values : acceptLooksNonNavigational values = true <-> asks_for_no_document values.
Proof.
  unfold acceptLooksNonNavigational, asks_for_no_document. rewrite accept_loop_spec.
  assert (Hc : forall seg, media_element seg <> Condemn <-> blank seg \/ exists t st, media_range seg t st /\ ~ html_range t st).
  { intros seg. rewrite <- media_element_skip, <- media_element_usable. destruct (media_element seg); naive_solver. }
  rewrite (Forall_iff _ _ _ Hc). split; intros [Hf He]; (split; [done |]).
  - destruct He as [? | He]; [done |]. eapply Exists_impl; [exact He |]. intros seg Hs Hb. by apply Hs, media_element_skip.
  - right. eapply Exists_impl; [exact He |]. intros seg Hs Hb. by apply Hs, media_element_skip.
Qed.

(** * Properties *)


End Refusal.

Module Ex.
#[export] Existing Instance ascii_only.

(** A favicon fetch without Fetch metadata is refused; a navigation over plain
    HTTP, and a header that is not a well-formed list, are not. *)
Definition favicon : Header := {[ hdrAccept := [lit "*/*"] ]}.
Definition navigation : Header := {[ hdrAccept := [lit "text/html,application/xhtml+xml,application/xml;q=0.9,*/*;q=0.8"] ]}.

Example favicon_refused : refusalKind favicon = outcomeAcceptRefused.
Proof. vm_compute. reflexivity. Qed.
Example navigation_kept : refusalKind navigation = [].
Proof. vm_compute. reflexivity. Qed.
Example garbage_kept : refusalKind {[ hdrAccept := [lit "application/json;q=wat"] ]} = [].
Proof. vm_compute. reflexivity. Qed.
Example stray_space_kept : refusalKind {[ hdrAccept := [lit "text /html"] ]} = [].
Proof. vm_compute. reflexivity. Qed.

(** An unknown destination is decided by Accept, as an absent one is. *)
Definition future : Header := <[hdrSecFetchDest := [lit "future-dest"]]> favicon.
Example future_refused : refusalKind future = outcomeAcceptRefused.
Proof. vm_compute. reflexivity. Qed.

End Ex.
