(* ===== verification/Http.v ===== *)
(** * Requests, responses and redirects (transport/http/server.go, headers.go)

    The part of an HTTP exchange the handlers read and write, the response
    helpers, and the redirect after a solved challenge: [safeRedirect], and
    what [http.Redirect] of the standard library makes of its result. *)

From S2P Require Export Refusal.

Open Scope Z_scope.

(** ** Requests *)
Record Request := mk_http {
  hr_Host : gostring;
  hr_Method : gostring;
  hr_RequestURI : gostring;                 (* r.URL.RequestURI() *)
  hr_RemoteAddr : gostring;
  hr_Header : Header;
  hr_Query : gmap gostring gostring;        (* first value of each query parameter *)
  hr_Body : gostring
}.

Definition hdrHost : gostring := lit "X-Guardian-Host".
Definition hdrMethod : gostring := lit "X-Guardian-Method".
Definition hdrURI : gostring := lit "X-Guardian-Uri".
Definition hdrIP : gostring := lit "X-Guardian-Ip".
Definition hdrUA : gostring := lit "X-Guardian-Ua".
Definition hdrCookie : gostring := lit "X-Guardian-Cookie".
Definition hdrProto : gostring := lit "X-Guardian-Proto".
Definition hdrDifficulty : gostring := lit "X-Guardian-Difficulty".

Definition or_else (v fallback : gostring) : gostring := if bool_decide (v = []) then fallback else v.
Definition headerOr (r : Request) (name fallback : gostring) : gostring := or_else (HGet (hr_Header r) name) fallback.
Definition stripPort (remoteAddr : gostring) : gostring :=
  match SplitHostPort remoteAddr with Some (host, _) => host | None => remoteAddr end.
Definition clientIP (r : Request) : gostring := headerOr r hdrIP (stripPort (hr_RemoteAddr r)).

(** ** Responses *)
Inductive json_value := JBool (b : bool) | JString (s : gostring).

(** The JSON embedded in the interstitial. *)
Record challengePayload := mk_page {
  cp_ChallengeID : gostring;
  cp_Challenge : gostring;
  cp_Algorithm : gostring;
  cp_Difficulty : Z;
  cp_MemoryKiB : Z;
  cp_Iterations : Z;
  cp_Salt : gostring;
  cp_PassURL : gostring;
  cp_WorkerURL : gostring;
  cp_WASMURL : gostring;
  cp_NoScriptFallback : bool;
  cp_NoScriptURL : gostring;
  cp_NoScriptWaitSeconds : Z
}.

Inductive Body :=
| NoBody
| Text (msg : gostring)
| JSON (fields : list (gostring * json_value))
| DeniedPage
| ChallengePage (payload : challengePayload) (noScript : bool) (refreshSeconds : gostring).

Record Response := mk_resp { rs_Status : Z; rs_Headers : gmap gostring gostring; rs_Body : Body }.

Definition respond (status : Z) (headers : list (string * gostring)) (body : Body) : Response :=
  mk_resp status (list_to_map (map (fun h => (lit h.1, h.2)) headers)) body.

Definition StatusOK : Z := 200.
Definition StatusSeeOther : Z := 303.
Definition StatusBadRequest : Z := 400.
Definition StatusUnauthorized : Z := 401.
Definition StatusForbidden : Z := 403.
Definition StatusConflict : Z := 409.
Definition StatusUnsupportedMediaType : Z := 415.
Definition StatusTooManyRequests : Z := 429.
Definition StatusInternalServerError : Z := 500.
Definition StatusServiceUnavailable : Z := 503.

Definition cspChallenge : gostring := lit "default-src 'none'; script-src 'self' 'unsafe-inline'; style-src 'unsafe-inline'; worker-src 'self' blob:; connect-src 'self'; base-uri 'none'; form-action 'none'; frame-ancestors 'self'".
Definition cspStatic : gostring := lit "default-src 'none'; style-src 'unsafe-inline'; base-uri 'none'; form-action 'none'; frame-ancestors 'self'".
Definition frameSameOrigin : gostring := lit "SAMEORIGIN".

(** [csp] and [frameOpts] are empty for a response that is not a document. *)
Definition securityHeaders (csp frameOpts : gostring) : list (string * gostring) :=
  [("X-Content-Type-Options"%string, lit "nosniff"); ("Referrer-Policy"%string, lit "no-referrer")] ++
  (if bool_decide (csp = []) then [] else [("Content-Security-Policy"%string, csp)]) ++
  (if bool_decide (frameOpts = []) then [] else [("X-Frame-Options"%string, frameOpts)]).

(** [http.Error]. *)
Definition http_Error (headers : list (string * gostring)) (msg : gostring) (status : Z) : Response :=
  respond status ([("Content-Type"%string, lit "text/plain; charset=utf-8"); ("X-Content-Type-Options"%string, lit "nosniff")] ++ headers) (Text msg).

Definition writeJSON (headers : list (string * gostring)) (status : Z) (fields : list (gostring * json_value)) : Response :=
  respond status (headers ++ [("Content-Type"%string, lit "application/json"); ("Cache-Control"%string, lit "no-store")] ++ securityHeaders [] []) (JSON fields).

Definition failure (error : gostring) : list (gostring * json_value) := [(lit "ok", JBool false); (lit "error", JString error)].

Definition refuseChallenge (msg : gostring) : Response :=
  http_Error ([("Cache-Control"%string, lit "no-store")] ++ securityHeaders [] []) msg StatusForbidden.

Definition handleDenied : Response :=
  respond StatusForbidden ([("Content-Type"%string, lit "text/html; charset=utf-8"); ("Cache-Control"%string, lit "no-store")] ++
    securityHeaders cspStatic frameSameOrigin) DeniedPage.

Definition handleHealthz : Response :=
  respond StatusOK ([("Content-Type"%string, lit "text/plain; charset=utf-8")] ++ securityHeaders [] []) (Text (lit "ok" ++ [Zbyte 10])).

(** ** Redirects *)
Definition url_stripped (c : ascii) : bool := (byteZ c =? 9) || (byteZ c =? 10) || (byteZ c =? 13).

Definition safeRedirect (uri : gostring) : gostring :=
  if bool_decide (uri = []) || negb (has_prefix (lit "/") uri) || has_prefix (lit "//") uri || has_prefix (lit "/\") uri ||
     existsb url_stripped uri
  then lit "/" else uri.

(** [url.Parse] on a string that begins with one slash: no control byte before
    the fragment, and no broken escape in the path or the fragment. *)
Definition ctl_byte (c : ascii) : bool := (byteZ c <? 32) || (byteZ c =? 127).
Definition url_Parse (s : gostring) : bool :=
  let '(u, frag) := match split_at_byte "#"%char s with Some (u, f) => (u, f) | None => (s, []) end in
  negb (existsb ctl_byte u) && bool_decide (is_Some (PathUnescape (RequestPath u))) && bool_decide (is_Some (PathUnescape frag)).

Definition hexEscapeNonASCII (s : gostring) : gostring :=
  s ≫= fun c => if ascii_byte c then [c] else "%"%char :: map upper_byte (hex_encode [c]).

(** The [Location] of [http.Redirect] for a target that begins with a slash:
    the path before the query is cleaned, a trailing slash kept. *)
Definition redirect_location (url : gostring) : gostring :=
  let url :=
    if url_Parse url then
      let '(path, query) := match split_at_byte "?"%char url with Some (p, q) => (p, "?"%char :: q) | None => (url, []) end in
      let cleaned := Clean path in
      (if has_suffix (lit "/") path && negb (has_suffix (lit "/") cleaned) then cleaned ++ lit "/" else cleaned) ++ query
    else url in
  hexEscapeNonASCII url.

(** ** Theory: where a browser goes *)

(** A browser drops tabs and line ends from a URL, and reads a backslash as a
    slash: a reference that then begins with two slashes names another host. *)
Definition browser_view (url : gostring) : gostring := List.filter (fun c => negb (url_stripped c)) url.
Definition slash_like (c : ascii) : bool := Ascii.eqb c "/"%char || Ascii.eqb c "\"%char.
Definition same_site (url : gostring) : Prop :=
  exists r, browser_view url = "/"%char :: r /\ match r with c :: _ => slash_like c = false | [] => True end.

Lemma browser_view_id s : existsb url_stripped s = false -> browser_view s = s.
Proof.
  unfold browser_view. induction s as [| c s IH]; cbn [existsb List.filter]; [done |].
  intros Hs. bool_to_prop. rewrite (proj2 (negb_true_iff _)) by done. f_equal. by apply IH.
Qed.

Lemma safeRedirect_spec uri : safeRedirect uri = lit "/" \/
  (safeRedirect uri = uri /\ existsb url_stripped uri = false /\ exists r, uri = "/"%char :: r /\ match r with c :: _ => slash_like c = false | [] => True end).
Proof.
  unfold safeRedirect. destruct (_ || existsb url_stripped uri) eqn:E; [by left | right].
  apply orb_false_iff in E as [E Hs]. apply orb_false_iff in E as [E H2]. apply orb_false_iff in E as [E H1]. apply orb_false_iff in E as [_ H0].
  apply negb_false_iff, has_prefix_spec in H0 as [r ->]. split_ands; [done.. |]. exists r. split; [done |].
  destruct r as [| c r]; [done |]. unfold slash_like. cbn in H1, H2. rewrite andb_true_r in H1, H2.
  apply orb_false_iff. rewrite (Ascii.eqb_sym c), (Ascii.eqb_sym c "\"%char). done.
Qed.

Lemma safeRedirect_same_site uri : same_site (safeRedirect uri).
Proof.
  destruct (safeRedirect_spec uri) as [-> | (-> & Hs & r & -> & Hr)].
  - exists []. done.
  - exists r. by rewrite browser_view_id.
Qed.

(** Cleaning a rooted path keeps to the bytes of the path. *)
Lemma split_on_bytes c s e x : e ∈ split_on c s -> x ∈ e -> x ∈ s.
Proof.
  revert e. induction s as [| d s IH]; intros e; cbn [split_on].
  - rewrite list_elem_of_singleton. by intros ->.
  - destruct (Ascii.eqb d c).
    + rewrite elem_of_cons. intros [-> | He] Hx; [by apply not_elem_of_nil in Hx |]. right. by eapply IH.
    + destruct (split_on c s) as [| h t] eqn:E.
      * rewrite list_elem_of_singleton. intros ->. rewrite list_elem_of_singleton. intros ->. left.
      * rewrite elem_of_cons. intros [-> | He] Hx.
        -- apply elem_of_cons in Hx as [-> | Hx]; [left | right]. apply (IH h); [left | done].
        -- right. apply (IH e); [by right | done].
Qed.

Lemma clean_elems_sub elems : forall stack e, e ∈ clean_elems true stack elems -> e ∈ stack \/ e ∈ elems.
Proof.
  induction elems as [| x elems IH]; intros stack e; cbn [clean_elems].
  - intros He. left. apply list_elem_of_In, in_rev. by apply list_elem_of_In.
  - repeat case_match; intros He; apply IH in He; rewrite ?elem_of_cons in *; naive_solver.
Qed.

Lemma flat_bytes segs x : x ∈ flat segs -> x = "/"%char \/ exists s, s ∈ segs /\ x ∈ s.
Proof.
  unfold flat. induction segs as [| s segs IH]; cbn [map concat]; [intros Hx; by apply not_elem_of_nil in Hx |].
  rewrite elem_of_app, elem_of_cons. intros [[-> | Hx] | Hx]; [by left | right; exists s; split; [left | done] |].
  destruct (IH Hx) as [-> | (s' & ? & ?)]; [by left | right; exists s'; split; [by right | done]].
Qed.

Lemma Clean_bytes p x : has_prefix (lit "/") p = true -> x ∈ Clean p -> x = "/"%char \/ x ∈ p.
Proof.
  intros Hp Hx. destruct (Clean_rooted p Hp) as (segs & Hc & _ & Hsegs). rewrite Hc in Hx.
  assert (x = "/"%char \/ exists s, s ∈ segs /\ x ∈ s) as [-> | (s & Hin & Hxs)]; [| by left | right].
  { destruct segs as [| s0 segs0]; [left; by apply list_elem_of_singleton in Hx |].
    apply flat_bytes. unfold path_of in Hx. by rewrite app_nil_r in Hx. }
  rewrite Hsegs in Hin. apply clean_elems_sub in Hin as [Hin | Hin]; [by apply not_elem_of_nil in Hin |]. by eapply split_on_bytes.
Qed.

(** A cleaned path has one leading slash; without a backslash it names no host. *)
Lemma Clean_head p : has_prefix (lit "/") p = true -> "\"%char ∉ p ->
  exists r, Clean p = "/"%char :: r /\ match r with c :: _ => slash_like c = false | [] => True end.
Proof.
  intros Hp Hb. pose proof (Clean_bytes p "\"%char Hp) as Hbytes. destruct (Clean_rooted p Hp) as (segs & Hc & Hok & _). rewrite Hc in *.
  destruct segs as [| s segs]; [by exists [] |].
  apply Forall_cons in Hok as [(Hne & _ & _ & Hns) _]. destruct s as [| c s]; [done |].
  exists ((c :: s) ++ flat segs). split; [unfold path_of; by rewrite app_nil_r |]. cbn [app].
  unfold slash_like. apply orb_false_iff. rewrite !Ascii.eqb_neq. split.
  - intros ->. apply Hns. left.
  - intros ->. assert ("\"%char ∈ path_of (("\"%char :: s) :: segs) false) as Hin by (unfold path_of, flat; cbn; right; left).
    destruct (Hbytes Hin) as [? | ?]; done.
Qed.

Lemma hex_bytes c : existsb url_stripped (map upper_byte (hex_encode [c])) = false.
Proof. destruct c as [[] [] [] [] [] [] [] []]; vm_compute; reflexivity. Qed.

Lemma hexEscape_stripped s : existsb url_stripped s = false -> existsb url_stripped (hexEscapeNonASCII s) = false.
Proof.
  unfold hexEscapeNonASCII. induction s as [| c s IH]; cbn [existsb mbind list_bind]; [done |]. intros Hs. bool_to_prop.
  rewrite existsb_app. apply orb_false_iff. split; [| by apply IH].
  destruct (ascii_byte c); cbn [existsb]; [by rewrite orb_false_r | by rewrite hex_bytes].
Qed.

Lemma hexEscape_head r : match r with c :: _ => slash_like c = false | [] => True end ->
  exists r', hexEscapeNonASCII ("/"%char :: r) = "/"%char :: r' /\ match r' with c :: _ => slash_like c = false | [] => True end.
Proof.
  intros Hr. unfold hexEscapeNonASCII. cbn [mbind list_bind].
  change (ascii_byte "/") with true. cbn [app]. eexists. split; [done |].
  destruct r as [| c r]; [done |]. cbn [mbind list_bind]. destruct (ascii_byte c); done.
Qed.

Lemma stripped_sub s t : (forall x, x ∈ t -> x = "/"%char \/ x ∈ s) -> existsb url_stripped s = false -> existsb url_stripped t = false.
Proof.
  intros Hsub Hs. apply not_true_iff_false. intros Ht. apply existsb_exists in Ht as (x & Hin & Hx). apply list_elem_of_In in Hin.
  destruct (Hsub x Hin) as [-> | Hins]; [done |]. apply not_true_iff_false in Hs. apply Hs. apply existsb_exists. exists x. split; [by apply list_elem_of_In | done].
Qed.

(** The path and the query around the first question mark. *)
Lemma query_split url : exists path query, url = path ++ query /\
  match split_at_byte "?"%char url with Some (p, q) => (p, "?"%char :: q) | None => (url, []) end = (path, query) /\ (query = [] \/ exists q, query = "?"%char :: q).
Proof.
  destruct (split_at_byte "?"%char url) as [[p q] |] eqn:E.
  - apply split_at_byte_Some in E as [-> _]. exists p, ("?"%char :: q). split_ands; [done | done | right; by exists q].
  - exists url, []. rewrite app_nil_r. split_ands; [done | done | by left].
Qed.

Lemma redirect_location_same_site url : existsb url_stripped url = false -> "\"%char ∉ url ->
  (exists r, url = "/"%char :: r /\ match r with c :: _ => slash_like c = false | [] => True end) -> same_site (redirect_location url).
Proof.
  intros Hs Hb (r & -> & Hr).
  assert (Hgoal : forall u, existsb url_stripped u = false -> (exists r, u = "/"%char :: r /\ match r with c :: _ => slash_like c = false | [] => True end) ->
    same_site (hexEscapeNonASCII u)).
  { intros u Hu (r1 & -> & Hr1). destruct (hexEscape_head r1 Hr1) as (r2 & He & Hr2). exists r2. rewrite browser_view_id by (by apply hexEscape_stripped). done. }
  unfold redirect_location. destruct (url_Parse _); [| apply Hgoal; [done | by exists r]].
  destruct (query_split ("/"%char :: r)) as (path & query & Hsplit & -> & Hq).
  assert (Hp : has_prefix (lit "/") path = true).
  { destruct path as [| c path]; [destruct Hq as [-> | (q & ->)]; done |]. cbn in Hsplit. injection Hsplit as <- _. done. }
  assert (Hsub : forall x, x ∈ Clean path -> x = "/"%char \/ x ∈ "/"%char :: r).
  { intros x Hx. destruct (Clean_bytes path x Hp Hx) as [-> | Hx']; [by left | right]. rewrite Hsplit. apply elem_of_app. by left. }
  apply Hgoal.
  - apply (stripped_sub ("/"%char :: r)); [| done]. intros x. rewrite elem_of_app. intros [Hx | Hx].
    + destruct (_ && _); [apply elem_of_app in Hx as [Hx | Hx] |]; [by apply Hsub | left; by apply list_elem_of_singleton in Hx | by apply Hsub].
    + right. rewrite Hsplit. apply elem_of_app. by right.
  - destruct (Clean_head path Hp) as (r1 & Hc & Hr1); [intros Hin; apply Hb; rewrite Hsplit; apply elem_of_app; by left |].
    rewrite Hc. destruct r1 as [| c1 r1].
    + change (has_suffix (lit "/") ["/"%char]) with true. rewrite andb_false_r. exists query. split; [done |]. destruct Hq as [-> | (q & ->)]; done.
    + destruct (_ && _); cbn [app]; eexists; (split; [reflexivity | done]).
Qed.

(** * Properties *)

(** The target of a post-challenge redirect is a path of the same site,
    and so is the Location after the HTTP library has cleaned it when the
    target has no backslash. *)
Theorem redirect_stays_on_site : forall uri,
  same_site (safeRedirect uri) /\ ("\"%char ∉ uri -> same_site (redirect_location (safeRedirect uri))).
Proof.
  intros uri. split; [apply safeRedirect_same_site |]. intros Hb.
  destruct (safeRedirect_spec uri) as [-> | (-> & Hs & Hr)].
  - exists []. split; [vm_compute; reflexivity | done].
  - by apply redirect_location_same_site.
Qed.

(** [safeRedirect] looks at the target before [http.Redirect] cleans its path:
    a backslash the check would refuse at the front can still come out there. *)
Lemma backslash_escapes_redirect :
  safeRedirect (lit "/./\evil.example") = lit "/./\evil.example" /\
  redirect_location (safeRedirect (lit "/./\evil.example")) = lit "/\evil.example" /\
  ~ same_site (redirect_location (safeRedirect (lit "/./\evil.example"))).
Proof.
  split_ands; [vm_compute; reflexivity | vm_compute; reflexivity |].
  intros (r & Hr & Hc). vm_compute in Hr. injection Hr as <-. vm_compute in Hc. discriminate.
Qed.

Lemma redirect_stays_on_site_witness : same_site (redirect_location (safeRedirect (lit "/shop/../cart?item=1"))).
Proof. apply (proj2 (redirect_stays_on_site (lit "/shop/../cart?item=1"))). refine (proj1 (bool_decide_eq_false _) _). vm_compute. reflexivity. Defined.
