(* ===== verification/Escalation.v ===== *)
(** * Difficulty escalation for unsolved challenges (core/pow/escalation.go)

    Two counters per host and client address, kept in the counter cache: one
    for ordinary issuances and one for framed ones. *)

From S2P Require Export Text Scoreboard CounterCache.

Definition escalationFreeIssues : Z := 4.
Definition escalationStep : Z := 2.
Definition escalationPrefix : gostring := lit "chesc:".
Definition frameEscalationPrefix : gostring := lit "chfesc:".

Section Escalation.
Context `{Unicode}.

(** The host part of a key. *)
Definition escalation_host (host : gostring) : gostring :=
  let host := ToLower (TrimSpace host) in
  let host := if contains ":"%char host
              then match SplitHostPort host with Some (h, _) => h | None => host end else host in
  TrimSuffix (lit ".") (Trim (lit "[]") host).

Definition escalation_ip (ip : gostring) : gostring :=
  match ParseAddr ip with
  | Some a => if Is4In6 a then addr_String (Unmap a) else ip
  | None => ip
  end.

Definition escalationKey (prefix host ip : gostring) : gostring :=
  prefix ++ escalation_host host ++ ":"%char :: escalation_ip ip.

Section Counters.
(** The sketch's hash functions, see [CounterCache]. *)
Variable hash : nat -> gostring -> Z.

(** The number of drainers the two calls start, and the cache. *)
Definition ForgetEscalation (host ip : gostring) (c : CounterCache) : list bool * CounterCache :=
  let '(s1, c) := Forget (escalationKey escalationPrefix host ip) c in
  let '(s2, c) := Forget (escalationKey frameEscalationPrefix host ip) c in
  ([s1; s2], c).

(** [ForgetSync] with the answer [del] of its store delete; [true] is a nil
    error. *)
Definition ForgetSync (key : gostring) (del : result unit) (now : Z) (c : CounterCache) : bool * CounterCache :=
  let '(_, c) := Forget key c in
  (is_ok del && negb (ForgetSync_incomplete hash key now c), c).

(** The counters actually cleared, and whether every one was; [del1], [del2]
    and [now1], [now2] are the answers and clocks of the two deletes. *)
Definition ResetEscalation (host ip : gostring) (del1 del2 : result unit) (now1 now2 : Z) (c : CounterCache)
  : Z * bool * CounterCache :=
  let '(ok1, c) := ForgetSync (escalationKey escalationPrefix host ip) del1 now1 c in
  let '(ok2, c) := ForgetSync (escalationKey frameEscalationPrefix host ip) del2 now2 c in
  ((if ok1 then 1 else 0) + (if ok2 then 1 else 0), ok1 && ok2, c).

(** The extra bits after the [n]-th unsolved issuance. *)
Definition escalation_bits (n : Z) : Z :=
  if n <=? escalationFreeIssues then 0 else Z.quot (n - escalationFreeIssues) escalationStep.

Definition bump (prefix host ip : gostring) (window now sweep_now : Z) (c : CounterCache) : Z * bool * CounterCache :=
  let '(n, spawn, c) := Incr hash (escalationKey prefix host ip) window now sweep_now c in
  (escalation_bits n, spawn, c).

Definition BumpEscalation := bump escalationPrefix.
Definition BumpFrameEscalation := bump frameEscalationPrefix.

(** ** Lemmas *)

(** Counting on an open window. *)
Lemma Incr_live key ttl now sweep c e : cc_m c !! key = Some e -> now < ce_expires e ->
  exists spawn c' e', Incr hash key ttl now sweep c = (ce_n e + 1, spawn, c') /\
    cc_m c' !! key = Some e' /\ ce_n e' = ce_n e + 1 /\ ce_expires e' = ce_expires e.
Proof.
  intros Hk He. unfold Incr. rewrite Hk, (proj2 (Z.leb_gt _ _)) by done.
  set (pending := match cc_dirty c !! key with Some _ => ce_pending e | None => ce_pending e + 1 end).
  set (c1 := with_m (<[key := mk_counter (ce_n e + 1) (ce_expires e) pending]> (cc_m c)) c).
  assert (Hc1 : cc_m c1 !! key = Some (mk_counter (ce_n e + 1) (ce_expires e) pending)) by apply lookup_insert_eq.
  assert (Hm : exists e', cc_m (markDirtyLocked key (ce_expires e) false c1).2 !! key = Some e' /\
    ce_n e' = ce_n e + 1 /\ ce_expires e' = ce_expires e).
  { unfold markDirtyLocked. destruct (cc_dirty c1 !! key) as [d |]; [simpl; by eexists |].
    destruct (maxFlushQueue <=? _); [simpl; by eexists |]. unfold enqueue, entry_at. rewrite Hc1. simpl.
    destruct (cc_workers c <? maxFlushWorkers); simpl; rewrite lookup_insert_eq; by eexists. }
  destruct (markDirtyLocked key (ce_expires e) false c1) as [spawn c'] eqn:Em.
  destruct Hm as (e' & H1 & H2 & H3). by exists spawn, c', e'.
Qed.

(** [k] issuances in one window, at instants [at_ i]. *)
Fixpoint bumps (k : nat) (prefix host ip : gostring) (window : Z) (at_ : nat -> Z) (c : CounterCache) : CounterCache :=
  match k with
  | O => c
  | S k => let c := bumps k prefix host ip window at_ c in (bump prefix host ip window (at_ k) (at_ k) c).2
  end.

Lemma bumps_live prefix host ip window at_ c e k : cc_m c !! escalationKey prefix host ip = Some e ->
  (forall i, (i < k)%nat -> at_ i < ce_expires e) ->
  exists e', cc_m (bumps k prefix host ip window at_ c) !! escalationKey prefix host ip = Some e' /\
    ce_n e' = ce_n e + Z.of_nat k /\ ce_expires e' = ce_expires e.
Proof.
  intros Hk. induction k as [| k IH]; intros Hat; simpl; [exists e; split_ands; try done; lia |].
  destruct IH as (e1 & H1 & H2 & H3); [intros i Hi; apply Hat; lia |].
  unfold bump. destruct (Incr_live _ window (at_ k) (at_ k) _ e1 H1) as (spawn & c' & e' & -> & H4 & H5 & H6);
    [rewrite H3; apply Hat; lia |].
  exists e'. simpl. split_ands; [done | lia | congruence].
Qed.

(** The first count of a window the cache has room for. *)
Lemma Incr_fresh key ttl now sweep c : cc_m c !! key = None -> Z.of_nat (size (cc_m c)) < maxCounterEntries ->
  0 < ttl -> int64_ok (now + ttl) ->
  exists spawn c' e', Incr hash key ttl now sweep c = (1, spawn, c') /\
    cc_m c' !! key = Some e' /\ ce_n e' = 1 /\ ce_expires e' = now + ttl.
Proof.
  intros Hk Hs Ht Hok. unfold Incr. rewrite Hk, (proj2 (Z.leb_gt ttl 0)) by done.
  unfold makeCounterRoomLocked. rewrite (proj2 (Z.ltb_lt _ _)) by done. simpl. rewrite (wrap64_id _ Hok).
  set (pending := match cc_dirty c !! key with Some _ => 0 | None => 0 + 1 end).
  set (c1 := with_m (<[key := mk_counter (0 + 1) (now + ttl) pending]> (cc_m c)) c).
  assert (Hc1 : cc_m c1 !! key = Some (mk_counter (0 + 1) (now + ttl) pending)) by apply lookup_insert_eq.
  assert (Hm : exists e', cc_m (markDirtyLocked key (now + ttl) false c1).2 !! key = Some e' /\
    ce_n e' = 1 /\ ce_expires e' = now + ttl).
  { unfold markDirtyLocked. destruct (cc_dirty c1 !! key) as [d |]; [simpl; by eexists |].
    destruct (maxFlushQueue <=? _); [simpl; by eexists |]. unfold enqueue, entry_at. rewrite Hc1. simpl.
    destruct (cc_workers c <? maxFlushWorkers); simpl; rewrite lookup_insert_eq; by eexists. }
  fold pending. fold c1. destruct (markDirtyLocked key (now + ttl) false c1) as [spawn c'] eqn:Em.
  destruct Hm as (e' & H1 & H2 & H3). by exists spawn, c', e'.
Qed.

Lemma Forget_gone key c : cc_m (Forget key c).2 !! key = None.
Proof.
  unfold Forget, markDirtyLocked, enqueue. repeat (case_match; simpl; try by rewrite lookup_delete_eq).
Qed.

Lemma Forget_keeps_absent key key' c : cc_m c !! key' = None -> cc_m (Forget key c).2 !! key' = None.
Proof.
  intros Hn. assert (Hd : delete key (cc_m c) !! key' = None).
  { destruct (decide (key = key')) as [-> |]; [by rewrite lookup_delete_eq | by rewrite lookup_delete_ne]. }
  unfold Forget, markDirtyLocked, enqueue. repeat (case_match; simpl; try done).
Qed.

Lemma escalation_prefixes_disjoint host1 ip1 host2 ip2 :
  escalationKey escalationPrefix host1 ip1 <> escalationKey frameEscalationPrefix host2 ip2.
Proof. unfold escalationKey, escalationPrefix, frameEscalationPrefix. simpl. intros Hx. discriminate. Qed.
End Counters.
End Escalation.

(** * Properties *)

(** The k-th unsolved issuance in a window demands max 0 ((k-4)/2) extra
    bits. *)
Theorem escalation_ladder `{Unicode} hash prefix host ip window at_ c k :
  cc_m c !! escalationKey prefix host ip = None -> Z.of_nat (size (cc_m c)) < maxCounterEntries ->
  0 < window -> int64_ok (at_ 0%nat + window) -> (forall i, (i < S k)%nat -> at_ i < at_ 0%nat + window) ->
  (bump hash prefix host ip window (at_ k) (at_ k) (bumps hash k prefix host ip window at_ c)).1.1 =
  Z.max 0 ((Z.of_nat (S k) - 4) / 2).
Proof.
  intros Hk Hs Hw Hok Hat.
  assert (Hb : forall n, 1 <= n -> escalation_bits n = Z.max 0 ((n - 4) / 2)).
  { intros n Hn. unfold escalation_bits, escalationFreeIssues, escalationStep. destruct (n <=? 4) eqn:E; bool_to_prop.
    - assert ((n - 4) / 2 <= 0); [| lia]. apply Z.div_le_upper_bound; lia.
    - rewrite Z.quot_div_nonneg by lia. assert (0 <= (n - 4) / 2) by (apply Z.div_pos; lia). lia. }
  destruct (Incr_fresh hash _ window (at_ 0%nat) (at_ 0%nat) c Hk Hs Hw Hok) as (sp & c1 & e1 & H1 & H2 & H3 & H4).
  destruct k as [| k].
  - simpl. unfold bump. rewrite H1. simpl. by rewrite Hb.
  - assert (Hcs : forall j, bumps hash (S j) prefix host ip window at_ c =
      bumps hash j prefix host ip window (fun i => at_ (S i)) c1).
    { induction j as [| j IH]; [simpl; unfold bump; by rewrite H1 |].
      change (bumps hash (S (S j)) prefix host ip window at_ c) with
        ((bump hash prefix host ip window (at_ (S j)) (at_ (S j)) (bumps hash (S j) prefix host ip window at_ c)).2).
      by rewrite IH. }
    rewrite Hcs. destruct (bumps_live hash prefix host ip window (fun i => at_ (S i)) c1 e1 k H2) as (e2 & G1 & G2 & G3);
      [intros i Hi; rewrite H4; apply Hat; lia |].
    unfold bump. destruct (Incr_live hash _ window (at_ (S k)) (at_ (S k)) _ e2 G1) as (sp' & c' & e' & -> & _);
      [rewrite G3, H4; apply Hat; lia |].
    cbn [fst]. rewrite G2, H3, Hb by lia. do 3 f_equal. lia.
Qed.

Definition ex_hash (i : nat) (k : gostring) : Z := Z.of_nat (i + length k).
Definition empty_cache : CounterCache := mk_cache ∅ ∅ [] 0 0 [].

Theorem escalation_ladder_witness :
  (@bump ascii_only ex_hash escalationPrefix (lit "Example.org:443") (lit "::ffff:192.0.2.1") hour (7 * second) (7 * second)
    (@bumps ascii_only ex_hash 7 escalationPrefix (lit "Example.org:443") (lit "::ffff:192.0.2.1") hour
       (fun i => Z.of_nat i * second) empty_cache)).1.1 = 2.
Proof.
  refine (@escalation_ladder ascii_only ex_hash escalationPrefix (lit "Example.org:443") (lit "::ffff:192.0.2.1") hour
    (fun i => Z.of_nat i * second) empty_cache 7 _ _ _ _ _);
    [vm_compute; reflexivity | vm_compute; reflexivity | vm_compute; reflexivity | vm_compute; split; discriminate |].
  intros i Hi. unfold hour, minute, second, millisecond, microsecond. lia.
Defined.

(** An IPv4-mapped client and its canonical form, under any spelling of
    the host, share one escalation counter, and the framed counter is never
    the ordinary one. *)
Theorem escalation_keys_agree `{Unicode} prefix host1 host2 ip a :
  ParseAddr ip = Some a -> Is4In6 a = true \/ addr_String a = ip -> escalation_host host1 = escalation_host host2 ->
  escalationKey prefix host1 ip = escalationKey prefix host2 (canonIP ip) /\
  escalationKey escalationPrefix host1 ip <> escalationKey frameEscalationPrefix host2 (canonIP ip).
Proof.
  intros Hp Hc Hh. split; [| apply escalation_prefixes_disjoint].
  unfold escalationKey. rewrite Hh. do 3 f_equal.
  assert (Hcan : canonIP ip = addr_String (Unmap a)) by (unfold canonIP; by rewrite Hp).
  destruct (Unmap_ok a (ParseAddr_ok _ _ Hp)) as [Hok Hn].
  unfold escalation_ip at 2. rewrite Hcan, (ParseAddr_String _ Hok Hn), Hn.
  unfold escalation_ip. rewrite Hp. destruct (Is4In6 a) eqn:E; [done |]. destruct Hc as [Hc | Hc]; [done |].
  by rewrite <- Hc, Unmap_id.
Qed.

Theorem escalation_keys_agree_witness :
  @escalationKey ascii_only escalationPrefix (lit " Example.ORG.:443") (lit "::ffff:192.0.2.1") =
  @escalationKey ascii_only escalationPrefix (lit "example.org") (canonIP (lit "::ffff:192.0.2.1")).
Proof.
  destruct (ParseAddr (lit "::ffff:192.0.2.1")) as [a |] eqn:E; [| vm_compute in E; discriminate].
  refine (proj1 (@escalation_keys_agree ascii_only escalationPrefix (lit " Example.ORG.:443") (lit "example.org") _ a E _ _));
    [left; vm_compute in E; injection E as <-; reflexivity | vm_compute; reflexivity].
Defined.

(** ResetEscalation drops both local counters and counts nothing elsewhere,
    and reports a clean reset exactly if both shared deletes succeeded and the
    overload sketch holds neither key. *)
Theorem reset_escalation_reports_truth `{Unicode} hash host ip del1 del2 now1 now2 c :
  let '(keys, ok, c') := ResetEscalation hash host ip del1 del2 now1 now2 c in
  cc_m c' !! escalationKey escalationPrefix host ip = None /\
  cc_m c' !! escalationKey frameEscalationPrefix host ip = None /\
  cc_overflow c' = cc_overflow c /\ (forall k, cc_m c !! k = None -> cc_m c' !! k = None) /\
  0 <= keys <= 2 /\ (ok = true <-> keys = 2) /\
  (ok = true <-> del1 = Ok tt /\ del2 = Ok tt /\
    overflowCountLocked hash (escalationKey escalationPrefix host ip) now1 c <= 0 /\
    overflowCountLocked hash (escalationKey frameEscalationPrefix host ip) now2 c <= 0).
Proof.
  assert (Ho : forall k c, cc_overflow (Forget k c).2 = cc_overflow c).
  { intros k c0. unfold Forget, markDirtyLocked, enqueue. by repeat (case_match; simpl). }
  unfold ResetEscalation, ForgetSync, ForgetSync_incomplete.
  set (k1 := escalationKey escalationPrefix host ip). set (k2 := escalationKey frameEscalationPrefix host ip).
  pose proof (fun k => Forget_keeps_absent k1 k c) as F1. pose proof (Forget_gone k1 c) as G1. pose proof (Ho k1 c) as O1. destruct (Forget k1 c) as [s1 c1]. cbn [snd] in F1, G1, O1.
  pose proof (fun k => Forget_keeps_absent k2 k c1) as F2. pose proof (Forget_gone k2 c1) as G2. pose proof (Forget_keeps_absent k2 k1 c1 G1) as G3. pose proof (Ho k2 c1) as O2.
  destruct (Forget k2 c1) as [s2 c2]. cbn [snd] in F2, G2, G3, O2.
  assert (Habs : forall k, cc_m c !! k = None -> cc_m c2 !! k = None) by auto. unfold overflowCountLocked. rewrite O2, O1.
  destruct del1 as [[] | e1], del2 as [[] | e2]; cbn [is_ok andb];
    destruct (0 <? count_rows hash 0 (cc_overflow c) k1 now1 int64_max) eqn:P1;
    destruct (0 <? count_rows hash 0 (cc_overflow c) k2 now2 int64_max) eqn:P2; bool_to_prop; cbn [negb andb];
    split_ands; try done; try lia; try congruence; try (split; [done | intros (? & ? & ? & ?); first [done | lia]]).
Qed.
