(* ===== verification/Sha256.v ===== *)
(** * crypto/sha256 and crypto/hmac

    SHA-256 on byte sequences (FIPS 180-4) and HMAC-SHA-256, executable.  The
    round constants are computed from their definition: the leading 32 bits of
    the fractional parts of the cube roots of the first 64 primes, and of the
    square roots of the first 8. *)

From S2P Require Export Bytes.

Definition w32 (n : Z) : Z := Z.land n 4294967295.
Definition rotr (x n : Z) : Z := w32 (Z.lor (Z.shiftr x n) (Z.shiftl x (32 - n))).

(** The largest [r] with [r^k <= n], bit by bit. *)
Fixpoint root (k : Z) (fuel : nat) (acc n : Z) : Z :=
  match fuel with
  | O => acc
  | S f => let c := acc + 2 ^ Z.of_nat f in root k f (if c ^ k <=? n then c else acc) n
  end.
Definition frac_root (k p : Z) : Z := w32 (root k 40 0 (p * 2 ^ (32 * k))).

Definition is_prime (n : Z) : bool :=
  forallb (fun d => negb (n mod d =? 0)) (map Z.of_nat (seq 2 (Z.to_nat n - 2))).
Definition primes (n : nat) : list Z := take n (filter (fun p => is_prime p = true) (map Z.of_nat (seq 2 320))).

Definition round_constants : list Z := Eval vm_compute in map (frac_root 3) (primes 64).
Definition initial_hash : list Z := Eval vm_compute in map (frac_root 2) (primes 8).

(** Message padding to a multiple of 64 bytes. *)
Definition sha_pad (m : gostring) : gostring :=
  m ++ Zbyte 128 :: replicate (Z.to_nat ((55 - len m) mod 64)) (Zbyte 0) ++ be_bytes 8 (8 * len m).

Fixpoint words_of (n : nat) (bs : gostring) : list Z :=
  match n with O => [] | S k => be_value (take 4 bs) :: words_of k (drop 4 bs) end.

(** The message schedule, kept newest first: [w16 .. w1] are the last sixteen. *)
Definition schedule_next (ws : list Z) : Z :=
  let x := nth 14 ws 0 in let y := nth 1 ws 0 in
  let s0 := Z.lxor (Z.lxor (rotr x 7) (rotr x 18)) (Z.shiftr x 3) in
  let s1 := Z.lxor (Z.lxor (rotr y 17) (rotr y 19)) (Z.shiftr y 10) in
  w32 (nth 15 ws 0 + s0 + nth 6 ws 0 + s1).
Fixpoint schedule (n : nat) (ws : list Z) : list Z :=
  match n with O => ws | S k => schedule k (schedule_next ws :: ws) end.

Record sha_regs := mk_regs { ra : Z; rb : Z; rc : Z; rd : Z; re : Z; rf : Z; rg : Z; rh : Z }.

Definition sha_round (r : sha_regs) (kw : Z * Z) : sha_regs :=
  let s1 := Z.lxor (Z.lxor (rotr (re r) 6) (rotr (re r) 11)) (rotr (re r) 25) in
  let ch := Z.lxor (Z.land (re r) (rf r)) (Z.land (w32 (Z.lnot (re r))) (rg r)) in
  let t1 := rh r + s1 + ch + kw.1 + kw.2 in
  let s0 := Z.lxor (Z.lxor (rotr (ra r) 2) (rotr (ra r) 13)) (rotr (ra r) 22) in
  let maj := Z.lxor (Z.lxor (Z.land (ra r) (rb r)) (Z.land (ra r) (rc r))) (Z.land (rb r) (rc r)) in
  mk_regs (w32 (t1 + s0 + maj)) (ra r) (rb r) (rc r) (w32 (rd r + t1)) (re r) (rf r) (rg r).

Definition regs_list (r : sha_regs) : list Z := [ra r; rb r; rc r; rd r; re r; rf r; rg r; rh r].
Definition regs_of (l : list Z) : sha_regs :=
  mk_regs (nth 0 l 0) (nth 1 l 0) (nth 2 l 0) (nth 3 l 0) (nth 4 l 0) (nth 5 l 0) (nth 6 l 0) (nth 7 l 0).

Definition sha_block (h : list Z) (block : gostring) : list Z :=
  let ws := rev (schedule 48 (rev (words_of 16 block))) in
  let r := fold_left sha_round (combine round_constants ws) (regs_of h) in
  zip_with (fun a b => w32 (a + b)) h (regs_list r).

Fixpoint sha_blocks (n : nat) (h : list Z) (m : gostring) : list Z :=
  match n with O => h | S k => sha_blocks k (sha_block h (take 64 m)) (drop 64 m) end.

Definition Sum256 (m : gostring) : gostring :=
  let p := sha_pad m in
  flat_map (be_bytes 4) (regs_list (regs_of (sha_blocks (Nat.div (length p) 64) initial_hash p))).

(** [hmac.New(sha256.New, key)], [Write(m)], [Sum(nil)]. *)
Definition hmac_pad (key : gostring) (byte : Z) : gostring :=
  let k := if 64 <? len key then Sum256 key else key in
  map (fun c => Zbyte (Z.lxor (byteZ c) byte)) (k ++ replicate (64 - length k) (Zbyte 0)).
Definition HMAC (key m : gostring) : gostring := Sum256 (hmac_pad key 92 ++ Sum256 (hmac_pad key 54 ++ m)).

Lemma Sum256_length m : length (Sum256 m) = 32%nat.
Proof. done. Qed.
Lemma Sum256_len m : len (Sum256 m) = 32.
Proof. done. Qed.
Lemma HMAC_length k m : length (HMAC k m) = 32%nat.
Proof. apply Sum256_length. Qed.
Lemma HMAC_len k m : len (HMAC k m) = 32.
Proof. apply Sum256_len. Qed.

(** Published vectors. *)
Example sha256_abc : hex_encode (Sum256 (lit "abc")) = lit "ba7816bf8f01cfea414140de5dae2223b00361a396177a9cb410ff61f20015ad".
Proof. vm_compute. reflexivity. Qed.
Example sha256_two_blocks :
  hex_encode (Sum256 (lit "abcdbcdecdefdefgefghfghighijhijkijkljklmklmnlmnomnopnopq")) =
  lit "248d6a61d20638b8e5c026930c3e6039a33ce45964ff2167f6ecedd419db06c1".
Proof. vm_compute. reflexivity. Qed.
Example hmac_jefe : hex_encode (HMAC (lit "Jefe") (lit "what do ya want for nothing?")) =
  lit "5bdcc146bf60754e6a042426089575c75a003f089d2739839dec58b964ec3843".
Proof. vm_compute. reflexivity. Qed.

#[global] Arguments Sum256 : simpl never.
#[global] Arguments HMAC : simpl never.
