(* ===== verification/IpSet.v ===== *)
(** * Address prefixes and range sets (netip.Prefix, core/intel/ipset.go)

    [netip.ParsePrefix], [Masked], [Contains]; feed lists and the sorted,
    overlap-merged range set searched by bisection, proved to answer exactly
    whether one of its prefixes covers the address.  A 16-byte address is its
    128-bit number, so [bytes.Compare] is the order of the numbers. *)

From S2P Require Export Netip Text Memory.

(** ** netip *)
Definition group_value (g : list Z) : Z := fold_left (fun acc x => acc * 65536 + x) g 0.

(** [As16]: an IPv4 address in its mapped block. *)
Definition As16 (a : addr) : Z :=
  match a with V4 n => 65535 * 2 ^ 32 + n | V6 g _ => group_value g end.

Definition BitLen (a : addr) : Z := match a with V4 _ => 32 | V6 _ _ => 128 end.
Definition hasZone (a : addr) : bool := match a with V4 _ => false | V6 _ z => negb (bool_decide (z = [])) end.
Definition withoutZone (a : addr) : addr := match a with V4 n => V4 n | V6 g _ => V6 g [] end.

(** The address's own number. *)
Definition addr_value (a : addr) : Z := match a with V4 n => n | V6 g _ => group_value g end.
Definition groups_of (n : Z) : list Z := map (fun i => Z.shiftr n (16 * i) mod 65536) [7; 6; 5; 4; 3; 2; 1; 0].

Record Prefix := mk_prefix { px_addr : addr; px_bits : Z }.

(** [PrefixFrom] with bits in range. *)
Definition PrefixFrom (a : addr) (bits : Z) : Prefix := mk_prefix (withoutZone a) bits.

Definition Masked (p : Prefix) : Prefix :=
  match px_addr p with
  | V4 n => mk_prefix (V4 (Z.shiftl (Z.shiftr n (32 - px_bits p)) (32 - px_bits p))) (px_bits p)
  | V6 g z => mk_prefix (V6 (groups_of (Z.shiftl (Z.shiftr (group_value g) (128 - px_bits p)) (128 - px_bits p))) z) (px_bits p)
  end.

(** [Prefix.Contains]: the first bits agree, in one family, without a zone. *)
Definition prefix_Contains (p : Prefix) (a : addr) : bool :=
  negb (hasZone a) && (BitLen (px_addr p) =? BitLen a) &&
  (Z.shiftr (Z.lxor (addr_value a) (addr_value (px_addr p))) (BitLen a - px_bits p) =? 0).

(** [netip.ParsePrefix]: no zone, and a bit count without sign or leading
    zero. *)
Definition parse_bits (s : gostring) : option Z :=
  match s with
  | c :: _ :: _ => if negb ((49 <=? byteZ c) && (byteZ c <=? 57)) then None
                   else match ParseInt s with Ok n => Some n | Err _ => None end
  | _ => match ParseInt s with Ok n => Some n | Err _ => None end
  end.

Definition ParsePrefix (s : gostring) : option Prefix :=
  '(ip, bitsStr) ← split_last "/"%char s;
  a ← ParseAddr ip;
  if hasZone a then None else
  bits ← parse_bits bitsStr;
  if (bits <? 0) || (BitLen a <? bits) then None else Some (PrefixFrom a bits).

Definition prefix_ok (p : Prefix) : Prop := addr_ok (px_addr p) /\ 0 <= px_bits p <= BitLen (px_addr p).

(** ** core/intel/ipset.go *)
Record ipRange := mk_range { ir_start : Z; ir_end : Z }.
Abbreviation rangeSet := (list ipRange).

Definition rangeOf (p : Prefix) : ipRange :=
  let p := Masked p in
  let start := As16 (px_addr p) in
  let bits := match px_addr p with V4 _ => px_bits p + 96 | V6 _ _ => px_bits p end in
  mk_range start (fold_left (fun e i => Z.lor e (Z.shiftl 1 (127 - i))) (seqZ bits (128 - bits)) start).

Definition start_le (x y : ipRange) : Prop := ir_start x <= ir_start y.
#[global] Instance start_le_dec x y : Decision (start_le x y).
Proof. unfold start_le. apply _. Defined.

#[global] Instance start_le_trans : Transitive start_le.
Proof. intros x y z. unfold start_le. lia. Qed.
#[global] Instance start_le_total : Total start_le.
Proof. intros x y. unfold start_le. lia. Qed.

(** The merging loop; [merged] is in reverse order. *)
Fixpoint merge_ranges (rs merged : list ipRange) : list ipRange :=
  match rs with
  | [] => rev merged
  | r :: rest =>
    match merged with
    | last :: before =>
      if ir_start r <=? ir_end last
      then merge_ranges rest ((if ir_end last <? ir_end r then mk_range (ir_start last) (ir_end r) else last) :: before)
      else merge_ranges rest (r :: merged)
    | [] => merge_ranges rest [r]
    end
  end.

Definition newRangeSet (prefixes : list Prefix) : rangeSet := merge_ranges (merge_sort start_le (map rangeOf prefixes)) [].

(** [sort.Search(n, f)]: the least index where [f] holds; each round halves the
    interval, so [n + 1] rounds are enough. *)
Fixpoint search (fuel : nat) (f : nat -> bool) (i j : nat) : nat :=
  match fuel with
  | O => i
  | S k => if (i <? j)%nat
           then let h := Nat.div2 (i + j) in if f h then search k f i h else search k f (S h) j
           else i
  end.
Definition Search (n : nat) (f : nat -> bool) : nat := search (S n) f 0 n.

Definition set_Contains (s : rangeSet) (a : addr) : bool :=
  let k := As16 a in
  match Search (length s) (fun i => match s !! i with Some r => k <? ir_start r | None => true end) with
  | O => false
  | S i => match s !! i with Some r => k <=? ir_end r | None => false end
  end.

(** [ParseList]: the prefixes and the number of lines that are neither. *)
Fixpoint cut_comment (line : gostring) : gostring :=
  match line with
  | [] => []
  | c :: r => if Ascii.eqb c "#"%char || Ascii.eqb c ";"%char then [] else c :: cut_comment r
  end.

Section List_.
Context `{Unicode}.
Definition parse_line (line : gostring) : option (option Prefix) :=
  let line := TrimSpace (cut_comment line) in
  if bool_decide (line = []) then None
  else if contains "/"%char line then Some (Masked <$> ParsePrefix line)
  else Some ((fun a => PrefixFrom a (BitLen a)) <$> ParseAddr line).

Definition ParseList (lines : list gostring) : list Prefix * Z :=
  (omap (fun l => mjoin (parse_line l)) lines,
   Z.of_nat (length (List.filter (fun l => match parse_line l with Some None => true | _ => false end) lines))).
End List_.

(** ** Ranges of prefixes *)
Definition covered (p : Prefix) (a : addr) : Prop :=
  let k := BitLen (px_addr p) - px_bits p in Z.shiftr (As16 a) k = Z.shiftr (As16 (px_addr p)) k.

Lemma group_value_app g h : group_value (g ++ h) = fold_left (fun acc x => acc * 65536 + x) h (group_value g).
Proof. unfold group_value. apply fold_left_app. Qed.

Lemma group_value_range g : Forall (fun x => 0 <= x < 2 ^ 16) g -> 0 <= group_value g < 2 ^ (16 * Z.of_nat (length g)).
Proof.
  induction g as [| x g IH] using rev_ind; [done |]. intros Hf. apply Forall_app in Hf as [Hg Hx]. rewrite Forall_singleton in Hx.
  specialize (IH Hg). rewrite group_value_app, length_app. cbn [fold_left length].
  replace (16 * Z.of_nat (length g + 1)) with (16 * Z.of_nat (length g) + 16) by lia. rewrite Z.pow_add_r by lia. lia.
Qed.

Lemma As16_range a : addr_ok a -> 0 <= As16 a < 2 ^ 128.
Proof.
  destruct a as [n | g z]; cbn [addr_ok As16]; [lia |]. intros [Hl Hf]. pose proof (group_value_range g Hf) as Hr. by rewrite Hl in Hr.
Qed.

Lemma groups_of_value n : 0 <= n < 2 ^ 128 -> group_value (groups_of n) = n.
Proof.
  intros Hn. unfold groups_of, group_value. cbn [map fold_left]. rewrite !Z.shiftr_div_pow2 by lia.
  change 65536 with (2 ^ 16).
  assert (Hs : forall i, 0 <= i -> (n / 2 ^ (16 * (i + 1))) * 2 ^ 16 + n / 2 ^ (16 * i) mod 2 ^ 16 = n / 2 ^ (16 * i)).
  { intros i Hi. replace (2 ^ (16 * (i + 1))) with (2 ^ (16 * i) * 2 ^ 16) by (rewrite <- Z.pow_add_r by lia; f_equal; lia).
    rewrite <- Z.div_div by lia. pose proof (Z.div_mod (n / 2 ^ (16 * i)) (2 ^ 16)). lia. }
  assert (H7 : n / 2 ^ (16 * 7) mod 2 ^ 16 = n / 2 ^ (16 * 7)).
  { apply Z.mod_small. split; [apply Z.div_pos; lia | apply Z.div_lt_upper_bound; lia]. }
  pose proof (Hs 6 ltac:(lia)) as H6. pose proof (Hs 5 ltac:(lia)) as H5. pose proof (Hs 4 ltac:(lia)) as H4.
  pose proof (Hs 3 ltac:(lia)) as H3. pose proof (Hs 2 ltac:(lia)) as H2. pose proof (Hs 1 ltac:(lia)) as H1. pose proof (Hs 0 ltac:(lia)) as H0.
  assert (Hz : n / 2 ^ (16 * 0) = n) by (by rewrite Z.mul_0_r, Z.pow_0_r, Z.div_1_r).
  rewrite Hz in *. clear Hs Hz. change (6 + 1) with 7 in *. change (5 + 1) with 6 in *. change (4 + 1) with 5 in *. change (3 + 1) with 4 in *.
  change (2 + 1) with 3 in *. change (1 + 1) with 2 in *. change (0 + 1) with 1 in *. lia.
Qed.

Definition floor_to (k n : Z) : Z := Z.shiftl (Z.shiftr n k) k.

Lemma floor_to_spec k n : 0 <= k -> 0 <= n -> floor_to k n = n - n mod 2 ^ k /\ 0 <= floor_to k n <= n /\ floor_to k n mod 2 ^ k = 0.
Proof.
  intros Hk Hn. unfold floor_to. rewrite Z.shiftl_mul_pow2, Z.shiftr_div_pow2 by done.
  assert (0 < 2 ^ k) by (apply Z.pow_pos_nonneg; lia). pose proof (Z.div_mod n (2 ^ k) ltac:(lia)).
  pose proof (Z.mod_pos_bound n (2 ^ k) ltac:(lia)). split_ands; [lia | | | apply Z.mod_mul; lia]; [apply Z.mul_nonneg_nonneg; [apply Z.div_pos |]; lia | lia].
Qed.

Lemma lor_bit a k : 0 <= k -> a mod 2 ^ (k + 1) = 0 -> Z.lor a (Z.shiftl 1 k) = a + 2 ^ k.
Proof.
  intros Hk Ha. rewrite Z.shiftl_1_l. assert (Hl : Z.land a (2 ^ k) = 0).
  { apply Z.bits_inj'. intros n Hn. rewrite Z.land_spec, Z.bits_0, Z.pow2_bits_eqb by done. destruct (k =? n) eqn:E; [| apply andb_false_r].
    bool_to_prop. subst n. rewrite andb_true_r. apply Z.mod_divide in Ha as [m ->]; [| apply Z.pow_nonzero; lia].
    apply Z.mul_pow2_bits_low. lia. }
  rewrite <- Z.lxor_lor by done. symmetry. by apply Z.add_nocarry_lxor.
Qed.

(** Setting the host bits one by one. *)
Lemma set_host_bits k : (k <= 128)%nat -> forall a, a mod 2 ^ Z.of_nat k = 0 ->
  fold_left (fun e i => Z.lor e (Z.shiftl 1 (127 - i))) (seqZ (128 - Z.of_nat k) (Z.of_nat k)) a = a + 2 ^ Z.of_nat k - 1.
Proof.
  induction k as [| k IH]; intros Hk a Ha; [simpl; lia |].
  rewrite seqZ_cons by lia. cbn [fold_left]. replace (127 - (128 - Z.of_nat (S k))) with (Z.of_nat k) by lia.
  rewrite Nat2Z.inj_succ in *. rewrite lor_bit by (try lia; by rewrite Z.add_1_r).
  replace (Z.succ (128 - Z.succ (Z.of_nat k))) with (128 - Z.of_nat k) by lia. replace (Z.pred (Z.succ (Z.of_nat k))) with (Z.of_nat k) by lia.
  rewrite IH; [rewrite Z.pow_succ_r by lia; lia | lia |].
  rewrite Z.pow_succ_r in Ha by lia. apply Z.mod_divide in Ha as [m ->]; [| assert (0 < 2 ^ Z.of_nat k) by (apply Z.pow_pos_nonneg; lia); lia].
  replace (m * (2 * 2 ^ Z.of_nat k) + 2 ^ Z.of_nat k) with ((2 * m + 1) * 2 ^ Z.of_nat k) by ring. apply Z.mod_mul.
  apply Z.pow_nonzero; lia.
Qed.

Lemma rangeOf_spec p : prefix_ok p -> let k := BitLen (px_addr p) - px_bits p in
  0 <= k <= 128 /\ ir_start (rangeOf p) = floor_to k (As16 (px_addr p)) /\
  ir_end (rangeOf p) = floor_to k (As16 (px_addr p)) + 2 ^ k - 1.
Proof.
  intros [Ha Hb] k. assert (Hk : 0 <= k <= 128) by (unfold k; destruct (px_addr p); cbn in *; lia). split; [done |].
  set (v := As16 (px_addr p)). pose proof (As16_range _ Ha) as Hv. fold v in Hv.
  destruct (floor_to_spec k v ltac:(lia) ltac:(lia)) as (Hf & Hfr & Hfm).
  assert (Hst : As16 (px_addr (Masked p)) = floor_to k v).
  { unfold Masked, k, v in *. destruct (px_addr p) as [n | g z]; cbn [addr_ok BitLen As16 px_addr px_bits] in *.
    - fold (floor_to (32 - px_bits p) n). destruct (floor_to_spec (32 - px_bits p) n ltac:(lia) ltac:(lia)) as (-> & _). rewrite Hf.
      assert ((65535 * 2 ^ 32 + n) mod 2 ^ (32 - px_bits p) = n mod 2 ^ (32 - px_bits p)) as ->; [| lia].
      replace (65535 * 2 ^ 32) with ((65535 * 2 ^ px_bits p) * 2 ^ (32 - px_bits p))
        by (rewrite <- Z.mul_assoc, <- Z.pow_add_r by lia; f_equal; f_equal; lia).
      rewrite Z.add_comm. apply Z.mod_add, Z.pow_nonzero; lia.
    - apply groups_of_value. fold (floor_to (128 - px_bits p) (group_value g)). lia. }
  unfold rangeOf. cbn [ir_start ir_end]. rewrite Hst. split; [done |].
  assert (Hbits : (match px_addr (Masked p) with V4 _ => px_bits (Masked p) + 96 | V6 _ _ => px_bits (Masked p) end) = 128 - k).
  { unfold Masked, k. destruct (px_addr p); cbn; lia. }
  rewrite Hbits. replace (128 - (128 - k)) with k by lia. rewrite <- (Z2Nat.id k) at 1 2 by lia.
  rewrite set_host_bits; [by rewrite Z2Nat.id by lia | lia | by rewrite Z2Nat.id by lia].
Qed.

Lemma floor_range k x v : 0 <= k -> 0 <= x -> 0 <= v ->
  (Z.shiftr x k = Z.shiftr v k <-> floor_to k v <= x <= floor_to k v + 2 ^ k - 1).
Proof.
  intros Hk Hx Hv. unfold floor_to. rewrite Z.shiftl_mul_pow2, !Z.shiftr_div_pow2 by done.
  assert (0 < 2 ^ k) by (apply Z.pow_pos_nonneg; lia). pose proof (Z.div_mod x (2 ^ k) ltac:(lia)). pose proof (Z.mod_pos_bound x (2 ^ k) ltac:(lia)).
  split; [intros <-; lia |]. intros Hr. symmetry. apply (Z.div_unique x (2 ^ k) (v / 2 ^ k) (x - v / 2 ^ k * 2 ^ k)); lia.
Qed.

(** A prefix covers the addresses of its range. *)
Lemma covered_range p a : prefix_ok p -> addr_ok a ->
  (covered p a <-> ir_start (rangeOf p) <= As16 a <= ir_end (rangeOf p)).
Proof.
  intros Hp Ha. destruct (rangeOf_spec p Hp) as (Hk & -> & ->). unfold covered. apply floor_range; [lia | by apply As16_range |].
  apply As16_range, Hp.
Qed.

(** ** Merging *)
Definition inside (x : Z) (r : ipRange) : Prop := ir_start r <= x <= ir_end r.
Definition hit (x : Z) (rs : list ipRange) : Prop := exists r, r ∈ rs /\ inside x r.

(** Newest first: every range is proper and starts after the end of the one
    before it. *)
Fixpoint separated (merged : list ipRange) : Prop :=
  match merged with
  | [] => True
  | r :: rest => ir_start r <= ir_end r /\ (forall q, q ∈ rest -> ir_end q < ir_start r) /\ separated rest
  end.

Lemma hit_app x a b : hit x (a ++ b) <-> hit x a \/ hit x b.
Proof. unfold hit. setoid_rewrite elem_of_app. naive_solver. Qed.

Lemma hit_cons x r rs : hit x (r :: rs) <-> inside x r \/ hit x rs.
Proof. unfold hit. setoid_rewrite elem_of_cons. naive_solver. Qed.

Lemma hit_nil x : ~ hit x [].
Proof. intros (r & Hr & _). by apply not_elem_of_nil in Hr. Qed.

Lemma merge_ranges_spec rs : forall merged, separated merged -> Forall (fun r => ir_start r <= ir_end r) rs -> StronglySorted start_le rs ->
  (forall r last, r ∈ rs -> head merged = Some last -> ir_start last <= ir_start r) ->
  exists out, merge_ranges rs merged = rev out /\ separated out /\ forall x, hit x out <-> hit x rs \/ hit x merged.
Proof.
  induction rs as [| r rs IH]; intros merged Hsep Hok Hsort Hhead; cbn [merge_ranges].
  - exists merged. split_ands; try done. intros x. pose proof (hit_nil x). naive_solver.
  - apply Forall_cons in Hok as [Hr Hok]. apply StronglySorted_inv in Hsort as [Hsort Hle]. rewrite Forall_forall in Hle.
    destruct merged as [| last before].
    + destruct (IH [r]) as (out & Ho & Hs & Hh); try done; [cbn; split_ands; [done | by intros ? ?%not_elem_of_nil | done] |
        intros r' last Hr' [= <-]; by apply Hle |].
      exists out. split_ands; try done. intros x. rewrite Hh, !hit_cons. pose proof (hit_nil x). naive_solver.
    + cbn [separated] in Hsep. destruct Hsep as (Hl & Hb & Hsep). pose proof (Hhead r last ltac:(by left) eq_refl) as Hlr.
      destruct (ir_start r <=? ir_end last) eqn:E; bool_to_prop.
      * set (last' := if ir_end last <? ir_end r then mk_range (ir_start last) (ir_end r) else last).
        assert (Hl' : ir_start last' = ir_start last /\ ir_end last' = Z.max (ir_end last) (ir_end r)).
        { unfold last'. destruct (_ <? _) eqn:E2; bool_to_prop; cbn; lia. }
        destruct Hl' as [Hl1 Hl2]. destruct (IH (last' :: before)) as (out & Ho & Hs & Hh); try done.
        { cbn [separated]. rewrite Hl1, Hl2. split_ands; [lia | done | done]. }
        { intros r' q Hr' [= <-]. rewrite Hl1. transitivity (ir_start r); [done | by apply Hle]. }
        exists out. split_ands; try done. intros x. rewrite Hh, !hit_cons.
        assert (inside x last' <-> inside x last \/ inside x r) as ->; [| naive_solver]. unfold inside. rewrite Hl1, Hl2. lia.
      * destruct (IH (r :: last :: before)) as (out & Ho & Hs & Hh); try done.
        { cbn [separated]. split_ands; try done. intros q [-> | Hq]%elem_of_cons; [lia | specialize (Hb q Hq); lia]. }
        { intros r' q Hr' [= <-]. by apply Hle. }
        exists out. split_ands; try done. intros x. rewrite Hh, !hit_cons. naive_solver.
Qed.

(** ** Bisection *)
Lemma search_spec f n : forall fuel i j, (forall a b, (a <= b < n)%nat -> f a = true -> f b = true) -> (i <= j <= n)%nat -> (j - i <= fuel)%nat ->
  (forall h, (h < i)%nat -> f h = false) -> (forall h, (j <= h < n)%nat -> f h = true) ->
  let r := search fuel f i j in (i <= r <= j)%nat /\ (forall h, (h < r)%nat -> f h = false) /\ (forall h, (r <= h < n)%nat -> f h = true).
Proof.
  intros fuel. induction fuel as [| fuel IH]; intros i j Hmono Hij Hf Hlow Hhigh; cbn [search].
  - assert (i = j) as <- by lia. split_ands; [lia | lia | done | done].
  - destruct (i <? j)%nat eqn:E.
    + apply Nat.ltb_lt in E. assert (Hh : (i <= Nat.div2 (i + j) < j)%nat).
      { rewrite Nat.div2_div. split; [apply Nat.div_le_lower_bound; lia | apply Nat.Div0.div_lt_upper_bound; lia]. }
      destruct (f (Nat.div2 (i + j))) eqn:Ef.
      * destruct (IH i (Nat.div2 (i + j)) Hmono ltac:(lia) ltac:(lia) Hlow) as (H1 & H2 & H3); [| split_ands; try done; lia].
        intros h Hh'. apply (Hmono (Nat.div2 (i + j))); [lia | done].
      * destruct (IH (S (Nat.div2 (i + j))) j Hmono ltac:(lia) ltac:(lia)) as (H1 & H2 & H3); [| done | split_ands; try done; lia].
        intros h Hh'. apply not_true_iff_false. intros Ht. rewrite (Hmono h (Nat.div2 (i + j))) in Ef by (lia || done). done.
    + apply Nat.ltb_ge in E. split_ands; [lia | lia | done | intros h Hh; apply Hhigh; lia].
Qed.

Lemma separated_lookup out i j ri rj : separated out -> rev out !! i = Some ri -> rev out !! j = Some rj -> (i < j)%nat ->
  ir_start ri <= ir_end ri < ir_start rj.
Proof.
  induction out as [| r out IH]; intros Hs Hi Hj Hij; [done |]. destruct Hs as (Hr & Hb & Hs). cbn [rev] in *.
  pose proof (lookup_lt_Some _ _ _ Hj) as Hlt. rewrite length_app in Hlt. cbn [length] in Hlt.
  rewrite lookup_app_l in Hi by lia. destruct (decide (j = length (rev out))) as [-> | Hne].
  - rewrite list_lookup_middle in Hj by done. injection Hj as <-. apply list_elem_of_lookup_2 in Hi as Hin. apply list_elem_of_In, in_rev, list_elem_of_In in Hin.
    split; [| by apply Hb]. clear -Hin Hs. induction out as [| q out IH]; [by apply not_elem_of_nil in Hin |].
    destruct Hs as (Hq & _ & Hs). apply elem_of_cons in Hin as [-> | Hin]; [done | by apply IH].
  - rewrite lookup_app_l in Hj by lia. by apply IH.
Qed.

Lemma separated_proper out r : separated out -> r ∈ out -> ir_start r <= ir_end r.
Proof. induction out as [| q out IH]; intros Hs Hr; [by apply not_elem_of_nil in Hr |]. destruct Hs as (Hq & _ & Hs). apply elem_of_cons in Hr as [-> | Hr]; auto. Qed.

(** Bisection over separated ranges finds the one range that can hold the
    address. *)
Lemma set_Contains_separated out a : separated out -> (set_Contains (rev out) a = true <-> hit (As16 a) out).
Proof.
  intros Hs. set (s := rev out). set (f := fun i => match s !! i with Some r => As16 a <? ir_start r | None => true end).
  assert (Hstart : forall i j ri rj, s !! i = Some ri -> s !! j = Some rj -> (i <= j)%nat -> ir_start ri <= ir_start rj).
  { intros i j ri rj Hi Hj Hij. destruct (decide (i = j)) as [-> |]; [simplify_eq; lia |].
    pose proof (separated_lookup out i j ri rj Hs Hi Hj ltac:(lia)). lia. }
  destruct (search_spec f (length s) (S (length s)) 0 (length s)) as (Hr & Hlow & Hhigh); try lia.
  { intros x y Hxy. unfold f. destruct (s !! x) as [rx |] eqn:Ex; [| apply lookup_ge_None in Ex; lia].
    destruct (s !! y) as [ry |] eqn:Ey; [| done]. pose proof (Hstart x y rx ry Ex Ey ltac:(lia)). rewrite !Z.ltb_lt. lia. }
  assert (Hhit : hit (As16 a) out <-> exists i r, s !! i = Some r /\ inside (As16 a) r).
  { unfold hit, s. split.
    - intros (r & Hin & Hx). apply list_elem_of_In, in_rev, list_elem_of_In, list_elem_of_lookup in Hin as [i Hi]. eauto.
    - intros (i & r & Hi & Hx). apply list_elem_of_lookup_2, list_elem_of_In, in_rev, list_elem_of_In in Hi. eauto. }
  rewrite Hhit. unfold set_Contains. cbv zeta. fold f. change (Search (length s) f) with (search (S (length s)) f 0 (length s)).
  set (r := search (S (length s)) f 0 (length s)) in *. destruct r as [| i] eqn:Er.
  - split; [done |]. intros (j & q & Hj & Hx1 & Hx2). specialize (Hhigh j). unfold f in Hhigh. rewrite Hj in Hhigh.
    assert (As16 a < ir_start q); [| lia]. apply Z.ltb_lt, Hhigh. apply lookup_lt_Some in Hj. lia.
  - assert (Hi : is_Some (s !! i)) by (apply lookup_lt_is_Some; lia). destruct Hi as [q Hq]. rewrite Hq.
    specialize (Hlow i ltac:(lia)). unfold f in Hlow. rewrite Hq in Hlow. bool_to_prop. rewrite Z.leb_le. split.
    + intros Hx. exists i, q. done.
    + intros (j & q' & Hj & Hx1 & Hx2). destruct (decide (j = i)) as [-> | Hne]; [by simplify_eq |].
      destruct (decide (j < i)%nat) as [Hlt | Hge].
      * pose proof (separated_lookup out j i q' q Hs Hj Hq Hlt). lia.
      * specialize (Hhigh j). unfold f in Hhigh. rewrite Hj in Hhigh. assert (As16 a < ir_start q'); [| lia].
        apply Z.ltb_lt, Hhigh. apply lookup_lt_Some in Hj. lia.
Qed.

(** ** Membership *)
Lemma newRangeSet_covers ps a : Forall prefix_ok ps -> addr_ok a ->
  (set_Contains (newRangeSet ps) a = true <-> exists p, p ∈ ps /\ covered p a).
Proof.
  intros Hps Ha. unfold newRangeSet. set (rs := merge_sort start_le (map rangeOf ps)).
  assert (Hin : forall r, r ∈ rs <-> exists p, r = rangeOf p /\ p ∈ ps) by (intros r; unfold rs; by rewrite merge_sort_Permutation, list_elem_of_fmap).
  rewrite Forall_forall in Hps. destruct (merge_ranges_spec rs []) as (out & -> & Hs & Hh); try done.
  - apply Forall_forall. intros r (p & -> & Hp)%Hin. destruct (rangeOf_spec p (Hps p Hp)) as (Hk & -> & ->).
    assert (0 < 2 ^ (BitLen (px_addr p) - px_bits p)) by (apply Z.pow_pos_nonneg; lia). lia.
  - apply (StronglySorted_merge_sort start_le).
  - rewrite set_Contains_separated, Hh by done. split.
    + intros [(r & (p & -> & Hp)%Hin & Hx) | Hn]; [| by apply hit_nil in Hn].
      exists p. split; [done |]. by apply covered_range; [apply Hps | |].
    + intros (p & Hp & Hc). left. exists (rangeOf p). split; [apply Hin; eauto |]. by apply covered_range in Hc; [| apply Hps |].
Qed.


(** ** Parsed prefixes are well formed *)
Lemma groups_of_ok n : length (groups_of n) = 8%nat /\ Forall (fun x => 0 <= x < 2 ^ 16) (groups_of n).
Proof.
  split; [done |]. unfold groups_of. apply Forall_forall. intros x (i & -> & _)%list_elem_of_fmap. apply Z.mod_pos_bound. done.
Qed.

Lemma Masked_ok p : prefix_ok p -> prefix_ok (Masked p).
Proof.
  intros [Ha Hb]. destruct p as [[n | g z] bits]; cbn [px_addr px_bits BitLen] in *; unfold Masked; cbn [px_addr px_bits]; (split; [| done]); cbn [px_addr addr_ok].
  - destruct (floor_to_spec (32 - bits) n) as (_ & Hf & _); [lia | apply Ha |]. unfold floor_to in Hf. cbn in Ha. lia.
  - apply groups_of_ok.
Qed.

Lemma withoutZone_ok a : addr_ok a -> addr_ok (withoutZone a).
Proof. by destruct a. Qed.
Lemma BitLen_withoutZone a : BitLen (withoutZone a) = BitLen a.
Proof. by destruct a. Qed.
Lemma PrefixFrom_ok a bits : addr_ok a -> 0 <= bits <= BitLen a -> prefix_ok (PrefixFrom a bits).
Proof. intros Ha Hb. split; cbn; [by apply withoutZone_ok | by rewrite BitLen_withoutZone]. Qed.

Lemma ParsePrefix_ok s p : ParsePrefix s = Some p -> prefix_ok p.
Proof.
  unfold ParsePrefix. destruct (split_last _ s) as [[ip bits] |]; [| done]. cbn. destruct (ParseAddr ip) as [a |] eqn:Ea; [| done]. cbn.
  destruct (hasZone a); [done |]. destruct (parse_bits bits) as [n |]; [| done]. cbn. destruct ((n <? 0) || (BitLen a <? n)) eqn:E; [done |].
  intros [= <-]. apply orb_false_iff in E. rewrite !Z.ltb_ge in E. apply PrefixFrom_ok; [by eapply ParseAddr_ok | lia].
Qed.

Lemma ParseList_ok `{Unicode} lines : Forall prefix_ok (ParseList lines).1.
Proof.
  cbn. apply Forall_forall. intros p (l & _ & Hl)%list_elem_of_omap. unfold parse_line in Hl. cbv zeta in Hl. set (t := TrimSpace (cut_comment l)) in Hl.
  destruct (bool_decide (t = [])); [done |]. destruct (contains _ t); cbn in Hl.
  - destruct (ParsePrefix t) as [q |] eqn:Eq; cbn in Hl; [| done]. injection Hl as <-. by eapply Masked_ok, ParsePrefix_ok.
  - destruct (ParseAddr t) as [a |] eqn:Ea; cbn in Hl; [| done]. injection Hl as <-. apply PrefixFrom_ok; [by eapply ParseAddr_ok |]. by destruct a; cbn.
Qed.

(** * Properties *)

(** C37: The sorted merged range set with its binary search contains an address
    exactly when some prefix of the list covers it. *)
Theorem range_set_contains_exact ps a : Forall prefix_ok ps -> addr_ok a ->
  (set_Contains (newRangeSet ps) a = true <-> exists p, p ∈ ps /\ covered p a).
Proof. apply newRangeSet_covers. Qed.

(** Two overlapping blocks, one inside a third, and an IPv6 one. *)
Definition ex_prefixes : list Prefix :=
  [mk_prefix (V4 167772160) 9; mk_prefix (V4 171966464) 10; mk_prefix (V6 [8193; 3512; 0; 0; 0; 0; 0; 0] []) 32; mk_prefix (V4 167838208) 24].

Example ex_prefixes_parsed :
  omap ParsePrefix [lit "10.0.0.0/9"; lit "10.64.0.0/10"; lit "2001:db8::/32"; lit "10.1.2.0/24"; lit "10.0.0.0/09"] = ex_prefixes.
Proof. vm_compute. reflexivity. Qed.

Theorem range_set_contains_exact_witness : set_Contains (newRangeSet ex_prefixes) (V4 (10 * 2 ^ 24 + 5)) = true.
Proof.
  apply (range_set_contains_exact ex_prefixes (V4 (10 * 2 ^ 24 + 5))).
  - assert (H6 : addr_ok (V6 [8193; 3512; 0; 0; 0; 0; 0; 0] [])) by (split; [reflexivity | repeat (apply Forall_cons; split; [lia |]); apply Forall_nil; done]).
    unfold ex_prefixes. do 4 (apply Forall_cons; split; [split; [first [exact H6 | cbn; lia] | cbn; lia] |]). by apply Forall_nil.
  - cbn. lia.
  - exists (mk_prefix (V4 (10 * 2 ^ 24)) 9). split; [unfold ex_prefixes; by left | vm_compute; reflexivity].
Defined.
