(* ===== verification/HeaderExempt.v ===== *)
(** * Header-shaped proof-of-work exemptions (core/headerexempt/headerexempt.go)

    Configured header predicates, their validation, the matcher, and the claims
    a JWT predicate demands.  The JWT library is the class [JWTLib], with what it
    documents of its parser in [JWTLibLaws]; reading key files is the parameter
    [load].  A verifier is kept as the function it answers a request with, so a
    cache is built for the clock readings [clk] its library calls will take. *)

From S2P Require Export UrlPath Sha256 Base64.

Definition MaxPredicates : Z := 8.
Definition MaxHeaderBytes : Z := 4096.
Definition MaxPublicKeys : Z := 2.
Definition defaultMaxLen : Z := 1024.
Definition VerifierNone : gostring := lit "none".
Definition VerifierJWTEdDSA : gostring := lit "jwt_eddsa".

Record VerifierConfig := mk_vcfg {
  vc_Type : gostring;
  vc_PublicKeys : list gostring;
  vc_Issuer : gostring;
  vc_Audience : gostring;
  vc_MaxLifetime : Z
}.

Record PredicateConfig := mk_pcfg {
  pc_Header : gostring;
  pc_Prefix : gostring;
  pc_RequireValue : bool;
  pc_MaxLength : Z;
  pc_Verifier : VerifierConfig
}.

(** ** Validation *)
Definition token_char (c : ascii) : bool :=
  let v := byteZ c in
  ((97 <=? v) && (v <=? 122)) || ((65 <=? v) && (v <=? 90)) || ((48 <=? v) && (v <=? 57)) || contains c (lit "!#$%&'*+-.^_`|~").

Definition validHeaderName (s : gostring) : bool := negb (bool_decide (s = [])) && forallb token_char s.

Definition hasInvalidFieldValueByte (s : gostring) : bool :=
  existsb (fun c => let v := byteZ c in (v =? 127) || ((v <? 32) && negb (v =? 9))) s.

Inductive header_error :=
| TooManyPredicates
| BadHeaderName (i : nat)
| DerivedHeader (i : nat)
| PrefixControl (i : nat)
| BadMaxLength (i : nat)
| PrefixTooLong (i : nat)
| NoneWithFields (i : nat)
| BadKeyCount (i : nat)
| BadKeys (i : nat)
| NoIssuer (i : nat)
| BadLifetime (i : nat)
| BadVerifier (i : nat).

(** ** The JWT library *)

(** A token's header, [jt_kid] absent, or present as a string or as something
    else; its claims, times in unix seconds; the options of the parser. *)
Record jwt_header := mk_jheader { jt_Alg : gostring; jt_kid : option (option gostring) }.
Record jwtClaims := mk_claims {
  cl_GuardianHost : gostring;
  cl_GuardianPath : gostring;
  cl_Issuer : gostring;
  cl_Audience : list gostring;
  cl_IssuedAt : option Z;
  cl_ExpiresAt : option Z
}.
Record jwt_options := mk_joptions {
  jo_ValidMethods : list gostring;
  jo_ExpirationRequired : bool;
  jo_IssuedAt : bool;
  jo_Issuer : gostring;
  jo_Audience : gostring
}.

(** [parse_with_claims now raw keyfunc options]: the claims when the library,
    reading its clock at [now], accepts the token; its header and the
    verification of its signature under a public key. *)
Class JWTLib := {
  parse_with_claims : Z -> gostring -> (jwt_header -> option gostring) -> jwt_options -> option jwtClaims;
  token_header : gostring -> option jwt_header;
  signature_valid : gostring -> gostring -> bool
}.

(** What the library documents of an accepted token: the key function gave the
    key its signature verifies under, for a header with a valid method; it is
    unexpired, the expiry being there when required; with [WithIssuedAt] it was
    not issued in the future; and it is of the issuer and audience asked for. *)
Class JWTLibLaws `{JWTLib} := {
  parse_key now raw keyfunc o c : parse_with_claims now raw keyfunc o = Some c ->
    exists h key, token_header raw = Some h /\ jt_Alg h ∈ jo_ValidMethods o /\ keyfunc h = Some key /\ signature_valid raw key = true;
  parse_expiry now raw keyfunc o c : parse_with_claims now raw keyfunc o = Some c ->
    (jo_ExpirationRequired o = true -> is_Some (cl_ExpiresAt c)) /\ forall exp, cl_ExpiresAt c = Some exp -> now < exp * second;
  parse_issued now raw keyfunc o c : parse_with_claims now raw keyfunc o = Some c ->
    jo_IssuedAt o = true -> forall iat, cl_IssuedAt c = Some iat -> iat * second <= now;
  parse_issuer now raw keyfunc o c : parse_with_claims now raw keyfunc o = Some c ->
    (jo_Issuer o <> [] -> cl_Issuer c = jo_Issuer o) /\ (jo_Audience o <> [] -> jo_Audience o ∈ cl_Audience c)
}.

Section HeaderExempt.
Context `{Unicode}.
Open Scope go_scope.

Definition validate_verifier (i : nat) (v : VerifierConfig) : outcome header_error VerifierConfig :=
  if bool_decide (vc_Type v = []) || bool_decide (vc_Type v = VerifierNone) then
    if negb (bool_decide (vc_PublicKeys v = [])) || negb (bool_decide (vc_Issuer v = [])) ||
       negb (bool_decide (vc_Audience v = [])) || negb (vc_MaxLifetime v =? 0)
    then Err (NoneWithFields i)
    else Ok (mk_vcfg VerifierNone (vc_PublicKeys v) (vc_Issuer v) (vc_Audience v) (vc_MaxLifetime v))
  else if bool_decide (vc_Type v = VerifierJWTEdDSA) then
    if let n := Z.of_nat (length (vc_PublicKeys v)) in (n <? 1) || (MaxPublicKeys <? n) then Err (BadKeyCount i)
    else if bool_decide ([] ∈ vc_PublicKeys v) ||
            match vc_PublicKeys v with [a; b] => bool_decide (a = b) | _ => false end then Err (BadKeys i)
    else if bool_decide (TrimSpace (vc_Issuer v) = []) || bool_decide (TrimSpace (vc_Audience v) = []) then Err (NoIssuer i)
    else if (vc_MaxLifetime v <=? 0) || (24 * hour <? vc_MaxLifetime v) then Err (BadLifetime i)
    else Ok v
  else Err (BadVerifier i).

(** One predicate, its defaults filled in. *)
Definition validate_predicate (i : nat) (p : PredicateConfig) : outcome header_error PredicateConfig :=
  if negb (validHeaderName (pc_Header p)) then Err (BadHeaderName i) else
  let nameLower := ToLower (pc_Header p) in
  if bool_decide (nameLower = lit "host") || has_prefix (lit "x-guardian-") nameLower then Err (DerivedHeader i)
  else if hasInvalidFieldValueByte (pc_Prefix p) then Err (PrefixControl i)
  else
    let maxLength := if pc_MaxLength p =? 0 then defaultMaxLen else pc_MaxLength p in
    if (maxLength <? 1) || (MaxHeaderBytes <? maxLength) then Err (BadMaxLength i)
    else if maxLength <? len (pc_Prefix p) then Err (PrefixTooLong i)
    else let! v := validate_verifier i (pc_Verifier p) in
         Ok (mk_pcfg (pc_Header p) (pc_Prefix p) (pc_RequireValue p) maxLength v).

Fixpoint validate_all (i : nat) (ps : list PredicateConfig) : outcome header_error (list PredicateConfig) :=
  match ps with
  | [] => Ok []
  | p :: rest => let! p := validate_predicate i p in let! rest := validate_all (S i) rest in Ok (p :: rest)
  end.

Definition NormalizeAndValidate (ps : list PredicateConfig) : outcome header_error (list PredicateConfig) :=
  if MaxPredicates <? Z.of_nat (length ps) then Err TooManyPredicates else validate_all 0 ps.

(** ** Matching *)

(** The getter answers the values of a header, none for an absent one. *)
Record Request := mk_hreq { hr_Host : gostring; hr_Path : gostring; hr_Header : option (gostring -> list gostring) }.

Inductive Outcome := OutcomeMatched | OutcomeAbsent | OutcomeMalformed | OutcomeAmbiguous | OutcomeOversized | OutcomeVerifierFailed.
Record Result_ := mk_hres { hx_Matched : bool; hx_Outcome : Outcome; hx_Verifier : gostring }.

Definition outcomeRank (o : Outcome) : Z :=
  match o with OutcomeOversized => 4 | OutcomeAmbiguous => 3 | OutcomeVerifierFailed => 2 | OutcomeMalformed => 1 | _ => 0 end.
Definition stronger (a b : Result_) : Result_ := if outcomeRank (hx_Outcome a) <? outcomeRank (hx_Outcome b) then b else a.

(** A predicate's verifier: [None] for shape-only. *)
Record predicate := mk_predicate { pr_config : PredicateConfig; pr_verifier : option (gostring -> Request -> bool) }.

Definition absent : Result_ := mk_hres false OutcomeAbsent VerifierNone.

(** One predicate's answer; [None] moves on without an outcome. *)
Definition check_predicate (p : predicate) (header : gostring -> list gostring) (req : Request) : option Outcome :=
  let cfg := pr_config p in
  match header (pc_Header cfg) with
  | [] => None
  | [value] =>
    if pc_MaxLength cfg <? len value then Some OutcomeOversized
    else if bool_decide (value = []) || hasInvalidFieldValueByte value || negb (has_prefix (pc_Prefix cfg) value)
    then Some OutcomeMalformed
    else
      let token := drop (length (pc_Prefix cfg)) value in
      if pc_RequireValue cfg && bool_decide (token = []) then Some OutcomeMalformed
      else match pr_verifier p with
           | Some verify => if verify token req then Some OutcomeMatched else Some OutcomeVerifierFailed
           | None => Some OutcomeMatched
           end
  | _ => Some OutcomeAmbiguous
  end.

Fixpoint match_predicates (ps : list predicate) (header : gostring -> list gostring) (req : Request) (best : Result_) : Result_ :=
  match ps with
  | [] => best
  | p :: rest =>
    let verifierType := vc_Type (pc_Verifier (pr_config p)) in
    match check_predicate p header req with
    | None => match_predicates rest header req best
    | Some OutcomeMatched => mk_hres true OutcomeMatched verifierType
    | Some o => match_predicates rest header req (stronger best (mk_hres false o verifierType))
    end
  end.

(** The cache: matchers by variant key.  A nil cache is [None]. *)
Abbreviation Cache := (gmap gostring (list predicate)).

Definition Match (c : option Cache) (key : gostring) (req : Request) : Result_ :=
  match c, hr_Header req with
  | Some c, Some header =>
    match c !! key with Some ps => match_predicates ps header req absent | None => absent end
  | _, _ => absent
  end.

(** ** The JWT predicate *)
Definition boundPathMatches (bound requestPath : gostring) : bool :=
  if bool_decide (bound = []) || negb (has_prefix (lit "/") bound) || contains_any (lit "?#") bound then false
  else if negb (bool_decide (NormalizePath bound = bound)) then false
  else if has_suffix (lit "/") bound
  then has_prefix bound requestPath || bool_decide (requestPath = TrimSuffix (lit "/") bound)
  else bool_decide (requestPath = bound).

Definition EdDSA : gostring := lit "EdDSA".

Context `{JWTLib}.

Record verificationKey := mk_vkey { vk_id : gostring; vk_key : gostring }.
Definition key_of (key : gostring) : verificationKey := mk_vkey (b64_encode (Sum256 key)) key.

Definition pick_key (key : verificationKey) (h : jwt_header) : option gostring :=
  if negb (bool_decide (jt_Alg h = EdDSA)) then None
  else match jt_kid h with
       | None => Some (vk_key key)
       | Some (Some value) => if bool_decide (value = vk_id key) then Some (vk_key key) else None
       | Some None => None
       end.

Definition check_claims (cfg : VerifierConfig) (c : jwtClaims) (req : Request) : bool :=
  match cl_IssuedAt c, cl_ExpiresAt c with
  | Some iat, Some exp =>
    if (exp <=? iat) || (vc_MaxLifetime cfg <? (exp - iat) * second) then false
    else if negb (bool_decide (NormalizeHost (cl_GuardianHost c) = NormalizeHost (hr_Host req))) ||
            negb (boundPathMatches (cl_GuardianPath c) (hr_Path req)) then false
    else true
  | _, _ => false
  end.

(** [clk i] is the clock reading of the library's [i]-th call. *)
Fixpoint verify_keys (clk : clock) (i : nat) (cfg : VerifierConfig) (keys : list verificationKey) (raw : gostring) (req : Request) : bool :=
  match keys with
  | [] => false
  | key :: rest =>
    match parse_with_claims (clk i) raw (pick_key key) (mk_joptions [EdDSA] true true (vc_Issuer cfg) (vc_Audience cfg)) with
    | None => verify_keys clk (S i) cfg rest raw req
    | Some c => if check_claims cfg c req then true else verify_keys clk (S i) cfg rest raw req
    end
  end.

Definition Verify (clk : clock) (cfg : VerifierConfig) (keys : list verificationKey) (raw : gostring) (req : Request) : bool :=
  verify_keys clk 0 cfg keys raw req.

(** [NewCache], the keys of every verifier given by their file names. *)
Definition new_predicate (clk : clock) (load : gostring -> option gostring) (cfg : PredicateConfig) : option predicate :=
  if bool_decide (vc_Type (pc_Verifier cfg) = VerifierJWTEdDSA) then
    keys ← mapM load (vc_PublicKeys (pc_Verifier cfg));
    Some (mk_predicate cfg (Some (Verify clk (pc_Verifier cfg) (map key_of keys))))
  else Some (mk_predicate cfg None).

Fixpoint NewCache (clk : clock) (load : gostring -> option gostring) (variants : list (gostring * list PredicateConfig)) : option Cache :=
  match variants with
  | [] => Some ∅
  | (key, cfgs) :: rest =>
    ps ← mapM (new_predicate clk load) cfgs; c ← NewCache clk load rest; Some (<[key := ps]> c)
  end.
End HeaderExempt.

(** ** What a match takes *)
Section Proofs.
Context `{Unicode}.

(** The header's single value carries the prefix and a token the verifier, if
    any, accepts. *)
Definition shape (p : predicate) (header : gostring -> list gostring) (req : Request) : Prop :=
  let cfg := pr_config p in
  exists token, header (pc_Header cfg) = [pc_Prefix cfg ++ token] /\ pc_Prefix cfg ++ token <> [] /\
    len (pc_Prefix cfg ++ token) <= pc_MaxLength cfg /\ hasInvalidFieldValueByte (pc_Prefix cfg ++ token) = false /\
    (pc_RequireValue cfg = true -> token <> []) /\ (forall verify, pr_verifier p = Some verify -> verify token req = true).

Lemma check_predicate_matched p header req : check_predicate p header req = Some OutcomeMatched <-> shape p header req.
Proof.
  unfold check_predicate, shape. cbv zeta. destruct (header (pc_Header (pr_config p))) as [| value [| v2 vs]] eqn:Eh.
  - split; [done | by intros (t & ? & _)].
  - destruct (pc_MaxLength (pr_config p) <? len value) eqn:El.
    { split; [done |]. intros (t & [= ->] & _ & Hlen & _). bool_to_prop. lia. }
    destruct (bool_decide (value = []) || _ || _) eqn:Eb.
    { split; [done |]. intros (t & [= ->] & Hne & _ & Hinv & _). rewrite Hinv, has_prefix_app, bool_decide_eq_false_2 in Eb by done. done. }
    bool_to_prop. match goal with H : has_prefix _ _ = true |- _ => apply has_prefix_spec in H as [token ->] end.
    rewrite drop_app_length. match goal with H : bool_decide _ = false |- _ => apply bool_decide_eq_false in H end.
    destruct (pc_RequireValue (pr_config p) && bool_decide (token = [])) eqn:Er.
    { split; [done |]. intros (t & Ht & _ & _ & _ & Hreq & _). injection Ht as ->%app_inv_head. bool_to_prop.
      match goal with H : bool_decide _ = true |- _ => apply bool_decide_eq_true in H end. by destruct Hreq. }
    assert (Hreq : pc_RequireValue (pr_config p) = true -> token <> []).
    { intros Hr. rewrite Hr in Er. cbn in Er. by apply bool_decide_eq_false in Er. }
    destruct (pr_verifier p) as [verify |] eqn:Ev.
    + destruct (verify token req) eqn:Et; split; try done.
      * intros _. exists token. split_ands; try done. by intros ? [= <-].
      * intros (t & Ht & _ & _ & _ & _ & Hv). injection Ht as ->%app_inv_head. by rewrite (Hv verify eq_refl) in Et.
    + split; [| done]. intros _. by exists token.
  - split; [done | by intros (t & ? & _)].
Qed.

Lemma match_predicates_matched ps header req : forall best, hx_Matched best = false ->
  (hx_Matched (match_predicates ps header req best) = true <-> exists p, p ∈ ps /\ shape p header req).
Proof.
  induction ps as [| p ps IH]; intros best Hb; cbn [match_predicates].
  - rewrite Hb. split; [done | by intros (p & ?%not_elem_of_nil & _)].
  - assert (Hs : forall x, hx_Matched x = false -> check_predicate p header req <> Some OutcomeMatched ->
      (hx_Matched (match_predicates ps header req x) = true <-> exists q, q ∈ p :: ps /\ shape q header req)).
    { intros x Hx Hn. rewrite (IH x Hx). split; intros (q & Hq & Hsh); exists q; (split; [| done]); [by right |].
      apply elem_of_cons in Hq as [-> |]; [| done]. by apply check_predicate_matched in Hsh. }
    assert (Hst : forall o, hx_Matched (stronger best (mk_hres false o (vc_Type (pc_Verifier (pr_config p))))) = false)
      by (intros o; unfold stronger; by destruct (_ <? _)).
    destruct (check_predicate p header req) as [[] |] eqn:Ec; try (by apply Hs); [].
    split; [| done]. intros _. exists p. split; [by left | by apply check_predicate_matched].
Qed.

Definition outcome_rank_of (p : predicate) (header : gostring -> list gostring) (req : Request) : Z :=
  match check_predicate p header req with Some o => outcomeRank o | None => 0 end.

Lemma stronger_rank a b : outcomeRank (hx_Outcome (stronger a b)) = Z.max (outcomeRank (hx_Outcome a)) (outcomeRank (hx_Outcome b)).
Proof. unfold stronger. destruct (_ <? _) eqn:E; bool_to_prop; lia. Qed.

Lemma match_predicates_rank ps header req : forall best,
  hx_Matched (match_predicates ps header req best) = false ->
  outcomeRank (hx_Outcome (match_predicates ps header req best)) =
  foldr (fun p n => Z.max (outcome_rank_of p header req) n) (outcomeRank (hx_Outcome best)) ps.
Proof.
  assert (Hnn : forall p, 0 <= outcome_rank_of p header req) by (intros p; unfold outcome_rank_of; by destruct (check_predicate p header req) as [[] |]).
  assert (Hacc : forall ps a b, foldr (fun p n => Z.max (outcome_rank_of p header req) n) (Z.max a b) ps =
    Z.max b (foldr (fun p n => Z.max (outcome_rank_of p header req) n) a ps)).
  { induction ps0 as [| q qs IHq]; intros a b; cbn [foldr]; [lia |]. rewrite IHq. lia. }
  induction ps as [| p ps IH]; intros best; cbn [match_predicates foldr]; [done |].
  unfold outcome_rank_of at 1. assert (H0 : 0 <= foldr (fun p n => Z.max (outcome_rank_of p header req) n) (outcomeRank (hx_Outcome best)) ps).
  { clear IH. induction ps as [| q qs IHq]; cbn [foldr]; [by destruct (hx_Outcome best) |]. specialize (Hnn q). lia. }
  destruct (check_predicate p header req) as [[] |]; intros Hm; try done; rewrite IH by done;
    rewrite ?stronger_rank, ?Hacc; cbn [hx_Outcome outcomeRank] in *; lia.
Qed.

Lemma NewCache_lookup `{JWTLib} clk load variants c key ps : NewCache clk load variants = Some c -> c !! key = Some ps ->
  exists cfgs, (key, cfgs) ∈ variants /\ mapM (new_predicate clk load) cfgs = Some ps.
Proof.
  revert c. induction variants as [| [k cfgs] rest IH]; intros c; cbn [NewCache]; [intros [= <-]; by rewrite lookup_empty |].
  destruct (mapM (new_predicate clk load) cfgs) as [qs |] eqn:Em; [| done]. cbn. destruct (NewCache clk load rest) as [c0 |]; [| done].
  cbn. intros [= <-] Hk. apply lookup_insert_Some in Hk as [[<- <-] | [_ Hk]].
  - exists cfgs. split; [by left | done].
  - destruct (IH c0 eq_refl Hk) as (cs & Hin & Hm). exists cs. split; [by right | done].
Qed.

(** *** What an accepted token says *)

(** The path a token is bound to covers a request path: the same path, or, ending in a slash,
    itself without the slash or anything below it. *)
Definition covers (bound path : gostring) : Prop :=
  path = bound \/ exists d, bound = d ++ lit "/" /\ (path = d \/ exists rest, path = bound ++ rest).

Lemma boundPathMatches_covers bound path : boundPathMatches bound path = true ->
  (exists rest, bound = lit "/" ++ rest) /\ "?"%char ∉ bound /\ "#"%char ∉ bound /\ NormalizePath bound = bound /\ covers bound path.
Proof.
  unfold boundPathMatches, covers. destruct (_ || _) eqn:E; [done |]. apply orb_false_iff in E as [E Ec]. apply orb_false_iff in E as [_ Ep].
  apply negb_false_iff, has_prefix_spec in Ep. case_bool_decide as En; [| done]. cbn [negb].
  assert (Hno : forall ch, ch ∈ lit "?#" -> ch ∉ bound).
  { intros ch Hch Hin. apply not_true_iff_false in Ec. apply Ec. apply existsb_exists. exists ch.
    split; [by apply list_elem_of_In | by apply bool_decide_eq_true]. }
  intros Hm. split_ands; [done | apply Hno; by left | apply Hno; by right; left | done |].
  destruct (has_suffix (lit "/") bound) eqn:Es; [| left; by apply bool_decide_eq_true in Hm].
  unfold has_suffix in Es. pose proof Es as Ess. apply has_prefix_spec in Es as [r Hr]. right. exists (rev r).
  assert (Hd : bound = rev r ++ lit "/") by (by rewrite <- (rev_involutive bound), Hr, rev_app_distr).
  split; [done |]. apply orb_true_iff in Hm as [Hm | Hm].
  - right. by apply has_prefix_spec in Hm.
  - left. apply bool_decide_eq_true in Hm. rewrite Hm. unfold TrimSuffix. rewrite Ess, Hd, length_app, Nat.add_sub. by rewrite take_app_length.
Qed.

(** The token is the work of one public key of the verifier. *)
Lemma verify_keys_some `{JWTLib} clk cfg keys raw req i : verify_keys clk i cfg keys raw req = true ->
  exists j key c, key ∈ keys /\
    parse_with_claims (clk j) raw (pick_key key) (mk_joptions [EdDSA] true true (vc_Issuer cfg) (vc_Audience cfg)) = Some c /\
    check_claims cfg c req = true.
Proof.
  revert i. induction keys as [| key keys IH]; intros i; cbn [verify_keys]; [done |].
  assert (Hrest : verify_keys clk (S i) cfg keys raw req = true -> exists j k c, k ∈ key :: keys /\
    parse_with_claims (clk j) raw (pick_key k) (mk_joptions [EdDSA] true true (vc_Issuer cfg) (vc_Audience cfg)) = Some c /\ check_claims cfg c req = true).
  { intros (j & k & c & Hk & Hc)%IH. exists j, k, c. split; [by right | done]. }
  destruct (parse_with_claims _ _ _ _) as [c |] eqn:Ep; [| done]. destruct (check_claims cfg c req) eqn:Ec; [| done].
  intros _. exists i, key, c. split; [by left | done].
Qed.

Lemma validated_verifier i v v' : validate_verifier i v = Ok v' -> vc_Type v' = VerifierJWTEdDSA ->
  vc_Issuer v' <> [] /\ vc_Audience v' <> [] /\ 0 < vc_MaxLifetime v' <= 24 * hour.
Proof.
  unfold validate_verifier. intros Hv Ht. case_match; [case_match; [done |]; by simplify_eq |]. case_bool_decide; [| done].
  cbv zeta in Hv.
  destruct (bool_decide (TrimSpace (vc_Issuer v) = []) || bool_decide (TrimSpace (vc_Audience v) = [])) eqn:Ei; [repeat case_match; done |].
  destruct ((vc_MaxLifetime v <=? 0) || (24 * hour <? vc_MaxLifetime v)) eqn:El; [repeat case_match; done |].
  assert (v' = v) as -> by (repeat case_match; congruence).
  apply orb_false_iff in Ei as [E1%bool_decide_eq_false E2%bool_decide_eq_false]. bool_to_prop. split_ands; try lia; [intros E; by rewrite E in E1 | intros E; by rewrite E in E2].
Qed.

Lemma validated_predicate ps cfg : NormalizeAndValidate ps = Ok cfg -> forall p, p ∈ cfg -> vc_Type (pc_Verifier p) = VerifierJWTEdDSA ->
  vc_Issuer (pc_Verifier p) <> [] /\ vc_Audience (pc_Verifier p) <> [] /\ 0 < vc_MaxLifetime (pc_Verifier p) <= 24 * hour.
Proof.
  unfold NormalizeAndValidate. destruct (_ <? _); [done |]. generalize 0%nat. revert cfg. induction ps as [| q ps IH]; intros cfg n; cbn [validate_all].
  - intros [= <-] p Hp. by apply not_elem_of_nil in Hp.
  - destruct (validate_predicate n q) as [q' |] eqn:Eq; [| done]. destruct (validate_all (S n) ps) as [rest |] eqn:Er; [| done].
    cbn. intros [= <-] p [-> | Hp]%elem_of_cons; [| by apply (IH rest (S n))].
    unfold validate_predicate in Eq. repeat (case_match; [done |]). destruct (validate_verifier n (pc_Verifier q)) as [v |] eqn:Ev; [| done].
    cbn in Eq. injection Eq as <-. cbn [pc_Verifier]. by apply (validated_verifier n (pc_Verifier q)).
Qed.
End Proofs.

(** * Properties *)

(** An exemption without a verifier is granted exactly when some predicate
    of the variant sees one header value with its prefix, a length in its
    range and no control byte. *)
Theorem header_exemption_needs_exact_shape `{Unicode} c key ps host path header :
  c !! key = Some ps ->
  let req := mk_hreq host path (Some header) in
  let r := Match (Some c) key req in
  (hx_Matched r = true <-> exists p, p ∈ ps /\ shape p header req) /\
  (hx_Matched r = false -> outcomeRank (hx_Outcome r) = foldr (fun p n => Z.max (outcome_rank_of p header req) n) 0 ps).
Proof.
  intros Hk req r. unfold r, Match. cbn [hr_Header req]. rewrite Hk. split; [by apply match_predicates_matched |].
  intros Hm. by rewrite match_predicates_rank.
Qed.

(** C29: Under validated predicates, a request exempted through a JWT predicate
    carries, in the predicate's header and after its prefix, a token that is EdDSA-signed under
    the public key of one of the predicate's files, whose key id, if it names one, is that
    key's fingerprint; that at the library's clock was issued and not expired,
    lives at most the configured lifetime (at most 24 hours), is of the configured issuer and
    audience, and is bound to the request's host and to a normalized path that is the
    request's, or ends in a slash and is above it. *)
Theorem jwt_exemption_bound_to_host_and_path `{Unicode, JWTLib, !JWTLibLaws} clk load variants c key host path header :
  (forall key cfgs, (key, cfgs) ∈ variants -> exists ps, NormalizeAndValidate ps = Ok cfgs) ->
  NewCache clk load variants = Some c ->
  hx_Matched (Match (Some c) key (mk_hreq host path (Some header))) = true ->
  exists cfgs cfg token, (key, cfgs) ∈ variants /\ cfg ∈ cfgs /\ header (pc_Header cfg) = [pc_Prefix cfg ++ token] /\
  let v := pc_Verifier cfg in
  (vc_Type v = VerifierJWTEdDSA -> exists file raw h now claims iat exp,
    file ∈ vc_PublicKeys v /\ load file = Some raw /\
    token_header token = Some h /\ jt_Alg h = lit "EdDSA" /\ (forall kid, jt_kid h = Some kid -> kid = Some (b64_encode (Sum256 raw))) /\
    signature_valid token raw = true /\
    (exists i keyfunc o, now = clk i /\ parse_with_claims now token keyfunc o = Some claims) /\
    cl_IssuedAt claims = Some iat /\ cl_ExpiresAt claims = Some exp /\ iat * second <= now < exp * second /\
    (exp - iat) * second <= vc_MaxLifetime v <= 24 * hour /\ cl_Issuer claims = vc_Issuer v /\ vc_Audience v ∈ cl_Audience claims /\
    NormalizeHost (cl_GuardianHost claims) = NormalizeHost host /\
    NormalizePath (cl_GuardianPath claims) = cl_GuardianPath claims /\ covers (cl_GuardianPath claims) path).
Proof.
  intros Hval Hc Hm. unfold Match in Hm. cbn [hr_Header] in Hm. destruct (c !! key) as [ps |] eqn:Ek; [| done].
  apply match_predicates_matched in Hm as (p & Hp & Hsh); [| done]. destruct (NewCache_lookup _ _ _ _ _ _ Hc Ek) as (cfgs & Hin & Hmap).
  apply mapM_Some in Hmap. apply list_elem_of_lookup in Hp as [i Hi]. destruct (Forall2_lookup_r _ _ _ _ _ Hmap Hi) as (cfg & Hcfg & Hnew).
  assert (Hcin : cfg ∈ cfgs) by (apply list_elem_of_lookup; by exists i). unfold new_predicate in Hnew.
  exists cfgs, cfg. cbv zeta. case_bool_decide as Hjwt; [| injection Hnew as <-; destruct Hsh as (token & Hh & _); exists token; split_ands; done].
  destruct (mapM load _) as [raws |] eqn:Er; [| done]. cbn in Hnew. injection Hnew as <-.
  destruct Hsh as (token & Hh & _ & _ & _ & _ & Hv). exists token. split_ands; try done. intros _. specialize (Hv _ eq_refl). cbn [pr_config] in *.
  destruct (Hval _ _ Hin) as [ps0 Hps]. destruct (validated_predicate _ _ Hps _ Hcin Hjwt) as (Hiss & Haud & Hlife).
  destruct (verify_keys_some _ _ _ _ _ _ Hv) as (j & k & claims & Hk & Hparse & Hchk).
  apply list_elem_of_In, in_map_iff in Hk as (raw & <- & Hraw).
  destruct (parse_key _ _ _ _ _ Hparse) as (h & kk & Hh' & Halg & Hpick & Hsig).
  destruct (parse_issuer _ _ _ _ _ Hparse) as [Hi1 Hi2]. cbn [jo_Issuer jo_Audience jo_ValidMethods] in *.
  unfold pick_key in Hpick. case_bool_decide as Ha; [| done]. cbn [negb] in Hpick.
  unfold check_claims in Hchk. destruct (cl_IssuedAt claims) as [iat |] eqn:Ei; [| done]. destruct (cl_ExpiresAt claims) as [exp |] eqn:Ee; [| done].
  destruct (_ || _) eqn:Et in Hchk; [done |]. destruct (_ || _) eqn:Eb in Hchk; [done |]. apply orb_false_iff in Eb as [Ehost Epath].
  apply negb_false_iff, bool_decide_eq_true in Ehost. apply negb_false_iff, boundPathMatches_covers in Epath as (_ & _ & _ & Hnorm & Hcov).
  pose proof (proj2 (parse_expiry _ _ _ _ _ Hparse) _ Ee) as Hexp. pose proof (parse_issued _ _ _ _ _ Hparse eq_refl _ Ei) as Hiat.
  apply mapM_Some in Er. apply list_elem_of_In, list_elem_of_lookup in Hraw as [n Hn].
  destruct (Forall2_lookup_r _ _ _ _ _ Er Hn) as (file & Hfile & Hload). bool_to_prop.
  assert (Hkk : kk = raw /\ forall kid, jt_kid h = Some kid -> kid = Some (b64_encode (Sum256 raw))).
  { destruct (jt_kid h) as [[value |] |]; [| done | by injection Hpick as <-].
    case_bool_decide as Ev; [| done]. injection Hpick as <-. split; [done |]. intros kid [= <-]. by rewrite Ev. }
  destruct Hkk as [-> Hkid]. exists file, raw, h, (clk j), claims, iat, exp. split_ands; try done; try lia.
  - apply list_elem_of_lookup. by exists n.
  - by eexists _, _, _.
  - by apply Hi1.
  - by apply Hi2.
Qed.

Module Ex.
#[export] Existing Instance ascii_only.
Definition vcfg : VerifierConfig := mk_vcfg VerifierJWTEdDSA [lit "edge.pem"] (lit "edge") (lit "guardian") hour.
Definition cfg : PredicateConfig := mk_pcfg (lit "Authorization") (lit "Bearer ") true 64 vcfg.
(** A library for one issuer, whose tokens name their key and have no key id. *)
Definition claims : jwtClaims := mk_claims (lit "Example.org:443") (lit "/api/") (lit "edge") [lit "guardian"] (Some 1000) (Some 4600).
Definition bearer : jwt_header := mk_jheader EdDSA None.
Definition signed_by (raw key : gostring) : bool := bool_decide (raw = lit "signed.by." ++ key).
#[export] Instance toy_jwt : JWTLib := {
  parse_with_claims now raw keyfunc o :=
    key ← keyfunc bearer;
    if signed_by raw key && (1000 * second <=? now) && (now <? 4600 * second) && bool_decide (EdDSA ∈ jo_ValidMethods o) &&
       bool_decide (jo_Issuer o = lit "edge") && bool_decide (jo_Audience o = lit "guardian")
    then Some claims else None;
  token_header _ := Some bearer;
  signature_valid := signed_by
}.
#[export] Instance toy_jwt_laws : JWTLibLaws.
Proof.
  assert (Hall : forall now raw keyfunc o c, parse_with_claims now raw keyfunc o = Some c ->
    c = claims /\ (exists key, keyfunc bearer = Some key /\ signed_by raw key = true) /\ 1000 * second <= now < 4600 * second /\
    EdDSA ∈ jo_ValidMethods o /\ jo_Issuer o = lit "edge" /\ jo_Audience o = lit "guardian").
  { intros now raw keyfunc o c. cbn [parse_with_claims toy_jwt]. destruct (keyfunc bearer) as [key |]; [| done]. cbn [mbind option_bind].
    destruct (_ && _) eqn:E; [| done]. intros [= <-]. apply andb_prop in E as [E Ea%bool_decide_eq_true]. apply andb_prop in E as [E Ei%bool_decide_eq_true].
    apply andb_prop in E as [E Em%bool_decide_eq_true]. apply andb_prop in E as [E E2%Z.ltb_lt]. apply andb_prop in E as [E1 E3%Z.leb_le].
    split_ands; try done. by exists key. }
  constructor; intros now raw keyfunc o c Hp; destruct (Hall _ _ _ _ _ Hp) as (-> & (key & Hk & Hs) & Ht & Hm & Hi & Ha).
  - by exists bearer, key.
  - split; [by intros _; eexists |]. intros exp [= <-]. lia.
  - intros _ iat [= <-]. lia.
  - split; intros _; [by rewrite Hi | rewrite Ha; by left].
Qed.
Definition clk : clock := fun _ => 2000 * second.
Definition load (file : gostring) : option gostring := Some (lit "K1").
Definition header (name : gostring) : list gostring := if bool_decide (name = lit "Authorization") then [lit "Bearer signed.by.K1"] else [].
Definition cache : option (gmap gostring (list predicate)) := NewCache clk load [(lit "v", [cfg])].
Definition loaded : gmap gostring (list predicate) :=
  <[lit "v" := [mk_predicate cfg (Some (Verify clk vcfg (map key_of [lit "K1"])))]]> ∅.
End Ex.

Section Witnesses.
Import Ex.
Example predicate_valid : NormalizeAndValidate [Ex.cfg] = Ok [Ex.cfg].
Proof. vm_compute. reflexivity. Qed.

Theorem header_exemption_needs_exact_shape_witness :
  hx_Matched (Match (Some {[ lit "v" := [mk_predicate Ex.cfg None] ]}) (lit "v") (mk_hreq (lit "example.org") (lit "/") (Some Ex.header))) = true.
Proof.
  apply (header_exemption_needs_exact_shape {[ lit "v" := [mk_predicate Ex.cfg None] ]} (lit "v") [mk_predicate Ex.cfg None] (lit "example.org") (lit "/") Ex.header).
  - by vm_compute.
  - exists (mk_predicate Ex.cfg None). split; [by left |]. exists (lit "signed.by.K1"). split_ands; try (vm_compute; done).
Defined.

Lemma jwt_exemption_bound_to_host_and_path_witness :
  hx_Matched (Match Ex.cache (lit "v") (mk_hreq (lit "example.org") (lit "/api/x") (Some Ex.header))) = true /\
  exists claims, parse_with_claims (2000 * second) (lit "signed.by.K1") (fun _ => Some (lit "K1")) (mk_joptions [EdDSA] true true (lit "edge") (lit "guardian")) = Some claims /\
    cl_Issuer claims = lit "edge" /\ covers (cl_GuardianPath claims) (lit "/api/x").
Proof.
  assert (Hm : hx_Matched (Match Ex.cache (lit "v") (mk_hreq (lit "example.org") (lit "/api/x") (Some Ex.header))) = true) by (vm_compute; reflexivity).
  split; [exact Hm |].
  assert (Hc : Ex.cache = Some Ex.loaded) by reflexivity. rewrite Hc in Hm.
  destruct (jwt_exemption_bound_to_host_and_path Ex.clk Ex.load [(lit "v", [Ex.cfg])] Ex.loaded (lit "v") (lit "example.org") (lit "/api/x") Ex.header)
    as (cfgs & cfg & token & Hin & Hcfg & Hh & Hjwt); [| exact Hc | exact Hm |].
  { intros k l Hin. apply list_elem_of_singleton in Hin. injection Hin as -> ->. exists [Ex.cfg]. vm_compute. reflexivity. }
  apply list_elem_of_singleton in Hin. injection Hin as ->. apply list_elem_of_singleton in Hcfg. subst cfg.
  destruct (Hjwt eq_refl) as (file & raw & h & now & claims & iat & exp & _ & _ & _ & _ & _ & _ & (i & kf & o & _ & Hp) & _ & _ & _ & _ & Hiss & _ & _ & _ & Hcov).
  exists claims. split; [| split; [exact Hiss | exact Hcov]].
  assert (Hcl : claims = Ex.claims).
  { cbn [parse_with_claims Ex.toy_jwt] in Hp. destruct (kf Ex.bearer); [| discriminate Hp]. cbn [mbind option_bind] in Hp.
    destruct (_ && _) in Hp; [by injection Hp as <- | discriminate Hp]. }
  rewrite Hcl. vm_compute. reflexivity.
Defined.
End Witnesses.
