(* ===== verification/BotVerify.v ===== *)
(** * Verified crawlers (core/botverify/botverify.go, local.go)

    Reverse DNS with forward confirmation, the record it is cached under in the
    shared store, and the bounded local cache.  The resolver is a parameter; a
    verification in flight is modelled by its leader, whose answer the
    followers share.  A shard of the local cache is its recency list, most
    recent first; which shard an address falls into is a parameter (a random
    hash seed). *)

From S2P Require Export UrlPath StoreClient.

Inductive Status := StatusError | StatusConfirmed | StatusNone.
#[global] Instance Status_eq_dec : EqDecision Status.
Proof. solve_decision. Defined.

Record Identity := mk_identity { id_status : Status; id_hostnames : list gostring }.

Definition maxPTRs : nat := 5.
Definition errTTL : Z := 30 * second.
Definition keyPrefix : gostring := lit "botdns:".
Definition cacheOK : gostring := lit "ok:".
Definition cacheNone : gostring := lit "none".
Definition cacheErr : gostring := lit "err".

Definition MatchesDomains (r : Identity) (domains : list gostring) : bool :=
  existsb (fun h => existsb (fun d => bool_decide (h = d) || has_suffix ("."%char :: d) h) domains) (id_hostnames r).

(** ** Resolution *)

(** A lookup finds records, finds definitively none, or fails. *)
Inductive dns (A : Type) := Found (a : A) | NotFound | Failed.
Arguments Found {A} a.
Arguments NotFound {A}.
Arguments Failed {A}.

Class Resolver := {
  LookupAddr : gostring -> dns (list gostring);
  LookupIPAddr : gostring -> dns (list addr)
}.

(** One cached identity; a shard is its recency list. *)
Record localEntry := mk_lentry { le_addr : addr; le_identity : Identity; le_expires : Z }.
Abbreviation localShard := (list localEntry).

Section BotVerify.
Context `{Unicode, Resolver}.

Definition ptr_host (ptr : gostring) : gostring := ToLower (TrimSuffix (lit ".") ptr).

(** One PTR name: the confirmed names so far, and whether a lookup failed. *)
Definition confirm (target : addr) (acc : list gostring * bool) (ptr : gostring) : list gostring * bool :=
  let '(confirmed, transient) := acc in
  let host := ptr_host ptr in
  if bool_decide (host = []) then (confirmed, transient)
  else match LookupIPAddr host with
       | NotFound => (confirmed, transient)
       | Failed => (confirmed, true)
       | Found addrs => (if existsb (fun a => bool_decide (Unmap a = target)) addrs then confirmed ++ [host] else confirmed, transient)
       end.

Definition resolve (ip : gostring) : Identity :=
  match ParseAddr ip with
  | None => mk_identity StatusError []
  | Some target =>
    match LookupAddr ip with
    | NotFound => mk_identity StatusNone []
    | Failed => mk_identity StatusError []
    | Found ptrs =>
      let '(confirmed, transient) := fold_left (confirm (Unmap target)) (take maxPTRs ptrs) ([], false) in
      match confirmed with
      | _ :: _ => mk_identity StatusConfirmed confirmed
      | [] => if transient : bool then mk_identity StatusError [] else mk_identity StatusNone []
      end
    end
  end.

(** ** The shared record *)
Definition encodeCacheRecord (r : Identity) : gostring :=
  match id_status r with
  | StatusConfirmed => cacheOK ++ UrlPath.join (lit ",") (id_hostnames r)
  | StatusNone => cacheNone
  | StatusError => cacheErr
  end.

Definition host_ok (host : gostring) : bool :=
  negb (bool_decide (host = []) || (253 <? len host) || negb (bool_decide (host = ToLower host)) ||
        contains_any [" "%char; Zbyte 9; Zbyte 13; Zbyte 10] host || has_suffix (lit ".") host).

(** [None] is an invalid record. *)
Definition decodeCacheRecord (raw : gostring) : option Identity :=
  if has_prefix cacheOK raw then
    let hosts := split_on ","%char (drop (length cacheOK) raw) in
    if (maxPTRs <? length hosts)%nat then None
    else if forallb host_ok hosts then Some (mk_identity StatusConfirmed hosts) else None
  else if bool_decide (raw = cacheNone) then Some (mk_identity StatusNone [])
  else if bool_decide (raw = cacheErr) then Some (mk_identity StatusError [])
  else None.

(** ** The local cache *)
Definition localShards : nat := 32.
Definition localPerShard : nat := 256.

Definition lookup_entry (a : addr) (s : localShard) : option localEntry := snd <$> list_find (fun e => le_addr e = a) s.
Definition remove_entry (a : addr) (s : localShard) : localShard := List.filter (fun e => negb (bool_decide (le_addr e = a))) s.

(** [get] of the overload path: [busy] when the shard's lock is contended. *)
Definition get_shed (a : addr) (busy : bool) (now : Z) (s : localShard) : option Identity :=
  if busy then None
  else e ← lookup_entry a s; if now <? le_expires e then Some (le_identity e) else None.

Definition get (a : addr) (now : Z) (s : localShard) : option Identity * localShard :=
  match lookup_entry a s with
  | None => (None, s)
  | Some e =>
    if negb (now <? le_expires e) then (None, remove_entry a s)
    else (Some (le_identity e), e :: remove_entry a s)
  end.

(** [expires] is [None] for the zero time. *)
Definition put (a : addr) (res : Identity) (expires : option Z) (now : Z) (s : localShard) : localShard :=
  match expires with
  | None => s
  | Some exp =>
    if negb (now <? exp) then s
    else
      let e := mk_lentry a res exp in
      if lookup_entry a s is Some _ then e :: remove_entry a s
      else
        let s := if (localPerShard <=? length s)%nat then
                   let s := List.filter (fun e => now <? le_expires e) s in
                   if (localPerShard <=? length s)%nat then removelast s else s
                 else s in
        e :: s
  end.

Record localCache := mk_lcache { lc_shards : list localShard }.
Definition newLocalCache : localCache := mk_lcache (replicate localShards []).

Variable shard_of : addr -> nat.

Definition shard (c : localCache) (a : addr) : localShard := default [] (lc_shards c !! shard_of a).
Definition with_shard (a : addr) (s : localShard) (c : localCache) : localCache := mk_lcache (<[shard_of a := s]> (lc_shards c)).

Definition LookupCached (ip : gostring) (busy : bool) (now : Z) (c : localCache) : option Identity :=
  a ← ParseAddr ip; get_shed (Unmap a) busy now (shard c (Unmap a)).

(** ** Verification *)
Record Options := mk_options { op_CacheTTL : Z; op_NegativeTTL : Z }.

(** What the store holds for the address: read with its expiry, or without one
    where the backend cannot tell. *)
Inductive stored :=
| WithExpiry (kv : result (option (gostring * option Z)))
| ValueOnly (v : result (option gostring)).

(** A stored answer, and the expiry the local cache may keep it until. *)
Definition read_stored (now : Z) (st : stored) : option (Identity * option Z) :=
  match st with
  | WithExpiry (Ok (Some (raw, expires))) =>
    res ← decodeCacheRecord raw;
    if match expires with None => true | Some e => now <? e end then Some (res, expires) else None
  | ValueOnly (Ok (Some raw)) => res ← decodeCacheRecord raw; Some (res, None)
  | _ => None
  end.

(** A resolution, cached: the reply, the local cache, and the record written to
    the store with its lifetime.  [full]: the concurrency cap is reached. *)
Definition resolveAndCache (ip : gostring) (opts : Options) (full : bool) (now : Z) (c : localCache)
  : Identity * localCache * option (gostring * gostring * Z) :=
  if full then (mk_identity StatusError [], c, None)
  else
    let res := resolve ip in
    let ttl := match id_status res with StatusConfirmed => op_CacheTTL opts | StatusNone => op_NegativeTTL opts | StatusError => errTTL end in
    let c := match ParseAddr ip with
             | Some a => with_shard (Unmap a) (put (Unmap a) res (Some (now + ttl)) now (shard c (Unmap a))) c
             | None => c
             end in
    (res, c, Some (keyPrefix ++ ip, encodeCacheRecord res, ttl)).

Definition Verify (ip : gostring) (opts : Options) (st : stored) (full : bool) (now : Z) (c : localCache)
  : Identity * localCache * option (gostring * gostring * Z) :=
  let opts := mk_options (if op_CacheTTL opts <=? 0 then 12 * hour else op_CacheTTL opts)
                (if op_NegativeTTL opts <=? 0 then hour else op_NegativeTTL opts) in
  match ParseAddr ip with
  | None => (mk_identity StatusError [], c, None)
  | Some a =>
    let a := Unmap a in
    let '(hit, s) := get a now (shard c a) in
    let c := with_shard a s c in
    match hit with
    | Some i => (i, c, None)
    | None =>
      match read_stored now st with
      | Some (res, expires) => (res, with_shard a (put a res expires now (shard c a)) c, None)
      | None => resolveAndCache ip opts full now c
      end
    end
  end.
End BotVerify.

(** ** Resolution: what a verdict rests on *)
Section Resolution.
Context `{Unicode, Resolver}.

Definition forward_confirmed (target : addr) (host : gostring) : Prop :=
  exists addrs, LookupIPAddr host = Found addrs /\ exists a, a ∈ addrs /\ Unmap a = target.

(** A name that definitively does not confirm. *)
Definition refuted (target : addr) (ptr : gostring) : Prop :=
  ptr_host ptr = [] \/ LookupIPAddr (ptr_host ptr) = NotFound \/
  exists addrs, LookupIPAddr (ptr_host ptr) = Found addrs /\ forall a, a ∈ addrs -> Unmap a <> target.

Lemma existsb_target target addrs : existsb (fun a => bool_decide (Unmap a = target)) addrs = true <-> exists a, a ∈ addrs /\ Unmap a = target.
Proof.
  rewrite existsb_exists. split; intros (a & Ha & Hu); exists a; (split; [by apply list_elem_of_In |]); [by apply bool_decide_eq_true in Hu | by apply bool_decide_eq_true].
Qed.

Lemma confirm_fold target ptrs : forall confirmed transient confirmed' transient',
  fold_left (confirm target) ptrs (confirmed, transient) = (confirmed', transient') ->
  (exists more, confirmed' = confirmed ++ more /\
     Forall (fun h => exists ptr, ptr ∈ ptrs /\ h = ptr_host ptr /\ h <> [] /\ forward_confirmed target h) more) /\
  (transient' = false -> transient = false /\ (confirmed' = confirmed -> Forall (refuted target) ptrs)).
Proof.
  induction ptrs as [| ptr ptrs IH]; intros confirmed transient confirmed' transient'; cbn [fold_left].
  { intros [= <- <-]. split; [exists []; by rewrite app_nil_r | done]. }
  assert (Hskip : forall tr, fold_left (confirm target) ptrs (confirmed, tr) = (confirmed', transient') ->
    (tr = transient /\ refuted target ptr) \/ tr = true ->
    (exists more, confirmed' = confirmed ++ more /\
       Forall (fun h => exists p, p ∈ ptr :: ptrs /\ h = ptr_host p /\ h <> [] /\ forward_confirmed target h) more) /\
    (transient' = false -> transient = false /\ (confirmed' = confirmed -> Forall (refuted target) (ptr :: ptrs)))).
  { intros tr Hf Htr. destruct (IH _ _ _ _ Hf) as [(more & -> & Hm) Ht]. split.
    - exists more. split; [done |]. eapply Forall_impl; [exact Hm |]. intros h (p & Hp & ?). exists p. split; [by right | done].
    - intros Hfalse. destruct (Ht Hfalse) as [-> Hall]. destruct Htr as [[<- Hr] | ?]; [| done]. split; [done |].
      intros Heq. constructor; [done | by apply Hall]. }
  unfold confirm at 2. case_bool_decide as He.
  { intros Hf. apply (Hskip transient Hf). left. split; [done | by left]. }
  destruct (LookupIPAddr (ptr_host ptr)) as [addrs | |] eqn:El.
  - destruct (existsb _ addrs) eqn:Ex.
    + intros Hf. destruct (IH _ _ _ _ Hf) as [(more & -> & Hm) Ht]. split.
      * exists (ptr_host ptr :: more). rewrite <- app_assoc. split; [done |]. constructor.
        -- exists ptr. split_ands; [by left | done | done |]. exists addrs. split; [done | by apply existsb_target].
        -- eapply Forall_impl; [exact Hm |]. intros h (p & Hp & ?). exists p. split; [by right | done].
      * intros Hfalse. split; [by destruct (Ht Hfalse) |]. intros Hlen%(f_equal length). rewrite !length_app in Hlen. cbn in Hlen. lia.
    + intros Hf. apply (Hskip transient Hf). left. split; [done |]. right. right. exists addrs. split; [done |].
      intros a Ha Hu. assert (existsb (fun a => bool_decide (Unmap a = target)) addrs = true) by (apply existsb_target; eauto). congruence.
  - intros Hf. apply (Hskip transient Hf). left. split; [done | by right; left].
  - intros Hf. apply (Hskip true Hf). by right.
Qed.

Lemma resolve_spec ip : match id_status (resolve ip) with
  | StatusConfirmed => id_hostnames (resolve ip) <> [] /\ exists target ptrs, ParseAddr ip = Some target /\ LookupAddr ip = Found ptrs /\
      Forall (fun h => exists ptr, ptr ∈ take maxPTRs ptrs /\ h = ptr_host ptr /\ h <> [] /\ forward_confirmed (Unmap target) h) (id_hostnames (resolve ip))
  | StatusNone => id_hostnames (resolve ip) = [] /\ exists target, ParseAddr ip = Some target /\
      (LookupAddr ip = NotFound \/ exists ptrs, LookupAddr ip = Found ptrs /\ Forall (refuted (Unmap target)) (take maxPTRs ptrs))
  | StatusError => id_hostnames (resolve ip) = []
  end.
Proof.
  unfold resolve. destruct (ParseAddr ip) as [target |]; [| done]. destruct (LookupAddr ip) as [ptrs | |]; [| cbn; split; [done |]; exists target; by split; [| left] | done].
  destruct (fold_left _ _ _) as [confirmed transient] eqn:Ef. destruct (confirm_fold _ _ _ _ _ _ Ef) as [(more & -> & Hm) Ht]. cbn [app].
  destruct more as [| h more]; cbn [id_status id_hostnames].
  - destruct transient; [done |]. cbn. split; [done |]. exists target. split; [done |]. right. exists ptrs. split; [done |]. by apply Ht.
  - split; [done |]. by exists target, ptrs.
Qed.
End Resolution.

(** ** The record *)
Lemma split_on_join c xs : xs <> [] -> Forall (fun x => c ∉ x) xs -> split_on c (UrlPath.join [c] xs) = xs.
Proof.
  intros Hne Hx. induction Hx as [| x xs Hc Hx IH]; [done |].
  assert (Hpre : forall tail, split_on c (x ++ tail) = match split_on c tail with h :: t => (x ++ h) :: t | [] => [x] end).
  { clear IH Hne. induction x as [| d x IHx]; intros tail; cbn [app split_on].
    - destruct (split_on c tail) eqn:E; [| done]. by destruct tail as [| e tail]; cbn in E; [| destruct (Ascii.eqb e c); [| destruct (split_on c tail)]].
    - apply not_elem_of_cons in Hc as [Hd Hc]. destruct (Ascii.eqb d c) eqn:E; [apply Ascii.eqb_eq in E; congruence |].
      rewrite (IHx Hc). destruct (split_on c tail) eqn:E2; [| done]. by destruct tail as [| e tail]; cbn in E2; [| destruct (Ascii.eqb e c); [| destruct (split_on c tail)]]. }
  destruct xs as [| y ys]; cbn [UrlPath.join].
  - rewrite <- (app_nil_r x) at 1. rewrite Hpre. cbn. by rewrite app_nil_r.
  - rewrite Hpre. cbn [app split_on]. rewrite Ascii.eqb_refl. rewrite app_nil_r. f_equal. by apply IH.
Qed.

Lemma join_split_on c s : UrlPath.join [c] (split_on c s) = s /\ split_on c s <> [].
Proof.
  induction s as [| d s [IH Hne]]; [done |]. cbn [split_on]. destruct (Ascii.eqb d c) eqn:E.
  - apply Ascii.eqb_eq in E as ->. split; [| done]. destruct (split_on c s) as [| h t]; [done |].
    change (UrlPath.join [c] ([] :: h :: t)) with (c :: UrlPath.join [c] (h :: t)). by rewrite IH.
  - destruct (split_on c s) as [| h t]; [done |]. split; [| done]. destruct t; cbn [UrlPath.join] in *; by rewrite <- IH.
Qed.

(** What the shared record can carry. *)
Definition record_ok `{Unicode} (r : Identity) : Prop :=
  match id_status r with
  | StatusConfirmed => id_hostnames r <> [] /\ (length (id_hostnames r) <= maxPTRs)%nat /\
      Forall (fun h => host_ok h = true /\ ","%char ∉ h) (id_hostnames r)
  | _ => id_hostnames r = []
  end.

(** ** The local cache *)
Section LocalCache.
Inductive cache_op :=
| CGet (a : addr) (now : Z)
| CPut (a : addr) (res : Identity) (expires : option Z) (now : Z).

Definition run_op (s : localShard) (op : cache_op) : localShard :=
  match op with CGet a now => (get a now s).2 | CPut a res expires now => put a res expires now s end.

(** Distinct addresses within the bound, every entry as some [put] gave it. *)
Definition shard_inv (ops : list cache_op) (s : localShard) : Prop :=
  NoDup (map le_addr s) /\ (length s <= localPerShard)%nat /\
  Forall (fun e => exists now, CPut (le_addr e) (le_identity e) (Some (le_expires e)) now ∈ ops) s.

Lemma filter_addrs (f : localEntry -> bool) (s : localShard) : NoDup (map le_addr s) -> NoDup (map le_addr (List.filter f s)).
Proof.
  induction s as [| e s IH]; [done |]. cbn [map List.filter]. intros [He Hs]%NoDup_cons. destruct (f e); [| by apply IH].
  cbn [map]. apply NoDup_cons. split; [| by apply IH]. intros Hin. apply He.
  apply list_elem_of_fmap in Hin as (x & Hx & Hin). apply list_elem_of_fmap. exists x. split; [done |].
  apply list_elem_of_In in Hin. apply filter_In in Hin as [Hin _]. by apply list_elem_of_In.
Qed.

Lemma shard_inv_filter ops f s : shard_inv ops s -> shard_inv ops (List.filter f s).
Proof.
  intros (Hn & Hl & Hf). unfold shard_inv. split_ands; [by apply filter_addrs | |].
  - pose proof (filter_length_le f s). lia.
  - rewrite Forall_forall in Hf |- *. intros e He. apply Hf. apply list_elem_of_In in He. apply filter_In in He as [He _]. by apply list_elem_of_In.
Qed.

Lemma remove_not_in a s : a ∉ map le_addr (remove_entry a s).
Proof.
  intros Hin. apply list_elem_of_fmap in Hin as (e & -> & He). apply list_elem_of_In in He. apply filter_In in He as [_ Hb].
  rewrite bool_decide_eq_true_2 in Hb; done.
Qed.

Lemma lookup_entry_Some a s e : lookup_entry a s = Some e -> le_addr e = a /\ e ∈ s.
Proof.
  unfold lookup_entry. destruct (list_find _ s) as [[i x] |] eqn:E; [| done]. intros [= <-]. apply list_find_Some in E as (Hi & Ha & _).
  split; [done |]. by eapply list_elem_of_lookup_2.
Qed.

Lemma lookup_entry_None a s : lookup_entry a s = None -> a ∉ map le_addr s.
Proof.
  unfold lookup_entry. destruct (list_find _ s) as [[i x] |] eqn:E; [done |]. intros _ Hin. apply list_elem_of_fmap in Hin as (e & -> & He).
  apply list_find_None in E. rewrite Forall_forall in E. by apply (E e).
Qed.

Lemma remove_entry_length a e s : e ∈ s -> le_addr e = a -> (length (remove_entry a s) < length s)%nat.
Proof.
  induction s as [| x s IH]; [by intros ?%not_elem_of_nil |]. intros [-> | He]%elem_of_cons Ha; cbn [remove_entry List.filter].
  - rewrite bool_decide_eq_true_2 by done. cbn [negb length]. pose proof (filter_length_le (fun e => negb (bool_decide (le_addr e = a))) s). lia.
  - specialize (IH He Ha). unfold remove_entry in IH. destruct (negb _); cbn [length]; lia.
Qed.

Lemma shard_inv_push ops a e s : shard_inv ops (remove_entry a s) -> (length (remove_entry a s) < localPerShard)%nat -> le_addr e = a ->
  (exists now, CPut a (le_identity e) (Some (le_expires e)) now ∈ ops) -> shard_inv ops (e :: remove_entry a s).
Proof.
  intros (Hn & Hl & Hf) Hlt Ha He. unfold shard_inv. split_ands; [| cbn; lia | by constructor; [rewrite Ha |]].
  cbn [map]. rewrite Ha. apply NoDup_cons. split; [apply remove_not_in | done].
Qed.

Lemma remove_entry_absent a s : a ∉ map le_addr s -> remove_entry a s = s.
Proof.
  induction s as [| x s IH]; [done |]. cbn [map]. intros [Hx Hs]%not_elem_of_cons. cbn [remove_entry List.filter].
  rewrite bool_decide_eq_false_2 by congruence. cbn [negb]. f_equal. by apply IH.
Qed.

Lemma shard_inv_removelast ops s : shard_inv ops s -> shard_inv ops (removelast s).
Proof.
  intros (Hn & Hl & Hf). destruct s as [| x s _] using rev_ind; [done |]. rewrite removelast_last.
  rewrite map_app in Hn. rewrite length_app in Hl. apply NoDup_app in Hn as (? & _ & _). apply Forall_app in Hf as [? _]. unfold shard_inv. split_ands; try done. lia.
Qed.

Lemma run_op_inv ops s op : shard_inv ops s -> shard_inv (ops ++ [op]) (run_op s op).
Proof.
  intros Hinv. assert (Hinv' : shard_inv (ops ++ [op]) s).
  { destruct Hinv as (Hn & Hl & Hf). unfold shard_inv. split_ands; try done. eapply Forall_impl; [exact Hf |]. intros e [now Hin]. exists now. by apply elem_of_app; left. }
  clear Hinv. destruct op as [a now | a res expires now]; cbn [run_op].
  - unfold get. destruct (lookup_entry a s) as [e |] eqn:El; [| done]. apply lookup_entry_Some in El as [Ha He].
    destruct (negb _); cbn [snd]; [by apply shard_inv_filter |]. pose proof (remove_entry_length a e s He Ha).
    pose proof Hinv' as (Hn & Hl & Hf). apply shard_inv_push; [by apply shard_inv_filter | lia | done |].
    rewrite Forall_forall in Hf. destruct (Hf e He) as [n0 Hn0]. exists n0. by rewrite Ha in Hn0.
  - unfold put. destruct expires as [exp |]; [| done]. destruct (negb _); [done |]. set (e := mk_lentry a res exp).
    assert (Hnew : exists now0, CPut a (le_identity e) (Some (le_expires e)) now0 ∈ ops ++ [CPut a res (Some exp) now])
      by (exists now; apply elem_of_app; right; by left).
    destruct (lookup_entry a s) as [old |] eqn:El.
    + apply lookup_entry_Some in El as [Ha He]. pose proof (remove_entry_length a old s He Ha). pose proof Hinv' as (Hn & Hl & Hf).
      apply shard_inv_push; [by apply shard_inv_filter | lia | done | done].
    + apply lookup_entry_None in El.
      set (s' := if (localPerShard <=? length s)%nat then _ else s).
      assert (Hs' : shard_inv (ops ++ [CPut a res (Some exp) now]) s' /\ (length s' < localPerShard)%nat /\ a ∉ map le_addr s').
      { unfold s'. destruct (localPerShard <=? length s)%nat eqn:E1; [| apply Nat.leb_gt in E1; by split_ands].
        set (live := List.filter _ s). assert (Hlive : shard_inv (ops ++ [CPut a res (Some exp) now]) live) by (by apply shard_inv_filter).
        assert (Hsub : forall x, x ∈ map le_addr live -> x ∈ map le_addr s).
        { intros x (y & -> & Hy)%list_elem_of_fmap. apply list_elem_of_fmap. exists y. split; [done |].
          apply list_elem_of_In in Hy. apply filter_In in Hy as [Hy _]. by apply list_elem_of_In. }
        destruct (localPerShard <=? length live)%nat eqn:E2; [| apply Nat.leb_gt in E2; split_ands; [done | done | by intros ?%Hsub]].
        split_ands; [by apply shard_inv_removelast | |].
        - destruct Hlive as (_ & Hl & _). destruct live as [| x l _] using rev_ind; [unfold localPerShard; cbn; lia |].
          rewrite removelast_last. rewrite length_app in Hl. cbn in Hl. lia.
        - intros Hin. apply El, Hsub. destruct live as [| x l _] using rev_ind; [done |]. rewrite removelast_last in Hin.
          rewrite map_app. apply elem_of_app. by left. }
      destruct Hs' as (Hi & Hlt & Hna). rewrite <- (remove_entry_absent a s') in Hi, Hlt |- * by done. by apply shard_inv_push.
Qed.

Lemma run_ops_inv ops : shard_inv ops (fold_left run_op ops []).
Proof.
  induction ops as [| op ops IH] using rev_ind; [unfold shard_inv; split_ands; [apply NoDup_nil_2 | cbn; lia | done] |].
  rewrite fold_left_app. by apply run_op_inv.
Qed.
End LocalCache.

(** * Properties *)

(** An OK identity names only hosts the reverse lookup returned and whose
    forward lookup returned the client address, and each failure outcome has
    its cause. *)
Theorem crawler_identity_is_forward_confirmed `{Unicode, Resolver} ip domains :
  (id_status (resolve ip) = StatusConfirmed -> MatchesDomains (resolve ip) domains = true ->
     exists target ptrs ptr d, ParseAddr ip = Some target /\ LookupAddr ip = Found ptrs /\ ptr ∈ take maxPTRs ptrs /\
       forward_confirmed (Unmap target) (ptr_host ptr) /\ d ∈ domains /\
       (ptr_host ptr = d \/ exists sub, ptr_host ptr = sub ++ "."%char :: d)) /\
  (id_status (resolve ip) = StatusNone -> exists target, ParseAddr ip = Some target /\
     (LookupAddr ip = NotFound \/ exists ptrs, LookupAddr ip = Found ptrs /\ Forall (refuted (Unmap target)) (take maxPTRs ptrs))) /\
  (MatchesDomains (resolve ip) domains = true -> id_status (resolve ip) = StatusConfirmed).
Proof.
  pose proof (resolve_spec ip) as Hr. split_ands.
  - intros Hs Hm. rewrite Hs in Hr. destruct Hr as (_ & target & ptrs & Hp & Hl & Hf). unfold MatchesDomains in Hm.
    apply existsb_exists in Hm as (h & Hh & Hd). apply existsb_exists in Hd as (d & Hd & Hb). apply list_elem_of_In in Hh, Hd.
    rewrite Forall_forall in Hf. destruct (Hf h Hh) as (ptr & Hptr & -> & _ & Hfc). exists target, ptrs, ptr, d. split_ands; try done.
    apply orb_true_iff in Hb as [Hb | Hb]; [left; by apply bool_decide_eq_true in Hb |]. right.
    unfold has_suffix in Hb. apply has_prefix_spec in Hb as [r Hr]. exists (rev r).
    rewrite <- (rev_involutive (ptr_host ptr)), Hr, rev_app_distr, rev_involutive. done.
  - intros Hs. rewrite Hs in Hr. by destruct Hr as [_ Hr].
  - intros Hm. destruct (id_status (resolve ip)); [| done |]; unfold MatchesDomains in Hm; [by rewrite Hr in Hm | destruct Hr as [Hr _]; by rewrite Hr in Hm].
Qed.

(** Decoding the stored record of an identity gives the identity back, and
    whatever decodes is a well-formed identity. *)
Theorem identity_record_round_trip `{Unicode} :
  (forall r, record_ok r -> decodeCacheRecord (encodeCacheRecord r) = Some r) /\
  (forall raw r, decodeCacheRecord raw = Some r -> encodeCacheRecord r = raw /\ record_ok r).
Proof.
  split.
  - intros [st hosts] Hok. unfold record_ok, encodeCacheRecord, decodeCacheRecord in *. cbn [id_status id_hostnames] in *.
    destruct st; [by subst hosts | | by subst hosts]. destruct Hok as (Hne & Hlen & Hf).
    rewrite has_prefix_app, drop_app_length. change (lit ",") with [","%char].
    rewrite split_on_join by (done || (eapply Forall_impl; [exact Hf | by intros h [_ ?]])).
    destruct (maxPTRs <? length hosts)%nat eqn:E; [apply Nat.ltb_lt in E; lia |].
    assert (forallb host_ok hosts = true) as ->; [| done]. apply forallb_forall. intros h Hh. rewrite Forall_forall in Hf.
    by apply list_elem_of_In, Hf in Hh as [? _].
  - intros raw r. unfold decodeCacheRecord. destruct (has_prefix cacheOK raw) eqn:Ep.
    + apply has_prefix_spec in Ep as [body ->]. rewrite drop_app_length.
      destruct (maxPTRs <? _)%nat eqn:El; [done |]. destruct (forallb host_ok _) eqn:Ef; [| done]. intros [= <-].
      unfold encodeCacheRecord, record_ok. cbn [id_status id_hostnames]. destruct (join_split_on ","%char body) as [Hj Hne].
      change (lit ",") with [","%char]. rewrite Hj. apply Nat.ltb_ge in El. split_ands; try done.
      pose proof (split_on_no_sep ","%char body) as Hn. rewrite Forall_forall in Hn |- *. intros h Hh. split; [| by apply Hn].
      rewrite forallb_forall in Ef. apply Ef. by apply list_elem_of_In.
    + case_bool_decide as E1; [by intros [= <-]; subst |]. case_bool_decide as E2; [by intros [= <-]; subst | done].
Qed.

(** After any sequence of local cache operations every shard is bounded
    and a hit is the last identity put for that address, within its expiry. *)
Theorem cached_identity_never_outlives_its_record ops a busy now i :
  let s := fold_left run_op ops [] in
  (get_shed a busy now s = Some i \/ (get a now s).1 = Some i) ->
  (exists exp at_, CPut a i (Some exp) at_ ∈ ops /\ now < exp) /\ (length s <= localPerShard)%nat.
Proof.
  intros s Hg. destruct (run_ops_inv ops) as (_ & Hl & Hf). fold s in Hl, Hf. split; [| done].
  assert (He : exists e, lookup_entry a s = Some e /\ now < le_expires e /\ le_identity e = i).
  { destruct Hg as [Hg | Hg].
    - unfold get_shed in Hg. destruct busy; [done |]. destruct (lookup_entry a s) as [e |]; [| done]. cbn in Hg.
      destruct (now <? le_expires e) eqn:E; [| done]. bool_to_prop. exists e. split_ands; congruence.
    - unfold get in Hg. destruct (lookup_entry a s) as [e |]; [| done]. destruct (negb (now <? le_expires e)) eqn:E; [done |].
      bool_to_prop. exists e. cbn in Hg. split_ands; congruence. }
  destruct He as (e & He & Hn & <-). apply lookup_entry_Some in He as [<- He]. rewrite Forall_forall in Hf.
  destruct (Hf e He) as [at_ Hin]. by exists (le_expires e), at_.
Qed.

Module Ex.
#[export] Existing Instance ascii_only.
(** A crawler, and an impostor whose own PTR record names the crawler's domain. *)
#[export] Instance resolver : Resolver := {|
  LookupAddr ip := if bool_decide (ip = lit "66.249.66.1") then Found [lit "Crawl-66-249-66-1.Googlebot.com."]
                   else if bool_decide (ip = lit "203.0.113.9") then Found [lit "crawl.googlebot.com."] else NotFound;
  LookupIPAddr host := if bool_decide (host = lit "crawl-66-249-66-1.googlebot.com") then Found [V4 1123631617] else NotFound |}.
End Ex.

Section Witnesses.
Import Ex.
Example crawler_confirmed : id_status (resolve (lit "66.249.66.1")) = StatusConfirmed /\ id_status (resolve (lit "203.0.113.9")) = StatusNone.
Proof. vm_compute. done. Qed.

Theorem crawler_identity_is_forward_confirmed_witness :
  exists target, ParseAddr (lit "66.249.66.1") = Some target /\ exists ptr, forward_confirmed (Unmap target) (ptr_host ptr).
Proof.
  destruct (crawler_identity_is_forward_confirmed (lit "66.249.66.1") [lit "googlebot.com"]) as (Hc & _ & _).
  destruct Hc as (target & ptrs & ptr & d & Hp & _ & _ & Hf & _); [vm_compute; reflexivity | vm_compute; reflexivity |].
  exists target. split; [exact Hp |]. exists ptr. exact Hf.
Defined.

Theorem identity_record_round_trip_witness :
  decodeCacheRecord (lit "ok:a.example,b.example") = Some (mk_identity StatusConfirmed [lit "a.example"; lit "b.example"]).
Proof.
  destruct identity_record_round_trip as [Hrt _]. apply (Hrt (mk_identity StatusConfirmed [lit "a.example"; lit "b.example"])).
  split; [discriminate |]. split; [cbn; unfold maxPTRs; lia |]. repeat constructor; try (vm_compute; reflexivity); apply (bool_decide_unpack _); vm_compute; exact I.
Defined.

Theorem cached_identity_never_outlives_its_record_witness :
  let s := fold_left run_op [CPut (V4 1) (mk_identity StatusNone []) (Some 100) 50] [] in
  get_shed (V4 1) false 60 s = Some (mk_identity StatusNone []) /\ (length s <= localPerShard)%nat.
Proof.
  split; [vm_compute; reflexivity |].
  apply (cached_identity_never_outlives_its_record [CPut (V4 1) (mk_identity StatusNone []) (Some 100) 50] (V4 1) false 60 (mk_identity StatusNone [])).
  left. vm_compute. reflexivity.
Defined.
End Witnesses.
