(* ===== verification/Enforce.v ===== *)
(** * The in-process block mirror (core/enforce/mirror.go, manager.go)

    A bounded, sharded copy of the active block set, written through by local
    block changes and converged by a periodic scan of the store.  The scan runs
    concurrently with the changes: a reconcile is two steps, [reconcile_begin]
    and [reconcile_finish], with anything in between.  The nftables sink is
    not modelled; the queues that feed the sinks are. *)

From S2P Require Export IpSet StoreClient.

(** ** The mirror *)
Definition shardCount : Z := 32.
Definition maxTombstones : Z := 4096.

Record mentry := mk_mentry { me_reason : gostring; me_expiresAt : Z; me_insertedAt : Z }.  (* unix nanoseconds; expiresAt 0: none *)

Record mirror := mk_mirror {
  mr_shards : list (gmap addr mentry);
  mr_maxPerShard : Z;
  mr_dropped : Z;
  mr_tombs : gmap addr Z
}.

Definition newMirror (maxEntries : Z) : mirror :=
  mk_mirror (replicate (Z.to_nat shardCount) ∅) (Z.max (Z.quot maxEntries shardCount) 1) 0 ∅.

(** FNV-1a over the 16-byte form. *)
Definition shardOf (a : addr) : nat :=
  Z.to_nat (fold_left (fun h c => wrapu32 (Z.lxor h (byteZ c) * 16777619)) (be_bytes 16 (As16 a)) 2166136261 mod shardCount).

Definition shard (mr : mirror) (a : addr) : gmap addr mentry := default ∅ (mr_shards mr !! shardOf a).
Definition with_shard (a : addr) (s : gmap addr mentry) (mr : mirror) : mirror :=
  mk_mirror (<[shardOf a := s]> (mr_shards mr)) (mr_maxPerShard mr) (mr_dropped mr) (mr_tombs mr).
Definition with_tombs (t : gmap addr Z) (mr : mirror) : mirror := mk_mirror (mr_shards mr) (mr_maxPerShard mr) (mr_dropped mr) t.

Definition lapsed (now : Z) (e : mentry) : bool := negb (me_expiresAt e =? 0) && (me_expiresAt e <=? now).

Definition mget (mr : mirror) (a : addr) (now : Z) : option gostring :=
  match shard mr a !! a with
  | Some e => if lapsed now e then None else Some (me_reason e)
  | None => None
  end.

Definition mset (a : addr) (e : mentry) (mr : mirror) : bool * mirror :=
  let s := shard mr a in
  if bool_decide (s !! a = None) && (mr_maxPerShard mr <=? Z.of_nat (size s)) then
    let s := filter (fun kv => lapsed (me_insertedAt e) kv.2 = false) s in
    if mr_maxPerShard mr <=? Z.of_nat (size s)
    then (false, let mr := with_shard a s mr in mk_mirror (mr_shards mr) (mr_maxPerShard mr) (mr_dropped mr + 1) (mr_tombs mr))
    else (true, with_shard a (<[a := e]> s) mr)
  else (true, with_shard a (<[a := e]> s) mr).

(** The oldest tombstone older than [now], else the address itself; ties go by
    map order. *)
Definition oldest_tomb (a : addr) (now : Z) (tombs : gmap addr Z) : addr :=
  (fold_left (fun acc kv => if kv.2 <? acc.2 then kv else acc) (map_to_list tombs) (a, now)).1.

Definition mremove (a : addr) (now : Z) (mr : mirror) : mirror :=
  let mr := with_shard a (delete a (shard mr a)) mr in
  let tombs := mr_tombs mr in
  let tombs := if maxTombstones <=? Z.of_nat (size tombs) then delete (oldest_tomb a now tombs) tombs else tombs in
  with_tombs (<[a := now]> tombs) mr.

Definition removedSince (a : addr) (scanStart : Z) (mr : mirror) : bool * mirror :=
  match mr_tombs mr !! a with
  | Some t => if t <? scanStart then (false, with_tombs (delete a (mr_tombs mr)) mr) else (true, mr)
  | None => (false, mr)
  end.

Definition pruneTombstones (scanStart : Z) (mr : mirror) : mirror :=
  with_tombs (filter (fun kv => (kv.2 <? scanStart) = false) (mr_tombs mr)) mr.

(** Entries the complete scan did not return go, unless written since it
    started. *)
Definition sweep_shard (active : gmap addr mentry) (scanStart : Z) (s : gmap addr mentry) : gmap addr mentry :=
  filter (fun kv => is_Some (active !! kv.1) \/ scanStart <= me_insertedAt kv.2) s.
Definition sweep (active : gmap addr mentry) (scanStart : Z) (mr : mirror) : mirror :=
  mk_mirror (map (sweep_shard active scanStart) (mr_shards mr)) (mr_maxPerShard mr) (mr_dropped mr) (mr_tombs mr).

(** One scanned entry: the check and the insert are two critical sections. *)
Definition upsert (scanStart : Z) (kv : addr * mentry) (acc : bool * mirror) : bool * mirror :=
  let '(complete, mr) := acc in
  let '(removed, mr) := removedSince kv.1 scanStart mr in
  if removed : bool then (complete, mr)
  else let '(ok, mr) := mset kv.1 kv.2 mr in (complete && ok, mr).

(** [order] is the iteration order of the map [active]. *)
Definition reconcile (active : gmap addr mentry) (order : list (addr * mentry)) (scanStart : Z) (scannedAll : bool) (mr : mirror) : bool * mirror :=
  let mr := if scannedAll then sweep active scanStart mr else mr in
  let '(complete, mr) := fold_left (fun acc kv => upsert scanStart kv acc) order (scannedAll, mr) in
  (complete, pruneTombstones scanStart mr).

Definition mcount (mr : mirror) : Z := foldr (fun s n => Z.of_nat (size s) + n) 0 (mr_shards mr).

(** ** The manager *)
Inductive mode := ModeAuthoritative | ModeReadThrough.
#[global] Instance mode_eq_dec : EqDecision mode.
Proof. solve_decision. Defined.

Record BlockEvent := mk_bevent { be_IP : addr; be_Reason : gostring; be_TTL : Z; be_Remove : bool }.

Definition sinkQueueCap : Z := 4096.

Record manager := mk_mgr {
  mg_Mode : mode;
  mg_Interval : Z;
  mg_mir : mirror;
  mg_seeded : bool;
  mg_mirrorState : Z;             (* 64 bits: generation above the completeness bit *)
  mg_sinkGeneration : Z;
  mg_lastReconcile : Z;
  mg_reconcileErrs : Z;
  mg_queues : list (list BlockEvent)
}.

Definition with_mir (mir : mirror) (m : manager) : manager :=
  mk_mgr (mg_Mode m) (mg_Interval m) mir (mg_seeded m) (mg_mirrorState m) (mg_sinkGeneration m) (mg_lastReconcile m) (mg_reconcileErrs m) (mg_queues m).
Definition with_state (s : Z) (m : manager) : manager :=
  mk_mgr (mg_Mode m) (mg_Interval m) (mg_mir m) (mg_seeded m) s (mg_sinkGeneration m) (mg_lastReconcile m) (mg_reconcileErrs m) (mg_queues m).

Definition generation (m : manager) : Z := Z.shiftr (mg_mirrorState m) 1.
Definition mirrorComplete (m : manager) : bool := negb (Z.land (mg_mirrorState m) 1 =? 0).

(** [New] of a configuration, its defaults resolved. *)
Definition newManager (md : option mode) (interval maxEntries : Z) (sinks : nat) : manager :=
  mk_mgr (default ModeAuthoritative md) (if interval <? second then 10 * second else interval)
    (newMirror (if maxEntries <=? 0 then Z.shiftl 1 20 else maxEntries)) false 0 0 0 0 (replicate sinks []).

Definition Lookup (ip : gostring) (now : Z) (m : manager) : option gostring :=
  match ParseAddr ip with None => None | Some a => mget (mg_mir m) (Unmap a) (UnixNano now) end.

Definition ReadThrough (m : manager) : bool := bool_decide (mg_Mode m = ModeReadThrough) || negb (mg_seeded m) || negb (mirrorComplete m).

(** The compare-and-swap loops: each round that commits sees a state nobody
    changed since it was read. *)
Definition markMirrorIncomplete (m : manager) : manager := with_state (wrapu64 (Z.shiftl (Z.shiftr (mg_mirrorState m) 1 + 1) 1)) m.

Definition publishMirrorReconcile (gen : Z) (complete : bool) (m : manager) : manager :=
  if generation m =? gen
  then with_state (let next := Z.ldiff (mg_mirrorState m) 1 in if complete then Z.lor next 1 else next) m
  else m.

Definition enqueue (ev : BlockEvent) (q : list BlockEvent) : list BlockEvent := if Z.of_nat (length q) <? sinkQueueCap then q ++ [ev] else q.

Definition notifyLocked (ev : BlockEvent) (now : Z) (m : manager) : manager :=
  let ev := mk_bevent (Unmap (be_IP ev)) (be_Reason ev) (be_TTL ev) (be_Remove ev) in
  let m :=
    if be_Remove ev then with_mir (mremove (be_IP ev) (UnixNano now) (mg_mir m)) m
    else
      let exp := if 0 <? be_TTL ev then UnixNano (now + be_TTL ev) else 0 in
      let '(ok, mir) := mset (be_IP ev) (mk_mentry (be_Reason ev) exp (UnixNano now)) (mg_mir m) in
      let m := with_mir mir m in if ok then m else markMirrorIncomplete m in
  mk_mgr (mg_Mode m) (mg_Interval m) (mg_mir m) (mg_seeded m) (mg_mirrorState m) (wrapu64 (mg_sinkGeneration m + 1)) (mg_lastReconcile m)
    (mg_reconcileErrs m) (map (enqueue ev) (mg_queues m)).

Definition Notify := notifyLocked.

(** [read] answers the ownership check of the block key. *)
Definition NotifyOwned (read : result (option gostring)) (ev : BlockEvent) (owner : gostring) (now : Z) (m : manager) : manager :=
  match read with
  | Err _ => markMirrorIncomplete m
  | Ok None => m
  | Ok (Some current) => if bool_decide (current = owner) then notifyLocked ev now m else m
  end.

Definition Learn (ip reason : gostring) (now : Z) (m : manager) : manager :=
  match ParseAddr ip with
  | None => m
  | Some a =>
    let '(ok, mir) := mset (Unmap a) (mk_mentry reason (UnixNano (now + 2 * mg_Interval m)) (UnixNano now)) (mg_mir m) in
    let m := with_mir mir m in if ok then m else markMirrorIncomplete m
  end.

(** ** Reconciling *)
Definition KeyPrefix : gostring := lit "block:".

(** One scanned key, the block prefix trimmed. *)
Definition scanned (scanStart : Z) (kv : KV) : option (addr * mentry) :=
  let key := kv_key kv in
  a ← ParseAddr (if has_prefix KeyPrefix key then drop (length KeyPrefix) key else key);
  Some (Unmap a, mk_mentry (BlockReason (kv_value kv)) (match kv_expires kv with None => 0 | Some e => UnixNano e end) (UnixNano scanStart)).

Record pending := mk_pending { pe_scanStart : Z; pe_generation : Z; pe_sinkGeneration : Z }.

Definition reconcile_begin (now : Z) (m : manager) : pending := mk_pending now (generation m) (mg_sinkGeneration m).

(** The map the scanned keys build: a later key of one address wins. *)
Definition active_of (scanStart : Z) (kvs : list KV) : gmap addr mentry :=
  fold_left (fun acc kv => match scanned scanStart kv with Some (a, e) => <[a := e]> acc | None => acc end) kvs ∅.

Definition scan_failed (m : manager) : manager :=
  mk_mgr (mg_Mode m) (mg_Interval m) (mg_mir m) (mg_seeded m) (mg_mirrorState m) (mg_sinkGeneration m) (mg_lastReconcile m)
    (wrapu64 (mg_reconcileErrs m + 1)) (mg_queues m).

(** The end of a scan that answered; the reply says whether the sinks are given
    the snapshot. *)
Definition publish (pe : pending) (complete scannedAll : bool) (m : manager) : manager * bool :=
  let m := publishMirrorReconcile (pe_generation pe) complete m in
  (mk_mgr (mg_Mode m) (mg_Interval m) (mg_mir m) true (mg_mirrorState m) (mg_sinkGeneration m) (UnixNano (pe_scanStart pe))
     (mg_reconcileErrs m) (mg_queues m),
   scannedAll && (mg_sinkGeneration m =? pe_sinkGeneration pe)).

(** [reconcileOnce] after its scan [answer]; [order] is the iteration order of
    the map. *)
Definition reconcile_finish (pe : pending) (answer : result (list KV * bool)) (order : list (addr * mentry)) (m : manager) : manager * bool :=
  match answer with
  | Err _ => (scan_failed m, false)
  | Ok (kvs, scannedAll) =>
    let '(complete, mir) := reconcile (active_of (pe_scanStart pe) kvs) order (UnixNano (pe_scanStart pe)) scannedAll (mg_mir m) in
    publish pe complete scannedAll (with_mir mir m)
  end.

(** [Status]: entries, seeded, complete, drops. *)
Record MirrorStatus := mk_mstatus {
  ms_Entries : Z; ms_Mode : mode; ms_Seeded : bool; ms_Complete : bool; ms_LastReconcile : option Z; ms_ReconcileErrors : Z; ms_Dropped : Z }.
Definition Status (m : manager) : MirrorStatus :=
  mk_mstatus (mcount (mg_mir m)) (mg_Mode m) (mg_seeded m) (mirrorComplete m)
    (if 0 <? mg_lastReconcile m then Some (mg_lastReconcile m) else None) (mg_reconcileErrs m) (mr_dropped (mg_mir m)).

(** ** The reconciler interleaved with block changes

    Each critical section of a reconcile is a step of its own, and a block
    change may come between any two. *)
Inductive local :=
| DoNotify (ev : BlockEvent) (now : Z)
| DoNotifyOwned (read : result (option gostring)) (ev : BlockEvent) (owner : gostring) (now : Z)
| DoLearn (ip reason : gostring) (now : Z).

Definition do_local (l : local) (m : manager) : manager :=
  match l with
  | DoNotify ev now => Notify ev now m
  | DoNotifyOwned read ev owner now => NotifyOwned read ev owner now m
  | DoLearn ip reason now => Learn ip reason now m
  end.

Inductive phase :=
| Idle
| Scanning (pe : pending)
| Sweeping (pe : pending) (active : gmap addr mentry) (todo : list nat) (order : list (addr * mentry))
| Upserting (pe : pending) (scannedAll complete : bool) (todo : list (addr * mentry))
| Checked (pe : pending) (scannedAll complete : bool) (kv : addr * mentry) (todo : list (addr * mentry))
| Publishing (pe : pending) (scannedAll complete : bool).

Definition on_mirror (f : mirror -> mirror) (m : manager) : manager := with_mir (f (mg_mir m)) m.
Definition sweep_at (active : gmap addr mentry) (scanStart : Z) (i : nat) (mr : mirror) : mirror :=
  mk_mirror (alter (sweep_shard active scanStart) i (mr_shards mr)) (mr_maxPerShard mr) (mr_dropped mr) (mr_tombs mr).

(** The labels that matter to the completeness protocol. *)
Inductive label := LBegin | LPublish | LLocal (dropped : bool) | LInner.

#[global] Instance label_eq_dec : EqDecision label.
Proof. solve_decision. Defined.

(** Whether an address has room in the mirror: it is there already, or its
    shard is not full of entries that still count. *)
Definition room (a : addr) (now : Z) (mr : mirror) : bool :=
  bool_decide (is_Some (shard mr a !! a)) ||
  (Z.of_nat (size (filter (fun kv : addr * mentry => lapsed now kv.2 = false) (shard mr a))) <? mr_maxPerShard mr).

(** A local change drops when it could not be mirrored: a block or a learned
    entry without room, or an owned change whose owner could not be read. *)
Definition drops (l : local) (m : manager) : bool :=
  let no_room a now := negb (room (Unmap a) (UnixNano now) (mg_mir m)) in
  match l with
  | DoNotify ev now => negb (be_Remove ev) && no_room (be_IP ev) now
  | DoNotifyOwned (Err _) _ _ _ => true
  | DoNotifyOwned (Ok current) ev owner now => bool_decide (current = Some owner) && negb (be_Remove ev) && no_room (be_IP ev) now
  | DoLearn ip _ now => match ParseAddr ip with Some a => no_room a now | None => false end
  end.

Inductive enforce_step : manager * phase -> label -> manager * phase -> Prop :=
| es_local l m ph : enforce_step (m, ph) (LLocal (drops l m)) (do_local l m, ph)
| es_begin now m : enforce_step (m, Idle) LBegin (m, Scanning (reconcile_begin now m))
| es_failed pe m : enforce_step (m, Scanning pe) LInner (scan_failed m, Idle)
| es_scanned pe kvs order m : order ≡ₚ map_to_list (active_of (pe_scanStart pe) kvs) ->
    enforce_step (m, Scanning pe) LInner (m, Sweeping pe (active_of (pe_scanStart pe) kvs) (seq 0 (Z.to_nat shardCount)) order)
| es_partial pe kvs order m : order ≡ₚ map_to_list (active_of (pe_scanStart pe) kvs) ->
    enforce_step (m, Scanning pe) LInner (m, Upserting pe false false order)
| es_sweep pe active i todo order m :
    enforce_step (m, Sweeping pe active (i :: todo) order) LInner
      (on_mirror (sweep_at active (UnixNano (pe_scanStart pe)) i) m, Sweeping pe active todo order)
| es_swept pe active order m : enforce_step (m, Sweeping pe active [] order) LInner (m, Upserting pe true true order)
| es_check pe all complete kv todo m :
    enforce_step (m, Upserting pe all complete (kv :: todo)) LInner
      (let '(removed, mir) := removedSince kv.1 (UnixNano (pe_scanStart pe)) (mg_mir m) in
       (with_mir mir m, if removed : bool then Upserting pe all complete todo else Checked pe all complete kv todo))
| es_set pe all complete kv todo m :
    enforce_step (m, Checked pe all complete kv todo) LInner
      (let '(ok, mir) := mset kv.1 kv.2 (mg_mir m) in (with_mir mir m, Upserting pe all (complete && ok) todo))
| es_prune pe all complete m :
    enforce_step (m, Upserting pe all complete []) LInner (on_mirror (pruneTombstones (UnixNano (pe_scanStart pe))) m, Publishing pe all complete)
| es_publish pe all complete m m' to_sinks : publish pe complete all m = (m', to_sinks) ->
    enforce_step (m, Publishing pe all complete) LPublish (m', Idle).

Inductive enforce_run : manager * phase -> list label -> manager * phase -> Prop :=
| er_refl s : enforce_run s [] s
| er_step s l s' ls s'' : enforce_step s l s' -> enforce_run s' ls s'' -> enforce_run s (l :: ls) s''.

(** ** The completeness word *)
Definition state_ok (m : manager) : Prop := 0 <= mg_mirrorState m < 2 ^ 64.

Lemma generation_div m : generation m = mg_mirrorState m / 2.
Proof. unfold generation. by rewrite Z.shiftr_div_pow2. Qed.

Lemma mirrorComplete_mod m : mirrorComplete m = negb (mg_mirrorState m mod 2 =? 0).
Proof. unfold mirrorComplete. change 1 with (Z.ones 1). by rewrite Z.land_ones. Qed.

Lemma clear_low n : Z.ldiff n 1 = 2 * (n / 2).
Proof. change 1 with (Z.ones 1). rewrite Z.ldiff_ones_r by lia. rewrite Z.shiftl_mul_pow2, Z.shiftr_div_pow2 by lia. apply Z.mul_comm. Qed.

Lemma set_low n : 0 <= n -> Z.lor (2 * n) 1 = 2 * n + 1.
Proof. by destruct n as [| p |]. Qed.

Lemma markMirrorIncomplete_spec m : state_ok m -> generation m + 1 < 2 ^ 63 ->
  mg_mirrorState (markMirrorIncomplete m) = 2 * (generation m + 1) /\ state_ok (markMirrorIncomplete m) /\
  generation (markMirrorIncomplete m) = generation m + 1 /\ mirrorComplete (markMirrorIncomplete m) = false.
Proof.
  unfold state_ok. intros Hs Hg. assert (0 <= generation m) by (rewrite (generation_div m); apply Z.div_pos; lia).
  assert (He : mg_mirrorState (markMirrorIncomplete m) = 2 * (generation m + 1)).
  { unfold markMirrorIncomplete, with_state. cbn [mg_mirrorState]. fold (generation m). rewrite Z.shiftl_mul_pow2 by lia.
    unfold wrapu64. rewrite Z.mod_small; lia. }
  rewrite (generation_div (markMirrorIncomplete m)), mirrorComplete_mod, He. split_ands; try lia.
  - rewrite (Z.mul_comm 2), Z.div_mul; lia.
  - rewrite (Z.mul_comm 2), Z.mod_mul by lia. done.
Qed.

Lemma publish_other gen complete m : generation m <> gen -> publishMirrorReconcile gen complete m = m.
Proof. intros Hg. unfold publishMirrorReconcile. by apply Z.eqb_neq in Hg as ->. Qed.

Lemma publish_spec gen complete m : state_ok m -> generation m = gen ->
  state_ok (publishMirrorReconcile gen complete m) /\ generation (publishMirrorReconcile gen complete m) = gen /\
  mirrorComplete (publishMirrorReconcile gen complete m) = complete.
Proof.
  unfold state_ok. intros Hs <-. unfold publishMirrorReconcile. rewrite Z.eqb_refl. cbv zeta.
  rewrite mirrorComplete_mod, !generation_div. cbn [with_state mg_mirrorState]. rewrite clear_low.
  pose proof (Z.div_mod (mg_mirrorState m) 2 ltac:(lia)). pose proof (Z.mod_pos_bound (mg_mirrorState m) 2 ltac:(lia)).
  assert (Hd : 0 <= mg_mirrorState m / 2) by (apply Z.div_pos; lia). set (q := mg_mirrorState m / 2) in *.
  destruct complete.
  - rewrite set_low by done. split_ands; [lia | lia | | ].
    + symmetry. by apply (Z.div_unique _ _ _ 1); lia.
    + replace ((2 * q + 1) mod 2) with 1; [done |]. apply (Z.mod_unique _ _ q); lia.
  - split_ands; [lia | lia | |].
    + symmetry. by apply (Z.div_unique _ _ _ 0); lia.
    + replace ((2 * q) mod 2) with 0; [done |]. apply (Z.mod_unique _ _ q); lia.
Qed.

(** ** Local changes and the word *)

Lemma mset_room a e mr : (mset a e mr).1 = room a (me_insertedAt e) mr.
Proof.
  unfold mset, room. set (s := shard mr a). set (kept := filter _ s).
  assert (Hk : (size kept <= size s)%nat) by (apply map_subseteq_size, map_filter_subseteq).
  destruct (s !! a) as [o |] eqn:Ea; [by rewrite bool_decide_eq_false_2, bool_decide_eq_true_2 by done |].
  rewrite bool_decide_eq_true_2, (bool_decide_eq_false_2 (is_Some _)) by (done || by intros [? ?]). cbn [andb orb].
  destruct (Z.leb_spec (mr_maxPerShard mr) (Z.of_nat (size s))).
  - destruct (Z.leb_spec (mr_maxPerShard mr) (Z.of_nat (size kept))); cbn; symmetry; [by apply Z.ltb_ge | by apply Z.ltb_lt].
  - cbn. symmetry. apply Z.ltb_lt. lia.
Qed.

(** What a notification does to the word. *)
Lemma notifyLocked_word ev now m : mg_mirrorState (notifyLocked ev now m) =
  mg_mirrorState (if negb (be_Remove ev) && negb (room (Unmap (be_IP ev)) (UnixNano now) (mg_mir m)) then markMirrorIncomplete m else m).
Proof.
  unfold notifyLocked. cbn [be_Remove be_IP be_TTL be_Reason mg_mirrorState]. destruct (be_Remove ev); [done |]. cbn [negb andb].
  pose proof (mset_room (Unmap (be_IP ev)) (mk_mentry (be_Reason ev) (if 0 <? be_TTL ev then UnixNano (now + be_TTL ev) else 0) (UnixNano now)) (mg_mir m)) as Hr.
  cbn [me_insertedAt] in Hr. rewrite <- Hr. by destruct (mset _ _ _) as [[] mir].
Qed.

(** What any local change does to the word: a drop marks the mirror, nothing
    else touches it. *)
Lemma do_local_word l m : mg_mirrorState (do_local l m) = mg_mirrorState (if drops l m then markMirrorIncomplete m else m).
Proof.
  destruct l as [ev now | [current | e] ev owner now | ip reason now]; cbn [do_local drops]; [apply notifyLocked_word | | done |].
  - unfold NotifyOwned. destruct current as [current |]; [| by rewrite bool_decide_eq_false_2].
    destruct (decide (current = owner)) as [-> | Hne]; [rewrite !bool_decide_eq_true_2 by done; apply notifyLocked_word |].
    by rewrite !bool_decide_eq_false_2 by congruence.
  - unfold Learn. destruct (ParseAddr ip) as [a |]; [| done].
    pose proof (mset_room (Unmap a) (mk_mentry reason (UnixNano (now + 2 * mg_Interval m)) (UnixNano now)) (mg_mir m)) as Hr.
    cbn [me_insertedAt] in Hr. rewrite <- Hr. by destruct (mset _ _ _) as [[] mir].
Qed.

Lemma do_local_mode l m : mg_Mode (do_local l m) = mg_Mode m /\ mg_seeded (do_local l m) = mg_seeded m.
Proof.
  assert (Hn : forall ev now, mg_Mode (notifyLocked ev now m) = mg_Mode m /\ mg_seeded (notifyLocked ev now m) = mg_seeded m).
  { intros ev now. unfold notifyLocked. cbn [be_Remove be_IP be_TTL be_Reason]. destruct (be_Remove ev); [done |].
    by destruct (mset _ _ _) as [[] mir]. }
  destruct l as [ev now | read ev owner now | ip reason now]; cbn [do_local].
  - apply Hn.
  - unfold NotifyOwned. destruct read as [[current |] | e]; try done. by destruct (bool_decide _).
  - unfold Learn. destruct (ParseAddr ip); [| done]. by destruct (mset _ _ _) as [[] mir].
Qed.

Lemma same_word m m' : mg_mirrorState m' = mg_mirrorState m -> generation m' = generation m /\ mirrorComplete m' = mirrorComplete m.
Proof. intros Hw. unfold generation, mirrorComplete. by rewrite Hw. Qed.

(** A local change keeps the word, or is a drop: next generation, incomplete. *)
Lemma do_local_spec l m : state_ok m -> generation m + 1 < 2 ^ 63 ->
  state_ok (do_local l m) /\
  (if drops l m then generation (do_local l m) = generation m + 1 /\ mirrorComplete (do_local l m) = false
   else mg_mirrorState (do_local l m) = mg_mirrorState m).
Proof.
  intros Hs Hg. destruct (markMirrorIncomplete_spec m Hs Hg) as (Hw & Hs' & Hg' & Hc').
  pose proof (do_local_word l m) as Hl. destruct (same_word _ _ Hl) as [Hgl Hcl]. unfold state_ok in *. rewrite Hl, Hgl, Hcl.
  by destruct (drops l m).
Qed.

(** ** Runs *)
Definition pending_of (ph : phase) : option pending :=
  match ph with
  | Idle => None
  | Scanning pe | Sweeping pe _ _ _ | Upserting pe _ _ _ | Checked pe _ _ _ _ | Publishing pe _ _ => Some pe
  end.

(** Every snapshot in flight was taken at this generation or an earlier one. *)
Definition run_inv (s : manager * phase) : Prop :=
  state_ok s.1 /\ forall pe, pending_of s.2 = Some pe -> pe_generation pe <= generation s.1.

Lemma publish_word pe complete all m m' to_sinks : publish pe complete all m = (m', to_sinks) ->
  mg_mirrorState m' = mg_mirrorState (publishMirrorReconcile (pe_generation pe) complete m) /\ mg_Mode m' = mg_Mode m.
Proof. unfold publish, publishMirrorReconcile. intros [= <- <-]. cbn [mg_mirrorState mg_Mode]. by destruct (_ =? _). Qed.

(** The steps that are neither local nor a publication leave the word and the
    mode alone, and keep the snapshot in flight unless they begin one. *)
Lemma inner_step_word m ph l m' ph' : enforce_step (m, ph) l (m', ph') -> l = LInner \/ l = LBegin ->
  mg_mirrorState m' = mg_mirrorState m /\ mg_Mode m' = mg_Mode m /\
  (forall pe, pending_of ph' = Some pe -> if decide (l = LBegin) then pe_generation pe = generation m else pending_of ph = Some pe).
Proof.
  intros Hs Hl. inversion Hs; subst; try (by destruct Hl); try done;
    try (split_ands; [done | done |]; intros pe0 Hp; cbn in *; by simplify_eq).
  - destruct (removedSince _ _ _) as [[] mir]; simplify_eq; split_ands; try done.
  - destruct (mset _ _ _) as [ok mir]; simplify_eq; split_ands; try done.
Qed.

Lemma enforce_step_inv m ph l m' ph' : enforce_step (m, ph) l (m', ph') -> run_inv (m, ph) -> generation m + 1 < 2 ^ 63 ->
  run_inv (m', ph') /\ generation m <= generation m' <= generation m + 1 /\ mg_Mode m' = mg_Mode m /\
  (l <> LPublish -> mirrorComplete m = false -> mirrorComplete m' = false).
Proof.
  intros Hs [Hok Hpe] Hg. cbn [fst snd] in *. unfold run_inv. cbn [fst snd]. destruct (decide (l = LInner \/ l = LBegin)) as [Hl | Hl].
  { destruct (inner_step_word _ _ _ _ _ Hs Hl) as (Hw & Hm & Hp). destruct (same_word _ _ Hw) as [-> ->].
    split_ands; try lia; try done; [by unfold state_ok in *; rewrite Hw |]. intros pe Hpe'. specialize (Hp pe Hpe').
    case_decide; [lia | by apply Hpe]. }
  inversion Hs; subst; try (exfalso; apply Hl; tauto).
  - destruct (do_local_spec l0 m Hok Hg) as [Hok' Hd]. destruct (do_local_mode l0 m) as [Hm _].
    destruct (drops l0 m) eqn:Ed.
    + destruct Hd as [Hd1 Hd2]. rewrite Hd1. split_ands; try done; try lia. intros pe Hp. specialize (Hpe pe Hp). lia.
    + destruct (same_word _ _ Hd) as [-> ->]. split_ands; try done; lia.
  - destruct (publish_word _ _ _ _ _ _ ltac:(eassumption)) as [Hw Hm]. destruct (same_word _ _ Hw) as [Hgw _]. unfold state_ok. rewrite Hw, Hgw.
    specialize (Hpe pe eq_refl). destruct (decide (generation m = pe_generation pe)) as [He | He].
    + destruct (publish_spec _ complete m Hok He) as (Hok' & -> & _). unfold state_ok in Hok'. split_ands; try done; lia.
    + rewrite publish_other by done. unfold state_ok in Hok. split_ands; try done; lia.
Qed.

Lemma enforce_run_inv s ls s' : enforce_run s ls s' -> run_inv s -> generation s.1 + Z.of_nat (length ls) < 2 ^ 63 ->
  run_inv s' /\ generation s'.1 <= generation s.1 + Z.of_nat (length ls) /\ mg_Mode s'.1 = mg_Mode s.1.
Proof.
  induction 1 as [s | [m ph] l [m1 ph1] ls s2 Hs Hr IH]; intros Hi Hg; cbn [length fst] in *; [split_ands; [done | lia | done] |].
  destruct (enforce_step_inv _ _ _ _ _ Hs Hi ltac:(lia)) as (Hi' & Hg' & Hm & _).
  destruct (IH Hi' ltac:(lia)) as (? & ? & ->). split_ands; [done | lia | done].
Qed.

Lemma run_no_publish s ls s' : enforce_run s ls s' -> run_inv s -> generation s.1 + Z.of_nat (length ls) < 2 ^ 63 ->
  LPublish ∉ ls -> mirrorComplete s.1 = false -> mirrorComplete s'.1 = false.
Proof.
  induction 1 as [s | [m ph] l [m1 ph1] ls s2 Hs Hr IH]; intros Hi Hg Hn Hc; [done |]. cbn [length fst] in *.
  apply not_elem_of_cons in Hn as [Hl Hn]. destruct (enforce_step_inv _ _ _ _ _ Hs Hi ltac:(lia)) as (Hi' & Hg' & _ & Hc').
  apply IH; try done; [lia | by apply Hc'].
Qed.

(** No snapshot taken along [ls] is published along [ls]. *)
Definition no_later_reconcile (ls : list label) : Prop := forall before after, ls = before ++ LPublish :: after -> LBegin ∉ before.

Lemma no_later_tail l ls : no_later_reconcile (l :: ls) -> no_later_reconcile ls.
Proof. intros Hn before after ->. specialize (Hn (l :: before) after eq_refl). set_solver. Qed.

Lemma no_later_begin ls : no_later_reconcile (LBegin :: ls) -> LPublish ∉ ls.
Proof. intros Hn (before & after & ->)%list_elem_of_split. specialize (Hn (LBegin :: before) after eq_refl). set_solver. Qed.

Lemma run_fenced s ls s' : enforce_run s ls s' -> run_inv s -> generation s.1 + Z.of_nat (length ls) < 2 ^ 63 ->
  no_later_reconcile ls -> (forall pe, pending_of s.2 = Some pe -> pe_generation pe < generation s.1) ->
  mirrorComplete s.1 = false -> mirrorComplete s'.1 = false.
Proof.
  induction 1 as [s | [m ph] l [m1 ph1] ls s2 Hs Hr IH]; intros Hi Hg Hn Hp Hc; [done |]. cbn [length fst snd] in *.
  destruct (enforce_step_inv _ _ _ _ _ Hs Hi ltac:(lia)) as (Hi' & Hg' & _ & Hc').
  destruct (decide (l = LBegin)) as [-> | Hb].
  { apply (run_no_publish _ _ _ Hr); [done | cbn; lia | by apply no_later_begin | by apply Hc']. }
  apply IH; try done; [lia | by eapply no_later_tail | | ].
  - intros pe Hpe. assert (pe_generation pe < generation m); [| lia]. apply Hp.
    destruct (decide (l = LInner)) as [-> | Hl]; [destruct (inner_step_word _ _ _ _ _ Hs ltac:(by left)) as (_ & _ & Hk); by apply Hk |].
    inversion Hs; subst; done.
  - destruct (decide (l = LPublish)) as [-> |]; [| by apply Hc']. inversion Hs; subst.
    destruct (publish_word _ _ _ _ _ _ ltac:(eassumption)) as [Hw _]. destruct (same_word _ _ Hw) as [_ ->].
    rewrite publish_other; [done |]. specialize (Hp pe eq_refl). lia.
Qed.

(** ** The mirror as one map *)
Definition peek (mr : mirror) (a : addr) : option mentry := shard mr a !! a.
Definition live_reason (now : Z) (o : option mentry) : option gostring :=
  match o with Some e => if lapsed now e then None else Some (me_reason e) | None => None end.

Lemma mget_peek mr a now : mget mr a now = live_reason now (peek mr a).
Proof. done. Qed.

(** Shards of bounded size, [cap] entries each. *)
Section Mirror.
Context (cap : Z).

Record mirror_ok (mr : mirror) : Prop := {
  mo_shards : length (mr_shards mr) = Z.to_nat shardCount;
  mo_room : 1 <= mr_maxPerShard mr /\ mr_maxPerShard mr = cap;
  mo_size : Forall (fun s : gmap addr mentry => Z.of_nat (size s) <= mr_maxPerShard mr) (mr_shards mr)
}.

Lemma shardOf_lt a : (shardOf a < Z.to_nat shardCount)%nat.
Proof. unfold shardOf, shardCount. pose proof (Z.mod_pos_bound (fold_left (fun h c => wrapu32 (Z.lxor h (byteZ c) * 16777619)) (be_bytes 16 (As16 a)) 2166136261) 32 ltac:(lia)). lia. Qed.

Lemma shard_with_shard mr a s b : length (mr_shards mr) = Z.to_nat shardCount ->
  shard (with_shard a s mr) b = if decide (shardOf b = shardOf a) then s else shard mr b.
Proof.
  intros Hl. unfold shard, with_shard. cbn [mr_shards]. case_decide as Hd.
  - rewrite Hd, list_lookup_insert_eq; [done |]. rewrite Hl. apply shardOf_lt.
  - by rewrite list_lookup_insert_ne.
Qed.

Lemma shard_size mr a : mirror_ok mr -> Z.of_nat (size (shard mr a)) <= mr_maxPerShard mr.
Proof.
  intros [_ Hr Hs]. unfold shard. destruct (mr_shards mr !! shardOf a) as [s |] eqn:E; [| cbn; rewrite map_size_empty; lia].
  exact (Forall_lookup_1 _ _ _ _ Hs E).
Qed.

Lemma with_shard_ok mr a s : mirror_ok mr -> Z.of_nat (size s) <= mr_maxPerShard mr -> mirror_ok (with_shard a s mr).
Proof. intros [Hl Hr Hs] Hz. constructor; cbn; [by rewrite length_insert | done | by apply Forall_insert]. Qed.

(** Changing the tombstones or the drop counter changes no entry. *)
Lemma mirror_ok_shards mr mr' : mr_shards mr' = mr_shards mr -> mr_maxPerShard mr' = mr_maxPerShard mr -> mirror_ok mr -> mirror_ok mr'.
Proof. intros E1 E2 [? ? ?]. constructor; by rewrite ?E1, ?E2. Qed.

Lemma peek_shards mr mr' a : mr_shards mr' = mr_shards mr -> peek mr' a = peek mr a.
Proof. intros E. unfold peek, shard. by rewrite E. Qed.

Lemma size_filter_le (P : addr * mentry -> Prop) `{forall x, Decision (P x)} (s : gmap addr mentry) : (size (filter P s) <= size s)%nat.
Proof. apply map_subseteq_size, map_filter_subseteq. Qed.

Lemma lapsed_mono now now' e : now <= now' -> lapsed now e = true -> lapsed now' e = true.
Proof. unfold lapsed. intros Hle Hl. bool_to_prop. apply andb_true_iff. split; [by apply negb_true_iff, Z.eqb_neq | apply Z.leb_le; lia]. Qed.

(** What the shedding of a full shard leaves. *)
Lemma live_shed (s : gmap addr mentry) t now b : t <= now ->
  live_reason now (filter (fun kv => lapsed t kv.2 = false) s !! b) = live_reason now (s !! b).
Proof.
  intros Ht. rewrite map_lookup_filter. destruct (s !! b) as [e |]; [| done]. cbn. destruct (lapsed t e) eqn:El; cbn.
  - by rewrite (lapsed_mono t now e Ht El).
  - by rewrite option_guard_True by done.
Qed.

(** ** Insertion *)
Lemma mset_ok a e mr : mirror_ok mr -> mirror_ok (mset a e mr).2.
Proof.
  intros Hok. pose proof (shard_size mr a Hok) as Hz. destruct Hok as [Hl Hr Hs] eqn:Eok. clear Eok. unfold mset.
  destruct (bool_decide _ && _) eqn:Ef.
  - set (s := filter _ (shard mr a)). assert (size s <= size (shard mr a))%nat by apply size_filter_le.
    destruct (mr_maxPerShard mr <=? Z.of_nat (size s)) eqn:Es; cbn [snd].
    + apply (mirror_ok_shards (with_shard a s mr)); [done | done |]. apply with_shard_ok; [done | lia].
    + bool_to_prop. apply with_shard_ok; [done |]. rewrite map_size_insert. destruct (s !! a); cbn; lia.
  - cbn [snd]. apply with_shard_ok; [done |]. rewrite map_size_insert. apply andb_false_iff in Ef as [Ha | Ha].
    + apply bool_decide_eq_false in Ha. destruct (shard mr a !! a); [exact Hz | done].
    + bool_to_prop. destruct (shard mr a !! a); cbn; lia.
Qed.

Lemma mset_get a e mr b now : mirror_ok mr -> me_insertedAt e <= now ->
  mget (mset a e mr).2 b now = if (mset a e mr).1 && bool_decide (b = a) then live_reason now (Some e) else mget mr b now.
Proof.
  intros [Hl Hr Hs] Hn. rewrite !mget_peek. unfold mset, peek.
  assert (Hins : forall s : gmap addr mentry, (forall x, live_reason now (s !! x) = live_reason now (shard mr a !! x)) ->
    live_reason now (shard (with_shard a (<[a := e]> s) mr) b !! b) = if true && bool_decide (b = a) then live_reason now (Some e) else live_reason now (shard mr b !! b)).
  { intros s Hx. rewrite shard_with_shard by done. cbn [andb]. case_bool_decide as Hb.
    - subst b. by rewrite decide_True, lookup_insert_eq.
    - case_decide as Hd; [| done]. rewrite lookup_insert_ne by done. rewrite Hx. unfold shard. by rewrite Hd. }
  destruct (bool_decide _ && _); [| by apply Hins].
  set (s := filter _ (shard mr a)). assert (Hx : forall x, live_reason now (s !! x) = live_reason now (shard mr a !! x)) by (intros x; by apply live_shed).
  destruct (mr_maxPerShard mr <=? Z.of_nat (size s)); cbn [fst snd]; [| by apply Hins].
  cbn [andb]. unfold shard at 1. cbn [mr_shards]. fold (shard (with_shard a s mr) b). rewrite shard_with_shard by done.
  destruct (decide (shardOf b = shardOf a)) as [Hd | Hd]; [| reflexivity]. rewrite Hx. unfold shard. by rewrite Hd.
Qed.

Lemma mset_tombs a e mr : mr_tombs (mset a e mr).2 = mr_tombs mr.
Proof. unfold mset. destruct (bool_decide _ && _); [| done]. by destruct (_ <=? _). Qed.

Lemma mset_dropped a e mr : mr_dropped (mset a e mr).2 = mr_dropped mr + (if (mset a e mr).1 then 0 else 1).
Proof. unfold mset. destruct (bool_decide _ && _); [| cbn; lia]. destruct (_ <=? _); cbn; lia. Qed.

(** ** Convergence *)
Definition removed_after (scanStart : Z) (mr : mirror) (a : addr) : bool :=
  match mr_tombs mr !! a with Some t => scanStart <=? t | None => false end.

Lemma removedSince_spec a s mr : (removedSince a s mr).1 = removed_after s mr a /\
  mr_shards (removedSince a s mr).2 = mr_shards mr /\ mr_maxPerShard (removedSince a s mr).2 = mr_maxPerShard mr /\
  mr_dropped (removedSince a s mr).2 = mr_dropped mr /\
  forall b, b <> a -> removed_after s (removedSince a s mr).2 b = removed_after s mr b.
Proof.
  unfold removedSince, removed_after. destruct (mr_tombs mr !! a) as [t |]; [| done]. destruct (t <? s) eqn:E; cbn [fst snd].
  - bool_to_prop. split_ands; try done; [symmetry; apply Z.leb_gt; lia |]. intros b Hb. cbn. by rewrite lookup_delete_ne.
  - bool_to_prop. split_ands; try done. symmetry. by apply Z.leb_le.
Qed.

Lemma mget_shards mr mr' a now : mr_shards mr' = mr_shards mr -> mget mr' a now = mget mr a now.
Proof. intros E. rewrite !mget_peek. by rewrite (peek_shards mr mr'). Qed.

(** The upsert loop: everything fitted exactly when nothing more was dropped,
    and then each scanned entry reads as scanned unless removed since. *)
Definition loop_result (s now : Z) (todo : list (addr * mentry)) (mr mr' : mirror) : Prop :=
  forall b, mget mr' b now =
    match (list_to_map todo : gmap addr mentry) !! b with
    | Some e => if removed_after s mr b then mget mr b now else live_reason now (Some e)
    | None => mget mr b now
    end.

Lemma upsert_loop s now todo : forall c mr,
  NoDup todo.*1 -> Forall (fun kv => me_insertedAt kv.2 <= now) todo -> mirror_ok mr ->
  let r := fold_left (fun acc kv => upsert s kv acc) todo (c, mr) in
  mirror_ok r.2 /\ mr_dropped mr <= mr_dropped r.2 /\ r.1 = c && (mr_dropped r.2 =? mr_dropped mr) /\
  (mr_dropped r.2 = mr_dropped mr -> loop_result s now todo mr r.2).
Proof.
  induction todo as [| [a e] todo IH]; intros c mr Hnd Hins Hok r; subst r; cbn [fold_left].
  { rewrite Z.eqb_refl, andb_true_r. split_ands; [done | done | done |]. by intros _ b. }
  cbn [fmap list_fmap fst] in Hnd. apply NoDup_cons in Hnd as [Ha Hnd]. apply Forall_cons in Hins as [He Hins]. cbn [snd] in He.
  destruct (removedSince_spec a s mr) as (Hrem & Hsh & Hmax & Hdr & Htomb). unfold upsert at 2 4 6 8 10 12. cbn [fst snd].
  unfold loop_result. cbn [list_to_map foldr fst snd].
  destruct (removedSince a s mr) as [removed mr1] eqn:Er. cbn [fst snd] in *. subst removed.
  assert (Hok1 : mirror_ok mr1) by (by apply (mirror_ok_shards mr)).
  assert (Hnone : (list_to_map todo : gmap addr mentry) !! a = None) by (by apply not_elem_of_list_to_map).
  destruct (removed_after s mr a) eqn:Era.
  - destruct (IH c mr1 Hnd Hins Hok1) as (Hok2 & Hle & Hc & Hl). rewrite Hdr in *. split_ands; try done.
    intros Hd b. rewrite (Hl Hd b). destruct (decide (b = a)) as [-> | Hb].
    + rewrite Hnone, lookup_insert_eq, Era. by apply mget_shards.
    + rewrite lookup_insert_ne, Htomb, (mget_shards mr mr1) by done. done.
  - pose proof (mset_dropped a e mr1) as Hmd. pose proof (mset_ok a e mr1 Hok1) as Hok2. pose proof (mset_tombs a e mr1) as Ht.
    pose proof (fun b => mset_get a e mr1 b now Hok1 He) as Hg.
    destruct (mset a e mr1) as [ok mr2] eqn:Em. cbn [fst snd] in *. destruct (IH (c && ok) mr2 Hnd Hins Hok2) as (Hok3 & Hle & Hc & Hl).
    split_ands; [done | destruct ok; lia | |].
    + rewrite Hc. destruct ok; [by rewrite Hmd, Hdr, Z.add_0_r, andb_true_r |]. rewrite !andb_false_r in *.
      cbn [andb]. symmetry. apply andb_false_iff. right. apply Z.eqb_neq. lia.
    + intros Hd b. destruct ok; [| lia]. rewrite Hl by lia. assert (Hra : forall x, x <> a -> removed_after s mr2 x = removed_after s mr x)
        by (intros x Hx; unfold removed_after; rewrite Ht; by apply Htomb).
      destruct (decide (b = a)) as [-> | Hb].
      * rewrite Hnone, lookup_insert_eq, Hg, Era. by rewrite bool_decide_eq_true_2.
      * rewrite lookup_insert_ne, Hra by done. rewrite Hg, bool_decide_eq_false_2, (mget_shards mr mr1) by done. done.
Qed.

Lemma peek_sweep active s mr a :
  peek (sweep active s mr) a = match peek mr a with
                               | Some e => if bool_decide (is_Some (active !! a)) || (s <=? me_insertedAt e) then Some e else None
                               | None => None
                               end.
Proof.
  unfold peek, shard, sweep. cbn [mr_shards]. rewrite list_lookup_fmap. destruct (mr_shards mr !! shardOf a) as [sh |]; cbn; [| done].
  unfold sweep_shard. rewrite map_lookup_filter. destruct (sh !! a) as [e |]; [| done]. cbn.
  case_bool_decide as Ha; cbn [orb]; [by rewrite option_guard_True by (by left) |].
  destruct (s <=? me_insertedAt e) eqn:E; bool_to_prop.
  - by rewrite option_guard_True by (by right).
  - rewrite option_guard_False; [done |]. intros [? | ?]; [done | lia].
Qed.

Lemma sweep_ok active s mr : mirror_ok mr -> mirror_ok (sweep active s mr).
Proof.
  intros [Hl Hr Hs]. constructor; cbn; [by rewrite length_fmap | done |]. apply Forall_fmap. eapply Forall_impl; [exact Hs |].
  intros sh Hz. cbn in *. eapply Z.le_trans; [| exact Hz]. apply Nat2Z.inj_le. apply size_filter_le.
Qed.

(** What a converged mirror answers for an address: the scan, except that a
    removal since it started stands, and so does an entry written since it
    started which the scan does not have. *)
Definition converged (active : gmap addr mentry) (s : Z) (mr : mirror) (a : addr) (now : Z) : option gostring :=
  match active !! a with
  | Some e => if removed_after s mr a then mget mr a now else live_reason now (Some e)
  | None => match peek mr a with Some e => if s <=? me_insertedAt e then live_reason now (Some e) else None | None => None end
  end.

Lemma list_to_map_order (active : gmap addr mentry) order : order ≡ₚ map_to_list active ->
  NoDup order.*1 /\ (list_to_map order : gmap addr mentry) = active.
Proof.
  intros Hp. assert (Hn : NoDup order.*1) by (rewrite Hp; apply NoDup_fst_map_to_list). split; [done |].
  by rewrite (list_to_map_proper order _ Hn Hp), list_to_map_to_list.
Qed.

Lemma reconcile_spec active order s all mr complete mr' : order ≡ₚ map_to_list active ->
  map_Forall (fun _ e => me_insertedAt e = s) active -> mirror_ok mr ->
  reconcile active order s all mr = (complete, mr') ->
  mirror_ok mr' /\ mr_dropped mr <= mr_dropped mr' /\ complete = all && (mr_dropped mr' =? mr_dropped mr) /\
  (complete = true -> forall a now, s <= now -> mget mr' a now = converged active s mr a now).
Proof.
  intros Ho Hins Hok Hr. destruct (list_to_map_order _ _ Ho) as [Hnd Hmap]. unfold reconcile in Hr.
  set (mr0 := if all then sweep active s mr else mr) in Hr.
  assert (Hok0 : mirror_ok mr0) by (unfold mr0; destruct all; [by apply sweep_ok | done]).
  assert (Hd0 : mr_dropped mr0 = mr_dropped mr) by (unfold mr0; by destruct all).
  assert (Hf : forall now, s <= now -> Forall (fun kv => me_insertedAt kv.2 <= now) order).
  { intros now Hn. rewrite Ho. apply map_Forall_to_list in Hins. eapply Forall_impl; [exact Hins |]. intros [k e] He. cbn in *. lia. }
  pose proof (fun now Hn => upsert_loop s now order all mr0 Hnd (Hf now Hn) Hok0) as Hloop. cbv zeta in Hloop.
  destruct (fold_left _ order (all, mr0)) as [c mr1] eqn:Efold. cbn [fst snd] in Hloop. injection Hr as <- <-.
  destruct (Hloop s (Z.le_refl s)) as (Hok1 & Hle & Hc & _). rewrite Hd0 in Hle, Hc. unfold pruneTombstones. cbn [with_tombs mr_dropped].
  split_ands; [by apply (mirror_ok_shards mr1) | done | done |].
  intros Hct a now Hn. rewrite Hct in Hc. symmetry in Hc. apply andb_true_iff in Hc as [-> Hd]. apply Z.eqb_eq in Hd.
  destruct (Hloop now Hn) as (_ & _ & _ & Hl). rewrite (mget_shards mr1) by done. rewrite Hl by lia. rewrite Hmap. unfold converged.
  change (removed_after s mr0 a) with (removed_after s mr a). rewrite !mget_peek. unfold mr0. rewrite peek_sweep.
  destruct (active !! a) as [e |].
  - destruct (removed_after s mr a); [| done]. destruct (peek mr a) as [e0 |]; [| done].
    by rewrite bool_decide_eq_true_2.
  - destruct (peek mr a) as [e0 |]; [| done]. rewrite bool_decide_eq_false_2 by (by intros [? ?]). cbn [orb].
    by destruct (s <=? me_insertedAt e0).
Qed.

Lemma active_of_inserted scanStart kvs : map_Forall (fun _ e => me_insertedAt e = UnixNano scanStart) (active_of scanStart kvs).
Proof.
  unfold active_of. rewrite <- fold_left_rev_right. induction (rev kvs) as [| kv l IH]; cbn; [apply map_Forall_empty |].
  destruct (scanned scanStart kv) as [[a e] |] eqn:E; [| done]. apply map_Forall_insert_2; [| done].
  unfold scanned in E. destruct (ParseAddr _); [| done]. cbn in E. by simplify_eq.
Qed.

(** ** Local changes *)
Lemma mremove_get a t mr b now : length (mr_shards mr) = Z.to_nat shardCount ->
  mget (mremove a t mr) b now = if decide (b = a) then None else mget mr b now.
Proof.
  intros Hl. rewrite (mget_shards (with_shard a (delete a (shard mr a)) mr)) by done. rewrite !mget_peek. unfold peek.
  rewrite shard_with_shard by done. destruct (decide (b = a)) as [Hb | Hb].
  - subst b. by rewrite decide_True, lookup_delete_eq.
  - destruct (decide (shardOf b = shardOf a)) as [Hd | Hd]; [| done]. rewrite lookup_delete_ne by done. unfold shard. by rewrite Hd.
Qed.

Lemma mremove_ok a t mr : mirror_ok mr -> mirror_ok (mremove a t mr).
Proof.
  intros Hok. apply (mirror_ok_shards (with_shard a (delete a (shard mr a)) mr)); [done | done |]. apply with_shard_ok; [done |].
  pose proof (shard_size mr a Hok). pose proof (map_subseteq_size _ _ (delete_subseteq (shard mr a) a)). lia.
Qed.

Lemma do_local_mirror l m : mirror_ok (mg_mir m) -> mirror_ok (mg_mir (do_local l m)).
Proof.
  intros Hok. assert (Hset : forall a e, mirror_ok (mg_mir (let '(ok, mir) := mset a e (mg_mir m) in
    let m := with_mir mir m in if ok : bool then m else markMirrorIncomplete m))).
  { intros a e. pose proof (mset_ok a e _ Hok). by destruct (mset a e (mg_mir m)) as [[] mir]. }
  assert (Hn : forall ev now, mirror_ok (mg_mir (notifyLocked ev now m))).
  { intros ev now. unfold notifyLocked. cbn [be_Remove be_IP be_TTL be_Reason mg_mir]. destruct (be_Remove ev); [by apply mremove_ok | apply Hset]. }
  destruct l as [ev now | read ev owner now | ip reason now]; cbn [do_local]; [apply Hn | |].
  - unfold NotifyOwned. destruct read as [[current |] | e]; try done. destruct (bool_decide _); [apply Hn | done].
  - unfold Learn. destruct (ParseAddr ip); [apply Hset | done].
Qed.

Lemma sweep_at_ok active s i mr : mirror_ok mr -> mirror_ok (sweep_at active s i mr).
Proof.
  intros [Hl Hr Hs]. constructor; cbn; [by rewrite length_alter | done |]. apply Forall_alter; [done |].
  intros sh _ Hz. eapply Z.le_trans; [| exact Hz]. apply Nat2Z.inj_le. apply size_filter_le.
Qed.

Lemma enforce_step_mirror s l s' : enforce_step s l s' -> mirror_ok (mg_mir s.1) -> mirror_ok (mg_mir s'.1).
Proof.
  intros Hs Hok. destruct Hs; cbn [fst] in *; try done.
  - by apply do_local_mirror.
  - by apply sweep_at_ok.
  - destruct (removedSince_spec kv.1 (UnixNano (pe_scanStart pe)) (mg_mir m)) as (_ & Hsh & Hmax & _ & _).
    destruct (removedSince _ _ _) as [r mir]. by apply (mirror_ok_shards (mg_mir m)).
  - pose proof (mset_ok kv.1 kv.2 _ Hok). by destruct (mset _ _ _).
  - by apply (mirror_ok_shards (mg_mir m)).
  - unfold publish, publishMirrorReconcile in *. simplify_eq. cbn. by destruct (_ =? _).
Qed.

Lemma enforce_run_mirror s ls s' : enforce_run s ls s' -> mirror_ok (mg_mir s.1) -> mirror_ok (mg_mir s'.1).
Proof. induction 1; eauto using enforce_step_mirror. Qed.

Lemma mcount_bound mr : mirror_ok mr -> mcount mr <= shardCount * cap.
Proof.
  intros [Hl Hr Hs]. assert (Hz : shardCount = Z.of_nat (length (mr_shards mr))) by (rewrite Hl; done). rewrite Hz. clear Hl Hz. unfold mcount.
  induction Hs as [| s l Hs1 Hs2 IH]; cbn [foldr length]; lia.
Qed.

(** An added block is one insertion, a drop exactly when it does not fit. *)
Lemma Notify_add ev now m : be_Remove ev = false ->
  let r := mset (Unmap (be_IP ev)) (mk_mentry (be_Reason ev) (if 0 <? be_TTL ev then UnixNano (now + be_TTL ev) else 0) (UnixNano now)) (mg_mir m) in
  mg_mir (Notify ev now m) = r.2 /\ drops (DoNotify ev now) m = negb r.1.
Proof.
  intros Erem. cbn [drops]. rewrite Erem, mset_room. cbn [negb andb me_insertedAt]. split; [| done].
  unfold Notify, notifyLocked. cbn [be_Remove be_IP be_TTL be_Reason mg_mir]. rewrite Erem. by destruct (mset _ _ _) as [[] mir].
Qed.
End Mirror.

Lemma newManager_ok md interval maxEntries sinks :
  let m := newManager md interval maxEntries sinks in
  mirror_ok (mr_maxPerShard (mg_mir m)) (mg_mir m) /\ run_inv (m, Idle).
Proof.
  split; [| split; [cbn; unfold state_ok; cbn; lia | done]]. constructor; [done | cbn; lia |].
  apply Forall_replicate. rewrite map_size_empty. cbn. lia.
Qed.

(** ** A reconcile nothing interrupts *)
Lemma run_app s ls s1 ls' s2 : enforce_run s ls s1 -> enforce_run s1 ls' s2 -> enforce_run s (ls ++ ls') s2.
Proof. induction 1; [done |]. intros Hr. cbn. eapply er_step; eauto. Qed.

Lemma sweep_all {A} (f : A -> A) (l2 l1 : list A) : fold_left (fun l i => alter f i l) (seq (length l1) (length l2)) (l1 ++ l2) = l1 ++ map f l2.
Proof.
  revert l1. induction l2 as [| x l2 IH]; intros l1; [done |]. cbn [length seq fold_left map].
  rewrite alter_app_r_alt, Nat.sub_diag by done. cbn. specialize (IH (l1 ++ [f x])). rewrite length_app, Nat.add_1_r in IH.
  by rewrite <- !app_assoc in IH.
Qed.

Lemma sweep_steps pe active order todo : forall m,
  enforce_run (m, Sweeping pe active todo order) (replicate (length todo) LInner)
    (on_mirror (fun mr => fold_left (fun mr i => sweep_at active (UnixNano (pe_scanStart pe)) i mr) todo mr) m, Sweeping pe active [] order).
Proof.
  induction todo as [| i todo IH]; intros m; cbn [length replicate fold_left].
  - replace (on_mirror _ m) with m; [apply er_refl | by destruct m].
  - eapply er_step; [apply es_sweep | exact (IH _)].
Qed.

Lemma sweep_at_all active s mr :
  length (mr_shards mr) = Z.to_nat shardCount -> fold_left (fun mr i => sweep_at active s i mr) (seq 0 (Z.to_nat shardCount)) mr = sweep active s mr.
Proof.
  intros Hl. rewrite <- Hl. unfold sweep. pose proof (sweep_all (sweep_shard active s) (mr_shards mr) []) as Hs. cbn [length app] in Hs. rewrite <- Hs. clear Hs.
  generalize (seq 0 (length (mr_shards mr))). intros idx. clear Hl. revert mr. induction idx as [| i idx IH]; intros mr; cbn [fold_left]; [by destruct mr |].
  by rewrite IH.
Qed.

Lemma swept_run active kvs order pe m : active = active_of (pe_scanStart pe) kvs -> order ≡ₚ map_to_list active ->
  length (mr_shards (mg_mir m)) = Z.to_nat shardCount ->
  enforce_run (m, Scanning pe) (replicate 34 LInner) (on_mirror (sweep active (UnixNano (pe_scanStart pe))) m, Upserting pe true true order).
Proof.
  intros -> Ho Hl. change 34%nat with (1 + length (seq 0 (Z.to_nat shardCount)) + 1)%nat. rewrite !replicate_add.
  eapply run_app; [| eapply er_step; [apply es_swept | apply er_refl]]. cbn [replicate app]. eapply er_step; [by apply es_scanned |].
  pose proof (sweep_steps pe (active_of (pe_scanStart pe) kvs) order (seq 0 (Z.to_nat shardCount)) m) as Hs. unfold on_mirror in *.
  by rewrite sweep_at_all in Hs.
Qed.

Lemma upsert_steps pe all todo : forall c m,
  let r := fold_left (fun acc kv => upsert (UnixNano (pe_scanStart pe)) kv acc) todo (c, mg_mir m) in
  exists n, enforce_run (m, Upserting pe all c todo) (replicate n LInner) (with_mir r.2 m, Upserting pe all r.1 []).
Proof.
  induction todo as [| kv todo IH]; intros c m; cbn [fold_left].
  - exists 0%nat. cbn. replace (with_mir (mg_mir m) m) with m by (by destruct m). apply er_refl.
  - pose proof (es_check pe all c kv todo m) as Hc. unfold upsert at 2 4. destruct (removedSince _ _ _) as [[] mir] eqn:Er.
    + destruct (IH c (with_mir mir m)) as [n Hn]. exists (S n). eapply er_step; [exact Hc | exact Hn].
    + pose proof (es_set pe all c kv todo (with_mir mir m)) as Hset. cbn [with_mir mg_mir] in Hset.
      destruct (mset kv.1 kv.2 mir) as [ok mir2] eqn:Em. destruct (IH (c && ok) (with_mir mir2 m)) as [n Hn].
      exists (S (S n)). eapply er_step; [exact Hc |]. eapply er_step; [exact Hset | exact Hn].
Qed.

Lemma reconcile_alone pe kvs all order m m' to_sinks : order ≡ₚ map_to_list (active_of (pe_scanStart pe) kvs) ->
  length (mr_shards (mg_mir m)) = Z.to_nat shardCount ->
  reconcile_finish pe (Ok (kvs, all)) order m = (m', to_sinks) ->
  exists n, enforce_run (m, Scanning pe) (replicate n LInner ++ [LPublish]) (m', Idle).
Proof.
  intros Ho Hl. unfold reconcile_finish, reconcile. set (s := UnixNano (pe_scanStart pe)). set (mr0 := if all then sweep _ s (mg_mir m) else mg_mir m).
  assert (Hstart : exists n, enforce_run (m, Scanning pe) (replicate n LInner) (with_mir mr0 m, Upserting pe all all order)).
  { unfold mr0. destruct all.
    - exists 34%nat. by apply (swept_run _ kvs).
    - exists 1%nat. replace (with_mir (mg_mir m) m) with m by (by destruct m). eapply er_step; [by apply (es_partial pe kvs) | apply er_refl]. }
  destruct Hstart as [n1 H1]. destruct (upsert_steps pe all order all (with_mir mr0 m)) as [n2 H2]. cbn [with_mir mg_mir] in H2. fold s in H2.
  destruct (fold_left _ order (all, mr0)) as [c mr1] eqn:Ef. cbn [fst snd] in H2. intros Hp.
  exists (n1 + n2 + 1)%nat. rewrite !replicate_add, <- !app_assoc. eapply run_app; [exact H1 |]. eapply run_app; [exact H2 |].
  eapply er_step; [apply es_prune |]. eapply er_step; [| apply er_refl]. eapply es_publish. exact Hp.
Qed.

(** ** Two races of the reconciler

    Both come from scanned entries being written over what happened since the
    scan: the removal check and the insertion are separate critical sections,
    and the insertion never looks at when the entry it replaces was written. *)
Module ReconcileRace.
Definition ip : gostring := lit "192.0.2.7".
Definition target : addr := V4 3221225991.
Definition key (expires : Z) : KV := mk_kv (lit "block:192.0.2.7") (BlockValue (lit "scan") 1) (Some expires).
Definition m0 : manager := newManager (Some ModeAuthoritative) (10 * second) 64 0.
Definition began : Z := 100 * second.
Definition pe : pending := reconcile_begin began m0.

(** The operator's unblock lands between the removal check and the insertion. *)
Definition unblock : local := DoNotify (mk_bevent target [] 0 true) (101 * second).
Definition stale : list KV := [key (3700 * second)].
Definition order : list (addr * mentry) := map_to_list (active_of began stale).
Definition swept : manager := on_mirror (sweep (active_of began stale) (UnixNano began)) m0.
Definition resurrected : manager :=
  let m := do_local unblock swept in
  let m := with_mir (fold_left (fun mr kv => (mset kv.1 kv.2 mr).2) order (mg_mir m)) m in
  (publish pe true true (on_mirror (pruneTombstones (UnixNano began)) m)).1.

(** An operator's block of an hour is written while the scan returns the one
    that is about to expire. *)
Definition longer : local := DoNotify (mk_bevent target (lit "operator") hour false) (101 * second).
Definition shorter : list KV := [key (103 * second)].
Definition shortened : manager := (reconcile_finish pe (Ok (shorter, true)) (map_to_list (active_of began shorter)) (do_local longer m0)).1.
End ReconcileRace.

(** The unblocked address is denied again, from a mirror that says it is
    complete, until the next reconcile. *)
Theorem unblock_resurrected_by_reconcile :
  (exists before after, enforce_run (ReconcileRace.m0, Idle) (before ++ LLocal false :: after) (ReconcileRace.resurrected, Idle) /\ LBegin ∈ before /\ LPublish ∈ after) /\
  ReadThrough ReconcileRace.resurrected = false /\ Lookup ReconcileRace.ip (200 * second) ReconcileRace.resurrected = Some (lit "scan").
Proof.
  split; [| by vm_compute].
  pose proof (swept_run (active_of ReconcileRace.began ReconcileRace.stale) ReconcileRace.stale ReconcileRace.order ReconcileRace.pe ReconcileRace.m0 eq_refl ltac:(done) eq_refl) as Hn.
  exists (LBegin :: replicate 34 LInner ++ [LInner]), [LInner; LInner; LPublish]. split; [| split; [by left | set_solver]].
  cbn [app]. eapply er_step; [apply (es_begin ReconcileRace.began) |]. rewrite <- app_assoc. eapply run_app; [exact Hn |]. cbn [app].
  set (kv := (ReconcileRace.target, mk_mentry (lit "scan") (3700 * second) ReconcileRace.began)).
  replace ReconcileRace.order with [kv] by (by vm_compute).
  eapply er_step; [apply (es_check ReconcileRace.pe true true kv [] ReconcileRace.swept) |].
  replace (removedSince _ _ _) with (false, mg_mir ReconcileRace.swept) by (by vm_compute).
  replace (with_mir _ ReconcileRace.swept) with ReconcileRace.swept by done.
  replace false with (drops ReconcileRace.unblock ReconcileRace.swept) by (by vm_compute).
  eapply er_step; [apply es_local |]. eapply er_step; [apply es_set |].
  replace (mset kv.1 kv.2 _) with (true, (mset kv.1 kv.2 (mg_mir (do_local ReconcileRace.unblock ReconcileRace.swept))).2) by (by vm_compute).
  eapply er_step; [apply es_prune |]. eapply er_step; [| apply er_refl]. eapply es_publish.
  replace ReconcileRace.resurrected with (publish ReconcileRace.pe true true (on_mirror (pruneTombstones (UnixNano (pe_scanStart ReconcileRace.pe)))
    (with_mir (mset kv.1 kv.2 (mg_mir (do_local ReconcileRace.unblock ReconcileRace.swept))).2 (do_local ReconcileRace.unblock ReconcileRace.swept)))).1 by (by vm_compute).
  apply surjective_pairing.
Qed.

(** The address blocked for an hour passes seconds later, from a mirror that
    says it is complete, until the next reconcile. *)
Theorem stale_scan_shortens_newer_block :
  (exists n, enforce_run (ReconcileRace.m0, Idle) (LBegin :: LLocal false :: replicate n LInner ++ [LPublish]) (ReconcileRace.shortened, Idle)) /\
  Lookup ReconcileRace.ip (104 * second) (do_local ReconcileRace.longer ReconcileRace.m0) = Some (lit "operator") /\
  ReadThrough ReconcileRace.shortened = false /\ Lookup ReconcileRace.ip (104 * second) ReconcileRace.shortened = None.
Proof.
  split; [| by vm_compute]. destruct (reconcile_alone ReconcileRace.pe ReconcileRace.shorter true (map_to_list (active_of ReconcileRace.began ReconcileRace.shorter)) (do_local ReconcileRace.longer ReconcileRace.m0)
    ReconcileRace.shortened (reconcile_finish ReconcileRace.pe (Ok (ReconcileRace.shorter, true)) (map_to_list (active_of ReconcileRace.began ReconcileRace.shorter)) (do_local ReconcileRace.longer ReconcileRace.m0)).2) as [n Hn];
    [done | by vm_compute | apply surjective_pairing |].
  exists n. eapply er_step; [apply (es_begin ReconcileRace.began) |]. replace false with (drops ReconcileRace.longer ReconcileRace.m0) by (by vm_compute).
  eapply er_step; [apply es_local | exact Hn].
Qed.

(** * Properties *)

(** C28: Once a local block change could not be mirrored (a block or a learned
    entry whose shard is full of entries that still count, or an owned change
    whose owner could not be read), lookups consult the store until a
    reconcile begun after the drop publishes, however changes and the critical
    sections of a running reconcile interleave. *)
Theorem dropped_block_forces_read_through md interval maxEntries sinks before l m ph after m' ph' :
  enforce_run (newManager md interval maxEntries sinks, Idle) before (m, ph) ->
  drops l m = true -> enforce_run (do_local l m, ph) after (m', ph') ->
  no_later_reconcile after -> Z.of_nat (length before + length after) + 1 < 2 ^ 63 ->
  ReadThrough m' = true.
Proof.
  intros Hb Hd Ha Hn Hlen. destruct (newManager_ok md interval maxEntries sinks) as [_ Hi0].
  destruct (enforce_run_inv _ _ _ Hb Hi0) as ([Hok Hpe] & Hg & _); [cbn [fst]; change (generation (newManager md interval maxEntries sinks)) with 0; lia |].
  cbn [fst snd] in *. change (generation (newManager md interval maxEntries sinks)) with 0 in Hg.
  destruct (do_local_spec l m Hok) as [Hok' Hspec]; [lia |]. rewrite Hd in Hspec. destruct Hspec as [Hg' Hc'].
  assert (Hc : mirrorComplete m' = false).
  { apply (run_fenced _ _ _ Ha); cbn [fst snd]; try done; [split; [done |] | lia |]; intros pe Hp; specialize (Hpe pe Hp); cbn [fst]; lia. }
  unfold ReadThrough. rewrite Hc. apply orb_true_r.
Qed.

(** A reconcile whose generation still stands ends read-through exactly
    when the scan was complete and every entry fitted; then every address
    reads as the scan says, except that removals and writes since the scan
    started stand where the scan has them not, and only a complete snapshot
    with no later change reaches the sinks. *)
Theorem reconcile_converges_mirror cap pe kvs all order m m' to_sinks :
  mg_Mode m = ModeAuthoritative -> state_ok m -> mirror_ok cap (mg_mir m) -> pe_generation pe = generation m ->
  order ≡ₚ map_to_list (active_of (pe_scanStart pe) kvs) ->
  reconcile_finish pe (Ok (kvs, all)) order m = (m', to_sinks) ->
  ReadThrough m' = negb (all && (mr_dropped (mg_mir m') =? mr_dropped (mg_mir m))) /\
  (to_sinks = true <-> all = true /\ mg_sinkGeneration m = pe_sinkGeneration pe) /\
  mirror_ok cap (mg_mir m') /\
  (ReadThrough m' = false -> forall ip now, UnixNano (pe_scanStart pe) <= UnixNano now ->
     Lookup ip now m' = (a ← ParseAddr ip;
       converged (active_of (pe_scanStart pe) kvs) (UnixNano (pe_scanStart pe)) (mg_mir m) (Unmap a) (UnixNano now))).
Proof.
  intros Hmode Hok Hmir Hgen Ho Hf. unfold reconcile_finish in Hf.
  destruct (reconcile _ order _ all (mg_mir m)) as [c mir] eqn:Er.
  destruct (reconcile_spec cap _ _ _ _ _ _ _ Ho (active_of_inserted _ _) Hmir Er) as (Hmir' & Hle & Hc & Hconv).
  assert (Hg : generation (with_mir mir m) = pe_generation pe) by (rewrite Hgen; done).
  destruct (publish_spec (pe_generation pe) c (with_mir mir m) Hok Hg) as (_ & _ & Hcomp).
  unfold publish in Hf. destruct (same_word (publishMirrorReconcile (pe_generation pe) c (with_mir mir m)) m') as [_ Hw]; [by simplify_eq |].
  assert (Hm' : mg_mir m' = mir /\ mg_Mode m' = mg_Mode m /\ mg_seeded m' = true).
  { injection Hf as <- _. unfold publishMirrorReconcile. by rewrite Hg, Z.eqb_refl. }
  destruct Hm' as (Em & Emode & Eseed).
  assert (Hrt : ReadThrough m' = negb c) by (unfold ReadThrough; rewrite Emode, Hmode, Eseed, Hw, Hcomp; by rewrite bool_decide_eq_false_2).
  rewrite Hrt, Em, <- Hc. split_ands; [done | | done |].
  - assert (to_sinks = all && (mg_sinkGeneration m =? pe_sinkGeneration pe)) as ->.
    { injection Hf as _ <-. unfold publishMirrorReconcile. by rewrite Hg, Z.eqb_refl. }
    by rewrite andb_true_iff, Z.eqb_eq.
  - intros Hct%negb_false_iff ip now Hn. unfold Lookup. rewrite Em. destruct (ParseAddr ip) as [a |]; [| done]. by apply Hconv.
Qed.

(** A notified removal or block is what the next lookup of any spelling of
    that address sees until the block lapses, every other address keeps its
    answer, and a block that does not fit turns read-through on. *)
Theorem notified_change_takes_effect cap ev now m ip now' a :
  mirror_ok cap (mg_mir m) -> state_ok m -> generation m + 1 < 2 ^ 63 -> ParseAddr ip = Some a -> UnixNano now <= UnixNano now' ->
  Lookup ip now' (Notify ev now m) =
    (if bool_decide (Unmap a = Unmap (be_IP ev)) then
       if be_Remove ev then None
       else if drops (DoNotify ev now) m then Lookup ip now' m
       else live_reason (UnixNano now')
              (Some (mk_mentry (be_Reason ev) (if 0 <? be_TTL ev then UnixNano (now + be_TTL ev) else 0) (UnixNano now)))
     else Lookup ip now' m) /\
  (drops (DoNotify ev now) m = true -> ReadThrough (Notify ev now m) = true).
Proof.
  intros Hmir Hok Hg Hp Hn. destruct (do_local_spec (DoNotify ev now) m Hok Hg) as [_ Hspec]. cbn [do_local] in Hspec. split.
  - unfold Lookup. rewrite Hp. destruct (be_Remove ev) eqn:Erem.
    + unfold Notify, notifyLocked. cbn [be_Remove be_IP mg_mir]. rewrite Erem. cbn [with_mir mg_mir].
      rewrite mremove_get by apply Hmir. destruct (decide (Unmap a = Unmap (be_IP ev))); [by rewrite bool_decide_eq_true_2 | by rewrite bool_decide_eq_false_2].
    + destruct (Notify_add ev now m Erem) as [-> ->].
      rewrite (mset_get cap) by done. destruct (mset _ _ _).1; case_bool_decide; done.
  - intros Hd. rewrite Hd in Hspec. destruct Hspec as [_ Hc]. unfold ReadThrough. rewrite Hc. apply orb_true_r.
Qed.

(** In every reachable state the mirror holds at most the configured
    number of entries (at least one per shard). *)
Theorem mirror_stays_bounded md interval maxEntries sinks ls m ph :
  enforce_run (newManager md interval maxEntries sinks, Idle) ls (m, ph) ->
  ms_Entries (Status m) <= Z.max shardCount (if maxEntries <=? 0 then Z.shiftl 1 20 else maxEntries).
Proof.
  intros Hr. destruct (newManager_ok md interval maxEntries sinks) as [Hok _]. apply (enforce_run_mirror _ _ _ _ Hr) in Hok.
  pose proof (mcount_bound _ _ Hok) as Hb. cbn [fst ms_Entries Status] in *. etransitivity; [exact Hb |]. cbn [newManager mg_mir newMirror mr_maxPerShard].
  set (n := if maxEntries <=? 0 then _ else _). assert (0 < n) by (unfold n; destruct (maxEntries <=? 0) eqn:E; [done | bool_to_prop; lia]).
  pose proof (Z.quot_div_nonneg n shardCount ltac:(lia) ltac:(done)) as ->. unfold shardCount.
  pose proof (Z.mul_div_le n 32 ltac:(lia)). lia.
Qed.

Lemma no_later_without_begin ls : LBegin ∉ ls -> no_later_reconcile ls.
Proof. intros Hn before after ->. set_solver. Qed.

(** A mirror of one entry per shard, whose shard another address fills while
    nothing is running; a reconcile begins, and a lookup learns a block that
    has no room. *)
Definition neighbour : local := DoNotify (mk_bevent (V4 3221226023) (lit "first") 0 false) (50 * second).
Definition small : manager := newManager (Some ModeAuthoritative) (10 * second) 32 0.
Definition full : manager := do_local neighbour small.
Definition full_scan : pending := reconcile_begin ReconcileRace.began full.
Definition learned : local := DoLearn ReconcileRace.ip (lit "learned") (101 * second).

Theorem dropped_block_forces_read_through_witness :
  drops neighbour small = false /\ drops learned full = true /\
  exists m, enforce_run (do_local learned full, Scanning full_scan) (replicate 34 LInner ++ [LInner; LPublish]) (m, Idle) /\ ReadThrough m = true.
Proof.
  split; [vm_compute; reflexivity |]. assert (Hd : drops learned full = true) by (vm_compute; reflexivity). split; [exact Hd |].
  set (m1 := do_local learned full). set (m2 := on_mirror (sweep ∅ ReconcileRace.began) m1).
  set (m3 := (publish full_scan true true (on_mirror (pruneTombstones ReconcileRace.began) m2)).1).
  assert (Hr : enforce_run (m1, Scanning full_scan) (replicate 34 LInner ++ [LInner; LPublish]) (m3, Idle)).
  { eapply run_app; [by apply (swept_run ∅ [] [] full_scan m1) |]. eapply er_step; [apply es_prune |].
    eapply er_step; [eapply es_publish; apply surjective_pairing | apply er_refl]. }
  exists m3. split; [exact Hr |].
  apply (dropped_block_forces_read_through (Some ModeAuthoritative) (10 * second) 32 0 [LLocal (drops neighbour small); LBegin] learned full
    (Scanning full_scan) (replicate 34 LInner ++ [LInner; LPublish]) m3 Idle).
  - eapply er_step; [apply (es_local neighbour small Idle) |]. eapply er_step; [apply (es_begin ReconcileRace.began) | apply er_refl].
  - exact Hd.
  - exact Hr.
  - apply no_later_without_begin. apply (bool_decide_unpack _). vm_compute. exact I.
  - cbn. lia.
Defined.

Theorem reconcile_converges_mirror_witness :
  let m := (reconcile_finish ReconcileRace.pe (Ok (ReconcileRace.stale, true)) ReconcileRace.order ReconcileRace.m0).1 in
  ReadThrough m = false /\ Lookup (lit "::ffff:192.0.2.7") (3600 * second) m = Some (lit "scan") /\ Lookup ReconcileRace.ip (3700 * second) m = None.
Proof.
  set (m := (reconcile_finish ReconcileRace.pe (Ok (ReconcileRace.stale, true)) ReconcileRace.order ReconcileRace.m0).1).
  assert (Hrt : ReadThrough m = false) by (vm_compute; reflexivity).
  destruct (newManager_ok (Some ModeAuthoritative) (10 * second) 64 0) as [Hm _].
  destruct (reconcile_converges_mirror 2 ReconcileRace.pe ReconcileRace.stale true ReconcileRace.order ReconcileRace.m0 m
    (reconcile_finish ReconcileRace.pe (Ok (ReconcileRace.stale, true)) ReconcileRace.order ReconcileRace.m0).2) as (_ & _ & _ & Hl).
  - reflexivity.
  - split; vm_compute; [discriminate | reflexivity].
  - exact Hm.
  - reflexivity.
  - reflexivity.
  - apply surjective_pairing.
  - cbv zeta. split; [exact Hrt |]. split; (rewrite (Hl Hrt); [vm_compute; reflexivity | vm_compute; discriminate]).
Defined.

Theorem notified_change_takes_effect_witness : Lookup ReconcileRace.ip (102 * second) (Notify (mk_bevent ReconcileRace.target (lit "operator") hour false) (101 * second) ReconcileRace.m0) = Some (lit "operator").
Proof.
  destruct (newManager_ok (Some ModeAuthoritative) (10 * second) 64 0) as [Hm _].
  destruct (notified_change_takes_effect 2 (mk_bevent ReconcileRace.target (lit "operator") hour false) (101 * second) ReconcileRace.m0 ReconcileRace.ip (102 * second) ReconcileRace.target) as [Hl _].
  - exact Hm.
  - split; vm_compute; [discriminate | reflexivity].
  - vm_compute. reflexivity.
  - vm_compute. reflexivity.
  - vm_compute. discriminate.
  - rewrite Hl. vm_compute. reflexivity.
Defined.

Theorem mirror_stays_bounded_witness :
  ms_Entries (Status (do_local ReconcileRace.longer ReconcileRace.m0)) <= 64.
Proof.
  apply (mirror_stays_bounded (Some ModeAuthoritative) (10 * second) 64 0 [LLocal (drops ReconcileRace.longer ReconcileRace.m0)] _ Idle).
  eapply er_step; [apply es_local | apply er_refl].
Defined.
