(* ===== verification/Waf.v ===== *)
(** * WAF rules (core/waf/rules.go)

    Compiling a rules document, matching a request against a rule set,
    combining and filtering sets into variants, and the reload of a changed
    file.  YAML decoding, file reading and the regular-expression engine are
    outside the source: a document arrives as its decoded records, and the class
    [Regexp] is package regexp. *)

From S2P Require Export UrlPath Netip Memory Sha256.

(** ** Package regexp

    [Parse] is [syntax.Parse(expr, syntax.Perl)]; the operators the linter does
    not look into are [OpOther]. *)
Inductive syntax_op :=
| OpLiteral (fold : bool) (runes : list Z)
| OpConcat (subs : list syntax_op)
| OpCapture (sub : syntax_op)
| OpPlus (sub : syntax_op)
| OpAlternate (subs : list syntax_op)
| OpRepeat (min : Z) (sub : syntax_op)
| OpOther.

Class Regexp := {
  regex : Type;
  Compile : gostring -> option regex;
  MatchString : regex -> gostring -> bool;
  Parse : gostring -> option syntax_op
}.

(** ** Rules *)
Inductive Action := ActionAllow | ActionDeny | ActionChallenge | ActionBlock.

#[global] Instance Action_eq_dec : EqDecision Action.
Proof. solve_decision. Defined.

Definition targetPath : Z := 1.
Definition targetQuery : Z := 2.
Definition targetUA : Z := 4.

Record ruleYAML := mk_yaml {
  y_ID : gostring;
  y_Description : gostring;
  y_Action : gostring;
  y_Targets : list gostring;
  y_Methods : list gostring;
  y_Keywords : list gostring;
  y_Regexes : list gostring
}.

Inductive rule_error :=
| NoID
| DuplicateID (id : gostring)
| NoPatterns (id : gostring)
| TargetsOnly (id : gostring)
| UnknownAction (id a : gostring)
| UnknownTarget (id t : gostring)
| EmptyMethod (id : gostring)
| EmptyKeyword (id : gostring)
| EmptyRegex (id : gostring)
| BadRegex (id expr : gostring)
| MissingIDs (ids : list gostring)
| DuplicateAcross (id first second : gostring).

Definition bytes_le (x y : gostring) : Prop := bytes_leb x y = true.
#[global] Instance bytes_le_dec x y : Decision (bytes_le x y).
Proof. unfold bytes_le. apply _. Defined.

Section Rules.
Context `{Unicode, Regexp}.

Record Rule := mk_rule {
  r_ID : gostring;
  r_Description : gostring;
  r_Action : Action;
  r_targets : Z;
  r_headers : list gostring;
  r_methods : list gostring;
  r_keywords : list gostring;
  r_regexes : list regex
}.

Record warning := mk_warning { w_rule : gostring; w_expr : gostring; w_literal : list Z }.

Record RuleSet := mk_set {
  rs_Rules : list Rule;
  rs_Warnings : list warning;
  rs_headerTargets : list gostring;
  rs_needsMethod : bool
}.

(** ** Matching *)
Record MatchInput := mk_input {
  in_Method : gostring;
  in_Path : gostring;
  in_Query : gostring;
  in_UA : gostring;
  in_Headers : gmap gostring (list gostring)
}.

Definition matchesText (r : Rule) (text : gostring) : bool :=
  if bool_decide (text = []) then false
  else existsb (fun kw => Contains kw text) (r_keywords r) || existsb (fun re => MatchString re text) (r_regexes r).

Definition has_target (t : Z) (r : Rule) : bool := negb (Z.land (r_targets r) t =? 0).

(** [in.Headers[name]]: nil for an absent name. *)
Definition header_values (h : gmap gostring (list gostring)) (name : gostring) : list gostring := default [] (h !! name).

Definition matches_patterns (r : Rule) (i : MatchInput) : bool :=
  (has_target targetPath r && matchesText r (in_Path i)) ||
  (has_target targetQuery r && matchesText r (in_Query i)) ||
  (has_target targetUA r && matchesText r (in_UA i)) ||
  existsb (fun name => existsb (matchesText r) (header_values (in_Headers i) name)) (r_headers r).

Definition is_nil {A} (l : list A) : bool := match l with [] => true | _ => false end.

Definition matches (r : Rule) (i : MatchInput) : bool :=
  if is_nil (r_methods r) then matches_patterns r i
  else if negb (bool_decide (in_Method i ∈ r_methods r)) then false
  else if is_nil (r_keywords r) && is_nil (r_regexes r) then true
  else matches_patterns r i.

(** [MatchEnforcing]: the first match, challenge rules skipped for an exempt
    request. *)
Fixpoint match_rules (rules : list Rule) (i : MatchInput) (exempt : bool) : option Rule :=
  match rules with
  | [] => None
  | r :: rest =>
    if exempt && bool_decide (r_Action r = ActionChallenge) then match_rules rest i exempt
    else if matches r i then Some r else match_rules rest i exempt
  end.
Definition MatchEnforcing (rs : RuleSet) (i : MatchInput) (exempt : bool) : option Rule := match_rules (rs_Rules rs) i exempt.
Definition Match (rs : RuleSet) (i : MatchInput) : option Rule := MatchEnforcing rs i false.

(** ** The linter *)

(** The first run of upper-case letters. *)
Fixpoint upper_run (runes run : list Z) : list Z :=
  match runes with
  | [] => run
  | r :: rest =>
    if (65 <=? r) && (r <=? 90) then upper_run rest (run ++ [r])
    else if is_nil run then upper_run rest run else run
  end.

Fixpoint requiredUppercaseLiteral (re : syntax_op) : list Z :=
  match re with
  | OpLiteral fold runes => if fold : bool then [] else upper_run runes []
  | OpConcat subs =>
    (fix first (subs : list syntax_op) : list Z :=
       match subs with
       | [] => []
       | sub :: rest => match requiredUppercaseLiteral sub with [] => first rest | lit => lit end
       end) subs
  | OpCapture sub | OpPlus sub => requiredUppercaseLiteral sub
  | OpAlternate subs =>
    (fix every (lit : list Z) (subs : list syntax_op) : list Z :=
       match subs with
       | [] => lit
       | sub :: rest => match requiredUppercaseLiteral sub with [] => [] | l => every (if is_nil lit then l else lit) rest end
       end) [] subs
  | OpRepeat min sub => if 1 <=? min then requiredUppercaseLiteral sub else []
  | OpOther => []
  end.

Definition uppercaseLiteral (expr : gostring) : list Z :=
  match Parse expr with None => [] | Some re => requiredUppercaseLiteral re end.

(** ** Compiling *)

(** [slices.Contains] guarded append. *)
Definition add_unique (x : gostring) (l : list gostring) : list gostring := if bool_decide (x ∈ l) then l else l ++ [x].

Definition headerPrefix : gostring := lit "header:".

Fixpoint compile_targets (id : gostring) (ts : list gostring) (targets : Z) (headers : list gostring) : outcome rule_error (Z * list gostring) :=
  match ts with
  | [] => Ok (targets, headers)
  | t :: rest =>
    if bool_decide (t = lit "path") then compile_targets id rest (Z.lor targets targetPath) headers
    else if bool_decide (t = lit "query") then compile_targets id rest (Z.lor targets targetQuery) headers
    else if bool_decide (t = lit "ua") then compile_targets id rest (Z.lor targets targetUA) headers
    else
      let name := ToLower (TrimSpace (if has_prefix headerPrefix t then drop (length headerPrefix) t else t)) in
      if negb (has_prefix headerPrefix t) || bool_decide (name = []) then Err (UnknownTarget id t)
      else compile_targets id rest targets (add_unique name headers)
  end.

Fixpoint compile_methods (id : gostring) (ms acc : list gostring) : outcome rule_error (list gostring) :=
  match ms with
  | [] => Ok acc
  | m :: rest =>
    let m := ToUpper (TrimSpace m) in
    if bool_decide (m = []) then Err (EmptyMethod id) else compile_methods id rest (add_unique m acc)
  end.

Fixpoint compile_keywords (id : gostring) (ks acc : list gostring) : outcome rule_error (list gostring) :=
  match ks with
  | [] => Ok acc
  | kw :: rest => if bool_decide (TrimSpace kw = []) then Err (EmptyKeyword id) else compile_keywords id rest (acc ++ [ToLower kw])
  end.

Fixpoint compile_regexes (id : gostring) (es : list gostring) (acc : list regex) (ws : list warning)
  : outcome rule_error (list regex * list warning) :=
  match es with
  | [] => Ok (acc, ws)
  | expr :: rest =>
    if bool_decide (TrimSpace expr = []) then Err (EmptyRegex id) else
    match Compile expr with
    | None => Err (BadRegex id expr)
    | Some re =>
      let lit := uppercaseLiteral expr in
      compile_regexes id rest (acc ++ [re]) (if is_nil lit then ws else ws ++ [mk_warning id expr lit])
    end
  end.

Definition compile_action (id a : gostring) : outcome rule_error Action :=
  if bool_decide (a = lit "allow") then Ok ActionAllow
  else if bool_decide (a = lit "deny") then Ok ActionDeny
  else if bool_decide (a = lit "challenge") then Ok ActionChallenge
  else if bool_decide (a = lit "block") then Ok ActionBlock
  else if bool_decide (a = []) then Ok ActionDeny
  else Err (UnknownAction id a).

Open Scope go_scope.

Definition compile_rule (y : ruleYAML) (ws : list warning) : outcome rule_error (Rule * list warning) :=
  let id := y_ID y in
  let bare := is_nil (y_Keywords y) && is_nil (y_Regexes y) in
  if bare && is_nil (y_Methods y) then Err (NoPatterns id)
  else if bare && negb (is_nil (y_Targets y)) then Err (TargetsOnly id)
  else
    let! action := compile_action id (y_Action y) in
    let initial := if is_nil (y_Targets y) && negb bare then Z.lor targetPath targetQuery else 0 in
    let! (targets, headers) := compile_targets id (y_Targets y) initial [] in
    let! methods := compile_methods id (y_Methods y) [] in
    let! keywords := compile_keywords id (y_Keywords y) [] in
    let! (regexes, ws) := compile_regexes id (y_Regexes y) [] ws in
    Ok (mk_rule id (y_Description y) action targets headers methods keywords regexes, ws).

Fixpoint compile_all (ys : list ruleYAML) (seen : gset gostring) (acc : list Rule) (ws : list warning)
  : outcome rule_error (list Rule * list warning) :=
  match ys with
  | [] => Ok (acc, ws)
  | y :: rest =>
    if bool_decide (y_ID y = []) then Err NoID
    else if bool_decide (y_ID y ∈ seen) then Err (DuplicateID (y_ID y))
    else let! (r, ws) := compile_rule y ws in compile_all rest ({[y_ID y]} ∪ seen) (acc ++ [r]) ws
  end.

(** [rebuildHints]: the sorted union of the header targets, and whether any rule
    restricts methods. *)
Definition header_union (rules : list Rule) : list gostring :=
  fold_left (fun acc r => fold_left (fun acc name => add_unique name acc) (r_headers r) acc) rules [].
Definition rebuildHints (rules : list Rule) (ws : list warning) : RuleSet :=
  mk_set rules ws (merge_sort bytes_le (header_union rules)) (existsb (fun r => negb (is_nil (r_methods r))) rules).

Definition compileRules (ys : list ruleYAML) : outcome rule_error RuleSet :=
  let! (rules, ws) := compile_all ys ∅ [] [] in Ok (rebuildHints rules ws).

(** ** Variants: combined files minus the disabled rules *)

(** [filter]'s loop: the rules kept, and the disabled IDs not met. *)
Fixpoint drop_rules (rules : list Rule) (drop : gset gostring) : list Rule * gset gostring :=
  match rules with
  | [] => ([], drop)
  | r :: rest =>
    if bool_decide (r_ID r ∈ drop) then drop_rules rest (drop ∖ {[r_ID r]})
    else let '(kept, missing) := drop_rules rest drop in (r :: kept, missing)
  end.

Definition filter_set (rs : RuleSet) (disabled : list gostring) : outcome rule_error RuleSet :=
  match disabled with
  | [] => Ok rs
  | _ =>
    let '(kept, missing) := drop_rules (rs_Rules rs) (list_to_set disabled) in
    if bool_decide (missing = ∅) then Ok (rebuildHints kept []) else Err (MissingIDs (merge_sort bytes_le (elements missing)))
  end.

(** One file's rules added to the combination; [owners] says which file an ID
    came from. *)
Fixpoint add_rules (path : gostring) (rules : list Rule) (owners : gmap gostring gostring) (acc : list Rule)
  : outcome rule_error (gmap gostring gostring * list Rule) :=
  match rules with
  | [] => Ok (owners, acc)
  | r :: rest =>
    match owners !! r_ID r with
    | Some previous => Err (DuplicateAcross (r_ID r) previous path)
    | None => add_rules path rest (<[r_ID r := path]> owners) (acc ++ [r])
    end
  end.

Fixpoint combine_files (files : list (gostring * RuleSet)) (owners : gmap gostring gostring) (acc : list Rule)
  : outcome rule_error (list Rule) :=
  match files with
  | [] => Ok acc
  | (path, rs) :: rest =>
    let! (owners, acc) := add_rules path (rs_Rules rs) owners acc in combine_files rest owners acc
  end.

Definition combineRuleSets (paths : list gostring) (sets : list RuleSet) : outcome rule_error RuleSet :=
  let! rules := combine_files (combine paths sets) ∅ [] in Ok (rebuildHints rules []).

(** ** The cache *)

(** FNV-64a. *)
Definition contentHash (raw : gostring) : Z :=
  fold_left (fun h c => wrapu64 (Z.lxor h (byteZ c) * 1099511628211)) raw 14695981039346656037.

Record ruleFile := mk_file { f_hash : Z; f_set : RuleSet }.
Record ruleVariant := mk_variant {
  v_key : gostring;
  v_paths : list gostring;
  v_disabled : list gostring;
  v_scopes : list gostring;
  v_set : RuleSet
}.
Record RuleCache := mk_cache {
  rc_files : gmap gostring ruleFile;
  rc_fileOrder : list gostring;
  rc_byKey : list ruleVariant
}.

(** [build]: with [candidate] in place of its file's set.  A variant's files are
    all in the cache, so no lookup misses. *)
Definition build (files : gmap gostring ruleFile) (v : ruleVariant) (candidate : option (gostring * RuleSet)) : outcome rule_error RuleSet :=
  let set_of path :=
    match candidate with
    | Some (p, rs) => if bool_decide (path = p) then Some rs else f_set <$> files !! path
    | None => f_set <$> files !! path
    end in
  let! combined := combineRuleSets (v_paths v) (omap set_of (v_paths v)) in filter_set combined (v_disabled v).

(** [Get]: nil for an unknown key. *)
Definition Get (key : gostring) (c : RuleCache) : option RuleSet :=
  match list_find (fun v => v_key v = key) (rc_byKey c) with Some (_, v) => Some (v_set v) | None => None end.

(** [VariantKey]. *)
Definition write_strings (values : list gostring) : gostring :=
  be_bytes 8 (Z.of_nat (length values)) ++ concat (map (fun v => be_bytes 8 (len v) ++ v) values).
Definition VariantKey (paths disabled : list gostring) : gostring :=
  match paths, disabled with
  | [p], [] => p
  | _, _ => lit "bundle" ++ Zbyte 0 :: hex_encode (Sum256 (write_strings paths ++ write_strings (merge_sort bytes_le disabled)))
  end.

Record VariantSpec := mk_vspec { vs_Paths : list gostring; vs_DisabledIDs : list gostring; vs_Scopes : list gostring }.

Inductive cache_error :=
| NoFiles (scopes : list gostring)
| EmptyPath (scopes : list gostring)
| RepeatedPath (scopes : list gostring) (path : gostring)
| Unreadable (path : gostring)
| Undecodable (path : gostring)
| BadRules (path : gostring) (e : rule_error)
| BadVariant (key : gostring) (e : rule_error).

(** The path checks of one specification. *)
Fixpoint check_paths (scopes paths : list gostring) (seen : gset gostring) : option cache_error :=
  match paths with
  | [] => None
  | p :: rest =>
    if bool_decide (TrimSpace p = []) then Some (EmptyPath scopes)
    else if bool_decide (p ∈ seen) then Some (RepeatedPath scopes p)
    else check_paths scopes rest ({[p]} ∪ seen)
  end.

Definition no_rules : RuleSet := mk_set [] [] [] false.

(** The variants of the specifications, and the files in the order of their
    first mention; the sets come later. *)
Definition add_scopes (key : gostring) (scopes : list gostring) (vs : list ruleVariant) : list ruleVariant :=
  map (fun v => if bool_decide (v_key v = key) then mk_variant (v_key v) (v_paths v) (v_disabled v) (v_scopes v ++ scopes) (v_set v) else v) vs.

Fixpoint lay_out (specs : list VariantSpec) (order : list gostring) (vs : list ruleVariant)
  : outcome cache_error (list gostring * list ruleVariant) :=
  match specs with
  | [] => Ok (order, vs)
  | spec :: rest =>
    if is_nil (vs_Paths spec) then Err (NoFiles (vs_Scopes spec)) else
    let key := VariantKey (vs_Paths spec) (vs_DisabledIDs spec) in
    if existsb (fun v => bool_decide (v_key v = key)) vs then lay_out rest order (add_scopes key (vs_Scopes spec) vs)
    else match check_paths (vs_Scopes spec) (vs_Paths spec) ∅ with
         | Some e => Err e
         | None => lay_out rest (fold_left (fun acc p => add_unique p acc) (vs_Paths spec) order)
                     (vs ++ [mk_variant key (vs_Paths spec) (vs_DisabledIDs spec) (vs_Scopes spec) no_rules])
         end
  end.

(** [read] is [safefile.Read] bounded by [maxRulesBytes], [decode] the YAML
    decoder refusing unknown fields and a second document. *)
Section Cache.
Variable decode : gostring -> option (list ruleYAML).

Definition compile_file (path raw : gostring) : outcome cache_error RuleSet :=
  match decode raw with
  | None => Err (Undecodable path)
  | Some ys => match compileRules ys with Ok rs => Ok rs | Err e => Err (BadRules path e) end
  end.

Definition loadSource (read : gostring -> option gostring) (path : gostring) : outcome cache_error ruleFile :=
  match read path with
  | None => Err (Unreadable path)
  | Some raw => let! rs := compile_file path raw in Ok (mk_file (contentHash raw) rs)
  end.

Fixpoint load_files (read : gostring -> option gostring) (paths : list gostring) (files : gmap gostring ruleFile)
  : outcome cache_error (gmap gostring ruleFile) :=
  match paths with
  | [] => Ok files
  | p :: rest => let! f := loadSource read p in load_files read rest (<[p := f]> files)
  end.

Definition with_set (v : ruleVariant) (rs : RuleSet) : ruleVariant := mk_variant (v_key v) (v_paths v) (v_disabled v) (v_scopes v) rs.

Fixpoint build_all (files : gmap gostring ruleFile) (vs : list ruleVariant) : outcome cache_error (list ruleVariant) :=
  match vs with
  | [] => Ok []
  | v :: rest =>
    match build files v None with
    | Err e => Err (BadVariant (v_key v) e)
    | Ok rs => let! rest := build_all files rest in Ok (with_set v rs :: rest)
    end
  end.

Definition NewRuleCacheVariants (read : gostring -> option gostring) (specs : list VariantSpec) : outcome cache_error RuleCache :=
  let! (order, vs) := lay_out specs [] [] in
  let! files := load_files read order ∅ in
  let! vs := build_all files vs in
  Ok (mk_cache files order vs).

(** The rebuilt dependents of [path], the other variants as they are; [None] if
    one does not build. *)
Fixpoint rebuild (files : gmap gostring ruleFile) (path : gostring) (candidate : RuleSet) (vs : list ruleVariant) : option (list ruleVariant) :=
  match vs with
  | [] => Some []
  | v :: rest =>
    if bool_decide (path ∈ v_paths v) then
      match build files v (Some (path, candidate)) with
      | Err _ => None
      | Ok rs => rest ← rebuild files path candidate rest; Some (with_set v rs :: rest)
      end
    else rest ← rebuild files path candidate rest; Some (v :: rest)
  end.

(** One file of [reloadChanged]. *)
Definition reload_file (read : gostring -> option gostring) (c : RuleCache) (path : gostring) : RuleCache :=
  match read path, rc_files c !! path with
  | Some raw, Some f =>
    let hash := contentHash raw in
    if hash =? f_hash f then c else
    match compile_file path raw with
    | Err _ => mk_cache (<[path := mk_file hash (f_set f)]> (rc_files c)) (rc_fileOrder c) (rc_byKey c)
    | Ok rs =>
      match rebuild (rc_files c) path rs (rc_byKey c) with
      | None => c
      | Some vs => mk_cache (<[path := mk_file hash rs]> (rc_files c)) (rc_fileOrder c) vs
      end
    end
  | _, _ => c
  end.

Definition reloadChanged (read : gostring -> option gostring) (c : RuleCache) : RuleCache :=
  fold_left (reload_file read) (rc_fileOrder c) c.
End Cache.
End Rules.

(** ** Matching and exemption *)
Section Matching.
Context `{Unicode, Regexp}.

Definition security_rule (r : Rule) : bool := negb (bool_decide (r_Action r = ActionChallenge)).

Lemma match_exempt_filter rules i : match_rules rules i true = match_rules (List.filter security_rule rules) i false.
Proof.
  induction rules as [| r rules IH]; [done |]. cbn [match_rules List.filter andb]. unfold security_rule at 1.
  destruct (bool_decide (r_Action r = ActionChallenge)); cbn [negb]; [done |]. cbn [match_rules andb]. by rewrite IH.
Qed.

Lemma match_rules_Some rules i exempt r : match_rules rules i exempt = Some r ->
  r ∈ rules /\ matches r i = true /\ (exempt = true -> r_Action r <> ActionChallenge).
Proof.
  induction rules as [| r0 rules IH]; [done |]. cbn [match_rules].
  destruct (exempt && bool_decide (r_Action r0 = ActionChallenge)) eqn:Ee.
  - intros Hm. destruct (IH Hm) as (Hin & Hrest). split; [by right | done].
  - destruct (matches r0 i) eqn:Em.
    + intros [= ->]. split_ands; [by left | done |]. intros ->. simpl in Ee. by apply bool_decide_eq_false in Ee.
    + intros Hm. destruct (IH Hm) as (Hin & Hrest). split; [by right | done].
Qed.

(** Exemption looks past challenge rules and past nothing else. *)
Lemma match_exempt_security rules i r : match_rules rules i false = Some r -> r_Action r <> ActionChallenge ->
  match_rules rules i true = Some r.
Proof.
  induction rules as [| r0 rules IH]; [done |]. cbn [match_rules andb]. destruct (matches r0 i) eqn:Em.
  - intros [= ->] Ha. by rewrite bool_decide_eq_false_2.
  - intros Hm Ha. destruct (bool_decide _); [by apply IH | by apply IH].
Qed.

(** A request is judged by what the rules look at: its method if some rule
    restricts it, and the headers they name. *)
Lemma matches_ext r i j : in_Path i = in_Path j -> in_Query i = in_Query j -> in_UA i = in_UA j ->
  (r_methods r <> [] -> in_Method i = in_Method j) ->
  (forall name, name ∈ r_headers r -> header_values (in_Headers i) name = header_values (in_Headers j) name) ->
  matches r i = matches r j.
Proof.
  intros Hp Hq Hu Hm Hh.
  assert (Hpat : matches_patterns r i = matches_patterns r j).
  { unfold matches_patterns. rewrite Hp, Hq, Hu. f_equal. revert Hh. induction (r_headers r) as [| n ns IH]; [done |]. intros Hh.
    cbn [existsb]. rewrite Hh by (by left). f_equal. apply IH. intros name Hn. apply Hh. by right. }
  unfold matches. rewrite Hpat. destruct (is_nil (r_methods r)) eqn:En; [done |].
  rewrite Hm; [done |]. by destruct (r_methods r).
Qed.

Lemma match_rules_ext rules i j exempt : (forall r, r ∈ rules -> matches r i = matches r j) ->
  match_rules rules i exempt = match_rules rules j exempt.
Proof.
  induction rules as [| r rules IH]; [done |]. intros Hr. cbn [match_rules]. rewrite Hr by (by left).
  rewrite IH; [done |]. intros r' Hr'. apply Hr. by right.
Qed.

(** ** Hints *)
Lemma add_unique_in x l y : y ∈ add_unique x l <-> y = x \/ y ∈ l.
Proof. unfold add_unique. case_bool_decide as Hx; [naive_solver |]. rewrite elem_of_app, list_elem_of_singleton. naive_solver. Qed.

Lemma add_all_in ns : forall l y, y ∈ fold_left (fun acc name => add_unique name acc) ns l <-> y ∈ ns \/ y ∈ l.
Proof.
  induction ns as [| n ns IH]; intros l y; cbn [fold_left]; [set_solver |].
  rewrite IH, add_unique_in, elem_of_cons. naive_solver.
Qed.

Lemma header_union_in rules y : y ∈ header_union rules <-> exists r, r ∈ rules /\ y ∈ r_headers r.
Proof.
  unfold header_union. assert (Hg : forall acc, y ∈ fold_left (fun acc r => fold_left (fun acc name => add_unique name acc) (r_headers r) acc) rules acc <->
    (exists r, r ∈ rules /\ y ∈ r_headers r) \/ y ∈ acc); [| rewrite Hg; set_solver].
  induction rules as [| r rules IH]; intros acc; cbn [fold_left]; [set_solver |]. rewrite IH, add_all_in. set_solver.
Qed.

Definition hints_ok (rs : RuleSet) : Prop :=
  (forall r name, r ∈ rs_Rules rs -> name ∈ r_headers r -> name ∈ rs_headerTargets rs) /\
  (forall r, r ∈ rs_Rules rs -> r_methods r <> [] -> rs_needsMethod rs = true).

Lemma rebuildHints_ok rules ws : hints_ok (rebuildHints rules ws).
Proof.
  split; unfold rebuildHints; cbn [rs_Rules rs_headerTargets rs_needsMethod].
  - intros r name Hr Hn. rewrite merge_sort_Permutation, header_union_in. eauto.
  - intros r Hr Hm. apply existsb_exists. exists r. split; [by apply list_elem_of_In | by destruct (r_methods r)].
Qed.

(** ** Combining and filtering *)
Lemma add_rules_ok path rules : forall owners acc owners' acc', add_rules path rules owners acc = Ok (owners', acc') ->
  (forall id, is_Some (owners !! id) <-> id ∈ map r_ID acc) -> NoDup (map r_ID acc) ->
  acc' = acc ++ rules /\ NoDup (map r_ID acc') /\ (forall id, is_Some (owners' !! id) <-> id ∈ map r_ID acc').
Proof.
  induction rules as [| r rules IH]; intros owners acc owners' acc'; cbn [add_rules].
  - intros [= <- <-]. by rewrite app_nil_r.
  - destruct (owners !! r_ID r) as [prev |] eqn:Eo; [done |]. intros Ha Ho Hn.
    destruct (IH _ _ _ _ Ha) as (-> & Hn' & Ho').
    + intros id. rewrite map_app, elem_of_app, lookup_insert_is_Some. cbn [map]. rewrite list_elem_of_singleton, <- Ho.
      destruct (decide (id = r_ID r)); naive_solver.
    + rewrite map_app. apply NoDup_app. cbn [map]. split_ands; [done | | apply NoDup_singleton].
      intros id Hid ->%list_elem_of_singleton. apply Ho in Hid. rewrite Eo in Hid. by destruct Hid.
    + rewrite <- app_assoc in *. done.
Qed.

Lemma combine_files_ok files : forall owners acc rules, combine_files files owners acc = Ok rules ->
  (forall id, is_Some (owners !! id) <-> id ∈ map r_ID acc) -> NoDup (map r_ID acc) ->
  rules = acc ++ concat (map (fun f => rs_Rules f.2) files) /\ NoDup (map r_ID rules).
Proof.
  induction files as [| [path rs] files IH]; intros owners acc rules; cbn [combine_files].
  - intros [= <-]. by rewrite app_nil_r.
  - destruct (add_rules path (rs_Rules rs) owners acc) as [[owners' acc'] | e] eqn:Ea; [| done]. intros Hc Ho Hn.
    destruct (add_rules_ok _ _ _ _ _ _ Ea Ho Hn) as (-> & Hn' & Ho'). destruct (IH _ _ _ Hc Ho' Hn') as [-> Hn2].
    split; [| done]. cbn [map concat snd]. by rewrite <- app_assoc.
Qed.

Lemma combineRuleSets_ok paths sets rs : length paths = length sets -> combineRuleSets paths sets = Ok rs ->
  rs_Rules rs = concat (map rs_Rules sets) /\ NoDup (map r_ID (rs_Rules rs)) /\ hints_ok rs.
Proof.
  unfold combineRuleSets. intros Hl. destruct (combine_files _ _ _) as [rules | e] eqn:Ec; [| done]. intros [= <-].
  destruct (combine_files_ok _ _ _ _ Ec) as [-> Hn]; [| constructor |].
  - intros id. rewrite lookup_empty. split; [by intros [] | by intros ?%not_elem_of_nil].
  - split_ands; [| done | apply rebuildHints_ok]. cbn [rebuildHints rs_Rules app].
    assert (map (fun f : gostring * RuleSet => rs_Rules f.2) (combine paths sets) = map rs_Rules sets) as ->; [| done].
    clear Ec Hn. revert sets Hl. induction paths as [| p paths IH]; intros [| s sets] Hl; try done. simpl. f_equal. apply IH. by injection Hl.
Qed.

Definition kept (disabled : list gostring) (r : Rule) : bool := negb (bool_decide (r_ID r ∈ disabled)).

Lemma drop_rules_spec rules : forall drop, NoDup (map r_ID rules) ->
  (drop_rules rules drop).1 = List.filter (fun r => negb (bool_decide (r_ID r ∈ drop))) rules /\
  (drop_rules rules drop).2 = drop ∖ list_to_set (map r_ID rules).
Proof.
  induction rules as [| r rules IH]; intros drop Hn; cbn [drop_rules]; [split; [done | set_solver] |].
  cbn [map] in Hn. apply NoDup_cons in Hn as [Hr Hn]. cbn [List.filter].
  destruct (bool_decide (r_ID r ∈ drop)) eqn:Ed; cbn [negb].
  - destruct (IH (drop ∖ {[r_ID r]}) Hn) as [-> ->]. split; [| cbn [map list_to_set]; set_solver].
    clear -Hr. induction rules as [| r' rules IH]; [done |]. cbn [List.filter map] in *. apply not_elem_of_cons in Hr as [Hne Hr].
    rewrite IH by done. assert (bool_decide (r_ID r' ∈ drop ∖ {[r_ID r]}) = bool_decide (r_ID r' ∈ drop)) as ->; [| done].
    apply bool_decide_ext. set_solver.
  - apply bool_decide_eq_false in Ed. destruct (IH drop Hn) as [H1 H2]. destruct (drop_rules rules drop) as [k m]. cbn [fst snd] in *.
    subst. split; [done |]. cbn [map list_to_set]. set_solver.
Qed.

Lemma filter_set_ok rs disabled rs' : NoDup (map r_ID (rs_Rules rs)) -> hints_ok rs -> filter_set rs disabled = Ok rs' ->
  rs_Rules rs' = List.filter (kept disabled) (rs_Rules rs) /\ disabled ⊆ map r_ID (rs_Rules rs) /\ hints_ok rs'.
Proof.
  intros Hn Hh. unfold filter_set. destruct disabled as [| d ds].
  - intros [= <-]. split_ands; [| by intros ? ?%not_elem_of_nil | done]. clear Hn Hh. induction (rs_Rules rs) as [| r l IH]; [done |].
    cbn [List.filter]. assert (kept [] r = true) as ->; [| by rewrite <- IH].
    unfold kept. rewrite bool_decide_eq_false_2; [done | apply not_elem_of_nil].
  - destruct (drop_rules_spec (rs_Rules rs) (list_to_set (d :: ds)) Hn) as [H1 H2].
    destruct (drop_rules _ _) as [k m]. cbn [fst snd] in *. case_bool_decide as Hm; [| done]. intros [= <-].
    split_ands; [| | apply rebuildHints_ok].
    + cbn [rebuildHints rs_Rules]. rewrite H1. apply List.filter_ext. intros r. unfold kept. f_equal. apply bool_decide_ext.
      by rewrite elem_of_list_to_set.
    + intros x Hx. rewrite H2 in Hm. destruct (decide (x ∈ map r_ID (rs_Rules rs))) as [| Hnx]; [done |]. exfalso.
      assert (x ∈ (list_to_set (d :: ds) : gset gostring) ∖ list_to_set (map r_ID (rs_Rules rs))) as Hin by set_solver.
      rewrite Hm in Hin. set_solver.
Qed.
End Matching.

(** ** The cache stays consistent *)
Section CacheProofs.
Context `{Unicode, Regexp}.
Variable decode : gostring -> option (list ruleYAML).

Definition sets_of (files : gmap gostring ruleFile) (paths : list gostring) : list RuleSet := omap (fun p => f_set <$> files !! p) paths.

(** What a variant serves: its files' rules in order, minus the disabled ones,
    no ID twice, every disabled ID present. *)
Definition serves (files : gmap gostring ruleFile) (v : ruleVariant) : Prop :=
  let rules := concat (map rs_Rules (sets_of files (v_paths v))) in
  length (sets_of files (v_paths v)) = length (v_paths v) /\
  rs_Rules (v_set v) = List.filter (kept (v_disabled v)) rules /\
  NoDup (map r_ID rules) /\ v_disabled v ⊆ map r_ID rules /\ hints_ok (v_set v).

Definition variant_ok (files : gmap gostring ruleFile) (v : ruleVariant) : Prop :=
  (forall p, p ∈ v_paths v -> is_Some (files !! p)) /\ build files v None = Ok (v_set v).

Definition cache_ok (c : RuleCache) : Prop := Forall (variant_ok (rc_files c)) (rc_byKey c).

Lemma sets_of_length files paths : (forall p, p ∈ paths -> is_Some (files !! p)) -> length (sets_of files paths) = length paths.
Proof.
  induction paths as [| p paths IH]; [done |]. intros Hp. destruct (Hp p ltac:(by left)) as [f Hf]. unfold sets_of. cbn [omap list_omap].
  rewrite Hf. cbn [fmap option_fmap option_map length]. f_equal. apply IH. intros q Hq. apply Hp. by right.
Qed.

Lemma variant_serves files v : variant_ok files v -> serves files v.
Proof.
  intros [Hp Hb]. unfold build in Hb. fold (sets_of files (v_paths v)) in Hb.
  pose proof (sets_of_length files (v_paths v) Hp) as Hl.
  destruct (combineRuleSets _ _) as [combined | e] eqn:Ec; [| done].
  destruct (combineRuleSets_ok _ _ _ (eq_sym Hl) Ec) as (Hr & Hn & Hh). destruct (filter_set_ok _ _ _ Hn Hh Hb) as (Hf & Hd & Hh').
  unfold serves. rewrite <- Hr. done.
Qed.

Lemma omap_ext_in {A B} (f g : A -> option B) (l : list A) : (forall x, x ∈ l -> f x = g x) -> omap f l = omap g l.
Proof. induction l as [| x l IH]; [done |]. intros Hx. cbn. rewrite Hx by (by left). rewrite IH; [done |]. intros y Hy. apply Hx. by right. Qed.

Lemma build_ext files files' v : (forall p, p ∈ v_paths v -> f_set <$> files !! p = f_set <$> files' !! p) -> build files v None = build files' v None.
Proof. intros Hx. unfold build. by rewrite (omap_ext_in _ (fun p => f_set <$> files' !! p)). Qed.

Lemma build_candidate files v p h rs : build files v (Some (p, rs)) = build (<[p := mk_file h rs]> files) v None.
Proof.
  unfold build. erewrite omap_ext_in; [reflexivity |]. intros q _. simpl. case_bool_decide as Hq; [subst q; by rewrite lookup_insert_eq |].
  by rewrite lookup_insert_ne.
Qed.

Lemma rebuild_ok files p h rs : forall vs vs', rebuild files p rs vs = Some vs' -> is_Some (files !! p) ->
  Forall (variant_ok files) vs ->
  Forall (variant_ok (<[p := mk_file h rs]> files)) vs' /\
  map (fun v => (v_key v, v_paths v, v_disabled v)) vs' = map (fun v => (v_key v, v_paths v, v_disabled v)) vs.
Proof.
  induction vs as [| v vs IH]; cbn [rebuild]; intros vs' Hr Hp Hok; [injection Hr as <-; done |].
  apply Forall_cons in Hok as [[Hv1 Hv2] Hok].
  assert (Hex : forall q, q ∈ v_paths v -> is_Some (<[p := mk_file h rs]> files !! q))
    by (intros q Hq; apply lookup_insert_is_Some'; right; by apply Hv1).
  destruct (bool_decide (p ∈ v_paths v)) eqn:Ep.
  - destruct (build files v (Some (p, rs))) as [set | e] eqn:Eb; [| done].
    destruct (rebuild files p rs vs) as [vs2 |] eqn:Er; [| done]. cbn [mbind option_bind] in Hr. injection Hr as <-.
    destruct (IH vs2 eq_refl Hp Hok) as [Hok' Hm]. split; [| cbn [map]; by rewrite Hm].
    apply Forall_cons. split; [| done]. split; [done |].
    rewrite (build_candidate files v p h rs) in Eb. exact Eb.
  - apply bool_decide_eq_false in Ep. destruct (rebuild files p rs vs) as [vs2 |] eqn:Er; [| done]. cbn [mbind option_bind] in Hr. injection Hr as <-.
    destruct (IH vs2 eq_refl Hp Hok) as [Hok' Hm]. split; [| cbn [map]; by rewrite Hm].
    apply Forall_cons. split; [| done]. split; [done |]. rewrite <- Hv2. apply build_ext. intros q Hq. by rewrite lookup_insert_ne by (intros ->; done).
Qed.

(** The sets come from contents some read returned. *)
Definition provenance (seen : gostring -> gostring -> Prop) (c : RuleCache) : Prop :=
  forall p f, rc_files c !! p = Some f -> exists raw, seen p raw /\ compile_file decode p raw = Ok (f_set f).

Definition identity (c : RuleCache) : list (gostring * list gostring * list gostring) :=
  map (fun v => (v_key v, v_paths v, v_disabled v)) (rc_byKey c).

Lemma reload_file_ok (seen : gostring -> gostring -> Prop) read c p : (forall p raw, read p = Some raw -> seen p raw) ->
  cache_ok c -> provenance seen c ->
  cache_ok (reload_file decode read c p) /\ provenance seen (reload_file decode read c p) /\
  identity (reload_file decode read c p) = identity c /\ rc_fileOrder (reload_file decode read c p) = rc_fileOrder c.
Proof.
  intros Hread Hok Hpr. unfold reload_file. destruct (read p) as [raw |] eqn:Er; [| done].
  destruct (rc_files c !! p) as [f |] eqn:Ef; [| done]. destruct (_ =? _); [done |].
  destruct (compile_file decode p raw) as [rs | e] eqn:Ec.
  - destruct (rebuild (rc_files c) p rs (rc_byKey c)) as [vs |] eqn:Eb; [| done].
    destruct (rebuild_ok _ _ (contentHash raw) _ _ _ Eb ltac:(by exists f) Hok) as [Hv Hm]. split_ands; try done.
    intros q g Hq. cbn [rc_files] in Hq. apply lookup_insert_Some in Hq as [[<- <-] | [_ Hq]]; [| by apply Hpr].
    exists raw. split; [by apply Hread | done].
  - split_ands; try done.
    + unfold cache_ok in *. cbn [rc_files rc_byKey]. eapply Forall_impl; [exact Hok |]. intros v [H1 H2]. split.
      * intros q Hq. apply lookup_insert_is_Some'. right. by apply H1.
      * rewrite <- H2. apply build_ext. intros q Hq. destruct (decide (q = p)) as [-> |]; [by rewrite lookup_insert_eq, Ef | by rewrite lookup_insert_ne].
    + intros q g Hq. cbn [rc_files] in Hq. apply lookup_insert_Some in Hq as [[<- <-] | [_ Hq]]; [| by apply Hpr]. by apply (Hpr p f).
Qed.

Lemma reloadChanged_ok (seen : gostring -> gostring -> Prop) read c : (forall p raw, read p = Some raw -> seen p raw) ->
  cache_ok c -> provenance seen c ->
  cache_ok (reloadChanged decode read c) /\ provenance seen (reloadChanged decode read c) /\ identity (reloadChanged decode read c) = identity c.
Proof.
  intros Hread. unfold reloadChanged. generalize (rc_fileOrder c) as order. intros order. revert c.
  induction order as [| p order IH]; intros c Hok Hpr; cbn [fold_left]; [done |].
  destruct (reload_file_ok seen read c p Hread Hok Hpr) as (H1' & H2' & H3' & _). destruct (IH _ H1' H2') as (? & ? & ->). done.
Qed.

(** A poll whose readable files all fail to compile changes no variant. *)
Lemma reload_all_rejected read c : (forall p raw, read p = Some raw -> exists e, compile_file decode p raw = Err e) ->
  rc_byKey (reloadChanged decode read c) = rc_byKey c.
Proof.
  intros Hrej. unfold reloadChanged. generalize (rc_fileOrder c) as order. intros order. revert c.
  induction order as [| p order IH]; intros c; cbn [fold_left]; [done |]. rewrite IH. unfold reload_file.
  destruct (read p) as [raw |] eqn:Er; [| done]. destruct (Hrej p raw Er) as [e ->]. destruct (rc_files c !! p); [| done]. by destruct (_ =? _).
Qed.

Lemma load_files_ok (seen : gostring -> gostring -> Prop) read paths : (forall p raw, read p = Some raw -> seen p raw) ->
  forall files files', load_files decode read paths files = Ok files' ->
  (forall p f, files !! p = Some f -> exists raw, seen p raw /\ compile_file decode p raw = Ok (f_set f)) ->
  (forall p f, files' !! p = Some f -> exists raw, seen p raw /\ compile_file decode p raw = Ok (f_set f)) /\
  (forall p, p ∈ paths \/ is_Some (files !! p) -> is_Some (files' !! p)).
Proof.
  intros Hread. induction paths as [| p paths IH]; intros files files'; cbn [load_files].
  - intros [= <-] Hf. split; [done |]. by intros p [?%not_elem_of_nil |].
  - unfold loadSource. destruct (read p) as [raw |] eqn:Er; [| done]. destruct (compile_file decode p raw) as [rs | e] eqn:Ec; [| done].
    intros Hl Hf. destruct (IH _ _ Hl) as [H1' H2'].
    + intros q f Hq. apply lookup_insert_Some in Hq as [[<- <-] | [_ Hq]]; [| by apply Hf]. exists raw. split; [by apply Hread | done].
    + split; [done |]. intros q [[-> | Hq]%elem_of_cons | Hq]; apply H2'; [| by left |]; right; rewrite lookup_insert_is_Some'; [by left | by right].
Qed.

Lemma build_all_ok files vs : forall vs', build_all files vs = Ok vs' -> Forall (fun v => build files v None = Ok (v_set v)) vs' /\
  map v_paths vs' = map v_paths vs.
Proof.
  induction vs as [| v vs IH]; intros vs'; cbn [build_all]; [by intros [= <-] |].
  destruct (build files v None) as [rs | e] eqn:Eb; [| done]. destruct (build_all files vs) as [vs2 | e]; [| done]. intros [= <-].
  destruct (IH vs2 eq_refl) as [Hf Hm]. split; [by constructor | cbn [map]; by rewrite Hm].
Qed.

Lemma lay_out_ok specs : forall order vs order' vs', lay_out specs order vs = Ok (order', vs') ->
  (forall v, v ∈ vs -> forall p, p ∈ v_paths v -> p ∈ order) -> forall v, v ∈ vs' -> forall p, p ∈ v_paths v -> p ∈ order'.
Proof.
  induction specs as [| spec specs IH]; intros order vs order' vs'; cbn [lay_out]; [by intros [= <- <-] |].
  destruct (is_nil _); [done |]. destruct (existsb _ _).
  - intros Hl Hv. eapply IH; [exact Hl |]. intros v Hin p Hp. unfold add_scopes in Hin. apply list_elem_of_fmap in Hin as (v0 & -> & Hin).
    apply (Hv v0 Hin). by destruct (bool_decide _).
  - destruct (check_paths _ _ _); [done |]. intros Hl Hv. eapply IH; [exact Hl |]. intros v Hin p Hp. apply add_all_in.
    apply elem_of_app in Hin as [Hin | ->%list_elem_of_singleton]; [right; by eapply Hv | by left].
Qed.

Lemma NewRuleCacheVariants_ok (seen : gostring -> gostring -> Prop) read specs c : (forall p raw, read p = Some raw -> seen p raw) ->
  NewRuleCacheVariants decode read specs = Ok c -> cache_ok c /\ provenance seen c.
Proof.
  intros Hread. unfold NewRuleCacheVariants. destruct (lay_out specs [] []) as [[order vs] | e] eqn:El; [| done].
  destruct (load_files decode read order ∅) as [files | e] eqn:Ef; [| done].
  destruct (build_all files vs) as [vs' | e] eqn:Eb; [| done]. intros [= <-].
  destruct (load_files_ok seen read order Hread _ _ Ef) as [Hp1 Hp2]; [by intros p f; rewrite lookup_empty |].
  destruct (build_all_ok _ _ _ Eb) as [Hb Hm]. split; [| done]. unfold cache_ok. cbn [rc_files rc_byKey].
  apply Forall_forall. intros v Hv. rewrite Forall_forall in Hb. split; [| by apply Hb]. intros p Hp. apply Hp2. left.
  assert (Hin : v_paths v ∈ map v_paths vs) by (rewrite <- Hm; by apply list_elem_of_fmap_2).
  apply list_elem_of_fmap in Hin as (v0 & Hv0 & Hin). eapply (lay_out_ok _ _ _ _ _ El); [by intros ? ?%not_elem_of_nil | exact Hin |]. by rewrite <- Hv0.
Qed.
(** The variants of the cache are those of the specifications, under their keys. *)
Definition from_specs (specs : list VariantSpec) (id : gostring * list gostring * list gostring) : Prop :=
  id.1.1 = VariantKey id.1.2 id.2 /\ exists s, s ∈ specs /\ vs_Paths s = id.1.2 /\ vs_DisabledIDs s = id.2.
Definition id_of (v : ruleVariant) : gostring * list gostring * list gostring := (v_key v, v_paths v, v_disabled v).

Lemma lay_out_ids specs : forall seen order vs order' vs', lay_out specs order vs = Ok (order', vs') ->
  (forall v, v ∈ vs -> from_specs seen (id_of v)) ->
  (forall v, v ∈ vs' -> from_specs (seen ++ specs) (id_of v)) /\
  (forall k, k ∈ map v_key vs \/ (exists s, s ∈ specs /\ k = VariantKey (vs_Paths s) (vs_DisabledIDs s)) -> k ∈ map v_key vs').
Proof.
  induction specs as [| spec specs IH]; intros seen order vs order' vs'; cbn [lay_out].
  { intros [= <- <-] Hv. rewrite app_nil_r. split; [done |]. intros k [Hk | (s & Hs%not_elem_of_nil & _)]; done. }
  destruct (is_nil _); [done |]. destruct (existsb _ _) eqn:Ee; [| destruct (check_paths _ _ _); [done |]];
    intros Hl Hv; destruct (IH (seen ++ [spec]) _ _ _ _ Hl) as [Hids Hkeys].
  - intros v (v0 & -> & Hin)%list_elem_of_fmap. destruct (Hv v0 Hin) as [Hk (s & Hs & Hp & Hd)].
    unfold id_of in *; cbn in *. destruct (bool_decide _); (split; [done | exists s; split; [rewrite elem_of_app; by left | done]]).
  - assert (Hm : map v_key (add_scopes (VariantKey (vs_Paths spec) (vs_DisabledIDs spec)) (vs_Scopes spec) vs) = map v_key vs).
    { unfold add_scopes. rewrite map_map. apply map_ext. intros v. by destruct (bool_decide _). }
    rewrite <- app_assoc in Hids. split; [done |]. intros k [Hk | (s & [-> | Hs]%elem_of_cons & ->)]; apply Hkeys; [left; by rewrite Hm | left | right; by exists s].
    rewrite Hm. apply existsb_exists in Ee as (v & Hin%list_elem_of_In & <-%bool_decide_eq_true). by apply list_elem_of_fmap_2.
  - intros v [Hin | ->%list_elem_of_singleton]%elem_of_app.
    + destruct (Hv v Hin) as [Hk (s & Hs & Hp)]. split; [done |]. exists s. split; [rewrite elem_of_app; by left | done].
    + split; [done |]. exists spec. split; [rewrite elem_of_app; right; by left | done].
  - rewrite <- app_assoc in Hids. split; [done |]. intros k [Hk | (s & [-> | Hs]%elem_of_cons & ->)]; apply Hkeys; rewrite ?map_app, ?elem_of_app.
    + left. by left.
    + left. right. by left.
    + right. by exists s.
Qed.

Lemma build_all_ids files vs : forall vs', build_all files vs = Ok vs' -> map id_of vs' = map id_of vs.
Proof.
  induction vs as [| v vs IH]; intros vs'; cbn [build_all]; [by intros [= <-] |].
  destruct (build files v None) as [rs | e]; [| done]. destruct (build_all files vs) as [vs2 | e]; [| done]. intros [= <-].
  cbn [map]. by rewrite (IH vs2 eq_refl).
Qed.

Lemma NewRuleCacheVariants_ids read specs c : NewRuleCacheVariants decode read specs = Ok c ->
  (forall id, id ∈ identity c -> from_specs specs id) /\
  (forall s, s ∈ specs -> exists v, v ∈ rc_byKey c /\ v_key v = VariantKey (vs_Paths s) (vs_DisabledIDs s)).
Proof.
  unfold NewRuleCacheVariants. destruct (lay_out specs [] []) as [[order vs] | e] eqn:El; [| done].
  destruct (load_files decode read order ∅) as [files | e]; [| done].
  destruct (build_all files vs) as [vs' | e] eqn:Eb; [| done]. intros [= <-].
  destruct (lay_out_ids specs [] _ _ _ _ El) as [Hids Hkeys]; [by intros v ?%not_elem_of_nil |]. pose proof (build_all_ids _ _ _ Eb) as Hm. split.
  - intros id Hin. unfold identity in Hin. cbn [rc_byKey] in Hin. change (id ∈ map id_of vs') in Hin. rewrite Hm in Hin.
    apply list_elem_of_fmap in Hin as (v & -> & Hin). by apply Hids.
  - intros s Hs. specialize (Hkeys (VariantKey (vs_Paths s) (vs_DisabledIDs s))). assert (Hk : map v_key vs' = map v_key vs).
    { change v_key with (fun v => (id_of v).1.1). rewrite <- !(map_map id_of (fun x => x.1.1)). by rewrite Hm. }
    rewrite <- Hk in Hkeys. destruct (proj1 (list_elem_of_fmap v_key vs' _) (Hkeys ltac:(right; by exists s))) as (v & Hv & Hin). by exists v.
Qed.

(** The set under a key is that of a variant with that key. *)
Lemma Get_variant c key rs : Get key c = Some rs -> exists v, v ∈ rc_byKey c /\ v_key v = key /\ v_set v = rs.
Proof.
  unfold Get. destruct (list_find _ _) as [[i v] |] eqn:Ef; [| done]. intros [= <-]. apply list_find_Some in Ef as (Hl & Hk & _).
  exists v. split; [by eapply list_elem_of_lookup_2 | done].
Qed.
Lemma Get_is_Some c key : (exists v, v ∈ rc_byKey c /\ v_key v = key) -> is_Some (Get key c).
Proof.
  intros (v & Hin & Hk). unfold Get. destruct (list_find_elem_of (fun v => v_key v = key) (rc_byKey c) v Hin Hk) as [[i v'] ->]. by eexists.
Qed.
(** Any sequence of polls keeps the cache consistent and its variants. *)
Lemma reloads_seen (seen : gostring -> gostring -> Prop) reads : forall c, (forall r, r ∈ reads -> forall p raw, r p = Some raw -> seen p raw) ->
  cache_ok c -> provenance seen c ->
  let c' := fold_left (fun c r => reloadChanged decode r c) reads c in cache_ok c' /\ provenance seen c' /\ identity c' = identity c.
Proof.
  induction reads as [| r reads IH]; intros c Hin Hok Hpr; [done |]. cbn [fold_left].
  destruct (reloadChanged_ok seen r c) as (H1' & H2' & H3'); [apply Hin; by left | done | done |].
  rewrite <- H3'. apply IH; [intros r' Hr'; apply Hin; by right | done | done].
Qed.

Lemma reloads_ok read specs c reads : NewRuleCacheVariants decode read specs = Ok c ->
  let c' := fold_left (fun c r => reloadChanged decode r c) reads c in cache_ok c' /\ identity c' = identity c.
Proof.
  intros Hnew c'. destruct (NewRuleCacheVariants_ok (fun _ _ => True) read specs c) as [Hok Hpr]; [done | done |].
  destruct (reloads_seen (fun _ _ => True) reads c) as (? & _ & ?); done.
Qed.

Lemma identity_key c c' key : identity c' = identity c ->
  (exists v, v ∈ rc_byKey c /\ v_key v = key) -> exists v, v ∈ rc_byKey c' /\ v_key v = key.
Proof.
  intros Hid (v & Hin & <-). assert (Hx : id_of v ∈ identity c') by (rewrite Hid; by apply (list_elem_of_fmap_2 id_of)).
  apply list_elem_of_fmap in Hx as (v' & Hv' & Hin'). exists v'. split; [done | by injection Hv']. 
Qed.
End CacheProofs.

(** ** What a flagged expression can match

    [may_match op w]: the expression might accept the runes [w]; case-folded
    literals and [OpOther] are taken to accept anything. *)
Inductive may_match : syntax_op -> list Z -> Prop :=
| M_literal rs : may_match (OpLiteral false rs) rs
| M_folded rs w : may_match (OpLiteral true rs) w
| M_concat subs ws : Forall2 may_match subs ws -> may_match (OpConcat subs) (concat ws)
| M_capture sub w : may_match sub w -> may_match (OpCapture sub) w
| M_plus sub w ws : may_match sub w -> Forall (may_match sub) ws -> may_match (OpPlus sub) (w ++ concat ws)
| M_alternate subs sub w : sub ∈ subs -> may_match sub w -> may_match (OpAlternate subs) w
| M_repeat min sub ws : min <= Z.of_nat (length ws) -> Forall (may_match sub) ws -> may_match (OpRepeat min sub) (concat ws)
| M_other w : may_match OpOther w.

Definition upper_rune (r : Z) : Prop := 65 <= r <= 90.
Definition has_upper (w : list Z) : Prop := exists r, r ∈ w /\ upper_rune r.

Lemma syntax_op_list_ind (P : syntax_op -> Prop) :
  (forall fold rs, P (OpLiteral fold rs)) -> (forall subs, Forall P subs -> P (OpConcat subs)) -> (forall sub, P sub -> P (OpCapture sub)) ->
  (forall sub, P sub -> P (OpPlus sub)) -> (forall subs, Forall P subs -> P (OpAlternate subs)) ->
  (forall min sub, P sub -> P (OpRepeat min sub)) -> P OpOther -> forall op, P op.
Proof.
  intros Hl Hc Hcap Hp Ha Hr Ho. fix IH 1. intros [fold rs | subs | sub | sub | subs | min sub |];
    [apply Hl | apply Hc | apply Hcap, IH | apply Hp, IH | apply Ha | apply Hr, IH | apply Ho].
  - induction subs as [| s subs IHs]; constructor; [apply IH | exact IHs].
  - induction subs as [| s subs IHs]; constructor; [apply IH | exact IHs].
Qed.

Lemma upper_run_some runes : forall run, Forall upper_rune run -> upper_run runes run <> [] -> run <> [] \/ has_upper runes.
Proof.
  induction runes as [| r runes IH]; intros run Hrun; cbn [upper_run]; [by left |].
  destruct ((65 <=? r) && (r <=? 90)) eqn:E.
  - intros _. right. exists r. bool_to_prop. split; [by left | done].
  - destruct run as [| x run]; cbn [is_nil]; [| by left]. intros Hu. destruct (IH [] ltac:(constructor) Hu) as [? | (x & Hx & Hup)]; [by left |].
    right. exists x. split; [by right | done].
Qed.

Lemma has_upper_app a b : has_upper a \/ has_upper b -> has_upper (a ++ b).
Proof. intros [(r & Hr & Hu) | (r & Hr & Hu)]; exists r; rewrite elem_of_app; auto. Qed.

(** Every accepting path passes through the reported literal. *)
Lemma required_upper op : forall w, may_match op w -> requiredUppercaseLiteral op <> [] -> has_upper w.
Proof.
  induction op as [fold rs | subs IH | sub IH | sub IH | subs IH | min sub IH |] using syntax_op_list_ind; intros w Hw; cbn [requiredUppercaseLiteral].
  - inversion Hw; subst; [| done]. intros Hu. by destruct (upper_run_some w [] ltac:(constructor) Hu).
  - inversion Hw as [| | ? ws Hf | | | | |]; subst. clear Hw. induction Hf as [| s v subs ws Hs Hf IHf]; [done |].
    apply Forall_cons in IH as [IHs IH]. cbn [concat]. intros Hr. apply has_upper_app.
    destruct (requiredUppercaseLiteral s) as [| l ls] eqn:El; [right; by apply IHf | left; by apply IHs].
  - inversion Hw; subst. by apply IH.
  - inversion Hw; subst. intros Hr. apply has_upper_app. left. by apply IH.
  - inversion Hw as [| | | | | ? s ? Hin Hs | |]; subst. clear Hw.
    assert (Hg : forall lit, (fix every (lit : list Z) (subs : list syntax_op) : list Z :=
       match subs with
       | [] => lit
       | sub :: rest => match requiredUppercaseLiteral sub with [] => [] | l => every (if is_nil lit then l else lit) rest end
       end) lit subs <> [] -> has_upper w); [| apply Hg].
    induction subs as [| s0 subs IHsub]; intros lit; [by apply not_elem_of_nil in Hin |].
    apply Forall_cons in IH as [IHs IH]. destruct (requiredUppercaseLiteral s0) as [| l ls] eqn:El; [done |].
    apply elem_of_cons in Hin as [-> | Hin]; [intros _; by apply IHs | by apply IHsub].
  - inversion Hw as [| | | | | | ? ? ws Hlen Hf |]; subst. destruct (1 <=? min) eqn:Em; [| done]. bool_to_prop. intros Hr.
    destruct ws as [| v ws]; [simpl in Hlen; lia |]. apply Forall_cons in Hf as [Hv _]. cbn [concat]. apply has_upper_app. left. by apply IH.
  - done.
Qed.

(** What the engine promises: it accepts only what the parsed expression might. *)
Class RegexpLaws `{Regexp} := {
  runes : gostring -> list Z;
  match_sound : forall expr re op text, Compile expr = Some re -> Parse expr = Some op -> MatchString re text = true ->
    exists pre w post, runes text = pre ++ w ++ post /\ may_match op w
}.

(** A small world for the witnesses: an expression is a literal, and a file's
    content is the identifier and only keyword of its one rule. *)
Module Ex.
#[export] Existing Instance ascii_only.
#[export] Instance literals : Regexp := {|
  regex := gostring; Compile := fun e => Some e; MatchString := Contains; Parse := fun e => Some (OpLiteral false (map byteZ e)) |}.
#[export] Instance literals_laws : RegexpLaws.
Proof.
  refine {| runes := fun s => map byteZ s |}. intros expr re op text [= <-] [= <-] Hm. apply Contains_spec in Hm as (a & b & ->).
  exists (map byteZ a), (map byteZ expr), (map byteZ b). split; [by rewrite !map_app | constructor].
Defined.

Definition decode (raw : gostring) : option (list ruleYAML) := Some [mk_yaml raw [] [] [] [] [raw] []].
Definition specs : list VariantSpec :=
  [mk_vspec [lit "a"] [] [lit "defaults"]; mk_vspec [lit "a"; lit "b"] [lit "evil"] [lit "domain x"]].
Definition read0 (p : gostring) : option gostring := if bool_decide (p = lit "a") then Some (lit "probe") else Some (lit "evil").
(** A file that repeats another's identifier, then one that drops a disabled one. *)
Definition read1 (p : gostring) : option gostring := Some (lit "probe").
Definition cache : outcome cache_error RuleCache := NewRuleCacheVariants decode read0 specs.
End Ex.

(** * Properties *)

(** After any sequence of polls the variants are the configured ones and
    each serves, without a duplicate ID or a missing exclusion, the rules of
    its files minus its disabled ones, the rules of every file being contents
    some poll read and compiled; a poll whose readable files all fail to
    compile changes no variant. *)
Theorem waf_reload_serves_last_good `{Unicode, Regexp} decode read specs c reads :
  NewRuleCacheVariants decode read specs = Ok c ->
  let c' := fold_left (fun c r => reloadChanged decode r c) reads c in
  identity c' = identity c /\
  (forall v, v ∈ rc_byKey c' -> serves (rc_files c') v) /\
  (forall p f, rc_files c' !! p = Some f -> exists r raw, r ∈ read :: reads /\ r p = Some raw /\ compile_file decode p raw = Ok (f_set f)) /\
  (forall r, (forall p raw, r p = Some raw -> exists e, compile_file decode p raw = Err e) -> rc_byKey (reloadChanged decode r c') = rc_byKey c').
Proof.
  intros Hnew c'. set (seen := fun p raw => exists r, r ∈ read :: reads /\ r p = Some raw).
  destruct (NewRuleCacheVariants_ok decode seen read specs c) as [Hok Hpr]; [intros p raw Hr; exists read; split; [by left | done] | done |].
  destruct (reloads_seen decode seen reads c) as (Hok' & Hpr' & Hid); [intros r Hr p raw Hp; exists r; split; [by right | done] | done | done |]. fold c' in Hok', Hpr', Hid. split_ands; [done | | | intros r; apply reload_all_rejected].
  - intros v Hv. apply variant_serves. unfold cache_ok in Hok'. rewrite Forall_forall in Hok'. by apply Hok'.
  - intros p f Hf. destruct (Hpr' p f Hf) as (raw & (r & Hr & Hraw) & Hc). by exists r, raw.
Qed.

(** A proof-of-work exemption skips challenge rules only: the first rule
    that matches decides, and an exempt request is decided by the first match
    among the others. *)
Theorem waf_exemption_skips_only_challenges `{Unicode, Regexp} (rs : RuleSet) (i : MatchInput) :
  MatchEnforcing rs i true = match_rules (List.filter security_rule (rs_Rules rs)) i false /\
  (forall r, Match rs i = Some r -> r_Action r <> ActionChallenge -> MatchEnforcing rs i true = Some r) /\
  (forall r, MatchEnforcing rs i true = Some r -> r ∈ rs_Rules rs /\ matches r i = true /\ r_Action r <> ActionChallenge).
Proof.
  split_ands; [apply match_exempt_filter | intros r; apply match_exempt_security |].
  intros r Hr. destruct (match_rules_Some _ _ _ _ Hr) as (? & ? & Ha). split_ands; try done. by apply Ha.
Qed.

(** A regular expression the linter flags as impossible indeed matches no
    lower-cased text. *)
Theorem flagged_regex_never_matches `{Unicode, Regexp, !RegexpLaws} expr re text :
  Compile expr = Some re -> uppercaseLiteral expr <> [] -> ~ has_upper (runes text) -> MatchString re text = false.
Proof.
  intros Hc Hu Hno. apply not_true_iff_false. intros Hm. unfold uppercaseLiteral in Hu. destruct (Parse expr) as [op |] eqn:Ep; [| done].
  destruct (match_sound expr re op text Hc Ep Hm) as (pre & w & post & Hr & Hw). apply Hno. rewrite Hr. apply has_upper_app. right.
  apply has_upper_app. left. by eapply required_upper.
Qed.

Section Witnesses.
Import Ex.
Theorem waf_reload_serves_last_good_witness :
  exists c, Ex.cache = Ok c /\ forall v, v ∈ rc_byKey (reloadChanged Ex.decode Ex.read1 c) ->
    serves (rc_files (reloadChanged Ex.decode Ex.read1 c)) v.
Proof.
  set (c := match Ex.cache with Ok c => c | Err _ => mk_cache ∅ [] [] end).
  assert (Hc : Ex.cache = Ok c) by (vm_compute; reflexivity). exists c. split; [exact Hc |].
  destruct (waf_reload_serves_last_good Ex.decode Ex.read0 Ex.specs c [Ex.read1] Hc) as (_ & Hs & _). exact Hs.
Defined.

Theorem flagged_regex_never_matches_witness : MatchString (Regexp := Ex.literals) (lit "UNION") (lit "union select") = false.
Proof.
  apply (flagged_regex_never_matches (H0 := Ex.literals) (lit "UNION") (lit "UNION") (lit "union select") eq_refl).
  - vm_compute. discriminate.
  - intros (r & Hr & Hu). unfold upper_rune in Hu. vm_compute in Hr.
    repeat (apply elem_of_cons in Hr as [-> | Hr]; [destruct Hu; lia |]). by apply not_elem_of_nil in Hr.
Defined.
End Witnesses.
