(* ===== verification/Anomaly.v ===== *)
(** * The anomaly model (core/anomaly/model.go)

    The features of a request, the baselines a trained artifact holds, how a
    request is scored against the most specific of them, and what an artifact
    must satisfy to be loaded.  Frequencies, means and deviations are float64;
    each operation is rounded on its own, as on a platform without fused
    multiply-add.  [math.Log2] is the class [Logarithm]; the JSON codec is
    [ModelJSON]. *)

From S2P Require Export UrlPath Waf FloatSign Utf8.

Open Scope Z_scope.

(** [math.Log2]: of a share, a number that is finite and not positive. *)
Class Logarithm := {
  Log2 : float -> float;
  log2_share c n : 0 < c <= n -> n < 2 ^ 53 -> finite (Log2 (fdiv (f64 c) (f64 n))) /\ nonneg (SFopp (Log2 (fdiv (f64 c) (f64 n))))
}.

(** ** Data *)
Record SegmentKey := mk_key { k_Method : gostring; k_Route : gostring }.
#[global] Instance SegmentKey_eq_dec : EqDecision SegmentKey.
Proof. solve_decision. Defined.
#[global] Program Instance SegmentKey_countable : Countable SegmentKey :=
  inj_countable' (fun k => (k_Method k, k_Route k)) (fun x => mk_key x.1 x.2) _.
Next Obligation. by intros []. Qed.

Record Stat := mk_stat { st_Mean : float; st_Std : float }.

Record Baseline := mk_baseline {
  b_Requests : Z;
  b_PathDepth : Stat;
  b_PathLen : Stat;
  b_PathEntropy : Stat;
  b_QueryParams : Stat;
  b_UAFreq : gmap gostring float;
  b_PathPrefixFreq : gmap gostring float
}.

Record Segment := mk_segment { sg_Method : gostring; sg_Route : gostring; sg_Baseline : option Baseline }.

(** A nil index is [None], and so is a nil baseline. *)
Record DomainModel := mk_domain { dm_Baseline : option Baseline; dm_Segments : list Segment; dm_index : option (gmap SegmentKey (option Baseline)) }.

(** [mo_TrainedAt] is [None] for the zero time. *)
Record Model := mk_model { mo_Version : Z; mo_FeatureSchema : gostring; mo_TrainedAt : option Z; mo_Domains : gmap gostring (option DomainModel) }.

Inductive level := Exact | RouteOnly | MethodOnly | DomainWide | Missing.
Record ScoreResult := mk_result { rs_Score : float; rs_Found : bool; rs_Level : level; rs_Route : gostring }.

Definition ModelVersion : Z := 2.
Definition FeatureSchema : gostring := lit "decoded-uri-method-route".
Definition maxModelBytes : Z := 64 * 2 ^ 20.
Definition maxArtifactSegments : nat := Z.to_nat 4096.
Definition maxFreqEntries : nat := Z.to_nat 1000.

(** A decimal constant is the float64 nearest to it. *)
Definition zCap : float := f64 4.
Definition stdFloor : float := fdiv (f64 1) (f64 2).
Definition weightPathShape : float := fdiv (f64 35) (f64 100).
Definition weightQueryParams : float := fdiv (f64 10) (f64 100).
Definition weightUARarity : float := fdiv (f64 30) (f64 100).
Definition weightPrefixRarity : float := fdiv (f64 25) (f64 100).
Definition uaPrefixBytes : nat := 24.

Definition slash : ascii := "/"%char.

(** ** Features *)
Fixpoint depth_loop (depth : Z) (inSegment : bool) (path : gostring) : Z :=
  match path with
  | [] => depth
  | c :: rest =>
    if Ascii.eqb c slash then depth_loop depth false rest
    else if negb inSegment then depth_loop (depth + 1) true rest else depth_loop depth inSegment rest
  end.
Definition pathDepth (path : gostring) : Z := depth_loop 0 false path.

Definition count_byte (c : ascii) (s : gostring) : Z := Z.of_nat (length (List.filter (Ascii.eqb c) s)).

Definition queryParams (query : gostring) : Z :=
  if bool_decide (query = []) then 0 else count_byte "&"%char query + 1.

(** [h -= p * math.Log2(p)] for every byte value that occurs. *)
Definition entropy_term `{Logarithm} (s : gostring) (h : float) (c : ascii) : float :=
  let n := count_byte c s in
  if 0 <? n then let p := fdiv (f64 n) (f64 (Z.of_nat (length s))) in fsub h (fmul p (Log2 p)) else h.
Definition all_bytes : list ascii := map (fun n => Zbyte (Z.of_nat n)) (seq 0 256).
Definition entropy `{Logarithm} (s : gostring) : float :=
  if bool_decide (s = []) then f64 0 else fold_left (entropy_term s) all_bytes (f64 0).

(** The index of the second slash past the first byte. *)
Fixpoint second_slash (seen : nat) (i : nat) (s : gostring) : option nat :=
  match s with
  | [] => None
  | c :: rest =>
    if Ascii.eqb c slash then (if (S seen =? 2)%nat then Some i else second_slash (S seen) (S i) rest) else second_slash seen (S i) rest
  end.

Fixpoint shrink_to_valid (end_ : nat) (ua : gostring) : nat :=
  match end_ with
  | O => O
  | S e => if ValidString (take end_ ua) then end_ else shrink_to_valid e ua
  end.

Section Features.
Context `{Unicode}.

Definition uaPrefix (ua : gostring) : gostring :=
  let ua := ToLower (ToValidUTF8 ua replacement_rune) in
  if (length ua <=? uaPrefixBytes)%nat then ua else take (shrink_to_valid uaPrefixBytes ua) ua.

Definition pathPrefix (path : gostring) : gostring :=
  let path := ToLower path in
  match path with
  | [] => path
  | _ :: rest => match second_slash 0 1 rest with Some i => take i path | None => path end
  end.

(** The part before the first slash. *)
Definition before_slash (s : gostring) : gostring := match split_at_byte slash s with Some (b, _) => b | None => s end.

Definition routeKey (path : gostring) : gostring :=
  if bool_decide (path = lit "*") then lit "*" else
  let path := ToLower path in
  match path with
  | [] => lit "/"
  | c :: rest =>
    if bool_decide (path = lit "/") then lit "/"
    else if Ascii.eqb c slash then c :: before_slash rest
    else slash :: before_slash path
  end.
End Features.

(** ** Scoring *)
Definition zScore (s : Stat) (x : float) : float :=
  let std := Max (st_Std s) stdFloor in
  Min (f64 1) (fdiv (fdiv (Abs (fsub x (st_Mean s))) std) zCap).

Definition rarity (freq : gmap gostring float) (key : gostring) : float :=
  fsub (f64 1) (Min (f64 1) (fmul (default (f64 0) (freq !! key)) (f64 50))).

Section Score.
Context `{Unicode, Logarithm}.

Definition Baseline_score (b : Baseline) (path query ua : gostring) : float :=
  let pathShape := fdiv (fadd (fadd (zScore (b_PathDepth b) (f64 (pathDepth path)))
                                    (zScore (b_PathLen b) (f64 (Z.of_nat (length path)))))
                              (zScore (b_PathEntropy b) (entropy path))) (f64 3) in
  Min (f64 1)
    (fadd (fadd (fadd (fmul weightPathShape pathShape)
                      (fmul weightQueryParams (zScore (b_QueryParams b) (f64 (queryParams query)))))
                (fmul weightUARarity (rarity (b_UAFreq b) (uaPrefix ua))))
          (fmul weightPrefixRarity (rarity (b_PathPrefixFreq b) (pathPrefix path)))).

Definition segment_key (s : Segment) : SegmentKey := mk_key (sg_Method s) (sg_Route s).

(** [d.index[...] = s.Baseline] in the order of the segments. *)
Definition index_of (segments : list Segment) : gmap SegmentKey (option Baseline) :=
  fold_left (fun idx s => <[segment_key s := sg_Baseline s]> idx) segments ∅.
Definition buildIndex (d : DomainModel) : DomainModel := mk_domain (dm_Baseline d) (dm_Segments d) (Some (index_of (dm_Segments d))).

Definition lookup_baseline (d : DomainModel) (method route : gostring) : option Baseline :=
  match dm_index d with
  | Some idx => default None (idx !! mk_key method route)
  | None => match List.find (fun s => bool_decide (sg_Method s = method) && bool_decide (sg_Route s = route)) (dm_Segments d) with
            | Some s => sg_Baseline s
            | None => None
            end
  end.

Definition Score (m : Model) (host method path query ua : gostring) : ScoreResult :=
  match mo_Domains m !! NormalizeHost host with
  | Some (Some d) =>
    match dm_Baseline d with
    | Some domain_wide =>
      let method := ToUpper method in
      let route := routeKey path in
      let '(b, level) :=
        match lookup_baseline d method route with Some b => (b, Exact) | None =>
        match lookup_baseline d [] route with Some b => (b, RouteOnly) | None =>
        match lookup_baseline d method [] with Some b => (b, MethodOnly) | None => (domain_wide, DomainWide) end end end in
      mk_result (Baseline_score b path query ua) true level route
    | None => mk_result (f64 0) false Missing (routeKey path)
    end
  | _ => mk_result (f64 0) false Missing (routeKey path)
  end.

(** [HasDomain]. *)
Definition HasDomain (m : Model) (host : gostring) : bool :=
  match mo_Domains m !! NormalizeHost host with Some (Some d) => bool_decide (is_Some (dm_Baseline d)) | _ => false end.
Definition DomainSummary (m : Model) : gmap gostring nat :=
  omap (fun d => match d with Some d => Some (length (dm_Segments d)) | None => None end) (mo_Domains m).
End Score.

(** ** Validation *)
Inductive model_error :=
| BadJSON
| UnsupportedVersion (v : Z)
| UnsupportedSchema (schema : gostring)
| NoTrainedAt
| NoDomains
| EmptyDomain (host : gostring)
| DuplicateDomain (host : gostring)
| NoGlobalBaseline (host : gostring)
| TooManySegments (host : gostring)
| BadSegment (host : gostring) (i : nat)
| BadMethod (host : gostring) (i : nat)
| DuplicateSegment (host : gostring) (key : SegmentKey)
| NoSegmentBaseline (host : gostring) (key : SegmentKey)
| BadRequests (n : Z)
| BadStat (s : Stat)
| TooManyEntries
| BadFrequency (key : gostring) (v : float).

(** [validMethod] of train.go. *)
Definition method_byte (c : ascii) : bool :=
  between 65 90 c || between 48 57 c || bool_decide (c ∈ lit "!#$%&'*+-.^_`|~").
Definition validMethod (method : gostring) : bool := negb (bool_decide (method = [])) && forallb method_byte method.

Definition good_stat (s : Stat) : bool :=
  finite (st_Mean s) && finite (st_Std s) && negb (flt (st_Mean s) (f64 0)) && negb (flt (st_Std s) (f64 0)).
Definition good_frequency (v : float) : bool := finite v && negb (flt v (f64 0)) && negb (fgt v (f64 1)).

(** [nil] is [None].  The source ranges over maps here and below: their order
    only picks which of several errors is reported. *)
Definition check_freq (freq : gmap gostring float) : option model_error :=
  if (maxFreqEntries <? size freq)%nat then Some TooManyEntries else
  match List.find (fun kv => negb (good_frequency kv.2)) (map_to_list freq) with
  | Some (key, v) => Some (BadFrequency key v)
  | None => None
  end.

Definition Baseline_validate (b : Baseline) : option model_error :=
  if b_Requests b <=? 0 then Some (BadRequests (b_Requests b)) else
  match List.find (fun s => negb (good_stat s)) [b_PathDepth b; b_PathLen b; b_PathEntropy b; b_QueryParams b] with
  | Some s => Some (BadStat s)
  | None =>
    match check_freq (b_UAFreq b) with
    | Some e => Some e
    | None => check_freq (b_PathPrefixFreq b)
    end
  end.

(** By method, then route. *)
Definition segment_le (a b : Segment) : Prop :=
  if bool_decide (sg_Method a = sg_Method b) then bytes_le (sg_Route a) (sg_Route b) else bytes_le (sg_Method a) (sg_Method b).
#[global] Instance segment_le_dec a b : Decision (segment_le a b).
Proof. unfold segment_le. destruct (bool_decide _); apply _. Defined.

Section Validate.
Context `{Unicode}.

(** The segments with their canonical case. *)
Fixpoint validate_segments (host : gostring) (i : nat) (seen : gset SegmentKey) (segments : list Segment) : outcome model_error (list Segment) :=
  match segments with
  | [] => Ok []
  | s :: rest =>
    let s := mk_segment (ToUpper (sg_Method s)) (ToLower (sg_Route s)) (sg_Baseline s) in
    if (bool_decide (sg_Method s = []) && bool_decide (sg_Route s = [])) ||
       (negb (bool_decide (sg_Route s = [])) && negb (bool_decide (routeKey (sg_Route s) = sg_Route s))) then Err (BadSegment host i)
    else if negb (bool_decide (sg_Method s = [])) && negb (validMethod (sg_Method s)) then Err (BadMethod host i)
    else if bool_decide (segment_key s ∈ seen) then Err (DuplicateSegment host (segment_key s))
    else match sg_Baseline s with
    | None => Err (NoSegmentBaseline host (segment_key s))
    | Some b =>
      match Baseline_validate b with
      | Some e => Err e
      | None =>
        match validate_segments host (S i) ({[segment_key s]} ∪ seen) rest with
        | Ok out => Ok (s :: out)
        | Err e => Err e
        end
      end
    end
  end.

Definition validate_domain (host : gostring) (d : option DomainModel) : outcome model_error DomainModel :=
  match d with
  | None => Err (NoGlobalBaseline host)
  | Some d =>
    match dm_Baseline d with
    | None => Err (NoGlobalBaseline host)
    | Some b =>
      match Baseline_validate b with
      | Some e => Err e
      | None =>
        if (maxArtifactSegments <? length (dm_Segments d))%nat then Err (TooManySegments host) else
        match validate_segments host 0 ∅ (dm_Segments d) with
        | Err e => Err e
        | Ok segments => Ok (buildIndex (mk_domain (dm_Baseline d) (merge_sort segment_le segments) (dm_index d)))
        end
      end
    end
  end.

Fixpoint validate_domains (normalized : gmap gostring (option DomainModel)) (domains : list (gostring * option DomainModel)) :
    outcome model_error (gmap gostring (option DomainModel)) :=
  match domains with
  | [] => Ok normalized
  | (host, d) :: rest =>
    let key := NormalizeHost host in
    if bool_decide (key = []) then Err (EmptyDomain host)
    else if bool_decide (is_Some (normalized !! key)) then Err (DuplicateDomain host)
    else match validate_domain host d with
    | Err e => Err e
    | Ok d => validate_domains (<[key := Some d]> normalized) rest
    end
  end.

(** [validate]: the model with its hosts, cases, order and indexes settled. *)
Definition Model_validate (m : Model) : outcome model_error Model :=
  if negb (mo_Version m =? ModelVersion) then Err (UnsupportedVersion (mo_Version m))
  else if negb (bool_decide (mo_FeatureSchema m = FeatureSchema)) then Err (UnsupportedSchema (mo_FeatureSchema m))
  else match mo_TrainedAt m with
  | None => Err NoTrainedAt
  | Some _ =>
    if (size (mo_Domains m) =? 0)%nat then Err NoDomains else
    match validate_domains ∅ (map_to_list (mo_Domains m)) with
    | Err e => Err e
    | Ok normalized => Ok (mk_model (mo_Version m) (mo_FeatureSchema m) (mo_TrainedAt m) normalized)
    end
  end.
End Validate.

(** encoding/json/v2, refusing unknown members; a decoded model has no index. *)
Class ModelJSON := {
  UnmarshalModel : gostring -> option Model;
  MarshalModel : Model -> option gostring
}.

Definition ParseModel `{Unicode, ModelJSON} (raw : gostring) : outcome model_error Model :=
  match UnmarshalModel raw with
  | None => Err BadJSON
  | Some m =>
    if negb (mo_Version m =? ModelVersion) then Err (UnsupportedVersion (mo_Version m))
    else if negb (bool_decide (mo_FeatureSchema m = FeatureSchema)) then Err (UnsupportedSchema (mo_FeatureSchema m))
    else Model_validate m
  end.

(** ** What validation establishes *)
Definition baseline_ok (b : Baseline) : Prop := Baseline_validate b = None.

Record domain_ok (d : DomainModel) : Prop := {
  do_baseline : exists b, dm_Baseline d = Some b /\ baseline_ok b;
  do_index : dm_index d = Some (index_of (dm_Segments d));
  do_keys : NoDup (segment_key <$> dm_Segments d);
  do_segments s : s ∈ dm_Segments d -> exists b, sg_Baseline s = Some b /\ baseline_ok b;
  do_size : (length (dm_Segments d) <= maxArtifactSegments)%nat;
  do_sorted : StronglySorted segment_le (dm_Segments d)
}.

Definition model_ok (m : Model) : Prop :=
  mo_Domains m <> ∅ /\ map_Forall (fun host d => host <> [] /\ exists d', d = Some d' /\ domain_ok d') (mo_Domains m).

#[export] Instance segment_le_total : Total segment_le.
Proof. intros a b. unfold segment_le. case_bool_decide as E; case_bool_decide; try congruence; apply bytes_leb_total. Qed.
#[export] Instance segment_le_trans : Transitive segment_le.
Proof.
  intros a b c. unfold segment_le, bytes_le. repeat case_bool_decide; intros Hab Hbc; try congruence.
  - by apply (bytes_leb_trans _ _ _ Hab Hbc).
  - match goal with E : sg_Method a = sg_Method c |- _ => rewrite <- E in Hbc end. pose proof (bytes_leb_antisym _ _ Hab Hbc). congruence.
  - by apply (bytes_leb_trans _ _ _ Hab Hbc).
Qed.

Section Validated.
Context `{Unicode}.

Lemma validate_segments_ok host : forall segments i seen out, validate_segments host i seen segments = Ok out ->
  length out = length segments /\ NoDup (segment_key <$> out) /\ (forall s, s ∈ out -> segment_key s ∉ seen) /\
  (forall s, s ∈ out -> exists b, sg_Baseline s = Some b /\ baseline_ok b).
Proof.
  induction segments as [| s rest IH]; intros i seen out; cbn [validate_segments].
  { intros [= <-]. split; [done | split; [apply NoDup_nil_2 | split; intros ? []%elem_of_nil]]. }
  set (s' := mk_segment _ _ _). repeat (case_match; [done |]).
  match goal with E : bool_decide (_ ∈ seen) = false |- _ => apply bool_decide_eq_false in E as Hnew end.
  destruct (sg_Baseline s') as [b |] eqn:Eb; [| done]. destruct (Baseline_validate b) eqn:Ev; [done |].
  destruct (validate_segments host (S i) _ rest) as [out' | e] eqn:Er; [| done]. intros [= <-].
  destruct (IH _ _ _ Er) as (Hl & Hnd & Hseen & Hok). split; [by cbn; rewrite Hl |]. split; [| split].
  - cbn. apply NoDup_cons. split; [| done]. intros (q & Hq & Hin)%list_elem_of_fmap. apply (Hseen q Hin). rewrite <- Hq. set_solver.
  - intros q [-> | Hin]%elem_of_cons; [done |]. specialize (Hseen q Hin). set_solver.
  - intros q [-> | Hin]%elem_of_cons; [by exists b | by apply Hok].
Qed.

Lemma validate_domain_ok host d d' : validate_domain host d = Ok d' -> domain_ok d'.
Proof.
  unfold validate_domain. destruct d as [d |]; [| done]. destruct (dm_Baseline d) as [b |] eqn:Eb; [| done].
  destruct (Baseline_validate b) eqn:Ev; [done |]. case_match eqn:El; [done |]. apply Nat.ltb_ge in El.
  destruct (validate_segments host 0 ∅ (dm_Segments d)) as [out | e] eqn:Er; [| done]. intros [= <-].
  destruct (validate_segments_ok _ _ _ _ _ Er) as (Hl & Hnd & _ & Hok).
  assert (Hp : merge_sort segment_le out ≡ₚ out) by apply merge_sort_Permutation. unfold buildIndex. split; cbn [dm_Baseline dm_index dm_Segments].
  - by exists b.
  - done.
  - by rewrite Hp.
  - intros s. rewrite Hp. apply Hok.
  - rewrite Hp. lia.
  - apply (StronglySorted_merge_sort segment_le).
Qed.

Lemma validate_domains_ok : forall domains acc out,
  map_Forall (fun host d => host <> [] /\ exists d', d = Some d' /\ domain_ok d') acc -> validate_domains acc domains = Ok out ->
  map_Forall (fun host d => host <> [] /\ exists d', d = Some d' /\ domain_ok d') out /\ (domains <> [] \/ acc <> ∅ -> out <> ∅).
Proof.
  induction domains as [| [host d] rest IH]; intros acc out Hacc; cbn [validate_domains].
  { intros [= <-]. split; [done |]. by intros [? | ?]. }
  case_bool_decide as Hk; [done |]. case_bool_decide as Hs; [done |].
  destruct (validate_domain host d) as [d' | e] eqn:Ed; [| done]. intros Hr. apply IH in Hr as [Hout Hne].
  - split; [done |]. intros _. apply Hne. right. apply insert_non_empty.
  - apply map_Forall_insert_2; [| done]. split; [done |]. exists d'. split; [done |]. by eapply validate_domain_ok.
Qed.

Lemma Model_validate_ok m m' : Model_validate m = Ok m' -> model_ok m'.
Proof.
  unfold Model_validate. repeat (case_match; try done). intros [= <-]. unfold model_ok. cbn [mo_Domains].
  match goal with E : validate_domains ∅ _ = Ok _ |- _ => apply validate_domains_ok in E as [Hout Hne]; [| apply map_Forall_empty] end.
  split; [| done]. apply Hne. left. intros He. apply map_to_list_empty_iff in He.
  match goal with E : (size _ =? 0)%nat = false |- _ => rewrite He, map_size_empty in E end. done.
Qed.

Lemma ParseModel_ok `{ModelJSON} raw m : ParseModel raw = Ok m -> model_ok m.
Proof. unfold ParseModel. repeat (case_match; try done). apply Model_validate_ok. Qed.
End Validated.

(** The index finds the one segment of a key. *)
Lemma index_fold segments : forall idx k, NoDup (segment_key <$> segments) ->
  fold_left (fun (idx : gmap SegmentKey (option Baseline)) s => <[segment_key s := sg_Baseline s]> idx) segments idx !! k =
  match List.find (fun s => bool_decide (segment_key s = k)) segments with Some s => Some (sg_Baseline s) | None => idx !! k end.
Proof.
  induction segments as [| s rest IH]; intros idx k Hnd; [done |]. cbn [fold_left List.find]. cbn in Hnd. apply NoDup_cons in Hnd as [Hs Hnd].
  rewrite IH by done. case_bool_decide as E.
  - subst k. destruct (List.find _ rest) as [s' |] eqn:Ef.
    + apply find_some in Ef as [Hin Hk]. apply bool_decide_eq_true in Hk. destruct Hs. rewrite <- Hk. apply list_elem_of_fmap_2. by apply list_elem_of_In.
    + by rewrite lookup_insert_eq.
  - destruct (List.find _ rest); [done |]. by rewrite lookup_insert_ne.
Qed.

(** A validated domain has a baseline for [k]. *)
Definition serves (d : DomainModel) (k : SegmentKey) (b : Baseline) : Prop :=
  exists s, s ∈ dm_Segments d /\ segment_key s = k /\ sg_Baseline s = Some b.

Lemma lookup_serves d method route b : domain_ok d -> lookup_baseline d method route = Some b <-> serves d (mk_key method route) b.
Proof.
  intros Hd. unfold lookup_baseline. rewrite (do_index d Hd). unfold index_of. rewrite index_fold by apply (do_keys d Hd).
  destruct (List.find _ (dm_Segments d)) as [s |] eqn:Ef.
  - apply find_some in Ef as [Hin%list_elem_of_In Hk%bool_decide_eq_true]. cbn. split; [by exists s |].
    intros (s' & Hin' & Hk' & <-). f_equal. apply list_elem_of_lookup in Hin as [i Hi], Hin' as [j Hj].
    assert (i = j) as ->; [| congruence]. eapply (NoDup_lookup _ _ _ (mk_key method route) (do_keys d Hd)); rewrite list_lookup_fmap, ?Hi, ?Hj; cbn; by f_equal.
  - rewrite lookup_empty. cbn. split; [done |]. intros (s & Hin%list_elem_of_In & Hk & _). pose proof (find_none _ _ Ef s Hin) as Hn.
    by apply bool_decide_eq_false in Hn.
Qed.

Lemma lookup_serves_none d method route : domain_ok d -> lookup_baseline d method route = None -> ~ exists b, serves d (mk_key method route) b.
Proof. intros Hd Hn [b Hb]. apply (lookup_serves d method route b Hd) in Hb. congruence. Qed.

(** ** Scores *)
Lemma baseline_ok_stats b : baseline_ok b ->
  forall s, s ∈ [b_PathDepth b; b_PathLen b; b_PathEntropy b; b_QueryParams b] -> finite (st_Mean s) /\ finite (st_Std s).
Proof.
  unfold baseline_ok, Baseline_validate. intros Hb s Hin%list_elem_of_In. repeat (case_match; try done).
  match goal with E : List.find _ _ = None |- _ => pose proof (find_none _ _ E s Hin) as Hs end. apply negb_false_iff in Hs.
  unfold good_stat in Hs. apply andb_prop in Hs as [[[? ?]%andb_prop ?]%andb_prop ?]. split; by apply Is_true_true.
Qed.

Lemma check_freq_ok freq key v : check_freq freq = None -> freq !! key = Some v -> nonneg v.
Proof.
  unfold check_freq. repeat (case_match; try done). intros _ Hv.
  match goal with E : List.find _ _ = None |- _ => pose proof (find_none _ _ E (key, v)) as Hs end.
  rewrite <- list_elem_of_In, elem_of_map_to_list in Hs. specialize (Hs Hv). apply negb_false_iff in Hs. cbn [snd] in Hs.
  unfold good_frequency in Hs. apply andb_prop in Hs as [[Hf Hneg]%andb_prop _]. destruct v as [| | | [] m e]; try done.
Qed.

Lemma baseline_ok_freqs b : baseline_ok b -> check_freq (b_UAFreq b) = None /\ check_freq (b_PathPrefixFreq b) = None.
Proof. unfold baseline_ok, Baseline_validate. by repeat (case_match; try done). Qed.

Lemma weights_positive : nonzero stdFloor /\ nonzero zCap /\ nonzero weightPathShape /\ nonzero weightQueryParams /\ nonzero weightUARarity /\ nonzero weightPrefixRarity /\
  nonzero (f64 3) /\ nonzero (f64 50).
Proof. vm_compute. tauto. Qed.

Lemma zScore_unit s x : finite (st_Mean s) -> finite (st_Std s) -> nonneg x -> unit_interval (zScore s x).
Proof.
  intros Hm Hs Hx. destruct weights_positive as (Hfl & Hz & _). unfold zScore. apply Min_one_unit.
  apply fdiv_nonneg; [| done]. apply fdiv_nonneg; [by apply fsub_abs | by apply Max_nonzero].
Qed.

Lemma rarity_nonneg freq key : check_freq freq = None -> nonneg (rarity freq key).
Proof.
  intros Hf. destruct weights_positive as (_ & _ & _ & _ & _ & _ & _ & H50). unfold rarity.
  assert (nonneg (default (f64 0) (freq !! key))) as Hv by (destruct (freq !! key) as [v |] eqn:E; [by apply (check_freq_ok freq key) | done]).
  apply one_minus_unit; [by apply Min_one_unit, fmul_nonneg_r |]. apply Min_narrow; [by rewrite one_float | apply fmul_narrow].
Qed.

Lemma depth_loop_nonneg path : forall depth inSegment, 0 <= depth -> 0 <= depth_loop depth inSegment path.
Proof. induction path as [| c path IH]; intros depth inSegment Hd; cbn [depth_loop]; [done |]. repeat case_match; apply IH; lia. Qed.

Lemma count_byte_bounds c s : 0 <= count_byte c s <= Z.of_nat (length s).
Proof. unfold count_byte. pose proof (filter_length_le (Ascii.eqb c) s). lia. Qed.

Lemma queryParams_nonneg query : 0 <= queryParams query.
Proof. unfold queryParams. pose proof (count_byte_bounds "&"%char query). case_bool_decide; lia. Qed.

Lemma entropy_term_nonneg `{Logarithm} s h c : Z.of_nat (length s) < 2 ^ 53 -> nonneg h -> nonneg (entropy_term s h c).
Proof.
  intros Hs Hh. unfold entropy_term. pose proof (count_byte_bounds c s) as Hc. destruct (Z.ltb_spec 0 (count_byte c s)) as [Hpos |]; [| done].
  set (n := count_byte c s) in *. set (t := Z.of_nat (length s)) in *. destruct (log2_share n t ltac:(lia) Hs) as [Hf Hn].
  apply fsub_nonpos; [done |]. apply fmul_nonpos; [| apply share_finite; lia | done | done].
  apply fdiv_nonneg; [apply f64_nonneg; lia | apply f64_not_inf_nan; lia].
Qed.

Lemma entropy_nonneg `{Logarithm} s : Z.of_nat (length s) < 2 ^ 53 -> nonneg (entropy s).
Proof.
  intros Hs. unfold entropy. destruct (bool_decide (s = [])); [by apply f64_nonneg |].
  assert (Hfold : forall cs h, nonneg h -> nonneg (fold_left (entropy_term s) cs h)).
  { induction cs as [| c cs IH]; intros h Hh; [exact Hh |]. cbn [fold_left]. by apply IH, entropy_term_nonneg. }
  by apply Hfold, f64_nonneg.
Qed.

Lemma Baseline_score_unit `{Unicode, Logarithm} b path query ua : baseline_ok b -> Z.of_nat (length path) < 2 ^ 53 ->
  unit_interval (Baseline_score b path query ua).
Proof.
  intros Hb Hp. pose proof (baseline_ok_stats b Hb) as Hst. destruct (baseline_ok_freqs b Hb) as [Hua Hpp].
  destruct weights_positive as (_ & _ & Hw1 & Hw2 & Hw3 & Hw4 & H3 & _).
  assert (Hz : forall s x, s ∈ [b_PathDepth b; b_PathLen b; b_PathEntropy b; b_QueryParams b] -> nonneg x -> nonneg (zScore s x)).
  { intros s x Hin Hx. destruct (Hst s Hin). by apply zScore_unit. }
  unfold Baseline_score. apply Min_one_unit.
  apply fadd_nonneg; [apply fadd_nonneg; [apply fadd_nonneg |] |]; (apply fmul_nonneg; [assumption |]).
  - apply fdiv_nonneg; [| assumption]. apply fadd_nonneg; [apply fadd_nonneg |]; apply Hz; try (rewrite !elem_of_cons; tauto).
    + apply f64_nonneg. by apply depth_loop_nonneg.
    + apply f64_nonneg. lia.
    + by apply entropy_nonneg.
  - apply Hz; [rewrite !elem_of_cons; tauto |]. apply f64_nonneg, queryParams_nonneg.
  - by apply rarity_nonneg.
  - by apply rarity_nonneg.
Qed.

(** ** Bounds of the features *)
Lemma shrink_bound n ua : (shrink_to_valid n ua <= n)%nat.
Proof. induction n as [| n IH]; cbn [shrink_to_valid]; [lia |]. case_match; lia. Qed.

Lemma shrink_valid n ua : ValidString (take (shrink_to_valid n ua) ua) = true.
Proof. induction n as [| n IH]; cbn [shrink_to_valid]; [done |]. by case_match. Qed.

Lemma routeKey_nonempty `{Unicode} path : routeKey path <> [].
Proof. unfold routeKey. by repeat case_match. Qed.

(** * Properties *)

(** C34: under a model that was loaded, the score of any request is a number
    between 0 and 1: no statistic, frequency or request gives NaN, which every
    threshold would let pass, or an infinity. *)
Theorem score_in_unit_interval `{Unicode, Logarithm, ModelJSON} raw m host method path query ua
  (Hm : ParseModel raw = Ok m) (Hp : Z.of_nat (length path) < 2 ^ 53) :
  unit_interval (rs_Score (Score m host method path query ua)).
Proof.
  destruct (ParseModel_ok raw m Hm) as [_ Hok]. unfold Score. destruct (mo_Domains m !! NormalizeHost host) as [[d |] |] eqn:Ed; [| done | done].
  destruct (dm_Baseline d) as [b |] eqn:Eb; [| done]. destruct (Hok _ _ Ed) as (_ & d' & [= <-] & Hd). cbv zeta.
  assert (Hall : forall method route b', lookup_baseline d method route = Some b' -> baseline_ok b').
  { intros method' route b' (s & Hin & _ & Hb)%(lookup_serves d _ _ _ Hd). destruct (do_segments d Hd s Hin) as (b'' & Hb'' & Hgood). congruence. }
  destruct (do_baseline d Hd) as (b0 & Hb0 & Hgood). rewrite Eb in Hb0. injection Hb0 as <-.
  repeat (case_match; simplify_eq); apply Baseline_score_unit; try done; by eapply Hall.
Qed.

(** a request is scored against the most specific baseline the loaded
    model has for it: the one of its method and route, else of its route, else
    of its method, else the domain's; the result names which, and only a host
    without a domain goes unscored. *)
Theorem score_uses_most_specific `{Unicode, Logarithm, ModelJSON} raw m host method path query ua r
  (Hm : ParseModel raw = Ok m) (Hr : Score m host method path query ua = r) :
  let exact := mk_key (ToUpper method) (routeKey path) in
  let route := mk_key [] (routeKey path) in
  let any_route := mk_key (ToUpper method) [] in
  rs_Route r = routeKey path /\ rs_Found r = HasDomain m host /\
  match mo_Domains m !! NormalizeHost host with
  | None | Some None => r = mk_result (f64 0) false Missing (routeKey path)
  | Some (Some d) => exists b, rs_Score r = Baseline_score b path query ua /\
    match rs_Level r with
    | Exact => serves d exact b
    | RouteOnly => serves d route b /\ ~ exists b', serves d exact b'
    | MethodOnly => serves d any_route b /\ (~ exists b', serves d exact b') /\ ~ exists b', serves d route b'
    | DomainWide => dm_Baseline d = Some b /\ (~ exists b', serves d exact b') /\ (~ exists b', serves d route b') /\ ~ exists b', serves d any_route b'
    | Missing => False
    end
  end.
Proof.
  destruct (ParseModel_ok raw m Hm) as [_ Hok]. cbv zeta. subst r. unfold Score, HasDomain.
  destruct (mo_Domains m !! NormalizeHost host) as [[d |] |] eqn:Ed; [| done | done].
  destruct (Hok _ _ Ed) as (_ & d' & [= <-] & Hd). destruct (do_baseline d Hd) as (b0 & Hb0 & _). rewrite Hb0.
  rewrite bool_decide_eq_true_2 by done. cbv zeta. pose proof (lookup_serves d) as Hl. pose proof (lookup_serves_none d) as Hn.
  destruct (lookup_baseline d (ToUpper method) (routeKey path)) as [b1 |] eqn:E1; [| destruct (lookup_baseline d [] (routeKey path)) as [b2 |] eqn:E2;
    [| destruct (lookup_baseline d (ToUpper method) []) as [b3 |] eqn:E3]]; (split; [done |]); (split; [done |]); eexists; (split; [reflexivity |]); cbn [rs_Level].
  - by apply Hl.
  - split; [by apply Hl | by apply Hn].
  - split; [by apply Hl | split; by apply Hn].
  - split; [done | split; [by apply Hn | split; by apply Hn]].
Qed.

(** the stored User-Agent feature is at most 24 bytes, cut between
    characters. *)
Theorem uaPrefix_bounded `{Unicode} ua : (length (uaPrefix ua) <= uaPrefixBytes)%nat /\ 
  ((uaPrefixBytes < length (ToLower (ToValidUTF8 ua replacement_rune)))%nat -> ValidString (uaPrefix ua) = true).
Proof.
  unfold uaPrefix. cbv zeta. destruct (Nat.leb_spec (length (ToLower (ToValidUTF8 ua replacement_rune))) uaPrefixBytes) as [Hle | Hlt].
  - split; [done | lia].
  - split; [| intros _; apply shrink_valid]. rewrite length_take. pose proof (shrink_bound uaPrefixBytes (ToLower (ToValidUTF8 ua replacement_rune))). lia.
Qed.

(** ** Concrete runs *)
Module Ex.
(** The integer part of the logarithm, of a share. *)
Definition floor_log2 (x : float) : float :=
  match x with
  | S754_finite false m e => let n := Z.max (-1100) (digits (Z.pos m) + e - 1) in if n <? 0 then SFopp (f64 (- n)) else f64 0
  | _ => f64 0
  end.

Lemma floor_log2_number x : finite (floor_log2 x) /\ nonneg (SFopp (floor_log2 x)).
Proof.
  unfold floor_log2. destruct x as [| | | [] m e]; try done. set (n := Z.max _ _). destruct (Z.ltb_spec n 0) as [Hn |]; [| done].
  pose proof (f64_not_inf_nan (- n) ltac:(lia)) as Hf. by destruct (f64 (- n)) as [| | | [] ? ?].
Qed.

#[export] Instance floor_log : Logarithm := {| Log2 := floor_log2; log2_share _ _ _ _ := floor_log2_number _ |}.
#[export] Existing Instance ascii_only.

Definition stat (mean std : Z) : Stat := mk_stat (f64 mean) (f64 std).
Definition ordinary : Baseline :=
  mk_baseline 9000 (stat 2 1) (stat 12 4) (stat 3 1) (stat 1 1) {[lit "mozilla/5.0 (x11; linux " := fdiv (f64 1) (f64 2)]} {[lit "/shop/cart" := fdiv (f64 1) (f64 4)]}.
Definition model : Model :=
  mk_model 2 FeatureSchema (Some 1) {[lit "Example.COM" := Some (mk_domain (Some ordinary) [mk_segment (lit "post") (lit "/Shop") (Some ordinary); mk_segment [] (lit "/shop") (Some ordinary)] None)]}.
#[export] Instance one_model : ModelJSON := {| UnmarshalModel raw := if bool_decide (raw = lit "model") then Some model else None; MarshalModel _ := Some (lit "model") |}.

Definition loaded : Model :=
  match ParseModel (lit "model") with Ok m => m | Err _ => model end.

Lemma loaded_parses : ParseModel (lit "model") = Ok loaded.
Proof. vm_compute. reflexivity. Qed.

Definition request (m : Model) : ScoreResult := Score m (lit "EXAMPLE.com:443") (lit "get") (lit "/shop/cart/x") (lit "a=1&b=2") (lit "Mozilla/5.0 (X11; Linux x86_64)").

Example request_level : rs_Level (request loaded) = RouteOnly /\ rs_Found (request loaded) = true.
Proof. split; vm_compute; reflexivity. Qed.
Example features : pathDepth (lit "/a//b/") = 2 /\ routeKey (lit "/Shop/Cart/x") = lit "/shop" /\ routeKey (lit "x/y") = lit "/x" /\
  pathPrefix (lit "/Shop/Cart/x") = lit "/shop/cart" /\ uaPrefix [Zbyte 200; Zbyte 65] = replacement_rune ++ [Zbyte 65].
Proof. vm_compute. done. Qed.

Lemma score_in_unit_interval_witness :
  ParseModel (lit "model") = Ok loaded /\ unit_interval (rs_Score (request loaded)) /\ rs_Score (request loaded) <> f64 0.
Proof.
  split; [apply loaded_parses |]. split; [| by vm_compute]. unfold request. apply (score_in_unit_interval (lit "model") loaded); [apply loaded_parses | by vm_compute].
Defined.

Lemma score_uses_most_specific_witness : exists r, request loaded = r /\ rs_Level r = RouteOnly /\ rs_Route r = lit "/shop" /\ rs_Found r = HasDomain loaded (lit "EXAMPLE.com:443").
Proof.
  exists (request loaded). split; [done |].
  destruct (score_uses_most_specific (lit "model") loaded (lit "EXAMPLE.com:443") (lit "get") (lit "/shop/cart/x") (lit "a=1&b=2")
    (lit "Mozilla/5.0 (X11; Linux x86_64)") (request loaded) loaded_parses eq_refl) as (Hr & Hf & _).
  split; [vm_compute; reflexivity |]. split; [rewrite Hr; vm_compute; reflexivity | exact Hf].
Defined.
End Ex.
