(* ===== verification/ModelCache.v ===== *)
(** * Serving trained models (core/anomaly/cache.go, internal/safefile)

    The models in service: loaded at start, where any failure refuses to
    start, and reread by one goroutine whenever a file's content hash changed.
    Requests read the model pointer atomically, so what they may see is the
    state after any number of reread files. *)

From S2P Require Export Anomaly.

Open Scope Z_scope.

(** ** Bounded reads *)

(** What the calls of [safefile.Read] answer: the size [Stat] reports and the
    bytes the file then yields; [None] where the call fails. *)
Record file_answers := mk_answers { fa_open : bool; fa_size : option Z; fa_bytes : option gostring }.

Inductive load_error := Unopened | NoStat | TooLarge | Unread | Unparsed (e : model_error) | RequiredMissing (host : gostring).

(** [io.ReadAll(io.LimitReader(f, n))]. *)
Definition read_limited (n : Z) (b : gostring) : gostring := if Z.of_nat (length b) <=? n then b else take (Z.to_nat n) b.

Definition safe_read (max : Z) (a : file_answers) : outcome load_error gostring :=
  if negb (fa_open a) then Err Unopened else
  match fa_size a with
  | None => Err NoStat
  | Some n =>
    if max <? n then Err TooLarge else
    match fa_bytes a with
    | None => Err Unread
    | Some b => let raw := read_limited (max + 1) b in if max <? Z.of_nat (length raw) then Err TooLarge else Ok raw
    end
  end.

(** ** FNV-64a *)
Definition fnv64a_step (h : Z) (c : ascii) : Z := (Z.lxor h (byteZ c) * 1099511628211) mod 2 ^ 64.
Definition contentHash (raw : gostring) : Z := fold_left fnv64a_step raw 14695981039346656037.

(** ** The cache *)
Record ModelSpec := mk_spec { ms_Path : gostring; ms_RequiredHosts : list gostring }.
Record modelFile := mk_mf { mf_path : gostring; mf_requiredHosts : list gostring; mf_hash : Z; mf_model : option Model }.

Section Cache.
Context `{Unicode, ModelJSON}.

(** What a reread or a start finds at a path. *)
Definition reads := gostring -> file_answers.

Definition validateRequired (f : modelFile) (m : Model) : option load_error :=
  match List.find (fun host => negb (HasDomain m host)) (mf_requiredHosts f) with Some host => Some (RequiredMissing host) | None => None end.

Definition load (r : reads) (f : modelFile) : outcome load_error modelFile :=
  match safe_read maxModelBytes (r (mf_path f)) with
  | Err e => Err e
  | Ok raw =>
    match ParseModel raw with
    | Err e => Err (Unparsed e)
    | Ok m =>
      match validateRequired f m with
      | Some e => Err e
      | None => Ok (mk_mf (mf_path f) (mf_requiredHosts f) (contentHash raw) (Some m))
      end
    end
  end.

Fixpoint load_specs (r : reads) (specs : list ModelSpec) (files : gmap gostring modelFile) : outcome load_error (gmap gostring modelFile) :=
  match specs with
  | [] => Ok files
  | spec :: rest =>
    match load r (mk_mf (ms_Path spec) (ms_RequiredHosts spec) 0 None) with
    | Err e => Err e
    | Ok f => load_specs r rest (<[ms_Path spec := f]> files)
    end
  end.
Definition NewModelCache (r : reads) (specs : list ModelSpec) : outcome load_error (gmap gostring modelFile) := load_specs r specs ∅.

(** The body of the loop of [reloadChanged], for one file. *)
Definition reload_file (r : reads) (f : modelFile) : modelFile :=
  match safe_read maxModelBytes (r (mf_path f)) with
  | Err _ => f
  | Ok raw =>
    let hash := contentHash raw in
    if hash =? mf_hash f then f else
    match ParseModel raw with
    | Err _ => mk_mf (mf_path f) (mf_requiredHosts f) hash (mf_model f)
    | Ok m =>
      match validateRequired f m with
      | Some _ => mk_mf (mf_path f) (mf_requiredHosts f) hash (mf_model f)
      | None => mk_mf (mf_path f) (mf_requiredHosts f) hash (Some m)
      end
    end
  end.

(** Each file is reread at its own instant. *)
Definition reloadChanged (r : reads) (files : gmap gostring modelFile) : gmap gostring modelFile := reload_file r <$> files.

Definition Get (files : gmap gostring modelFile) (path : gostring) : option Model := files !! path ≫= mf_model.
Definition Paths (files : gmap gostring modelFile) : list gostring := (map_to_list files).*1.

(** [Status], by path. *)
Record ModelStatus := mk_status { mst_Path : gostring; mst_TrainedAt : option Z; mst_Domains : gmap gostring nat }.
Definition status_le (a b : ModelStatus) : Prop := bytes_le (mst_Path a) (mst_Path b).
#[global] Instance status_le_dec a b : Decision (status_le a b).
Proof. unfold status_le. apply _. Defined.
Definition file_status (f : modelFile) : option ModelStatus :=
  match mf_model f with Some m => Some (mk_status (mf_path f) (mo_TrainedAt m) (DomainSummary m)) | None => None end.
Definition Status (files : gmap gostring modelFile) : list ModelStatus :=
  merge_sort status_le (omap (fun kf => file_status kf.2) (map_to_list files)).
End Cache.

(** ** Reads are bounded *)
Lemma safe_read_bounded max a raw : safe_read max a = Ok raw -> Z.of_nat (length raw) <= max.
Proof. unfold safe_read. repeat (case_match; try done). intros [= <-]. match goal with E : (max <? Z.of_nat _) = false |- _ => by apply Z.ltb_ge in E end. Qed.

(** What is read is the whole file, whatever size was reported. *)
Lemma safe_read_whole max a raw : 0 <= max -> safe_read max a = Ok raw -> fa_bytes a = Some raw.
Proof.
  intros Hmax. unfold safe_read. destruct (fa_open a); [| done]. destruct (fa_size a) as [n |]; [| done]. destruct (max <? n); [done |].
  destruct (fa_bytes a) as [b |]; [| done]. cbn. destruct (Z.ltb_spec max (Z.of_nat (length (read_limited (max + 1) b)))) as [| Hle]; [done |].
  intros [= <-]. f_equal. unfold read_limited in *. destruct (Z.leb_spec (Z.of_nat (length b)) (max + 1)); [done |].
  rewrite length_take in Hle. lia.
Qed.

(** ** What is in service *)
Section Served.
Context `{Unicode, ModelJSON}.

(** A model that a file may serve. *)
Definition servable (f : modelFile) (raw : gostring) (m : Model) : Prop := ParseModel raw = Ok m /\ forall host, host ∈ mf_requiredHosts f -> HasDomain m host = true.

Lemma validateRequired_spec f m : validateRequired f m = None <-> forall host, host ∈ mf_requiredHosts f -> HasDomain m host = true.
Proof.
  unfold validateRequired. destruct (List.find _ (mf_requiredHosts f)) as [host |] eqn:Ef.
  - apply find_some in Ef as [Hin%list_elem_of_In Hn%negb_true_iff]. split; [done |]. intros Hall. rewrite (Hall host Hin) in Hn. done.
  - split; [| done]. intros _ host Hin%list_elem_of_In. pose proof (find_none _ _ Ef host Hin) as Hn. by apply negb_false_iff in Hn.
Qed.

(** The contents a file's rereads found, the newest last, failed reads left
    out. *)
Fixpoint contents_read (path : gostring) (rs : list reads) : list gostring :=
  match rs with
  | [] => []
  | r :: rest => match safe_read maxModelBytes (r path) with Ok raw => raw :: contents_read path rest | Err _ => contents_read path rest end
  end.

(** The reference: the last content that can be served. *)
Definition good (f : modelFile) (raw : gostring) : option Model :=
  match ParseModel raw with Ok m => match validateRequired f m with None => Some m | Some _ => None end | Err _ => None end.
Fixpoint last_good (f : modelFile) (m : option Model) (contents : list gostring) : option Model :=
  match contents with [] => m | raw :: rest => last_good f (match good f raw with Some m' => Some m' | None => m end) rest end.

Lemma good_same f g raw : mf_requiredHosts f = mf_requiredHosts g -> good f raw = good g raw.
Proof. intros E. unfold good, validateRequired. by rewrite E. Qed.

Lemma last_good_same f g m contents : mf_requiredHosts f = mf_requiredHosts g -> last_good f m contents = last_good g m contents.
Proof. intros E. revert m. induction contents as [| raw rest IH]; intros m; cbn; [done |]. by rewrite (good_same f g), IH. Qed.

(** A file whose hash is that of [now], the content last read. *)
Definition reread (f : modelFile) (now : gostring) : Prop :=
  mf_hash f = contentHash now /\ forall m, good f now = Some m -> mf_model f = Some m.

Lemma reload_last_good path rs : forall f now, mf_path f = path -> reread f now ->
  (forall a b, a ∈ now :: contents_read path rs -> b ∈ now :: contents_read path rs -> contentHash a = contentHash b -> a = b) ->
  mf_model (fold_left (fun f r => reload_file r f) rs f) = last_good f (mf_model f) (contents_read path rs).
Proof.
  induction rs as [| r rs IH]; intros f now Hp Hr Hinj; [done |]. pose proof Hr as [Hh Hm]. cbn [fold_left contents_read last_good]. cbn [contents_read] in Hinj.
  unfold reload_file at 2. rewrite Hp. destruct (safe_read maxModelBytes (r path)) as [raw | e] eqn:Er; [| by apply (IH f now Hp Hr Hinj)]. cbv zeta. cbn [last_good].
  assert (Hinj' : forall a b, a ∈ raw :: contents_read path rs -> b ∈ raw :: contents_read path rs -> contentHash a = contentHash b -> a = b).
  { intros a b Ha Hb. apply Hinj; by right. }
  destruct (Z.eqb_spec (contentHash raw) (mf_hash f)) as [E | E].
  - assert (raw = now) as -> by (apply Hinj; [right; left | left | congruence]).
    destruct (good f now) as [m |] eqn:Eg; [rewrite <- (Hm m eq_refl) |]; by apply (IH f now Hp Hr Hinj').
  - unfold good at 1. destruct (ParseModel raw) as [m | e] eqn:Ep.
    + destruct (validateRequired f m) as [e |] eqn:Ev.
      * rewrite (IH _ raw); [by apply last_good_same | done | | exact Hinj']. split; [done |]. intros m'. unfold good. rewrite Ep. cbn. by rewrite (Ev : validateRequired (mk_mf _ _ _ _) m = _).
      * rewrite (IH _ raw); [by apply last_good_same | done | | exact Hinj']. split; [done |]. intros m'. unfold good. rewrite Ep. by rewrite (Ev : validateRequired (mk_mf _ _ _ _) m = _).
    + rewrite (IH _ raw); [by apply last_good_same | done | | exact Hinj']. split; [done |]. intros m'. unfold good. by rewrite Ep.
Qed.
End Served.

Section Service.
Context `{Unicode, ModelJSON}.

Definition rounds (rs : list reads) (files : gmap gostring modelFile) : gmap gostring modelFile := fold_left (fun files r => reloadChanged r files) rs files.

Lemma rounds_lookup rs path : forall files, rounds rs files !! path = (fun f => fold_left (fun f r => reload_file r f) rs f) <$> files !! path.
Proof.
  induction rs as [| r rs IH]; intros files; cbn; [by destruct (files !! path) |]. rewrite (IH (reloadChanged r files)).
  unfold reloadChanged. rewrite lookup_fmap. by destruct (files !! path).
Qed.

(** A loaded file: its path, its hosts, its content. *)
Record loaded_file (path : gostring) (f : modelFile) : Prop := {
  lf_path : mf_path f = path;
  lf_model : exists m, mf_model f = Some m /\ model_ok m /\ forall host, host ∈ mf_requiredHosts f -> HasDomain m host = true
}.

(** A file as a start leaves it: its content was read, and serves. *)
Definition started (r : reads) (path : gostring) (f : modelFile) : Prop :=
  exists raw, safe_read maxModelBytes (r path) = Ok raw /\ reread f raw /\ forall m, mf_model f = Some m -> ParseModel raw = Ok m.

Lemma load_loaded r path hosts f : load r (mk_mf path hosts 0 None) = Ok f ->
  loaded_file path f /\ mf_requiredHosts f = hosts /\ started r path f.
Proof.
  unfold load, started. cbn [mf_path]. destruct (safe_read maxModelBytes (r path)) as [raw | e]; [| done]. destruct (ParseModel raw) as [m | e] eqn:Ep; [| done].
  destruct (validateRequired _ m) as [e |] eqn:Ev; [done |]. intros [= <-]. cbn [mf_requiredHosts]. split; [| split; [done |]].
  - split; [done |]. exists m. split; [done |]. split; [by eapply ParseModel_ok |]. by apply (validateRequired_spec _ m).
  - exists raw. split; [done |]. split; [| by intros m' [= <-]]. split; [done |]. intros m'. unfold good. rewrite Ep. cbn. repeat (case_match; try done).
Qed.

Lemma load_specs_loaded r specs : forall files files', (forall path f, files !! path = Some f -> loaded_file path f /\ started r path f) ->
  load_specs r specs files = Ok files' ->
  forall path f, files' !! path = Some f -> loaded_file path f /\ started r path f.
Proof.
  induction specs as [| [path hosts] specs IH]; intros files files' Hf; cbn [load_specs]; [by intros [= <-] |]. cbn [ms_Path ms_RequiredHosts].
  destruct (load r (mk_mf path hosts 0 None)) as [g | e] eqn:El; [| done]. apply IH. intros p f [[<- <-] | [_ Hp]]%lookup_insert_Some; [| by apply Hf].
  destruct (load_loaded _ _ _ _ El) as (Hl & _ & Hr). done.
Qed.

Lemma load_specs_paths r specs : forall files files', load_specs r specs files = Ok files' -> NoDup (map ms_Path specs) ->
  (forall spec, spec ∈ specs -> exists f, files' !! ms_Path spec = Some f /\ mf_requiredHosts f = ms_RequiredHosts spec) /\
  (forall path, path ∉ map ms_Path specs -> files' !! path = files !! path).
Proof.
  induction specs as [| spec specs IH]; intros files files'; cbn [load_specs map].
  - intros [= <-] _. split; [by intros spec ?%not_elem_of_nil | done].
  - destruct (load r _) as [g | e] eqn:El; [| done]. intros Hl [Hnin Hn]%NoDup_cons. destruct (IH _ _ Hl Hn) as [Hin Hout]. split.
    + intros s [-> | Hs]%elem_of_cons; [| by apply Hin]. rewrite (Hout _ Hnin), lookup_insert_eq. exists g.
      destruct (load_loaded _ _ _ _ El) as (_ & Hh & _). done.
    + intros path Hp. apply not_elem_of_cons in Hp as [Hne Hp]. rewrite (Hout path Hp). by rewrite lookup_insert_ne.
Qed.

Lemma NewModelCache_loaded r specs files path f : NewModelCache r specs = Ok files -> files !! path = Some f ->
  loaded_file path f /\ started r path f.
Proof. intros Hn. apply (load_specs_loaded r specs ∅); [| done]. intros p g. by rewrite lookup_empty. Qed.

Lemma reload_loaded r path f : loaded_file path f -> loaded_file path (reload_file r f) /\ mf_requiredHosts (reload_file r f) = mf_requiredHosts f.
Proof.
  intros [Hp Hm]. unfold reload_file. destruct (safe_read maxModelBytes _) as [raw | e]; [| by split]. cbv zeta. destruct (contentHash raw =? mf_hash f); [by split |].
  destruct (ParseModel raw) as [m | e] eqn:Ep; [| split; [by split | done]]. destruct (validateRequired f m) as [e |] eqn:Ev; (split; [split; [done |] | done]); [done |].
  exists m. split; [done |]. split; [by eapply ParseModel_ok |]. by apply (validateRequired_spec f m).
Qed.

Lemma rounds_loaded rs path : forall f, loaded_file path f ->
  loaded_file path (fold_left (fun f r => reload_file r f) rs f) /\ mf_requiredHosts (fold_left (fun f r => reload_file r f) rs f) = mf_requiredHosts f.
Proof.
  induction rs as [| r rs IH]; intros f Hf; cbn [fold_left]; [done |]. destruct (reload_loaded r path f Hf) as [Hr Hh].
  destruct (IH _ Hr) as [Hl Hh']. split; [done | congruence].
Qed.
End Service.

(** * Properties *)

(** C35: Of a configuration that started, every configured specification, its
    path named once, serves from the start the model its file then held, and
    after any number of rereads, whatever the files hold by then, a model
    that passed validation and has every host the specification requires;
    without hash collisions among the contents read, it is exactly the last
    content that could be served under that specification. *)
Theorem model_cache_serves_last_good `{Unicode, ModelJSON} r0 specs files rs spec
  (Hd : NoDup (map ms_Path specs)) (Hn : NewModelCache r0 specs = Ok files) (Hs : spec ∈ specs) :
  let path := ms_Path spec in
  exists raw0 m0 m, fa_bytes (r0 path) = Some raw0 /\ ParseModel raw0 = Ok m0 /\ Get files path = Some m0 /\
  Get (rounds rs files) path = Some m /\ model_ok m /\ (forall host, host ∈ ms_RequiredHosts spec -> HasDomain m host = true) /\
  ((forall a b, a ∈ raw0 :: contents_read path rs -> b ∈ raw0 :: contents_read path rs -> contentHash a = contentHash b -> a = b) ->
   Some m = last_good (mk_mf path (ms_RequiredHosts spec) 0 None) (Some m0) (contents_read path rs)).
Proof.
  intros path. destruct (proj1 (load_specs_paths _ _ _ _ Hn Hd) spec Hs) as (f & Hf & Hreq). fold path in Hf.
  destruct (NewModelCache_loaded _ _ _ _ _ Hn Hf) as (Hl & raw0 & Hraw & Hr & Hpm). pose proof Hl as [Hp (m0 & Hm0 & _)].
  destruct (rounds_loaded rs path f Hl) as [[_ (m & Hm & Hok & Hh)] Hhosts]. exists raw0, m0, m. unfold Get. rewrite rounds_lookup, Hf. cbn.
  split; [eapply (safe_read_whole maxModelBytes); [done | exact Hraw] |]. split; [exact (Hpm m0 Hm0) |]. split; [exact Hm0 | split; [exact Hm | split; [exact Hok |]]].
  split; [by rewrite <- Hreq, <- Hhosts |]. intros Hinj. rewrite <- Hm, <- Hm0.
  rewrite (last_good_same _ f) by (by rewrite Hreq). apply (reload_last_good path rs f raw0); [exact Hp | split; [exact (proj1 Hr) | exact (proj2 Hr)] | exact Hinj].
Qed.

(** ** Concrete runs *)
Module Ex.
#[export] Existing Instance ascii_only.
#[export] Existing Instance Anomaly.Ex.one_model.

Definition holds (raw : string) : reads := fun _ => mk_answers true (Some (Z.of_nat (length (lit raw)))) (Some (lit raw)).
Definition missing : reads := fun _ => mk_answers false None None.
Definition specs : list ModelSpec := [mk_spec (lit "/m.json") [lit "example.com"]].

Definition cache : gmap gostring modelFile := match NewModelCache (holds "model") specs with Ok files => files | Err _ => ∅ end.

Example startup_refused : NewModelCache (holds "broken") specs = Err (Unparsed BadJSON).
Proof. vm_compute. reflexivity. Qed.
Example fnv_vector : contentHash (lit "a") = 12638187200555641996.
Proof. vm_compute. reflexivity. Qed.

Lemma model_cache_serves_last_good_witness :
  NewModelCache (holds "model") specs = Ok cache /\
  exists m, Get (rounds [holds "broken"; missing; holds "worse"] cache) (lit "/m.json") = Some m /\ model_ok m /\ HasDomain m (lit "example.com") = true.
Proof.
  assert (Hn : NewModelCache (holds "model") specs = Ok cache) by (vm_compute; reflexivity). split; [exact Hn |].
  assert (Hd : NoDup (map ms_Path specs)) by (apply NoDup_singleton).
  assert (Hs : mk_spec (lit "/m.json") [lit "example.com"] ∈ specs) by (by left).
  destruct (model_cache_serves_last_good _ _ _ [holds "broken"; missing; holds "worse"] _ Hd Hn Hs) as (raw0 & m0 & m & _ & _ & _ & Hm & Hok & Hh & _).
  exists m. split; [exact Hm | split; [exact Hok |]]. apply Hh. by left.
Defined.
End Ex.
