(* ===== verification/Segments.v ===== *)
(** * Choosing the segments to train (core/anomaly/train.go)

    Log records as the trainer reads them, and the first pass over them:
    [SegmentSelector], a bounded heavy-hitter count per host.  A domain's
    counters are shared between a map and a heap of pointers, so they live in
    memory cells ([sd_mem]) that the map ([sd_counters]) and the heap
    ([sd_minimums]) refer to by number; a [nil] pointer or an index out of range
    is [None].

    [Space] is the abstract count, one map of estimates; [observe_key_refines]
    proves that the cells, the map and the heap implement it, and the estimates
    bound the true counts, so no segment above its share is lost. *)

From S2P Require Export Anomaly.
From S2P Require Export Heap.

Open Scope Z_scope.

(** ** Log records *)
Record LogRecord := mk_record { l_Host : gostring; l_Method : gostring; l_URI : gostring; l_Status : Z; l_UserAgent : gostring; l_GuardianAction : gostring }.

Definition MaxLogLineBytes : nat := Z.to_nat (2 ^ 20).
Definition maxHostBytes : nat := Z.to_nat 255.
Definition maxMethodBytes : nat := 32.
Definition maxURIBytes : nat := Z.to_nat (64 * 2 ^ 10).
Definition maxUABytes : nat := Z.to_nat (16 * 2 ^ 10).

(** encoding/json/v2 and net/url.  [raw_value]: an undecoded member. *)
Class LogCodec := {
  raw_value : Type;
  unmarshal_fields : gostring -> option (gmap gostring raw_value);   (* None where a member occurs twice, too *)
  unmarshal_string : raw_value -> option gostring;
  unmarshal_int : raw_value -> option Z;
  validRequestURI : gostring -> bool
}.

Inductive record_error :=
| LineTooLong | LineNotUTF8 | LineNotJSON
| MissingField (name : gostring) | NotString (name : gostring) | NotInteger (name : gostring)
| InvalidHost | InvalidMethod | InvalidURI | InvalidUserAgent | InvalidStatus (n : Z) | InvalidAction.

Definition control_byte (c : ascii) : bool := (byteZ c <? 32) || (byteZ c =? 127).

Section Record.
Context `{Unicode, LogCodec}.

Definition requireString (fields : gmap gostring raw_value) (name : gostring) : outcome record_error gostring :=
  match fields !! name with
  | None => Err (MissingField name)
  | Some raw => match unmarshal_string raw with Some s => Ok s | None => Err (NotString name) end
  end.

(** The source ranges over a map of the five names: its order only picks the
    error. *)
Definition ParseLogRecord (line : gostring) : outcome record_error LogRecord :=
  if (MaxLogLineBytes <? length line)%nat then Err LineTooLong
  else if negb (ValidString line) then Err LineNotUTF8 else
  match unmarshal_fields line with
  | None => Err LineNotJSON
  | Some fields =>
    match requireString fields (lit "host"), requireString fields (lit "method"), requireString fields (lit "uri"),
          requireString fields (lit "user_agent"), requireString fields (lit "guardian_action") with
    | Ok rawHost, Ok method, Ok uri, Ok ua, Ok action =>
      match fields !! lit "status" with
      | None => Err (MissingField (lit "status"))
      | Some raw =>
        match unmarshal_int raw with
        | None => Err (NotInteger (lit "status"))
        | Some status =>
          let host := NormalizeHost rawHost in
          let method := ToUpper method in
          if negb (bool_decide (TrimSpace rawHost = rawHost)) || contains_any (lit "/\?#@") rawHost || existsb control_byte rawHost ||
             bool_decide (host = []) || (maxHostBytes <? length host)%nat then Err InvalidHost
          else if negb (validMethod method) || (maxMethodBytes <? length method)%nat then Err InvalidMethod
          else if bool_decide (uri = []) || (maxURIBytes <? length uri)%nat ||
            (negb (bool_decide (uri = lit "*")) && (negb (has_prefix [slash] uri) || negb (validRequestURI uri))) then Err InvalidURI
          else if (maxUABytes <? length ua)%nat then Err InvalidUserAgent
          else if (status <? 100) || (599 <? status) then Err (InvalidStatus status)
          else if bool_decide (action ∈ [lit "allow"; lit "challenge"; lit "deny"; lit "shed"; lit "refuse"])
          then Ok (mk_record host method uri status ua action) else Err InvalidAction
        end
      end
    | Err e, _, _, _, _ => Err e
    | _, Err e, _, _, _ => Err e
    | _, _, Err e, _, _ => Err e
    | _, _, _, Err e, _ => Err e
    | _, _, _, _, Err e => Err e
    end
  end.

Inductive FilterReason := FilterIncluded | FilterStatus | FilterAction.
Definition Eligible (rec : LogRecord) : FilterReason :=
  if 400 <=? l_Status rec then FilterStatus
  else if negb (bool_decide (l_GuardianAction rec = [])) && negb (bool_decide (l_GuardianAction rec = lit "allow")) then FilterAction
  else FilterIncluded.

Definition SegmentKeys (rec : LogRecord) : list SegmentKey :=
  let method := ToUpper (l_Method rec) in
  let method := if bool_decide (method = []) then lit "GET" else method in
  let route := routeKey (DecodePath (RequestPath (l_URI rec))) in
  [mk_key method route; mk_key [] route; mk_key method []].
End Record.

(** ** The selector *)
Record selectorCounter := mk_sc { sc_key : SegmentKey; sc_count : Z; sc_index : nat }.

(** [sd_minimums]: the heap of pointers; cells are never freed. *)
Record selectorDomain := mk_sd { sd_mem : list selectorCounter; sd_counters : gmap SegmentKey nat; sd_minimums : list nat }.
Record SegmentSelector := mk_selector { ss_capacity : Z; ss_domains : gmap gostring selectorDomain }.

Definition NewSegmentSelector (maxSegments : Z) : SegmentSelector := mk_selector (Z.max 1 (wrap64 (maxSegments * 4))) ∅.

Definition string_lt (a b : gostring) : bool := negb (bytes_leb b a).
Definition segmentLess (a b : SegmentKey) : bool :=
  if negb (bool_decide (k_Method a = k_Method b)) then string_lt (k_Method a) (k_Method b) else string_lt (k_Route a) (k_Route b).
Definition counterLess (a b : SegmentKey * Z) : bool :=
  if negb (a.2 =? b.2) then a.2 <? b.2 else segmentLess a.1 b.1.

Definition contents (c : selectorCounter) : SegmentKey * Z := (sc_key c, sc_count c).
Definition set_mem (m : list selectorCounter) (d : selectorDomain) : selectorDomain := mk_sd m (sd_counters d) (sd_minimums d).
Definition set_index (p i : nat) (m : list selectorCounter) : list selectorCounter :=
  alter (fun c => mk_sc (sc_key c) (sc_count c) i) p m.

(** [selectorHeap]. *)
Definition selector_Less (d : selectorDomain) (i j : nat) : option bool :=
  p ← sd_minimums d !! i; q ← sd_minimums d !! j;
  a ← sd_mem d !! p; b ← sd_mem d !! q; Some (counterLess (contents a) (contents b)).
Definition selector_Swap (d : selectorDomain) (i j : nat) : option selectorDomain :=
  p ← sd_minimums d !! i; q ← sd_minimums d !! j;
  Some (mk_sd (set_index p j (set_index q i (sd_mem d))) (sd_counters d) (swapped i j (sd_minimums d))).
Definition selector_Push (d : selectorDomain) (p : nat) : option selectorDomain :=
  Some (mk_sd (set_index p (length (sd_minimums d)) (sd_mem d)) (sd_counters d) (sd_minimums d ++ [p])).

#[export] Instance selectorHeap : HeapInterface selectorDomain nat :=
  {| h_Len d := length (sd_minimums d); h_Less := selector_Less; h_Swap := selector_Swap; h_Push := selector_Push |}.

(** The body of the loop of [Observe], for one key. *)
Definition observe_key (capacity : Z) (key : SegmentKey) (d : selectorDomain) : option selectorDomain :=
  match sd_counters d !! key with
  | Some p =>
    c ← sd_mem d !! p;
    Fix (set_mem (<[p := mk_sc (sc_key c) (wrap64 (sc_count c + 1)) (sc_index c)]> (sd_mem d)) d) (sc_index c)
  | None =>
    if Z.of_nat (size (sd_counters d)) <? capacity then
      let p := length (sd_mem d) in
      HeapPush (mk_sd (sd_mem d ++ [mk_sc key 1 0]) (<[key := p]> (sd_counters d)) (sd_minimums d)) p
    else
      p ← sd_minimums d !! 0%nat;
      victim ← sd_mem d !! p;
      Fix (mk_sd (<[p := mk_sc key (wrap64 (sc_count victim + 1)) (sc_index victim)]> (sd_mem d))
                 (<[key := p]> (delete (sc_key victim) (sd_counters d))) (sd_minimums d)) 0
  end.

Definition empty_domain : selectorDomain := mk_sd [] ∅ [].

Section Selector.
Context `{Unicode}.

Fixpoint observe_keys (capacity : Z) (keys : list SegmentKey) (d : selectorDomain) : option selectorDomain :=
  match keys with [] => Some d | key :: rest => d ← observe_key capacity key d; observe_keys capacity rest d end.

Definition Observe (rec : LogRecord) (s : SegmentSelector) : option SegmentSelector :=
  let host := NormalizeHost (l_Host rec) in
  d ← observe_keys (ss_capacity s) (SegmentKeys rec) (default empty_domain (ss_domains s !! host));
  Some (mk_selector (ss_capacity s) (<[host := d]> (ss_domains s))).

(** By count, the highest first, then by key. *)
Definition rank_le (a b : SegmentKey * Z) : Prop :=
  if a.2 =? b.2 then segmentLess b.1 a.1 = false else b.2 < a.2.
#[global] Instance rank_le_dec a b : Decision (rank_le a b).
Proof. unfold rank_le. destruct (_ =? _); apply _. Defined.

Definition selector_entries (d : selectorDomain) : option (list (SegmentKey * Z)) :=
  mapM (fun kp => c ← sd_mem d !! kp.2; Some (kp.1, sc_count c)) (map_to_list (sd_counters d)).
Definition top_segments (maxSegments : nat) (entries : list (SegmentKey * Z)) : list SegmentKey :=
  map fst (take maxSegments (merge_sort rank_le entries)).
Definition domain_selected (maxSegments : nat) (d : selectorDomain) : option (list SegmentKey) :=
  entries ← selector_entries d; Some (top_segments maxSegments entries).

(** [Selected]. *)
Definition Selected (s : SegmentSelector) (maxSegments : nat) : option (gmap gostring (list SegmentKey)) :=
  out ← mapM (fun hd => keys ← domain_selected maxSegments hd.2; Some (hd.1, keys)) (map_to_list (ss_domains s));
  Some (list_to_map out).

(** One pass over the records. *)
Fixpoint observe_all (recs : list LogRecord) (s : SegmentSelector) : option SegmentSelector :=
  match recs with [] => Some s | rec :: rest => s ← Observe rec s; observe_all rest s end.
End Selector.

(** ** The order of counters *)
Lemma string_lt_false a b : string_lt a b = false <-> bytes_leb b a = true.
Proof. unfold string_lt. by rewrite negb_false_iff. Qed.

Lemma segmentLess_false a b : segmentLess a b = false <->
  (k_Method a = k_Method b /\ bytes_leb (k_Route b) (k_Route a) = true) \/ (k_Method a <> k_Method b /\ bytes_leb (k_Method b) (k_Method a) = true).
Proof. unfold segmentLess. case_bool_decide; cbn [negb]; rewrite string_lt_false; tauto. Qed.

Lemma segmentLess_asym a b : segmentLess a b = true -> segmentLess b a = false.
Proof.
  intros Hab. rewrite segmentLess_false. unfold segmentLess, string_lt in Hab. case_bool_decide as E; cbn [negb] in Hab; apply negb_true_iff in Hab.
  - left. split; [done |]. destruct (bytes_leb_total (k_Route a) (k_Route b)); [done | congruence].
  - right. split; [done |]. destruct (bytes_leb_total (k_Method a) (k_Method b)); [done | congruence].
Qed.

Lemma segmentLess_trans a b c : segmentLess b a = false -> segmentLess c b = false -> segmentLess c a = false.
Proof.
  rewrite !segmentLess_false. intros [[H1 H2] | [H1 H2]] [[H3 H4] | [H3 H4]].
  - left. split; [congruence |]. by apply (bytes_leb_trans _ _ _ H2 H4).
  - right. split; congruence.
  - right. split; congruence.
  - right. split; [| by apply (bytes_leb_trans _ _ _ H2 H4)]. intros E. rewrite E in H4. apply H1. by apply bytes_leb_antisym.
Qed.

Lemma counterLess_false a b : counterLess b a = false <-> a.2 < b.2 \/ (a.2 = b.2 /\ segmentLess b.1 a.1 = false).
Proof. unfold counterLess. destruct (Z.eqb_spec b.2 a.2), (Z.ltb_spec b.2 a.2); cbn [negb]; intuition (lia || congruence || discriminate). Qed.

Lemma counterLess_le a b : counterLess b a = false -> a.2 <= b.2.
Proof. rewrite counterLess_false. lia. Qed.

#[export] Instance counterLess_weak : StrictWeak counterLess.
Proof.
  split.
  - intros a b Hab. rewrite counterLess_false. unfold counterLess in Hab. destruct (Z.eqb_spec a.2 b.2); cbn [negb] in Hab; [right | left; lia].
    split; [done | by apply segmentLess_asym].
  - intros a b c. rewrite !counterLess_false. intros [? | [? H1]] [? | [? H2]]; [lia .. |]. right. split; [lia |]. by apply (segmentLess_trans _ _ _ H1).
Qed.

(** ** The abstract count *)
Definition mass (m : gmap SegmentKey Z) : Z := map_fold (fun _ n acc => n + acc) 0 m.
Definition occurrences (k : SegmentKey) (ks : list SegmentKey) : Z := Z.of_nat (count_occ SegmentKey_eq_dec ks k).

(** Space-Saving: a known key counts up, a new one takes a free counter or
    the one of a least counted key, with its count. *)
Inductive space_step (capacity : Z) (key : SegmentKey) (m : gmap SegmentKey Z) : gmap SegmentKey Z -> Prop :=
| space_known n : m !! key = Some n -> space_step capacity key m (<[key := n + 1]> m)
| space_free : m !! key = None -> Z.of_nat (size m) < capacity -> space_step capacity key m (<[key := 1]> m)
| space_replace v n : m !! key = None -> capacity <= Z.of_nat (size m) -> m !! v = Some n ->
    (forall k x, m !! k = Some x -> counterLess (k, x) (v, n) = false) -> space_step capacity key m (<[key := n + 1]> (delete v m)).

(** What the estimates say of the keys seen. *)
Record space_inv (capacity : Z) (ks : list SegmentKey) (m : gmap SegmentKey Z) : Prop := {
  si_mass : mass m = Z.of_nat (length ks);
  si_size : Z.of_nat (size m) <= capacity;
  si_above k n : m !! k = Some n -> occurrences k ks <= n /\ 1 <= n;
  si_missing k : m !! k = None -> 0 < occurrences k ks -> capacity <= Z.of_nat (size m) /\ forall k' n', m !! k' = Some n' -> occurrences k ks <= n';
  si_below k n : m !! k = Some n -> n <= occurrences k ks \/ (capacity <= Z.of_nat (size m) /\ forall k' n', m !! k' = Some n' -> n - occurrences k ks <= n')
}.

Lemma mass_insert m k n : m !! k = None -> mass (<[k := n]> m) = n + mass m.
Proof. intros Hk. unfold mass. rewrite map_fold_insert_L; [done | lia | done]. Qed.

Lemma mass_delete m k n : m !! k = Some n -> mass m = n + mass (delete k m).
Proof. intros Hk. rewrite <- (insert_delete_id m k n Hk) at 1. rewrite mass_insert; [done | apply lookup_delete_eq]. Qed.

Lemma mass_at_least m lo : (forall k n, m !! k = Some n -> lo <= n) -> lo * Z.of_nat (size m) <= mass m.
Proof.
  induction m as [| k n m Hk IH] using map_ind; intros Hlo; [by rewrite map_size_empty, Z.mul_0_r |].
  rewrite mass_insert, map_size_insert_None by done. pose proof (Hlo k n (lookup_insert_eq _ _ _)).
  assert (lo * Z.of_nat (size m) <= mass m); [| lia]. apply IH. intros k' n' Hk'. apply (Hlo k'). rewrite lookup_insert_ne; [done | congruence].
Qed.

(** The same sum over a list of entries. *)
Fixpoint sum_counts (l : list (SegmentKey * Z)) : Z := match l with [] => 0 | e :: l => e.2 + sum_counts l end.

Lemma mass_list m : mass m = sum_counts (map_to_list m).
Proof. unfold mass. rewrite map_fold_foldr. induction (map_to_list m) as [| [k n] l IH]; [done |]. cbn in *. by rewrite IH. Qed.

Lemma sum_counts_perm l l' : l ≡ₚ l' -> sum_counts l = sum_counts l'.
Proof. induction 1; cbn; lia. Qed.

Lemma sum_counts_app l l' : sum_counts (l ++ l') = sum_counts l + sum_counts l'.
Proof. induction l; cbn; lia. Qed.

Lemma sum_counts_lower l n : (forall e, e ∈ l -> n <= e.2) -> n * Z.of_nat (length l) <= sum_counts l.
Proof.
  induction l as [| e l IH]; intros Hl; cbn [length sum_counts]; [lia |]. pose proof (Hl e ltac:(left)).
  assert (n * Z.of_nat (length l) <= sum_counts l) by (apply IH; intros; apply Hl; by right). lia.
Qed.

Lemma count_in_mass m k n : (forall k n, m !! k = Some n -> 0 <= n) -> m !! k = Some n -> n <= mass m.
Proof.
  intros Hpos Hk. rewrite (mass_delete m k n Hk). pose proof (mass_at_least (delete k m) 0) as Ht.
  assert (0 * Z.of_nat (size (delete k m)) <= mass (delete k m)); [| lia]. apply Ht. intros k' n' [_ H]%lookup_delete_Some. by apply (Hpos k').
Qed.

Lemma occurrences_snoc k ks key : occurrences k (ks ++ [key]) = occurrences k ks + (if decide (k = key) then 1 else 0).
Proof.
  unfold occurrences. rewrite count_occ_app. cbn. destruct (SegmentKey_eq_dec key k) as [E | E]; case_decide; subst; lia || done.
Qed.

Lemma occurrences_nonneg k ks : 0 <= occurrences k ks.
Proof. unfold occurrences. lia. Qed.

Section Space.
Variables (capacity : Z) (ks : list SegmentKey) (key : SegmentKey) (m : gmap SegmentKey Z).
Hypothesis Hinv : space_inv capacity ks m.

(** A key counted before keeps its relation to its estimate. *)
Lemma occurrences_other k : k <> key -> occurrences k (ks ++ [key]) = occurrences k ks.
Proof using. intros Hk. rewrite occurrences_snoc, decide_False by done. lia. Qed.
Lemma occurrences_same : occurrences key (ks ++ [key]) = occurrences key ks + 1.
Proof using. by rewrite occurrences_snoc, decide_True. Qed.

Lemma space_inv_known n : m !! key = Some n -> space_inv capacity (ks ++ [key]) (<[key := n + 1]> m).
Proof using Hinv.
  intros Hk. assert (Hsz : size (<[key := n + 1]> m) = size m) by (rewrite map_size_insert_Some; [done | by eexists]).
  split; rewrite ?Hsz.
  - rewrite <- insert_delete_eq, mass_insert by apply lookup_delete_eq. pose proof (mass_delete m key n Hk). rewrite length_app. cbn. pose proof (si_mass _ _ _ Hinv). lia.
  - apply (si_size _ _ _ Hinv).
  - intros k x [[<- <-] | [Hne Hx]]%lookup_insert_Some.
    + rewrite occurrences_same. pose proof (si_above _ _ _ Hinv key n Hk). lia.
    + rewrite occurrences_other by done. by apply (si_above _ _ _ Hinv).
  - intros k [Hx Hne]%lookup_insert_None. rewrite occurrences_other by done. intros Hocc. destruct (si_missing _ _ _ Hinv k Hx Hocc) as [Hs Hall].
    split; [done |]. intros k' n' [[<- <-] | [_ Hn']]%lookup_insert_Some; [pose proof (Hall key n Hk); lia | by apply (Hall k')].
  - intros k x [[<- <-] | [Hne Hx]]%lookup_insert_Some; [rewrite occurrences_same | rewrite occurrences_other by done].
    + destruct (si_below _ _ _ Hinv key n Hk) as [Hle | [Hs Hall]]; [left; lia | right]. split; [done |].
      intros k' n' [[<- <-] | [_ Hn']]%lookup_insert_Some; [pose proof (occurrences_nonneg key ks); lia | pose proof (Hall k' n' Hn'); lia].
    + destruct (si_below _ _ _ Hinv k x Hx) as [Hle | [Hs Hall]]; [by left | right]. split; [done |].
      intros k' n' [[<- <-] | [_ Hn']]%lookup_insert_Some; [pose proof (Hall key n Hk); lia | by apply (Hall k')].
Qed.

Lemma space_inv_free : m !! key = None -> Z.of_nat (size m) < capacity -> space_inv capacity (ks ++ [key]) (<[key := 1]> m).
Proof using Hinv.
  intros Hk Hlt. assert (Hsz : size (<[key := 1]> m) = S (size m)) by (by rewrite map_size_insert_None).
  assert (Hno : forall k, m !! k = None -> occurrences k ks = 0).
  { intros k Hx. pose proof (occurrences_nonneg k ks). destruct (decide (occurrences k ks = 0)); [done |]. destruct (si_missing _ _ _ Hinv k Hx ltac:(lia)). lia. }
  split; rewrite ?Hsz.
  - rewrite mass_insert by done. rewrite length_app. cbn. pose proof (si_mass _ _ _ Hinv). lia.
  - lia.
  - intros k x [[<- <-] | [Hne Hx]]%lookup_insert_Some.
    + rewrite occurrences_same, Hno by done. lia.
    + rewrite occurrences_other by done. by apply (si_above _ _ _ Hinv).
  - intros k [Hx Hne]%lookup_insert_None. rewrite occurrences_other, Hno by done. lia.
  - intros k x [[<- <-] | [Hne Hx]]%lookup_insert_Some; left.
    + rewrite occurrences_same, Hno by done. lia.
    + rewrite occurrences_other by done. destruct (si_below _ _ _ Hinv k x Hx) as [Hle | [Hs _]]; [done | lia].
Qed.

Lemma space_inv_replace v n : m !! key = None -> capacity <= Z.of_nat (size m) -> m !! v = Some n ->
  (forall k x, m !! k = Some x -> n <= x) -> space_inv capacity (ks ++ [key]) (<[key := n + 1]> (delete v m)).
Proof using Hinv.
  intros Hk Hfull Hv Hmin. assert (Hne : v <> key) by congruence.
  assert (Hnew : delete v m !! key = None) by (by rewrite lookup_delete_ne).
  assert (Hsz : size (<[key := n + 1]> (delete v m)) = size m).
  { rewrite map_size_insert_None by done. rewrite map_size_delete_Some by (by eexists). assert (size m <> 0%nat); [| lia].
    intros E. apply map_size_empty_inv in E. rewrite E, lookup_empty in Hv. done. }
  assert (Hocc : forall k, m !! k = None -> occurrences k ks <= n).
  { intros k Hx. pose proof (occurrences_nonneg k ks). destruct (decide (occurrences k ks = 0)) as [-> |].
    - pose proof (si_above _ _ _ Hinv v n Hv). lia.
    - destruct (si_missing _ _ _ Hinv k Hx ltac:(lia)) as [_ Hall]. by apply (Hall v). }
  assert (Hlow : forall k' n', <[key := n + 1]> (delete v m) !! k' = Some n' -> n <= n').
  { intros k' n' [[<- <-] | [_ [_ Hn']%lookup_delete_Some]]%lookup_insert_Some; [lia | by apply (Hmin k')]. }
  split; rewrite ?Hsz.
  - rewrite mass_insert by done. pose proof (mass_delete m v n Hv). rewrite length_app. cbn. pose proof (si_mass _ _ _ Hinv). lia.
  - apply (si_size _ _ _ Hinv).
  - intros k x [[<- <-] | [Hk' [_ Hx]%lookup_delete_Some]]%lookup_insert_Some.
    + rewrite occurrences_same. pose proof (Hocc key Hk). pose proof (si_above _ _ _ Hinv v n Hv). lia.
    + rewrite occurrences_other by done. by apply (si_above _ _ _ Hinv).
  - intros k [Hx Hk']%lookup_insert_None. rewrite occurrences_other by done. intros Hpos. split; [done |]. intros k' n' Hn'.
    apply Hlow in Hn'. apply lookup_delete_None in Hx as [<- | Hx].
    + pose proof (si_above _ _ _ Hinv v n Hv). lia.
    + pose proof (Hocc k Hx). lia.
  - intros k x [[<- <-] | [Hk' [Hvk Hx]%lookup_delete_Some]]%lookup_insert_Some; [rewrite occurrences_same | rewrite occurrences_other by done].
    + right. split; [done |]. intros k' n' Hn'%Hlow. pose proof (occurrences_nonneg key ks). lia.
    + destruct (si_below _ _ _ Hinv k x Hx) as [Hle | [Hs Hall]]; [by left | right]. split; [done |]. intros k' n' Hn'%Hlow. pose proof (Hall v n Hv). lia.
Qed.

Lemma space_step_inv m' : space_step capacity key m m' -> space_inv capacity (ks ++ [key]) m'.
Proof using Hinv.
  destruct 1 as [n Hk | Hk Hlt | v n Hk Hfull Hv Hmin]; [by apply space_inv_known | by apply space_inv_free |].
  apply space_inv_replace; [done | done | done |]. intros k x Hx. apply (counterLess_le (v, n) (k, x)). by apply Hmin.
Qed.
End Space.

Lemma space_inv_nil capacity : 1 <= capacity -> space_inv capacity [] ∅.
Proof. intros Hc. split; [done | rewrite map_size_empty; lia | | |]; intros k; rewrite ?lookup_empty; done. Qed.

(** A key above its share of the counters is counted. *)
Lemma space_heavy_counted capacity ks m k : 1 <= capacity -> space_inv capacity ks m ->
  Z.of_nat (length ks) < capacity * occurrences k ks -> exists n, m !! k = Some n /\ occurrences k ks <= n.
Proof.
  intros Hc Hinv Hheavy. destruct (m !! k) as [n |] eqn:Ek; [exists n; split; [done |]; by apply (si_above _ _ _ Hinv k n Ek) |].
  exfalso. assert (Hpos : 0 < occurrences k ks) by nia. destruct (si_missing _ _ _ Hinv k Ek Hpos) as [Hfull Hall].
  pose proof (mass_at_least m _ Hall) as Ht. rewrite (si_mass _ _ _ Hinv) in Ht. nia.
Qed.

(** ** The cells implement the count *)
Definition at_ (kc : list (SegmentKey * Z)) (p : nat) : SegmentKey * Z := default (mk_key [] [], 0) (kc !! p).

(** What exchanges on the heap leave alone, and the indexes they keep true. *)
Record laid_out (kc : list (SegmentKey * Z)) (ctr : gmap SegmentKey nat) (d : selectorDomain) : Prop := {
  lo_contents : contents <$> sd_mem d = kc;
  lo_counters : sd_counters d = ctr;
  lo_heap : sd_minimums d ≡ₚ seq 0 (length kc);
  lo_index i p : sd_minimums d !! i = Some p -> exists c, sd_mem d !! p = Some c /\ sc_index c = i
}.

Lemma set_index_contents p i mem : contents <$> set_index p i mem = contents <$> mem.
Proof.
  apply list_eq. intros q. rewrite !list_lookup_fmap. unfold set_index. destruct (decide (q = p)) as [-> | Hne].
  - rewrite list_lookup_alter_eq. by destruct (mem !! p).
  - by rewrite list_lookup_alter_ne.
Qed.

Lemma set_index_lookup p i q mem :
  set_index p i mem !! q = if decide (q = p) then (fun c => mk_sc (sc_key c) (sc_count c) i) <$> mem !! q else mem !! q.
Proof. unfold set_index. case_decide as E; [subst; apply list_lookup_alter_eq | by apply list_lookup_alter_ne]. Qed.

Lemma laid_out_cell kc ctr d i p : laid_out kc ctr d -> sd_minimums d !! i = Some p ->
  exists c, sd_mem d !! p = Some c /\ sc_index c = i /\ contents c = at_ kc p.
Proof.
  intros Hl Hp. destruct (lo_index _ _ _ Hl i p Hp) as (c & Hc & Hi). exists c. split; [done | split; [done |]].
  unfold at_. by rewrite <- (lo_contents _ _ _ Hl), list_lookup_fmap, Hc.
Qed.

Lemma laid_out_nodup kc ctr d : laid_out kc ctr d -> NoDup (sd_minimums d).
Proof. intros Hl. rewrite (lo_heap _ _ _ Hl). apply NoDup_seq. Qed.

Lemma laid_out_swap kc ctr d i j p q : laid_out kc ctr d -> sd_minimums d !! i = Some p -> sd_minimums d !! j = Some q ->
  exists d', selector_Swap d i j = Some d' /\ laid_out kc ctr d' /\ sd_minimums d' = swapped i j (sd_minimums d).
Proof.
  intros Hl Hp Hq. unfold selector_Swap. rewrite Hp, Hq. cbn [mbind option_bind]. eexists. split; [done |]. split; [| done].
  split; cbn [sd_mem sd_counters sd_minimums].
  - rewrite !set_index_contents. apply (lo_contents _ _ _ Hl).
  - apply (lo_counters _ _ _ Hl).
  - rewrite swapped_Permutation. apply (lo_heap _ _ _ Hl).
  - intros k r. rewrite (swapped_lookup i j k _ p q) by done. rewrite !set_index_lookup.
    destruct (lo_index _ _ _ Hl i p Hp) as (cp & Hcp & Hip), (lo_index _ _ _ Hl j q Hq) as (cq & Hcq & Hiq).
    destruct (decide (k = i)) as [-> | Hki]; [| destruct (decide (k = j)) as [-> | Hkj]].
    + intros [= <-]. rewrite Hcq. rewrite (decide_True (P := q = q)) by done. destruct (decide (q = p)) as [-> |]; cbn; [| by eexists].
      eexists. split; [done |]. cbn. congruence.
    + intros [= <-]. rewrite decide_True, Hcp by done. destruct (decide (p = q)); cbn; by eexists.
    + intros Hr. assert (r <> p /\ r <> q) as [Hrp Hrq].
      { split; intros ->; [apply Hki | apply Hkj]; by eapply (NoDup_lookup _ _ _ _ (laid_out_nodup _ _ _ Hl)). }
      rewrite !decide_False by done. by apply (lo_index _ _ _ Hl).
Qed.

#[export] Instance laid_out_laws kc ctr :
  HeapLaws (S := selectorDomain) (X := nat) counterLess (laid_out kc ctr) (fun d => at_ kc <$> sd_minimums d).
Proof.
  split.
  - intros d _. cbn. by rewrite length_fmap.
  - intros d i j x y Hl Hx Hy. rewrite list_lookup_fmap in Hx, Hy. apply fmap_Some in Hx as (p & Hp & ->), Hy as (q & Hq & ->).
    cbn. unfold selector_Less. rewrite Hp, Hq. cbn [mbind option_bind].
    destruct (laid_out_cell _ _ _ _ _ Hl Hp) as (cp & -> & _ & <-), (laid_out_cell _ _ _ _ _ Hl Hq) as (cq & -> & _ & <-). done.
  - intros d i j Hl Hi Hj. rewrite length_fmap in Hi, Hj. apply lookup_lt_is_Some_2 in Hi as [p Hp], Hj as [q Hq].
    destruct (laid_out_swap _ _ _ _ _ _ _ Hl Hp Hq) as (d' & Hs & Hl' & Hm). exists d'. split; [done | split; [done |]].
    by rewrite Hm, swapped_fmap.
Qed.

(** A domain between two calls. *)
Record domain_inv (d : selectorDomain) : Prop := {
  di_layout : laid_out (contents <$> sd_mem d) (sd_counters d) d;
  di_order : heap_order counterLess (at_ (contents <$> sd_mem d) <$> sd_minimums d);
  di_counters k p : sd_counters d !! k = Some p <-> exists c, sd_mem d !! p = Some c /\ sc_key c = k
}.

Definition estimates (d : selectorDomain) : gmap SegmentKey Z := omap (fun p => sc_count <$> sd_mem d !! p) (sd_counters d).

Lemma estimates_lookup d k n : estimates d !! k = Some n <-> exists p, sd_counters d !! k = Some p /\ sc_count <$> sd_mem d !! p = Some n.
Proof. unfold estimates. rewrite lookup_omap. destruct (sd_counters d !! k) as [p |]; cbn; [| by split; [| intros (? & ? & _)]]. split; [by exists p | by intros (? & [= <-] & ?)]. Qed.

Lemma estimates_cell d k n : domain_inv d -> estimates d !! k = Some n <-> exists p, (contents <$> sd_mem d) !! p = Some (k, n).
Proof.
  intros Hd. rewrite estimates_lookup. split.
  - intros (p & Hk & Hn). apply (di_counters d Hd) in Hk as (c & Hc & <-). exists p. rewrite Hc in Hn. rewrite list_lookup_fmap, Hc. cbn in *. by simplify_eq.
  - intros [p Hp]. rewrite list_lookup_fmap in Hp. apply fmap_Some in Hp as (c & Hc & [= -> ->]). exists p. rewrite Hc. split; [| done].
    apply (di_counters d Hd). by exists c.
Qed.

Lemma estimates_none d k : domain_inv d -> estimates d !! k = None <-> sd_counters d !! k = None.
Proof.
  intros Hd. unfold estimates. rewrite lookup_omap. destruct (sd_counters d !! k) as [p |] eqn:Ek; [| done]. cbn.
  apply (di_counters d Hd) in Ek as (c & -> & _). done.
Qed.

Lemma estimates_size d : domain_inv d -> size (estimates d) = size (sd_counters d).
Proof.
  intros Hd. rewrite <- !size_dom. f_equal. apply set_eq. intros k. rewrite !elem_of_dom, <- !not_eq_None_Some. by rewrite estimates_none.
Qed.

(** The two domains with the same cells, but for exchanges, count the same. *)
Lemma estimates_of kc ctr d : laid_out kc ctr d -> estimates d = omap (fun p => snd <$> kc !! p) ctr.
Proof.
  intros Hl. unfold estimates. rewrite (lo_counters _ _ _ Hl). apply map_eq. intros k. rewrite !lookup_omap. destruct (ctr !! k) as [p |]; [| done]. cbn.
  rewrite <- (lo_contents _ _ _ Hl), list_lookup_fmap. by destruct (sd_mem d !! p).
Qed.

(** A heap operation that ends in order leaves a domain. *)
Lemma restored_inv kc ctr (d d' : selectorDomain) :
  (forall k p, ctr !! k = Some p <-> exists n, kc !! p = Some (k, n)) ->
  restored (ok := laid_out kc ctr) (view := fun d => at_ kc <$> sd_minimums d) (less := counterLess) d d' ->
  domain_inv d' /\ estimates d' = omap (fun p => snd <$> kc !! p) ctr.
Proof.
  intros Hctr (Hl & _ & Hh). split; [| by apply estimates_of]. pose proof (lo_contents _ _ _ Hl) as Hc. pose proof (lo_counters _ _ _ Hl) as Hk.
  split.
  - by rewrite Hc, Hk.
  - by rewrite Hc.
  - intros k p. rewrite Hk, Hctr, <- Hc, list_lookup_fmap. split.
    + intros (n & Hn). apply fmap_Some in Hn as (c & Hcell & [= -> ->]). by exists c.
    + intros (c & -> & <-). by exists (sc_count c).
Qed.

(** Writing a cell changes one element of the view. *)
Lemma view_insert (kc : list (SegmentKey * Z)) x l i p : NoDup l -> l !! i = Some p -> (p < length kc)%nat ->
  at_ (<[p := x]> kc) <$> l = <[i := x]> (at_ kc <$> l).
Proof.
  intros Hnd Hi Hp. apply list_eq. intros j. pose proof (lookup_lt_Some _ _ _ Hi). destruct (decide (j = i)) as [-> | Hne].
  - rewrite list_lookup_insert_eq by (by rewrite length_fmap). rewrite list_lookup_fmap, Hi. cbn. unfold at_. by rewrite list_lookup_insert_eq.
  - rewrite list_lookup_insert_ne, !list_lookup_fmap by done. destruct (l !! j) as [q |] eqn:Ej; [| done]. cbn. f_equal. unfold at_.
    rewrite list_lookup_insert_ne; [done |]. intros <-. apply Hne. by eapply (NoDup_lookup l).
Qed.

Section Step.
Variables (capacity : Z) (key : SegmentKey) (d : selectorDomain).
Hypothesis Hd : domain_inv d.
Let kc := contents <$> sd_mem d.

Lemma heap_ids i p : sd_minimums d !! i = Some p -> (p < length kc)%nat.
Proof using Hd.
  intros Hp. assert (p ∈ sd_minimums d) as Hin by (by eapply list_elem_of_lookup_2). rewrite (lo_heap _ _ _ (di_layout d Hd)) in Hin.
  apply elem_of_seq in Hin. unfold kc. lia.
Qed.

Lemma cell_on_heap p c : sd_mem d !! p = Some c -> sd_minimums d !! sc_index c = Some p.
Proof using Hd.
  intros Hc. assert (p ∈ sd_minimums d) as Hin.
  { rewrite (lo_heap _ _ _ (di_layout d Hd)). apply elem_of_seq. apply lookup_lt_Some in Hc. rewrite length_fmap. lia. }
  apply list_elem_of_lookup in Hin as [i Hi]. destruct (lo_index _ _ _ (di_layout d Hd) i p Hi) as (c' & Hc' & <-). congruence.
Qed.

(** Writing key and count of a cell, its index kept. *)
Lemma rewritten_layout p c x ctr : sd_mem d !! p = Some c ->
  laid_out (<[p := x]> kc) ctr (mk_sd (<[p := mk_sc x.1 x.2 (sc_index c)]> (sd_mem d)) ctr (sd_minimums d)).
Proof using Hd.
  intros Hc. pose proof (di_layout d Hd) as Hl. split; cbn [sd_mem sd_counters sd_minimums].
  - rewrite list_fmap_insert. by destruct x.
  - done.
  - rewrite length_insert. apply (lo_heap _ _ _ Hl).
  - intros i q Hq. destruct (lo_index _ _ _ Hl i q Hq) as (c' & Hc' & Hi). destruct (decide (q = p)) as [-> | Hne].
    + rewrite list_lookup_insert_eq by (by eapply lookup_lt_Some). eexists. split; [done |]. cbn. congruence.
    + rewrite list_lookup_insert_ne by done. by exists c'.
Qed.

(** Growing the count of a cell and restoring the heap. *)
Lemma grown_restores p c x ctr : sd_mem d !! p = Some c -> sc_count c < x.2 ->
  (forall k q, ctr !! k = Some q <-> exists n, (<[p := x]> kc) !! q = Some (k, n)) ->
  exists d', Fix (mk_sd (<[p := mk_sc x.1 x.2 (sc_index c)]> (sd_mem d)) ctr (sd_minimums d)) (sc_index c) = Some d' /\
    domain_inv d' /\ estimates d' = omap (fun q => snd <$> (<[p := x]> kc) !! q) ctr.
Proof using Hd.
  intros Hc Hgrow Hctr. pose proof (di_layout d Hd) as Hl. pose proof (cell_on_heap p c Hc) as Hi. set (d1 := mk_sd _ ctr _).
  assert (Hv : at_ (<[p := x]> kc) <$> sd_minimums d1 = <[sc_index c := x]> (at_ kc <$> sd_minimums d)).
  { apply view_insert; [by eapply laid_out_nodup | done | by eapply heap_ids]. }
  destruct (Fix_restores (less := counterLess) (ok := laid_out (<[p := x]> kc) ctr) (view := fun d => at_ (<[p := x]> kc) <$> sd_minimums d) d1 (sc_index c)) as (d' & HFix & Hr).
  - by apply rewritten_layout.
  - rewrite length_fmap. by eapply lookup_lt_Some.
  - rewrite Hv. apply (but_down_grown counterLess _ _ (at_ kc p)); [apply (di_order d Hd) | by rewrite list_lookup_fmap, Hi |].
    assert (contents c = at_ kc p) as Hat by (unfold at_, kc; by rewrite list_lookup_fmap, Hc). rewrite <- Hat.
    unfold counterLess, contents. cbn [fst snd]. rewrite (proj2 (Z.eqb_neq _ _)), (proj2 (Z.ltb_ge _ _)) by lia. done.
  - exists d'. split; [done |]. by apply (restored_inv _ _ d1).
Qed.

Lemma counters_cells k p : sd_counters d !! k = Some p <-> exists n, kc !! p = Some (k, n).
Proof using Hd.
  rewrite (di_counters d Hd). unfold kc. rewrite list_lookup_fmap. split.
  - intros (c & -> & <-). by exists (sc_count c).
  - intros [n Hn]. apply fmap_Some in Hn as (c & Hc & [= -> _]). by exists c.
Qed.

Lemma estimates_by_cells k : estimates d !! k = (sd_counters d !! k) ≫= (fun p => snd <$> kc !! p).
Proof using. unfold estimates, kc. rewrite lookup_omap. destruct (sd_counters d !! k) as [p |]; [| done]. cbn. rewrite list_lookup_fmap. by destruct (sd_mem d !! p). Qed.

Lemma observe_known p : sd_counters d !! key = Some p -> (forall n, estimates d !! key = Some n -> n + 1 < 2 ^ 63) ->
  (forall n, estimates d !! key = Some n -> 0 <= n) ->
  exists d' n, observe_key capacity key d = Some d' /\ domain_inv d' /\ estimates d !! key = Some n /\ estimates d' = <[key := n + 1]> (estimates d).
Proof using Hd.
  intros Hp Hmax Hpos. unfold observe_key. rewrite Hp. pose proof Hp as (c & Hc & Hk)%(di_counters d Hd). rewrite Hc. cbn [mbind option_bind].
  assert (Hn : estimates d !! key = Some (sc_count c)) by (apply estimates_lookup; exists p; by rewrite Hc).
  rewrite wrap64_id by (unfold int64_ok, int64_min, int64_max; pose proof (Hmax _ Hn); pose proof (Hpos _ Hn); lia).
  assert (Hcell : kc !! p = Some (key, sc_count c)) by (unfold kc; rewrite list_lookup_fmap, Hc; cbn; unfold contents; by rewrite Hk).
  pose proof (lookup_lt_Some _ _ _ Hcell) as Hlt.
  destruct (grown_restores p c (key, sc_count c + 1) (sd_counters d) Hc ltac:(cbn; lia)) as (d' & HFix & Hinv & He).
  { intros k q. rewrite counters_cells. destruct (decide (q = p)) as [-> | Hq]; [| by rewrite list_lookup_insert_ne].
    rewrite list_lookup_insert_eq, Hcell by done. split; intros [n [= <- _]]; by eexists. }
  exists d', (sc_count c). cbn [fst snd] in HFix. unfold set_mem. rewrite Hk. split; [done | split; [done | split; [done |]]].
  rewrite He. apply map_eq. intros k. rewrite lookup_omap. destruct (decide (k = key)) as [-> | Hne].
  - rewrite Hp, lookup_insert_eq. cbn. by rewrite list_lookup_insert_eq.
  - rewrite lookup_insert_ne, estimates_by_cells by done. destruct (sd_counters d !! k) as [q |] eqn:Eq; [| done]. cbn.
    rewrite list_lookup_insert_ne; [done |]. intros <-. apply counters_cells in Eq as [n' Hn']. congruence.
Qed.

Lemma heap_length : length (sd_minimums d) = length kc.
Proof using Hd. rewrite (lo_heap _ _ _ (di_layout d Hd)). by rewrite length_seq. Qed.

Lemma view_app (x : SegmentKey * Z) (l : list nat) : (forall i p, l !! i = Some p -> (p < length kc)%nat) -> at_ (kc ++ [x]) <$> l = at_ kc <$> l.
Proof using.
  intros Hl. apply list_eq. intros i. rewrite !list_lookup_fmap. destruct (l !! i) as [p |] eqn:Ei; [| done]. cbn. f_equal. unfold at_.
  rewrite lookup_app_l; [done | by eapply Hl].
Qed.

(** The cell and the heap slot of a key that gets a free counter. *)
Lemma pushed_layout : laid_out (kc ++ [(key, 1)]) (<[key := length (sd_mem d)]> (sd_counters d))
  (mk_sd (set_index (length (sd_mem d)) (length (sd_minimums d)) (sd_mem d ++ [mk_sc key 1 0]))
     (<[key := length (sd_mem d)]> (sd_counters d)) (sd_minimums d ++ [length (sd_mem d)])).
Proof using Hd.
  pose proof (di_layout d Hd) as Hl. split; cbn [sd_mem sd_counters sd_minimums].
  - by rewrite set_index_contents, fmap_app.
  - done.
  - rewrite length_app, seq_app. cbn. unfold kc. rewrite length_fmap. rewrite (lo_heap _ _ _ Hl). by rewrite length_fmap.
  - intros i q Hq. rewrite set_index_lookup. apply lookup_app_Some in Hq as [Hq | [Hge Hq]].
    + destruct (lo_index _ _ _ Hl i q Hq) as (c & Hc & Hi). pose proof (lookup_lt_Some _ _ _ Hc).
      rewrite decide_False by lia. rewrite lookup_app_l by done. by exists c.
    + apply list_lookup_singleton_Some in Hq as [Hz <-]. rewrite decide_True by done. rewrite lookup_app_r, Nat.sub_diag by done. cbn.
      eexists. split; [done |]. cbn. lia.
Qed.

Lemma observe_free : sd_counters d !! key = None -> Z.of_nat (size (sd_counters d)) < capacity ->
  exists d', observe_key capacity key d = Some d' /\ domain_inv d' /\ estimates d' = <[key := 1]> (estimates d).
Proof using Hd.
  intros Hk Hsz. unfold observe_key. rewrite Hk, (proj2 (Z.ltb_lt _ _)) by done. cbv zeta. set (p := length (sd_mem d)).
  assert (Hlen : length kc = p) by (unfold kc, p; apply length_fmap). set (ctr := <[key := p]> (sd_counters d)). set (d1 := mk_sd _ ctr _).
  set (d2 := mk_sd (set_index p (length (sd_minimums d)) (sd_mem d ++ [mk_sc key 1 0])) ctr (sd_minimums d ++ [p])).
  destruct (HeapPush_restores (less := counterLess) (ok := laid_out (kc ++ [(key, 1)]) ctr) (view := fun d => at_ (kc ++ [(key, 1)]) <$> sd_minimums d)
    d1 p d2 (key, 1)) as (d' & HPush & Hr).
  - cbn [d1 d2 sd_minimums]. rewrite view_app by apply heap_ids. apply (di_order d Hd).
  - reflexivity.
  - apply pushed_layout.
  - cbn [d1 d2 sd_minimums]. rewrite fmap_app. f_equal. cbn. unfold at_. by rewrite lookup_app_r, Hlen, Nat.sub_diag by lia.
  - exists d'. split; [done |].
    destruct (restored_inv (kc ++ [(key, 1)]) ctr d2 d') as [Hinv He]; [| exact Hr |].
    { intros k q. unfold ctr. destruct (decide (k = key)) as [-> | Hne].
      - rewrite lookup_insert_eq. split; [intros [= <-]; exists 1; by rewrite lookup_app_r, Hlen, Nat.sub_diag by lia |].
        intros [n Hn]. f_equal. apply lookup_app_Some in Hn as [Hn | [Hge Hn]]; [| apply list_lookup_singleton_Some in Hn as [Hz _]; lia].
        assert (sd_counters d !! key = Some q) by (apply counters_cells; by exists n). congruence.
      - rewrite lookup_insert_ne, counters_cells by done. split; intros [n Hn]; exists n; [by apply lookup_app_l_Some |].
        apply lookup_app_Some in Hn as [Hn | [_ Hn]]; [done |]. apply list_lookup_singleton_Some in Hn as [_ Hn]. congruence. }
    split; [done |]. rewrite He. apply map_eq. intros k. unfold ctr. rewrite lookup_omap. destruct (decide (k = key)) as [-> | Hne].
    + rewrite !lookup_insert_eq. cbn. by rewrite lookup_app_r, Hlen, Nat.sub_diag by lia.
    + rewrite !lookup_insert_ne, estimates_by_cells by done. destruct (sd_counters d !! k) as [q |] eqn:Eq; [| done]. cbn.
      apply counters_cells in Eq as [n Hn]. by rewrite (lookup_app_l_Some _ _ _ _ Hn), Hn.
Qed.

(** The victim at the front of the heap is a least counted key. *)
Lemma victim_least p c : sd_minimums d !! 0%nat = Some p -> sd_mem d !! p = Some c ->
  sd_counters d !! sc_key c = Some p /\ estimates d !! sc_key c = Some (sc_count c) /\ sc_index c = 0%nat /\
  forall k x, estimates d !! k = Some x -> counterLess (k, x) (sc_key c, sc_count c) = false.
Proof using Hd.
  intros Hp Hc. destruct (lo_index _ _ _ (di_layout d Hd) 0%nat p Hp) as (c' & Hc' & Hi). rewrite Hc in Hc'. injection Hc' as <-.
  assert (Hctr : sd_counters d !! sc_key c = Some p) by (apply (di_counters d Hd); by exists c).
  split; [done |]. split; [apply estimates_lookup; exists p; by rewrite Hc |]. split; [done |]. intros k x (q & Hq)%(estimates_cell d k x Hd).
  assert (q ∈ sd_minimums d) as Hin.
  { rewrite (lo_heap _ _ _ (di_layout d Hd)). apply elem_of_seq. apply lookup_lt_Some in Hq. lia. }
  apply list_elem_of_lookup in Hin as [j Hj].
  apply (heap_root_least counterLess _ (di_order d Hd) j); rewrite list_lookup_fmap.
  - rewrite Hj. cbn. unfold at_. by rewrite Hq.
  - rewrite Hp. cbn. unfold at_. by rewrite list_lookup_fmap, Hc.
Qed.

Lemma observe_replace : sd_counters d !! key = None -> 1 <= capacity -> capacity <= Z.of_nat (size (sd_counters d)) ->
  (forall k n, estimates d !! k = Some n -> 0 <= n /\ n + 1 < 2 ^ 63) ->
  exists d' v n, observe_key capacity key d = Some d' /\ domain_inv d' /\ estimates d !! v = Some n /\
    (forall k x, estimates d !! k = Some x -> counterLess (k, x) (v, n) = false) /\
    estimates d' = <[key := n + 1]> (delete v (estimates d)).
Proof using Hd.
  intros Hk Hcap Hfull Hmax. unfold observe_key. rewrite Hk, (proj2 (Z.ltb_ge _ _)) by done.
  destruct (sd_minimums d !! 0%nat) as [p |] eqn:Ep.
  2: { exfalso. apply lookup_ge_None in Ep. rewrite heap_length in Ep. assert (size (sd_counters d) <> 0%nat) as Hne by lia.
       apply Hne, map_size_empty_iff, map_eq. intros k. rewrite lookup_empty. destruct (sd_counters d !! k) as [q |] eqn:Eq; [| done].
       apply counters_cells in Eq as [n Hn]. apply lookup_lt_Some in Hn. lia. }
  destruct (lo_index _ _ _ (di_layout d Hd) 0%nat p Ep) as (c & Hc & _). destruct (victim_least p c Ep Hc) as (Hctr & Hest & Hidx & Hleast).
  cbn [mbind option_bind]. rewrite Hc. cbn [mbind option_bind]. destruct (Hmax _ _ Hest).
  rewrite wrap64_id by (unfold int64_ok, int64_min, int64_max; lia). set (v := sc_key c) in *. set (n := sc_count c) in *.
  assert (Hvk : v <> key) by congruence. assert (Hcell : kc !! p = Some (v, n)) by (unfold kc; by rewrite list_lookup_fmap, Hc).
  pose proof (lookup_lt_Some _ _ _ Hcell) as Hlt.
  destruct (grown_restores p c (key, n + 1) (<[key := p]> (delete v (sd_counters d))) Hc ltac:(cbn; lia)) as (d' & HFix & Hinv & He).
  { intros k q. rewrite lookup_insert_Some, lookup_delete_Some, counters_cells. destruct (decide (q = p)) as [-> | Hq].
    - rewrite list_lookup_insert_eq, Hcell by done. split; [intros [[<- _] | (_ & Hv & n' & [= E _])]; [by eexists | done] | intros [n' [= <- _]]; by left].
    - rewrite list_lookup_insert_ne by done. split; [intros [[_ <-] | (_ & _ & n' & Hn')]; [done | by exists n'] |]. intros [n' Hn']. right.
      assert (sd_counters d !! k = Some q) by (apply counters_cells; by exists n'). split; [congruence |]. split; [congruence | by exists n']. }
  exists d', v, n. cbn [fst snd] in HFix. rewrite Hidx in HFix. rewrite Hidx. split; [done | split; [done | split; [done | split; [done |]]]].
  rewrite He. apply map_eq. intros k. rewrite lookup_omap. destruct (decide (k = key)) as [-> | Hne].
  - rewrite !lookup_insert_eq. cbn. by rewrite list_lookup_insert_eq.
  - rewrite !lookup_insert_ne by done. destruct (decide (k = v)) as [-> | Hkv]; [by rewrite !lookup_delete_eq |].
    rewrite !lookup_delete_ne, estimates_by_cells by done. destruct (sd_counters d !! k) as [q |] eqn:Eq; [| done]. cbn.
    rewrite list_lookup_insert_ne; [done |]. intros <-. apply counters_cells in Eq as [n' Hn']. congruence.
Qed.

(** One observation is one step of the count. *)
Lemma observe_key_refines : 1 <= capacity -> (forall k n, estimates d !! k = Some n -> 0 <= n /\ n + 1 < 2 ^ 63) ->
  exists d', observe_key capacity key d = Some d' /\ domain_inv d' /\ space_step capacity key (estimates d) (estimates d').
Proof using Hd.
  intros Hcap Hmax. destruct (sd_counters d !! key) as [p |] eqn:Ek.
  - destruct (observe_known p Ek) as (d' & n & Ho & Hi & Hn & He); [intros n Hn; by apply (Hmax key) .. |].
    exists d'. split; [done | split; [done |]]. rewrite He. by constructor.
  - assert (estimates d !! key = None) as Hnone by (by apply estimates_none). destruct (Z.ltb_spec (Z.of_nat (size (sd_counters d))) capacity) as [Hlt | Hge].
    + destruct (observe_free Ek Hlt) as (d' & Ho & Hi & He). exists d'. split; [done | split; [done |]]. rewrite He. constructor; [done |]. by rewrite estimates_size.
    + destruct (observe_replace Ek Hcap Hge Hmax) as (d' & v & n & Ho & Hi & Hv & Hl & He). exists d'. split; [done | split; [done |]].
      rewrite He. constructor; [done | by rewrite estimates_size | done | done].
Qed.
End Step.

(** ** Domains and hosts *)
Definition domain_counts (capacity : Z) (ks : list SegmentKey) (d : selectorDomain) : Prop := domain_inv d /\ space_inv capacity ks (estimates d).

Lemma empty_domain_counts capacity : 1 <= capacity -> domain_counts capacity [] empty_domain.
Proof.
  intros Hc. split; [| by apply space_inv_nil]. split.
  - split; done.
  - intros j Hj x p Hx. by destruct j.
  - intros k p. split; [done | by intros (? & ? & _)].
Qed.

Lemma estimates_bounded capacity ks d k n : domain_counts capacity ks d -> estimates d !! k = Some n -> 0 <= n <= Z.of_nat (length ks).
Proof.
  intros [_ Hi] Hn. pose proof (si_above _ _ _ Hi k n Hn). split; [lia |]. rewrite <- (si_mass _ _ _ Hi). apply (count_in_mass _ k); [| done].
  intros k' n' Hn'. pose proof (si_above _ _ _ Hi k' n' Hn'). lia.
Qed.

Lemma observe_keys_counts capacity keys : forall ks d, 1 <= capacity -> domain_counts capacity ks d ->
  Z.of_nat (length ks + length keys) < 2 ^ 63 - 1 ->
  exists d', observe_keys capacity keys d = Some d' /\ domain_counts capacity (ks ++ keys) d'.
Proof.
  induction keys as [| key keys IH]; intros ks d Hc Hd Hmax; cbn [observe_keys].
  { exists d. by rewrite app_nil_r. }
  cbn [length] in Hmax. pose proof Hd as [Hinv Hspace].
  destruct (observe_key_refines capacity key d Hinv Hc) as (d1 & -> & Hinv1 & Hstep).
  { intros k n Hn. pose proof (estimates_bounded _ _ _ _ _ Hd Hn). lia. }
  cbn [mbind option_bind]. destruct (IH (ks ++ [key]) d1 Hc) as (d' & -> & Hd').
  - split; [done |]. by eapply space_step_inv.
  - rewrite length_app. cbn. lia.
  - exists d'. by rewrite <- app_assoc in Hd'.
Qed.

Section Hosts.
Context `{Unicode}.

Definition of_host (host : gostring) (rec : LogRecord) : bool := bool_decide (NormalizeHost (l_Host rec) = host).
(** The keys the records of a host were counted under, in order. *)
Definition keys_seen (host : gostring) (recs : list LogRecord) : list SegmentKey := concat (map SegmentKeys (List.filter (of_host host) recs)).

Definition selector_inv (capacity : Z) (recs : list LogRecord) (s : SegmentSelector) : Prop :=
  ss_capacity s = capacity /\
  forall host, match ss_domains s !! host with
  | Some d => domain_counts capacity (keys_seen host recs) d
  | None => List.filter (of_host host) recs = []
  end.

Lemma keys_seen_length host recs : length (keys_seen host recs) = (3 * length (List.filter (of_host host) recs))%nat.
Proof. unfold keys_seen. induction (List.filter _ recs) as [| rec rest IH]; [done |]. cbn [map concat]. rewrite length_app, IH. cbn. lia. Qed.

Lemma keys_seen_le host recs : (length (keys_seen host recs) <= 3 * length recs)%nat.
Proof. rewrite keys_seen_length. pose proof (filter_length_le (of_host host) recs). lia. Qed.

Lemma filter_snoc host recs rec : List.filter (of_host host) (recs ++ [rec]) = List.filter (of_host host) recs ++ (if of_host host rec then [rec] else []).
Proof. rewrite List.filter_app. cbn. by destruct (of_host host rec). Qed.

Lemma keys_seen_snoc host recs rec : keys_seen host (recs ++ [rec]) = keys_seen host recs ++ (if of_host host rec then SegmentKeys rec else []).
Proof.
  unfold keys_seen. rewrite filter_snoc, map_app, concat_app. f_equal. destruct (of_host host rec); [| done]. cbn [map concat]. by rewrite app_nil_r.
Qed.

Lemma Observe_counts capacity recs rec s : 1 <= capacity -> selector_inv capacity recs s -> Z.of_nat (3 * length (recs ++ [rec])) < 2 ^ 63 - 1 ->
  exists s', Observe rec s = Some s' /\ selector_inv capacity (recs ++ [rec]) s'.
Proof.
  intros Hc [Hcap Hdom] Hmax. unfold Observe. rewrite Hcap. set (host := NormalizeHost (l_Host rec)).
  assert (Hd : domain_counts capacity (keys_seen host recs) (default empty_domain (ss_domains s !! host))).
  { pose proof (Hdom host) as Hh. destruct (ss_domains s !! host) as [d |]; [done |]. cbn. unfold keys_seen. rewrite Hh. by apply empty_domain_counts. }
  pose proof (keys_seen_le host (recs ++ [rec])) as Hle. rewrite keys_seen_snoc in Hle. unfold of_host in Hle. rewrite bool_decide_eq_true_2, length_app in Hle by done.
  destruct (observe_keys_counts capacity (SegmentKeys rec) _ _ Hc Hd ltac:(lia)) as (d' & -> & Hd'). cbn [mbind option_bind].
  eexists. split; [done |]. split; [done |]. intros h. cbn [ss_domains]. destruct (decide (h = host)) as [-> | Hne].
  - rewrite lookup_insert_eq, keys_seen_snoc. unfold of_host. by rewrite bool_decide_eq_true_2.
  - rewrite lookup_insert_ne by done. pose proof (Hdom h) as Hh. rewrite keys_seen_snoc, filter_snoc. unfold of_host at 1 3.
    rewrite bool_decide_eq_false_2 by (by intros E; apply Hne). by rewrite !app_nil_r.
Qed.

Lemma observe_all_counts capacity rest : forall recs s, 1 <= capacity -> selector_inv capacity recs s -> Z.of_nat (3 * length (recs ++ rest)) < 2 ^ 63 - 1 ->
  exists s', observe_all rest s = Some s' /\ selector_inv capacity (recs ++ rest) s'.
Proof.
  induction rest as [| rec rest IH]; intros recs s Hc Hs Hmax; cbn [observe_all].
  { exists s. by rewrite app_nil_r. }
  rewrite length_app in Hmax. cbn [length] in Hmax.
  destruct (Observe_counts capacity recs rec s Hc Hs) as (s1 & -> & Hs1); [rewrite length_app; cbn; lia |].
  cbn [mbind option_bind]. destruct (IH (recs ++ [rec]) s1 Hc Hs1) as (s' & -> & Hs'); [rewrite !length_app; cbn; lia |].
  exists s'. by rewrite <- app_assoc in Hs'.
Qed.

Lemma selector_counts maxSegments recs : 1 <= maxSegments <= 4096 -> Z.of_nat (3 * length recs) < 2 ^ 63 - 1 ->
  exists s, observe_all recs (NewSegmentSelector maxSegments) = Some s /\ selector_inv (4 * maxSegments) recs s.
Proof.
  intros Hm Hr. apply (observe_all_counts (4 * maxSegments) recs [] (NewSegmentSelector maxSegments)); [lia | | done].
  unfold NewSegmentSelector. rewrite wrap64_id by (unfold int64_ok, int64_min, int64_max; lia). split; [cbn; lia |]. intros host. cbn. by rewrite lookup_empty.
Qed.
End Hosts.

(** ** What is selected *)
#[export] Instance rank_le_total : Total rank_le.
Proof.
  intros a b. unfold rank_le. destruct (Z.eqb_spec a.2 b.2) as [E | E].
  - rewrite (proj2 (Z.eqb_eq _ _)) by done. destruct (segmentLess b.1 a.1) eqn:El; [right; by apply segmentLess_asym | by left].
  - rewrite (proj2 (Z.eqb_neq b.2 _)) by done. lia.
Qed.
#[export] Instance rank_le_trans : Transitive rank_le.
Proof.
  intros a b c. unfold rank_le. destruct (Z.eqb_spec a.2 b.2), (Z.eqb_spec b.2 c.2), (Z.eqb_spec a.2 c.2); try lia.
  intros Hab Hbc. by apply (segmentLess_trans _ b.1).
Qed.
#[export] Instance rank_le_antisymm : AntiSymm (=) rank_le.
Proof.
  intros [[ma ra] na] [[mb rb] nb]. unfold rank_le. cbn [fst snd]. destruct (Z.eqb_spec na nb) as [<- | E].
  - rewrite Z.eqb_refl, !segmentLess_false. cbn [k_Method k_Route].
    intros [[E1 E2] | [E1 E2]] [[E3 E4] | [E3 E4]]; try congruence; [pose proof (bytes_leb_antisym _ _ E2 E4) | pose proof (bytes_leb_antisym _ _ E2 E4)]; congruence.
  - rewrite (proj2 (Z.eqb_neq nb _)) by done. lia.
Qed.

Lemma rank_le_count a b : rank_le a b -> b.2 <= a.2.
Proof. unfold rank_le. destruct (Z.eqb_spec a.2 b.2); lia. Qed.

(** The order of a map's iteration is no input to the ranking. *)
Lemma top_segments_order_free n entries entries' : entries ≡ₚ entries' -> top_segments n entries = top_segments n entries'.
Proof.
  intros Hp. unfold top_segments. do 2 f_equal. apply (StronglySorted_unique rank_le); [apply (StronglySorted_merge_sort rank_le) .. |].
  by rewrite !merge_sort_Permutation.
Qed.

Lemma mapM_total {A B} (f : A -> option B) l : (forall x, x ∈ l -> is_Some (f x)) -> is_Some (mapM f l).
Proof. intros Hl. apply mapM_is_Some_2. apply Forall_forall. apply Hl. Qed.

Lemma selector_entries_estimates d : domain_inv d -> exists entries, selector_entries d = Some entries /\ entries ≡ₚ map_to_list (estimates d).
Proof.
  intros Hd. destruct (mapM_total (fun kp => c ← sd_mem d !! kp.2; Some (kp.1, sc_count c)) (map_to_list (sd_counters d))) as [entries He].
  { intros [k p] Hin%elem_of_map_to_list. apply (di_counters d Hd) in Hin as (c & Hc & _). cbn. rewrite Hc. by eexists. }
  exists entries. split; [done |]. apply mapM_Some in He.
  assert (Hkeys : entries.*1 = (map_to_list (sd_counters d)).*1).
  { clear Hd. induction He as [| [k p] e l es Hf He IH]; [done |]. cbn in *. destruct (sd_mem d !! p); [| done]. injection Hf as <-. cbn. by f_equal. }
  apply NoDup_Permutation.
  - apply (NoDup_fmap_1 fst). rewrite Hkeys. apply NoDup_fst_map_to_list.
  - apply NoDup_map_to_list.
  - intros [k n]. rewrite elem_of_map_to_list, estimates_lookup. split.
    + intros Hin. apply list_elem_of_lookup in Hin as [i Hi]. destruct (Forall2_lookup_r _ _ _ _ _ He Hi) as ([k' p] & Hp & Hf).
      cbn in Hf. destruct (sd_mem d !! p) as [c |] eqn:Ec; [| done]. injection Hf as <- <-. exists p. rewrite Ec. split; [| done].
      apply elem_of_map_to_list. by eapply list_elem_of_lookup_2.
    + intros (p & Hp%elem_of_map_to_list & Hn). apply list_elem_of_lookup in Hp as [i Hi]. destruct (Forall2_lookup_l _ _ _ _ _ He Hi) as (e & Hei & Hf).
      cbn in Hf. destruct (sd_mem d !! p) as [c |]; [| done]. cbn in Hn, Hf. injection Hn as <-. injection Hf as <-. by eapply list_elem_of_lookup_2.
Qed.

(** A key that outweighs all but [m] of the counted mass ranks among the
    first [m]. *)
Lemma top_segments_heavy m counts k n : (forall k x, counts !! k = Some x -> 0 <= x) -> counts !! k = Some n -> mass counts < (Z.of_nat m + 1) * n ->
  k ∈ top_segments m (map_to_list counts).
Proof.
  intros Hpos Hk Hmass. unfold top_segments. set (l := merge_sort rank_le (map_to_list counts)).
  assert (Hp : l ≡ₚ map_to_list counts) by apply (merge_sort_Permutation rank_le).
  assert (Hin : (k, n) ∈ take m l ++ drop m l) by (rewrite take_drop, Hp; by apply elem_of_map_to_list).
  apply elem_of_app in Hin as [Hin | Hin]; [apply (list_elem_of_fmap_2 fst) in Hin; done |]. exfalso.
  pose proof (StronglySorted_merge_sort rank_le (map_to_list counts)) as Hs. fold l in Hs. rewrite <- (take_drop m l) in Hs.
  apply StronglySorted_app in Hs as (Hcross & _ & _).
  assert (Hlen : length (take m l) = m).
  { rewrite length_take. apply list_elem_of_lookup in Hin as [i Hi]. apply lookup_lt_Some in Hi. rewrite length_drop in Hi. lia. }
  assert (Htop : forall e, e ∈ take m l -> n <= e.2) by (intros e He; apply (rank_le_count e (k, n)); by apply Hcross).
  assert (Hnn : forall e, e ∈ drop m l -> 0 <= e.2).
  { intros [k' x] He. apply (Hpos k'). apply elem_of_map_to_list. rewrite <- Hp, <- (take_drop m l). apply elem_of_app. by right. }
  rewrite mass_list, <- (sum_counts_perm _ _ Hp), <- (take_drop m l), sum_counts_app in Hmass.
  pose proof (sum_counts_lower (take m l) n Htop) as Hlow. rewrite Hlen in Hlow.
  apply list_elem_of_split in Hin as (l1 & l2 & Hsplit). rewrite Hsplit in Hmass, Hnn. rewrite sum_counts_app in Hmass. cbn [sum_counts snd] in Hmass.
  pose proof (sum_counts_lower l1 0 ltac:(intros; apply Hnn; set_solver)). pose proof (sum_counts_lower l2 0 ltac:(intros; apply Hnn; set_solver)). lia.
Qed.

Lemma top_segments_nodup m counts : NoDup (top_segments m (map_to_list counts)).
Proof.
  unfold top_segments. set (l := merge_sort rank_le (map_to_list counts)).
  assert (Hnd : NoDup (l.*1)) by (unfold l; rewrite (merge_sort_Permutation rank_le); apply NoDup_fst_map_to_list).
  rewrite <- (take_drop m l), fmap_app in Hnd. by apply NoDup_app in Hnd as [? _].
Qed.

Lemma top_segments_length m counts : (length (top_segments m (map_to_list counts)) <= m)%nat.
Proof. unfold top_segments. rewrite length_map, length_take. lia. Qed.

Lemma domain_selected_estimates capacity ks d m : domain_counts capacity ks d -> domain_selected m d = Some (top_segments m (map_to_list (estimates d))).
Proof.
  intros [Hd _]. unfold domain_selected. destruct (selector_entries_estimates d Hd) as (entries & -> & Hp). cbn. f_equal. by apply top_segments_order_free.
Qed.

(** [Selected] answers for every host, whatever order the map yields. *)
Lemma Selected_hosts `{Unicode} capacity recs s m : selector_inv capacity recs s ->
  exists selected, Selected s m = Some selected /\
    forall host, selected !! host = (fun d => top_segments m (map_to_list (estimates d))) <$> ss_domains s !! host.
Proof.
  intros [_ Hdom]. unfold Selected. set (f := fun hd : gostring * selectorDomain => keys ← domain_selected m hd.2; Some (hd.1, keys)).
  assert (Hf : forall hd, hd ∈ map_to_list (ss_domains s) -> f hd = Some (hd.1, top_segments m (map_to_list (estimates hd.2)))).
  { intros [h d] Hin%elem_of_map_to_list. pose proof (Hdom h) as Hh. rewrite Hin in Hh. unfold f. cbn. by rewrite (domain_selected_estimates _ _ _ _ Hh). }
  assert (Hm : mapM f (map_to_list (ss_domains s)) = Some ((fun hd => (hd.1, top_segments m (map_to_list (estimates hd.2)))) <$> map_to_list (ss_domains s))).
  { apply mapM_Some. apply Forall2_fmap_r. apply Forall_Forall2_diag. by apply Forall_forall. }
  rewrite Hm. cbn [mbind option_bind]. eexists. split; [done |]. intros host.
  destruct (ss_domains s !! host) as [d |] eqn:Ed; cbn.
  - apply elem_of_list_to_map_1.
    + rewrite <- list_fmap_compose. apply NoDup_fst_map_to_list.
    + apply list_elem_of_fmap. exists (host, d). split; [done |]. by apply elem_of_map_to_list.
  - apply not_elem_of_list_to_map_1. rewrite <- list_fmap_compose. intros ([h d] & -> & Hin%elem_of_map_to_list)%list_elem_of_fmap. cbn in *. congruence.
Qed.

(** * Properties *)

(** the first training pass, over any records, ends without an index or
    pointer error and keeps per host at most four counters per wanted segment;
    every count is at least how often its key was seen and exceeds that by at
    most the host's observations divided by the number of counters. *)
Theorem selector_error_bounded `{Unicode} maxSegments recs (Hm : 1 <= maxSegments <= 4096) (Hr : Z.of_nat (3 * length recs) < 2 ^ 63 - 1) :
  exists s, observe_all recs (NewSegmentSelector maxSegments) = Some s /\
  forall host d, ss_domains s !! host = Some d ->
    Z.of_nat (size (sd_counters d)) <= 4 * maxSegments /\
    forall key n, estimates d !! key = Some n ->
      occurrences key (keys_seen host recs) <= n /\
      4 * maxSegments * (n - occurrences key (keys_seen host recs)) <= Z.of_nat (length (keys_seen host recs)).
Proof.
  destruct (selector_counts maxSegments recs Hm Hr) as (s & Hs & _ & Hdom). exists s. split; [done |]. intros host d Hd.
  pose proof (Hdom host) as Hh. rewrite Hd in Hh. destruct Hh as [Hinv Hspace]. split; [rewrite <- estimates_size by done; apply (si_size _ _ _ Hspace) |].
  intros key n Hn. pose proof (si_above _ _ _ Hspace key n Hn). split; [lia |].
  destruct (si_below _ _ _ Hspace key n Hn) as [Hle | [Hfull Hall]]; [nia |].
  pose proof (mass_at_least _ _ Hall) as Ht. rewrite (si_mass _ _ _ Hspace) in Ht. nia.
Qed.

(** a segment that makes up more than one part in [maxSegments + 1] of a
    host's observations is among the at most [maxSegments] segments the second
    pass trains for that host, whatever the order of the records. *)
Theorem heavy_segments_are_selected `{Unicode} maxSegments recs (Hm : 1 <= maxSegments <= 4096) (Hr : Z.of_nat (3 * length recs) < 2 ^ 63 - 1) :
  exists s selected, observe_all recs (NewSegmentSelector maxSegments) = Some s /\ Selected s (Z.to_nat maxSegments) = Some selected /\
  (forall host keys, selected !! host = Some keys -> NoDup keys /\ Z.of_nat (length keys) <= maxSegments) /\
  forall host key, Z.of_nat (length (keys_seen host recs)) < (maxSegments + 1) * occurrences key (keys_seen host recs) ->
    exists keys, selected !! host = Some keys /\ key ∈ keys.
Proof.
  destruct (selector_counts maxSegments recs Hm Hr) as (s & Hs & Hinv). pose proof Hinv as [_ Hdom].
  destruct (Selected_hosts _ _ _ (Z.to_nat maxSegments) Hinv) as (selected & Hsel & Hlook). exists s, selected. split; [done | split; [done | split]].
  - intros host keys. rewrite Hlook. destruct (ss_domains s !! host) as [d |]; [| done]. intros [= <-]. split; [apply top_segments_nodup |].
    pose proof (top_segments_length (Z.to_nat maxSegments) (estimates d)). lia.
  - intros host key Hheavy. rewrite Hlook. pose proof (Hdom host) as Hh. destruct (ss_domains s !! host) as [d |].
    + eexists. split; [done |]. destruct Hh as [_ Hspace]. pose proof (occurrences_nonneg key (keys_seen host recs)) as Hnn.
      pose proof (Z.mul_le_mono_nonneg_r (maxSegments + 1) (4 * maxSegments) _ Hnn ltac:(lia)) as Hshare.
      destruct (space_heavy_counted (4 * maxSegments) (keys_seen host recs) (estimates d) key ltac:(lia) Hspace) as (n & Hn & Hocc); [lia |].
      pose proof (Z.mul_le_mono_nonneg_l _ _ (maxSegments + 1) ltac:(lia) Hocc) as Hn'.
      apply (top_segments_heavy _ _ _ n); [| done | rewrite (si_mass _ _ _ Hspace), Z2Nat.id by lia; lia].
      intros k x Hx. pose proof (si_above _ _ _ Hspace k x Hx). lia.
    + exfalso. unfold keys_seen in Hheavy. rewrite Hh in Hheavy. cbn in Hheavy. unfold occurrences in Hheavy. cbn in Hheavy. lia.
Qed.

(** ** Concrete runs *)
Module Ex.
#[export] Existing Instance ascii_only.

Definition rec (host uri : string) : LogRecord := mk_record (lit host) (lit "get") (lit uri) 200 [] (lit "allow").
(** Three routes compete for four counters on one host. *)
Definition log : list LogRecord :=
  [rec "Example.com" "/a/1"; rec "example.com:80" "/b"; rec "example.com" "/a/2?x"; rec "example.com." "/c"; rec "other" "/z"; rec "example.com" "/A"; rec "example.com" "/d"].

Definition selected_of (maxSegments : Z) : option (gmap gostring (list SegmentKey)) :=
  s ← observe_all log (NewSegmentSelector maxSegments); Selected s (Z.to_nat maxSegments).

(** Every record counts towards the method; with one segment it is taken. *)
Example selected_one : selected_of 1 = Some {[lit "example.com" := [mk_key (lit "GET") []]; lit "other" := [mk_key [] (lit "/z")]]}.
Proof. vm_compute. reflexivity. Qed.

Lemma selector_error_bounded_witness :
  exists s, observe_all log (NewSegmentSelector 1) = Some s /\ exists d, ss_domains s !! lit "example.com" = Some d /\ Z.of_nat (size (sd_counters d)) <= 4.
Proof.
  destruct (selector_error_bounded 1 log ltac:(lia) ltac:(vm_compute; reflexivity)) as (s & Hs & Hall). exists s. split; [exact Hs |].
  assert (is_Some (ss_domains s !! lit "example.com")) as [d Hd].
  { revert Hs. vm_compute (observe_all log _). intros [= <-]. vm_compute. by eexists. }
  exists d. split; [exact Hd | apply (Hall (lit "example.com") d Hd)].
Defined.

Lemma heavy_segments_are_selected_witness :
  exists s selected, observe_all log (NewSegmentSelector 3) = Some s /\ Selected s 3 = Some selected /\
    exists keys, selected !! lit "example.com" = Some keys /\ mk_key (lit "GET") [] ∈ keys.
Proof.
  destruct (heavy_segments_are_selected 3 log ltac:(lia) ltac:(vm_compute; reflexivity)) as (s & selected & Hs & Hsel & _ & Hheavy).
  exists s, selected. split; [exact Hs | split; [exact Hsel |]]. apply Hheavy. vm_compute. reflexivity.
Defined.
End Ex.
