(* ===== verification/Train.v ===== *)
(** * Training a model (core/anomaly/train.go, cmd/guardian-train/main.go)

    The second pass over the records: running statistics and counts per host
    and per selected segment, the baselines finished from them, the checks of
    the training command around both passes, and the write of the artifact as
    a program of system calls. *)

From S2P Require Export Segments.
From S2P Require Export Files.

Open Scope Z_scope.

(** ** Running statistics *)
Record welford := mk_welford { w_n : Z; w_mean : float; w_m2 : float }.
Definition new_welford : welford := mk_welford 0 (f64 0) (f64 0).

Definition welford_add (x : float) (w : welford) : welford :=
  let n := wrap64 (w_n w + 1) in
  let d := fsub x (w_mean w) in
  let mean := fadd (w_mean w) (fdiv d (f64 n)) in
  mk_welford n mean (fadd (w_m2 w) (fmul d (fsub x mean))).

(** [math.Sqrt] is correctly rounded. *)
Definition Sqrt (x : float) : float := SFsqrt 53 1024 x.

Definition welford_stat (w : welford) : Stat :=
  if w_n w <? 2 then mk_stat (w_mean w) (f64 0) else mk_stat (w_mean w) (Sqrt (fdiv (w_m2 w) (f64 (wrap64 (w_n w - 1))))).

(** ** Aggregates *)
Record aggregate := mk_aggregate {
  a_n : Z; a_pathDepth : welford; a_pathLen : welford; a_pathEntropy : welford; a_queryParams : welford;
  a_uaCounts : gmap gostring Z; a_prefixCount : gmap gostring Z
}.
Definition newAggregate : aggregate := mk_aggregate 0 new_welford new_welford new_welford new_welford ∅ ∅.

Definition bump (k : gostring) (m : gmap gostring Z) : gmap gostring Z := <[k := wrap64 (default 0 (m !! k) + 1)]> m.

Record domainAggregate := mk_da { da_global : aggregate; da_segments : gmap SegmentKey aggregate }.

(** Reading a nil map finds nothing: nil maps are empty ones. *)
Record Trainer := mk_trainer { t_domains : gmap gostring domainAggregate; t_selected : gmap gostring (gset SegmentKey); t_minSegmentRequests : Z }.

Definition NewTrainer (selected : gmap gostring (list SegmentKey)) (minSegmentRequests : Z) : Trainer :=
  mk_trainer ∅ (list_to_set <$> selected) minSegmentRequests.

(** By count, the highest first, then by string. *)
Definition freq_le (a b : gostring * Z) : Prop := if a.2 =? b.2 then bytes_le a.1 b.1 else b.2 < a.2.
#[global] Instance freq_le_dec a b : Decision (freq_le a b).
Proof. unfold freq_le. destruct (_ =? _); apply _. Defined.

Definition toFreq (counts : gmap gostring Z) (total : Z) : gmap gostring float :=
  list_to_map (map (fun kv => (kv.1, fdiv (f64 kv.2) (f64 total))) (take maxFreqEntries (merge_sort freq_le (map_to_list counts)))).

Section Trainer.
Context `{Unicode, Logarithm}.

Definition addAggregate (path query ua : gostring) (a : aggregate) : aggregate :=
  mk_aggregate (wrap64 (a_n a + 1))
    (welford_add (f64 (pathDepth path)) (a_pathDepth a))
    (welford_add (f64 (Z.of_nat (length path))) (a_pathLen a))
    (welford_add (entropy path) (a_pathEntropy a))
    (welford_add (f64 (queryParams query)) (a_queryParams a))
    (bump (uaPrefix ua) (a_uaCounts a))
    (bump (pathPrefix path) (a_prefixCount a)).

Definition record_path (rec : LogRecord) : gostring := DecodePath (RequestPath (l_URI rec)).
Definition record_query (rec : LogRecord) : gostring := DecodeQuery (RequestQuery (l_URI rec)).

Definition add_segment (selected : gset SegmentKey) (rec : LogRecord) (segments : gmap SegmentKey aggregate) (key : SegmentKey) : gmap SegmentKey aggregate :=
  if bool_decide (key ∈ selected)
  then <[key := addAggregate (record_path rec) (record_query rec) (l_UserAgent rec) (default newAggregate (segments !! key))]> segments
  else segments.

Definition Add (rec : LogRecord) (t : Trainer) : Trainer :=
  match Eligible rec with
  | FilterIncluded =>
    let host := NormalizeHost (l_Host rec) in
    let d := default (mk_da newAggregate ∅) (t_domains t !! host) in
    let selected := default ∅ (t_selected t !! host) in
    let d := mk_da (addAggregate (record_path rec) (record_query rec) (l_UserAgent rec) (da_global d))
                   (fold_left (add_segment selected rec) (SegmentKeys rec) (da_segments d)) in
    mk_trainer (<[host := d]> (t_domains t)) (t_selected t) (t_minSegmentRequests t)
  | _ => t
  end.

Definition finishAggregate (a : aggregate) : Baseline :=
  mk_baseline (a_n a) (welford_stat (a_pathDepth a)) (welford_stat (a_pathLen a)) (welford_stat (a_pathEntropy a)) (welford_stat (a_queryParams a))
    (toFreq (a_uaCounts a) (a_n a)) (toFreq (a_prefixCount a) (a_n a)).

Definition finish_segments (min : Z) (segments : gmap SegmentKey aggregate) : list Segment :=
  merge_sort segment_le
    (map (fun ka => mk_segment (k_Method ka.1) (k_Route ka.1) (Some (finishAggregate ka.2)))
       (List.filter (fun ka => negb (a_n ka.2 <? min)) (map_to_list segments))).

Definition finish_domain (min minRequests : Z) (d : domainAggregate) : option (option DomainModel) :=
  if a_n (da_global d) <? minRequests then None
  else Some (Some (buildIndex (mk_domain (Some (finishAggregate (da_global d))) (finish_segments min (da_segments d)) None))).

Definition Finish (minRequests now : Z) (t : Trainer) : Model :=
  mk_model ModelVersion FeatureSchema (Some now) (omap (finish_domain (t_minSegmentRequests t) minRequests) (t_domains t)).
End Trainer.

(** ** The training command *)
Record inputStats := mk_stats { is_Lines : Z; is_Included : Z; is_FilteredStatus : Z; is_FilteredAction : Z; is_MalformedJSON : Z; is_InvalidSchema : Z }.
Definition no_stats : inputStats := mk_stats 0 0 0 0 0 0.
Definition stats_invalid (s : inputStats) : Z := wrap64 (is_MalformedJSON s + is_InvalidSchema s).
Definition inc (n : Z) : Z := wrap64 (n + 1).

Inductive train_error :=
| BadOptions | Unreadable | TooManyInvalid (n : Z) | TooManyInvalidLater (n : Z) | NoBaselineFor (host : gostring) | NothingTrained | SelectorPanic | NotSaved (e : model_error).

(** [jsontext.Value(line).IsValid()]. *)
Class ValidJSON := { IsValid : gostring -> bool }.

Section Command.
Context `{Unicode, Logarithm, LogCodec, ValidJSON}.

Definition parseRecord (line : gostring) (s : inputStats) : option LogRecord * inputStats :=
  match ParseLogRecord line with
  | Ok rec => (Some rec, mk_stats (inc (is_Lines s)) (is_Included s) (is_FilteredStatus s) (is_FilteredAction s) (is_MalformedJSON s) (is_InvalidSchema s))
  | Err _ =>
    if IsValid line
    then (None, mk_stats (inc (is_Lines s)) (is_Included s) (is_FilteredStatus s) (is_FilteredAction s) (is_MalformedJSON s) (inc (is_InvalidSchema s)))
    else (None, mk_stats (inc (is_Lines s)) (is_Included s) (is_FilteredStatus s) (is_FilteredAction s) (inc (is_MalformedJSON s)) (is_InvalidSchema s))
  end.

Definition count_filter (r : FilterReason) (s : inputStats) : inputStats :=
  match r with
  | FilterStatus => mk_stats (is_Lines s) (is_Included s) (inc (is_FilteredStatus s)) (is_FilteredAction s) (is_MalformedJSON s) (is_InvalidSchema s)
  | FilterAction => mk_stats (is_Lines s) (is_Included s) (is_FilteredStatus s) (inc (is_FilteredAction s)) (is_MalformedJSON s) (is_InvalidSchema s)
  | FilterIncluded => mk_stats (is_Lines s) (inc (is_Included s)) (is_FilteredStatus s) (is_FilteredAction s) (is_MalformedJSON s) (is_InvalidSchema s)
  end.

(** [scanEligibleInputs] over the lines of all inputs: the records passed to
    [observe], in order. *)
Fixpoint scanEligible (lines : list gostring) (s : inputStats) : list LogRecord * inputStats :=
  match lines with
  | [] => ([], s)
  | line :: rest =>
    match parseRecord line s with
    | (None, s) => scanEligible rest s
    | (Some rec, s) =>
      let s := count_filter (Eligible rec) s in
      let '(recs, s) := scanEligible rest s in
      match Eligible rec with FilterIncluded => (rec :: recs, s) | _ => (recs, s) end
    end
  end.

Record train_options := mk_options { o_minRequests : Z; o_minSegmentRequests : Z; o_maxSegments : Z; o_maxInvalid : Z; o_required : list gostring }.

Definition bad_options (o : train_options) : bool :=
  (o_minRequests o <=? 0) || (o_minSegmentRequests o <=? 0) || (o_maxSegments o <=? 0) || (4096 <? o_maxSegments o) || (o_maxInvalid o <? 0).

(** [runTrain] up to the write: the two passes may read different lines, a
    pass whose reading fails is [None], and the model is the one that is
    written. *)
Definition runTrain (o : train_options) (pass1 pass2 : option (list gostring)) (now : Z) : outcome train_error Model :=
  if bad_options o then Err BadOptions else
  match pass1 with
  | None => Err Unreadable
  | Some lines1 =>
    let '(recs1, stats1) := scanEligible lines1 no_stats in
    match observe_all recs1 (NewSegmentSelector (o_maxSegments o)) with
    | None => Err SelectorPanic
    | Some selector =>
      if o_maxInvalid o <? stats_invalid stats1 then Err (TooManyInvalid (stats_invalid stats1)) else
      match Selected selector (Z.to_nat (o_maxSegments o)) with
      | None => Err SelectorPanic
      | Some selected =>
        match pass2 with
        | None => Err Unreadable
        | Some lines2 =>
          let '(recs2, stats2) := scanEligible lines2 no_stats in
          let trainer := fold_left (fun t rec => Add rec t) recs2 (NewTrainer selected (o_minSegmentRequests o)) in
          if o_maxInvalid o <? stats_invalid stats2 then Err (TooManyInvalidLater (stats_invalid stats2)) else
          let model := Finish (o_minRequests o) now trainer in
          match List.find (fun host => negb (HasDomain model host)) (o_required o) with
          | Some host => Err (NoBaselineFor host)
          | None =>
            if (size (mo_Domains model) =? 0)%nat then Err NothingTrained else
            match Model_validate model with
            | Err e => Err (NotSaved e)
            | Ok saved => Ok saved
            end
          end
        end
      end
    end
  end.
End Command.

(** ** [Model.Save] *)
Inductive save_error := InvalidModel (e : model_error) | NotMarshalled | SaveIO.

Definition Save `{Unicode, ModelJSON} (m : Model) (p : path) : fprog (outcome save_error unit) :=
  match Model_validate m with
  | Err e => Return (Err (InvalidModel e))
  | Ok m =>
    match MarshalModel m with
    | None => Return (Err NotMarshalled)
    | Some raw =>
      Do (CreateTemp (p_dir p) (lit "." ++ p_base p ++ lit ".tmp-")) (fun created =>
      match created with
      | Err _ => Return (Err SaveIO)
      | Ok tmp =>
        let remove r := sys! Remove tmp in Return r in
        let close_remove := sys! Close tmp in remove (Err SaveIO) in
        check! Chmod tmp else close_remove in
        check! Write tmp raw else close_remove in
        check! Sync tmp else close_remove in
        check! Close tmp else remove (Err SaveIO) in
        Do (Rename tmp p) (fun r => remove (match r with Ok _ => Ok tt | Err _ => Err SaveIO end))
      end)
    end
  end.

(** ** What the second pass aggregates *)
Section Pass.
Context `{Unicode, Logarithm}.

Definition is_included (rec : LogRecord) : bool := match Eligible rec with FilterIncluded => true | _ => false end.
Definition host_records (host : gostring) (recs : list LogRecord) : list LogRecord := List.filter (of_host host) (List.filter is_included recs).
Definition with_key (key : SegmentKey) (recs : list LogRecord) : list LogRecord := List.filter (fun rec => bool_decide (key ∈ SegmentKeys rec)) recs.

Definition add_record (a : aggregate) (rec : LogRecord) : aggregate := addAggregate (record_path rec) (record_query rec) (l_UserAgent rec) a.
Definition aggregate_of (recs : list LogRecord) : aggregate := fold_left add_record recs newAggregate.

Lemma aggregate_of_snoc recs rec : aggregate_of (recs ++ [rec]) = add_record (aggregate_of recs) rec.
Proof. unfold aggregate_of. by rewrite fold_left_app. Qed.

Lemma SegmentKeys_nodup rec : NoDup (SegmentKeys rec).
Proof.
  unfold SegmentKeys. cbv zeta. set (method := if bool_decide _ then _ else _). set (route := routeKey _).
  assert (Hm : method <> []) by (unfold method; by case_bool_decide). assert (Hr : route <> []) by apply routeKey_nonempty.
  repeat constructor; rewrite ?elem_of_cons, ?elem_of_nil; intros Hin; repeat destruct Hin as [Hin | Hin]; congruence.
Qed.

Lemma add_segments_lookup selected rec keys : forall segments key, NoDup keys ->
  fold_left (add_segment selected rec) keys segments !! key =
  if decide (key ∈ keys /\ key ∈ selected) then Some (add_record (default newAggregate (segments !! key)) rec) else segments !! key.
Proof.
  induction keys as [| k keys IH]; intros segments key Hnd; cbn [fold_left].
  { rewrite decide_False; [done |]. by intros [[]%elem_of_nil _]. }
  apply NoDup_cons in Hnd as [Hk Hnd]. rewrite IH by done. unfold add_segment. destruct (decide (key = k)) as [-> | Hne].
  - rewrite (decide_False (P := k ∈ keys /\ _)) by tauto. case_bool_decide as Hs.
    + rewrite lookup_insert_eq, decide_True; [done |]. split; [by left | done].
    + by rewrite decide_False by tauto.
  - assert (Hlook : (if bool_decide (k ∈ selected) then <[k := addAggregate (record_path rec) (record_query rec) (l_UserAgent rec) (default newAggregate (segments !! k))]> segments else segments) !! key
      = segments !! key) by (case_bool_decide; [by rewrite lookup_insert_ne | done]).
    rewrite Hlook. destruct (decide (key ∈ keys /\ key ∈ selected)) as [Hd | Hd]; [rewrite decide_True; [done |] | rewrite decide_False; [done |]]; set_solver.
Qed.

Lemma host_records_snoc host recs rec : host_records host (recs ++ [rec]) =
  host_records host recs ++ (if is_included rec && of_host host rec then [rec] else []).
Proof.
  unfold host_records. rewrite !List.filter_app. cbn. destruct (is_included rec); cbn; [| by rewrite app_nil_r].
  by destruct (of_host host rec).
Qed.

Lemma with_key_snoc key recs rec : with_key key (recs ++ [rec]) = with_key key recs ++ (if bool_decide (key ∈ SegmentKeys rec) then [rec] else []).
Proof. unfold with_key. rewrite List.filter_app. cbn. by case_bool_decide. Qed.

(** The trainer after [recs]. *)
Definition segment_of (selected : gset SegmentKey) (key : SegmentKey) (recs : list LogRecord) : option aggregate :=
  match with_key key recs with
  | [] => None
  | recs => if bool_decide (key ∈ selected) then Some (aggregate_of recs) else None
  end.

Record trainer_inv (selected : gmap gostring (gset SegmentKey)) (min : Z) (recs : list LogRecord) (t : Trainer) : Prop := {
  ti_selected : t_selected t = selected;
  ti_min : t_minSegmentRequests t = min;
  ti_none host : t_domains t !! host = None <-> host_records host recs = [];
  ti_some host d : t_domains t !! host = Some d ->
    da_global d = aggregate_of (host_records host recs) /\
    forall key, da_segments d !! key = segment_of (default ∅ (selected !! host)) key (host_records host recs)
}.

Lemma segment_of_snoc selected key recs rec :
  segment_of selected key (recs ++ [rec]) =
  if decide (key ∈ SegmentKeys rec /\ key ∈ selected) then Some (add_record (default newAggregate (segment_of selected key recs)) rec) else segment_of selected key recs.
Proof.
  unfold segment_of. rewrite with_key_snoc. case_bool_decide as Hk; [| rewrite app_nil_r, decide_False by tauto; done].
  case_bool_decide as Hs.
  - rewrite decide_True by done. destruct (with_key key recs) as [| r rs] eqn:Ew; [done |]. rewrite <- app_comm_cons. cbn [default].
    by rewrite app_comm_cons, aggregate_of_snoc.
  - rewrite decide_False by tauto. by destruct (with_key key recs).
Qed.

Lemma Add_inv selected min recs rec t : trainer_inv selected min recs t -> trainer_inv selected min (recs ++ [rec]) (Add rec t).
Proof.
  intros Ht. unfold Add. destruct (is_included rec) eqn:Ei; unfold is_included in Ei.
  2: { destruct (Eligible rec) eqn:Ee; [done | |]; (split; [apply (ti_selected _ _ _ _ Ht) | apply (ti_min _ _ _ _ Ht) | |]);
       intros host; rewrite host_records_snoc; unfold is_included; rewrite Ee; cbn; rewrite app_nil_r; apply Ht. }
  destruct (Eligible rec) eqn:Ee; [| done | done]. clear Ei. set (host := NormalizeHost (l_Host rec)).
  assert (Hsnoc : forall h, host_records h (recs ++ [rec]) = host_records h recs ++ (if decide (h = host) then [rec] else [])).
  { intros h. rewrite host_records_snoc. unfold is_included. rewrite Ee. cbn. unfold of_host. case_bool_decide as Hh; case_decide; try done; congruence. }
  split; cbn [t_selected t_minSegmentRequests t_domains].
  - apply (ti_selected _ _ _ _ Ht).
  - apply (ti_min _ _ _ _ Ht).
  - intros h. rewrite Hsnoc. destruct (decide (h = host)) as [-> | Hne].
    + rewrite lookup_insert_eq. split; [done |]. intros E. by apply app_nil in E as [_ ?].
    + rewrite lookup_insert_ne, app_nil_r by done. apply Ht.
  - intros h d. rewrite Hsnoc. destruct (decide (h = host)) as [-> | Hne].
    2: { rewrite lookup_insert_ne, app_nil_r by done. apply Ht. }
    rewrite lookup_insert_eq. intros <-%(inj Some). cbn [da_global da_segments]. rewrite (ti_selected _ _ _ _ Ht).
    assert (Hd : let d := default (mk_da newAggregate ∅) (t_domains t !! host) in da_global d = aggregate_of (host_records host recs) /\
      forall key, da_segments d !! key = segment_of (default ∅ (selected !! host)) key (host_records host recs)).
    { destruct (t_domains t !! host) as [d |] eqn:Ed; cbn; [by apply (ti_some _ _ _ _ Ht) |]. apply (ti_none _ _ _ _ Ht) in Ed. rewrite Ed. split; [done |].
      intros key. by rewrite lookup_empty. }
    destruct Hd as [-> Hsegs]. split; [by rewrite aggregate_of_snoc |]. intros key. rewrite add_segments_lookup by apply SegmentKeys_nodup.
    by rewrite Hsegs, segment_of_snoc.
Qed.

Lemma NewTrainer_inv selected min : trainer_inv (list_to_set <$> selected) min [] (NewTrainer selected min).
Proof. split; [done | done | |]; intros host; cbn; rewrite lookup_empty; done. Qed.

Lemma train_inv selected min recs : trainer_inv (list_to_set <$> selected) min recs (fold_left (fun t rec => Add rec t) recs (NewTrainer selected min)).
Proof.
  enough (forall done t, trainer_inv (list_to_set <$> selected) min done t -> trainer_inv (list_to_set <$> selected) min (done ++ recs) (fold_left (fun t rec => Add rec t) recs t)) as Hall
    by apply (Hall [] _ (NewTrainer_inv selected min)).
  induction recs as [| rec recs IH]; intros seen t Ht; cbn [fold_left]; [by rewrite app_nil_r |].
  rewrite (app_assoc seen [rec] recs : seen ++ rec :: recs = _). by apply IH, Add_inv.
Qed.
End Pass.

(** ** Finished baselines *)
Section Finished.
Context `{Unicode, Logarithm}.

Lemma aggregate_count recs : Z.of_nat (length recs) < 2 ^ 63 -> a_n (aggregate_of recs) = Z.of_nat (length recs).
Proof.
  induction recs as [| rec recs IH] using rev_ind; [done |]. rewrite length_app, aggregate_of_snoc. cbn [length add_record addAggregate a_n].
  intros Hl. rewrite IH by lia. rewrite wrap64_id; [lia |]. unfold int64_ok, int64_min, int64_max. lia.
Qed.

Lemma host_records_le host recs : (length (host_records host recs) <= length recs)%nat.
Proof. unfold host_records. pose proof (filter_length_le (of_host host) (List.filter is_included recs)). pose proof (filter_length_le is_included recs). lia. Qed.

Lemma with_key_le key recs : (length (with_key key recs) <= length recs)%nat.
Proof. apply filter_length_le. Qed.

Lemma segment_of_count selected key recs a : Z.of_nat (length recs) < 2 ^ 63 -> segment_of selected key recs = Some a <->
  key ∈ selected /\ (0 < length (with_key key recs))%nat /\ a = aggregate_of (with_key key recs).
Proof.
  intros Hl. unfold segment_of. destruct (with_key key recs) as [| r rs]; [cbn; split; [done | lia] |].
  case_bool_decide as Hs; split; try tauto; try done; [intros [= <-]; cbn; split; [done | split; [lia | done]] | intros (_ & _ & ->); done].
Qed.

(** The segments of a finished domain are the aggregates above the floor. *)
Lemma finish_segments_serve min segments (d : option Baseline) key b :
  serves (buildIndex (mk_domain d (finish_segments min segments) None)) key b <->
  exists a, segments !! key = Some a /\ min <= a_n a /\ b = finishAggregate a.
Proof.
  unfold serves, buildIndex. cbn [dm_Segments]. unfold finish_segments. split.
  - intros (s & Hin & Hk & Hb). rewrite (merge_sort_Permutation segment_le) in Hin. apply list_elem_of_In, in_map_iff in Hin as ([k a] & <- & Hin).
    apply filter_In in Hin as [Hin Hmin]. apply list_elem_of_In, elem_of_map_to_list in Hin. cbn in *. exists a. apply negb_true_iff, Z.ltb_ge in Hmin.
    split; [subst key; by destruct k |]. split; [done | congruence].
  - intros (a & Ha & Hmin & ->). exists (mk_segment (k_Method key) (k_Route key) (Some (finishAggregate a))). split; [| split; [by destruct key | done]].
    rewrite (merge_sort_Permutation segment_le). apply list_elem_of_In, in_map_iff. exists (key, a). split; [done |]. apply filter_In.
    split; [by apply list_elem_of_In, elem_of_map_to_list |]. cbn. by apply negb_true_iff, Z.ltb_ge.
Qed.

(** How often a key was counted is how many records have it. *)
Lemma occurrences_with_key key recs : occurrences key (concat (map SegmentKeys recs)) = Z.of_nat (length (with_key key recs)).
Proof.
  unfold occurrences, with_key. induction recs as [| rec recs IH]; [done |]. cbn [map concat List.filter]. rewrite count_occ_app.
  assert (Hone : count_occ SegmentKey_eq_dec (SegmentKeys rec) key = if bool_decide (key ∈ SegmentKeys rec) then 1%nat else 0%nat).
  { case_bool_decide as Hin.
    - apply NoDup_count_occ'; [apply NoDup_ListNoDup, SegmentKeys_nodup | by apply list_elem_of_In].
    - apply count_occ_not_In. by rewrite <- list_elem_of_In. }
  rewrite Hone. case_bool_decide; cbn [length]; lia.
Qed.

(** The trained model: what it holds of a host. *)
Lemma trained_domain minRequests minSegment now selected recs host :
  Z.of_nat (length recs) < 2 ^ 63 -> 0 < minRequests ->
  let n := Z.of_nat (length (host_records host recs)) in
  let m := Finish minRequests now (fold_left (fun t rec => Add rec t) recs (NewTrainer selected minSegment)) in
  if decide (minRequests <= n) then
    exists d b, mo_Domains m !! host = Some (Some d) /\ dm_Baseline d = Some b /\ b_Requests b = n /\
      forall key b', serves d key b' <->
        key ∈ default [] (selected !! host) /\ (0 < length (with_key key (host_records host recs)))%nat /\
        minSegment <= Z.of_nat (length (with_key key (host_records host recs))) /\ b' = finishAggregate (aggregate_of (with_key key (host_records host recs)))
  else mo_Domains m !! host = None.
Proof.
  intros Hl Hmin n m. pose proof (train_inv selected minSegment recs) as Ht. set (t := fold_left _ recs _) in *.
  pose proof (host_records_le host recs) as Hle. assert (Hm : mo_Domains m !! host = t_domains t !! host ≫= finish_domain minSegment minRequests).
  { unfold m, Finish. cbn [mo_Domains]. by rewrite lookup_omap, (ti_min _ _ _ _ Ht). }
  rewrite Hm. destruct (t_domains t !! host) as [da |] eqn:Ed; cbn [mbind option_bind].
  2: { apply (ti_none _ _ _ _ Ht) in Ed. rewrite decide_False; [done |]. unfold n. rewrite Ed. cbn. lia. }
  destruct (ti_some _ _ _ _ Ht host da Ed) as [Hg Hs]. unfold finish_domain. rewrite Hg, aggregate_count by lia. fold n.
  destruct (Z.ltb_spec n minRequests); [by rewrite decide_False by lia |]. rewrite decide_True by done.
  eexists _, _. split; [done |]. cbn [dm_Baseline buildIndex]. split; [done |]. split; [cbn; rewrite aggregate_count by lia; done |].
  intros key b'. rewrite finish_segments_serve. assert (Hsel : forall k, k ∈ default ∅ ((list_to_set <$> selected : gmap gostring (gset SegmentKey)) !! host) <-> k ∈ default [] (selected !! host)).
  { intros k. rewrite lookup_fmap. destruct (selected !! host); cbn; [by rewrite elem_of_list_to_set | set_solver]. }
  pose proof (with_key_le key (host_records host recs)) as Hle'. split.
  - intros (a & Ha & Hfl & ->). rewrite Hs in Ha. apply segment_of_count in Ha as (Hin & Hpos & ->); [| lia]. rewrite aggregate_count in Hfl by lia. by rewrite <- Hsel.
  - intros (Hin & Hpos & Hfl & ->). exists (aggregate_of (with_key key (host_records host recs))). rewrite aggregate_count by lia. split; [| done].
    rewrite Hs. apply segment_of_count; [lia |]. by rewrite Hsel.
Qed.
End Finished.

(** ** The write of the artifact *)

(** Every state a lone process passes through, whatever its calls answer. *)
Fixpoint always {A} (Inv : fs -> Prop) (i : nat) (p : fprog A) (s : fs) : Prop :=
  Inv s /\ match p with Return _ => True | Do c k => forall x s', does i c s x s' -> always Inv i (k x) s' end.

Lemma always_mono {A} (P Q : fs -> Prop) i (p : fprog A) s : (forall s, P s -> Q s) -> always P i p s -> always Q i p s.
Proof. intros HPQ. revert s. induction p as [a | X c k IH]; intros s [Hs Hk]; (split; [by apply HPQ |]); [done |]. intros x s' Hd. by apply IH, Hk. Qed.

Section SaveSafe.
Variables (p : path) (old : option file) (raw : gostring) (i : nat).

(** The file is the old one or the whole new one, on disk. *)
Definition whole (s : fs) : Prop := fs_files s !! p = old \/ fs_files s !! p = Some (mk_file raw true).

(** So are all the entries a power loss may leave. *)
Definition whole_disk (s : fs) : Prop := forall e, e ∈ fs_files s !! p :: stale s p -> e = old \/ e = Some (mk_file raw true).

Lemma whole_now s : whole_disk s -> whole s.
Proof. intros Hw. apply Hw. by left. Qed.

Lemma whole_set tmp f s : tmp <> p -> whole_disk s -> whole_disk (set_files (<[tmp := f]> (fs_files s)) s).
Proof. intros Hne. unfold whole_disk, set_files, stale. cbn. by rewrite lookup_insert_ne. Qed.

Lemma whole_entry tmp e s : tmp <> p -> whole_disk s -> whole_disk (set_entry tmp e s).
Proof. intros Hne. unfold whole_disk, set_entry, stale. cbn. rewrite lookup_insert_ne by done. destruct e; [by rewrite lookup_insert_ne | by rewrite lookup_delete_ne]. Qed.

Lemma whole_rename s : whole_disk s -> whole_disk (log_file p (mk_file raw true) (set_entry p (Some (mk_file raw true)) s)).
Proof.
  intros Hw e. unfold log_file, set_entry, stale. cbn. rewrite !lookup_insert_eq. cbn. intros [-> | He]%elem_of_cons; [by right | by apply Hw].
Qed.

Lemma always_remove {A} tmp (r : A) s : tmp <> p -> whole_disk s -> always whole_disk i (sys! Remove tmp in Return r) s.
Proof. intros Hne Hw. split; [done |]. intros [[] | e] s' Hd; cbn in Hd; subst s'; (split; [| done]); [| done]. by apply whole_entry. Qed.

Lemma always_close_remove {A} tmp (r : A) s : tmp <> p -> whole_disk s -> always whole_disk i (sys! Close tmp in sys! Remove tmp in Return r) s.
Proof. intros Hne Hw. split; [done |]. intros x s' Hd. cbn in Hd. subst s'. by apply always_remove. Qed.

Lemma Save_always `{Unicode, ModelJSON} m m' s : Model_validate m = Ok m' -> MarshalModel m' = Some raw -> whole_disk s ->
  always whole_disk i (Save m p) s.
Proof.
  intros Hv Hm Hw. unfold Save. rewrite Hv, Hm. split; [done |]. intros [tmp | e] s1 Hc; cbn in Hc; [| by subst].
  destruct Hc as (_ & (random & Hr & Hb) & Hnone & ->).
  assert (Hne : tmp <> p) by (intros ->; apply (f_equal length) in Hb; cbn [length] in Hb; rewrite ?length_app in Hb; cbn [length] in Hb; rewrite ?length_app in Hb; cbn [length] in Hb; lia).
  set (s1 := set_entry _ _ s). assert (Hw1 : whole_disk s1) by (by apply whole_entry). cbv zeta. split; [done |].
  intros [[] | e] s2 Hd; cbn in Hd; subst s2; [| by apply always_close_remove]. split; [done |].
  intros x s2 (f & Hf & part & Hpart & ->). cbn in Hf. rewrite lookup_insert_eq in Hf. injection Hf as <-. cbn [fl_data app] in *.
  set (s2 := set_files _ s1). assert (Hw2 : whole_disk s2) by (by apply whole_set). destruct x as [[] | e]; [| by apply always_close_remove]. subst part. split; [done |].
  intros x s3 (f & Hf & ->). cbn in Hf. rewrite lookup_insert_eq in Hf. injection Hf as <-. destruct x as [[] | e]; [| by apply always_close_remove].
  set (s3 := set_files _ s2). assert (Hw3 : whole_disk s3) by (by apply whole_set). split; [done |].
  intros x s4 Hd; cbn in Hd; subst s4. destruct x as [[] | e]; [| by apply always_remove]. split; [done |].
  intros x s4 Hd. cbn in Hd. destruct x as [[] | e]; [| subst; by apply always_remove]. destruct Hd as (f & Hf & ->).
  cbn in Hf. rewrite lookup_insert_eq in Hf. injection Hf as <-. apply always_remove; [done |]. apply whole_rename. by apply whole_entry.
Qed.
End SaveSafe.

(** * Properties *)

(** C33: a segment that makes up more than one part in [maxSegments + 1] of the
    observations of a host, and that reaches the floors on records, has a
    baseline of its own in the model trained from the same records, with the
    exact number of its requests. *)
Theorem frequent_segments_are_modelled `{Unicode, Logarithm} maxSegments minSegment minRequests now recs host key
  (Hm : 1 <= maxSegments <= 4096) (Hr : Z.of_nat (3 * length recs) < 2 ^ 63 - 1) (Hinc : Forall (fun rec => Eligible rec = FilterIncluded) recs)
  (Hfloor : 0 < minRequests <= Z.of_nat (length (host_records host recs)))
  (Hseg : minSegment <= Z.of_nat (length (with_key key (host_records host recs))))
  (Hheavy : 3 * Z.of_nat (length (host_records host recs)) < (maxSegments + 1) * Z.of_nat (length (with_key key (host_records host recs)))) :
  exists s selected d b, observe_all recs (NewSegmentSelector maxSegments) = Some s /\ Selected s (Z.to_nat maxSegments) = Some selected /\
    mo_Domains (Finish minRequests now (fold_left (fun t rec => Add rec t) recs (NewTrainer selected minSegment))) !! host = Some (Some d) /\
    serves d key b /\ b_Requests b = Z.of_nat (length (with_key key (host_records host recs))).
Proof.
  destruct (selector_counts maxSegments recs Hm Hr) as (s & Hs & Hinv). pose proof Hinv as [_ Hdom].
  destruct (Selected_hosts _ _ _ (Z.to_nat maxSegments) Hinv) as (selected & Hsel & Hlook).
  assert (Hall : List.filter is_included recs = recs).
  { clear -Hinc. induction Hinc as [| rec rest He _ IH]; [done |]. cbn. unfold is_included at 1. by rewrite He, IH. }
  assert (Hrecs : host_records host recs = List.filter (of_host host) recs) by (unfold host_records; by rewrite Hall).
  assert (Hocc : occurrences key (keys_seen host recs) = Z.of_nat (length (with_key key (host_records host recs)))).
  { unfold keys_seen. by rewrite <- Hrecs, occurrences_with_key. }
  assert (Hlen : Z.of_nat (length (keys_seen host recs)) = 3 * Z.of_nat (length (host_records host recs))) by (rewrite keys_seen_length, Hrecs; lia).
  set (n := Z.of_nat (length (with_key key _))) in *.
  assert (Hin : key ∈ default [] (selected !! host)).
  { rewrite Hlook. pose proof (Hdom host) as Hh. destruct (ss_domains s !! host) as [d |]; cbn.
    - destruct Hh as [_ Hspace]. pose proof (Z.mul_le_mono_nonneg_r (maxSegments + 1) (4 * maxSegments) n ltac:(lia) ltac:(lia)) as Hshare.
      destruct (space_heavy_counted (4 * maxSegments) (keys_seen host recs) (estimates d) key ltac:(lia) Hspace) as (x & Hx & Hle); [rewrite Hocc; lia |].
      rewrite Hocc in Hle. pose proof (Z.mul_le_mono_nonneg_l _ _ (maxSegments + 1) ltac:(lia) Hle) as Hn'.
      apply (top_segments_heavy _ _ _ x); [| done | rewrite (si_mass _ _ _ Hspace), Z2Nat.id by lia; lia].
      intros k y Hy. pose proof (si_above _ _ _ Hspace k y Hy). lia.
    - rewrite <- Hrecs in Hh. rewrite Hh in Hfloor. cbn in Hfloor. lia. }
  pose proof (trained_domain minRequests minSegment now selected recs host ltac:(lia) ltac:(lia)) as Ht. cbv zeta in Ht. rewrite decide_True in Ht by lia.
  destruct Ht as (d & _ & Hd & _ & _ & Hserve). exists s, selected, d, (finishAggregate (aggregate_of (with_key key (host_records host recs)))).
  split; [done | split; [done | split; [done |]]]. pose proof (with_key_le key (host_records host recs)). pose proof (host_records_le host recs).
  split; [apply Hserve; split; [done |]; split; [| done]; nia |]. cbn. rewrite aggregate_count by lia. done.
Qed.

(** what training hands to the writer was built under its limits: both
    passes stayed within the number of invalid records allowed, the model is
    well formed, and of every host it holds a baseline of at least the wanted
    number of requests. *)
Theorem trained_candidate_is_checked `{Unicode, Logarithm, LogCodec, ValidJSON} o pass1 pass2 now m (Hr : runTrain o pass1 pass2 now = Ok m) :
  exists lines1 lines2, pass1 = Some lines1 /\ pass2 = Some lines2 /\
  stats_invalid (snd (scanEligible lines1 no_stats)) <= o_maxInvalid o /\ stats_invalid (snd (scanEligible lines2 no_stats)) <= o_maxInvalid o /\
  model_ok m /\
  exists selected, let trained := Finish (o_minRequests o) now (fold_left (fun t rec => Add rec t) (fst (scanEligible lines2 no_stats)) (NewTrainer selected (o_minSegmentRequests o))) in
    Model_validate trained = Ok m /\ forall host, host ∈ o_required o -> HasDomain trained host = true.
Proof.
  unfold runTrain in Hr. destruct (bad_options o); [done |]. destruct pass1 as [lines1 |]; [| done].
  destruct (scanEligible lines1 no_stats) as [recs1 stats1] eqn:E1. destruct (observe_all recs1 _) as [selector |]; [| done].
  destruct (Z.ltb_spec (o_maxInvalid o) (stats_invalid stats1)) as [| Hfew1]; [done |]. destruct (Selected selector _) as [selected |]; [| done].
  destruct pass2 as [lines2 |]; [| done]. destruct (scanEligible lines2 no_stats) as [recs2 stats2] eqn:E2. cbv zeta in Hr.
  destruct (Z.ltb_spec (o_maxInvalid o) (stats_invalid stats2)) as [| Hfew2]; [done |]. set (trained := Finish _ _ _) in *.
  destruct (List.find _ (o_required o)) as [host |] eqn:Ef; [done |]. destruct (size (mo_Domains trained) =? 0)%nat; [done |].
  destruct (Model_validate trained) as [saved | e] eqn:Ev; [| done]. injection Hr as ->.
  exists lines1, lines2. rewrite E1, E2. split; [done | split; [done | split; [done | split; [done |]]]]. split; [by eapply Model_validate_ok |].
  exists selected. split; [done |]. intros host Hin%list_elem_of_In. pose proof (find_none _ _ Ef host Hin) as Hn. by apply negb_false_iff in Hn.
Qed.

(** C36: whatever the calls of a save answer and wherever it is cut short, the
    artifact's path holds the file it held before, if any, or the whole new one, fsynced;
    and so it does after a power loss, which may or may not undo the rename, when the file before and its
    directory entry were on disk. *)
Theorem saved_model_is_whole `{Unicode, ModelJSON} m m' raw p s i (Hv : Model_validate m = Ok m') (Hm : MarshalModel m' = Some raw)
  (Hsync : forall f, fs_files s !! p = Some f -> fl_synced f = true) (Hentry : stale s p = []) :
  always (fun s' => whole p (fs_files s !! p) raw s' /\ forall s'', power_loss s' s'' -> whole p (fs_files s !! p) raw s'') i (Save m p) s.
Proof.
  assert (Hw : whole_disk p (fs_files s !! p) raw s).
  { intros e. rewrite Hentry. intros [-> | []%not_elem_of_nil]%elem_of_cons. by left. }
  refine (always_mono _ _ _ _ _ _ (Save_always p (fs_files s !! p) raw i m m' s Hv Hm Hw)).
  intros s' Hw'. split; [by apply whole_now |]. intros s'' (_ & _ & _ & _ & Hl). destruct (Hl p) as (e & He & Hd). unfold whole.
  destruct (Hw' e He) as [-> | ->].
  - destruct (fs_files s !! p) as [f |] eqn:Ef; [| by left]. destruct Hd as (d & Hd & Hdata). left. rewrite Hd, (Hdata (Hsync f eq_refl)).
    pose proof (Hsync f eq_refl) as Hf. destruct f. cbn in *. by rewrite Hf.
  - destruct Hd as (d & Hd & Hdata). right. rewrite Hd. cbn in *. by rewrite Hdata.
Qed.

(** ** Concrete runs *)
Module Ex.
#[export] Existing Instance ascii_only.
#[export] Existing Instance Anomaly.Ex.floor_log.

(** Lines of [host uri] in place of JSON; a blank line is malformed. *)
Definition fields_of (line : gostring) : option (gmap gostring gostring) :=
  match split_at_byte " "%char line with
  | Some (host, uri) =>
    Some (list_to_map [(lit "host", host); (lit "method", lit "get"); (lit "uri", uri); (lit "status", lit "200"); (lit "user_agent", []); (lit "guardian_action", lit "allow")])
  | None => None
  end.
#[export] Instance plain_codec : LogCodec :=
  {| raw_value := gostring; unmarshal_fields := fields_of; unmarshal_string := Some; unmarshal_int v := match ParseInt v with Ok n => Some n | Err _ => None end;
     validRequestURI uri := has_prefix [slash] uri |}.
#[export] Instance plain_json : ValidJSON := {| IsValid line := contains " "%char line |}.

Definition recs : list LogRecord := Segments.Ex.log.
Definition lines : list gostring := map lit ["example.com /a/1"; "example.com /b"; "broken"; "example.com /a/2"; "Example.com /a/3"].
Definition options : train_options := mk_options 3 2 1 1 [lit "EXAMPLE.com"].

Definition trained : outcome train_error Model := runTrain options (Some lines) (Some lines) 7.

Definition requests_of (r : outcome train_error Model) (host : gostring) : option Z :=
  match r with
  | Ok m => match mo_Domains m !! host with Some (Some d) => b_Requests <$> dm_Baseline d | _ => None end
  | Err _ => None
  end.

Example trained_requests : requests_of trained (lit "example.com") = Some 4.
Proof. vm_compute. reflexivity. Qed.

Example strict_options : runTrain (mk_options 3 2 1 0 []) (Some lines) (Some lines) 7 = Err (TooManyInvalid 1).
Proof. vm_compute. reflexivity. Qed.

Lemma frequent_segments_are_modelled_witness :
  exists s selected d b, observe_all recs (NewSegmentSelector 3) = Some s /\ Selected s 3 = Some selected /\ mo_Domains (Finish 2 7 (fold_left (fun t rec => Add rec t) recs (NewTrainer selected 2))) !! lit "example.com" = Some (Some d) /\ serves d (mk_key (lit "GET") []) b /\ b_Requests b = 6.
Proof.
  apply (frequent_segments_are_modelled 3 2 2 7 recs (lit "example.com") (mk_key (lit "GET") [])).
  - lia.
  - vm_compute. reflexivity.
  - repeat constructor.
  - vm_compute. by split.
  - vm_compute. done.
  - vm_compute. reflexivity.
Defined.

Lemma trained_candidate_is_checked_witness : exists m, trained = Ok m /\ model_ok m.
Proof.
  assert (exists m, trained = Ok m) as [m Hm].
  { unfold trained. vm_compute. by eexists. }
  exists m. split; [exact Hm |]. destruct (trained_candidate_is_checked options (Some lines) (Some lines) 7 m Hm) as (l1 & l2 & _ & _ & _ & _ & Hok & _). exact Hok.
Defined.

Definition disk : fs := mk_fs {[mk_path (lit "/m") (lit "model.json") := mk_file (lit "old") true]} ∅ None [] [].
Lemma saved_model_is_whole_witness :
  Model_validate Anomaly.Ex.model = Ok Anomaly.Ex.loaded /\ let p := mk_path (lit "/m") (lit "model.json") in
  always (fun s' => whole p (fs_files disk !! p) (lit "model") s' /\ forall s'', power_loss s' s'' -> whole p (fs_files disk !! p) (lit "model") s'') 1
    (Save (H0 := Anomaly.Ex.one_model) Anomaly.Ex.model p) disk.
Proof.
  split; [apply Anomaly.Ex.loaded_parses |]. apply (saved_model_is_whole (H0 := Anomaly.Ex.one_model) Anomaly.Ex.model Anomaly.Ex.loaded).
  - apply Anomaly.Ex.loaded_parses.
  - reflexivity.
  - intros f. vm_compute. by intros [= <-].
  - reflexivity.
Defined.
End Ex.
