(* ===== verification/Compare.v ===== *)
(** * The promotion gate (core/anomaly/compare.go)

    A candidate model is promoted when scoring the same records with it and
    with the current one passes the gate: no required coverage is lost and the
    scores of no domain drift too far.  Scores are kept in histograms of 101
    buckets. *)

From S2P Require Export Segments.

Open Scope Z_scope.

(** ** Rounding to integers *)

(** [math.Ceil], and [math.Round], half away from zero, as integers. *)
Definition ceil_int (x : float) : option Z :=
  match x with
  | S754_zero _ => Some 0
  | S754_finite s m e => let n := if s then - Z.pos m else Z.pos m in Some (if 0 <=? e then n * 2 ^ e else - ((- n) / 2 ^ (- e)))
  | _ => None
  end.
Definition round_int (x : float) : option Z :=
  match x with
  | S754_zero _ => Some 0
  | S754_finite s m e => let n := if 0 <=? e then Z.pos m * 2 ^ e else (2 * Z.pos m + 2 ^ (- e)) / 2 ^ (1 - e) in Some (if s then - n else n)
  | _ => None
  end.

(** [int(...)] of the rounded float. *)
Definition int_or_other `{FloatToInt} (x : float) (n : option Z) : Z :=
  match n with Some n => if decide (int64_ok n) then n else int_unrepresentable x | None => int_unrepresentable x end.

(** ** Histograms *)
Definition comparisonBuckets : nat := 101.

Record Distribution := mk_distribution { di_Count : Z; di_Mean : float; di_P50 : float; di_P90 : float; di_P95 : float; di_P99 : float }.
Record scoreDistribution := mk_sdist { sd_count : Z; sd_sum : float; sd_buckets : list Z }.
Definition new_distribution : scoreDistribution := mk_sdist 0 (f64 0) (replicate comparisonBuckets 0).

Section Distributions.
Context `{FloatToInt}.

(** The bucket of a clamped score. *)
Definition bucket_of (score : float) : nat :=
  let x := fmul score (f64 100) in Z.to_nat (Z.min 100 (Z.max 0 (int_or_other x (round_int x)))).

Definition dist_add (score : float) (d : scoreDistribution) : scoreDistribution :=
  let score := Min (f64 1) (Max (f64 0) score) in
  mk_sdist (wrap64 (sd_count d + 1)) (fadd (sd_sum d) score) (alter (fun n => wrap64 (n + 1)) (bucket_of score) (sd_buckets d)).

(** The index of the first bucket at which the running sum reaches the
    target. *)
Fixpoint percentile_index (target cumulative : Z) (i : nat) (buckets : list Z) : option nat :=
  match buckets with
  | [] => None
  | n :: rest => let cumulative := wrap64 (cumulative + n) in if target <=? cumulative then Some i else percentile_index target cumulative (S i) rest
  end.

Definition percentile_target (q : float) (count : Z) : Z := let x := fmul (f64 count) q in int_or_other x (ceil_int x).
Definition percentile (q : float) (d : scoreDistribution) : float :=
  match percentile_index (percentile_target q (sd_count d)) 0 0 (sd_buckets d) with
  | Some i => fdiv (f64 (Z.of_nat i)) (f64 100)
  | None => f64 1
  end.

Definition q50 : float := fdiv (f64 50) (f64 100).
Definition q90 : float := fdiv (f64 90) (f64 100).
Definition q95 : float := fdiv (f64 95) (f64 100).
Definition q99 : float := fdiv (f64 99) (f64 100).

Definition dist_result (d : scoreDistribution) : Distribution :=
  if sd_count d =? 0 then mk_distribution 0 (f64 0) (f64 0) (f64 0) (f64 0) (f64 0)
  else mk_distribution (sd_count d) (fdiv (sd_sum d) (f64 (sd_count d))) (percentile q50 d) (percentile q90 d) (percentile q95 d) (percentile q99 d).
End Distributions.

(** ** The comparator *)
Record comparisonAggregate := mk_ca {
  ca_current : scoreDistribution; ca_candidate : scoreDistribution; ca_levels : gmap gostring Z; ca_missingCurrent : Z; ca_missingCandidate : Z
}.
Definition new_aggregate : comparisonAggregate := mk_ca new_distribution new_distribution ∅ 0 0.

(** No required list is [None]. *)
Record Comparator := mk_comparator {
  cm_Current : Model; cm_Candidate : Model; cm_domains : gmap gostring comparisonAggregate; cm_required : option (gset gostring)
}.
Definition NewComparator (current candidate : Model) : Comparator := mk_comparator current candidate ∅ None.

Inductive failure := RemovedBaseline | MissingBaseline | TooFewRecords | MeanDrift | P95Drift.
Inductive comparison_status := Added | Removed | Uncovered | Skipped | Compared.

Record DomainComparison := mk_dc {
  dc_Status : comparison_status; dc_Current : Distribution; dc_Candidate : Distribution; dc_MeanDelta : float; dc_P95Delta : float;
  dc_CandidateLevels : gmap gostring Z; dc_MissingCurrent : Z; dc_MissingCandidate : Z; dc_Passed : bool; dc_Failures : list failure
}.
Record ComparisonReport := mk_report {
  cr_GeneratedAt : gostring; cr_MaxMeanDelta : float; cr_MaxP95Delta : float; cr_MinRequests : Z; cr_Passed : bool; cr_Domains : gmap gostring DomainComparison
}.

(** The strings of [ScoreResult.Level]. *)
Definition level_name (l : level) : gostring :=
  match l with Exact => lit "exact" | RouteOnly => lit "route" | MethodOnly => lit "method" | DomainWide => lit "domain" | Missing => lit "missing" end.

Section Comparator.
Context `{Unicode, Logarithm, FloatToInt}.

Definition SetRequired (hosts : list gostring) (c : Comparator) : Comparator :=
  mk_comparator (cm_Current c) (cm_Candidate c) (cm_domains c) (match hosts with [] => None | _ => Some (list_to_set (map NormalizeHost hosts)) end).

Definition coverageRequired (c : Comparator) (host : gostring) : bool :=
  match cm_required c with None => true | Some required => bool_decide (host ∈ required) end.

Definition add_scores (current candidate : ScoreResult) (a : comparisonAggregate) : comparisonAggregate :=
  let a := if rs_Found current then mk_ca (dist_add (rs_Score current) (ca_current a)) (ca_candidate a) (ca_levels a) (ca_missingCurrent a) (ca_missingCandidate a)
           else mk_ca (ca_current a) (ca_candidate a) (ca_levels a) (wrap64 (ca_missingCurrent a + 1)) (ca_missingCandidate a) in
  if rs_Found candidate then
    let l := level_name (rs_Level candidate) in
    mk_ca (ca_current a) (dist_add (rs_Score candidate) (ca_candidate a)) (<[l := wrap64 (default 0 (ca_levels a !! l) + 1)]> (ca_levels a))
      (ca_missingCurrent a) (ca_missingCandidate a)
  else mk_ca (ca_current a) (ca_candidate a) (ca_levels a) (ca_missingCurrent a) (wrap64 (ca_missingCandidate a + 1)).

Definition score_record (m : Model) (host : gostring) (rec : LogRecord) : ScoreResult :=
  Score m host (l_Method rec) (DecodePath (RequestPath (l_URI rec))) (DecodeQuery (RequestQuery (l_URI rec))) (l_UserAgent rec).

Definition Comparator_Add (rec : LogRecord) (c : Comparator) : Comparator :=
  match Eligible rec with
  | FilterIncluded =>
    let host := NormalizeHost (l_Host rec) in
    let a := default new_aggregate (cm_domains c !! host) in
    mk_comparator (cm_Current c) (cm_Candidate c)
      (<[host := add_scores (score_record (cm_Current c) host rec) (score_record (cm_Candidate c) host rec) a]> (cm_domains c)) (cm_required c)
  | _ => c
  end.

Definition exceeds (delta limit : float) : bool := fgt (Abs delta) limit.

(** The body of the loop of [Report], for one host. *)
Definition compare_host (c : Comparator) (minRequests : Z) (maxMeanDelta maxP95Delta : float) (host : gostring) : DomainComparison :=
  let inCurrent := bool_decide (is_Some (mo_Domains (cm_Current c) !! host)) in
  let inCandidate := bool_decide (is_Some (mo_Domains (cm_Candidate c) !! host)) in
  let a := default new_aggregate (cm_domains c !! host) in
  let current := dist_result (ca_current a) in
  let candidate := dist_result (ca_candidate a) in
  let meanDelta := fsub (di_Mean candidate) (di_Mean current) in
  let p95Delta := fsub (di_P95 candidate) (di_P95 current) in
  let observed := wrap64 (sd_count (ca_current a) + ca_missingCurrent a) in
  let '(status, failures) :=
    if negb inCurrent && inCandidate then (Added, [])
    else if inCurrent && negb inCandidate then
      (Removed, if ((observed =? 0) || (minRequests <=? observed)) && coverageRequired c host then [RemovedBaseline] else [])
    else if negb inCurrent && negb inCandidate then
      (Uncovered, if (minRequests <=? observed) && coverageRequired c host then [MissingBaseline] else [])
    else if (di_Count current =? 0) && (di_Count candidate =? 0) then (Skipped, [])
    else (Compared,
      (if (di_Count current <? minRequests) || (di_Count candidate <? minRequests) then [TooFewRecords] else []) ++
      (if 0 <? ca_missingCandidate a then [MissingBaseline] else []) ++
      (if exceeds meanDelta maxMeanDelta then [MeanDrift] else []) ++
      (if exceeds p95Delta maxP95Delta then [P95Drift] else [])) in
  mk_dc status current candidate meanDelta p95Delta (ca_levels a) (ca_missingCurrent a) (ca_missingCandidate a)
    (bool_decide (failures = [])) failures.

Definition report_hosts (c : Comparator) : gset gostring := dom (mo_Domains (cm_Current c)) ∪ dom (mo_Domains (cm_Candidate c)) ∪ dom (cm_domains c).

Definition Report (c : Comparator) (minRequests : Z) (maxMeanDelta maxP95Delta : float) (generatedAt : gostring) : ComparisonReport :=
  let ordered := merge_sort bytes_le (elements (report_hosts c)) in
  let domains := map (fun host => (host, compare_host c minRequests maxMeanDelta maxP95Delta host)) ordered in
  mk_report generatedAt maxMeanDelta maxP95Delta minRequests (forallb (fun hd => dc_Passed hd.2) domains) (list_to_map domains).
End Comparator.

(** ** Histograms count every score once *)
Section Histograms.
Context `{FloatToInt}.

Fixpoint sum_Z (l : list Z) : Z := match l with [] => 0 | n :: l => n + sum_Z l end.

Lemma sum_Z_alter i : forall l n, l !! i = Some n -> sum_Z (alter (fun n => n + 1) i l) = sum_Z l + 1.
Proof. induction i as [| i IH]; intros [| m l] n Hn; try done; cbn; [lia |]. cbn in Hn. rewrite (IH l n) by done. lia. Qed.

Lemma sum_Z_nonneg l : (forall m, m ∈ l -> 0 <= m) -> 0 <= sum_Z l.
Proof. induction l as [| m l IH]; intros Hl; cbn; [done |]. pose proof (Hl m ltac:(left)). pose proof (IH ltac:(intros; apply Hl; by right)). lia. Qed.

Lemma sum_Z_elem l n i : (forall m, m ∈ l -> 0 <= m) -> l !! i = Some n -> 0 <= n <= sum_Z l.
Proof.
  revert i. induction l as [| m l IH]; intros i Hl Hi; [done |].
  pose proof (Hl m ltac:(left)). destruct i as [| i]; cbn in Hi |- *.
  - injection Hi as <-. pose proof (sum_Z_nonneg l ltac:(intros; apply Hl; by right)). lia.
  - pose proof (IH i ltac:(intros; apply Hl; by right) Hi). lia.
Qed.

(** A histogram of [n] scores. *)
Record dist_ok (n : Z) (d : scoreDistribution) : Prop := {
  do_count : sd_count d = n;
  do_length : length (sd_buckets d) = comparisonBuckets;
  do_sum : sum_Z (sd_buckets d) = n;
  do_nonneg m : m ∈ sd_buckets d -> 0 <= m
}.

Lemma new_distribution_ok : dist_ok 0 new_distribution.
Proof. split; [done | done | vm_compute; done |]. intros m Hm. cbn [new_distribution sd_buckets] in Hm. apply elem_of_replicate in Hm as [-> _]. done. Qed.

Lemma bucket_of_range score : (bucket_of score < comparisonBuckets)%nat.
Proof. unfold bucket_of, comparisonBuckets. cbv zeta. lia. Qed.

Lemma dist_add_ok n score d : dist_ok n d -> 0 <= n < 2 ^ 63 - 1 -> dist_ok (n + 1) (dist_add score d).
Proof.
  intros Hd Hn. unfold dist_add. cbv zeta. set (i := bucket_of _). pose proof (bucket_of_range (Min (f64 1) (Max (f64 0) score))) as Hi. fold i in Hi.
  rewrite <- (do_length _ _ Hd) in Hi. apply lookup_lt_is_Some_2 in Hi as [b Hb]. pose proof (sum_Z_elem _ _ _ (do_nonneg _ _ Hd) Hb) as Hrange.
  rewrite (do_sum _ _ Hd) in Hrange.
  assert (Ha : alter (fun n => wrap64 (n + 1)) i (sd_buckets d) = alter (fun n => n + 1) i (sd_buckets d)).
  { apply list_eq. intros j. destruct (decide (j = i)) as [-> | Hne].
    - rewrite !list_lookup_alter_eq, Hb. cbn. rewrite wrap64_id; [done |]. unfold int64_ok, int64_min, int64_max. lia.
    - by rewrite !list_lookup_alter_ne. }
  rewrite Ha. split; cbn [sd_count sd_buckets].
  - rewrite (do_count _ _ Hd), wrap64_id; [done |]. unfold int64_ok, int64_min, int64_max. lia.
  - by rewrite length_alter, (do_length _ _ Hd).
  - rewrite (sum_Z_alter _ _ b) by done. by rewrite (do_sum _ _ Hd).
  - intros m Hm. apply list_elem_of_lookup in Hm as [j Hj]. destruct (decide (j = i)) as [-> | Hne].
    + rewrite list_lookup_alter_eq, Hb in Hj. cbn in Hj. injection Hj as <-. lia.
    + rewrite list_lookup_alter_ne in Hj by done. by apply (do_nonneg _ _ Hd), list_elem_of_lookup_2 with j.
Qed.

(** The percentile loop finds the least bucket that reaches the target. *)
Lemma percentile_index_spec target : forall buckets cumulative i j, (forall m, m ∈ buckets -> 0 <= m) -> 0 <= cumulative -> cumulative + sum_Z buckets < 2 ^ 63 ->
  percentile_index target cumulative i buckets = Some j ->
  (i <= j)%nat /\ target <= cumulative + sum_Z (take (S (j - i)) buckets) /\ (forall k, (k < j - i)%nat -> cumulative + sum_Z (take (S k) buckets) < target).
Proof.
  induction buckets as [| n buckets IH]; intros cumulative i j Hb Hc Hmax Hj; [done |]. cbn [percentile_index sum_Z] in *.
  pose proof (Hb n ltac:(left)) as Hn. assert (Hrest : forall m, m ∈ buckets -> 0 <= m) by (intros; apply Hb; by right).
  pose proof (sum_Z_nonneg buckets Hrest) as Hnn.
  rewrite wrap64_id in Hj by (unfold int64_ok, int64_min, int64_max; lia). destruct (Z.leb_spec target (cumulative + n)) as [Hle | Hgt].
  - injection Hj as <-. rewrite Nat.sub_diag. change (take 1 (n :: buckets)) with [n]. cbn [sum_Z]. split; [done | split; [lia |]]. intros k Hk. lia.
  - destruct (IH (cumulative + n) (S i) j Hrest ltac:(lia) ltac:(lia) Hj) as (Hij & Hreach & Hless). split; [lia |].
    replace (j - i)%nat with (S (j - S i))%nat by lia. split; [change (take (S (S (j - S i))) (n :: buckets)) with (n :: take (S (j - S i)) buckets); cbn [sum_Z]; lia |].
    intros [| k] Hk; [change (take 1 (n :: buckets)) with [n]; cbn [sum_Z]; lia |]. specialize (Hless k ltac:(lia)). change (take (S (S k)) (n :: buckets)) with (n :: take (S k) buckets). cbn [sum_Z]. lia.
Qed.

Lemma percentile_index_some target : forall buckets cumulative i, (forall m, m ∈ buckets -> 0 <= m) -> 0 <= cumulative -> cumulative + sum_Z buckets < 2 ^ 63 ->
  buckets <> [] -> target <= cumulative + sum_Z buckets -> exists j, percentile_index target cumulative i buckets = Some j.
Proof.
  induction buckets as [| n buckets IH]; intros cumulative i Hb Hc Hmax Hne Ht; [done |]. cbn [percentile_index sum_Z] in *.
  pose proof (Hb n ltac:(left)) as Hn. assert (Hrest : forall m, m ∈ buckets -> 0 <= m) by (intros; apply Hb; by right).
  pose proof (sum_Z_nonneg buckets Hrest) as Hnn.
  rewrite wrap64_id by (unfold int64_ok, int64_min, int64_max; lia). destruct (Z.leb_spec target (cumulative + n)) as [Hle | Hgt]; [by eexists |].
  apply IH; [done | lia | lia | | lia]. intros ->. cbn in Ht. lia.
Qed.
End Histograms.

(** ** Every record is compared once *)
Section Compared.
Context `{Unicode, Logarithm, FloatToInt}.

Record compared (n : Z) (a : comparisonAggregate) : Prop := {
  cp_current : exists k, dist_ok k (ca_current a) /\ 0 <= k /\ 0 <= ca_missingCurrent a /\ k + ca_missingCurrent a = n;
  cp_candidate : exists k, dist_ok k (ca_candidate a) /\ 0 <= k /\ 0 <= ca_missingCandidate a /\ k + ca_missingCandidate a = n
}.

Lemma new_aggregate_compared : compared 0 new_aggregate.
Proof. split; exists 0; (split; [apply new_distribution_ok | done]). Qed.

Lemma add_scores_compared n x y a : compared n a -> 0 <= n < 2 ^ 63 - 1 -> compared (n + 1) (add_scores x y a).
Proof.
  intros [(k & Hk & Hk0 & Hm & Hs) (l & Hl & Hl0 & Hm' & Hs')] Hn. unfold add_scores.
  assert (Hw : forall z, 0 <= z <= n -> wrap64 (z + 1) = z + 1) by (intros z Hz; apply wrap64_id; unfold int64_ok, int64_min, int64_max; lia).
  destruct (rs_Found x), (rs_Found y); cbv zeta; cbn [ca_current ca_candidate ca_missingCurrent ca_missingCandidate]; split; cbn [ca_current ca_candidate ca_missingCurrent ca_missingCandidate];
    first [ exists (k + 1); split; [apply dist_add_ok; [done | lia] | lia] | exists k; rewrite Hw by lia; split; [done | lia]
          | exists (l + 1); split; [apply dist_add_ok; [done | lia] | lia] | exists l; rewrite Hw by lia; split; [done | lia] ].
Qed.

Definition included_for (host : gostring) (recs : list LogRecord) : list LogRecord :=
  List.filter (fun rec => match Eligible rec with FilterIncluded => of_host host rec | _ => false end) recs.

Definition compare_all (current candidate : Model) (required : list gostring) (recs : list LogRecord) : Comparator :=
  fold_left (fun c rec => Comparator_Add rec c) recs (SetRequired required (NewComparator current candidate)).

Lemma Comparator_Add_keeps rec c : cm_Current (Comparator_Add rec c) = cm_Current c /\ cm_Candidate (Comparator_Add rec c) = cm_Candidate c /\ cm_required (Comparator_Add rec c) = cm_required c.
Proof. unfold Comparator_Add. by destruct (Eligible rec). Qed.

Lemma included_for_snoc host recs rec : included_for host (recs ++ [rec]) =
  included_for host recs ++ (match Eligible rec with FilterIncluded => if of_host host rec then [rec] else [] | _ => [] end).
Proof. unfold included_for. rewrite List.filter_app. cbn. by destruct (Eligible rec). Qed.

Lemma compare_all_counts current candidate required recs host : Z.of_nat (length recs) < 2 ^ 63 - 1 ->
  let c := compare_all current candidate required recs in
  cm_Current c = current /\ cm_Candidate c = candidate /\ cm_required c = cm_required (SetRequired required (NewComparator current candidate)) /\
  compared (Z.of_nat (length (included_for host recs))) (default new_aggregate (cm_domains c !! host)).
Proof.
  induction recs as [| rec recs IH] using rev_ind; intros Hl.
  { cbn. rewrite lookup_empty. split; [done | split; [done | split; [done |]]]. apply new_aggregate_compared. }
  rewrite length_app in Hl. cbn [length] in Hl. destruct (IH ltac:(lia)) as (Hcur & Hcand & Hreq & Hcmp). unfold compare_all in *. cbv zeta. rewrite fold_left_app. cbn [fold_left].
  set (c := fold_left _ recs _) in *. destruct (Comparator_Add_keeps rec c) as (-> & -> & ->). split; [done | split; [done | split; [done |]]].
  rewrite included_for_snoc. unfold Comparator_Add. destruct (Eligible rec) eqn:Ee; cbn [cm_domains]; rewrite ?app_nil_r; try done.
  unfold of_host. case_bool_decide as Eh.
  - rewrite Eh, lookup_insert_eq, length_app. cbn [length default]. replace (Z.of_nat (_ + 1)) with (Z.of_nat (length (included_for host recs)) + 1) by lia.
    apply add_scores_compared; [done |]. pose proof (filter_length_le (fun rec => match Eligible rec with FilterIncluded => of_host host rec | _ => false end) recs) as Hf.
    fold (included_for host recs) in Hf. lia.
  - rewrite lookup_insert_ne by done. by rewrite app_nil_r.
Qed.
End Compared.

(** ** The reference: statistics of the list of scores *)
Section Reference.
Context `{Unicode, Logarithm, FloatToInt}.

(** The records' scores by a model, where it scores them, clamped to [0, 1]. *)
Definition found_scores (m : Model) (host : gostring) (recs : list LogRecord) : list float :=
  omap (fun rec =>
    let r := Score m host (l_Method rec) (DecodePath (RequestPath (l_URI rec))) (DecodeQuery (RequestQuery (l_URI rec))) (l_UserAgent rec) in
    if rs_Found r then Some (Min (f64 1) (Max (f64 0) (rs_Score r))) else None) (included_for host recs).

Definition mean_score (l : list float) : float :=
  if decide (l = []) then f64 0 else fdiv (fold_left fadd l (f64 0)) (f64 (Z.of_nat (length l))).

(** The hundredth a score rounds to, and how many scores round to at most [i]. *)
Definition hundredths (score : float) : Z :=
  let x := fmul score (f64 100) in Z.min 100 (Z.max 0 (int_or_other x (round_int x))).
Definition at_most (i : Z) (l : list float) : Z := Z.of_nat (length (List.filter (fun s => hundredths s <=? i) l)).

(** The first hundredth that 95% of the scores, rounded up, do not exceed. *)
Definition p95_score (l : list float) : float :=
  if decide (l = []) then f64 0 else
  let x := fmul (f64 (Z.of_nat (length l))) (fdiv (f64 95) (f64 100)) in
  match List.find (fun i => int_or_other x (ceil_int x) <=? at_most (Z.of_nat i) l) (seq 0 101) with
  | Some i => fdiv (f64 (Z.of_nat i)) (f64 100)
  | None => f64 1
  end.

Definition drift_within (limit a b : float) : Prop := fgt (Abs (fsub b a)) limit = false.

(** What the gate asks of a host. *)
Definition acceptable (current candidate : Model) (required : list gostring) (minRequests : Z) (maxMean maxP95 : float)
  (recs : list LogRecord) (host : gostring) : Prop :=
  let n := Z.of_nat (length (included_for host recs)) in
  let cur := found_scores current host recs in
  let cand := found_scores candidate host recs in
  let needed := required = [] \/ host ∈ map NormalizeHost required in
  match mo_Domains current !! host, mo_Domains candidate !! host with
  | None, Some _ => True
  | Some _, None => needed -> 0 < n < minRequests
  | None, None => needed -> n < minRequests
  | Some _, Some _ =>
    (cur = [] /\ cand = []) \/
    (minRequests <= Z.of_nat (length cur) /\ minRequests <= Z.of_nat (length cand) /\ Z.of_nat (length cand) = n /\
     drift_within maxMean (mean_score cur) (mean_score cand) /\ drift_within maxP95 (p95_score cur) (p95_score cand))
  end.
End Reference.

(** ** The histogram of a list of scores *)
Section HistogramOf.
Context `{FloatToInt}.

Definition in_bucket (i : nat) (l : list float) : Z := Z.of_nat (length (List.filter (fun s => bool_decide (bucket_of s = i)) l)).

Record dist_of (l : list float) (d : scoreDistribution) : Prop := {
  df_count : sd_count d = Z.of_nat (length l);
  df_sum : sd_sum d = fold_left fadd l (f64 0);
  df_buckets : sd_buckets d = map (fun i => in_bucket i l) (seq 0 comparisonBuckets)
}.

Lemma new_distribution_of : dist_of [] new_distribution.
Proof. by split. Qed.

Lemma in_bucket_snoc i l x : in_bucket i (l ++ [x]) = in_bucket i l + (if decide (bucket_of x = i) then 1 else 0).
Proof. unfold in_bucket. rewrite List.filter_app, length_app. cbn. case_bool_decide; case_decide; try done; cbn; lia. Qed.

Lemma filter_le {A} (f : A -> bool) (l : list A) : (length (List.filter f l) <= length l)%nat.
Proof. induction l as [| x l IH]; cbn; [done |]. destruct (f x); cbn; lia. Qed.

Lemma in_bucket_le i l : 0 <= in_bucket i l <= Z.of_nat (length l).
Proof. unfold in_bucket. pose proof (filter_le (fun s => bool_decide (bucket_of s = i)) l). lia. Qed.

Lemma dist_add_of l score d : Z.of_nat (length l) < 2 ^ 63 - 1 -> dist_of l d ->
  dist_of (l ++ [Min (f64 1) (Max (f64 0) score)]) (dist_add score d).
Proof.
  intros Hl [Hc Hs Hb]. set (x := Min _ _). split; unfold dist_add; fold x; cbn [sd_count sd_sum sd_buckets].
  - rewrite Hc, length_app, wrap64_id; [cbn; lia |]. unfold int64_ok, int64_min, int64_max. lia.
  - by rewrite fold_left_app, Hs.
  - rewrite Hb. apply list_eq. intros j.
    destruct (decide (j < comparisonBuckets)%nat) as [Hj |].
    + assert (Hg : forall f : nat -> Z, map f (seq 0 comparisonBuckets) !! j = Some (f j)).
      { intros f. rewrite list_lookup_fmap, lookup_seq_lt by done. done. }
      rewrite (Hg (fun i => in_bucket i (l ++ [x]))), in_bucket_snoc. destruct (decide (bucket_of x = j)) as [<- | Hne].
      * rewrite list_lookup_alter_eq, (Hg (fun i => in_bucket i l)). cbn. f_equal. apply wrap64_id. pose proof (in_bucket_le (bucket_of x) l). unfold int64_ok, int64_min, int64_max. lia.
      * rewrite list_lookup_alter_ne by done. rewrite (Hg (fun i => in_bucket i l)). f_equal. lia.
    + rewrite !lookup_ge_None_2; [done | | ]; rewrite ?length_alter, length_map, length_seq; lia.
Qed.

(** The buckets up to one add up to the scores that round to at most it. *)
Lemma at_most_step i l : at_most (Z.of_nat (S i)) l = at_most (Z.of_nat i) l + in_bucket (S i) l.
Proof.
  unfold at_most, in_bucket. induction l as [| x l IH]; [done |]. cbn [List.filter].
  assert (Hx : Z.of_nat (bucket_of x) = hundredths x) by (unfold bucket_of, hundredths; lia).
  case_bool_decide as E; destruct (Z.leb_spec (hundredths x) (Z.of_nat (S i))), (Z.leb_spec (hundredths x) (Z.of_nat i)); cbn [length]; lia.
Qed.
Lemma at_most_first l : at_most 0 l = in_bucket 0 l.
Proof.
  unfold at_most, in_bucket. do 2 f_equal. induction l as [| x l IH]; [done |]. cbn [List.filter].
  assert (Hx : Z.of_nat (bucket_of x) = hundredths x) by (unfold bucket_of, hundredths; lia).
  case_bool_decide as E; destruct (Z.leb_spec (hundredths x) 0); rewrite ?IH; (done || lia).
Qed.
Lemma at_most_le i l : 0 <= at_most i l <= Z.of_nat (length l).
Proof. unfold at_most. pose proof (filter_le (fun s => hundredths s <=? i) l). lia. Qed.

Lemma percentile_index_find target l : Z.of_nat (length l) < 2 ^ 63 -> forall k i cumulative,
  cumulative + in_bucket i l = at_most (Z.of_nat i) l ->
  percentile_index target cumulative i (map (fun i => in_bucket i l) (seq i k)) =
  List.find (fun i => target <=? at_most (Z.of_nat i) l) (seq i k).
Proof.
  intros Hl. induction k as [| k IH]; intros i cumulative Hc; [done |]. cbn [seq map percentile_index List.find].
  pose proof (at_most_le (Z.of_nat i) l) as Ha. rewrite Hc, wrap64_id by (unfold int64_ok, int64_min, int64_max; lia).
  case_match; [done |]. apply IH. by rewrite at_most_step.
Qed.

Lemma dist_result_of l d : Z.of_nat (length l) < 2 ^ 63 -> dist_of l d ->
  di_Count (dist_result d) = Z.of_nat (length l) /\ di_Mean (dist_result d) = mean_score l /\ di_P95 (dist_result d) = p95_score l.
Proof.
  intros Hl [Hc Hs Hb]. unfold dist_result, mean_score, p95_score. rewrite Hc. destruct l as [| x l']; [done |]. set (l := x :: l') in *.
  rewrite (proj2 (Z.eqb_neq _ _)) by (cbn; lia). rewrite !decide_False by done. cbn [di_Count di_Mean di_P95].
  split; [done | split; [by rewrite Hs |]]. unfold percentile. rewrite Hb, Hc.
  rewrite (percentile_index_find _ l Hl comparisonBuckets 0 0) by (by rewrite at_most_first). done.
Qed.
End HistogramOf.

(** ** What the gate asks of a host *)
Section Gate.
Context `{Unicode, Logarithm, FloatToInt}.

(** The aggregate of the records compared for a host. *)
Record aggregates (cur cand : list float) (n : Z) (a : comparisonAggregate) : Prop := {
  ag_current : dist_of cur (ca_current a);
  ag_candidate : dist_of cand (ca_candidate a);
  ag_missingCurrent : ca_missingCurrent a = n - Z.of_nat (length cur);
  ag_missingCandidate : ca_missingCandidate a = n - Z.of_nat (length cand);
  ag_range : Z.of_nat (length cur) <= n /\ Z.of_nat (length cand) <= n
}.

Definition scored (r : ScoreResult) : list float := if rs_Found r then [Min (f64 1) (Max (f64 0) (rs_Score r))] else [].

Lemma add_scores_aggregates cur cand n x y a : n < 2 ^ 63 - 1 -> aggregates cur cand n a ->
  aggregates (cur ++ scored x) (cand ++ scored y) (n + 1) (add_scores x y a).
Proof.
  intros Hn [Hu Hd Hmu Hmd [Hru Hrd]]. unfold add_scores, scored.
  assert (Hw : forall z, 0 <= z <= n -> wrap64 (z + 1) = z + 1) by (intros z Hz; apply wrap64_id; unfold int64_ok, int64_min, int64_max; lia).
  destruct (rs_Found x), (rs_Found y); cbv zeta; constructor; cbn [ca_current ca_candidate ca_missingCurrent ca_missingCandidate];
    rewrite ?app_nil_r, ?length_app; cbn [length]; rewrite ?Hmu, ?Hmd, ?Hw by lia;
    first [done | apply dist_add_of; [lia | done] | lia].
Qed.

Lemma found_scores_snoc m host recs rec : found_scores m host (recs ++ [rec]) = found_scores m host recs ++
  (match Eligible rec with FilterIncluded => if of_host host rec then scored (score_record m host rec) else [] | _ => [] end).
Proof.
  unfold found_scores. rewrite included_for_snoc, omap_app. f_equal. unfold scored, score_record.
  destruct (Eligible rec); cbn [omap list_omap]; try done. destruct (of_host host rec); cbn [omap list_omap]; [| done]. by destruct (rs_Found _).
Qed.

Lemma compare_all_aggregates current candidate required recs host : Z.of_nat (length recs) < 2 ^ 63 - 1 ->
  let c := compare_all current candidate required recs in
  (is_Some (cm_domains c !! host) <-> included_for host recs <> []) /\
  aggregates (found_scores current host recs) (found_scores candidate host recs) (Z.of_nat (length (included_for host recs)))
    (default new_aggregate (cm_domains c !! host)).
Proof.
  induction recs as [| rec recs IH] using rev_ind; intros Hl.
  { cbn. rewrite lookup_empty. split; [split; [by intros [] | done] |]. constructor; try done; apply new_distribution_of. }
  rewrite length_app in Hl. cbn [length] in Hl. destruct (IH ltac:(lia)) as [Hdom Hag].
  destruct (compare_all_counts current candidate required recs host ltac:(lia)) as (Hcur & Hcand & _ & _).
  unfold compare_all in *. cbv zeta. rewrite fold_left_app. cbn [fold_left]. set (c := fold_left _ recs _) in *.
  rewrite !found_scores_snoc, included_for_snoc. unfold Comparator_Add. destruct (Eligible rec) eqn:Ee; cbn [cm_domains]; rewrite ?app_nil_r; try done.
  unfold of_host. case_bool_decide as Eh; [| rewrite lookup_insert_ne by done; by rewrite !app_nil_r].
  rewrite Eh, lookup_insert_eq, Hcur, Hcand, length_app. cbn [length default]. split.
  - split; [intros _; by destruct (included_for host recs) | by eexists].
  - replace (Z.of_nat (_ + 1)) with (Z.of_nat (length (included_for host recs)) + 1) by lia. apply add_scores_aggregates; [| done].
    pose proof (filter_length_le (fun rec => match Eligible rec with FilterIncluded => of_host host rec | _ => false end) recs) as Hf.
    fold (included_for host recs) in Hf. lia.
Qed.

Lemma coverage_needed c required current candidate host :
  cm_required c = cm_required (SetRequired required (NewComparator current candidate)) ->
  coverageRequired c host = true <-> (required = [] \/ host ∈ map NormalizeHost required).
Proof.
  intros Hr. unfold coverageRequired. rewrite Hr. cbn [cm_required SetRequired]. destruct required as [| h hosts]; [by split; [left |] |].
  rewrite bool_decide_eq_true, elem_of_list_to_set. split; [by right | by intros [|]].
Qed.

Lemma compare_host_passed c current candidate required minRequests maxMean maxP95 recs host :
  cm_Current c = current -> cm_Candidate c = candidate ->
  cm_required c = cm_required (SetRequired required (NewComparator current candidate)) ->
  aggregates (found_scores current host recs) (found_scores candidate host recs) (Z.of_nat (length (included_for host recs)))
    (default new_aggregate (cm_domains c !! host)) ->
  Z.of_nat (length (included_for host recs)) < 2 ^ 63 ->
  dc_Passed (compare_host c minRequests maxMean maxP95 host) = true <-> acceptable current candidate required minRequests maxMean maxP95 recs host.
Proof.
  intros Hcur Hcand Hreq [Hu Hd Hmu Hmd [Hru Hrd]] Hn. pose proof (coverage_needed c required current candidate host Hreq) as Hneed.
  unfold acceptable, compare_host. cbv zeta. rewrite Hcur, Hcand. set (a := default new_aggregate _) in *. set (n := Z.of_nat (length (included_for host recs))) in *.
  set (cur := found_scores current host recs) in *. set (cand := found_scores candidate host recs) in *.
  rewrite (df_count _ _ Hu), Hmu. replace (_ + (n - _)) with n by lia. rewrite wrap64_id by (unfold int64_ok, int64_min, int64_max; lia).
  destruct (dist_result_of cur (ca_current a) ltac:(lia) Hu) as (Cu & Mu & Pu). destruct (dist_result_of cand (ca_candidate a) ltac:(lia) Hd) as (Cd & Md & Pd).
  destruct (mo_Domains current !! host) as [dc |], (mo_Domains candidate !! host) as [dn |];
    rewrite ?(bool_decide_eq_true_2 (is_Some (Some _))), ?(bool_decide_eq_false_2 (is_Some None)) by (try (by eexists); by intros []);
    cbn [negb andb dc_Passed]; [| | done |].
  - rewrite Cu, Cd, Mu, Md, Pu, Pd, Hmd. unfold drift_within, exceeds.
    destruct cur as [| x cur'] eqn:Ecur, cand as [| y cand'] eqn:Ecand; [by split; [left |] | ..];
      (rewrite (proj2 (andb_false_iff _ _)) by (first [left; apply Z.eqb_neq; cbn; lia | right; apply Z.eqb_neq; cbn; lia]));
      cbn [dc_Passed]; rewrite bool_decide_eq_true;
      match goal with |- context [Z.of_nat ?x <? minRequests] => destruct (Z.ltb_spec (Z.of_nat x) minRequests) end;
      match goal with |- context [(_ || (Z.of_nat ?x <? minRequests)) ] => destruct (Z.ltb_spec (Z.of_nat x) minRequests) end;
      match goal with |- context [0 <? ?z] => destruct (Z.ltb_spec 0 z) end; destruct (fgt _ maxMean), (fgt _ maxP95);
      cbn [orb app]; (split; [intros E; first [done | right; split_ands; (done || lia)] | intros [[? ?] | (? & ? & ? & ? & ?)]; first [done | lia]]).
  - rewrite bool_decide_eq_true. destruct (coverageRequired c host); rewrite ?andb_false_r, ?andb_true_r; [| split; [intros _ Hx; by apply Hneed in Hx | done]].
    pose proof (proj1 Hneed eq_refl) as Hx.
    destruct (Z.eqb_spec n 0), (Z.leb_spec minRequests n); cbn [orb]; (split; [intros E; first [done | intros _; lia] | intros E; specialize (E Hx); first [done | lia]]).
  - rewrite bool_decide_eq_true. destruct (coverageRequired c host); rewrite ?andb_false_r, ?andb_true_r; [| split; [intros _ Hx; by apply Hneed in Hx | done]].
    pose proof (proj1 Hneed eq_refl) as Hx.
    destruct (Z.leb_spec minRequests n); (split; [intros E; first [done | intros _; lia] | intros E; specialize (E Hx); first [done | lia]]).
Qed.
End Gate.

(** * Properties *)

(** C32: the gate passes a candidate exactly when every domain of either model,
    and every host with included records, is acceptable.  A domain the candidate drops had some
    records but fewer than the floor, and a host neither model covers had fewer,
    unless other hosts are required and this one is not.  Of a domain both
    cover, either neither model scored a record (also when records came that
    neither could score: the gate skips the domain), or each model scored enough, the candidate every
    one, and the mean score and the 95th percentile, the first hundredth that
    95% of the scores do not exceed, each differ between the models by no more than the limit in
    either direction. *)
Theorem promotion_gate_exact `{Unicode, Logarithm, FloatToInt} current candidate required recs minRequests maxMean maxP95 generatedAt
  (Hl : Z.of_nat (length recs) < 2 ^ 63 - 1) :
  cr_Passed (Report (compare_all current candidate required recs) minRequests maxMean maxP95 generatedAt) = true <->
  forall host, is_Some (mo_Domains current !! host) \/ is_Some (mo_Domains candidate !! host) \/ included_for host recs <> [] ->
    acceptable current candidate required minRequests maxMean maxP95 recs host.
Proof.
  set (c := compare_all current candidate required recs). unfold Report. cbn [cr_Passed]. rewrite forallb_forall.
  destruct (compare_all_counts current candidate required recs [] Hl) as (Hcur & Hcand & Hreq & _). fold c in Hcur, Hcand, Hreq.
  assert (Hhost : forall host, dc_Passed (compare_host c minRequests maxMean maxP95 host) = true <->
    acceptable current candidate required minRequests maxMean maxP95 recs host).
  { intros host. destruct (compare_all_aggregates current candidate required recs host Hl) as [_ Ha]. fold c in Ha. apply compare_host_passed; try done.
    pose proof (filter_length_le (fun rec => match Eligible rec with FilterIncluded => of_host host rec | _ => false end) recs) as Hf.
    fold (included_for host recs) in Hf. lia. }
  assert (Hhosts : forall host, host ∈ merge_sort bytes_le (elements (report_hosts c)) <->
    is_Some (mo_Domains current !! host) \/ is_Some (mo_Domains candidate !! host) \/ included_for host recs <> []).
  { intros host. destruct (compare_all_aggregates current candidate required recs host Hl) as [Hd _]. fold c in Hd.
    rewrite (merge_sort_Permutation bytes_le), elem_of_elements. unfold report_hosts. rewrite Hcur, Hcand, !elem_of_union, !elem_of_dom, <- Hd. tauto. }
  split.
  - intros Hall host Hin. apply Hhost. apply (Hall (host, compare_host c minRequests maxMean maxP95 host)). apply in_map_iff. exists host. split; [done |].
    apply list_elem_of_In. by apply Hhosts.
  - intros Hall [host d] Hin. apply in_map_iff in Hin as (h & [= -> <-] & Hin). apply list_elem_of_In in Hin. cbn. by apply Hhost, Hall, Hhosts.
Qed.

(** every included record of a host is counted once for each model, with a
    score in one bucket of its histogram or as missing. *)
Theorem every_record_compared_once `{Unicode, Logarithm, FloatToInt} current candidate required recs host
  (Hl : Z.of_nat (length recs) < 2 ^ 63 - 1) :
  let a := default new_aggregate (cm_domains (compare_all current candidate required recs) !! host) in
  let n := Z.of_nat (length (included_for host recs)) in
  sum_Z (sd_buckets (ca_current a)) + ca_missingCurrent a = n /\ sum_Z (sd_buckets (ca_candidate a)) + ca_missingCandidate a = n /\
  sd_count (ca_current a) = sum_Z (sd_buckets (ca_current a)) /\ sd_count (ca_candidate a) = sum_Z (sd_buckets (ca_candidate a)).
Proof.
  destruct (compare_all_counts current candidate required recs host Hl) as (_ & _ & _ & [(k & Hk & _ & _ & Hs) (l & Hl' & _ & _ & Hs')]). cbv zeta.
  rewrite (do_sum _ _ Hk), (do_sum _ _ Hl'), (do_count _ _ Hk), (do_count _ _ Hl'). done.
Qed.

(** a reported percentile is the least bucket at which the scores up to
    it reach the target number. *)
Theorem percentile_is_least_bucket `{FloatToInt} n d q (Hd : dist_ok n d) (Hn : 0 <= n < 2 ^ 63) (Ht : percentile_target q (sd_count d) <= n) :
  exists i, (i < comparisonBuckets)%nat /\ percentile q d = fdiv (f64 (Z.of_nat i)) (f64 100) /\
  percentile_target q (sd_count d) <= sum_Z (take (S i) (sd_buckets d)) /\
  forall k, (k < i)%nat -> sum_Z (take (S k) (sd_buckets d)) < percentile_target q (sd_count d).
Proof.
  set (target := percentile_target q (sd_count d)) in *.
  destruct (percentile_index_some target (sd_buckets d) 0 0 (do_nonneg _ _ Hd) ltac:(done)) as [i Hi].
  - rewrite (do_sum _ _ Hd). lia.
  - intros E. pose proof (do_length _ _ Hd) as Hlen. by rewrite E in Hlen.
  - by rewrite (do_sum _ _ Hd).
  - destruct (percentile_index_spec target (sd_buckets d) 0 0 i (do_nonneg _ _ Hd) ltac:(done)) as (_ & Hreach & Hless); [rewrite (do_sum _ _ Hd); lia | done |].
    rewrite Nat.sub_0_r in Hreach, Hless. exists i. unfold percentile. fold target. rewrite Hi. split; [| split; [done | split; [done |]]].
    + assert (Hlt : forall buckets c j, percentile_index target c j buckets = Some i -> (i < j + length buckets)%nat).
      { clear. induction buckets as [| b buckets IH]; intros c j; [done |]. cbn. case_match; [intros [= <-]; lia |]. intros Hp%IH. lia. }
      specialize (Hlt _ _ _ Hi). by rewrite (do_length _ _ Hd) in Hlt.
    + intros k Hk. by apply Hless.
Qed.

(** ** Concrete runs *)
Module Ex.
#[export] Existing Instance ascii_only.
#[export] Existing Instance Anomaly.Ex.floor_log.
#[export] Instance saturating : FloatToInt := {| int_unrepresentable _ := int64_min |}.

Definition current : Model := Anomaly.Ex.loaded.
Definition nothing : Model := mk_model 2 FeatureSchema (Some 2) ∅.
Definition recs : list LogRecord := Segments.Ex.log.
Definition limit : float := fdiv (f64 10) (f64 100).
Definition passed (candidate : Model) (required : list gostring) (minRequests : Z) : bool :=
  cr_Passed (Report (compare_all current candidate required recs) minRequests limit limit []).

(** The same model passes; dropping the busy domain fails, unless only another
    one is required; below the floor it passes. *)
Example same_model_passes : passed current [] 2 = true.
Proof. vm_compute. reflexivity. Qed.
Example dropped_domain_fails : passed nothing [] 2 = false /\ passed nothing [lit "other.org"] 2 = true /\ passed nothing [] 7 = true.
Proof. vm_compute. done. Qed.

(** The gate passes the current model against itself, so its scores do not drift;
    and it refuses a model without the busy domain. *)
Lemma promotion_gate_exact_witness :
  (length (found_scores current (lit "example.com") recs) = 6%nat /\
   drift_within limit (p95_score (found_scores current (lit "example.com") recs)) (p95_score (found_scores current (lit "example.com") recs))) /\
  ~ forall host, is_Some (mo_Domains current !! host) \/ is_Some (mo_Domains nothing !! host) \/ included_for host recs <> [] ->
      acceptable current nothing [] 2 limit limit recs host.
Proof.
  assert (Hlen : Z.of_nat (length recs) < 2 ^ 63 - 1) by (vm_compute; reflexivity).
  assert (Hsix : length (found_scores current (lit "example.com") recs) = 6%nat) by (vm_compute; reflexivity).
  split; [split; [exact Hsix |] |].
  - assert (Hp : cr_Passed (Report (compare_all current current [] recs) 2 limit limit []) = true) by (vm_compute; reflexivity).
    assert (Hd : is_Some (mo_Domains current !! lit "example.com")) by (vm_compute; eexists; reflexivity).
    pose proof (proj1 (promotion_gate_exact current current [] recs 2 limit limit [] Hlen) Hp (lit "example.com") (or_introl Hd)) as Ha.
    unfold acceptable in Ha. destruct Hd as [dm Hd]. rewrite Hd in Ha.
    destruct Ha as [[He _] | (_ & _ & _ & _ & Hp95)]; [rewrite He in Hsix; discriminate Hsix | exact Hp95].
  - intros Hall. pose proof (proj2 (promotion_gate_exact current nothing [] recs 2 limit limit [] Hlen) Hall) as Hp.
    revert Hp. vm_compute. discriminate.
Defined.

Lemma every_record_compared_once_witness :
  let a := default new_aggregate (cm_domains (compare_all current nothing [] recs) !! lit "example.com") in
  sum_Z (sd_buckets (ca_current a)) + ca_missingCurrent a = 6.
Proof.
  exact (proj1 (every_record_compared_once current nothing [] recs (lit "example.com") ltac:(vm_compute; reflexivity))).
Defined.

Definition three : scoreDistribution := dist_add (f64 1) (dist_add limit (dist_add (f64 0) new_distribution)).
Example three_median : percentile q50 three = limit.
Proof. vm_compute. reflexivity. Qed.

Lemma percentile_is_least_bucket_witness : exists i, (i < comparisonBuckets)%nat /\ percentile q50 three = fdiv (f64 (Z.of_nat i)) (f64 100).
Proof.
  assert (Hd : dist_ok 3 three) by exact (dist_add_ok 2 _ _ (dist_add_ok 1 _ _ (dist_add_ok 0 _ _ new_distribution_ok ltac:(lia)) ltac:(lia)) ltac:(lia)).
  assert (Ht : percentile_target q50 (sd_count three) <= 3) by (vm_compute; discriminate).
  destruct (percentile_is_least_bucket 3 three q50 Hd ltac:(lia) Ht) as (i & Hi & Hp & _). exists i. split; [exact Hi | exact Hp].
Defined.
End Ex.
