(* ===== verification/Stateless.v ===== *)
(** * Store-free request checks (core/stateless/stateless.go)

    The request and decision values, static allow- and denylists, honeypot
    paths, the input of the WAF rules, and the evaluator the WASM guest runs. *)

From S2P Require Export IpSet Waf.

(** ** Values *)
Record RequestContext := mk_req {
  q_Host : gostring;
  q_Method : gostring;
  q_URI : gostring;
  q_RemoteAddr : gostring;
  q_UserAgent : gostring;
  q_Cookie : gostring;
  q_Header : option (gostring -> list gostring);    (* nil: headers unavailable *)
  q_Unchallengeable : bool
}.

Inductive Action := ActionAllow | ActionChallenge | ActionDeny | ActionRefuse.

#[global] Instance decision_action_eq_dec : EqDecision Action.
Proof. solve_decision. Defined.

Record Event := mk_event { ev_Type : gostring; ev_Detail : gostring }.

Definition EventRuleMatch : gostring := lit "rule_match".
Definition EventAnomaly : gostring := lit "anomaly".
Definition EventInstantBlock : gostring := lit "instant_block".
Definition EventBotSpoof : gostring := lit "bot_spoof".

Record Decision := mk_decision {
  d_Action : Action;
  d_Difficulty : Z;
  d_Reason : gostring;
  d_PoWExemption : gostring;
  d_Events : list Event
}.

Definition decide_as (a : Action) (reason : gostring) (events : list Event) : Decision := mk_decision a 0 reason [] events.
Definition with_exemption (x : gostring) (d : Decision) : Decision := mk_decision (d_Action d) (d_Difficulty d) (d_Reason d) x (d_Events d).

(** ** Lists *)
Record ListConfig := mk_list { l_Paths : list gostring; l_prefixes : list Prefix; l_uasLower : list gostring }.

Inductive list_error := InvalidCIDR (s : gostring) | InvalidIP (s : gostring) | EmptyUA | BadPath (p : gostring) (e : path_error).

Definition Prefixes (l : ListConfig) : list Prefix := l_prefixes l.

Definition MatchIP (l : ListConfig) (a : addr) : bool := existsb (fun p => prefix_Contains p (Unmap a)) (l_prefixes l).

Definition MatchUALower (l : ListConfig) (lower : gostring) : bool :=
  if bool_decide (lower = []) then false else existsb (fun needle => Contains needle lower) (l_uasLower l).

Definition MatchPath (l : ListConfig) (path : gostring) : bool := MatchPathList (l_Paths l) path.

Record HoneypotConfig := mk_honeypot { hp_Enabled : bool; hp_Paths : list gostring }.

Section Stateless.
Context `{Unicode, Regexp}.
Open Scope go_scope.

Fixpoint compile_ips (ips : list gostring) (acc : list Prefix) : outcome list_error (list Prefix) :=
  match ips with
  | [] => Ok acc
  | s :: rest =>
    if contains "/"%char s then
      match ParsePrefix s with None => Err (InvalidCIDR s) | Some p => compile_ips rest (acc ++ [Masked p]) end
    else
      match ParseAddr s with None => Err (InvalidIP s) | Some a => compile_ips rest (acc ++ [PrefixFrom a (BitLen a)]) end
  end.

Fixpoint compile_uas (uas acc : list gostring) : outcome list_error (list gostring) :=
  match uas with
  | [] => Ok acc
  | ua :: rest => let ua := TrimSpace ua in
                  if bool_decide (ua = []) then Err EmptyUA else compile_uas rest (acc ++ [ToLower ua])
  end.

Fixpoint compile_paths (paths : list gostring) : outcome list_error unit :=
  match paths with
  | [] => Ok tt
  | p :: rest => match ValidateMatchPath p with Some e => Err (BadPath p e) | None => compile_paths rest end
  end.

Definition CompileList (ips uas paths : list gostring) : outcome list_error ListConfig :=
  let! prefixes := compile_ips ips [] in
  let! uasLower := compile_uas uas [] in
  let! _ := compile_paths paths in
  Ok (mk_list paths prefixes uasLower).

Definition Validate_honeypot (hp : HoneypotConfig) : option list_error :=
  match compile_paths (hp_Paths hp) with Ok _ => None | Err e => Some e end.

(** ** The request *)
Definition NormalizedPath (r : RequestContext) : gostring := NormalizePath (RequestPath (q_URI r)).
Definition LowerUA (r : RequestContext) : gostring := if bool_decide (q_UserAgent r = []) then [] else ToLower (q_UserAgent r).
Definition HeaderValues (r : RequestContext) (name : gostring) : list gostring :=
  match q_Header r with None => [] | Some f => f name end.

(** ** Checks *)
Definition match_ip (l : ListConfig) (remote : gostring) : bool :=
  match ParseAddr remote with Some a => MatchIP l a | None => false end.

Definition MatchAllowlist (r : RequestContext) (l : ListConfig) : gostring :=
  if MatchPath l (NormalizedPath r) then lit "allowlist:path"
  else if match_ip l (q_RemoteAddr r) then lit "allowlist:ip"
  else if MatchUALower l (LowerUA r) then lit "allowlist:ua"
  else [].

Definition staticDenyEvents : list Event := [mk_event (lit "deny") (lit "static denylist hit")].
Definition denylistIP : Decision := decide_as ActionDeny (lit "denylist:ip") staticDenyEvents.
Definition denylistUA : Decision := decide_as ActionDeny (lit "denylist:ua") staticDenyEvents.
Definition denylistPath : Decision := decide_as ActionDeny (lit "denylist:path") staticDenyEvents.
Definition honeypotHit : Decision := decide_as ActionDeny (lit "honeypot:path") [mk_event EventInstantBlock (lit "honeypot:path")].

Definition CheckDenylist (r : RequestContext) (l : ListConfig) : option Decision :=
  if match_ip l (q_RemoteAddr r) then Some denylistIP
  else if MatchUALower l (LowerUA r) then Some denylistUA
  else if MatchPath l (NormalizedPath r) then Some denylistPath
  else None.

Definition CheckHoneypot (r : RequestContext) (hp : HoneypotConfig) : option Decision :=
  if negb (hp_Enabled hp) || is_nil (hp_Paths hp) then None
  else if MatchPathList (hp_Paths hp) (NormalizedPath r) then Some honeypotHit else None.

(** The values of one header added to the map. *)
Definition add_values (name : gostring) (vs : list gostring) (h : gmap gostring (list gostring)) : gmap gostring (list gostring) :=
  fold_left (fun h v => if bool_decide (v = []) then h
                        else <[name := header_values h name ++ [ToLower (DecodePath v)]]> h) vs h.

Definition BuildMatchInput (r : RequestContext) (rs : RuleSet) : MatchInput :=
  mk_input
    (if rs_needsMethod rs then ToUpper (q_Method r) else [])
    (ToLower (DecodePath (RequestPath (q_URI r))))
    (ToLower (DecodeQuery (RequestQuery (q_URI r))))
    (LowerUA r)
    (if negb (is_nil (rs_headerTargets rs)) && negb (bool_decide (q_Header r = None))
     then fold_left (fun h name => add_values name (HeaderValues r name) h) (rs_headerTargets rs) ∅ else ∅).

(** ** The guest's evaluator *)
Record DomainRules := mk_rules {
  dr_Allowlist : ListConfig;
  dr_Denylist : ListConfig;
  dr_Honeypot : HoneypotConfig;
  dr_RulesEnabled : bool;
  dr_Rules : option RuleSet
}.

Definition waf_reason (r : Rule) : gostring := lit "waf:" ++ r_ID r.

Definition evalRules (r : RequestContext) (dr : DomainRules) (exempt : bool) : option Decision :=
  match (if dr_RulesEnabled dr then dr_Rules dr else None) with
  | None => None
  | Some rs =>
    rule ← MatchEnforcing rs (BuildMatchInput r rs) exempt;
    if bool_decide (r_Action rule = Waf.ActionAllow) then Some (decide_as ActionAllow (waf_reason rule) [])
    else Some (decide_as ActionDeny (waf_reason rule)
                 [mk_event (if bool_decide (r_Action rule = Waf.ActionBlock) then EventInstantBlock else EventRuleMatch) (r_ID rule)])
  end.

Definition Evaluate (r : RequestContext) (dr : DomainRules) : Decision :=
  let exemption := MatchAllowlist r (dr_Allowlist dr) in
  let d :=
    match CheckDenylist r (dr_Denylist dr) with
    | Some d => d
    | None =>
      match CheckHoneypot r (dr_Honeypot dr) with
      | Some d => d
      | None =>
        match evalRules r dr (negb (bool_decide (exemption = []))) with
        | Some d => d
        | None => decide_as ActionAllow (lit "default") []
        end
      end
    end in
  with_exemption exemption d.

Definition ClientIP (a : gostring) : gostring :=
  if bool_decide (a = []) then []
  else match SplitHostPort a with
       | Some (host, _) => host
       | None => let trimmed := Trim (lit "[]") a in match ParseAddr trimmed with Some _ => trimmed | None => a end
       end.
End Stateless.

(** ** The hints lose nothing *)
Section Hints.
Context `{Unicode, Regexp}.

(** What a rule sees of a header. *)
Definition seen_values (vs : list gostring) : list gostring := map (fun v => ToLower (DecodePath v)) (List.filter (fun v => negb (bool_decide (v = []))) vs).

(** The input with every header of [names] and the method fetched. *)
Definition full_input (r : RequestContext) (names : list gostring) : MatchInput :=
  mk_input (ToUpper (q_Method r)) (ToLower (DecodePath (RequestPath (q_URI r)))) (ToLower (DecodeQuery (RequestQuery (q_URI r)))) (LowerUA r)
    (list_to_map (map (fun n => (n, seen_values (HeaderValues r n))) names)).

Lemma add_values_lookup name vs : forall h n, header_values (add_values name vs h) n =
  if bool_decide (n = name) then header_values h n ++ seen_values vs else header_values h n.
Proof.
  unfold add_values, seen_values. induction vs as [| v vs IH]; intros h n; cbn [fold_left List.filter map].
  - destruct (bool_decide _); [by rewrite app_nil_r | done].
  - destruct (bool_decide (v = [])); cbn [negb]; [apply IH |]. rewrite IH. cbn [map].
    destruct (decide (n = name)) as [-> | Hne]; [rewrite !bool_decide_eq_true_2 by done | by rewrite !bool_decide_eq_false_2; [unfold header_values; rewrite lookup_insert_ne |..]].
    assert (Hh : forall x, header_values (<[name := x]> h) name = x) by (intros x; unfold header_values; by rewrite lookup_insert_eq).
    rewrite Hh. by rewrite <- app_assoc.
Qed.

Lemma add_all_lookup r names : forall h n, NoDup names -> header_values (fold_left (fun h name => add_values name (HeaderValues r name) h) names h) n =
  if bool_decide (n ∈ names) then header_values h n ++ seen_values (HeaderValues r n) else header_values h n.
Proof.
  induction names as [| name names IH]; intros h n Hn; cbn [fold_left].
  - by rewrite bool_decide_eq_false_2 by apply not_elem_of_nil.
  - apply NoDup_cons in Hn as [Hni Hn]. rewrite IH, add_values_lookup by done.
    destruct (decide (n = name)) as [-> | Hne].
    + rewrite (bool_decide_eq_false_2 (name ∈ names)), bool_decide_eq_true_2, bool_decide_eq_true_2 by (done || by left). done.
    + rewrite (bool_decide_eq_false_2 (n = name)) by done.
      assert (bool_decide (n ∈ name :: names) = bool_decide (n ∈ names)) as -> by (apply bool_decide_ext; rewrite elem_of_cons; naive_solver). done.
Qed.

Lemma NoDup_add_unique x l : NoDup l -> NoDup (add_unique x l).
Proof.
  intros Hl. unfold add_unique. case_bool_decide as Hx; [done |]. apply NoDup_app. split_ands; [done | | apply NoDup_singleton].
  intros y Hy ->%list_elem_of_singleton. done.
Qed.

Lemma header_union_NoDup rules : NoDup (header_union rules).
Proof.
  unfold header_union. assert (Hg : forall acc, NoDup acc -> NoDup (fold_left (fun acc r => fold_left (fun acc name => add_unique name acc) (r_headers r) acc) rules acc)); [| apply Hg, NoDup_nil_2].
  induction rules as [| r rules IH]; intros acc Ha; cbn [fold_left]; [done |]. apply IH. revert acc Ha.
  induction (r_headers r) as [| n ns IHn]; intros acc Ha; cbn [fold_left]; [done |]. apply IHn. by apply NoDup_add_unique.
Qed.

Lemma full_input_header r names n : NoDup names -> header_values (in_Headers (full_input r names)) n =
  if bool_decide (n ∈ names) then seen_values (HeaderValues r n) else [].
Proof.
  intros Hn. unfold full_input, header_values. cbn [in_Headers]. case_bool_decide as Hin.
  - erewrite elem_of_list_to_map_1; [reflexivity | by rewrite map_map, map_id |].
    apply list_elem_of_fmap. by exists n.
  - rewrite not_elem_of_list_to_map_1; [done |]. change (n ∉ map fst (map (fun n => (n, seen_values (HeaderValues r n))) names)).
    by rewrite map_map, map_id.
Qed.

Lemma built_header r rules ws n : header_values (in_Headers (BuildMatchInput r (rebuildHints rules ws))) n =
  if bool_decide (n ∈ header_union rules) then seen_values (HeaderValues r n) else [].
Proof.
  unfold BuildMatchInput. cbn [in_Headers rebuildHints rs_headerTargets].
  destruct (q_Header r) as [f |] eqn:Ef.
  - rewrite (bool_decide_eq_false_2 (Some f = None)) by done. cbn [negb]. rewrite andb_true_r.
    assert (Hperm : merge_sort bytes_le (header_union rules) ≡ₚ header_union rules) by apply merge_sort_Permutation.
    destruct (is_nil (merge_sort bytes_le (header_union rules))) eqn:En; cbn [negb].
    + destruct (merge_sort bytes_le (header_union rules)) eqn:Em; [| done]. apply Permutation_nil in Hperm as ->.
      by rewrite bool_decide_eq_false_2 by apply not_elem_of_nil.
    + rewrite add_all_lookup by (rewrite Hperm; apply header_union_NoDup).
      assert (bool_decide (n ∈ merge_sort bytes_le (header_union rules)) = bool_decide (n ∈ header_union rules)) as -> by (apply bool_decide_ext; by rewrite Hperm).
      done.
  - rewrite bool_decide_eq_true_2 by done. cbn [negb]. rewrite andb_false_r. unfold HeaderValues. rewrite Ef. by destruct (bool_decide _).
Qed.
End Hints.

(** * Properties *)

(** Matching on the input that carries only the hinted headers and method
    decides as matching on the full request. *)
Theorem match_hints_lossless `{Unicode, Regexp} r rules ws names exempt : NoDup names ->
  (forall rule name, rule ∈ rules -> name ∈ r_headers rule -> name ∈ names) ->
  MatchEnforcing (rebuildHints rules ws) (BuildMatchInput r (rebuildHints rules ws)) exempt =
  MatchEnforcing (rebuildHints rules ws) (full_input r names) exempt.
Proof.
  intros Hn Hnames. unfold MatchEnforcing. apply match_rules_ext. intros rule Hr. cbn [rebuildHints rs_Rules] in Hr. apply matches_ext; try done.
  - intros Hm. unfold BuildMatchInput, full_input. cbn [in_Method rebuildHints rs_needsMethod].
    assert (existsb (fun r => negb (is_nil (r_methods r))) rules = true) as ->; [| done].
    apply existsb_exists. exists rule. split; [by apply list_elem_of_In | by destruct (r_methods rule)].
  - intros name Hname. rewrite built_header, full_input_header by done.
    rewrite !bool_decide_eq_true_2; [done | by eapply Hnames | apply header_union_in; eauto].
Qed.

(** A v4-mapped entry ([::ffff:192.0.2.1], [::ffff:192.0.2.0/120]) compiles and
    then matches no client: [MatchIP] unmaps the address, never the entry. *)
Theorem mapped_entry_never_matches p a : prefix_ok p -> Is4In6 (px_addr p) = true -> 96 <= px_bits p -> addr_ok a ->
  prefix_Contains p (Unmap a) = false.
Proof.
  intros [Hp Hb] Hm H96 Ha. destruct (Unmap_ok a Ha) as [Hu Hn]. unfold prefix_Contains.
  destruct (px_addr p) as [n | g' z']; [done |]. cbn [BitLen] in *.
  destruct (Unmap a) as [n | g z]; [by rewrite andb_false_r |].
  destruct (negb (hasZone (V6 g z))); [| done]. cbn [BitLen andb addr_value]. apply Z.eqb_neq. intros Hs.
  assert (Heq : group_value g / 2 ^ 32 = group_value g' / 2 ^ 32).
  { assert (Hx : Z.shiftr (Z.lxor (group_value g) (group_value g')) 32 = 0).
    { replace 32 with ((128 - px_bits p) + (32 - (128 - px_bits p))) by lia. rewrite <- Z.shiftr_shiftr by lia. rewrite Hs. apply Z.shiftr_0_l. }
    rewrite Z.shiftr_lxor in Hx. apply Z.lxor_eq in Hx. by rewrite !Z.shiftr_div_pow2 in Hx by lia. }
  destruct Hu as [Hl Hf]. destruct Hp as [Hl' Hf'].
  destruct g as [| a0 [| a1 [| a2 [| a3 [| a4 [| a5 [| a6 [| a7 [|]]]]]]]]]; try done.
  destruct g' as [| b0 [| b1 [| b2 [| b3 [| b4 [| b5 [| b6 [| b7 [|]]]]]]]]]; try done.
  assert (b0 = 0 /\ b1 = 0 /\ b2 = 0 /\ b3 = 0 /\ b4 = 0 /\ b5 = 65535) as (-> & -> & -> & -> & -> & ->).
  { clear -Hm. cbn [Is4In6] in Hm. repeat case_match; simplify_eq; done. }
  repeat match goal with H : Forall _ (_ :: _) |- _ => apply Forall_cons in H as [? H] end.
  unfold group_value in Heq. cbn [fold_left] in Heq.
  assert (a0 = 0 /\ a1 = 0 /\ a2 = 0 /\ a3 = 0 /\ a4 = 0 /\ a5 = 65535) as (-> & -> & -> & -> & -> & ->); [| done].
  pose proof (Z.div_mod ((((((((0 * 65536 + a0) * 65536 + a1) * 65536 + a2) * 65536 + a3) * 65536 + a4) * 65536 + a5) * 65536 + a6) * 65536 + a7) (2 ^ 32) ltac:(lia)) as Hdm.
  rewrite Heq in Hdm.
  pose proof (Z.mod_pos_bound ((((((((0 * 65536 + a0) * 65536 + a1) * 65536 + a2) * 65536 + a3) * 65536 + a4) * 65536 + a5) * 65536 + a6) * 65536 + a7) (2 ^ 32) ltac:(lia)).
  assert (((((((((0 * 65536 + 0) * 65536 + 0) * 65536 + 0) * 65536 + 0) * 65536 + 0) * 65536 + 65535) * 65536 + b6) * 65536 + b7) / 2 ^ 32 = 65535) as E
    by (symmetry; apply (Z.div_unique _ _ _ (b6 * 65536 + b7)); lia).
  rewrite E in Hdm. lia.
Qed.

(** The entry [::ffff:192.0.2.1] on the denylist and the client 192.0.2.1. *)
Example mapped_entry_is_dead :
  match CompileList (H := ascii_only) [lit "::ffff:192.0.2.1"] [] [] with
  | Ok l => match_ip l (lit "192.0.2.1") || match_ip l (lit "::ffff:192.0.2.1")
  | Err _ => true
  end = false.
Proof. vm_compute. reflexivity. Qed.

(** The path is matched before the address, and neither needs the other. *)
Definition ex_request : RequestContext :=
  mk_req (lit "example.org") (lit "get") (lit "/Login?x=1") (lit "192.0.2.1") (lit "curl") []
    (Some (fun n => if bool_decide (n = lit "x-probe") then [[]; lit "%55NION"] else [])) false.

Section Witnesses.
Import Waf.Ex.
Definition ex_rules : list Rule :=
  [mk_rule (lit "probe") [] Waf.ActionDeny 0 [lit "x-probe"] [] [lit "union"] []; mk_rule (lit "trace") [] Waf.ActionDeny 0 [] [lit "TRACE"] [] []].

Theorem match_hints_lossless_witness :
  MatchEnforcing (rebuildHints ex_rules []) (BuildMatchInput ex_request (rebuildHints ex_rules [])) false =
  MatchEnforcing (rebuildHints ex_rules []) (full_input ex_request [lit "referer"; lit "x-probe"]) false.
Proof.
  apply match_hints_lossless.
  - apply (bool_decide_unpack _). vm_compute. exact I.
  - intros rule name Hr Hn. unfold ex_rules in Hr. apply elem_of_cons in Hr as [-> | Hr].
    + apply list_elem_of_singleton in Hn as ->. right. by left.
    + apply list_elem_of_singleton in Hr as ->. by apply not_elem_of_nil in Hn.
Defined.
End Witnesses.
