(* ===== verification/Duration.v ===== *)
(** * Durations (internal/duration/duration.go)

    [Parse] reads Go durations extended with days, weeks, months and years;
    [Format] and [Duration_String] print them.  The standard library's
    [time.ParseDuration] and [Duration.String], which [Parse] falls back to and
    the configuration is printed with, come first. *)

From S2P Require Export Text Float.

Open Scope Z_scope.

(** The errors of [Parse]; [ErrStd] is any error of [time.ParseDuration]. *)
Inductive duration_error := ErrEmpty | ErrStd | ErrOverflow | ErrMissingNumber | ErrFractional | ErrUnknownUnit.
#[global] Instance duration_error_eq_dec : EqDecision duration_error.
Proof. solve_decision. Defined.

Definition is_digit (c : ascii) : bool := bool_decide (is_Some (dec_digit c)).
Definition is_dot (c : ascii) : bool := Ascii.eqb c "."%char.
Definition number_char (c : ascii) : bool := is_digit c || is_dot c.

(** ** time.ParseDuration *)

(** The integer part; [None] when it overflows. *)
Fixpoint leading_int (x : Z) (s : gostring) : option (Z * gostring) :=
  match s with
  | [] => Some (x, [])
  | c :: r =>
    match dec_digit c with
    | None => Some (x, s)
    | Some d =>
      if 2 ^ 63 / 10 <? x then None else
      if 2 ^ 63 <? x * 10 + d then None else leading_int (x * 10 + d) r
    end
  end.

(** The fraction: digits past the 64-bit range are dropped. *)
Fixpoint leading_fraction (x : Z) (scale : float) (overflow : bool) (s : gostring) : Z * float * gostring :=
  match s with
  | [] => (x, scale, [])
  | c :: r =>
    match dec_digit c with
    | None => (x, scale, s)
    | Some d =>
      if overflow || (int64_max / 10 <? x) || (2 ^ 63 <? x * 10 + d) then leading_fraction x scale true r
      else leading_fraction (x * 10 + d) (fmul scale (f64 10)) false r
    end
  end.

(** Up to the next digit or dot. *)
Fixpoint break_unit (s : gostring) : gostring * gostring :=
  match s with
  | [] => ([], [])
  | c :: r => if number_char c then ([], s) else let '(u, t) := break_unit r in (c :: u, t)
  end.

Definition micro_sign : gostring := [Zbyte 194; Zbyte 181].
Definition greek_mu : gostring := [Zbyte 206; Zbyte 188].

Definition unitMap (u : gostring) : option Z :=
  if bool_decide (u = lit "ns") then Some nanosecond
  else if bool_decide (u ∈ [lit "us"; micro_sign ++ lit "s"; greek_mu ++ lit "s"]) then Some microsecond
  else if bool_decide (u = lit "ms") then Some millisecond
  else if bool_decide (u = lit "s") then Some second
  else if bool_decide (u = lit "m") then Some minute
  else if bool_decide (u = lit "h") then Some hour
  else None.

Section Parse.
Context `{Unicode, FloatToInt}.

(** One term: its nanoseconds and what follows it. *)
Definition duration_term (s : gostring) : option (Z * gostring) :=
  match s with
  | [] => None
  | c :: _ =>
    if negb (number_char c) then None else
    match leading_int 0 s with
    | None => None
    | Some (v, s1) =>
      let pre := negb (length s1 =? length s)%nat in
      let '(f, scale, post, s2) :=
        match s1 with
        | "."%char :: t => let '(f, scale, r) := leading_fraction 0 (f64 1) false t in (f, scale, negb (length r =? length t)%nat, r)
        | _ => (0, f64 1, false, s1)
        end in
      if negb pre && negb post then None else
      let '(u, s3) := break_unit s2 in
      match unitMap u with
      | None => None
      | Some unit =>
        if 2 ^ 63 / unit <? v then None else
        if 0 <? f then
          let v := wrapu64 (v * unit + uint64_of_float (fmul (f64 f) (fdiv (f64 unit) scale))) in
          if 2 ^ 63 <? v then None else Some (v, s3)
        else Some (v * unit, s3)
      end
    end
  end.

(** The sum of the terms, a uint64.  [None] when the fuel runs out. *)
Fixpoint duration_terms (fuel : nat) (d : Z) (s : gostring) : option (outcome duration_error Z) :=
  match s with
  | [] => Some (Ok d)
  | _ =>
    match fuel with
    | O => None
    | S fuel =>
      match duration_term s with
      | None => Some (Err ErrStd)
      | Some (v, r) =>
        let d := wrapu64 (d + v) in
        if 2 ^ 63 <? d then Some (Err ErrStd) else duration_terms fuel d r
      end
    end
  end.

(** The sign of a duration and the rest. *)
Definition split_sign (s : gostring) : bool * gostring :=
  match s with
  | "-"%char :: r => (true, r)
  | "+"%char :: r => (false, r)
  | _ => (false, s)
  end.

Definition ParseDuration (s : gostring) : option (outcome duration_error Z) :=
  let '(neg, body) := split_sign s in
  if bool_decide (body = lit "0") then Some (Ok 0) else
  if bool_decide (body = []) then Some (Err ErrStd) else
  match duration_terms (length body) 0 body with
  | Some (Ok d) =>
    if neg : bool then Some (Ok (wrap64 (- wrap64 d)))
    else if int64_max <? d then Some (Err ErrStd) else Some (Ok d)
  | r => r
  end.

(** ** Duration.String

    The library writes the number backwards into a buffer; [buf] is what is
    written already. *)
Fixpoint fmt_frac_digits (prec : nat) (print : bool) (v : Z) (buf : gostring) : gostring * bool * Z :=
  match prec with
  | O => (buf, print, v)
  | S p =>
    let print := print || negb (v mod 10 =? 0) in
    fmt_frac_digits p print (v / 10) (if print then digit_char (v mod 10) :: buf else buf)
  end.

Definition fmtFrac (v : Z) (prec : nat) (buf : gostring) : gostring * Z :=
  let '(buf, print, v) := fmt_frac_digits prec false v buf in (if print then "."%char :: buf else buf, v).

Definition fmtInt (v : Z) (buf : gostring) : gostring := FormatUint 10 v ++ buf.

Definition small_unit (u : Z) : gostring * nat :=
  if u <? microsecond then (lit "ns", 0%nat) else if u <? millisecond then (micro_sign ++ lit "s", 3%nat) else (lit "ms", 6%nat).

Definition format_magnitude (u : Z) : gostring :=
  if u <? second then
    if u =? 0 then lit "0s" else
    let '(unit, prec) := small_unit u in
    let '(buf, u) := fmtFrac u prec unit in fmtInt u buf
  else
    let '(buf, u) := fmtFrac u 9 (lit "s") in
    let buf := fmtInt (u mod 60) buf in
    let u := u / 60 in
    if 0 <? u then
      let buf := fmtInt (u mod 60) ("m"%char :: buf) in
      let u := u / 60 in
      if 0 <? u then fmtInt u ("h"%char :: buf) else buf
    else buf.

Definition Duration_String (d : Z) : gostring :=
  if d <? 0 then "-"%char :: format_magnitude (- d) else format_magnitude d.

(** ** The extended units *)
Definition Day : Z := 24 * hour.
Definition Week : Z := 7 * Day.
Definition Month : Z := 30 * Day.
Definition Year : Z := 365 * Day.
Definition Max : Z := 100 * Year.

Definition extended : list (gostring * Z) := [(lit "mon", Month); (lit "d", Day); (lit "w", Week); (lit "y", Year)].
Definition stdUnits : list gostring :=
  [lit "ns"; lit "us"; micro_sign ++ lit "s"; greek_mu ++ lit "s"; lit "ms"; lit "s"; lit "m"; lit "h"].

(** [s] starts with one of the suffixes [hasExtendedUnit] looks for. *)
Definition extended_here (s : gostring) : bool :=
  match s with
  | [] => false
  | c :: _ => bool_decide (c ∈ ["d"; "w"; "y"]%char) || has_prefix (lit "mon") s
  end.

Fixpoint extended_after (prev : ascii) (s : gostring) : bool :=
  match s with
  | [] => false
  | c :: r => (number_char prev && extended_here s) || extended_after c r
  end.
Definition hasExtendedUnit (s : gostring) : bool := match s with [] => false | c :: r => extended_after c r end.

(** Digits with at most one dot. *)
Fixpoint scan_number (dot : bool) (s : gostring) : gostring * gostring :=
  match s with
  | [] => ([], [])
  | c :: r =>
    if is_digit c then let '(n, t) := scan_number dot r in (c :: n, t)
    else if is_dot c && negb dot then let '(n, t) := scan_number true r in (c :: n, t)
    else ([], s)
  end.
Definition leadingDigits (s : gostring) : gostring * gostring :=
  let '(num, rest) := scan_number false s in if existsb is_digit num then (num, rest) else ([], s).

Definition leadingExtended (s : gostring) : option (gostring * Z) := List.find (fun u => has_prefix (fst u) s) extended.
Definition leadingStd (s : gostring) : option gostring := List.find (fun u => has_prefix u s) stdUnits.

Fixpoint uint_loop (n : Z) (s : gostring) : outcome duration_error Z :=
  match s with
  | [] => Ok n
  | c :: r => if Max / nanosecond / 10 <? n then Err ErrOverflow else uint_loop (wrap64 (n * 10 + (byteZ c - 48) mod 256)) r
  end.
Definition parseUint (digits : gostring) : outcome duration_error Z :=
  if contains "."%char digits then Err ErrFractional else uint_loop 0 digits.

Definition mulChecked (n mult : Z) : outcome duration_error Z :=
  if negb (n =? 0) && (Z.quot Max mult <? n) then Err ErrOverflow else Ok (wrap64 (n * mult)).

Definition addChecked (a b : Z) : outcome duration_error Z :=
  let sum := wrap64 (a + b) in if (sum <? a) || (Max <? sum) then Err ErrOverflow else Ok sum.

(** ** Parse *)

(** The extended terms summed, and the standard ones put aside. *)
Fixpoint mixed_terms (fuel : nat) (total : Z) (std body : gostring) : option (outcome duration_error (Z * gostring)) :=
  match body with
  | [] => Some (Ok (total, std))
  | _ =>
    match fuel with
    | O => None
    | S fuel =>
      let '(digits, rest) := leadingDigits body in
      if bool_decide (digits = []) then Some (Err ErrMissingNumber) else
      match leadingExtended rest with
      | Some (suffix, mult) =>
        match (let! n := parseUint digits in let! term := mulChecked n mult in addChecked total term) with
        | Ok total => mixed_terms fuel total std (drop (length suffix) rest)
        | Err e => Some (Err e)
        end
      | None =>
        match leadingStd rest with
        | Some suffix => mixed_terms fuel total (std ++ digits ++ suffix) (drop (length suffix) rest)
        | None => Some (Err ErrUnknownUnit)
        end
      end
    end
  end.

Definition mixed_total (body : gostring) : option (outcome duration_error Z) :=
  match mixed_terms (length body) 0 [] body with
  | Some (Ok (total, std)) =>
    if bool_decide (std = []) then Some (Ok total) else
    match ParseDuration std with
    | Some (Ok d) => Some (addChecked total d)
    | r => r
    end
  | Some (Err e) => Some (Err e)
  | None => None
  end.

Definition Parse (s : gostring) : option (outcome duration_error Z) :=
  let trimmed := TrimSpace s in
  if bool_decide (trimmed = []) then Some (Err ErrEmpty) else
  let '(neg, body) := split_sign trimmed in
  if negb (hasExtendedUnit body) then
    match ParseDuration trimmed with
    | Some (Ok d) => if (Max <? d) || (d <? - Max) then Some (Err ErrOverflow) else Some (Ok d)
    | r => r
    end
  else
    match mixed_total body with
    | Some (Ok total) => Some (Ok (if neg : bool then wrap64 (- total) else total))
    | r => r
    end.

(** The largest extended unit that divides [d], for messages. *)
Definition Format (d : Z) : gostring :=
  if d =? 0 then lit "0s" else
  let '(sign, d) := if d <? 0 then (lit "-", wrap64 (- d)) else ([], d) in
  match List.find (fun u => Z.rem d (fst u) =? 0) [(Year, lit "y"); (Month, lit "mon"); (Week, lit "w"); (Day, lit "d")] with
  | Some (mult, name) => sign ++ FormatInt (Z.quot d mult) ++ name
  | None => sign ++ Duration_String d
  end.
End Parse.

(** * Termination and bounds *)

Lemma leading_int_spec s : forall x n r, 0 <= x <= 2 ^ 63 -> leading_int x s = Some (n, r) -> 0 <= n <= 2 ^ 63 /\ (length r <= length s)%nat.
Proof.
  induction s as [| c s IH]; intros x n r Hx; cbn [leading_int]; [intros [= <- <-]; done |].
  destruct (dec_digit c) as [d |] eqn:Ed; [| intros [= <- <-]; done].
  pose proof (dec_digit_range c d Ed). case_if H1; [done |]. case_if H2; [done |]. bool_to_prop. intros Hr.
  apply IH in Hr; [cbn [length]; lia | lia].
Qed.

Lemma leading_fraction_shorter s : forall x scale o f sc r, leading_fraction x scale o s = (f, sc, r) -> (length r <= length s)%nat.
Proof.
  induction s as [| c s IH]; intros x scale o f sc r; cbn [leading_fraction]; [by intros [= <- <- <-] |].
  destruct (dec_digit c); [| by intros [= <- <- <-]]. cbn [length]. case_if Ho; intros Hr; apply IH in Hr; lia.
Qed.

Lemma break_unit_app s u r : break_unit s = (u, r) -> s = u ++ r.
Proof.
  revert u. induction s as [| c s IH]; intros u; cbn [break_unit]; [by intros [= <- <-] |].
  case_if Hc; [by intros [= <- <-] |]. destruct (break_unit s) as [u' r']. intros [= <- <-]. by rewrite (IH u' eq_refl).
Qed.

Lemma unitMap_range u unit : unitMap u = Some unit -> u <> [] /\ 0 < unit <= hour.
Proof.
  unfold unitMap. intros Hu. split; [by intros -> |].
  repeat (case_bool_decide; [injection Hu as <-; vm_compute; split; [reflexivity | discriminate] |]). done.
Qed.

Section Bounds.
Context `{Unicode, FloatToInt}.

Lemma duration_term_spec s v r : duration_term s = Some (v, r) -> 0 <= v <= 2 ^ 63 /\ (length r < length s)%nat.
Proof.
  unfold duration_term. destruct s as [| c s']; [done |]. set (s := c :: s'). destruct (negb (number_char c)); [done |].
  destruct (leading_int 0 s) as [[n s1] |] eqn:Ei; [| done]. apply leading_int_spec in Ei as [Hn H1]; [| lia].
  match goal with |- context [match ?x with pair _ _ => _ end] => destruct x as [[[f scale] post] s2] eqn:Ef end.
  assert (H2 : (length s2 <= length s1)%nat).
  { destruct s1 as [| [[] [] [] [] [] [] [] []] t]; try (injection Ef as <- <- <- <-; done).
    destruct (leading_fraction _ _ _ _) as [[f' sc'] r'] eqn:Ep. injection Ef as <- <- <- <-. apply leading_fraction_shorter in Ep. cbn. lia. }
  destruct (_ && _); [done |]. destruct (break_unit s2) as [u s3] eqn:Eu. apply break_unit_app in Eu as ->. rewrite length_app in H2.
  destruct (unitMap u) as [unit |] eqn:Em; [| done]. apply unitMap_range in Em as [Hu Hunit]. destruct u as [| c0 u]; [done |].
  cbn [length] in H2. case_if H3; [done |]. bool_to_prop.
  assert (0 <= n * unit <= 2 ^ 63).
  { pose proof (Z.mul_div_le (2 ^ 63) unit ltac:(lia)). nia. }
  case_if Hf; [case_if Hw; [done |]; bool_to_prop |]; intros [= <- <-]; (split; [| lia]); [| lia].
  split; [| lia]. unfold wrapu64. apply Z.mod_pos_bound. lia.
Qed.

Lemma duration_terms_total fuel : forall d s, (length s <= fuel)%nat -> 0 <= d <= 2 ^ 63 ->
  exists r, duration_terms fuel d s = Some r /\ forall d', r = Ok d' -> 0 <= d' <= 2 ^ 63.
Proof.
  induction fuel as [| fuel IH]; intros d s Hs Hd; destruct s as [| c s']; cbn [duration_terms length] in *;
    try (by exists (Ok d); split; [| intros d' [= <-]]); [lia |].
  destruct (duration_term (c :: s')) as [[v r] |] eqn:Et; [| by eexists].
  apply duration_term_spec in Et as [Hv Hr]. cbn [length] in Hr. case_if Hw; [by eexists |]. bool_to_prop.
  apply IH; [lia |]. split; [| lia]. unfold wrapu64. apply Z.mod_pos_bound. lia.
Qed.

Lemma split_sign_shorter s : (length (split_sign s).2 <= length s)%nat.
Proof. destruct s as [| [[] [] [] [] [] [] [] []] t]; cbn; lia. Qed.

Lemma ParseDuration_total s : exists r, ParseDuration s = Some r /\
  forall d, r = Ok d -> int64_ok d /\ ((split_sign s).1 = false -> 0 <= d).
Proof.
  unfold ParseDuration. destruct (split_sign s) as [neg body]. cbn [fst].
  case_bool_decide; [by exists (Ok 0); split; [| intros d [= <-]] |]. case_bool_decide; [by eexists |].
  destruct (duration_terms_total (length body) 0 body ltac:(lia) ltac:(lia)) as ([d | e] & -> & Hd); [| by eexists].
  specialize (Hd d eq_refl). destruct neg.
  - eexists. split; [done |]. intros d' [= <-]. split; [apply wrap64_ok | done].
  - case_if Hm; [by eexists |]. bool_to_prop. eexists. split; [done |]. intros d' [= <-]. unfold int64_ok, int64_min. lia.
Qed.

(** ** The arithmetic of the extended terms *)
Lemma Max_value : 0 < Max /\ Max + 1000 < int64_max.
Proof. vm_compute. split; reflexivity. Qed.

Lemma uint_loop_spec s : forall n m, 0 <= n <= Max + 255 -> uint_loop n s = Ok m -> 0 <= m <= Max + 255.
Proof.
  induction s as [| c s IH]; intros n m Hn; cbn [uint_loop]; [by intros [= <-] |]. case_if Hc; [done |]. bool_to_prop.
  pose proof Max_value. pose proof (Z.mod_pos_bound (byteZ c - 48) 256 ltac:(lia)).
  assert (n * 10 <= Max). { unfold nanosecond in Hc. rewrite Z.div_1_r in Hc. pose proof (Z.mul_div_le Max 10 ltac:(lia)). lia. }
  rewrite wrap64_id by (unfold int64_ok, int64_min; lia). apply IH. lia.
Qed.

Lemma parseUint_range s n : parseUint s = Ok n -> 0 <= n <= Max + 255.
Proof. unfold parseUint. case_match; [done |]. apply uint_loop_spec. pose proof Max_value. lia. Qed.

Lemma mulChecked_spec n mult : 0 <= n -> 0 < mult ->
  mulChecked n mult = if n * mult <=? Max then Ok (n * mult) else Err ErrOverflow.
Proof.
  intros Hn Hm. pose proof Max_value. unfold mulChecked. rewrite Z.quot_div_nonneg by lia.
  destruct (Z.leb_spec (n * mult) Max).
  - assert (n <= Max / mult) by (apply Z.div_le_lower_bound; lia).
    rewrite (proj2 (Z.ltb_ge _ _)), andb_false_r by lia. rewrite wrap64_id; [done | unfold int64_ok, int64_min; lia].
  - assert (Max / mult < n) by (apply Z.div_lt_upper_bound; lia).
    rewrite (proj2 (Z.eqb_neq _ _)), (proj2 (Z.ltb_lt _ _)) by nia. done.
Qed.

Lemma addChecked_spec a b : 0 <= a <= Max -> 0 <= b <= int64_max ->
  addChecked a b = if a + b <=? Max then Ok (a + b) else Err ErrOverflow.
Proof.
  intros Ha Hb. pose proof Max_value. unfold addChecked. destruct (Z.leb_spec (a + b) Max).
  - rewrite wrap64_id by (unfold int64_ok, int64_min; lia).
    by rewrite (proj2 (Z.ltb_ge _ _)), (proj2 (Z.ltb_ge _ _)) by lia.
  - destruct (decide (a + b <= int64_max)).
    + rewrite wrap64_id by (unfold int64_ok, int64_min; lia). by rewrite orb_comm, (proj2 (Z.ltb_lt _ _)) by lia.
    + replace (wrap64 (a + b)) with (a + b - 2 ^ 64).
      * by rewrite (proj2 (Z.ltb_lt _ _)) by (unfold int64_max in *; lia).
      * unfold wrap64, int64_max in *. rewrite <- (Z.mod_unique _ _ 1 (a + b - 2 ^ 63)); lia.
Qed.

Lemma find_has {A} (f : A -> bool) l x : List.find f l = Some x -> x ∈ l /\ f x = true.
Proof. intros Hx. apply List.find_some in Hx as [Hin Hf]. by rewrite list_elem_of_In. Qed.

Lemma leadingExtended_mult s suffix mult : leadingExtended s = Some (suffix, mult) -> 0 < mult.
Proof.
  intros [Hin _]%find_has. assert (Hp : Forall (fun u => 0 < u.2) extended) by (unfold extended; repeat constructor).
  rewrite Forall_forall in Hp. by apply (Hp _ Hin).
Qed.

Lemma scan_number_app s : forall dot n r, scan_number dot s = (n, r) -> s = n ++ r.
Proof.
  induction s as [| c s IH]; intros dot n r; cbn [scan_number]; [by intros [= <- <-] |].
  case_if Hd; [| case_if Hdot; [| by intros [= <- <-]]].
  - destruct (scan_number dot s) as [n' r'] eqn:E. intros [= <- <-]. by rewrite (IH _ _ _ E).
  - destruct (scan_number true s) as [n' r'] eqn:E. intros [= <- <-]. by rewrite (IH _ _ _ E).
Qed.

Lemma leadingDigits_app s n r : leadingDigits s = (n, r) -> s = n ++ r.
Proof.
  unfold leadingDigits. destruct (scan_number false s) as [n' r'] eqn:E. case_if Hx; [| by intros [= <- <-]].
  intros [= <- <-]. by apply scan_number_app in E.
Qed.

Lemma mixed_terms_total fuel : forall total std body, (length body <= fuel)%nat -> 0 <= total <= Max ->
  exists r, mixed_terms fuel total std body = Some r /\ forall t std', r = Ok (t, std') -> 0 <= t <= Max.
Proof.
  induction fuel as [| fuel IH]; intros total std body Hb Ht; destruct body as [| c body']; cbn [mixed_terms length] in *;
    try (by eexists; split; [done | intros ? ? [= <- _]]); [lia |].
  destruct (leadingDigits (c :: body')) as [num rest] eqn:Ed. apply leadingDigits_app in Ed. case_bool_decide as Hnum; [by eexists |].
  assert (Hrest : (length rest <= fuel)%nat).
  { apply (f_equal length) in Ed. rewrite length_app in Ed. cbn [length] in Ed. destruct num; [done | cbn [length] in Ed; lia]. }
  assert (Hdrop : forall n : nat, (length (drop n rest) <= fuel)%nat) by (intros n; rewrite length_drop; lia).
  destruct (leadingExtended rest) as [[suffix mult] |] eqn:Ee.
  - destruct (parseUint num) as [n | e] eqn:En; [| by eexists]. apply parseUint_range in En.
    rewrite mulChecked_spec by (apply leadingExtended_mult in Ee; lia). case_if Hm; [| by eexists]. bool_to_prop.
    apply leadingExtended_mult in Ee. pose proof Max_value. rewrite addChecked_spec by nia. case_if Ha; [| by eexists]. bool_to_prop.
    apply IH; [done | nia].
  - destruct (leadingStd rest); [| by eexists]. by apply IH.
Qed.

Lemma split_sign_head c s t : (split_sign (c :: s)).1 = (split_sign (c :: t)).1.
Proof. by destruct c as [[] [] [] [] [] [] [] []]. Qed.

Lemma split_sign_digits num rest : num <> [] -> Forall (fun c => number_char c = true) num -> (split_sign (num ++ rest)).1 = false.
Proof.
  destruct num as [| c num]; [done |]. intros _ Hf. inversion Hf as [| ? ? Hc _]; subst. by destruct c as [[] [] [] [] [] [] [] []].
Qed.

Lemma scan_number_chars s : forall dot n r, scan_number dot s = (n, r) -> Forall (fun c => number_char c = true) n.
Proof.
  induction s as [| c s IH]; intros dot n r; cbn [scan_number]; [by intros [= <- <-] |].
  case_if Hd; [| case_if Hdot; [| by intros [= <- <-]]].
  - destruct (scan_number dot s) as [n' r'] eqn:E. intros [= <- <-]. constructor; [by unfold number_char; rewrite Hd | by eapply IH].
  - destruct (scan_number true s) as [n' r'] eqn:E. intros [= <- <-]. apply andb_true_iff in Hdot as [Hdot _]. constructor; [| by eapply IH].
    unfold number_char. by rewrite Hdot, orb_true_r.
Qed.

Lemma leadingDigits_chars s n r : leadingDigits s = (n, r) -> Forall (fun c => number_char c = true) n.
Proof.
  unfold leadingDigits. destruct (scan_number false s) as [n' r'] eqn:E. case_if Hx; [| by intros [= <- <-]].
  intros [= <- <-]. by apply scan_number_chars in E.
Qed.

(** What is put aside for the library has no sign. *)
Lemma mixed_terms_unsigned fuel : forall total std body t std', (split_sign std).1 = false ->
  mixed_terms fuel total std body = Some (Ok (t, std')) -> (split_sign std').1 = false.
Proof.
  induction fuel as [| fuel IH]; intros total std body t std' Hs; destruct body as [| c body']; cbn [mixed_terms];
    try (by intros [= _ <-]).
  destruct (leadingDigits (c :: body')) as [num rest] eqn:Ed. case_bool_decide as Hnum; [done |].
  destruct (leadingExtended rest) as [[suffix mult] |].
  - case_match; [by apply IH | done].
  - destruct (leadingStd rest) as [suffix |]; [| done]. apply IH. destruct std as [| c0 std]; [| by rewrite <- Hs; apply split_sign_head].
    cbn [app]. apply split_sign_digits; [done | by eapply leadingDigits_chars].
Qed.

Lemma mixed_total_spec body : exists r, mixed_total body = Some r /\ forall d, r = Ok d -> 0 <= d <= Max.
Proof.
  unfold mixed_total. destruct (mixed_terms_total (length body) 0 [] body ltac:(lia)) as ([[t std] | e] & Em & Ht); [pose proof Max_value; lia | |].
  - rewrite Em. specialize (Ht t std eq_refl). case_bool_decide; [eexists; split; [done |]; by intros d [= <-] |].
    destruct (ParseDuration_total std) as ([d | e] & -> & Hd); [| by eexists]. destruct (Hd d eq_refl) as [Hok Hn].
    specialize (Hn (mixed_terms_unsigned _ 0 [] _ _ _ eq_refl Em)). unfold int64_ok in Hok. rewrite addChecked_spec by lia.
    eexists. split; [done |]. intros d' Heq. destruct (_ <=? Max) eqn:Hle; [| done]. bool_to_prop. injection Heq as <-. lia.
  - rewrite Em. by eexists.
Qed.

(** C38: Parse returns on every string: its loops never run out of the one
    round per byte they are given, the duration it returns is at most Max in
    magnitude, and a string without a minus sign never gives a negative one.
    *)
Theorem parse_terminates_in_bounds s :
  exists r, Parse s = Some r /\
    forall d, r = Ok d -> - Max <= d <= Max /\ ((split_sign (TrimSpace s)).1 = false -> 0 <= d).
Proof.
  unfold Parse. case_bool_decide; [by eexists |]. destruct (split_sign (TrimSpace s)) as [neg body] eqn:Es. case_if Hx.
  - destruct (ParseDuration_total (TrimSpace s)) as ([d | e] & -> & Hd); [| by eexists]. rewrite Es in Hd. destruct (Hd d eq_refl) as [Hok Hn].
    case_if Hm; [by eexists |]. bool_to_prop. eexists. split; [done |]. intros d' [= <-]. split; [lia | done].
  - destruct (mixed_total_spec body) as ([d | e] & -> & Hd); [| by eexists]. specialize (Hd d eq_refl). eexists. split; [done |].
    pose proof Max_value. intros d' [= <-]. destruct neg; [| lia].
    rewrite wrap64_id by (unfold int64_ok, int64_min, int64_max in *; lia). split; [lia | done].
Qed.
End Bounds.

(** * Reading what is written

    Durations as lists of pieces, each a number and a unit. *)

(** The units a duration can name. *)
Inductive unit_kind := UNs | UUs | UMicro | UMu | UMs | US | UM | UH | UD | UW | UMon | UY.

Definition unit_name (k : unit_kind) : gostring :=
  match k with
  | UNs => lit "ns" | UUs => lit "us" | UMicro => micro_sign ++ lit "s" | UMu => greek_mu ++ lit "s" | UMs => lit "ms"
  | US => lit "s" | UM => lit "m" | UH => lit "h" | UD => lit "d" | UW => lit "w" | UMon => lit "mon" | UY => lit "y"
  end.

Definition unit_mult (k : unit_kind) : Z :=
  match k with
  | UNs => nanosecond | UUs | UMicro | UMu => microsecond | UMs => millisecond | US => second | UM => minute | UH => hour
  | UD => Day | UW => Week | UMon => Month | UY => Year
  end.

Definition is_extended (k : unit_kind) : bool := match k with UD | UW | UMon | UY => true | _ => false end.

Definition starts (s : gostring) : Prop := match s with [] => True | c :: _ => number_char c = true end.

Lemma unit_mult_range k : 0 < unit_mult k <= Year.
Proof. by destruct k; vm_compute. Qed.

Lemma number_char_cases c : number_char c = true -> c ∈ ["0";"1";"2";"3";"4";"5";"6";"7";"8";"9";"."]%char.
Proof. destruct c as [[] [] [] [] [] [] [] []]; intros Hc; try (vm_compute in Hc; discriminate); vm_compute; set_solver. Qed.

(** A number character is none of the letters the parser looks for. *)
Ltac number_cases H :=
  apply number_char_cases in H; repeat (apply elem_of_cons in H as [-> | H]); [.. | by apply not_elem_of_nil in H].

Lemma unit_has_extended k rest prev : starts rest -> number_char prev = true ->
  extended_after prev (unit_name k ++ rest) = is_extended k || hasExtendedUnit rest.
Proof.
  intros Hr Hp. destruct rest as [| c r]; [rewrite app_nil_r; cbn [extended_after hasExtendedUnit]; by destruct k; cbn; rewrite Hp |].
  cbn [starts] in Hr. change (hasExtendedUnit (c :: r)) with (extended_after c r).
  number_cases Hr; destruct k; cbn; rewrite Hp; reflexivity.
Qed.

Lemma number_has_extended num k rest : forall prev, starts rest -> number_char prev = true -> Forall (fun c => number_char c = true) num ->
  extended_after prev (num ++ unit_name k ++ rest) = is_extended k || hasExtendedUnit rest.
Proof.
  induction num as [| c num IH]; intros prev Hr Hp Hn; [by apply unit_has_extended |].
  inversion Hn as [| ? ? Hc Hn']; subst. cbn [app extended_after]. rewrite (IH c Hr Hc Hn').
  replace (extended_here (c :: num ++ unit_name k ++ rest)) with false; [by rewrite andb_false_r |]. by number_cases Hc.
Qed.

Lemma piece_has_extended num k rest : num <> [] -> starts rest -> Forall (fun c => number_char c = true) num ->
  hasExtendedUnit (num ++ unit_name k ++ rest) = is_extended k || hasExtendedUnit rest.
Proof. intros Hnum Hr Hn. destruct num as [| c num]; [done |]. inversion Hn; subst. by apply number_has_extended. Qed.

Lemma break_unit_name k rest : starts rest -> break_unit (unit_name k ++ rest) = (unit_name k, rest).
Proof.
  intros Hr. assert (Hb : break_unit rest = ([], rest)) by (destruct rest as [| c r]; [done |]; cbn [break_unit starts] in *; by rewrite Hr).
  destruct k; cbn; by rewrite Hb.
Qed.

Lemma unitMap_name k : is_extended k = false -> unitMap (unit_name k) = Some (unit_mult k).
Proof. by destruct k. Qed.

Lemma leadingExtended_name k rest : starts rest ->
  leadingExtended (unit_name k ++ rest) = if is_extended k then Some (unit_name k, unit_mult k) else None.
Proof. intros Hr. destruct rest as [| c r]; [by destruct k |]. cbn [starts] in Hr. number_cases Hr; by destruct k. Qed.

Lemma leadingStd_name k rest : starts rest -> is_extended k = false -> leadingStd (unit_name k ++ rest) = Some (unit_name k).
Proof. intros Hr. destruct rest as [| c r]; [by destruct k |]. cbn [starts] in Hr. number_cases Hr; by destruct k. Qed.

(** ** Decimal numbers *)
Definition decimal (s : gostring) (n : Z) : Prop := s <> [] /\ dec_value 0 s = Some n.

Lemma dec_value_ge s : forall x n, 0 <= x -> dec_value x s = Some n -> x * 10 ^ Z.of_nat (length s) <= n.
Proof.
  induction s as [| c s IH]; intros x n Hx; cbn [dec_value length]; [intros [= <-]; lia |].
  destruct (dec_digit c) as [d |] eqn:Ed; [| done]. pose proof (dec_digit_range c d Ed). intros Hs. apply IH in Hs; [| lia].
  rewrite Nat2Z.inj_succ, Z.pow_succ_r by lia. pose proof (Z.pow_pos_nonneg 10 (Z.of_nat (length s)) ltac:(lia) ltac:(lia)). nia.
Qed.

Lemma dec_value_below s : forall x n, dec_value x s = Some n -> n < (x + 1) * 10 ^ Z.of_nat (length s).
Proof.
  induction s as [| c s IH]; intros x n; cbn [dec_value length]; [intros [= <-]; cbn; lia |].
  destruct (dec_digit c) as [d |] eqn:Ed; [| done]. pose proof (dec_digit_range c d Ed). intros Hs. apply IH in Hs.
  rewrite Nat2Z.inj_succ, Z.pow_succ_r by lia. pose proof (Z.pow_pos_nonneg 10 (Z.of_nat (length s)) ltac:(lia) ltac:(lia)). nia.
Qed.

Lemma dec_value_first c s x n d : 0 <= x -> dec_digit c = Some d -> dec_value x (c :: s) = Some n -> x * 10 + d <= n.
Proof.
  intros Hx Hd. cbn [dec_value]. rewrite Hd. intros Hs. pose proof (dec_digit_range c d Hd). apply dec_value_ge in Hs; [| lia].
  pose proof (Z.pow_pos_nonneg 10 (Z.of_nat (length s)) ltac:(lia) ltac:(lia)). nia.
Qed.

Lemma dec_value_digits s : forall x n, dec_value x s = Some n -> Forall (fun c => is_digit c = true) s.
Proof.
  induction s as [| c s IH]; intros x n; cbn [dec_value]; [by constructor |]. destruct (dec_digit c) eqn:Ed; [| done].
  intros Hs. constructor; [| by eapply IH]. unfold is_digit. rewrite Ed. by apply bool_decide_eq_true_2.
Qed.

Lemma digits_number s : Forall (fun c => is_digit c = true) s -> Forall (fun c => number_char c = true) s.
Proof. intros Hs. eapply Forall_impl; [exact Hs |]. intros c Hc. unfold number_char. by rewrite Hc. Qed.

Lemma decimal_format n : 0 <= n < 2 ^ 64 -> decimal (FormatUint 10 n) n.
Proof.
  intros Hn. pose proof (parse_magnitude_format n ltac:(lia)) as Hp. unfold parse_magnitude in Hp.
  destruct (FormatUint 10 n); [done |]. by split.
Qed.

Definition not_digit_first (s : gostring) : Prop := match s with [] => True | c :: _ => dec_digit c = None end.

Lemma unit_not_digit k rest : not_digit_first (unit_name k ++ rest).
Proof. by destruct k. Qed.

Lemma leading_int_decimal s rest : forall x n, 0 <= x <= 2 ^ 63 -> not_digit_first rest -> dec_value x s = Some n ->
  leading_int x (s ++ rest) = if n <=? 2 ^ 63 then Some (n, rest) else None.
Proof.
  induction s as [| c s IH]; intros x n Hx Hr Hs.
  - injection Hs as <-. rewrite (proj2 (Z.leb_le _ _)) by lia. destruct rest as [| c r]; [done |]. cbn [not_digit_first] in Hr. cbn. by rewrite Hr.
  - destruct (dec_digit c) as [d |] eqn:Ed; [| cbn in Hs; by rewrite Ed in Hs]. pose proof (dec_digit_range c d Ed).
    pose proof (dec_value_first c s x n d ltac:(lia) Ed Hs). cbn [app leading_int]. cbn [dec_value] in Hs. rewrite Ed in Hs |- *.
    change (2 ^ 63 / 10) with 922337203685477580.
    case_if H1; bool_to_prop; [by rewrite (proj2 (Z.leb_gt _ _)) by lia |].
    case_if H2; bool_to_prop; [by rewrite (proj2 (Z.leb_gt _ _)) by lia |]. apply IH; [lia | done | done].
Qed.

Lemma leading_fraction_decimal s rest : forall x n i, 0 <= x -> (i + length s <= 15)%nat -> not_digit_first rest -> dec_value x s = Some n -> n <= int64_max / 10 ->
  leading_fraction x (f64 (10 ^ Z.of_nat i)) false (s ++ rest) = (n, f64 (10 ^ Z.of_nat (i + length s)), rest).
Proof.
  induction s as [| c s IH]; intros x n i Hx Hi Hr Hs Hn; cbn [app length] in *.
  - injection Hs as <-. rewrite Nat.add_0_r. destruct rest as [| c r]; [done |]. cbn [not_digit_first] in Hr. cbn. by rewrite Hr.
  - destruct (dec_digit c) as [d |] eqn:Ed; [| cbn in Hs; by rewrite Ed in Hs]. pose proof (dec_digit_range c d Ed).
    pose proof (dec_value_first c s x n d ltac:(lia) Ed Hs). cbn [leading_fraction]. cbn [dec_value] in Hs. rewrite Ed in Hs |- *.
    change (int64_max / 10) with 922337203685477580 in *.
    rewrite (proj2 (Z.ltb_ge _ _)), (proj2 (Z.ltb_ge _ _)) by lia. cbn [orb].
    assert (10 ^ Z.of_nat i * 10 = 10 ^ Z.of_nat (S i)) as Hpow by (rewrite Nat2Z.inj_succ, Z.pow_succ_r; lia).
    assert (10 ^ Z.of_nat (S i) <= 10 ^ 15) by (apply Z.pow_le_mono_r; lia).
    assert (0 < 10 ^ Z.of_nat i) by (apply Z.pow_pos_nonneg; lia).
    rewrite f64_mul, Hpow by lia. replace (i + S (length s))%nat with (S i + length s)%nat by lia. apply IH; [lia | lia | done | done | done].
Qed.

(** ** Pieces *)
Section Pieces.
Context `{FloatToInt}.

Lemma number_starts num r : num <> [] -> Forall (fun c => number_char c = true) num -> starts (num ++ r).
Proof. destruct num as [| c num]; [done |]. intros _ Hn. by inversion Hn. Qed.

(** A whole number of a unit. *)
Lemma whole_term s n k rest : decimal s n -> is_extended k = false -> starts rest ->
  duration_term (s ++ unit_name k ++ rest) = if n * unit_mult k <=? 2 ^ 63 then Some (n * unit_mult k, rest) else None.
Proof.
  intros [Hs Hv] Hk Hr. pose proof (unit_mult_range k) as Hu. pose proof (dec_value_ge s 0 n ltac:(lia) Hv) as Hn.
  pose proof (digits_number s (dec_value_digits _ _ _ Hv)) as Hd. unfold duration_term.
  destruct s as [| c s]; [done |]. inversion Hd as [| ? ? Hc _]; subst. cbn [app]. rewrite Hc. cbn [negb].
  pose proof (leading_int_decimal (c :: s) (unit_name k ++ rest) 0 n ltac:(lia) (unit_not_digit k rest) Hv) as HL. cbn [app] in HL. rewrite HL.
  destruct (Z.leb_spec n (2 ^ 63)); [| by rewrite (proj2 (Z.leb_gt _ _)) by nia].
  assert (Hl : (length (unit_name k ++ rest) =? length (c :: s ++ unit_name k ++ rest))%nat = false).
  { apply Nat.eqb_neq. cbn [length]. rewrite !length_app. lia. }
  rewrite Hl. cbn [negb].
  assert (Hm : forall (A : Type) (x : gostring -> A) (y : A), match unit_name k ++ rest with "."%char :: t => x t | _ => y end = y) by (intros; by destruct k).
  rewrite Hm. cbn [andb]. rewrite break_unit_name, unitMap_name by done.
  destruct (Z.ltb_spec (2 ^ 63 / unit_mult k) n).
  - rewrite (proj2 (Z.leb_gt _ _)); [done |]. pose proof (Z.mul_succ_div_gt (2 ^ 63) (unit_mult k) ltac:(lia)). nia.
  - rewrite (proj2 (Z.leb_le _ _)); [done |]. pose proof (Z.mul_div_le (2 ^ 63) (unit_mult k) ltac:(lia)). nia.
Qed.

(** The units [Duration.String] prints fractions of, by their decimal digits. *)
Definition frac_unit (k : unit_kind) (prec : nat) : Prop := (k, prec) ∈ [(US, 9%nat); (UMs, 6%nat); (UMicro, 3%nat)].

Lemma frac_scale k prec (i : nat) : frac_unit k prec -> (1 <= i <= prec)%nat ->
  is_extended k = false /\ unit_mult k = 10 ^ Z.of_nat prec /\ (prec <= 9)%nat /\
  fdiv (f64 (unit_mult k)) (f64 (10 ^ Z.of_nat i)) = f64 (10 ^ Z.of_nat (prec - i)).
Proof.
  unfold frac_unit. rewrite !elem_of_cons. intros [[= -> ->] | [[= -> ->] | [[= -> ->] | []%not_elem_of_nil]]] Hi;
    (split_ands; [done | done | lia |]); do 10 (destruct i as [| i]; [try lia; vm_compute; reflexivity |]); lia.
Qed.

Lemma frac_term s n ds f k prec rest : decimal s n -> decimal ds f -> frac_unit k prec -> (length ds <= prec)%nat -> starts rest ->
  n * unit_mult k + f * 10 ^ Z.of_nat (prec - length ds) <= 2 ^ 63 ->
  duration_term (s ++ "."%char :: ds ++ unit_name k ++ rest) = Some (n * unit_mult k + f * 10 ^ Z.of_nat (prec - length ds), rest).
Proof.
  intros [Hs Hv] [Hds Hf] Hk Hl Hr Hm. pose proof (unit_mult_range k) as Hu. pose proof (dec_value_ge s 0 n ltac:(lia) Hv) as Hn.
  pose proof (dec_value_ge ds 0 f ltac:(lia) Hf) as Hf0.
  destruct (frac_scale k prec (length ds) Hk) as (Hx & Hunit & Hp9 & Hdiv); [destruct ds; [done | cbn [length] in *; lia] |].
  pose proof (digits_number s (dec_value_digits _ _ _ Hv)) as Hd. unfold duration_term.
  destruct s as [| c s]; [done |]. inversion Hd as [| ? ? Hc _]; subst. cbn [app]. rewrite Hc. cbn [negb].
  assert (Hpos : 0 < 10 ^ Z.of_nat (prec - length ds)) by (apply Z.pow_pos_nonneg; lia).
  assert (Hnb : n * unit_mult k <= 2 ^ 63) by nia.
  pose proof (leading_int_decimal (c :: s) ("."%char :: ds ++ unit_name k ++ rest) 0 n ltac:(lia) eq_refl Hv) as HL. cbn [app] in HL.
  rewrite HL, (proj2 (Z.leb_le _ _)) by nia.
  assert (Hlen : (length ("."%char :: ds ++ unit_name k ++ rest) =? length (c :: s ++ "."%char :: ds ++ unit_name k ++ rest))%nat = false).
  { apply Nat.eqb_neq. cbn [length]. rewrite !length_app. cbn [length]. rewrite !length_app. lia. }
  rewrite Hlen. cbn [negb]. pose proof (dec_value_below ds 0 f Hf) as Hfb.
  assert (Hp : 10 ^ Z.of_nat (length ds) <= 10 ^ 9) by (apply Z.pow_le_mono_r; lia).
  rewrite (leading_fraction_decimal ds _ 0 f 0); [| lia | lia | apply unit_not_digit | done | change (int64_max / 10) with 922337203685477580; lia].
  cbn [andb]. rewrite break_unit_name, unitMap_name by done.
  rewrite (proj2 (Z.ltb_ge _ _)) by (apply Z.div_le_lower_bound; lia). cbn [Nat.add]. rewrite Hdiv.
  destruct (Z.ltb_spec 0 f); [| replace f with 0 by lia; by rewrite Z.mul_0_l, Z.add_0_r].
  assert (Hprod : f * 10 ^ Z.of_nat (prec - length ds) < 2 ^ 53).
  { assert (10 ^ Z.of_nat (length ds) * 10 ^ Z.of_nat (prec - length ds) = unit_mult k).
    { rewrite Hunit, <- Z.pow_add_r by lia. f_equal. lia. }
    assert (unit_mult k <= 10 ^ 9) by (rewrite Hunit; apply Z.pow_le_mono_r; lia). nia. }
  rewrite f64_mul by done. unfold uint64_of_float. rewrite f64_trunc by nia. rewrite decide_True by nia.
  unfold wrapu64. rewrite Z.mod_small by nia. by rewrite (proj2 (Z.ltb_ge _ _)) by lia.
Qed.

(** ** Sums of pieces *)
Record piece := mk_piece { pc_num : gostring; pc_unit : unit_kind; pc_value : Z }.
Definition pc_text (p : piece) : gostring := pc_num p ++ unit_name (pc_unit p).

(** The library reads the piece, or rejects it as too long for a duration. *)
Definition reads (p : piece) : Prop :=
  is_extended (pc_unit p) = false /\ pc_num p <> [] /\ Forall (fun c => number_char c = true) (pc_num p) /\ 0 <= pc_value p /\
  forall rest, starts rest -> duration_term (pc_text p ++ rest) = if pc_value p <=? 2 ^ 63 then Some (pc_value p, rest) else None.

Definition texts (ps : list piece) : gostring := concat (map pc_text ps).
Definition values (ps : list piece) : Z := foldr (fun p n => pc_value p + n) 0 ps.

Lemma texts_cons p ps : texts (p :: ps) = pc_num p ++ unit_name (pc_unit p) ++ texts ps.
Proof. unfold texts, pc_text. cbn. by rewrite app_assoc. Qed.

(** A number is written before the unit. *)
Definition written (p : piece) : Prop := pc_num p <> [] /\ Forall (fun c => number_char c = true) (pc_num p).

Lemma written_start ps : Forall written ps -> starts (texts ps).
Proof.
  destruct ps as [| p ps]; [done |]. rewrite Forall_cons. intros [(Hn & Hc) _]. rewrite texts_cons. by apply number_starts.
Qed.

Lemma reads_written ps : Forall reads ps -> Forall written ps.
Proof. intros Hps. eapply Forall_impl; [exact Hps |]. intros p (_ & Hn & Hc & _). by split. Qed.

Lemma texts_start ps : Forall reads ps -> starts (texts ps).
Proof. intros Hps. by apply written_start, reads_written. Qed.

Lemma values_cons p ps : values (p :: ps) = pc_value p + values ps.
Proof. done. Qed.

Lemma values_nonneg ps : Forall reads ps -> 0 <= values ps.
Proof. induction 1 as [| p ps (_ & _ & _ & Hv & _) _ IH]; [done |]. rewrite values_cons. lia. Qed.

Lemma unit_name_nonempty k : unit_name k <> [].
Proof. by destruct k. Qed.

Lemma texts_extended ps : Forall written ps -> hasExtendedUnit (texts ps) = existsb (fun p => is_extended (pc_unit p)) ps.
Proof.
  induction 1 as [| p ps (Hn & Hc) Hps IH]; [done |]. rewrite texts_cons, piece_has_extended; [| done | by apply written_start | done].
  by rewrite IH.
Qed.

Lemma reads_no_extended ps : Forall reads ps -> existsb (fun p => is_extended (pc_unit p)) ps = false.
Proof. induction 1 as [| p ps (Hk & _) _ IH]; [done |]. cbn. by rewrite Hk. Qed.

Lemma duration_terms_sum ps : forall fuel d, Forall reads ps -> (length (texts ps) <= fuel)%nat -> 0 <= d <= 2 ^ 63 -> d + values ps < 2 ^ 64 ->
  duration_terms fuel d (texts ps) = Some (if d + values ps <=? 2 ^ 63 then Ok (d + values ps) else Err ErrStd).
Proof.
  induction ps as [| p ps IH]; intros fuel d Hps Hf Hd Hs.
  - change (values []) with 0 in *. rewrite Z.add_0_r, (proj2 (Z.leb_le _ _)) by lia. by destruct fuel.
  - pose proof Hps as [(_ & Hn & Hc & Hv & Ht) Hps']%Forall_cons. pose proof (values_nonneg ps Hps') as Hv'. rewrite values_cons in *.
    specialize (Ht (texts ps) (texts_start ps Hps')). assert (Hlen : (length (texts ps) < length (texts (p :: ps)))%nat).
    { rewrite texts_cons, !length_app. destruct (pc_num p); [done | cbn [length]; lia]. }
    unfold pc_text in Ht. rewrite <- app_assoc, <- texts_cons in Ht. destruct (texts (p :: ps)) as [| c s] eqn:Es; [cbn [length] in Hlen; lia |].
    destruct fuel as [| fuel]; [cbn [length] in *; lia |]. cbn [duration_terms]. rewrite Ht.
    destruct (Z.leb_spec (pc_value p) (2 ^ 63)); [| by rewrite (proj2 (Z.leb_gt _ _)) by lia].
    unfold wrapu64. rewrite Z.mod_small by lia.
    destruct (Z.ltb_spec (2 ^ 63) (d + pc_value p)); [by rewrite (proj2 (Z.leb_gt _ _)) by lia |].
    rewrite IH; [| done | cbn [length] in *; lia | lia | lia]. by rewrite Z.add_assoc.
Qed.

Lemma texts_not_zero ps : ps <> [] -> Forall reads ps -> texts ps <> [] /\ texts ps <> lit "0".
Proof.
  destruct ps as [| p ps]; [done |]. rewrite Forall_cons. intros _ [(_ & Hn & _) _]. rewrite texts_cons.
  pose proof (unit_name_nonempty (pc_unit p)). destruct (pc_num p) as [| c s]; [done |].
  split; [done |]. cbn. intros [= _ Hs]. by apply app_eq_nil in Hs as [_ [? _]%app_eq_nil].
Qed.

(** [-], or nothing. *)
Definition sign_text (neg : bool) : gostring := if neg then lit "-" else [].
Definition signed (neg : bool) (n : Z) : Z := if neg then - n else n.

Lemma split_sign_text neg s : starts s -> split_sign (sign_text neg ++ s) = (neg, s).
Proof. intros Hs. destruct neg; [done |]. cbn. destruct s as [| c s]; [done |]. cbn [starts] in Hs. by number_cases Hs. Qed.

Lemma ParseDuration_sum neg ps : ps <> [] -> Forall reads ps -> values ps < 2 ^ 64 ->
  ParseDuration (sign_text neg ++ texts ps) =
    Some (if values ps <=? int64_max + (if neg then 1 else 0) then Ok (wrap64 (signed neg (values ps))) else Err ErrStd).
Proof.
  intros Hne Hps Hs. unfold ParseDuration. rewrite split_sign_text by (by apply texts_start). pose proof (values_nonneg ps Hps) as Hv.
  destruct (texts_not_zero ps Hne Hps) as [He Hz]. rewrite !bool_decide_eq_false_2 by done. rewrite duration_terms_sum by (done || lia).
  rewrite Z.add_0_l. destruct (Z.leb_spec (values ps) (2 ^ 63)) as [Hle | Hgt].
  - destruct neg; cbn [signed].
    + rewrite (proj2 (Z.leb_le _ _)) by (unfold int64_max; lia). do 2 f_equal. destruct (decide (values ps = 2 ^ 63)) as [-> | Hx]; [done |].
      by rewrite (wrap64_id (values ps)) by (unfold int64_ok, int64_min, int64_max; lia).
    + rewrite Z.add_0_r. destruct (Z.leb_spec (values ps) int64_max); [| by rewrite (proj2 (Z.ltb_lt _ _)) by lia].
      rewrite (proj2 (Z.ltb_ge _ _)) by lia. by rewrite wrap64_id by (unfold int64_ok, int64_min; lia).
  - rewrite (proj2 (Z.leb_gt _ _)); [done |]. unfold int64_max. destruct neg; lia.
Qed.

(** ** What [TrimSpace] leaves alone *)
Definition inked (c : ascii) : Prop := ascii_byte c = true /\ ascii_space c = false.

Lemma TrimSpace_inked `{Unicode} c s t e : inked c -> inked e -> c :: s = t ++ [e] -> TrimSpace (c :: s) = c :: s.
Proof.
  intros [Hc1 Hc2] [He1 He2] Heq. unfold TrimSpace. cbn [drop_while]. rewrite Hc2, Hc1. cbn [negb].
  rewrite Heq, rev_app_distr. cbn [rev app drop_while]. rewrite He2, He1. cbn [negb].
  cbn [rev]. by rewrite rev_involutive.
Qed.

Lemma unit_name_last k : exists t e, unit_name k = t ++ [e] /\ inked e.
Proof.
  exists (removelast (unit_name k)), (List.last (unit_name k) "a"%char). by destruct k; vm_compute.
Qed.

Lemma texts_last ps : ps <> [] -> exists t e, texts ps = t ++ [e] /\ inked e.
Proof.
  induction ps as [| p ps IH]; [done |]. intros _. rewrite texts_cons. destruct ps as [| p' ps].
  - destruct (unit_name_last (pc_unit p)) as (t & e & Hk & He). exists (pc_num p ++ t), e. by rewrite app_nil_r, Hk, app_assoc.
  - destruct (IH ltac:(done)) as (t & e & Hk & He). exists (pc_num p ++ unit_name (pc_unit p) ++ t), e. by rewrite Hk, <- !app_assoc.
Qed.

Lemma TrimSpace_pieces `{Unicode} neg ps : ps <> [] -> Forall written ps -> TrimSpace (sign_text neg ++ texts ps) = sign_text neg ++ texts ps.
Proof.
  intros Hne Hps. destruct (texts_last ps Hne) as (t & e & Ht & He). pose proof (written_start ps Hps) as Hst.
  destruct neg; cbn [sign_text].
  - change (lit "-" ++ texts ps) with ("-"%char :: texts ps). apply (TrimSpace_inked _ _ ("-"%char :: t) e); [by vm_compute | done | by rewrite Ht].
  - cbn [app]. destruct (texts ps) as [| c s]; [by destruct t |]. cbn [starts] in Hst.
    apply (TrimSpace_inked _ _ t e); [| done | done]. by number_cases Hst; vm_compute.
Qed.

(** ** Strings of pieces the library reads *)
Lemma Parse_std `{Unicode} neg ps : ps <> [] -> Forall reads ps -> values ps < 2 ^ 64 ->
  (values ps <= Max -> Parse (sign_text neg ++ texts ps) = Some (Ok (signed neg (values ps)))) /\
  (Max < values ps -> exists e, Parse (sign_text neg ++ texts ps) = Some (Err e)).
Proof.
  intros Hne Hps Hs. pose proof (reads_written ps Hps) as Hw. pose proof (values_nonneg ps Hps) as Hv. pose proof Max_value as Hmax.
  assert (Hnil : sign_text neg ++ texts ps <> []).
  { intros [_ He]%app_eq_nil. by destruct (texts_not_zero ps Hne Hps). }
  unfold Parse. rewrite TrimSpace_pieces by done. rewrite bool_decide_eq_false_2 by done.
  rewrite split_sign_text by (by apply written_start). rewrite texts_extended, reads_no_extended by done. cbn [negb].
  rewrite ParseDuration_sum by done. split.
  - intros Hle. rewrite (proj2 (Z.leb_le _ _)) by (destruct neg; lia).
    assert (Hok : int64_ok (signed neg (values ps))) by (unfold int64_ok, int64_min, int64_max in *; destruct neg; cbn [signed]; lia).
    rewrite wrap64_id by done. assert (Hb : - Max <= signed neg (values ps) <= Max) by (destruct neg; cbn [signed]; lia).
    by rewrite (proj2 (Z.ltb_ge _ _)), (proj2 (Z.ltb_ge _ _)) by lia.
  - intros Hgt. destruct (Z.leb_spec (values ps) (int64_max + (if neg then 1 else 0))) as [Hle |]; [| by eexists].
    assert (Hok : int64_ok (signed neg (values ps))) by (unfold int64_ok, int64_min, int64_max in *; destruct neg; cbn [signed]; lia).
    rewrite wrap64_id by done. exists ErrOverflow. destruct neg; cbn [signed].
    + by rewrite orb_comm, (proj2 (Z.ltb_lt _ _)) by lia.
    + by rewrite (proj2 (Z.ltb_lt _ _)) by lia.
Qed.

(** ** Duration.String writes pieces *)
Lemma dec_value_app s t x : dec_value x (s ++ t) = (dec_value x s ≫= fun n => dec_value n t).
Proof. revert x. induction s as [| c s IH]; intros x; cbn; [done |]. by destruct (dec_digit c). Qed.

Lemma mod_step v p : 0 <= v -> (v / 10) mod 10 ^ Z.of_nat p * 10 + v mod 10 = v mod 10 ^ Z.of_nat (S p).
Proof.
  intros Hv. pose proof (Z.pow_pos_nonneg 10 (Z.of_nat p) ltac:(lia) ltac:(lia)).
  rewrite Nat2Z.inj_succ, Z.pow_succ_r, Z.rem_mul_r by lia. lia.
Qed.

Lemma div_step v p : 0 <= v -> v / 10 / 10 ^ Z.of_nat p = v / 10 ^ Z.of_nat (S p).
Proof.
  intros Hv. pose proof (Z.pow_pos_nonneg 10 (Z.of_nat p) ltac:(lia) ltac:(lia)).
  rewrite Nat2Z.inj_succ, Z.pow_succ_r, Z.div_div by lia. done.
Qed.

Lemma fmt_frac_printing prec : forall v buf, 0 <= v ->
  exists ds, fmt_frac_digits prec true v buf = (ds ++ buf, true, v / 10 ^ Z.of_nat prec) /\ length ds = prec /\
    dec_value 0 ds = Some (v mod 10 ^ Z.of_nat prec).
Proof.
  induction prec as [| p IH]; intros v buf Hv.
  - exists []. cbn [fmt_frac_digits]. rewrite Z.div_1_r, Z.mod_1_r. done.
  - destruct (IH (v / 10) (digit_char (v mod 10) :: buf)) as (ds & Hf & Hl & Hd); [by apply Z.div_pos |].
    exists (ds ++ [digit_char (v mod 10)]). cbn [fmt_frac_digits orb]. rewrite Hf, div_step, <- app_assoc by done. split_ands; [done | |].
    + rewrite length_app. cbn. lia.
    + rewrite dec_value_app, Hd. cbn [mbind option_bind dec_value]. rewrite dec_digit_char by (apply Z.mod_pos_bound; lia). by rewrite mod_step.
Qed.

Definition fraction_of (prec : nat) (v : Z) (frac : gostring) : Prop :=
  (frac = [] /\ v mod 10 ^ Z.of_nat prec = 0) \/
  exists ds f, frac = "."%char :: ds /\ decimal ds f /\ (length ds <= prec)%nat /\ f * 10 ^ Z.of_nat (prec - length ds) = v mod 10 ^ Z.of_nat prec.

Lemma fmtFrac_spec v prec buf : 0 <= v -> exists frac, fmtFrac v prec buf = (frac ++ buf, v / 10 ^ Z.of_nat prec) /\ fraction_of prec v frac.
Proof.
  unfold fmtFrac. revert v. induction prec as [| p IH]; intros v Hv.
  - exists []. cbn [fmt_frac_digits]. rewrite Z.div_1_r. split; [done |]. left. by rewrite Z.mod_1_r.
  - cbn [fmt_frac_digits orb]. destruct (Z.eqb_spec (v mod 10) 0) as [Hz | Hz]; cbn [negb].
    + destruct (IH (v / 10)) as (frac & Hf & Hfr); [by apply Z.div_pos |]. exists frac. rewrite div_step in Hf by done. split; [exact Hf |].
      pose proof (mod_step v p Hv) as Hm. rewrite Hz, Z.add_0_r in Hm. destruct Hfr as [[-> Hfr] | (ds & f & -> & Hd & Hl & Hfr)].
      * left. split; [done |]. by rewrite <- Hm, Hfr.
      * right. exists ds, f. split_ands; [done | done | lia |]. rewrite <- Hm, <- Hfr.
        replace (S p - length ds)%nat with (S (p - length ds)) by lia. rewrite Nat2Z.inj_succ, Z.pow_succ_r by lia. lia.
    + destruct (fmt_frac_printing p (v / 10) (digit_char (v mod 10) :: buf)) as (ds & Hf & Hl & Hd); [by apply Z.div_pos |].
      rewrite Hf. exists ("."%char :: ds ++ [digit_char (v mod 10)]). rewrite div_step by done. split; [cbn; by rewrite <- app_assoc |].
      right. exists (ds ++ [digit_char (v mod 10)]), (v mod 10 ^ Z.of_nat (S p)). split_ands; [done | split | rewrite length_app; cbn; lia |].
      * by intros [_ ?]%app_eq_nil.
      * rewrite dec_value_app, Hd. cbn [mbind option_bind dec_value]. rewrite dec_digit_char by (apply Z.mod_pos_bound; lia). by rewrite mod_step.
      * rewrite length_app. cbn [length]. replace (S p - (length ds + 1))%nat with 0%nat by lia. lia.
Qed.

Lemma FormatUint_digits n : 0 <= n < 2 ^ 64 -> FormatUint 10 n <> [] /\ Forall (fun c => is_digit c = true) (FormatUint 10 n).
Proof. intros Hn. destruct (decimal_format n Hn) as [Hne Hv]. split; [done |]. by eapply dec_value_digits. Qed.

Definition whole_piece (n : Z) (k : unit_kind) : piece := mk_piece (FormatUint 10 n) k (n * unit_mult k).

Lemma whole_written n k : 0 <= n < 2 ^ 64 -> written (whole_piece n k).
Proof. intros Hn. destruct (FormatUint_digits n Hn). split; [done | by apply digits_number]. Qed.

Lemma whole_reads n k : 0 <= n < 2 ^ 64 -> is_extended k = false -> reads (whole_piece n k).
Proof.
  intros Hn Hk. destruct (whole_written n k Hn) as [Hne Hc]. pose proof (unit_mult_range k). unfold reads. split_ands; [done | done | done | cbn; nia |].
  intros rest Hr. unfold pc_text, whole_piece. cbn [pc_num pc_unit pc_value]. rewrite <- app_assoc. apply whole_term; [by apply decimal_format | done | done].
Qed.

Definition frac_piece (n v : Z) (frac : gostring) (k : unit_kind) (prec : nat) : piece :=
  mk_piece (FormatUint 10 n ++ frac) k (n * unit_mult k + v mod 10 ^ Z.of_nat prec).

Lemma frac_reads n v frac k prec : 0 <= n < 2 ^ 64 -> frac_unit k prec -> fraction_of prec v frac ->
  n * unit_mult k + v mod 10 ^ Z.of_nat prec <= 2 ^ 63 -> reads (frac_piece n v frac k prec).
Proof.
  intros Hn Hk Hf Hb. assert (Hx : is_extended k = false).
  { revert Hk. unfold frac_unit. rewrite !elem_of_cons. by intros [[= -> _] | [[= -> _] | [[= -> _] | []%not_elem_of_nil]]]. }
  unfold frac_piece. destruct Hf as [[-> Hz] | (ds & f & -> & Hd & Hl & Hv)].
  - rewrite app_nil_r, Hz, Z.add_0_r. by apply whole_reads.
  - destruct (FormatUint_digits n Hn) as [Hne Hc]. pose proof (unit_mult_range k). pose proof Hd as [Hdn Hdd].
    pose proof (Z.mod_pos_bound v (10 ^ Z.of_nat prec) ltac:(apply Z.pow_pos_nonneg; lia)).
    unfold reads. split_ands; cbn [pc_num pc_unit pc_value]; [done | by intros [? _]%app_eq_nil | | nia |].
    + apply Forall_app. split; [by apply digits_number |]. constructor; [done |]. apply digits_number. by eapply dec_value_digits.
    + intros rest Hr. unfold pc_text. cbn [pc_num pc_unit]. rewrite (proj2 (Z.leb_le _ _)) by done. rewrite <- Hv in Hb |- *.
      replace (((FormatUint 10 n ++ "."%char :: ds) ++ unit_name k) ++ rest) with (FormatUint 10 n ++ "."%char :: ds ++ unit_name k ++ rest)
        by (rewrite <- !app_assoc; cbn [app]; by rewrite <- ?app_assoc).
      apply frac_term; [by apply decimal_format | done | done | done | done | done].
Qed.

(** A magnitude is printed as hours, minutes and seconds, or in one small unit. *)
Lemma format_pieces u : 0 <= u < 2 ^ 63 -> exists ps, ps <> [] /\ Forall reads ps /\ texts ps = format_magnitude u /\ values ps = u.
Proof.
  intros Hu. unfold format_magnitude. destruct (Z.ltb_spec u second) as [Hs | Hs].
  - destruct (Z.eqb_spec u 0) as [-> | Hz].
    { exists [whole_piece 0 US]. split_ands; [done | | done | done]. constructor; [by apply whole_reads | constructor]. }
    unfold small_unit. destruct (Z.ltb_spec u microsecond); [| destruct (Z.ltb_spec u millisecond)].
    + exists [whole_piece u UNs]. split_ands; [done | | cbn; by rewrite app_nil_r | cbn; unfold nanosecond; lia].
      constructor; [apply whole_reads; [lia | done] | constructor].
    + destruct (fmtFrac_spec u 3 (micro_sign ++ lit "s")) as (frac & -> & Hf); [lia |].
      exists [frac_piece (u / 10 ^ 3) u frac UMicro 3]. change (Z.of_nat 3) with 3 in *. pose proof (Z.div_mod u (10 ^ 3) ltac:(lia)).
      pose proof (Z.mod_pos_bound u (10 ^ 3) ltac:(lia)). unfold microsecond in *.
      split_ands; [done | | unfold fmtInt; cbn; by rewrite app_nil_r, <- app_assoc | cbn; unfold microsecond; lia].
      constructor; [| constructor]. apply frac_reads; [lia | unfold frac_unit; set_solver | done | cbn; unfold microsecond; lia].
    + destruct (fmtFrac_spec u 6 (lit "ms")) as (frac & -> & Hf); [lia |].
      exists [frac_piece (u / 10 ^ 6) u frac UMs 6]. change (Z.of_nat 6) with 6 in *. pose proof (Z.div_mod u (10 ^ 6) ltac:(lia)).
      pose proof (Z.mod_pos_bound u (10 ^ 6) ltac:(lia)). unfold second, millisecond, microsecond in *.
      split_ands; [done | | unfold fmtInt; cbn; by rewrite app_nil_r, <- app_assoc | cbn; unfold millisecond, microsecond; lia].
      constructor; [| constructor]. apply frac_reads; [lia | unfold frac_unit; set_solver | done | cbn; unfold millisecond, microsecond; lia].
  - destruct (fmtFrac_spec u 9 (lit "s")) as (frac & -> & Hf); [lia |]. change (Z.of_nat 9) with 9 in *. cbn zeta.
    set (q := u / 10 ^ 9). pose proof (Z.div_mod u (10 ^ 9) ltac:(lia)) as Hq. fold q in Hq.
    pose proof (Z.mod_pos_bound u (10 ^ 9) ltac:(lia)). pose proof (Z.mod_pos_bound q 60 ltac:(lia)). pose proof (Z.div_mod q 60 ltac:(lia)).
    assert (Hsp : reads (frac_piece (q mod 60) u frac US 9)).
    { apply frac_reads; [lia | unfold frac_unit; set_solver | done |]. change (unit_mult US) with (10 ^ 9). change (Z.of_nat 9) with 9. lia. }
    assert (Hst : texts [frac_piece (q mod 60) u frac US 9] = fmtInt (q mod 60) (frac ++ lit "s")).
    { rewrite texts_cons. unfold fmtInt, frac_piece. cbn [pc_num pc_unit]. rewrite <- app_assoc. by change (texts []) with ([] : gostring); rewrite app_nil_r. }
    rewrite <- Hst. assert (Hq0 : 0 <= q) by (apply Z.div_pos; lia). assert (Hq1 : q < 2 ^ 64) by (apply Z.div_lt_upper_bound; lia).
    assert (0 <= q / 60) by (apply Z.div_pos; lia). destruct (Z.ltb_spec 0 (q / 60)) as [Hm | Hm].
    + pose proof (Z.mod_pos_bound (q / 60) 60 ltac:(lia)). pose proof (Z.div_mod (q / 60) 60 ltac:(lia)).
      assert (Hmp : reads (whole_piece (q / 60 mod 60) UM)) by (apply whole_reads; [lia | done]).
      assert (0 <= q / 60 / 60) by (apply Z.div_pos; lia).
      destruct (Z.ltb_spec 0 (q / 60 / 60)) as [Hh | Hh].
      * exists [whole_piece (q / 60 / 60) UH; whole_piece (q / 60 mod 60) UM; frac_piece (q mod 60) u frac US 9].
        split_ands; [done | | |].
        -- apply Forall_cons_2; [apply whole_reads; [lia | done] |]. repeat (apply Forall_cons_2; [done |]). apply Forall_nil_2.
        -- by rewrite !(texts_cons (whole_piece _ _)).
        -- rewrite !values_cons. cbn [pc_value whole_piece frac_piece]. change (values []) with 0. change (Z.of_nat 9) with 9.
           unfold unit_mult, hour, minute, second, millisecond, microsecond. lia.
      * exists [whole_piece (q / 60 mod 60) UM; frac_piece (q mod 60) u frac US 9].
        split_ands; [done | repeat (apply Forall_cons_2; [done |]); apply Forall_nil_2 | by rewrite !(texts_cons (whole_piece _ _)) |].
        rewrite !values_cons. cbn [pc_value whole_piece frac_piece]. change (values []) with 0. change (Z.of_nat 9) with 9.
        unfold unit_mult, hour, minute, second, millisecond, microsecond. lia.
    + exists [frac_piece (q mod 60) u frac US 9]. split_ands; [done | by apply Forall_cons_2 | done |].
      rewrite !values_cons. cbn [pc_value frac_piece]. change (values []) with 0. change (Z.of_nat 9) with 9.
      unfold unit_mult, second, millisecond, microsecond. lia.
Qed.

(** The canonical form the configuration is printed with reads back. *)
Lemma Parse_String `{Unicode} d : - Max <= d <= Max -> Parse (Duration_String d) = Some (Ok d).
Proof.
  intros Hd. pose proof Max_value as Hmax. unfold int64_max in Hmax. unfold Duration_String. destruct (Z.ltb_spec d 0) as [Hn | Hn].
  - destruct (format_pieces (- d) ltac:(lia)) as (ps & Hne & Hps & <- & Hv).
    destruct (Parse_std true ps Hne Hps ltac:(lia)) as [Hok _]. change ("-"%char :: texts ps) with (sign_text true ++ texts ps).
    rewrite Hok by lia. cbn [signed]. do 2 f_equal. lia.
  - destruct (format_pieces d ltac:(lia)) as (ps & Hne & Hps & <- & Hv).
    destruct (Parse_std false ps Hne Hps ltac:(lia)) as [Hok _]. change (texts ps) with (sign_text false ++ texts ps).
    rewrite Hok by lia. cbn [signed]. do 2 f_equal. lia.
Qed.

(** ** Mixed strings *)

(** What a duration string of whole numbers says. *)
Abbreviation written_terms := (list (Z * unit_kind)).
Definition pieces (ts : written_terms) : list piece := map (fun t => whole_piece t.1 t.2) ts.
Definition std_terms (ts : written_terms) : written_terms := List.filter (fun t => negb (is_extended t.2)) ts.
Definition total_of (ts : written_terms) : Z := values (pieces ts).
Definition std_total (ts : written_terms) : Z := total_of (std_terms ts).
Definition extended_total (ts : written_terms) : Z := total_of (List.filter (fun t => is_extended t.2) ts).

Definition fits (t : Z * unit_kind) : Prop := 0 <= t.1 < 2 ^ 64.

Lemma pieces_written ts : Forall fits ts -> Forall written (pieces ts).
Proof. induction 1; [constructor |]. constructor; [by apply whole_written | done]. Qed.

Lemma std_reads ts : Forall fits ts -> Forall reads (pieces (std_terms ts)).
Proof.
  induction 1 as [| t ts Ht _ IH]; [constructor |]. cbn [std_terms List.filter]. destruct (is_extended t.2) eqn:Hx; cbn [negb]; [done |].
  constructor; [by apply whole_reads | done].
Qed.

Lemma total_nonneg ts : Forall fits ts -> 0 <= total_of ts.
Proof.
  unfold total_of, values, pieces. induction 1 as [| t ts Ht _ IH]; cbn; [done |]. pose proof (unit_mult_range t.2). unfold fits in Ht.
  cbn in *. nia.
Qed.

Lemma total_split ts : total_of ts = extended_total ts + std_total ts.
Proof.
  unfold extended_total, std_total. induction ts as [| t ts IH]; [done |]. cbn [std_terms List.filter]. fold (std_terms ts).
  unfold total_of, pieces in *. destruct (is_extended t.2); cbn [negb map]; rewrite !values_cons, IH; lia.
Qed.

Lemma Forall_List_filter {A} (P : A -> Prop) f l : Forall P l -> Forall P (List.filter f l).
Proof. induction 1; cbn; [constructor |]. by destruct (f _); [constructor |]. Qed.

Lemma scan_digits s r dot : Forall (fun c => is_digit c = true) s -> (forall c r', r = c :: r' -> number_char c = false) -> scan_number dot (s ++ r) = (s, r).
Proof.
  intros Hs Hr. induction Hs as [| c s Hc _ IH]; cbn [app scan_number]; [| by rewrite Hc, IH].
  destruct r as [| c r]; [done |]. specialize (Hr c r eq_refl). apply orb_false_iff in Hr as [Hd Hp]. cbn. by rewrite Hd, Hp.
Qed.

Lemma leadingDigits_term n k rest : 0 <= n < 2 ^ 64 -> leadingDigits (FormatUint 10 n ++ unit_name k ++ rest) = (FormatUint 10 n, unit_name k ++ rest).
Proof.
  intros Hn. destruct (FormatUint_digits n Hn) as [Hne Hd]. unfold leadingDigits.
  rewrite scan_digits; [| done | by destruct k; intros c r' [= <- _]]. destruct (FormatUint 10 n) as [| c s]; [done |].
  inversion Hd as [| ? ? Hc _]; subst. cbn. by rewrite Hc.
Qed.

Lemma uint_loop_value s : forall x n, 0 <= x <= Max + 255 -> dec_value x s = Some n ->
  uint_loop x s = Ok n \/ (uint_loop x s = Err ErrOverflow /\ Max < n).
Proof.
  pose proof Max_value as Hmax. unfold int64_max in Hmax.
  induction s as [| c s IH]; intros x n Hx Hs; [left; cbn in *; congruence |].
  destruct (dec_digit c) as [d |] eqn:Ed; [| cbn in Hs; by rewrite Ed in Hs]. pose proof (dec_digit_range c d Ed).
  pose proof (dec_value_first c s x n d ltac:(lia) Ed Hs). cbn [uint_loop dec_value] in *. rewrite Ed in Hs.
  unfold nanosecond. rewrite Z.div_1_r. pose proof (Z.mul_div_le Max 10 ltac:(lia)). pose proof (Z.mul_succ_div_gt Max 10 ltac:(lia)).
  destruct (Z.ltb_spec (Max / 10) x); [right; split; [done | lia] |].
  assert (Hc : (byteZ c - 48) mod 256 = d).
  { unfold dec_digit in Ed. destruct (_ && _) eqn:Eb; [| done]. injection Ed as <-. bool_to_prop. apply Z.mod_small. lia. }
  rewrite Hc, wrap64_id by (unfold int64_ok, int64_min, int64_max; lia). apply IH; [lia | done].
Qed.

Lemma parseUint_format n : 0 <= n < 2 ^ 64 -> parseUint (FormatUint 10 n) = Ok n \/ (parseUint (FormatUint 10 n) = Err ErrOverflow /\ Max < n).
Proof.
  intros Hn. unfold parseUint, contains. rewrite bool_decide_eq_false_2.
  - apply uint_loop_value; [pose proof Max_value; lia | by apply decimal_format].
  - apply FormatUint_not_in; [lia | lia | left; by vm_compute].
Qed.

Lemma total_cons t ts : total_of (t :: ts) = t.1 * unit_mult t.2 + total_of ts.
Proof. unfold total_of, pieces. cbn [map]. by rewrite values_cons. Qed.

Lemma pieces_cons t ts : texts (pieces (t :: ts)) = FormatUint 10 t.1 ++ unit_name t.2 ++ texts (pieces ts).
Proof. unfold pieces. cbn [map]. by rewrite texts_cons. Qed.

(** The loop adds the extended terms up and copies the others. *)
Lemma mixed_terms_sum ts : forall fuel total std, Forall fits ts -> (length (texts (pieces ts)) <= fuel)%nat -> 0 <= total <= Max ->
  mixed_terms fuel total std (texts (pieces ts)) =
    Some (if total + extended_total ts <=? Max then Ok (total + extended_total ts, std ++ texts (pieces (std_terms ts))) else Err ErrOverflow).
Proof.
  induction ts as [| [n k] ts IH]; intros fuel total std Hts Hf Ht.
  - change (extended_total []) with 0. rewrite Z.add_0_r, (proj2 (Z.leb_le _ _)) by lia. change (texts (pieces (std_terms []))) with ([] : gostring).
    rewrite app_nil_r. by destruct fuel.
  - apply Forall_cons in Hts as [Hn Hts]. assert (Hn' : 0 <= n < 2 ^ 64) by exact Hn. rewrite pieces_cons in *. cbn [fst snd] in *.
    pose proof (written_start _ (pieces_written ts Hts)) as Hst. pose proof (leadingDigits_term n k (texts (pieces ts)) Hn') as Hl.
    destruct (FormatUint_digits n Hn') as [Hne _]. set (s := FormatUint 10 n ++ unit_name k ++ texts (pieces ts)) in *.
    destruct s as [| c s'] eqn:Es; [by apply app_eq_nil in Es as [? _] |].
    destruct fuel as [| fuel]; [cbn [length] in Hf; lia |]. cbn [mixed_terms]. rewrite Hl, bool_decide_eq_false_2 by done.
    assert (Hfuel : (length (texts (pieces ts)) <= fuel)%nat).
    { apply (f_equal length) in Es. unfold s in Es. rewrite !length_app in Es. cbn [length] in *. destruct (FormatUint 10 n); [done | cbn [length] in Es; lia]. }
    rewrite leadingExtended_name by done. unfold extended_total. cbn [List.filter snd]. pose proof (unit_mult_range k) as Hk.
    assert (He : 0 <= total_of (List.filter (fun t => is_extended t.2) ts)) by (apply total_nonneg; by apply Forall_List_filter).
    destruct (is_extended k) eqn:Ex; cbn [std_terms List.filter negb snd]; rewrite ?Ex; cbn [negb].
    + rewrite total_cons. cbn [fst snd]. destruct (parseUint_format n Hn') as [Hp | [Hp Hbig]]; rewrite Hp.
      2:{ by rewrite (proj2 (Z.leb_gt _ _)) by nia. }
      rewrite mulChecked_spec by lia. destruct (Z.leb_spec (n * unit_mult k) Max); [| by rewrite (proj2 (Z.leb_gt _ _)) by lia].
      pose proof Max_value. rewrite addChecked_spec by (unfold int64_max in *; nia).
      destruct (Z.leb_spec (total + n * unit_mult k) Max); [| by rewrite (proj2 (Z.leb_gt _ _)) by lia].
      rewrite drop_app_length, IH by (done || nia). unfold extended_total. by rewrite Z.add_assoc.
    + rewrite leadingStd_name by done. rewrite drop_app_length, IH by done. rewrite pieces_cons. cbn [fst snd].
      unfold extended_total. by rewrite <- !app_assoc.
Qed.

Lemma has_extended_terms ts : existsb (fun p => is_extended (pc_unit p)) (pieces ts) = existsb (fun t => is_extended t.2) ts.
Proof. induction ts as [| t ts IH]; [done |]. cbn. by rewrite <- IH. Qed.

Lemma no_extended_terms ts : existsb (fun t => is_extended t.2) ts = false -> std_terms ts = ts.
Proof.
  induction ts as [| t ts IH]; [done |]. cbn [existsb]. intros [Ht Hts]%orb_false_iff. cbn [std_terms List.filter]. rewrite Ht. cbn [negb].
  fold (std_terms ts). by rewrite IH.
Qed.

Lemma mixed_total_terms ts : Forall fits ts -> std_total ts < 2 ^ 64 ->
  (total_of ts <= Max -> mixed_total (texts (pieces ts)) = Some (Ok (total_of ts))) /\
  (Max < total_of ts -> exists e, mixed_total (texts (pieces ts)) = Some (Err e)).
Proof.
  intros Hts Hs. pose proof Max_value as Hmax. unfold mixed_total. rewrite mixed_terms_sum by (done || lia). rewrite Z.add_0_l, (total_split ts).
  pose proof (std_reads ts Hts) as Hr. pose proof (values_nonneg _ Hr) as Hv. change (values (pieces (std_terms ts))) with (std_total ts) in Hv.
  assert (He : 0 <= extended_total ts) by (apply total_nonneg; by apply Forall_List_filter).
  destruct (Z.leb_spec (extended_total ts) Max); [| split; [lia | by eexists]]. cbn [app].
  destruct (decide (std_terms ts = [])) as [Hz | Hz].
  - rewrite bool_decide_eq_true_2 by (by rewrite Hz). unfold std_total. rewrite Hz. change (total_of []) with 0. rewrite Z.add_0_r. split; [done | lia].
  - assert (Hp : pieces (std_terms ts) <> []) by (unfold pieces; by destruct (std_terms ts)).
    rewrite bool_decide_eq_false_2 by (by destruct (texts_not_zero _ Hp Hr)).
    pose proof (ParseDuration_sum false _ Hp Hr Hs) as Hd. cbn [sign_text app signed] in Hd. rewrite Hd. change (values (pieces (std_terms ts))) with (std_total ts).
    rewrite Z.add_0_r. destruct (Z.leb_spec (std_total ts) int64_max); [| split; [lia | by eexists]].
    rewrite wrap64_id by (unfold int64_ok, int64_min; lia). rewrite addChecked_spec by lia.
    destruct (Z.leb_spec (extended_total ts + std_total ts) Max); (split; [done || lia | intros; lia || by eexists]).
Qed.

End Pieces.

(** A duration written out term by term. *)
Definition render (neg : bool) (ts : list (Z * unit_kind)) : gostring := sign_text neg ++ texts (pieces ts).

Lemma render_extended `{Unicode, FloatToInt} neg ts : Forall fits ts -> std_total ts < 2 ^ 64 -> existsb (fun t => is_extended t.2) ts = true ->
  (total_of ts <= Max -> Parse (render neg ts) = Some (Ok (signed neg (total_of ts)))) /\
  (Max < total_of ts -> exists e, Parse (render neg ts) = Some (Err e)).
Proof.
  intros Hts Hs Ex. pose proof (pieces_written ts Hts) as Hw. pose proof (written_start _ Hw) as Hst.
  assert (Hp : pieces ts <> []) by (unfold pieces; by destruct ts). unfold render, Parse. rewrite TrimSpace_pieces by done.
  assert (Hnil : sign_text neg ++ texts (pieces ts) <> []).
  { destruct ts as [| t ts]; [done |]. rewrite pieces_cons. by intros [_ [_ [He _]%app_eq_nil]%app_eq_nil]%app_eq_nil; apply unit_name_nonempty in He. }
  rewrite bool_decide_eq_false_2 by done. rewrite split_sign_text, texts_extended, has_extended_terms, Ex by done. cbn [negb].
  destruct (mixed_total_terms ts Hts Hs) as [Hok Herr]. pose proof (total_nonneg ts Hts). pose proof Max_value as Hmax. unfold int64_max in Hmax. split.
  - intros Hle. rewrite Hok by done. destruct neg; [| done]. cbn [signed]. rewrite wrap64_id; [done | unfold int64_ok, int64_min, int64_max; lia].
  - intros Hgt. destruct (Herr Hgt) as [e ->]. by eexists.
Qed.

Lemma FormatInt_nonneg n : 0 <= n -> FormatInt n = FormatUint 10 n.
Proof. intros Hn. unfold FormatInt. by rewrite (proj2 (Z.ltb_ge _ _)) by lia. Qed.

(** [Format] picks the largest unit that divides the duration. *)
Definition format_units : list (Z * gostring) := [(Year, lit "y"); (Month, lit "mon"); (Week, lit "w"); (Day, lit "d")].

Lemma format_unit_kind mult name : (mult, name) ∈ format_units -> exists k, is_extended k = true /\ unit_mult k = mult /\ unit_name k = name.
Proof.
  unfold format_units. rewrite !elem_of_cons.
  intros [[= -> ->] | [[= -> ->] | [[= -> ->] | [[= -> ->] | []%not_elem_of_nil]]]]; [exists UY | exists UMon | exists UW | exists UD]; done.
Qed.

Lemma Parse_Format `{Unicode, FloatToInt} d : - Max <= d <= Max -> Parse (Format d) = Some (Ok d).
Proof.
  intros Hd. pose proof Max_value as Hmax. unfold int64_max in Hmax. unfold Format. destruct (Z.eqb_spec d 0) as [-> | Hz]; [exact (Parse_String 0 Hd) |].
  assert (Hsign : (if d <? 0 then (lit "-", wrap64 (- d)) else ([], d)) = (sign_text (d <? 0), Z.abs d)).
  { destruct (Z.ltb_spec d 0); cbn [sign_text]; [| f_equal; lia]. rewrite wrap64_id by (unfold int64_ok, int64_min, int64_max; lia). f_equal. lia. }
  assert (Hback : signed (d <? 0) (Z.abs d) = d) by (destruct (Z.ltb_spec d 0); cbn [signed]; lia).
  rewrite Hsign. fold format_units. destruct (List.find _ format_units) as [[mult name] |] eqn:Ef.
  - apply find_has in Ef as [Hin Hrem]. apply format_unit_kind in Hin as (k & Hk & <- & <-). cbn [fst] in Hrem. apply Z.eqb_eq in Hrem.
    pose proof (unit_mult_range k). pose proof (Z.quot_rem (Z.abs d) (unit_mult k) ltac:(lia)). pose proof (Z.quot_pos (Z.abs d) (unit_mult k) ltac:(lia) ltac:(lia)).
    rewrite FormatInt_nonneg by lia. set (q := Z.quot (Z.abs d) (unit_mult k)) in *.
    assert (Hfit : Forall fits [(q, k)]) by (apply Forall_cons_2; [split; cbn; nia | constructor]).
    assert (Htot : total_of [(q, k)] = Z.abs d) by (rewrite total_cons; change (total_of []) with 0; cbn [fst snd]; lia).
    destruct (render_extended (d <? 0) [(q, k)] Hfit) as [Hok _]; [| by cbn; rewrite Hk |].
    + unfold std_total, std_terms. cbn [List.filter snd]. by rewrite Hk.
    + unfold render in Hok. rewrite pieces_cons, Htot, Hback in Hok. cbn [fst snd] in Hok. rewrite app_nil_r in Hok. apply Hok. lia.
  - replace (sign_text (d <? 0) ++ Duration_String (Z.abs d)) with (Duration_String d); [by apply Parse_String |].
    unfold Duration_String. rewrite (proj2 (Z.ltb_ge (Z.abs d) 0)) by lia. destruct (Z.ltb_spec d 0); [| by rewrite Z.abs_eq by lia].
    by rewrite Z.abs_neq by lia.
Qed.

(** A string of whole terms in any units, months and minutes next to each
    other included, reads as exactly the signed sum of its terms, and is an
    error when that exceeds Max, provided its standard terms do not add up
    past 64 bits. *)
Theorem parse_sums_terms `{Unicode, FloatToInt} neg ts (Hne : ts <> []) (Hts : Forall fits ts) (Hs : std_total ts < 2 ^ 64) :
  (total_of ts <= Max -> Parse (render neg ts) = Some (Ok (signed neg (total_of ts)))) /\
  (Max < total_of ts -> exists e, Parse (render neg ts) = Some (Err e)).
Proof.
  destruct (existsb (fun t => is_extended t.2) ts) eqn:Ex; [by apply render_extended |].
  pose proof (no_extended_terms ts Ex) as Heq. unfold std_total in Hs. rewrite Heq in Hs.
  apply Parse_std; [unfold pieces; by destruct ts | | done]. rewrite <- Heq. by apply std_reads.
Qed.

(** The condition on the standard terms is needed: the library keeps their sum
    in 64 bits and checks it after adding, so two terms of 2^63 ns cancel out
    and a string of 584 years and an hour reads as an hour. *)
Module Ex.
#[local] Existing Instance ascii_only.
#[local] Instance no_overflow : FloatToInt := {| int_unrepresentable := fun _ => 0 |}.

Example parse_month_minutes : Parse (lit " 1mon30m ") = Some (Ok (Month + 30 * minute)).
Proof. vm_compute. reflexivity. Qed.
Example parse_fraction : Parse (lit "1d0.5h") = Some (Ok (Day + 30 * minute)).
Proof. vm_compute. reflexivity. Qed.
Example parse_fractional_day : Parse (lit "1.5d") = Some (Err ErrFractional).
Proof. vm_compute. reflexivity. Qed.
Example string_day : Duration_String (30 * Day + 1500 * millisecond) = lit "720h0m1.5s".
Proof. vm_compute. reflexivity. Qed.

Lemma wrapped_sum_accepted : Parse (lit "9223372036854775808ns9223372036854775808ns1h") = Some (Ok hour).
Proof. vm_compute. reflexivity. Qed.

Lemma parse_terminates_in_bounds_witness : exists d, Parse (lit " 1mon30m ") = Some (Ok d) /\ 0 <= d <= Max.
Proof.
  destruct (parse_terminates_in_bounds (lit " 1mon30m ")) as (r & Hr & Hb). exists (Month + 30 * minute).
  assert (Ho : r = Ok (Month + 30 * minute)) by (vm_compute in Hr; injection Hr as <-; reflexivity).
  split; [rewrite Hr, Ho; reflexivity |]. destruct (Hb _ Ho) as [Hw Hn]. split; [apply Hn; vm_compute; reflexivity | apply Hw].
Defined.

Lemma parse_sums_terms_witness : Parse (lit "-1y1mon1w1d1h1m1s") = Some (Ok (- (Year + Month + Week + Day + hour + minute + second))).
Proof.
  apply (proj1 (parse_sums_terms true [(1, UY); (1, UMon); (1, UW); (1, UD); (1, UH); (1, UM); (1, US)] ltac:(discriminate)
    ltac:(repeat (apply Forall_cons_2; [vm_compute; split; [discriminate | reflexivity] |]); apply Forall_nil_2) ltac:(vm_compute; reflexivity))).
  vm_compute. discriminate.
Defined.
End Ex.
