(* ===== verification/DomainConfig.v ===== *)
(** * Per-domain configuration (core/config.go)

    The resolved policy of a host and of its path overlays: the validation that
    gates it, the lookup of the scope that governs a request, the origin and
    crawler selectors, and the walks over every scope that feed the caches.
    Decoding YAML onto a copy of the parent is the parameter [merge].

    Difficulties are float64 on a scale of 1 to 8; [option Q] is the exact value
    of one, [None] a NaN or an infinity.  On validated values every operation
    the code applies to them (times 4, Round, their difference) is exact.
    Anomaly thresholds are compared with computed scores, as float64. *)

From Stdlib Require Import QArith Qround Qabs.
From S2P Require Import BotVerify HeaderExempt Stateless.
From S2P Require Import AttackMode Scoreboard Waf Stateless.

Open Scope Z_scope.

(** ** Proof of work *)
Definition PoWAlgorithmSHA256 : gostring := lit "sha256".
Definition PoWAlgorithmArgon2ID : gostring := lit "argon2id".
Definition minArgon2MemoryKiB : Z := 8 * 1024.
Definition maxArgon2MemoryKiB : Z := 32 * 1024.
Definition maxTokenTTL : Z := 30 * 24 * hour.
Definition maxChallengeTTL : Z := 24 * hour.
Definition MaxStateTTL : Z := 365 * 24 * hour.

Record Argon2IDConfig := mk_argon { ag_MemoryKiB : Z; ag_BaseIterations : Z; ag_MaxIterations : Z; ag_AttackIterationsCap : Z }.

Record Rate := mk_rate { rt_Count : Z; rt_Per : Z }.

Record PoWConfig := mk_pow {
  pw_Enabled : bool;
  pw_Algorithm : gostring;
  pw_Mode : gostring;
  pw_BaseDifficulty : option Q;
  pw_MaxDifficulty : option Q;
  pw_TokenTTL : Z;
  pw_ChallengeTTL : Z;
  pw_IssuanceRateLimit : Rate;
  pw_NoScriptRedemptionRateLimit : Rate;
  pw_NoScriptFallback : bool;
  pw_Argon2ID : Argon2IDConfig;
  pw_RefuseUnchallengeable : option bool;
  pw_HeaderExemptions : list PredicateConfig;
  pw_headerExemptionKey : gostring
}.

(** [math.Round]: halves away from zero. *)
Definition round_half_away (q : Q) : Z := if Qle_bool 0 q then Qfloor (q + (1 # 2)) else - Qfloor (- q + (1 # 2)).
Definition difficultyBits (d : Q) : Z := round_half_away (d * 4).
(** A non-finite difficulty never passes validation. *)
Definition bits_of (d : option Q) : Z := match d with Some q => difficultyBits q | None => 0 end.
Definition BaseBits (p : PoWConfig) : Z := bits_of (pw_BaseDifficulty p).
Definition MaxBits (p : PoWConfig) : Z := bits_of (pw_MaxDifficulty p).
Definition UsesArgon2ID (p : PoWConfig) : bool := bool_decide (pw_Algorithm p = PoWAlgorithmArgon2ID).
Definition TokenMinBits (p : PoWConfig) : Z := if UsesArgon2ID p then 0 else BaseBits p.
Definition RefusesUnchallengeable (p : PoWConfig) : bool := default true (pw_RefuseUnchallengeable p).

(** ** Verified crawlers *)
Record BotConfig := mk_bot { b_Name : gostring; b_UAs : list gostring; b_Domains : list gostring; b_uasLower : list gostring; b_domainsLower : list gostring }.
Record VerifiedBotsConfig := mk_vbots { vb_Bots : list BotConfig; vb_CacheTTL : Z; vb_DNSTimeout : Z; vb_NegativeTTL : Z; vb_SpoofAction : gostring }.

Definition botPresets : list (gostring * (list gostring * list gostring)) :=
  [(lit "googlebot", ([lit "Googlebot"], [lit "googlebot.com"]));
   (lit "google-special", ([lit "AdsBot-Google"; lit "Mediapartners-Google"; lit "APIs-Google"], [lit "google.com"]));
   (lit "bingbot", ([lit "bingbot"], [lit "search.msn.com"]));
   (lit "applebot", ([lit "Applebot"], [lit "applebot.apple.com"]));
   (lit "yandexbot", ([lit "Yandex"], [lit "yandex.ru"; lit "yandex.net"; lit "yandex.com"]));
   (lit "baiduspider", ([lit "Baiduspider"], [lit "baidu.com"; lit "baidu.jp"]))].

(** ** Origins *)
Record GeoSelector := mk_geosel { gs_Countries : list gostring; gs_ASNs : list Z; gs_countries : gset gostring; gs_asns : gset Z }.
Record GeoConfig := mk_geo { ge_Enabled : bool; ge_Deny : GeoSelector; ge_Challenge : GeoSelector; ge_Allow : GeoSelector; ge_DefaultAction : gostring }.

(** The reason detail of a selected country or ASN. *)
Definition geo_match (s : GeoSelector) (country : gostring) (asn : Z) : option gostring :=
  if negb (bool_decide (country = [])) && bool_decide (country ∈ gs_countries s) then Some (lit "country:" ++ country)
  else if negb (asn =? 0) && bool_decide (asn ∈ gs_asns s) then Some (lit "asn:" ++ FormatUint 10 asn)
  else None.

Definition geo_empty (s : GeoSelector) : bool := bool_decide (gs_Countries s = []) && bool_decide (gs_ASNs s = []).

(** Action and reason, both empty to pass. *)
Definition geo_Action (g : GeoConfig) (country : gostring) (asn : Z) : gostring * gostring :=
  if negb (ge_Enabled g) then ([], [])
  else match geo_match (ge_Deny g) country asn with
  | Some detail => (lit "deny", lit "geo:" ++ detail)
  | None =>
    match geo_match (ge_Challenge g) country asn with
    | Some detail => (lit "challenge", lit "geo:" ++ detail)
    | None =>
      match geo_match (ge_Allow g) country asn with
      | Some _ => ([], [])
      | None => if bool_decide (ge_DefaultAction g = lit "allow") then ([], []) else (ge_DefaultAction g, lit "geo:default")
      end
    end
  end.

(** ** The WAF sections *)
Record IPBehaviourConfig := mk_ipb { ib_Enabled : bool; ib_BlockTTL : Z; ib_MaxBlockTTL : Z; ib_Thresholds : gmap gostring Rate }.
Record RulesConfig := mk_rulescfg { ru_Enabled : bool; ru_Files : list gostring; ru_DisabledIDs : list gostring; ru_ruleKey : gostring }.
Record AnomalyConfig := mk_anomaly { an_Enabled : bool; an_ObserveOnly : bool; an_Model : gostring; an_ChallengeAt : float; an_DenyAt : float }.

Record WAFConfig := mk_waf { wf_IPBehaviour : IPBehaviourConfig; wf_Rules : RulesConfig; wf_Anomaly : AnomalyConfig; wf_Honeypot : HoneypotConfig }.

(** The policy of one scope. *)
Record DomainConfig := mk_domain {
  dc_WAF : WAFConfig;
  dc_PoW : PoWConfig;
  dc_Geo : GeoConfig;
  dc_Reputation : bool;
  dc_Allowlist : ListConfig;
  dc_Denylist : ListConfig;
  dc_VerifiedBots : VerifiedBotsConfig;
  dc_label : gostring
}.

(** A path overlay; overlays carry none of their own. *)
Record pathOverride := mk_override { po_key : gostring; po_bare : gostring; po_prefix : bool; po_cfg : DomainConfig }.
Record Domain := mk_resolved { rd_cfg : DomainConfig; rd_pathOverrides : list pathOverride }.

Record Argon2VerifierConfig := mk_verifier { av_MaxConcurrent : Z; av_VerificationRateLimit : Rate }.

Record Config := mk_cfg {
  c_Defaults : Domain;
  c_resolved : gmap gostring Domain;
  c_LocationDB : gostring;
  c_ASNDB : gostring;
  c_SigningKeyFile : gostring;
  c_Feeds : nat;
  c_RequireProxied : bool;
  c_MaxInflight : Z;                       (* attack_mode.effects.max_inflight *)
  c_Argon2Verifier : Argon2VerifierConfig
}.

(** ** Validation *)
Inductive cfg_error :=
| EHeader (e : header_error)
| EAlgorithm (a : gostring)
| EArgonMemory | EArgonBase | EArgonMax | EArgonCap
| ESuspicion | EMode (m : gostring)
| EBaseDifficulty | EMaxDifficulty | EQuarterStep
| ETTLNegative (name : gostring) | ETTLZero (name : gostring) | ETokenTTLShort | ETTLTooLong (name : gostring)
| EFileEmpty | EFileDuplicate (f : gostring) | EIDEmpty | EIDDuplicate (i : gostring) | EIDsWithoutFiles
| EAnomaly | EBlockTTLNegative | EBlockTTLOrder | EBlockTTLTooLong
| EHoneypot (e : list_error) | EGeoDefault (a : gostring)
| ECountry (c : gostring) | EASNZero | EGeoOverlap | EGeoInert
| EAllowlist (e : list_error) | EDenylist (e : list_error)
| ESpoofAction (a : gostring) | EBotTTL | EBotTTLTooLong | EBotName (i : nat) | EBotUAs (n : gostring) | EBotDomains (n : gostring)
| EBotEmptyUA (n : gostring) | EBotEmptyDomain (n : gostring) | EBotOverlap (ua n : gostring)
| EGeoNoDB | EGeoNoLocationDB | EGeoNoASNDB
| EMerge (key : gostring) | EPathAlgorithm (key : gostring)
| EPathKeyRelative | EPathKeyQuery | EPathKeyEncoded (d : gostring) | EPathKeyNotNormal (n : gostring)
| ECapBelowBase | ENoSigningKey | ENoModel | ENoFiles | ENoFeeds.

Section Validate.
Context `{Unicode}.
(** [VariantKey] of package headerexempt: the predicates as deterministic JSON. *)
Variable header_VariantKey : list PredicateConfig -> gostring.
Open Scope go_scope.

Definition require (b : bool) (e : cfg_error) : outcome cfg_error unit := if b then Ok tt else Err e.

Definition validate_argon (a : Argon2IDConfig) : outcome cfg_error unit :=
  let! _ := require ((minArgon2MemoryKiB <=? ag_MemoryKiB a) && (ag_MemoryKiB a <=? maxArgon2MemoryKiB)) EArgonMemory in
  let! _ := require ((1 <=? ag_BaseIterations a) && (ag_BaseIterations a <=? 3)) EArgonBase in
  let! _ := require ((ag_BaseIterations a <=? ag_MaxIterations a) && (ag_MaxIterations a <=? 3)) EArgonMax in
  require ((ag_MaxIterations a <=? ag_AttackIterationsCap a) && (ag_AttackIterationsCap a <=? 3)) EArgonCap.

Definition validate_mode (p : PoWConfig) (anomaly : bool) : outcome cfg_error gostring :=
  if bool_decide (pw_Mode p = []) || bool_decide (pw_Mode p = lit "always") then Ok (lit "always")
  else if bool_decide (pw_Mode p = lit "suspicion") then
    if pw_Enabled p && negb anomaly then Err ESuspicion else Ok (lit "suspicion")
  else Err (EMode (pw_Mode p)).

(** [math.Abs(d*4 - math.Round(d*4)) > 1e-9]. *)
Definition off_step (d : Q) : bool := negb (Qle_bool (Qabs (d * 4 - inject_Z (round_half_away (d * 4)))) (1 # 1000000000)).

Definition validate_difficulty (p : PoWConfig) : outcome cfg_error unit :=
  match pw_BaseDifficulty p with
  | None => Err EBaseDifficulty
  | Some b =>
    if negb (Qle_bool 1 b && Qle_bool b 8) then Err EBaseDifficulty
    else match pw_MaxDifficulty p with
         | None => Err EMaxDifficulty
         | Some m =>
           if negb (Qle_bool b m && Qle_bool m 8) then Err EMaxDifficulty
           else if off_step b || off_step m then Err EQuarterStep else Ok tt
         end
  end.

Definition validate_ttl (enabled : bool) (name : gostring) (d max : Z) : outcome cfg_error unit :=
  let! _ := require (0 <=? d) (ETTLNegative name) in
  let! _ := require (negb (enabled && (d <=? 0))) (ETTLZero name) in
  let! _ := require (negb (bool_decide (name = lit "token_ttl") && enabled && (d <? second))) ETokenTTLShort in
  require (d <=? max) (ETTLTooLong name).

(** The proof-of-work section, its key computed and its mode defaulted. *)
Definition validate_pow (p : PoWConfig) (anomaly : bool) : outcome cfg_error PoWConfig :=
  match NormalizeAndValidate (pw_HeaderExemptions p) with
  | Err e => Err (EHeader e)
  | Ok hs =>
    let! _ := require (bool_decide (pw_Algorithm p = PoWAlgorithmSHA256) || bool_decide (pw_Algorithm p = PoWAlgorithmArgon2ID)) (EAlgorithm (pw_Algorithm p)) in
    let! _ := validate_argon (pw_Argon2ID p) in
    let! md := validate_mode p anomaly in
    let! _ := validate_difficulty p in
    let! _ := validate_ttl (pw_Enabled p) (lit "token_ttl") (pw_TokenTTL p) maxTokenTTL in
    let! _ := validate_ttl (pw_Enabled p) (lit "challenge_ttl") (pw_ChallengeTTL p) maxChallengeTTL in
    Ok (mk_pow (pw_Enabled p) (pw_Algorithm p) md (pw_BaseDifficulty p) (pw_MaxDifficulty p) (pw_TokenTTL p) (pw_ChallengeTTL p)
          (pw_IssuanceRateLimit p) (pw_NoScriptRedemptionRateLimit p) (pw_NoScriptFallback p) (pw_Argon2ID p) (pw_RefuseUnchallengeable p) hs (header_VariantKey hs))
  end.

(** Entries neither blank nor repeated. *)
Fixpoint check_entries (empty : cfg_error) (dup : gostring -> cfg_error) (xs seen : list gostring) : outcome cfg_error unit :=
  match xs with
  | [] => Ok tt
  | x :: rest =>
    if bool_decide (TrimSpace x = []) then Err empty
    else if bool_decide (x ∈ seen) then Err (dup x)
    else check_entries empty dup rest (x :: seen)
  end.

Definition validate_rules (r : RulesConfig) : outcome cfg_error RulesConfig :=
  let! _ := check_entries EFileEmpty EFileDuplicate (ru_Files r) [] in
  let! _ := check_entries EIDEmpty EIDDuplicate (ru_DisabledIDs r) [] in
  if negb (is_nil (ru_DisabledIDs r)) && is_nil (ru_Files r) then Err EIDsWithoutFiles
  else Ok (mk_rulescfg (ru_Enabled r) (ru_Files r) (ru_DisabledIDs r) (VariantKey (ru_Files r) (ru_DisabledIDs r))).

Definition finite (f : float) : bool := match f with S754_nan | S754_infinity _ => false | _ => true end.
Definition fle (a b : float) : bool := fge b a.

Definition validate_anomaly (a : AnomalyConfig) : outcome cfg_error unit :=
  require (negb (an_Enabled a && (negb (finite (an_ChallengeAt a)) || negb (finite (an_DenyAt a)) || fle (an_ChallengeAt a) (f64 0) ||
                                  fle (an_DenyAt a) (an_ChallengeAt a) || fgt (an_DenyAt a) (f64 1)))) EAnomaly.

Definition validate_behaviour (b : IPBehaviourConfig) : outcome cfg_error unit :=
  let! _ := require ((0 <=? ib_BlockTTL b) && (0 <=? ib_MaxBlockTTL b)) EBlockTTLNegative in
  let! _ := require (negb ((0 <? ib_MaxBlockTTL b) && (0 <? ib_BlockTTL b) && (ib_MaxBlockTTL b <? ib_BlockTTL b))) EBlockTTLOrder in
  require ((ib_BlockTTL b <=? MaxStateTTL) && (ib_MaxBlockTTL b <=? MaxStateTTL)) EBlockTTLTooLong.

Definition upper_letter (c : ascii) : bool := let v := byteZ c in (65 <=? v) && (v <=? 90).

Fixpoint compile_countries (cs : list gostring) (acc : gset gostring) : outcome cfg_error (gset gostring) :=
  match cs with
  | [] => Ok acc
  | c :: rest =>
    let cc := ToUpper (TrimSpace c) in
    match cc with
    | [a; b] => if upper_letter a && upper_letter b then compile_countries rest ({[cc]} ∪ acc) else Err (ECountry c)
    | _ => Err (ECountry c)
    end
  end.
Fixpoint compile_asns (ns : list Z) (acc : gset Z) : outcome cfg_error (gset Z) :=
  match ns with
  | [] => Ok acc
  | n :: rest => if n =? 0 then Err EASNZero else compile_asns rest ({[n]} ∪ acc)
  end.
Definition compile_selector (s : GeoSelector) : outcome cfg_error GeoSelector :=
  let! countries := compile_countries (gs_Countries s) ∅ in
  let! asns := compile_asns (gs_ASNs s) ∅ in
  Ok (mk_geosel (gs_Countries s) (gs_ASNs s) countries asns).

Definition disjoint_selectors (a b : GeoSelector) : bool :=
  bool_decide (gs_countries a ## gs_countries b) && bool_decide (gs_asns a ## gs_asns b).

(** The code compiles the three selectors in map order: with several bad ones,
    which is reported is unspecified. *)
Definition validate_geo (g : GeoConfig) : outcome cfg_error GeoConfig :=
  let! action :=
    (if bool_decide (ge_DefaultAction g = []) then Ok (lit "allow")
     else if bool_decide (ge_DefaultAction g ∈ [lit "allow"; lit "challenge"; lit "deny"]) then Ok (ge_DefaultAction g)
     else Err (EGeoDefault (ge_DefaultAction g))) in
  let! deny := compile_selector (ge_Deny g) in
  let! challenge := compile_selector (ge_Challenge g) in
  let! allow := compile_selector (ge_Allow g) in
  let! _ := require (disjoint_selectors deny challenge && disjoint_selectors deny allow && disjoint_selectors challenge allow) EGeoOverlap in
  let! _ := require (negb (ge_Enabled g && geo_empty deny && geo_empty challenge && bool_decide (action = lit "allow"))) EGeoInert in
  Ok (mk_geo (ge_Enabled g) deny challenge allow action).

(** ** Crawlers *)
Fixpoint compile_bot_uas (name : gostring) (uas : list gostring) : outcome cfg_error (list gostring) :=
  match uas with
  | [] => Ok []
  | ua :: rest =>
    let ua := TrimSpace ua in
    if bool_decide (ua = []) then Err (EBotEmptyUA name)
    else let! rest := compile_bot_uas name rest in Ok (ToLower ua :: rest)
  end.
Fixpoint compile_bot_domains (name : gostring) (ds : list gostring) : outcome cfg_error (list gostring) :=
  match ds with
  | [] => Ok []
  | d :: rest =>
    let d := ToLower (TrimSuffix (lit ".") (TrimSpace d)) in
    if bool_decide (d = []) then Err (EBotEmptyDomain name)
    else let! rest := compile_bot_domains name rest in Ok (d :: rest)
  end.

Definition preset (name : gostring) : option (list gostring * list gostring) :=
  snd <$> (snd <$> list_find (fun p => p.1 = ToLower name) botPresets).

Definition compile_bot (i : nat) (b : BotConfig) : outcome cfg_error BotConfig :=
  if bool_decide (b_Name b = []) then Err (EBotName i) else
  let known := preset (b_Name b) in
  let! uas := (if negb (is_nil (b_UAs b)) then Ok (b_UAs b) else match known with Some p => Ok p.1 | None => Err (EBotUAs (b_Name b)) end) in
  let! domains := (if negb (is_nil (b_Domains b)) then Ok (b_Domains b) else match known with Some p => Ok p.2 | None => Err (EBotDomains (b_Name b)) end) in
  let! uasLower := compile_bot_uas (b_Name b) uas in
  let! domainsLower := compile_bot_domains (b_Name b) domains in
  Ok (mk_bot (b_Name b) uas domains uasLower domainsLower).

Fixpoint compile_bots (i : nat) (bs : list BotConfig) : outcome cfg_error (list BotConfig) :=
  match bs with
  | [] => Ok []
  | b :: rest => let! b := compile_bot i b in let! rest := compile_bots (S i) rest in Ok (b :: rest)
  end.

Definition compile_vbots (v : VerifiedBotsConfig) : outcome cfg_error VerifiedBotsConfig :=
  let! action :=
    (if bool_decide (vb_SpoofAction v = []) then Ok (lit "deny")
     else if bool_decide (vb_SpoofAction v ∈ [lit "deny"; lit "continue"]) then Ok (vb_SpoofAction v)
     else Err (ESpoofAction (vb_SpoofAction v))) in
  let! _ := require ((0 <=? vb_DNSTimeout v) && (0 <=? vb_CacheTTL v) && (0 <=? vb_NegativeTTL v)) EBotTTL in
  let! _ := require ((vb_CacheTTL v <=? MaxStateTTL) && (vb_NegativeTTL v <=? MaxStateTTL)) EBotTTLTooLong in
  let! bots := compile_bots 0 (vb_Bots v) in
  Ok (mk_vbots bots (vb_CacheTTL v) (vb_DNSTimeout v) (vb_NegativeTTL v) action).

(** [match] of a lower-cased User-Agent. *)
Definition bot_match (v : VerifiedBotsConfig) (lower : gostring) : option BotConfig :=
  if is_nil (vb_Bots v) || bool_decide (lower = []) then None
  else snd <$> list_find (fun b => existsb (fun needle => Contains needle lower) (b_uasLower b) = true) (vb_Bots v).

(** The first allowlisted User-Agent that overlaps a crawler's. *)
Definition bot_overlap (bots : list BotConfig) (uas : list gostring) : option (gostring * gostring) :=
  head (b ← bots; an ← uas;
        if existsb (fun bn => Contains (ToLower an) bn || Contains bn (ToLower an)) (b_uasLower b) then [(an, b_Name b)] else []).

(** ** One scope

    [allow_lists], [deny_lists]: the raw allowlist and denylist (addresses,
    User-Agents, paths) the compiled ones replace. *)
Record RawLists := mk_raw { rl_IPs : list gostring; rl_UAs : list gostring; rl_Paths : list gostring }.

Definition validate (dc : DomainConfig) (allow deny : RawLists) : outcome cfg_error DomainConfig :=
  let w := dc_WAF dc in
  let! pow := validate_pow (dc_PoW dc) (an_Enabled (wf_Anomaly w)) in
  let! rules := validate_rules (wf_Rules w) in
  let! _ := validate_anomaly (wf_Anomaly w) in
  let! _ := validate_behaviour (wf_IPBehaviour w) in
  let! _ := match Validate_honeypot (wf_Honeypot w) with Some e => Err (EHoneypot e) | None => Ok tt end in
  let! geo := validate_geo (dc_Geo dc) in
  let! allowlist := match CompileList (rl_IPs allow) (rl_UAs allow) (rl_Paths allow) with Err e => Err (EAllowlist e) | Ok l => Ok l end in
  let! denylist := match CompileList (rl_IPs deny) (rl_UAs deny) (rl_Paths deny) with Err e => Err (EDenylist e) | Ok l => Ok l end in
  let! bots := compile_vbots (dc_VerifiedBots dc) in
  match bot_overlap (vb_Bots bots) (rl_UAs allow) with
  | Some (an, name) => Err (EBotOverlap an name)
  | None => Ok (mk_domain (mk_waf (wf_IPBehaviour w) rules (wf_Anomaly w) (wf_Honeypot w)) pow geo (dc_Reputation dc) allowlist denylist bots (dc_label dc))
  end.

Definition checkGeoRefs (c : Config) (dc : DomainConfig) : outcome cfg_error unit :=
  let g := dc_Geo dc in
  if negb (ge_Enabled g) then Ok tt else
  let uses {A} (f : GeoSelector -> list A) := negb (is_nil (f (ge_Deny g)) && is_nil (f (ge_Challenge g)) && is_nil (f (ge_Allow g))) in
  let! _ := require (negb (bool_decide (c_LocationDB c = []) && bool_decide (c_ASNDB c = []))) EGeoNoDB in
  let! _ := require (negb (uses gs_Countries && bool_decide (c_LocationDB c = []))) EGeoNoLocationDB in
  require (negb (uses gs_ASNs && bool_decide (c_ASNDB c = []))) EGeoNoASNDB.

(** ** Path overlays *)
Definition validatePathKey (key : gostring) : outcome cfg_error unit :=
  let! _ := require (has_prefix (lit "/") key) EPathKeyRelative in
  let! _ := require (negb (contains_any (lit "?#") key)) EPathKeyQuery in
  let! _ := require (bool_decide (DecodePath key = key)) (EPathKeyEncoded (DecodePath key)) in
  require (bool_decide (NormalizePath key = key)) (EPathKeyNotNormal (NormalizePath key)).

Definition override_of (key : gostring) (cfg : DomainConfig) : pathOverride :=
  mk_override key (TrimSuffix (lit "/") key) (has_suffix (lit "/") key) cfg.

(** The most specific first: the longest key, an exact key before a prefix key
    of the same length, then by name. *)
Definition more_specific (a b : pathOverride) : bool :=
  if negb (length (po_bare a) =? length (po_bare b))%nat then (length (po_bare b) <? length (po_bare a))%nat
  else if negb (Bool.eqb (po_prefix a) (po_prefix b)) then negb (po_prefix a)
  else bytes_leb (po_key a) (po_key b).

(** [merge key]: a copy of the scope's config with the inherited node and then
    the own node of that key decoded onto it, and its raw lists. *)
Variable merge : gostring -> outcome cfg_error (DomainConfig * RawLists * RawLists).

Fixpoint resolve_overrides (c : Config) (keys : list gostring) : outcome cfg_error (list pathOverride) :=
  match keys with
  | [] => Ok []
  | key :: rest =>
    let! (pc, allow, deny) := merge key in
    let! pc := validate pc allow deny in
    let! _ := checkGeoRefs c pc in
    let! rest := resolve_overrides c rest in
    Ok (override_of key pc :: rest)
  end.
End Validate.

Definition specificity (a b : pathOverride) : Prop := more_specific a b = true.
#[global] Instance specificity_dec a b : base.Decision (specificity a b).
Proof. unfold specificity. apply _. Defined.

(** [keys]: the inherited keys and then the own ones that are not among them. *)
Definition resolvePaths `{Unicode} hkey merge (c : Config) (inherited own : list gostring) : outcome cfg_error (list pathOverride) :=
  let keys := merge_sort bytes_le (inherited ++ List.filter (fun k => negb (bool_decide (k ∈ inherited))) own) in
  let! os := resolve_overrides hkey merge c keys in
  Ok (merge_sort specificity os).

Definition override_matches (path : gostring) (o : pathOverride) : bool :=
  if po_prefix o then has_prefix (po_key o) path || bool_decide (path = po_bare o) else bool_decide (path = po_key o).

(** ** The scope of a request *)
Definition ForPath (d : Domain) (path : gostring) : DomainConfig :=
  match list_find (fun o => override_matches path o = true) (rd_pathOverrides d) with
  | Some (_, o) => po_cfg o
  | None => rd_cfg d
  end.

Definition DomainFor `{Unicode} (c : Config) (host : gostring) : Domain :=
  match c_resolved c !! NormalizeHost host with Some d => d | None => c_Defaults c end.

Definition ConfigFor `{Unicode} (c : Config) (host uri : gostring) : DomainConfig :=
  ForPath (DomainFor c host) (NormalizePath (RequestPath uri)).

Definition scopeForRequest `{Unicode} (c : Config) (r : RequestContext) : DomainConfig :=
  ForPath (DomainFor c (q_Host r)) (NormalizedPath r).

Definition PoWAnywhere (d : Domain) : bool :=
  pw_Enabled (dc_PoW (rd_cfg d)) || existsb (fun o => pw_Enabled (dc_PoW (po_cfg o))) (rd_pathOverrides d).

Definition PathOverrideViews (d : Domain) : list (gostring * DomainConfig) := map (fun o => (po_key o, po_cfg o)) (rd_pathOverrides d).

Definition DomainLabel `{Unicode} (c : Config) (host : gostring) : gostring := dc_label (rd_cfg (DomainFor c host)).
Definition MetricLabel (dc : DomainConfig) : gostring := dc_label dc.

(** ** Every scope

    Label, host and config, in the order [eachScope] visits them. *)
Definition visit (label host : gostring) (d : Domain) : list (gostring * gostring * DomainConfig) :=
  (label, host, rd_cfg d) :: map (fun o => (label ++ lit " path " ++ po_key o, host, po_cfg o)) (rd_pathOverrides d).

Definition eachScope (c : Config) : list (gostring * gostring * DomainConfig) :=
  visit (lit "defaults") [] (c_Defaults c) ++
  concat (map (fun host => match c_resolved c !! host with Some d => visit (lit "domain " ++ host) host d | None => [] end)
            (merge_sort bytes_le (map fst (map_to_list (c_resolved c))))).

Definition scopes (c : Config) : list DomainConfig := map snd (eachScope c).

Definition first_error {E A} (f : A -> outcome E unit) (xs : list A) : outcome E unit :=
  fold_left (fun acc x => match acc with Err e => Err e | Ok _ => f x end) xs (Ok tt).

Definition validateAttackDifficultyCap (enabled : bool) (capBits : Z) (c : Config) : outcome cfg_error unit :=
  if negb enabled then Ok tt
  else first_error (fun dc => if pw_Enabled (dc_PoW dc) && (capBits <? BaseBits (dc_PoW dc)) then Err ECapBelowBase else Ok tt) (scopes c).

Definition validateFeatureDependencies `{Unicode} (c : Config) : outcome cfg_error unit :=
  first_error (fun dc =>
    let w := dc_WAF dc in
    if pw_Enabled (dc_PoW dc) && bool_decide (TrimSpace (c_SigningKeyFile c) = []) then Err ENoSigningKey
    else if an_Enabled (wf_Anomaly w) && bool_decide (TrimSpace (an_Model (wf_Anomaly w)) = []) then Err ENoModel
    else if ru_Enabled (wf_Rules w) && is_nil (ru_Files (wf_Rules w)) then Err ENoFiles
    else if dc_Reputation dc && (c_Feeds c =? 0)%nat then Err ENoFeeds
    else Ok tt) (scopes c).

(** The event windows any scope can count under. *)
Definition window_le (a b : BehaviourWindow) : Prop :=
  if bool_decide (bw_Event a = bw_Event b) then bw_Window a <= bw_Window b else bytes_leb (bw_Event a) (bw_Event b) = true.
#[global] Instance window_le_dec a b : base.Decision (window_le a b).
Proof. unfold window_le. destruct (bool_decide _); apply _. Defined.

Definition scope_windows (dc : DomainConfig) : list BehaviourWindow :=
  omap (fun kv => if (rt_Count kv.2 <=? 0) || (rt_Per kv.2 <=? 0) then None else Some {| bw_Event := kv.1; bw_Window := rt_Per kv.2 |})
    (map_to_list (ib_Thresholds (wf_IPBehaviour (dc_WAF dc)))).

#[global] Instance behaviour_window_eq_dec : EqDecision BehaviourWindow.
Proof. solve_decision. Defined.

Definition BehaviourWindows (c : Config) : list BehaviourWindow :=
  merge_sort window_le (remove_dups (concat (map scope_windows (scopes c)))).

(** The rule variants the cache precompiles, one per key, in first-seen order. *)
Fixpoint add_variant (key label : gostring) (r : RulesConfig) (specs : list (gostring * VariantSpec)) : list (gostring * VariantSpec) :=
  match specs with
  | [] => [(key, mk_vspec (ru_Files r) (ru_DisabledIDs r) [label])]
  | (k, s) :: rest =>
    if bool_decide (k = key) then (k, mk_vspec (vs_Paths s) (vs_DisabledIDs s) (vs_Scopes s ++ [label])) :: rest
    else (k, s) :: add_variant key label r rest
  end.

Definition contributes (r : RulesConfig) : bool := negb (is_nil (ru_Files r) || (negb (ru_Enabled r) && is_nil (ru_DisabledIDs r))).

Definition RuleVariants (c : Config) : list VariantSpec :=
  map snd (fold_left (fun acc sc =>
    let r := wf_Rules (dc_WAF sc.2) in if contributes r then add_variant (ru_ruleKey r) sc.1.1 r acc else acc) (eachScope c) []).

Definition RuleFiles (c : Config) : list gostring := fold_left (fun acc s => fold_left (fun acc p => add_unique p acc) (vs_Paths s) acc) (RuleVariants c) [].

Definition HeaderExemptionVariants (c : Config) : gmap gostring (list PredicateConfig) :=
  fold_left (fun acc dc => let p := dc_PoW dc in
    if is_nil (pw_HeaderExemptions p) then acc else <[pw_headerExemptionKey p := pw_HeaderExemptions p]> acc) (scopes c) ∅.

(** Valid but inert settings. *)
Definition scope_warnings (label : gostring) (dc : DomainConfig) : list (gostring * gostring) :=
  let w := dc_WAF dc in
  (if hp_Enabled (wf_Honeypot w) && is_nil (hp_Paths (wf_Honeypot w)) then [(lit "honeypot", label)] else []) ++
  (if pw_Enabled (dc_PoW dc) && bool_decide (pw_Mode (dc_PoW dc) = lit "suspicion") && an_Enabled (wf_Anomaly w) && an_ObserveOnly (wf_Anomaly w)
   then [(lit "suspicion", label)] else []).
Definition Warnings (c : Config) : list (gostring * gostring) := concat (map (fun sc => scope_warnings sc.1.1 sc.2) (eachScope c)).

#[global] Instance Prefix_eq_dec : EqDecision Prefix.
Proof. solve_decision. Defined.

Definition AllowlistUnion (c : Config) : list Prefix := remove_dups (concat (map (fun dc => Prefixes (dc_Allowlist dc)) (scopes c))).

(** ** Overlay order *)
#[export] Instance bytes_le_total : Total bytes_le.
Proof. intros x y. apply bytes_leb_total. Qed.
#[export] Instance bytes_le_trans : Transitive bytes_le.
Proof. intros x y z. apply bytes_leb_trans. Qed.

#[export] Instance specificity_trans : Transitive specificity.
Proof.
  intros a b c. unfold specificity, more_specific.
  destruct (Nat.eqb_spec (length (po_bare a)) (length (po_bare b))) as [E1 | E1], (Nat.eqb_spec (length (po_bare b)) (length (po_bare c))) as [E2 | E2],
    (Nat.eqb_spec (length (po_bare a)) (length (po_bare c))) as [E3 | E3]; cbn [negb]; rewrite ?Nat.ltb_lt; try lia.
  destruct (po_prefix a), (po_prefix b), (po_prefix c); cbn; try done; apply bytes_leb_trans.
Qed.
#[export] Instance specificity_total : Total specificity.
Proof.
  intros a b. unfold specificity, more_specific.
  destruct (Nat.eqb_spec (length (po_bare a)) (length (po_bare b))) as [E | E], (Nat.eqb_spec (length (po_bare b)) (length (po_bare a))) as [E' | E'];
    cbn [negb]; rewrite ?Nat.ltb_lt; try lia.
  destruct (po_prefix a), (po_prefix b); cbn; auto; apply bytes_leb_total.
Qed.

Lemma override_matches_entry key cfg path : override_matches path (override_of key cfg) = match_entry path key.
Proof. done. Qed.

Lemma resolve_overrides_spec `{Unicode} hkey merge c keys : forall os, resolve_overrides hkey merge c keys = Ok os ->
  map po_key os = keys /\ Forall (fun o => o = override_of (po_key o) (po_cfg o) /\ exists pc allow deny,
    merge (po_key o) = Ok (pc, allow, deny) /\ validate hkey pc allow deny = Ok (po_cfg o)) os.
Proof.
  induction keys as [| key keys IH]; intros os; cbn [resolve_overrides]; [by intros [= <-] |].
  destruct (merge key) as [[[pc allow] deny] | e] eqn:Em; [| done]. destruct (validate hkey pc allow deny) as [pc' | e] eqn:Ev; [| done].
  destruct (checkGeoRefs c pc'); [| done]. destruct (resolve_overrides hkey merge c keys) as [rest | e]; [| done]. intros [= <-].
  destruct (IH rest eq_refl) as [Hm Hf]. split; [cbn; by rewrite Hm |]. constructor; [| done]. split; [done |]. by exists pc, allow, deny.
Qed.

(** The first match of a list sorted by specificity. *)
Lemma first_match_most_specific path os : StronglySorted specificity os ->
  match list_find (fun o => override_matches path o = true) os with
  | Some (_, o) => o ∈ os /\ override_matches path o = true /\
      forall o', o' ∈ os -> override_matches path o' = true -> o' = o \/ specificity o o'
  | None => forall o, o ∈ os -> override_matches path o = false
  end.
Proof.
  induction 1 as [| o os Hs IH Hall]; [by intros o ?%not_elem_of_nil |].
  cbn [list_find]. destruct (decide (override_matches path o = true)) as [Hd | Hd].
  - split_ands; [by left | done |]. intros o' [-> | Ho]%elem_of_cons _; [by left | right]. rewrite Forall_forall in Hall. by apply Hall.
  - destruct (list_find _ os) as [[i o1] |]; cbn.
    + destruct IH as (Hin & Hm & Hbest). split_ands; [by right | done |]. intros o' [-> | Ho]%elem_of_cons Hm'; [done | by apply Hbest].
    + intros o' [-> | Ho]%elem_of_cons; [by apply not_true_iff_false | by apply IH].
Qed.

(** ** Reading validation backwards *)
Ltac inv_bind H :=
  repeat match type of H with
  | match ?c with Ok _ => _ | Err _ => _ end = Ok _ => let E := fresh "Hb" in destruct c eqn:E; [| discriminate H]
  | (if ?b then _ else _) = Ok _ => let E := fresh "Hb" in destruct b eqn:E; try discriminate H
  end.

Lemma require_ok b e x : require b e = Ok x -> b = true.
Proof. by destruct b. Qed.

Lemma round_half_away_range q (lo hi : Z) : (inject_Z lo <= q)%Q -> (q <= inject_Z hi)%Q -> 0 <= lo -> lo <= round_half_away q <= hi.
Proof.
  intros Hl Hh Hlo. unfold round_half_away.
  assert (Hq : Qle_bool 0 q = true).
  { apply Qle_bool_iff. eapply Qle_trans; [| exact Hl]. unfold Qle. cbn. lia. }
  rewrite Hq. split.
  - rewrite <- (Qfloor_Z lo) at 1. apply Qfloor_resp_le. eapply Qle_trans; [exact Hl |]. rewrite <- (Qplus_0_r q) at 1. apply Qplus_le_r. done.
  - assert (Qfloor (q + (1 # 2)) < hi + 1); [| lia].
    rewrite Zlt_Qlt. eapply Qle_lt_trans; [apply Qfloor_le |]. rewrite inject_Z_plus. eapply Qle_lt_trans; [apply Qplus_le_l; exact Hh |].
    apply Qplus_lt_r. done.
Qed.

Lemma round_half_away_mono p q : (0 <= p)%Q -> (p <= q)%Q -> round_half_away p <= round_half_away q.
Proof.
  intros H0 Hpq. unfold round_half_away. rewrite (proj2 (Qle_bool_iff 0 p)) by done.
  rewrite (proj2 (Qle_bool_iff 0 q)) by (by eapply Qle_trans). apply Qfloor_resp_le. by apply Qplus_le_l.
Qed.

Lemma validate_difficulty_bits p : validate_difficulty p = Ok tt -> 4 <= BaseBits p <= MaxBits p /\ MaxBits p <= 32.
Proof.
  unfold validate_difficulty, BaseBits, MaxBits, bits_of, difficultyBits.
  destruct (pw_BaseDifficulty p) as [b |]; [| done]. destruct (negb (Qle_bool 1 b && Qle_bool b 8)) eqn:Eb; [done |].
  destruct (pw_MaxDifficulty p) as [m |]; [| done]. destruct (negb (Qle_bool b m && Qle_bool m 8)) eqn:Em; [done |]. intros _.
  bool_to_prop. repeat match goal with H : Qle_bool _ _ = true |- _ => apply Qle_bool_iff in H end.
  assert (Hmul : forall x y : Q, (x <= y)%Q -> (x * 4 <= y * 4)%Q) by (intros x y Hxy; by apply Qmult_le_compat_r).
  assert (Hb4 : (inject_Z 4 <= b * 4)%Q) by (apply (Hmul 1%Q b); done).
  assert (Hm4 : (m * 4 <= inject_Z 32)%Q) by (apply (Hmul m 8%Q); done).
  assert (Hbm : (b * 4 <= m * 4)%Q) by (by apply Hmul).
  assert (Hpos : (0 <= b * 4)%Q) by (eapply Qle_trans; [| exact Hb4]; done).
  pose proof (round_half_away_mono _ _ Hpos Hbm). split; [split; [| done] |].
  - apply (round_half_away_range (b * 4) 4 32); [done | | lia]. by eapply Qle_trans.
  - apply (round_half_away_range (m * 4) 4 32); [| done | lia]. by eapply Qle_trans.
Qed.

(** ** Well-formed scopes *)
Record scope_ok `{Unicode} (hkey : list PredicateConfig -> gostring) (dc : DomainConfig) : Prop := {
  so_bits : 4 <= BaseBits (dc_PoW dc) <= MaxBits (dc_PoW dc) /\ MaxBits (dc_PoW dc) <= 32;
  so_argon : let a := pw_Argon2ID (dc_PoW dc) in 1 <= ag_BaseIterations a <= ag_MaxIterations a /\
    ag_MaxIterations a <= ag_AttackIterationsCap a <= 3 /\ minArgon2MemoryKiB <= ag_MemoryKiB a <= maxArgon2MemoryKiB;
  so_mode : pw_Mode (dc_PoW dc) = lit "always" \/
    (pw_Mode (dc_PoW dc) = lit "suspicion" /\ (pw_Enabled (dc_PoW dc) = true -> an_Enabled (wf_Anomaly (dc_WAF dc)) = true));
  so_ttls : let p := dc_PoW dc in 0 <= pw_TokenTTL p <= maxTokenTTL /\ 0 <= pw_ChallengeTTL p <= maxChallengeTTL /\
    (pw_Enabled p = true -> second <= pw_TokenTTL p /\ 0 < pw_ChallengeTTL p);
  so_header_key : pw_headerExemptionKey (dc_PoW dc) = hkey (pw_HeaderExemptions (dc_PoW dc));
  so_rules : let r := wf_Rules (dc_WAF dc) in ru_ruleKey r = VariantKey (ru_Files r) (ru_DisabledIDs r) /\
    NoDup (ru_Files r) /\ NoDup (ru_DisabledIDs r) /\ (ru_DisabledIDs r <> [] -> ru_Files r <> []);
  so_anomaly : let a := wf_Anomaly (dc_WAF dc) in an_Enabled a = true ->
    fle (an_ChallengeAt a) (f64 0) = false /\ fle (an_DenyAt a) (an_ChallengeAt a) = false /\ fgt (an_DenyAt a) (f64 1) = false;
  so_geo : let g := dc_Geo dc in ge_DefaultAction g ∈ [lit "allow"; lit "challenge"; lit "deny"] /\
    disjoint_selectors (ge_Deny g) (ge_Challenge g) = true /\ disjoint_selectors (ge_Deny g) (ge_Allow g) = true /\
    disjoint_selectors (ge_Challenge g) (ge_Allow g) = true;
  so_spoof : vb_SpoofAction (dc_VerifiedBots dc) ∈ [lit "deny"; lit "continue"];
  so_needles : Forall (fun b => Forall (fun d => d <> []) (b_domainsLower b)) (vb_Bots (dc_VerifiedBots dc))
}.

Section ValidateSpec.
Context `{Unicode} (hkey : list PredicateConfig -> gostring).

Lemma check_entries_ok empty dup xs : forall seen, check_entries empty dup xs seen = Ok tt -> NoDup xs /\ forall x, x ∈ xs -> x ∉ seen.
Proof.
  induction xs as [| x xs IH]; intros seen; cbn [check_entries]; [split; [apply NoDup_nil_2 | by intros x ?%not_elem_of_nil] |].
  destruct (bool_decide (TrimSpace x = [])); [done |]. case_bool_decide as Hx; [done |]. intros Hc. destruct (IH _ Hc) as [Hn Hs]. split.
  - apply NoDup_cons. split; [| done]. intros Hin. apply (Hs x Hin). by left.
  - intros y [-> | Hy]%elem_of_cons; [done |]. specialize (Hs y Hy). by apply not_elem_of_cons in Hs as [_ ?].
Qed.

Lemma validate_pow_ok p anomaly p' : validate_pow hkey p anomaly = Ok p' ->
  pw_HeaderExemptions p' = default [] (match NormalizeAndValidate (pw_HeaderExemptions p) with Ok hs => Some hs | _ => None end) /\
  pw_headerExemptionKey p' = hkey (pw_HeaderExemptions p') /\ pw_Enabled p' = pw_Enabled p /\
  validate_difficulty p' = Ok tt /\ validate_argon (pw_Argon2ID p') = Ok tt /\
  validate_ttl (pw_Enabled p') (lit "token_ttl") (pw_TokenTTL p') maxTokenTTL = Ok tt /\
  validate_ttl (pw_Enabled p') (lit "challenge_ttl") (pw_ChallengeTTL p') maxChallengeTTL = Ok tt /\
  validate_mode p anomaly = Ok (pw_Mode p').
Proof.
  unfold validate_pow. destruct (NormalizeAndValidate _) as [hs | e]; [| done]. intros Hv. inv_bind Hv.
  repeat match goal with u : () |- _ => destruct u end. injection Hv as <-. cbn. split_ands; done.
Qed.

Lemma validate_argon_ok a : validate_argon a = Ok tt -> 1 <= ag_BaseIterations a <= ag_MaxIterations a /\
  ag_MaxIterations a <= ag_AttackIterationsCap a <= 3 /\ minArgon2MemoryKiB <= ag_MemoryKiB a <= maxArgon2MemoryKiB.
Proof. unfold validate_argon. intros Hv. inv_bind Hv. repeat match goal with H : require _ _ = _ |- _ => apply require_ok in H end. bool_to_prop. lia. Qed.

Lemma validate_ttl_ok enabled name d max : validate_ttl enabled name d max = Ok tt -> 0 <= d <= max /\
  (enabled = true -> 0 < d) /\ (enabled = true -> name = lit "token_ttl" -> second <= d).
Proof.
  unfold validate_ttl. intros Hv. inv_bind Hv. repeat match goal with H : require _ _ = _ |- _ => apply require_ok in H end. bool_to_prop.
  repeat match goal with H : _ && _ = false |- _ => apply andb_false_iff in H end. split_ands; try lia.
  - intros ->. match goal with H : true = false \/ _ |- _ => destruct H; [done |] end. bool_to_prop. lia.
  - intros -> ->. match goal with H : _ \/ (d <? second) = false |- _ => destruct H as [Hn |]; [| bool_to_prop; lia] end.
    rewrite andb_true_r in Hn. by apply bool_decide_eq_false in Hn.
Qed.

Lemma compile_bot_domains_ok name ds : forall out, compile_bot_domains name ds = Ok out -> Forall (fun d => d <> []) out.
Proof.
  induction ds as [| d ds IH]; intros out; cbn [compile_bot_domains]; [by intros [= <-] |]. cbv zeta. case_bool_decide as Hd; [done |].
  destruct (compile_bot_domains name ds) as [rest | e]; [| done]. intros [= <-]. constructor; [done | by apply IH].
Qed.

Lemma compile_bots_ok bs : forall i out, compile_bots i bs = Ok out -> Forall (fun b => Forall (fun d => d <> []) (b_domainsLower b)) out.
Proof.
  induction bs as [| b bs IH]; intros i out; cbn [compile_bots]; [by intros [= <-] |].
  destruct (compile_bot i b) as [b' | e] eqn:Eb; [| done]. destruct (compile_bots (S i) bs) as [rest | e] eqn:Er; [| done]. intros [= <-].
  constructor; [| by eapply IH]. unfold compile_bot in Eb. destruct (bool_decide (b_Name b = [])); [done |]. cbv zeta in Eb. inv_bind Eb. injection Eb as <-.
  by eapply compile_bot_domains_ok.
Qed.

Lemma validate_rules_ok r r' : validate_rules r = Ok r' -> ru_ruleKey r' = VariantKey (ru_Files r') (ru_DisabledIDs r') /\
  NoDup (ru_Files r') /\ NoDup (ru_DisabledIDs r') /\ (ru_DisabledIDs r' <> [] -> ru_Files r' <> []).
Proof.
  unfold validate_rules. intros Hv. inv_bind Hv. injection Hv as <-. cbn. repeat match goal with u : () |- _ => destruct u end.
  repeat match goal with H : check_entries _ _ _ _ = Ok tt |- _ => apply check_entries_ok in H as [? _] end.
  split_ands; try done. intros Hne Hnil. rewrite Hnil in *. by destruct (ru_DisabledIDs r).
Qed.

Lemma choice_ok (x d : gostring) (xs : list gostring) (e : cfg_error) y : d ∈ xs ->
  (if bool_decide (x = []) then Ok d else if bool_decide (x ∈ xs) then Ok x else Err e) = Ok y -> y ∈ xs.
Proof. intros Hd. case_bool_decide; [by intros [= <-] |]. case_bool_decide; [by intros [= <-] | done]. Qed.

Lemma validate_geo_ok g g' : validate_geo g = Ok g' -> ge_DefaultAction g' ∈ [lit "allow"; lit "challenge"; lit "deny"] /\
  disjoint_selectors (ge_Deny g') (ge_Challenge g') = true /\ disjoint_selectors (ge_Deny g') (ge_Allow g') = true /\
  disjoint_selectors (ge_Challenge g') (ge_Allow g') = true.
Proof.
  unfold validate_geo. intros Hv. inv_bind Hv. injection Hv as <-. cbn [ge_DefaultAction ge_Deny ge_Challenge ge_Allow].
  repeat match goal with H : require _ _ = Ok _ |- _ => apply require_ok in H end. bool_to_prop.
  split_ands; try done. eapply choice_ok; [| eassumption]. by left.
Qed.

Lemma compile_vbots_ok v v' : compile_vbots v = Ok v' -> vb_SpoofAction v' ∈ [lit "deny"; lit "continue"] /\
  Forall (fun b => Forall (fun d => d <> []) (b_domainsLower b)) (vb_Bots v').
Proof.
  unfold compile_vbots. intros Hv. inv_bind Hv. injection Hv as <-. cbn [vb_SpoofAction vb_Bots].
  split; [eapply choice_ok; [| eassumption]; by left | by eapply compile_bots_ok].
Qed.

Lemma validate_anomaly_ok a : validate_anomaly a = Ok tt -> an_Enabled a = true ->
  fle (an_ChallengeAt a) (f64 0) = false /\ fle (an_DenyAt a) (an_ChallengeAt a) = false /\ fgt (an_DenyAt a) (f64 1) = false.
Proof. unfold validate_anomaly. intros Hr He. apply require_ok in Hr. rewrite He in Hr. rewrite andb_true_l in Hr. bool_to_prop. done. Qed.

Lemma validate_mode_ok p anomaly m : validate_mode p anomaly = Ok m ->
  m = lit "always" \/ (m = lit "suspicion" /\ (pw_Enabled p = true -> anomaly = true)).
Proof.
  unfold validate_mode. destruct (_ || _); [intros [= <-]; by left |]. destruct (bool_decide _); [| done].
  destruct (pw_Enabled p && negb anomaly) eqn:E; [done |]. intros [= <-]. right. split; [done |]. intros He. rewrite He in E. by apply negb_false_iff in E.
Qed.

Lemma validate_scope_ok dc allow deny dc' : validate hkey dc allow deny = Ok dc' -> scope_ok hkey dc'.
Proof.
  unfold validate. cbv zeta. intros Hv. inv_bind Hv. destruct (bot_overlap _ _) as [[an name] |]; [done |]. injection Hv as <-.
  repeat match goal with u : () |- _ => destruct u end.
  match goal with H : validate_pow _ _ _ = Ok _ |- _ => destruct (validate_pow_ok _ _ _ H) as (_ & Hkey & Hen & Hd & Ha & Ht & Hc & Hm) end.
  destruct (validate_ttl_ok _ _ _ _ Ht) as (? & ? & Hs), (validate_ttl_ok _ _ _ _ Hc) as (? & ? & _).
  constructor; cbn [dc_WAF dc_PoW dc_Geo dc_VerifiedBots wf_Rules wf_Anomaly].
  - pose proof (validate_difficulty_bits _ Hd). lia.
  - by apply validate_argon_ok.
  - rewrite Hen. by apply validate_mode_ok.
  - split_ands; try lia. auto.
  - done.
  - by eapply validate_rules_ok.
  - by apply validate_anomaly_ok.
  - by eapply validate_geo_ok.
  - by eapply compile_vbots_ok.
  - by eapply compile_vbots_ok.
Qed.
End ValidateSpec.

Lemma specificity_order o o' : specificity o o' -> (length (po_bare o') <= length (po_bare o))%nat /\
  (length (po_bare o') = length (po_bare o) -> po_prefix o = true -> po_prefix o' = true).
Proof.
  unfold specificity, more_specific. destruct (Nat.eqb_spec (length (po_bare o)) (length (po_bare o'))) as [E | E]; cbn [negb].
  - intros Hc. split; [lia |]. intros _ Hp. rewrite Hp in Hc. by destruct (po_prefix o').
  - rewrite Nat.ltb_lt. lia.
Qed.

(** A clean result's keys are the keys of the two sources. *)
Lemma override_keys inherited own key :
  key ∈ merge_sort bytes_le (inherited ++ List.filter (fun k => negb (bool_decide (k ∈ inherited))) own) <-> key ∈ inherited \/ key ∈ own.
Proof.
  rewrite (merge_sort_Permutation bytes_le _), elem_of_app, (list_elem_of_In (List.filter _ _) key), filter_In, <- list_elem_of_In, negb_true_iff, bool_decide_eq_false.
  destruct (decide (key ∈ inherited)); tauto.
Qed.

(** ** Walks over the scopes *)
Lemma window_le_bytes (a b : BehaviourWindow) : window_le a b -> bytes_leb (bw_Event a) (bw_Event b) = true.
Proof. unfold window_le. case_bool_decide as E; [rewrite E; intros _; by destruct (bytes_leb_total (bw_Event b) (bw_Event b)) | done]. Qed.
#[export] Instance window_le_total : Total window_le.
Proof.
  intros a b. unfold window_le. case_bool_decide as E; case_bool_decide as E'; try congruence; [lia | apply bytes_leb_total].
Qed.
#[export] Instance window_le_trans : Transitive window_le.
Proof.
  intros a b c Hab Hbc. pose proof (bytes_leb_trans _ _ _ (window_le_bytes a b Hab) (window_le_bytes b c Hbc)) as Hac.
  unfold window_le in *. case_bool_decide as E1; case_bool_decide as E2; case_bool_decide as E3; try congruence; try lia.
  exfalso. apply E1. apply bytes_leb_antisym; [done | by rewrite <- E3].
Qed.

Lemma scope_windows_spec dc w : w ∈ scope_windows dc <->
  exists r, ib_Thresholds (wf_IPBehaviour (dc_WAF dc)) !! bw_Event w = Some r /\ 0 < rt_Count r /\ rt_Per r = bw_Window w /\ 0 < bw_Window w.
Proof.
  unfold scope_windows. rewrite list_elem_of_omap. split.
  - intros ([k r] & Hin%elem_of_map_to_list & Hw). cbn in Hw. destruct (_ || _) eqn:E; [done |]. injection Hw as <-. bool_to_prop. cbn. exists r. split_ands; lia || done.
  - intros (r & Hl & Hc & Hp & Hw). exists (bw_Event w, r). split; [by apply elem_of_map_to_list |]. cbn [fst snd].
    destruct ((rt_Count r <=? 0) || (rt_Per r <=? 0)) eqn:E; [apply orb_true_iff in E; rewrite !Z.leb_le in E; lia |]. rewrite Hp. by destruct w.
Qed.

Lemma add_variant_in key label r specs k s : (k, s) ∈ add_variant key label r specs ->
  (k = key /\ vs_Paths s = ru_Files r /\ vs_DisabledIDs s = ru_DisabledIDs r) \/
  exists s0, (k, s0) ∈ specs /\ vs_Paths s0 = vs_Paths s /\ vs_DisabledIDs s0 = vs_DisabledIDs s.
Proof.
  induction specs as [| [k0 s0] specs IH]; cbn [add_variant]; [intros [= -> ->]%list_elem_of_singleton; by left |].
  case_bool_decide as E.
  - intros [[= -> ->] | Hin]%elem_of_cons; right; [exists s0; split; [by left | done] | exists s; split; [by right | done]].
  - intros [[= -> ->] | Hin]%elem_of_cons; [right; exists s0; split; [by left | done] |].
    destruct (IH Hin) as [? | (s1 & ? & ?)]; [by left | right; exists s1; split; [by right | done]].
Qed.

Lemma add_variant_keys key label r specs k : k ∈ map fst (add_variant key label r specs) <-> k = key \/ k ∈ map fst specs.
Proof.
  induction specs as [| [k0 s0] specs IH]; cbn [add_variant map fst]; [rewrite list_elem_of_singleton, elem_of_nil; tauto |].
  case_bool_decide as E; cbn [map fst]; rewrite !elem_of_cons; [subst; tauto | rewrite IH; tauto].
Qed.

(** The contributing rules of every scope, in order. *)
Definition rules_of (sc : gostring * gostring * DomainConfig) : RulesConfig := wf_Rules (dc_WAF sc.2).
Definition variant_fold (scs : list (gostring * gostring * DomainConfig)) (acc : list (gostring * VariantSpec)) : list (gostring * VariantSpec) :=
  fold_left (fun acc sc => if contributes (rules_of sc) then add_variant (ru_ruleKey (rules_of sc)) sc.1.1 (rules_of sc) acc else acc) scs acc.

Lemma variant_fold_spec scs : forall acc,
  (forall k s, (k, s) ∈ variant_fold scs acc -> (exists sc, sc ∈ scs /\ contributes (rules_of sc) = true /\ ru_ruleKey (rules_of sc) = k /\
      vs_Paths s = ru_Files (rules_of sc) /\ vs_DisabledIDs s = ru_DisabledIDs (rules_of sc)) \/
    exists s0, (k, s0) ∈ acc /\ vs_Paths s0 = vs_Paths s /\ vs_DisabledIDs s0 = vs_DisabledIDs s) /\
  (forall k, k ∈ map fst acc \/ (exists sc, sc ∈ scs /\ contributes (rules_of sc) = true /\ ru_ruleKey (rules_of sc) = k) -> k ∈ map fst (variant_fold scs acc)).
Proof.
  induction scs as [| sc scs IH]; intros acc; cbn [variant_fold fold_left].
  { split; [intros k s Hin; right; by exists s |]. intros k [Hk | (sc & Hsc%not_elem_of_nil & _)]; done. }
  destruct (contributes (rules_of sc)) eqn:Ec.
  - destruct (IH (add_variant (ru_ruleKey (rules_of sc)) sc.1.1 (rules_of sc) acc)) as [H1 H2]. split.
    + intros k s Hin. destruct (H1 k s Hin) as [(sc' & ? & ?) | (s0 & Hin0 & Hp & Hd)]; [left; exists sc'; split; [by right | done] |].
      apply add_variant_in in Hin0 as [(-> & Hp0 & Hd0) | (s1 & Hin1 & Hp1 & Hd1)].
      * left. exists sc. split_ands; [by left | done | done | congruence | congruence].
      * right. exists s1. split_ands; [done | congruence | congruence].
    + intros k Hk. apply H2. rewrite add_variant_keys. destruct Hk as [Hk | (sc' & [-> | Hsc]%elem_of_cons & Hc & Hk)]; [by left; right | by left; left |].
      right. by exists sc'.
  - destruct (IH acc) as [H1 H2]. split.
    + intros k s Hin. destruct (H1 k s Hin) as [(sc' & ? & ?) | ?]; [left; exists sc'; split; [by right | done] | by right].
    + intros k Hk. apply H2. destruct Hk as [Hk | (sc' & [-> | Hsc]%elem_of_cons & Hc & Hk)]; [by left | congruence | right; by exists sc'].
Qed.

Lemma RuleVariants_spec c :
  (forall s, s ∈ RuleVariants c -> exists dc, dc ∈ scopes c /\ contributes (wf_Rules (dc_WAF dc)) = true /\
     vs_Paths s = ru_Files (wf_Rules (dc_WAF dc)) /\ vs_DisabledIDs s = ru_DisabledIDs (wf_Rules (dc_WAF dc))) /\
  (forall dc, dc ∈ scopes c -> contributes (wf_Rules (dc_WAF dc)) = true -> exists s dc', s ∈ RuleVariants c /\ dc' ∈ scopes c /\
     contributes (wf_Rules (dc_WAF dc')) = true /\ ru_ruleKey (wf_Rules (dc_WAF dc')) = ru_ruleKey (wf_Rules (dc_WAF dc)) /\
     vs_Paths s = ru_Files (wf_Rules (dc_WAF dc')) /\ vs_DisabledIDs s = ru_DisabledIDs (wf_Rules (dc_WAF dc'))).
Proof.
  unfold RuleVariants. change (fold_left _ (eachScope c) []) with (variant_fold (eachScope c) []).
  destruct (variant_fold_spec (eachScope c) []) as [H1 H2]. split.
  - intros s Hin. apply list_elem_of_fmap in Hin as ([k s'] & -> & Hin). destruct (H1 k s' Hin) as [(sc & Hsc & Hc & _ & Hp & Hd) | (s0 & Hn%not_elem_of_nil & _)]; [| done].
    exists sc.2. split_ands; try done. by apply list_elem_of_fmap_2.
  - intros dc Hin Hc. apply list_elem_of_fmap in Hin as (sc & -> & Hsc). specialize (H2 (ru_ruleKey (rules_of sc)) ltac:(right; by exists sc)).
    apply list_elem_of_fmap in H2 as ([k s] & Hk & Hin). destruct (H1 k s Hin) as [(sc' & Hsc' & Hc' & Hk' & Hp & Hd) | (s0 & Hn%not_elem_of_nil & _)]; [| done].
    exists s, sc'.2. split_ands; try done; [by apply (list_elem_of_fmap_2 snd _ (k, s)) | by apply list_elem_of_fmap_2 | by transitivity k].
Qed.

(** ** A concrete configuration *)
Module Ex.
#[export] Existing Instance ascii_only.
#[export] Existing Instance Waf.Ex.literals.

Definition argon : Argon2IDConfig := mk_argon (16 * 1024) 1 2 3.
Definition pow (base max : Q) : PoWConfig :=
  mk_pow true PoWAlgorithmSHA256 [] (Some base) (Some max) (24 * hour) hour (mk_rate 60 minute) (mk_rate 6 minute) false argon None [] [].
Definition selector : GeoSelector := mk_geosel [] [] ∅ ∅.
Definition thresholds : gmap gostring Rate := {[ lit "not_found" := mk_rate 20 (60 * second); lit "denied" := mk_rate 0 second ]}.
Definition rules (files : list gostring) : RulesConfig := mk_rulescfg true files [] [].
Definition waf (files : list gostring) : WAFConfig :=
  mk_waf (mk_ipb true hour (24 * hour) thresholds) (rules files) (mk_anomaly false false [] (f64 0) (f64 0)) (mk_honeypot false []).
Definition googlebot : BotConfig := mk_bot (lit "googlebot") [] [] [] [].
Definition no_list : ListConfig := mk_list [] [] [].
Definition bots (bs : list BotConfig) : VerifiedBotsConfig := mk_vbots bs hour second hour [].
Definition scope (label : gostring) (base max : Q) : DomainConfig :=
  mk_domain (waf [lit "a"]) (pow base max) (mk_geo false selector selector selector []) false no_list no_list (bots [googlebot]) label.
Definition raw : RawLists := mk_raw [] [] [].

(** The predicates' key, when there are none. *)
Definition hkey (hs : list PredicateConfig) : gostring := [].
Definition valid (dc : DomainConfig) : DomainConfig := match validate hkey dc raw raw with Ok dc => dc | Err _ => dc end.
(** Every overlay raises the difficulty. *)
Definition merge (key : gostring) : outcome cfg_error (DomainConfig * RawLists * RawLists) := Ok (scope key 5 6, raw, raw).
Definition cfg : Config := mk_cfg (mk_resolved (valid (scope (lit "defaults") 4 6)) []) ∅ [] [] (lit "key") 0 false 0 (mk_verifier 1 (mk_rate 10 minute)).
Definition overlays : list pathOverride :=
  match resolvePaths hkey merge cfg [lit "/api/"] [lit "/api/login"; lit "/api/"] with Ok os => os | Err _ => [] end.
Definition read (p : gostring) : option gostring := Some (lit "probe").
End Ex.

(** * Properties *)


(** A request is governed by the overlay with the longest matching key, an
    exact key before a prefix key of the same length, and by the scope itself
    when none matches; the overlays are those of the inherited and the own
    keys, each validated. *)
Theorem most_specific_override_governs `{Unicode} (hkey : list PredicateConfig -> gostring) merge c inherited own os dc path :
  resolvePaths hkey merge c inherited own = Ok os ->
  (forall key, (exists o, o ∈ os /\ po_key o = key) <-> key ∈ inherited \/ key ∈ own) /\
  (forall o, o ∈ os -> scope_ok hkey (po_cfg o)) /\
  (((forall o, o ∈ os -> match_entry path (po_key o) = false) /\ ForPath (mk_resolved dc os) path = dc) \/
   (exists o, o ∈ os /\ match_entry path (po_key o) = true /\ ForPath (mk_resolved dc os) path = po_cfg o /\
      forall o', o' ∈ os -> match_entry path (po_key o') = true ->
        (length (po_bare o') <= length (po_bare o))%nat /\
        (length (po_bare o') = length (po_bare o) -> po_prefix o = true -> po_prefix o' = true))).
Proof.
  unfold resolvePaths. cbv zeta. set (keys := merge_sort bytes_le _). destruct (resolve_overrides hkey merge c keys) as [os0 | e] eqn:Er; [| done].
  intros [= <-]. destruct (resolve_overrides_spec _ _ _ _ _ Er) as [Hkeys Hall]. rewrite Forall_forall in Hall.
  assert (Hin : forall o, o ∈ merge_sort specificity os0 <-> o ∈ os0) by (intros o; by rewrite (merge_sort_Permutation specificity os0)).
  assert (Hm : forall o, o ∈ merge_sort specificity os0 -> override_matches path o = match_entry path (po_key o)).
  { intros o Ho%Hin. destruct (Hall o Ho) as [E _]. rewrite E at 1. apply override_matches_entry. }
  split_ands.
  - intros key. rewrite <- override_keys. fold keys. rewrite <- Hkeys, list_elem_of_fmap.
    split; [intros (o & Ho & <-) | intros (o & -> & Ho)]; exists o; rewrite ?Hin in *; done.
  - intros o Ho%Hin. destruct (Hall o Ho) as [_ (pc & al & de & _ & Hv)]. by eapply validate_scope_ok.
  - pose proof (first_match_most_specific path (merge_sort specificity os0) (StronglySorted_merge_sort specificity os0)) as Hf.
    unfold ForPath. cbn [rd_pathOverrides rd_cfg]. destruct (list_find _ _) as [[i o] |].
    + right. destruct Hf as (Ho & Hmo & Hbest). exists o. split_ands; [done | by rewrite <- Hm | done |].
      intros o' Ho' Hmo'. rewrite <- Hm in Hmo' by done. destruct (Hbest o' Ho' Hmo') as [-> | Hs]; [split; [lia | done] |].
      by apply specificity_order.
    + left. split; [| done]. intros o Ho. rewrite <- Hm by done. by apply Hf.
Qed.

(** C30: A scope that validation accepts satisfies what the pipeline relies on:
    ordered difficulties of 4 to 32 bits, Argon2 costs and lifetimes in range,
    defaulted modes, disjoint origin selectors, keys that name the compiled
    variants, no empty crawler domain. *)
Theorem validated_scope_well_formed `{Unicode} (hkey : list PredicateConfig -> gostring) dc allow deny dc' :
  validate hkey dc allow deny = Ok dc' -> scope_ok hkey dc'.
Proof. apply validate_scope_ok. Qed.

(** BehaviourWindows lists, sorted and once each, exactly the event and
    window pairs some scope counts. *)
Theorem behaviour_windows_complete (c : Config) :
  StronglySorted window_le (BehaviourWindows c) /\ NoDup (BehaviourWindows c) /\
  forall w, w ∈ BehaviourWindows c <-> exists dc r, dc ∈ scopes c /\
    ib_Thresholds (wf_IPBehaviour (dc_WAF dc)) !! bw_Event w = Some r /\ 0 < rt_Count r /\ rt_Per r = bw_Window w /\ 0 < bw_Window w.
Proof.
  unfold BehaviourWindows. split_ands; [apply (StronglySorted_merge_sort window_le) | rewrite (merge_sort_Permutation window_le _); apply NoDup_remove_dups |].
  intros w. rewrite (merge_sort_Permutation window_le _), elem_of_remove_dups, list_elem_of_In, in_concat.
  setoid_rewrite <- list_elem_of_In. setoid_rewrite (list_elem_of_fmap scope_windows). split.
  - intros (l & (dc & -> & Hdc) & Hw). apply scope_windows_spec in Hw as (r & ?). by exists dc, r.
  - intros (dc & r & Hdc & Hw). exists (scope_windows dc). split; [by exists dc | by apply scope_windows_spec; exists r].
Qed.

(** In a rule cache built from the variants of the config, after any
    sequence of polls, the key of every contributing scope answers the rules
    of its own files in order minus its own disabled ones, unless two rule
    selections collide on a key. *)
Theorem every_scope_gets_its_rules `{Unicode, Regexp} (decode : gostring -> option (list ruleYAML)) read (c : Config) rc reads :
  (forall dc, dc ∈ scopes c -> ru_ruleKey (wf_Rules (dc_WAF dc)) = VariantKey (ru_Files (wf_Rules (dc_WAF dc))) (ru_DisabledIDs (wf_Rules (dc_WAF dc)))) ->
  (forall a b, a ∈ scopes c -> b ∈ scopes c -> ru_ruleKey (wf_Rules (dc_WAF a)) = ru_ruleKey (wf_Rules (dc_WAF b)) ->
     ru_Files (wf_Rules (dc_WAF a)) = ru_Files (wf_Rules (dc_WAF b)) /\ ru_DisabledIDs (wf_Rules (dc_WAF a)) ≡ₚ ru_DisabledIDs (wf_Rules (dc_WAF b))) ->
  NewRuleCacheVariants decode read (RuleVariants c) = Ok rc ->
  let rc' := fold_left (fun rc r => reloadChanged decode r rc) reads rc in
  forall dc, dc ∈ scopes c -> contributes (wf_Rules (dc_WAF dc)) = true ->
  exists rs, Get (ru_ruleKey (wf_Rules (dc_WAF dc))) rc' = Some rs /\
    rs_Rules rs = List.filter (kept (ru_DisabledIDs (wf_Rules (dc_WAF dc)))) (concat (map rs_Rules (sets_of (rc_files rc') (ru_Files (wf_Rules (dc_WAF dc))))))
    /\ length (sets_of (rc_files rc') (ru_Files (wf_Rules (dc_WAF dc)))) = length (ru_Files (wf_Rules (dc_WAF dc))).
Proof.
  intros Hkey Hinj Hnew rc' dc Hdc Hc. destruct (reloads_ok decode read (RuleVariants c) rc reads Hnew) as (Hok & Hid). fold rc' in Hok, Hid.
  destruct (NewRuleCacheVariants_ids decode read (RuleVariants c) rc Hnew) as [Hfrom Hall]. destruct (RuleVariants_spec c) as [Hspecs Hcover].
  destruct (Hcover dc Hdc Hc) as (s & dc1 & Hs & Hdc1 & Hc1 & Hk1 & Hp1 & Hd1).
  destruct (Get_is_Some rc' (ru_ruleKey (wf_Rules (dc_WAF dc)))) as [rs Hget].
  { destruct (Hall s Hs) as (v & Hv & Hvk). rewrite Hp1, Hd1, <- Hkey, Hk1 in Hvk by done. apply (identity_key rc rc'); [done | by exists v]. }
  exists rs. split; [done |]. destruct (Get_variant _ _ _ Hget) as (v & Hv & Hvk & <-).
  destruct (Hfrom (id_of v)) as [Hvk2 (s2 & Hs2 & Hp2 & Hd2)]; [rewrite <- Hid; by apply (list_elem_of_fmap_2 id_of) |].
  destruct (Hspecs s2 Hs2) as (dc2 & Hdc2 & Hc2 & Hp3 & Hd3). cbn in Hvk2, Hp2, Hd2.
  destruct (Hinj dc dc2 Hdc Hdc2) as [Hf Hperm]. { rewrite (Hkey dc2) by done. rewrite <- Hp3, <- Hd3, Hp2, Hd2, <- Hvk2. done. }
  unfold cache_ok in Hok. rewrite Forall_forall in Hok. destruct (variant_serves _ _ (Hok v Hv)) as (Hl & Hr & _).
  assert (Hpv : v_paths v = ru_Files (wf_Rules (dc_WAF dc))) by congruence. rewrite <- Hpv. split; [| done]. rewrite Hr.
  apply List.filter_ext. intros r. unfold kept. f_equal. apply bool_decide_ext. rewrite <- Hd2, Hd3, Hperm. done.
Qed.

Section Witnesses.
Import Ex.
Theorem most_specific_override_governs_witness :
  exists o, o ∈ overlays /\ po_key o = lit "/api/login" /\ ForPath (mk_resolved (scope [] 4 6) overlays) (lit "/api/login") = po_cfg o.
Proof.
  assert (Hr : resolvePaths hkey merge cfg [lit "/api/"] [lit "/api/login"; lit "/api/"] = Ok overlays) by (vm_compute; reflexivity).
  destruct (most_specific_override_governs hkey merge cfg _ _ overlays (scope [] 4 6) (lit "/api/login") Hr) as (Hkeys & _ & [[Hnone _] | (o & Ho & Hm & Hf & Hbest)]).
  - destruct (proj2 (Hkeys (lit "/api/login")) ltac:(right; by left)) as (o & Ho & Hk). specialize (Hnone o Ho). rewrite Hk in Hnone. by vm_compute in Hnone.
  - exists o. split; [exact Ho | split; [| exact Hf]]. destruct (proj2 (Hkeys (lit "/api/login")) ltac:(right; by left)) as (o' & Ho' & Hk').
    destruct (Hbest o' Ho') as [Hl _]; [rewrite Hk'; vm_compute; reflexivity |].
    assert (Hall : forallb (fun o => if bool_decide (po_key o = lit "/api/login") then (length (po_bare o) =? 10)%nat else (length (po_bare o) <? 10)%nat)
      overlays = true) by (vm_compute; reflexivity). rewrite forallb_forall in Hall.
    pose proof (Hall o (proj1 (list_elem_of_In _ _) Ho)) as Hlo. pose proof (Hall o' (proj1 (list_elem_of_In _ _) Ho')) as Hlo'. cbn beta in Hlo, Hlo'.
    rewrite (bool_decide_eq_true_2 _ Hk') in Hlo'. case_bool_decide as E; [exact E | exfalso]. apply Nat.eqb_eq in Hlo'. apply Nat.ltb_lt in Hlo. lia.
Defined.

Theorem validated_scope_well_formed_witness :
  exists dc', validate hkey (scope (lit "defaults") 4 6) raw raw = Ok dc' /\ scope_ok hkey dc' /\ BaseBits (dc_PoW dc') = 16 /\ MaxBits (dc_PoW dc') = 24.
Proof.
  assert (Hv : validate hkey (scope (lit "defaults") 4 6) raw raw = Ok (valid (scope (lit "defaults") 4 6))) by (vm_compute; reflexivity).
  exists (valid (scope (lit "defaults") 4 6)). split; [exact Hv |]. split; [by apply (validated_scope_well_formed hkey _ _ _ _ Hv) | split; vm_compute; reflexivity].
Defined.

Theorem every_scope_gets_its_rules_witness :
  exists rc, NewRuleCacheVariants Waf.Ex.decode read (RuleVariants cfg) = Ok rc /\
    exists rs, Get (lit "a") (reloadChanged Waf.Ex.decode read rc) = Some rs /\ map r_ID (rs_Rules rs) = [lit "probe"].
Proof.
  set (rc := match NewRuleCacheVariants Waf.Ex.decode read (RuleVariants cfg) with Ok rc => rc | Err _ => mk_cache ∅ [] [] end).
  assert (Hnew : NewRuleCacheVariants Waf.Ex.decode read (RuleVariants cfg) = Ok rc) by (vm_compute; reflexivity).
  exists rc. split; [exact Hnew |].
  assert (Hs : forall dc, dc ∈ scopes cfg -> dc = valid (scope (lit "defaults") 4 6)).
  { intros dc Hin. assert (E : scopes cfg = [valid (scope (lit "defaults") 4 6)]) by (vm_compute; reflexivity). rewrite E in Hin.
    exact (proj1 (list_elem_of_singleton dc _) Hin). }
  destruct (every_scope_gets_its_rules Waf.Ex.decode read cfg rc [read]) with (dc := valid (scope (lit "defaults") 4 6)) as (rs & Hg & Hr & _).
  - intros dc ->%Hs. vm_compute. reflexivity.
  - intros a b ->%Hs ->%Hs _. split; reflexivity.
  - exact Hnew.
  - assert (E : scopes cfg = [valid (scope (lit "defaults") 4 6)]) by (vm_compute; reflexivity). rewrite E. left.
  - vm_compute. reflexivity.
  - exists rs. split; [exact Hg |]. rewrite Hr. vm_compute. reflexivity.
Defined.
End Witnesses.

(** * A gap in the overlap check

    The check reads the allowlisted User-Agent as written, the allowlist
    compiles it trimmed: with spaces around it an entry that covers a verified
    crawler's own User-Agent passes. *)
Section Overlap.
Import Ex.
Theorem padded_allowlist_entry_bypasses_overlap_check :
  let entry := lit " Google " in
  (exists b, compile_bots 0 [Ex.googlebot] = Ok [b] /\ bot_overlap [b] [entry] = None /\
     bot_overlap [b] [TrimSpace entry] = Some (TrimSpace entry, lit "googlebot")) /\
  exists l, CompileList [] [entry] [] = Ok l /\ MatchUALower l (lit "mozilla/5.0 (compatible; googlebot/2.1)") = true.
Proof. cbv zeta. split; eexists; (split; [vm_compute; reflexivity | repeat split; vm_compute; reflexivity]). Qed.
End Overlap.
