(* ===== verification/Scalars.v ===== *)
(** * Configuration scalars (core/config.go)

    The YAML forms of durations, rates and threshold rates.  A domain's
    configuration is its defaults marshalled and decoded again with the domain's
    own YAML on top, so every value printed must read back.  A YAML node is
    [None] when it does not decode as a string. *)

From S2P Require Export Duration DomainConfig.

Open Scope Z_scope.

Inductive scalar_error := NotString | BadDuration (e : duration_error) | BadRate.

Section Scalars.
Context `{Unicode, FloatToInt}.

Definition Duration_UnmarshalYAML (node : option gostring) : option (outcome scalar_error Z) :=
  match node with
  | None => Some (Err NotString)
  | Some s => match Parse s with
              | Some (Ok d) => Some (Ok d)
              | Some (Err e) => Some (Err (BadDuration e))
              | None => None
              end
  end.
Definition Duration_MarshalYAML (d : Z) : gostring := Duration_String d.

(** The spellings of a rate's window. *)
Definition rate_window (u : gostring) : option Z :=
  if bool_decide (u ∈ [lit "s"; lit "sec"; lit "second"]) then Some second
  else if bool_decide (u ∈ [lit "m"; lit "min"; lit "minute"]) then Some minute
  else if bool_decide (u ∈ [lit "h"; lit "hour"]) then Some hour
  else if bool_decide (u ∈ [lit "d"; lit "day"]) then Some Day
  else if bool_decide (u ∈ [lit "w"; lit "week"]) then Some Week
  else if bool_decide (u ∈ [lit "mon"; lit "month"]) then Some Month
  else if bool_decide (u ∈ [lit "y"; lit "year"]) then Some Year
  else None.

Definition Rate_UnmarshalYAML (node : option gostring) : outcome scalar_error Rate :=
  match node with
  | None => Err NotString
  | Some s =>
    match split_at_byte "/"%char s with
    | None => Err BadRate
    | Some (count, unit) =>
      match ParseInt (TrimSpace count) with
      | Err _ => Err BadRate
      | Ok n =>
        if n <=? 0 then Err BadRate
        else match rate_window (TrimSpace unit) with Some per => Ok (mk_rate n per) | None => Err BadRate end
      end
    end
  end.

(** A window the map does not name prints as nothing. *)
Definition rate_unit (per : Z) : gostring :=
  if per =? second then lit "s" else if per =? minute then lit "min" else if per =? hour then lit "h"
  else if per =? Day then lit "d" else if per =? Week then lit "w" else if per =? Month then lit "mon"
  else if per =? Year then lit "y" else [].

Definition Rate_MarshalYAML (r : Rate) : gostring := FormatInt (rt_Count r) ++ "/"%char :: rate_unit (rt_Per r).

Definition ThresholdRate_UnmarshalYAML (node : option gostring) : outcome scalar_error Rate :=
  match node with
  | Some s => if EqualFold (TrimSpace s) (lit "off") then Ok (mk_rate 0 0) else Rate_UnmarshalYAML node
  | None => Rate_UnmarshalYAML node
  end.

Definition ThresholdRate_MarshalYAML (t : Rate) : gostring := if rt_Count t <=? 0 then lit "off" else Rate_MarshalYAML t.

(** ** Round trips *)
Definition windows : list Z := [second; minute; hour; Day; Week; Month; Year].

(** A rate the strict parser can have produced. *)
Definition rate_ok (r : Rate) : Prop := 0 < rt_Count r <= int64_max /\ rt_Per r ∈ windows.

Lemma rate_unit_window per : per ∈ windows -> rate_window (TrimSpace (rate_unit per)) = Some per.
Proof. unfold windows. rewrite !elem_of_cons. by intros [-> | [-> | [-> | [-> | [-> | [-> | [-> | []%not_elem_of_nil]]]]]]]. Qed.

Lemma digits_inked s : Forall (fun c => is_digit c = true) s -> Forall inked s.
Proof.
  intros Hs. eapply Forall_impl; [exact Hs |]. intros c Hc. assert (Hn : number_char c = true) by (unfold number_char; by rewrite Hc).
  by number_cases Hn; vm_compute.
Qed.

Lemma TrimSpace_all_inked s : Forall inked s -> TrimSpace s = s.
Proof.
  intros Hs. destruct s as [| c s]; [done |]. destruct (exists_last (l := c :: s) ltac:(done)) as (t & e & He).
  rewrite He in Hs |- *. rewrite <- He. apply (TrimSpace_inked c s t e); [| | done].
  - rewrite <- He in Hs. by inversion Hs.
  - apply Forall_app in Hs as [_ Hs]. by inversion Hs.
Qed.

Lemma count_text n : 0 < n <= int64_max -> Forall (fun c => is_digit c = true) (FormatInt n) /\ FormatInt n <> [].
Proof. intros Hn. rewrite FormatInt_nonneg by lia. destruct (FormatUint_digits n); [unfold int64_max in *; lia | done]. Qed.

Lemma slash_not_digit s : Forall (fun c => is_digit c = true) s -> "/"%char ∉ s.
Proof. intros Hs Hin. rewrite Forall_forall in Hs. by specialize (Hs _ Hin). Qed.

Lemma Rate_round_trip r : rate_ok r -> Rate_UnmarshalYAML (Some (Rate_MarshalYAML r)) = Ok r.
Proof.
  intros [Hn Hp]. destruct (count_text _ Hn) as [Hd _]. unfold Rate_UnmarshalYAML, Rate_MarshalYAML.
  rewrite (proj2 (split_at_byte_Some _ _ (FormatInt (rt_Count r)) (rate_unit (rt_Per r)))) by (split; [done | by apply slash_not_digit]).
  rewrite TrimSpace_all_inked by (by apply digits_inked).
  rewrite ParseInt_FormatInt by (unfold int64_ok, int64_min; lia). rewrite (proj2 (Z.leb_gt _ _)) by lia. rewrite rate_unit_window by done. by destruct r.
Qed.

Lemma rate_unit_inked per : Forall inked (rate_unit per).
Proof. unfold rate_unit. repeat case_match; repeat (constructor; [by vm_compute |]); constructor. Qed.

Lemma rate_not_off r : rate_ok r -> EqualFold (TrimSpace (Rate_MarshalYAML r)) (lit "off") = false.
Proof.
  intros [Hn _]. destruct (count_text _ Hn) as [Hd Hne]. unfold Rate_MarshalYAML. rewrite TrimSpace_all_inked.
  - destruct (FormatInt (rt_Count r)) as [| c s]; [done |]. inversion Hd as [| ? ? Hc _]; subst.
    assert (Hx : number_char c = true) by (unfold number_char; by rewrite Hc). by number_cases Hx.
  - apply Forall_app. split; [by apply digits_inked |]. constructor; [by vm_compute | apply rate_unit_inked].
Qed.

(** Every duration within Max, to the nanosecond, and every rate and
    threshold rate the parser accepts reads back from the text it is
    marshalled to, a disabled threshold as off. *)
Theorem config_scalars_round_trip :
  (forall d, - Max <= d <= Max -> Duration_UnmarshalYAML (Some (Duration_MarshalYAML d)) = Some (Ok d) /\ Parse (Format d) = Some (Ok d)) /\
  (forall r, rate_ok r -> Rate_UnmarshalYAML (Some (Rate_MarshalYAML r)) = Ok r) /\
  (forall t, rate_ok t -> ThresholdRate_UnmarshalYAML (Some (ThresholdRate_MarshalYAML t)) = Ok t) /\
  (forall t, rt_Count t <= 0 -> ThresholdRate_UnmarshalYAML (Some (ThresholdRate_MarshalYAML t)) = Ok (mk_rate 0 0)).
Proof.
  split_ands.
  - intros d Hd. split; [| by apply Parse_Format]. unfold Duration_UnmarshalYAML, Duration_MarshalYAML. by rewrite Parse_String.
  - apply Rate_round_trip.
  - intros t Ht. unfold ThresholdRate_UnmarshalYAML, ThresholdRate_MarshalYAML. rewrite (proj2 (Z.leb_gt _ _)) by (destruct Ht; lia).
    rewrite rate_not_off by done. by apply Rate_round_trip.
  - intros t Ht. unfold ThresholdRate_MarshalYAML. by rewrite (proj2 (Z.leb_le _ _)) by lia.
Qed.
End Scalars.

Module Ex.
#[local] Existing Instance ascii_only.
#[local] Existing Instance Duration.Ex.no_overflow.

Lemma config_scalars_round_trip_witness :
  Duration_MarshalYAML (30 * Day) = lit "720h0m0s" /\ Duration_UnmarshalYAML (Some (lit "720h0m0s")) = Some (Ok (30 * Day)) /\
  Rate_UnmarshalYAML (Some (lit "20/min")) = Ok (mk_rate 20 minute).
Proof.
  split; [vm_compute; reflexivity | split].
  - refine (proj1 (proj1 config_scalars_round_trip (30 * Day) _)). vm_compute. split; discriminate.
  - refine (proj1 (proj2 config_scalars_round_trip) (mk_rate 20 minute) _). split; [vm_compute; split; [reflexivity | discriminate] | unfold windows; set_solver].
Defined.
End Ex.
