(* ===== verification/Intel.v ===== *)
(** * IP intelligence (core/intel/provider.go, feeds.go, geoip.go)

    Reputation feeds with their refresh, cache and file polls, the location and
    ASN databases with hot reload, and the provider that answers the pipeline's
    lookups.  The bytes a fetch or a file read delivers, the clock and the
    database format are inputs. *)

From S2P Require Export IpSet.
From S2P Require Import Waf.

Open Scope Z_scope.

(** ** Feeds *)
Definition FeedActionDeny : gostring := lit "deny".
Definition FeedActionChallenge : gostring := lit "challenge".
Definition maxFeedBody : Z := 64 * 2 ^ 20.
Definition feedRetryInterval : Z := 5 * minute.

Record FeedConfig := mk_feedcfg { fc_Name : gostring; fc_URL : gostring; fc_File : gostring; fc_Refresh : Z; fc_Action : gostring }.

Inductive Source := FromURL | FromFile | FromCache.
#[global] Instance Source_eq_dec : EqDecision Source.
Proof. solve_decision. Defined.

Record feedState := mk_fstate { fs_set : rangeSet; fs_entries : nat; fs_refreshed : Z; fs_source : Source }.

Inductive feed_error :=
| NoValidEntries (invalid : Z)
| WouldEmpty (entries : nat)
| EmptyBody (s : Source)
| BodyTooLarge
| FetchFailed (code : Z)          (* transport error or a status other than 200 *)
| FileUnreadable.

(** [fd_hash]: the contents of the last load. *)
Record feed := mk_feed { fd_cfg : FeedConfig; fd_state : option feedState; fd_lastErr : option feed_error; fd_hash : Z }.

Definition newFeed (cfg : FeedConfig) : feed := mk_feed cfg None None 0.
Definition with_err (e : option feed_error) (f : feed) : feed := mk_feed (fd_cfg f) (fd_state f) e (fd_hash f).
Definition with_hash (h : Z) (f : feed) : feed := mk_feed (fd_cfg f) (fd_state f) (fd_lastErr f) h.
Definition with_fstate (s : option feedState) (f : feed) : feed := mk_feed (fd_cfg f) s (fd_lastErr f) (fd_hash f).

(** [strings.Lines]: the newline ends its line. *)
Fixpoint Lines_from (s line : gostring) : list gostring :=
  match s with
  | [] => match line with [] => [] | _ => [rev line] end
  | c :: r => if Ascii.eqb c "010"%char then rev (c :: line) :: Lines_from r [] else Lines_from r (c :: line)
  end.
Definition Lines (s : gostring) : list gostring := Lines_from s [].

Section Feeds.
Context `{Unicode}.

Definition loaded_entries (f : feed) : nat := match fd_state f with Some st => fs_entries st | None => O end.

Definition install (raw : gostring) (source : Source) (now : Z) (f : feed) : outcome feed_error Z * feed :=
  let '(prefixes, invalid) := ParseList (Lines raw) in
  if is_nil prefixes && (0 <? invalid) then (Err (NoValidEntries invalid), f)
  else if is_nil prefixes && (0 <? loaded_entries f)%nat then (Err (WouldEmpty (loaded_entries f)), f)
  else if is_nil prefixes && negb (bool_decide (source = FromFile)) then (Err (EmptyBody source), f)
  else (Ok invalid, mk_feed (fd_cfg f) (Some (mk_fstate (newRangeSet prefixes) (length prefixes) now source)) (fd_lastErr f) (contentHash raw)).

Definition contains (f : feed) (a : addr) : bool := match fd_state f with Some st => set_Contains (fs_set st) a | None => false end.

(** [answer]: the body of a 200 response, read up to one byte past the bound. *)
Definition fetch (answer : outcome feed_error gostring) (now : Z) (f : feed) : outcome feed_error Z * feed :=
  match answer with
  | Err e => (Err e, f)
  | Ok raw => if maxFeedBody <? len raw then (Err BodyTooLarge, f) else install raw FromURL now f
  end.

(** [cache]: the persisted copy and its modification time. *)
Definition loadCache (cache : option (gostring * Z)) (f : feed) : option Z * feed :=
  match fd_state f with
  | Some _ => (None, f)
  | None =>
    match cache with
    | None => (None, f)
    | Some (raw, mtime) => match install raw FromCache mtime f with (Ok _, f) => (Some mtime, f) | (Err _, f) => (None, f) end
    end
  end.

Definition loadFile (force : bool) (read : option gostring) (now : Z) (f : feed) : outcome feed_error unit * feed :=
  match read with
  | None => (if force then Err FileUnreadable else Ok tt, f)
  | Some raw =>
    if negb force && (contentHash raw =? fd_hash f) then (Ok tt, f)
    else match install raw FromFile now f with
         | (Ok _, f) => (Ok tt, f)
         | (Err e, f) => if force then (Err e, f) else (Ok tt, with_hash (contentHash raw) f)
         end
  end.

(** [refreshLoop]: the delay before the first fetch, from the age of the cached
    copy, and one turn with the delay before the next, jitter aside. *)
Definition first_delay (mtime : option Z) (now : Z) (f : feed) : Z :=
  match mtime with Some t => Z.max second (fc_Refresh (fd_cfg f) - (now - t)) | None => second end.
Definition refresh_turn (answer : outcome feed_error gostring) (now : Z) (f : feed) : Z * feed :=
  match fetch answer now f with
  | (Err e, f) => (Z.min feedRetryInterval (fc_Refresh (fd_cfg f)), with_err (Some e) f)
  | (Ok _, f) => (fc_Refresh (fd_cfg f), with_err None f)
  end.
End Feeds.

(** ** Databases

    [db] is an open MaxMind reader; [db_geo], [db_asn] decode the record of an
    address, [None] when it does not decode. *)
Record geoRaw := mk_georaw { gr_country : gostring; gr_registered : gostring; gr_city : gostring; gr_radius : Z; gr_subdivisions : list gostring }.
Class GeoDB := { db : Type; db_type : db -> gostring; db_geo : db -> addr -> option geoRaw; db_asn : db -> addr -> option (Z * gostring) }.

Inductive mmdbKind := kindCountry | kindASN.

Record fstat := mk_stat { sta_id : Z; sta_mtime : Z; sta_size : Z }.
#[global] Instance fstat_eq_dec : EqDecision fstat.
Proof. solve_decision. Defined.

Record geoRecord := mk_georec { ge_Country : gostring; ge_City : gostring; ge_Subdivision : gostring; ge_Radius : Z }.
Record Info := mk_info { i_Country : gostring; i_ASN : Z; i_ASOrg : gostring; i_City : gostring; i_Subdivision : gostring; i_Radius : Z }.
Definition no_info : Info := mk_info [] 0 [] [] [] 0.

Section Databases.
Context `{Unicode, GeoDB}.

Definition kind_matches (k : mmdbKind) (dbType : gostring) : bool :=
  let t := ToLower dbType in
  existsb (fun s => Contains s t)
    (match k with
     | kindCountry => [lit "country"; lit "city"; lit "enterprise"; lit "location"]
     | kindASN => [lit "asn"; lit "isp"; lit "enterprise"]
     end).

(** [mm_reader]: [None] once closed. *)
Record mmdbFile := mk_mmdb { mm_kind : mmdbKind; mm_reader : option db; mm_stat : option fstat }.

(** [opened]: what [maxminddb.Open] answers. *)
Definition openMMDB (k : mmdbKind) (opened : option db) (stat : option fstat) : option mmdbFile :=
  match opened with
  | None => None
  | Some r => if kind_matches k (db_type r) then Some (mk_mmdb k (Some r) stat) else None
  end.

Definition maybeReload (stat : option fstat) (opened : option db) (f : mmdbFile) : mmdbFile :=
  match stat with
  | None => f
  | Some st =>
    if bool_decide (mm_stat f = Some st) then f
    else match opened with
         | None => mk_mmdb (mm_kind f) (mm_reader f) (Some st)
         | Some r => mk_mmdb (mm_kind f) (if kind_matches (mm_kind f) (db_type r) then Some r else mm_reader f) (Some st)
         end
  end.

Definition geo (f : mmdbFile) (a : addr) : geoRecord :=
  match (r ← mm_reader f; db_geo r a) with
  | None => mk_georec [] [] [] 0
  | Some g => mk_georec (if bool_decide (gr_country g = []) then gr_registered g else gr_country g) (gr_city g)
                (match gr_subdivisions g with s :: _ => s | [] => [] end) (gr_radius g)
  end.

Definition asn (f : mmdbFile) (a : addr) : Z * gostring := default (0, []) (r ← mm_reader f; db_asn r a).

(** ** The provider *)
Record Provider := mk_provider { pv_country : option mmdbFile; pv_asn : option mmdbFile; pv_feeds : list feed }.

Definition HasCountry (p : option Provider) : bool := match p with Some p => bool_decide (is_Some (pv_country p)) | None => false end.
Definition HasASN (p : option Provider) : bool := match p with Some p => bool_decide (is_Some (pv_asn p)) | None => false end.

Definition Lookup (p : option Provider) (a : addr) : Info :=
  match p with
  | None => no_info
  | Some p =>
    let a := Unmap a in
    let g := match pv_country p with Some f => geo f a | None => mk_georec [] [] [] 0 end in
    let '(n, org) := match pv_asn p with Some f => asn f a | None => (0, []) end in
    mk_info (ge_Country g) n org (ge_City g) (ge_Subdivision g) (ge_Radius g)
  end.

Definition FeedMatch (p : option Provider) (a : addr) (action : gostring) : option gostring :=
  match p with
  | None => None
  | Some p => (fun r => fc_Name (fd_cfg r.2)) <$> list_find (fun f => fc_Action (fd_cfg f) = action /\ contains f a = true) (pv_feeds p)
  end.

Definition FeedHits (p : option Provider) (a : addr) : list (gostring * gostring) :=
  match p with
  | None => []
  | Some p => map (fun f => (fc_Name (fd_cfg f), fc_Action (fd_cfg f))) (List.filter (fun f => contains f a) (pv_feeds p))
  end.

(** The last good state of an unchanged URL feed. *)
Definition inherited (old : list feed) (cfg : FeedConfig) : option feedState :=
  fold_left (fun acc f => if negb (bool_decide (fc_URL (fd_cfg f) = [])) && bool_decide (fc_Name (fd_cfg f) = fc_Name cfg) && bool_decide (fc_URL (fd_cfg f) = fc_URL cfg)
                          then match fd_state f with Some st => Some st | None => acc end else acc) old None.

Definition SeedURLFeedsFrom (old p : option Provider) : option Provider :=
  match p, old with
  | Some p, Some o =>
    Some (mk_provider (pv_country p) (pv_asn p)
      (map (fun f => if bool_decide (fc_URL (fd_cfg f) = []) || bool_decide (is_Some (fd_state f)) then f
                     else match inherited (pv_feeds o) (fd_cfg f) with Some st => with_fstate (Some st) f | None => f end) (pv_feeds p)))
  | _, _ => p
  end.

Record IntelConfig := mk_icfg { ic_LocationDB : gostring; ic_ASNDB : gostring; ic_CacheDir : gostring; ic_Feeds : list FeedConfig }.
Inductive intel_error := EDatabase (path : gostring) | ECacheDir | EFeed (name : gostring) (e : feed_error).

Fixpoint load_feeds (read : gostring -> option gostring) (now : Z) (cfgs : list FeedConfig) : outcome intel_error (list feed) :=
  match cfgs with
  | [] => Ok []
  | cfg :: rest =>
    match (if bool_decide (fc_File cfg = []) then (Ok tt, newFeed cfg) else loadFile true (read (fc_File cfg)) now (newFeed cfg)) with
    | (Err e, _) => Err (EFeed (fc_Name cfg) e)
    | (Ok _, f) => match load_feeds read now rest with Ok fs => Ok (f :: fs) | Err e => Err e end
    end
  end.

Definition open_db (open : gostring -> option db) (stat : gostring -> option fstat) (k : mmdbKind) (path : gostring) : outcome intel_error (option mmdbFile) :=
  if bool_decide (path = []) then Ok None
  else match openMMDB k (open path) (stat path) with Some f => Ok (Some f) | None => Err (EDatabase path) end.

(** [New]; [mkdir] is whether the cache directory could be made. *)
Definition New (open : gostring -> option db) (stat : gostring -> option fstat) (read : gostring -> option gostring) (mkdir : bool) (now : Z) (cfg : IntelConfig)
  : outcome intel_error (option Provider) :=
  if bool_decide (ic_LocationDB cfg = []) && bool_decide (ic_ASNDB cfg = []) && is_nil (ic_Feeds cfg) then Ok None
  else match open_db open stat kindCountry (ic_LocationDB cfg) with
  | Err e => Err e
  | Ok country =>
    match open_db open stat kindASN (ic_ASNDB cfg) with
    | Err e => Err e
    | Ok asn =>
      if negb (bool_decide (ic_CacheDir cfg = [])) && negb mkdir then Err ECacheDir
      else match load_feeds read now (ic_Feeds cfg) with Ok fs => Ok (Some (mk_provider country asn fs)) | Err e => Err e end
    end
  end.
End Databases.

(** ** What a feed holds *)
Section FeedProofs.
Context `{Unicode}.

(** Everything that can happen to a feed: a refresh turn, the cache seed, a file
    load or poll, and the handover from the previous provider. *)
Inductive feed_op :=
| Refresh (answer : outcome feed_error gostring) (now : Z)
| SeedCache (cache : option (gostring * Z))
| PollFile (force : bool) (read : option gostring) (now : Z)
| Inherit (st : option feedState).

Definition feed_step (f : feed) (op : feed_op) : feed :=
  match op with
  | Refresh answer now => (refresh_turn answer now f).2
  | SeedCache cache => (loadCache cache f).2
  | PollFile force read now => (loadFile force read now f).2
  | Inherit st => match fd_state f, st with None, Some st => with_fstate (Some st) f | _, _ => f end
  end.

(** A body the operation delivered. *)
Definition delivers (op : feed_op) (raw : gostring) : Prop :=
  match op with
  | Refresh (Ok body) _ => raw = body
  | SeedCache (Some (body, _)) => raw = body
  | PollFile _ (Some body) _ => raw = body
  | _ => False
  end.

(** The state is what some body lists. *)
Definition lists_of (raw : gostring) (st : feedState) : Prop :=
  fs_set st = newRangeSet (ParseList (Lines raw)).1 /\ fs_entries st = length (ParseList (Lines raw)).1.

Definition keeps_list (seen : gostring -> Prop) (f f' : feed) : Prop :=
  fd_cfg f' = fd_cfg f /\
  (fd_state f' = fd_state f \/ exists raw st, seen raw /\ fd_state f' = Some st /\ lists_of raw st /\ ((0 < loaded_entries f)%nat -> (0 < fs_entries st)%nat)).

Lemma install_keeps (seen : gostring -> Prop) raw src now f : seen raw -> keeps_list seen f (install raw src now f).2.
Proof.
  intros Hs. unfold install. destruct (ParseList (Lines raw)) as [ps invalid] eqn:Ep.
  assert (Hp : (ParseList (Lines raw)).1 = ps) by (by rewrite Ep).
  destruct (is_nil ps && (0 <? invalid)); [split; [done | by left] |].
  destruct (is_nil ps && (0 <? loaded_entries f)%nat) eqn:E2; [split; [done | by left] |].
  destruct (is_nil ps && negb _) eqn:E3; [split; [done | by left] |].
  split; [done |]. right. exists raw, (mk_fstate (newRangeSet ps) (length ps) now src). split_ands; [done | done | unfold lists_of; rewrite Hp; done |].
  intros Hl. cbn. destruct ps; [| cbn; lia]. rewrite andb_true_l in E2. apply Nat.ltb_ge in E2. lia.
Qed.

Lemma keeps_refl (seen : gostring -> Prop) f f' : fd_cfg f' = fd_cfg f -> fd_state f' = fd_state f -> keeps_list seen f f'.
Proof. intros Hc Hf. split; [done | by left]. Qed.

Lemma keeps_with (seen : gostring -> Prop) f f1 f2 : keeps_list seen f f1 -> fd_cfg f2 = fd_cfg f1 -> fd_state f2 = fd_state f1 -> keeps_list seen f f2.
Proof. intros [Hc Hk] Hc2 Hs2. split; [by rewrite Hc2 |]. by rewrite Hs2. Qed.

Lemma feed_step_keeps (seen : gostring -> Prop) f op : (forall raw, delivers op raw -> seen raw) ->
  (forall st, op = Inherit st -> st = None \/ exists raw s, st = Some s /\ seen raw /\ lists_of raw s) -> keeps_list seen f (feed_step f op).
Proof.
  intros Hd Hi. destruct op as [answer now | cache | force read now | st]; cbn [feed_step].
  - unfold refresh_turn, fetch. destruct answer as [raw | e]; [| by apply keeps_refl]. destruct (_ <? len raw); [by apply keeps_refl |].
    pose proof (install_keeps seen raw FromURL now f (Hd raw eq_refl)) as Hk. destruct (install raw FromURL now f) as [[n | e] f1]; by apply (keeps_with _ _ _ _ Hk).
  - unfold loadCache. destruct (fd_state f) eqn:Ef; [by apply keeps_refl |]. destruct cache as [[raw mtime] |]; [| by apply keeps_refl].
    pose proof (install_keeps seen raw FromCache mtime f (Hd raw eq_refl)) as Hk. destruct (install raw FromCache mtime f) as [[n | e] f1]; by apply (keeps_with _ _ _ _ Hk).
  - unfold loadFile. destruct read as [raw |]; [| by apply keeps_refl]. destruct (_ && _); [by apply keeps_refl |].
    pose proof (install_keeps seen raw FromFile now f (Hd raw eq_refl)) as Hk. destruct (install raw FromFile now f) as [[n | e] f1]; [exact Hk |].
    destruct force; by apply (keeps_with _ _ _ _ Hk).
  - destruct (fd_state f) eqn:Ef; [by apply keeps_refl |]. destruct st as [st |]; [| by apply keeps_refl].
    destruct (Hi _ eq_refl) as [? | (raw & s & [= <-] & Hs & Hl)]; [done |]. split; [done |]. right. exists raw, st. split_ands; [done | done | exact Hl |].
    unfold loaded_entries. rewrite Ef. lia.
Qed.

(** The list a feed holds is one that was delivered, and it does not empty. *)
Definition feed_inv (seen : gostring -> Prop) (f : feed) : Prop :=
  match fd_state f with None => True | Some st => exists raw, seen raw /\ lists_of raw st end.

Lemma feed_run (seen : gostring -> Prop) ops : forall f, feed_inv seen f -> (forall op raw, op ∈ ops -> delivers op raw -> seen raw) ->
  (forall st, Inherit (Some st) ∈ ops -> exists raw, seen raw /\ lists_of raw st) ->
  feed_inv seen (fold_left feed_step ops f) /\ fd_cfg (fold_left feed_step ops f) = fd_cfg f /\
  ((0 < loaded_entries f)%nat -> (0 < loaded_entries (fold_left feed_step ops f))%nat).
Proof.
  induction ops as [| op ops IH]; intros f Hf Hd Hi; cbn [fold_left]; [done |].
  destruct (feed_step_keeps seen f op) as [Hc Hk].
  - intros raw. apply Hd. by left.
  - intros [st |] ->; [| by left]. right. destruct (Hi st ltac:(by left)) as (raw & ? & ?). by exists raw, st.
  - destruct (IH (feed_step f op)) as (H1 & H2 & H3).
    + unfold feed_inv. destruct Hk as [-> | (raw & st & Hs & -> & Hl & _)]; [exact Hf | by exists raw].
    + intros op' raw Hin. apply Hd. by right.
    + intros st Hin. apply Hi. by right.
    + split_ands; [done | by rewrite H2 |]. intros Hl. apply H3. unfold loaded_entries at 1. destruct Hk as [-> | (raw & st & _ & -> & _ & Hn)]; [exact Hl | by apply Hn].
Qed.

Lemma contains_spec (f : feed) (raw : gostring) (st : feedState) (a : addr) : fd_state f = Some st -> lists_of raw st -> addr_ok a ->
  (contains f a = true <-> exists p, p ∈ (ParseList (Lines raw)).1 /\ covered p a).
Proof. intros Hs [Hset _] Ha. unfold contains. rewrite Hs, Hset. apply newRangeSet_covers; [apply ParseList_ok | done]. Qed.
Lemma inherited_unique (old : list feed) f : f ∈ old -> fc_URL (fd_cfg f) <> [] -> is_Some (fd_state f) ->
  (forall f', f' ∈ old -> fc_Name (fd_cfg f') = fc_Name (fd_cfg f) -> f' = f) -> inherited old (fd_cfg f) = fd_state f.
Proof.
  intros Hin Hurl Hs Huniq. unfold inherited.
  assert (Hg : forall l acc, (forall f', f' ∈ l -> fc_Name (fd_cfg f') = fc_Name (fd_cfg f) -> f' = f) -> (acc = fd_state f \/ f ∈ l) ->
    fold_left (fun acc f' => if negb (bool_decide (fc_URL (fd_cfg f') = [])) && bool_decide (fc_Name (fd_cfg f') = fc_Name (fd_cfg f)) && bool_decide (fc_URL (fd_cfg f') = fc_URL (fd_cfg f))
                          then match fd_state f' with Some st => Some st | None => acc end else acc) l acc = fd_state f).
  { induction l as [| x l IH]; intros acc Hu Hor; cbn [fold_left]; [by destruct Hor as [| Hn%not_elem_of_nil] |]. apply IH; [intros f' Hf'; apply Hu; by right |].
    destruct (decide (fc_Name (fd_cfg x) = fc_Name (fd_cfg f))) as [E | Hn]; [apply Hu in E as ->; [| by left] |].
    - left. rewrite (bool_decide_eq_false_2 (fc_URL (fd_cfg f) = [])) by done. rewrite !bool_decide_eq_true_2 by done. cbn. by destruct Hs as [st ->].
    - rewrite (bool_decide_eq_false_2 (fc_Name (fd_cfg x) = _)) by done. rewrite andb_false_r. cbn. destruct Hor as [-> | Hor]; [by left | right].
      by apply elem_of_cons in Hor as [-> |]. }
  apply Hg; [done | by right].
Qed.

Lemma FeedMatch_is_Some `{GeoDB} p a action f : f ∈ pv_feeds p -> fc_Action (fd_cfg f) = action -> contains f a = true -> is_Some (FeedMatch (Some p) a action).
Proof.
  intros Hf Ha Hc. unfold FeedMatch. destruct (list_find_elem_of (fun f => fc_Action (fd_cfg f) = action /\ contains f a = true) (pv_feeds p) f Hf (conj Ha Hc)) as [[i f'] ->].
  by eexists.
Qed.
End FeedProofs.

(** * Properties *)

(** After any fetches, file polls and cache loads a feed matches exactly
    the entries of the last list it installed, and a failed, empty or
    oversized delivery never empties a loaded feed. *)
Theorem reputation_feed_keeps_last_good_list `{Unicode, GeoDB} (seen : gostring -> Prop) (cfg : FeedConfig) ops a :
  (forall op raw, op ∈ ops -> delivers op raw -> seen raw) ->
  (forall st, Inherit (Some st) ∈ ops -> exists raw, seen raw /\ lists_of raw st) -> addr_ok a ->
  let f := fold_left feed_step ops (newFeed cfg) in
  (forall before after, ops = before ++ after -> (0 < loaded_entries (fold_left feed_step before (newFeed cfg)))%nat -> (0 < loaded_entries f)%nat) /\
  (contains f a = true -> exists raw p, seen raw /\ p ∈ (ParseList (Lines raw)).1 /\ covered p a) /\
  (forall st, fd_state f = Some st -> exists raw, seen raw /\ fs_entries st = length (ParseList (Lines raw)).1 /\
     (contains f a = true <-> exists p, p ∈ (ParseList (Lines raw)).1 /\ covered p a)).
Proof.
  intros Hd Hi Ha f. assert (Hst : forall st, fd_state f = Some st -> exists raw, seen raw /\ lists_of raw st).
  { intros st Hs. destruct (feed_run seen ops (newFeed cfg)) as (Hinv & _ & _); [done | done | done |]. fold f in Hinv. unfold feed_inv in Hinv. by rewrite Hs in Hinv. }
  split_ands.
  - intros before after -> Hl. unfold f. rewrite fold_left_app. eapply (feed_run seen after); [| | | exact Hl].
    + apply (feed_run seen before); [done | |].
      * intros op raw Hin. apply Hd. rewrite elem_of_app. by left.
      * intros st Hin. apply Hi. rewrite elem_of_app. by left.
    + intros op raw Hin. apply Hd. rewrite elem_of_app. by right.
    + intros st Hin. apply Hi. rewrite elem_of_app. by right.
  - intros Hc. destruct (fd_state f) as [st |] eqn:Hs; [| unfold contains in Hc; by rewrite Hs in Hc].
    destruct (Hst st eq_refl) as (raw & Hraw & Hl). destruct (proj1 (contains_spec f raw st a Hs Hl Ha) Hc) as (p & Hp & Hcov). by exists raw, p.
  - intros st Hs. destruct (Hst st Hs) as (raw & Hraw & Hl). exists raw. split_ands; [done | apply Hl | by apply (contains_spec f raw st a Hs Hl Ha)].
Qed.

(** *)
Theorem config_reload_keeps_feed_protection `{Unicode, GeoDB} (old p : Provider) (f g : feed) a action :
  f ∈ pv_feeds old -> fc_URL (fd_cfg f) <> [] -> contains f a = true ->
  (forall f', f' ∈ pv_feeds old -> fc_Name (fd_cfg f') = fc_Name (fd_cfg f) -> f' = f) ->
  g ∈ pv_feeds p -> fd_cfg g = fd_cfg f -> fd_state g = None -> fc_Action (fd_cfg f) = action ->
  is_Some (FeedMatch (SeedURLFeedsFrom (Some old) (Some p)) a action).
Proof.
  intros Hf Hurl Hc Huniq Hg Hcfg Hstate Hact. cbn [SeedURLFeedsFrom].
  assert (Hin : inherited (pv_feeds old) (fd_cfg g) = fd_state f).
  { rewrite Hcfg. apply inherited_unique; [done | done | | done]. unfold contains in Hc. by destruct (fd_state f). }
  match goal with |- context [map ?h (pv_feeds p)] => pose proof (list_elem_of_fmap_2 h (pv_feeds p) g Hg) as Hm end.
  cbv beta in Hm. rewrite (bool_decide_eq_false_2 (fc_URL (fd_cfg g) = [])) in Hm by (by rewrite Hcfg).
  rewrite (bool_decide_eq_false_2 (is_Some (fd_state g))) in Hm by (rewrite Hstate; by intros [? ?]). cbn [orb] in Hm. rewrite Hin in Hm.
  destruct (fd_state f) as [st |] eqn:Hs; [| unfold contains in Hc; by rewrite Hs in Hc].
  eapply FeedMatch_is_Some; [exact Hm | cbn; by rewrite Hcfg |]. unfold contains in *. cbn. by rewrite Hs in Hc.
Qed.

(** * Concrete feeds *)
Module Ex.
#[export] Existing Instance ascii_only.
#[export] Instance no_db : GeoDB := {| db := gostring; db_type := fun d => d; db_geo := fun _ _ => None; db_asn := fun _ _ => None |}.
Definition body : gostring := lit "# list" ++ "010"%char :: lit "10.0.0.0/8" ++ ["010"%char].
Definition cfg : FeedConfig := mk_feedcfg (lit "drop") (lit "https://feeds.example/drop") [] hour FeedActionDeny.
Definition client : addr := V4 (10 * 2 ^ 24 + 7).
(** A fetch, then an outage that serves an empty page. *)
Definition ops : list feed_op := [Refresh (Ok body) hour; Refresh (Ok []) (2 * hour)].
Definition loaded : feed := fold_left feed_step ops (newFeed cfg).
Definition old : Provider := mk_provider None None [loaded].
Definition fresh : Provider := mk_provider None None [newFeed cfg].
End Ex.

Section Witnesses.
Import Ex.
Theorem reputation_feed_keeps_last_good_list_witness : (0 < loaded_entries loaded)%nat /\ exists raw p, raw = body /\ p ∈ (ParseList (Lines raw)).1 /\ covered p client.
Proof.
  assert (Hd : forall op raw, op ∈ ops -> delivers op raw -> raw = body \/ raw = []).
  { intros op raw [-> | [-> | Hn%not_elem_of_nil]%elem_of_cons]%elem_of_cons Hx; [left; exact Hx | right; exact Hx | done]. }
  destruct (reputation_feed_keeps_last_good_list (H0 := no_db) (fun raw => raw = body \/ raw = []) cfg ops client Hd) as (Hkeep & Hc & _).
  - intros st [Hs | [Hs | Hn%not_elem_of_nil]%elem_of_cons]%elem_of_cons; done.
  - cbn. lia.
  - split; [apply (Hkeep [Refresh (Ok body) hour] [Refresh (Ok []) (2 * hour)] eq_refl); vm_compute; lia |].
    destruct (Hc ltac:(vm_compute; reflexivity)) as (raw & p & [-> | ->] & Hp & Hcov); [by exists body, p |]. by apply not_elem_of_nil in Hp.
Defined.

Theorem config_reload_keeps_feed_protection_witness :
  FeedMatch (Some fresh) client FeedActionDeny = None /\ is_Some (FeedMatch (SeedURLFeedsFrom (Some old) (Some fresh)) client FeedActionDeny).
Proof.
  split; [vm_compute; reflexivity |].
  apply (config_reload_keeps_feed_protection old fresh loaded (newFeed cfg) client FeedActionDeny).
  - left.
  - vm_compute. discriminate.
  - vm_compute. reflexivity.
  - intros f' [-> | Hn%not_elem_of_nil]%elem_of_cons _; [reflexivity | done].
  - left.
  - reflexivity.
  - reflexivity.
  - reflexivity.
Defined.
End Witnesses.
