(* ===== verification/Snapshot.v ===== *)
(** * Reference-counted snapshots (core/engine.go, core/intel/geoip.go)

    A pointer that readers follow without a lock and a reload swaps: the
    engine's config snapshot and the memory-mapped geo databases.  Every atomic
    operation of [acquire], [release], [Reload] and [Close] is one step, and the
    goroutines interleave freely. *)

From S2P Require Export Prelude.

Open Scope Z_scope.

(** A goroutine, at the point its next atomic operation is. *)
Inductive thread :=
| Idle                              (* will load the pointer *)
| Loaded (r : nat)                  (* will load [refs] of [r] *)
| Counted (r : nat) (n : Z)         (* will compare-and-swap [n] with [n + 1] *)
| Holding (r : nat).                (* will drop its reference *)

#[global] Instance thread_eq_dec : EqDecision thread.
Proof. solve_decision. Defined.

(** [sn_refs]: the counts of the resources ever published; [sn_closed]: the
    closes, the latest first. *)
Record state := mk_state { sn_slot : option nat; sn_refs : gmap nat Z; sn_closed : list nat; sn_threads : list thread }.

Definition refs (s : state) (r : nat) : Z := default 0 (sn_refs s !! r).
Definition set_thread (i : nat) (t : thread) (s : state) : state := mk_state (sn_slot s) (sn_refs s) (sn_closed s) (<[i := t]> (sn_threads s)).
Definition set_refs (r : nat) (n : Z) (s : state) : state := mk_state (sn_slot s) (<[r := n]> (sn_refs s)) (sn_closed s) (sn_threads s).

(** [tryAcquire], [acquire]: the load and the compare-and-swap. *)
Definition acquire_load (i r : nat) (s : state) : state :=
  let n := refs s r in if n <=? 0 then set_thread i Idle s else set_thread i (Counted r n) s.
Definition acquire_cas (i r : nat) (n : Z) (s : state) : state :=
  if refs s r =? n then set_thread i (Holding r) (set_refs r (n + 1) s) else set_thread i (Loaded r) s.

(** [release]: the one that reaches zero closes. *)
Definition release (i r : nat) (s : state) : state :=
  let n := refs s r - 1 in
  let s := set_thread i Idle (set_refs r n s) in
  if n =? 0 then mk_state (sn_slot s) (sn_refs s) (r :: sn_closed s) (sn_threads s) else s.

(** The next atomic operation of goroutine [i]; [acquireSnapshot] gives up on a
    nil pointer, which leaves it where it is. *)
Definition thread_step (i : nat) (s : state) : option state :=
  match sn_threads s !! i with
  | None => None
  | Some Idle => Some (match sn_slot s with Some r => set_thread i (Loaded r) s | None => s end)
  | Some (Loaded r) => Some (acquire_load i r s)
  | Some (Counted r n) => Some (acquire_cas i r n s)
  | Some (Holding r) => Some (release i r s)
  end.

(** [Reload], [Close]: an idle goroutine publishes a new resource with one
    reference, or nil, and owns the reference of the old one. *)
Definition swap (i : nat) (fresh : option nat) (s : state) : option state :=
  match sn_threads s !! i with
  | Some Idle =>
    let s' := mk_state fresh (match fresh with Some r => <[r := 1]> (sn_refs s) | None => sn_refs s end) (sn_closed s) (sn_threads s) in
    match fresh with
    | Some r => if bool_decide (is_Some (sn_refs s !! r)) then None
                else Some (match sn_slot s with Some old => set_thread i (Holding old) s' | None => s' end)
    | None => Some (match sn_slot s with Some old => set_thread i (Holding old) s' | None => s' end)
    end
  | _ => None
  end.

Inductive step : state -> state -> Prop :=
| step_thread i s s' : thread_step i s = Some s' -> step s s'
| step_swap i fresh s s' : swap i fresh s = Some s' -> step s s'.

(** One published resource and any number of goroutines. *)
Definition start (r : nat) (n : nat) : state := mk_state (Some r) {[ r := 1 ]} [] (replicate n Idle).

Inductive reachable (r n : nat) : state -> Prop :=
| reach_start : reachable r n (start r n)
| reach_step s s' : reachable r n s -> step s s' -> reachable r n s'.

(** ** The count is the references *)
Definition holders (r : nat) (ts : list thread) : Z := Z.of_nat (length (List.filter (fun t => bool_decide (t = Holding r)) ts)).
Definition owned (slot : option nat) (r : nat) : Z := if bool_decide (slot = Some r) then 1 else 0.

Record snap_ok (s : state) : Prop := {
  ok_count : forall r, is_Some (sn_refs s !! r) -> refs s r = holders r (sn_threads s) + owned (sn_slot s) r;
  ok_known : forall r, (0 < holders r (sn_threads s) + owned (sn_slot s) r) -> is_Some (sn_refs s !! r);
  ok_seen : forall i t, sn_threads s !! i = Some t -> match t with Idle => True | Loaded r | Holding r => is_Some (sn_refs s !! r) | Counted r n => is_Some (sn_refs s !! r) /\ 0 < n end;
  ok_closed : forall r, r ∈ sn_closed s <-> (is_Some (sn_refs s !! r) /\ refs s r = 0);
  ok_once : NoDup (sn_closed s)
}.

Lemma holders_nonneg r ts : 0 <= holders r ts.
Proof. unfold holders. lia. Qed.

Lemma holders_cons r t ts : holders r (t :: ts) = (if bool_decide (t = Holding r) then 1 else 0) + holders r ts.
Proof. unfold holders. cbn [List.filter]. destruct (bool_decide (t = Holding r)); cbn [length]; lia. Qed.

Lemma holders_insert r ts : forall i old new, ts !! i = Some old ->
  holders r (<[i := new]> ts) = holders r ts - (if bool_decide (old = Holding r) then 1 else 0) + (if bool_decide (new = Holding r) then 1 else 0).
Proof.
  induction ts as [| t ts IH]; intros [| i] old new; cbn [lookup list_lookup insert list_insert]; try done.
  - intros [= ->]. rewrite !holders_cons. lia.
  - intros Hi. rewrite !holders_cons. setoid_rewrite (IH i old new Hi). lia.
Qed.

Lemma refs_set r n s r' : refs (set_refs r n s) r' = if bool_decide (r' = r) then n else refs s r'.
Proof. unfold refs, set_refs. cbn. case_bool_decide as E; [subst; by rewrite lookup_insert_eq | by rewrite lookup_insert_ne]. Qed.

Lemma known_set r n s r' : is_Some (sn_refs s !! r) -> (is_Some (sn_refs (set_refs r n s) !! r') <-> is_Some (sn_refs s !! r')).
Proof. intros Hr. unfold set_refs. cbn. rewrite lookup_insert_is_Some'. split; [intros [-> |] | right]; done. Qed.

Lemma holders_zero r ts : (forall i t, ts !! i = Some t -> t <> Holding r) -> holders r ts = 0.
Proof.
  induction ts as [| t ts IH]; intros Hno; [done |]. rewrite holders_cons, bool_decide_eq_false_2 by (by apply (Hno 0%nat)).
  rewrite IH; [done |]. intros i t' Hi. by apply (Hno (S i)).
Qed.

(** Moving a goroutine that neither takes nor drops a reference. *)
Lemma move_ok i old new s : snap_ok s -> sn_threads s !! i = Some old -> (forall r, old <> Holding r) -> (forall r, new <> Holding r) ->
  match new with Idle => True | Loaded r | Holding r => is_Some (sn_refs s !! r) | Counted r n => is_Some (sn_refs s !! r) /\ 0 < n end ->
  snap_ok (set_thread i new s).
Proof.
  intros Hs Hi Ho Hn Hnew.
  assert (Hh : forall r, holders r (<[i := new]> (sn_threads s)) = holders r (sn_threads s)).
  { intros r. rewrite (holders_insert r _ i old new Hi). rewrite !bool_decide_eq_false_2; [lia | by apply Hn | by apply Ho]. }
  destruct Hs. constructor; unfold set_thread; cbn; try done.
  - intros r. rewrite Hh. apply ok_count0.
  - intros r. rewrite Hh. apply ok_known0.
  - intros j t Hj. apply list_lookup_insert_Some in Hj as [(-> & <- & _) | [_ Hj]]; [done | by apply (ok_seen0 j)].
Qed.

(** A step that rewrites the count of [r] and moves goroutine [i]. *)
Lemma count_step_ok i old new r n closed s : snap_ok s -> sn_threads s !! i = Some old -> is_Some (sn_refs s !! r) ->
  (forall r', (if bool_decide (r' = r) then n else refs s r') = holders r' (<[i := new]> (sn_threads s)) + owned (sn_slot s) r' \/ ~ is_Some (sn_refs s !! r')) ->
  (forall r', r' <> r -> holders r' (<[i := new]> (sn_threads s)) = holders r' (sn_threads s)) ->
  match new with Idle => True | Loaded r | Holding r => is_Some (sn_refs s !! r) | Counted r n => is_Some (sn_refs s !! r) /\ 0 < n end ->
  (forall r', r' ∈ closed <-> is_Some (sn_refs s !! r') /\ (if bool_decide (r' = r) then n else refs s r') = 0) -> NoDup closed ->
  snap_ok (mk_state (sn_slot s) (<[r := n]> (sn_refs s)) closed (<[i := new]> (sn_threads s))).
Proof.
  intros Hs Hi Hr Hcount Hother Hnew Hclosed Honce. set (s' := mk_state _ _ _ _).
  assert (Hrefs : forall r', refs s' r' = if bool_decide (r' = r) then n else refs s r') by (intros r'; apply (refs_set r n s r')).
  assert (Hknown : forall r', is_Some (sn_refs s' !! r') <-> is_Some (sn_refs s !! r')) by (intros r'; by apply (known_set r n s r')).
  constructor.
  - intros r' Hk. rewrite Hrefs. apply Hknown in Hk. by destruct (Hcount r').
  - intros r' Hh. apply Hknown. cbn [s' sn_threads sn_slot] in Hh. destruct (decide (r' = r)) as [-> | Hne]; [done |].
    rewrite Hother in Hh by done. by apply (ok_known s Hs).
  - intros j t Hj. cbn [s' sn_threads] in Hj. assert (Hcl : forall t, match t with Idle => True | Loaded r | Holding r => is_Some (sn_refs s !! r) | Counted r n => is_Some (sn_refs s !! r) /\ 0 < n end ->
      match t with Idle => True | Loaded r | Holding r => is_Some (sn_refs s' !! r) | Counted r n => is_Some (sn_refs s' !! r) /\ 0 < n end).
    { intros [| | |]; rewrite ?Hknown; done. }
    apply Hcl. apply list_lookup_insert_Some in Hj as [(-> & <- & _) | [_ Hj]]; [done | by apply (ok_seen s Hs j)].
  - intros r'. rewrite Hknown, Hrefs. apply Hclosed.
  - done.
Qed.

Lemma Holding_inj r r' : bool_decide (Holding r = Holding r') = bool_decide (r' = r).
Proof. apply bool_decide_ext. split; [by intros [= ->] | by intros ->]. Qed.

Lemma acquire_cas_ok i r n s : snap_ok s -> sn_threads s !! i = Some (Counted r n) -> snap_ok (acquire_cas i r n s).
Proof.
  intros Hs Hi. destruct (ok_seen s Hs i _ Hi) as [Hr Hn]. unfold acquire_cas. destruct (refs s r =? n) eqn:En; [| by apply (move_ok i (Counted r n))].
  apply Z.eqb_eq in En.
  assert (Hh : forall r', holders r' (<[i := Holding r]> (sn_threads s)) = holders r' (sn_threads s) + (if bool_decide (r' = r) then 1 else 0)).
  { intros r'. rewrite (holders_insert r' _ i _ _ Hi), Holding_inj, (bool_decide_eq_false_2 (Counted r n = _)) by done. lia. }
  unfold set_thread, set_refs. cbn [sn_slot sn_refs sn_closed sn_threads]. apply (count_step_ok i (Counted r n)); try done.
  - intros r'. destruct (sn_refs s !! r') eqn:Hk; [left | right; by intros [? ?]]. rewrite Hh. pose proof (ok_count s Hs r' ltac:(by eexists)) as Hc.
    case_bool_decide; subst; lia.
  - intros r' Hne. rewrite Hh, bool_decide_eq_false_2 by done. lia.
  - intros r'. rewrite (ok_closed s Hs r'). case_bool_decide; [subst; lia | done].
  - apply (ok_once s Hs).
Qed.

Lemma release_ok i r s : snap_ok s -> sn_threads s !! i = Some (Holding r) -> snap_ok (release i r s).
Proof.
  intros Hs Hi. pose proof (ok_seen s Hs i _ Hi) as Hr. cbn in Hr.
  assert (Hh : forall r', holders r' (<[i := Idle]> (sn_threads s)) = holders r' (sn_threads s) - (if bool_decide (r' = r) then 1 else 0)).
  { intros r'. rewrite (holders_insert r' _ i _ _ Hi), Holding_inj, (bool_decide_eq_false_2 (Idle = _)) by done. lia. }
  pose proof (ok_count s Hs r Hr) as Hc. pose proof (holders_nonneg r (<[i := Idle]> (sn_threads s))) as Hnn. rewrite Hh, bool_decide_eq_true_2 in Hnn by done.
  assert (Hpos : 0 < refs s r) by (unfold owned in Hc; case_bool_decide; lia).
  assert (Hcount : forall r', (if bool_decide (r' = r) then refs s r - 1 else refs s r') = holders r' (<[i := Idle]> (sn_threads s)) + owned (sn_slot s) r' \/ ~ is_Some (sn_refs s !! r')).
  { intros r'. destruct (sn_refs s !! r') eqn:Hk; [left | right; by intros [? ?]]. rewrite Hh. pose proof (ok_count s Hs r' ltac:(by eexists)) as Hc'. case_bool_decide; subst; lia. }
  assert (Hother : forall r', r' <> r -> holders r' (<[i := Idle]> (sn_threads s)) = holders r' (sn_threads s)).
  { intros r' Hne. rewrite Hh, bool_decide_eq_false_2 by done. lia. }
  unfold release. cbv zeta. unfold set_thread, set_refs. cbn [sn_slot sn_refs sn_closed sn_threads]. destruct (refs s r - 1 =? 0) eqn:E; bool_to_prop.
  - apply (count_step_ok i (Holding r)); try done.
    + intros r'. rewrite elem_of_cons, (ok_closed s Hs r'). case_bool_decide as Hd; [subst; intuition lia | tauto].
    + constructor; [rewrite (ok_closed s Hs r); lia | apply (ok_once s Hs)].
  - apply (count_step_ok i (Holding r)); try done.
    + intros r'. rewrite (ok_closed s Hs r'). case_bool_decide as Hd; [subst; intuition lia | done].
    + apply (ok_once s Hs).
Qed.

Lemma thread_step_ok i s s' : snap_ok s -> thread_step i s = Some s' -> snap_ok s'.
Proof.
  intros Hs. unfold thread_step. destruct (sn_threads s !! i) as [[| r | r n | r] |] eqn:Hi; [| | | | done]; intros [= <-].
  - destruct (sn_slot s) as [r |] eqn:Hsl; [| done]. apply (move_ok i Idle); try done. apply (ok_known s Hs). unfold owned. rewrite Hsl, bool_decide_eq_true_2 by done.
    pose proof (holders_nonneg r (sn_threads s)). lia.
  - pose proof (ok_seen s Hs i _ Hi) as Hr. unfold acquire_load. destruct (refs s r <=? 0) eqn:E; bool_to_prop; by apply (move_ok i (Loaded r)).
  - by apply acquire_cas_ok.
  - by apply release_ok.
Qed.

(** Publishing a new resource hands the old one's reference to the goroutine. *)
Lemma swap_ok i fresh s s' : snap_ok s -> swap i fresh s = Some s' -> snap_ok s'.
Proof.
  intros Hs. unfold swap. destruct (sn_threads s !! i) as [[| r | r n | r] |] eqn:Hi; try done. cbv zeta.
  set (m := match fresh with Some r => <[r := 1]> (sn_refs s) | None => sn_refs s end).
  set (ts := match sn_slot s with Some old => <[i := Holding old]> (sn_threads s) | None => sn_threads s end).
  intros Hsw. assert (Hnew : s' = mk_state fresh m (sn_closed s) ts /\ forall r, fresh = Some r -> ~ is_Some (sn_refs s !! r)).
  { unfold m, ts. destruct fresh as [r |]; [case_bool_decide; [done |] |]; injection Hsw as <-; (split; [by destruct (sn_slot s) |]); [by intros r' [= <-] | done]. }
  destruct Hnew as [-> Hfresh]. clear Hsw.
  assert (Hh : forall r, holders r ts = holders r (sn_threads s) + owned (sn_slot s) r).
  { intros r. unfold ts, owned. destruct (sn_slot s) as [old |]; [| rewrite bool_decide_eq_false_2 by done; lia].
    rewrite (holders_insert r _ i _ _ Hi), Holding_inj, (bool_decide_eq_false_2 (Idle = _)) by done.
    assert (Hd : bool_decide (Some old = Some r) = bool_decide (r = old)) by (apply bool_decide_ext; split; [by intros [= ->] | by intros ->]). rewrite Hd. lia. }
  assert (Hm : forall r, m !! r = if bool_decide (fresh = Some r) then Some 1 else sn_refs s !! r).
  { intros r. unfold m. destruct fresh as [f |]; [| by rewrite bool_decide_eq_false_2]. case_bool_decide as E; [injection E as ->; by rewrite lookup_insert_eq |].
    apply lookup_insert_ne. congruence. }
  assert (Hold : forall r, is_Some (sn_refs s !! r) -> m !! r = sn_refs s !! r).
  { intros r Hr. rewrite Hm. case_bool_decide as E; [by destruct (Hfresh r E) | done]. }
  assert (Hnone : forall r, ~ is_Some (sn_refs s !! r) -> holders r (sn_threads s) + owned (sn_slot s) r = 0).
  { intros r Hr. destruct (decide (0 < holders r (sn_threads s) + owned (sn_slot s) r)) as [Hp |]; [by apply (ok_known s Hs) in Hp |].
    pose proof (holders_nonneg r (sn_threads s)). unfold owned in *. case_bool_decide; lia. }
  constructor; cbn [sn_slot sn_refs sn_closed sn_threads].
  - intros r. unfold refs. cbn [sn_refs]. rewrite Hm, Hh. unfold owned at 2. case_bool_decide as E; intros Hr; cbn [default].
    + pose proof (Hnone r (Hfresh r E)). cbn. lia.
    + rewrite (ok_count s Hs r Hr : default 0 (sn_refs s !! r) = _). lia.
  - intros r. rewrite Hh, Hm. unfold owned at 2. case_bool_decide; [by eexists |]. intros Hp. apply (ok_known s Hs). lia.
  - intros j t Hj. assert (Ht : match t with Idle => True | Loaded r | Holding r => is_Some (sn_refs s !! r) | Counted r n => is_Some (sn_refs s !! r) /\ 0 < n end).
    { unfold ts in Hj. destruct (sn_slot s) as [old |] eqn:Hsl; [| by apply (ok_seen s Hs j)].
      apply list_lookup_insert_Some in Hj as [(-> & <- & _) | [_ Hj]]; [| by apply (ok_seen s Hs j)].
      apply (ok_known s Hs). pose proof (holders_nonneg old (sn_threads s)). unfold owned. rewrite Hsl, bool_decide_eq_true_2 by done. lia. }
    destruct t; try done; rewrite Hold; try done; apply Ht.
  - intros r. rewrite (ok_closed s Hs r). unfold refs. cbn [sn_refs]. rewrite Hm. case_bool_decide as E; [| done]. cbn. split; [by intros [? _]; destruct (Hfresh r E) | by intros [_ ?]].
  - apply (ok_once s Hs).
Qed.

Lemma start_ok r n : snap_ok (start r n).
Proof.
  assert (Hh : forall r', holders r' (replicate n Idle) = 0) by (intros r'; induction n as [| n IH]; [done |]; cbn [replicate]; by rewrite holders_cons, IH).
  constructor; cbn [start sn_slot sn_refs sn_closed sn_threads].
  - intros r' Hr. unfold refs. cbn. rewrite Hh. apply lookup_singleton_is_Some in Hr as <-. rewrite lookup_singleton_eq. unfold owned. by rewrite bool_decide_eq_true_2.
  - intros r'. rewrite Hh. unfold owned. case_bool_decide as E; [| lia]. injection E as <-. rewrite lookup_singleton_eq. by eexists.
  - intros j t Hj. by apply lookup_replicate in Hj as [-> _].
  - intros r'. split; [by intros ?%not_elem_of_nil |]. intros [Hr Hz]. apply lookup_singleton_is_Some in Hr as <-. unfold refs in Hz. cbn in Hz. by rewrite lookup_singleton_eq in Hz.
  - apply NoDup_nil_2.
Qed.

Lemma reachable_ok r n s : reachable r n s -> snap_ok s.
Proof.
  induction 1 as [| s s' _ IH Hst]; [apply start_ok |]. destruct Hst as [i s s' Hs | i fresh s s' Hs]; [by eapply thread_step_ok | by eapply swap_ok].
Qed.

(** * Properties *)

(** C24: In every interleaving of acquirers, releasers and swaps a resource is
    closed at most once, only when nobody holds it, and no holder ever sees it
    closed. *)
Theorem snapshot_never_closed_in_use (r0 n : nat) (s : state) : reachable r0 n s ->
  NoDup (sn_closed s) /\
  (forall r, r ∈ sn_closed s -> sn_slot s <> Some r /\ forall i, sn_threads s !! i <> Some (Holding r)) /\
  (forall r, is_Some (sn_refs s !! r) -> sn_slot s <> Some r -> (forall i, sn_threads s !! i <> Some (Holding r)) -> r ∈ sn_closed s) /\
  (forall i s', thread_step i s = Some s' -> forall r, sn_threads s' !! i = Some (Holding r) -> r ∉ sn_closed s').
Proof.
  intros Hr. pose proof (reachable_ok r0 n s Hr) as Hs.
  assert (Hzero : forall s, snap_ok s -> forall r, r ∈ sn_closed s -> sn_slot s <> Some r /\ forall i, sn_threads s !! i <> Some (Holding r)).
  { clear s Hr Hs. intros s Hs r [Hk Hz]%(ok_closed s Hs). rewrite (ok_count s Hs r Hk) in Hz. pose proof (holders_nonneg r (sn_threads s)) as Hnn. split.
    - intros E. unfold owned in Hz. rewrite E, bool_decide_eq_true_2 in Hz by done. lia.
    - intros i Hi. pose proof (holders_insert r _ i _ Idle Hi) as Hx. pose proof (holders_nonneg r (<[i := Idle]> (sn_threads s))) as Hy.
      rewrite bool_decide_eq_true_2, (bool_decide_eq_false_2 (Idle = _)) in Hx by done. unfold owned in Hz. case_bool_decide; lia. }
  split_ands; [apply (ok_once s Hs) | by apply Hzero | |].
  - intros r Hk Hslot Hno. apply (ok_closed s Hs). split; [done |]. rewrite (ok_count s Hs r Hk). unfold owned. rewrite bool_decide_eq_false_2 by done.
    rewrite holders_zero; [done |]. intros i t Hi ->. by apply (Hno i).
  - intros i s' Hst r Hi Hc. pose proof (thread_step_ok i s s' Hs Hst) as Hs'. destruct (Hzero s' Hs' r Hc) as [_ Hno]. by apply (Hno i).
Qed.

(** A schedule: goroutine [i] moves, or publishes a resource. *)
Fixpoint schedule (ls : list (nat + nat * option nat)) (s : state) : option state :=
  match ls with
  | [] => Some s
  | inl i :: rest => s' ← thread_step i s; schedule rest s'
  | inr (i, fresh) :: rest => s' ← swap i fresh s; schedule rest s'
  end.

Lemma schedule_reachable r n ls : forall s s', reachable r n s -> schedule ls s = Some s' -> reachable r n s'.
Proof.
  induction ls as [| [i | [i fresh]] ls IH]; intros s s' Hr; cbn [schedule]; [by intros [= <-] | |].
  - destruct (thread_step i s) as [s1 |] eqn:E; [| done]. cbn. apply IH. eapply reach_step; [exact Hr |]. by eapply step_thread.
  - destruct (swap i fresh s) as [s1 |] eqn:E; [| done]. cbn. apply IH. eapply reach_step; [exact Hr |]. by eapply step_swap.
Qed.

(** A reader counts the old snapshot while a reload retires and closes it; its
    compare-and-swap then fails and it finds the new one. *)
Definition ex_schedule : list (nat + nat * option nat) :=
  [inl 0; inl 0; inr (1, Some 7); inl 1; inl 0; inl 0; inl 0; inl 0; inl 0]%nat.
Definition ex_final : state := default (start 3 2) (schedule ex_schedule (start 3 2)).

Theorem snapshot_never_closed_in_use_witness :
  sn_closed ex_final = [3%nat] /\ sn_threads ex_final !! 0%nat = Some (Holding 7) /\ sn_slot ex_final <> Some 3%nat.
Proof.
  assert (Hr : reachable 3 2 ex_final) by (apply (schedule_reachable 3 2 ex_schedule (start 3 2)); [constructor | vm_compute; reflexivity]).
  destruct (snapshot_never_closed_in_use 3 2 ex_final Hr) as (_ & Hc & _).
  split; [vm_compute; reflexivity | split; [vm_compute; reflexivity |]]. apply (Hc 3%nat). left.
Defined.
