(* ===== verification/ChallengeRecord.v ===== *)
(** * Proof policy and the stored challenge record (core/pow/proof.go, core/pow/challenge_record.go)

    The issuance record of a stateful challenge and its two binary formats.
    Slices that fall outside the input panic in Go; the decoder runs in a monad
    where a panic is a value of its own, so that its absence is a theorem. *)

From S2P Require Export Sha256.

(** ** Proof policy *)
Definition AlgorithmSHA256 : gostring := lit "sha256".
Definition AlgorithmArgon2ID : gostring := lit "argon2id".
Definition argon2SaltSize : Z := 16.
Definition argon2ProofSize : Z := 32.

Record ProofSpec := mk_spec {
  ps_Algorithm : gostring;
  ps_Difficulty : Z;
  ps_MemoryKiB : Z;
  ps_Iterations : Z;
  ps_Salt : gostring
}.

Inductive spec_error :=
| SpecDifficulty (n : Z)
| SpecMemory (n : Z)
| SpecIterations (n : Z)
| SpecUnknownAlgorithm (a : gostring).

Definition algorithm (s : ProofSpec) : gostring :=
  if bool_decide (ps_Algorithm s = []) then AlgorithmSHA256 else ps_Algorithm s.

Definition validate (s : ProofSpec) : option spec_error :=
  if bool_decide (algorithm s = AlgorithmSHA256) then
    if (ps_Difficulty s <? 0) || (32 <? ps_Difficulty s) then Some (SpecDifficulty (ps_Difficulty s)) else None
  else if bool_decide (algorithm s = AlgorithmArgon2ID) then
    if (ps_MemoryKiB s <? 8 * 1024) || (32 * 1024 <? ps_MemoryKiB s) then Some (SpecMemory (ps_MemoryKiB s))
    else if (ps_Iterations s <? 1) || (3 <? ps_Iterations s) then Some (SpecIterations (ps_Iterations s))
    else None
  else Some (SpecUnknownAlgorithm (ps_Algorithm s)).

(** [argon2.IDKey(password, salt, time, memory, threads, keyLen)] of
    golang.org/x/crypto, with one thread and a 32-byte key. *)
Class Argon2 := { IDKey : gostring -> gostring -> Z -> Z -> gostring }.

(** A proof is the 64-digit hexadecimal form of the derived key. *)
Definition verifyArgon2ID `{Argon2} (challenge : gostring) (spec : ProofSpec) (proofHex : gostring) : bool :=
  if negb (len proofHex =? 2 * argon2ProofSize) then false else
  match hex_decode proofHex with
  | None => false
  | Some got => bool_decide (got = IDKey challenge (ps_Salt spec) (ps_Iterations spec) (ps_MemoryKiB spec))
  end.

(** ** The record *)
Definition challengeRecordVersion : Z := 1.
Definition challengeRecordVersionArgon2 : Z := 2.
Definition challengeRecordStateIssued : Z := 1.
Definition challengeRecordStateSpent : Z := 2.
Definition challengeRecordFlagNoJS : Z := 1.
Definition challengeRecordVersionOffset : Z := 4.
Definition challengeRecordStateOffset : Z := 5.
Definition challengeRecordFixedSize : Z := 60.
Definition challengeRecordV2FixedSize : Z := 84.
Definition challengeRecordMaxFieldSize : Z := 2 ^ 32 - 1.
Definition challengeRecordMagic : gostring := lit "AGCR".
Definition recordStateIssued : gostring := lit "issued".
Definition recordStateSpent : gostring := lit "spent".

Record record := mk_record {
  State : gostring;
  Host : gostring;
  IP : gostring;
  ChallengeDigest : gostring;   (* [32]byte *)
  Algorithm : gostring;
  Difficulty : Z;
  MemoryKiB : Z;                (* uint32 *)
  Iterations : Z;               (* uint32 *)
  Salt : gostring;              (* [16]byte *)
  URI : gostring;
  NoJS : bool;
  IssuedAt : Z                  (* int64, unix milliseconds *)
}.

Definition proofSpec (r : record) : ProofSpec :=
  mk_spec (Algorithm r) (Difficulty r) (MemoryKiB r) (Iterations r) (Salt r).

(** Every cause wraps [errChallengeRecord]. *)
Inductive record_error :=
| RUnknownState
| RDifficulty
| RFieldSize
| RPlatformSize
| RSpec (e : spec_error)
| RMagic
| RVersion
| RTruncated
| RFlags
| RLengths.

(** The machine types of the fields. *)
Record record_ok (r : record) : Prop := {
  rk_digest : len (ChallengeDigest r) = 32;
  rk_salt : len (Salt r) = 16;
  rk_mem : 0 <= MemoryKiB r < 2 ^ 32;
  rk_iter : 0 <= Iterations r < 2 ^ 32;
  rk_issued : int64_ok (IssuedAt r)
}.

Definition binaryRecordState (state : gostring) : outcome record_error Z :=
  if bool_decide (state = recordStateIssued) then Ok challengeRecordStateIssued
  else if bool_decide (state = recordStateSpent) then Ok challengeRecordStateSpent
  else Err RUnknownState.

Definition logicalRecordState (state : Z) : outcome record_error gostring :=
  if state =? challengeRecordStateIssued then Ok recordStateIssued
  else if state =? challengeRecordStateSpent then Ok recordStateSpent
  else Err RUnknownState.

(** ** Encoding *)

(** The largest [int]. *)
Definition maxInt : Z := int64_max.

Definition oversized (r : record) : bool :=
  (challengeRecordMaxFieldSize <? len (Host r)) || (challengeRecordMaxFieldSize <? len (IP r)) ||
  (challengeRecordMaxFieldSize <? len (URI r)).
Definition payloadSize (r : record) : Z := wrapu64 (len (Host r) + len (IP r) + len (URI r)).

Definition no_js_flag (r : record) : Z := if NoJS r then challengeRecordFlagNoJS else 0.

(** The appended bytes of each version. *)
Definition v1_bytes (state : Z) (r : record) : gostring :=
  challengeRecordMagic ++ [Zbyte challengeRecordVersion; Zbyte state] ++ [Zbyte (no_js_flag r); Zbyte (Difficulty r)] ++
  be_bytes 8 (wrapu64 (IssuedAt r)) ++ ChallengeDigest r ++
  be_bytes 4 (len (Host r)) ++ be_bytes 4 (len (IP r)) ++ be_bytes 4 (len (URI r)) ++
  Host r ++ IP r ++ URI r.

Definition v2_bytes (state : Z) (r : record) : gostring :=
  challengeRecordMagic ++ [Zbyte challengeRecordVersionArgon2; Zbyte state] ++
  [Zbyte (no_js_flag r); Zbyte 1; Zbyte 0; Zbyte (Iterations r); Zbyte 0; Zbyte 0] ++
  be_bytes 8 (wrapu64 (IssuedAt r)) ++ ChallengeDigest r ++ Salt r ++ be_bytes 4 (MemoryKiB r) ++
  be_bytes 4 (len (Host r)) ++ be_bytes 4 (len (IP r)) ++ be_bytes 4 (len (URI r)) ++
  Host r ++ IP r ++ URI r.

Definition encodeChallengeRecordV2 (r : record) : outcome record_error gostring :=
  let! state := binaryRecordState (State r) in
  match validate (proofSpec r) with
  | Some e => Err (RSpec e)
  | None =>
    if oversized r then Err RFieldSize
    else if maxInt - challengeRecordV2FixedSize <? payloadSize r then Err RPlatformSize
    else let encoded := v2_bytes state r in
         if negb (len encoded =? challengeRecordV2FixedSize + payloadSize r) then Err RPlatformSize else Ok encoded
  end.

Definition encodeChallengeRecord (r : record) : outcome record_error gostring :=
  if bool_decide (algorithm (proofSpec r) = AlgorithmArgon2ID) then encodeChallengeRecordV2 r else
  let! state := binaryRecordState (State r) in
  if (Difficulty r <? 0) || (255 <? Difficulty r) then Err RDifficulty
  else if oversized r then Err RFieldSize
  else if maxInt - challengeRecordFixedSize <? payloadSize r then Err RPlatformSize
  else let encoded := v1_bytes state r in
       if negb (len encoded =? challengeRecordFixedSize + payloadSize r) then Err RPlatformSize else Ok encoded.

(** ** Decoding *)

(** The result of code that may panic. *)
Inductive panics (A : Type) : Type :=
| Panic
| Done (r : outcome record_error A).
Arguments Panic {A}.
Arguments Done {A} r.

Notation "'at!' x ':=' o 'in' k" := (match o with Some x => k | None => Panic end)
  (at level 10, x pattern, o at level 100, k at level 200) : go_scope.
Notation "'or!' x ':=' o 'in' k" := (match o with Ok x => k | Err e => Done (Err e) end)
  (at level 10, x pattern, o at level 100, k at level 200) : go_scope.

Definition Uint32 (bs : gostring) : Z := be_value bs.
Definition int64_of_u64 (n : Z) : Z := wrap64 n.

Definition decodeBinaryChallengeRecordV2 (raw : gostring) : panics record :=
  if len raw <? challengeRecordV2FixedSize then Done (Err RTruncated) else
  at! sb := index raw challengeRecordStateOffset in
  or! state := logicalRecordState (byteZ sb) in
  at! flags := index raw 6 in
  at! b7 := index raw 7 in at! b10 := index raw 10 in at! b11 := index raw 11 in
  if negb (Z.ldiff (byteZ flags) challengeRecordFlagNoJS =? 0) || negb (byteZ b7 =? 1) ||
     negb (byteZ b10 =? 0) || negb (byteZ b11 =? 0) then Done (Err RFlags) else
  at! h := slice raw 72 76 in at! i := slice raw 76 80 in at! u := slice raw 80 84 in
  let hostLen := Uint32 h in let ipLen := Uint32 i in let uriLen := Uint32 u in
  if negb (hostLen + ipLen + uriLen =? len raw - challengeRecordV2FixedSize) then Done (Err RLengths) else
  let offset := challengeRecordV2FixedSize in
  at! host := slice raw offset (offset + hostLen) in
  at! b9 := index raw 9 in
  at! mem := slice raw 68 72 in
  at! ts := slice raw 12 20 in
  let offset := offset + hostLen in
  at! ip := slice raw offset (offset + ipLen) in
  let offset := offset + ipLen in
  at! uri := slice raw offset (offset + uriLen) in
  at! digest := slice raw 20 52 in
  at! salt := slice raw 52 68 in
  let rec := mk_record state host ip digest AlgorithmArgon2ID 0 (Uint32 mem) (byteZ b9) salt uri
    (negb (Z.land (byteZ flags) challengeRecordFlagNoJS =? 0)) (int64_of_u64 (be_value ts)) in
  match validate (proofSpec rec) with
  | Some e => Done (Err (RSpec e))
  | None => Done (Ok rec)
  end.

(** The zero value of a byte array. *)
Definition zero_bytes (n : nat) : gostring := replicate n (Zbyte 0).

Definition decodeBinaryChallengeRecord (raw : gostring) : panics record :=
  if len raw <=? challengeRecordVersionOffset then Done (Err RTruncated) else
  at! v := index raw challengeRecordVersionOffset in
  if byteZ v =? challengeRecordVersionArgon2 then decodeBinaryChallengeRecordV2 raw else
  if negb (byteZ v =? challengeRecordVersion) then Done (Err RVersion) else
  if len raw <? challengeRecordFixedSize then Done (Err RTruncated) else
  at! sb := index raw challengeRecordStateOffset in
  or! state := logicalRecordState (byteZ sb) in
  at! flags := index raw 6 in
  if negb (Z.ldiff (byteZ flags) challengeRecordFlagNoJS =? 0) then Done (Err RFlags) else
  at! h := slice raw 48 52 in at! i := slice raw 52 56 in at! u := slice raw 56 60 in
  let hostLen := Uint32 h in let ipLen := Uint32 i in let uriLen := Uint32 u in
  if negb (hostLen + ipLen + uriLen =? len raw - challengeRecordFixedSize) then Done (Err RLengths) else
  let offset := challengeRecordFixedSize in
  at! host := slice raw offset (offset + hostLen) in
  let offset := offset + hostLen in
  at! ip := slice raw offset (offset + ipLen) in
  let offset := offset + ipLen in
  at! uri := slice raw offset (offset + uriLen) in
  at! b7 := index raw 7 in
  at! ts := slice raw 8 16 in
  at! digest := slice raw 16 48 in
  Done (Ok (mk_record state host ip digest [] (byteZ b7) 0 0 (zero_bytes 16) uri
    (negb (Z.land (byteZ flags) challengeRecordFlagNoJS =? 0)) (int64_of_u64 (be_value ts)))).

Definition decodeChallengeRecord (raw : gostring) : panics record :=
  if len raw <? len challengeRecordMagic then Done (Err RMagic) else
  at! m := slice raw 0 (len challengeRecordMagic) in
  if negb (bool_decide (m = challengeRecordMagic)) then Done (Err RMagic)
  else decodeBinaryChallengeRecord raw.

(** [appendChallengeText]: the client-facing form of the digest. *)
Definition appendChallengeText (r : record) (dst : gostring) : gostring := dst ++ hex_encode (ChallengeDigest r).

(** ** Layouts *)

(** The chunks of each version; [rest] holds the three variable fields. *)
Definition v1_chunks (m : gostring) (v s f d : ascii) (ts dg hl il ul rest : gostring) : list gostring :=
  [m; [v]; [s]; [f]; [d]; ts; dg; hl; il; ul; rest].
Definition v2_chunks (m : gostring) (v s f b7 b8 b9 b10 b11 : ascii) (ts dg salt mem hl il ul rest : gostring)
  : list gostring :=
  [m; [v]; [s]; [f]; [b7]; [b8]; [b9]; [b10]; [b11]; ts; dg; salt; mem; hl; il; ul; rest].

Definition flags_bad (f : ascii) : bool := negb (Z.ldiff (byteZ f) challengeRecordFlagNoJS =? 0).
Definition flag_no_js (f : ascii) : bool := negb (Z.land (byteZ f) challengeRecordFlagNoJS =? 0).

Lemma flags_good f : flags_bad f = false -> f = Zbyte (if flag_no_js f then 1 else 0).
Proof. destruct f as [[] [] [] [] [] [] [] []]; vm_compute; done. Qed.
Lemma flags_of_bool (b : bool) : flags_bad (Zbyte (if b then 1 else 0)) = false /\ flag_no_js (Zbyte (if b then 1 else 0)) = b.
Proof. by destruct b. Qed.

(** The three variable fields out of the rest of the record. *)
Definition field_host (hl rest : gostring) : gostring := take (Z.to_nat (be_value hl)) rest.
Definition field_ip (hl il rest : gostring) : gostring := take (Z.to_nat (be_value il)) (drop (Z.to_nat (be_value hl)) rest).
Definition field_uri (hl il rest : gostring) : gostring := drop (Z.to_nat (be_value hl + be_value il)) rest.

(** Solves the lookups of a layout. *)
Ltac layout_len := unfold v1_chunks, v2_chunks, total, len; cbn [length foldr take]; lia.
Lemma rest_slices pre (rest hl il ul : gostring) base : len pre = base ->
  be_value hl + be_value il + be_value ul = len rest ->
  slice (pre ++ rest) base (base + be_value hl) = Some (field_host hl rest) /\
  slice (pre ++ rest) (base + be_value hl) (base + be_value hl + be_value il) = Some (field_ip hl il rest) /\
  slice (pre ++ rest) (base + be_value hl + be_value il) (base + be_value hl + be_value il + be_value ul) = Some (field_uri hl il rest).
Proof.
  intros Hp Hl. pose proof (be_value_range hl). pose proof (be_value_range il). pose proof (be_value_range ul).
  unfold len in *.
  assert (Hr : rest = field_host hl rest ++ field_ip hl il rest ++ field_uri hl il rest).
  { unfold field_host, field_ip, field_uri. rewrite Z2Nat.inj_add, <- drop_drop, take_drop, take_drop by lia. done. }
  assert (L1 : Z.of_nat (length (field_host hl rest)) = be_value hl) by (unfold field_host; rewrite length_take; lia).
  assert (L2 : Z.of_nat (length (field_ip hl il rest)) = be_value il) by (unfold field_ip; rewrite length_take, length_drop; lia).
  assert (L3 : Z.of_nat (length (field_uri hl il rest)) = be_value ul) by (unfold field_uri; rewrite length_drop; lia).
  split_ands; rewrite Hr at 1.
  - apply slice_app; unfold len; lia.
  - rewrite app_assoc. apply slice_app; rewrite ?len_app; unfold len; lia.
  - rewrite app_assoc, app_assoc. apply slice_app_end; rewrite ?len_app; unfold len; lia.
Qed.

Lemma concat_v1 m v s f d ts dg hl il ul rest :
  concat (v1_chunks m v s f d ts dg hl il ul rest) = concat (v1_chunks m v s f d ts dg hl il ul []) ++ rest.
Proof. unfold v1_chunks. cbn [concat]. rewrite !app_nil_r. by rewrite <- !app_assoc. Qed.

(** The decoder on a version-1 layout. *)
Lemma v1_decode_eq m s f d ts dg hl il ul rest :
  length m = 4%nat -> length ts = 8%nat -> length dg = 32%nat ->
  length hl = 4%nat -> length il = 4%nat -> length ul = 4%nat ->
  decodeBinaryChallengeRecord (concat (v1_chunks m (Zbyte 1) s f d ts dg hl il ul rest)) =
    (or! state := logicalRecordState (byteZ s) in
     if flags_bad f then Done (Err RFlags)
     else if negb (be_value hl + be_value il + be_value ul =? len rest) then Done (Err RLengths)
     else Done (Ok (mk_record state (field_host hl rest) (field_ip hl il rest) dg [] (byteZ d) 0 0 (zero_bytes 16)
       (field_uri hl il rest) (flag_no_js f) (wrap64 (be_value ts))))).
Proof.
  intros Hm Hts Hdg Hhl Hil Hul.
  assert (Hlen : len (concat (v1_chunks m (Zbyte 1) s f d ts dg hl il ul rest)) = 60 + len rest)
    by (rewrite total_concat; unfold v1_chunks; layout_len).
  pose proof (len_nonneg rest).
  assert (Hpre : len (concat (v1_chunks m (Zbyte 1) s f d ts dg hl il ul [])) = 60)
    by (rewrite total_concat; unfold v1_chunks; layout_len).
  set (raw := concat (v1_chunks m (Zbyte 1) s f d ts dg hl il ul rest)) in *.
  assert (X4 : index raw 4 = Some (Zbyte 1)) by (apply (index_chunk _ 1%nat); [done | layout_len]).
  assert (X5 : index raw 5 = Some s) by (apply (index_chunk _ 2%nat); [done | layout_len]).
  assert (X6 : index raw 6 = Some f) by (apply (index_chunk _ 3%nat); [done | layout_len]).
  assert (X7 : index raw 7 = Some d) by (apply (index_chunk _ 4%nat); [done | layout_len]).
  assert (S8 : slice raw 8 16 = Some ts) by (apply (slice_chunk _ 5%nat); [done | layout_len | layout_len]).
  assert (S16 : slice raw 16 48 = Some dg) by (apply (slice_chunk _ 6%nat); [done | layout_len | layout_len]).
  assert (S48 : slice raw 48 52 = Some hl) by (apply (slice_chunk _ 7%nat); [done | layout_len | layout_len]).
  assert (S52 : slice raw 52 56 = Some il) by (apply (slice_chunk _ 8%nat); [done | layout_len | layout_len]).
  assert (S56 : slice raw 56 60 = Some ul) by (apply (slice_chunk _ 9%nat); [done | layout_len | layout_len]).
  unfold decodeBinaryChallengeRecord, challengeRecordVersionOffset, challengeRecordFixedSize, challengeRecordStateOffset, Uint32.
  rewrite Hlen, (proj2 (Z.leb_gt _ _)), (proj2 (Z.ltb_ge _ _)) by lia.
  rewrite X4, X5, X6, X7, S8, S16, S48, S52, S56. change (byteZ (Zbyte 1)) with 1.
  cbn [Z.eqb negb challengeRecordVersionArgon2 challengeRecordVersion Pos.eqb].
  destruct (logicalRecordState (byteZ s)) as [state | e]; [| done].
  fold (flags_bad f). destruct (flags_bad f); [done |].
  replace (60 + len rest - 60) with (len rest) by lia.
  destruct (be_value hl + be_value il + be_value ul =? len rest) eqn:E; cbn [negb]; [| done]. bool_to_prop.
  destruct (rest_slices _ rest hl il ul 60 Hpre E) as (R1 & R2 & R3). rewrite <- concat_v1 in R1, R2, R3.
  fold raw in R1, R2, R3. by rewrite R1, R2, R3.
Qed.

Lemma concat_v2 m v s f b7 b8 b9 b10 b11 ts dg salt mem hl il ul rest :
  concat (v2_chunks m v s f b7 b8 b9 b10 b11 ts dg salt mem hl il ul rest) =
  concat (v2_chunks m v s f b7 b8 b9 b10 b11 ts dg salt mem hl il ul []) ++ rest.
Proof. unfold v2_chunks. cbn [concat]. rewrite !app_nil_r. by rewrite <- !app_assoc. Qed.

(** The decoder on a version-2 layout. *)
Lemma v2_decode_eq m s f b7 b8 b9 b10 b11 ts dg salt mem hl il ul rest :
  length m = 4%nat -> length ts = 8%nat -> length dg = 32%nat -> length salt = 16%nat -> length mem = 4%nat ->
  length hl = 4%nat -> length il = 4%nat -> length ul = 4%nat ->
  decodeBinaryChallengeRecord (concat (v2_chunks m (Zbyte 2) s f b7 b8 b9 b10 b11 ts dg salt mem hl il ul rest)) =
    (or! state := logicalRecordState (byteZ s) in
     if flags_bad f || negb (byteZ b7 =? 1) || negb (byteZ b10 =? 0) || negb (byteZ b11 =? 0) then Done (Err RFlags)
     else if negb (be_value hl + be_value il + be_value ul =? len rest) then Done (Err RLengths)
     else let rec := mk_record state (field_host hl rest) (field_ip hl il rest) dg AlgorithmArgon2ID 0
                       (be_value mem) (byteZ b9) salt (field_uri hl il rest) (flag_no_js f) (wrap64 (be_value ts)) in
          match validate (proofSpec rec) with Some e => Done (Err (RSpec e)) | None => Done (Ok rec) end).
Proof.
  intros Hm Hts Hdg Hsa Hme Hhl Hil Hul.
  assert (Hlen : len (concat (v2_chunks m (Zbyte 2) s f b7 b8 b9 b10 b11 ts dg salt mem hl il ul rest)) = 84 + len rest)
    by (rewrite total_concat; unfold v2_chunks; layout_len).
  pose proof (len_nonneg rest).
  assert (Hpre : len (concat (v2_chunks m (Zbyte 2) s f b7 b8 b9 b10 b11 ts dg salt mem hl il ul [])) = 84)
    by (rewrite total_concat; unfold v2_chunks; layout_len).
  set (raw := concat (v2_chunks m (Zbyte 2) s f b7 b8 b9 b10 b11 ts dg salt mem hl il ul rest)) in *.
  assert (X4 : index raw 4 = Some (Zbyte 2)) by (apply (index_chunk _ 1%nat); [done | layout_len]).
  assert (X5 : index raw 5 = Some s) by (apply (index_chunk _ 2%nat); [done | layout_len]).
  assert (X6 : index raw 6 = Some f) by (apply (index_chunk _ 3%nat); [done | layout_len]).
  assert (X7 : index raw 7 = Some b7) by (apply (index_chunk _ 4%nat); [done | layout_len]).
  assert (X9 : index raw 9 = Some b9) by (apply (index_chunk _ 6%nat); [done | layout_len]).
  assert (X10 : index raw 10 = Some b10) by (apply (index_chunk _ 7%nat); [done | layout_len]).
  assert (X11 : index raw 11 = Some b11) by (apply (index_chunk _ 8%nat); [done | layout_len]).
  assert (S12 : slice raw 12 20 = Some ts) by (apply (slice_chunk _ 9%nat); [done | layout_len | layout_len]).
  assert (S20 : slice raw 20 52 = Some dg) by (apply (slice_chunk _ 10%nat); [done | layout_len | layout_len]).
  assert (S52 : slice raw 52 68 = Some salt) by (apply (slice_chunk _ 11%nat); [done | layout_len | layout_len]).
  assert (S68 : slice raw 68 72 = Some mem) by (apply (slice_chunk _ 12%nat); [done | layout_len | layout_len]).
  assert (S72 : slice raw 72 76 = Some hl) by (apply (slice_chunk _ 13%nat); [done | layout_len | layout_len]).
  assert (S76 : slice raw 76 80 = Some il) by (apply (slice_chunk _ 14%nat); [done | layout_len | layout_len]).
  assert (S80 : slice raw 80 84 = Some ul) by (apply (slice_chunk _ 15%nat); [done | layout_len | layout_len]).
  unfold decodeBinaryChallengeRecord, decodeBinaryChallengeRecordV2, challengeRecordVersionOffset, challengeRecordV2FixedSize, challengeRecordStateOffset, Uint32.
  rewrite Hlen, (proj2 (Z.leb_gt _ _)), (proj2 (Z.ltb_ge _ _)) by lia.
  rewrite X4, X5, X6, X7, X9, X10, X11, S12, S20, S52, S68, S72, S76, S80. change (byteZ (Zbyte 2)) with 2.
  cbn [Z.eqb negb challengeRecordVersionArgon2 challengeRecordVersion Pos.eqb].
  destruct (logicalRecordState (byteZ s)) as [state | e]; [| done].
  fold (flags_bad f). destruct (flags_bad f || _ || _ || _); [done |].
  replace (84 + len rest - 84) with (len rest) by lia.
  destruct (be_value hl + be_value il + be_value ul =? len rest) eqn:E; cbn [negb]; [| done]. bool_to_prop.
  destruct (rest_slices _ rest hl il ul 84 Hpre E) as (R1 & R2 & R3). rewrite <- concat_v2 in R1, R2, R3.
  fold raw in R1, R2, R3. by rewrite R1, R2, R3.
Qed.

(** Every long enough string is a layout. *)
Lemma v1_layout raw : 60 <= len raw -> exists m v s f d ts dg hl il ul rest,
  raw = concat (v1_chunks m v s f d ts dg hl il ul rest) /\ length m = 4%nat /\ length ts = 8%nat /\
  length dg = 32%nat /\ length hl = 4%nat /\ length il = 4%nat /\ length ul = 4%nat.
Proof.
  intros H. unfold len in H.
  destruct (cut_at 4 raw) as (m & r1 & -> & Hm); [unfold len; lia |]. rewrite length_app in H.
  destruct (cut_cons r1) as (v & r2 & ->); [unfold len; lia |].
  destruct (cut_cons r2) as (s & r3 & ->); [unfold len; simpl in H; lia |].
  destruct (cut_cons r3) as (f & r4 & ->); [unfold len; simpl in H; lia |].
  destruct (cut_cons r4) as (d & r5 & ->); [unfold len; simpl in H; lia |]. simpl in H.
  destruct (cut_at 8 r5) as (ts & r6 & -> & Hts); [unfold len; lia |]. rewrite length_app in H.
  destruct (cut_at 32 r6) as (dg & r7 & -> & Hdg); [unfold len; lia |]. rewrite length_app in H.
  destruct (cut_at 4 r7) as (hl & r8 & -> & Hhl); [unfold len; lia |]. rewrite length_app in H.
  destruct (cut_at 4 r8) as (il & r9 & -> & Hil); [unfold len; lia |]. rewrite length_app in H.
  destruct (cut_at 4 r9) as (ul & rest & -> & Hul); [unfold len; lia |].
  exists m, v, s, f, d, ts, dg, hl, il, ul, rest. split_ands; try done. unfold v1_chunks. cbn [concat app]. by rewrite app_nil_r.
Qed.

Lemma v2_layout raw : 84 <= len raw -> exists m v s f b7 b8 b9 b10 b11 ts dg salt mem hl il ul rest,
  raw = concat (v2_chunks m v s f b7 b8 b9 b10 b11 ts dg salt mem hl il ul rest) /\ length m = 4%nat /\ length ts = 8%nat /\
  length dg = 32%nat /\ length salt = 16%nat /\ length mem = 4%nat /\ length hl = 4%nat /\ length il = 4%nat /\ length ul = 4%nat.
Proof.
  intros H. unfold len in H.
  destruct (cut_at 4 raw) as (m & r1 & -> & Hm); [unfold len; lia |]. rewrite length_app in H.
  destruct (cut_at 8 r1) as (hd & r2 & -> & Hhd); [unfold len; lia |]. rewrite length_app in H.
  destruct hd as [| v [| s [| f [| b7 [| b8 [| b9 [| b10 [| b11 [| ? ?]]]]]]]]]; simpl in Hhd; try lia. simpl in H.
  destruct (cut_at 8 r2) as (ts & r6 & -> & Hts); [unfold len; lia |]. rewrite length_app in H.
  destruct (cut_at 32 r6) as (dg & r7 & -> & Hdg); [unfold len; lia |]. rewrite length_app in H.
  destruct (cut_at 16 r7) as (salt & r8 & -> & Hsa); [unfold len; lia |]. rewrite length_app in H.
  destruct (cut_at 4 r8) as (mem & r9 & -> & Hme); [unfold len; lia |]. rewrite length_app in H.
  destruct (cut_at 4 r9) as (hl & r10 & -> & Hhl); [unfold len; lia |]. rewrite length_app in H.
  destruct (cut_at 4 r10) as (il & r11 & -> & Hil); [unfold len; lia |]. rewrite length_app in H.
  destruct (cut_at 4 r11) as (ul & rest & -> & Hul); [unfold len; lia |].
  exists m, v, s, f, b7, b8, b9, b10, b11, ts, dg, salt, mem, hl, il, ul, rest. split_ands; try done.
  unfold v2_chunks. cbn [concat app]. by rewrite app_nil_r.
Qed.

(** ** Encoding as a layout *)
Definition stored_rest (r : record) : gostring := Host r ++ IP r ++ URI r.

Lemma v1_bytes_layout state r : v1_bytes state r =
  concat (v1_chunks challengeRecordMagic (Zbyte 1) (Zbyte state) (Zbyte (no_js_flag r)) (Zbyte (Difficulty r))
    (be_bytes 8 (wrapu64 (IssuedAt r))) (ChallengeDigest r) (be_bytes 4 (len (Host r))) (be_bytes 4 (len (IP r)))
    (be_bytes 4 (len (URI r))) (stored_rest r)).
Proof. unfold v1_bytes, v1_chunks, stored_rest. cbn [concat]. rewrite !app_nil_r. done. Qed.

Lemma v2_bytes_layout state r : v2_bytes state r =
  concat (v2_chunks challengeRecordMagic (Zbyte 2) (Zbyte state) (Zbyte (no_js_flag r)) (Zbyte 1) (Zbyte 0)
    (Zbyte (Iterations r)) (Zbyte 0) (Zbyte 0) (be_bytes 8 (wrapu64 (IssuedAt r))) (ChallengeDigest r) (Salt r)
    (be_bytes 4 (MemoryKiB r)) (be_bytes 4 (len (Host r))) (be_bytes 4 (len (IP r)))
    (be_bytes 4 (len (URI r))) (stored_rest r)).
Proof. unfold v2_bytes, v2_chunks, stored_rest. cbn [concat]. rewrite !app_nil_r. done. Qed.

(** The decoder's first check. *)
Lemma magic_eq rest : decodeChallengeRecord (challengeRecordMagic ++ rest) =
  decodeBinaryChallengeRecord (challengeRecordMagic ++ rest).
Proof.
  unfold decodeChallengeRecord.
  pose proof (slice_app [] challengeRecordMagic rest 0 (len challengeRecordMagic) eq_refl eq_refl) as Hs.
  change ([] ++ challengeRecordMagic ++ rest) with (challengeRecordMagic ++ rest) in Hs. rewrite Hs.
  rewrite bool_decide_eq_true_2 by done. cbn [negb].
  rewrite (proj2 (Z.ltb_ge _ _)); [done |]. rewrite len_app. pose proof (len_nonneg rest). lia.
Qed.

Lemma magic_inv raw r : decodeChallengeRecord raw = Done (Ok r) ->
  exists rest, raw = challengeRecordMagic ++ rest /\ decodeBinaryChallengeRecord raw = Done (Ok r).
Proof.
  unfold decodeChallengeRecord. destruct (len raw <? _) eqn:E; [done |]. bool_to_prop.
  destruct (slice_in raw 0 (len challengeRecordMagic)) as (m & Hm & _); [lia | apply len_nonneg | done |].
  rewrite Hm. case_bool_decide as Hmm; cbn [negb]; [| done]. subst m. intros Hd. exists (drop 4 raw). split; [| done].
  apply slice_Some in Hm as (_ & _ & Hm). change (challengeRecordMagic = take 4 raw) in Hm.
  by rewrite Hm, take_drop.
Qed.

(** The rest of a record splits back into its fields. *)
Lemma fields_back hl il ul host ip uri :
  be_value hl = len host -> be_value il = len ip -> be_value ul = len uri ->
  let rest := host ++ ip ++ uri in
  field_host hl rest = host /\ field_ip hl il rest = ip /\ field_uri hl il rest = uri /\
  be_value hl + be_value il + be_value ul = len rest.
Proof.
  intros H1 H2 H3 rest. unfold field_host, field_ip, field_uri, rest. rewrite H1, H2, H3. unfold len.
  rewrite Z2Nat.inj_add, <- drop_drop, !Nat2Z.id by lia. rewrite take_app_length, !drop_app_length, take_app_length.
  split_ands; try done. rewrite !length_app. lia.
Qed.

Lemma fields_join hl il ul rest : be_value hl + be_value il + be_value ul = len rest ->
  field_host hl rest ++ field_ip hl il rest ++ field_uri hl il rest = rest /\
  len (field_host hl rest) = be_value hl /\ len (field_ip hl il rest) = be_value il /\ len (field_uri hl il rest) = be_value ul.
Proof.
  intros Hl. pose proof (be_value_range hl). pose proof (be_value_range il). pose proof (be_value_range ul).
  unfold field_host, field_ip, field_uri. rewrite Z2Nat.inj_add, <- drop_drop, !take_drop by lia.
  unfold len in *. rewrite !length_take, !length_drop. split_ands; [done | lia..].
Qed.

Lemma len32 (s : gostring) : len s <= challengeRecordMaxFieldSize -> be_value (be_bytes 4 (len s)) = len s.
Proof. intros H. rewrite be_value_bytes, Z.mod_small; [done |]. pose proof (len_nonneg s). unfold challengeRecordMaxFieldSize in H. lia. Qed.

Lemma issued_back t : int64_ok t -> wrap64 (be_value (be_bytes 8 (wrapu64 t))) = t.
Proof.
  intros H. rewrite be_value_bytes. unfold wrapu64, wrap64, int64_ok, int64_min, int64_max in *.
  change (256 ^ Z.of_nat 8) with (2 ^ 64). rewrite Zmod_mod, Zplus_mod_idemp_l, Z.mod_small; lia.
Qed.

Lemma issued_forth n : 0 <= n < 2 ^ 64 -> wrapu64 (wrap64 n) = n.
Proof.
  intros H. unfold wrapu64, wrap64. rewrite Zminus_mod_idemp_l. replace (n + 2 ^ 63 - 2 ^ 63) with n by lia. by apply Z.mod_small.
Qed.

Lemma state_byte state n : binaryRecordState state = Ok n -> logicalRecordState (byteZ (Zbyte n)) = Ok state.
Proof. unfold binaryRecordState. repeat case_bool_decide; intros [= <-]; by subst. Qed.

Lemma state_name c state : logicalRecordState (byteZ c) = Ok state -> binaryRecordState state = Ok (byteZ c).
Proof.
  unfold logicalRecordState, challengeRecordStateIssued, challengeRecordStateSpent.
  destruct (byteZ c =? 1) eqn:E1; bool_to_prop; [intros [= <-]; by rewrite E1 |].
  destruct (byteZ c =? 2) eqn:E2; bool_to_prop; [intros [= <-]; by rewrite E2 | done].
Qed.

(** What survives storage: a SHA-256 record keeps no algorithm or Argon2
    parameters, an Argon2 record keeps no difficulty. *)
Definition canonical (r : record) : record :=
  if bool_decide (algorithm (proofSpec r) = AlgorithmArgon2ID)
  then mk_record (State r) (Host r) (IP r) (ChallengeDigest r) AlgorithmArgon2ID 0 (MemoryKiB r) (Iterations r) (Salt r)
         (URI r) (NoJS r) (IssuedAt r)
  else mk_record (State r) (Host r) (IP r) (ChallengeDigest r) [] (Difficulty r) 0 0 (zero_bytes 16)
         (URI r) (NoJS r) (IssuedAt r).

Lemma not_oversized r : oversized r = false ->
  len (Host r) <= challengeRecordMaxFieldSize /\ len (IP r) <= challengeRecordMaxFieldSize /\
  len (URI r) <= challengeRecordMaxFieldSize.
Proof. unfold oversized. intros H. bool_to_prop. done. Qed.

Lemma encode_v1_inv r b : algorithm (proofSpec r) <> AlgorithmArgon2ID -> encodeChallengeRecord r = Ok b ->
  exists s, binaryRecordState (State r) = Ok s /\ 0 <= Difficulty r <= 255 /\ oversized r = false /\ b = v1_bytes s r.
Proof.
  intros Ha. unfold encodeChallengeRecord. rewrite bool_decide_eq_false_2 by done.
  destruct (binaryRecordState (State r)) as [s |]; [| done].
  destruct ((Difficulty r <? 0) || (255 <? Difficulty r)) eqn:E; [done |]. bool_to_prop.
  destruct (oversized r); [done |]. destruct (_ <? payloadSize r); [done |].
  destruct (negb _); [done |]. intros [= <-]. by exists s.
Qed.

Lemma encode_v2_inv r b : algorithm (proofSpec r) = AlgorithmArgon2ID -> encodeChallengeRecord r = Ok b ->
  exists s, binaryRecordState (State r) = Ok s /\ validate (proofSpec r) = None /\ oversized r = false /\ b = v2_bytes s r.
Proof.
  intros Ha. unfold encodeChallengeRecord, encodeChallengeRecordV2. rewrite bool_decide_eq_true_2 by done.
  destruct (binaryRecordState (State r)) as [s |]; [| done]. destruct (validate (proofSpec r)); [done |].
  destruct (oversized r); [done |]. destruct (_ <? payloadSize r); [done |].
  destruct (negb _); [done |]. intros [= <-]. by exists s.
Qed.

Lemma flag_no_js_back r : flags_bad (Zbyte (no_js_flag r)) = false /\ flag_no_js (Zbyte (no_js_flag r)) = NoJS r.
Proof. apply flags_of_bool. Qed.

Lemma decode_v1_bytes s r : record_ok r -> binaryRecordState (State r) = Ok s -> 0 <= Difficulty r <= 255 ->
  oversized r = false ->
  decodeChallengeRecord (v1_bytes s r) = Done (Ok (mk_record (State r) (Host r) (IP r) (ChallengeDigest r) []
    (Difficulty r) 0 0 (zero_bytes 16) (URI r) (NoJS r) (IssuedAt r))).
Proof.
  intros [Hdg Hsa _ _ Hts] Hs Hd Ho. apply not_oversized in Ho as (H1 & H2 & H3).
  unfold v1_bytes at 1. rewrite magic_eq. fold (v1_bytes s r). rewrite v1_bytes_layout.
  rewrite v1_decode_eq by first [done | apply be_bytes_length | unfold len in Hdg; lia].
  rewrite (state_byte _ _ Hs). destruct (flag_no_js_back r) as [-> ->].
  destruct (fields_back (be_bytes 4 (len (Host r))) (be_bytes 4 (len (IP r))) (be_bytes 4 (len (URI r))) _ _ _
    (len32 _ H1) (len32 _ H2) (len32 _ H3)) as (F1 & F2 & F3 & F4).
  fold (stored_rest r) in F1, F2, F3, F4. rewrite F1, F2, F3, F4, Z.eqb_refl. cbn [negb].
  rewrite issued_back, byteZ_Zbyte, Z.mod_small by first [done | lia]. done.
Qed.

Lemma validate_argon s1 s2 : algorithm s1 = AlgorithmArgon2ID -> algorithm s2 = AlgorithmArgon2ID ->
  ps_MemoryKiB s1 = ps_MemoryKiB s2 -> ps_Iterations s1 = ps_Iterations s2 -> validate s1 = validate s2.
Proof. intros H1 H2 H3 H4. unfold validate. by rewrite H1, H2, H3, H4. Qed.

Lemma validate_iterations s : algorithm s = AlgorithmArgon2ID -> validate s = None -> 1 <= ps_Iterations s <= 3.
Proof.
  intros Ha. unfold validate. rewrite Ha, bool_decide_eq_false_2, bool_decide_eq_true_2 by done.
  destruct ((ps_MemoryKiB s <? 8 * 1024) || _); [done |].
  destruct ((ps_Iterations s <? 1) || (3 <? ps_Iterations s)) eqn:E; [done |]. bool_to_prop. done.
Qed.

Lemma decode_v2_bytes s r : record_ok r -> binaryRecordState (State r) = Ok s -> algorithm (proofSpec r) = AlgorithmArgon2ID ->
  validate (proofSpec r) = None -> oversized r = false ->
  decodeChallengeRecord (v2_bytes s r) = Done (Ok (mk_record (State r) (Host r) (IP r) (ChallengeDigest r) AlgorithmArgon2ID 0
    (MemoryKiB r) (Iterations r) (Salt r) (URI r) (NoJS r) (IssuedAt r))).
Proof.
  intros [Hdg Hsa Hme Hit Hts] Hs Ha Hv Ho. apply not_oversized in Ho as (H1 & H2 & H3).
  unfold v2_bytes at 1. rewrite magic_eq. fold (v2_bytes s r). rewrite v2_bytes_layout.
  rewrite v2_decode_eq by first [done | apply be_bytes_length | unfold len in Hdg, Hsa; lia].
  rewrite (state_byte _ _ Hs). destruct (flag_no_js_back r) as [-> ->].
  destruct (fields_back (be_bytes 4 (len (Host r))) (be_bytes 4 (len (IP r))) (be_bytes 4 (len (URI r))) _ _ _
    (len32 _ H1) (len32 _ H2) (len32 _ H3)) as (F1 & F2 & F3 & F4).
  fold (stored_rest r) in F1, F2, F3, F4. rewrite F1, F2, F3, F4, Z.eqb_refl.
  pose proof (validate_iterations _ Ha Hv) as Hi. cbn [proofSpec ps_Iterations] in Hi.
  change (byteZ (Zbyte 1) =? 1) with true. change (byteZ (Zbyte 0) =? 0) with true. cbn [negb orb].
  rewrite issued_back, be_value_bytes, byteZ_Zbyte, !Z.mod_small by first [done | lia].
  cbv zeta. rewrite (validate_argon _ (proofSpec r)), Hv by done. by rewrite Z.eqb_refl.
Qed.

(** ** Decoding never panics, and re-encoding gives the bytes back *)

(** Byte 8 of a version-2 record is reserved and not looked at. *)
Definition clear_reserved (raw : gostring) : gostring :=
  match index raw 4 with
  | Some v => if byteZ v =? 2 then <[8%nat := Zbyte 0]> raw else raw
  | None => raw
  end.

Lemma decodeBinary_cases raw : len raw <= 4 \/
  (exists v, index raw 4 = Some v /\ byteZ v = 2 /\ (len raw < 84 \/ 84 <= len raw)) \/
  (exists v, index raw 4 = Some v /\ byteZ v = 1 /\ (len raw < 60 \/ 60 <= len raw)) \/
  (exists v, index raw 4 = Some v /\ byteZ v <> 1 /\ byteZ v <> 2).
Proof.
  destruct (Z_le_gt_dec (len raw) 4) as [H | H]; [by left | right].
  destruct (lookup_lt_is_Some_2 raw 4) as [v Hv]; [unfold len in H; lia |].
  assert (index raw 4 = Some v) as Hi by (unfold index; simpl; done).
  destruct (Z.eq_dec (byteZ v) 2); [left; exists v; split_ands; try done; lia |]. right.
  destruct (Z.eq_dec (byteZ v) 1); [left; exists v; split_ands; try done; lia |]. right. by exists v.
Qed.

Lemma byte_is c n : 0 <= n < 256 -> byteZ c = n -> c = Zbyte n.
Proof. intros Hn <-. by rewrite Zbyte_byteZ. Qed.

Lemma v1_version m v s f d ts dg hl il ul rest : length m = 4%nat ->
  index (concat (v1_chunks m v s f d ts dg hl il ul rest)) 4 = Some v.
Proof. intros Hm. apply (index_chunk _ 1%nat); [done | layout_len]. Qed.
Lemma v2_version m v s f b7 b8 b9 b10 b11 ts dg salt mem hl il ul rest : length m = 4%nat ->
  index (concat (v2_chunks m v s f b7 b8 b9 b10 b11 ts dg salt mem hl il ul rest)) 4 = Some v.
Proof. intros Hm. apply (index_chunk _ 1%nat); [done | layout_len]. Qed.

(** A decoded string is a layout whose fields are the record's. *)
Lemma decode_inv raw r : decodeBinaryChallengeRecord raw = Done (Ok r) ->
  (exists m s f d ts dg hl il ul rest state,
     raw = concat (v1_chunks m (Zbyte 1) s f d ts dg hl il ul rest) /\ length m = 4%nat /\ length ts = 8%nat /\
     length dg = 32%nat /\ length hl = 4%nat /\ length il = 4%nat /\ length ul = 4%nat /\
     logicalRecordState (byteZ s) = Ok state /\ flags_bad f = false /\
     be_value hl + be_value il + be_value ul = len rest /\
     r = mk_record state (field_host hl rest) (field_ip hl il rest) dg [] (byteZ d) 0 0 (zero_bytes 16)
       (field_uri hl il rest) (flag_no_js f) (wrap64 (be_value ts))) \/
  (exists m s f b8 b9 ts dg salt mem hl il ul rest state,
     raw = concat (v2_chunks m (Zbyte 2) s f (Zbyte 1) b8 b9 (Zbyte 0) (Zbyte 0) ts dg salt mem hl il ul rest) /\
     length m = 4%nat /\ length ts = 8%nat /\ length dg = 32%nat /\ length salt = 16%nat /\ length mem = 4%nat /\
     length hl = 4%nat /\ length il = 4%nat /\ length ul = 4%nat /\
     logicalRecordState (byteZ s) = Ok state /\ flags_bad f = false /\
     be_value hl + be_value il + be_value ul = len rest /\ validate (proofSpec r) = None /\
     r = mk_record state (field_host hl rest) (field_ip hl il rest) dg AlgorithmArgon2ID 0
       (be_value mem) (byteZ b9) salt (field_uri hl il rest) (flag_no_js f) (wrap64 (be_value ts))).
Proof.
  intros Hd. destruct (decodeBinary_cases raw) as [H4 | [(v & Hv & Hn & Hl) | [(v & Hv & Hn & Hl) | (v & Hv & Hn1 & Hn2)]]].
  - unfold decodeBinaryChallengeRecord in Hd. rewrite (proj2 (Z.leb_le _ _)) in Hd by done. done.
  - right. destruct Hl as [Hl | Hl].
    { exfalso. unfold decodeBinaryChallengeRecord, decodeBinaryChallengeRecordV2 in Hd.
      unfold challengeRecordVersionOffset in Hd. rewrite Hv, Hn, (proj2 (Z.ltb_lt _ _)) in Hd by done.
      by destruct (len raw <=? 4). }
    destruct (v2_layout raw Hl) as (m & v' & s & f & b7 & b8 & b9 & b10 & b11 & ts & dg & salt & mem & hl & il & ul & rest & -> & L1 & L2 & L3 & L4 & L5 & L6 & L7 & L8).
    rewrite v2_version in Hv by done. injection Hv as ->. apply byte_is in Hn as ->; [| lia].
    rewrite v2_decode_eq in Hd by done. destruct (logicalRecordState (byteZ s)) as [state |] eqn:Es; [| done].
    destruct (_ || _ || _ || _) eqn:Ef; [done |]. bool_to_prop.
    destruct (be_value hl + be_value il + be_value ul =? len rest) eqn:El; cbn [negb] in Hd; [| done]. bool_to_prop.
    cbv zeta in Hd. destruct (validate _) eqn:Ev; [done |]. injection Hd as <-.
    repeat match goal with H : byteZ _ = _ |- _ => apply byte_is in H; [| lia] end. subst.
    exists m, s, f, b8, b9, ts, dg, salt, mem, hl, il, ul, rest, state. by split_ands.
  - left. destruct Hl as [Hl | Hl].
    { exfalso. unfold decodeBinaryChallengeRecord in Hd. unfold challengeRecordVersionOffset in Hd.
      rewrite Hv, Hn, (proj2 (Z.ltb_lt _ _)) in Hd by done. by destruct (len raw <=? 4). }
    destruct (v1_layout raw Hl) as (m & v' & s & f & d & ts & dg & hl & il & ul & rest & -> & L1 & L2 & L3 & L4 & L5 & L6).
    rewrite v1_version in Hv by done. injection Hv as ->. apply byte_is in Hn as ->; [| lia].
    rewrite v1_decode_eq in Hd by done. destruct (logicalRecordState (byteZ s)) as [state |] eqn:Es; [| done].
    destruct (flags_bad f) eqn:Ef; [done |].
    destruct (be_value hl + be_value il + be_value ul =? len rest) eqn:El; cbn [negb] in Hd; [| done]. bool_to_prop.
    injection Hd as <-. exists m, s, f, d, ts, dg, hl, il, ul, rest, state. by split_ands.
  - exfalso. unfold decodeBinaryChallengeRecord, challengeRecordVersionOffset in Hd.
    destruct (len raw <=? 4); [done |]. rewrite Hv in Hd.
    unfold challengeRecordVersionArgon2, challengeRecordVersion in Hd. by rewrite !(proj2 (Z.eqb_neq _ _)) in Hd by done.
Qed.

Lemma decodeBinary_total raw : exists x, decodeBinaryChallengeRecord raw = Done x.
Proof.
  destruct (decodeBinary_cases raw) as [H4 | [(v & Hv & Hn & Hl) | [(v & Hv & Hn & Hl) | (v & Hv & Hn1 & Hn2)]]].
  - unfold decodeBinaryChallengeRecord. rewrite (proj2 (Z.leb_le _ _)) by done. by eexists.
  - destruct Hl as [Hl | Hl].
    { unfold decodeBinaryChallengeRecord, decodeBinaryChallengeRecordV2, challengeRecordVersionOffset.
      rewrite Hv, Hn, (proj2 (Z.ltb_lt _ _)) by done. destruct (len raw <=? 4); by eexists. }
    destruct (v2_layout raw Hl) as (m & v' & s & f & b7 & b8 & b9 & b10 & b11 & ts & dg & salt & mem & hl & il & ul & rest & -> & L1 & L2 & L3 & L4 & L5 & L6 & L7 & L8).
    rewrite v2_version in Hv by done. injection Hv as ->. apply byte_is in Hn as ->; [| lia].
    rewrite v2_decode_eq by done. destruct (logicalRecordState _); [| by eexists]. destruct (_ || _); [by eexists |].
    destruct (negb _); [by eexists |]. cbv zeta. destruct (validate _); by eexists.
  - destruct Hl as [Hl | Hl].
    { unfold decodeBinaryChallengeRecord, challengeRecordVersionOffset, challengeRecordFixedSize.
      rewrite Hv, Hn, (proj2 (Z.ltb_lt (len raw) 60)) by done. destruct (len raw <=? 4); by eexists. }
    destruct (v1_layout raw Hl) as (m & v' & s & f & d & ts & dg & hl & il & ul & rest & -> & L1 & L2 & L3 & L4 & L5 & L6).
    rewrite v1_version in Hv by done. injection Hv as ->. apply byte_is in Hn as ->; [| lia].
    rewrite v1_decode_eq by done. destruct (logicalRecordState _); [| by eexists]. destruct (flags_bad _); [by eexists |].
    destruct (negb _); by eexists.
  - unfold decodeBinaryChallengeRecord, challengeRecordVersionOffset. destruct (len raw <=? 4); [by eexists |]. rewrite Hv.
    unfold challengeRecordVersionArgon2, challengeRecordVersion. rewrite !(proj2 (Z.eqb_neq _ _)) by done. by eexists.
Qed.

Lemma field_bound hl : length hl = 4%nat -> 0 <= be_value hl < 2 ^ 32.
Proof. intros H. pose proof (be_value_range hl) as Hr. unfold len in Hr. by rewrite H in Hr. Qed.

Lemma len4 hl n : length hl = 4%nat -> n = be_value hl -> be_bytes 4 n = hl.
Proof. intros H ->. rewrite <- H. apply be_bytes_value. Qed.

Lemma ts_back ts : length ts = 8%nat -> be_bytes 8 (wrapu64 (wrap64 (be_value ts))) = ts.
Proof.
  intros H. pose proof (be_value_range ts) as Hr. unfold len in Hr. rewrite H in Hr.
  rewrite issued_forth by (change (256 ^ Z.of_nat 8) with (2 ^ 64) in Hr; lia). rewrite <- H. apply be_bytes_value.
Qed.

Lemma encode_sizes r : len (Host r) < 2 ^ 32 -> len (IP r) < 2 ^ 32 -> len (URI r) < 2 ^ 32 ->
  oversized r = false /\ payloadSize r = len (stored_rest r) /\ payloadSize r < 2 ^ 34.
Proof.
  intros H1 H2 H3. pose proof (len_nonneg (Host r)). pose proof (len_nonneg (IP r)). pose proof (len_nonneg (URI r)).
  unfold oversized, payloadSize, stored_rest, challengeRecordMaxFieldSize, wrapu64. rewrite !len_app, Z.mod_small by lia.
  rewrite !(proj2 (Z.ltb_ge _ _)) by lia. split_ands; [done | lia | lia].
Qed.

Lemma encode_v1 r s : algorithm (proofSpec r) <> AlgorithmArgon2ID -> len (ChallengeDigest r) = 32 ->
  binaryRecordState (State r) = Ok s -> 0 <= Difficulty r <= 255 ->
  len (Host r) < 2 ^ 32 -> len (IP r) < 2 ^ 32 -> len (URI r) < 2 ^ 32 -> encodeChallengeRecord r = Ok (v1_bytes s r).
Proof.
  intros Ha Hdg Hs Hd H1 H2 H3. destruct (encode_sizes r H1 H2 H3) as (Ho & Hp & Hb).
  unfold encodeChallengeRecord. rewrite bool_decide_eq_false_2 by done. rewrite Hs, Ho.
  rewrite !(proj2 (Z.ltb_ge _ _)) by (unfold maxInt, int64_max, challengeRecordFixedSize; lia). cbn [orb].
  assert (len (v1_bytes s r) = 60 + payloadSize r) as ->; [| unfold challengeRecordFixedSize; by rewrite Z.eqb_refl].
  rewrite v1_bytes_layout, total_concat, Hp. cbn [v1_chunks total foldr]. rewrite !be_bytes_len, Hdg. unfold len. simpl length. lia.
Qed.

Lemma encode_v2 r s : algorithm (proofSpec r) = AlgorithmArgon2ID -> len (ChallengeDigest r) = 32 -> len (Salt r) = 16 ->
  binaryRecordState (State r) = Ok s -> validate (proofSpec r) = None ->
  len (Host r) < 2 ^ 32 -> len (IP r) < 2 ^ 32 -> len (URI r) < 2 ^ 32 -> encodeChallengeRecord r = Ok (v2_bytes s r).
Proof.
  intros Ha Hdg Hsa Hs Hv H1 H2 H3. destruct (encode_sizes r H1 H2 H3) as (Ho & Hp & Hb).
  unfold encodeChallengeRecord, encodeChallengeRecordV2. rewrite bool_decide_eq_true_2 by done. rewrite Hs, Ho, Hv.
  rewrite !(proj2 (Z.ltb_ge _ _)) by (unfold maxInt, int64_max, challengeRecordV2FixedSize; lia).
  assert (len (v2_bytes s r) = 84 + payloadSize r) as ->; [| unfold challengeRecordV2FixedSize; by rewrite Z.eqb_refl].
  rewrite v2_bytes_layout, total_concat, Hp. cbn [v2_chunks total foldr]. rewrite !be_bytes_len, Hdg, Hsa. unfold len. simpl length. lia.
Qed.

(** The size a record declares in its header. *)
Definition declared_len (raw : gostring) : option Z :=
  v ← index raw 4;
  let base := if byteZ v =? 2 then 84 else 60 in
  h ← slice raw (base - 12) (base - 8); i ← slice raw (base - 8) (base - 4); u ← slice raw (base - 4) base;
  Some (base + be_value h + be_value i + be_value u).

Lemma decode_declared raw r : decodeBinaryChallengeRecord raw = Done (Ok r) -> declared_len raw = Some (len raw) /\ 60 <= len raw.
Proof.
  intros Hb. unfold declared_len.
  destruct (decode_inv raw r Hb) as
    [(m & s & f & d & ts & dg & hl & il & ul & rest & state & -> & L1 & L2 & L3 & L4 & L5 & L6 & Hs & Hf & Hsum & ->) |
     (m & s & f & b8 & b9 & ts & dg & salt & mem & hl & il & ul & rest & state & -> & L1 & L2 & L3 & L4 & L5 & L6 & L7 & L8 & Hs & Hf & Hsum & Hv & Hr)].
  - rewrite v1_version by done. cbn [mbind option_bind]. change (byteZ (Zbyte 1) =? 2) with false. cbv zeta iota.
    rewrite (slice_chunk _ 7%nat hl (60 - 12)), (slice_chunk _ 8%nat il (60 - 8)), (slice_chunk _ 9%nat ul (60 - 4)) by (done || layout_len).
    cbn [mbind option_bind]. rewrite total_concat. unfold len in Hsum. split; [f_equal |]; layout_len.
  - rewrite v2_version by done. cbn [mbind option_bind]. change (byteZ (Zbyte 2) =? 2) with true. cbv zeta iota.
    rewrite (slice_chunk _ 13%nat hl (84 - 12)), (slice_chunk _ 14%nat il (84 - 8)), (slice_chunk _ 15%nat ul (84 - 4)) by (done || layout_len).
    cbn [mbind option_bind]. rewrite total_concat. unfold len in Hsum. split; [f_equal |]; layout_len.
Qed.

Lemma slice_take s n lo hi r : slice (take n s) lo hi = Some r -> slice s lo hi = Some r.
Proof.
  intros H. apply slice_Some in H as ([H1 H2] & H3 & ->). unfold len in H3. rewrite length_take in H3.
  unfold slice. rewrite !(proj2 (Z.leb_le _ _)) by lia. simpl. f_equal.
  rewrite skipn_firstn_comm, take_take. f_equal. lia.
Qed.

Lemma declared_take raw n d : declared_len (take n raw) = Some d -> declared_len raw = Some d.
Proof.
  unfold declared_len. intros H. apply bind_Some in H as (v & Hv & H).
  assert (index raw 4 = Some v) as ->.
  { unfold index in *. simpl in *. rewrite lookup_take in Hv. by case_decide. }
  cbn [mbind option_bind].
  apply bind_Some in H as (h & Hh & H). apply bind_Some in H as (i & Hi & H). apply bind_Some in H as (u & Hu & H).
  apply slice_take in Hh, Hi, Hu. by rewrite Hh, Hi, Hu.
Qed.

Lemma decode_total raw : exists x, decodeChallengeRecord raw = Done x.
Proof.
  unfold decodeChallengeRecord. destruct (len raw <? _) eqn:E; [by eexists |]. bool_to_prop.
  destruct (slice_in raw 0 (len challengeRecordMagic)) as (m & -> & _); [lia | apply len_nonneg | done |].
  destruct (negb _); [by eexists | apply decodeBinary_total].
Qed.

Lemma decode_of_encode r b : record_ok r -> encodeChallengeRecord r = Ok b ->
  decodeChallengeRecord b = Done (Ok (canonical r)).
Proof.
  intros Hr He. unfold canonical. case_bool_decide as Ha.
  - destruct (encode_v2_inv r b Ha He) as (s & Hs & Hv & Ho & ->). by apply decode_v2_bytes.
  - destruct (encode_v1_inv r b Ha He) as (s & Hs & Hd & Ho & ->). by apply decode_v1_bytes.
Qed.

Lemma decode_ok raw r : decodeChallengeRecord raw = Done (Ok r) ->
  record_ok r /\ encodeChallengeRecord r = Ok (clear_reserved raw).
Proof.
  intros Hd. destruct (magic_inv raw r Hd) as (tail & Hraw & Hb).
  destruct (decode_inv raw r Hb) as
    [(m & s & f & d & ts & dg & hl & il & ul & rest & state & He & L1 & L2 & L3 & L4 & L5 & L6 & Hs & Hf & Hsum & ->) |
     (m & s & f & b8 & b9 & ts & dg & salt & mem & hl & il & ul & rest & state & He & L1 & L2 & L3 & L4 & L5 & L6 & L7 & L8 & Hs & Hf & Hsum & Hv & Hr)].
  - assert (m = challengeRecordMagic) as ->.
    { rewrite Hraw in He. cbn [v1_chunks concat] in He. by apply app_inj_1 in He as [<- _]. }
    pose proof (field_bound hl L4) as B1. pose proof (field_bound il L5) as B2. pose proof (field_bound ul L6) as B3.
    destruct (fields_join hl il ul rest Hsum) as (J1 & J2 & J3 & J4). pose proof (byteZ_range d). split.
    + constructor; simpl; [unfold len; by rewrite L3 | done | lia | lia | apply wrap64_ok].
    + unfold clear_reserved. rewrite He, v1_version by done. change (byteZ (Zbyte 1) =? 2) with false. cbn iota.
      rewrite (encode_v1 _ (byteZ s)); try done; cbn [State Host IP URI ChallengeDigest Difficulty];
        [| unfold len; by rewrite L3 | by apply state_name | lia | lia | lia | lia].
      f_equal. rewrite v1_bytes_layout. unfold stored_rest, no_js_flag.
      cbn [State Host IP URI ChallengeDigest Difficulty NoJS IssuedAt]. rewrite J1.
      unfold challengeRecordFlagNoJS. rewrite <- (flags_good f Hf), !Zbyte_byteZ, ts_back by done.
      by rewrite (len4 hl), (len4 il), (len4 ul).
  - subst r. assert (m = challengeRecordMagic) as ->.
    { rewrite Hraw in He. cbn [v2_chunks concat] in He. by apply app_inj_1 in He as [<- _]. }
    pose proof (field_bound hl L6) as B1. pose proof (field_bound il L7) as B2. pose proof (field_bound ul L8) as B3.
    destruct (fields_join hl il ul rest Hsum) as (J1 & J2 & J3 & J4). pose proof (byteZ_range b9). split.
    + constructor; simpl; [unfold len; by rewrite L3 | unfold len; by rewrite L4 | by apply field_bound | lia | apply wrap64_ok].
    + unfold clear_reserved. rewrite He, v2_version by done. change (byteZ (Zbyte 2) =? 2) with true. cbn iota.
      rewrite (encode_v2 _ (byteZ s)); try done; cbn [State Host IP URI ChallengeDigest Salt];
        [| unfold len; by rewrite L3 | unfold len; by rewrite L4 | by apply state_name | lia | lia | lia].
      f_equal. rewrite v2_bytes_layout. unfold stored_rest, no_js_flag. cbn [State Host IP URI ChallengeDigest Salt NoJS IssuedAt Iterations MemoryKiB]. rewrite J1.
      unfold challengeRecordFlagNoJS. rewrite <- (flags_good f Hf), !Zbyte_byteZ, ts_back by done.
      by rewrite (len4 mem), (len4 hl), (len4 il), (len4 ul).
Qed.

(** * Properties *)

(** C39: Encoding a record and decoding the bytes gives the record back, up to
    the fields its version does not store. *)
Theorem record_round_trip r b : record_ok r -> encodeChallengeRecord r = Ok b ->
  decodeChallengeRecord b = Done (Ok (canonical r)).
Proof. apply decode_of_encode. Qed.

Definition ex_record : record :=
  mk_record recordStateIssued (lit "example.org") (lit "2001:db8::1") (Sum256 (lit "x")) AlgorithmArgon2ID 0 16384 2
    (take 16 (Sum256 (lit "y"))) (lit "/a?b=1") true 1700000000123.
Definition ex_bytes : gostring := match encodeChallengeRecord ex_record with Ok b => b | Err _ => [] end.

Theorem record_round_trip_witness : decodeChallengeRecord ex_bytes = Done (Ok ex_record).
Proof.
  refine (record_round_trip ex_record ex_bytes _ _); [| vm_compute; reflexivity].
  constructor; vm_compute; done.
Defined.

(** Decoding never indexes out of range on any bytes, and whatever it
    accepts is a well-formed record whose encoding is the input again, with
    the reserved byte 8 of version 2 cleared. *)
Theorem decode_reencodes raw :
  exists x, decodeChallengeRecord raw = Done x /\
  forall r, x = Ok r -> record_ok r /\ encodeChallengeRecord r = Ok (clear_reserved raw).
Proof. destruct (decode_total raw) as [x Hx]. exists x. split; [exact Hx |]. intros r ->. by apply decode_ok. Qed.

Theorem decode_reencodes_witness :
  decodeChallengeRecord (<[8%nat := Zbyte 7]> ex_bytes) = Done (Ok ex_record) /\
  encodeChallengeRecord ex_record = Ok (clear_reserved (<[8%nat := Zbyte 7]> ex_bytes)).
Proof.
  assert (H : decodeChallengeRecord (<[8%nat := Zbyte 7]> ex_bytes) = Done (Ok ex_record)) by (vm_compute; reflexivity).
  split; [exact H |]. destruct (decode_reencodes (<[8%nat := Zbyte 7]> ex_bytes)) as (x & Hx & Hr).
  rewrite H in Hx. injection Hx as Hx. exact (proj2 (Hr ex_record (eq_sym Hx))).
Defined.

(** Every proper prefix of an encoded record is rejected by the decoder.
    *)
Theorem truncated_record_rejected r b n : record_ok r -> encodeChallengeRecord r = Ok b -> (n < length b)%nat ->
  exists e, decodeChallengeRecord (take n b) = Done (Err e).
Proof.
  intros Hr He Hn. destruct (decode_total (take n b)) as [[r' | e] Hx]; [| by exists e]. exfalso.
  destruct (magic_inv _ _ Hx) as (_ & _ & Hb'). apply decode_declared in Hb' as [Hd' _]. apply declared_take in Hd'.
  pose proof (decode_of_encode r b Hr He) as Hb.
  destruct (magic_inv _ _ Hb) as (_ & _ & Hb2). apply decode_declared in Hb2 as [Hd2 _].
  rewrite Hd2 in Hd'. injection Hd' as Hl. unfold len in Hl. rewrite length_take in Hl. lia.
Qed.

Theorem truncated_record_rejected_witness :
  (100 < length ex_bytes)%nat /\ exists e, decodeChallengeRecord (take 100 ex_bytes) = Done (Err e).
Proof.
  assert (Hn : (100 < length ex_bytes)%nat) by (apply Nat.ltb_lt; vm_compute; reflexivity).
  split; [exact Hn |].
  refine (truncated_record_rejected ex_record ex_bytes 100 _ _ Hn); [| vm_compute; reflexivity].
  constructor; vm_compute; done.
Defined.
