(* ===== verification/Pow.v ===== *)
(** * Stateful proof-of-work challenges (core/pow/challenge.go, jwt.go)

    Issuing and redeeming a challenge through the shared store, as programs of
    store calls.  The signing of a token (a JWT signed with the current key
    file) is a parameter. *)

From S2P Require Export ChallengeRecord Escalation Race.

(** ** Manager *)
Record managerKey := mk_key {
  mk_seed : gostring;              (* of the Ed25519 private key *)
  mk_retiredAt : option Z          (* [None] for the current key *)
}.

Record Manager := mk_manager {
  mg_keys : list managerKey;       (* the head signs *)
  mg_hmacSecret : gostring;
  mg_hmacSecrets : list gostring;
  mg_NoJSMinDelay : Z
}.

Definition deriveHMACSecrets (keys : list managerKey) : list gostring :=
  map (fun k => Sum256 (lit "guardian-hmac-v1" ++ Zbyte 0 :: mk_seed k)) keys.

Definition newManagerWithRetiredKeys (current : gostring) (previous : list managerKey) : Manager :=
  let keys := mk_key current None :: previous in
  let secrets := deriveHMACSecrets keys in
  mk_manager keys (hd [] secrets) secrets (5 * second).

(** [setRetiredKeys]: the keys and their secrets change together. *)
Definition setRetiredKeys (current : gostring) (previous : list managerKey) (m : Manager) : Manager :=
  let keys := mk_key current None :: previous in
  let secrets := deriveHMACSecrets keys in
  mk_manager keys (hd [] secrets) secrets (mg_NoJSMinDelay m).

Definition keySetMatches (current : gostring) (previous : list managerKey) (m : Manager) : bool :=
  bool_decide (map (fun k => (mk_seed k, mk_retiredAt k)) (tl (mg_keys m)) =
               map (fun k => (mk_seed k, mk_retiredAt k)) previous) &&
  match mg_keys m with k :: _ => bool_decide (mk_seed k = current) | [] => false end.

(** ** Errors and results *)
Inductive pow_error :=
| ErrChallengeUnknown
| ErrBadSolution
| ErrHostMismatch
| ErrClientAddressMismatch
| ErrTooFast
| ErrNoJSDisabled
| ErrCallback (code : Z)          (* what AcquireNoJS or AcquireArgon returned *)
| ErrCollision                    (* challenge id collision *)
| ErrSigning
| ErrMarshal
| ErrRefresh                      (* the key files could not be read *)
| ErrSpec (e : spec_error)
| ErrRecord (e : record_error)
| ErrStore (e : store_error).

Record Challenge := mk_challenge {
  ch_ID : gostring;
  ch_Challenge : gostring;
  ch_Algorithm : gostring;
  ch_Difficulty : Z;
  ch_MemoryKiB : Z;
  ch_Iterations : Z;
  ch_Salt : gostring
}.

(** A nil callback is [None]; [rq_AcquireArgon] is what the callback answers. *)
Record RedeemRequest := mk_request {
  rq_ChallengeID : gostring;
  rq_Nonce : gostring;
  rq_Proof : gostring;
  rq_NoJS : bool;
  rq_Host : gostring;
  rq_IP : gostring;
  rq_UserAgent : gostring;
  rq_TokenTTL : Z;
  rq_ChallengeTTL : Z;
  rq_TTLs : option (gostring -> Z * Z);
  rq_AcquireNoJS : option (gostring -> option Z);
  rq_AcquireArgon : option (option Z);
  rq_ReleaseArgon : bool
}.

Inductive RedeemOutcome := RedeemSolved | RedeemNetworkHandover.

#[global] Instance RedeemOutcome_eq_dec : EqDecision RedeemOutcome.
Proof. solve_decision. Defined.

Record RedeemResult := mk_result {
  rr_Outcome : RedeemOutcome;
  rr_Token : gostring;
  rr_TokenTTL : Z;
  rr_RedirectURI : gostring;
  rr_IssuedIP : gostring;
  rr_SoftError : bool;
  rr_Difficulty : Z;
  rr_Algorithm : gostring;
  rr_MemoryKiB : Z;
  rr_Iterations : Z;
  rr_IssuedAt : Z                  (* unix milliseconds *)
}.

Record TokenClaims := mk_claims {
  tc_Host : gostring;
  tc_ChallengeID : gostring;
  tc_Difficulty : Z;
  tc_Algorithm : gostring;
  tc_MemoryKiB : Z;
  tc_Iterations : Z;
  tc_Subject : gostring;
  tc_IssuedAt : Z;
  tc_NotBefore : Z;
  tc_ExpiresAt : Z
}.

(** [signToken]: [None] when the key files cannot be locked or read. *)
Class Signer := { signToken : TokenClaims -> option gostring }.

(** ** Helpers *)

(** [uuid.Parse(s)] succeeds with [String() = s]: the canonical form. *)
Definition uuid_char (i : nat) (c : ascii) : bool :=
  if bool_decide (i ∈ [8; 13; 18; 23]%nat) then Ascii.eqb c "-"%char
  else let v := byteZ c in ((48 <=? v) && (v <=? 57)) || ((97 <=? v) && (v <=? 102)).
Definition canonical_uuid (s : gostring) : bool :=
  (length s =? 36)%nat && forallb (fun ic => uuid_char ic.1 ic.2) (combine (seq 0 36) s).

Definition challengeKeyPrefix : gostring := lit "challenge:".
Definition challengeKey (id : gostring) : gostring := challengeKeyPrefix ++ id.

(** [time.Time.Sub] saturates. *)
Definition dur_sub (a b : Z) : Z := Z.max int64_min (Z.min int64_max (a - b)).
(** [Unix], [UnixMilli] of an instant in nanoseconds, and [time.UnixMilli]. *)
Definition Unix (now : Z) : Z := now / second.
Definition UnixMilli (now : Z) : Z := wrap64 (now / millisecond).
Definition of_milli (ms : Z) : Z := ms * millisecond.

Definition leadingZeros8 (b : Z) : Z := 8 - (if b =? 0 then 0 else Z.log2 b + 1).

Fixpoint leadingZeroBits (sum : gostring) : Z :=
  match sum with
  | [] => 0
  | c :: rest => if byteZ c =? 0 then 8 + leadingZeroBits rest else leadingZeros8 (byteZ c)
  end.

Definition Fingerprint (ip userAgent : gostring) : gostring :=
  hex_encode (take 16 (Sum256 (ip ++ Zbyte 0 :: userAgent))).

Definition challengeFromSpec (id challenge : gostring) (spec : ProofSpec) : Challenge :=
  if bool_decide (algorithm spec = AlgorithmArgon2ID)
  then mk_challenge id challenge (algorithm spec) 0 (ps_MemoryKiB spec) (ps_Iterations spec) (hex_encode (ps_Salt spec))
  else mk_challenge id challenge (algorithm spec) (ps_Difficulty spec) 0 0 [].

Notation "'call!' x ':=' op 'in' k" :=
  (Call op (fun r => match r with Ok x => k | Err e => Ret (Err (ErrStore e)) end))
  (at level 10, x pattern, op at level 100, k at level 200) : go_scope.

Section Pow.
Context `{Unicode, Argon2, Signer}.

(** ** Issuing *)

(** The HMAC message binding a challenge to its host, client, hour and id. *)
Definition challenge_message (host ip : gostring) (bucket : Z) (id : gostring) : gostring :=
  host ++ Zbyte 0 :: ip ++ Zbyte 0 :: FormatInt bucket ++ Zbyte 0 :: id.

Definition with_salt (salt : gostring) (s : ProofSpec) : ProofSpec :=
  if bool_decide (algorithm s = AlgorithmArgon2ID)
  then mk_spec (ps_Algorithm s) (ps_Difficulty s) (ps_MemoryKiB s) (ps_Iterations s) salt else s.

(** [id] is the fresh UUID, [salt] the random salt, [issuedAt] the clock. *)
Definition IssueWithSpec (m : Manager) (id salt : gostring) (issuedAt : Z) (host ip uri : gostring) (spec : ProofSpec)
  (ttl : Z) (allowNoJS : bool) : prog (outcome pow_error Challenge) :=
  match validate spec with
  | Some e => Ret (Err (ErrSpec e))
  | None =>
    let normalizedHost := ToLower host in
    let digest := HMAC (mg_hmacSecret m) (challenge_message normalizedHost ip (Z.quot (Unix issuedAt) 3600) id) in
    let spec := with_salt salt spec in
    match encodeChallengeRecord (mk_record recordStateIssued normalizedHost ip digest (algorithm spec) (ps_Difficulty spec)
            (ps_MemoryKiB spec) (ps_Iterations spec) (ps_Salt spec) uri allowNoJS (UnixMilli issuedAt)) with
    | Err e => Ret (Err (ErrRecord e))
    | Ok rec =>
      call! created := OCas (challengeKey id) None rec ttl in
      if negb created then Ret (Err ErrCollision)
      else Ret (Ok (challengeFromSpec id (hex_encode digest) spec))
    end
  end.

Definition Issue (m : Manager) (id : gostring) (issuedAt : Z) (host ip uri : gostring) (difficulty ttl : Z) (allowNoJS : bool)
  : prog (outcome pow_error Challenge) :=
  IssueWithSpec m id [] issuedAt host ip uri (mk_spec AlgorithmSHA256 difficulty 0 0 (zero_bytes 16)) ttl allowNoJS.

(** ** Tokens *)
Definition mintTokenWithSpec (now : Z) (host fingerprint challengeID : gostring) (spec : ProofSpec) (ttl : Z)
  : outcome pow_error gostring :=
  match signToken (mk_claims (ToLower host) challengeID (ps_Difficulty spec) (algorithm spec) (ps_MemoryKiB spec)
                     (ps_Iterations spec) fingerprint now now (now + ttl)) with
  | Some token => Ok token
  | None => Err ErrSigning
  end.

(** ** Redeeming *)
Definition forget_escalation {A} (host ip : gostring) (p : prog A) : prog A :=
  Tell (ForgetCounter (escalationKey escalationPrefix host ip))
    (Tell (ForgetCounter (escalationKey frameEscalationPrefix host ip)) p).

(** [defer req.ReleaseArgon()]. *)
Definition with_release {A} (req : RedeemRequest) (p : prog A) : prog A :=
  if rq_ReleaseArgon req then bind p (fun r => Tell ReleaseArgonSlot (Ret r)) else p.

Definition ask_argon {A} (req : RedeemRequest) (p : prog (outcome pow_error A)) : prog (outcome pow_error A) :=
  match rq_AcquireArgon req with
  | None => with_release req p
  | Some answer =>
    Tell AskArgon (match answer with Some e => Ret (Err (ErrCallback e)) | None => with_release req p end)
  end.

Definition ask_nojs {A} (req : RedeemRequest) (uri : gostring) (p : prog (outcome pow_error A)) : prog (outcome pow_error A) :=
  match rq_AcquireNoJS req with
  | None => p
  | Some f => Tell (AskNoJS uri) (match f uri with Some e => Ret (Err (ErrCallback e)) | None => p end)
  end.

Definition resolved_ttls (req : RedeemRequest) (uri : gostring) : Z * Z :=
  match rq_TTLs req with Some f => f uri | None => (rq_TokenTTL req, rq_ChallengeTTL req) end.

Definition with_state (s : gostring) (r : record) : record :=
  mk_record s (Host r) (IP r) (ChallengeDigest r) (Algorithm r) (Difficulty r) (MemoryKiB r) (Iterations r) (Salt r)
    (URI r) (NoJS r) (IssuedAt r).

(** The proof of a JavaScript redemption, by the record's own algorithm. *)
Definition sha_solved (rec : record) (nonce : gostring) : bool :=
  Difficulty rec <=? leadingZeroBits (Sum256 (appendChallengeText rec [] ++ nonce)).
Definition argon_solved (rec : record) (proof : gostring) : bool :=
  verifyArgon2ID (hex_encode (ChallengeDigest rec)) (proofSpec rec) proof.

(** From the spent transition on. *)
Definition spend (now : Z) (req : RedeemRequest) (raw : gostring) (rec : record) (tokenTTL challengeTTL : Z)
  : prog (outcome pow_error RedeemResult) :=
  match encodeChallengeRecord (with_state recordStateSpent rec) with
  | Err e => Ret (Err (ErrRecord e))
  | Ok spent =>
    call! swapped := OCas (challengeKey (rq_ChallengeID req)) (Some raw) spent challengeTTL in
    if negb swapped then Ret (Err ErrChallengeUnknown) else
    forget_escalation (Host rec) (IP rec)
      (if negb (bool_decide (IP rec = rq_IP req)) then
         Ret (Ok (mk_result RedeemNetworkHandover [] 0 (URI rec) (IP rec) false (Difficulty rec) (Algorithm rec)
           (MemoryKiB rec) (Iterations rec) (IssuedAt rec)))
       else
         match mintTokenWithSpec now (Host rec) (Fingerprint (rq_IP req) (rq_UserAgent req)) (rq_ChallengeID req)
                 (proofSpec rec) tokenTTL with
         | Err e => Ret (Err e)
         | Ok token =>
           Ret (Ok (mk_result RedeemSolved token tokenTTL (URI rec) [] false (Difficulty rec) (Algorithm rec)
             (MemoryKiB rec) (Iterations rec) (IssuedAt rec)))
         end)
  end.

(** The checks between the fetch and the spent transition. *)
Definition check_and_spend (m : Manager) (clk : clock) (req : RedeemRequest) (raw : gostring) (rec : record)
  : prog (outcome pow_error RedeemResult) :=
  if negb (bool_decide (State rec = recordStateIssued)) then Ret (Err ErrChallengeUnknown)
  else if negb (EqualFold (Host rec) (rq_Host req)) then Ret (Err ErrHostMismatch)
  else if negb (bool_decide (IP rec = rq_IP req)) && rq_NoJS req then Ret (Err ErrClientAddressMismatch)
  else
    let '(tokenTTL, challengeTTL) := resolved_ttls req (URI rec) in
    let finish := spend (clk 1%nat) req raw rec tokenTTL challengeTTL in
    if rq_NoJS req then
      if negb (NoJS rec) then Ret (Err ErrNoJSDisabled)
      else ask_nojs req (URI rec)
        (if dur_sub (clk 0%nat) (of_milli (IssuedAt rec)) <? mg_NoJSMinDelay m then Ret (Err ErrTooFast) else finish)
    else if bool_decide (Algorithm rec = AlgorithmArgon2ID) then
      ask_argon req (if negb (argon_solved rec (rq_Proof req)) then Ret (Err ErrBadSolution) else finish)
    else if negb (sha_solved rec (rq_Nonce req)) then Ret (Err ErrBadSolution) else finish.

(** [Redeem] of an ID that is not stateless. *)
Definition redeem_stateful (m : Manager) (clk : clock) (req : RedeemRequest) : prog (outcome pow_error RedeemResult) :=
  if negb (canonical_uuid (rq_ChallengeID req)) then Ret (Err ErrChallengeUnknown) else
  call! stored := OGet (challengeKey (rq_ChallengeID req)) in
  match stored with
  | None => Ret (Err ErrChallengeUnknown)
  | Some raw =>
    match decodeChallengeRecord raw with
    | Done (Ok rec) => check_and_spend m clk req raw rec
    | _ => Ret (Err ErrChallengeUnknown)      (* [decode_reencodes]: never a panic *)
    end
  end.

(** ** Stored records by state *)

(** A stored value that decodes to a record in state [s]. *)
Definition holds (s raw : gostring) : Prop := exists r, decodeChallengeRecord raw = Done (Ok r) /\ State r = s.

Lemma holds_inj s1 s2 raw : holds s1 raw -> holds s2 raw -> s1 = s2.
Proof. intros (r1 & H1' & <-) (r2 & H2' & <-). rewrite H1' in H2'. by injection H2' as <-. Qed.

Lemma issued_not_spent raw : holds recordStateIssued raw -> ~ holds recordStateSpent raw.
Proof. intros Hi Hs. pose proof (holds_inj _ _ _ Hi Hs) as Hx. vm_compute in Hx. discriminate. Qed.

Lemma with_state_ok s r : record_ok r -> record_ok (with_state s r).
Proof. intros []. by constructor. Qed.

Lemma canonical_state r : State (canonical r) = State r.
Proof. unfold canonical. by case_bool_decide. Qed.

Lemma encoded_holds s r b : record_ok r -> encodeChallengeRecord (with_state s r) = Ok b -> holds s b.
Proof.
  intros Hr He. exists (canonical (with_state s r)). split; [| by rewrite canonical_state].
  apply decode_of_encode; [by apply with_state_ok | done].
Qed.

(** ** The race for one challenge

    [K] is the challenge's key; nothing in the program touches it but the spent
    transition and the create-only issue. *)
Section SpentRace.
Variable K : gostring.

(** A redemption's compare-and-swap, whose spent marker lives at least [T]. *)
Definition spends (T : Z) {R} (op : store_op R) : Prop :=
  match op with
  | OCas k (Some raw) new ttl =>
    k = K /\ holds recordStateIssued raw /\ holds recordStateSpent new /\ (ttl <= 0 \/ T <= ttl)
  | _ => False
  end.
Definition creates {R} (op : store_op R) : Prop := match op with OCas k None _ _ => k = K | _ => False end.
Definition race_rely (T : Z) (o : any_op) : Prop := K ∉ writes (projT2 o) \/ spends T (projT2 o) \/ creates (projT2 o).

(** [K] is spent and stays so until [D]. *)
Definition spent_until (D : Z) (m : amap) : Prop :=
  exists e, m !! K = Some e /\ holds recordStateSpent (e_value e) /\
    match e_expires e with None => True | Some d => D <= d end.

Lemma spent_live D m t : spent_until D m -> t <= D -> exists e, live t m K = Some e /\ holds recordStateSpent (e_value e).
Proof.
  intros (e & He & Hs & Hd) Ht. exists e. split; [| done]. unfold live. rewrite He.
  unfold expired. destruct (e_expires e) as [d |]; [| done]. by rewrite (proj2 (Z.ltb_ge _ _)) by lia.
Qed.

Lemma spends_writes T {R} (op : store_op R) : spends T op -> K ∈ writes op.
Proof. destruct op; try done. destruct old; [| done]. intros (-> & _). by left. Qed.

Lemma spent_elsewhere D m m' : m' !! K = m !! K -> spent_until D m -> spent_until D m'.
Proof. intros Hk (e & He & Hrest). exists e. by rewrite Hk. Qed.

(** Nobody wins a spent challenge, and it stays spent. *)
Lemma spend_lost T D lo hi {R} (op : store_op R) m r m' : hi <= D -> spends T op -> contract_step lo hi op m r m' ->
  spent_until D m -> spent_until D m' /\ swapped op r = false.
Proof.
  intros Hhi Hsp Hc Hs. destruct op as [| | | | k old new ttl | | | |]; try done. destruct old as [raw |]; [| done].
  destruct Hsp as (-> & Hiss & _ & _). destruct (lost_cas Hc) as [-> Hsw]; [| done].
  intros t Ht. destruct (spent_live D m t Hs) as (e & -> & Hv); [lia |].
  apply bool_decide_eq_false_2. intros Heq. subst raw. by apply (issued_not_spent _ Hiss).
Qed.

Lemma spend_won T lo hi {R} (op : store_op R) m r m' : spends T op -> contract_step lo hi op m r m' ->
  swapped op r = true -> spent_until (lo + T) m'.
Proof.
  intros Hsp Hc Hsw. destruct op as [| | | | k old new ttl | | | |]; try done. destruct old as [raw |]; [| done].
  destruct Hsp as (-> & _ & Hnew & Httl). destruct r as [[|] | e]; try done.
  destruct (won_cas Hc eq_refl) as (t & Ht & -> & _).
  exists (mk_entry new (expiry ttl (t 1%nat))). rewrite lookup_insert_eq. split_ands; try done. simpl.
  unfold expiry. pose proof (ticks_bound _ _ _ 1%nat Ht). destruct (ttl <=? 0) eqn:E; bool_to_prop; [done |]. lia.
Qed.

Lemma rely_keeps T D lo hi {R} (op : store_op R) m r m' : hi <= D -> race_rely T (some_op op) ->
  contract_step lo hi op m r m' -> spent_until D m -> spent_until D m'.
Proof.
  intros Hhi [Hk | [Hsp | Hcr]] Hc Hs; simpl in *.
  - eapply spent_elsewhere; [| done]. by eapply contract_step_frame.
  - by eapply spend_lost.
  - destruct op as [| | | | k old new ttl | | | |]; try done. destruct old as [raw |]; [done |].
    unfold creates in Hcr; cbn in Hcr; subst k. destruct (lost_cas Hc) as [-> _]; [| done].
    intros t Ht. by destruct (spent_live D m t Hs) as (e & -> & Hv); [lia |].
Qed.

Lemma idle_issues T {A} (p : prog A) : idle K p -> issues (race_rely T) p.
Proof. induction p as [x | R op k IH | e k IH]; simpl; [done | intros [Hk Hr]; split; [by left | auto] | auto]. Qed.

Lemma racing_issues T {A} (fine : A -> Prop) i (p : prog A) : racing K (fun _ => @spends T) fine i p -> issues (race_rely T) p.
Proof.
  induction p as [x | R op k IH | e k IH]; simpl; [done | | auto]. intros [[Hk Hr] | [Hs Hr]].
  - split; [by left | auto].
  - split; [right; by left |]. intros r. specialize (Hr r). destruct (swapped op r); [by apply idle_issues | auto].
Qed.
End SpentRace.

(** ** Redemptions race *)
Lemma with_release_racing K claims {A} (fine : outcome pow_error A -> Prop) i req (p : prog (outcome pow_error A)) :
  racing K claims fine i p -> racing K claims fine i (with_release req p).
Proof.
  intros Hp. unfold with_release. destruct (rq_ReleaseArgon req); [| done].
  by apply racing_bind.
Qed.

(** Only errors come without the spent transition. *)
Definition is_err {A} (r : outcome pow_error A) : Prop := is_ok r = false.
Abbreviation stateful_racing id T := (racing (challengeKey id) (fun _ => @spends (challengeKey id) T) is_err).

Lemma challengeKey_inj a b : challengeKey a = challengeKey b -> a = b.
Proof. unfold challengeKey. apply app_inv_head. Qed.

Lemma spend_racing T i now req raw rec tokenTTL challengeTTL : decodeChallengeRecord raw = Done (Ok rec) ->
  State rec = recordStateIssued -> challengeTTL <= 0 \/ T <= challengeTTL ->
  stateful_racing (rq_ChallengeID req) T i (spend now req raw rec tokenTTL challengeTTL).
Proof.
  intros Hd Hs Ht. unfold spend. destruct (encodeChallengeRecord _) as [spent |] eqn:Ee; [| done]. simpl. right. split.
  - split_ands; [done | by exists rec | | done]. destruct (decode_ok _ _ Hd) as [Hok _]. by eapply encoded_holds.
  - intros [[|] | e]; simpl; try done. case_bool_decide; simpl; [| done]. unfold mintTokenWithSpec. by case_match.
Qed.

Lemma redeem_racing T i m clk req :
  (forall uri, let ttl := (resolved_ttls req uri).2 in ttl <= 0 \/ T <= ttl) ->
  stateful_racing (rq_ChallengeID req) T i (redeem_stateful m clk req).
Proof.
  intros Ht. unfold redeem_stateful. destruct (canonical_uuid _); [| done]. simpl. left. split; [set_solver |].
  intros [[raw |] | e]; simpl; try done. destruct (decodeChallengeRecord raw) as [| [rec |]] eqn:Ed; try done.
  unfold check_and_spend. case_bool_decide as Hs; simpl; [| done]. destruct (EqualFold _ _); simpl; [| done].
  destruct (_ && _); [done |]. specialize (Ht (URI rec)). destruct (resolved_ttls req (URI rec)) as [tt ct]. simpl in Ht.
  pose proof (spend_racing T i (clk 1%nat) req raw rec tt ct Ed Hs Ht) as Hsp.
  destruct (rq_NoJS req); [| case_bool_decide].
  - destruct (NoJS rec); simpl; [| done]. unfold ask_nojs. destruct (rq_AcquireNoJS req) as [f |].
    + simpl. destruct (f _); [done |]. by destruct (_ <? _).
    + by destruct (_ <? _).
  - unfold ask_argon. destruct (rq_AcquireArgon req) as [[e |] |]; [done | simpl |]; apply with_release_racing;
      by destruct (argon_solved _ _).
  - by destruct (sha_solved _ _).
Qed.

Lemma redeem_idle K m clk req : K <> challengeKey (rq_ChallengeID req) -> idle K (redeem_stateful m clk req).
Proof.
  intros Hk. unfold redeem_stateful. destruct (canonical_uuid _); [| done]. simpl. split; [set_solver |].
  intros [[raw |] | e]; simpl; try done. destruct (decodeChallengeRecord raw) as [| [rec |]] eqn:Ed; try done.
  unfold check_and_spend. case_bool_decide as Hs; simpl; [| done]. destruct (EqualFold _ _); simpl; [| done].
  destruct (_ && _); [done |]. destruct (resolved_ttls req (URI rec)) as [tt ct].
  assert (Hsp : idle K (spend (clk 1%nat) req raw rec tt ct)).
  { unfold spend. destruct (encodeChallengeRecord _); [| done]. simpl. split; [set_solver |].
    intros [[|] | e]; simpl; try done. case_bool_decide; simpl; [| done]. unfold mintTokenWithSpec. by case_match. }
  assert (Hrel : forall p : prog (outcome pow_error RedeemResult), idle K p -> idle K (with_release req p)).
  { intros p Hp. unfold with_release. destruct (rq_ReleaseArgon req); [| done]. by apply idle_bind. }
  destruct (rq_NoJS req); [| case_bool_decide].
  - destruct (NoJS rec); simpl; [| done]. unfold ask_nojs. destruct (rq_AcquireNoJS req) as [f |].
    + simpl. destruct (f _); [done |]. by destruct (_ <? _).
    + by destruct (_ <? _).
  - unfold ask_argon. destruct (rq_AcquireArgon req) as [[e |] |]; [done | simpl |]; apply Hrel;
      by destruct (argon_solved _ _).
  - by destruct (sha_solved _ _).
Qed.

(** Issuing is what the race allows. *)
Lemma issue_issues K T m id salt issuedAt host ip uri spec ttl nojs :
  issues (race_rely K T) (IssueWithSpec m id salt issuedAt host ip uri spec ttl nojs).
Proof.
  unfold IssueWithSpec. destruct (validate spec); [done |]. destruct (encodeChallengeRecord _); [| done]. simpl. split.
  - destruct (decide (K = challengeKey id)) as [-> | Hn]; [right; by right | left; simpl; set_solver].
  - intros [[|] |]; done.
Qed.

(** ** What a successful redemption has checked *)
Lemma interleaved_release {A} Rely req (p : prog (outcome pow_error A)) lo c hi c' a es own :
  interleaved Rely lo c (with_release req p) hi c' a es own ->
  exists es', interleaved Rely lo c p hi c' a es' own /\ es = es' ++ (if rq_ReleaseArgon req then [ReleaseArgonSlot] else []).
Proof.
  unfold with_release. destruct (rq_ReleaseArgon req); [| exists es; by rewrite app_nil_r].
  intros Hi. apply interleaved_bind in Hi as (mid & c1 & x & es1 & own1 & es2 & own2 & Hp & Hrest & -> & ->).
  simpl in Hrest. destruct Hrest as (es' & -> & Henv & -> & -> & ->). exists es1. rewrite app_nil_r. split; [by apply Hp | done].
Qed.

(** The proof of the request vouches for it against the record. *)
Definition vouched (m : Manager) (now : Z) (req : RedeemRequest) (rec : record) : Prop :=
  State rec = recordStateIssued /\ EqualFold (Host rec) (rq_Host req) = true /\
  (if rq_NoJS req then
     IP rec = rq_IP req /\ NoJS rec = true /\ mg_NoJSMinDelay m <= dur_sub now (of_milli (IssuedAt rec)) /\
     (forall f, rq_AcquireNoJS req = Some f -> f (URI rec) = None)
   else if bool_decide (Algorithm rec = AlgorithmArgon2ID) then
     argon_solved rec (rq_Proof req) = true /\ (forall e, rq_AcquireArgon req <> Some (Some e))
   else sha_solved rec (rq_Nonce req) = true).

(** The answer to a vouched request whose spent transition has succeeded. *)
Definition granted (now : Z) (req : RedeemRequest) (rec : record) (res : RedeemResult) : Prop :=
  rr_RedirectURI res = URI rec /\ rr_Difficulty res = Difficulty rec /\ rr_IssuedAt res = IssuedAt rec /\
  if bool_decide (IP rec = rq_IP req) then
    rr_Outcome res = RedeemSolved /\ rr_TokenTTL res = (resolved_ttls req (URI rec)).1 /\
    signToken (mk_claims (ToLower (Host rec)) (rq_ChallengeID req) (Difficulty rec) (algorithm (proofSpec rec)) (MemoryKiB rec)
      (Iterations rec) (Fingerprint (rq_IP req) (rq_UserAgent req)) now now (now + rr_TokenTTL res)) = Some (rr_Token res)
  else rr_Outcome res = RedeemNetworkHandover /\ rr_Token res = [] /\ rr_IssuedIP res = IP rec.

Lemma spend_ok Rely now req raw rec tokenTTL challengeTTL lo c hi c' res es own :
  tokenTTL = (resolved_ttls req (URI rec)).1 ->
  interleaved Rely lo c (spend now req raw rec tokenTTL challengeTTL) hi c' (Ok res) es own ->
  granted now req rec res /\
  exists at_ mid c2 c3 spent, own = [(c2, c3)] /\ encodeChallengeRecord (with_state recordStateSpent rec) = Ok spent /\
    contract_step at_ mid (OCas (challengeKey (rq_ChallengeID req)) (Some raw) spent challengeTTL) c2 (Ok true) c3 /\
    es = [ForgetCounter (escalationKey escalationPrefix (Host rec) (IP rec));
          ForgetCounter (escalationKey frameEscalationPrefix (Host rec) (IP rec))].
Proof.
  intros Ht. unfold spend. destruct (encodeChallengeRecord _) as [spent |] eqn:Ee; [| by intros (_ & [=] & _)].
  simpl. intros (at_ & mid & c2 & r & c3 & own' & _ & Hc & -> & Hrest).
  destruct r as [[|] | e]; simpl in Hrest; [| by destruct Hrest as (_ & [=] & _)..].
  destruct Hrest as (es1 & -> & es2 & -> & Hrest). unfold granted.
  case_bool_decide as Hip; simpl in Hrest.
  - unfold mintTokenWithSpec in Hrest.
    match type of Hrest with context [signToken ?c] => destruct (signToken c) as [token |] eqn:Et end;
      simpl in Hrest; destruct Hrest as (_ & [= ->] & -> & ->). cbn [rr_RedirectURI rr_Difficulty rr_IssuedAt rr_Outcome rr_TokenTTL rr_Token].
    split; [split_ands; try done; by rewrite Ht |]. by exists at_, mid, c2, c3, spent.
  - destruct Hrest as (_ & [= ->] & -> & ->). split; [done |]. by exists at_, mid, c2, c3, spent.
Qed.

Lemma check_and_spend_ok Rely m clk req raw rec lo c hi c' res es own :
  interleaved Rely lo c (check_and_spend m clk req raw rec) hi c' (Ok res) es own ->
  vouched m (clk 0%nat) req rec /\
  exists es', interleaved Rely lo c (spend (clk 1%nat) req raw rec (resolved_ttls req (URI rec)).1 (resolved_ttls req (URI rec)).2)
    hi c' (Ok res) es' own.
Proof.
  unfold check_and_spend, vouched. case_bool_decide as Hs; cbn [negb]; [| by intros (_ & [=] & _)].
  destruct (EqualFold _ _) eqn:Eh; cbn [negb]; [| by intros (_ & [=] & _)].
  destruct (negb (bool_decide (IP rec = rq_IP req)) && rq_NoJS req) eqn:Eip; [by intros (_ & [=] & _) |].
  destruct (resolved_ttls req (URI rec)) as [tt ct]. cbn [fst snd].
  destruct (rq_NoJS req) eqn:En; [| destruct (bool_decide (Algorithm rec = AlgorithmArgon2ID)) eqn:Ha].
  - rewrite andb_true_r in Eip. apply negb_false_iff, bool_decide_eq_true in Eip.
    destruct (NoJS rec); cbn [negb]; [| by intros (_ & [=] & _)]. unfold ask_nojs.
    destruct (rq_AcquireNoJS req) as [f |] eqn:Eq.
    + simpl. intros (es' & -> & Hi). destruct (f (URI rec)) eqn:Ef; [by destruct Hi as (_ & [=] & _) |].
      destruct (_ <? _) eqn:Ed; [by destruct Hi as (_ & [=] & _) |]. bool_to_prop.
      split; [split_ands; try done; by intros ? [= <-] | by exists es'].
    + destruct (_ <? _) eqn:Ed; [by intros (_ & [=] & _) |]. bool_to_prop. intros Hi.
      split; [by split_ands | by exists es].
  - unfold ask_argon. destruct (rq_AcquireArgon req) as [[e |] |] eqn:Eq.
    + simpl. by intros (es' & -> & (_ & [=] & _)).
    + simpl. intros (es' & -> & Hi). apply interleaved_release in Hi as (es1 & Hi & ->).
      destruct (argon_solved _ _); cbn [negb] in Hi; [| by destruct Hi as (_ & [=] & _)].
      split; [by split_ands | by exists es1].
    + intros Hi. apply interleaved_release in Hi as (es1 & Hi & ->).
      destruct (argon_solved _ _); cbn [negb] in Hi; [| by destruct Hi as (_ & [=] & _)].
      split; [by split_ands | by exists es1].
  - destruct (sha_solved _ _); cbn [negb]; [| by intros (_ & [=] & _)]. intros Hi. split; [by split_ands | by exists es].
Qed.

(** Calls that leave the store as it was. *)
Definition harmless (own : list (amap * amap)) : Prop := Forall (fun cc => cc.2 = cc.1) own.

Lemma get_harmless {lo hi k m r m'} : contract_step lo hi (OGet k) m r m' -> m' = m.
Proof. by intros []. Qed.

Lemma lost_cas_harmless {lo hi k old new ttl m r m'} : contract_step lo hi (OCas k old new ttl) m r m' -> r = Ok false -> m' = m.
Proof. intros [t Ht | |]; simpl; [| done | done]. unfold spec_cas. by destruct (matches _ _). Qed.

(** Errors after which the spent transition may have happened. *)
Definition may_have_spent (e : pow_error) : Prop := e = ErrSigning \/ exists s, e = ErrStore s.

Lemma spend_err Rely now req raw rec tt ct lo c hi c' e es own : ~ may_have_spent e ->
  interleaved Rely lo c (spend now req raw rec tt ct) hi c' (Err e) es own -> harmless own.
Proof.
  intros He. unfold spend, harmless. destruct (encodeChallengeRecord _) as [spent |]; [| by intros (_ & _ & _ & ->)].
  simpl. intros (at_ & mid & c2 & r & c3 & own' & _ & Hc & -> & Hrest).
  destruct r as [[|] | e']; simpl in Hrest.
  - unfold forget_escalation in Hrest. simpl in Hrest. destruct Hrest as (es1 & -> & es2 & -> & Hrest).
    destruct (negb _); [by destruct Hrest as (_ & [=] & _) |].
    unfold mintTokenWithSpec in Hrest. destruct (signToken _); simpl in Hrest; destruct Hrest as (_ & [=] & _).
    destruct He. by left.
  - destruct Hrest as (_ & _ & _ & ->). constructor; [| constructor]. simpl.
    by apply (lost_cas_harmless Hc).
  - destruct Hrest as (_ & [= ->] & _). destruct He. right. by eexists.
Qed.

Lemma check_and_spend_err Rely m clk req raw rec lo c hi c' e es own : ~ may_have_spent e ->
  interleaved Rely lo c (check_and_spend m clk req raw rec) hi c' (Err e) es own -> harmless own.
Proof.
  intros He. unfold check_and_spend.
  assert (Hret : forall e' es, interleaved Rely lo c (Ret (Err e')) hi c' (@Err pow_error RedeemResult e) es own -> harmless own)
    by (intros ? ? (_ & _ & _ & ->); constructor).
  destruct (negb (bool_decide (State rec = _))); [apply Hret |]. destruct (negb (EqualFold _ _)); [apply Hret |].
  destruct (_ && rq_NoJS req); [apply Hret |]. destruct (resolved_ttls req (URI rec)) as [tt ct].
  assert (Hsp : forall (b : bool) e' es, interleaved Rely lo c (if b then Ret (Err e') else spend (clk 1%nat) req raw rec tt ct) hi c'
    (Err e) es own -> harmless own).
  { intros [|] e' es'; [apply Hret | by apply spend_err]. }
  destruct (rq_NoJS req); [| destruct (bool_decide _)].
  - destruct (negb (NoJS rec)); [apply Hret |]. unfold ask_nojs. destruct (rq_AcquireNoJS req) as [f |]; [| apply Hsp].
    simpl. intros (es' & -> & Hi). destruct (f _); [by eapply Hret | by eapply Hsp].
  - unfold ask_argon. destruct (rq_AcquireArgon req) as [[e' |] |]; simpl.
    + intros (es' & -> & Hi). by eapply Hret.
    + intros (es' & -> & Hi). apply interleaved_release in Hi as (es1 & Hi & ->). by eapply Hsp.
    + intros Hi. apply interleaved_release in Hi as (es1 & Hi & ->). by eapply Hsp.
  - apply Hsp.
Qed.

(** ** From issue to redemption *)

(** Other clients leave [K] alone. *)
Definition spares (K : gostring) (o : any_op) : Prop := K ∉ writes (projT2 o).

Lemma env_spares K lo c hi c' : env_run (spares K) lo c hi c' -> c' !! K = c !! K.
Proof.
  induction 1 as [| lo mid hi R op m r m1 m' Hop Hc _ IH]; [done |].
  rewrite IH. by eapply contract_step_frame.
Qed.

(** The record is in the store and lives until [D]. *)
Definition stored_until (K raw : gostring) (D : Z) (c : amap) : Prop :=
  exists e, c !! K = Some e /\ e_value e = raw /\ match e_expires e with None => True | Some d => D <= d end.

Lemma stored_live K raw D c t : stored_until K raw D c -> t <= D -> exists e, live t c K = Some e /\ e_value e = raw.
Proof.
  intros (e & He & Hv & Hd) Ht. exists e. split; [| done]. unfold live. rewrite He. unfold expired.
  destruct (e_expires e) as [d |]; [| done]. by rewrite (proj2 (Z.ltb_ge _ _)) by lia.
Qed.

Lemma stored_env K raw D lo c hi c' : env_run (spares K) lo c hi c' -> stored_until K raw D c -> stored_until K raw D c'.
Proof. intros He (e & H1' & Hrest). exists e. split; [| done]. by rewrite (env_spares _ _ _ _ _ He). Qed.

Lemma stored_get K raw D lo hi c r c' : stored_until K raw D c -> hi <= D -> contract_step lo hi (OGet K) c r c' ->
  c' = c /\ (r = Ok (Some raw) \/ exists e, r = Err e).
Proof.
  intros Hs Hd Hc. split; [exact (get_harmless Hc) |]. destruct Hc as [t Ht | e _ | t e _]; [| right; by eexists..].
  left. simpl. unfold spec_get. destruct (stored_live K raw D c (t 0%nat) Hs) as (e & -> & <-); [| done].
  pose proof (ticks_bound _ _ _ 0%nat Ht). lia.
Qed.

Lemma stored_cas K raw D lo hi c new ttl r c' : stored_until K raw D c -> hi <= D ->
  contract_step lo hi (OCas K (Some raw) new ttl) c r c' -> r = Ok true \/ exists e, r = Err e.
Proof.
  intros Hs Hd Hc. destruct Hc as [t Ht | e _ | t e _]; [| right; by eexists..].
  left. simpl. unfold spec_cas. destruct (stored_live K raw D c (t 0%nat) Hs) as (e & -> & He);
    [pose proof (ticks_bound _ _ _ 0%nat Ht); lia |].
  unfold matches. by rewrite bool_decide_eq_true_2.
Qed.

(** The record an issuance stores. *)
Definition issued_record (m : Manager) (id salt : gostring) (issuedAt : Z) (host ip uri : gostring) (spec : ProofSpec)
  (allowNoJS : bool) : record :=
  let spec := with_salt salt spec in
  mk_record recordStateIssued (ToLower host) ip
    (HMAC (mg_hmacSecret m) (challenge_message (ToLower host) ip (Z.quot (Unix issuedAt) 3600) id))
    (algorithm spec) (ps_Difficulty spec) (ps_MemoryKiB spec) (ps_Iterations spec) (ps_Salt spec) uri allowNoJS (UnixMilli issuedAt).

Lemma issue_ok Rely m id salt issuedAt host ip uri spec ttl nojs lo c hi c' ch es own : 
  interleaved Rely lo c (IssueWithSpec m id salt issuedAt host ip uri spec ttl nojs) hi c' (Ok ch) es own ->
  validate spec = None /\ exists raw at_ mid c0 c1,
    encodeChallengeRecord (issued_record m id salt issuedAt host ip uri spec nojs) = Ok raw /\
    own = [(c0, c1)] /\ lo <= at_ /\ stored_until (challengeKey id) raw (if ttl <=? 0 then mid else at_ + ttl) c1 /\
    env_run Rely mid c1 hi c' /\
    ch = challengeFromSpec id (hex_encode (ChallengeDigest (issued_record m id salt issuedAt host ip uri spec nojs))) (with_salt salt spec) /\
    (ttl <= 0 -> forall D, stored_until (challengeKey id) raw D c1).
Proof.
  unfold IssueWithSpec. destruct (validate spec); [by intros (_ & [=] & _) |].
  fold (issued_record m id salt issuedAt host ip uri spec nojs).
  destruct (encodeChallengeRecord _) as [raw |] eqn:Ee; [| by intros (_ & [=] & _)].
  simpl. intros (at_ & mid & c0 & r & c1 & own' & Henv & Hc & -> & Hrest). split; [done |].
  destruct r as [[|] | e]; simpl in Hrest; [| by destruct Hrest as (_ & [=] & _)..].
  destruct Hrest as (He2 & [= ->] & -> & ->). exists raw, at_, mid, c0, c1.
  assert (Hst : exists e t, c1 !! challengeKey id = Some e /\ e_value e = raw /\ at_ <= t /\ e_expires e = expiry ttl t).
  { destruct (won_cas Hc eq_refl) as (t & Ht & -> & _). exists (mk_entry raw (expiry ttl (t 1%nat))), (t 1%nat).
    rewrite lookup_insert_eq. split_ands; try done. apply Ht. }
  destruct Hst as (e & t & H1' & H2' & H3' & H4'). unfold expiry in H4'. split_ands; try done.
  - by apply env_run_time in Henv.
  - exists e. split_ands; try done. rewrite H4'. destruct (ttl <=? 0); [done | lia].
  - intros Hz D. exists e. split_ands; try done. rewrite H4'. by rewrite (proj2 (Z.leb_le _ _)).
Qed.

(** A JavaScript redemption by the client the record was issued to, with a
    valid proof, on the stored record: it succeeds unless the store fails. *)
Lemma spend_succeeds K raw D now req rec tt ct lo c hi c' r es own :
  K = challengeKey (rq_ChallengeID req) -> stored_until K raw D c -> hi <= D ->
  (exists b, encodeChallengeRecord (with_state recordStateSpent rec) = Ok b) -> IP rec = rq_IP req ->
  (forall cl, is_Some (signToken cl)) ->
  interleaved (spares K) lo c (spend now req raw rec tt ct) hi c' r es own ->
  (exists res, r = Ok res /\ rr_Outcome res = RedeemSolved /\ rr_RedirectURI res = URI rec) \/
  (exists e, r = Err (ErrStore e)).
Proof.
  intros -> Hst Hhi [b Hb] Hip Hsig. unfold spend. rewrite Hb. simpl.
  intros (at_ & mid & c2 & r2 & c3 & own' & Henv & Hc & -> & Hrest).
  assert (Hst2 : stored_until (challengeKey (rq_ChallengeID req)) raw D c2) by (by eapply stored_env).
  pose proof (interleaved_time _ _ _ _ _ _ _ _ _ Hrest) as Hm.
  destruct (stored_cas _ _ _ _ _ _ _ _ _ _ Hst2 (Z.le_trans _ _ _ Hm Hhi) Hc) as [-> | [e ->]]; simpl in Hrest.
  - unfold forget_escalation in Hrest. simpl in Hrest. destruct Hrest as (es1 & -> & es2 & -> & Hrest).
    rewrite bool_decide_eq_true_2 in Hrest by done. cbn [negb] in Hrest. unfold mintTokenWithSpec in Hrest.
    match type of Hrest with context [signToken ?cl] => destruct (Hsig cl) as [tok Htok]; rewrite Htok in Hrest end.
    destruct Hrest as (_ & -> & _). left. by eexists.
  - destruct Hrest as (_ & -> & _). right. by eexists.
Qed.

Lemma with_state_encodes s1 s2 r b : (exists n, binaryRecordState s2 = Ok n) ->
  encodeChallengeRecord (with_state s1 r) = Ok b -> exists b', encodeChallengeRecord (with_state s2 r) = Ok b'.
Proof.
  intros [n Hn] He. destruct (decide (algorithm (proofSpec (with_state s1 r)) = AlgorithmArgon2ID)) as [Ha | Ha].
  - destruct (encode_v2_inv _ _ Ha He) as (s & Hs & Hv & Ho & _).
    unfold encodeChallengeRecord, encodeChallengeRecordV2 in He |- *. rewrite bool_decide_eq_true_2 in He |- * by done.
    rewrite Hs in He. cbn [State with_state] in He |- *. rewrite Hn. change (proofSpec (with_state s2 r)) with (proofSpec (with_state s1 r)).
    rewrite Hv in He |- *. change (oversized (with_state s2 r)) with (oversized (with_state s1 r)).
    change (payloadSize (with_state s2 r)) with (payloadSize (with_state s1 r)). rewrite Ho in He |- *.
    destruct (_ <? payloadSize _); [done |].
    assert (len (v2_bytes n (with_state s2 r)) = len (v2_bytes s (with_state s1 r))) as ->.
    { unfold v2_bytes. by rewrite !len_app, !len_cons. }
    destruct (negb _); [done | by eexists].
  - destruct (encode_v1_inv _ _ Ha He) as (s & Hs & Hd & Ho & _).
    unfold encodeChallengeRecord in He |- *. rewrite bool_decide_eq_false_2 in He |- * by done.
    rewrite Hs in He. cbn [State with_state] in He |- *. rewrite Hn.
    change (Difficulty (with_state s2 r)) with (Difficulty (with_state s1 r)).
    change (oversized (with_state s2 r)) with (oversized (with_state s1 r)).
    change (payloadSize (with_state s2 r)) with (payloadSize (with_state s1 r)).
    destruct (_ || _); [done |]. rewrite Ho in He |- *. destruct (_ <? payloadSize _); [done |].
    assert (len (v1_bytes n (with_state s2 r)) = len (v1_bytes s (with_state s1 r))) as ->.
    { unfold v1_bytes. by rewrite !len_app, !len_cons. }
    destruct (negb _); [done | by eexists].
Qed.
End Pow.

(** A small world for the witnesses: no Unicode input, a toy key derivation and
    a toy signature. *)
Module Ex.
#[export] Existing Instance ascii_only.
#[export] Instance argon : Argon2 := { IDKey := fun p s t m => Sum256 (p ++ s ++ be_bytes 4 t ++ be_bytes 4 m) }.
#[export] Instance signer : Signer := { signToken := fun cl => Some (tc_Host cl ++ tc_Subject cl) }.

Definition manager : Manager := newManagerWithRetiredKeys (lit "seed") [].
Definition id : gostring := lit "0a1b2c3d-0000-4000-8000-00000000abcd".
Definition now : Z := 1700000000 * second.
Definition issue := Issue manager id now (lit "Example.org") (lit "192.0.2.7") (lit "/x") 8 (5 * minute) false.
Definition request : RedeemRequest :=
  mk_request id (lit "38") [] false (lit "EXAMPLE.org") (lit "192.0.2.7") (lit "ua") hour (5 * minute) None None None false.
Definition clk : clock := fun _ => now + second.
Definition store0 : amap := (run issue (fun _ _ => now) ∅).1.1.
Definition redeem := redeem_stateful manager clk request.
Definition clk_all : nat -> clock := fun _ _ => now.
Definition first := run redeem clk_all store0.
Definition second_ := run redeem clk_all first.1.1.
End Ex.
Import Ex.

(** * Properties *)

(** C11: Of any number of concurrent redemptions of one challenge, in any
    interleaving with the other instances and with any store failures, at most
    one succeeds while the spent marker lasts. *)
Theorem challenge_single_spend `{Unicode, Argon2, Signer} m clks reqs id T lo c y i j reqi reqj ri :
  (forall req uri, req ∈ reqs -> rq_ChallengeID req = id -> let ttl := (resolved_ttls req uri).2 in ttl <= 0 \/ T <= ttl) ->
  rtc (pool_step (race_rely (challengeKey id) T) (fun _ at_ mid => lo <= at_ /\ mid <= lo + T))
    (lo, c, imap (fun k req => redeem_stateful m (clks k) req) reqs) y ->
  reqs !! i = Some reqi -> rq_ChallengeID reqi = id -> y.2 !! i = Some (Ret (Ok ri)) ->
  reqs !! j = Some reqj -> rq_ChallengeID reqj = id -> j <> i ->
  ~ exists rj, y.2 !! j = Some (Ret (Ok rj)).
Proof.
  intros Ht Hrun Hi Hiid Hpi Hj Hjid Hne [rj Hpj]. destruct Hne. symmetry.
  set (mine := fun k => match reqs !! k with Some req => bool_decide (rq_ChallengeID req = id) | None => false end).
  assert (Hm : forall k req, reqs !! k = Some req -> rq_ChallengeID req = id -> mine k = true).
  { intros k req Hk Hid. unfold mine. rewrite Hk. by apply bool_decide_eq_true. }
  refine (race_one_winner (challengeKey id) (fun _ => @spends (challengeKey id) T) (spent_until (challengeKey id) (lo + T)) is_err
    _ _ _ _ _ _ _ mine lo c _ y i j (Ok ri) (Ok rj) _ Hrun (Hm i reqi Hi Hiid) (Hm j reqj Hj Hjid) Hpi Hpj _ _); try done.
  - intros ? R op. apply spends_writes.
  - intros ? ?. apply spent_elsewhere.
  - intros k at_ mid R op mm r m' [_ Hw]. by apply spend_lost.
  - intros k at_ mid R op mm r m' [Hw _] Hs Hc Hsw. destruct (spend_won _ _ _ _ _ _ _ _ Hs Hc Hsw) as (e & He & Hv & Hd).
    exists e. split_ands; try done. destruct (e_expires e); [lia | done].
  - intros at_ mid R op mm r m' [_ Hw]. by apply rely_keeps.
  - intros k p Hp. rewrite list_lookup_imap in Hp. unfold mine. destruct (reqs !! k) as [req |] eqn:Er; [| done]. simplify_eq/=.
    case_bool_decide as Hid.
    + rewrite <- Hid. apply redeem_racing. intros uri. apply Ht; [| done]. by eapply list_elem_of_lookup_2.
    + apply redeem_idle. intros Hk. by apply challengeKey_inj in Hk.
Qed.

Lemma run_eta {A} (p : prog A) tm (c : amap) : run p tm c = ((run p tm c).1.1, (run p tm c).1.2, (run p tm c).2).
Proof. by destruct (run p tm c) as [[] ]. Qed.

Theorem challenge_single_spend_witness :
  (exists r, Ex.first.2 = Ok r) /\ ~ exists r, Ex.second_.2 = Ok r.
Proof.
  assert (Hok : exists r, Ex.first.2 = Ok r) by (vm_compute; eexists; reflexivity). split; [exact Hok |].
  destruct Hok as [r1 H1].
  assert (Hw : forall k : nat, (fun (_ : option nat) at_ mid => Ex.now <= at_ /\ mid <= Ex.now + 5 * minute) (Some k) Ex.now Ex.now)
    by (intros k; unfold minute, second, millisecond, microsecond; lia).
  assert (Hrun : rtc (pool_step (race_rely (challengeKey Ex.id) (5 * minute))
      (fun _ at_ mid => Ex.now <= at_ /\ mid <= Ex.now + 5 * minute))
    (Ex.now, Ex.store0, [Ex.redeem; Ex.redeem]) (Ex.now, Ex.second_.1.1, [Ret Ex.first.2; Ret Ex.second_.2])).
  { exact (pool_two_runs _ _ Ex.now Ex.redeem Ex.redeem Ex.store0 Hw). }
  intros [r2 H2].
  refine (challenge_single_spend Ex.manager (fun _ => Ex.clk) [Ex.request; Ex.request] Ex.id (5 * minute) Ex.now Ex.store0
    _ 0 1 Ex.request Ex.request r1 _ Hrun eq_refl eq_refl (f_equal (fun x => Some (Ret x)) H1) eq_refl eq_refl _
    (ex_intro _ r2 (f_equal (fun x => Some (Ret x)) H2))).
  - intros req uri [-> | [-> | []%elem_of_nil]%elem_of_cons]%elem_of_cons _; right; vm_compute; discriminate.
  - discriminate.
Defined.

(** C13: A redemption that succeeds fetched an issued record of the request's
    host, verified the record's own proof (work, Argon2 key, or the no-JS wait
    and permission), moved exactly the fetched bytes to spent, and minted a
    token only for the client address the challenge was issued to. *)
Theorem redemption_requires_work `{Unicode, Argon2, Signer} Rely m clk req lo c hi c' res es own :
  interleaved Rely lo c (redeem_stateful m clk req) hi c' (Ok res) es own ->
  let K := challengeKey (rq_ChallengeID req) in
  exists raw rec spent c0 c1 at_ mid c2 c3,
    own = [(c0, c1); (c2, c3)] /\ decodeChallengeRecord raw = Done (Ok rec) /\
    vouched m (clk 0%nat) req rec /\ granted (clk 1%nat) req rec res /\
    contract_step at_ mid (OCas K (Some raw) spent (resolved_ttls req (URI rec)).2) c2 (Ok true) c3 /\
    decodeChallengeRecord spent = Done (Ok (canonical (with_state recordStateSpent rec))).
Proof.
  intros Hi K. unfold redeem_stateful in Hi. destruct (canonical_uuid _); cbn [negb] in Hi; [| by destruct Hi as (_ & [=] & _)].
  simpl in Hi. destruct Hi as (at0 & mid0 & c0 & r & c1 & own' & _ & Hg & -> & Hi).
  destruct r as [[raw |] | e]; [| by destruct Hi as (_ & [=] & _)..].
  destruct (decodeChallengeRecord raw) as [| [rec |]] eqn:Ed; try by destruct Hi as (_ & [=] & _).
  apply check_and_spend_ok in Hi as (Hv & es' & Hi).
  apply spend_ok in Hi as (Hgr & at_ & mid & c2 & c3 & spent & -> & He & Hc & _); [| done].
  exists raw, rec, spent, c0, c1, at_, mid, c2, c3. split_ands; try done.
  apply decode_of_encode; [| done]. apply with_state_ok. by destruct (decode_ok _ _ Ed).
Qed.

Theorem redemption_requires_work_witness :
  exists raw rec, decodeChallengeRecord raw = Done (Ok rec) /\ vouched Ex.manager (Ex.now + second) Ex.request rec.
Proof.
  assert (Hok : exists r, Ex.first.2 = Ok r) by (vm_compute; eexists; reflexivity). destruct Hok as [r1 H1].
  destruct (redemption_requires_work (fun _ => False) Ex.manager Ex.clk Ex.request _ _ _ _ _ _ _
    (run_interleaved_result (fun _ => False) Ex.redeem Ex.now Ex.store0 _ H1))
    as (raw & rec & spent & c0 & c1 & at_ & mid & c2 & c3 & _ & Hd & Hv & _).
  exists raw, rec. split; [exact Hd | exact Hv].
Defined.

(** A redemption that fails for any reason but a store or signing failure
    has changed nothing in the store: a wrong proof, host, address or timing
    never spends a challenge. *)
Theorem failed_redemption_changes_nothing `{Unicode, Argon2, Signer} Rely m clk req lo c hi c' e es own :
  interleaved Rely lo c (redeem_stateful m clk req) hi c' (Err e) es own -> ~ may_have_spent e -> harmless own.
Proof.
  intros Hi He. unfold redeem_stateful in Hi. destruct (canonical_uuid _); cbn [negb] in Hi; [| by destruct Hi as (_ & _ & _ & ->); constructor].
  simpl in Hi. destruct Hi as (at0 & mid0 & c0 & r & c1 & own' & _ & Hg & -> & Hi).
  apply get_harmless in Hg as ->. constructor; [done |].
  destruct r as [[raw |] | e']; [| by destruct Hi as (_ & _ & _ & ->); constructor..].
  destruct (decodeChallengeRecord raw) as [| [rec |]] eqn:Ed; try by destruct Hi as (_ & _ & _ & ->); constructor.
  by eapply check_and_spend_err.
Qed.

(** A wrong nonce. *)
Definition ex_wrong : RedeemRequest :=
  mk_request Ex.id (lit "39") [] false (lit "EXAMPLE.org") (lit "192.0.2.7") (lit "ua") hour (5 * minute) None None None false.

Theorem failed_redemption_changes_nothing_witness :
  (run (redeem_stateful Ex.manager Ex.clk ex_wrong) Ex.clk_all Ex.store0).2 = Err ErrBadSolution /\
  harmless (trace (redeem_stateful Ex.manager Ex.clk ex_wrong) Ex.now Ex.store0).
Proof.
  assert (He : (run (redeem_stateful Ex.manager Ex.clk ex_wrong) Ex.clk_all Ex.store0).2 = Err ErrBadSolution)
    by (vm_compute; reflexivity).
  split; [exact He |].
  refine (failed_redemption_changes_nothing (fun _ => False) Ex.manager Ex.clk ex_wrong _ _ _ _ _ _ _
    (run_interleaved_result (fun _ => False) _ Ex.now Ex.store0 _ He) _).
  intros [Hx | [s Hx]]; discriminate.
Defined.

(** A challenge issued and left alone redeems to a token with any nonce of
    the required work, from the same client and host, within its lifetime,
    unless the store fails. *)
Theorem issued_challenge_redeems `{Unicode, Argon2, Signer} m id issuedAt host ip uri difficulty ttl nojs
  lo c mid c1 ch es own (m2 : Manager) clk req hi c' r es' own' :
  let K := challengeKey id in
  is_ascii host = true -> is_ascii (rq_Host req) = true -> EqualFold host (rq_Host req) = true ->
  interleaved (spares K) lo c (Issue m id issuedAt host ip uri difficulty ttl nojs) mid c1 (Ok ch) es own ->
  interleaved (spares K) mid c1 (redeem_stateful m2 clk req) hi c' r es' own' ->
  ttl <= 0 \/ hi <= lo + ttl ->
  canonical_uuid id = true -> rq_ChallengeID req = ch_ID ch -> rq_IP req = ip -> rq_NoJS req = false ->
  ch_Difficulty ch <= leadingZeroBits (Sum256 (ch_Challenge ch ++ rq_Nonce req)) ->
  (forall cl, is_Some (signToken cl)) ->
  (exists res, r = Ok res /\ rr_Outcome res = RedeemSolved /\ rr_RedirectURI res = uri) \/
  (exists e, r = Err (ErrStore e)).
Proof.
  intros K Hah Har Hfold Hiss Hred Httl Huuid Hid Hip Hnj Hwork Hsig. unfold Issue in Hiss.
  apply issue_ok in Hiss as (Hv & raw & at_ & m0 & c0 & c00 & Henc & -> & Hlo & Hst & Henv & -> & Hforever).
  set (rec := issued_record m id [] issuedAt host ip uri (mk_spec AlgorithmSHA256 difficulty 0 0 (zero_bytes 16)) nojs) in *.
  cbn [ch_ID challengeFromSpec] in Hid. change (rq_ChallengeID req = id) in Hid.
  assert (Hst1 : stored_until K raw hi c1).
  { eapply stored_env; [exact Henv |]. destruct (ttl <=? 0) eqn:E; bool_to_prop; [by apply Hforever |].
    destruct Hst as (e & H1' & H2' & H3'). exists e. split_ands; try done. destruct (e_expires e); [lia | done]. }
  assert (Hok : record_ok rec).
  { constructor; try done. apply wrap64_ok. }
  pose proof (decode_of_encode _ _ Hok Henc) as Hdec.
  unfold redeem_stateful in Hred. rewrite Hid, Huuid in Hred. simpl in Hred. fold K in Hred.
  destruct Hred as (at1 & mid1 & c2 & r1 & c3 & own1 & Henv1 & Hget & -> & Hred).
  assert (Hst2 : stored_until K raw hi c2) by (by eapply stored_env).
  pose proof (interleaved_time _ _ _ _ _ _ _ _ _ Hred) as Hm.
  destruct (stored_get _ _ _ _ _ _ _ _ Hst2 Hm Hget) as [-> [-> | [e ->]]].
  2: { destruct Hred as (_ & -> & _). right. by eexists. }
  rewrite Hdec in Hred. unfold check_and_spend in Hred.
  change (State (canonical rec)) with recordStateIssued in Hred. rewrite bool_decide_eq_true_2 in Hred by done.
  change (Host (canonical rec)) with (ToLower host) in Hred. rewrite EqualFold_lower, Hfold in Hred by done.
  change (IP (canonical rec)) with ip in Hred. rewrite bool_decide_eq_true_2 in Hred by done.
  rewrite Hnj in Hred. cbn [negb andb] in Hred. destruct (resolved_ttls req _) as [tt ct].
  rewrite bool_decide_eq_false_2 in Hred by done.
  assert (Hsol : sha_solved (canonical rec) (rq_Nonce req) = true) by (apply Z.leb_le; exact Hwork).
  rewrite Hsol in Hred. cbn [negb] in Hred.
  eapply (spend_succeeds K raw hi) in Hred; try done.
  - by rewrite Hid.
  - apply (with_state_encodes recordStateIssued _ _ (clear_reserved raw)); [by eexists |].
    destruct (decode_ok _ _ Hdec) as [_ He]. exact He.
Qed.

Theorem issued_challenge_redeems_witness :
  (exists res, Ex.first.2 = Ok res /\ rr_Outcome res = RedeemSolved /\ rr_RedirectURI res = lit "/x") \/
  (exists e, Ex.first.2 = Err (ErrStore e)).
Proof.
  set (ch := match (run Ex.issue Ex.clk_all ∅).2 with Ok ch => ch | Err _ => mk_challenge [] [] [] 0 0 0 [] end).
  assert (Hch : (run Ex.issue Ex.clk_all ∅).2 = Ok ch) by (vm_compute; reflexivity).
  assert (Hcid : ch_ID ch = Ex.id) by (vm_compute; reflexivity).
  assert (Hwork : ch_Difficulty ch <= leadingZeroBits (Sum256 (ch_Challenge ch ++ rq_Nonce Ex.request)))
    by (vm_compute; discriminate).
  refine (issued_challenge_redeems Ex.manager Ex.id Ex.now (lit "Example.org") (lit "192.0.2.7") (lit "/x") 8 (5 * minute) false
    Ex.now ∅ Ex.now Ex.store0 ch _ _ Ex.manager Ex.clk Ex.request Ex.now Ex.first.1.1 Ex.first.2 _ _
    _ _ _ (run_interleaved_result _ Ex.issue Ex.now ∅ _ Hch) (run_interleaved_result _ Ex.redeem Ex.now Ex.store0 _ eq_refl)
    _ _ _ _ _ Hwork _); try (vm_compute; reflexivity).
  - right. unfold minute, second, millisecond, microsecond. lia.
  - intros cl. eexists. reflexivity.
Defined.

(** leadingZeroBits is at least d exactly when the digest, read as a big-
    endian number, is below 2^(bits-d). *)
Theorem leading_zero_bits_spec sum d : 0 <= d <= 8 * len sum ->
  (d <= leadingZeroBits sum <-> be_value sum < 2 ^ (8 * len sum - d)).
Proof.
  revert d. induction sum as [| x sum IH]; intros d Hd; [rewrite len_nil in *; simpl; assert (d = 0) as -> by lia; done |].
  rewrite len_cons in *. cbn [leadingZeroBits].
  assert (Hv : be_value (x :: sum) = byteZ x * 2 ^ (8 * len sum) + be_value sum).
  { unfold be_value at 1. cbn [be_value_from]. rewrite be_value_from_split.
    replace (2 ^ (8 * len sum)) with (256 ^ len sum) by (pose proof (len_nonneg sum); rewrite Z.pow_mul_r by lia; done). ring. }
  pose proof (be_value_range sum) as Hr. pose proof (len_nonneg sum) as Hl. pose proof (byteZ_range x) as Hx.
  replace (256 ^ len sum) with (2 ^ (8 * len sum)) in Hr by (rewrite Z.pow_mul_r by lia; done).
  assert (0 < 2 ^ (8 * len sum)) by (apply Z.pow_pos_nonneg; lia).
  rewrite Hv. destruct (byteZ x =? 0) eqn:E; bool_to_prop.
  - rewrite E. destruct (Z_le_gt_dec d 8) as [H8 | H8].
    + assert (2 ^ (8 * len sum) <= 2 ^ (8 * (1 + len sum) - d)) by (apply Z.pow_le_mono_r; lia).
      assert (0 <= leadingZeroBits sum); [| lia].
      clear. induction sum as [| y s IH]; simpl; [lia |]. destruct (byteZ y =? 0) eqn:E; bool_to_prop; [lia |].
      unfold leadingZeros8. rewrite (proj2 (Z.eqb_neq _ _)) by done. pose proof (byteZ_range y).
      assert (Z.log2 (byteZ y) < 8) by (apply Z.log2_lt_pow2; lia). lia.
    + specialize (IH (d - 8) ltac:(lia)). replace (8 * (1 + len sum) - d) with (8 * len sum - (d - 8)) by lia. lia.
  - unfold leadingZeros8. rewrite (proj2 (Z.eqb_neq _ _)) by done.
    assert (Hlog : 2 ^ Z.log2 (byteZ x) <= byteZ x < 2 ^ Z.succ (Z.log2 (byteZ x))) by (apply Z.log2_spec; lia).
    assert (0 <= Z.log2 (byteZ x) < 8) by (split; [apply Z.log2_nonneg | apply Z.log2_lt_pow2; lia]).
    destruct (Z_le_gt_dec d 8) as [H8 | H8].
    + replace (8 * (1 + len sum) - d) with ((8 - d) + 8 * len sum) by lia. rewrite Z.pow_add_r by lia.
      split; intros Hh.
      * assert (2 ^ Z.succ (Z.log2 (byteZ x)) <= 2 ^ (8 - d)) by (apply Z.pow_le_mono_r; lia). nia.
      * destruct (Z_le_gt_dec d (7 - Z.log2 (byteZ x))) as [| Hgt]; [lia |]. exfalso.
        assert (2 ^ (8 - d) <= 2 ^ Z.log2 (byteZ x)) by (apply Z.pow_le_mono_r; lia). nia.
    + split; intros Hh; [lia |]. exfalso.
      assert (2 ^ (8 * (1 + len sum) - d) <= 2 ^ (8 * len sum)) by (apply Z.pow_le_mono_r; lia). nia.
Qed.

Theorem leading_zero_bits_spec_witness : 12 <= leadingZeroBits [Zbyte 0; Zbyte 15; Zbyte 255].
Proof. apply (leading_zero_bits_spec [Zbyte 0; Zbyte 15; Zbyte 255] 12); [vm_compute; split; discriminate | vm_compute; reflexivity]. Defined.

(** Issuing and redeeming touch a challenge key only by create-only issues
    and issued-to-spent swaps, which is what the single-spend guarantee asks
    of every client. *)
Theorem challenge_programs_race_fairly `{Unicode, Argon2, Signer} K T :
  (forall m id salt issuedAt host ip uri spec ttl nojs,
     issues (race_rely K T) (IssueWithSpec m id salt issuedAt host ip uri spec ttl nojs)) /\
  (forall m clk req, (forall uri, let ttl := (resolved_ttls req uri).2 in ttl <= 0 \/ T <= ttl) ->
     issues (race_rely K T) (redeem_stateful m clk req)).
Proof.
  split; [intros; apply issue_issues |]. intros m clk req Ht.
  destruct (decide (K = challengeKey (rq_ChallengeID req))) as [-> | Hne].
  - eapply racing_issues. by apply (redeem_racing T 0).
  - apply idle_issues. by apply redeem_idle.
Qed.
