(* ===== verification/PowStateless.v ===== *)
(** * Stateless challenges (core/pow/stateless_challenge.go, tokencache.go)

    A challenge whose state travels, authenticated, in its own identifier: no
    store write at issue time, a create-only spent marker at redemption, and a
    bounded local replay cache for when the marker cannot be written.  The JSON
    form of the payload is the interface [PayloadCodec]; refreshing the key files
    is an input of the operations that do it. *)

From S2P Require Export Base64 Pow.

(** ** The local replay and verification cache (tokencache.go) *)
Abbreviation tokenCache := (gmap gostring Z).     (* digest -> expiry, unix nanoseconds *)

Definition maxCacheEntries : Z := 2 ^ 17.
Definition cacheMaxValidity : Z := 15 * minute.

Definition cache_get (key : gostring) (now : Z) (c : tokenCache) : bool :=
  match c !! key with Some exp => UnixNano now <? exp | None => false end.

Definition cache_reset (c : tokenCache) : tokenCache := ∅.

Definition cache_room (c : tokenCache) : tokenCache := if maxCacheEntries <=? Z.of_nat (size c) then ∅ else c.

Definition cache_put (key : gostring) (tokenExpiry now : Z) (c : tokenCache) : tokenCache :=
  let exp := now + cacheMaxValidity in
  let exp := if tokenExpiry <? exp then tokenExpiry else exp in
  <[key := UnixNano exp]> (cache_room c).

Definition cache_claim (key : gostring) (expiry now : Z) (c : tokenCache) : bool * tokenCache :=
  if cache_get key now c then (false, c) else (true, <[key := UnixNano expiry]> (cache_room c)).

(** ** Payload *)
Definition statelessPrefix : gostring := lit "s1.".
Definition statelessPrefixV2 : gostring := lit "s2.".
Definition statelessAuthDomain : gostring := lit "guardian-stateless-v1" ++ [Zbyte 0].
Definition statelessSolveDomain : gostring := lit "guardian-stateless-chal-v1" ++ [Zbyte 0].
Definition statelessAuthDomainV2 : gostring := lit "guardian-stateless-v2" ++ [Zbyte 0].
Definition statelessSolveDomainV2 : gostring := lit "guardian-stateless-chal-v2" ++ [Zbyte 0].
Definition statelessMaxURI : Z := 512.
Definition statelessSkew : Z := 30 * second.
Definition keyRefreshInterval : Z := 250 * millisecond.
Definition statelessRetirementGrace : Z := statelessSkew + keyRefreshInterval + second.
Definition maxAcceptedTokenLifetime : Z := 30 * 24 * hour.

Record statelessPayload := mk_payload {
  p_V : Z;
  p_Host : gostring;
  p_IP : gostring;
  p_Bits : Z;
  p_URI : gostring;
  p_NoJS : Z;
  p_TS : Z;                    (* unix milliseconds *)
  p_Rand : gostring;
  p_Alg : gostring;
  p_Mem : Z;
  p_Iter : Z;
  p_Salt : gostring
}.

(** [json.Marshal(&p)], and [json.Unmarshal] with unknown members rejected. *)
Class PayloadCodec := {
  marshal : statelessPayload -> option gostring;
  unmarshal : gostring -> option statelessPayload
}.

(** The documented round trip. *)
Class PayloadLaws `{PayloadCodec} := {
  unmarshal_marshal : forall p b, marshal p = Some b -> unmarshal b = Some p
}.

Definition payload_spec (p : statelessPayload) : option ProofSpec :=
  let spec := mk_spec (p_Alg p) (p_Bits p) (p_Mem p) (p_Iter p) (zero_bytes 16) in
  spec ← (if bool_decide (algorithm spec = AlgorithmArgon2ID) then
            if negb (len (p_Salt p) =? 2 * argon2SaltSize) then None
            else salt ← hex_decode (p_Salt p); Some (mk_spec (p_Alg p) (p_Bits p) (p_Mem p) (p_Iter p) salt)
          else Some spec);
  match validate spec with None => Some spec | Some _ => None end.

(** ** MACs and identifiers *)
Definition statelessMACFor (secret payload domain : gostring) : gostring := take 16 (HMAC secret (domain ++ payload)).
Definition statelessSolveFor (secret payload domain : gostring) : gostring := hex_encode (HMAC secret (domain ++ payload)).

(** [writeStatelessBase64]: 768 source bytes at a time. *)
Fixpoint write_base64 (fuel : nat) (dst src : gostring) : gostring :=
  match fuel with
  | O => dst
  | S f => if 768 <? len src then write_base64 f (dst ++ b64_encode (take 768 src)) (drop 768 src)
           else dst ++ b64_encode src
  end.
Definition writeStatelessBase64 (dst src : gostring) : gostring := write_base64 (S (length src)) dst src.

Definition encodeStatelessChallengeFor (secret payload prefix authDomain solveDomain : gostring) : gostring * gostring :=
  let auth := statelessMACFor secret payload authDomain in
  (writeStatelessBase64 (writeStatelessBase64 prefix payload ++ ["."%char]) auth, statelessSolveFor secret payload solveDomain).

Definition IsStatelessID (id : gostring) : bool := has_prefix statelessPrefix id || has_prefix statelessPrefixV2 id.

(** [strings.CutPrefix]. *)
Definition CutPrefix (p s : gostring) : option gostring := if has_prefix p s then Some (drop (length p) s) else None.

(** The first live secret whose MAC matches, with its retirement. *)
Fixpoint match_secret (now : Z) (pairs : list (gostring * managerKey)) (gotMAC payload domain : gostring)
  : option (gostring * option Z) :=
  match pairs with
  | [] => None
  | (secret, key) :: rest =>
    let lapsed := match mk_retiredAt key with Some r => r + maxAcceptedTokenLifetime <? now | None => false end in
    if lapsed then match_secret now rest gotMAC payload domain
    else if bool_decide (gotMAC = statelessMACFor secret payload domain) then Some (secret, mk_retiredAt key)
    else match_secret now rest gotMAC payload domain
  end.
Definition matchStatelessSecretFor (m : Manager) (now : Z) (gotMAC payload domain : gostring) : option (gostring * option Z) :=
  match_secret now (combine (mg_hmacSecrets m) (mg_keys m)) gotMAC payload domain.

Section Stateless.
Context `{Unicode, Argon2, Signer, PayloadCodec}.

(** ** Issuing *)

(** The redirect target carried in the payload. *)
Definition carried_uri (uri : gostring) : gostring := if statelessMaxURI <? len uri then lit "/" else uri.

(** [spec] has its salt. *)
Definition new_payload (random : gostring) (now : Z) (host ip uri : gostring) (spec : ProofSpec) (allowNoJS : bool) : statelessPayload :=
  let argon := bool_decide (algorithm spec = AlgorithmArgon2ID) in
  mk_payload (if argon then 2 else 1) (ToLower host) ip (ps_Difficulty spec) (carried_uri uri) (if allowNoJS then 1 else 0)
    (UnixMilli now) (hex_encode random) (if argon then AlgorithmArgon2ID else [])
    (if argon then ps_MemoryKiB spec else 0) (if argon then ps_Iterations spec else 0)
    (if argon then hex_encode (ps_Salt spec) else []).

(** [m] is the manager after [refreshKeys(false)], [None] if that failed;
    [random] is 12 random bytes, [salt] 16. *)
Definition IssueStatelessWithSpec (m : option Manager) (random salt : gostring) (now : Z) (host ip uri : gostring)
  (spec : ProofSpec) (allowNoJS : bool) : outcome pow_error Challenge :=
  match validate spec with
  | Some e => Err (ErrSpec e)
  | None =>
    match m with
    | None => Err ErrRefresh
    | Some m =>
      let spec := with_salt salt spec in
      let argon := bool_decide (algorithm spec = AlgorithmArgon2ID) in
      let '(prefix, authDomain, solveDomain) :=
        if argon then (statelessPrefixV2, statelessAuthDomainV2, statelessSolveDomainV2)
        else (statelessPrefix, statelessAuthDomain, statelessSolveDomain) in
      match marshal (new_payload random now host ip uri spec allowNoJS) with
      | None => Err ErrMarshal
      | Some payload =>
        let '(id, solve) := encodeStatelessChallengeFor (mg_hmacSecret m) payload prefix authDomain solveDomain in
        Ok (challengeFromSpec id solve spec)
      end
    end
  end.

(** ** Redeeming *)

(** What one redemption reads outside the store: the two key refreshes
    ([None]: it failed; the second may find nothing new), the clock, and what
    the local replay cache answered to the probe and to the claim. *)
Record surroundings := mk_around {
  ar_first : option Manager;
  ar_second : option (option Manager);
  ar_match_now : Z;
  ar_again_now : Z;
  ar_now : Z;
  ar_mint_now : Z;
  ar_seen : bool;
  ar_claimed : bool
}.

(** The identifier taken apart: payload, MAC, and the domains of its version. *)
Record parsed := mk_parsed { ps_payload : gostring; ps_mac : gostring; ps_auth : gostring; ps_solve : gostring; ps_version : Z }.

Definition parse_id (id : gostring) : option parsed :=
  pr ← match CutPrefix statelessPrefix id with
       | Some rest => Some (rest, statelessAuthDomain, statelessSolveDomain, 1)
       | None => rest ← CutPrefix statelessPrefixV2 id; Some (rest, statelessAuthDomainV2, statelessSolveDomainV2, 2)
       end;
  let '(rest, auth, solve, version) := pr in
  match split_at_byte "."%char rest with
  | None => None
  | Some (payloadB64, macB64) =>
    payload ← b64_decode payloadB64; mac ← b64_decode macB64; Some (mk_parsed payload mac auth solve version)
  end.

(** The key that authenticates the payload, refreshing the key files first and
    again on a miss. *)
Definition find_secret (around : surroundings) (i : parsed) : outcome pow_error (gostring * option Z) :=
  match ar_first around with
  | None => Err ErrRefresh
  | Some m =>
    match matchStatelessSecretFor m (ar_match_now around) (ps_mac i) (ps_payload i) (ps_auth i) with
    | Some s => Ok s
    | None =>
      match ar_second around with
      | None => Err ErrRefresh
      | Some None => Err ErrChallengeUnknown
      | Some (Some m) =>
        match matchStatelessSecretFor m (ar_again_now around) (ps_mac i) (ps_payload i) (ps_auth i) with
        | Some s => Ok s
        | None => Err ErrChallengeUnknown
        end
      end
    end
  end.

(** The checks of the payload itself. *)
Definition admit_payload (around : surroundings) (req : RedeemRequest) (i : parsed) (retiredAt : option Z)
  : outcome pow_error (statelessPayload * ProofSpec) :=
  match unmarshal (ps_payload i) with
  | None => Err ErrChallengeUnknown
  | Some p =>
    if negb (p_V p =? ps_version i) then Err ErrChallengeUnknown else
    match payload_spec p with
    | None => Err ErrChallengeUnknown
    | Some spec =>
      let ttl := (resolved_ttls req (p_URI p)).2 in
      let issued := of_milli (p_TS p) in
      if (ttl <? dur_sub (ar_now around) issued) || (statelessSkew <? dur_sub issued (ar_now around)) then Err ErrChallengeUnknown
      else if match retiredAt with Some r => r + statelessRetirementGrace <? issued | None => false end then Err ErrChallengeUnknown
      else if negb (EqualFold (p_Host p) (rq_Host req)) then Err ErrHostMismatch
      else if negb (bool_decide (p_IP p = rq_IP req)) && rq_NoJS req then Err ErrClientAddressMismatch
      else Ok (p, spec)
    end
  end.

Definition spent_digest (challenge : gostring) : gostring := Sum256 challenge.
Definition spentKey (challenge : gostring) : gostring := lit "spent1:" ++ hex_encode (take 16 (spent_digest challenge)).

(** How long the marker has to live. *)
Definition marker_ttl (challengeTTL now issued : Z) : Z :=
  let remaining := wrap64 (challengeTTL - dur_sub now issued + statelessSkew) in
  if remaining <=? 0 then minute else remaining.

Definition finishStateless (around : surroundings) (p : statelessPayload) (spec : ProofSpec) (req : RedeemRequest)
  (tokenTTL : Z) (soft : bool) : prog (outcome pow_error RedeemResult) :=
  forget_escalation (p_Host p) (p_IP p)
    match mintTokenWithSpec (ar_mint_now around) (p_Host p) (Fingerprint (rq_IP req) (rq_UserAgent req)) [] spec tokenTTL with
    | Err e => Ret (Err e)
    | Ok token =>
      Ret (Ok (mk_result RedeemSolved token tokenTTL (p_URI p) [] soft (p_Bits p) (algorithm spec) (ps_MemoryKiB spec)
        (ps_Iterations spec) (p_TS p)))
    end.

(** From the replay cache's probe on. *)
Definition spend_stateless (around : surroundings) (req : RedeemRequest) (p : statelessPayload) (spec : ProofSpec)
  (challenge : gostring) : prog (outcome pow_error RedeemResult) :=
  let '(tokenTTL, challengeTTL) := resolved_ttls req (p_URI p) in
  let addressChanged := negb (bool_decide (p_IP p = rq_IP req)) in
  let remaining := marker_ttl challengeTTL (ar_now around) (of_milli (p_TS p)) in
  let claim := Tell (ClaimSpent (spent_digest challenge) (ar_now around + remaining)) in
  if ar_seen around then Ret (Err ErrChallengeUnknown) else
  Call (OCas (spentKey challenge) None [Zbyte 1] remaining) (fun r =>
    match r with
    | Err e =>
      if addressChanged then Ret (Err (ErrStore e))
      else claim (if negb (ar_claimed around) then Ret (Err ErrChallengeUnknown)
                  else finishStateless around p spec req tokenTTL true)
    | Ok false => Ret (Err ErrChallengeUnknown)
    | Ok true =>
      claim (if addressChanged then
               forget_escalation (p_Host p) (p_IP p)
                 (Ret (Ok (mk_result RedeemNetworkHandover [] 0 (p_URI p) (p_IP p) false (p_Bits p) (algorithm spec)
                   (ps_MemoryKiB spec) (ps_Iterations spec) (p_TS p))))
             else finishStateless around p spec req tokenTTL false)
    end).

Definition redeem_stateless (m : Manager) (around : surroundings) (req : RedeemRequest) : prog (outcome pow_error RedeemResult) :=
  match parse_id (rq_ChallengeID req) with
  | None => Ret (Err ErrChallengeUnknown)
  | Some i =>
    match find_secret around i with
    | Err e => Ret (Err e)
    | Ok (secret, retiredAt) =>
      match admit_payload around req i retiredAt with
      | Err e => Ret (Err e)
      | Ok (p, spec) =>
        let challenge := statelessSolveFor secret (ps_payload i) (ps_solve i) in
        let finish := spend_stateless around req p spec challenge in
        if rq_NoJS req then
          if negb (p_NoJS p =? 1) then Ret (Err ErrNoJSDisabled)
          else ask_nojs req (p_URI p)
            (if dur_sub (ar_now around) (of_milli (p_TS p)) <? mg_NoJSMinDelay m then Ret (Err ErrTooFast) else finish)
        else if bool_decide (algorithm spec = AlgorithmArgon2ID) then
          ask_argon req (if negb (verifyArgon2ID challenge spec (rq_Proof req)) then Ret (Err ErrBadSolution) else finish)
        else if leadingZeroBits (Sum256 (challenge ++ rq_Nonce req)) <? p_Bits p then Ret (Err ErrBadSolution) else finish
      end
    end
  end.

(** [Redeem]: the two formats coexist. *)
Definition Redeem (m : Manager) (around : surroundings) (clk : clock) (req : RedeemRequest) : prog (outcome pow_error RedeemResult) :=
  if IsStatelessID (rq_ChallengeID req) then redeem_stateless m around req else redeem_stateful m clk req.
End Stateless.

(** ** Identifiers *)
Lemma write_base64_spec fuel : forall dst src, (length src < fuel)%nat -> write_base64 fuel dst src = dst ++ b64_encode src.
Proof.
  induction fuel as [| f IH]; intros dst src Hf; [lia |]. cbn [write_base64]. destruct (768 <? len src) eqn:E; [| done]. bool_to_prop.
  unfold len in E. rewrite IH by (rewrite length_drop; lia). rewrite <- app_assoc. f_equal.
  rewrite <- b64_encode_app; [by rewrite take_drop |]. unfold len. rewrite length_take.
  replace (Z.of_nat (768 `min` length src)) with 768 by lia. done.
Qed.

(** Streaming through fixed scratch gives the one-shot encoding. *)
Lemma writeStatelessBase64_spec dst src : writeStatelessBase64 dst src = dst ++ b64_encode src.
Proof. apply write_base64_spec. lia. Qed.

Lemma CutPrefix_app p s : CutPrefix p (p ++ s) = Some s.
Proof. unfold CutPrefix. by rewrite has_prefix_app, drop_app_length. Qed.

Lemma split_id payload mac : split_at_byte "."%char (b64_encode payload ++ "."%char :: b64_encode mac) = Some (b64_encode payload, b64_encode mac).
Proof. apply split_at_byte_Some. split; [done | apply b64_no_dot]. Qed.

Section Lemmas.
Context `{Unicode, Argon2, Signer, PayloadCodec}.

(** What is encoded is what is parsed. *)
Lemma parse_id_s1 secret payload :
  parse_id (encodeStatelessChallengeFor secret payload statelessPrefix statelessAuthDomain statelessSolveDomain).1 =
  Some (mk_parsed payload (statelessMACFor secret payload statelessAuthDomain) statelessAuthDomain statelessSolveDomain 1).
Proof.
  unfold encodeStatelessChallengeFor. cbn [fst]. rewrite !writeStatelessBase64_spec, <- !app_assoc.
  unfold parse_id. rewrite CutPrefix_app. cbn [mbind option_bind app]. by rewrite split_id, !b64_decode_encode.
Qed.

Lemma parse_id_s2 secret payload :
  parse_id (encodeStatelessChallengeFor secret payload statelessPrefixV2 statelessAuthDomainV2 statelessSolveDomainV2).1 =
  Some (mk_parsed payload (statelessMACFor secret payload statelessAuthDomainV2) statelessAuthDomainV2 statelessSolveDomainV2 2).
Proof.
  unfold encodeStatelessChallengeFor. cbn [fst]. rewrite !writeStatelessBase64_spec, <- !app_assoc.
  unfold parse_id. assert (CutPrefix statelessPrefix (statelessPrefixV2 ++ b64_encode payload ++ ["."%char] ++
    b64_encode (statelessMACFor secret payload statelessAuthDomainV2)) = None) as -> by done.
  rewrite CutPrefix_app. cbn [mbind option_bind app]. by rewrite split_id, !b64_decode_encode.
Qed.

Lemma parse_id_stateless id i : parse_id id = Some i -> IsStatelessID id = true.
Proof.
  unfold parse_id, IsStatelessID, CutPrefix. destruct (has_prefix statelessPrefix id); [done |].
  destruct (has_prefix statelessPrefixV2 id); [done |]. done.
Qed.

(** ** The marker's lifetime *)
Lemma marker_ttl_exact ttl now issued : ttl <= 2 ^ 62 -> dur_sub now issued <= ttl -> dur_sub issued now <= statelessSkew ->
  marker_ttl ttl now issued = ttl - (now - issued) + statelessSkew /\ - statelessSkew <= now - issued <= ttl.
Proof.
  unfold marker_ttl, dur_sub, statelessSkew, int64_min, int64_max, second, millisecond, microsecond. intros H3 H4 H5.
  assert (- (30 * (1000 * (1000 * 1000))) <= now - issued <= ttl) as Hb by lia.
  replace (Z.max (- 2 ^ 63) (Z.min (2 ^ 63 - 1) (now - issued))) with (now - issued) by lia.
  rewrite wrap64_id by (unfold int64_ok, int64_min, int64_max; lia).
  rewrite (proj2 (Z.leb_gt _ _)) by lia. split; [done | lia].
Qed.

Lemma admit_inv around req i retiredAt p spec : admit_payload around req i retiredAt = Ok (p, spec) ->
  unmarshal (ps_payload i) = Some p /\ p_V p = ps_version i /\ payload_spec p = Some spec /\
  dur_sub (ar_now around) (of_milli (p_TS p)) <= (resolved_ttls req (p_URI p)).2 /\
  dur_sub (of_milli (p_TS p)) (ar_now around) <= statelessSkew /\
  (forall r, retiredAt = Some r -> of_milli (p_TS p) <= r + statelessRetirementGrace) /\
  EqualFold (p_Host p) (rq_Host req) = true /\ (p_IP p = rq_IP req \/ rq_NoJS req = false).
Proof.
  unfold admit_payload. destruct (unmarshal (ps_payload i)) as [p' |]; [| done].
  destruct (p_V p' =? ps_version i) eqn:Ev; cbn [negb]; [| done]. destruct (payload_spec p') as [spec' |] eqn:Es; [| done].
  destruct ((_ <? _) || (_ <? _)) eqn:Ef; [done |].
  destruct (match retiredAt with Some r => _ | None => false end) eqn:Er; [done |].
  destruct (EqualFold _ _) eqn:Eh; cbn [negb]; [| done].
  destruct (negb (bool_decide (p_IP p' = rq_IP req)) && rq_NoJS req) eqn:Ei; [done |]. intros [= <- <-]. bool_to_prop.
  split_ands; try done.
  - intros r ->. bool_to_prop. done.
  - apply andb_false_iff in Ei as [Ei | Ei]; [left; apply negb_false_iff, bool_decide_eq_true in Ei; done | by right].
Qed.

Lemma find_secret_inv around i s r : find_secret around i = Ok (s, r) ->
  exists m now, ((ar_first around = Some m /\ now = ar_match_now around) \/ (ar_second around = Some (Some m) /\ now = ar_again_now around)) /\
    matchStatelessSecretFor m now (ps_mac i) (ps_payload i) (ps_auth i) = Some (s, r).
Proof.
  unfold find_secret. destruct (ar_first around) as [m |]; [| done].
  destruct (matchStatelessSecretFor m (ar_match_now around) _ _ _) as [x |] eqn:E1; [intros [= ->]; exists m, (ar_match_now around); eauto |].
  destruct (ar_second around) as [[m2 |] |]; try done.
  destruct (matchStatelessSecretFor m2 _ _ _ _) as [x |] eqn:E2; [intros [= ->]; exists m2, (ar_again_now around); eauto | done].
Qed.

(** A matching secret belongs to a key that has not lapsed. *)
Lemma match_secret_inv now pairs mac payload domain s r : match_secret now pairs mac payload domain = Some (s, r) ->
  mac = statelessMACFor s payload domain /\ exists k, (s, k) ∈ pairs /\ mk_retiredAt k = r /\
    (forall t, r = Some t -> now <= t + maxAcceptedTokenLifetime).
Proof.
  induction pairs as [| [s0 k0] rest IH]; [done |]. cbn [match_secret]. cbv zeta.
  destruct (match mk_retiredAt k0 with Some r => _ | None => false end) eqn:El.
  - intros Hm. destruct (IH Hm) as (Hmac & k & Hk & Hr). split; [done |]. exists k. split; [by right | done].
  - case_bool_decide as Hb.
    + intros [= -> <-]. split; [done |]. exists k0. split_ands; [by left | done |]. intros t Ht. rewrite Ht in El. bool_to_prop. done.
    + intros Hm. destruct (IH Hm) as (Hmac & k & Hk & Hr). split; [done |]. exists k. split; [by right | done].
Qed.

(** ** The race for a marker *)
Definition marker_of (around : surroundings) (req : RedeemRequest) : option (gostring * statelessPayload) :=
  i ← parse_id (rq_ChallengeID req);
  match find_secret around i with
  | Err _ => None
  | Ok (secret, retiredAt) =>
    match admit_payload around req i retiredAt with
    | Err _ => None
    | Ok (p, _) => Some (spentKey (statelessSolveFor secret (ps_payload i) (ps_solve i)), p)
    end
  end.

(** A marker written by a redemption that read [now] from its clock. *)
Definition marks (K : gostring) (issued ttl now : Z) {R} (op : store_op R) : Prop :=
  match op with
  | OCas k None _ t => k = K /\ now - issued <= ttl /\ t = ttl - (now - issued) + statelessSkew /\ - statelessSkew <= now - issued
  | _ => False
  end.

(** Fail-open answers, and failures. *)
Definition soft {E} (r : outcome E RedeemResult) : Prop := match r with Ok res => rr_SoftError res = true | Err _ => True end.

Lemma finish_soft K claims i around p spec req tokenTTL :
  racing K claims soft i (finishStateless around p spec req tokenTTL true).
Proof. unfold finishStateless, forget_escalation, mintTokenWithSpec. simpl. by destruct (signToken _). Qed.

Lemma finish_idle K around p spec req tokenTTL b : idle K (finishStateless around p spec req tokenTTL b).
Proof. unfold finishStateless, forget_escalation, mintTokenWithSpec. simpl. by destruct (signToken _). Qed.

Lemma spend_stateless_racing claims i around req p spec challenge ttl now :
  (resolved_ttls req (p_URI p)).2 = ttl -> now = ar_now around -> ttl <= 2 ^ 62 ->
  dur_sub now (of_milli (p_TS p)) <= ttl -> dur_sub (of_milli (p_TS p)) now <= statelessSkew ->
  (forall R (op : store_op R), marks (spentKey challenge) (of_milli (p_TS p)) ttl now op -> claims i R op) ->
  racing (spentKey challenge) claims soft i (spend_stateless around req p spec challenge).
Proof.
  intros Ht -> Hmax Hf1 Hf2 Hcl. unfold spend_stateless. destruct (resolved_ttls req (p_URI p)) as [tt ct]. cbn [snd] in Ht. subst ct.
  destruct (ar_seen around); [done |]. destruct (marker_ttl_exact _ _ _ Hmax Hf1 Hf2) as [Hm Hb].
  cbn [racing]. right. split; [apply Hcl; cbn; rewrite Hm; split_ands; try done; lia |]. intros [[|] | e]; cbn [swapped racing idle].
  - destruct (negb (bool_decide _)); [done | apply finish_idle].
  - done.
  - destruct (negb (bool_decide _)); [done |]. cbn [racing]. destruct (ar_claimed around); [apply finish_soft | done].
Qed.

Lemma spend_stateless_idle K around req p spec challenge : K <> spentKey challenge ->
  idle K (spend_stateless around req p spec challenge).
Proof.
  intros Hk. unfold spend_stateless. destruct (resolved_ttls _ _) as [tt ct]. destruct (ar_seen around); [done |].
  cbn [idle writes]. split; [set_solver |]. intros [[|] | e]; cbn [idle].
  - destruct (negb (bool_decide _)); [done | apply finish_idle].
  - done.
  - destruct (negb (bool_decide _)); [done |]. cbn [idle]. destruct (ar_claimed around); [apply finish_idle | done].
Qed.

(** The checks around the spending keep a program in the race, or out of it. *)
Lemma redeem_stateless_race (P : prog (outcome pow_error RedeemResult) -> Prop) m around req :
  (forall e, P (Ret (Err e))) -> (forall e p, P p -> P (Tell e p)) -> (forall p, P p -> P (with_release req p)) ->
  (forall i secret retiredAt p spec, parse_id (rq_ChallengeID req) = Some i -> find_secret around i = Ok (secret, retiredAt) ->
     admit_payload around req i retiredAt = Ok (p, spec) ->
     P (spend_stateless around req p spec (statelessSolveFor secret (ps_payload i) (ps_solve i)))) ->
  P (redeem_stateless m around req).
Proof.
  intros Herr Htell Hrel Hsp. unfold redeem_stateless. destruct (parse_id _) as [i |] eqn:Ei; [| apply Herr].
  destruct (find_secret around i) as [[secret retiredAt] | e] eqn:Es; [| apply Herr].
  destruct (admit_payload around req i retiredAt) as [[p spec] | e] eqn:Ea; [| apply Herr].
  specialize (Hsp i secret retiredAt p spec eq_refl Es Ea).
  assert (Hif : forall (b : bool) e, P (if b then Ret (Err e) else spend_stateless around req p spec (statelessSolveFor secret (ps_payload i) (ps_solve i))))
    by (intros [|] e; [apply Herr | done]).
  destruct (rq_NoJS req); [| destruct (bool_decide _)].
  - destruct (negb _); [apply Herr |]. unfold ask_nojs. destruct (rq_AcquireNoJS req) as [f |]; [| apply Hif].
    apply Htell. destruct (f _); [apply Herr | apply Hif].
  - unfold ask_argon. destruct (rq_AcquireArgon req) as [[e |] |]; [apply Htell, Herr | apply Htell, Hrel, Hif | apply Hrel, Hif].
  - apply Hif.
Qed.

Lemma with_release_idle K {A} req (p : prog A) : idle K p -> idle K (with_release req p).
Proof. intros Hp. unfold with_release. destruct (rq_ReleaseArgon req); [| done]. by apply idle_bind. Qed.

Lemma redeem_stateless_racing claims i m around req K p ttl : marker_of around req = Some (K, p) ->
  (resolved_ttls req (p_URI p)).2 = ttl -> ttl <= 2 ^ 62 ->
  (forall R (op : store_op R), marks K (of_milli (p_TS p)) ttl (ar_now around) op -> claims i R op) ->
  racing K claims soft i (redeem_stateless m around req).
Proof.
  intros Hm Ht Hmax Hcl. apply redeem_stateless_race; try done.
  - intros q Hq. unfold with_release. destruct (rq_ReleaseArgon req); [| done]. apply racing_bind; [by intros [] | done | done].
  - intros j secret retiredAt p' spec Hp Hs Ha. unfold marker_of in Hm. rewrite Hp in Hm. cbn [mbind option_bind] in Hm.
    rewrite Hs, Ha in Hm. injection Hm as <- <-. destruct (admit_inv _ _ _ _ _ _ Ha) as (_ & _ & _ & Hf1 & Hf2 & _).
    eapply spend_stateless_racing; try done. by rewrite <- Ht.
Qed.

Lemma redeem_stateless_idle K m around req : (forall p, marker_of around req <> Some (K, p)) ->
  idle K (redeem_stateless m around req).
Proof.
  intros Hm. apply redeem_stateless_race; try done; [apply with_release_idle |].
  intros j secret retiredAt p spec Hp Hs Ha. apply spend_stateless_idle. intros Hk. apply (Hm p). unfold marker_of.
  rewrite Hp. cbn [mbind option_bind]. by rewrite Hs, Ha, Hk.
Qed.

Lemma Redeem_idle_other K m around clk req : IsStatelessID (rq_ChallengeID req) = false -> K <> challengeKey (rq_ChallengeID req) ->
  idle K (Redeem m around clk req).
Proof. intros Hs Hk. unfold Redeem. rewrite Hs. by apply redeem_idle. Qed.
End Lemmas.

(** ** The pool of redemptions *)
Record member := mk_member { mb_manager : Manager; mb_around : surroundings; mb_clock : clock; mb_request : RedeemRequest }.

(** The store's clock stays within [ahead] behind and [behind] ahead of the
    clock reading of each redemption, for the redemption's calls. *)
Definition near_clock (ahead behind : Z) (ms : list member) (i : option nat) (at_ mid : Z) : Prop :=
  match i with
  | None => True
  | Some i => forall x, ms !! i = Some x -> ar_now (mb_around x) - ahead <= at_ /\ mid <= ar_now (mb_around x) + behind
  end.

(** The marker is in the store and lives until [D]. *)
Definition marked_until (K : gostring) (D : Z) (c : amap) : Prop :=
  exists e, c !! K = Some e /\ match e_expires e with None => True | Some d => D <= d end.

Section Pool.
Context `{Unicode, Argon2, Signer, PayloadCodec}.
Definition redemption (x : member) : prog (outcome pow_error RedeemResult) :=
  Redeem (mb_manager x) (mb_around x) (mb_clock x) (mb_request x).
End Pool.

Lemma spentKey_not_challenge c id : spentKey c <> challengeKey id.
Proof. done. Qed.

Lemma marks_writes K issued ttl now R (op : store_op R) : marks K issued ttl now op -> K ∈ writes op.
Proof. destruct op as [| | | | k [old |] new t | | | |]; try done. intros [-> _]. set_solver. Qed.

Lemma mark_lost K issued ttl now behind D lo hi {R} (op : store_op R) c r c' :
  marks K issued ttl now op -> hi <= now + behind -> issued + ttl + behind <= D ->
  contract_step lo hi op c r c' -> marked_until K D c -> marked_until K D c' /\ swapped op r = false.
Proof.
  intros Hm Hhi HD Hc Hs. destruct op as [| | | | k [old |] new t | | | |]; try done. destruct Hm as (-> & Hf & _).
  destruct (lost_cas Hc) as [-> Hsw]; [| done]. intros t' Ht'. destruct Hs as (e & He & Hd).
  unfold live. rewrite He. unfold expired. destruct (e_expires e) as [d |]; [| done].
  by rewrite (proj2 (Z.ltb_ge _ _)) by lia.
Qed.

Lemma mark_won K issued ttl now ahead lo hi {R} (op : store_op R) c r c' :
  marks K issued ttl now op -> now - ahead <= lo -> contract_step lo hi op c r c' -> swapped op r = true ->
  marked_until K (issued + ttl + statelessSkew - ahead) c'.
Proof.
  intros Hm Hlo Hc Hsw. destruct op as [| | | | k [old |] new t | | | |]; try done.
  destruct Hm as (-> & Hf & -> & Hb). destruct r as [[|] | e]; try done. destruct (won_cas Hc eq_refl) as (u & Hu & -> & _).
  eexists. rewrite lookup_insert_eq. split; [done |]. simpl. unfold expiry.
  pose proof (ticks_bound _ _ _ 1%nat Hu). destruct (_ <=? 0) eqn:E; bool_to_prop; [done | lia].
Qed.

(** ** What a successful redemption has established *)
Definition proven (around : surroundings) (m : Manager) (req : RedeemRequest) (p : statelessPayload) (spec : ProofSpec)
  (challenge : gostring) `{Argon2} : Prop :=
  if rq_NoJS req then p_NoJS p = 1 /\ mg_NoJSMinDelay m <= dur_sub (ar_now around) (of_milli (p_TS p)) /\ p_IP p = rq_IP req
  else if bool_decide (algorithm spec = AlgorithmArgon2ID) then verifyArgon2ID challenge spec (rq_Proof req) = true
  else p_Bits p <= leadingZeroBits (Sum256 (challenge ++ rq_Nonce req)).

(** The one store call of a redemption: it created the marker, or it failed and
    the local replay cache vouched instead. *)
Definition spent_once (around : surroundings) (req : RedeemRequest) (p : statelessPayload) (K : gostring) (res : RedeemResult)
  (own : list (amap * amap)) : Prop :=
  exists c0 c1 at_ mid ttl r, own = [(c0, c1)] /\ contract_step at_ mid (OCas K None [Zbyte 1] ttl) c0 r c1 /\
    ((r = Ok true /\ rr_SoftError res = false) \/
     ((exists e, r = Err e) /\ rr_SoftError res = true /\ ar_claimed around = true /\ p_IP p = rq_IP req)).

Section Success.
Context `{Unicode, Argon2, Signer, PayloadCodec}.

Lemma finishStateless_run Rely around p spec req tt b lo c hi c' r es own :
  interleaved Rely lo c (finishStateless around p spec req tt b) hi c' r es own ->
  own = [] /\ forall res, r = Ok res -> rr_SoftError res = b /\ rr_Outcome res = RedeemSolved /\ rr_RedirectURI res = p_URI p /\
    rr_TokenTTL res = tt.
Proof.
  unfold finishStateless, forget_escalation. simpl. intros (es1 & -> & es2 & -> & Hi).
  unfold mintTokenWithSpec in Hi. destruct (signToken _); destruct Hi as (_ & -> & _ & ->); split; try done. by intros res [= <-].
Qed.

Lemma spend_stateless_ok Rely around req p spec challenge lo c hi c' res es own :
  interleaved Rely lo c (spend_stateless around req p spec challenge) hi c' (Ok res) es own ->
  ar_seen around = false /\ spent_once around req p (spentKey challenge) res own /\
  (rr_Outcome res = RedeemSolved -> p_IP p = rq_IP req) /\ (rr_Outcome res = RedeemNetworkHandover -> rr_Token res = []).
Proof.
  unfold spend_stateless. destruct (resolved_ttls _ _) as [tt ct]. destruct (ar_seen around); [by intros (_ & [=] & _) |].
  simpl. intros (at_ & mid & c0 & r & c1 & own' & _ & Hc & -> & Hr). split; [done |].
  destruct (bool_decide (p_IP p = rq_IP req)) eqn:Eip; cbn [negb] in Hr;
    [apply bool_decide_eq_true in Eip | apply bool_decide_eq_false in Eip].
  all: destruct r as [[|] | e]; simpl in Hr; try (by destruct Hr as (_ & [=] & _)).
  - destruct Hr as (es' & -> & Hr). apply finishStateless_run in Hr as [-> Hr]. destruct (Hr res eq_refl) as (Hs & Ho & _).
    split_ands; [| done | congruence]. exists c0, c1, at_, mid. eauto 10.
  - destruct Hr as (es' & -> & Hr). destruct (ar_claimed around) eqn:Ec; [| by destruct Hr as (_ & [=] & _)].
    apply finishStateless_run in Hr as [-> Hr]. destruct (Hr res eq_refl) as (Hs & Ho & _).
    split_ands; [| done | congruence]. exists c0, c1, at_, mid. eauto 12.
  - destruct Hr as (es1 & -> & es2 & -> & es3 & -> & _ & [= ->] & _ & ->). split_ands; [| done | done].
    exists c0, c1, at_, mid. eauto 10.
Qed.

(** Reading a successful redemption back to its parts. *)
Lemma redeem_stateless_ok Rely m around req lo c hi c' res es own :
  interleaved Rely lo c (redeem_stateless m around req) hi c' (Ok res) es own ->
  exists i secret retiredAt p spec es',
    parse_id (rq_ChallengeID req) = Some i /\ find_secret around i = Ok (secret, retiredAt) /\
    admit_payload around req i retiredAt = Ok (p, spec) /\
    let challenge := statelessSolveFor secret (ps_payload i) (ps_solve i) in
    proven around m req p spec challenge /\
    interleaved Rely lo c (spend_stateless around req p spec challenge) hi c' (Ok res) es' own.
Proof.
  unfold redeem_stateless. intros Hi. destruct (parse_id _) as [i |] eqn:Ep; [| by destruct Hi as (_ & [=] & _)].
  destruct (find_secret around i) as [[secret retiredAt] | e] eqn:Es; [| by destruct Hi as (_ & [=] & _)].
  destruct (admit_payload around req i retiredAt) as [[p spec] | e] eqn:Ea; [| by destruct Hi as (_ & [=] & _)].
  pose proof (admit_inv _ _ _ _ _ _ Ea) as (_ & _ & _ & _ & _ & _ & _ & Hip).
  cbv zeta in Hi |- *. set (challenge := statelessSolveFor secret (ps_payload i) (ps_solve i)) in *.
  assert (Hex : exists es', proven around m req p spec challenge /\
    interleaved Rely lo c (spend_stateless around req p spec challenge) hi c' (Ok res) es' own);
    [| destruct Hex as (es' & Hpr & Hsp); by exists i, secret, retiredAt, p, spec, es'].
  unfold proven. destruct (rq_NoJS req); [| destruct (bool_decide (algorithm spec = AlgorithmArgon2ID))].
  - destruct (p_NoJS p =? 1) eqn:En; cbn [negb] in Hi; [| by destruct Hi as (_ & [=] & _)]. bool_to_prop.
    assert (Hrest : exists es', interleaved Rely lo c (if dur_sub (ar_now around) (of_milli (p_TS p)) <? mg_NoJSMinDelay m
      then Ret (Err ErrTooFast) else spend_stateless around req p spec challenge) hi c' (Ok res) es' own).
    { unfold ask_nojs in Hi. destruct (rq_AcquireNoJS req) as [f |]; [| by exists es].
      simpl in Hi. destruct Hi as (es' & -> & Hi). destruct (f _); [by destruct Hi as (_ & [=] & _) | by exists es']. }
    destruct Hrest as (es' & Hrest). destruct (_ <? _) eqn:Et; [by destruct Hrest as (_ & [=] & _) |]. bool_to_prop.
    exists es'. split_ands; try done. by destruct Hip.
  - unfold ask_argon in Hi. assert (Hrest : exists es', interleaved Rely lo c (if negb (verifyArgon2ID challenge spec (rq_Proof req))
      then Ret (Err ErrBadSolution) else spend_stateless around req p spec challenge) hi c' (Ok res) es' own).
    { destruct (rq_AcquireArgon req) as [[e |] |]; simpl in Hi.
      - destruct Hi as (es' & _ & _ & [=] & _).
      - destruct Hi as (es' & -> & Hi). apply interleaved_release in Hi as (es1 & Hi & _). by exists es1.
      - apply interleaved_release in Hi as (es1 & Hi & _). by exists es1. }
    destruct Hrest as (es' & Hrest). destruct (verifyArgon2ID _ _ _); [| by destruct Hrest as (_ & [=] & _)]. by exists es'.
  - destruct (_ <? p_Bits p) eqn:El; [by destruct Hi as (_ & [=] & _) |]. bool_to_prop. by exists es.
Qed.
End Success.

(** ** What an issued challenge redeems to *)
Section RoundTrip.
Context `{Unicode, Argon2, Signer, PayloadCodec, !PayloadLaws}.

Lemma algorithm_with_salt salt spec : algorithm (with_salt salt spec) = algorithm spec.
Proof. unfold with_salt. by destruct (bool_decide _). Qed.

Lemma validate_algorithm spec : validate spec = None -> algorithm spec = AlgorithmSHA256 \/ algorithm spec = AlgorithmArgon2ID.
Proof.
  unfold validate. destruct (decide (algorithm spec = AlgorithmSHA256)) as [| Hn1]; [by left |].
  destruct (decide (algorithm spec = AlgorithmArgon2ID)) as [| Hn2]; [by right |]. by rewrite !bool_decide_eq_false_2.
Qed.

(** The payload carries the policy. *)
Lemma payload_spec_new random salt now host ip uri spec nojs : validate spec = None -> len salt = 16 ->
  exists spec', payload_spec (new_payload random now host ip uri (with_salt salt spec) nojs) = Some spec' /\
    algorithm spec' = algorithm spec /\ forall ch pf, algorithm spec = AlgorithmArgon2ID ->
      verifyArgon2ID ch spec' pf = verifyArgon2ID ch (with_salt salt spec) pf.
Proof.
  intros Hv Hs. unfold payload_spec, new_payload. rewrite algorithm_with_salt.
  destruct (validate_algorithm spec Hv) as [Ha | Ha]; rewrite Ha.
  - rewrite bool_decide_eq_false_2 by done. cbn [p_Alg p_Bits p_Mem p_Iter]. unfold with_salt. rewrite Ha.
    rewrite !bool_decide_eq_false_2 by done. exists (mk_spec [] (ps_Difficulty spec) 0 0 (zero_bytes 16)).
    split; [| split; [done |]; by intros ? ? [=]]. cbn [mbind option_bind].
    unfold validate in Hv |- *. rewrite Ha in Hv. rewrite bool_decide_eq_true_2 in Hv by done. cbn [ps_Difficulty].
    rewrite bool_decide_eq_true_2 by done. by destruct (_ || _).
  - rewrite bool_decide_eq_true_2 by done. cbn [p_Alg p_Bits p_Mem p_Iter p_Salt]. unfold with_salt. rewrite Ha.
    rewrite !bool_decide_eq_true_2 by done. cbn [ps_Difficulty ps_MemoryKiB ps_Iterations ps_Salt].
    rewrite hex_encode_len, Hs, hex_decode_encode. change (negb (2 * 16 =? 2 * argon2SaltSize)) with false. cbn [mbind option_bind].
    exists (mk_spec AlgorithmArgon2ID (ps_Difficulty spec) (ps_MemoryKiB spec) (ps_Iterations spec) salt).
    split; [| done].
    unfold validate in Hv |- *. rewrite Ha in Hv. rewrite !bool_decide_eq_false_2 in Hv by done.
    rewrite bool_decide_eq_true_2 in Hv by done. cbn [ps_Difficulty ps_MemoryKiB ps_Iterations].
    destruct (_ || _); [done |]. by destruct (_ || _).
Qed.

Lemma issue_stateless_inv cur prev random salt now host ip uri spec nojs ch :
  IssueStatelessWithSpec (Some (newManagerWithRetiredKeys cur prev)) random salt now host ip uri spec nojs = Ok ch ->
  validate spec = None /\ exists payload version auth solve,
    marshal (new_payload random now host ip uri (with_salt salt spec) nojs) = Some payload /\
    version = p_V (new_payload random now host ip uri (with_salt salt spec) nojs) /\
    parse_id (ch_ID ch) = Some (mk_parsed payload (statelessMACFor (mg_hmacSecret (newManagerWithRetiredKeys cur prev)) payload auth) auth solve version) /\
    ch_Challenge ch = statelessSolveFor (mg_hmacSecret (newManagerWithRetiredKeys cur prev)) payload solve /\
    (algorithm spec = AlgorithmSHA256 -> ch_Difficulty ch = ps_Difficulty spec).
Proof.
  unfold IssueStatelessWithSpec. destruct (validate spec) eqn:Hv; [done |].
  set (mg := newManagerWithRetiredKeys cur prev). rewrite algorithm_with_salt.
  destruct (validate_algorithm spec Hv) as [Ha | Ha]; rewrite Ha.
  - rewrite bool_decide_eq_false_2 by done. destruct (marshal _) as [payload |] eqn:Em; [| done].
    destruct (encodeStatelessChallengeFor _ _ _ _ _) as [id sv] eqn:Ee. intros [= <-]. split; [done |].
    exists payload, 1, statelessAuthDomain, statelessSolveDomain. unfold challengeFromSpec. rewrite algorithm_with_salt, Ha.
    rewrite bool_decide_eq_false_2 by done. cbn [ch_ID ch_Challenge ch_Difficulty]. split_ands; try done.
    + unfold new_payload. rewrite algorithm_with_salt, Ha. by rewrite bool_decide_eq_false_2.
    + rewrite <- (parse_id_s1 (mg_hmacSecret mg) payload). by rewrite Ee.
    + pose proof (f_equal snd Ee) as He. simpl in He. by rewrite <- He.
    + intros _. unfold with_salt. rewrite Ha. by rewrite bool_decide_eq_false_2.
  - rewrite bool_decide_eq_true_2 by done. destruct (marshal _) as [payload |] eqn:Em; [| done].
    destruct (encodeStatelessChallengeFor _ _ _ _ _) as [id sv] eqn:Ee. intros [= <-]. split; [done |].
    exists payload, 2, statelessAuthDomainV2, statelessSolveDomainV2. unfold challengeFromSpec. rewrite algorithm_with_salt, Ha.
    rewrite bool_decide_eq_true_2 by done. cbn [ch_ID ch_Challenge ch_Difficulty]. split_ands; try done.
    + unfold new_payload. rewrite algorithm_with_salt, Ha. by rewrite bool_decide_eq_true_2.
    + rewrite <- (parse_id_s2 (mg_hmacSecret mg) payload). by rewrite Ee.
    + pose proof (f_equal snd Ee) as He. simpl in He. by rewrite <- He.
Qed.

(** The current key comes first. *)
Lemma match_current cur prev now payload domain :
  let mg := newManagerWithRetiredKeys cur prev in
  matchStatelessSecretFor mg now (statelessMACFor (mg_hmacSecret mg) payload domain) payload domain = Some (mg_hmacSecret mg, None).
Proof. cbv zeta. unfold matchStatelessSecretFor, newManagerWithRetiredKeys. cbn -[statelessMACFor Sum256]. by rewrite bool_decide_eq_true_2. Qed.

(** A create-only swap of an absent key is not refused. *)
Lemma free_cas {lo hi k new ttl c r c'} : contract_step lo hi (OCas k None new ttl) c r c' -> c !! k = None -> r <> Ok false.
Proof. intros Hc Hk. destruct Hc as [t Ht | |]; [| done..]. simpl. unfold spec_cas, live. by rewrite Hk. Qed.

(** A spending that nobody contests ends in a token, whatever the store does. *)
Lemma spend_stateless_succeeds around req p spec challenge lo c hi c' r es own :
  ar_seen around = false -> ar_claimed around = true -> p_IP p = rq_IP req -> c !! spentKey challenge = None ->
  (forall cl, is_Some (signToken cl)) ->
  interleaved (spares (spentKey challenge)) lo c (spend_stateless around req p spec challenge) hi c' r es own ->
  exists res, r = Ok res /\ rr_Outcome res = RedeemSolved /\ rr_RedirectURI res = p_URI p /\
    rr_TokenTTL res = (resolved_ttls req (p_URI p)).1.
Proof.
  intros Hseen Hcl Hip Hfree Hsig. unfold spend_stateless. destruct (resolved_ttls _ _) as [tt ct]. rewrite Hseen, Hcl.
  rewrite bool_decide_eq_true_2 by done. cbn [negb interleaved].
  intros (at_ & mid & c0 & r0 & c1 & own' & Henv & Hc & -> & Hr).
  assert (Hdone : forall lo c b es own, interleaved (spares (spentKey challenge)) lo c (finishStateless around p spec req tt b) hi c' r es own ->
    exists res, r = Ok res /\ rr_Outcome res = RedeemSolved /\ rr_RedirectURI res = p_URI p /\ rr_TokenTTL res = tt).
  { intros lo1 c2 b es1 own1 Hf. pose proof Hf as Hf'. apply finishStateless_run in Hf as [_ Hres].
    unfold finishStateless, forget_escalation, mintTokenWithSpec in Hf'. simpl in Hf'.
    destruct Hf' as (? & _ & ? & _ & Hf'). destruct (Hsig (mk_claims (ToLower (p_Host p)) [] (ps_Difficulty spec) (algorithm spec)
      (ps_MemoryKiB spec) (ps_Iterations spec) (Fingerprint (rq_IP req) (rq_UserAgent req)) (ar_mint_now around) (ar_mint_now around)
      (ar_mint_now around + tt))) as [tok Htok]. rewrite Htok in Hf'. destruct Hf' as (_ & -> & _).
    eexists. split; [done |]. by destruct (Hres _ eq_refl) as (_ & ? & ? & ?). }
  destruct r0 as [[|] | e]; cbn [interleaved] in Hr.
  - destruct Hr as (es1 & -> & Hr). by eapply Hdone.
  - exfalso. apply env_spares in Henv. apply (free_cas Hc); [by rewrite Henv | done].
  - destruct Hr as (es1 & -> & Hr). by eapply Hdone.
Qed.
End RoundTrip.

(** A small world for the witnesses: twelve hexadecimal fields stand in for the
    JSON object. *)
Module ExS.
#[export] Existing Instances ascii_only Pow.Ex.argon Pow.Ex.signer.
Definition field (s : gostring) : gostring := hex_encode s ++ [","%char].
Definition fields (p : statelessPayload) : list gostring :=
  [FormatInt (p_V p); p_Host p; p_IP p; FormatInt (p_Bits p); p_URI p; FormatInt (p_NoJS p); FormatInt (p_TS p); p_Rand p; p_Alg p;
   FormatInt (p_Mem p); FormatInt (p_Iter p); p_Salt p].
Definition ints_ok (p : statelessPayload) : bool :=
  forallb (fun n => bool_decide (int64_ok n)) [p_V p; p_Bits p; p_NoJS p; p_TS p; p_Mem p; p_Iter p].
Fixpoint read_fields (n : nat) (s : gostring) : option (list gostring) :=
  match n with
  | O => if bool_decide (s = []) then Some [] else None
  | S n => ab ← split_at_byte ","%char s; x ← hex_decode ab.1; xs ← read_fields n ab.2; Some (x :: xs)
  end.
Definition int_field (s : gostring) : option Z := match ParseInt s with Ok n => Some n | Err _ => None end.

#[export] Instance codec : PayloadCodec := {|
  marshal := fun p => if ints_ok p then Some (concat (map field (fields p))) else None;
  unmarshal := fun s =>
    xs ← read_fields 12 s;
    match xs with
    | [v; host; ip; bits; uri; nojs; ts; rand; alg; mem; iter; salt] =>
      v ← int_field v; bits ← int_field bits; nojs ← int_field nojs; ts ← int_field ts; mem ← int_field mem; iter ← int_field iter;
      Some (mk_payload v host ip bits uri nojs ts rand alg mem iter salt)
    | _ => None
    end
|}.

Lemma hex_no_comma s : ","%char ∉ hex_encode s.
Proof.
  induction s as [| c s IH]; [by intros ?%not_elem_of_nil |]. pose proof (byteZ_range c).
  cbn. intros [Hx | [Hx | Hx]%elem_of_cons]%elem_of_cons; [| | done];
    apply (f_equal byteZ) in Hx; change (byteZ ",") with 44 in Hx;
    match type of Hx with _ = byteZ (digit_char ?d) =>
      pose proof (digit_char_range d) as Hd; assert (0 <= d < 16) by (split; [try apply Z.div_pos; try apply Z.mod_pos_bound; lia |
        try (apply Z.div_lt_upper_bound; lia); try (apply Z.mod_pos_bound; lia)]); lia end.
Qed.

Lemma read_fields_concat xs : read_fields (length xs) (concat (map field xs)) = Some xs.
Proof.
  induction xs as [| x xs IH]; [done |]. cbn [length read_fields map concat]. unfold field at 1. rewrite <- app_assoc. cbn [app].
  rewrite (proj2 (split_at_byte_Some _ _ (hex_encode x) (concat (map field xs)))) by (split; [done | apply hex_no_comma]).
  cbn [mbind option_bind fst snd]. rewrite hex_decode_encode. cbn [mbind option_bind]. by rewrite IH.
Qed.

#[export] Instance codec_laws : PayloadLaws.
Proof.
  constructor. intros p b. cbn [marshal codec]. destruct (ints_ok p) eqn:E; [| done]. intros [= <-].
  cbn [unmarshal codec]. change 12%nat with (length (fields p)). rewrite read_fields_concat. cbn [mbind option_bind fields].
  unfold ints_ok in E. cbn [forallb] in E. bool_to_prop. unfold int_field.
  repeat match goal with H : bool_decide (int64_ok _) = true |- _ => apply bool_decide_eq_true in H; rewrite (ParseInt_FormatInt _ H); clear H end.
  by destruct p.
Qed.

Definition manager : Manager := newManagerWithRetiredKeys (lit "seed") [].
Definition now : Z := 1700000000 * second.
Definition spec : ProofSpec := mk_spec [] 4 0 0 (zero_bytes 16).
Definition uri : gostring := lit "/x".
Definition ip : gostring := lit "192.0.2.7".
Definition host : gostring := lit "Example.org".
Definition issued : outcome pow_error Challenge :=
  IssueStatelessWithSpec (Some manager) (lit "random bytes") (zero_bytes 16) now host ip uri spec false.
Definition ch : Challenge := match issued with Ok ch => ch | Err _ => mk_challenge [] [] [] 0 0 0 [] end.
Definition request (nonce : gostring) : RedeemRequest :=
  mk_request (ch_ID ch) nonce [] false (lit "EXAMPLE.org") ip (lit "ua") hour (5 * minute) None None None false.
Definition around (ahead : Z) : surroundings :=
  mk_around (Some manager) (Some None) (now + ahead) (now + ahead) (now + ahead) (now + ahead) false true.
Definition nonce : gostring := lit "18".
Definition member_at (ahead : Z) : member := mk_member manager (around ahead) (fun _ => now + ahead) (request nonce).
Definition clk_all : nat -> clock := fun _ _ => now + second.
Definition first := run (redemption (member_at second)) clk_all ∅.
(** The second instance already resolves a lifetime of 25 seconds more. *)
Definition second_request : RedeemRequest :=
  mk_request (ch_ID ch) nonce [] false (lit "EXAMPLE.org") ip (lit "ua") hour (6 * minute - 35 * second) None None None false.
Definition second_member : member := mk_member manager (around (2 * second)) (fun _ => now + 2 * second) second_request.
Definition second_ := run (redemption second_member) clk_all first.1.1.

(** A reload gives the challenges an hour, and ten minutes later the solution
    is presented again; the local replay cache has dropped its entry. *)
Definition late_request : RedeemRequest :=
  mk_request (ch_ID ch) nonce [] false (lit "EXAMPLE.org") ip (lit "ua") hour hour None None None false.
Definition late_member : member := mk_member manager (around (10 * minute)) (fun _ => now + 10 * minute) late_request.
Definition again := run (redemption late_member) (fun _ _ => now + 10 * minute) first.1.1.
End ExS.

(** * Properties *)


(** C14: A stateless redemption that succeeds presented a payload authenticated
    by a live key (not issued after its retirement grace), fresh, for the
    request's host, with a valid proof; it made one store call, which created
    the spent marker or failed with the local cache vouching, and minted a
    token only for the address the challenge was issued to. *)
Theorem stateless_requires_authentic_work `{Unicode, Argon2, Signer, PayloadCodec} Rely m around clk req lo c hi c' res es own :
  IsStatelessID (rq_ChallengeID req) = true ->
  interleaved Rely lo c (Redeem m around clk req) hi c' (Ok res) es own ->
  exists i mg now key secret p spec,
    parse_id (rq_ChallengeID req) = Some i /\
    ((ar_first around = Some mg /\ now = ar_match_now around) \/ (ar_second around = Some (Some mg) /\ now = ar_again_now around)) /\
    (secret, key) ∈ combine (mg_hmacSecrets mg) (mg_keys mg) /\
    (forall r, mk_retiredAt key = Some r -> now <= r + maxAcceptedTokenLifetime /\ of_milli (p_TS p) <= r + statelessRetirementGrace) /\
    ps_mac i = statelessMACFor secret (ps_payload i) (ps_auth i) /\
    unmarshal (ps_payload i) = Some p /\ p_V p = ps_version i /\ payload_spec p = Some spec /\
    EqualFold (p_Host p) (rq_Host req) = true /\
    dur_sub (ar_now around) (of_milli (p_TS p)) <= (resolved_ttls req (p_URI p)).2 /\
    let challenge := statelessSolveFor secret (ps_payload i) (ps_solve i) in
    proven around m req p spec challenge /\ spent_once around req p (spentKey challenge) res own /\
    (rr_Outcome res = RedeemSolved -> p_IP p = rq_IP req) /\ (rr_Outcome res = RedeemNetworkHandover -> rr_Token res = []).
Proof.
  intros Hid Hi. unfold Redeem in Hi. rewrite Hid in Hi.
  apply redeem_stateless_ok in Hi as (i & secret & retiredAt & p & spec & es' & Hp & Hs & Ha & Hpr & Hsp).
  apply spend_stateless_ok in Hsp as (_ & Hsp & Ho1 & Ho2).
  destruct (find_secret_inv _ _ _ _ Hs) as (mg & now & Hmg & Hm). apply match_secret_inv in Hm as (Hmac & key & Hk & <- & Hl).
  destruct (admit_inv _ _ _ _ _ _ Ha) as (Hu & Hv & Hsc & Hf & _ & Hr & Hh & _).
  exists i, mg, now, key, secret, p, spec. split_ands; try done. intros r Hr'. split; [by apply Hl | by apply Hr].
Qed.

(** C40: A stateless challenge issued under the current key redeems to a token
    for the same client and host within its lifetime, under either proof
    algorithm, whatever the store does. *)
Theorem stateless_issue_redeems `{Unicode, Argon2, Signer, PayloadCodec, !PayloadLaws} cur prev random salt issuedAt host ip uri spec nojs ch
  m around clk req lo c hi c' r es own :
  let mg := newManagerWithRetiredKeys cur prev in
  let ttl := (resolved_ttls req (carried_uri uri)).2 in
  IssueStatelessWithSpec (Some mg) random salt issuedAt host ip uri spec nojs = Ok ch ->
  interleaved (spares (spentKey (ch_Challenge ch))) lo c (Redeem m around clk req) hi c' r es own ->
  c !! spentKey (ch_Challenge ch) = None -> ar_seen around = false -> ar_claimed around = true ->
  len salt = 16 -> is_ascii host = true -> is_ascii (rq_Host req) = true -> EqualFold host (rq_Host req) = true ->
  rq_ChallengeID req = ch_ID ch -> ar_first around = Some mg -> rq_NoJS req = false -> rq_IP req = ip ->
  0 <= issuedAt <= 2 ^ 62 -> - statelessSkew <= ar_now around - issuedAt <= ttl - millisecond -> ttl <= 2 ^ 62 ->
  (forall e, rq_AcquireArgon req <> Some (Some e)) ->
  (if bool_decide (algorithm spec = AlgorithmArgon2ID) then verifyArgon2ID (ch_Challenge ch) (with_salt salt spec) (rq_Proof req) = true
   else ch_Difficulty ch <= leadingZeroBits (Sum256 (ch_Challenge ch ++ rq_Nonce req))) ->
  (forall cl, is_Some (signToken cl)) ->
  exists res, r = Ok res /\ rr_Outcome res = RedeemSolved /\ rr_RedirectURI res = carried_uri uri /\
    rr_TokenTTL res = (resolved_ttls req (carried_uri uri)).1.
Proof.
  intros mg ttl Hiss Hi Hfree Hseen Hcl Hsalt Hah Har Hfold Hid Hfirst Hnj Hip Hat Hnow Httl Harg Hwork Hsig.
  destruct (issue_stateless_inv _ _ _ _ _ _ _ _ _ _ _ Hiss) as (Hv & payload & version & auth & solve & Hm & Hver & Hp & Hch & Hdiff).
  destruct (payload_spec_new random salt issuedAt host ip uri spec nojs Hv Hsalt) as (spec' & Hps & Halg & Hver2).
  set (p := new_payload random issuedAt host ip uri (with_salt salt spec) nojs) in *. fold mg in Hp, Hch.
  assert (Hts : of_milli (p_TS p) <= issuedAt < of_milli (p_TS p) + millisecond).
  { unfold p, new_payload. cbn [p_TS]. unfold of_milli, UnixMilli. pose proof (Z.div_mod issuedAt millisecond ltac:(done)).
    pose proof (Z.mod_pos_bound issuedAt millisecond ltac:(done)).
    assert (0 <= issuedAt / millisecond <= issuedAt) by (split; [apply Z.div_pos | apply Z.div_le_upper_bound]; unfold millisecond, microsecond in *; nia).
    rewrite wrap64_id by (unfold int64_ok, int64_min, int64_max; lia). lia. }
  unfold Redeem in Hi. rewrite Hid in Hi. rewrite (parse_id_stateless _ _ Hp) in Hi.
  unfold redeem_stateless in Hi. rewrite Hid, Hp in Hi. unfold find_secret in Hi. rewrite Hfirst in Hi.
  cbn [ps_mac ps_payload ps_auth ps_solve] in Hi. unfold mg in Hi at 1. rewrite match_current in Hi. fold mg in Hi.
  assert (Hadm : admit_payload around req (mk_parsed payload (statelessMACFor (mg_hmacSecret mg) payload auth) auth solve version) None = Ok (p, spec')).
  { unfold admit_payload. cbn [ps_payload ps_version]. rewrite (unmarshal_marshal _ _ Hm), Hver, Z.eqb_refl. cbn [negb]. rewrite Hps.
    change (p_URI p) with (carried_uri uri). change (p_Host p) with (ToLower host). change (p_IP p) with ip.
    rewrite EqualFold_lower, Hfold, Hip, bool_decide_eq_true_2 by done. cbn [negb andb].
    unfold dur_sub, int64_min, int64_max. unfold statelessSkew, second, millisecond, microsecond in *.
    rewrite !(proj2 (Z.ltb_ge _ _)); [done | |]; fold ttl; lia. }
  rewrite Hadm, Hnj in Hi. cbv zeta in Hi. rewrite <- Hch in Hi.
  assert (Hgo : forall es own, interleaved (spares (spentKey (ch_Challenge ch))) lo c (spend_stateless around req p spec' (ch_Challenge ch)) hi c' r es own ->
    exists res, r = Ok res /\ rr_Outcome res = RedeemSolved /\ rr_RedirectURI res = carried_uri uri /\
    rr_TokenTTL res = (resolved_ttls req (carried_uri uri)).1).
  { intros es' own' Hs. exact (spend_stateless_succeeds around req p spec' (ch_Challenge ch) lo c hi c' r es' own' Hseen Hcl (eq_sym Hip) Hfree Hsig Hs). }
  rewrite Halg in Hi. destruct (bool_decide (algorithm spec = AlgorithmArgon2ID)) eqn:Ea.
  - apply bool_decide_eq_true in Ea. rewrite Hver2, Hwork in Hi by done. cbn [negb] in Hi.
    unfold ask_argon in Hi. destruct (rq_AcquireArgon req) as [[e |] |].
    + destruct (Harg e). reflexivity.
    + destruct Hi as (es' & -> & Hi). apply interleaved_release in Hi as (es1 & Hi & _). by eapply Hgo.
    + apply interleaved_release in Hi as (es1 & Hi & _). by eapply Hgo.
  - apply bool_decide_eq_false in Ea. destruct (validate_algorithm spec Hv) as [Ha | Ha]; [| destruct (Ea Ha)].
    rewrite (Hdiff Ha) in Hwork. assert (p_Bits p = ps_Difficulty spec) as Hb.
    { unfold p, new_payload. cbn [p_Bits]. unfold with_salt. rewrite bool_decide_eq_false_2 by exact Ea. reflexivity. }
    rewrite Hb, (proj2 (Z.ltb_ge _ _) Hwork) in Hi. by eapply Hgo.
Qed.
Import ExS.
#[local] Strategy expand [redemption member_at second_member late_member first second_ again clk_all].
#[local] Strategy 1000 [HMAC Sum256 Redeem run parse_id].

Lemma clock_of_pool i : near_clock second 0 [member_at second; second_member] (Some i) (now + second) (now + second).
Proof.
  intros x Hx. apply list_elem_of_lookup_2 in Hx. unfold second_member, second, millisecond, microsecond in *.
  apply elem_of_cons in Hx as [-> | Hx]; [cbn; lia |]. apply elem_of_cons in Hx as [-> | Hx]; [cbn; lia | by apply not_elem_of_nil in Hx].
Qed.


(** The marker of a spent challenge lapses with the lifetime the spending
    resolved: once a reload lengthens the challenge lifetime, the same
    solution redeems again, with a marker of its own. *)
Theorem lengthened_ttl_spends_twice :
  (exists r, first.2 = Ok r /\ rr_SoftError r = false) /\ (exists r, again.2 = Ok r /\ rr_SoftError r = false).
Proof.
  split.
  - exists (match first.2 with Ok r => r | Err _ => mk_result RedeemSolved [] 0 [] [] false 0 [] 0 0 0 end). split; vm_compute; reflexivity.
  - exists (match again.2 with Ok r => r | Err _ => mk_result RedeemSolved [] 0 [] [] false 0 [] 0 0 0 end). split; vm_compute; reflexivity.
Qed.

Theorem stateless_requires_authentic_work_witness :
  exists i p, parse_id (rq_ChallengeID (request nonce)) = Some i /\ unmarshal (ps_payload i) = Some p /\
    EqualFold (p_Host p) (lit "EXAMPLE.org") = true.
Proof.
  set (res := match first.2 with Ok r => r | Err _ => mk_result RedeemSolved [] 0 [] [] false 0 [] 0 0 0 end).
  assert (H1 : (run (redemption (member_at second)) (fun _ _ => now + second) ∅).2 = Ok res) by (vm_compute; reflexivity).
  destruct (stateless_requires_authentic_work (fun _ => False) manager (around second) (fun _ => now + second) (request nonce) _ _ _ _ res _ _
    ltac:(vm_compute; reflexivity) (run_interleaved_result (fun _ => False) (redemption (member_at second)) (now + second) ∅ _ H1))
    as (i & mg & t & key & secret & p & spec & Hp & _ & _ & _ & _ & Hu & _ & _ & Hh & _).
  exists i, p. split; [exact Hp | split; [exact Hu | exact Hh]].
Defined.

Theorem stateless_issue_redeems_witness :
  exists res, first.2 = Ok res /\ rr_Outcome res = RedeemSolved /\ rr_RedirectURI res = lit "/x" /\ rr_TokenTTL res = hour.
Proof.
  assert (Hch : IssueStatelessWithSpec (Some manager) (lit "random bytes") (zero_bytes 16) now host ip uri spec false = Ok ch)
    by (vm_compute; reflexivity).
  assert (Hwork : ch_Difficulty ch <= leadingZeroBits (Sum256 (ch_Challenge ch ++ nonce))) by (vm_compute; discriminate).
  pose proof (run_interleaved_result (spares (spentKey (ch_Challenge ch))) (redemption (member_at second)) (now + second) ∅ first.2 eq_refl) as Hi.
  unfold redemption, member_at in Hi. cbn [mb_manager mb_around mb_clock mb_request] in Hi.
  refine (stateless_issue_redeems (lit "seed") [] (lit "random bytes") (zero_bytes 16) now host ip uri spec false ch manager
    (around second) (fun _ => now + second) (request nonce) _ _ _ _ _ _ _ Hch Hi _ eq_refl eq_refl _ _ _ _ eq_refl eq_refl eq_refl eq_refl
    _ _ _ _ Hwork _); try (vm_compute; reflexivity).
  - split; vm_compute; discriminate.
  - split; vm_compute; discriminate.
  - vm_compute. discriminate.
  - intros e. discriminate.
  - intros cl. eexists. reflexivity.
Defined.
