(* ===== verification/Token.v ===== *)
(** * Tokens and their keys (core/pow/jwt.go, challenge.go, key.go)

    Loading the current and the retired signing keys, refreshing them from the
    files a peer may have rotated, and verifying a token against every live key
    with the verification cache in front.  The JWT library and the file reads
    are parameters.

    Each method takes the readings of its clock, [clk 0], [clk 1], ... in the
    order the code makes them.  [VerifyToken] is one call at a time: concurrent
    callers that meet a refresh in progress wait for its result. *)

From S2P Require Export PowStateless.
From S2P Require UrlPath Memory.

Open Scope Z_scope.

(** ** The JWT library

    [public_key seed]: the Ed25519 public key of a private one.
    [ParseWithClaims token key now]: the claims of a token with an EdDSA
    signature of that key and an expiry, within its lifetime at [now]. *)
Record ParsedClaims := mk_parsed {
  pt_Host : gostring;
  pt_Difficulty : Z;
  pt_Algorithm : gostring;
  pt_MemoryKiB : Z;
  pt_Iterations : Z;
  pt_Subject : gostring;
  pt_IssuedAt : option Z;
  pt_ExpiresAt : option Z
}.
Inductive jwt_error := JwtExpired | JwtInvalid.
#[global] Instance jwt_error_eq_dec : EqDecision jwt_error.
Proof. solve_decision. Defined.

Class JWT := { public_key : gostring -> gostring; ParseWithClaims : gostring -> gostring -> Z -> outcome jwt_error ParsedClaims }.

Definition CookieName : gostring := lit "guardian_token".
Definition maxAcceptedTokenLifetime : Z := 30 * 24 * hour.
Definition keyRefreshInterval : Z := 250 * millisecond.

(** ** Key files *)
Inductive key_fault := LockFailed | CurrentUnreadable | RetiredUnreadable | NoKeyFiles.

(** An archive entry: the modification time when it can be read, and the seed
    of the key when the file reads and parses. *)
Record archive := mk_archive { ar_name : gostring; ar_isDir : bool; ar_mtime : option Z; ar_key : option gostring }.

(** What one snapshot of the files finds; [kf_retired] is empty for a missing
    directory, [None] for an unreadable one. *)
Record KeyFiles := mk_files { kf_lock : bool; kf_current : option gostring; kf_retired : option (list archive) }.

(** [strings.Cut] at a byte, the part before it. *)
Fixpoint cut_before (c : ascii) (s : gostring) : option gostring :=
  match s with
  | [] => None
  | x :: r => if Ascii.eqb x c then Some [] else (fun p => x :: p) <$> cut_before c r
  end.

Definition retirementTimeFromName (name : gostring) : option Z :=
  match cut_before "-"%char name with
  | None => None
  | Some stamp => match ParseInt stamp with Ok unix => if unix <=? 0 then None else Some (unix * second) | Err _ => None end
  end.

(** [a.After(b)] of retirement times, [None] the zero time. *)
Definition later (a b : option Z) : bool :=
  match a, b with Some a, Some b => b <? a | Some _, None => true | None, _ => false end.

Definition past_horizon (retiredAt : option Z) (now : Z) : bool :=
  match retiredAt with Some t => t + maxAcceptedTokenLifetime <? now | None => false end.

Section Keys.
Context `{JWT}.

Definition fingerprint_of (seed : gostring) : gostring := Sum256 (public_key seed).

(** A key read again keeps the later retirement. *)
Fixpoint add_key (seed : gostring) (retiredAt : option Z) (keys : list managerKey) : list managerKey :=
  match keys with
  | [] => [mk_key seed retiredAt]
  | k :: rest =>
    if bool_decide (fingerprint_of (mk_seed k) = fingerprint_of seed)
    then (if later retiredAt (mk_retiredAt k) then mk_key (mk_seed k) retiredAt else k) :: rest
    else k :: add_key seed retiredAt rest
  end.

Fixpoint load_archives (now : Z) (entries : list archive) (keys : list managerKey) : outcome key_fault (list managerKey) :=
  match entries with
  | [] => Ok keys
  | e :: rest =>
    let retiredAt := match retirementTimeFromName (ar_name e) with Some t => Some t | None => ar_mtime e end in
    if past_horizon retiredAt now then load_archives now rest keys
    else match ar_key e with
         | None => Err RetiredUnreadable
         | Some seed => load_archives now rest (add_key seed retiredAt keys)
         end
  end.

Definition archive_le (a b : archive) : Prop := Memory.bytes_leb (ar_name a) (ar_name b) = true.
#[global] Instance archive_le_dec a b : Decision (archive_le a b).
Proof. unfold archive_le. apply _. Defined.

Definition loadRetiredKeysAt (dir : option (list archive)) (now : Z) : outcome key_fault (list managerKey) :=
  match dir with
  | None => Err RetiredUnreadable
  | Some entries => load_archives now (merge_sort archive_le (List.filter (fun e => negb (ar_isDir e) && UrlPath.has_suffix (lit ".key") (ar_name e)) entries)) []
  end.

Definition loadKeySetSnapshot (f : KeyFiles) (now : Z) : outcome key_fault (gostring * list managerKey) :=
  if negb (kf_lock f) then Err LockFailed
  else match kf_current f with
       | None => Err CurrentUnreadable
       | Some current => match loadRetiredKeysAt (kf_retired f) now with Ok previous => Ok (current, previous) | Err e => Err e end
       end.

(** ** Refreshing *)

(** [rf_fileBacked]: the manager has key files. *)
Record Refresh := mk_refresh {
  rf_fileBacked : bool;
  rf_lastRefresh : option Z;
  rf_lastRefreshErr : option key_fault;
  rf_lastFailureRefresh : option Z;
  rf_lastFailureErr : option key_fault;
  rf_routineUntil : Z;
  rf_routineFailed : option key_fault
}.

Record TokenManager := mk_tm { tm_keys : Manager; tm_cache : tokenCache; tm_refresh : Refresh }.

Definition no_files : Refresh := mk_refresh false None None None None 0 None.

(** [setRetiredKeys] with the token cache. *)
Definition install_keys (current : gostring) (previous : list managerKey) (tm : TokenManager) : TokenManager :=
  mk_tm (setRetiredKeys current previous (tm_keys tm)) (cache_reset (tm_cache tm)) (tm_refresh tm).

Definition rememberRoutineRefresh (now : Z) (err : option key_fault) (r : Refresh) : Refresh :=
  mk_refresh (rf_fileBacked r) (rf_lastRefresh r) (rf_lastRefreshErr r) (rf_lastFailureRefresh r) (rf_lastFailureErr r) (UnixNano (now + keyRefreshInterval)) err.

Definition with_refresh (r : Refresh) (tm : TokenManager) : TokenManager := mk_tm (tm_keys tm) (tm_cache tm) r.

(** Clock readings 0: the snapshot's, 1: the end. *)
Definition reloadKeysLocked (clk : clock) (f : KeyFiles) (tm : TokenManager) : option key_fault * TokenManager :=
  match loadKeySetSnapshot f (clk 0%nat) with
  | Err e => (Some e, tm)
  | Ok (current, previous) =>
    let tm := if keySetMatches current previous (tm_keys tm) then tm else install_keys current previous tm in
    let r := tm_refresh tm in
    (None, with_refresh (mk_refresh (rf_fileBacked r) (Some (clk 1%nat)) None (rf_lastFailureRefresh r) None
              (UnixNano (clk 1%nat + keyRefreshInterval)) None) tm)
  end.

Definition throttled (last : option Z) (now : Z) : bool := match last with Some t => dur_sub now t <? keyRefreshInterval | None => false end.

(** Clock readings 0: the throttle's, 1 and 2: the reload's, 3: the routine
    result's.  Answers whether the files were read, or the fault. *)
Definition refreshKeys (afterVerificationFailure : bool) (clk : clock) (f : KeyFiles) (tm : TokenManager) : outcome key_fault bool * TokenManager :=
  let r := tm_refresh tm in
  if negb (rf_fileBacked r) then (Ok false, tm)
  else
    let now := clk 0%nat in
    let answer e := match e with Some e => Err e | None => Ok false end in
    if afterVerificationFailure && throttled (rf_lastFailureRefresh r) now then (answer (rf_lastFailureErr r), tm)
    else if negb afterVerificationFailure && throttled (rf_lastRefresh r) now
    then (answer (rf_lastRefreshErr r), with_refresh (rememberRoutineRefresh (clk 3%nat) (rf_lastRefreshErr r) r) tm)
    else
      let r := if afterVerificationFailure
               then mk_refresh (rf_fileBacked r) (rf_lastRefresh r) (rf_lastRefreshErr r) (Some now) (rf_lastFailureErr r) (rf_routineUntil r) (rf_routineFailed r)
               else mk_refresh (rf_fileBacked r) (Some now) (rf_lastRefreshErr r) (rf_lastFailureRefresh r) (rf_lastFailureErr r) (rf_routineUntil r) (rf_routineFailed r) in
      match reloadKeysLocked (fun i => clk (S i)) f (with_refresh r tm) with
      | (None, tm) => (Ok true, tm)
      | (Some e, tm) =>
        let r := tm_refresh tm in
        let r := if afterVerificationFailure
                 then mk_refresh (rf_fileBacked r) (rf_lastRefresh r) (rf_lastRefreshErr r) (rf_lastFailureRefresh r) (Some e) (rf_routineUntil r) (rf_routineFailed r)
                 else mk_refresh (rf_fileBacked r) (rf_lastRefresh r) (Some e) (rf_lastFailureRefresh r) (rf_lastFailureErr r) (rf_routineUntil r) (rf_routineFailed r) in
        (Err e, with_refresh (rememberRoutineRefresh (clk 3%nat) (Some e) r) tm)
      end.

(** Clock readings 0: the gate's, then those of [refreshKeys]. *)
Definition refreshKeysBeforeTokenAccept (clk : clock) (f : KeyFiles) (tm : TokenManager) : option key_fault * TokenManager :=
  let r := tm_refresh tm in
  if negb (rf_fileBacked r) then (None, tm)
  else if UnixNano (clk 0%nat) <? rf_routineUntil r then (rf_routineFailed r, tm)
  else match refreshKeys false (fun i => clk (S i)) f tm with
       | (Ok _, tm) => (None, tm)
       | (Err e, tm) => (Some e, tm)
       end.

Definition ReloadKeys (clk : clock) (f : KeyFiles) (tm : TokenManager) : option key_fault * TokenManager :=
  if negb (rf_fileBacked (tm_refresh tm)) then (Some NoKeyFiles, tm)
  else match reloadKeysLocked clk f tm with
       | (None, tm) => (None, tm)
       | (Some e, tm) => (Some e, with_refresh (rememberRoutineRefresh (clk 2%nat) (Some e) (tm_refresh tm)) tm)
       end.

Definition NewManagerFromFiles (loaded : option unit) (clk : clock) (f : KeyFiles) : outcome key_fault TokenManager :=
  match loaded with
  | None => Err CurrentUnreadable
  | Some _ =>
    match loadKeySetSnapshot f (clk 0%nat) with
    | Err e => Err e
    | Ok (key, previous) =>
      Ok (mk_tm (newManagerWithRetiredKeys key previous) ∅ (mk_refresh true (Some (clk 1%nat)) None None None (UnixNano (clk 1%nat + keyRefreshInterval)) None))
    end
  end.

(** ** Verifying *)
Inductive token_error := TokenInvalid | TokenExpired | TokenBinding | TokenUnderDifficulty | TokenKeyFault (e : key_fault).

Section Verify.
Context `{Unicode}.

Definition verificationKeys (now : Z) (m : Manager) : list managerKey :=
  List.filter (fun k => negb (past_horizon (mk_retiredAt k) now)) (mg_keys m).

Definition work_params_ok (c : ParsedClaims) : bool :=
  if bool_decide (pt_Algorithm c = []) || bool_decide (pt_Algorithm c = AlgorithmSHA256) then (0 <=? pt_Difficulty c) && (pt_Difficulty c <=? 32)
  else if bool_decide (pt_Algorithm c = AlgorithmArgon2ID)
  then negb (bool_decide (is_Some (validate (mk_spec AlgorithmArgon2ID 0 (pt_MemoryKiB c) (pt_Iterations c) (zero_bytes 16)))))
  else false.

(** The checks on the claims of a token a key verified. *)
Definition check_token (k : managerKey) (c : ParsedClaims) (host ip userAgent : gostring) : option token_error :=
  match pt_IssuedAt c, pt_ExpiresAt c with
  | Some iat, Some exp =>
    if negb (work_params_ok c) then Some TokenInvalid
    else if (exp <=? iat) || (maxAcceptedTokenLifetime <? dur_sub exp iat) then Some TokenInvalid
    else if (match mk_retiredAt k with Some t => (t <? iat) || (t + maxAcceptedTokenLifetime <? exp) | None => false end) then Some TokenInvalid
    else if negb (EqualFold (pt_Host c) host) then Some TokenBinding
    else if negb (bool_decide (pt_Subject c = Fingerprint ip userAgent)) then Some TokenBinding
    else None
  | _, _ => Some TokenInvalid
  end.

(** [at_]: the library's reading of the clock for each key. *)
Fixpoint try_keys (keys : list managerKey) (at_ : clock) (expired : bool) (token host ip userAgent : gostring) : outcome token_error ParsedClaims :=
  match keys with
  | [] => Err (if expired then TokenExpired else TokenInvalid)
  | k :: rest =>
    match ParseWithClaims token (public_key (mk_seed k)) (at_ 0%nat) with
    | Err e => try_keys rest (fun i => at_ (S i)) (expired || bool_decide (e = JwtExpired)) token host ip userAgent
    | Ok c => match check_token k c host ip userAgent with Some e => Err e | None => Ok c end
    end
  end.

(** Clock readings 0: the live keys', then one per key. *)
Definition verifyTokenOnce (clk : clock) (m : Manager) (token host ip userAgent : gostring) : outcome token_error ParsedClaims :=
  try_keys (verificationKeys (clk 0%nat) m) (fun i => clk (S i)) false token host ip userAgent.

Definition tokenCacheKey (token host ip userAgent : gostring) (minBits maxAge : Z) : gostring :=
  Sum256 (token ++ Zbyte 0 :: ToLower host ++ Zbyte 0 :: ip ++ Zbyte 0 :: userAgent ++ Zbyte 0 :: FormatInt minBits ++ Zbyte 0 :: FormatInt maxAge).

(** The floor and the lifetime of the target path; the expiry to cache. *)
Definition check_path (now minBits maxAge : Z) (c : ParsedClaims) : outcome token_error Z :=
  if negb (bool_decide (pt_Algorithm c = AlgorithmArgon2ID)) && (pt_Difficulty c <? minBits) then Err TokenUnderDifficulty
  else
    let expiry := default 0 (pt_ExpiresAt c) in
    if 0 <? maxAge then
      let ttlExpiry := default 0 (pt_IssuedAt c) + maxAge in
      let expiry := if ttlExpiry <? expiry then ttlExpiry else expiry in
      if expiry <=? now then Err TokenExpired else Ok expiry
    else Ok expiry.

(** [gate], [once], [again], [retry]: the clock readings of the four calls;
    [f1], [f2]: the files the two refreshes find. *)
Record readings := mk_readings { rd_gate : clock; rd_now : Z; rd_once : clock; rd_again : clock; rd_retry : clock }.

Definition VerifyToken (rd : readings) (f1 f2 : KeyFiles) (token host ip userAgent : gostring) (minBits maxAge : Z) (tm : TokenManager)
  : outcome token_error unit * TokenManager :=
  match refreshKeysBeforeTokenAccept (rd_gate rd) f1 tm with
  | (Some e, tm) => (Err (TokenKeyFault e), tm)
  | (None, tm) =>
    let now := rd_now rd in
    let cacheKey := tokenCacheKey token host ip userAgent minBits maxAge in
    if cache_get cacheKey now (tm_cache tm) then (Ok tt, tm)
    else
      let accept (r : outcome token_error ParsedClaims) tm :=
        match r with
        | Err e => (Err e, tm)
        | Ok c => match check_path now minBits maxAge c with
                  | Err e => (Err e, tm)
                  | Ok expiry => (Ok tt, mk_tm (tm_keys tm) (cache_put cacheKey expiry now (tm_cache tm)) (tm_refresh tm))
                  end
        end in
      match verifyTokenOnce (rd_once rd) (tm_keys tm) token host ip userAgent with
      | Ok c => accept (Ok c) tm
      | Err e =>
        match refreshKeys true (rd_again rd) f2 tm with
        | (Err fault, tm) => (Err (TokenKeyFault fault), tm)
        | (Ok refreshed, tm) => accept (if refreshed then verifyTokenOnce (rd_retry rd) (tm_keys tm) token host ip userAgent else Err e) tm
        end
      end
  end.
End Verify.
End Keys.

(** ** What an acceptance rests on *)

(** The library accepts no token at or past its expiry. *)
Class JWTLaws `{JWT} := {
  parse_live token key now c : ParseWithClaims token key now = Ok c -> exists exp, pt_ExpiresAt c = Some exp /\ now < exp
}.

Section VerifyProofs.
Context `{Unicode, JWT}.

Record query := mk_query { qy_token : gostring; qy_host : gostring; qy_ip : gostring; qy_ua : gostring; qy_minBits : Z; qy_maxAge : Z }.
Definition key_of_query (q : query) : gostring := tokenCacheKey (qy_token q) (qy_host q) (qy_ip q) (qy_ua q) (qy_minBits q) (qy_maxAge q).
Definition verify (rd : readings) (f1 f2 : KeyFiles) (q : query) (tm : TokenManager) : outcome token_error unit * TokenManager :=
  VerifyToken rd f1 f2 (qy_token q) (qy_host q) (qy_ip q) (qy_ua q) (qy_minBits q) (qy_maxAge q) tm.

(** The same question, hosts compared without case. *)
Definition same_query (a b : query) : Prop :=
  qy_token a = qy_token b /\ ToLower (qy_host a) = ToLower (qy_host b) /\ qy_ip a = qy_ip b /\ qy_ua a = qy_ua b /\
  qy_minBits a = qy_minBits b /\ qy_maxAge a = qy_maxAge b.

Definition expiry_of (maxAge : Z) (c : ParsedClaims) : Z :=
  let exp := default 0 (pt_ExpiresAt c) in if 0 <? maxAge then Z.min (default 0 (pt_IssuedAt c) + maxAge) exp else exp.

(** A key of the set verified the token at [t], its claims passed every check,
    and its work meets the floor. *)
Definition vouches (m : Manager) (q : query) (t : Z) (c : ParsedClaims) : Prop :=
  (exists k, k ∈ mg_keys m /\ ParseWithClaims (qy_token q) (public_key (mk_seed k)) t = Ok c /\ check_token k c (qy_host q) (qy_ip q) (qy_ua q) = None) /\
  (pt_Algorithm c <> AlgorithmArgon2ID -> qy_minBits q <= pt_Difficulty c).

Lemma try_keys_ok keys token host ip ua : forall at_ expired c, try_keys keys at_ expired token host ip ua = Ok c ->
  exists i k, k ∈ keys /\ ParseWithClaims token (public_key (mk_seed k)) (at_ i) = Ok c /\ check_token k c host ip ua = None.
Proof.
  induction keys as [| k keys IH]; intros at_ expired c; cbn [try_keys]; [done |].
  destruct (ParseWithClaims token (public_key (mk_seed k)) (at_ 0%nat)) as [c' | e] eqn:Ep.
  - destruct (check_token k c' host ip ua) eqn:Ec; [done |]. intros [= <-]. exists 0%nat, k. split_ands; [by left | done | done].
  - intros Ht. destruct (IH _ _ _ Ht) as (i & k' & Hin & Hp & Hc). exists (S i), k'. split_ands; [by right | done | done].
Qed.

Lemma verifyTokenOnce_ok clk m token host ip ua c : verifyTokenOnce clk m token host ip ua = Ok c ->
  exists i k, k ∈ mg_keys m /\ ParseWithClaims token (public_key (mk_seed k)) (clk (S i)) = Ok c /\ check_token k c host ip ua = None.
Proof.
  intros Hv. destruct (try_keys_ok _ _ _ _ _ _ _ _ Hv) as (i & k & Hin & Hp & Hc). exists i, k. split_ands; try done.
  unfold verificationKeys in Hin. rewrite list_elem_of_In, filter_In in Hin. rewrite list_elem_of_In. tauto.
Qed.

Lemma check_path_ok now minBits maxAge c expiry : check_path now minBits maxAge c = Ok expiry ->
  (pt_Algorithm c <> AlgorithmArgon2ID -> minBits <= pt_Difficulty c) /\ expiry = expiry_of maxAge c /\ (0 < maxAge -> now < expiry).
Proof.
  unfold check_path, expiry_of. cbv zeta. destruct (negb _ && _) eqn:E; [done |]. intros Hr. split.
  { intros Ha. rewrite bool_decide_eq_false_2 in E by done. cbn in E. bool_to_prop. lia. }
  destruct (0 <? maxAge) eqn:Em; bool_to_prop; [| injection Hr as <-; split; [done | lia]].
  destruct (_ <=? now) eqn:En; [done |]. injection Hr as <-. bool_to_prop.
  match goal with |- context [if ?b then _ else _] => destruct b eqn:El end; bool_to_prop; lia.
Qed.

(** Refreshing leaves the keys and the cache, or empties the cache. *)
Definition refreshed (tm tm' : TokenManager) : Prop :=
  (tm_keys tm' = tm_keys tm /\ tm_cache tm' = tm_cache tm) \/ tm_cache tm' = ∅.

Lemma refreshed_trans a b c : refreshed a b -> refreshed b c -> refreshed a c.
Proof. intros [[H1 H2] | H1] [[H3 H4] | H3]; [left; split; congruence | by right | right; congruence | by right]. Qed.

Lemma reloadKeysLocked_refreshed clk f tm : refreshed tm (reloadKeysLocked clk f tm).2.
Proof.
  unfold reloadKeysLocked. destruct (loadKeySetSnapshot f (clk 0%nat)) as [[cur prev] | e]; [| by left]. cbv zeta.
  destruct (keySetMatches cur prev (tm_keys tm)); [by left | by right].
Qed.

Lemma refreshKeys_refreshed b clk f tm : refreshed tm (refreshKeys b clk f tm).2.
Proof.
  unfold refreshKeys. destruct (negb (rf_fileBacked (tm_refresh tm))); [by left |]. cbv zeta.
  destruct (b && _); [by left |]. destruct (negb b && _); [by left |].
  match goal with |- context [reloadKeysLocked ?c ?ff ?t] => pose proof (reloadKeysLocked_refreshed c ff t) as Hr; destruct (reloadKeysLocked c ff t) as [[e |] tm'] end; exact Hr.
Qed.

Lemma gate_refreshed clk f tm : refreshed tm (refreshKeysBeforeTokenAccept clk f tm).2.
Proof.
  unfold refreshKeysBeforeTokenAccept. destruct (negb (rf_fileBacked (tm_refresh tm))); [by left |]. destruct (_ <? _); [by left |].
  pose proof (refreshKeys_refreshed false (fun i => clk (S i)) f tm) as Hr. destruct (refreshKeys false _ f tm) as [[b | e] tm']; exact Hr.
Qed.

(** Every cached verification is of a question some request asked, at a reading
    of its clock, by a key that is still in the set. *)
Definition cache_ok (asked : query -> Prop) (read : Z -> Prop) (tm : TokenManager) : Prop :=
  forall key e, tm_cache tm !! key = Some e -> exists q t c, asked q /\ read t /\ key = key_of_query q /\ vouches (tm_keys tm) q t c /\
    e <= expiry_of (qy_maxAge q) c /\ e <= t + cacheMaxValidity.

Lemma cache_ok_refreshed asked read tm tm' : refreshed tm tm' -> cache_ok asked read tm -> cache_ok asked read tm'.
Proof.
  intros [[Hk Hc] | Hc] Hok key e; rewrite Hc; [| by rewrite lookup_empty]. intros Hl. destruct (Hok key e Hl) as (q & t & c & ? & ? & ? & ? & ?).
  exists q, t, c. by rewrite Hk.
Qed.

(** The readings a verification of a call may rest on. *)
Definition reading_of (rd : readings) (t : Z) : Prop := exists i, t = rd_once rd i \/ t = rd_retry rd i.
Definition readings_ok (rd : readings) : Prop := 0 <= rd_now rd <= 2 ^ 62 /\ (forall i, rd_now rd <= rd_once rd i) /\ (forall i, rd_now rd <= rd_retry rd i).

Lemma put_ok `{!JWTLaws} asked read now tm q t c expiry : asked q -> read t -> 0 <= now <= 2 ^ 62 -> now <= t -> cache_ok asked read tm -> vouches (tm_keys tm) q t c ->
  check_path now (qy_minBits q) (qy_maxAge q) c = Ok expiry ->
  cache_ok asked read (mk_tm (tm_keys tm) (cache_put (key_of_query q) expiry now (tm_cache tm)) (tm_refresh tm)).
Proof.
  intros Ha Hread Hn Ht Hok Hv Hp. destruct (check_path_ok _ _ _ _ _ Hp) as (_ & Hexp & Hlive).
  assert (Hpos : 0 <= expiry).
  { destruct Hv as [(k & _ & Hparse & _) _]. destruct (decide (0 < qy_maxAge q)) as [Hm |]; [specialize (Hlive Hm); lia |].
    destruct (parse_live _ _ _ _ Hparse) as (exp & He & Hlt). rewrite Hexp. unfold expiry_of. rewrite He. cbn. destruct (0 <? qy_maxAge q) eqn:E; bool_to_prop; lia. }
  assert (Hcm : cacheMaxValidity = 900000000000) by reflexivity.
  intros key e. cbn [tm_cache tm_keys]. unfold cache_put. cbv zeta. rewrite lookup_insert_Some. intros [[<- <-] | [_ Hl]].
  - exists q, t, c. unfold UnixNano.
    rewrite wrap64_id by (unfold int64_ok, int64_min, int64_max; destruct (expiry <? _) eqn:E; bool_to_prop; lia).
    split_ands; [done | done | done | exact Hv | |]; rewrite <- ?Hexp; destruct (expiry <? _) eqn:E; bool_to_prop; lia.
  - unfold cache_room in Hl. destruct (_ <=? _); [by rewrite lookup_empty in Hl | by apply Hok].
Qed.

(** One verification: it keeps the cache sound, and an acceptance is vouched. *)
Lemma verify_ok `{!JWTLaws} asked (read : Z -> Prop) rd f1 f2 q tm : asked q -> readings_ok rd -> (forall t, reading_of rd t -> read t) -> cache_ok asked read tm ->
  (forall a b, asked a -> asked b -> key_of_query a = key_of_query b -> same_query a b) ->
  cache_ok asked read (verify rd f1 f2 q tm).2 /\
  ((verify rd f1 f2 q tm).1 = Ok tt -> exists q' t c, same_query q' q /\ read t /\ vouches (tm_keys (verify rd f1 f2 q tm).2) q' t c /\
     rd_now rd < t + cacheMaxValidity /\ (rd_now rd < default 0 (pt_ExpiresAt c)) /\ (0 < qy_maxAge q -> rd_now rd < default 0 (pt_IssuedAt c) + qy_maxAge q)).
Proof.
  intros Ha (Hn & Honce & Hretry) Hread Hok Hcol. unfold verify, VerifyToken.
  pose proof (gate_refreshed (rd_gate rd) f1 tm) as Hg. destruct (refreshKeysBeforeTokenAccept (rd_gate rd) f1 tm) as [[e |] tm1]; cbn [snd] in Hg.
  { split; [by eapply cache_ok_refreshed | done]. }
  apply (cache_ok_refreshed asked read) in Hg as Hok1; [| done]. cbv zeta. fold (key_of_query q).
  assert (Hacc : forall tm2 r t, cache_ok asked read tm2 -> (forall c, r = Ok c -> rd_now rd <= t c /\ read (t c) /\ exists k, k ∈ mg_keys (tm_keys tm2) /\
      ParseWithClaims (qy_token q) (public_key (mk_seed k)) (t c) = Ok c /\ check_token k c (qy_host q) (qy_ip q) (qy_ua q) = None) ->
    let out := match r with
               | Err e => (Err e, tm2)
               | Ok c => match check_path (rd_now rd) (qy_minBits q) (qy_maxAge q) c with
                         | Err e => (Err e, tm2)
                         | Ok expiry => (Ok tt, mk_tm (tm_keys tm2) (cache_put (key_of_query q) expiry (rd_now rd) (tm_cache tm2)) (tm_refresh tm2))
                         end
               end in
    cache_ok asked read out.2 /\ (out.1 = Ok tt -> exists q' t c, same_query q' q /\ read t /\ vouches (tm_keys out.2) q' t c /\
     rd_now rd < t + cacheMaxValidity /\ (rd_now rd < default 0 (pt_ExpiresAt c)) /\ (0 < qy_maxAge q -> rd_now rd < default 0 (pt_IssuedAt c) + qy_maxAge q))).
  { intros tm2 r t Hok2 Hr. destruct r as [c | e]; [| done]. destruct (Hr c eq_refl) as (Ht & Hrt & k & Hk & Hp & Hc).
    destruct (check_path (rd_now rd) (qy_minBits q) (qy_maxAge q) c) as [expiry | e] eqn:Ecp; [| done].
    destruct (check_path_ok _ _ _ _ _ Ecp) as (Hb & Hexp & Hlive).
    assert (Hv : vouches (tm_keys tm2) q (t c) c) by (split; [by exists k | done]). cbn [fst snd]. split; [by eapply put_ok |]. intros _.
    destruct (parse_live _ _ _ _ Hp) as (exp & He & Hlt). exists q, (t c), c. assert (Hcm : 0 < cacheMaxValidity) by reflexivity.
    split_ands; [done | exact Hrt | exact Hv | lia | rewrite He; cbn; lia |]. intros Hm. specialize (Hlive Hm). rewrite Hexp in Hlive. unfold expiry_of in Hlive.
    destruct (0 <? qy_maxAge q) eqn:E; bool_to_prop; lia. }
  destruct (cache_get (key_of_query q) (rd_now rd) (tm_cache tm1)) eqn:Ehit.
  - split; [done |]. intros _. unfold cache_get in Ehit. destruct (tm_cache tm1 !! key_of_query q) as [e |] eqn:El; [| done]. bool_to_prop.
    destruct (Hok1 _ _ El) as (q' & t & c & Hq' & Hrt & Hkey & Hv & Hex & Htt). exists q', t, c. pose proof (Hcol q' q Hq' Ha (eq_sym Hkey)) as Hsame.
    destruct (Hsame) as (_ & _ & _ & _ & _ & Hage). unfold UnixNano in *. rewrite wrap64_id in * by (unfold int64_ok, int64_min, int64_max; lia).
    destruct Hv as [Hk Hb]. unfold expiry_of in Hex. rewrite Hage in Hex.
    split_ands; [done | done | split; [exact Hk | exact Hb] | lia | destruct (0 <? qy_maxAge q); lia |]. intros Hm. rewrite (proj2 (Z.ltb_lt _ _) Hm) in Hex. lia.
  - destruct (verifyTokenOnce (rd_once rd) (tm_keys tm1) (qy_token q) (qy_host q) (qy_ip q) (qy_ua q)) as [c | e] eqn:Eo.
    + destruct (verifyTokenOnce_ok _ _ _ _ _ _ _ Eo) as (i & k & Hk & Hp & Hc). apply (Hacc tm1 (Ok c) (fun _ => rd_once rd (S i)) Hok1).
      intros c' [= <-]. split; [apply Honce |]. split; [apply Hread; exists (S i); by left |]. by exists k.
    + pose proof (refreshKeys_refreshed true (rd_again rd) f2 tm1) as Hg2. destruct (refreshKeys true (rd_again rd) f2 tm1) as [[refr | fault] tm2]; cbn [snd] in Hg2.
      2: { split; [by eapply cache_ok_refreshed | done]. }
      apply (cache_ok_refreshed asked read) in Hg2 as Hok2; [| done]. destruct refr; [| by apply (Hacc tm2 (Err e) (fun _ => 0) Hok2)].
      destruct (verifyTokenOnce (rd_retry rd) (tm_keys tm2) (qy_token q) (qy_host q) (qy_ip q) (qy_ua q)) as [c | e'] eqn:Eo2; [| by apply (Hacc tm2 (Err e') (fun _ => 0) Hok2)].
      destruct (verifyTokenOnce_ok _ _ _ _ _ _ _ Eo2) as (i & k & Hk & Hp & Hc). apply (Hacc tm2 (Ok c) (fun _ => rd_retry rd (S i)) Hok2).
      intros c' [= <-]. split; [apply Hretry |]. split; [apply Hread; exists (S i); by right |]. by exists k.
Qed.

Lemma check_token_ok k c host ip ua : check_token k c host ip ua = None ->
  exists iat exp, pt_IssuedAt c = Some iat /\ pt_ExpiresAt c = Some exp /\ work_params_ok c = true /\
    iat < exp /\ dur_sub exp iat <= maxAcceptedTokenLifetime /\
    (forall t, mk_retiredAt k = Some t -> iat <= t /\ exp <= t + maxAcceptedTokenLifetime) /\
    EqualFold (pt_Host c) host = true /\ pt_Subject c = Fingerprint ip ua.
Proof.
  unfold check_token. destruct (pt_IssuedAt c) as [iat |], (pt_ExpiresAt c) as [exp |]; try done.
  destruct (negb (work_params_ok c)) eqn:Ew; [done |]. destruct ((exp <=? iat) || _) eqn:El; [done |].
  destruct (match mk_retiredAt k with Some t => _ | None => false end) eqn:Er; [done |].
  destruct (negb (EqualFold _ _)) eqn:Ef; [done |]. destruct (negb (bool_decide _)) eqn:Es; [done |]. intros _.
  apply negb_false_iff in Ew, Ef, Es. apply bool_decide_eq_true in Es. bool_to_prop. exists iat, exp. split_ands; try done; try lia.
  intros t Ht. rewrite Ht in Er. bool_to_prop. lia.
Qed.

(** Valid work is work a token may carry. *)
Lemma work_params_valid (host : gostring) spec (fp : gostring) iat exp : validate spec = None ->
  work_params_ok (mk_parsed host (ps_Difficulty spec) (algorithm spec) (ps_MemoryKiB spec) (ps_Iterations spec) fp iat exp) = true.
Proof using.
  clear. intros Hv. unfold work_params_ok. cbn [pt_Algorithm pt_Difficulty pt_MemoryKiB pt_Iterations].
  destruct (bool_decide (algorithm spec = AlgorithmSHA256)) eqn:Es.
  - unfold validate in Hv. rewrite Es in Hv. rewrite orb_true_r. destruct (_ || _) eqn:E; [done |]. bool_to_prop. rewrite andb_true_iff, !Z.leb_le. lia.
  - destruct (bool_decide (algorithm spec = AlgorithmArgon2ID)) eqn:Ea; [| unfold validate in Hv; by rewrite Es, Ea in Hv].
    apply bool_decide_eq_true in Ea. rewrite Ea. change (bool_decide (AlgorithmArgon2ID = []) || false) with false. cbn [negb].
    destruct spec as [alg d mem it salt]. assert (Halg : alg = AlgorithmArgon2ID) by (unfold algorithm in Ea; cbn in Ea; by destruct (bool_decide (alg = []))). subst alg.
    assert (Hvv : validate (mk_spec AlgorithmArgon2ID 0 mem it (zero_bytes 16)) = None) by exact Hv.
    cbn [ps_MemoryKiB ps_Iterations]. rewrite Hvv. by rewrite bool_decide_eq_false_2 by (by intros [? ?]).
Qed.

(** ** A minted token *)

(** [NewNumericDate]: whole seconds. *)
Definition numeric_date (t : Z) : Z := t / second * second.

Definition parsed_of (c : TokenClaims) : ParsedClaims :=
  mk_parsed (tc_Host c) (tc_Difficulty c) (tc_Algorithm c) (tc_MemoryKiB c) (tc_Iterations c) (tc_Subject c)
    (Some (numeric_date (tc_IssuedAt c))) (Some (numeric_date (tc_ExpiresAt c))).

Lemma numeric_date_bounds t : t - second < numeric_date t <= t.
Proof. unfold numeric_date. pose proof (Z.div_mod t second ltac:(done)). pose proof (Z.mod_pos_bound t second ltac:(done)). lia. Qed.
Lemma numeric_date_add t n : numeric_date (t + n * second) = numeric_date t + n * second.
Proof. unfold numeric_date. rewrite Z.div_add by done. lia. Qed.
Lemma numeric_date_mono a b : a <= b -> numeric_date a <= numeric_date b.
Proof. intros Hab. unfold numeric_date. apply Z.mul_le_mono_nonneg_r; [done |]. by apply Z.div_le_mono. Qed.

(** A lifetime of 1 second to 30 days stays in that range once both ends are
    whole seconds. *)
Lemma minted_lifetime now ttl : second <= ttl <= maxAcceptedTokenLifetime ->
  numeric_date now < numeric_date (now + ttl) <= numeric_date now + maxAcceptedTokenLifetime.
Proof.
  intros [Hlo Hhi]. split.
  - apply Z.lt_le_trans with (numeric_date (now + 1 * second)); [rewrite numeric_date_add; assert (0 < second) by done; lia | apply numeric_date_mono; lia].
  - change maxAcceptedTokenLifetime with (2592000 * second). rewrite <- numeric_date_add. apply numeric_date_mono. change (2592000 * second) with maxAcceptedTokenLifetime. lia.
Qed.
End VerifyProofs.

(** * Properties *)

(** Requests, reloads and key changes, one after another. *)
Inductive token_op :=
| OpVerify (rd : readings) (f1 f2 : KeyFiles) (q : query)
| OpReload (clk : clock) (f : KeyFiles)
| OpSetKeys (current : gostring) (previous : list managerKey).

Definition token_step `{Unicode, JWT} (tm : TokenManager) (op : token_op) : TokenManager :=
  match op with
  | OpVerify rd f1 f2 q => (verify rd f1 f2 q tm).2
  | OpReload clk f => (ReloadKeys clk f tm).2
  | OpSetKeys current previous => install_keys current previous tm
  end.

Lemma token_step_ok `{Unicode, JWT, !JWTLaws} asked (read : Z -> Prop) op tm : cache_ok asked read tm ->
  (forall rd f1 f2 q, op = OpVerify rd f1 f2 q -> asked q /\ readings_ok rd /\ forall t, reading_of rd t -> read t) ->
  (forall a b, asked a -> asked b -> key_of_query a = key_of_query b -> same_query a b) -> cache_ok asked read (token_step tm op).
Proof.
  intros Hok Hop Hcol. destruct op as [rd f1 f2 q | clk f | cur prev]; cbn [token_step].
  - destruct (Hop rd f1 f2 q eq_refl) as (? & ? & ?). by apply verify_ok.
  - apply (cache_ok_refreshed asked read tm); [| done]. unfold ReloadKeys. destruct (negb _); [by left |].
    pose proof (reloadKeysLocked_refreshed clk f tm) as Hr. by destruct (reloadKeysLocked clk f tm) as [[e |] tm'].
  - intros key e. unfold install_keys, cache_reset. cbn. by rewrite lookup_empty.
Qed.

(** The work a token may carry: up to 32 bits, or an admissible Argon2 cost. *)
Definition work_carried (c : ParsedClaims) : Prop :=
  ((pt_Algorithm c = [] \/ pt_Algorithm c = AlgorithmSHA256) /\ 0 <= pt_Difficulty c <= 32) \/
  (pt_Algorithm c = AlgorithmArgon2ID /\ validate (mk_spec AlgorithmArgon2ID 0 (pt_MemoryKiB c) (pt_Iterations c) (zero_bytes 16)) = None).

Lemma work_params_carried c : work_params_ok c = true -> work_carried c.
Proof.
  unfold work_params_ok, work_carried. destruct (_ || _) eqn:E.
  - intros Hd. left. apply orb_true_iff in E as [E | E]; apply bool_decide_eq_true in E; (split; [auto |]); bool_to_prop; lia.
  - destruct (bool_decide (pt_Algorithm c = AlgorithmArgon2ID)) eqn:Ea; [apply bool_decide_eq_true in Ea | done]. intros Hv%negb_true_iff%bool_decide_eq_false. right. split; [done |]. destruct (validate _) as [e |]; [| done]. by destruct Hv.
Qed.

(** C23: In every reachable manager, as long as no two of the questions asked
    share a cache key, an accepted token was verified by a key still in the
    set, at a reading of the clock taken by this call or an earlier one and
    less than the cache's validity ago, and carries claims that passed every
    check: this client and host, a floor and a lifetime of the target path,
    admissible work, a bounded lifetime not over, and, for a retired key, an
    issue before the retirement and an end within its horizon. *)
Theorem vouching_token_is_genuine `{Unicode, JWT, !JWTLaws} (asked : query -> Prop) ops tm0 rd f1 f2 q :
  tm_cache tm0 = ∅ ->
  (forall rd f1 f2 q, OpVerify rd f1 f2 q ∈ ops -> asked q /\ readings_ok rd) -> asked q -> readings_ok rd ->
  (forall a b, asked a -> asked b -> key_of_query a = key_of_query b -> same_query a b) ->
  let r := verify rd f1 f2 q (fold_left token_step ops tm0) in
  r.1 = Ok tt ->
  exists host k c t iat exp, ToLower host = ToLower (qy_host q) /\ k ∈ mg_keys (tm_keys r.2) /\
    ParseWithClaims (qy_token q) (public_key (mk_seed k)) t = Ok c /\
    (reading_of rd t \/ exists rd' f1' f2' q', OpVerify rd' f1' f2' q' ∈ ops /\ reading_of rd' t) /\ rd_now rd < t + cacheMaxValidity /\
    EqualFold (pt_Host c) host = true /\ pt_Subject c = Fingerprint (qy_ip q) (qy_ua q) /\
    (pt_Algorithm c <> AlgorithmArgon2ID -> qy_minBits q <= pt_Difficulty c) /\ work_carried c /\
    pt_IssuedAt c = Some iat /\ pt_ExpiresAt c = Some exp /\ iat < exp /\ dur_sub exp iat <= maxAcceptedTokenLifetime /\
    (forall retired, mk_retiredAt k = Some retired -> iat <= retired /\ exp <= retired + maxAcceptedTokenLifetime) /\
    rd_now rd < exp /\ (0 < qy_maxAge q -> rd_now rd < iat + qy_maxAge q).
Proof.
  intros H0e Hops Ha Hrd Hcol r Hr.
  set (read := fun t => reading_of rd t \/ exists rd' f1' f2' q', OpVerify rd' f1' f2' q' ∈ ops /\ reading_of rd' t).
  assert (Hok : forall l tm, cache_ok asked read tm -> (forall rd f1 f2 q, OpVerify rd f1 f2 q ∈ l -> OpVerify rd f1 f2 q ∈ ops) -> cache_ok asked read (fold_left token_step l tm)).
  { induction l as [| op l IH]; intros tm Htm Hin; cbn [fold_left]; [done |].
    apply IH; [apply token_step_ok; [done | | done]; intros rd' g1 g2 q' -> | intros rd' g1 g2 q' Hq; apply Hin; by right].
    assert (Hop : OpVerify rd' g1 g2 q' ∈ ops) by (apply Hin; by left). destruct (Hops _ _ _ _ Hop). split_ands; [done | done |].
    intros t Ht. right. by exists rd', g1, g2, q'. }
  destruct (verify_ok asked read rd f1 f2 q (fold_left token_step ops tm0) Ha Hrd) as [_ Hv]; [by left | | done |].
  { apply Hok; [| done]. intros key e. rewrite H0e. by rewrite lookup_empty. }
  destruct (Hv Hr) as (q' & t & c & (Htok & Hhost & Hip & Hua & Hbits & Hage) & Hread & [(k & Hk & Hp & Hc) Hb] & Hval & Hexp & Hmax).
  destruct (check_token_ok _ _ _ _ _ Hc) as (iat & exp & Hi & He & Hw & Hlt & Hlife & Hret & Hh & Hs).
  exists (qy_host q'), k, c, t, iat, exp. rewrite He, Hi in *. cbn in *. rewrite <- Htok, <- Hip, <- Hua, <- Hbits, <- Hage in *. split_ands; try done.
  by apply work_params_carried.
Qed.

(** A token minted for a client and host verifies for them until it
    expires, on any path whose floor and lifetime it meets. *)
Theorem minted_token_verifies `{Unicode, JWT, Signer} tm key rest now host hostv ip ua cid spec ttl minBits maxAge token rd f1 f2 :
  mg_keys (tm_keys tm) = mk_key key None :: rest -> rf_fileBacked (tm_refresh tm) = false ->
  (forall c tok t, signToken c = Some tok -> numeric_date (tc_NotBefore c) <= t < numeric_date (tc_ExpiresAt c) ->
     ParseWithClaims tok (public_key key) t = Ok (parsed_of c)) ->
  mintTokenWithSpec now host (Fingerprint ip ua) cid spec ttl = Ok token ->
  validate spec = None -> (algorithm spec = AlgorithmSHA256 -> minBits <= ps_Difficulty spec) ->
  EqualFold (ToLower host) hostv = true -> 0 <= now -> second <= ttl <= maxAcceptedTokenLifetime ->
  now <= rd_now rd -> rd_now rd < numeric_date (now + ttl) -> (0 < maxAge -> rd_now rd < numeric_date now + maxAge) ->
  now <= rd_once rd 1%nat < numeric_date (now + ttl) ->
  (VerifyToken rd f1 f2 token hostv ip ua minBits maxAge tm).1 = Ok tt.
Proof.
  intros Hkeys Hfile Hlaw Hmint Hvalid Hbits Hhost Hnow Httl Hrd Hrd2 Hmax Hparse. unfold mintTokenWithSpec in Hmint.
  destruct (signToken _) as [tok |] eqn:Esign; [| done]. injection Hmint as <-. unfold VerifyToken, refreshKeysBeforeTokenAccept. rewrite Hfile. cbn [negb].
  cbv zeta. destruct (cache_get _ _ _); [done |]. pose proof (minted_lifetime now ttl Httl) as [Hl1 Hl2]. pose proof (numeric_date_bounds now) as Hnd.
  unfold verifyTokenOnce, verificationKeys. rewrite Hkeys. cbn [List.filter mk_retiredAt past_horizon negb try_keys mk_seed].
  rewrite (Hlaw _ _ _ Esign) by (cbn; lia). unfold check_token, parsed_of. cbn [pt_IssuedAt pt_ExpiresAt tc_IssuedAt tc_ExpiresAt mk_retiredAt pt_Host tc_Host pt_Subject tc_Subject].
  assert (Hw : work_params_ok (parsed_of (mk_claims (ToLower host) cid (ps_Difficulty spec) (algorithm spec) (ps_MemoryKiB spec) (ps_Iterations spec) (Fingerprint ip ua) now now (now + ttl))) = true).
  { by apply work_params_valid. }
  unfold parsed_of in Hw. cbn in Hw. cbn [tc_Difficulty tc_Algorithm tc_MemoryKiB tc_Iterations]. rewrite Hw. cbn [negb].
  assert (Hmx : 0 <= maxAcceptedTokenLifetime < int64_max) by done.
  assert (Hsub : dur_sub (numeric_date (now + ttl)) (numeric_date now) <= maxAcceptedTokenLifetime) by (unfold dur_sub, int64_max, int64_min in *; lia).
  rewrite (proj2 (Z.leb_gt _ _)) by lia. rewrite (proj2 (Z.ltb_ge _ _)) by lia. cbn [orb]. rewrite Hhost. cbn [negb]. rewrite bool_decide_eq_true_2 by done. cbn [negb].
  unfold check_path. cbn [pt_Algorithm pt_Difficulty pt_ExpiresAt pt_IssuedAt default].
  assert (Hfloor : negb (bool_decide (algorithm spec = AlgorithmArgon2ID)) && (ps_Difficulty spec <? minBits) = false).
  { destruct (bool_decide (algorithm spec = AlgorithmArgon2ID)) eqn:Ea; [done |]. apply bool_decide_eq_false in Ea. cbn. apply Z.ltb_ge. apply Hbits.
    unfold validate in Hvalid. destruct (bool_decide (algorithm spec = AlgorithmSHA256)) eqn:Es; [by apply bool_decide_eq_true in Es |].
    by rewrite bool_decide_eq_false_2 in Hvalid. }
  rewrite Hfloor. cbv zeta. destruct (0 <? maxAge) eqn:Em; [| done]. apply Z.ltb_lt in Em. specialize (Hmax Em).
  unfold id. destruct (numeric_date now + maxAge <? numeric_date (now + ttl)) eqn:Eb; rewrite (proj2 (Z.leb_gt _ _)); try done; lia.
Qed.

(** While the key files cannot be read, a file-backed manager whose
    refresh is due accepts no token. *)
Theorem key_refresh_fails_closed `{Unicode, JWT} rd f1 f2 token host ip ua minBits maxAge tm :
  let r := tm_refresh tm in
  let out := VerifyToken rd f1 f2 token host ip ua minBits maxAge tm in
  rf_fileBacked r = true ->
  (UnixNano (rd_gate rd 0%nat) < rf_routineUntil r -> forall e, rf_routineFailed r = Some e -> out = (Err (TokenKeyFault e), tm)) /\
  (rf_routineUntil r <= UnixNano (rd_gate rd 0%nat) -> throttled (rf_lastRefresh r) (rd_gate rd 1%nat) = false ->
     (forall e, loadKeySetSnapshot f1 (rd_gate rd 2%nat) = Err e ->
        out.1 = Err (TokenKeyFault e) /\ tm_keys out.2 = tm_keys tm /\ rf_routineFailed (tm_refresh out.2) = Some e) /\
     (forall current previous, loadKeySetSnapshot f1 (rd_gate rd 2%nat) = Ok (current, previous) ->
        let tm1 := (refreshKeysBeforeTokenAccept (rd_gate rd) f1 tm).2 in
        (keySetMatches current previous (tm_keys tm) = true -> tm_keys tm1 = tm_keys tm /\ tm_cache tm1 = tm_cache tm) /\
        (keySetMatches current previous (tm_keys tm) = false -> mg_keys (tm_keys tm1) = mk_key current None :: previous /\ tm_cache tm1 = ∅))).
Proof.
  intros r out Hfile. subst r out. unfold VerifyToken, refreshKeysBeforeTokenAccept. rewrite Hfile. cbn [negb]. split.
  - intros Hu e Hf. rewrite (proj2 (Z.ltb_lt _ _)) by done. by rewrite Hf.
  - intros Hu Ht. rewrite (proj2 (Z.ltb_ge _ _)) by done. unfold refreshKeys. rewrite Hfile. cbn [negb andb]. cbv zeta. rewrite Ht. unfold reloadKeysLocked. split.
    + intros e He. rewrite He. done.
    + intros current previous Hl. rewrite Hl. cbn [tm_keys with_refresh tm_refresh]. by destruct (keySetMatches current previous (tm_keys tm)).
Qed.

(** ** A concrete library *)
Module Ex.
#[export] Existing Instance ascii_only.
#[export] Instance TokenClaims_eq_dec : EqDecision TokenClaims.
Proof. solve_decision. Defined.

Definition now : Z := 1700000000 * second + 5.
Definition host : gostring := lit "example.org".
Definition ip : gostring := lit "192.0.2.7".
Definition ua : gostring := lit "ua".
Definition claims : TokenClaims := mk_claims host (lit "cid") 16 AlgorithmSHA256 0 0 (Fingerprint ip ua) now now (now + hour).
Definition expires : Z := numeric_date (now + hour).

(** One token, signed with one key. *)
#[export] Instance signer : Signer := { signToken := fun c => if bool_decide (c = claims) then Some (lit "tok") else None }.
#[export] Instance jwt : JWT := {
  public_key := fun s => s;
  ParseWithClaims := fun tok key t =>
    if bool_decide (tok = lit "tok") && bool_decide (key = lit "seed") then if t <? expires then Ok (parsed_of claims) else Err JwtExpired else Err JwtInvalid
}.
#[export] Instance jwt_laws : JWTLaws.
Proof.
  refine {| parse_live := _ |}. intros tok key t c. unfold ParseWithClaims, jwt. destruct (_ && _); [| done]. destruct (t <? expires) eqn:E; [| done].
  intros [= <-]. exists expires. split; [done |]. by apply Z.ltb_lt.
Defined.

Definition tm : TokenManager := mk_tm (newManagerWithRetiredKeys (lit "seed") []) ∅ no_files.
Definition rd : readings := mk_readings (fun _ => now) (now + second) (fun _ => now + second) (fun _ => now) (fun _ => now + second).
Definition files : KeyFiles := mk_files true (Some (lit "seed")) (Some []).
Definition q : query := mk_query (lit "tok") (lit "EXAMPLE.org") ip ua 16 (30 * minute).
Definition broken : KeyFiles := mk_files true None (Some []).
Definition backed : TokenManager := mk_tm (tm_keys tm) ∅ (mk_refresh true (Some 0) None None None 0 None).
End Ex.

Section Witnesses.
Import Ex.
Theorem minted_token_verifies_witness :
  (VerifyToken rd files files (lit "tok") (lit "EXAMPLE.org") ip ua 16 (30 * minute) tm).1 = Ok tt.
Proof.
  refine (minted_token_verifies tm (lit "seed") [] now host (lit "EXAMPLE.org") ip ua (lit "cid") (mk_spec AlgorithmSHA256 16 0 0 []) hour 16 (30 * minute)
    (lit "tok") rd files files eq_refl eq_refl _ _ eq_refl _ eq_refl _ _ _ _ _ _).
  - intros c tok t. unfold signToken, signer. case_bool_decide as E; [| intros Hn; discriminate Hn]. intros Hs [_ Hlt]. injection Hs as <-. subst c.
    unfold ParseWithClaims, jwt. change (bool_decide (lit "tok" = lit "tok") && bool_decide (public_key (lit "seed") = lit "seed")) with true. cbv iota.
    assert (Hx : (t <? expires) = true) by (apply Z.ltb_lt; exact Hlt). rewrite Hx. reflexivity.
  - unfold mintTokenWithSpec, signToken, signer. rewrite bool_decide_eq_true_2 by reflexivity. reflexivity.
  - intros _. cbn. lia.
  - vm_compute. discriminate.
  - split; vm_compute; discriminate.
  - vm_compute. discriminate.
  - vm_compute. reflexivity.
  - intros _. vm_compute. reflexivity.
  - split; vm_compute; [discriminate | reflexivity].
Defined.

(** The second answer comes from the cache, the first call's. *)
Definition later_rd : readings := mk_readings (fun _ => now) (now + 60 * second) (fun _ => now + 60 * second) (fun _ => now) (fun _ => now + 60 * second).
Theorem vouching_token_is_genuine_witness :
  exists k c t, k ∈ mg_keys (tm_keys tm) /\ ParseWithClaims (lit "tok") (public_key (mk_seed k)) t = Ok c /\ pt_Subject c = Fingerprint ip ua /\ work_carried c /\
    now + 60 * second < t + cacheMaxValidity /\ (reading_of later_rd t \/ reading_of rd t).
Proof.
  assert (Hrd : readings_ok rd) by (split; [vm_compute; split; discriminate | split; intros i; vm_compute; discriminate]).
  assert (Hlater : readings_ok later_rd) by (split; [vm_compute; split; discriminate | split; intros i; vm_compute; discriminate]).
  assert (Ht : (verify later_rd files files q (fold_left token_step [OpVerify rd files files q] tm)).1 = Ok tt) by (vm_compute; reflexivity).
  destruct (vouching_token_is_genuine (fun q' => q' = q) [OpVerify rd files files q] tm later_rd files files q eq_refl)
    as (h & k & c & t & iat & exp & _ & Hk & Hp & Hread & Hval & _ & Hs & _ & Hw & _).
  - intros r f1 f2 q' [= -> -> -> ->]%list_elem_of_singleton. split; [reflexivity | exact Hrd].
  - reflexivity.
  - exact Hlater.
  - intros a b -> -> _. repeat split.
  - exact Ht.
  - exists k, c, t. split; [vm_compute in Hk |- *; exact Hk | split; [exact Hp | split; [exact Hs | split; [exact Hw | split; [exact Hval |]]]]].
    destruct Hread as [Hread | (rd' & g1 & g2 & q' & Hin & Hread)]; [left; exact Hread |].
    apply list_elem_of_singleton in Hin. injection Hin as -> _ _ _. right. exact Hread.
Defined.

Theorem key_refresh_fails_closed_witness :
  (VerifyToken (mk_readings (fun _ => now) now (fun _ => now) (fun _ => now) (fun _ => now)) broken broken (lit "tok") host ip ua 0 0 backed).1 =
  Err (TokenKeyFault CurrentUnreadable).
Proof.
  destruct (key_refresh_fails_closed (mk_readings (fun _ => now) now (fun _ => now) (fun _ => now) (fun _ => now)) broken broken (lit "tok") host ip ua 0 0 backed eq_refl) as [_ Hopen].
  refine (proj1 (proj1 (Hopen _ _) CurrentUnreadable eq_refl)); [vm_compute; discriminate | vm_compute; reflexivity].
Defined.
End Witnesses.
