(* ===== verification/Rotation.v ===== *)
(** * Key files and their rotation (core/pow/key.go, rotation_lock_linux.go)

    Creating, archiving and replacing the signing key as programs of system
    calls, run by any number of processes that share the files.  The PEM and
    PKCS#8 codecs of the standard library are the interface [KeyFormat]; a key
    is its seed. *)

From S2P Require Export Token.
From S2P Require Export Files.

Open Scope Z_scope.

Class KeyFormat := { parseKey : gostring -> option gostring; MarshalKey : gostring -> gostring }.
Class KeyFormatLaws `{KeyFormat} := { parse_marshal seed : Z.of_nat (length seed) = 32 -> parseKey (MarshalKey seed) = Some seed }.

Inductive key_error := KNoArchiveDir | KLock | KRead (e : fs_error) | KParse | KMkdir | KCollision | KArchive | KRandom | KReplace.

Section Keys.
Context `{KeyFormat, Unicode}.

Definition loadKey (p : path) : fprog (outcome key_error gostring) :=
  Do (ReadFile p) (fun r =>
  Return (match r with
        | Err e => Err (KRead e)
        | Ok raw => match parseKey raw with Some key => Ok key | None => Err KParse end
        end)).

(** The directory's fsync is best effort: its answer is dropped. *)
Definition syncDir (dir : gostring) : fprog (outcome key_error unit) :=
  check! OpenDir dir else Return (Err KArchive) in
  sys! SyncDir dir in
  sys! CloseDir dir in
  Return (Ok tt).

Definition archiveKey (p : path) (contents : gostring) : fprog (outcome key_error unit) :=
  let fail := sys! Close p in sys! Remove p in Return (Err KArchive) in
  Do (OpenExcl p) (fun opened =>
  match opened with
  | Err ErrExist =>
    Do (ReadFile p) (fun existing =>
    Return (match existing with
          | Err _ => Err KArchive
          | Ok existing => if decide (existing = contents) then Ok tt else Err KCollision
          end))
  | Err _ => Return (Err KArchive)
  | Ok _ =>
    check! Write p contents else fail in
    check! Sync p else fail in
    check! Close p else fail in
    fbind (syncDir (p_dir p)) (fun r => sys! Close p in Return r)
  end).

Definition temp_prefix (p : path) : gostring := lit "." ++ p_base p ++ lit ".rotate-".

Definition atomicReplaceKey (p : path) (contents : gostring) : fprog (outcome key_error unit) :=
  check! MkdirAll (p_dir p) else Return (Err KReplace) in
  Do (CreateTemp (p_dir p) (temp_prefix p)) (fun created =>
  match created with
  | Err _ => Return (Err KReplace)
  | Ok tmp =>
    let remove r := sys! Remove tmp in Return r in
    let close_remove := sys! Close tmp in remove (Err KReplace) in
    check! Chmod tmp else close_remove in
    check! Write tmp contents else close_remove in
    check! Sync tmp else close_remove in
    check! Close tmp else remove (Err KReplace) in
    check! Rename tmp p else remove (Err KReplace) in
    fbind (syncDir (p_dir p)) remove
  end).

(** [newKeyPEM] and the publication of its key. *)
Definition replace_with_new (p : path) : fprog (outcome key_error gostring) :=
  Do (RandRead 32) (fun random =>
  match random with
  | Err _ => Return (Err KRandom)
  | Ok seed => fbind (atomicReplaceKey p (MarshalKey seed)) (fun r => Return (match r with Ok _ => Ok seed | Err e => Err e end))
  end).

(** [lockRotation] around a body, the unlock deferred. *)
Definition locked {A} (body : fprog (outcome key_error A)) : fprog (outcome key_error A) :=
  check! Flock else Return (Err KLock) in
  fbind body (fun r => sys! Unlock in Return r).

Definition generate_locked (p : path) : fprog (outcome key_error gostring) :=
  fbind (loadKey p) (fun loaded =>
  match loaded with
  | Ok key => Return (Ok key)
  | Err (KRead ErrNotExist) => replace_with_new p
  | Err e => Return (Err e)
  end).

Definition generateKey (p : path) : fprog (outcome key_error gostring) :=
  check! MkdirAll (p_dir p) else Return (Err KMkdir) in
  locked (generate_locked p).

Definition LoadOrCreateKey (p : path) : fprog (outcome key_error gostring) :=
  fbind (loadKey p) (fun loaded =>
  match loaded with
  | Err (KRead ErrNotExist) => generateKey p
  | r => Return r
  end).

(** [signToken]: the key a token is signed with is read under the lock. *)
Definition signing_key (p : path) : fprog (outcome key_error gostring) := locked (loadKey p).

Definition archive_path (prevDir : gostring) (nowUnix : Z) (current : gostring) : path :=
  mk_path prevDir (FormatInt nowUnix ++ lit "-" ++ hex_encode (take 8 (Sum256 current)) ++ lit ".key").

Definition rotate_locked (keyPath : path) (prevDir : gostring) (nowUnix : Z) : fprog (outcome key_error gostring) :=
  Do (ReadFile keyPath) (fun read =>
  match read with
  | Err e => Return (Err (KRead e))
  | Ok current =>
    match parseKey current with
    | None => Return (Err KParse)
    | Some _ =>
      check! MkdirAll prevDir else Return (Err KMkdir) in
      fbind (archiveKey (archive_path prevDir nowUnix current) current) (fun archived =>
      match archived with
      | Err e => Return (Err e)
      | Ok _ => replace_with_new keyPath
      end)
    end
  end).

Definition RotateKey (keyPath : path) (prevDir : gostring) (nowUnix : Z) : fprog (outcome key_error gostring) :=
  if decide (TrimSpace prevDir = []) then Return (Err KNoArchiveDir) else locked (rotate_locked keyPath prevDir nowUnix).
End Keys.

(** * Theory *)

(** ** Critical sections *)
Section Critical.
Context {A : Type} (F : faults) (Inv : fs -> Prop) (i : nat).

(** A program that process [i] runs while it holds the lock. *)
Fixpoint crit {B} (p : fprog B) (s : fs) (post : B -> fs -> Prop) : Prop :=
  match p with
  | Return b => post b s
  | Do c k => forall x s', does i c s x s' -> allowed F c x -> Inv s' /\ fs_lock s' = Some i /\ crit (k x) s' post
  end.

Lemma crit_mono {B} (p : fprog B) s (post post' : B -> fs -> Prop) : (forall b s', post b s' -> post' b s') -> crit p s post -> crit p s post'.
Proof. intros Hp. revert s. induction p as [b | X c k IH]; intros s; cbn; [auto |]. intros Hc x s' Hd Ha. destruct (Hc x s' Hd Ha) as (? & ? & ?). auto. Qed.

Lemma crit_bind {B C} (p : fprog B) (f : B -> fprog C) s post : crit p s (fun b s' => crit (f b) s' post) -> crit (fbind p f) s post.
Proof. revert s. induction p as [b | X c k IH]; intros s; cbn; [auto |]. intros Hc x s' Hd Ha. destruct (Hc x s' Hd Ha) as (? & ? & ?). auto. Qed.

(** The files of whoever holds the lock are left alone; nothing is unpublished. *)
Definition lock_rely (j : nat) (s s' : fs) : Prop :=
  (fs_lock s = Some j -> s' = s) /\ (fs_lock s <> Some j -> fs_lock s' <> Some j) /\ (forall e, e ∈ fs_log s -> e ∈ fs_log s').

Lemma does_log {X} (c : syscall X) s x s' : does i c s x s' -> forall e, e ∈ fs_log s -> e ∈ fs_log s'.
Proof.
  intros Hd e He. destruct c; cbn in Hd; try (by subst);
    repeat (match goal with H : match ?r with _ => _ end |- _ => destruct r | H : _ /\ _ |- _ => destruct H | H : exists _, _ |- _ => destruct H end || subst);
    cbn; rewrite ?elem_of_cons; auto.
  - by destruct x.
  - by case_decide.
Qed.

Lemma crit_safe {B} (Q : A -> fs -> Prop) (p : fprog B) (f : B -> fprog A) s : Inv s -> fs_lock s = Some i ->
  crit p s (fun b s' => Inv s' -> fs_lock s' = Some i -> safe F Inv lock_rely Q i (f b) s') -> safe F Inv lock_rely Q i (fbind p f) s.
Proof.
  revert s. induction p as [b | X c k IH]; intros s Hi Hl Hc; [by apply Hc |]. cbn [fbind safe]. intros s1 [Hr _] _. rewrite (Hr Hl).
  intros x s2 Hd Ha. destruct (Hc x s2 Hd Ha) as (Hi2 & Hl2 & Hk). split_ands; [done | | by apply IH].
  intros j Hj. unfold lock_rely. split_ands; [congruence | congruence | by apply (does_log c s x)].
Qed.
End Critical.

(** ** What a power loss may leave at one path *)
Definition possible (s : fs) (p : path) (e : option file) : Prop := e ∈ fs_files s !! p :: stale s p.

(** Whatever is left there is a synced file of these contents. *)
Definition holds (s : fs) (p : path) (raw : gostring) : Prop :=
  forall e, possible s p e -> exists f, e = Some f /\ fl_synced f = true /\ fl_data f = raw.

(** The state with nothing at [t]. *)
Definition off (t : path) (s : fs) : fs := mk_fs (delete t (fs_files s)) (delete t (fs_stale s)) (fs_lock s) (fs_log s) (fs_seen s).

Lemma possible_ne s s' p : fs_files s' !! p = fs_files s !! p -> fs_stale s' !! p = fs_stale s !! p -> forall e, possible s' p e <-> possible s p e.
Proof. intros Hf Hs e. unfold possible, stale. by rewrite Hf, Hs. Qed.
Lemma holds_ne s s' p raw : fs_files s' !! p = fs_files s !! p -> fs_stale s' !! p = fs_stale s !! p -> holds s p raw -> holds s' p raw.
Proof. intros Hf Hs Hh e. rewrite (possible_ne s s' p Hf Hs e). apply Hh. Qed.

Lemma possible_sync dir s p e : possible (sync_entries dir s) p e -> possible s p e.
Proof.
  unfold possible, stale, sync_entries. cbn [fs_files fs_stale]. rewrite map_lookup_filter. destruct (fs_stale s !! p); cbn; [| done].
  case_guard; cbn; [done |]. intros [-> | []%not_elem_of_nil]%elem_of_cons. by left.
Qed.
Lemma stale_synced s p : stale (sync_entries (p_dir p) s) p = [].
Proof.
  unfold stale, sync_entries. cbn [fs_stale]. rewrite map_lookup_filter. destruct (fs_stale s !! p); cbn; [| done]. case_guard as Hg; cbn; [| done]. cbn in Hg. done.
Qed.
Lemma stale_kept_empty dir s p : stale s p = [] -> stale (sync_entries dir s) p = [].
Proof.
  unfold stale, sync_entries. cbn [fs_stale]. rewrite map_lookup_filter. destruct (fs_stale s !! p) as [l |]; cbn; [| done]. intros ->. by case_guard.
Qed.

Lemma holds_off t s p raw : holds (off t s) p raw -> p <> t /\ holds s p raw.
Proof.
  intros Hh. assert (Hne : p <> t).
  { intros ->. destruct (Hh None) as (f & Hf & _); [| done]. unfold possible, off. cbn. rewrite lookup_delete_eq. by left. }
  split; [done |]. apply (holds_ne (off t s)); [| | exact Hh]; unfold off; cbn [fs_files fs_stale]; by rewrite lookup_delete_ne.
Qed.
Lemma holds_off_2 t s p raw : p <> t -> holds s p raw -> holds (off t s) p raw.
Proof. intros Hne. apply holds_ne; unfold off; cbn [fs_files fs_stale]; by rewrite lookup_delete_ne. Qed.
Lemma holds_here s p f : fs_files s !! p = Some f -> fl_synced f = true -> stale s p = [] -> holds s p (fl_data f).
Proof. intros Hf Hs Hst e. unfold possible. rewrite Hf, Hst. intros [-> | []%not_elem_of_nil]%elem_of_cons. by exists f. Qed.
Lemma holds_current s p raw : holds s p raw -> exists f, fs_files s !! p = Some f /\ fl_synced f = true /\ fl_data f = raw.
Proof. intros Hh. destruct (Hh (fs_files s !! p)) as (f & Hf & ? & ?); [by left | by exists f]. Qed.
Lemma holds_sync dir s p raw : holds s p raw -> holds (sync_entries dir s) p raw.
Proof. intros Hh e He. apply Hh. by eapply possible_sync. Qed.

Lemma off_write t g s : off t (set_files (<[t := g]> (fs_files s)) s) = off t s.
Proof. unfold off, set_files. cbn. by rewrite delete_insert_eq. Qed.
Lemma off_entry t e s : off t (set_entry t e s) = off t s.
Proof. unfold off, set_entry. cbn. rewrite delete_insert_eq. destruct e; [by rewrite delete_insert_eq | by rewrite delete_delete_eq]. Qed.
Lemma off_sync t dir s : off t (sync_entries dir s) = sync_entries dir (off t s).
Proof. unfold off, sync_entries. cbn. by rewrite map_filter_delete. Qed.

(** ** The invariant of the key files *)
Section Invariant.
Context `{KeyFormat, !KeyFormatLaws, Unicode}.
Variables (keyPath : path) (prevDir : gostring) (F : faults).
Hypothesis archives_apart : forall now raw, archive_path prevDir now raw <> keyPath.

(** Nobody is killed alone, and the calls on directories do not fail. *)
Definition solid : Prop := ft_kill F = false /\ ft_dir F = false.

Definition archived (raw : gostring) (s : fs) : Prop :=
  exists now f, fs_files s !! archive_path prevDir now raw = Some f /\ fl_data f = raw.
Definition published (raw : gostring) (s : fs) : Prop := (keyPath, raw) ∈ fs_log s.
Definition current (raw : gostring) (s : fs) : Prop := exists f, fs_files s !! keyPath = Some f /\ fl_data f = raw.

(** The key file held this when some process took the lock. *)
Definition in_use (raw : gostring) (s : fs) : Prop := exists m f, m ∈ fs_seen s /\ m !! keyPath = Some f /\ fl_data f = raw.
Definition archive_holds (raw : gostring) (s : fs) : Prop := exists now, holds s (archive_path prevDir now raw) raw.

(** The key file is a whole published key, whatever a power loss leaves; and
    without power losses it stays once it is there. *)
Definition key_ok (s : fs) : Prop :=
  (forall f, possible s keyPath (Some f) -> fl_synced f = true /\ is_Some (parseKey (fl_data f)) /\ published (fl_data f) s) /\
  (ft_power F = false -> forall raw, published raw s -> is_Some (fs_files s !! keyPath)).

Definition kept (s : fs) : Prop := ft_power F = false -> forall raw, published raw s -> current raw s \/ archived raw s.
Definition secured (s : fs) : Prop := solid -> forall raw, in_use raw s -> holds s keyPath raw \/ archive_holds raw s.
Definition base (s : fs) : Prop := kept s /\ secured s.
Definition all_archived (s : fs) : Prop :=
  (ft_power F = false -> forall raw, published raw s -> archived raw s) /\ (solid -> forall raw, in_use raw s -> archive_holds raw s).
Definition base_current (raw : gostring) (s : fs) : Prop := base s /\ current raw s.

(** What whoever takes the lock finds: the key file's entry is on disk, and an
    archive of the contents its name says is too. *)
Definition settled (s : fs) : Prop := solid ->
  stale s keyPath = [] /\
  forall now raw f, fs_files s !! archive_path prevDir now raw = Some f -> fl_data f = raw -> holds s (archive_path prevDir now raw) raw.

Definition keys_inv (s : fs) : Prop := key_ok s /\ base s /\ (fs_lock s = None -> settled s).

(** ** Facts about a state that may ignore one file *)
Class Keeps (K : fs -> Prop) : Prop := {
  keeps_off t s : t <> keyPath -> K (off t s) -> K s;
  keeps_absent t s : t <> keyPath -> fs_files s !! t = None -> K s -> K (off t s);
  keeps_base s : K s -> base s;
  keeps_sync dir s : K s -> K (sync_entries dir s)
}.

Lemma current_off t s raw : t <> keyPath -> current raw (off t s) <-> current raw s.
Proof. intros Ht. unfold current, off. cbn [fs_files]. by rewrite lookup_delete_ne by done. Qed.
Lemma archived_off t s raw : archived raw (off t s) -> archived raw s.
Proof. intros (now & f & Hf & Hd). exists now, f. split; [| done]. unfold off in Hf. cbn in Hf. by apply lookup_delete_Some in Hf as [_ Hf]. Qed.
Lemma archive_holds_off t s raw : archive_holds raw (off t s) -> archive_holds raw s.
Proof. intros [now Hh]. exists now. by apply holds_off in Hh as [_ Hh]. Qed.
Lemma archive_holds_sync dir s raw : archive_holds raw s -> archive_holds raw (sync_entries dir s).
Proof. intros [now Hh]. exists now. by apply holds_sync. Qed.

Lemma holds_absent t s p raw : fs_files s !! t = None -> holds s p raw -> holds (off t s) p raw.
Proof. intros Hn Hh. apply holds_off_2; [| done]. intros ->. destruct (holds_current _ _ _ Hh) as (f & Hf & _). congruence. Qed.
Lemma archived_absent t s raw : fs_files s !! t = None -> archived raw s -> archived raw (off t s).
Proof. intros Hn (now & f & Hf & Hd). exists now, f. split; [| done]. unfold off. cbn. rewrite lookup_delete_ne; [done |]. intros ->. congruence. Qed.
Lemma archive_holds_absent t s raw : fs_files s !! t = None -> archive_holds raw s -> archive_holds raw (off t s).
Proof. intros Hn [now Hh]. exists now. by apply holds_absent. Qed.

Lemma base_absent t s : t <> keyPath -> fs_files s !! t = None -> base s -> base (off t s).
Proof.
  intros Ht Hn [Hk Hs]. split.
  - intros Hp raw Hr. destruct (Hk Hp raw Hr) as [Hc | Ha]; [left; by apply (current_off t) | right; by apply archived_absent].
  - intros Hso raw Hr. destruct (Hs Hso raw Hr) as [Hh | Ha]; [left; by apply holds_absent | right; by apply archive_holds_absent].
Qed.
Lemma base_off t s : t <> keyPath -> base (off t s) -> base s.
Proof.
  intros Ht [Hk Hs]. split.
  - intros Hp raw Hr. destruct (Hk Hp raw Hr) as [Hc | Ha]; [left; by apply (current_off t) | right; by eapply archived_off].
  - intros Hso raw Hr. destruct (Hs Hso raw Hr) as [Hh | Ha]; [left; by apply holds_off in Hh as [_ Hh] | right; by eapply archive_holds_off].
Qed.
#[local] Instance base_keeps : Keeps base.
Proof.
  split; [apply base_off | apply base_absent | done |]. intros dir s [Hk Hs]. split; [done |].
  intros Hso raw Hr. destruct (Hs Hso raw Hr) as [Hh | Ha]; [left; by apply holds_sync | right; by apply archive_holds_sync].
Qed.
#[local] Instance base_current_keeps raw : Keeps (base_current raw).
Proof.
  split.
  - intros t s Ht [Hb Hc]. split; [by eapply base_off | by apply (current_off t)].
  - intros t s Ht Hn [Hb Hc]. split; [by apply base_absent | by apply (current_off t)].
  - by intros s [? _].
  - intros dir s [Hb Hc]. split; [by apply (keeps_sync (K := base)) | done].
Qed.
#[local] Instance all_archived_keeps : Keeps all_archived.
Proof.
  split.
  - intros t s Ht [Ha Hh]. split; [intros; by eapply archived_off, Ha | intros; by eapply archive_holds_off, Hh].
  - intros t s Ht Hn [Ha Hh]. split; [intros; by apply archived_absent, Ha | intros; by apply archive_holds_absent, Hh].
  - intros s [Ha Hh]. split; [intros ? ? ?; right; by apply Ha | intros ? ? ?; right; by apply Hh].
  - intros dir s [Ha Hh]. split; [done | intros; by apply archive_holds_sync, Hh].
Qed.

Lemma key_ok_frame s s' : fs_files s' !! keyPath = fs_files s !! keyPath -> (forall e, possible s' keyPath e -> possible s keyPath e) ->
  fs_log s' = fs_log s -> key_ok s -> key_ok s'.
Proof. intros Hf Hp Hl [Hk Hx]. unfold key_ok, published in *. rewrite Hl, Hf. auto. Qed.

Lemma key_ok_off t s : t <> keyPath -> key_ok (off t s) <-> key_ok s.
Proof.
  intros Ht. assert (Hf : fs_files (off t s) !! keyPath = fs_files s !! keyPath) by (unfold off; cbn; by rewrite lookup_delete_ne).
  assert (Hs : fs_stale (off t s) !! keyPath = fs_stale s !! keyPath) by (unfold off; cbn; by rewrite lookup_delete_ne).
  split; apply key_ok_frame; try done; intros e; by apply (possible_ne s (off t s)).
Qed.
Lemma key_ok_same_off t s s' : t <> keyPath -> off t s' = off t s -> key_ok s -> key_ok s'.
Proof. intros Ht Ho Hk. apply (key_ok_off t); [done |]. rewrite Ho. by apply key_ok_off. Qed.
Lemma key_ok_sync dir s : key_ok s -> key_ok (sync_entries dir s).
Proof. apply key_ok_frame; [done | apply possible_sync | done]. Qed.

(** Settled but for the file [t]; and settled again once it is gone or durable. *)
Lemma settled_off t s : t <> keyPath -> settled s -> settled (off t s).
Proof.
  intros Ht Hs Hso. destruct (Hs Hso) as [Hk Ha]. split; [unfold stale, off in *; cbn; by rewrite lookup_delete_ne |].
  intros now raw f Hf Hd. assert (Hne : archive_path prevDir now raw <> t) by (intros E; unfold off in Hf; cbn in Hf; rewrite E, lookup_delete_eq in Hf; done).
  apply holds_off_2; [done |]. unfold off in Hf. cbn in Hf. rewrite lookup_delete_ne in Hf by done. by eapply Ha.
Qed.
Lemma settled_back t s : t <> keyPath -> settled (off t s) ->
  (solid -> forall f now raw, t = archive_path prevDir now raw -> fs_files s !! t = Some f -> fl_data f = raw -> holds s t raw) -> settled s.
Proof.
  intros Ht Hs Htt Hso. destruct (Hs Hso) as [Hk Ha]. split; [unfold stale, off in *; cbn in Hk; by rewrite lookup_delete_ne in Hk |].
  intros now raw f Hf Hd. destruct (decide (archive_path prevDir now raw = t)) as [E | Hne].
  - rewrite E in *. by eapply Htt.
  - apply (holds_off t s). eapply Ha; [| exact Hd]. unfold off. cbn. by rewrite lookup_delete_ne.
Qed.
Lemma settled_gone t s : t <> keyPath -> settled (off t s) -> (solid -> fs_files s !! t = None) -> settled s.
Proof. intros Ht Hs Hn. apply (settled_back t); [done | done |]. intros Hso f now raw _ Hf. rewrite (Hn Hso) in Hf. done. Qed.
Lemma settled_sync dir s : settled s -> settled (sync_entries dir s).
Proof.
  intros Hs Hso. destruct (Hs Hso) as [Hk Ha]. split; [by apply stale_kept_empty |]. intros now raw f Hf Hd. by eapply holds_sync, Ha.
Qed.

(** What [t] holds does not matter: it is being written. *)
Definition inv_off (K : fs -> Prop) (t : path) (s : fs) : Prop := key_ok s /\ t <> keyPath /\ K (off t s) /\ settled (off t s).

Lemma inv_off_same K t s s' : off t s' = off t s -> inv_off K t s -> inv_off K t s'.
Proof. intros Ho (Hk & Ht & HK & Hs). unfold inv_off. rewrite Ho. split; [by eapply key_ok_same_off | done]. Qed.
Lemma inv_off_fresh K `{!Keeps K} t s : key_ok s -> K s -> settled s -> t <> keyPath -> fs_files s !! t = None -> inv_off K t s.
Proof. intros Hk HK Hs Ht Hn. exact (conj Hk (conj Ht (conj (keeps_absent t s Ht Hn HK) (settled_off t s Ht Hs)))). Qed.

(** ** Working on one file under the lock *)
Definition scratch (K : fs -> Prop) (i : nat) (t : path) (s : fs) : Prop := fs_lock s = Some i /\ inv_off K t s.

Definition on_file {X} (t : path) (c : syscall X) : Prop :=
  match c with
  | Write p _ | Sync p | Close p | Chmod p | Remove p => p = t
  | OpenDir _ | SyncDir _ | CloseDir _ | MkdirAll _ => True
  | _ => False
  end.

Lemma scratch_call K `{!Keeps K} {X} i t (c : syscall X) s x s' : on_file t c -> scratch K i t s -> does i c s x s' -> scratch K i t s'.
Proof.
  intros Hc [Hl Hi] Hd. destruct c; cbn in Hc; try done; subst; cbn in Hd; try (by subst).
  - destruct Hd as (f & _ & part & _ & ->). split; [done |]. eapply inv_off_same; [apply off_write | done].
  - destruct Hd as (f & _ & ->). destruct x; [| by split]. split; [done |]. eapply inv_off_same; [apply off_write | done].
  - destruct x; subst; [| by split]. split; [done |]. eapply inv_off_same; [apply off_entry | done].
  - destruct x; subst; [| by split]. split; [done |]. destruct Hi as (Hk & Ht & HK & Hs). unfold inv_off. rewrite off_sync.
    exact (conj (key_ok_sync dir s Hk) (conj Ht (conj (keeps_sync dir _ HK) (settled_sync dir _ Hs)))).
Qed.

Lemma scratch_inv K `{!Keeps K} i t s : scratch K i t s -> keys_inv s /\ fs_lock s = Some i /\ K s.
Proof.
  intros [Hl (Hk & Ht & HK & _)]. pose proof (keeps_off t s Ht HK) as HK'. split; [| by split].
  split; [done | split; [by apply keeps_base | by rewrite Hl]].
Qed.

Lemma crit_on_file K `{!Keeps K} {B X} i t (c : syscall X) (k : X -> fprog B) s post : on_file t c -> scratch K i t s ->
  (forall x s', does i c s x s' -> allowed F c x -> scratch K i t s' -> crit F keys_inv i (k x) s' post) -> crit F keys_inv i (Do c k) s post.
Proof.
  intros Hc Hs Hk x s' Hd Ha. pose proof (scratch_call K i t c s x s' Hc Hs Hd) as Hs'.
  destruct (scratch_inv K i t s' Hs') as (? & ? & _). auto.
Qed.

(** Giving up on the file. *)
Definition done_with (K : fs -> Prop) (i : nat) (s : fs) : Prop := keys_inv s /\ fs_lock s = Some i /\ K s /\ settled s.

Lemma crit_discard K `{!Keeps K} {B} i t (b : B) s post : scratch K i t s -> (forall s', done_with K i s' -> post b s') ->
  crit F keys_inv i (sys! Remove t in Return b) s post.
Proof.
  intros Hs Hp. apply (crit_on_file K i t); [done | done |]. intros x s' Hd Ha Hs'. destruct (scratch_inv K i t s' Hs') as (? & ? & ?).
  apply Hp. split; [done | split; [done | split; [done |]]]. destruct Hs' as [_ (_ & Ht & _ & Hset)]. apply (settled_gone t); [done | done |]. intros [_ Hdir].
  cbn in Ha. destruct Ha as [Ha | ->]; [congruence |]. cbn in Hd. subst s'. cbn. apply lookup_delete_eq.
Qed.

Lemma crit_close_discard K `{!Keeps K} {B} i t (b : B) s post : scratch K i t s -> (forall s', done_with K i s' -> post b s') ->
  crit F keys_inv i (sys! Close t in sys! Remove t in Return b) s post.
Proof. intros Hs Hp. apply (crit_on_file K i t); [done | done |]. intros x s' _ _ Hs'. by apply (crit_discard K). Qed.

(** Syncing a directory: in a solid run its entries are on disk afterwards. *)
Lemma crit_syncDir {B} i dir (f : outcome key_error unit -> fprog B) s post : keys_inv s -> fs_lock s = Some i ->
  (forall s', (s' = s /\ ~ solid \/ s' = sync_entries dir s) -> keys_inv s' -> fs_lock s' = Some i -> forall r, crit F keys_inv i (f r) s' post) ->
  crit F keys_inv i (fbind (syncDir dir) f) s post.
Proof.
  intros Hi Hl Hf. assert (His : keys_inv (sync_entries dir s)).
  { destruct Hi as (Hk & Hb & _). split; [by apply key_ok_sync | split; [by apply (keeps_sync (K := base)) | cbn; congruence]]. }
  cbn. intros x s' -> Hx. split; [exact Hi | split; [done |]].
  destruct x as [[] | e]; [| apply (Hf s); [left; split; [done |] | done | done]; intros [_ Hd]; destruct Hx; congruence].
  intros y s' Hy Hal. destruct y as [[] | e]; cbn in Hy.
  - subst s'. split; [done | split; [done |]]. intros z s' -> _. split; [done | split; [done |]]. apply (Hf (sync_entries dir s)); [by right | done | done].
  - subst s'. split; [exact Hi | split; [done |]]. intros z s' -> _. split; [exact Hi | split; [done |]].
    apply (Hf s); [left; split; [done |] | done | done]. intros [_ Hd]. destruct Hal; congruence.
Qed.
(** ** The archive *)
Lemma base_current_inv i raw s : fs_lock s = Some i -> key_ok s -> base_current raw s -> keys_inv s.
Proof. intros Hl Hk [Hb _]. split; [done | split; [done | by rewrite Hl]]. Qed.

Lemma archiveKey_crit i now raw s : fs_lock s = Some i -> keys_inv s -> current raw s -> settled s ->
  crit F keys_inv i (archiveKey (archive_path prevDir now raw) raw) s
    (fun r s' => done_with (base_current raw) i s' /\ (r = Ok tt -> archived raw s' /\ (solid -> archive_holds raw s'))).
Proof.
  intros Hl Hi Hc Hset. pose proof Hi as (Hk & Hb & _). set (t := archive_path prevDir now raw). assert (Ht : t <> keyPath) by apply archives_apart.
  assert (Hbc : base_current raw s) by (by split).
  intros opened s1 Hopen _. cbn [does] in Hopen. destruct opened as [[] | e].
  2:{ assert (s1 = s) as -> by (destruct e; [done | by destruct Hopen | done]). split; [exact Hi | split; [done |]].
      assert (Hdone : done_with (base_current raw) i s) by (split; [done | split; [done | by split]]).
      destruct e; try (by split). intros existing s2 [-> Hread] _. split; [exact Hi | split; [done |]]. split; [done |].
      destruct existing as [existing | ?]; [| done]. case_decide as He; [| done]. intros _. subst existing.
      apply fmap_Some in Hread as (f & Hf & Hd). split; [by exists now, f |]. intros Hso. exists now. by apply (proj2 (Hset Hso) now raw f). }
  destruct Hopen as [Hnone ->].
  assert (Hs : scratch (base_current raw) i t (set_entry t (Some (mk_file [] false)) s)).
  { split; [done |]. eapply inv_off_same; [apply off_entry |]. by apply inv_off_fresh; [apply _ | | | | |]. }
  destruct (scratch_inv (base_current raw) i t _ Hs) as (Hi1 & _ & _). split; [exact Hi1 | split; [done |]].
  assert (Hend : forall s', done_with (base_current raw) i s' -> done_with (base_current raw) i s' /\
    (Err KArchive = Ok tt -> archived raw s' /\ (solid -> archive_holds raw s'))) by (intros s' Hs'; by split).
  apply (crit_on_file (base_current raw) i t); [done | done |]. intros w s2 Hw _ Hs2. destruct w as [[] |]; [| by apply (crit_close_discard (base_current raw))].
  cbn in Hw. destruct Hw as (f & Hf & part & -> & ->). rewrite lookup_insert_eq in Hf. injection Hf as <-. cbn [fl_data app] in Hs2 |- *.
  apply (crit_on_file (base_current raw) i t); [done | done |]. intros w s3 Hw _ Hs3. destruct w as [[] |]; [| by apply (crit_close_discard (base_current raw))].
  cbn in Hw. destruct Hw as (f & Hf & ->). rewrite lookup_insert_eq in Hf. injection Hf as <-. cbn [fl_data] in Hs3 |- *.
  apply (crit_on_file (base_current raw) i t); [done | done |]. intros w s4 -> _ _. destruct w as [[] |]; [| by apply (crit_close_discard (base_current raw))].
  set (s3 := set_files _ _) in Hs3 |- *. assert (Hfile : fs_files s3 !! t = Some (mk_file raw true)) by apply lookup_insert_eq.
  destruct (scratch_inv (base_current raw) i t _ Hs3) as (Hi3 & Hl3 & Hbc3).
  apply crit_syncDir; [done | done |]. intros s4 Hs4 Hi4 Hl4 r. intros x s5 -> _. split; [exact Hi4 | split; [done |]].
  assert (Hfile4 : fs_files s4 !! t = Some (mk_file raw true)) by (destruct Hs4 as [[-> _] | ->]; exact Hfile).
  assert (Hholds : solid -> holds s4 t raw).
  { intros Hso. destruct Hs4 as [[_ Hn] | ->]; [done |]. apply (holds_here _ t (mk_file raw true) Hfile4 eq_refl). exact (stale_synced s3 t). }
  assert (Hs5 : scratch (base_current raw) i t s4).
  { destruct Hs4 as [[-> _] | ->]; [done |]. apply (scratch_call (base_current raw) i t (SyncDir (p_dir t)) s3 (Ok tt)); done. }
  destruct (scratch_inv (base_current raw) i t _ Hs5) as (_ & _ & Hbc4).
  split; [| intros _; split; [by exists now, (mk_file raw true) | intros Hso; exists now; by apply Hholds]].
  split; [done | split; [done | split; [done |]]]. destruct Hs5 as [_ (_ & _ & _ & Hoff)]. apply (settled_back t); [done | done |].
  intros Hso f now' raw' _ Hf Hd. rewrite Hfile4 in Hf. injection Hf as <-. cbn in Hd. subst raw'. by apply Hholds.
Qed.

(** ** The replacement *)
Lemma temp_apart tmp random : p_base tmp = temp_prefix keyPath ++ random -> tmp <> keyPath.
Proof. intros Hb ->. apply (f_equal length) in Hb. unfold temp_prefix in Hb. rewrite !length_app in Hb. cbn in Hb. lia. Qed.

(** The renamed file is the key, and the keys before it are archived. *)
Definition renamed (tmp : path) (contents : gostring) (s : fs) : fs :=
  log_file keyPath (mk_file contents true) (set_entry keyPath (Some (mk_file contents true)) (set_entry tmp None s)).

Lemma renamed_elsewhere tmp contents s p : p <> tmp -> p <> keyPath ->
  fs_files (renamed tmp contents s) !! p = fs_files s !! p /\ fs_stale (renamed tmp contents s) !! p = fs_stale s !! p.
Proof. intros Ht Hp. unfold renamed, log_file, set_entry. cbn. by rewrite !lookup_insert_ne, lookup_delete_ne by done. Qed.

Lemma renamed_holds tmp contents s raw : archive_holds raw (off tmp s) -> archive_holds raw (renamed tmp contents s).
Proof.
  intros [now Hh]. exists now. apply holds_off in Hh as [Hne Hh].
  destruct (renamed_elsewhere tmp contents s (archive_path prevDir now raw) Hne (archives_apart now raw)) as [Hf Hst]. by eapply holds_ne.
Qed.

Lemma rename_inv i tmp contents s : fs_lock s = Some i -> key_ok s -> all_archived (off tmp s) -> tmp <> keyPath -> is_Some (parseKey contents) ->
  keys_inv (renamed tmp contents s) /\ published contents (renamed tmp contents s).
Proof.
  intros Hl [Hk Hp] [Ha Hh] Ht Hc. set (s' := renamed tmp contents s).
  assert (Hcur : fs_files s' !! keyPath = Some (mk_file contents true)) by apply lookup_insert_eq.
  assert (Hpub : published contents s') by (unfold published, s', renamed, log_file; cbn; apply elem_of_cons; by left).
  assert (Hold : forall raw, published raw s -> published raw s') by (intros raw Hr; unfold published, s', renamed, log_file; cbn; apply elem_of_cons; by right).
  split; [| done]. split; [split |]; [| | split; [split |]].
  - intros f Hf. unfold possible in Hf. rewrite Hcur in Hf. apply elem_of_cons in Hf as [[= ->] | Hf]; [done |].
    assert (Hf' : possible s keyPath (Some f)).
    { unfold stale, s', renamed, log_file, set_entry, stale in Hf. cbn in Hf. rewrite lookup_insert_eq in Hf. cbn in Hf.
      rewrite lookup_delete_ne, lookup_insert_ne in Hf by done. exact Hf. }
    destruct (Hk f Hf') as (? & ? & ?). auto.
  - intros _ raw _. rewrite Hcur. by eexists.
  - intros Hpow raw Hraw. unfold published, s', renamed, log_file in Hraw. cbn in Hraw. apply elem_of_cons in Hraw as [[= ->] | Hraw].
    + left. by exists (mk_file contents true).
    + right. destruct (Ha Hpow raw Hraw) as (now & f & Hlook & Hd). unfold off in Hlook. cbn in Hlook. apply lookup_delete_Some in Hlook as [Hne Hlook].
      exists now, f. split; [| done]. exact (eq_trans (proj1 (renamed_elsewhere tmp contents s _ (not_eq_sym Hne) (archives_apart now raw))) Hlook).
  - intros Hso raw Hraw. right. by apply renamed_holds, Hh.
  - change (fs_lock s') with (fs_lock s). by rewrite Hl.
Qed.

(** Once its directory is fsynced the renamed key is settled. *)
Lemma renamed_settled tmp contents s s5 : tmp <> keyPath -> settled (off tmp s) ->
  (s5 = renamed tmp contents s /\ ~ solid \/ s5 = sync_entries (p_dir keyPath) (renamed tmp contents s)) -> settled s5.
Proof.
  intros Ht Hoff [[-> Hn] | ->]; [by intros Hso |]. intros Hso. split; [apply stale_synced |].
  intros now raw f Hf Hd. apply holds_sync. unfold sync_entries in Hf. cbn [fs_files] in Hf. pose proof (archives_apart now raw) as Hap.
  destruct (decide (archive_path prevDir now raw = tmp)) as [E | Hne].
  { rewrite E in Hf. unfold renamed, log_file, set_entry in Hf. cbn in Hf. by rewrite lookup_insert_ne, lookup_delete_eq in Hf. }
  destruct (renamed_elsewhere tmp contents s _ Hne Hap) as [Hfe Hst]. rewrite Hfe in Hf.
  eapply holds_ne; [exact Hfe | exact Hst |]. apply (holds_off tmp s). apply (proj2 (Hoff Hso) now raw f); [| done].
  unfold off. cbn. by rewrite lookup_delete_ne.
Qed.

Lemma atomicReplaceKey_crit i contents s : fs_lock s = Some i -> key_ok s -> all_archived s -> settled s -> is_Some (parseKey contents) ->
  crit F keys_inv i (atomicReplaceKey keyPath contents) s
    (fun r s' => keys_inv s' /\ fs_lock s' = Some i /\ settled s' /\ (r = Ok tt -> published contents s')).
Proof.
  intros Hl Hk Ha Hset Hc. assert (Hi : keys_inv s) by (split; [done | split; [by apply keeps_base | by rewrite Hl]]).
  assert (Hend : forall s', done_with all_archived i s' ->
    keys_inv s' /\ fs_lock s' = Some i /\ settled s' /\ (Err (A := unit) KReplace = Ok tt -> published contents s')) by (intros s' (? & ? & _ & ?); done).
  assert (Hsame : done_with all_archived i s) by (split; [done | done]).
  intros made s1 -> _. split; [exact Hi | split; [done |]]. destruct made as [[] |]; [| by apply Hend].
  intros created s1 Hcr _. cbn [does] in Hcr. destruct created as [tmp |]; [| subst; split; [exact Hi | split; [done | by apply Hend]]].
  destruct Hcr as (_ & (random & _ & Hbase) & Hnone & ->). pose proof (temp_apart _ _ Hbase) as Ht.
  assert (Hs : scratch all_archived i tmp (set_entry tmp (Some (mk_file [] false)) s)).
  { split; [done |]. eapply inv_off_same; [apply off_entry |]. by apply inv_off_fresh; [apply _ | | | | |]. }
  destruct (scratch_inv all_archived i tmp _ Hs) as (Hi1 & _ & _). split; [exact Hi1 | split; [done |]].
  apply (crit_on_file all_archived i tmp); [done | done |]. intros w s2 -> _ _. destruct w as [[] |]; [| by apply (crit_close_discard all_archived)].
  apply (crit_on_file all_archived i tmp); [done | done |]. intros w s2 Hw _ Hs2. destruct w as [[] |]; [| by apply (crit_close_discard all_archived)].
  cbn in Hw. destruct Hw as (f & Hf & part & -> & ->). rewrite lookup_insert_eq in Hf. injection Hf as <-. cbn [fl_data app] in Hs2 |- *.
  apply (crit_on_file all_archived i tmp); [done | done |]. intros w s3 Hw _ Hs3. destruct w as [[] |]; [| by apply (crit_close_discard all_archived)].
  cbn in Hw. destruct Hw as (f & Hf & ->). rewrite lookup_insert_eq in Hf. injection Hf as <-. cbn [fl_data] in Hs3 |- *.
  set (s3 := set_files _ _) in Hs3 |- *.
  assert (Htmp : fs_files s3 !! tmp = Some (mk_file contents true)) by apply lookup_insert_eq.
  apply (crit_on_file all_archived i tmp); [done | done |]. intros w s4 -> _ _. destruct w as [[] |]; [| by apply (crit_discard all_archived)].
  intros w s4 Hw _. cbn [does] in Hw. destruct w as [[] |].
  2:{ subst s4. destruct (scratch_inv all_archived i tmp _ Hs3) as (? & ? & ?). split; [done | split; [done |]]. by apply (crit_discard all_archived). }
  destruct Hw as (f & Hf & ->). rewrite Htmp in Hf. injection Hf as <-. destruct Hs3 as [Hl3 (Hk3 & _ & Ha3 & Hoff3)].
  destruct (rename_inv i tmp contents s3 Hl3 Hk3 Ha3 Ht Hc) as [Hi4 Hpub]. fold (renamed tmp contents s3). split; [exact Hi4 | split; [done |]].
  apply crit_syncDir; [done | done |]. intros s5 Hs5 Hi5 Hl5 r. pose proof (renamed_settled tmp contents s3 s5 Ht Hoff3 Hs5) as Hset5.
  assert (Hpub5 : published contents s5) by (destruct Hs5 as [[-> _] | ->]; exact Hpub).
  intros x s6 Hd _. cbn in Hd. destruct x as [[] |]; [| subst; by split; [| split]]. subst s6.
  destruct Hi5 as (Hk5 & Hb5 & _). assert (Hgone : fs_files s5 !! tmp = None).
  { assert (Hn : fs_files (renamed tmp contents s3) !! tmp = None) by (unfold renamed, log_file, set_entry; cbn; by rewrite lookup_insert_ne, lookup_delete_eq by done).
    destruct Hs5 as [[-> _] | ->]; exact Hn. }
  assert (Hoff : off tmp (set_entry tmp None s5) = off tmp s5) by apply off_entry.
  assert (Hi6 : keys_inv (set_entry tmp None s5)).
  { split; [by eapply key_ok_same_off | split; [| cbn; congruence]]. apply (base_off tmp); [done |]. rewrite Hoff. by apply base_absent. }
  split; [done | split; [done |]]. split; [done | split; [done | split; [| done]]]. apply (settled_gone tmp); [done | rewrite Hoff; by apply settled_off |].
  intros _. cbn. apply lookup_delete_eq.
Qed.

(** ** The three operations *)
Definition key_answer (r : outcome key_error gostring) (s : fs) : Prop :=
  match r with Ok key => exists raw, published raw s /\ parseKey raw = Some key | Err _ => True end.
Definition locked_answer (i : nat) (r : outcome key_error gostring) (s : fs) : Prop := keys_inv s /\ fs_lock s = Some i /\ settled s /\ key_answer r s.

Lemma replace_with_new_crit i s : fs_lock s = Some i -> key_ok s -> all_archived s -> settled s ->
  crit F keys_inv i (replace_with_new keyPath) s (locked_answer i).
Proof.
  intros Hl Hk Ha Hset. assert (Hi : keys_inv s) by (split; [done | split; [by apply keeps_base | by rewrite Hl]]).
  intros random s1 [-> Hrand] _. split; [exact Hi | split; [done |]]. destruct random as [seed |]; [| done].
  apply crit_bind. pose proof (parse_marshal seed Hrand) as Hparse.
  eapply crit_mono; [| by apply atomicReplaceKey_crit; [done | done | done | done | rewrite Hparse; by eexists]].
  intros r s' (? & ? & ? & Hr). split; [done | split; [done | split; [done |]]]. destruct r as [[] |]; [| done]. exists (MarshalKey seed). auto.
Qed.

(** The file read under the lock is the key. *)
Lemma read_key s f : key_ok s -> fs_files s !! keyPath = Some f -> fl_synced f = true /\ is_Some (parseKey (fl_data f)) /\ published (fl_data f) s.
Proof. intros [Hk _] Hf. apply Hk. unfold possible. rewrite Hf. by left. Qed.

Lemma rotate_locked_crit i now s : fs_lock s = Some i -> keys_inv s -> settled s -> crit F keys_inv i (rotate_locked keyPath prevDir now) s (locked_answer i).
Proof.
  intros Hl Hi Hset read s1 [-> Hread] _. split; [exact Hi | split; [done |]]. destruct read as [raw |]; [| done].
  apply fmap_Some in Hread as (f & Hf & ->). destruct (parseKey (fl_data f)); [| done].
  intros made s1 -> _. split; [exact Hi | split; [done |]]. destruct made as [[] |]; [| done].
  apply crit_bind. eapply crit_mono; [| by apply archiveKey_crit; [| | exists f |]].
  intros r s' [((Hk' & Hb' & Hn') & Hl' & [[Hkept Hsec] (g & Hg & Hgd)] & Hset') Hr]. destruct r as [[] |]; [| done]. destruct (Hr eq_refl) as [Harc Hheld].
  apply replace_with_new_crit; [done | done | | done]. split.
  - intros Hpow raw Hraw. destruct (Hkept Hpow raw Hraw) as [(g' & Hg' & Hgd') | ?]; [| done].
    assert (raw = fl_data f) as -> by congruence. done.
  - intros Hso raw Hraw. destruct (Hsec Hso raw Hraw) as [Hh | ?]; [| done].
    destruct (holds_current _ _ _ Hh) as (g' & Hg' & _ & Hgd'). assert (raw = fl_data f) as -> by congruence. by apply Hheld.
Qed.

Lemma generate_locked_crit i s : fs_lock s = Some i -> keys_inv s -> settled s -> crit F keys_inv i (generate_locked keyPath) s (locked_answer i).
Proof.
  intros Hl Hi Hset read s1 [-> Hread] _. split; [exact Hi | split; [done |]]. pose proof Hi as (Hk & [Hkept Hsec] & _). cbn [fbind]. destruct read as [raw | e].
  - apply fmap_Some in Hread as (f & Hf & ->). destruct (read_key s f Hk Hf) as (_ & [key Hkey] & Hpub). rewrite Hkey.
    split; [done | split; [done | split; [done |]]]. exists (fl_data f). auto.
  - destruct e; [| done | done]. apply replace_with_new_crit; [done | done | | done]. split.
    + intros Hpow raw Hraw. destruct (proj2 Hk Hpow raw Hraw) as [f Hf]. congruence.
    + intros Hso raw Hraw. destruct (Hsec Hso raw Hraw) as [Hh | ?]; [| done]. destruct (holds_current _ _ _ Hh) as (f & Hf & _). congruence.
Qed.

(** ** Whole processes *)
Abbreviation key_safe := (safe F keys_inv lock_rely key_answer).

Lemma key_answer_rely i r s s' : lock_rely i s s' -> key_answer r s -> key_answer r s'.
Proof. intros (_ & _ & Hlog). destruct r; [| done]. intros (raw & Hp & Hk). exists raw. split; [by apply Hlog | done]. Qed.

Lemma return_safe i r s : key_answer r s -> key_safe i (Return r) s.
Proof. intros Ha s1 Hr _. by eapply key_answer_rely. Qed.

(** A call that changes nothing. *)
Lemma pure_call_safe {X} i (c : syscall X) k s : (forall s1 x s2, does i c s1 x s2 -> s2 = s1) ->
  (forall x s1, keys_inv s1 -> does i c s1 x s1 -> fs_lock s1 <> Some i -> key_safe i (k x) s1) -> fs_lock s <> Some i -> key_safe i (Do c k) s.
Proof.
  intros Hsame Hk Hl s1 (_ & Hr & _) Hi x s2 Hd _. pose proof (Hsame _ _ _ Hd) as ->. split; [exact Hi | split; [| by apply Hk; [| | apply Hr]]].
  intros j _. by split; [| split].
Qed.

(** Taking the lock: what it finds in use is on disk. *)
Lemma take_lock_inv i s : fs_lock s = None -> keys_inv s -> keys_inv (take_lock i s) /\ settled (take_lock i s).
Proof.
  intros Hn (Hk & [Hkept Hsec] & Hset). specialize (Hset Hn). split; [| exact Hset]. split; [exact Hk | split; [split; [exact Hkept |] | done]].
  intros Hso raw (m & f & Hm & Hf & Hd). cbn [fs_seen take_lock] in Hm. apply elem_of_cons in Hm as [-> | Hm].
  - left. subst raw. apply holds_here; [exact Hf | by apply (read_key s f Hk Hf) | exact (proj1 (Hset Hso))].
  - by apply Hsec; [| exists m, f].
Qed.

Lemma locked_safe i body s : (forall s, fs_lock s = Some i -> keys_inv s -> settled s -> crit F keys_inv i body s (locked_answer i)) ->
  fs_lock s <> Some i -> key_safe i (locked body) s.
Proof.
  intros Hbody Hl s1 (_ & Hr & _) Hi x s2 Hd _. cbn in Hd. destruct x as [[] |].
  2:{ subst. split; [exact Hi | split; [| by apply return_safe]]. intros j _. by split; [| split]. }
  destruct Hd as [Hnone ->]. destruct (take_lock_inv i s1 Hnone Hi) as [Hi1 Hset1]. split; [exact Hi1 | split].
  { intros j Hj. unfold lock_rely. cbn. rewrite Hnone. split; [done | split; [congruence | done]]. }
  apply (crit_safe F keys_inv i); [exact Hi1 | done |]. eapply crit_mono; [| by apply Hbody].
  intros r s' (_ & Hl' & Hset' & Ha) (Hk' & Hb' & _) _ s3 (Hrel & _ & _) _. rewrite (Hrel Hl'). intros [] s4 Hd _. cbn in Hd. rewrite decide_True in Hd by done. subst s4.
  split; [by split; [| split] | split; [| by apply return_safe]]. intros j Hj. split; [congruence | split; [done | done]].
Qed.

Lemma RotateKey_safe i now s : fs_lock s <> Some i -> key_safe i (RotateKey keyPath prevDir now) s.
Proof.
  intros Hl. unfold RotateKey. case_decide; [by apply return_safe |]. apply locked_safe; [| done]. intros. by apply rotate_locked_crit.
Qed.

Lemma LoadOrCreateKey_safe i s : fs_lock s <> Some i -> key_safe i (LoadOrCreateKey keyPath) s.
Proof.
  intros Hl. cbn [LoadOrCreateKey loadKey fbind]. apply pure_call_safe; [by intros ? ? ? [-> _] | | done].
  intros read s1 Hi [_ Hread] Hl1. destruct read as [raw | e].
  - apply fmap_Some in Hread as (f & Hf & ->). destruct (read_key s1 f (proj1 Hi) Hf) as (_ & [key Hkey] & Hpub). rewrite Hkey.
    apply return_safe. exists (fl_data f). auto.
  - destruct e; [| by apply return_safe | by apply return_safe]. apply pure_call_safe; [by intros ? ? ? -> | | done].
    intros made s2 _ _ Hl2. destruct made; [| by apply return_safe]. apply locked_safe; [| done]. intros. by apply generate_locked_crit.
Qed.

Lemma signing_key_safe i s : fs_lock s <> Some i -> key_safe i (signing_key keyPath) s.
Proof.
  apply locked_safe. intros s1 Hl Hi Hset read s2 [-> Hread] _. split; [exact Hi | split; [done |]]. destruct read as [raw |]; [| done].
  apply fmap_Some in Hread as (f & Hf & ->). destruct (read_key s1 f (proj1 Hi) Hf) as (_ & [key Hkey] & Hpub). rewrite Hkey.
  split; [exact Hi | split; [done | split; [done |]]]. exists (fl_data f). auto.
Qed.

(** The processes that share the key files. *)
Definition key_process (p : fprog (outcome key_error gostring)) : Prop :=
  p = LoadOrCreateKey keyPath \/ p = signing_key keyPath \/ exists now, p = RotateKey keyPath prevDir now.

(** After a power loss: what is left at a path is one of the entries possible there. *)
Lemma power_loss_holds s s' p raw : power_loss s s' -> holds s p raw -> holds s' p raw.
Proof.
  intros (_ & _ & _ & Hst & Hf) Hh e He. unfold possible, stale in He. rewrite Hst, lookup_empty in He. cbn in He. apply list_elem_of_singleton in He as ->.
  destruct (Hf p) as (e & He & Hd). destruct (Hh e He) as (f & -> & Hs & <-). destruct Hd as (d & -> & Hsame). exists (mk_file d true). split_ands; try done. cbn. by apply Hsame.
Qed.

Lemma power_loss_inv s s' : ft_power F = true -> keys_inv s -> power_loss s s' -> keys_inv s'.
Proof.
  intros Hpow ([Hk _] & [_ Hsec] & _) Hl. pose proof Hl as (_ & Hlog & Hseen & Hst & Hf). split; [split; [| congruence] | split; [split; [congruence |] |]].
  - intros f Hpos. unfold possible, stale in Hpos. rewrite Hst, lookup_empty in Hpos. cbn in Hpos. apply list_elem_of_singleton in Hpos.
    destruct (Hf keyPath) as (e & He & Hd). destruct e as [g |]; [| congruence]. destruct (Hk g He) as (Hs & Hparse & Hpub).
    destruct Hd as (d & Hd & Hsame). assert (f = mk_file (fl_data g) true) as -> by (rewrite Hd, (Hsame Hs) in Hpos; congruence).
    unfold published. rewrite Hlog. done.
  - intros Hso raw (m & f & Hm & Hmf). rewrite Hseen in Hm. destruct (Hsec Hso raw) as [Hh | [now Hh]]; [by exists m, f | left | right; exists now];
      by eapply power_loss_holds.
  - intros _ Hso. split; [unfold stale; by rewrite Hst, lookup_empty |]. intros now raw f Hfile Hd. destruct (Hf (archive_path prevDir now raw)) as (e & _ & He).
    assert (Hsy : fl_synced f = true) by (destruct e; [destruct He as (d & He & _) |]; rewrite He in Hfile; [by injection Hfile as <- | done]).
    assert (Hstale : stale s' (archive_path prevDir now raw) = []) by (unfold stale; by rewrite Hst, lookup_empty).
    pose proof (holds_here _ _ _ Hfile Hsy Hstale) as Hh. by rewrite Hd in Hh.
Qed.

#[local] Instance key_rely_laws : RelyLaws key_process F keys_inv lock_rely key_answer.
Proof.
  split.
  - intros i s. by split; [| split].
  - intros i s1 s2 s3 (Ha & Hb & Hc) (Hd & He & Hf). split; [| split; auto].
    intros Hl. pose proof (Ha Hl) as ->. by apply Hd.
  - intros i j s Hkill (Hk & Hb & Hset) Hj. unfold release. case_decide as Hl; split; [| | by split; [| split] | by split; [| split]].
    + split; [exact Hk | split; [exact Hb |]]. intros _ [Hn _]. congruence.
    + split; [congruence | by split].
  - intros s s' Hpow Hi Hl. by eapply power_loss_inv.
  - intros i p s _ Hl [-> | [-> | [now ->]]]; [by apply LoadOrCreateKey_safe | by apply signing_key_safe | by apply RotateKey_safe].
Qed.

(** No process runs, everything is on disk, and there are no files, or one
    whole key. *)
Record resting (s : system (outcome key_error gostring)) : Prop := {
  rs_procs : sy_procs s = ∅;
  rs_disk : fs_stale (sy_fs s) = ∅ /\ fs_seen (sy_fs s) = [];
  rs_key : (fs_files (sy_fs s) = ∅ /\ fs_log (sy_fs s) = []) \/
           exists raw, fs_files (sy_fs s) = {[ keyPath := mk_file raw true ]} /\ is_Some (parseKey raw) /\ fs_log (sy_fs s) = [(keyPath, raw)]
}.

Lemma resting_ok s : resting s -> system_ok F keys_inv lock_rely key_answer s.
Proof.
  intros [Hp [Hst Hseen] Hk]. split; [| intros i p; by rewrite Hp, lookup_empty].
  assert (Hsec : secured (sy_fs s)) by (intros _ raw (m & f & Hm & _); rewrite Hseen in Hm; by apply not_elem_of_nil in Hm).
  assert (Hpos : forall p e, possible (sy_fs s) p e -> e = fs_files (sy_fs s) !! p).
  { intros p e He. unfold possible, stale in He. rewrite Hst, lookup_empty in He. by apply list_elem_of_singleton in He. }
  assert (Hempty : stale (sy_fs s) keyPath = []) by (unfold stale; by rewrite Hst, lookup_empty).
  destruct Hk as [[Hfs Hlog] | (raw & Hfs & Hparse & Hlog)].
  - split; [split | split; [split; [| exact Hsec] |]].
    + intros f Hf%Hpos. by rewrite Hfs, lookup_empty in Hf.
    + intros _ raw Hr. unfold published in Hr. rewrite Hlog in Hr. by apply not_elem_of_nil in Hr.
    + intros _ raw Hr. unfold published in Hr. rewrite Hlog in Hr. by apply not_elem_of_nil in Hr.
    + intros _ _. split; [done |]. intros now raw f Hf. by rewrite Hfs, lookup_empty in Hf.
  - assert (Hcur : fs_files (sy_fs s) !! keyPath = Some (mk_file raw true)) by (rewrite Hfs; apply lookup_singleton_eq).
    assert (Hone : forall r, published r (sy_fs s) -> r = raw).
    { intros r Hr. unfold published in Hr. rewrite Hlog in Hr. apply list_elem_of_singleton in Hr. congruence. }
    split; [split | split; [split; [| exact Hsec] |]].
    + intros f Hf%Hpos. rewrite Hcur in Hf. injection Hf as ->. split; [done | split; [done |]]. unfold published. rewrite Hlog. by left.
    + intros _ r _. rewrite Hcur. by eexists.
    + intros _ r ->%Hone. left. by exists (mk_file raw true).
    + intros _ _. split; [done |]. intros now r f Hf. rewrite Hfs, lookup_singleton_ne in Hf by (intros E; by apply (archives_apart now r)). done.
Qed.
End Invariant.

(** The retirement that a later load reads off an archive's name. *)
Lemma cut_before_app c a b : c ∉ a -> cut_before c (a ++ c :: b) = Some a.
Proof.
  induction a as [| x a IH]; intros Hn; cbn [cut_before app]; [by rewrite Ascii.eqb_refl |].
  rewrite not_elem_of_cons in Hn. destruct Hn as [Hx Hn]. destruct (Ascii.eqb_spec x c); [congruence |]. by rewrite IH.
Qed.

Lemma archive_name_stamp `{KeyFormat, Unicode} prevDir now raw : 0 < now < 2 ^ 63 -> retirementTimeFromName (p_base (archive_path prevDir now raw)) = Some (now * second).
Proof.
  intros Hn. unfold retirementTimeFromName, archive_path. cbn [p_base]. change (lit "-") with ["-"%char]. cbn [app]. rewrite cut_before_app.
  - rewrite ParseInt_FormatInt by (unfold int64_ok, int64_min, int64_max; lia). by rewrite (proj2 (Z.leb_gt now 0)) by lia.
  - unfold FormatInt. rewrite (proj2 (Z.ltb_ge now 0)) by lia. apply FormatUint_not_in; [lia | lia |]. left. by vm_compute.
Qed.

(** * Properties *)


(** ** Concrete runs *)
Module Ex.
#[export] Existing Instance ascii_only.
#[export] Instance format : KeyFormat := {
  parseKey := fun raw => match raw with c :: seed => if Ascii.eqb c "K"%char && (Z.of_nat (length seed) =? 32) then Some seed else None | [] => None end;
  MarshalKey := fun seed => "K"%char :: seed
}.
#[export] Instance format_laws : KeyFormatLaws.
Proof. split. intros seed Hs. cbn. by rewrite Hs. Defined.

Definition keyPath : path := mk_path (lit "/etc/keys") (lit "signing.pem").
Definition prevDir : gostring := lit "/etc/keys/old".
Definition old_seed : gostring := replicate 32 "o"%char.
Definition old_raw : gostring := MarshalKey old_seed.
Definition rest : system (outcome key_error gostring) := mk_sys (mk_fs {[ keyPath := mk_file old_raw true ]} ∅ None [(keyPath, old_raw)] []) ∅.

Lemma apart now raw : archive_path prevDir now raw <> keyPath.
Proof. discriminate. Qed.
Lemma rest_resting : resting keyPath rest.
Proof. split; [done | done |]. right. exists old_raw. split; [done | split; [by vm_compute; eexists | done]]. Qed.

Definition spawn (i : nat) p (s : system (outcome key_error gostring)) : system (outcome key_error gostring) := mk_sys (sy_fs s) (<[i := p]> (sy_procs s)).
Definition drive_or (n i : nat) (s : system (outcome key_error gostring)) := default s (drive n i s).

Lemma spawn_step F i p s : sy_procs s !! i = None -> fs_lock (sy_fs s) <> Some i -> key_process keyPath prevDir p ->
  rtc (proc_step (key_process keyPath prevDir) F) s (spawn i p s).
Proof. intros. apply rtc_once. by apply step_start. Qed.
Lemma drive_or_steps F n i s : rtc (proc_step (key_process keyPath prevDir) F) s (drive_or n i s).
Proof. unfold drive_or. destruct (drive n i s) eqn:E; [by eapply drive_steps | apply rtc_refl]. Qed.

Definition rotated : system (outcome key_error gostring) := drive_or 24 0 (spawn 0 (RotateKey keyPath prevDir 10) rest).

Definition killed (i : nat) (s : system (outcome key_error gostring)) : system (outcome key_error gostring) :=
  mk_sys (release i (sy_fs s)) (delete i (sy_procs s)).

(** The power is lost: the disk has [f] at the key file, and the other files as they were. *)
Definition cut_power (f : file) (s : system (outcome key_error gostring)) : system (outcome key_error gostring) :=
  mk_sys (mk_fs (<[keyPath := f]> (fs_files (sy_fs s))) ∅ None (fs_log (sy_fs s)) (fs_seen (sy_fs s))) ∅.

Lemma cut_power_step F f s : ft_power F = true -> possible (sy_fs s) keyPath (Some f) -> fl_synced f = true ->
  map_Forall (fun _ g => fl_synced g = true) (fs_files (sy_fs s)) ->
  rtc (proc_step (key_process keyPath prevDir) F) s (cut_power f s).
Proof.
  intros Hpow Hp Hf Hall. apply rtc_once. apply step_power; [done |]. unfold power_loss. split_ands; try done. intros p. cbn [fs_files].
  destruct (decide (p = keyPath)) as [-> | Hne].
  - exists (Some f). split; [exact Hp |]. exists (fl_data f). rewrite lookup_insert_eq. split; [| done]. destruct f as [d b]. cbn in *. by rewrite Hf.
  - rewrite lookup_insert_ne by done. exists (fs_files (sy_fs s) !! p). split; [by left |].
    destruct (fs_files (sy_fs s) !! p) as [g |] eqn:Eg; [| done]. exists (fl_data g). split; [| done]. pose proof (Hall p g Eg) as Hg. destruct g as [d b]. cbn in *. by rewrite Hg.
Qed.

Definition same_file (e : option file) (f : file) : bool :=
  match e with Some g => bool_decide (fl_data g = fl_data f) && Bool.eqb (fl_synced g) (fl_synced f) | None => false end.
Lemma possible_b s f : existsb (fun e => same_file e f) (fs_files s !! keyPath :: stale s keyPath) = true -> possible s keyPath (Some f).
Proof.
  intros (e & He%list_elem_of_In & Hf)%existsb_exists. unfold possible. destruct e as [[d b] |]; [| done]. destruct f as [d' b'].
  apply andb_prop in Hf as [Hd%bool_decide_eq_true Hb%eqb_prop]. cbn in *. by subst.
Qed.
Lemma in_use_seen raw s : existsb (fun m => bool_decide (fl_data <$> m !! keyPath = Some raw)) (fs_seen s) = true -> in_use keyPath raw s.
Proof.
  intros (m & Hm%list_elem_of_In & Hf%bool_decide_eq_true)%existsb_exists. apply fmap_Some in Hf as (f & Hf & Hd). by exists m, f.
Qed.

Definition solid_power : faults := mk_faults false true false.

(** The power is lost once the new key is renamed into place, and the rename
    has reached the disk: the old key is in the archive. *)
Definition replaced : system (outcome key_error gostring) := drive_or 19 0 (spawn 0 (RotateKey keyPath prevDir 10) rest).
Definition new_file : file := mk_file (MarshalKey (replicate 32 "r"%char)) true.
Definition rebooted : system (outcome key_error gostring) := cut_power new_file replaced.


(** A rotation killed between the rename and the directory's fsync: the next
    signer uses the new key, whose rename a power loss may still undo. *)
Lemma killed_rotation_may_lose_the_key : exists s raw,
  rtc (proc_step (key_process keyPath prevDir) (mk_faults true true false)) rest s /\
  in_use keyPath raw s.(sy_fs) /\ ~ current keyPath raw (sy_fs s) /\ ~ archived prevDir raw (sy_fs s).
Proof.
  set (s1 := drive_or 3 1 (spawn 1 (signing_key keyPath) (killed 0 replaced))).
  exists (cut_power (mk_file old_raw true) s1), (fl_data new_file).
  assert (Hall : map_Forall (fun _ g => fl_data g = old_raw) (fs_files (sy_fs (cut_power (mk_file old_raw true) s1)))) by (apply (bool_decide_unpack _); vm_compute; exact I).
  split; [| split; [| split]].
  - etrans; [apply (spawn_step _ 0 (RotateKey keyPath prevDir 10)); [done | done | right; right; by eexists] |].
    etrans; [apply (drive_or_steps _ 19 0) |]. etrans; [apply rtc_once, (step_kill _ _ _ 0); done |].
    etrans; [apply (spawn_step _ 1 (signing_key keyPath)); [by vm_compute | by vm_compute | right; by left] |].
    etrans; [apply (drive_or_steps _ 3 1) |]. apply cut_power_step; [done | | done |].
    + apply possible_b. vm_compute. reflexivity.
    + apply (bool_decide_unpack _). vm_compute. exact I.
  - apply in_use_seen. vm_compute. reflexivity.
  - intros (f & Hf & Hd). rewrite (Hall _ _ Hf) in Hd. revert Hd. vm_compute. discriminate.
  - intros (now & f & Hf & Hd). rewrite (Hall _ _ Hf) in Hd. revert Hd. vm_compute. discriminate.
Qed.

(** A rotation killed while it writes the archive leaves a file under the
    archive's own name that no later load of the keys gets past. *)
Lemma interrupted_archive_wedges_loading `{JWT} : exists s name,
  rtc (proc_step (key_process keyPath prevDir) (mk_faults true false false)) rest s /\ sy_procs s = ∅ /\
  fs_files (sy_fs s) !! mk_path prevDir name = Some (mk_file [] false) /\
  loadRetiredKeysAt (Some [mk_archive name false None (parseKey [])]) (11 * second) = Err RetiredUnreadable.
Proof.
  set (s1 := drive_or 4 0 (spawn 0 (RotateKey keyPath prevDir 10) rest)).
  exists (killed 0 s1), (p_base (archive_path prevDir 10 old_raw)).
  split; [| split; [by vm_compute | split; by vm_compute]].
  etrans; [apply (spawn_step _ 0 (RotateKey keyPath prevDir 10)); [done | done | right; right; by eexists] |].
  etrans; [apply drive_or_steps | by apply rtc_once, step_kill].
Qed.

(** A rotation reads its clock before it waits for the lock: a token signed
    meanwhile, in a later second, is rejected as issued after the retirement. *)
Definition waiting : system (outcome key_error gostring) :=
  spawn 0 (RotateKey keyPath prevDir 10) (drive_or 1 1 (spawn 1 (signing_key keyPath) rest)).
Definition signed : system (outcome key_error gostring) := drive_or 2 1 waiting.
Definition stamped : system (outcome key_error gostring) := drive_or 24 0 signed.

Lemma stale_retirement_rejects_fresh_token `{JWT} (c : ParsedClaims) :
  rtc (proc_step (key_process keyPath prevDir) (mk_faults false false false)) rest stamped /\
  fs_lock (sy_fs waiting) = Some 1%nat /\
  sy_procs signed !! 1%nat = Some (Return (Ok old_seed)) /\
  (exists f, fs_files (sy_fs stamped) !! archive_path prevDir 10 old_raw = Some f /\ parseKey (fl_data f) = Some old_seed) /\
  retirementTimeFromName (p_base (archive_path prevDir 10 old_raw)) = Some (10 * second) /\
  (pt_IssuedAt c = Some (11 * second) -> pt_ExpiresAt c <> None -> work_params_ok c = true ->
   check_token (mk_key old_seed (Some (10 * second))) c (pt_Host c) [] [] = Some TokenInvalid).
Proof.
  split; [| split; [by vm_compute | split; [by vm_compute | split; [| split; [by vm_compute |]]]]].
  - etrans; [apply (spawn_step _ 1 (signing_key keyPath)); [done | done | right; by left] |].
    etrans; [apply (drive_or_steps _ 1 1) |].
    etrans; [apply (spawn_step _ 0 (RotateKey keyPath prevDir 10)); [by vm_compute | by vm_compute | right; right; by eexists] |].
    etrans; [apply (drive_or_steps _ 2 1) | apply (drive_or_steps _ 24 0)].
  - eexists. split; by vm_compute.
  - intros Hi He Hw. unfold check_token. rewrite Hi, Hw. cbn [negb mk_retiredAt]. destruct (pt_ExpiresAt c) as [exp |]; [| done].
    change (10 * second <? 11 * second) with true. by destruct (_ || _).
Qed.
End Ex.
