(* ===== verification/Recent.v ===== *)
(** * Recent decisions (core/recent.go, core/engine.go)

    The bounded ring of the last non-allow decisions and proof-of-work outcomes,
    proved to list exactly the latest entries, newest first. *)

From S2P Require Export Text.

Open Scope Z_scope.

Record RecentDecision := mk_recent {
  re_Time : Z;
  re_Host : gostring;
  re_IP : gostring;
  re_Method : gostring;
  re_URI : gostring;
  re_UA : gostring;
  re_Action : gostring;
  re_Reason : gostring;
  re_PoWExemption : gostring;
  re_SolveMS : Z;
  re_RoundTripMS : Z;
  re_PoWAlgorithm : gostring;
  re_Bits : Z;
  re_Argon2MemoryKiB : Z;
  re_Argon2Iterations : Z
}.

Definition ActionSolve : gostring := lit "solve".
Definition ActionRedeemFail : gostring := lit "redeem_fail".
Definition ActionRedeemRetry : gostring := lit "redeem_retry".
Definition ReasonSolved : gostring := lit "pow:solved".
Definition ReasonNoJS : gostring := lit "pow:nojs".
Definition ReasonNetworkHandover : gostring := lit "pow:network_handover".

Definition IsOutcomeAction (action : gostring) : bool := bool_decide (action ∈ [ActionSolve; ActionRedeemFail; ActionRedeemRetry]).

Definition defaultRecentDecisionsCapacity : nat := Z.to_nat 4096.
Definition maxRecentURILen : nat := 2048.
Definition maxRecentUALen : nat := 512.
Definition maxRecentHostLen : nat := 253.
Definition maxRecentMethodLen : nat := 32.

(** The ellipsis is three bytes of UTF-8. *)
Definition truncateRecent (s : gostring) (n : nat) : gostring :=
  if (length s <=? n)%nat then s else take n s ++ [Zbyte 226; Zbyte 128; Zbyte 166].

Definition clampMS (v : Z) : Z := if v <=? 0 then 0 else if 2 ^ 31 - 1 <? v then 2 ^ 31 - 1 else v.
Definition clampBits (v : Z) : Z := if v <=? 0 then 0 else if 255 <? v then 255 else v.

Definition truncated (d : RecentDecision) : RecentDecision :=
  mk_recent (re_Time d) (truncateRecent (re_Host d) maxRecentHostLen) (re_IP d) (truncateRecent (re_Method d) maxRecentMethodLen)
    (truncateRecent (re_URI d) maxRecentURILen) (truncateRecent (re_UA d) maxRecentUALen) (re_Action d) (re_Reason d) (re_PoWExemption d)
    (re_SolveMS d) (re_RoundTripMS d) (re_PoWAlgorithm d) (re_Bits d) (re_Argon2MemoryKiB d) (re_Argon2Iterations d).

(** ** The ring *)
Record recentRing := mk_ring { rr_buf : list RecentDecision; rr_next : nat; rr_count : nat; rr_full : bool; rr_startedAt : Z }.

Definition zero_decision : RecentDecision := mk_recent 0 [] [] [] [] [] [] [] [] 0 0 [] 0 0 0.

Definition newRecentRing (size now : Z) : recentRing :=
  mk_ring (replicate (if size <=? 0 then defaultRecentDecisionsCapacity else Z.to_nat size) zero_decision) 0 0 false now.

Definition add (d : RecentDecision) (now : Z) (r : recentRing) : recentRing :=
  let d := truncated d in
  let '(buf, startedAt) := match rr_buf r with [] => (replicate defaultRecentDecisionsCapacity zero_decision, now) | _ => (rr_buf r, rr_startedAt r) end in
  let '(count, full) := if (rr_count r =? length buf)%nat then (rr_count r, true) else (S (rr_count r), rr_full r) in
  let next := S (rr_next r) in
  mk_ring (<[rr_next r := d]> buf) (if (next =? length buf)%nat then 0 else next)%nat count full startedAt.

Record RecentDecisionSnapshot := mk_snapshot { rs_Decisions : list RecentDecision; rs_Capacity : nat; rs_Full : bool; rs_StartedAt : Z }.

Definition snapshot (limit : Z) (r : recentRing) : RecentDecisionSnapshot :=
  let n := length (rr_buf r) in
  let capacity := if (n =? 0)%nat then defaultRecentDecisionsCapacity else n in
  let limit := if (limit <=? 0) || (Z.of_nat (rr_count r) <? limit) then rr_count r else Z.to_nat limit in
  mk_snapshot (map (fun i => default zero_decision (rr_buf r !! ((rr_next r + n - i) mod n)%nat)) (seq 1 limit)) capacity (rr_full r) (rr_startedAt r).

Definition list_recent (limit : Z) (r : recentRing) : list RecentDecision := rs_Decisions (snapshot limit r).

(** ** Outcome rows (engine.go) *)
Record SolveRecord := mk_solve {
  so_Host : gostring; so_IP : gostring; so_URI : gostring; so_UA : gostring; so_SolveMS : Z; so_RoundTripMS : Z;
  so_Algorithm : gostring; so_Bits : Z; so_MemoryKiB : Z; so_Iterations : Z; so_NoJS : bool
}.

Definition RecordSolve (rec : SolveRecord) (now : Z) (r : recentRing) : recentRing :=
  add (mk_recent now (so_Host rec) (so_IP rec) [] (so_URI rec) (so_UA rec) ActionSolve (if so_NoJS rec then ReasonNoJS else ReasonSolved) []
         (clampMS (so_SolveMS rec)) (clampMS (so_RoundTripMS rec)) (if bool_decide (so_Algorithm rec = []) then lit "sha256" else so_Algorithm rec)
         (clampBits (so_Bits rec)) (so_MemoryKiB rec) (so_Iterations rec)) now r.

Definition RecordRedeemFailure (host ip ua reason : gostring) (now : Z) (r : recentRing) : recentRing :=
  add (mk_recent now host ip [] [] ua ActionRedeemFail reason [] 0 0 [] 0 0 0) now r.

Definition RecordNetworkHandover (host ip uri ua : gostring) (now : Z) (r : recentRing) : recentRing :=
  add (mk_recent now host ip [] uri ua ActionRedeemRetry ReasonNetworkHandover [] 0 0 [] 0 0 0) now r.

(** ** The ring is the latest entries *)
Definition adds (ds : list (RecentDecision * Z)) (r : recentRing) : recentRing := fold_left (fun r d => add d.1 d.2 r) ds r.

Definition entries (ds : list (RecentDecision * Z)) : list RecentDecision := map (fun d => truncated d.1) ds.

Record ring_ok (cap : nat) (ds : list RecentDecision) (r : recentRing) : Prop := {
  ro_cap : length (rr_buf r) = cap;
  ro_next : rr_next r = (length ds mod cap)%nat;
  ro_count : rr_count r = Nat.min (length ds) cap;
  ro_full : rr_full r = (cap <? length ds)%nat;
  ro_at : forall i, (i < length ds)%nat -> (length ds <= i + cap)%nat -> rr_buf r !! (i mod cap)%nat = ds !! i
}.

Lemma succ_mod n cap : (0 < cap)%nat -> (S n mod cap = if S (n mod cap) =? cap then 0 else S (n mod cap))%nat.
Proof.
  intros Hc. pose proof (Nat.mod_upper_bound n cap ltac:(lia)). rewrite (Nat.div_mod n cap) at 1 by lia.
  replace (S (cap * (n / cap) + n mod cap))%nat with (S (n mod cap) + (n / cap) * cap)%nat by lia. rewrite Nat.Div0.mod_add.
  destruct (Nat.eqb_spec (S (n mod cap)) cap) as [-> |]; [apply Nat.Div0.mod_same | apply Nat.mod_small; lia].
Qed.

(** Two positions less than a turn apart share a slot only if equal. *)
Lemma mod_window cap a b : (0 < cap)%nat -> (b mod cap = a mod cap)%nat -> (a <= b < a + cap)%nat -> a = b.
Proof.
  intros Hc Hm Hb. pose proof (Nat.div_mod a cap ltac:(lia)) as Ha. pose proof (Nat.div_mod b cap ltac:(lia)) as Hb'. rewrite Hm in Hb'.
  assert (b / cap = a / cap)%nat; [| congruence]. nia.
Qed.

Lemma add_ok cap ds d now r : (0 < cap)%nat -> ring_ok cap ds r -> ring_ok cap (ds ++ [truncated d]) (add d now r) /\ rr_startedAt (add d now r) = rr_startedAt r.
Proof.
  intros Hc [Hcap Hnext Hcount Hfull Hat]. unfold add. destruct (rr_buf r) as [| x buf] eqn:Eb; [cbn in Hcap; lia |]. rewrite <- Eb in *. clear Eb.
  assert (Hl : length (ds ++ [truncated d]) = S (length ds)) by (rewrite length_app; cbn; lia).
  pose proof (Nat.mod_upper_bound (length ds) cap ltac:(lia)) as Hb. rewrite Hcap, Hcount.
  destruct (Nat.eqb_spec (Nat.min (length ds) cap) cap) as [E | E]; (split; [| done]);
    (constructor; cbn [rr_buf rr_next rr_count rr_full]; rewrite ?Hl, ?length_insert; try done; try lia).
  - by rewrite Hnext, succ_mod.
  - symmetry. apply Nat.ltb_lt. lia.
  - intros i Hi Hi2. rewrite Hnext. destruct (decide (i = length ds)) as [-> | Hne].
    + rewrite list_lookup_insert_eq by lia. rewrite lookup_app_r by lia. by rewrite Nat.sub_diag.
    + rewrite lookup_app_l by lia. rewrite list_lookup_insert_ne; [apply Hat; lia |]. intros Heq. apply Hne. by apply (mod_window cap); [| | lia].
  - by rewrite Hnext, succ_mod.
  - rewrite Hfull. destruct (Nat.ltb_spec cap (length ds)), (Nat.ltb_spec cap (S (length ds))); try done; lia.
  - intros i Hi Hi2. rewrite Hnext. destruct (decide (i = length ds)) as [-> | Hne].
    + rewrite list_lookup_insert_eq by lia. rewrite lookup_app_r by lia. by rewrite Nat.sub_diag.
    + rewrite lookup_app_l by lia. rewrite list_lookup_insert_ne; [apply Hat; lia |]. intros Heq. apply Hne. by apply (mod_window cap); [| | lia].
Qed.

Lemma adds_ok cap (ds : list (RecentDecision * Z)) : (0 < cap)%nat -> forall ds0 r, ring_ok cap ds0 r ->
  ring_ok cap (ds0 ++ entries ds) (adds ds r) /\ rr_startedAt (adds ds r) = rr_startedAt r.
Proof.
  intros Hc. induction ds as [| [d now] ds IH]; intros ds0 r Hr; cbn [adds fold_left entries map]; [by rewrite app_nil_r |].
  destruct (add_ok cap ds0 d now r Hc Hr) as [Hr' Hs]. destruct (IH _ _ Hr') as [Ho Hst]. unfold entries in Ho. rewrite <- app_assoc in Ho.
  split; [exact Ho |]. unfold adds in Hst. cbn [fst snd]. by rewrite Hst.
Qed.

Lemma back_slot n cap i : (1 <= i <= cap)%nat -> (i <= n)%nat -> ((n mod cap + cap - i) mod cap = (n - i) mod cap)%nat.
Proof.
  intros Hi Hn. pose proof (Nat.div_mod n cap ltac:(lia)) as Hd. pose proof (Nat.mod_upper_bound n cap ltac:(lia)) as Hb.
  destruct (decide (i <= n mod cap)%nat) as [Hle | Hgt].
  - replace (n mod cap + cap - i)%nat with (n mod cap - i + 1 * cap)%nat by lia. rewrite Nat.Div0.mod_add.
    replace (n - i)%nat with (n mod cap - i + (n / cap) * cap)%nat by nia. by rewrite Nat.Div0.mod_add.
  - assert (Hq : (0 < n / cap)%nat) by (destruct (n / cap)%nat; nia).
    replace (n - i)%nat with (n mod cap + cap - i + (n / cap - 1) * cap)%nat by nia. by rewrite Nat.Div0.mod_add.
Qed.

Lemma snapshot_ok cap ds r limit : (0 < cap)%nat -> ring_ok cap ds r ->
  rs_Decisions (snapshot limit r) =
    take (if (limit <=? 0) || (Z.of_nat (rr_count r) <? limit) then Nat.min (length ds) cap else Z.to_nat limit) (rev ds).
Proof.
  intros Hc [Hcap Hnext Hcount Hfull Hat]. unfold snapshot. cbn [rs_Decisions]. rewrite Hcap.
  set (m := if (limit <=? 0) || (Z.of_nat (rr_count r) <? limit) then rr_count r else Z.to_nat limit).
  assert (Hm : (m <= Nat.min (length ds) cap)%nat).
  { unfold m. destruct ((limit <=? 0) || _) eqn:E; [lia |]. apply orb_false_iff in E. rewrite Z.leb_gt, Z.ltb_ge in E. lia. }
  replace (if (limit <=? 0) || _ then Nat.min _ _ else Z.to_nat limit) with m by (unfold m; by rewrite Hcount). clearbody m.
  apply list_eq. intros j. destruct (decide (j < m)%nat) as [Hj | Hj].
  - rewrite (list_lookup_fmap _ (seq 1 m)), lookup_seq_lt by done. cbn [fmap option_fmap option_map].
    rewrite lookup_take_lt by done. rewrite Hnext, back_slot by lia. rewrite Hat by lia.
    rewrite (rev_alt ds : rev ds = reverse ds), reverse_lookup by lia. change (1 + j)%nat with (S j).
    destruct (ds !! (length ds - S j)%nat) eqn:El; [done |]. apply lookup_ge_None in El. lia.
  - rewrite !(proj2 (lookup_ge_None _ j)); [done | rewrite length_take; lia | rewrite length_map, length_seq; lia].
Qed.

(** * Properties *)

(** *)
Theorem recent_ring_lists_latest (size now limit : Z) (ds : list (RecentDecision * Z)) :
  let cap := if size <=? 0 then defaultRecentDecisionsCapacity else Z.to_nat size in
  let r := adds ds (newRecentRing size now) in
  list_recent limit r = take (if (limit <=? 0) || (Z.of_nat (Nat.min (length ds) cap) <? limit) then cap else Z.to_nat limit) (rev (entries ds)) /\
  rs_Capacity (snapshot limit r) = cap /\ rs_Full (snapshot limit r) = (cap <? length ds)%nat /\ rs_StartedAt (snapshot limit r) = now.
Proof.
  intros cap r. assert (Hc : (0 < cap)%nat).
  { unfold cap. destruct (size <=? 0) eqn:E; bool_to_prop; [unfold defaultRecentDecisionsCapacity; lia | lia]. }
  assert (Hnew : ring_ok cap [] (newRecentRing size now)).
  { constructor; cbn [newRecentRing rr_buf rr_next rr_count rr_full length].
    - by rewrite length_replicate.
    - by rewrite Nat.Div0.mod_0_l.
    - done.
    - symmetry. apply Nat.ltb_ge. lia.
    - intros i Hi. lia. }
  destruct (adds_ok cap ds Hc [] _ Hnew) as [Hr Hs]. fold r in Hr, Hs. cbn [app] in Hr.
  assert (Hl : length (entries ds) = length ds) by (unfold entries; apply length_map). split_ands.
  - unfold list_recent. rewrite (snapshot_ok cap _ _ limit Hc Hr), (ro_count _ _ _ Hr), Hl. destruct (_ || _) eqn:E; [| done].
    destruct (decide (length ds <= cap)%nat) as [Hle | Hgt]; [| by rewrite Nat.min_r by lia].
    rewrite !take_ge; [done | rewrite length_rev, Hl; lia | rewrite length_rev, Hl; lia].
  - unfold snapshot. cbn [rs_Capacity]. rewrite (ro_cap _ _ _ Hr). destruct (Nat.eqb_spec cap 0); [lia | done].
  - unfold snapshot. cbn [rs_Full]. by rewrite (ro_full _ _ _ Hr), Hl.
  - unfold snapshot. cbn [rs_StartedAt]. by rewrite Hs.
Qed.
