(* ===== verification/Settings.v ===== *)
(** * The global settings (core/config.go)

    The sections of guardian.yaml that are not per domain: listeners, admin
    API, store backend, block enforcement, attack posture, Argon2 slots and
    reputation feeds.  Each [validate] fills the defaults of a decoded section
    and refuses what the daemon could not run; the views the daemon builds from
    them ([EnforceConfig], [AttackModeSettings], [IntelConfig]) are the inputs
    of the components that model those parts.

    Difficulties are exact rationals as in [DomainConfig], ratios are float64. *)

From Stdlib Require Import QArith Qround Qabs.
From S2P Require Import BotVerify HeaderExempt UrlPath Stateless Waf Recent Intel Scoreboard Enforce AttackMode DomainConfig.

Open Scope Z_scope.

Inductive settings_error :=
| EMirrorMode (m : gostring) | EReconcileInterval | EMirrorEntries
| ENftMode (m : gostring) | ENftHook (h : gostring) | ENftPort (p : Z) | ENftEntries | ENftTTL | ENeverBlock (s : gostring) | ENotLinux | EAllPorts
| EWindow | EDwell | EAttackRate | ERatio (name : gostring) | ERaise (name : gostring) | ERaiseStep (name : gostring) | ECap | EFactor | EInflight
| EFeedName (i : nat) | EFeedDuplicate (n : gostring) | EFeedSource (n : gostring) | EFeedScheme (n : gostring) | EFeedAction (n : gostring) | EFeedRefresh (n : gostring)
| EListenSyntax (field : gostring) | EListenPort (field : gostring) | EListenExposed
| ESocketRelative | ESocketNul | ESocketStat | ESocketNotDir | ESocketWritable | ESocketMode | ELogLevel (l : gostring)
| EDecisionsNegative | EDecisionsTooMany | EAdminExposed | EAngieURL | EAngieScheme | EAngieHost | EAngieTimeout
| EStorePath (b : gostring) | EStoreSync | EStoreAddr | EStoreBackend (b : gostring) | EArgonSlots.

Definition demand (b : bool) (e : settings_error) : outcome settings_error unit := if b then Ok tt else Err e.
Definition one_of (x : gostring) (xs : list gostring) : bool := bool_decide (x ∈ xs).
(** A field left out takes its default. *)
Definition text_or (x d : gostring) : gostring := if bool_decide (x = []) then d else x.
Definition int_or (n d : Z) : Z := if n =? 0 then d else n.

Open Scope go_scope.

(** ** Enforcement *)
Record MirrorConfig := mk_mirrorcfg { mi_ReconcileInterval : Z; mi_MaxEntries : Z; mi_Mode : gostring }.
Record NFTablesConfig := mk_nft {
  nf_Enabled : bool; nf_Mode : gostring; nf_Table : gostring; nf_Hook : gostring; nf_Ports : option (list Z);
  nf_NetNS : gostring; nf_MaxEntries : Z; nf_MinTTL : Z; nf_NeverBlock : list gostring; nf_AllowPrivate : bool; nf_neverBlock : list Prefix }.
Record EnforcementConfig := mk_enforcement { en_Mirror : MirrorConfig; en_NFTables : NFTablesConfig }.

Definition parsePrefixOrAddr (s : gostring) : option Prefix :=
  if contains "/"%char s then Masked <$> ParsePrefix s
  else (fun a => PrefixFrom a (BitLen a)) <$> ParseAddr s.

Fixpoint parse_never (ss : list gostring) : outcome settings_error (list Prefix) :=
  match ss with
  | [] => Ok []
  | s :: rest =>
    match parsePrefixOrAddr s with
    | None => Err (ENeverBlock s)
    | Some p => let! ps := parse_never rest in Ok (p :: ps)
    end
  end.

Definition validate_mirror (m : MirrorConfig) : outcome settings_error MirrorConfig :=
  let! _ := demand (one_of (mi_Mode m) [[]; lit "auto"; lit "authoritative"; lit "read_through"]) (EMirrorMode (mi_Mode m)) in
  let interval := int_or (mi_ReconcileInterval m) (10 * second) in
  let! _ := demand (second <=? interval) EReconcileInterval in
  let entries := int_or (mi_MaxEntries m) (Z.shiftl 1 20) in
  let! _ := demand (0 <=? entries) EMirrorEntries in
  Ok (mk_mirrorcfg interval entries (text_or (mi_Mode m) (lit "auto"))).

Definition port_ok (p : Z) : bool := (1 <=? p) && (p <=? 65535).

(** [linux]: whether [runtime.GOOS] is linux. *)
Definition validate_nft (linux : bool) (n : NFTablesConfig) : outcome settings_error NFTablesConfig :=
  let! _ := demand (one_of (nf_Mode n) [[]; lit "managed"; lit "sets_only"]) (ENftMode (nf_Mode n)) in
  let mode := text_or (nf_Mode n) (lit "managed") in
  let! _ := demand (one_of (nf_Hook n) [[]; lit "input"; lit "prerouting"]) (ENftHook (nf_Hook n)) in
  let ports := default [80; 443] (nf_Ports n) in
  let! _ := match List.find (fun p => negb (port_ok p)) ports with Some p => Err (ENftPort p) | None => Ok tt end in
  let entries := int_or (nf_MaxEntries n) 65536 in
  let! _ := demand (0 <=? entries) ENftEntries in
  let! _ := demand (0 <=? nf_MinTTL n) ENftTTL in
  let! never := parse_never (nf_NeverBlock n) in
  let! _ := demand (negb (nf_Enabled n) || linux) ENotLinux in
  let! _ := demand (negb (nf_Enabled n && bool_decide (mode = lit "managed") && is_nil ports)) EAllPorts in
  Ok (mk_nft (nf_Enabled n) mode (text_or (nf_Table n) (lit "guardian")) (text_or (nf_Hook n) (lit "input")) (Some ports) (nf_NetNS n)
        entries (nf_MinTTL n) (nf_NeverBlock n) (nf_AllowPrivate n) never).

Definition validate_enforcement (linux : bool) (e : EnforcementConfig) : outcome settings_error EnforcementConfig :=
  let! m := validate_mirror (en_Mirror e) in
  let! n := validate_nft linux (en_NFTables e) in
  Ok (mk_enforcement m n).

(** The configuration of the kernel sink, ports as uint16. *)
Record NFTConfig := mk_nftcfg {
  nc_Enabled : bool; nc_Mode : gostring; nc_Table : gostring; nc_Hook : gostring; nc_Ports : list Z;
  nc_NetNS : gostring; nc_MaxEntries : Z; nc_MinTTL : Z; nc_NeverBlock : list Prefix; nc_AllowPrivate : bool }.
Record ManagerConfig := mk_mgrcfg { mc_KeyPrefix : gostring; mc_ReconcileInterval : Z; mc_MaxEntries : Z; mc_Mode : gostring; mc_NFTables : NFTConfig }.

Definition EnforceConfig (backend : gostring) (e : EnforcementConfig) : ManagerConfig :=
  let m := en_Mirror e in
  let mode := if one_of (mi_Mode m) [[]; lit "auto"]
              then (if bool_decide (backend = lit "redis") then lit "read_through" else lit "authoritative") else mi_Mode m in
  let n := en_NFTables e in
  mk_mgrcfg Scoreboard.blockKeyPrefix (mi_ReconcileInterval m) (mi_MaxEntries m) mode
    (mk_nftcfg (nf_Enabled n) (nf_Mode n) (nf_Table n) (nf_Hook n) (map (fun p => p mod 2 ^ 16) (default [] (nf_Ports n)))
       (nf_NetNS n) (nf_MaxEntries n) (nf_MinTTL n) (nf_neverBlock n) (nf_AllowPrivate n)).

(** ** Attack posture *)
Record AttackSignalsConfig := mk_asignals {
  as_ChallengeRate : Rate; as_AttackChallengeRate : Rate; as_MinSolveRatio : float; as_RequestRate : Rate;
  as_StoreErrorRatio : float; as_StoreSlowRatio : float }.
(** A difficulty pointer: [None] when left out, [Some None] a NaN or an
    infinity. *)
Record AttackEffectsConfig := mk_aeffects {
  ae_ElevatedDifficultyRaise : option (option Q); ae_AttackDifficultyRaise : option (option Q); ae_DifficultyCap : option (option Q);
  ae_ForceAlways : option bool; ae_StatelessIssuance : option bool; ae_ScoreboardFactor : float; ae_MaxInflight : Z }.
Record AttackModeConfig := mk_attackmode {
  am_Enabled : bool; am_Window : Z; am_MinDwell : Z; am_SharePosture : option bool;
  am_Signals : AttackSignalsConfig; am_Effects : AttackEffectsConfig }.

Definition elevatedRaise (e : AttackEffectsConfig) : option Q := default (Some (1 # 2)%Q) (ae_ElevatedDifficultyRaise e).
Definition attackRaise (e : AttackEffectsConfig) : option Q := default (Some 1%Q) (ae_AttackDifficultyRaise e).
Definition effects_cap (e : AttackEffectsConfig) : option Q := default (Some 7%Q) (ae_DifficultyCap e).

Definition ExtraBits (a : AttackModeConfig) (level : Z) : Z :=
  if level =? 1 then bits_of (elevatedRaise (am_Effects a)) else if level =? 2 then bits_of (attackRaise (am_Effects a)) else 0.
Definition CapBits (a : AttackModeConfig) : Z := bits_of (effects_cap (am_Effects a)).
Definition SharePostureEnabled (a : AttackModeConfig) : bool := default true (am_SharePosture a).
Definition ForceAlwaysEnabled (e : AttackEffectsConfig) : bool := default true (ae_ForceAlways e).
Definition StatelessEnabled (e : AttackEffectsConfig) : bool := default true (ae_StatelessIssuance e).

(** [Duration.Seconds]. *)
Definition Seconds (d : Z) : float := fadd (f64 (Z.quot d second)) (fdiv (f64 (Z.rem d second)) (f64 second)).
Definition perSecond (r : Rate) : float := if rt_Per r <=? 0 then f64 0 else fdiv (f64 (rt_Count r)) (Seconds (rt_Per r)).

Definition fzero (f : float) : bool := SFeqb f (f64 0).
Definition rate_zero (r : Rate) : bool := (rt_Count r =? 0) && (rt_Per r =? 0).
Definition ratioField (name : gostring) (v : float) : outcome settings_error unit :=
  demand (finite v && negb (fle v (f64 0)) && negb (fgt v (f64 1))) (ERatio name).

(** The whole block left out takes the standard signals. *)
Definition no_signals (s : AttackSignalsConfig) : bool :=
  rate_zero (as_ChallengeRate s) && rate_zero (as_AttackChallengeRate s) && fzero (as_MinSolveRatio s) && rate_zero (as_RequestRate s) &&
  fzero (as_StoreErrorRatio s) && fzero (as_StoreSlowRatio s).
Definition a_fifth : float := fdiv (f64 1) (f64 5).                (* 0.2 *)
Definition standard_signals : AttackSignalsConfig :=
  mk_asignals (mk_rate 200 second) (mk_rate 1000 second) a_fifth (mk_rate 0 0) (fdiv (f64 1) (f64 20)) (fdiv (f64 1) (f64 4)).

Definition fill_signals (s : AttackSignalsConfig) : AttackSignalsConfig :=
  let s := if no_signals s then standard_signals else s in
  if fzero (as_MinSolveRatio s)
  then mk_asignals (as_ChallengeRate s) (as_AttackChallengeRate s) a_fifth (as_RequestRate s) (as_StoreErrorRatio s) (as_StoreSlowRatio s) else s.

Definition optional_ratio (name : gostring) (v : float) : outcome settings_error unit := if fzero v then Ok tt else ratioField name v.

Definition validate_signals (s : AttackSignalsConfig) : outcome settings_error AttackSignalsConfig :=
  let s := fill_signals s in
  let! _ := demand (negb (negb (rt_Count (as_ChallengeRate s) =? 0) && negb (rt_Count (as_AttackChallengeRate s) =? 0) &&
                          flt (perSecond (as_AttackChallengeRate s)) (perSecond (as_ChallengeRate s)))) EAttackRate in
  let! _ := ratioField (lit "min_solve_ratio") (as_MinSolveRatio s) in
  let! _ := optional_ratio (lit "store_error_ratio") (as_StoreErrorRatio s) in
  let! _ := optional_ratio (lit "store_slow_ratio") (as_StoreSlowRatio s) in
  Ok s.

Definition in_bounds (lo hi q : Q) : bool := Qle_bool lo q && Qle_bool q hi.
Definition validate_raise (name : gostring) (v : option Q) : outcome settings_error unit :=
  match v with
  | None => Err (ERaise name)
  | Some q => let! _ := demand (in_bounds 0 2 q) (ERaise name) in demand (negb (off_step q)) (ERaiseStep name)
  end.

Definition validate_effects (e : AttackEffectsConfig) : outcome settings_error AttackEffectsConfig :=
  let! _ := validate_raise (lit "elevated_difficulty_raise") (elevatedRaise e) in
  let! _ := validate_raise (lit "attack_difficulty_raise") (attackRaise e) in
  let! _ := demand (match effects_cap e with Some c => in_bounds 1 8 c | None => false end) ECap in
  let factor := if fzero (ae_ScoreboardFactor e) then f64 1 else ae_ScoreboardFactor e in
  let! _ := demand (finite factor && negb (fle factor (f64 0)) && negb (fgt factor (f64 1))) EFactor in
  let! _ := demand (0 <=? ae_MaxInflight e) EInflight in
  Ok (mk_aeffects (ae_ElevatedDifficultyRaise e) (ae_AttackDifficultyRaise e) (ae_DifficultyCap e) (ae_ForceAlways e) (ae_StatelessIssuance e)
        factor (ae_MaxInflight e)).

Definition validate_attack (a : AttackModeConfig) : outcome settings_error AttackModeConfig :=
  let window := int_or (am_Window a) (30 * second) in
  let! _ := demand ((10 * second <=? window) && (window <=? 10 * minute)) EWindow in
  let dwell := int_or (am_MinDwell a) (60 * second) in
  let! _ := demand (window <=? dwell) EDwell in
  let! signals := validate_signals (am_Signals a) in
  let! effects := validate_effects (am_Effects a) in
  Ok (mk_attackmode (am_Enabled a) window dwell (am_SharePosture a) signals effects).

Definition AttackModeSettings (a : AttackModeConfig) : AttackMode.Config :=
  let s := am_Signals a in
  let e := am_Effects a in
  mk_config (am_Enabled a) (am_Window a) (am_MinDwell a) (SharePostureEnabled a)
    (perSecond (as_ChallengeRate s)) (perSecond (as_AttackChallengeRate s)) (as_MinSolveRatio s) (perSecond (as_RequestRate s))
    (as_StoreErrorRatio s) (as_StoreSlowRatio s) (ExtraBits a 1) (ExtraBits a 2) (CapBits a) (ForceAlwaysEnabled e) (StatelessEnabled e).

(** ** Reputation feeds *)
Definition feed_name_char (c : ascii) : bool :=
  let v := byteZ c in
  ((97 <=? v) && (v <=? 122)) || ((65 <=? v) && (v <=? 90)) || ((48 <=? v) && (v <=? 57)) || one_of [c] [lit "."; lit "_"; lit "-"].
(** A byte above 127 belongs to no accepted rune. *)
Definition validFeedName (name : gostring) : bool := (0 <? length name)%nat && (length name <=? 64)%nat && forallb feed_name_char name.

Definition validate_feed (i : nat) (seen : gset gostring) (f : FeedConfig) : outcome settings_error FeedConfig :=
  let name := fc_Name f in
  let! _ := demand (validFeedName name) (EFeedName i) in
  let! _ := demand (negb (bool_decide (name ∈ seen))) (EFeedDuplicate name) in
  let! _ := demand (negb (Bool.eqb (bool_decide (fc_URL f = [])) (bool_decide (fc_File f = [])))) (EFeedSource name) in
  let remote := negb (bool_decide (fc_URL f = [])) in
  let! _ := demand (negb (remote && negb (has_prefix (lit "http://") (fc_URL f)) && negb (has_prefix (lit "https://") (fc_URL f)))) (EFeedScheme name) in
  let! _ := demand (one_of (fc_Action f) [[]; lit "deny"; lit "challenge"]) (EFeedAction name) in
  let refresh := int_or (fc_Refresh f) (12 * hour) in
  let! _ := demand (negb (remote && (refresh <? minute))) (EFeedRefresh name) in
  Ok (mk_feedcfg name (fc_URL f) (fc_File f) refresh (text_or (fc_Action f) (lit "deny"))).

Fixpoint validate_feeds (i : nat) (seen : gset gostring) (fs : list FeedConfig) : outcome settings_error (list FeedConfig) :=
  match fs with
  | [] => Ok []
  | f :: rest =>
    let! f := validate_feed i seen f in
    let! rest := validate_feeds (S i) ({[fc_Name f]} ∪ seen) rest in
    Ok (f :: rest)
  end.

Record ReputationFeeds := mk_feeds { rf_CacheDir : gostring; rf_Feeds : list FeedConfig }.
Definition validate_reputation (r : ReputationFeeds) : outcome settings_error ReputationFeeds :=
  let! fs := validate_feeds 0 ∅ (rf_Feeds r) in Ok (mk_feeds (rf_CacheDir r) fs).

Definition IntelConfig_of (location asn : gostring) (r : ReputationFeeds) : IntelConfig := mk_icfg location asn (rf_CacheDir r) (rf_Feeds r).

(** ** Listeners *)

(** [strconv.ParseUint(port, 10, 16)] succeeds. *)
Definition port_number (port : gostring) : bool := match parse_magnitude port with Some n => n <=? 65535 | None => false end.

Definition validateListenAddress (field addr : gostring) : outcome settings_error unit :=
  match SplitHostPort addr with
  | None => Err (EListenSyntax field)
  | Some (_, port) =>
    let! _ := demand (negb (bool_decide (port = []))) (EListenPort field) in
    demand (port_number port) (EListenPort field)
  end.

(** [net.ParseIP] takes no zone; [IP.IsLoopback] reads a mapped address as
    IPv4. *)
Definition net_ParseIP (s : gostring) : option addr := match ParseAddr s with Some a => if hasZone a then None else Some a | None => None end.
Definition IsLoopback (a : addr) : bool :=
  match Unmap a with V4 n => Z.shiftr n 24 =? 127 | V6 g _ => bool_decide (g = [0; 0; 0; 0; 0; 0; 0; 1]) end.

Definition listenIsLoopback (addr : gostring) : bool :=
  match SplitHostPort addr with
  | None => false
  | Some (host, _) => bool_decide (host = lit "localhost") || match net_ParseIP host with Some a => IsLoopback a | None => false end
  end.

Definition defaultListen : gostring := lit "127.0.0.1:8071".
Definition defaultSocket : gostring := lit "/run/guardian/guardian.sock".
Definition defaultSocketMode : gostring := lit "0660".

(** Neither endpoint configured: both defaults. *)
Definition endpoints (listen socket : gostring) : gostring * gostring :=
  if is_nil listen && is_nil socket then (defaultListen, defaultSocket) else (listen, socket).

(** What [os.Stat] answers. *)
Inductive stat_answer := StatMissing | StatFailed | StatInfo (dir : bool) (perm : Z).

(** [filepath.IsAbs], [filepath.Dir]. *)
Definition IsAbs (p : gostring) : bool := has_prefix (lit "/") p.
Definition Dir (p : gostring) : gostring := match split_last "/"%char p with Some (d, _) => Clean (d ++ lit "/") | None => Clean [] end.

Definition ValidateSocketParent (stat : gostring -> stat_answer) (socketPath : gostring) : outcome settings_error unit :=
  match stat (Dir socketPath) with
  | StatMissing => Ok tt
  | StatFailed => Err ESocketStat
  | StatInfo dir perm =>
    let! _ := demand dir ESocketNotDir in
    demand (Z.land perm 18 =? 0) ESocketWritable                 (* 0o022 *)
  end.

Definition validate_socket (stat : gostring -> stat_answer) (socket : gostring) : outcome settings_error unit :=
  if is_nil socket then Ok tt else
  let! _ := demand (IsAbs socket) ESocketRelative in
  let! _ := demand (negb (contains (Zbyte 0) socket)) ESocketNul in
  ValidateSocketParent stat socket.

Definition octal_digit (c : ascii) : bool := (48 <=? byteZ c) && (byteZ c <=? 55).
Definition socket_mode_ok (m : gostring) : bool :=
  match m with [z; a; b; c] => (byteZ z =? 48) && octal_digit a && octal_digit b && octal_digit c | _ => false end.

(** ** Admin API *)
Record AngieAPIConfig := mk_angie { aa_URL : gostring; aa_Timeout : Z }.
Record AdminConfig := mk_admin {
  ad_Listen : gostring; ad_Token : gostring; ad_RecentDecisionsCapacity : Z; ad_TokenFile : gostring;
  ad_MetricsAuth : bool; ad_Dashboard : bool; ad_DiagnosticsEnabled : bool; ad_AngieAPI : AngieAPIConfig }.

Definition maxRecentDecisionsCapacity : Z := 16384.

(** [url.Parse]: scheme and host, [None] on error. *)
Class UrlParse := { url_Parse : gostring -> option (gostring * gostring) }.

Definition validate_angie `{UrlParse} (a : AngieAPIConfig) : outcome settings_error AngieAPIConfig :=
  if is_nil (aa_URL a) then Ok a else
  match url_Parse (aa_URL a) with
  | None => Err EAngieURL
  | Some (scheme, host) =>
    let! _ := demand (one_of scheme [lit "http"; lit "https"]) EAngieScheme in
    let! _ := demand (negb (is_nil host)) EAngieHost in
    let! _ := demand (0 <=? aa_Timeout a) EAngieTimeout in
    Ok (mk_angie (aa_URL a) (int_or (aa_Timeout a) (2 * second)))
  end.

(** [env]: the ADMIN_TOKEN variable. *)
Definition validate_admin `{UrlParse} (env : gostring) (a : AdminConfig) : outcome settings_error AdminConfig :=
  let token := text_or (ad_Token a) env in
  let capacity := int_or (ad_RecentDecisionsCapacity a) (Z.of_nat defaultRecentDecisionsCapacity) in
  let! _ := demand (0 <=? capacity) EDecisionsNegative in
  let! _ := demand (capacity <=? maxRecentDecisionsCapacity) EDecisionsTooMany in
  let! _ := (if is_nil (ad_Listen a) then Ok tt else
             let! _ := validateListenAddress (lit "admin.listen") (ad_Listen a) in
             demand (listenIsLoopback (ad_Listen a) || negb (is_nil token) || negb (is_nil (ad_TokenFile a))) EAdminExposed) in
  let! angie := validate_angie (ad_AngieAPI a) in
  Ok (mk_admin (ad_Listen a) token capacity (ad_TokenFile a) (ad_MetricsAuth a) (ad_Dashboard a) (ad_DiagnosticsEnabled a) angie).

(** ** Store backend *)
Record StoreConfig := mk_storecfg { sc_Backend : gostring; sc_Path : gostring; sc_Addr : gostring; sc_Password : gostring; sc_DB : Z; sc_Sync : bool }.

Definition validate_store (s : StoreConfig) : outcome settings_error StoreConfig :=
  let b := sc_Backend s in
  if bool_decide (b = []) then Ok (mk_storecfg (lit "memory") (sc_Path s) (sc_Addr s) (sc_Password s) (sc_DB s) (sc_Sync s))
  else if bool_decide (b = lit "memory") then Ok s
  else if bool_decide (b = lit "buntdb") then
    let! _ := demand (negb (is_nil (sc_Path s))) (EStorePath b) in
    let! _ := demand (negb (sc_Sync s)) EStoreSync in Ok s
  else if bool_decide (b = lit "pebble") then let! _ := demand (negb (is_nil (sc_Path s))) (EStorePath b) in Ok s
  else if bool_decide (b = lit "redis") then let! _ := demand (negb (is_nil (sc_Addr s))) EStoreAddr in Ok s
  else Err (EStoreBackend b).

Definition validate_slots (a : Argon2VerifierConfig) : outcome settings_error Argon2VerifierConfig :=
  let slots := int_or (av_MaxConcurrent a) 1 in
  let! _ := demand ((1 <=? slots) && (slots <=? 16)) EArgonSlots in
  Ok (mk_verifier slots (if rt_Count (av_VerificationRateLimit a) =? 0 then mk_rate 10 minute else av_VerificationRateLimit a)).

(** * Reading validation backwards *)
Lemma demand_ok b e x : demand b e = Ok x -> b = true.
Proof. by destruct b. Qed.

(** Every guard of a validation that accepted holds. *)
Ltac guards H :=
  inv_bind H; repeat match goal with E : demand _ _ = Ok _ |- _ => apply demand_ok in E end.

Lemma int_or_pos n d : 0 <= int_or n d -> 0 < d -> 0 < int_or n d.
Proof. unfold int_or. destruct (Z.eqb_spec n 0); lia. Qed.

Lemma text_or_choice (x d : gostring) xs : one_of x ([] :: xs) = true -> d ∈ xs -> text_or x d ∈ xs.
Proof.
  unfold one_of, text_or. intros Hx%bool_decide_eq_true Hd. case_bool_decide; [done |].
  by apply elem_of_cons in Hx as [-> | Hx].
Qed.

Lemma in_bounds_bits lo hi q : in_bounds (inject_Z lo) (inject_Z hi) q = true -> 0 <= lo -> lo * 4 <= difficultyBits q <= hi * 4.
Proof.
  unfold in_bounds, difficultyBits. intros H Hlo. apply andb_true_iff in H as [H1%Qle_bool_iff H2%Qle_bool_iff].
  assert (Hmul : forall x y : Q, (x <= y)%Q -> (x * 4 <= y * 4)%Q) by (intros x y Hxy; by apply Qmult_le_compat_r).
  apply (round_half_away_range (q * 4) (lo * 4) (hi * 4)); [| | lia]; rewrite inject_Z_mult; by apply Hmul.
Qed.

(** ** Enforcement *)
Lemma parse_never_ok ss : forall ps, parse_never ss = Ok ps -> map parsePrefixOrAddr ss = map Some ps.
Proof.
  induction ss as [| s ss IH]; intros ps; cbn [parse_never]; [by intros [= <-] |].
  destruct (parsePrefixOrAddr s) as [p |] eqn:E; [| done]. destruct (parse_never ss) as [rest |]; [| done].
  intros [= <-]. cbn [map]. by rewrite E, (IH rest).
Qed.

Lemma validate_mirror_ok m m' : validate_mirror m = Ok m' ->
  second <= mi_ReconcileInterval m' /\ 0 < mi_MaxEntries m' /\ mi_Mode m' ∈ [lit "auto"; lit "authoritative"; lit "read_through"] /\
  (mi_Mode m' = lit "authoritative" -> mi_Mode m = lit "authoritative").
Proof.
  unfold validate_mirror. cbv zeta. intros Hv. guards Hv. injection Hv as <-. cbn. bool_to_prop. split_ands; [done | | |].
  - apply int_or_pos; [done | by vm_compute].
  - apply text_or_choice; [done | by left].
  - unfold text_or. by case_bool_decide.
Qed.

Lemma find_all {A} (f : A -> bool) xs : List.find (fun x => negb (f x)) xs = None -> Forall (fun x => f x = true) xs.
Proof. intros Hn. apply Forall_forall. intros x Hx%list_elem_of_In. by apply negb_false_iff, (find_none _ _ Hn). Qed.

Lemma validate_nft_ok linux n n' : validate_nft linux n = Ok n' ->
  nf_Mode n' ∈ [lit "managed"; lit "sets_only"] /\ nf_Hook n' ∈ [lit "input"; lit "prerouting"] /\
  nf_Ports n' = Some (default [80; 443] (nf_Ports n)) /\ Forall (fun p => port_ok p = true) (default [80; 443] (nf_Ports n)) /\
  0 < nf_MaxEntries n' /\ 0 <= nf_MinTTL n' /\ map parsePrefixOrAddr (nf_NeverBlock n) = map Some (nf_neverBlock n') /\ nf_Enabled n' = nf_Enabled n /\
  (nf_Enabled n' = true -> linux = true /\ (nf_Mode n' = lit "managed" -> default [80; 443] (nf_Ports n) <> [])).
Proof.
  unfold validate_nft. cbv zeta. intros Hv. guards Hv.
  injection Hv as <-. cbn [nf_Mode nf_Hook nf_Ports nf_MaxEntries nf_MinTTL nf_neverBlock nf_Enabled].
  match goal with H : match List.find _ _ with _ => _ end = Ok _ |- _ => destruct (List.find _ _) eqn:Ef in H; [done |] end.
  match goal with H : parse_never _ = Ok _ |- _ => apply parse_never_ok in H end.
  split_ands; [by apply text_or_choice; [| left] | by apply text_or_choice; [| left] | done | by apply find_all | apply int_or_pos; bool_to_prop; [done | lia] |
    bool_to_prop; lia | done | done |].
  intros He. rewrite He in *. split; [by match goal with H : negb true || linux = true |- _ => cbn in H end |]. intros Hm Hnil.
  match goal with H : negb (_ && _ && is_nil _) = true |- _ => rewrite Hnil, bool_decide_eq_true_2 in H by exact Hm; done end.
Qed.

Lemma ports_uint16 ps : Forall (fun p => port_ok p = true) ps -> map (fun p => p mod 2 ^ 16) ps = ps.
Proof.
  induction 1 as [| p ps Hok _ IH]; cbn [map]; [done |]. rewrite IH. unfold port_ok in Hok. bool_to_prop. by rewrite Z.mod_small by lia.
Qed.

(** ** Attack posture *)
Lemma validate_raise_ok name v : validate_raise name v = Ok tt -> 0 <= bits_of v <= 8.
Proof.
  destruct v as [q |]; cbn [validate_raise bits_of]; [| done]. intros Hv. inv_bind Hv.
  match goal with H : demand (in_bounds _ _ _) _ = Ok _ |- _ => apply demand_ok in H; apply (in_bounds_bits 0 2) in H; lia end.
Qed.

Lemma validate_effects_ok e e' : validate_effects e = Ok e' ->
  0 <= bits_of (elevatedRaise e') <= 8 /\ 0 <= bits_of (attackRaise e') <= 8 /\ 4 <= bits_of (effects_cap e') <= 32 /\ 0 <= ae_MaxInflight e' /\
  fle (ae_ScoreboardFactor e') (f64 0) = false /\ fgt (ae_ScoreboardFactor e') (f64 1) = false.
Proof.
  unfold validate_effects. cbv zeta. intros Hv. inv_bind Hv. injection Hv as <-. repeat match goal with u : () |- _ => destruct u end.
  repeat match goal with H : validate_raise _ _ = Ok _ |- _ => apply validate_raise_ok in H end.
  repeat match goal with E : demand _ _ = Ok _ |- _ => apply demand_ok in E end.
  unfold elevatedRaise, attackRaise, effects_cap in *. cbn [ae_ElevatedDifficultyRaise ae_AttackDifficultyRaise ae_DifficultyCap ae_ScoreboardFactor ae_MaxInflight].
  match goal with H : match ?c with Some _ => _ | None => false end = true |- _ => destruct c as [q |]; [apply (in_bounds_bits 1 8) in H; [| lia] | done] end.
  bool_to_prop. split_ands; try done; cbn in *; lia.
Qed.

Lemma validate_signals_ok s s' : validate_signals s = Ok s' ->
  finite (as_MinSolveRatio s') = true /\ fle (as_MinSolveRatio s') (f64 0) = false /\ fgt (as_MinSolveRatio s') (f64 1) = false.
Proof.
  unfold validate_signals. cbv zeta. intros Hv. inv_bind Hv. injection Hv as <-.
  match goal with H : ratioField (lit "min_solve_ratio") _ = Ok _ |- _ => unfold ratioField in H; apply demand_ok in H end.
  bool_to_prop. done.
Qed.

Lemma validate_attack_ok a a' : validate_attack a = Ok a' ->
  10 * second <= am_Window a' <= 10 * minute /\ am_Window a' <= am_MinDwell a' /\ am_Enabled a' = am_Enabled a /\
  (exists s, validate_signals s = Ok (am_Signals a')) /\ (exists e, validate_effects e = Ok (am_Effects a')).
Proof.
  unfold validate_attack. cbv zeta. intros Hv. guards Hv. injection Hv as <-. cbn. bool_to_prop. split_ands; try done; try lia; eauto.
Qed.

(** A published posture raises difficulty by a configured amount. *)
Lemma publish_bits cfg level reason now cur : st_ExtraBits (publish cfg level reason now cur).1 = bitsFor cfg level.
Proof.
  unfold publish. destruct (same_posture _ _) eqn:Hs; cbn [fst].
  - unfold same_posture in Hs. bool_to_prop. done.
  - by destruct (st_Level cur =? level).
Qed.

Lemma attack_bits a a' : validate_attack a = Ok a' ->
  forall level reason now cur, 0 <= st_ExtraBits (publish (AttackModeSettings a') level reason now cur).1 <= 8.
Proof.
  intros Hv level reason now cur. destruct (validate_attack_ok _ _ Hv) as (_ & _ & _ & _ & (ef & He)). destruct (validate_effects_ok _ _ He) as (Hel & Hat & _).
  rewrite publish_bits. unfold bitsFor, AttackModeSettings. cbn [ElevatedBits AttackBits]. unfold ExtraBits. cbn [Z.eqb].
  destruct (level =? Elevated); [exact Hel |]. destruct (level =? Attack); [exact Hat | lia].
Qed.

(** ** Feeds *)
Record feed_ok (f : FeedConfig) : Prop := {
  fo_name : validFeedName (fc_Name f) = true;
  fo_source : fc_URL f = [] <-> fc_File f <> [];
  fo_scheme : fc_URL f <> [] -> has_prefix (lit "http://") (fc_URL f) = true \/ has_prefix (lit "https://") (fc_URL f) = true;
  fo_action : fc_Action f ∈ [lit "deny"; lit "challenge"];
  fo_refresh : fc_URL f <> [] -> minute <= fc_Refresh f
}.

Lemma validate_feed_ok i seen f f' : validate_feed i seen f = Ok f' -> feed_ok f' /\ fc_Name f' ∉ seen /\ fc_Name f' = fc_Name f.
Proof.
  unfold validate_feed. cbv zeta. intros Hv. guards Hv. injection Hv as <-. cbn [fc_Name].
  repeat match goal with H : negb (bool_decide (_ ∈ seen)) = true |- _ => apply negb_true_iff, bool_decide_eq_false in H end.
  split; [| done]. constructor; cbn [fc_Name fc_URL fc_File fc_Refresh fc_Action]; try done.
  - match goal with H : negb (Bool.eqb _ _) = true |- _ => revert H end. repeat case_bool_decide; intros Hs; try (by vm_compute in Hs); tauto.
  - intros Hu. match goal with H : negb (_ && negb (has_prefix _ _) && _) = true |- _ => apply negb_true_iff in H; rewrite !andb_false_iff, !negb_false_iff, bool_decide_eq_true in H end.
    tauto.
  - apply text_or_choice; [done | by left].
  - intros Hu. match goal with H : negb (_ && (_ <? minute)) = true |- _ => apply negb_true_iff in H; rewrite andb_false_iff, negb_false_iff, bool_decide_eq_true, Z.ltb_ge in H end.
    tauto.
Qed.

Lemma validate_feeds_ok fs : forall i seen fs', validate_feeds i seen fs = Ok fs' ->
  Forall feed_ok fs' /\ NoDup (map fc_Name fs') /\ forall f, f ∈ fs' -> fc_Name f ∉ seen.
Proof.
  induction fs as [| f fs IH]; intros i seen fs'; cbn [validate_feeds].
  - intros [= <-]. split_ands; [done | apply NoDup_nil_2 | by intros f ?%not_elem_of_nil].
  - destruct (validate_feed i seen f) as [f' |] eqn:Ef; [| done]. destruct (validate_feeds _ _ fs) as [rest |] eqn:Er; [| done]. intros [= <-].
    destruct (validate_feed_ok _ _ _ _ Ef) as (Hok & Hs & _). destruct (IH _ _ _ Er) as (Hall & Hn & Hseen). split_ands; [by constructor | |].
    + cbn [map]. apply NoDup_cons. split; [| done]. intros (g & Hg & Hin)%list_elem_of_fmap. specialize (Hseen g Hin). rewrite <- Hg in Hseen. set_solver.
    + intros g [-> | Hg]%elem_of_cons; [done |]. specialize (Hseen g Hg). set_solver.
Qed.

(** * Properties *)

(** The manager a validated enforcement section gives runs as configured:
    its interval is the one written (at least a second, so it is not replaced),
    ports survive the conversion to 16 bits and are never empty for a managed
    table, every never-block entry became a prefix, the sink runs on Linux
    only, and a shared store reads through unless told otherwise. *)
Theorem enforcement_runs_as_configured linux backend e e' : validate_enforcement linux e = Ok e' ->
  let c := EnforceConfig backend e' in
  let n := mc_NFTables c in
  mc_Mode c ∈ [lit "authoritative"; lit "read_through"] /\
  (backend = lit "redis" -> mi_Mode (en_Mirror e) <> lit "authoritative" -> mc_Mode c = lit "read_through") /\
  (forall md sinks, mg_Interval (newManager md (mc_ReconcileInterval c) (mc_MaxEntries c) sinks) = mc_ReconcileInterval c) /\
  second <= mc_ReconcileInterval c /\ 0 < mc_MaxEntries c /\ 0 < nc_MaxEntries n /\
  nc_Ports n = default [80; 443] (nf_Ports (en_NFTables e)) /\ Forall (fun p => 1 <= p <= 65535) (nc_Ports n) /\
  map parsePrefixOrAddr (nf_NeverBlock (en_NFTables e)) = map Some (nc_NeverBlock n) /\
  (nc_Enabled n = true -> linux = true /\ (nc_Mode n = lit "managed" -> nc_Ports n <> [])).
Proof.
  unfold validate_enforcement. intros Hv. destruct (validate_mirror (en_Mirror e)) as [m |] eqn:Em; [| done].
  destruct (validate_nft linux (en_NFTables e)) as [n |] eqn:En; [| done]. injection Hv as <-.
  destruct (validate_mirror_ok _ _ Em) as (Hi & He & Hm & Hauth). destruct (validate_nft_ok _ _ _ En) as (Hmode & _ & Hports & Hp & Hne & _ & Hnever & _ & Hon).
  cbv zeta. unfold EnforceConfig. cbn [en_Mirror en_NFTables mc_Mode mc_ReconcileInterval mc_MaxEntries mc_NFTables nc_MaxEntries nc_Ports nc_NeverBlock nc_Enabled nc_Mode].
  assert (Hsame : map (fun p => p mod 2 ^ 16) (default [] (nf_Ports n)) = default [80; 443] (nf_Ports (en_NFTables e))).
  { rewrite Hports. by apply ports_uint16. }
  rewrite !Hsame. split_ands; try done.
  - destruct (one_of (mi_Mode m) [[]; lit "auto"]) eqn:Eo; [case_bool_decide; set_solver |].
    unfold one_of in Eo. apply bool_decide_eq_false in Eo. set_solver.
  - intros -> Hna. destruct (one_of (mi_Mode m) [[]; lit "auto"]) eqn:Eo; [done |].
    unfold one_of in Eo. apply bool_decide_eq_false in Eo. rewrite !elem_of_cons in Hm. rewrite !elem_of_cons in Eo. tauto.
  - intros md sinks. unfold newManager. cbn [mg_Interval]. by rewrite (proj2 (Z.ltb_ge _ _)) by lia.
  - eapply Forall_impl; [exact Hp |]. intros p Hok. unfold port_ok in Hok. bool_to_prop. lia.
Qed.

(** The detector settings of a validated attack-mode section: a window of two
    to 120 buckets that the dwell time covers, a usable solve ratio, and raises
    of at most 8 bits under a cap of 4 to 32, so no published posture ever
    lowers a difficulty. *)
Theorem attack_settings_usable a a' : validate_attack a = Ok a' ->
  let s := AttackModeSettings a' in
  (2 <= ring_size s <= 120)%nat /\ 0 < Window s <= MinDwell s /\
  finite (MinSolveRatio s) = true /\ fle (MinSolveRatio s) (f64 0) = false /\ fgt (MinSolveRatio s) (f64 1) = false /\
  4 <= cfg_CapBits s <= 32 /\ 0 <= ae_MaxInflight (am_Effects a') /\
  forall level reason now cur, 0 <= st_ExtraBits (publish s level reason now cur).1 <= 8.
Proof.
  intros Hv. destruct (validate_attack_ok _ _ Hv) as (Hw & Hd & _ & (sg & Hs) & (ef & He)). cbv zeta.
  destruct (validate_signals_ok _ _ Hs) as (Hf & Hlo & Hhi). destruct (validate_effects_ok _ _ He) as (Hel & Hat & Hcap & Hin & _ & _).
  pose proof (attack_bits a a' Hv) as Hbits.
  split; [| split_ands; try done; unfold AttackModeSettings, CapBits; cbn [Window MinDwell cfg_CapBits]; assert (0 < second) by (by vm_compute); lia].
  unfold AttackModeSettings, ring_size. cbn [Window MinDwell MinSolveRatio cfg_CapBits]. unfold bucketWidth.
  assert (0 < second) by (by vm_compute). unfold minute in *. split.
  - assert (2 <= am_Window a' ÷ (5 * second)); [| lia]. apply Z.quot_le_lower_bound; lia.
  - assert (am_Window a' ÷ (5 * second) <= 120); [| lia]. rewrite Z.quot_div_nonneg by lia. apply Z.div_le_upper_bound; lia.
Qed.

(** An accepted list of feeds: file-safe names, each once, each feed with
    exactly one source, and remote ones refetched at most every minute. *)
Theorem feeds_well_formed r r' : validate_reputation r = Ok r' -> Forall feed_ok (rf_Feeds r') /\ NoDup (map fc_Name (rf_Feeds r')).
Proof.
  unfold validate_reputation. destruct (validate_feeds 0 ∅ (rf_Feeds r)) as [fs |] eqn:E; [| done]. intros [= <-].
  by destruct (validate_feeds_ok _ _ _ _ E) as (Hall & Hn & _).
Qed.

(** ** Concrete sections *)
Module Ex.
Definition sections : EnforcementConfig :=
  mk_enforcement (mk_mirrorcfg 0 0 []) (mk_nft true [] [] [] None [] 0 0 [lit "10.0.0.0/8"; lit "192.0.2.1"] false []).
Definition filled : EnforcementConfig := match validate_enforcement true sections with Ok e => e | Err _ => sections end.
Definition attack : AttackModeConfig :=
  mk_attackmode true 0 0 None (mk_asignals (mk_rate 0 0) (mk_rate 0 0) (f64 0) (mk_rate 0 0) (f64 0) (f64 0)) (mk_aeffects None None None None None (f64 0) 0).
Definition armed : AttackModeConfig := match validate_attack attack with Ok a => a | Err _ => attack end.
Definition feeds : ReputationFeeds := mk_feeds [] [mk_feedcfg (lit "drop") (lit "https://lists.example/drop.txt") [] 0 []; mk_feedcfg (lit "local") [] (lit "/etc/local.list") 0 []].
Definition fetched : ReputationFeeds := match validate_reputation feeds with Ok r => r | Err _ => feeds end.

Lemma enforcement_runs_as_configured_witness :
  validate_enforcement true sections = Ok filled /\ mc_Mode (EnforceConfig (lit "redis") filled) = lit "read_through" /\
  nc_Ports (mc_NFTables (EnforceConfig (lit "redis") filled)) = [80; 443].
Proof.
  assert (Hv : validate_enforcement true sections = Ok filled) by (vm_compute; reflexivity). split; [exact Hv |].
  destruct (enforcement_runs_as_configured true (lit "redis") sections filled Hv) as (_ & Hm & _ & _ & _ & _ & Hp & _).
  split; [apply Hm; [reflexivity | discriminate] | exact Hp].
Defined.

Lemma attack_settings_usable_witness : validate_attack attack = Ok armed /\ ring_size (AttackModeSettings armed) = 6%nat /\ 4 <= cfg_CapBits (AttackModeSettings armed) <= 32.
Proof.
  assert (Hv : validate_attack attack = Ok armed) by (vm_compute; reflexivity). split; [exact Hv |]. split; [vm_compute; reflexivity |].
  exact (proj1 (proj2 (proj2 (proj2 (proj2 (proj2 (attack_settings_usable attack armed Hv))))))).
Defined.

Lemma feeds_well_formed_witness : validate_reputation feeds = Ok fetched /\ NoDup (map fc_Name (rf_Feeds fetched)).
Proof.
  assert (Hv : validate_reputation feeds = Ok fetched) by (vm_compute; reflexivity). split; [exact Hv |].
  exact (proj2 (feeds_well_formed feeds fetched Hv)).
Defined.
End Ex.
