(* ===== verification/ConfigLoad.v ===== *)
(** * Loading guardian.yaml (core/config.go)

    [LoadConfig] and [finalize]: a decoded document becomes the settings of the
    daemon and one resolved policy per domain, the defaults copied and the
    domain's own YAML node decoded on top, each with its path overlays.  YAML
    nodes are the trees the code walks; what yaml.v3 does with them is the
    interface [ConfigYAML].  [hosts] is the order in which the domains map is
    ranged over, which Go leaves open. *)

From Stdlib Require Import QArith.
From S2P Require Import Anomaly ModelCache BotVerify HeaderExempt UrlPath Stateless Waf Recent Intel Enforce AttackMode DomainConfig.
From S2P Require Export Settings.

Open Scope Z_scope.
Open Scope go_scope.

(** ** YAML nodes *)
Inductive node_kind := NoKind | DocumentNode | SequenceNode | MappingNode | ScalarNode | AliasNode.
#[global] Instance node_kind_eq_dec : EqDecision node_kind.
Proof. solve_decision. Defined.

Inductive Node := mk_node (kind : node_kind) (tag value : gostring) (content : list Node).
Definition n_Kind (n : Node) : node_kind := let 'mk_node k _ _ _ := n in k.
Definition n_Tag (n : Node) : gostring := let 'mk_node _ t _ _ := n in t.
Definition n_Value (n : Node) : gostring := let 'mk_node _ _ v _ := n in v.
Definition n_Content (n : Node) : list Node := let 'mk_node _ _ _ c := n in c.

Definition is_mapping (n : Node) : bool := bool_decide (n_Kind n = MappingNode).
Definition is_null (n : Node) : bool := bool_decide (n_Kind n = NoKind) || bool_decide (n_Tag n = lit "!!null").

(** The value of the first key that reads [key]. *)
Fixpoint mapping_value (key : gostring) (content : list Node) : option Node :=
  match content with
  | k :: v :: rest => if bool_decide (n_Value k = key) then Some v else mapping_value key rest
  | _ => None
  end.

Fixpoint nestedMappingValue (node : Node) (keys : list gostring) : option Node :=
  match keys with
  | [] => Some node
  | key :: rest =>
    if negb (is_mapping node) then None
    else match mapping_value key (n_Content node) with Some v => nestedMappingValue v rest | None => None end
  end.

Fixpoint yamlMappingHasPath (node : Node) (path : list gostring) : bool :=
  match path with
  | [] => false
  | key :: rest =>
    if negb (is_mapping node) then false
    else match mapping_value key (n_Content node) with
         | None => false
         | Some v => match rest with [] => true | _ => yamlMappingHasPath v rest end
         end
  end.

Fixpoint split_paths (content : list Node) : option (Node * list Node) :=
  match content with
  | k :: v :: rest =>
    if bool_decide (n_Value k = lit "paths") then Some (v, rest)
    else match split_paths rest with Some (p, rest) => Some (p, k :: v :: rest) | None => None end
  | _ => None
  end.

(** The paths node, and the node without it. *)
Definition splitPathsNode (node : Node) : option Node * Node :=
  if negb (is_mapping node) then (None, node)
  else match split_paths (n_Content node) with
       | Some (p, rest) => (Some p, mk_node (n_Kind node) (n_Tag node) (n_Value node) rest)
       | None => (None, node)
       end.

(** ** The document *)

(** A decoded scope: the policy, and its allowlist and denylist as written. *)
Definition scope : Type := DomainConfig * RawLists * RawLists.
Definition sc_cfg (s : scope) : DomainConfig := s.1.1.
Definition with_cfg (dc : DomainConfig) (s : scope) : scope := (dc, s.1.2, s.2).

Record Document := mk_doc {
  do_Listen : gostring; do_Socket : gostring; do_SocketMode : gostring; do_LogLevel : gostring;
  do_SigningKeyFile : gostring; do_PreviousKeyDir : gostring; do_TrustedProxy : bool; do_RequireProxied : bool;
  do_Admin : AdminConfig; do_Store : StoreConfig; do_Enforcement : EnforcementConfig; do_AttackMode : AttackModeConfig;
  do_Argon2Verifier : Argon2VerifierConfig; do_LocationDB : gostring; do_ASNDB : gostring; do_Reputation : ReputationFeeds;
  do_DefaultsNode : Node; do_Domains : gmap gostring Node }.

Inductive trailing := AtEOF | AnotherDocument | TrailingError.

(** yaml.v3: marshalling a node or a scope, decoding onto a scope with and
    without unknown fields refused, and the decodes of other types; [None] is
    an error. *)
Class ConfigYAML := {
  yaml_MarshalNode : Node -> option gostring;
  yaml_DecodeStrict : gostring -> scope -> option scope;
  yaml_MarshalScope : scope -> option gostring;
  yaml_Unmarshal : gostring -> scope -> option scope;
  yaml_strings : Node -> option (list gostring);
  yaml_nodes : Node -> option (gmap gostring Node);
  yaml_Document : gostring -> option (Document * trailing);
  yaml_Probe : gostring -> option (gostring * gostring * gostring)   (* listen, socket, admin.listen *)
}.

(** The zero values of a scope. *)
Definition zero_pow : PoWConfig :=
  mk_pow false [] [] (Some 0%Q) (Some 0%Q) 0 0 (mk_rate 0 0) (mk_rate 0 0) false (mk_argon 0 0 0 0) None [] [].
Definition zero_selector : GeoSelector := mk_geosel [] [] ∅ ∅.
Definition zero_domain : DomainConfig :=
  mk_domain (mk_waf (mk_ipb false 0 0 ∅) (mk_rulescfg false [] [] []) (mk_anomaly false false [] (f64 0) (f64 0)) (mk_honeypot false []))
    zero_pow (mk_geo false zero_selector zero_selector zero_selector []) false (mk_list [] [] []) (mk_list [] [] []) (mk_vbots [] 0 0 0 []) [].
Definition zero_scope : scope := (zero_domain, mk_raw [] [] [], mk_raw [] [] []).

Definition rules_of (dc : DomainConfig) : RulesConfig := wf_Rules (dc_WAF dc).
Definition files_of (dc : DomainConfig) : list gostring := ru_Files (rules_of dc).

Definition with_label (label : gostring) (dc : DomainConfig) : DomainConfig :=
  mk_domain (dc_WAF dc) (dc_PoW dc) (dc_Geo dc) (dc_Reputation dc) (dc_Allowlist dc) (dc_Denylist dc) (dc_VerifiedBots dc) label.
Definition with_files (fs : list gostring) (dc : DomainConfig) : DomainConfig :=
  let w := dc_WAF dc in
  let r := wf_Rules w in
  mk_domain (mk_waf (wf_IPBehaviour w) (mk_rulescfg (ru_Enabled r) fs (ru_DisabledIDs r) (ru_ruleKey r)) (wf_Anomaly w) (wf_Honeypot w))
    (dc_PoW dc) (dc_Geo dc) (dc_Reputation dc) (dc_Allowlist dc) (dc_Denylist dc) (dc_VerifiedBots dc) (dc_label dc).

(** ** Defaults of the defaults *)
Definition q_or (d : option Q) (def : Q) : option Q := match d with Some q => if Qeq_bool q 0 then Some def else d | None => None end.
Definition rate_or (r d : Rate) : Rate := if rt_Count r =? 0 then d else r.

Definition fill_argon (a : Argon2IDConfig) : Argon2IDConfig :=
  mk_argon (int_or (ag_MemoryKiB a) (32 * 1024)) (int_or (ag_BaseIterations a) 1) (int_or (ag_MaxIterations a) 2) (int_or (ag_AttackIterationsCap a) 3).
Definition fill_pow (p : PoWConfig) : PoWConfig :=
  mk_pow (pw_Enabled p) (text_or (pw_Algorithm p) PoWAlgorithmSHA256) (pw_Mode p) (q_or (pw_BaseDifficulty p) 5) (q_or (pw_MaxDifficulty p) 6)
    (int_or (pw_TokenTTL p) (7 * 24 * hour)) (int_or (pw_ChallengeTTL p) (30 * minute))
    (rate_or (pw_IssuanceRateLimit p) (mk_rate 60 minute)) (rate_or (pw_NoScriptRedemptionRateLimit p) (mk_rate 6 minute))
    (pw_NoScriptFallback p) (fill_argon (pw_Argon2ID p)) (pw_RefuseUnchallengeable p) (pw_HeaderExemptions p) (pw_headerExemptionKey p).

Definition built_in_thresholds : gmap gostring Rate :=
  list_to_map [(lit "rule_match", mk_rate 10 minute); (lit "pow_fail", mk_rate 10 minute); (lit "tamper", mk_rate 10 minute);
               (lit "bot_spoof", mk_rate 5 minute); (lit "challenge_farm", mk_rate 80 hour)].
(** What the operator wrote wins, key by key. *)
Definition fill_behaviour (b : IPBehaviourConfig) : IPBehaviourConfig :=
  mk_ipb (ib_Enabled b) (int_or (ib_BlockTTL b) (30 * minute)) (int_or (ib_MaxBlockTTL b) (12 * hour)) (ib_Thresholds b ∪ built_in_thresholds).
Definition fill_bots (v : VerifiedBotsConfig) : VerifiedBotsConfig :=
  mk_vbots (vb_Bots v) (int_or (vb_CacheTTL v) (12 * hour)) (int_or (vb_DNSTimeout v) second) (int_or (vb_NegativeTTL v) hour) (vb_SpoofAction v).
Definition fill_defaults (dc : DomainConfig) : DomainConfig :=
  let w := dc_WAF dc in
  mk_domain (mk_waf (fill_behaviour (wf_IPBehaviour w)) (wf_Rules w) (wf_Anomaly w) (wf_Honeypot w)) (fill_pow (dc_PoW dc))
    (dc_Geo dc) (dc_Reputation dc) (dc_Allowlist dc) (dc_Denylist dc) (fill_bots (dc_VerifiedBots dc)) (dc_label dc).

(** ** Errors of a load *)
Inductive load_error :=
| ERead | EYAML | EMultipleDocuments | ETrailing
| ESettings (e : settings_error)
| EDefaults | EMarshalDefaults
| EDomain (label : gostring) (e : cfg_error)
| EPaths (label : gostring) | EPathKey (label key : gostring) (e : cfg_error)
| EHostKey (previous key : gostring).

Definition wrap {E F A} (f : E -> F) (o : outcome E A) : outcome F A := match o with Ok x => Ok x | Err e => Err (f e) end.

(** What the process finds at start: the platform, the ADMIN_TOKEN variable
    and the answers of [os.Stat]. *)
Record host_env := mk_env { ev_linux : bool; ev_ADMIN_TOKEN : gostring; ev_stat : gostring -> stat_answer }.

Section Load.
Context `{Unicode, ConfigYAML, UrlParse}.
Variable header_VariantKey : list PredicateConfig -> gostring.

(** ** Decoding nodes onto scopes *)
Definition decodeStrict (n : Node) (s : scope) : option scope :=
  match yaml_MarshalNode n with Some raw => yaml_DecodeStrict raw s | None => None end.

(** [s] decoded from [node], whose rules files extend the inherited ones. *)
Definition appendLocalRuleFiles (node : Node) (inherited : list gostring) (s : scope) : option scope :=
  match nestedMappingValue node [lit "waf"; lit "rules"; lit "files"] with
  | None => Some s
  | Some files =>
    match (if is_null files then Some [] else yaml_strings files) with
    | None => None
    | Some local => Some (with_cfg (with_files (inherited ++ local) (sc_cfg s)) s)
    end
  end.

Definition overlay (n : Node) (s : scope) : option scope :=
  match decodeStrict n s with Some s' => appendLocalRuleFiles n (files_of (sc_cfg s)) s' | None => None end.

Fixpoint check_path_keys (label : gostring) (keys : list gostring) : outcome load_error unit :=
  match keys with
  | [] => Ok tt
  | key :: rest => let! _ := wrap (EPathKey label key) (validatePathKey key) in check_path_keys label rest
  end.

Definition pathNodes (label : gostring) (node : option Node) : outcome load_error (gmap gostring Node) :=
  match node with
  | None => Ok ∅
  | Some n =>
    if is_null n then Ok ∅ else
    match yaml_nodes n with
    | None => Err (EPaths label)
    | Some nodes =>
      let! _ := check_path_keys label (merge_sort bytes_le (map_to_list nodes).*1) in Ok nodes
    end
  end.

(** One layer of a path overlay. *)
Definition path_layer (key : gostring) (node : option Node) (s : scope) : outcome cfg_error scope :=
  match node with
  | None => Ok s
  | Some n =>
    if is_null n then Ok s
    else if yamlMappingHasPath n [lit "pow"; lit "algorithm"] || yamlMappingHasPath n [lit "pow"; lit "argon2id"] then Err (EPathAlgorithm key)
    else match overlay n s with Some s => Ok s | None => Err (EMerge key) end
  end.

Definition merge_layers (base : gostring) (inherited own : gmap gostring Node) (key : gostring) : outcome cfg_error scope :=
  match yaml_Unmarshal base zero_scope with
  | None => Err (EMerge key)
  | Some s => let! s := path_layer key (inherited !! key) s in path_layer key (own !! key) s
  end.

Definition map_keys (m : gmap gostring Node) : list gostring := (map_to_list m).*1.

Definition path_overrides (c : Config) (s : scope) (inherited own : gmap gostring Node) : outcome cfg_error (list pathOverride) :=
  if bool_decide (inherited = ∅) && bool_decide (own = ∅) then Ok [] else
  match yaml_MarshalScope s with
  | None => Err (EMerge [])
  | Some base => resolvePaths header_VariantKey (merge_layers base inherited own) c (map_keys inherited) (map_keys own)
  end.

Definition relabel (label : gostring) (d : Domain) : Domain :=
  mk_resolved (with_label label (rd_cfg d))
    (map (fun o => mk_override (po_key o) (po_bare o) (po_prefix o) (with_label label (po_cfg o))) (rd_pathOverrides d)).

(** A decoded scope validated. *)
Definition compile_scope (c : Config) (label : gostring) (s : scope) : outcome load_error scope :=
  let! dc := wrap (EDomain label) (validate header_VariantKey (sc_cfg s) s.1.2 s.2) in
  let! _ := wrap (EDomain label) (checkGeoRefs c dc) in
  Ok (with_cfg dc s).

(** ** Domains *)
Definition load_domain (c : Config) (defaultsRaw : gostring) (defaultPaths : gmap gostring Node) (host : gostring) (node : Node)
  : outcome load_error Domain :=
  let label := lit "domain " ++ host in
  match yaml_Unmarshal defaultsRaw zero_scope with
  | None => Err (EDomain label (EMerge []))
  | Some s =>
    let '(pathsNode, node) := if is_null node then (None, node) else splitPathsNode node in
    match (if is_null node then Some s else overlay node s) with
    | None => Err (EDomain label (EMerge []))
    | Some s =>
      let! s := compile_scope c label s in
      let! own := pathNodes label pathsNode in
      let! os := wrap (EDomain label) (path_overrides c s defaultPaths own) in
      Ok (mk_resolved (sc_cfg s) os)
    end
  end.

(** The loop over the domains: [seen] raw hosts by key, [acc] the resolved
    ones. *)
Fixpoint load_domains (c : Config) (defaultsRaw : gostring) (defaultPaths : gmap gostring Node) (hosts : list (gostring * Node))
  (seen : gmap gostring gostring) (acc : gmap gostring Domain) : outcome load_error (gmap gostring Domain) :=
  match hosts with
  | [] => Ok acc
  | (host, node) :: rest =>
    let! d := load_domain c defaultsRaw defaultPaths host node in
    match NormalizeHostKey seen host with
    | Err (previous, key) => Err (EHostKey previous key)
    | Ok (key, seen) => load_domains c defaultsRaw defaultPaths rest seen (<[key := relabel key d]> acc)
    end
  end.

(** ** The whole document *)

(** The settings, validated; the environment first. *)
Definition validate_listen (listen : gostring) (trusted : bool) : outcome settings_error unit :=
  if is_nil listen then Ok tt else
  let! _ := validateListenAddress (lit "listen") listen in
  demand (trusted || listenIsLoopback listen) EListenExposed.

Definition finalize_settings (ev : host_env) (d : Document) : outcome settings_error Document :=
  let '(listen, socket) := endpoints (do_Listen d) (do_Socket d) in
  let! _ := validate_listen listen (do_TrustedProxy d) in
  let! _ := validate_socket (ev_stat ev) socket in
  let mode := text_or (do_SocketMode d) defaultSocketMode in
  let! _ := demand (socket_mode_ok mode) ESocketMode in
  let! _ := demand (one_of (do_LogLevel d) [[]; lit "debug"; lit "info"; lit "warn"; lit "error"]) (ELogLevel (do_LogLevel d)) in
  let! admin := validate_admin (ev_ADMIN_TOKEN ev) (do_Admin d) in
  let! store := validate_store (do_Store d) in
  let! enforcement := validate_enforcement (ev_linux ev) (do_Enforcement d) in
  let! attack := validate_attack (do_AttackMode d) in
  let! slots := validate_slots (do_Argon2Verifier d) in
  let! reputation := validate_reputation (do_Reputation d) in
  Ok (mk_doc listen socket mode (text_or (do_LogLevel d) (lit "warn")) (do_SigningKeyFile d) (do_PreviousKeyDir d) (do_TrustedProxy d)
        (do_RequireProxied d) admin store enforcement attack slots (do_LocationDB d) (do_ASNDB d) reputation (do_DefaultsNode d) (do_Domains d)).

(** What the scopes are checked against. *)
Definition config_of (d : Document) (defaults : Domain) (resolved : gmap gostring Domain) : Config :=
  mk_cfg defaults resolved (do_LocationDB d) (do_ASNDB d) (do_SigningKeyFile d) (length (rf_Feeds (do_Reputation d))) (do_RequireProxied d)
    (ae_MaxInflight (am_Effects (do_AttackMode d))) (do_Argon2Verifier d).

(** The defaults block without its paths, decoded onto the zero scope. *)
Definition decode_defaults (node : Node) : outcome load_error scope :=
  if is_null node then Ok zero_scope
  else match decodeStrict node zero_scope with Some s => Ok s | None => Err EDefaults end.

(** The defaults, validated, and their path overlays. *)
Definition load_defaults (d : Document) : outcome load_error (scope * gmap gostring Node * list pathOverride) :=
  let '(pathsNode, node) := splitPathsNode (do_DefaultsNode d) in
  let! s := decode_defaults node in
  let! paths := pathNodes (lit "defaults") pathsNode in
  let s := with_cfg (with_label (lit "default") (fill_defaults (sc_cfg s))) s in
  let c := config_of d (mk_resolved zero_domain []) ∅ in
  let! s := compile_scope c (lit "defaults") s in
  let! os := wrap (EDomain (lit "defaults")) (path_overrides c s ∅ paths) in
  Ok (s, paths, os).

Record Loaded := mk_loaded { ld_settings : Document; ld_config : Config }.

Definition finalize_scopes (d : Document) (hosts : list (gostring * Node)) : outcome load_error Loaded :=
  let! (s, paths, os) := load_defaults d in
  match yaml_MarshalScope s with
  | None => Err EMarshalDefaults
  | Some raw =>
    let defaults := relabel (lit "default") (mk_resolved (sc_cfg s) os) in
    let! resolved := load_domains (config_of d defaults ∅) raw paths hosts ∅ ∅ in
    let c := config_of d defaults resolved in
    let! _ := wrap (EDomain []) (validateFeatureDependencies c) in
    let! _ := wrap (EDomain []) (validateAttackDifficultyCap (am_Enabled (do_AttackMode d)) (CapBits (do_AttackMode d)) c) in
    Ok (mk_loaded d c)
  end.

Definition finalize (ev : host_env) (d : Document) (hosts : list (gostring * Node)) : outcome load_error Loaded :=
  let! d := wrap ESettings (finalize_settings ev d) in finalize_scopes d hosts.

Definition maxConfigBytes : Z := Z.shiftl 4 20.

(** [range]: the order the domains map is walked in. *)
Definition LoadConfig (ev : host_env) (file : file_answers) (range : gmap gostring Node -> list (gostring * Node)) : outcome load_error Loaded :=
  match safe_read maxConfigBytes file with
  | Err _ => Err ERead
  | Ok raw =>
    match yaml_Document raw with
    | None => Err EYAML
    | Some (d, AtEOF) => finalize ev d (range (do_Domains d))
    | Some (_, AnotherDocument) => Err EMultipleDocuments
    | Some (_, TrailingError) => Err ETrailing
    end
  end.

(** The probe of a running daemon: the endpoints alone. *)
Definition ListenAddrs (file : file_answers) : outcome load_error (gostring * gostring * gostring) :=
  match safe_read maxConfigBytes file with
  | Err _ => Err ERead
  | Ok raw =>
    match yaml_Probe raw with
    | None => Err EYAML
    | Some (listen, socket, adminListen) => let '(listen, socket) := endpoints listen socket in Ok (listen, socket, adminListen)
    end
  end.
End Load.

(** ** The models the anomaly scopes need *)
Definition model_hosts (c : Config) : gmap gostring (gset gostring) :=
  fold_left (fun acc sc =>
    let a := wf_Anomaly (dc_WAF sc.2) in
    if an_Enabled a && negb (is_nil (an_Model a))
    then <[an_Model a := default ∅ (acc !! an_Model a) ∪ (if is_nil sc.1.2 then ∅ else {[sc.1.2]})]> acc else acc) (eachScope c) ∅.

Definition ModelSpecs (c : Config) : list ModelSpec :=
  map (fun path => mk_spec path (merge_sort bytes_le (elements (default ∅ (model_hosts c !! path)))))
    (merge_sort bytes_le (map_to_list (model_hosts c)).*1).
Definition ModelFiles (c : Config) : list gostring := map ms_Path (ModelSpecs c).

(** * Theory *)
Ltac unwrap H :=
  repeat match type of H with
  | match ?c with Ok _ => _ | Err _ => _ end = Ok _ => let E := fresh "Hw" in destruct c eqn:E; [| discriminate H]
  | match ?c with Some _ => _ | None => _ end = Ok _ => let E := fresh "Hw" in destruct c eqn:E; [| discriminate H]
  end.

Lemma wrap_ok {E F A} (f : E -> F) (o : outcome E A) x : wrap f o = Ok x <-> o = Ok x.
Proof. destruct o; cbn; split; by intros [= ->] || done. Qed.

Lemma first_error_ok {E A} (f : A -> outcome E unit) xs : first_error f xs = Ok tt <-> forall x, x ∈ xs -> f x = Ok tt.
Proof.
  unfold first_error. assert (Herr : forall e xs, fold_left (fun acc x => match acc with Err e => Err e | Ok _ => f x end) xs (Err e) = Err e) by (intros e ys; by induction ys).
  induction xs as [| x xs IH]; cbn [fold_left]; [split; [by intros _ x ?%not_elem_of_nil | done] |]. destruct (f x) as [[] | e] eqn:Ex.
  - rewrite IH. setoid_rewrite elem_of_cons. split; [intros Hx y [-> | Hy]; auto | auto].
  - rewrite Herr. split; [done |]. intros Hx. specialize (Hx x ltac:(by left)). congruence.
Qed.

(** The key tests agree with the walk to the value. *)
Lemma has_path_nested path : forall n, path <> [] -> yamlMappingHasPath n path = bool_decide (is_Some (nestedMappingValue n path)).
Proof.
  induction path as [| key rest IH]; intros n Hne; [done |]. cbn [yamlMappingHasPath nestedMappingValue].
  destruct (negb (is_mapping n)); [done |]. destruct (mapping_value key (n_Content n)) as [v |]; [| done].
  destruct rest as [| key' rest]; [by rewrite bool_decide_eq_true_2 by eauto |]. by apply IH.
Qed.

(** ** Labels *)
Lemma scope_ok_label `{Unicode} hkey l dc : scope_ok hkey (with_label l dc) <-> scope_ok hkey dc.
Proof. split; intros []; by constructor. Qed.

Definition domain_ok `{Unicode} (hkey : list PredicateConfig -> gostring) (d : Domain) : Prop :=
  scope_ok hkey (rd_cfg d) /\ Forall (fun o => scope_ok hkey (po_cfg o)) (rd_pathOverrides d).

Lemma relabel_ok `{Unicode} hkey l d : domain_ok hkey d -> domain_ok hkey (relabel l d).
Proof.
  intros [Hd Ho]. split; [by apply scope_ok_label |]. cbn [rd_pathOverrides relabel]. rewrite Forall_map. cbn [po_cfg].
  eapply Forall_impl; [exact Ho |]. intros o Hok. by apply scope_ok_label.
Qed.

(** ** The scopes of a configuration *)
Definition domain_scopes (d : Domain) : list DomainConfig := rd_cfg d :: map po_cfg (rd_pathOverrides d).

Lemma visit_scopes label host d : map snd (visit label host d) = domain_scopes d.
Proof. unfold visit, domain_scopes. cbn [map snd]. by rewrite map_map. Qed.

Lemma elem_of_visits c e : e ∈ eachScope c <->
  e ∈ visit (lit "defaults") [] (c_Defaults c) \/ exists host d, c_resolved c !! host = Some d /\ e ∈ visit (lit "domain " ++ host) host d.
Proof.
  unfold eachScope. rewrite elem_of_app, list_elem_of_In, (list_elem_of_In (concat _)), in_concat. rewrite <- list_elem_of_In.
  apply or_iff_compat_l. setoid_rewrite <- list_elem_of_In. split.
  - intros (l & (host & -> & Hh)%list_elem_of_fmap & Hin). destruct (c_resolved c !! host) as [d |] eqn:E; [eauto | by apply not_elem_of_nil in Hin].
  - intros (host & d & Hd & Hin). exists (visit (lit "domain " ++ host) host d). split; [| done]. apply list_elem_of_fmap. exists host. split; [by rewrite Hd |].
    rewrite (merge_sort_Permutation bytes_le _). apply list_elem_of_fmap. exists (host, d). split; [done | by apply elem_of_map_to_list].
Qed.

Lemma elem_of_scopes c dc : dc ∈ scopes c <-> dc ∈ domain_scopes (c_Defaults c) \/ exists host d, c_resolved c !! host = Some d /\ dc ∈ domain_scopes d.
Proof.
  unfold scopes. rewrite list_elem_of_fmap. setoid_rewrite elem_of_visits. split.
  - intros (e & -> & [He | (host & d & Hd & He)]); [left | right; exists host, d; split; [done |]];
      [rewrite <- (visit_scopes (lit "defaults") []) | rewrite <- (visit_scopes (lit "domain " ++ host) host)]; by apply list_elem_of_fmap_2.
  - intros [Hin | (host & d & Hd & Hin)];
      [rewrite <- (visit_scopes (lit "defaults") []) in Hin | rewrite <- (visit_scopes (lit "domain " ++ host) host) in Hin];
      apply list_elem_of_fmap in Hin as (e & -> & He); exists e; eauto 6.
Qed.

(** Whatever a request asks for, the scope that governs it is one of them. *)
Lemma DomainFor_cases `{Unicode} c host : DomainFor c host = c_Defaults c \/ c_resolved c !! NormalizeHost host = Some (DomainFor c host).
Proof. unfold DomainFor. destruct (c_resolved c !! NormalizeHost host); auto. Qed.

Lemma ForPath_scope d path : ForPath d path ∈ domain_scopes d.
Proof.
  unfold ForPath, domain_scopes. destruct (list_find _ (rd_pathOverrides d)) as [[i o] |] eqn:E; [| by left].
  apply list_find_Some in E as (Hi & _). right. apply list_elem_of_fmap. exists o. split; [done |]. by eapply list_elem_of_lookup_2.
Qed.

Lemma governing_scope `{Unicode} c r : scopeForRequest c r ∈ scopes c.
Proof.
  unfold scopeForRequest. rewrite elem_of_scopes. pose proof (ForPath_scope (DomainFor c (q_Host r)) (NormalizedPath r)) as Hin.
  destruct (DomainFor_cases c (q_Host r)) as [E | E]; [rewrite E in *; by left | right; eauto].
Qed.

(** ** What a load that succeeds produced *)
Section LoadProofs.
Context `{Unicode, ConfigYAML, UrlParse}.
Context (hkey : list PredicateConfig -> gostring).

Lemma compile_scope_ok c label s s' : compile_scope hkey c label s = Ok s' ->
  validate hkey (sc_cfg s) s.1.2 s.2 = Ok (sc_cfg s') /\ scope_ok hkey (sc_cfg s').
Proof.
  unfold compile_scope. intros Hc. unwrap Hc. injection Hc as <-. cbn.
  match goal with E : wrap _ (validate _ _ _ _) = Ok _ |- _ => apply wrap_ok in E; split; [done | by eapply validate_scope_ok] end.
Qed.

Lemma path_overrides_ok c s inherited own os : path_overrides hkey c s inherited own = Ok os -> Forall (fun o => scope_ok hkey (po_cfg o)) os.
Proof.
  unfold path_overrides. destruct (_ && _); [intros [= <-]; constructor |]. destruct (yaml_MarshalScope s) as [base |]; [| done].
  unfold resolvePaths. cbv zeta. destruct (resolve_overrides hkey _ c _) as [os0 |] eqn:Er; [| done]. intros [= <-].
  destruct (resolve_overrides_spec _ _ _ _ _ Er) as [_ Hall]. rewrite Forall_forall in *. intros o Ho.
  rewrite (merge_sort_Permutation specificity os0) in Ho. destruct (Hall o Ho) as (_ & pc & al & de & _ & Hv). by eapply validate_scope_ok.
Qed.

Lemma load_domain_ok c raw dp host node d : load_domain hkey c raw dp host node = Ok d -> domain_ok hkey d.
Proof.
  unfold load_domain. cbv zeta. intros Hl. destruct (yaml_Unmarshal raw zero_scope) as [s |]; [| done].
  destruct (if is_null node then (None, node) else splitPathsNode node) as [pn node']. unwrap Hl. injection Hl as <-.
  match goal with E : wrap _ _ = Ok _ |- _ => apply wrap_ok in E; apply path_overrides_ok in E end.
  match goal with E : compile_scope _ _ _ _ = Ok _ |- _ => destruct (compile_scope_ok _ _ _ _ E) as [_ Hok] end. by split.
Qed.

(** ** The loop over the domains *)
Definition host_key (hn : gostring * Node) : gostring := NormalizeHost hn.1.

Definition resolved_entry c raw dp (hn : gostring * Node) : gostring * Domain :=
  (host_key hn, relabel (host_key hn) match load_domain hkey c raw dp hn.1 hn.2 with Ok d => d | Err _ => mk_resolved zero_domain [] end).

Lemma load_domains_spec c raw dp hosts : forall seen acc r, load_domains hkey c raw dp hosts seen acc = Ok r <->
  (forall hn, hn ∈ hosts -> exists d, load_domain hkey c raw dp hn.1 hn.2 = Ok d) /\ NoDup (map host_key hosts) /\
  (forall hn, hn ∈ hosts -> seen !! host_key hn = None) /\ r = list_to_map (map (resolved_entry c raw dp) hosts) ∪ acc.
Proof.
  induction hosts as [| [host node] hosts IH]; intros seen acc r; cbn [load_domains map].
  - split; [intros [= <-] | intros (_ & _ & _ & ->)].
    + split_ands; try apply NoDup_nil_2; try (by intros hn ?%not_elem_of_nil). cbn. by rewrite (left_id_L ∅ (∪)).
    + cbn. by rewrite (left_id_L ∅ (∪)).
  - destruct (load_domain hkey c raw dp host node) as [d | e] eqn:Ed;
      [| split; [done | intros (Hall & _); destruct (Hall (host, node) ltac:(by left)) as [d Hd]; cbn in Hd; congruence]].
    unfold NormalizeHostKey. cbv zeta. change (NormalizeHost host) with (host_key (host, node)). destruct (seen !! host_key (host, node)) as [prev |] eqn:Es.
    + split; [done |]. intros (_ & _ & Hseen & _). specialize (Hseen (host, node) ltac:(by left)). congruence.
    + rewrite IH, NoDup_cons. clear IH. cbn [list_to_map foldr fst snd uncurry]. setoid_rewrite elem_of_cons.
      assert (Hr : forall m : gmap gostring Domain, host_key (host, node) ∉ map host_key hosts ->
        m = list_to_map (map (resolved_entry c raw dp) hosts) ->
        <[host_key (host, node) := relabel (host_key (host, node)) d]> m ∪ acc = m ∪ <[host_key (host, node) := relabel (host_key (host, node)) d]> acc).
      { intros m Hnin ->. rewrite <- insert_union_l. apply insert_union_r. apply not_elem_of_list_to_map_1.
        rewrite <- list_fmap_compose. exact Hnin. }
      assert (He : resolved_entry c raw dp (host, node) = (host_key (host, node), relabel (host_key (host, node)) d)) by (unfold resolved_entry; cbn; by rewrite Ed).
      rewrite He. cbn [fst snd]. split.
      * intros (Hall & Hn & Hs & ->).
        assert (Hnin : host_key (host, node) ∉ map host_key hosts).
        { intros (hn & Hk & Hin)%list_elem_of_fmap. specialize (Hs hn Hin). rewrite <- Hk, lookup_insert_eq in Hs. done. }
        split_ands; [intros hn [-> | Hin]; [by eexists | auto] | done | done | | by rewrite <- Hr].
        intros hn [-> | Hin]; [done |]. specialize (Hs hn Hin). by apply lookup_insert_None in Hs as [Hs _].
      * intros (Hall & (Hnin & Hn) & Hs & ->). split_ands; [auto | done | | by rewrite <- Hr].
        intros hn Hin. rewrite lookup_insert_ne; [auto |]. intros Hk. apply Hnin. apply list_elem_of_fmap. eauto.
Qed.

(** The order of the loop changes neither the success nor the result. *)
Lemma load_domains_order c raw dp hosts hosts' r : hosts ≡ₚ hosts' ->
  load_domains hkey c raw dp hosts ∅ ∅ = Ok r -> load_domains hkey c raw dp hosts' ∅ ∅ = Ok r.
Proof.
  intros Hp. rewrite !load_domains_spec. intros (Hall & Hn & Hs & ->). split_ands.
  - intros hn Hin. apply Hall. by rewrite Hp.
  - by rewrite <- Hp.
  - intros hn _. apply lookup_empty.
  - rewrite !(right_id_L ∅ (∪)). apply list_to_map_proper; [| by rewrite Hp]. rewrite <- list_fmap_compose. exact Hn.
Qed.

Lemma load_domains_lookup c raw dp hosts r : load_domains hkey c raw dp hosts ∅ ∅ = Ok r ->
  forall key d, r !! key = Some d <-> exists host node d0, (host, node) ∈ hosts /\ key = NormalizeHost host /\
    load_domain hkey c raw dp host node = Ok d0 /\ d = relabel key d0.
Proof.
  rewrite load_domains_spec. intros (Hall & Hn & _ & ->) key d. rewrite (right_id_L ∅ (∪)).
  rewrite <- elem_of_list_to_map by (rewrite <- list_fmap_compose; exact Hn). rewrite list_elem_of_fmap. split.
  - intros ([host node] & He & Hin). destruct (Hall _ Hin) as [d0 Hd]. cbn in Hd. exists host, node, d0.
    unfold resolved_entry, host_key in He. cbn in He. rewrite Hd in He. by injection He as -> ->.
  - intros (host & node & d0 & Hin & -> & Hd & ->). exists (host, node). split; [| done]. unfold resolved_entry, host_key. cbn. by rewrite Hd.
Qed.

(** ** The parts of a successful load *)
Lemma load_defaults_ok d s paths os : load_defaults hkey d = Ok (s, paths, os) ->
  domain_ok hkey (mk_resolved (sc_cfg s) os).
Proof.
  unfold load_defaults. destruct (splitPathsNode (do_DefaultsNode d)) as [pn node]. intros Hl. unwrap Hl. injection Hl as <- <- <-.
  match goal with E : wrap _ _ = Ok _ |- _ => apply wrap_ok in E; apply path_overrides_ok in E end.
  match goal with E : compile_scope _ _ _ _ = Ok _ |- _ => destruct (compile_scope_ok _ _ _ _ E) as [_ Hok] end. by split.
Qed.

(** What [finalize_scopes] went through. *)
Record scopes_loaded (d : Document) (hosts : list (gostring * Node)) (l : Loaded) (s : scope) (paths : gmap gostring Node) (os : list pathOverride)
  (raw : gostring) (resolved : gmap gostring Domain) : Prop := {
  sl_defaults : load_defaults hkey d = Ok (s, paths, os);
  sl_raw : yaml_MarshalScope s = Some raw;
  sl_domains : load_domains hkey (config_of d (relabel (lit "default") (mk_resolved (sc_cfg s) os)) ∅) raw paths hosts ∅ ∅ = Ok resolved;
  sl_loaded : l = mk_loaded d (config_of d (relabel (lit "default") (mk_resolved (sc_cfg s) os)) resolved);
  sl_features : validateFeatureDependencies (ld_config l) = Ok tt;
  sl_cap : validateAttackDifficultyCap (am_Enabled (do_AttackMode d)) (CapBits (do_AttackMode d)) (ld_config l) = Ok tt
}.

Lemma finalize_scopes_spec d hosts l : finalize_scopes hkey d hosts = Ok l <-> exists s paths os raw resolved, scopes_loaded d hosts l s paths os raw resolved.
Proof.
  unfold finalize_scopes. cbv zeta. split.
  - destruct (load_defaults hkey d) as [[[s paths] os] |] eqn:Ed; [| done]. destruct (yaml_MarshalScope s) as [raw |] eqn:Er; [| done].
    intros Hf. unwrap Hf. injection Hf as <-. exists s, paths, os, raw, a.
    repeat match goal with E : wrap _ _ = Ok _ |- _ => apply wrap_ok in E end. repeat match goal with u : () |- _ => destruct u end. by constructor.
  - intros (s & paths & os & raw & resolved & [Hd Hr Hdom -> Hfe Hcap]). cbn [ld_config] in *. by rewrite Hd, Hr, Hdom, Hfe, Hcap.
Qed.

Lemma loaded_domains_ok d hosts l s paths os raw resolved : scopes_loaded d hosts l s paths os raw resolved ->
  domain_ok hkey (c_Defaults (ld_config l)) /\ forall host dm, c_resolved (ld_config l) !! host = Some dm -> domain_ok hkey dm.
Proof.
  intros [Hd _ Hdom -> _ _]. cbn. split; [by eapply relabel_ok, load_defaults_ok |]. intros host dm Hl.
  apply (load_domains_lookup _ _ _ _ _ Hdom) in Hl as (h & n & d0 & _ & _ & Hld & ->). apply relabel_ok. by eapply load_domain_ok.
Qed.

Lemma domain_ok_scopes dm dc : domain_ok hkey dm -> dc ∈ domain_scopes dm -> scope_ok hkey dc.
Proof.
  intros [Hd Ho] [-> | (o & -> & Hin)%list_elem_of_fmap]%elem_of_cons; [done |]. rewrite Forall_forall in Ho. by apply Ho.
Qed.

Lemma relabel_labels l dm dc : dc ∈ domain_scopes (relabel l dm) -> dc_label dc = l.
Proof. intros [-> | Hin]%elem_of_cons; [done |]. cbn in Hin. rewrite map_map in Hin. by apply list_elem_of_fmap in Hin as (o & -> & _). Qed.
End LoadProofs.

(** ** Settings of a loaded document *)
Record settings_ok (ev : host_env) (d : Document) : Prop := {
  se_endpoint : do_Listen d <> [] \/ do_Socket d <> [];
  se_guard : do_Listen d <> [] -> do_TrustedProxy d = true \/ listenIsLoopback (do_Listen d) = true;
  se_socket : do_Socket d <> [] -> IsAbs (do_Socket d) = true /\ Zbyte 0 ∉ do_Socket d /\
    (ev_stat ev (Dir (do_Socket d)) = StatMissing \/ exists perm, ev_stat ev (Dir (do_Socket d)) = StatInfo true perm /\ Z.land perm 18 = 0);
  se_admin : ad_Listen (do_Admin d) <> [] -> listenIsLoopback (ad_Listen (do_Admin d)) = true \/ ad_Token (do_Admin d) <> [] \/ ad_TokenFile (do_Admin d) <> [];
  se_recent : 0 < ad_RecentDecisionsCapacity (do_Admin d) <= maxRecentDecisionsCapacity;
  se_store : sc_Backend (do_Store d) ∈ [lit "memory"; lit "buntdb"; lit "pebble"; lit "redis"];
  se_slots : 1 <= av_MaxConcurrent (do_Argon2Verifier d) <= 16 /\ rt_Count (av_VerificationRateLimit (do_Argon2Verifier d)) <> 0;
  se_enforcement : exists e, validate_enforcement (ev_linux ev) e = Ok (do_Enforcement d);
  se_attack : exists a, validate_attack a = Ok (do_AttackMode d);
  se_feeds : Forall feed_ok (rf_Feeds (do_Reputation d)) /\ NoDup (map fc_Name (rf_Feeds (do_Reputation d)))
}.

Section SettingsProofs.
Context `{UrlParse}.

Lemma endpoints_nonempty listen socket : (endpoints listen socket).1 <> [] \/ (endpoints listen socket).2 <> [].
Proof. unfold endpoints. destruct listen, socket; cbn; auto. Qed.

Lemma validate_listen_ok listen trusted : validate_listen listen trusted = Ok tt -> listen <> [] -> trusted = true \/ listenIsLoopback listen = true.
Proof.
  unfold validate_listen. destruct listen as [| c listen]; [done |]. cbn [is_nil]. intros Hv _. inv_bind Hv. apply demand_ok in Hv.
  by apply orb_true_iff in Hv.
Qed.

Lemma validate_socket_ok stat socket : validate_socket stat socket = Ok tt -> socket <> [] -> IsAbs socket = true /\ Zbyte 0 ∉ socket /\
  (stat (Dir socket) = StatMissing \/ exists perm, stat (Dir socket) = StatInfo true perm /\ Z.land perm 18 = 0).
Proof.
  unfold validate_socket. destruct socket as [| c socket]; [done |]. cbn [is_nil]. intros Hv _. inv_bind Hv.
  apply demand_ok in Hb, Hb0. unfold contains in Hb0. apply negb_true_iff, bool_decide_eq_false in Hb0. split_ands; [done | done |].
  unfold ValidateSocketParent in Hv. destruct (stat _) as [| | dir perm]; [by left | done | right].
  inv_bind Hv. apply demand_ok in Hv. match goal with E : demand _ _ = Ok _ |- _ => apply demand_ok in E; subst dir end. exists perm. bool_to_prop. done.
Qed.

Lemma validate_admin_ok env a a' : validate_admin env a = Ok a' ->
  (ad_Listen a' <> [] -> listenIsLoopback (ad_Listen a') = true \/ ad_Token a' <> [] \/ ad_TokenFile a' <> []) /\
  0 < ad_RecentDecisionsCapacity a' <= maxRecentDecisionsCapacity.
Proof.
  unfold validate_admin. cbv zeta. intros Hv. inv_bind Hv. injection Hv as <-. cbn [ad_Listen ad_Token ad_TokenFile ad_RecentDecisionsCapacity].
  repeat match goal with E : demand _ _ = Ok _ |- _ => apply demand_ok in E end. bool_to_prop. split.
  - intros Hl. destruct (ad_Listen a) as [| c addr]; [done |]. cbn [is_nil] in *.
    match goal with E : match validateListenAddress ?f ?x with _ => _ end = Ok _ |- _ => destruct (validateListenAddress f x); [apply demand_ok in E | done] end.
    match goal with E : _ || _ || _ = true |- _ => rewrite !orb_true_iff, !negb_true_iff in E; destruct E as [[E | E] | E] end;
      [by left | right; left | right; right]; intros Hnil; by rewrite Hnil in *.
  - split; [apply int_or_pos; [done | by vm_compute] | done].
Qed.

Lemma validate_store_ok s s' : validate_store s = Ok s' -> sc_Backend s' ∈ [lit "memory"; lit "buntdb"; lit "pebble"; lit "redis"].
Proof.
  unfold validate_store. cbv zeta. case_bool_decide; [intros [= <-]; by left |].
  repeat (let E := fresh "E" in case_bool_decide as E; [intros Hv; inv_bind Hv; injection Hv as <-; rewrite E, !elem_of_cons; tauto |]). done.
Qed.

Lemma validate_slots_ok a a' : validate_slots a = Ok a' -> 1 <= av_MaxConcurrent a' <= 16 /\ rt_Count (av_VerificationRateLimit a') <> 0.
Proof.
  unfold validate_slots. cbv zeta. intros Hv. guards Hv. injection Hv as <-. cbn [av_MaxConcurrent av_VerificationRateLimit]. bool_to_prop.
  split; [done |]. destruct (rt_Count (av_VerificationRateLimit a) =? 0) eqn:E; [by vm_compute | by apply Z.eqb_neq].
Qed.

Lemma finalize_settings_ok ev d d' : finalize_settings ev d = Ok d' -> settings_ok ev d' /\ do_DefaultsNode d' = do_DefaultsNode d /\ do_Domains d' = do_Domains d.
Proof.
  unfold finalize_settings. pose proof (endpoints_nonempty (do_Listen d) (do_Socket d)) as He. destruct (endpoints (do_Listen d) (do_Socket d)) as [listen socket].
  cbv zeta. intros Hv. inv_bind Hv. injection Hv as <-. repeat match goal with u : () |- _ => destruct u end. split; [| done]. constructor; cbn.
  - exact He.
  - by apply validate_listen_ok.
  - by apply validate_socket_ok.
  - match goal with E : validate_admin _ _ = Ok _ |- _ => by destruct (validate_admin_ok _ _ _ E) end.
  - match goal with E : validate_admin _ _ = Ok _ |- _ => by destruct (validate_admin_ok _ _ _ E) end.
  - by eapply validate_store_ok.
  - by eapply validate_slots_ok.
  - by eexists.
  - by eexists.
  - match goal with E : validate_reputation _ = Ok _ |- _ => revert E end. unfold validate_reputation.
    destruct (validate_feeds 0 ∅ (rf_Feeds (do_Reputation d))) as [fs |] eqn:E; [| done]. intros [= <-].
    by destruct (validate_feeds_ok _ _ _ _ E) as (Hall & Hn & _).
Qed.
End SettingsProofs.

(** ** The models a configuration needs *)
Lemma model_hosts_spec scs : forall acc : gmap gostring (gset gostring),
  let r := fold_left (fun acc sc =>
    let a := wf_Anomaly (dc_WAF sc.2) in
    if an_Enabled a && negb (is_nil (an_Model a))
    then <[an_Model a := default ∅ (acc !! an_Model a) ∪ (if is_nil sc.1.2 then ∅ else {[sc.1.2]})]> acc else acc) scs acc in
  (forall path hs, acc !! path = Some hs -> exists hs', r !! path = Some hs' /\ hs ⊆ hs') /\
  (forall sc : gostring * gostring * DomainConfig, sc ∈ scs -> an_Enabled (wf_Anomaly (dc_WAF sc.2)) = true -> an_Model (wf_Anomaly (dc_WAF sc.2)) <> [] ->
     exists hs, r !! an_Model (wf_Anomaly (dc_WAF sc.2)) = Some hs /\ (sc.1.2 <> [] -> sc.1.2 ∈ hs)).
Proof.
  induction scs as [| sc scs IH]; intros acc; cbn [fold_left]; cbv zeta.
  - split; [eauto | by intros sc ?%not_elem_of_nil].
  - cbv zeta in IH. set (a := wf_Anomaly (dc_WAF sc.2)). destruct (an_Enabled a && negb (is_nil (an_Model a))) eqn:E.
    + destruct (IH (<[an_Model a := default ∅ (acc !! an_Model a) ∪ (if is_nil sc.1.2 then ∅ else {[sc.1.2]})]> acc)) as [Hkeep Hin]. split.
      * intros path hs Hl. destruct (decide (path = an_Model a)) as [-> | Hne]; [| apply Hkeep; by rewrite lookup_insert_ne].
        destruct (Hkeep (an_Model a) _ (lookup_insert_eq _ _ _)) as (hs' & Hl' & Hsub). exists hs'. split; [done |]. rewrite Hl in Hsub. cbn in Hsub. set_solver.
      * intros sc' [-> | Hs]%elem_of_cons He Hm; [| by apply Hin]. destruct (Hkeep (an_Model a) _ (lookup_insert_eq _ _ _)) as (hs' & Hl' & Hsub).
        exists hs'. split; [done |]. intros Hne. apply Hsub. destruct sc as [[lb h] dc]. cbn in *. destruct h; [done |]. cbn. set_solver.
    + destruct (IH acc) as [Hkeep Hin]. split; [done |]. intros sc' [-> | Hs]%elem_of_cons He Hm; [| by apply Hin]. fold a in He, Hm. rewrite He in E.
      destruct (an_Model a); [done | by cbn in E].
Qed.

Lemma ModelSpecs_paths c : map ms_Path (ModelSpecs c) = merge_sort bytes_le (map_to_list (model_hosts c)).*1.
Proof. unfold ModelSpecs. rewrite map_map. apply map_id. Qed.

Lemma ModelSpecs_nodup c : NoDup (map ms_Path (ModelSpecs c)).
Proof. rewrite ModelSpecs_paths, (merge_sort_Permutation bytes_le _). apply NoDup_fst_map_to_list. Qed.

Lemma ModelSpecs_cover c label host dc : (label, host, dc) ∈ eachScope c -> an_Enabled (wf_Anomaly (dc_WAF dc)) = true -> an_Model (wf_Anomaly (dc_WAF dc)) <> [] ->
  exists spec, spec ∈ ModelSpecs c /\ ms_Path spec = an_Model (wf_Anomaly (dc_WAF dc)) /\ (host <> [] -> host ∈ ms_RequiredHosts spec).
Proof.
  intros Hin He Hm. destruct (model_hosts_spec (eachScope c) ∅) as [_ Hs]. destruct (Hs _ Hin He Hm) as (hs & Hl & Hh). cbn [fst snd] in *.
  change (model_hosts c !! an_Model (wf_Anomaly (dc_WAF dc)) = Some hs) in Hl.
  exists (mk_spec (an_Model (wf_Anomaly (dc_WAF dc))) (merge_sort bytes_le (elements hs))). split_ands; [| done |].
  - unfold ModelSpecs. apply list_elem_of_fmap. exists (an_Model (wf_Anomaly (dc_WAF dc))). rewrite Hl. split; [done |].
    rewrite (merge_sort_Permutation bytes_le _). apply list_elem_of_fmap. exists (an_Model (wf_Anomaly (dc_WAF dc)), hs). split; [done | by apply elem_of_map_to_list].
  - intros Hne. cbn [ms_RequiredHosts]. rewrite (merge_sort_Permutation bytes_le _), elem_of_elements. by apply Hh.
Qed.

(** ** What yaml.v3 is relied on for

    A mapping with a merge key has keys its own content does not show. *)
Fixpoint plain (n : Node) (keys : list gostring) : bool :=
  negb (bool_decide (n_Kind n = AliasNode)) && negb (bool_decide (is_Some (mapping_value (lit "<<") (n_Content n)))) &&
  match keys with
  | [] => true
  | key :: rest => match mapping_value key (n_Content n) with Some v => plain v rest | None => true end
  end.

(** A copy keeps the rules files, and so does a plain overlay that does not
    name them. *)
Class ConfigYAMLLaws `{ConfigYAML} := {
  copy_files : forall s raw s', yaml_MarshalScope s = Some raw -> yaml_Unmarshal raw zero_scope = Some s' -> files_of (sc_cfg s') = files_of (sc_cfg s);
  overlay_files : forall n s s', plain n [lit "waf"; lit "rules"] = true -> nestedMappingValue n [lit "waf"; lit "rules"; lit "files"] = None ->
    decodeStrict n s = Some s' -> files_of (sc_cfg s') = files_of (sc_cfg s)
}.

(** Every domain, and every path overlay, spells its keys out. *)
Definition spelled_out `{ConfigYAML} (n : Node) : Prop :=
  plain (splitPathsNode n).2 [lit "waf"; lit "rules"] = true /\
  forall p nodes key v, (splitPathsNode n).1 = Some p -> yaml_nodes p = Some nodes -> nodes !! key = Some v -> plain v [lit "waf"; lit "rules"] = true.

Section RuleFiles.
Context `{Unicode, HY : ConfigYAML, UrlParse, !ConfigYAMLLaws}.
Context (hkey : list PredicateConfig -> gostring).

Lemma with_files_of fs dc : files_of (with_files fs dc) = fs.
Proof. done. Qed.

Lemma overlay_extends n s s' : plain n [lit "waf"; lit "rules"] = true -> overlay n s = Some s' -> files_of (sc_cfg s) `prefix_of` files_of (sc_cfg s').
Proof.
  intros Hp. unfold overlay. destruct (decodeStrict n s) as [s1 |] eqn:Ed; [| done]. unfold appendLocalRuleFiles.
  destruct (nestedMappingValue n _) as [fs |] eqn:En.
  - destruct (if is_null fs then Some [] else yaml_strings fs) as [local |]; [| done]. intros [= <-]. cbn [sc_cfg with_cfg fst]. rewrite with_files_of. by exists local.
  - intros [= <-]. by rewrite (overlay_files n s s1 Hp En Ed).
Qed.

Lemma validate_files dc al de dc' : validate hkey dc al de = Ok dc' -> files_of dc' = files_of dc.
Proof.
  unfold validate. cbv zeta. intros Hv. inv_bind Hv. destruct (bot_overlap _ _) as [[? ?] |]; [done |]. injection Hv as <-.
  unfold files_of, rules_of. cbn [dc_WAF wf_Rules]. match goal with E : validate_rules _ = Ok _ |- _ => unfold validate_rules in E; inv_bind E; by injection E as <- end.
Qed.

Lemma compile_files c label s s' : compile_scope hkey c label s = Ok s' -> files_of (sc_cfg s') = files_of (sc_cfg s).
Proof. intros Hc. destruct (compile_scope_ok hkey c label s s' Hc) as [Hv _]. by eapply validate_files. Qed.

Definition plain_nodes (nodes : gmap gostring Node) : Prop := forall key v, nodes !! key = Some v -> plain v [lit "waf"; lit "rules"] = true.

Lemma path_layer_extends key node s s' : (forall n, node = Some n -> plain n [lit "waf"; lit "rules"] = true) ->
  path_layer key node s = Ok s' -> files_of (sc_cfg s) `prefix_of` files_of (sc_cfg s').
Proof.
  intros Hp. unfold path_layer. destruct node as [n |]; [| by intros [= <-]]. destruct (is_null n); [by intros [= <-] |].
  destruct (_ || _); [done |]. destruct (overlay n s) as [s1 |] eqn:Eo; [| done]. intros [= <-]. eapply overlay_extends; [| done]. by apply Hp.
Qed.

Lemma path_overrides_extend c s inherited own os : plain_nodes inherited -> plain_nodes own ->
  path_overrides hkey c s inherited own = Ok os -> Forall (fun o => files_of (sc_cfg s) `prefix_of` files_of (po_cfg o)) os.
Proof.
  intros Hi Ho. unfold path_overrides. destruct (_ && _); [intros [= <-]; constructor |]. destruct (yaml_MarshalScope s) as [base |] eqn:Eb; [| done].
  unfold resolvePaths. cbv zeta. destruct (resolve_overrides hkey _ c _) as [os0 |] eqn:Er; [| done]. intros [= <-].
  destruct (resolve_overrides_spec _ _ _ _ _ Er) as [_ Hall]. rewrite Forall_forall in *. intros o Hin.
  rewrite (merge_sort_Permutation specificity os0) in Hin. destruct (Hall o Hin) as (_ & pc & al & de & Hm & Hv).
  rewrite (validate_files _ _ _ _ Hv). unfold merge_layers in Hm. destruct (yaml_Unmarshal base zero_scope) as [s0 |] eqn:Eu; [| done].
  destruct (path_layer _ (inherited !! _) s0) as [s1 |] eqn:E1; [| done]. rewrite <- (copy_files s base s0 Eb Eu).
  etransitivity; [eapply path_layer_extends, E1; intros n; apply Hi |].
  change pc with (sc_cfg (pc, al, de)). eapply path_layer_extends, Hm. intros n; apply Ho.
Qed.

Lemma pathNodes_plain n label paths : spelled_out n -> pathNodes label (splitPathsNode n).1 = Ok paths -> plain_nodes paths.
Proof.
  intros [_ Hp]. unfold pathNodes. destruct (splitPathsNode n).1 as [p |]; [| by intros [= <-] key v; rewrite lookup_empty].
  destruct (is_null p); [by intros [= <-] key v; rewrite lookup_empty |]. destruct (yaml_nodes p) as [nodes |] eqn:En; [| done].
  intros Hn. unwrap Hn. injection Hn as <-. intros key v. by apply (Hp p nodes key v).
Qed.

Lemma relabel_files l dm dc : dc ∈ domain_scopes (relabel l dm) -> exists dc', dc' ∈ domain_scopes dm /\ files_of dc = files_of dc'.
Proof.
  intros [-> | Hin]%elem_of_cons; [exists (rd_cfg dm); split; [by left | done] |]. cbn in Hin. rewrite map_map in Hin.
  apply list_elem_of_fmap in Hin as (o & -> & Ho). exists (po_cfg o). split; [right; by apply list_elem_of_fmap_2 | done].
Qed.

Lemma domain_files c s raw dp host node d dc : yaml_MarshalScope s = Some raw -> plain_nodes dp -> spelled_out node ->
  load_domain hkey c raw dp host node = Ok d -> dc ∈ domain_scopes d -> files_of (sc_cfg s) `prefix_of` files_of dc.
Proof.
  intros Hraw Hdp Hn. unfold load_domain. cbv zeta. destruct (yaml_Unmarshal raw zero_scope) as [s0 |] eqn:Eu; [| done].
  pose proof (copy_files s raw s0 Hraw Eu) as Hc. intros Hl Hin.
  assert (Hsplit : (if is_null node then (None, node) else splitPathsNode node) =
    ((if is_null node then None else (splitPathsNode node).1), (if is_null node then node else (splitPathsNode node).2))) by (by destruct (is_null node), (splitPathsNode node)).
  rewrite Hsplit in Hl. clear Hsplit.
  match type of Hl with match ?x with _ => _ end = _ => destruct x as [s1 |] eqn:E1; [| done] end.
  assert (H1' : files_of (sc_cfg s0) `prefix_of` files_of (sc_cfg s1)).
  { destruct (is_null node) eqn:En; cbv iota in E1; [rewrite En in E1; by simplify_eq/= |]. destruct (is_null (splitPathsNode node).2); [by simplify_eq/= |].
    eapply overlay_extends; [| exact E1]. by destruct Hn. }
  unwrap Hl. injection Hl as <-. repeat match goal with E : wrap _ _ = Ok _ |- _ => apply wrap_ok in E end.
  match goal with E : compile_scope _ _ _ _ = Ok ?x |- _ => pose proof (compile_files _ _ _ _ E) as Hf; set (s2 := x) in * end.
  rewrite <- Hc. etransitivity; [exact H1' |]. rewrite <- Hf. apply elem_of_cons in Hin as [-> | (o & -> & Ho)%list_elem_of_fmap]; [done |].
  match goal with E : path_overrides _ _ _ _ _ = Ok _ |- _ => apply path_overrides_extend in E; [rewrite Forall_forall in E; by apply E | done |] end.
  match goal with E : pathNodes _ _ = Ok _ |- _ => revert E end. destruct (is_null node); [intros [= <-] key v; by rewrite lookup_empty | by apply pathNodes_plain].
Qed.

Lemma loaded_rule_files d hosts l : spelled_out (do_DefaultsNode d) -> (forall hn, hn ∈ hosts -> spelled_out hn.2) ->
  finalize_scopes hkey d hosts = Ok l -> forall dc, dc ∈ scopes (ld_config l) -> files_of (rd_cfg (c_Defaults (ld_config l))) `prefix_of` files_of dc.
Proof.
  intros Hd Hh (s & paths & os & raw & resolved & [Hdef Hraw Hdom -> _ _])%finalize_scopes_spec dc Hin. cbn [ld_config config_of c_Defaults].
  change (files_of (rd_cfg (relabel _ (mk_resolved (sc_cfg s) os)))) with (files_of (sc_cfg s)).
  assert (Hpaths : plain_nodes paths /\ Forall (fun o => files_of (sc_cfg s) `prefix_of` files_of (po_cfg o)) os).
  { pose proof (pathNodes_plain (do_DefaultsNode d) (lit "defaults")) as Hpn. unfold load_defaults in Hdef.
    destruct (splitPathsNode (do_DefaultsNode d)) as [pn node]. cbn [fst] in Hpn. unwrap Hdef. injection Hdef as <- <- <-.
    match goal with E : wrap _ _ = Ok _ |- _ => apply wrap_ok in E; apply path_overrides_extend in E; [split; [by apply Hpn | done] | | by apply Hpn] end.
    intros key v. by rewrite lookup_empty. }
  destruct Hpaths as [Hp Ho]. apply elem_of_scopes in Hin as [Hin | (host & dm & Hl & Hin)]; cbn in *.
  - apply relabel_files in Hin as (dc' & [-> | (o & -> & Hin)%list_elem_of_fmap]%elem_of_cons & ->); [done |]. rewrite Forall_forall in Ho. by apply Ho.
  - apply (load_domains_lookup hkey _ _ _ _ _ Hdom) in Hl as (h & n & d0 & Hhn & _ & Hld & ->).
    apply relabel_files in Hin as (dc' & Hin & ->). eapply domain_files; [done | done | | done | done]. by apply (Hh (h, n)).
Qed.
End RuleFiles.

(** ** A concrete document

    The decoder reads the rules files of a node and keeps the rest of one valid
    scope. *)
Module Ex.
#[export] Existing Instance ascii_only.

Definition scalar (v : string) : Node := mk_node ScalarNode (lit "!!str") (lit v) [].
Definition mapping (kvs : list (string * Node)) : Node := mk_node MappingNode (lit "!!map") [] (concat (map (fun kv => [scalar kv.1; kv.2]) kvs)).
Definition sequence (vs : list string) : Node := mk_node SequenceNode (lit "!!seq") [] (map scalar vs).
Definition with_rules (fs : list string) : Node := mapping [("rules"%string, mapping [("files"%string, sequence fs)])].

Definition base : DomainConfig := DomainConfig.Ex.scope [] 4 6.
Definition comma : ascii := ","%char.
Definition texts (n : Node) : list gostring := map n_Value (n_Content n).
Fixpoint pairs (content : list Node) : list (gostring * Node) := match content with k :: v :: rest => (n_Value k, v) :: pairs rest | _ => [] end.

#[export] Instance decoder : ConfigYAML := {|
  yaml_MarshalNode := fun n =>
    Some (match nestedMappingValue n [lit "waf"; lit "rules"; lit "files"] with Some fs => "F"%char :: UrlPath.join [comma] (texts fs) | None => [] end);
  yaml_DecodeStrict := fun raw s => match raw with
    | "F"%char :: fs => Some (with_cfg (with_files (split_on comma fs) base) s)
    | _ => Some (with_cfg (with_files (files_of (sc_cfg s)) base) s) end;
  yaml_MarshalScope := fun s =>
    let raw := UrlPath.join [comma] (files_of (sc_cfg s)) in if bool_decide (split_on comma raw = files_of (sc_cfg s)) then Some raw else None;
  yaml_Unmarshal := fun raw s => Some (with_cfg (with_files (split_on comma raw) base) s);
  yaml_strings := fun n => Some (texts n);
  yaml_nodes := fun n => Some (list_to_map (pairs (n_Content n)));
  yaml_Document := fun _ => None;
  yaml_Probe := fun _ => None
|}.

#[export] Instance decoder_laws : ConfigYAMLLaws.
Proof.
  constructor.
  - intros s raw s'. cbn. case_bool_decide as E; [| done]. intros [= <-] [= <-]. cbn. exact E.
  - intros n s s' _ Hn. unfold decodeStrict. cbn [yaml_MarshalNode yaml_DecodeStrict decoder]. rewrite Hn. by intros [= <-].
Qed.
#[export] Instance no_urls : UrlParse := {| url_Parse := fun _ => None |}.

Definition no_signals_cfg : AttackSignalsConfig := mk_asignals (mk_rate 0 0) (mk_rate 0 0) (f64 0) (mk_rate 0 0) (f64 0) (f64 0).
Definition no_effects : AttackEffectsConfig := mk_aeffects None None None None None (f64 0) 0.
Definition defaults_node : Node := mapping [("waf"%string, with_rules ["common.yaml"%string])].
Definition domain_node : Node :=
  mapping [("waf"%string, with_rules ["shop.yaml"%string]);
           ("paths"%string, mapping [("/api/"%string, mapping [("waf"%string, with_rules ["api.yaml"%string])])])].
Definition hosts : list (gostring * Node) := [(lit "Shop.Example.com.", domain_node); (lit "blog.example.com", mapping [])].

Definition doc : Document :=
  mk_doc [] [] [] [] (lit "signing.key") [] false false (mk_admin [] [] 0 [] false false false (mk_angie [] 0)) (mk_storecfg [] [] [] [] 0 false)
    (mk_enforcement (mk_mirrorcfg 0 0 []) (mk_nft false [] [] [] None [] 0 0 [] false [])) (mk_attackmode true 0 0 None no_signals_cfg no_effects)
    (mk_verifier 0 (mk_rate 0 0)) [] [] (mk_feeds [] []) defaults_node (list_to_map hosts).
Definition env : host_env := mk_env true [] (fun _ => StatMissing).
Definition hkey (hs : list PredicateConfig) : gostring := [].

Definition empty_config : Config := mk_cfg (mk_resolved zero_domain []) ∅ [] [] [] 0 false 0 (mk_verifier 1 (mk_rate 10 minute)).
Definition loaded : Loaded := match finalize hkey env doc hosts with Ok l => l | Err _ => mk_loaded doc empty_config end.

Lemma loads : finalize hkey env doc hosts = Ok loaded.
Proof. vm_compute. reflexivity. Qed.
Example loads_files : map files_of (scopes (ld_config loaded)) =
  [[lit "common.yaml"]; [lit "common.yaml"]; [lit "common.yaml"; lit "shop.yaml"]; [lit "common.yaml"; lit "shop.yaml"; lit "api.yaml"]].
Proof. vm_compute. reflexivity. Qed.
End Ex.

(** * Properties *)

(** A request served under a configuration that loaded is governed by a
    validated scope, whatever its host and path: what that scope enables has
    what it needs, its label is bounded, and at every posture the detector can
    publish a challenge costs at least the scope's own difficulty and at most
    40 bits. *)
Theorem loaded_requests_governed `{Unicode, ConfigYAML, UrlParse} hkey ev d hosts l r : finalize hkey ev d hosts = Ok l ->
  let c := ld_config l in
  let dc := scopeForRequest c r in
  let p := dc_PoW dc in
  let a := do_AttackMode (ld_settings l) in
  scope_ok hkey dc /\ settings_ok ev (ld_settings l) /\
  (pw_Enabled p = true -> TrimSpace (c_SigningKeyFile c) <> []) /\
  (an_Enabled (wf_Anomaly (dc_WAF dc)) = true -> TrimSpace (an_Model (wf_Anomaly (dc_WAF dc))) <> []) /\
  (ru_Enabled (wf_Rules (dc_WAF dc)) = true -> files_of dc <> []) /\ (dc_Reputation dc = true -> rf_Feeds (do_Reputation (ld_settings l)) <> []) /\
  (dc_label dc = lit "default" \/ dc_label dc = NormalizeHost (q_Host r)) /\
  (am_Enabled a = true -> pw_Enabled p = true -> BaseBits p <= CapBits a) /\
  forall level reason now cur, let s := (publish (AttackModeSettings a) level reason now cur).1 in
    let '(effBase, effMax) := EffectiveBits (Some s) (BaseBits p) (MaxBits p) (Cap (Some s) (MaxBits p)) in
    4 <= BaseBits p <= effBase /\ effBase <= effMax <= 40.
Proof.
  unfold finalize. intros Hf. destruct (finalize_settings ev d) as [d' |] eqn:Es; cbn [wrap] in Hf; [| done].
  destruct (finalize_settings_ok ev d d' Es) as (Hset & _ & _). apply finalize_scopes_spec in Hf as (s & paths & os & raw & resolved & Hl).
  destruct (loaded_domains_ok hkey _ _ _ _ _ _ _ _ Hl) as [Hdef Hdom]. destruct Hl as [Hd Hr Hres -> Hfe Hcap]. cbn [ld_config ld_settings] in *.
  set (c := config_of _ _ resolved) in *. cbv zeta. pose proof (governing_scope c r) as Hin. set (dc := scopeForRequest c r) in *.
  assert (Hok : scope_ok hkey dc).
  { apply elem_of_scopes in Hin as [Hin | (host & dm & Hl & Hin)]; eapply domain_ok_scopes; [exact Hdef | done | by eapply Hdom | done]. }
  split; [exact Hok |]. split; [exact Hset |].
  assert (Hfd := proj1 (first_error_ok _ _) Hfe dc Hin). cbn beta zeta in Hfd.
  destruct (pw_Enabled (dc_PoW dc) && _) eqn:E1 in Hfd; [done |]. destruct (an_Enabled _ && _) eqn:E2 in Hfd; [done |].
  destruct (ru_Enabled _ && _) eqn:E3 in Hfd; [done |]. destruct (dc_Reputation dc && _) eqn:E4 in Hfd; [done |]. clear Hfd.
  split; [intros Hp; rewrite Hp in E1; by apply bool_decide_eq_false in E1 |].
  split; [intros Hp; rewrite Hp in E2; by apply bool_decide_eq_false in E2 |].
  split; [intros Hp Hn; unfold files_of, rules_of in Hn; rewrite Hp, Hn in E3; by cbn in E3 |].
  split; [intros Hp Hn; rewrite Hp in E4; cbn in E4; rewrite Hn in E4; by cbn in E4 |].
  split.
  { unfold dc, scopeForRequest. pose proof (ForPath_scope (DomainFor c (q_Host r)) (NormalizedPath r)) as Hs. destruct (DomainFor_cases c (q_Host r)) as [E | E].
    - left. rewrite E in *. unfold c in Hs. cbn [config_of c_Defaults] in Hs. by apply relabel_labels in Hs.
    - right. cbn [c config_of c_resolved] in E. apply (load_domains_lookup hkey _ _ _ _ _ Hres) in E as (h & n & d0 & _ & _ & _ & E). rewrite E in Hs at 2.
      by apply relabel_labels in Hs. }
  destruct Hset as [_ _ _ _ _ _ _ _ [a0 Ha] _]. split.
  - intros Hen Hp. unfold validateAttackDifficultyCap in Hcap. rewrite Hen in Hcap. cbn [negb] in Hcap.
    assert (Hc := proj1 (first_error_ok _ _) Hcap dc Hin). cbn beta in Hc. rewrite Hp in Hc. cbn [andb] in Hc.
    destruct (CapBits (do_AttackMode d') <? BaseBits (dc_PoW dc)) eqn:E; [done |]. by apply Z.ltb_ge in E.
  - intros level reason now cur. destruct (attack_bits a0 _ Ha level reason now cur) as [Hlo Hhi].
    set (st := (publish _ _ _ _ _).1) in *. pose proof (so_bits _ _ Hok) as [Hb Hm].
    unfold EffectiveBits. destruct (st_ExtraBits st =? 0); lia.
Qed.

(** The order in which the domains map is ranged over decides nothing: a load
    that succeeds in one order succeeds in every order, with the same result. *)
Theorem domain_order_irrelevant `{Unicode, ConfigYAML, UrlParse} hkey ev d hosts hosts' l : hosts ≡ₚ hosts' ->
  finalize hkey ev d hosts = Ok l -> finalize hkey ev d hosts' = Ok l.
Proof.
  intros Hp. unfold finalize. destruct (wrap ESettings (finalize_settings ev d)) as [d' |]; [| done]. rewrite !finalize_scopes_spec.
  intros (s & paths & os & raw & resolved & [Hd Hr Hdom Hl Hfe Hcap]). exists s, paths, os, raw, resolved. constructor; try done.
  by eapply load_domains_order.
Qed.

(** Rules files accumulate: where every domain and path spells its keys out,
    every scope enforces the defaults' rules files first, in their order, so a
    domain or a path can add rules and never drops the shared ones. *)
Theorem shared_rules_never_dropped `{Unicode, HY : ConfigYAML, UrlParse, !ConfigYAMLLaws} hkey ev d hosts l r :
  spelled_out (do_DefaultsNode d) -> (forall hn, hn ∈ hosts -> spelled_out hn.2) -> finalize hkey ev d hosts = Ok l ->
  exists local, files_of (scopeForRequest (ld_config l) r) = files_of (rd_cfg (c_Defaults (ld_config l))) ++ local.
Proof.
  intros Hd Hh. unfold finalize. destruct (finalize_settings ev d) as [d' |] eqn:Es; [| done]. cbn [wrap].
  destruct (finalize_settings_ok ev d d' Es) as (_ & Hn & _). rewrite <- Hn in Hd. intros Hf.
  destruct (loaded_rule_files hkey d' hosts l Hd Hh Hf _ (governing_scope (ld_config l) r)) as [local Hl]. by exists local.
Qed.

(** A daemon that started with the models a configuration asks for has, for
    every scope that scores anomalies, a model to score with, which covers the
    domain the scope belongs to. *)
Theorem scored_domains_have_models `{Unicode, ModelJSON} (c : Config) rd files label host dc :
  NewModelCache rd (ModelSpecs c) = Ok files -> (label, host, dc) ∈ eachScope c ->
  an_Enabled (wf_Anomaly (dc_WAF dc)) = true -> an_Model (wf_Anomaly (dc_WAF dc)) <> [] ->
  exists m, ModelCache.Get files (an_Model (wf_Anomaly (dc_WAF dc))) = Some m /\ model_ok m /\ (host <> [] -> HasDomain m host = true).
Proof.
  intros Hn Hin He Hm. destruct (ModelSpecs_cover c label host dc Hin He Hm) as (spec & Hs & Hp & Hh).
  destruct (load_specs_paths rd (ModelSpecs c) ∅ files Hn (ModelSpecs_nodup c)) as [Hall _]. destruct (Hall spec Hs) as (f & Hf & Hreq). rewrite Hp in Hf.
  destruct (NewModelCache_loaded rd (ModelSpecs c) files _ f Hn Hf) as [[_ (m & Hmf & Hok & Hdom)] _]. exists m. unfold ModelCache.Get. rewrite Hf. cbn.
  split; [done | split; [done |]]. intros Hne. apply Hdom. rewrite Hreq. by apply Hh.
Qed.

(** The health check of a running daemon probes the endpoints a load of the
    same file binds. *)
Theorem probe_reads_bound_endpoints `{Unicode, ConfigYAML, UrlParse} hkey ev file range l :
  (forall raw d t, yaml_Document raw = Some (d, t) -> yaml_Probe raw = Some (do_Listen d, do_Socket d, ad_Listen (do_Admin d))) ->
  LoadConfig hkey ev file range = Ok l ->
  ListenAddrs file = Ok (do_Listen (ld_settings l), do_Socket (ld_settings l), ad_Listen (do_Admin (ld_settings l))).
Proof.
  intros Hprobe. unfold LoadConfig, ListenAddrs. destruct (safe_read maxConfigBytes file) as [raw |]; [| done].
  destruct (yaml_Document raw) as [[d t] |] eqn:Ed; [| done]. rewrite (Hprobe _ _ _ Ed). destruct t; [| done | done].
  unfold finalize. destruct (finalize_settings ev d) as [d' |] eqn:Es; [| done]. cbn [wrap].
  intros (s & paths & os & rw & resolved & [_ _ _ -> _ _])%finalize_scopes_spec. cbn [ld_settings].
  unfold finalize_settings in Es. destruct (endpoints (do_Listen d) (do_Socket d)) as [listen socket]. cbv zeta in Es. inv_bind Es. injection Es as <-.
  cbn [do_Listen do_Socket do_Admin]. match goal with E : validate_admin _ _ = Ok _ |- _ => unfold validate_admin in E; cbv zeta in E; inv_bind E; by injection E as <- end.
Qed.

Section Witnesses.
Import Ex.

Definition shop_request : RequestContext := mk_req (lit "shop.example.com:443") (lit "GET") (lit "/api/cart") (lit "192.0.2.1") [] [] None false.

Theorem loaded_requests_governed_witness :
  finalize hkey env doc hosts = Ok loaded /\ scope_ok hkey (scopeForRequest (ld_config loaded) shop_request) /\
  dc_label (scopeForRequest (ld_config loaded) shop_request) = lit "shop.example.com".
Proof.
  split; [exact loads |]. split; [exact (proj1 (loaded_requests_governed hkey env doc hosts loaded shop_request loads)) |]. vm_compute. reflexivity.
Defined.

Theorem domain_order_irrelevant_witness : finalize hkey env doc (rev hosts) = Ok loaded.
Proof. refine (domain_order_irrelevant hkey env doc hosts (rev hosts) loaded _ loads). apply Permutation_rev. Defined.

Lemma ex_spelled_out : spelled_out defaults_node /\ (forall hn, hn ∈ hosts -> spelled_out hn.2).
Proof.
  assert (Hnone : forall n, plain (splitPathsNode n).2 [lit "waf"; lit "rules"] = true -> (splitPathsNode n).1 = None -> spelled_out n).
  { intros n Hp Hn. split; [done |]. intros p nodes key v. by rewrite Hn. }
  split; [apply Hnone; by vm_compute |]. intros hn [-> | [-> | []%not_elem_of_nil]%elem_of_cons]%elem_of_cons; [| apply Hnone; by vm_compute].
  split; [by vm_compute |]. intros p nodes key v Hp. vm_compute in Hp. injection Hp as <-. intros [= <-].
  cbn [yaml_nodes decoder]. cbn. intros [[_ <-] | [_ Hl]]%lookup_insert_Some; [by vm_compute | by rewrite lookup_empty in Hl].
Qed.

Theorem shared_rules_never_dropped_witness :
  exists local, files_of (scopeForRequest (ld_config loaded) shop_request) = files_of (rd_cfg (c_Defaults (ld_config loaded))) ++ local.
Proof. exact (shared_rules_never_dropped hkey env doc hosts loaded shop_request (proj1 ex_spelled_out) (proj2 ex_spelled_out) loads). Defined.

#[local] Existing Instance Anomaly.Ex.one_model.
Definition scored : DomainConfig :=
  let w := dc_WAF base in
  mk_domain (mk_waf (wf_IPBehaviour w) (wf_Rules w) (mk_anomaly true false (lit "/m.json") (f64 0) (f64 1)) (wf_Honeypot w)) (dc_PoW base) (dc_Geo base)
    (dc_Reputation base) (dc_Allowlist base) (dc_Denylist base) (dc_VerifiedBots base) (lit "example.com").
Definition scored_config : Config :=
  mk_cfg (mk_resolved base []) {[ lit "example.com" := mk_resolved scored [] ]} [] [] [] 0 false 0 (mk_verifier 1 (mk_rate 10 minute)).

Theorem scored_domains_have_models_witness :
  ModelSpecs scored_config = [mk_spec (lit "/m.json") [lit "example.com"]] /\
  exists m, ModelCache.Get ModelCache.Ex.cache (lit "/m.json") = Some m /\ HasDomain m (lit "example.com") = true.
Proof.
  assert (Hs : ModelSpecs scored_config = ModelCache.Ex.specs) by (vm_compute; reflexivity). split; [exact Hs |].
  destruct (scored_domains_have_models scored_config (ModelCache.Ex.holds "model") ModelCache.Ex.cache (lit "domain example.com") (lit "example.com") scored) as (m & Hm & _ & Hd).
  - rewrite Hs. vm_compute. reflexivity.
  - assert (E : eachScope scored_config = [(lit "defaults", [], base); (lit "domain example.com", lit "example.com", scored)]) by (vm_compute; reflexivity).
    rewrite E. right. left.
  - reflexivity.
  - discriminate.
  - exists m. split; [exact Hm | apply Hd; discriminate].
Defined.

(** A decoder of one document. *)
Definition one_document : ConfigYAML :=
  {| yaml_MarshalNode := yaml_MarshalNode; yaml_DecodeStrict := yaml_DecodeStrict; yaml_MarshalScope := yaml_MarshalScope;
     yaml_Unmarshal := yaml_Unmarshal; yaml_strings := yaml_strings; yaml_nodes := yaml_nodes;
     yaml_Document := fun _ => Some (doc, AtEOF); yaml_Probe := fun _ => Some (do_Listen doc, do_Socket doc, ad_Listen (do_Admin doc)) |}.

Theorem probe_reads_bound_endpoints_witness :
  @ListenAddrs one_document (mk_answers true (Some 1) (Some (lit "x"))) = Ok (defaultListen, defaultSocket, []).
Proof.
  refine (@probe_reads_bound_endpoints _ one_document _ hkey env (mk_answers true (Some 1) (Some (lit "x"))) (fun _ => hosts) loaded _ _).
  - intros raw d t [= <- _]. reflexivity.
  - vm_compute. reflexivity.
Defined.
End Witnesses.

(** * A gap in the scope checks

    The checks on a path overlay, and the search for its rules files, read the
    keys its node spells; a merge key adds keys only the decoder sees.  The
    overlay below sets pow.algorithm through one, and is not refused. *)
Section MergeKeys.
Import Ex.
Definition smuggled : Node := mapping [("pow"%string, mapping [("<<"%string, mapping [("algorithm"%string, scalar "argon2id")])])].
Definition spelled : Node := mapping [("pow"%string, mapping [("algorithm"%string, scalar "argon2id")])].

Theorem merge_key_evades_path_checks `{ConfigYAML} key s s' : overlay smuggled s = Some s' ->
  path_layer key (Some smuggled) s = Ok s' /\ path_layer key (Some spelled) s = Err (EPathAlgorithm key) /\
  plain smuggled [lit "pow"] = false.
Proof. intros Ho. split; [| split; vm_compute; reflexivity]. unfold path_layer. rewrite Ho. vm_compute. reflexivity. Qed.

Theorem merge_key_evades_path_checks_witness : exists s', path_layer (lit "/api/") (Some smuggled) zero_scope = Ok s'.
Proof. eexists. refine (proj1 (merge_key_evades_path_checks (lit "/api/") zero_scope _ _)). vm_compute. reflexivity. Defined.
End MergeKeys.
