(* ===== verification/Pipeline.v ===== *)
(** * The decision pipeline (core/pipeline.go)

    The request-local environment with its memoized lookups, and the twelve
    stages, each as the code has it: a decision, no opinion, or an error.  The
    other components answer through [Services]; [en_calls] records the lookups
    made, in order. *)

From S2P Require Export AttackMode Recent Token DomainConfig.
From S2P Require Export Stateless.
From S2P Require Enforce BotVerify HeaderExempt Intel Waf.

Open Scope Z_scope.

(** ** What stages consult *)
Inductive token_fault := FaultBinding | FaultUnderDifficulty | FaultExpired | FaultInvalid | FaultOther.

(** The score of a request under a model. *)
Record ScoreResult := mk_score { sr_Found : bool; sr_Score : float }.
Abbreviation scorer := (gostring -> gostring -> gostring -> gostring -> gostring -> ScoreResult).

(** A nil service is [None].  [sv_store]: what [Get] answers; [sv_pow]:
    [VerifyToken] of token, host, address, User-Agent, floor and lifetime;
    [sv_bots]: [Verify]; [sv_cached]: [LookupCached]; [sv_now]: the mirror's
    clock. *)
Record Services `{Waf.Regexp, Intel.GeoDB} := mk_services {
  sv_store : gostring -> result (option gostring);
  sv_pow : option (gostring -> gostring -> gostring -> gostring -> Z -> Z -> option token_fault);
  sv_rules : option Waf.RuleCache;
  sv_models : option (gostring -> option scorer);
  sv_intel : option Intel.Provider;
  sv_headers : option (gmap gostring (list HeaderExempt.predicate));
  sv_bots : option (gostring -> BotVerify.Options -> BotVerify.Identity);
  sv_cached : gostring -> option BotVerify.Identity;
  sv_attack : option AttackMode.State;
  sv_now : Z
}.

Inductive tokenVerdict := tokenUnchecked | tokenValid | tokenAbsent | tokenInvalid | tokenExpired | tokenBinding | tokenUnderDifficulty.
#[global] Instance tokenVerdict_eq_dec : EqDecision tokenVerdict.
Proof. solve_decision. Defined.

Inductive lookup := AskOrigin | AskToken | AskHeaders | AskBot | AskMirror | AskStore (key : gostring) | AskModel | AskFeed (action : gostring).
#[global] Instance lookup_eq_dec : EqDecision lookup.
Proof. solve_decision. Defined.

(** [en_headerExempt]: unchecked, or whether a predicate matched. *)
Record stageEnv := mk_env {
  en_enforcer : option Enforce.manager;
  en_origin : option Intel.Info;
  en_token : tokenVerdict;
  en_headerExempt : option bool;
  en_powExemption : gostring;
  en_calls : list lookup
}.

Definition newEnv (enforcer : option Enforce.manager) : stageEnv := mk_env enforcer None tokenUnchecked None [] [].

Definition set_enforcer (m : option Enforce.manager) (e : stageEnv) : stageEnv := mk_env m (en_origin e) (en_token e) (en_headerExempt e) (en_powExemption e) (en_calls e).
Definition set_origin (i : Intel.Info) (e : stageEnv) : stageEnv := mk_env (en_enforcer e) (Some i) (en_token e) (en_headerExempt e) (en_powExemption e) (en_calls e).
Definition set_token (v : tokenVerdict) (e : stageEnv) : stageEnv := mk_env (en_enforcer e) (en_origin e) v (en_headerExempt e) (en_powExemption e) (en_calls e).
Definition set_headerExempt (b : bool) (e : stageEnv) : stageEnv := mk_env (en_enforcer e) (en_origin e) (en_token e) (Some b) (en_powExemption e) (en_calls e).
Definition set_exemption (x : gostring) (e : stageEnv) : stageEnv := mk_env (en_enforcer e) (en_origin e) (en_token e) (en_headerExempt e) x (en_calls e).
Definition asked (l : lookup) (e : stageEnv) : stageEnv := mk_env (en_enforcer e) (en_origin e) (en_token e) (en_headerExempt e) (en_powExemption e) (en_calls e ++ [l]).

Inductive stage_error := BadClientIP (ip : gostring) | StoreFailed (e : store_error).

(** ** Helpers *)

(** [strings.SplitSeq] at a byte. *)
Fixpoint split_from (c : ascii) (s cur : gostring) : list gostring :=
  match s with
  | [] => [rev cur]
  | x :: r => if Ascii.eqb x c then rev cur :: split_from c r [] else split_from c r (x :: cur)
  end.


Definition half : float := fdiv (f64 1) (f64 2).

Section Pipeline.
Context `{Unicode, Waf.Regexp, Intel.GeoDB, FloatToInt}.
(** [fmt.Sprintf("score=%.2f", score)]. *)
Variable score_detail : float -> gostring.
Variables (sv : Services) (dom : DomainConfig) (req : RequestContext).

Abbreviation stage_result := (outcome stage_error (option Decision) * stageEnv)%type.
Definition no_opinion (e : stageEnv) : stage_result := (Ok None, e).
Definition verdict (d : Decision) (e : stageEnv) : stage_result := (Ok (Some d), e).

Definition cookieValue (header name : gostring) : option gostring :=
  let p := name ++ lit "=" in
  match List.find (fun part => has_prefix p (TrimSpace part)) (split_from ";"%char header []) with
  | Some part => Some (drop (length p) (TrimSpace part))
  | None => None
  end.

Definition reasonCategory (reason : gostring) : gostring := default reason (cut_before ":"%char reason).

Definition effBits : Z * Z :=
  let p := dc_PoW dom in EffectiveBits (sv_attack sv) (BaseBits p) (MaxBits p) (Cap (sv_attack sv) (MaxBits p)).

Definition originInfo (a : addr) (e : stageEnv) : Intel.Info * stageEnv :=
  match en_origin e with
  | Some i => (i, e)
  | None => let i := Intel.Lookup (sv_intel sv) a in (i, set_origin i (asked AskOrigin e))
  end.

Definition pow_on : bool := bool_decide (is_Some (sv_pow sv)) && pw_Enabled (dc_PoW dom).

Definition headerPoWExempt (e : stageEnv) : bool * stageEnv :=
  match en_headerExempt e with
  | Some b => (b, e)
  | None =>
    let p := dc_PoW dom in
    if negb (pw_Enabled p) || is_nil (pw_HeaderExemptions p) || negb (bool_decide (is_Some (sv_headers sv))) then (false, set_headerExempt false e)
    else
      let result := HeaderExempt.Match (sv_headers sv) (pw_headerExemptionKey p) (HeaderExempt.mk_hreq (q_Host req) (NormalizedPath req) (q_Header req)) in
      let e := asked AskHeaders e in
      if HeaderExempt.hx_Matched result then (true, set_headerExempt true (set_exemption (lit "header_exemption") e))
      else (false, set_headerExempt false e)
  end.

Definition powExempt (e : stageEnv) : bool * stageEnv :=
  if bool_decide (en_powExemption e = []) then headerPoWExempt e else (true, e).

Definition classifyToken (err : option token_fault) : tokenVerdict :=
  match err with
  | None => tokenValid
  | Some FaultBinding => tokenBinding
  | Some FaultUnderDifficulty => tokenUnderDifficulty
  | Some FaultExpired => tokenExpired
  | Some FaultInvalid => tokenInvalid
  | Some FaultOther => tokenInvalid
  end.

Definition reasonNoToken : gostring := lit "pow:no_token".
Definition reasonTokenInvalid : gostring := lit "pow:token_invalid".
Definition reasonTokenExpired : gostring := lit "pow:token_expired".
Definition reasonTokenBinding : gostring := lit "pow:token_binding".
Definition reasonTokenUnderDiff : gostring := lit "pow:token_underdifficulty".
Definition reasonUnchallengeable : gostring := lit "pow:unchallengeable".

Definition verdict_reason (v : tokenVerdict) : gostring :=
  match v with
  | tokenInvalid => reasonTokenInvalid
  | tokenExpired => reasonTokenExpired
  | tokenBinding => reasonTokenBinding
  | tokenUnderDifficulty => reasonTokenUnderDiff
  | _ => reasonNoToken
  end.

Definition powToken (e : stageEnv) : tokenVerdict * stageEnv :=
  if negb (bool_decide (en_token e = tokenUnchecked)) then (en_token e, e)
  else
    let p := dc_PoW dom in
    match sv_pow sv with
    | None => (tokenAbsent, set_token tokenAbsent e)
    | Some verify =>
      if negb (pw_Enabled p) then (tokenAbsent, set_token tokenAbsent e)
      else match cookieValue (q_Cookie req) CookieName with
           | None => (tokenAbsent, set_token tokenAbsent e)
           | Some token =>
             let v := classifyToken (verify token (q_Host req) (q_RemoteAddr req) (q_UserAgent req) (TokenMinBits p) (pw_TokenTTL p)) in
             (v, set_token v (asked AskToken e))
           end
    end.

Definition hasValidPoWToken (e : stageEnv) : bool * stageEnv := let '(v, e) := powToken e in (bool_decide (v = tokenValid), e).

Definition challenge (difficulty : Z) (reason : gostring) (events : list Event) : Decision := mk_decision ActionChallenge difficulty reason [] events.
Definition deny (reason : gostring) (events : list Event) : Decision := decide_as ActionDeny reason events.
Definition decisionPoWToken : Decision := decide_as ActionAllow (lit "pow:token") [].

(** ** Stages *)
Definition allowlistStage (e : stageEnv) : stage_result := no_opinion (set_exemption (MatchAllowlist req (dc_Allowlist dom)) e).

Definition headerPoWExemptionStage (e : stageEnv) : stage_result := no_opinion (powExempt e).2.

Definition denylistStage (e : stageEnv) : stage_result :=
  match ParseAddr (q_RemoteAddr req) with
  | None => (Err (BadClientIP (q_RemoteAddr req)), e)
  | Some _ => (Ok (CheckDenylist req (dc_Denylist dom)), e)
  end.

(** [classifyBotIdentity]. *)
Inductive bot_outcome := Verified | BotError | Spoof.
Definition classifyBotIdentity (bot : BotConfig) (status : BotVerify.Status) (matches : bool) (e : stageEnv) : bot_outcome * stageEnv :=
  if bool_decide (status = BotVerify.StatusConfirmed) && matches
  then (Verified, if bool_decide (en_powExemption e = []) || bool_decide (en_powExemption e = lit "header_exemption")
                  then set_exemption (lit "verified_bot:" ++ b_Name bot) e else e)
  else if bool_decide (status = BotVerify.StatusError) then (BotError, e) else (Spoof, e).

Definition spoofDenied (o : bot_outcome) : bool :=
  match o with Spoof => negb (bool_decide (vb_SpoofAction (dc_VerifiedBots dom) = lit "continue")) | _ => false end.

Definition bot_options : BotVerify.Options := BotVerify.mk_options (vb_CacheTTL (dc_VerifiedBots dom)) (vb_NegativeTTL (dc_VerifiedBots dom)).

Definition verifiedBotStage (e : stageEnv) : stage_result :=
  match bot_match (dc_VerifiedBots dom) (LowerUA req), sv_bots sv with
  | Some bot, Some verify =>
    let res := verify (q_RemoteAddr req) bot_options in
    let '(outcome, e) := classifyBotIdentity bot (BotVerify.id_status res) (BotVerify.MatchesDomains res (b_domainsLower bot)) (asked AskBot e) in
    if spoofDenied outcome then verdict (deny (lit "bot_spoof:" ++ b_Name bot) [mk_event EventBotSpoof (b_Name bot)]) e else no_opinion e
  | _, _ => no_opinion e
  end.

Definition enforcer_Lookup (m : option Enforce.manager) (ip : gostring) : option gostring :=
  match m with Some m => Enforce.Lookup ip (sv_now sv) m | None => None end.
Definition enforcer_ReadThrough (m : option Enforce.manager) : bool := match m with Some m => Enforce.ReadThrough m | None => true end.
Definition enforcer_Learn (ip reason : gostring) (m : option Enforce.manager) : option Enforce.manager :=
  match m with Some m => Some (Enforce.Learn ip reason (sv_now sv) m) | None => None end.

Definition behaviourBlockStage (e : stageEnv) : stage_result :=
  let ip := q_RemoteAddr req in
  let e := asked AskMirror e in
  match enforcer_Lookup (en_enforcer e) ip with
  | Some reason => verdict (deny (lit "behaviour_block:" ++ reason) []) e
  | None =>
    if negb (enforcer_ReadThrough (en_enforcer e)) && bool_decide (is_Some (ParseAddr ip)) then no_opinion e
    else
      let e := asked (AskStore (BlockKey ip)) e in
      match sv_store sv (BlockKey ip) with
      | Err err => (Err (StoreFailed err), e)
      | Ok None => no_opinion e
      | Ok (Some value) =>
        let why := BlockReason value in
        verdict (deny (lit "behaviour_block:" ++ why) []) (set_enforcer (enforcer_Learn ip why (en_enforcer e)) e)
      end
  end.

(** The geo verdict of an address, if it is [action]. *)
Definition geo_verdict (a : addr) (action : gostring) (e : stageEnv) : option gostring * stageEnv :=
  if ge_Enabled (dc_Geo dom) then
    let '(info, e) := originInfo a e in
    let '(act, reason) := geo_Action (dc_Geo dom) (Intel.i_Country info) (Intel.i_ASN info) in
    (if bool_decide (act = action) then Some reason else None, e)
  else (None, e).

Definition feed_verdict (a : addr) (action : gostring) (e : stageEnv) : option gostring * stageEnv :=
  if dc_Reputation dom then (Intel.FeedMatch (sv_intel sv) a action, asked (AskFeed action) e) else (None, e).

Definition intelDenyStage (e : stageEnv) : stage_result :=
  match sv_intel sv, ParseAddr (q_RemoteAddr req) with
  | Some _, Some a =>
    let '(hit, e) := feed_verdict a Intel.FeedActionDeny e in
    match hit with
    | Some feed => verdict (deny (lit "reputation:" ++ feed) []) e
    | None =>
      let '(geo, e) := geo_verdict a (lit "deny") e in
      match geo with Some reason => verdict (deny reason []) e | None => no_opinion e end
    end
  | _, _ => no_opinion e
  end.

Definition intelChallengeStage (e : stageEnv) : stage_result :=
  match sv_intel sv with
  | None => no_opinion e
  | Some _ =>
    if negb pow_on then no_opinion e else
    let '(exempt, e) := powExempt e in
    if exempt then no_opinion e else
    match ParseAddr (q_RemoteAddr req) with
    | None => no_opinion e
    | Some a =>
      let '(base, maxDiff) := effBits in
      let '(hit, e) := feed_verdict a Intel.FeedActionChallenge e in
      match hit with
      | Some feed => verdict (challenge (Z.min (base + 4) maxDiff) (lit "reputation:" ++ feed) []) e
      | None =>
        let '(geo, e) := geo_verdict a (lit "challenge") e in
        match geo with Some reason => verdict (challenge base reason []) e | None => no_opinion e end
      end
    end
  end.

Definition honeypotStage (e : stageEnv) : stage_result := (Ok (CheckHoneypot req (wf_Honeypot (dc_WAF dom))), e).

Definition rule_deny (r : Waf.Rule) : Decision := deny (waf_reason r) [mk_event EventRuleMatch (Waf.r_ID r)].

Definition wafRulesStage (e : stageEnv) : stage_result :=
  let rules := wf_Rules (dc_WAF dom) in
  match (if ru_Enabled rules then sv_rules sv else None) with
  | None => no_opinion e
  | Some cache =>
    match Waf.Get (ru_ruleKey rules) cache with
    | None => no_opinion e
    | Some rs =>
      let '(exempt, e) := powExempt e in
      match Waf.MatchEnforcing rs (BuildMatchInput req rs) exempt with
      | None => no_opinion e
      | Some rule =>
        match Waf.r_Action rule with
        | Waf.ActionAllow => verdict (decide_as ActionAllow (waf_reason rule) []) e
        | Waf.ActionChallenge =>
          if pow_on then
            let '(valid, e) := hasValidPoWToken e in
            if valid then verdict decisionPoWToken e
            else let '(base, maxDiff) := effBits in
                 verdict (challenge (Z.min (base + 4) maxDiff) (waf_reason rule) [mk_event EventRuleMatch (Waf.r_ID rule)]) e
          else verdict (rule_deny rule) e
        | Waf.ActionDeny => verdict (rule_deny rule) e
        | Waf.ActionBlock => verdict (deny (waf_reason rule) [mk_event EventInstantBlock (waf_reason rule)]) e
        end
      end
    end
  end.

Definition powTokenStage (e : stageEnv) : stage_result :=
  let '(exempt, e) := powExempt e in
  if exempt then no_opinion e
  else let '(valid, e) := hasValidPoWToken e in if valid then verdict decisionPoWToken e else no_opinion e.

Definition scaleDifficulty (base maxDiff : Z) (score challengeAt : float) : Z :=
  if fge challengeAt (f64 1) then base
  else
    let d := base + int_of_float (fadd (fdiv (fmul (f64 (maxDiff - base)) (fsub score challengeAt)) (fsub (f64 1) challengeAt)) half) in
    Z.min (Z.max d base) maxDiff.

Definition anomalyStage (e : stageEnv) : stage_result :=
  let a := wf_Anomaly (dc_WAF dom) in
  match (if an_Enabled a then sv_models sv else None) with
  | None => no_opinion e
  | Some models =>
    match models (an_Model a) with
    | None => no_opinion e
    | Some score_of =>
      let e := asked AskModel e in
      let result := score_of (q_Host req) (q_Method req) (DecodePath (RequestPath (q_URI req))) (DecodeQuery (RequestQuery (q_URI req))) (q_UserAgent req) in
      let score := sr_Score result in
      if negb (sr_Found result) || an_ObserveOnly a then no_opinion e
      else if fge score (an_DenyAt a) then verdict (deny (lit "anomaly:deny") [mk_event EventAnomaly (score_detail score)]) e
      else if fge score (an_ChallengeAt a) && pow_on then
        let '(exempt, e) := powExempt e in
        if exempt then no_opinion e
        else let '(base, maxDiff) := effBits in
             verdict (challenge (scaleDifficulty base maxDiff score (an_ChallengeAt a)) (lit "anomaly:challenge") [mk_event EventAnomaly (score_detail score)]) e
      else no_opinion e
    end
  end.

Definition forceAlways : bool := match sv_attack sv with Some s => st_ForceAlways s | None => false end.

Definition powChallengeStage (e : stageEnv) : stage_result :=
  if negb pow_on then no_opinion e else
  let '(exempt, e) := powExempt e in
  if exempt then no_opinion e
  else if bool_decide (pw_Mode (dc_PoW dom) = lit "suspicion") && an_Enabled (wf_Anomaly (dc_WAF dom)) && negb forceAlways then no_opinion e
  else let '(v, e) := powToken e in verdict (challenge effBits.1 (verdict_reason v) []) e.

(** ** The loop of [Evaluate] *)
Definition stages : list (stageEnv -> stage_result) :=
  [allowlistStage; headerPoWExemptionStage; denylistStage; verifiedBotStage; intelDenyStage; behaviourBlockStage;
   honeypotStage; wafRulesStage; powTokenStage; intelChallengeStage; anomalyStage; powChallengeStage].

(** A stage error is logged and skipped. *)
Fixpoint run_stages (ss : list (stageEnv -> stage_result)) (e : stageEnv) : option Decision * list stage_error * stageEnv :=
  match ss with
  | [] => (None, [], e)
  | s :: rest =>
    match s e with
    | (Ok (Some d), e) => (Some d, [], e)
    | (Ok None, e) => run_stages rest e
    | (Err err, e) => let '(d, errs, e) := run_stages rest e in (d, err :: errs, e)
    end
  end.
End Pipeline.
