(* ===== verification/Policy.v ===== *)
(** * What the pipeline decides (core/pipeline.go, core/engine.go)

    A memo-free policy: what each stage has to say of a request, as a function
    of the request's exemption alone.  The staged pipeline, with its lookups
    memoized in the environment and its failures skipped, is proved to decide
    exactly the first opinion of the policy, asking each lookup at most once. *)

From S2P Require Export Pipeline.

Open Scope Z_scope.

(** The first opinion. *)
Fixpoint first_of {A} (os : list (option A)) : option A :=
  match os with [] => None | Some x :: _ => Some x | None :: rest => first_of rest end.

Lemma first_of_app {A} (xs ys : list (option A)) :
  first_of (xs ++ ys) = match first_of xs with Some x => Some x | None => first_of ys end.
Proof. induction xs as [| [x |] xs IH]; done. Qed.

Lemma first_of_elem {A} (os : list (option A)) (x : A) : first_of os = Some x -> Some x ∈ os.
Proof.
  induction os as [| [y |] os IH]; cbn [first_of]; intros Hf; [done | | right; by apply IH].
  injection Hf as ->. left.
Qed.

Lemma first_of_hit {A} (os : list (option A)) (x : A) : Some x ∈ os -> is_Some (first_of os).
Proof.
  induction os as [| o os IH]; [by intros Hn%elem_of_nil |]. rewrite elem_of_cons. cbn [first_of].
  intros [<- | Hin]; [by eexists |]. destruct o; [by eexists | by apply IH].
Qed.

Section Policy.
Context `{Unicode, Waf.Regexp, Intel.GeoDB, FloatToInt}.
Variable score_detail : float -> gostring.
Variables (sv : Services) (dom : DomainConfig) (req : RequestContext).

(** ** The answers behind the memos *)
Definition header_match : bool :=
  let p := dc_PoW dom in
  if negb (pw_Enabled p) || is_nil (pw_HeaderExemptions p) || negb (bool_decide (is_Some (sv_headers sv))) then false
  else HeaderExempt.hx_Matched (HeaderExempt.Match (sv_headers sv) (pw_headerExemptionKey p)
         (HeaderExempt.mk_hreq (q_Host req) (NormalizedPath req) (q_Header req))).

Definition token_state : tokenVerdict :=
  let p := dc_PoW dom in
  match sv_pow sv with
  | Some verify =>
    if pw_Enabled p then
      match cookieValue (q_Cookie req) CookieName with
      | Some token => classifyToken (verify token (q_Host req) (q_RemoteAddr req) (q_UserAgent req) (TokenMinBits p) (pw_TokenTTL p))
      | None => tokenAbsent
      end
    else tokenAbsent
  | None => tokenAbsent
  end.

Definition has_token : bool := bool_decide (token_state = tokenValid).

Lemma token_state_checked : token_state <> tokenUnchecked.
Proof. unfold token_state, classifyToken. repeat case_match; done. Qed.

Definition is_exempt (e : stageEnv) : bool := negb (bool_decide (en_powExemption e = [])) || header_match.

(** The environment remembers only true answers. *)
Record coherent (e : stageEnv) : Prop := {
  co_origin : forall i, en_origin e = Some i -> exists a, ParseAddr (q_RemoteAddr req) = Some a /\ i = Intel.Lookup (sv_intel sv) a;
  co_token : en_token e = tokenUnchecked \/ en_token e = token_state;
  co_header : forall b, en_headerExempt e = Some b -> b = header_match /\ (b = true -> en_powExemption e <> [])
}.

(** What every stage preserves, but the classification of a crawler. *)
Record keeps_env (e e' : stageEnv) : Prop := {
  ke_ok : coherent e';
  ke_exempt : is_exempt e' = is_exempt e;
  ke_enforcer : en_enforcer e' = en_enforcer e
}.

Lemma env_keeps_refl e : coherent e -> keeps_env e e.
Proof. by split. Qed.

Lemma env_keeps_trans e1 e2 e3 : keeps_env e1 e2 -> keeps_env e2 e3 -> keeps_env e1 e3.
Proof. intros [] []. split; [done | congruence..]. Qed.

Lemma env_keeps_asked l e : coherent e -> keeps_env e (asked l e).
Proof. by intros []. Qed.

Lemma powExempt_answer e : coherent e -> (powExempt sv dom req e).1 = is_exempt e /\ keeps_env e (powExempt sv dom req e).2.
Proof.
  intros He. unfold powExempt, is_exempt. destruct (bool_decide (en_powExemption e = [])) eqn:Ex; cbn [negb orb].
  2: { by split; [| apply env_keeps_refl]. }
  unfold headerPoWExempt. destruct (en_headerExempt e) as [b |] eqn:Eh.
  - destruct (co_header e He b Eh) as [-> Hb]. by split; [| apply env_keeps_refl].
  - assert (Hk : keeps_env e (set_headerExempt false e) \/ header_match = true).
    { destruct header_match eqn:Em; [by right | left]. destruct He as [Ho Ht _]. split; [split; cbn; try done | done | done].
      intros b [= <-]. by rewrite Em. }
    unfold header_match in Hk |- *. destruct (_ || _ || _) eqn:Eg; [by destruct Hk |]. cbn zeta.
    destruct (HeaderExempt.hx_Matched _) eqn:Em.
    + split; [done |]. destruct He as [Ho Ht _].
      assert (Hm : header_match = true) by (unfold header_match; by rewrite Eg, Em).
      split; [split; cbn; try done | | done].
      * intros b [= <-]. by rewrite Hm.
      * unfold is_exempt. cbn. by rewrite Hm, !orb_true_r.
    + split; [done |]. destruct Hk as [Hk |]; [| done]. eapply env_keeps_trans; [by apply (env_keeps_asked AskHeaders) |].
      destruct He as [Ho Ht _]. assert (Hm : header_match = false) by (unfold header_match; by rewrite Eg, Em).
      split; [split; cbn; try done | done | done]. intros b [= <-]. by rewrite Hm.
Qed.

Lemma powToken_answer e : coherent e -> (powToken sv dom req e).1 = token_state /\ keeps_env e (powToken sv dom req e).2.
Proof.
  intros He. unfold powToken. destruct (decide (en_token e = tokenUnchecked)) as [Hu | Hu].
  2: { rewrite bool_decide_eq_false_2 by done. cbn. destruct (co_token e He) as [| Ht]; [done |]. by split; [| apply env_keeps_refl]. }
  rewrite bool_decide_eq_true_2 by done. cbn [negb].
  assert (Hs : forall e', keeps_env e e' -> keeps_env e (set_token token_state e')).
  { intros e' [[Ho Ht Hh] Hx Hm]. split; [split; cbn; auto | done | done]. }
  unfold token_state in Hs |- *. destruct (sv_pow sv) as [verify |]; [| split; [done | by apply Hs, env_keeps_refl]].
  destruct (pw_Enabled _); cbn [negb]; [| split; [done | by apply Hs, env_keeps_refl]].
  destruct (cookieValue _ _); [| split; [done | by apply Hs, env_keeps_refl]].
  split; [done |]. by apply Hs, env_keeps_asked.
Qed.

Lemma hasValidPoWToken_answer e : coherent e ->
  (hasValidPoWToken sv dom req e).1 = has_token /\ keeps_env e (hasValidPoWToken sv dom req e).2.
Proof.
  intros He. destruct (powToken_answer e He) as [Hv Hk]. unfold hasValidPoWToken, has_token.
  destruct (powToken sv dom req e) as [v e']. cbn in *. by subst v.
Qed.

Lemma originInfo_answer a e : coherent e -> ParseAddr (q_RemoteAddr req) = Some a ->
  (originInfo sv a e).1 = Intel.Lookup (sv_intel sv) a /\ keeps_env e (originInfo sv a e).2.
Proof.
  intros He Ha. unfold originInfo. destruct (en_origin e) as [i |] eqn:Ei.
  - destruct (co_origin e He i Ei) as (a' & Ha' & ->). split; [cbn; congruence | by apply env_keeps_refl].
  - split; [done |]. destruct He as [Ho Ht Hh]. split; [split; cbn; try done | done | done]. intros i [= <-]. by exists a.
Qed.

(** ** Opinions *)
Definition geo_says (a : addr) (action : gostring) : option gostring :=
  if ge_Enabled (dc_Geo dom) then
    let info := Intel.Lookup (sv_intel sv) a in
    let verdict := geo_Action (dc_Geo dom) (Intel.i_Country info) (Intel.i_ASN info) in
    if bool_decide (verdict.1 = action) then Some verdict.2 else None
  else None.

Definition feed_says (a : addr) (action : gostring) : option gostring :=
  if dc_Reputation dom then Intel.FeedMatch (sv_intel sv) a action else None.

Definition denylist_says : option Decision :=
  match ParseAddr (q_RemoteAddr req) with Some _ => CheckDenylist req (dc_Denylist dom) | None => None end.

(** The bot the User-Agent claims, and what its address proves. *)
Definition bot_claim : option (BotConfig * BotVerify.Identity) :=
  match bot_match (dc_VerifiedBots dom) (LowerUA req), sv_bots sv with
  | Some bot, Some verify => Some (bot, verify (q_RemoteAddr req) (bot_options dom))
  | _, _ => None
  end.
Definition bot_verified : bool :=
  match bot_claim with
  | Some (bot, id) => bool_decide (BotVerify.id_status id = BotVerify.StatusConfirmed) && BotVerify.MatchesDomains id (b_domainsLower bot)
  | None => false
  end.
Definition spoof_says : option Decision :=
  match bot_claim with
  | Some (bot, id) =>
    if negb bot_verified && negb (bool_decide (BotVerify.id_status id = BotVerify.StatusError)) &&
       negb (bool_decide (vb_SpoofAction (dc_VerifiedBots dom) = lit "continue"))
    then Some (deny (lit "bot_spoof:" ++ b_Name bot) [mk_event EventBotSpoof (b_Name bot)]) else None
  | None => None
  end.

Definition intel_deny_says : option Decision :=
  match sv_intel sv, ParseAddr (q_RemoteAddr req) with
  | Some _, Some a =>
    match feed_says a Intel.FeedActionDeny with
    | Some feed => Some (deny (lit "reputation:" ++ feed) [])
    | None => match geo_says a (lit "deny") with Some reason => Some (deny reason []) | None => None end
    end
  | _, _ => None
  end.

(** The reason of the block in force, through the mirror [m]. *)
Definition block_known (m : option Enforce.manager) : option gostring :=
  match enforcer_Lookup sv m (q_RemoteAddr req) with
  | Some reason => Some reason
  | None =>
    if negb (enforcer_ReadThrough m) && bool_decide (is_Some (ParseAddr (q_RemoteAddr req))) then None
    else match sv_store sv (BlockKey (q_RemoteAddr req)) with Ok (Some value) => Some (BlockReason value) | _ => None end
  end.
Definition block_says (m : option Enforce.manager) : option Decision :=
  (fun reason => deny (lit "behaviour_block:" ++ reason) []) <$> block_known m.

Definition honeypot_says : option Decision := CheckHoneypot req (wf_Honeypot (dc_WAF dom)).

(** The rule that decides, for an exempt or another request. *)
Definition waf_rule (exempt : bool) : option Waf.Rule :=
  let rules := wf_Rules (dc_WAF dom) in
  match (if ru_Enabled rules then sv_rules sv else None) with
  | Some cache => match Waf.Get (ru_ruleKey rules) cache with Some rs => Waf.MatchEnforcing rs (BuildMatchInput req rs) exempt | None => None end
  | None => None
  end.
Definition rule_says (rule : Waf.Rule) : Decision :=
  match Waf.r_Action rule with
  | Waf.ActionAllow => decide_as ActionAllow (waf_reason rule) []
  | Waf.ActionChallenge =>
    if pow_on sv dom then
      if has_token then decisionPoWToken
      else challenge (Z.min ((effBits sv dom).1 + 4) (effBits sv dom).2) (waf_reason rule) [mk_event EventRuleMatch (Waf.r_ID rule)]
    else rule_deny rule
  | Waf.ActionDeny => rule_deny rule
  | Waf.ActionBlock => deny (waf_reason rule) [mk_event EventInstantBlock (waf_reason rule)]
  end.
Definition waf_says (exempt : bool) : option Decision := rule_says <$> waf_rule exempt.

Definition token_says (exempt : bool) : option Decision := if negb exempt && has_token then Some decisionPoWToken else None.

Definition intel_challenge_says (exempt : bool) : option Decision :=
  match sv_intel sv, ParseAddr (q_RemoteAddr req) with
  | Some _, Some a =>
    if pow_on sv dom && negb exempt then
      match feed_says a Intel.FeedActionChallenge with
      | Some feed => Some (challenge (Z.min ((effBits sv dom).1 + 4) (effBits sv dom).2) (lit "reputation:" ++ feed) [])
      | None => match geo_says a (lit "challenge") with Some reason => Some (challenge (effBits sv dom).1 reason []) | None => None end
      end
    else None
  | _, _ => None
  end.

Definition anomaly_score : option ScoreResult :=
  match (if an_Enabled (wf_Anomaly (dc_WAF dom)) then sv_models sv else None) with
  | Some models =>
    match models (an_Model (wf_Anomaly (dc_WAF dom))) with
    | Some score_of => Some (score_of (q_Host req) (q_Method req) (DecodePath (RequestPath (q_URI req))) (DecodeQuery (RequestQuery (q_URI req))) (q_UserAgent req))
    | None => None
    end
  | None => None
  end.
Definition anomaly_says (exempt : bool) : option Decision :=
  let a := wf_Anomaly (dc_WAF dom) in
  match anomaly_score with
  | Some result =>
    let score := sr_Score result in
    let events := [mk_event EventAnomaly (score_detail score)] in
    if negb (sr_Found result) || an_ObserveOnly a then None
    else if fge score (an_DenyAt a) then Some (deny (lit "anomaly:deny") events)
    else if fge score (an_ChallengeAt a) && pow_on sv dom && negb exempt
    then Some (challenge (scaleDifficulty (effBits sv dom).1 (effBits sv dom).2 score (an_ChallengeAt a)) (lit "anomaly:challenge") events)
    else None
  | None => None
  end.

Definition on_suspicion : bool :=
  bool_decide (pw_Mode (dc_PoW dom) = lit "suspicion") && an_Enabled (wf_Anomaly (dc_WAF dom)) && negb (forceAlways sv).
Definition challenge_says (exempt : bool) : option Decision :=
  if pow_on sv dom && negb exempt && negb on_suspicion then Some (challenge (effBits sv dom).1 (verdict_reason token_state) []) else None.

(** Exemption before and after the crawler check. *)
Definition listed_exempt : bool := negb (bool_decide (MatchAllowlist req (dc_Allowlist dom) = [])) || header_match.
Definition request_exempt : bool := listed_exempt || bot_verified.

Definition policy (m : option Enforce.manager) : option Decision :=
  first_of [denylist_says; spoof_says; intel_deny_says; block_says m; honeypot_says; waf_says request_exempt; token_says request_exempt;
            intel_challenge_says request_exempt; anomaly_says request_exempt; challenge_says request_exempt].

(** ** Each stage gives its opinion *)

(** The opinion of an answer: a failure has none. *)
Definition opinion (o : outcome stage_error (option Decision)) : option Decision := match o with Ok d => d | Err _ => None end.

(** Stage [s] says [d] of every coherent environment of exemption [x] and
    mirror [m], and leaves a coherent one behind. *)
Definition gives (s : stageEnv -> outcome stage_error (option Decision) * stageEnv) (x : bool) (m : option Enforce.manager) (d : option Decision) (x' : bool) : Prop :=
  forall e, coherent e -> is_exempt e = x -> en_enforcer e = m ->
    opinion (s e).1 = d /\ coherent (s e).2 /\ is_exempt (s e).2 = x' /\ (d = None -> en_enforcer (s e).2 = m).

Lemma gives_keeps s x m d : (forall e, coherent e -> is_exempt e = x -> en_enforcer e = m -> opinion (s e).1 = d /\ keeps_env e (s e).2) -> gives s x m d x.
Proof. intros Hs e He Hx Hm. destruct (Hs e He Hx Hm) as (Ho & [Hc Hx' Hm']). split_ands; [done | done | congruence | congruence]. Qed.

Inductive gives_all (m : option Enforce.manager) : list (stageEnv -> outcome stage_error (option Decision) * stageEnv) -> bool -> list (option Decision) -> Prop :=
| gives_nil x : gives_all m [] x []
| gives_cons s ss x d x' ds : gives s x m d x' -> gives_all m ss x' ds -> gives_all m (s :: ss) x (d :: ds).

Lemma run_all m ss x ds : gives_all m ss x ds ->
  forall e, coherent e -> is_exempt e = x -> en_enforcer e = m -> (run_stages ss e).1.1 = first_of ds.
Proof.
  induction 1 as [x | s ss x d x' ds Hs _ IH]; intros e He Hx Hm; [done |].
  destruct (Hs e He Hx Hm) as (Ho & Hc & Hx' & Hm'). cbn [run_stages first_of].
  destruct (s e) as [[[d' |] | err] e']; cbn in Ho, Hc, Hx', Hm'; subst d; cbn; [done | by auto |].
  specialize (IH e' Hc Hx' (Hm' eq_refl)). by destruct (run_stages ss e') as [[? ?] ?].
Qed.

Lemma denylist_gives x m : gives (denylistStage dom req) x m (denylist_says) x.
Proof.
  apply gives_keeps. intros e He _ _. unfold denylistStage, denylist_says.
  destruct (ParseAddr _); by (split; [| apply env_keeps_refl]).
Qed.

Lemma honeypot_gives x m : gives (honeypotStage dom req) x m honeypot_says x.
Proof. apply gives_keeps. intros e He _ _. by split; [| apply env_keeps_refl]. Qed.

Lemma header_gives x m : gives (headerPoWExemptionStage sv dom req) x m None x.
Proof.
  apply gives_keeps. intros e He _ _. split; [done |]. apply (powExempt_answer e He).
Qed.

(** A verified crawler becomes exempt; nothing else changes. *)
Lemma classify_answer bot status matches e : coherent e ->
  let verified := bool_decide (status = BotVerify.StatusConfirmed) && matches in
  (classifyBotIdentity bot status matches e).1 =
    (if verified then Verified else if bool_decide (status = BotVerify.StatusError) then BotError else Spoof) /\
  coherent (classifyBotIdentity bot status matches e).2 /\
  is_exempt (classifyBotIdentity bot status matches e).2 = is_exempt e || verified /\
  en_enforcer (classifyBotIdentity bot status matches e).2 = en_enforcer e.
Proof.
  intros He. unfold classifyBotIdentity. destruct (_ && matches) eqn:Ev; cbn [fst snd].
  2: { rewrite orb_false_r. by destruct (bool_decide (status = BotVerify.StatusError)). }
  split_ands; [done | | | by destruct (_ || _)].
  - destruct (_ || _); [| done]. destruct He as [Ho Ht Hh]. split; cbn; [done.. |].
    intros b Hb. by destruct (Hh b Hb) as [-> _].
  - rewrite orb_true_r. unfold is_exempt.
    match goal with |- context [if ?b then _ else _] => destruct b eqn:E1 end; cbn [set_exemption en_powExemption];
      [by rewrite bool_decide_eq_false_2 |]. apply orb_false_iff in E1 as [E1 _]. by rewrite E1.
Qed.

Lemma verified_bot_gives x m : gives (verifiedBotStage sv dom req) x m spoof_says (x || bot_verified).
Proof.
  intros e He Hx Hm. unfold verifiedBotStage, spoof_says, bot_verified, bot_claim.
  destruct (bot_match _ _) as [bot |]; [| by rewrite orb_false_r].
  destruct (sv_bots sv) as [verify |]; [| by rewrite orb_false_r].
  set (id := verify _ _). set (matches := BotVerify.MatchesDomains _ _).
  destruct (env_keeps_asked AskBot e He) as [Hc Hx' Hm'].
  destruct (classify_answer bot (BotVerify.id_status id) matches _ Hc) as (Ho & Hc' & Hx2 & Hm2).
  destruct (classifyBotIdentity _ _ _ _) as [o e']. cbn [fst snd] in Ho, Hc', Hx2, Hm2. rewrite Hx', Hx in Hx2. rewrite Hm', Hm in Hm2. subst o.
  unfold spoofDenied. destruct (_ && matches); cbn [negb andb]; [done |].
  destruct (bool_decide (BotVerify.id_status id = _)); cbn [negb andb]; [done |]. by destruct (negb _).
Qed.

Lemma geo_verdict_answer a action e : coherent e -> ParseAddr (q_RemoteAddr req) = Some a ->
  (geo_verdict sv dom a action e).1 = geo_says a action /\ keeps_env e (geo_verdict sv dom a action e).2.
Proof.
  intros He Ha. unfold geo_verdict, geo_says. destruct (ge_Enabled _); [| by split; [| apply env_keeps_refl]].
  destruct (originInfo_answer a e He Ha) as [Hi Hk]. destruct (originInfo sv a e) as [i e']. cbn in Hi, Hk. subst i.
  by destruct (geo_Action _ _ _).
Qed.

Lemma feed_verdict_answer a action e : coherent e ->
  (feed_verdict sv dom a action e).1 = feed_says a action /\ keeps_env e (feed_verdict sv dom a action e).2.
Proof.
  intros He. unfold feed_verdict, feed_says. destruct (dc_Reputation dom); [| by split; [| apply env_keeps_refl]].
  by split; [| apply env_keeps_asked].
Qed.

Lemma intel_deny_gives x m : gives (intelDenyStage sv dom req) x m intel_deny_says x.
Proof.
  apply gives_keeps. intros e He _ _. unfold intelDenyStage, intel_deny_says.
  destruct (sv_intel sv); [| by split; [| apply env_keeps_refl]]. destruct (ParseAddr _) as [a |] eqn:Ea; [| by split; [| apply env_keeps_refl]].
  destruct (feed_verdict_answer a Intel.FeedActionDeny e He) as [Hf Hk1]. destruct (feed_verdict _ _ _ _ _) as [f e1]. cbn in Hf, Hk1. subst f.
  destruct (feed_says _ _); [done |].
  destruct (geo_verdict_answer a (lit "deny") e1 (ke_ok _ _ Hk1) Ea) as [Hg Hk2]. destruct (geo_verdict _ _ _ _ _) as [g e2]. cbn in Hg, Hk2. subst g.
  pose proof (env_keeps_trans _ _ _ Hk1 Hk2). by destruct (geo_says _ _).
Qed.

Lemma block_gives x m : gives (behaviourBlockStage sv req) x m (block_says m) x.
Proof.
  intros e He Hx Hm. unfold behaviourBlockStage, block_says, block_known. subst m. cbn [en_enforcer asked].
  destruct (env_keeps_asked AskMirror e He) as [Hc1 Hx1 Hm1].
  destruct (enforcer_Lookup _ _ _) as [why |]; cbn [fmap option_fmap option_map]; [by split_ands; try exact (eq_trans Hx1 Hx) |].
  destruct (_ && _); [by split_ands; try exact (eq_trans Hx1 Hx) |].
  destruct (env_keeps_asked (AskStore (BlockKey (q_RemoteAddr req))) _ Hc1) as [Hc2 Hx2 Hm2]. rewrite Hx1, Hx in Hx2.
  destruct (sv_store sv _) as [[value |] | err]; cbn [opinion fst snd]; [| by split_ands | by split_ands].
  split_ands; [done | | done | done]. destruct Hc2. by split.
Qed.

Lemma waf_gives x m : gives (wafRulesStage sv dom req) x m (waf_says x) x.
Proof.
  apply gives_keeps. intros e He Hx _. unfold wafRulesStage, waf_says, waf_rule.
  destruct (if ru_Enabled _ then _ else _) as [cache |]; [| by split; [| apply env_keeps_refl]].
  destruct (Waf.Get _ _) as [rs |]; [| by split; [| apply env_keeps_refl]].
  destruct (powExempt_answer e He) as [Hp Hk1]. rewrite Hx in Hp. destruct (powExempt _ _ _ _) as [ex e1]. cbn in Hp, Hk1. subst ex.
  destruct (Waf.MatchEnforcing _ _ _) as [rule |]; cbn [fmap option_fmap option_map]; [| done].
  unfold rule_says. destruct (Waf.r_Action rule); try done. destruct (pow_on sv dom); [| done].
  destruct (hasValidPoWToken_answer e1 (ke_ok _ _ Hk1)) as [Hv Hk2]. destruct (hasValidPoWToken _ _ _ _) as [v e2]. cbn in Hv, Hk2. subst v.
  pose proof (env_keeps_trans _ _ _ Hk1 Hk2). destruct has_token; [done |]. by destruct (effBits sv dom).
Qed.

Lemma token_gives x m : gives (powTokenStage sv dom req) x m (token_says x) x.
Proof.
  apply gives_keeps. intros e He Hx _. unfold powTokenStage, token_says.
  destruct (powExempt_answer e He) as [Hp Hk1]. rewrite Hx in Hp. destruct (powExempt _ _ _ _) as [ex e1]. cbn in Hp, Hk1. subst ex.
  destruct x; [done |]. destruct (hasValidPoWToken_answer e1 (ke_ok _ _ Hk1)) as [Hv Hk2]. destruct (hasValidPoWToken _ _ _ _) as [v e2].
  cbn in Hv, Hk2. subst v. pose proof (env_keeps_trans _ _ _ Hk1 Hk2). by destruct has_token.
Qed.

Lemma intel_challenge_gives x m : gives (intelChallengeStage sv dom req) x m (intel_challenge_says x) x.
Proof.
  apply gives_keeps. intros e He Hx _. unfold intelChallengeStage, intel_challenge_says.
  destruct (sv_intel sv); [| by split; [| apply env_keeps_refl]].
  destruct (pow_on sv dom); cbn [negb andb]; [| split; [by destruct (ParseAddr _) | by apply env_keeps_refl]].
  destruct (powExempt_answer e He) as [Hp Hk1]. rewrite Hx in Hp. destruct (powExempt _ _ _ _) as [ex e1]. cbn in Hp, Hk1. subst ex.
  destruct x; [by destruct (ParseAddr _) |]. destruct (ParseAddr _) as [a |] eqn:Ea; [| done]. cbn [negb].
  destruct (feed_verdict_answer a Intel.FeedActionChallenge e1 (ke_ok _ _ Hk1)) as [Hf Hk2].
  destruct (feed_verdict _ _ _ _ _) as [f e2]. cbn in Hf, Hk2. subst f. pose proof (env_keeps_trans _ _ _ Hk1 Hk2) as Hk.
  destruct (effBits sv dom) as [base maxDiff]. destruct (feed_says _ _); [done |].
  destruct (geo_verdict_answer a (lit "challenge") e2 (ke_ok _ _ Hk2) Ea) as [Hg Hk3]. destruct (geo_verdict _ _ _ _ _) as [g e3].
  cbn in Hg, Hk3. subst g. pose proof (env_keeps_trans _ _ _ Hk Hk3). by destruct (geo_says _ _).
Qed.

Lemma anomaly_gives x m : gives (anomalyStage score_detail sv dom req) x m (anomaly_says x) x.
Proof.
  apply gives_keeps. intros e He Hx _. unfold anomalyStage, anomaly_says, anomaly_score.
  destruct (if an_Enabled _ then _ else _) as [models |]; [| by split; [| apply env_keeps_refl]].
  destruct (models _) as [score_of |]; [| by split; [| apply env_keeps_refl]].
  pose proof (env_keeps_asked AskModel e He) as Hk0. destruct (_ || _); [done |]. destruct (fge _ (an_DenyAt _)); [done |].
  destruct (fge _ (an_ChallengeAt _)); cbn [andb]; [| done]. destruct (pow_on sv dom); cbn [andb]; [| done].
  destruct (powExempt_answer _ (ke_ok _ _ Hk0)) as [Hp Hk1]. rewrite (ke_exempt _ _ Hk0), Hx in Hp.
  destruct (powExempt _ _ _ _) as [ex e1]. cbn in Hp, Hk1. subst ex. pose proof (env_keeps_trans _ _ _ Hk0 Hk1).
  destruct x; [done |]. by destruct (effBits sv dom).
Qed.

Lemma challenge_gives x m : gives (powChallengeStage sv dom req) x m (challenge_says x) x.
Proof.
  apply gives_keeps. intros e He Hx _. unfold powChallengeStage, challenge_says.
  destruct (pow_on sv dom); cbn [negb andb]; [| by split; [| apply env_keeps_refl]].
  destruct (powExempt_answer e He) as [Hp Hk1]. rewrite Hx in Hp. destruct (powExempt _ _ _ _) as [ex e1]. cbn in Hp, Hk1. subst ex.
  destruct x; [done |]. cbn [negb andb]. fold on_suspicion. destruct on_suspicion; [done |]. cbn [negb].
  destruct (powToken_answer e1 (ke_ok _ _ Hk1)) as [Hv Hk2]. destruct (powToken _ _ _ _) as [v e2]. cbn in Hv, Hk2. subst v.
  pose proof (env_keeps_trans _ _ _ Hk1 Hk2). done.
Qed.

(** ** The pipeline decides the policy *)
Lemma run_policy m : (run_stages (stages score_detail sv dom req) (newEnv m)).1.1 = policy m.
Proof.
  set (e := set_exemption (MatchAllowlist req (dc_Allowlist dom)) (newEnv m)).
  change (run_stages (stages score_detail sv dom req) (newEnv m)) with (run_stages (tail (stages score_detail sv dom req)) e).
  rewrite (run_all m _ listed_exempt (None :: [denylist_says; spoof_says; intel_deny_says; block_says m; honeypot_says; waf_says request_exempt;
    token_says request_exempt; intel_challenge_says request_exempt; anomaly_says request_exempt; challenge_says request_exempt])); try done.
  2: by split; [| left |].
  eapply gives_cons; [apply header_gives |]. eapply gives_cons; [apply denylist_gives |]. eapply gives_cons; [apply verified_bot_gives |].
  eapply gives_cons; [apply intel_deny_gives |]. eapply gives_cons; [apply block_gives |]. eapply gives_cons; [apply honeypot_gives |].
  eapply gives_cons; [apply waf_gives |]. eapply gives_cons; [apply token_gives |]. eapply gives_cons; [apply intel_challenge_gives |].
  eapply gives_cons; [apply anomaly_gives |]. eapply gives_cons; [apply challenge_gives |]. constructor.
Qed.

(** ** Nothing is asked twice *)
Definition memoized (l : lookup) : bool := match l with AskOrigin | AskToken | AskHeaders => true | _ => false end.

(** The lookups made so far: each once, the memoized ones remembered, the
    others among [F]. *)
Record asks (F : list lookup) (e : stageEnv) : Prop := {
  as_once : NoDup (en_calls e);
  as_origin : AskOrigin ∈ en_calls e -> en_origin e <> None;
  as_token : AskToken ∈ en_calls e -> en_token e <> tokenUnchecked;
  as_header : AskHeaders ∈ en_calls e -> en_headerExempt e <> None;
  as_others : forall l, l ∈ en_calls e -> memoized l = false -> l ∈ F
}.

Lemma asks_mono F F' e : F ⊆ F' -> asks F e -> asks F' e.
Proof. intros Hs [? ? ? ? Ho]. split; auto. Qed.

Lemma asks_asked F l e : memoized l = false -> l ∉ F -> asks F e -> asks (l :: F) (asked l e).
Proof.
  intros Hm Hl [Hn Ho Ht Hh Hf].
  assert (Hin : forall k, memoized k = true -> k ∈ en_calls (asked l e) -> k ∈ en_calls e).
  { intros k Hk. cbn. rewrite elem_of_app, list_elem_of_singleton. intros [| ->]; [done | congruence]. }
  split.
  - cbn. apply NoDup_app. split_ands; [done | | apply NoDup_singleton]. intros x Hx ->%list_elem_of_singleton. by apply Hl, Hf.
  - intros Hi. by apply Ho, Hin.
  - intros Hi. by apply Ht, Hin.
  - intros Hi. by apply Hh, Hin.
  - cbn. intros k. rewrite elem_of_app, list_elem_of_singleton, elem_of_cons. intros [| ->]; auto.
Qed.

(** A memoized lookup of an empty memo that fills the memo. *)
Lemma asks_memo F l e e' : memoized l = true -> l ∉ en_calls e -> en_calls e' = en_calls (asked l e) ->
  (en_origin e <> None -> en_origin e' <> None) -> (en_token e <> tokenUnchecked -> en_token e' <> tokenUnchecked) ->
  (en_headerExempt e <> None -> en_headerExempt e' <> None) ->
  match l with AskOrigin => en_origin e' <> None | AskToken => en_token e' <> tokenUnchecked | _ => en_headerExempt e' <> None end ->
  asks F e -> asks F e'.
Proof.
  intros Hm Hl Hc Ko Kt Kh Hfill [Hn Ho Ht Hh Hf].
  assert (Hin : forall k, k ∈ en_calls e' <-> k ∈ en_calls e \/ k = l) by (intros k; rewrite Hc; cbn; by rewrite elem_of_app, list_elem_of_singleton).
  split; rewrite ?Hin.
  - rewrite Hc. cbn. apply NoDup_app. split_ands; [done | | apply NoDup_singleton]. by intros x Hx ->%list_elem_of_singleton.
  - intros [| <-]; auto.
  - intros [| <-]; auto.
  - intros [| <-]; auto.
  - intros k. rewrite Hin. intros [| ->]; [auto | congruence].
Qed.

(** Filling a memo without asking. *)
Lemma asks_fill F e e' : en_calls e' = en_calls e -> (en_origin e <> None -> en_origin e' <> None) ->
  (en_token e <> tokenUnchecked -> en_token e' <> tokenUnchecked) -> (en_headerExempt e <> None -> en_headerExempt e' <> None) -> asks F e -> asks F e'.
Proof. intros Hc Ko Kt Kh [Hn Ho Ht Hh Hf]. split; rewrite ?Hc; auto. Qed.

Lemma powExempt_asks F e : asks F e -> asks F (powExempt sv dom req e).2.
Proof.
  intros He. unfold powExempt, headerPoWExempt. destruct (bool_decide _); [| done]. destruct (en_headerExempt e) as [b |] eqn:Eh; [done |].
  assert (Hn : AskHeaders ∉ en_calls e) by (intros Hi; exact (as_header _ _ He Hi Eh)).
  destruct (_ || _ || _); [by apply (asks_fill F e) |]. destruct (HeaderExempt.hx_Matched _); by apply (asks_memo F AskHeaders e).
Qed.

Lemma powToken_asks F e : asks F e -> asks F (powToken sv dom req e).2.
Proof.
  intros He. unfold powToken. destruct (decide (en_token e = tokenUnchecked)) as [Hu | Hu].
  2: by rewrite bool_decide_eq_false_2.
  rewrite bool_decide_eq_true_2 by done. cbn [negb].
  assert (Hn : AskToken ∉ en_calls e) by (intros Hi; exact (as_token _ _ He Hi Hu)).
  destruct (sv_pow sv); [| by apply (asks_fill F e)]. destruct (negb _); [by apply (asks_fill F e) |].
  destruct (cookieValue _ _); [| by apply (asks_fill F e)].
  assert (Hc : forall o, classifyToken o <> tokenUnchecked) by (by intros [[] |]).
  apply (asks_memo F AskToken e); try done; apply Hc.
Qed.

Lemma hasValidPoWToken_asks F e : asks F e -> asks F (hasValidPoWToken sv dom req e).2.
Proof. intros He. unfold hasValidPoWToken. pose proof (powToken_asks F e He). by destruct (powToken _ _ _ _). Qed.

Lemma geo_verdict_asks F a action e : asks F e -> asks F (geo_verdict sv dom a action e).2.
Proof.
  intros He. unfold geo_verdict. destruct (ge_Enabled _); [| done].
  assert (Ho : asks F (originInfo sv a e).2).
  { unfold originInfo. destruct (en_origin e) as [i |] eqn:Ei; [done |].
    assert (Hn : AskOrigin ∉ en_calls e) by (intros Hi; exact (as_origin _ _ He Hi Ei)). by apply (asks_memo F AskOrigin e). }
  destruct (originInfo sv a e) as [i e']. by destruct (geo_Action _ _ _).
Qed.

Lemma feed_verdict_asks F a action e : AskFeed action ∉ F -> asks F e -> asks (AskFeed action :: F) (feed_verdict sv dom a action e).2.
Proof.
  intros Hn He. unfold feed_verdict. destruct (dc_Reputation dom); [by apply asks_asked |]. eapply asks_mono; [| exact He]. intros l. by right.
Qed.

(** The lookups a stage may add. *)
Definition footprint (s : stageEnv -> outcome stage_error (option Decision) * stageEnv) (Fs : list lookup) : Prop :=
  forall F e, (forall l, l ∈ Fs -> l ∉ F) -> asks F e -> asks (Fs ++ F) (s e).2.

Lemma run_footprints ss Fss : Forall2 footprint ss Fss -> NoDup (concat Fss) ->
  forall F e, (forall l, l ∈ concat Fss -> l ∉ F) -> asks F e -> NoDup (en_calls (run_stages ss e).2).
Proof.
  induction 1 as [| s Fs ss Fss Hs _ IH]; intros Hnd F e Hd He; [apply (as_once _ _ He) |].
  cbn [concat] in Hnd, Hd. apply NoDup_app in Hnd as (_ & Hsep & Hnd).
  assert (He' : asks (Fs ++ F) (s e).2) by (apply Hs; [| done]; intros l Hl; apply Hd; rewrite elem_of_app; by left).
  cbn [run_stages]. destruct (s e) as [[[d |] | err] e']; cbn in He' |- *; [apply (as_once _ _ He') |..].
  - eapply (IH Hnd); [| exact He']. intros l Hl. rewrite elem_of_app. intros [Hin |]; [by apply (Hsep l Hin) |].
    eapply Hd; [rewrite elem_of_app; by right | done].
  - assert (Hr : NoDup (en_calls (run_stages ss e').2)).
    { eapply (IH Hnd); [| exact He']. intros l Hl. rewrite elem_of_app. intros [Hin |]; [by apply (Hsep l Hin) |].
      eapply Hd; [rewrite elem_of_app; by right | done]. }
    by destruct (run_stages ss e') as [[? ?] ?].
Qed.

Ltac ask_step := first
  [ assumption
  | match goal with
    | |- context [powExempt ?a ?b ?c ?e] => let Hp := fresh "Hp" in
        match goal with He : asks ?F e |- _ => pose proof (powExempt_asks F e He) as Hp; destruct (powExempt a b c e); cbn [fst snd] in Hp end
    | |- context [hasValidPoWToken ?a ?b ?c ?e] => let Hp := fresh "Hp" in
        match goal with He : asks ?F e |- _ => pose proof (hasValidPoWToken_asks F e He) as Hp; destruct (hasValidPoWToken a b c e); cbn [fst snd] in Hp end
    | |- context [powToken ?a ?b ?c ?e] => let Hp := fresh "Hp" in
        match goal with He : asks ?F e |- _ => pose proof (powToken_asks F e He) as Hp; destruct (powToken a b c e); cbn [fst snd] in Hp end
    | |- context [geo_verdict ?a ?b ?c ?d ?e] => let Hp := fresh "Hp" in
        match goal with He : asks ?F e |- _ => pose proof (geo_verdict_asks F c d e He) as Hp; destruct (geo_verdict a b c d e); cbn [fst snd] in Hp end
    end
  | case_match ].

Lemma stage_footprints : Forall2 footprint (stages score_detail sv dom req)
  [[]; []; []; [AskBot]; [AskFeed Intel.FeedActionDeny]; [AskMirror; AskStore (BlockKey (q_RemoteAddr req))]; []; []; []; [AskFeed Intel.FeedActionChallenge]; [AskModel]; []].
Proof.
  assert (Hskip : forall F Fs e, asks F e -> asks (Fs ++ F) e) by (intros F Fs e; apply asks_mono; set_solver).
  repeat first [apply Forall2_nil_2 | apply Forall2_cons_2]; intros F e Hd He; cbn [app].
  - by apply (asks_fill F e).
  - by apply powExempt_asks.
  - unfold denylistStage. by destruct (ParseAddr _).
  - unfold verifiedBotStage. destruct (bot_match _ _); [| by apply (Hskip _ [_])]. destruct (sv_bots sv); [| by apply (Hskip _ [_])].
    assert (Ha : asks (AskBot :: F) (asked AskBot e)) by (apply asks_asked; [done | apply Hd; left | done]).
    unfold classifyBotIdentity. repeat (case_match; try done); simplify_eq; by apply (asks_fill _ _ _) with (5 := Ha).
  - unfold intelDenyStage. destruct (sv_intel sv); [| by apply (Hskip _ [_])]. destruct (ParseAddr _) as [a |]; [| by apply (Hskip _ [_])].
    assert (Ha := feed_verdict_asks F a Intel.FeedActionDeny e ltac:(apply Hd; left) He).
    destruct (feed_verdict _ _ _ _ _) as [f e1]. cbn [snd] in Ha. repeat ask_step.
  - unfold behaviourBlockStage.
    assert (Ha : asks (AskMirror :: F) (asked AskMirror e)) by (apply asks_asked; [done | apply Hd; left | done]).
    assert (Hb : asks (AskStore (BlockKey (q_RemoteAddr req)) :: AskMirror :: F) (asked (AskStore (BlockKey (q_RemoteAddr req))) (asked AskMirror e))).
    { apply asks_asked; [done | | done]. apply not_elem_of_cons. split; [done |]. apply Hd. right. left. }
    assert (Hm : forall e', asks (AskMirror :: F) e' -> asks (AskMirror :: AskStore (BlockKey (q_RemoteAddr req)) :: F) e') by (intros e'; apply asks_mono; set_solver).
    assert (Hm2 : forall e', asks (AskStore (BlockKey (q_RemoteAddr req)) :: AskMirror :: F) e' -> asks (AskMirror :: AskStore (BlockKey (q_RemoteAddr req)) :: F) e') by (intros e'; apply asks_mono; set_solver).
    cbn [en_enforcer asked] in *. destruct (enforcer_Lookup _ _ _); [by apply Hm |]. destruct (_ && _); [by apply Hm |].
    destruct (sv_store sv _) as [[v |] | err]; [| by apply Hm2 | by apply Hm2]. apply Hm2. by apply (asks_fill _ _ _) with (5 := Hb).
  - done.
  - unfold wafRulesStage. repeat ask_step.
  - unfold powTokenStage. repeat ask_step.
  - unfold intelChallengeStage. destruct (sv_intel sv); [| by apply (Hskip _ [_])]. destruct (negb _); [by apply (Hskip _ [_]) |].
    pose proof (powExempt_asks F e He) as Hp. destruct (powExempt _ _ _ e) as [[] e0]; cbn [snd] in Hp; [by apply (Hskip _ [_]) |].
    destruct (ParseAddr _) as [a |]; [| by apply (Hskip _ [_])]. destruct (effBits sv dom).
    assert (Ha := feed_verdict_asks F a Intel.FeedActionChallenge e0 ltac:(apply Hd; left) Hp).
    destruct (feed_verdict _ _ _ _ _) as [f e1]. cbn [snd] in Ha. clear Hp. repeat ask_step.
  - unfold anomalyStage. destruct (if an_Enabled _ then _ else _); [| by apply (Hskip _ [_])]. destruct (_ _) as [score_of |]; [| by apply (Hskip _ [_])].
    assert (Ha : asks (AskModel :: F) (asked AskModel e)) by (apply asks_asked; [done | apply Hd; left | done]). clear He. repeat ask_step.
  - unfold powChallengeStage. repeat ask_step.
Qed.

Lemma asks_once m : NoDup (en_calls (run_stages (stages score_detail sv dom req) (newEnv m)).2).
Proof.
  eapply (run_footprints _ _ stage_footprints) with (F := []).
  - cbn [concat app]. repeat (apply NoDup_cons; split; [rewrite ?not_elem_of_cons; split_ands; (discriminate || apply not_elem_of_nil) |]). apply NoDup_nil_2.
  - intros l _. apply not_elem_of_nil.
  - split; cbn; [constructor | by intros ?%not_elem_of_nil ..|]. by intros l ?%not_elem_of_nil.
Qed.
End Policy.
