(* ===== verification/Engine.v ===== *)
(** * The engine (core/engine.go)

    Evaluation of a request over a config snapshot, the recording of its
    events, the load-shedding gate, the lifting of blocks and the admin views.
    The engine's store reads come as answers ([store] of [Evaluate]); its
    store writes are programs of [StoreClient]. *)

From S2P Require Export Escalation Policy.
From S2P Require Export Stateless.
From S2P Require Memory.

Open Scope Z_scope.

(** ** State *)
Record engineSnapshot `{Waf.Regexp, Intel.GeoDB} := mk_snap {
  sn_cfg : Config;
  sn_ScoreboardFactor : float;          (* attack_mode.effects.scoreboard_factor *)
  sn_rules : Waf.RuleCache;
  sn_models : gostring -> option scorer;
  sn_intel : option Intel.Provider;
  sn_headers : gmap gostring (list HeaderExempt.predicate)
}.

(** [en_snapshot] is nil once closed; [en_pow] is nil without a signing key.
    [en_verifyBot] and [en_cachedBot] are the crawler verifier. *)
Record Engine `{Waf.Regexp, Intel.GeoDB} := mk_engine {
  eg_snap : option engineSnapshot;
  eg_pow : option (gostring -> gostring -> gostring -> gostring -> Z -> Z -> option token_fault);
  eg_verifyBot : gostring -> BotVerify.Options -> BotVerify.Identity;
  eg_cachedBot : gostring -> option BotVerify.Identity;
  eg_board : Scoreboard;
  eg_enforcer : option Enforce.manager;
  eg_attack : AttackMode.State;
  eg_recent : recentRing
}.

Arguments mk_snap {_ _}.
Arguments mk_engine {_ _}.
#[local] Arguments mk_services {_ _}.

Definition EventPoWFail : gostring := lit "pow_fail".
Definition EventTamper : gostring := lit "tamper".
Definition EventChallengeFarm : gostring := lit "challenge_farm".

Section Engine.
Context `{Unicode, Waf.Regexp, Intel.GeoDB, FloatToInt}.
Variable score_detail : float -> gostring.

Definition set_snap (s : option engineSnapshot) (e : Engine) : Engine := mk_engine s (eg_pow e) (eg_verifyBot e) (eg_cachedBot e) (eg_board e) (eg_enforcer e) (eg_attack e) (eg_recent e).
Definition set_mirror (m : option Enforce.manager) (e : Engine) : Engine := mk_engine (eg_snap e) (eg_pow e) (eg_verifyBot e) (eg_cachedBot e) (eg_board e) m (eg_attack e) (eg_recent e).
Definition set_recent (r : recentRing) (e : Engine) : Engine := mk_engine (eg_snap e) (eg_pow e) (eg_verifyBot e) (eg_cachedBot e) (eg_board e) (eg_enforcer e) (eg_attack e) r.

Definition SetAttackDetector (s : AttackMode.State) (e : Engine) : Engine :=
  mk_engine (eg_snap e) (eg_pow e) (eg_verifyBot e) (eg_cachedBot e) (eg_board e) (eg_enforcer e) s (eg_recent e).
Definition SetEnforcer (m : Enforce.manager) (e : Engine) : Engine := set_mirror (Some m) e.

(** What the stages of [Evaluate] consult; [store] answers its reads. *)
Definition services (store : gostring -> result (option gostring)) (now : Z) (snap : engineSnapshot) (e : Engine) : Services :=
  mk_services store (eg_pow e) (Some (sn_rules snap)) (Some (sn_models snap)) (sn_intel snap) (Some (sn_headers snap))
    (Some (eg_verifyBot e)) (eg_cachedBot e) (Some (eg_attack e)) now.

(** [ShedDecision]'s: no store, no models, no verifier. *)
Definition shed_services (now : Z) (snap : engineSnapshot) (e : Engine) : Services :=
  mk_services (fun _ => Err (EBackend 0)) (eg_pow e) (Some (sn_rules snap)) None (sn_intel snap) (Some (sn_headers snap))
    None (eg_cachedBot e) (Some (eg_attack e)) now.

(** ** Events *)
Definition scoreboardFactor (attack : AttackMode.State) (snap : engineSnapshot) : float :=
  if negb (AttackMode.st_Level attack =? AttackMode.Attack) then f64 1
  else let f := sn_ScoreboardFactor snap in if fgt f (f64 0) && flt f (f64 1) then f else f64 1.

Definition event_limit (count : Z) (factor : float) : Z :=
  if fgt factor (f64 0) && flt factor (f64 1) then Z.max 1 (int_of_float (fmul (f64 count) factor)) else count.

(** Clock and owner-token draw of one event. *)
Definition event_draw : Type := Z * Z.

(** The scoring of one event: whether a block counts as placed, and the error. *)
Definition record_event (s : Scoreboard) (ip : gostring) (ib : IPBehaviourConfig) (factor : float) (ev : Event) (d : event_draw) : prog (bool * result unit) :=
  if bool_decide (ev_Type ev = EventInstantBlock)
  then bind (Block s ip (ev_Detail ev) (ib_BlockTTL ib) (ib_MaxBlockTTL ib) d.2) (fun r => Ret (is_ok r, r))
  else match ib_Thresholds ib !! ev_Type ev with
       | Some rate =>
         if 0 <? rt_Count rate
         then RecordEvent s d.1 ip (ev_Type ev) (event_limit (rt_Count rate) factor) (rt_Per rate) (ib_BlockTTL ib) (ib_MaxBlockTTL ib) d.2
         else Ret (false, Ok tt)
       | None => Ret (false, Ok tt)
       end.

(** The event types counted as blocks, in order; an error is logged. *)
Fixpoint record_each (s : Scoreboard) (ip : gostring) (ib : IPBehaviourConfig) (factor : float) (events : list Event) (draws : nat -> event_draw) : prog (list gostring) :=
  match events with
  | [] => Ret []
  | ev :: rest =>
    bind (record_event s ip ib factor ev (draws 0%nat)) (fun r =>
    bind (record_each s ip ib factor rest (fun i => draws (S i))) (fun placed =>
    Ret (if r.1 then ev_Type ev :: placed else placed)))
  end.

Definition recordEvents (s : Scoreboard) (ip : gostring) (dcfg : DomainConfig) (events : list Event) (factor : float) (draws : nat -> event_draw) : prog (list gostring) :=
  let ib := wf_IPBehaviour (dc_WAF dcfg) in
  if is_nil events || negb (ib_Enabled ib) then Ret [] else record_each s ip ib factor events draws.

(** ** Evaluation *)
Definition action_name (a : Action) : gostring :=
  match a with
  | Stateless.ActionAllow => lit "allow"
  | Stateless.ActionChallenge => lit "challenge"
  | Stateless.ActionDeny => lit "deny"
  | ActionRefuse => lit "refuse"
  end.

Definition default_allow : Decision := decide_as Stateless.ActionAllow (lit "default") [].
Definition engine_closed : Decision := decide_as Stateless.ActionAllow (lit "engine:closed") [].

(** A challenge the client cannot complete is a refusal. *)
Definition refuse_unchallengeable (dcfg : DomainConfig) (req : RequestContext) (d : Decision) : Decision :=
  if bool_decide (d_Action d = Stateless.ActionChallenge) && q_Unchallengeable req && RefusesUnchallengeable (dc_PoW dcfg)
  then decide_as ActionRefuse (if bool_decide (reasonCategory (d_Reason d) = lit "pow") then reasonUnchallengeable else d_Reason d) []
  else d.

Definition recent_row (now : Z) (req : RequestContext) (d : Decision) : RecentDecision :=
  mk_recent now (q_Host req) (q_RemoteAddr req) (q_Method req) (q_URI req) (q_UserAgent req) (action_name (d_Action d)) (d_Reason d)
    (d_PoWExemption d) 0 0 [] 0 0 0.

Record evaluation := mk_eval { ou_decision : Decision; ou_engine : Engine; ou_errors : list stage_error; ou_calls : list Pipeline.lookup }.

(** The run of [Evaluate], and the program that records its events. *)
Definition Evaluate (store : gostring -> result (option gostring)) (now : Z) (draws : nat -> event_draw) (req : RequestContext) (e : Engine)
  : evaluation * prog (list gostring) :=
  match eg_snap e with
  | None => (mk_eval engine_closed e [] [], Ret [])
  | Some snap =>
    let dcfg := scopeForRequest (sn_cfg snap) req in
    let '(sd, errs, env) := run_stages (stages score_detail (services store now snap e) dcfg req) (newEnv (eg_enforcer e)) in
    let recorded := match sd with Some sd => recordEvents (eg_board e) (q_RemoteAddr req) dcfg (d_Events sd) (scoreboardFactor (eg_attack e) snap) draws | None => Ret [] end in
    let d := refuse_unchallengeable dcfg req (default default_allow sd) in
    let d := with_exemption (en_powExemption env) d in
    let e := set_mirror (en_enforcer env) e in
    let e := if bool_decide (d_Action d = Stateless.ActionAllow) then e else set_recent (add (recent_row now req d) now (eg_recent e)) e in
    (mk_eval d e errs (en_calls env), recorded)
  end.

Definition ReportEvent (host ip evtype detail : gostring) (draws : nat -> event_draw) (e : Engine) : prog (list gostring) :=
  match eg_snap e with
  | None => Ret []
  | Some snap => recordEvents (eg_board e) ip (rd_cfg (DomainFor (sn_cfg snap) host)) [mk_event evtype detail] (scoreboardFactor (eg_attack e) snap) draws
  end.

Definition OriginASN (ip : gostring) (e : Engine) : Z :=
  match ParseAddr ip, eg_snap e with
  | Some a, Some snap => Intel.i_ASN (Intel.Lookup (sn_intel snap) a)
  | _, _ => 0
  end.

(** The scorer's answer for a hypothetical request; [None] is level "missing". *)
Definition ScoreRequest (host method uri ua : gostring) (e : Engine) : option ScoreResult :=
  match eg_snap e with
  | None => None
  | Some snap =>
    let a := wf_Anomaly (dc_WAF (ConfigFor (sn_cfg snap) host uri)) in
    if negb (an_Enabled a) then None
    else match sn_models snap (an_Model a) with
         | None => None
         | Some score_of => Some (score_of host method (DecodePath (RequestPath uri)) (DecodeQuery (RequestQuery uri)) ua)
         end
  end.

(** ** Load shedding *)
Inductive ShedVerdict := ShedPass | ShedDeny | ShedReject.

Definition shed_reject : ShedVerdict * gostring := (ShedReject, lit "admission:max_inflight").

(** The stage's decision; the gate ignores its error. *)
Definition shed_stage (r : outcome stage_error (option Decision) * stageEnv) : option Decision * stageEnv :=
  (match r.1 with Ok d => d | Err _ => None end, r.2).

(** The bot claim: an early verdict, or the environment to go on with. *)
Definition shed_bot (dcfg : DomainConfig) (req : RequestContext) (cached : gostring -> option BotVerify.Identity) (env : stageEnv) : (ShedVerdict * gostring) + stageEnv :=
  match bot_match (dc_VerifiedBots dcfg) (LowerUA req) with
  | None => inr env
  | Some bot =>
    match cached (q_RemoteAddr req) with
    | None => inl shed_reject
    | Some identity =>
      let '(outcome, env) := classifyBotIdentity bot (BotVerify.id_status identity) (BotVerify.MatchesDomains identity (b_domainsLower bot)) env in
      match outcome with
      | BotError => inl shed_reject
      | Spoof => if bool_decide (vb_SpoofAction (dc_VerifiedBots dcfg) = lit "continue") then inr env else inl (ShedDeny, lit "bot_spoof:" ++ b_Name bot)
      | Verified => inr env
      end
    end
  end.

(** The retained local stages. *)
Definition shed_local (sv : Services) (dcfg : DomainConfig) (req : RequestContext) (env : stageEnv) : ShedVerdict * gostring :=
  let '(d, env) := shed_stage (intelDenyStage sv dcfg req env) in
  match d with Some d => (ShedDeny, d_Reason d) | None =>
  let '(d, env) := shed_stage (honeypotStage dcfg req env) in
  match d with Some d => (ShedDeny, d_Reason d) | None =>
  let '(d, env) := shed_stage (wafRulesStage sv dcfg req env) in
  match d with
  | Some d =>
    match d_Action d with
    | Stateless.ActionDeny => (ShedDeny, d_Reason d)
    | Stateless.ActionAllow => (ShedPass, d_Reason d)
    | _ => shed_reject
    end
  | None => if (hasValidPoWToken sv dcfg req env).1 then (ShedPass, lit "pow:token") else shed_reject
  end end end.

Definition ShedDecisionWithReason (now : Z) (req : RequestContext) (e : Engine) : ShedVerdict * gostring :=
  match eg_snap e with
  | None => shed_reject
  | Some snap =>
    let dcfg := scopeForRequest (sn_cfg snap) req in
    let sv := shed_services now snap e in
    let env := set_exemption (MatchAllowlist req (dc_Allowlist dcfg)) (newEnv (eg_enforcer e)) in
    match (if bool_decide (is_Some (ParseAddr (q_RemoteAddr req))) then CheckDenylist req (dc_Denylist dcfg) else None) with
    | Some d => (ShedDeny, d_Reason d)
    | None =>
      match enforcer_Lookup sv (eg_enforcer e) (q_RemoteAddr req) with
      | Some reason => (ShedDeny, lit "behaviour_block:" ++ reason)
      | None =>
        if bool_decide (is_Some (eg_enforcer e)) && enforcer_ReadThrough (eg_enforcer e) then shed_reject
        else match shed_bot dcfg req (eg_cachedBot e) env with
             | inl v => v
             | inr env => shed_local sv dcfg req env
             end
      end
    end
  end.

Definition ShedDecision (now : Z) (req : RequestContext) (e : Engine) : ShedVerdict := (ShedDecisionWithReason now req e).1.
End Engine.
