(* ===== verification/Verdicts.v ===== *)
(** * What a request gets (core/engine.go, core/pipeline.go)

    The properties of the engine's decisions: the policy they follow, what no
    token or exemption can lift, who is challenged and how hard, the failing
    store, and the load-shedding gate. *)

From S2P Require Export Engine.

Open Scope Z_scope.

Section Verdicts.
Context `{Unicode, Waf.Regexp, Intel.GeoDB, FloatToInt}.
Variable score_detail : float -> gostring.

(** The scope, the services and the opinion of a request at an engine. *)
Section Request.
Variables (store : gostring -> result (option gostring)) (now : Z) (req : RequestContext) (e : Engine) (snap : engineSnapshot).

Definition scope : DomainConfig := scopeForRequest (sn_cfg snap) req.
Definition svc : Services := services store now snap e.
Definition opinion_of : option Decision := policy score_detail svc scope req (eg_enforcer e).
Definition exempted : bool := request_exempt svc scope req.

Lemma Evaluate_policy draws : eg_snap e = Some snap ->
  exists x, ou_decision (Evaluate score_detail store now draws req e).1 =
    with_exemption x (refuse_unchallengeable scope req (default default_allow opinion_of)).
Proof.
  intros Hs. unfold Evaluate. rewrite Hs. fold scope. fold svc.
  pose proof (run_policy score_detail svc scope req (eg_enforcer e)) as Hp. fold opinion_of in Hp.
  destruct (run_stages _ _) as [[sd errs] env]. cbn in Hp. subst sd. by exists (en_powExemption env).
Qed.

(** What the refusal of the unchallengeable keeps of a verdict. *)
Lemma refuse_action (dcfg : DomainConfig) d : d_Action d <> Stateless.ActionChallenge -> refuse_unchallengeable dcfg req d = d.
Proof. intros Ha. unfold refuse_unchallengeable. by rewrite bool_decide_eq_false_2. Qed.

Lemma Evaluate_settled draws d : eg_snap e = Some snap -> opinion_of = Some d -> d_Action d <> Stateless.ActionChallenge ->
  exists x, ou_decision (Evaluate score_detail store now draws req e).1 = with_exemption x d.
Proof. intros Hs Hd Ha. destruct (Evaluate_policy draws Hs) as [x Hx]. exists x. by rewrite Hx, Hd, refuse_action. Qed.

(** ** Which opinions deny, challenge and allow *)
Lemma CheckDenylist_denies l d : CheckDenylist req l = Some d -> d_Action d = Stateless.ActionDeny.
Proof. unfold CheckDenylist. intros Hd. repeat case_match; by simplify_eq. Qed.

Lemma CheckHoneypot_denies hp d : CheckHoneypot req hp = Some d -> d_Action d = Stateless.ActionDeny.
Proof. unfold CheckHoneypot. intros Hd. repeat case_match; by simplify_eq. Qed.

(** The opinions before the WAF rules. *)
Definition hard_checks : list (option Decision) :=
  [denylist_says scope req; spoof_says svc scope req; intel_deny_says svc scope req; block_says svc req (eg_enforcer e); honeypot_says scope req].

Lemma hard_checks_deny d : Some d ∈ hard_checks -> d_Action d = Stateless.ActionDeny.
Proof.
  unfold hard_checks. rewrite !elem_of_cons. unfold denylist_says, spoof_says, intel_deny_says, block_says, honeypot_says.
  intros [Hd | [Hd | [Hd | [Hd | [Hd | Hd]]]]]; [.. | by apply not_elem_of_nil in Hd].
  - destruct (ParseAddr _); [| done]. by eapply CheckDenylist_denies.
  - destruct (bot_claim _ _ _) as [[bot id] |]; [| done]. destruct (_ && _ && _); by simplify_eq.
  - destruct (sv_intel svc); [| done]. destruct (ParseAddr _) as [a |]; [| done]. destruct (feed_says _ _ _ _); [by simplify_eq |].
    destruct (geo_says _ _ _ _); by simplify_eq.
  - destruct (block_known _ _ _); cbn in Hd; by simplify_eq.
  - by eapply CheckHoneypot_denies.
Qed.

Lemma opinion_split : opinion_of = match first_of hard_checks with
  | Some d => Some d
  | None => first_of [waf_says svc scope req exempted; token_says svc scope req exempted; intel_challenge_says svc scope req exempted;
                      anomaly_says score_detail svc scope req exempted; challenge_says svc scope req exempted]
  end.
Proof. unfold opinion_of, policy. change (denylist_says scope req :: ?t) with (hard_checks ++ drop 4 t). by rewrite <- first_of_app. Qed.

(** The rule that decides a request decides it for an exempt client too,
    unless it only challenges. *)
Lemma waf_rule_exempt r x : waf_rule svc scope req false = Some r -> Waf.r_Action r <> Waf.ActionChallenge -> waf_rule svc scope req x = Some r.
Proof.
  destruct x; [| done]. unfold waf_rule. destruct (if ru_Enabled _ then _ else _) as [cache |]; [| done].
  destruct (Waf.Get _ _); [| done]. apply Waf.match_exempt_security.
Qed.

Lemma waf_rule_no_challenge r : waf_rule svc scope req true = Some r -> Waf.r_Action r <> Waf.ActionChallenge.
Proof.
  unfold waf_rule. destruct (if ru_Enabled _ then _ else _) as [cache |]; [| done]. destruct (Waf.Get _ _); [| done].
  intros Hr. destruct (Waf.match_rules_Some _ _ _ _ Hr) as (_ & _ & Ha). by apply Ha.
Qed.

(** ** Challenges *)
Definition window_ok : Prop := BaseBits (dc_PoW scope) <= MaxBits (dc_PoW scope) /\ 0 <= AttackMode.st_ExtraBits (eg_attack e).

Lemma effBits_window : window_ok -> BaseBits (dc_PoW scope) <= (effBits svc scope).1 <= (effBits svc scope).2.
Proof.
  intros [Hb Hx]. unfold effBits. cbn [svc services sv_attack]. unfold AttackMode.EffectiveBits.
  destruct (AttackMode.st_ExtraBits (eg_attack e) =? 0) eqn:E; bool_to_prop; cbn [fst snd]; lia.
Qed.

Lemma scaleDifficulty_window base maxDiff score at_ : base <= maxDiff -> base <= scaleDifficulty base maxDiff score at_ <= maxDiff.
Proof. intros Hb. unfold scaleDifficulty. destruct (fge _ _); cbn zeta; lia. Qed.

(** What is true of a challenged client. *)
Definition challenge_due (d : Decision) : Prop :=
  pow_on svc scope = true /\ exempted = false /\ has_token svc scope req = false /\ (effBits svc scope).1 <= d_Difficulty d <= (effBits svc scope).2.

Definition sound_opinion (d : Decision) : Prop :=
  d_Action d <> ActionRefuse /\ (d_Action d = Stateless.ActionChallenge -> challenge_due d).

Lemma rule_says_sound r : window_ok -> (exempted = true -> Waf.r_Action r <> Waf.ActionChallenge) -> sound_opinion (rule_says svc scope req r).
Proof.
  intros Hw Hr. pose proof (effBits_window Hw). unfold rule_says, sound_opinion, challenge_due.
  destruct (Waf.r_Action r); try done. destruct (pow_on svc scope) eqn:Ep; [| done]. destruct (has_token svc scope req) eqn:Et; [done |].
  split; [done |]. intros _. split_ands; try done; [| cbn [d_Difficulty challenge]; lia..]. destruct exempted; [by destruct Hr | done].
Qed.

(** Past the token check. *)
Lemma due b events reason : token_says svc scope req exempted = None -> pow_on svc scope && negb exempted = true ->
  (effBits svc scope).1 <= b <= (effBits svc scope).2 -> sound_opinion (challenge b reason events).
Proof.
  intros Ht Hp Hb. apply andb_true_iff in Hp as [Hp Hx]. apply negb_true_iff in Hx. unfold token_says in Ht. rewrite Hx in Ht.
  split; [done |]. intros _. unfold challenge_due. split_ands; [done | done | | apply Hb..]. by destruct (has_token svc scope req).
Qed.

Lemma late_opinion_sound d : window_ok -> token_says svc scope req exempted = None ->
  Some d ∈ [intel_challenge_says svc scope req exempted; anomaly_says score_detail svc scope req exempted; challenge_says svc scope req exempted] ->
  sound_opinion d.
Proof.
  intros Hw Ht. pose proof (effBits_window Hw) as He. rewrite !elem_of_cons. intros [Hd | [Hd | [Hd | Hd]]]; [.. | by apply not_elem_of_nil in Hd].
  - unfold intel_challenge_says in Hd. destruct (sv_intel svc); [| done]. destruct (ParseAddr _); [| done].
    destruct (_ && _) eqn:Ep; [| done].
    destruct (feed_says _ _ _ _); [injection Hd as ->; apply due; [done | done | lia] |].
    destruct (geo_says _ _ _ _); [injection Hd as ->; apply due; [done | done | lia] | done].
  - unfold anomaly_says in Hd. destruct (anomaly_score _ _ _) as [result |]; [| done]. destruct (_ || _); [done |].
    destruct (fge _ (an_DenyAt _)); [by injection Hd as -> |]. destruct (_ && _ && _) eqn:Ep; [| done]. injection Hd as ->.
    apply due; [done | | apply scaleDifficulty_window; lia]. rewrite <- andb_assoc in Ep. by apply andb_true_iff in Ep as [_ Ep].
  - unfold challenge_says in Hd. destruct (_ && _ && _) eqn:Ep; [| done]. injection Hd as ->. apply due; [done | | lia].
    by apply andb_true_iff in Ep as [Ep _].
Qed.

Lemma opinion_sound d : window_ok -> opinion_of = Some d -> sound_opinion d.
Proof.
  intros Hw. rewrite opinion_split. destruct (first_of hard_checks) as [d0 |] eqn:E0.
  { intros [= <-]. apply first_of_elem, hard_checks_deny in E0. unfold sound_opinion. by rewrite E0. }
  cbn [first_of]. unfold waf_says. destruct (waf_rule svc scope req exempted) as [r |] eqn:Er; cbn [fmap option_fmap option_map].
  { intros [= <-]. apply rule_says_sound; [done |]. intros Hx. rewrite Hx in Er. by eapply waf_rule_no_challenge. }
  destruct (token_says svc scope req exempted) as [d0 |] eqn:Et.
  { intros [= <-]. unfold token_says in Et. destruct (_ && _); [| done]. by injection Et as <-. }
  intros Hf. apply late_opinion_sound; [done | done |]. by apply first_of_elem.
Qed.

(** ** The gate *)

(** The local identity of the crawler check is what its verification answers. *)
Definition cached_identities : Prop := forall o id, eg_cachedBot e (q_RemoteAddr req) = Some id -> eg_verifyBot e (q_RemoteAddr req) o = id.

Lemma shed_bot_answer env : cached_identities -> coherent svc scope req env -> is_exempt svc scope req env = listed_exempt svc scope req ->
  match shed_bot scope req (eg_cachedBot e) env with
  | inl v => v.1 = ShedReject \/ v.1 = ShedDeny /\ is_Some (spoof_says svc scope req)
  | inr env' => coherent svc scope req env' /\ is_exempt svc scope req env' = exempted /\ spoof_says svc scope req = None
  end.
Proof.
  intros Hcached He Hx. unfold shed_bot, exempted, request_exempt, bot_verified, spoof_says, bot_verified, bot_claim. cbn [svc services sv_bots].
  destruct (bot_match _ _) as [bot |]; [| by rewrite orb_false_r].
  destruct (eg_cachedBot e _) as [id |] eqn:Ec; [| by left]. rewrite (Hcached (bot_options scope) id Ec).
  destruct (classify_answer svc scope req bot (BotVerify.id_status id) (BotVerify.MatchesDomains id (b_domainsLower bot)) env He) as (Ho & Hc & Hx' & _).
  destruct (classifyBotIdentity _ _ _ _) as [o env']. cbn [fst snd] in Ho, Hc, Hx'. rewrite Hx in Hx'. subst o.
  destruct (_ && BotVerify.MatchesDomains _ _); cbn [negb andb]; [done |].
  destruct (bool_decide (BotVerify.id_status id = _)); cbn [negb andb]; [by left |].
  destruct (bool_decide _); cbn [negb]; [done | right; split; [done | by eexists]].
Qed.

Lemma shed_local_answer env : coherent svc scope req env -> is_exempt svc scope req env = exempted ->
  (shed_local (shed_services now snap e) scope req env).1 =
  match first_of [intel_deny_says svc scope req; honeypot_says scope req] with
  | Some _ => ShedDeny
  | None =>
    match waf_says svc scope req exempted with
    | Some d => match d_Action d with Stateless.ActionDeny => ShedDeny | Stateless.ActionAllow => ShedPass | _ => ShedReject end
    | None => if has_token svc scope req then ShedPass else ShedReject
    end
  end.
Proof.
  intros He Hx. unfold shed_local, shed_stage. set (sv := shed_services now snap e).
  assert (Hc : coherent sv scope req env) by (destruct He as [Ho Ht Hh]; by split). clear He. rename Hc into He.
  change (is_exempt svc scope req env) with (is_exempt sv scope req env) in Hx.
  change (intel_deny_says svc scope req) with (intel_deny_says sv scope req). change (waf_says svc scope req exempted) with (waf_says sv scope req exempted).
  change (has_token svc scope req) with (has_token sv scope req).
  destruct (intel_deny_gives sv scope req exempted (en_enforcer env) env He Hx eq_refl) as (Ho & He1 & Hx1 & _). unfold opinion in Ho.
  destruct (intelDenyStage sv scope req env) as [r1 env1]. cbn [fst snd] in *. rewrite Ho. cbn [first_of]. destruct (intel_deny_says sv scope req); [done |].
  destruct (honeypot_gives sv scope req exempted (en_enforcer env1) env1 He1 Hx1 eq_refl) as (Ho2 & He2 & Hx2 & _). unfold opinion in Ho2.
  destruct (honeypotStage scope req env1) as [r2 env2]. cbn [fst snd] in *. rewrite Ho2. destruct (honeypot_says scope req); [done |].
  destruct (waf_gives sv scope req exempted (en_enforcer env2) env2 He2 Hx2 eq_refl) as (Ho3 & He3 & _). unfold opinion in Ho3.
  destruct (wafRulesStage sv scope req env2) as [r3 env3]. cbn [fst snd] in *. rewrite Ho3. destruct (waf_says sv scope req exempted) as [d |]; [by destruct (d_Action d) |].
  rewrite (proj1 (hasValidPoWToken_answer sv scope req env3 He3)). by destruct (has_token sv scope req).
Qed.

(** What the gate answers, in terms of the opinions of the pipeline. *)
Lemma shed_answer : eg_snap e = Some snap -> cached_identities ->
  match ShedDecision now req e with
  | ShedDeny => is_Some (first_of hard_checks) \/ first_of hard_checks = None /\ exists d, waf_says svc scope req exempted = Some d /\ d_Action d = Stateless.ActionDeny
  | ShedPass => is_Some (eg_enforcer e) -> is_Some (ParseAddr (q_RemoteAddr req)) ->
    first_of hard_checks = None /\
    ((exists d, waf_says svc scope req exempted = Some d /\ d_Action d = Stateless.ActionAllow) \/
     waf_says svc scope req exempted = None /\ has_token svc scope req = true)
  | ShedReject => True
  end.
Proof.
  intros Hs Hcached. unfold ShedDecision, ShedDecisionWithReason. rewrite Hs. fold scope. cbn zeta.
  assert (Hdl : (if bool_decide (is_Some (ParseAddr (q_RemoteAddr req))) then CheckDenylist req (dc_Denylist scope) else None) = denylist_says scope req).
  { unfold denylist_says. by destruct (ParseAddr _). }
  rewrite Hdl. unfold hard_checks. destruct (denylist_says scope req) as [d |] eqn:Ed; [left; by eexists |]. cbn [first_of].
  change (enforcer_Lookup (shed_services now snap e) (eg_enforcer e) (q_RemoteAddr req)) with (enforcer_Lookup svc (eg_enforcer e) (q_RemoteAddr req)).
  destruct (enforcer_Lookup svc _ _) as [why |] eqn:El.
  { left. apply (first_of_hit [spoof_says svc scope req; intel_deny_says svc scope req; block_says svc req (eg_enforcer e); honeypot_says scope req]
      (deny (lit "behaviour_block:" ++ why) [])). do 2 right. assert (Hb : block_says svc req (eg_enforcer e) = Some (deny (lit "behaviour_block:" ++ why) [])) by (unfold block_says, block_known; by rewrite El). rewrite Hb. left. }
  destruct (bool_decide (is_Some (eg_enforcer e)) && _) eqn:Er; [done |].
  set (env := set_exemption _ _).
  assert (He : coherent svc scope req env) by (by split; [| left |]).
  pose proof (shed_bot_answer env Hcached He eq_refl) as Hb. destruct (shed_bot _ _ _ env) as [[v why] | env'].
  { cbn [fst] in *. destruct Hb as [-> | (-> & x & Hsp)]; [done |]. left.
    apply (first_of_hit [spoof_says svc scope req; intel_deny_says svc scope req; block_says svc req (eg_enforcer e); honeypot_says scope req] x).
    rewrite Hsp. left. }
  destruct Hb as (Hc & Hx & ->). rewrite (shed_local_answer env' Hc Hx). cbn [first_of].
  assert (Hblock : is_Some (eg_enforcer e) -> is_Some (ParseAddr (q_RemoteAddr req)) -> block_says svc req (eg_enforcer e) = None).
  { intros Hm Ha. unfold block_says, block_known. rewrite El. rewrite bool_decide_eq_true_2 in Er by done. cbn [andb] in Er. rewrite Er.
    by rewrite bool_decide_eq_true_2. }
  destruct (intel_deny_says svc scope req) as [d |]; [left; by eexists |].
  destruct (honeypot_says scope req) as [d |].
  { left. destruct (block_says svc req (eg_enforcer e)); by eexists. }
  destruct (waf_says svc scope req exempted) as [d |].
  - destruct (d_Action d) eqn:Ea; try done.
    + intros Hm Ha. rewrite (Hblock Hm Ha). split; [done |]. left. by exists d.
    + destruct (block_says svc req (eg_enforcer e)); [left; by eexists | right; split; [done | by exists d]].
  - destruct (has_token svc scope req); [| done]. intros Hm Ha. rewrite (Hblock Hm Ha). split; [done |]. by right.
Qed.
End Request.

(** * Properties *)

(** C1: The staged evaluation with its memoized lookups and skipped failures
    decides exactly the first opinion of the memo-free policy, unchallengeable
    clients aside, and asks each lookup at most once. *)
Theorem evaluate_refines_policy store now draws req e snap (Hs : eg_snap e = Some snap) :
  let out := (Evaluate score_detail store now draws req e).1 in
  let dcfg := scope req snap in
  let sv := svc store now e snap in
  let d := default default_allow
    (first_of [denylist_says dcfg req; spoof_says sv dcfg req; intel_deny_says sv dcfg req; block_says sv req (eg_enforcer e); honeypot_says dcfg req;
               waf_says sv dcfg req (request_exempt sv dcfg req); token_says sv dcfg req (request_exempt sv dcfg req);
               intel_challenge_says sv dcfg req (request_exempt sv dcfg req); anomaly_says score_detail sv dcfg req (request_exempt sv dcfg req);
               challenge_says sv dcfg req (request_exempt sv dcfg req)]) in
  (exists exemption, ou_decision out = with_exemption exemption (refuse_unchallengeable dcfg req d)) /\ NoDup (ou_calls out).
Proof.
  cbn zeta. split; [exact (Evaluate_policy store now req e snap draws Hs) |]. unfold Evaluate. rewrite Hs.
  pose proof (asks_once score_detail (svc store now e snap) (scope req snap) req (eg_enforcer e)) as Hn. unfold svc, scope in Hn.
  destruct (run_stages _ _) as [[sd errs] env]. exact Hn.
Qed.

(** C2: A request the denylist, a crawler spoof, IP intelligence, a
    behavioural block, a honeypot path or a denying WAF rule stops is denied,
    whatever token it carries and whatever exemption it has. *)
Theorem no_vouching_past_a_deny store now draws req e snap (Hs : eg_snap e = Some snap)
  (Hd : is_Some (first_of (hard_checks store now req e snap)) \/
        exists r, waf_rule (svc store now e snap) (scope req snap) req false = Some r /\
          (Waf.r_Action r = Waf.ActionDeny \/ Waf.r_Action r = Waf.ActionBlock)) :
  d_Action (ou_decision (Evaluate score_detail store now draws req e).1) = Stateless.ActionDeny.
Proof.
  assert (exists d, opinion_of store now req e snap = Some d /\ d_Action d = Stateless.ActionDeny) as (d & Ho & Ha).
  { rewrite opinion_split. destruct (first_of (hard_checks store now req e snap)) as [d |] eqn:Eh.
    - exists d. split; [done |]. eapply hard_checks_deny. by apply first_of_elem.
    - destruct Hd as [[d Hd] | (r & Hr & Hact)]; [done |].
      assert (Hc : Waf.r_Action r <> Waf.ActionChallenge) by (by destruct Hact as [-> | ->]).
      pose proof (waf_rule_exempt _ _ _ _ _ _ (exempted store now req e snap) Hr Hc) as Hx. cbn [first_of]. unfold waf_says. rewrite Hx.
      eexists. split; [reflexivity |]. unfold rule_says. by destruct Hact as [-> | ->]. }
  destruct (Evaluate_settled store now req e snap draws d Hs Ho) as [x ->]; [by rewrite Ha | done].
Qed.

(** C3: A client is challenged or refused only where proof of work is on, when
    it is neither exempt nor the holder of a valid token; the difficulty lies
    in the posture window, which is at least the configured base, and a client
    that cannot solve is not challenged where refusing is on. *)
Theorem challenge_only_when_due store now draws req e snap (Hs : eg_snap e = Some snap) (Hw : window_ok req e snap) :
  let d := ou_decision (Evaluate score_detail store now draws req e).1 in
  let sv := svc store now e snap in
  let dcfg := scope req snap in
  (d_Action d = Stateless.ActionChallenge \/ d_Action d = ActionRefuse ->
   pow_on sv dcfg = true /\ request_exempt sv dcfg req = false /\ has_token sv dcfg req = false) /\
  (d_Action d = Stateless.ActionChallenge ->
   BaseBits (dc_PoW dcfg) <= (effBits sv dcfg).1 <= d_Difficulty d /\ d_Difficulty d <= (effBits sv dcfg).2 /\
   ~ (q_Unchallengeable req = true /\ RefusesUnchallengeable (dc_PoW dcfg) = true)).
Proof.
  cbn zeta. destruct (Evaluate_policy store now req e snap draws Hs) as [x ->].
  pose proof (effBits_window store now req e snap Hw) as He.
  destruct (opinion_of store now req e snap) as [d |] eqn:Eo; [| by rewrite refuse_action; [split; [intros [|] |] |]].
  destruct (opinion_sound _ _ _ _ _ d Hw Eo) as [Hr Hc]. change (default default_allow (Some d)) with d. unfold refuse_unchallengeable.
  destruct (decide (d_Action d = Stateless.ActionChallenge)) as [Ha | Ha].
  2: { rewrite bool_decide_eq_false_2 by done. cbn. split; [intros [|] | intros]; done. }
  destruct (Hc Ha) as (Hp & Hx & Ht & Hd1 & Hd2). rewrite bool_decide_eq_true_2 by done. cbn [andb].
  split; [intros _; by split_ands |].
  destruct (q_Unchallengeable req), (RefusesUnchallengeable _); cbn [andb d_Action d_Difficulty decide_as with_exemption]; intros Hch; try done;
    (split; [lia |]; split; [lia |]); by intros [? ?].
Qed.

(** Runs whose stages leave the same environments and opinions. *)
Lemma run_same ss ss' : Forall2 (fun s s' : stageEnv -> outcome stage_error (option Decision) * stageEnv => forall e, opinion (s e).1 = opinion (s' e).1 /\ (s e).2 = (s' e).2) ss ss' ->
  forall e, (run_stages ss e).1.1 = (run_stages ss' e).1.1 /\ (run_stages ss e).2 = (run_stages ss' e).2.
Proof.
  induction 1 as [| s s' ss ss' Hs _ IH]; intros e; [done |]. destruct (Hs e) as [Ho He]. cbn [run_stages].
  destruct (s e) as [r e1], (s' e) as [r' e1']. cbn in Ho, He. subst e1'. specialize (IH e1).
  destruct (run_stages ss e1) as [[? ?] ?], (run_stages ss' e1) as [[? ?] ?]. cbn in IH. destruct IH as [-> ->].
  destruct r as [[? |] | ?], r' as [[? |] | ?]; cbn in *; by simplify_eq.
Qed.

(** ** The crawler verifier behind the engine *)
Section Crawlers.
Context `{BotVerify.Resolver}.
Variables (shard_of : addr -> nat) (busy full : bool).

(** The engine whose verifier is [botverify] with the local cache [c], at the
    instant [now], [reads] answering its reads of the shared record. *)
Definition with_crawlers (c : BotVerify.localCache) (reads : gostring -> BotVerify.stored) (now : Z) (e : Engine) : Engine :=
  mk_engine (eg_snap e) (eg_pow e) (fun ip o => (BotVerify.Verify shard_of ip o (reads (BotVerify.keyPrefix ++ ip)) full now c).1.1)
    (fun ip => BotVerify.LookupCached shard_of ip busy now c) (eg_board e) (eg_enforcer e) (eg_attack e) (eg_recent e).

(** A local hit is what a verification answers at the same instant. *)
Lemma with_crawlers_cached c reads now e req : cached_identities req (with_crawlers c reads now e).
Proof.
  intros o id. cbn [with_crawlers eg_cachedBot eg_verifyBot]. unfold BotVerify.LookupCached, BotVerify.Verify.
  destruct (ParseAddr (q_RemoteAddr req)) as [a |]; [| done]. cbn [mbind option_bind]. unfold BotVerify.get_shed, BotVerify.get.
  destruct busy; [done |]. destruct (BotVerify.lookup_entry (Unmap a) _) as [entry |]; [| done]. cbn [mbind option_bind].
  by destruct (now <? BotVerify.le_expires entry); cbn; [intros [= <-] |].
Qed.

(** An answer of the shared record that is worth nothing. *)
Definition no_record (st : BotVerify.stored) : Prop := forall now, BotVerify.read_stored now st = None.

Lemma with_crawlers_outage c reads reads' now e ip o : (forall k, no_record (reads k)) -> (forall k, no_record (reads' k)) ->
  eg_verifyBot (with_crawlers c reads now e) ip o = eg_verifyBot (with_crawlers c reads' now e) ip o.
Proof. intros Hr Hr'. cbn [with_crawlers eg_verifyBot]. unfold BotVerify.Verify. by rewrite Hr, Hr'. Qed.
End Crawlers.

(** ** Recording on a store that is out of service *)
Definition out_of_service {S : Type} `{!StoreOps S} : Prop := forall R t (op : store_op R) (s : S), exists e, exec_op t op s = (s, Err e).

(** With every call failing, a program ends silently with such an answer. *)
Fixpoint fails_quietly {A} (P : A -> Prop) (p : prog A) : Prop :=
  match p with
  | Ret a => P a
  | Call _ k => forall e, fails_quietly P (k (Err e))
  | Tell _ _ => False
  end.

Lemma fails_quietly_run {S A : Type} `{!StoreOps S} (P : A -> Prop) (p : prog A) : out_of_service (S := S) -> fails_quietly P p ->
  forall tm (s : S), exists a, run p tm s = (s, [], a) /\ P a.
Proof.
  intros Hout. induction p as [a | R op k IH | e k IH]; cbn; intros Hp tm s; [by exists a | | done].
  destruct (Hout R (tm 0%nat) op s) as [e ->]. by apply IH.
Qed.

Lemma fails_quietly_bind {A B} (P : A -> Prop) (Q : B -> Prop) (p : prog A) (f : A -> prog B) :
  fails_quietly P p -> (forall a, P a -> fails_quietly Q (f a)) -> fails_quietly Q (bind p f).
Proof. intros Hp Hf. induction p as [a | R op k IH | e k IH]; cbn in *; [by apply Hf | auto | done]. Qed.

Lemma record_event_fails b ip ib factor ev d : fails_quietly (fun r => r.1 = false) (record_event b ip ib factor ev d).
Proof.
  unfold record_event. case_bool_decide.
  - apply (fails_quietly_bind (fun r => is_ok r = false)); [| by intros r Hr].
    unfold Block, Block_admitted, unblockToken. by destruct (_ <=? _); cbn.
  - destruct (ib_Thresholds ib !! ev_Type ev) as [rate |]; [| done]. destruct (0 <? rt_Count rate); [| done].
    unfold RecordEvent, RecordEvent_admitted, unblockToken. destruct (_ || _); [done |]. by destruct (_ <=? _); cbn.
Qed.

Lemma recordEvents_fail b ip dcfg events factor draws : fails_quietly (fun placed => placed = []) (recordEvents b ip dcfg events factor draws).
Proof.
  unfold recordEvents. destruct (_ || _); [done |]. revert draws. induction events as [| ev events IH]; intros draws; [done |]. cbn [record_each].
  eapply fails_quietly_bind; [apply record_event_fails |]. intros r Hr. eapply fails_quietly_bind; [apply IH |]. intros placed ->. cbn. by rewrite Hr.
Qed.


(** C5: With one local crawler cache behind both, read at one instant, what the
    saturated gate denies the evaluation denies, and what it passes the
    evaluation allows, for a client with an address that is not exempt, behind
    a mirror. *)
Theorem overload_gate_agrees `{BotVerify.Resolver} shard_of busy full c records store now draws req e0 snap (Hs : eg_snap e0 = Some snap) :
  let e := with_crawlers shard_of busy full c records now e0 in
  let d := ou_decision (Evaluate score_detail store now draws req e).1 in
  (ShedDecision now req e = ShedDeny -> d_Action d = Stateless.ActionDeny) /\
  (ShedDecision now req e = ShedPass -> is_Some (eg_enforcer e) -> is_Some (ParseAddr (q_RemoteAddr req)) ->
   exempted store now req e snap = false -> d_Action d = Stateless.ActionAllow).
Proof.
  cbn zeta. set (e := with_crawlers _ _ _ _ _ _ _). change (eg_snap e0) with (eg_snap e) in Hs.
  pose proof (shed_answer store now req e snap Hs (with_crawlers_cached _ _ _ _ _ _ _ _)) as Hshed.
  assert (Hsettle : forall d, opinion_of store now req e snap = Some d -> d_Action d <> Stateless.ActionChallenge ->
    d_Action (ou_decision (Evaluate score_detail store now draws req e).1) = d_Action d).
  { intros d Hd Ha. by destruct (Evaluate_settled store now req e snap draws d Hs Hd Ha) as [x ->]. }
  rewrite opinion_split in Hsettle. split_ands; intros Hv; rewrite Hv in Hshed.
  - destruct Hshed as [[d Hd] | (Hn & d & Hwaf & Ha)].
    + rewrite Hd in Hsettle. assert (Hdeny : d_Action d = Stateless.ActionDeny) by (eapply hard_checks_deny; by apply first_of_elem).
      rewrite (Hsettle d eq_refl); [done | by rewrite Hdeny].
    + rewrite Hn in Hsettle. cbn [first_of] in Hsettle. rewrite Hwaf in Hsettle. rewrite (Hsettle d eq_refl); [done | by rewrite Ha].
  - intros Hm Ha Hx. destruct (Hshed Hm Ha) as (Hn & [(d & Hwaf & Hallow) | (Hwaf & Htok)]); rewrite Hn in Hsettle; cbn [first_of] in Hsettle; rewrite Hwaf in Hsettle.
    + rewrite (Hsettle d eq_refl); [done | by rewrite Hallow].
    + unfold token_says in Hsettle. rewrite Hx, Htok in Hsettle. cbn [negb andb] in Hsettle. by rewrite (Hsettle _ eq_refl).
Qed.
End Verdicts.

(** ** A concrete engine *)
Module Ex.
#[export] Existing Instance ascii_only.
#[export] Existing Instance Waf.Ex.literals.
#[export] Existing Instance Intel.Ex.no_db.
#[export] Existing Instance BotVerify.Ex.resolver.
#[export] Instance to_int : FloatToInt := {| int_unrepresentable := fun _ => 0 |}.

(** Proof of work in mode "always", a trusted monitor, a denied address, a
    model that denies from 0.9. *)
Definition dcfg (anomaly : bool) : DomainConfig :=
  mk_domain
    (mk_waf (mk_ipb true hour (24 * hour) DomainConfig.Ex.thresholds) (mk_rulescfg false [] [] []) (mk_anomaly anomaly false (lit "m") (fdiv (f64 1) (f64 2)) (fdiv (f64 9) (f64 10)))
       (mk_honeypot true [lit "/trap"]))
    (DomainConfig.Ex.pow (QArith_base.inject_Z 4) (QArith_base.inject_Z 6)) (mk_geo false DomainConfig.Ex.selector DomainConfig.Ex.selector DomainConfig.Ex.selector []) false
    (mk_list [] [] [lit "monitor"]) (mk_list [] [mk_prefix (V4 (203 * 2 ^ 24)) 8] []) (DomainConfig.Ex.bots []) (lit "defaults").
Definition cfg (anomaly : bool) : Config := mk_cfg (mk_resolved (dcfg anomaly) []) ∅ [] [] (lit "key") 0 false 0 (mk_verifier 1 (mk_rate 10 minute)).
Definition rules : Waf.RuleCache := match Waf.Ex.cache with Ok c => c | Err _ => Waf.mk_cache ∅ [] [] end.
(** Every request is as suspicious as can be. *)
Definition model (name : gostring) : option scorer := Some (fun _ _ _ _ _ => mk_score true (f64 1)).
Definition snap (anomaly : bool) : engineSnapshot := mk_snap (cfg anomaly) (f64 1) rules model None ∅.
Definition good_token (token host ip ua : gostring) (bits ttl : Z) : option token_fault := if bool_decide (token = lit "good") then None else Some FaultInvalid.
Definition mirror : Enforce.manager := Enforce.mk_mgr Enforce.ModeAuthoritative hour (Enforce.newMirror 1024) true 1 0 0 0 [].
Definition engine (anomaly : bool) : Engine :=
  mk_engine (Some (snap anomaly)) (Some good_token) (fun _ _ => BotVerify.mk_identity BotVerify.StatusError [])
    (fun _ => None) NewScoreboard (Some mirror) AttackMode.normalState (newRecentRing 16 0).
Definition request (ip ua cookie : gostring) (unchallengeable : bool) : RequestContext :=
  mk_req (lit "example.org") (lit "GET") (lit "/index.html") ip ua cookie None unchallengeable.
Definition visitor : RequestContext := request (lit "192.0.2.7") (lit "Mozilla/5.0") [] false.
Definition holder : RequestContext := request (lit "192.0.2.7") (lit "Mozilla/5.0") (CookieName ++ lit "=good") false.
Definition monitor : RequestContext := request (lit "192.0.2.7") (lit "uptime-monitor/1") (CookieName ++ lit "=good") false.
Definition banned : RequestContext := request (lit "203.0.113.9") (lit "uptime-monitor/1") (CookieName ++ lit "=good") false.
Definition no_detail (score : float) : gostring := [].
Definition empty_store (k : gostring) : result (option gostring) := Ok None.
Definition down_store (k : gostring) : result (option gostring) := Err (EBackend 1).
Definition draws (i : nat) : event_draw := (5, 7).

(** A domain that verifies a crawler, an impostor the local cache already knows
    not to be it, and no mirror in front of the store. *)
Definition bot : BotConfig := mk_bot (lit "googlebot") [lit "Googlebot"] [lit "googlebot.com"] [lit "googlebot"] [lit "googlebot.com"].
Definition bot_cfg : Config :=
  let c := dcfg false in
  mk_cfg (mk_resolved (mk_domain (dc_WAF c) (dc_PoW c) (dc_Geo c) (dc_Reputation c) (dc_Allowlist c) (dc_Denylist c) (DomainConfig.Ex.bots [bot]) (dc_label c)) [])
    ∅ [] [] (lit "key") 0 false 0 (mk_verifier 1 (mk_rate 10 minute)).
Definition bot_snap : engineSnapshot := mk_snap bot_cfg (f64 1) rules model None ∅.
Definition bot_engine (m : option Enforce.manager) : Engine :=
  mk_engine (Some bot_snap) (Some good_token) (fun _ _ => BotVerify.mk_identity BotVerify.StatusError []) (fun _ => None) NewScoreboard m AttackMode.normalState (newRecentRing 16 0).
Definition bot_cache : BotVerify.localCache := BotVerify.mk_lcache [[BotVerify.mk_lentry (V4 3221225991) (BotVerify.mk_identity BotVerify.StatusNone []) 100]].
Definition impostor : RequestContext := request (lit "192.0.2.7") (lit "Mozilla/5.0 (compatible; Googlebot/2.1)") [] false.
Definition one_shard (a : addr) : nat := 0.
Definition no_records (k : gostring) : BotVerify.stored := BotVerify.WithExpiry (Ok None).
Definition lost_records (k : gostring) : BotVerify.stored := BotVerify.ValueOnly (Err (EBackend 2)).

(** A client that trips the trap, and a store that holds its block. *)
Definition trapped : RequestContext := mk_req (lit "example.org") (lit "GET") (lit "/trap") (lit "192.0.2.7") (lit "Mozilla/5.0") [] None false.
Definition blocking_store (k : gostring) : result (option gostring) := Ok (Some (BlockValue (lit "tamper") 1)).

(** A backend that answers nothing. *)
#[export] Instance down_ops : StoreOps unit := {|
  st_get _ _ s := (s, Err (EBackend 1)); st_set _ _ _ _ s := (s, Err (EBackend 1)); st_delete _ s := (s, Err (EBackend 1));
  st_incr_by_deadline _ _ _ _ s := (s, Err (EBackend 1)); st_cas _ _ _ _ _ s := (s, Err (EBackend 1)); st_cad _ _ _ s := (s, Err (EBackend 1));
  st_commit_block _ _ s := (s, Err (EBackend 1)); st_commit_event _ _ s := (s, Err (EBackend 1)); st_commit_unblock _ _ s := (s, Err (EBackend 1)) |}.
Definition evaluate (anomaly : bool) (req : RequestContext) : Decision := ou_decision (Evaluate no_detail empty_store 1 draws req (engine anomaly)).1.
End Ex.

Section Witnesses.
Import Ex.

(** An exempt client that holds a token is admitted by the saturated gate,
    though its evaluation, which skips the token of an exempt client, reaches
    the anomaly score and denies it. *)
Theorem exempt_token_holder_shed_past_anomaly :
  ShedDecision 1 monitor (engine true) = ShedPass /\ d_Action (evaluate true monitor) = Stateless.ActionDeny.
Proof. split; vm_compute; reflexivity. Qed.

Theorem evaluate_refines_policy_witness :
  d_Action (evaluate true holder) = Stateless.ActionAllow /\ NoDup (ou_calls (Evaluate no_detail empty_store 1 draws holder (engine true)).1).
Proof.
  split; [vm_compute; reflexivity |].
  exact (proj2 (evaluate_refines_policy no_detail empty_store 1 draws holder (engine true) (snap true) eq_refl)).
Defined.

Theorem no_vouching_past_a_deny_witness : MatchAllowlist banned (dc_Allowlist (dcfg false)) = lit "allowlist:ua" /\ d_Action (evaluate false banned) = Stateless.ActionDeny.
Proof.
  split; [vm_compute; reflexivity |].
  apply (no_vouching_past_a_deny no_detail empty_store 1 draws banned (engine false) (snap false) eq_refl). left. vm_compute. eexists. reflexivity.
Defined.

Theorem challenge_only_when_due_witness : d_Action (evaluate false visitor) = Stateless.ActionChallenge /\ 16 <= d_Difficulty (evaluate false visitor) <= 24.
Proof.
  assert (Hc : d_Action (evaluate false visitor) = Stateless.ActionChallenge) by (vm_compute; reflexivity). split; [exact Hc |].
  assert (Hw : window_ok visitor (engine false) (snap false)) by (vm_compute; split; discriminate).
  destruct (challenge_only_when_due no_detail empty_store 1 draws visitor (engine false) (snap false) eq_refl Hw) as [_ Hd].
  destruct (Hd Hc) as (H1 & H2 & _). split.
  - apply (Z.le_trans _ _ _ (proj1 H1) (proj2 H1)).
  - exact H2.
Defined.

Lemma down_out : out_of_service (S := unit).
Proof. intros R t op st. exists (EBackend 1). by destruct op. Qed.


(** A token holder passes, and an impostor whose identity is cached is denied,
    by the gate and by the evaluation. *)
Theorem overload_gate_agrees_witness :
  let e := with_crawlers one_shard false false bot_cache no_records 1 (bot_engine (Some mirror)) in
  (ShedDecision 1 holder e = ShedPass /\ d_Action (ou_decision (Evaluate no_detail empty_store 1 draws holder e).1) = Stateless.ActionAllow) /\
  eg_cachedBot e (q_RemoteAddr impostor) = Some (BotVerify.mk_identity BotVerify.StatusNone []) /\
  (ShedDecision 1 impostor e = ShedDeny /\ d_Action (ou_decision (Evaluate no_detail empty_store 1 draws impostor e).1) = Stateless.ActionDeny).
Proof.
  set (e := with_crawlers one_shard false false bot_cache no_records 1 (bot_engine (Some mirror))). cbn zeta.
  assert (Hv : ShedDecision 1 holder e = ShedPass) by (vm_compute; reflexivity).
  assert (Hi : ShedDecision 1 impostor e = ShedDeny) by (vm_compute; reflexivity).
  split; [split; [exact Hv |] | split; [vm_compute; reflexivity | split; [exact Hi |]]].
  - destruct (overload_gate_agrees no_detail one_shard false false bot_cache no_records empty_store 1 draws holder (bot_engine (Some mirror)) bot_snap eq_refl) as [_ Hp].
    apply (Hp Hv); [eexists; reflexivity | vm_compute; eexists; reflexivity | vm_compute; reflexivity].
  - destruct (overload_gate_agrees no_detail one_shard false false bot_cache no_records empty_store 1 draws impostor (bot_engine (Some mirror)) bot_snap eq_refl) as [Hp _].
    exact (Hp Hi).
Defined.
End Witnesses.
