(* ===== verification/Operator.v ===== *)
(** * Operator actions (core/engine.go)

    Lifting a block: the reset of the counters that produced it around the
    atomic commit, the hosts whose challenge escalation is reset, and the views
    of the active blocks. *)

From S2P Require Export Verdicts.

Open Scope Z_scope.

(** ** Unblocking *)
Record UnblockReset := mk_reset { ur_EventKeys : Z; ur_EscalationKeys : Z; ur_BackoffReset : bool; ur_Incomplete : bool }.

Definition no_reset : UnblockReset := mk_reset 0 0 false false.
Definition incomplete (r : UnblockReset) : UnblockReset := mk_reset (ur_EventKeys r) (ur_EscalationKeys r) (ur_BackoffReset r) true.
Definition with_event_keys (n : Z) (r : UnblockReset) : UnblockReset := mk_reset n (ur_EscalationKeys r) (ur_BackoffReset r) (ur_Incomplete r).
Definition add_escalation_keys (n : Z) (r : UnblockReset) : UnblockReset := mk_reset (ur_EventKeys r) (ur_EscalationKeys r + n) (ur_BackoffReset r) (ur_Incomplete r).
Definition with_backoff_reset (b : bool) (r : UnblockReset) : UnblockReset := mk_reset (ur_EventKeys r) (ur_EscalationKeys r) b (ur_Incomplete r).

Definition maxEscalationResetHosts : nat := 128.

Section Operator.
Context `{Unicode, Waf.Regexp, Intel.GeoDB, FloatToInt}.
(** The counter cache's sketch hashes. *)
Variable hash : nat -> gostring -> Z.

(** [add] of the closure over the raw hosts in turn; [true] when the limit
    stopped it. *)
Fixpoint add_hosts (raws hosts : list gostring) : list gostring * bool :=
  match raws with
  | [] => (hosts, false)
  | raw :: rest =>
    let host := NormalizeHost raw in
    if bool_decide (host = []) || bool_decide (host ∈ hosts) then add_hosts rest hosts
    else if (maxEscalationResetHosts <=? length hosts)%nat then (hosts, true)
    else add_hosts rest (hosts ++ [host])
  end.

Definition sameIP (ip raw : gostring) : bool :=
  bool_decide (raw = ip) ||
  match ParseAddr ip, ParseAddr raw with
  | Some target, Some a => bool_decide (Unmap a = target)
  | _, _ => false
  end.

(** [bytes_le] orders the configured hosts. *)
Definition configured_hosts (cfg : Config) : list gostring := merge_sort bytes_le (map fst (map_to_list (c_resolved cfg))).

Definition escalationHosts (cfg : Config) (ip : gostring) (ring : recentRing) : list gostring * bool :=
  add_hosts (map re_Host (List.filter (fun d => sameIP ip (re_IP d)) (list_recent 0 ring)) ++ configured_hosts cfg) [].

(** [ForgetSync] of both counters of each host; [clk] reads the clock after
    each delete. *)
Fixpoint reset_hosts (ip : gostring) (hosts : list gostring) (clk : nat -> Z) (out : UnblockReset) (c : CounterCache) : prog (UnblockReset * CounterCache) :=
  match hosts with
  | [] => Ret (out, c)
  | host :: rest =>
    Call (StoreClient.ODelete (escalationKey escalationPrefix host ip)) (fun del1 =>
    Call (StoreClient.ODelete (escalationKey frameEscalationPrefix host ip)) (fun del2 =>
    let '(keys, ok, c) := ResetEscalation hash host ip del1 del2 (clk 0%nat) (clk 1%nat) c in
    let out := add_escalation_keys keys out in
    reset_hosts ip rest (fun i => clk (2 + i)%nat) (if ok : bool then out else incomplete out) c))
  end.

(** [generation]: what the first read answered, unless it failed. *)
Definition resetBlockCounters (ip : gostring) (generation : option gostring) (now : Z) (clk : nat -> Z) (e : Engine) (out : UnblockReset) (c : CounterCache)
  : prog (UnblockReset * CounterCache) :=
  match eg_snap e with
  | None => Ret (incomplete out, c)
  | Some snap =>
    bind (match generation with
          | Some g => bind (ResetEventCounters now ip g (BehaviourWindows (sn_cfg snap))) (fun r => Ret (with_event_keys r.1 out))
          | None => Ret out
          end) (fun out =>
    match eg_pow e with
    | None => Ret (out, c)
    | Some _ =>
      let '(hosts, truncated) := escalationHosts (sn_cfg snap) ip (eg_recent e) in
      bind (reset_hosts ip hosts clk out c) (fun r => Ret (if truncated : bool then (incomplete r.1, r.2) else r))
    end)
  end.

(** [gen1], [gen2]: the generations drawn by the hold and by the commit. *)
Definition UnblockIP (ip : gostring) (resetBackoff : bool) (gen1 gen2 : gostring) (now : Z) (clk : nat -> Z) (e : Engine) (c : CounterCache)
  : prog (UnblockReset * result unit * CounterCache) :=
  let ip := canonIP ip in
  bind (unblockToken (eg_board e) ip) (fun generation =>
  bind (HoldUnblock (eg_board e) ip gen1) (fun _ =>
  bind (resetBlockCounters ip (match generation with Ok g => Some g | Err _ => None end) now clk e no_reset c) (fun r =>
  bind (Scoreboard.CommitUnblock (eg_board e) ip gen2 resetBackoff) (fun done =>
  Ret (match done with Ok _ => if resetBackoff then with_backoff_reset true r.1 else r.1 | Err _ => r.1 end, done, r.2))))).

(** ** Views *)

(** The scanning capabilities of a backend. *)
Record Scanner (S : Type) := mk_scanner {
  sc_indexed : option (gostring -> Z -> S -> result (list KV * bool));
  sc_limited : option (gostring -> Z -> S -> result (list KV * bool));
  sc_scan : gostring -> S -> result (list KV)
}.
Arguments mk_scanner {S}.
Arguments sc_indexed {S}.
Arguments sc_limited {S}.
Arguments sc_scan {S}.

Definition scan_fallback {S} (sc : Scanner S) (prefix : gostring) (limit : Z) (s : S) : result (list KV * bool) :=
  match sc_limited sc with
  | Some scan => scan prefix limit s
  | None =>
    match sc_scan sc prefix s with
    | Err e => Err e
    | Ok kvs => if (0 <? limit) && (limit <? Z.of_nat (length kvs)) then Ok (take (Z.to_nat limit) kvs, false) else Ok (kvs, true)
    end
  end.

Definition scanBlocks {S} (sc : Scanner S) (prefix : gostring) (limit : Z) (s : S) : result (list KV * bool) :=
  match sc_indexed sc with
  | Some scan => match scan prefix limit s with Err EUnsupported => scan_fallback sc prefix limit s | r => r end
  | None => scan_fallback sc prefix limit s
  end.

Record BlockEntry := mk_blockentry { be_IP : gostring; be_Reason : gostring; be_ExpiresAt : option Z }.

Definition ListBlocksLimit {S} (sc : Scanner S) (limit : Z) (s : S) : result (list BlockEntry * bool) :=
  match scanBlocks sc blockKeyPrefix limit s with
  | Err e => Err e
  | Ok (kvs, complete) =>
    Ok (map (fun kv => mk_blockentry (drop (length blockKeyPrefix) (kv_key kv)) (BlockReason (kv_value kv)) (kv_expires kv)) kvs, complete)
  end.

Definition blockExpiryScanLimit : Z := 64.

Definition blockExpiry {S} (sc : Scanner S) (ip : gostring) (s : S) : option Z :=
  let key := BlockKey ip in
  match scanBlocks sc key blockExpiryScanLimit s with
  | Err _ => None
  | Ok (kvs, _) => match List.find (fun kv => bool_decide (kv_key kv = key) && bool_decide (is_Some (kv_expires kv))) kvs with Some kv => kv_expires kv | None => None end
  end.

Record BlockDetail := mk_detail { bd_IP : gostring; bd_Blocked : bool; bd_Reason : gostring; bd_ExpiresAt : option Z; bd_Offenses : option Z }.

(** [BlockStatus]'s reason is empty when the key is absent. *)
Definition BlockStatus (get : gostring -> result (option gostring)) (ip : gostring) : result (gostring * bool) :=
  match get (BlockKey ip) with
  | Err e => Err e
  | Ok v => Ok (BlockReason (default [] v), bool_decide (is_Some v))
  end.

Definition offenses_of (v : result (option gostring)) : option Z :=
  match v with Ok (Some raw) => match ParseInt raw with Ok n => Some n | Err _ => None end | _ => None end.

Definition BlockDetailFor {S} (sc : Scanner S) (get : gostring -> result (option gostring)) (ip : gostring) (s : S) : result BlockDetail :=
  match BlockStatus get ip with
  | Err e => Err e
  | Ok (reason, blocked) =>
    Ok (mk_detail (canonIP ip) blocked reason (if blocked : bool then blockExpiry sc ip s else None) (offenses_of (get (blockCountKey (canonIP ip)))))
  end.

(** ** The commit of an unblock *)

(** An unblock that succeeds ran its commit to success, at some point of the
    run and on the contents of that point. *)
Lemma unblock_commits Rely ip rb gen1 gen2 now clk e c lo (m : amap) hi (m' : amap) out c' es own :
  interleaved Rely lo m (UnblockIP ip rb gen1 gen2 now clk e c) hi m' (out, Ok tt, c') es own ->
  exists at_ mc es1 own1, lo <= at_ /\ interleaved Rely at_ mc (Scoreboard.CommitUnblock (eg_board e) (canonIP ip) gen2 rb) hi m' (Ok tt) es1 own1.
Proof.
  unfold UnblockIP. intros Hr.
  apply interleaved_bind in Hr as (t1 & m1 & g & es1 & own1 & es2 & own2 & R1 & Hr & -> & ->).
  pose proof (interleaved_time _ _ _ _ _ _ _ _ _ (R1 t1 m1 (env_none _ _ _ _ (Z.le_refl _)))) as T1.
  apply interleaved_bind in Hr as (t2 & m2 & h & es3 & own3 & es4 & own4 & R2 & Hr & -> & ->).
  pose proof (interleaved_time _ _ _ _ _ _ _ _ _ (R2 t2 m2 (env_none _ _ _ _ (Z.le_refl _)))) as T2.
  apply interleaved_bind in Hr as (t3 & m3 & r & es5 & own5 & es6 & own6 & R3 & Hr & -> & ->).
  pose proof (interleaved_time _ _ _ _ _ _ _ _ _ (R3 t3 m3 (env_none _ _ _ _ (Z.le_refl _)))) as T3.
  apply interleaved_bind in Hr as (t4 & m4 & d & es7 & own7 & es8 & own8 & R4 & Hr & -> & ->).
  destruct Hr as (He & Heq & _ & _). injection Heq as _ <- _. exists t3, m3, es7, own7. split; [lia |]. by apply R4.
Qed.

(** ** The reset on the contract *)
(** A counter of the host is in the overload sketch when its delete returns. *)
Definition sketched (c : CounterCache) (ip host : gostring) (at1 at2 : Z) : bool :=
  (0 <? overflowCountLocked hash (escalationKey escalationPrefix host ip) at1 c) ||
  (0 <? overflowCountLocked hash (escalationKey frameEscalationPrefix host ip) at2 c).
Fixpoint left_over (ip : gostring) (hosts : list gostring) (clk : nat -> Z) (c : CounterCache) : bool :=
  match hosts with
  | [] => false
  | host :: rest => sketched c ip host (clk 0%nat) (clk 1%nat) || left_over ip rest (fun i => clk (2 + i)%nat) c
  end.

Lemma left_over_spec ip hosts c : forall clk, left_over ip hosts clk c = true <->
  exists i host, hosts !! i = Some host /\ sketched c ip host (clk (2 * i)%nat) (clk (2 * i + 1)%nat) = true.
Proof.
  induction hosts as [| host hosts IH]; intros clk; cbn [left_over]; [by split; [| intros (i & h & ? & ?)] |].
  rewrite orb_true_iff, IH. split.
  - intros [Hs | (i & h & Hi & Hs)]; [by exists 0%nat, host |]. exists (S i), h. split; [done |].
    replace (2 * S i)%nat with (2 + 2 * i)%nat by lia. done.
  - intros ([| i] & h & Hi & Hs); [left; by injection Hi as -> |]. right. exists i, h. split; [done |].
    replace (2 * S i)%nat with (2 + 2 * i)%nat in Hs by lia. done.
Qed.

(** The in-process counters of a host are gone. *)
Definition forgotten (c : CounterCache) (ip host : gostring) : Prop :=
  cc_m c !! escalationKey escalationPrefix host ip = None /\ cc_m c !! escalationKey frameEscalationPrefix host ip = None.

Lemma left_over_overflow ip hosts c c' : cc_overflow c' = cc_overflow c -> forall clk, left_over ip hosts clk c' = left_over ip hosts clk c.
Proof. intros E. induction hosts as [| host hosts IH]; intros clk; cbn [left_over]; [done |]. unfold sketched, overflowCountLocked. by rewrite E, IH. Qed.

Lemma run_reset_hosts ip hosts : forall clk out c tm (m : amap), exists m' keys c',
  run (reset_hosts ip hosts clk out c) tm m =
    (m', [], (mk_reset (ur_EventKeys out) (ur_EscalationKeys out + keys) (ur_BackoffReset out) (ur_Incomplete out || left_over ip hosts clk c), c')) /\
  0 <= keys <= 2 * Z.of_nat (length hosts) /\ (keys = 2 * Z.of_nat (length hosts) <-> left_over ip hosts clk c = false) /\
  (forall k, m !! k = None -> m' !! k = None) /\ (forall k, cc_m c !! k = None -> cc_m c' !! k = None) /\
  (forall host, host ∈ hosts -> m' !! escalationKey escalationPrefix host ip = None /\ m' !! escalationKey frameEscalationPrefix host ip = None /\ forgotten c' ip host).
Proof.
  induction hosts as [| host hosts IH]; intros clk out c tm m; cbn [reset_hosts run exec_op contract_ops st_delete left_over].
  - exists m, 0, c. destruct out. cbn. rewrite Z.add_0_r, orb_false_r. split_ands; try done; by intros host ?%not_elem_of_nil.
  - unfold spec_delete. cbn [fst snd].
    pose proof (reset_escalation_reports_truth hash host ip (Ok tt) (Ok tt) (clk 0%nat) (clk 1%nat) c) as Hrep.
    destruct (ResetEscalation _ _ _ _ _ _ _ _) as [[n ok] c1]. destruct Hrep as (Hf1 & Hf2 & Hover & Habs & Hn & Hok & Htruth).
    assert (Hsk : sketched c ip host (clk 0%nat) (clk 1%nat) = negb ok).
    { unfold sketched. destruct ok; cbn [negb].
      - destruct (proj1 Htruth eq_refl) as (_ & _ & Q1 & Q2). apply orb_false_iff. split; apply Z.ltb_ge; lia.
      - apply orb_true_iff. rewrite !Z.ltb_lt. destruct (decide (0 < overflowCountLocked hash (escalationKey escalationPrefix host ip) (clk 0%nat) c)); [by left |].
        destruct (decide (0 < overflowCountLocked hash (escalationKey frameEscalationPrefix host ip) (clk 1%nat) c)); [by right |].
        exfalso. assert (false = true) by (apply Htruth; split_ands; [done | done | lia | lia]). done. }
    edestruct (IH (fun i => clk (2 + i)%nat)) as (m' & keys & c' & Hr & Hk & Hall & Hkeep & Hkc & Hgone). rewrite Hr.
    rewrite (left_over_overflow ip hosts c c1 Hover) in Hall |- *. rewrite Hsk.
    exists m', (n + keys), c'. split_ands; try (cbn [length]; lia).
    + do 2 f_equal. destruct ok; cbn [negb orb incomplete add_escalation_keys ur_EventKeys ur_EscalationKeys ur_BackoffReset ur_Incomplete];
        rewrite ?orb_true_r, Z.add_assoc; done.
    + cbn [length]. destruct ok; cbn [negb orb].
      * assert (n = 2) as -> by (by apply Hok). rewrite <- Hall. lia.
      * assert (n <> 2) by (intros Hn2; by apply Hok in Hn2). split; [lia | done].
    + intros k Hm. apply Hkeep. rewrite !lookup_delete_None. by right; right.
    + intros k Hc. by apply Hkc, Habs.
    + intros h [-> | Hin]%elem_of_cons; [| by apply Hgone].
      split_ands; [apply Hkeep; rewrite !lookup_delete_None; right; by left | apply Hkeep; rewrite !lookup_delete_None; by left |].
      split; by apply Hkc.
Qed.

Lemma run_reset_block_counters ip g now clk e snap c tm (m : amap) : eg_snap e = Some snap -> is_Some (eg_pow e) -> canonIP ip = ip ->
  let hosts := (escalationHosts (sn_cfg snap) ip (eg_recent e)).1 in
  exists m' out c', run (resetBlockCounters ip (Some g) now clk e no_reset c) tm m = (m', [], (out, c')) /\
    (forall k, m !! k = None -> m' !! k = None) /\
    (forall host, host ∈ hosts -> m' !! escalationKey escalationPrefix host ip = None /\ m' !! escalationKey frameEscalationPrefix host ip = None /\ forgotten c' ip host) /\
    (forall w k, w ∈ BehaviourWindows (sn_cfg snap) -> eligible w = true -> k ∈ reset_keys ip g now w -> m' !! k = None) /\
    ur_BackoffReset out = false /\ 0 <= ur_EscalationKeys out <= 2 * Z.of_nat (length hosts) /\
    (ur_EscalationKeys out = 2 * Z.of_nat (length hosts) <-> left_over ip hosts clk c = false) /\
    ur_Incomplete out = (escalationHosts (sn_cfg snap) ip (eg_recent e)).2 || left_over ip hosts clk c.
Proof.
  intros Hs [verify Hp] Hip hosts. unfold resetBlockCounters. rewrite Hs, Hp. unfold ResetEventCounters. rewrite Hip.
  split_run. split_run.
  destruct (run_reset_windows ip g now (BehaviourWindows (sn_cfg snap)) 0 0 tm m) as (m1 & Hr1 & Hk1 & Hg1). rewrite Hr1. cbn [run fst snd app].
  unfold hosts. destruct (escalationHosts _ _ _) as [hs truncated]. cbn [fst snd]. split_run.
  destruct (run_reset_hosts ip hs clk (with_event_keys (0 + 3 * Z.of_nat (length (List.filter eligible (BehaviourWindows (sn_cfg snap))))) no_reset) c tm0 m1)
    as (m2 & keys & c2 & Hr2 & Hb2 & Hall2 & Hk2 & _ & Hg2).
  rewrite Hr2. destruct truncated; cbn [run fst snd app]; exists m2; eexists _, c2; (split; [reflexivity |]);
    (split; [by auto |]); (split; [exact Hg2 |]); (split; [intros w k Hw He Hin; apply Hk2; eapply Hg1; [by apply list_elem_of_In | done | done] |]);
    (split; [reflexivity |]); cbn [incomplete ur_EscalationKeys ur_Incomplete with_event_keys no_reset orb]; (split; [lia |]); (split; [exact Hall2 | done]).
Qed.

Lemma run_commit_unblock s ip gen rb tm (m : amap) : 0 < sb_unblockHold s -> canonIP ip = ip -> exists m',
  run (Scoreboard.CommitUnblock s ip gen rb) tm m = (m', match ParseAddr ip with Some a => [EnforceNotify a [] 0 true] | None => [] end, Ok tt) /\
  m' !! BlockKey ip = None /\ (rb = true -> m' !! blockCountKey ip = None) /\
  (forall k, k <> unblockHoldKey ip -> k <> unblockGenKey ip -> m !! k = None -> m' !! k = None).
Proof.
  intros Hs Hip. unfold Scoreboard.CommitUnblock. rewrite Hip, (proj2 (Z.leb_gt _ _)) by done.
  cbn [run exec_op contract_ops st_commit_unblock]. unfold spec_commit_unblock, unblock_commit, notifyEnforcer.
  cbn [uc_HoldKey uc_HoldValue uc_HoldTTL uc_GenerationKey uc_Generation uc_GenerationTTL uc_BlockKey uc_CounterKey uc_ResetBackoff].
  set (m2 := <[unblockGenKey ip := _]> _).
  exists (if rb then delete (blockCountKey ip) (delete (BlockKey ip) m2) else delete (BlockKey ip) m2).
  split; [by destruct (ParseAddr ip) |]. split; [| split].
  - destruct rb; rewrite ?lookup_delete_None; rewrite ?lookup_delete_eq; auto.
  - intros ->. by rewrite lookup_delete_eq.
  - intros k Hh Hg Hm. assert (m2 !! k = None) by (unfold m2; by rewrite !lookup_insert_ne by done).
    destruct rb; rewrite !lookup_delete_None; auto.
Qed.
End Operator.

(** ** Hosts *)
Section Hosts.
Context `{Unicode}.

Lemma add_hosts_spec raws : forall hosts, NoDup hosts -> (length hosts <= maxEscalationResetHosts)%nat -> [] ∉ hosts ->
  let out := add_hosts raws hosts in
  NoDup out.1 /\ (length out.1 <= maxEscalationResetHosts)%nat /\ [] ∉ out.1 /\ hosts ⊆ out.1 /\
  (forall h, h ∈ out.1 -> h ∈ hosts \/ exists raw, raw ∈ raws /\ NormalizeHost raw = h) /\
  (out.2 = false -> forall raw, raw ∈ raws -> NormalizeHost raw <> [] -> NormalizeHost raw ∈ out.1) /\
  (out.2 = true -> length out.1 = maxEscalationResetHosts).
Proof.
  induction raws as [| raw raws IH]; intros hosts Hn Hl Hne; cbn [add_hosts]; cbn zeta.
  - cbn [fst snd]. split_ands; try done; [by left | by intros _ raw ?%not_elem_of_nil].
  - destruct (bool_decide (NormalizeHost raw = []) || bool_decide (NormalizeHost raw ∈ hosts)) eqn:Eskip.
    + destruct (IH hosts Hn Hl Hne) as (R1 & R2 & R3 & R4 & R5 & R6 & R7). split_ands; try done.
      * intros h Hh. destruct (R5 h Hh) as [| (r & Hr & <-)]; [by left | right]. exists r. split; [by right | done].
      * intros Ht r [-> | Hr]%elem_of_cons Hnil; [| by apply R6]. apply orb_true_iff in Eskip as [E | E]; apply bool_decide_eq_true in E; [done | by apply R4].
    + apply orb_false_iff in Eskip as [E1 E2]. apply bool_decide_eq_false in E1, E2. destruct (_ <=? _)%nat eqn:El.
      * apply Nat.leb_le in El. cbn [fst snd]. split_ands; try done; [by left | lia].
      * apply Nat.leb_gt in El. destruct (IH (hosts ++ [NormalizeHost raw])) as (R1 & R2 & R3 & R4 & R5 & R6 & R7).
        { apply NoDup_app. split_ands; [done | | apply NoDup_singleton]. by intros x Hx ->%list_elem_of_singleton. }
        { rewrite length_app. cbn. lia. }
        { rewrite elem_of_app, list_elem_of_singleton. intros [|]; by subst. }
        split_ands; try done; [set_solver | |].
        -- intros h Hh. destruct (R5 h Hh) as [[|]%elem_of_app | (r & Hr & <-)]; [by left | right; exists raw | right; exists r].
           ++ split; [left | symmetry; by apply list_elem_of_singleton].
           ++ split; [by right | done].
        -- intros Ht r [-> | Hr]%elem_of_cons Hnil; [apply R4; set_solver | by apply R6].
Qed.

(** A row of the ring is the client's under any spelling of its address. *)
Lemma sameIP_canon ip form : canonIP form = canonIP ip -> sameIP (canonIP ip) form = true.
Proof.
  intros Hc. unfold sameIP. rewrite <- Hc. unfold canonIP. destruct (ParseAddr form) as [a |] eqn:Ea; [| by rewrite bool_decide_eq_true_2].
  destruct (Unmap_ok a (ParseAddr_ok _ _ Ea)) as [Hok Hn]. rewrite (ParseAddr_String _ Hok Hn). apply orb_true_iff. right. by apply bool_decide_eq_true_2.
Qed.
End Hosts.

(** ** Scans of the in-process store *)

(** The backend's capabilities at one clock; [order] visits the index. *)
Definition memory_scanner (order : list gostring) (t : clock) : Scanner Memory.ShardedMemory :=
  mk_scanner _ (Some (fun prefix limit s => (Memory.ScanActiveBlocks t order prefix limit s).2)) (Some (Memory.ScanLimit t)) (Memory.Scan t).

Lemma gather_spec prefix now (m : gmap gostring entry) kv :
  kv ∈ Memory.gather prefix now m <-> has_prefix prefix (kv_key kv) = true /\ liveo now (m !! kv_key kv) = Some (mk_entry (kv_value kv) (kv_expires kv)).
Proof.
  unfold Memory.gather, liveo. rewrite list_elem_of_fmap. split.
  - intros ([k e] & -> & Hin). apply list_elem_of_filter in Hin as [Hf Hin]. apply elem_of_map_to_list in Hin. cbn in *.
    apply andb_true_iff in Hf as [Hp Hx]. apply negb_true_iff in Hx. rewrite Hin, Hx. by destruct e.
  - intros [Hp Hl]. destruct (m !! kv_key kv) as [e |] eqn:Em; [| done]. destruct (expired e now) eqn:Ex; [done |].
    exists (kv_key kv, e). injection Hl as ->. split; [by destruct kv |]. apply list_elem_of_filter. cbn. rewrite Hp, Ex. split; [done |]. by apply elem_of_map_to_list.
Qed.

(** What [ScanLimit] sorts: the live entries under the prefix. *)
Lemma scan_spec now t prefix s m kv : Memory.mem_reach now s m -> now <= t 0%nat ->
  kv ∈ (Memory.sm_shards s ≫= Memory.gather prefix (t 0%nat)) ++ Memory.gather prefix (t 0%nat) (Memory.sm_central s) <->
  has_prefix prefix (kv_key kv) = true /\ live (t 0%nat) m (kv_key kv) = Some (mk_entry (kv_value kv) (kv_expires kv)).
Proof.
  intros Hreach Ht. destruct (Memory.mem_reach_inv _ _ _ Hreach) as [[Hwf HR] _]. rewrite <- (HR _ (t 0%nat) Ht). unfold Memory.phys.
  rewrite elem_of_app, gather_spec, list_elem_of_bind. split.
  - intros [(sh & Hin & Hsh) | [Hp Hl]].
    + apply gather_spec in Hin as [Hp Hl]. split; [done |]. apply list_elem_of_lookup in Hsh as [i Hi].
      assert (Hs : is_Some (sh !! kv_key kv)) by (destruct (sh !! kv_key kv); [by eexists | done]).
      destruct (Memory.wf_shard s Hwf i sh _ Hi Hs) as [Hc Hidx]. unfold Memory.shardFor. by rewrite Hc, Hidx, Hi.
    + split; [done |]. assert (Hs : is_Some (Memory.sm_central s !! kv_key kv)) by (destruct (Memory.sm_central s !! kv_key kv); [by eexists | done]).
      by rewrite (Memory.wf_central s Hwf _ Hs).
  - intros [Hp Hl]. destruct (isCentral (kv_key kv)); [by right |]. left. unfold Memory.shardFor in Hl.
    destruct (Memory.sm_shards s !! Memory.shard_index s (kv_key kv)) as [sh |] eqn:Esh; [| cbn in Hl; by rewrite lookup_empty in Hl].
    exists sh. split; [by apply gather_spec | by eapply list_elem_of_lookup_2].
Qed.

(** The expiry read off a scan that starts at the key if it is there. *)
Lemma find_expiry (l : list KV) (key : gostring) (o : option entry) :
  (forall kv, kv ∈ l -> kv_key kv = key -> o = Some (mk_entry (kv_value kv) (kv_expires kv))) ->
  (is_Some o -> exists kv rest, l = kv :: rest /\ kv_key kv = key) ->
  match List.find (fun kv => bool_decide (kv_key kv = key) && bool_decide (is_Some (kv_expires kv))) l with Some kv => kv_expires kv | None => None end =
  match o with Some e => e_expires e | None => None end.
Proof.
  intros Hin Hhead. destruct (List.find _ l) as [kv |] eqn:Ef.
  - apply List.find_some in Ef as [Hkv Hk]. apply andb_true_iff in Hk as [Hk _]. apply bool_decide_eq_true in Hk.
    apply list_elem_of_In in Hkv. by rewrite (Hin kv Hkv Hk).
  - destruct o as [e |]; [| done]. destruct (Hhead ltac:(by eexists)) as (kv & rest & -> & Hk). cbn [List.find] in Ef.
    assert (Hkv : kv ∈ kv :: rest) by left. pose proof (Hin kv Hkv Hk) as He. injection He as ->. cbn [e_expires].
    rewrite bool_decide_eq_true_2 in Ef by done. cbn [andb] in Ef. by destruct (kv_expires kv).
Qed.

(** * Properties *)

(** C6: After UnblockIP succeeds, a block admitted before its commit changes
    nothing for the retention of the generation, and no event or block of the
    client counts while the hold lasts, under any interference. *)
Theorem unblock_ip_fences_scoring `{Unicode, Waf.Regexp, Intel.GeoDB} hash ip rb gen1 gen2 now clk e c lo (m : amap) mid (m1 : amap) out c' es own v :
  let s := eg_board e in
  let rely := fun o => gen_rely (canonIP ip) v o /\ hold_rely s (canonIP ip) o in
  0 < sb_unblockHold s -> gen2 <> v ->
  interleaved rely lo m (UnblockIP hash ip rb gen1 gen2 now clk e c) mid m1 (out, Ok tt, c') es own ->
  exists committed, lo <= committed <= mid /\
  (forall reason ttl mx token hi m2 r es2 own2, hi <= committed + unblockGenRetention ->
     interleaved rely mid m1 (Block_admitted (canonIP ip) reason ttl mx token v) hi m2 r es2 own2 -> inert es2 own2) /\
  (forall form n evtype limit window bttl mx token hi m2 r es2 own2, canonIP form = canonIP ip -> hi <= committed + sb_unblockHold s ->
     interleaved rely mid m1 (RecordEvent s n form evtype limit window bttl mx token) hi m2 r es2 own2 -> inert es2 own2 /\ r.1 = false) /\
  (forall form reason ttl mx token hi m2 r es2 own2, canonIP form = canonIP ip -> hi <= committed + sb_unblockHold s ->
     interleaved rely mid m1 (Block s form reason ttl mx token) hi m2 r es2 own2 -> inert es2 own2).
Proof.
  intros s rely Hs Hg Hr. apply unblock_commits in Hr as (at_ & mc & es1 & own1 & Hlo & Hc). fold s in Hc.
  pose proof (interleaved_time _ _ _ _ _ _ _ _ _ Hc) as Ht.
  assert (Hrot : gen_rotated (canonIP ip) v (at_ + unblockGenRetention) m1).
  { rewrite <- (canonIP_idem ip). eapply commit_unblock_rotates; [exact Hs | exact Hg |].
    eapply interleaved_mono; [| exact Hc]. intros o [Ho _]. by rewrite canonIP_idem. }
  assert (Hheld : on_hold (canonIP ip) (at_ + sb_unblockHold s) m1).
  { rewrite <- (canonIP_idem ip). eapply commit_unblock_holds; [exact Hs |].
    eapply interleaved_mono; [| exact Hc]. intros o [_ Ho]. by rewrite canonIP_idem. }
  exists at_. split; [lia |]. split; [| split].
  - intros reason ttl mx token hi m2 r es2 own2 Hhi Hb. apply (interleaved_mono _ (gen_rely (canonIP ip) v)) in Hb; [| by intros o []].
    apply (stale_block_refused _ _ _ _ _ _ (at_ + unblockGenRetention)) in Hb; [exact Hb | exact Hrot | done | lia].
  - intros form n evtype limit window bttl mx token hi m2 r es2 own2 Hf Hhi Hb. apply (interleaved_mono _ (hold_rely s (canonIP ip))) in Hb; [| by intros o []].
    by eapply record_event_on_hold; [exact Hs | exact Hf | exact Hheld | | | exact Hb]; lia.
  - intros form reason ttl mx token hi m2 r es2 own2 Hf Hhi Hb. apply (interleaved_mono _ (hold_rely s (canonIP ip))) in Hb; [| by intros o []].
    by eapply block_on_hold; [exact Hs | exact Hf | exact Hheld | | | exact Hb]; lia.
Qed.

(** C7: On an undisturbed store UnblockIP succeeds, removes the block, the
    event counters of every configured window, the escalation counters of
    every collected host, shared and in-process, and, when asked, the offense
    count, and reports incomplete exactly when hosts were left out or a
    counter of a collected host was in the overload sketch, which no reset
    empties. *)
Theorem unblock_ip_clears `{Unicode, Waf.Regexp, Intel.GeoDB} hash ip rb gen1 gen2 now clk e c tm (m : amap) snap
  (Hsnap : eg_snap e = Some snap) (Hpow : is_Some (eg_pow e)) (Hhold : 0 < sb_unblockHold (eg_board e)) :
  let generation := match live (tm 0%nat 0%nat) m (unblockGenKey (canonIP ip)) with Some g => e_value g | None => [] end in
  let '(hosts, truncated) := escalationHosts (sn_cfg snap) (canonIP ip) (eg_recent e) in
  exists m' out c',
    run (UnblockIP hash ip rb gen1 gen2 now clk e c) tm m =
      (m', match ParseAddr (canonIP ip) with Some a => [EnforceNotify a [] 0 true] | None => [] end, (out, Ok tt, c')) /\
    m' !! BlockKey ip = None /\ (rb = true -> m' !! blockCountKey (canonIP ip) = None) /\
    (forall host prefix, host ∈ hosts -> prefix = escalationPrefix \/ prefix = frameEscalationPrefix ->
       m' !! escalationKey prefix host (canonIP ip) = None /\ cc_m c' !! escalationKey prefix host (canonIP ip) = None) /\
    (forall w k, w ∈ BehaviourWindows (sn_cfg snap) -> eligible w = true -> k ∈ reset_keys (canonIP ip) generation now w -> m' !! k = None) /\
    ur_BackoffReset out = rb /\ 0 <= ur_EscalationKeys out <= 2 * Z.of_nat (length hosts) /\
    (ur_Incomplete out = true <-> truncated = true \/
       exists i host, hosts !! i = Some host /\
         (0 < overflowCountLocked hash (escalationKey escalationPrefix host (canonIP ip)) (clk (2 * i)%nat) c \/
          0 < overflowCountLocked hash (escalationKey frameEscalationPrefix host (canonIP ip)) (clk (2 * i + 1)%nat) c)).
Proof.
  set (ip' := canonIP ip). assert (Hip : canonIP ip' = ip') by apply canonIP_idem. assert (Hbk : BlockKey ip = BlockKey ip') by (by rewrite !BlockKey_canon, Hip).
  cbn zeta. destruct (escalationHosts (sn_cfg snap) ip' (eg_recent e)) as [hosts truncated] eqn:Ehosts.
  unfold UnblockIP. fold ip'. unfold unblockToken, HoldUnblock. rewrite (proj2 (Z.leb_gt _ _)) by done. rewrite Hip.
  split_run. cbn [run exec_op contract_ops st_get]. unfold spec_get. cbn [fst snd run app].
  replace (match e_value <$> live (tm 0%nat 0%nat) m (unblockGenKey ip') with Some g => g | None => [] end)
    with (match live (tm 0%nat 0%nat) m (unblockGenKey ip') with Some x => e_value x | None => [] end) by (by destruct (live _ _ _)).
  set (g := match _ with Some g => _ | None => _ end). clearbody g.
  split_run. cbn [run exec_op contract_ops st_set spec_set fst snd app].
  split_run.
  match goal with |- context [run (resetBlockCounters _ _ _ _ _ _ _ _) ?t ?x] =>
    destruct (run_reset_block_counters hash ip' g now clk e snap c t x Hsnap Hpow Hip) as (m1 & out & c1 & -> & _ & He & Hw & Hb & Hk & _ & Hi) end.
  rewrite Ehosts in He, Hk, Hi. cbn [fst snd] in He, Hk, Hi. split_run.
  match goal with |- context [run (Scoreboard.CommitUnblock _ _ _ _) ?t ?x] => destruct (run_commit_unblock (eg_board e) ip' gen2 rb t x Hhold Hip) as (m2 & -> & Hblock & Hcnt & Hkeep) end.
  cbn [run app]. exists m2, (if rb then with_backoff_reset true out else out), c1. rewrite Hbk.
  split; [by rewrite app_nil_r; destruct rb |]. split; [done |]. split; [done |].
  assert (Hne : forall k, m1 !! k = None -> has_prefix (lit "unblk") k = false -> m2 !! k = None).
  { intros k Hm Hp. apply Hkeep; [intros -> | intros -> |done]; discriminate Hp. }
  split; [| split; [| split; [by destruct rb | split; [by destruct rb |]]]].
  - intros host prefix Hin Hprefix. destruct (He host Hin) as (Q1 & Q2 & Q3 & Q4). destruct Hprefix as [-> | ->]; (split; [by apply Hne | done]).
  - intros w k Hw' Hel Hin. apply Hne; [by eapply Hw |]. unfold reset_keys in Hin. by apply list_elem_of_fmap in Hin as (b & -> & _).
  - assert (Hinc : ur_Incomplete (if rb then with_backoff_reset true out else out) = ur_Incomplete out) by (by destruct rb).
    rewrite Hinc, Hi, orb_true_iff, (left_over_spec hash). unfold sketched. setoid_rewrite orb_true_iff. by setoid_rewrite Z.ltb_lt.
Qed.

(** *)
Theorem escalation_hosts_exact `{Unicode} cfg ip ring :
  let '(hosts, truncated) := escalationHosts cfg (canonIP ip) ring in
  NoDup hosts /\ (length hosts <= 128)%nat /\ [] ∉ hosts /\
  (truncated = true -> length hosts = 128%nat) /\
  (forall h, h ∈ hosts -> exists raw, NormalizeHost raw = h /\
     (is_Some (c_resolved cfg !! raw) \/ exists d, d ∈ list_recent 0 ring /\ sameIP (canonIP ip) (re_IP d) = true /\ re_Host d = raw)) /\
  (truncated = false ->
     (forall raw, is_Some (c_resolved cfg !! raw) -> NormalizeHost raw <> [] -> NormalizeHost raw ∈ hosts) /\
     (forall d, d ∈ list_recent 0 ring -> canonIP (re_IP d) = canonIP ip -> NormalizeHost (re_Host d) <> [] -> NormalizeHost (re_Host d) ∈ hosts)).
Proof.
  unfold escalationHosts. set (rows := List.filter _ _).
  pose proof (add_hosts_spec (map re_Host rows ++ configured_hosts cfg) [] NoDup_nil_2 ltac:(cbn; lia) (not_elem_of_nil _)) as Hs.
  destruct (add_hosts _ _) as [hosts truncated]. cbn [fst snd] in Hs. destruct Hs as (S1 & S2 & S3 & _ & S4 & S5 & S6).
  assert (Hcfg : forall raw, raw ∈ configured_hosts cfg <-> is_Some (c_resolved cfg !! raw)).
  { intros raw. unfold configured_hosts. rewrite (merge_sort_Permutation bytes_le). rewrite list_elem_of_fmap. split.
    - intros ([k d] & -> & Hin). apply elem_of_map_to_list in Hin. by eexists.
    - intros [d Hd]. exists (raw, d). split; [done | by apply elem_of_map_to_list]. }
  split_ands; try done.
  - intros h Hh. destruct (S4 h Hh) as [Hn | (raw & Hr & <-)]; [by apply not_elem_of_nil in Hn |]. exists raw. split; [done |].
    apply elem_of_app in Hr as [Hr | Hr]; [right | left; by apply Hcfg].
    apply list_elem_of_fmap in Hr as (d & -> & Hd). exists d. unfold rows in Hd. apply list_elem_of_In, filter_In in Hd as [Hd Hsame].
    split_ands; [by apply list_elem_of_In | done | done].
  - intros Ht. split; [intros raw Hraw; apply S5; [done |]; apply elem_of_app; right; by apply Hcfg |].
    intros d Hd Hc. apply S5; [done |]. apply elem_of_app. left. apply list_elem_of_fmap. exists d. split; [done |].
    apply list_elem_of_In, filter_In. split; [by apply list_elem_of_In | by apply sameIP_canon].
Qed.

(** On the in-process store the expiry reported for a block is exactly
    that of the live entry under the very key, however many other blocked
    addresses extend it. *)
Theorem block_expiry_exact order now t ip s m :
  Memory.mem_reach now s m -> now <= t 0%nat -> canonIP ip <> [] ->
  blockExpiry (memory_scanner order t) ip s = match live (t 0%nat) m (BlockKey ip) with Some e => e_expires e | None => None end.
Proof.
  intros Hreach Ht Hip. set (key := BlockKey ip). assert (Hne : key <> lit "block:").
  { unfold key. rewrite BlockKey_canon. intros Hk. apply Hip. by apply (app_inv_head (lit "block:") (canonIP ip) []). }
  unfold blockExpiry, scanBlocks, memory_scanner. cbn [sc_indexed].
  unfold Memory.ScanActiveBlocks. fold key. rewrite bool_decide_eq_false_2 by done. cbn [negb snd scan_fallback sc_limited]. unfold Memory.ScanLimit.
  pose proof (fun kv => scan_spec now t key s m kv Hreach Ht) as Hspec. set (found := _ ++ _) in *.
  assert (Hkey : forall kv, kv_key kv = key -> kv ∈ found -> live (t 0%nat) m key = Some (mk_entry (kv_value kv) (kv_expires kv))).
  { intros kv Hk Hin. apply Hspec in Hin as [_ Hl]. by rewrite Hk in Hl. }
  set (sorted := merge_sort Memory.kv_le found).
  assert (Hsorted : forall kv, kv ∈ sorted <-> kv ∈ found) by (intros kv; unfold sorted; by rewrite (merge_sort_Permutation Memory.kv_le)).
  assert (Hhead : forall kv rest, sorted = kv :: rest -> is_Some (live (t 0%nat) m key) -> kv_key kv = key).
  { intros kv rest Hrest [e He]. set (x := mk_kv key (e_value e) (e_expires e)).
    assert (Hx : x ∈ sorted) by (apply Hsorted, Hspec; split; [apply has_prefix_spec; exists []; by rewrite app_nil_r | cbn; rewrite He; by destruct e]).
    assert (Hkv : kv ∈ sorted) by (rewrite Hrest; left). apply Hsorted, Hspec in Hkv as [Hp _].
    apply bytes_leb_antisym.
    - pose proof (StronglySorted_merge_sort Memory.kv_le found) as Hs. fold sorted in Hs. rewrite Hrest in Hs, Hx.
      apply StronglySorted_inv in Hs as [_ Hall]. rewrite Forall_forall in Hall. apply elem_of_cons in Hx as [Hx | Hx]; [rewrite <- Hx; change (Memory.bytes_leb key key = true); by destruct (Memory.bytes_leb_total key key) |].
      exact (Hall x Hx).
    - apply has_prefix_spec in Hp as [r ->]. clear. induction key as [| c k IH]; [done |]. cbn. by rewrite Z.ltb_irrefl. }
  assert (Hfound : forall l kvs, l = take kvs sorted -> (is_Some (live (t 0%nat) m key) -> kvs <> 0%nat) ->
    match List.find (fun kv => bool_decide (kv_key kv = key) && bool_decide (is_Some (kv_expires kv))) l with Some kv => kv_expires kv | None => None end =
    match live (t 0%nat) m key with Some e => e_expires e | None => None end).
  { intros l n -> Hn. apply find_expiry.
    - intros kv Hkv Hk. apply Hkey; [done |]. apply Hsorted. apply elem_of_take in Hkv as (i & Hi & _). by eapply list_elem_of_lookup_2.
    - intros Hl. destruct sorted as [| kv rest] eqn:Es.
      + destruct Hl as [e He]. assert (Hx : mk_kv key (e_value e) (e_expires e) ∈ found)
          by (apply Hspec; split; [apply has_prefix_spec; exists []; by rewrite app_nil_r | cbn; rewrite He; by destruct e]).
        apply Hsorted in Hx. by apply not_elem_of_nil in Hx.
      + destruct n as [| n]; [by destruct (Hn Hl) |]. exists kv, (take n rest). split; [done |]. by eapply Hhead. }
  destruct (_ && _).
  - by apply (Hfound _ (Z.to_nat blockExpiryScanLimit)).
  - apply (Hfound _ (S (length sorted))); [by rewrite firstn_all2 by lia | done].
Qed.

(** ** A concrete unblock *)
Section Witnesses.
Import Ex.

(** A trailing dot is dropped once when the hosts are collected and once more
    in the counter's key, so the counter of a host with two is missed. *)
Theorem double_dot_host_escapes_reset :
  escalationKey escalationPrefix (NormalizeHost (lit "example.org..")) (lit "192.0.2.7") <>
  escalationKey escalationPrefix (lit "example.org..") (lit "192.0.2.7").
Proof. vm_compute. discriminate. Qed.

(** An event over its threshold counts as a block placed even when the block
    failed: the scoreboard answers [true] next to the store's error. *)
Theorem failed_block_counted_as_placed : exists (m' : amap) es own,
  interleaved (fun _ => True) 5 ∅ (RecordEvent NewScoreboard 5 demo_ip EventTamper 1 minute hour hour 7) 5 m' (true, Err (EBackend 1)) es own /\
  es = [] /\ m' !! BlockKey demo_ip = None.
Proof.
  assert (Hok : forall R (op : store_op R) (m : amap), contract_step 5 5 op m (spec_op (fun _ => 5) op m).2 (spec_op (fun _ => 5) op m).1)
    by (intros R op m; constructor; by apply ticks_const).
  assert (Hget : forall k (m : amap), m !! k = None -> contract_step 5 5 (StoreClient.OGet k) m (Ok None) m).
  { intros k m Hk. pose proof (Hok _ (StoreClient.OGet k) m) as Hc. cbn [spec_op] in Hc. unfold spec_get, live in Hc. by rewrite Hk in Hc. }
  set (ip := canonIP demo_ip). set (bump := spec_op (fun _ => 5) (StoreClient.OCommitEvent {| ec_CounterKey := eventKey EventTamper ip [] (eventBucket 5 minute);
    ec_CounterTTL := wrap64 (2 * minute); ec_HoldKey := unblockHoldKey ip |}) (∅ : amap)).
  assert (Hv : bump.2 = Ok {| er_Value := 1; er_Committed := true |}) by (vm_compute; reflexivity).
  assert (Hb : bump.1 !! BlockKey ip = None) by (vm_compute; reflexivity).
  assert (Hg : bump.1 !! unblockGenKey ip = None) by (vm_compute; reflexivity).
  assert (He : forall m : amap, env_run (fun _ => True) 5 m 5 m) by (intros m; constructor; lia).
  exists bump.1, [], [(∅, ∅); (∅, bump.1); (bump.1, bump.1); (bump.1, bump.1); (bump.1, bump.1)]. split; [| by split].
  change (RecordEvent NewScoreboard 5 demo_ip EventTamper 1 minute hour hour 7) with
    (bind (unblockToken NewScoreboard ip) (fun r => match r with Err e => Ret (false, Err e) | Ok g => RecordEvent_admitted NewScoreboard 5 ip EventTamper 1 minute hour hour 7 g end)).
  exists 5, 5, ∅, (Ok None), ∅, [(∅, bump.1); (bump.1, bump.1); (bump.1, bump.1); (bump.1, bump.1)].
  split; [apply He |]. split; [by apply Hget, lookup_empty |]. split; [done |].
  exists 5, 5, ∅, bump.2, bump.1, [(bump.1, bump.1); (bump.1, bump.1); (bump.1, bump.1)].
  split; [apply He |]. split; [apply Hok |]. split; [done |]. rewrite Hv.
  change (interleaved (fun _ => True) 5 bump.1 (bind (Block NewScoreboard ip (lit "threshold:" ++ EventTamper) hour hour 7) (fun e => Ret (true, e))) 5 bump.1
    (true, Err (EBackend 1)) [] [(bump.1, bump.1); (bump.1, bump.1); (bump.1, bump.1)]).
  exists 5, 5, bump.1, (Ok None), bump.1, [(bump.1, bump.1); (bump.1, bump.1)].
  split; [apply He |]. split; [by apply Hget |]. split; [done |].
  exists 5, 5, bump.1, (Ok None), bump.1, [(bump.1, bump.1)].
  split; [apply He |]. split; [by apply Hget |]. split; [done |].
  exists 5, 5, bump.1, (Err (EBackend 1)), bump.1, [].
  split; [apply He |]. split; [constructor; lia |]. split; [reflexivity |]. split; [apply He |]. repeat split; reflexivity.
Qed.

Definition demo_prog : prog (UnblockReset * result unit * CounterCache) :=
  UnblockIP ex_hash demo_ip true (lit "cc") (lit "bb") 5 (fun _ => 5) (engine true) empty_cache.
Definition demo_before : amap := <[BlockKey demo_ip := mk_entry (lit "threshold:tamper") None]> demo_stale.
Definition demo_after : amap := (run demo_prog (fun _ _ => 5) demo_before).1.1.
Definition demo_effects : list effect := (run demo_prog (fun _ _ => 5) demo_before).1.2.

Theorem unblock_ip_fences_scoring_witness :
  let '(_, es, r) := run demo_event (fun _ _ => 5) demo_after in
  r = (false, Ok tt) /\ inert es (trace demo_event 5 demo_after).
Proof.
  set (out := (run demo_prog (fun _ _ => 5) demo_before).2.1.1).
  set (c := (run demo_prog (fun _ _ => 5) demo_before).2.2).
  pose (rely := fun o => gen_rely (canonIP demo_ip) (lit "aa") o /\ hold_rely NewScoreboard (canonIP demo_ip) o).
  assert (Hr : (run demo_prog (fun _ _ => 5) demo_before).2 = (out, Ok tt, c)) by (vm_compute; reflexivity).
  pose proof (run_interleaved_result rely demo_prog 5 demo_before _ Hr) as R1.
  assert (Hg : lit "bb" <> lit "aa") by discriminate.
  destruct (unblock_ip_fences_scoring ex_hash demo_ip true (lit "cc") (lit "bb") 5 (fun _ => 5) (engine true) empty_cache
    _ _ _ _ _ _ _ _ (lit "aa") eq_refl Hg R1) as (at_ & Hat & _ & Hev & _).
  assert (Hr2 : (run demo_event (fun _ _ => 5) demo_after).2 = (false, Ok tt)) by (vm_compute; reflexivity).
  pose proof (run_interleaved_result rely demo_event 5 demo_after _ Hr2) as R2.
  destruct (run demo_event (fun _ _ => 5) demo_after) as [[m2 es] r] eqn:E. split; [exact Hr2 |].
  destruct (Hev (lit "::ffff:203.0.113.9") 5 (lit "tamper") 1 minute minute hour 7 5 m2 (false, Ok tt) es (trace demo_event 5 demo_after)
    ltac:(vm_compute; reflexivity)) as [Hi _]; [| exact R2 | exact Hi].
  assert (at_ = 5) as -> by lia. vm_compute. discriminate.
Defined.

(** A client seen on one host, whose unsolved issuances there are counted in
    the process, and once with an overflow of its key. *)
Definition seen_engine : Engine :=
  set_recent (add (mk_recent 5 (lit "example.org") demo_ip (lit "GET") (lit "/") [] (lit "deny") [] [] 0 0 [] 0 0 0) 5 (eg_recent (engine true))) (engine true).
Definition seen_key : gostring := escalationKey escalationPrefix (lit "example.org") (canonIP demo_ip).
Definition counted : CounterCache := (bump ex_hash escalationPrefix (lit "example.org") demo_ip hour 5 5 NewCounterCache).2.
Definition spilled : CounterCache := (incrOverflowLocked ex_hash seen_key 5 hour counted).2.
Definition unblocked (c : CounterCache) :=
  run (UnblockIP ex_hash demo_ip true (lit "cc") (lit "bb") 5 (fun _ => 5) seen_engine c) (fun _ _ => 5) demo_before.

Theorem unblock_ip_clears_witness :
  (unblocked counted).1.1 !! BlockKey demo_ip = None /\ (unblocked counted).1.1 !! blockCountKey (canonIP demo_ip) = None /\
  is_Some (cc_m counted !! seen_key) /\ cc_m (unblocked counted).2.2 !! seen_key = None /\
  ur_Incomplete (unblocked counted).2.1.1 = false /\ ur_Incomplete (unblocked spilled).2.1.1 = true.
Proof.
  assert (Hhosts : escalationHosts (sn_cfg (snap true)) (canonIP demo_ip) (eg_recent seen_engine) = ([lit "example.org"], false)) by (vm_compute; reflexivity).
  pose proof (fun c => unblock_ip_clears ex_hash demo_ip true (lit "cc") (lit "bb") 5 (fun _ => 5) seen_engine c (fun _ _ => 5) demo_before
    (snap true) eq_refl ltac:(eexists; reflexivity) eq_refl) as Hu. cbv zeta in Hu. rewrite Hhosts in Hu.
  destruct (Hu counted) as (m' & out & c' & Hrun & Hb & Hc & Hesc & _ & _ & _ & Hinc).
  destruct (Hu spilled) as (m2 & out2 & c2 & Hrun2 & _ & _ & _ & _ & _ & _ & Hinc2).
  unfold unblocked. rewrite Hrun, Hrun2. cbn [fst snd].
  split; [exact Hb | split; [exact (Hc eq_refl) | split; [vm_compute; eexists; reflexivity | split; [exact (proj2 (Hesc (lit "example.org") escalationPrefix ltac:(by left) ltac:(by left))) | split]]]].
  - apply not_true_is_false. intros Hi%Hinc. destruct Hi as [Hi | (i & host & Hi & Hn)]; [discriminate |].
    destruct i as [| i]; [| destruct i; discriminate]. injection Hi as <-. destruct Hn as [Hn | Hn]; vm_compute in Hn; discriminate.
  - apply Hinc2. right. exists 0%nat, (lit "example.org"). split; [reflexivity | left; vm_compute; reflexivity].
Defined.

Definition expiry_store : Memory.ShardedMemory := (Memory.Set_ (fun _ => 0) (BlockKey demo_ip) (lit "r") minute (Memory.NewShardedMemory 1)).1.
Definition expiry_map : amap := (spec_set (fun _ => 0) (BlockKey demo_ip) (lit "r") minute ∅).1.

Theorem block_expiry_exact_witness : blockExpiry (memory_scanner [BlockKey demo_ip] (fun _ => 5)) demo_ip expiry_store = Some minute.
Proof.
  assert (Hreach : Memory.mem_reach 0 expiry_store expiry_map).
  { apply (Memory.reach_op 0 0 (fun _ => 0) (Memory.OSet (BlockKey demo_ip) (lit "r") minute) (Memory.NewShardedMemory 1) ∅);
      [by apply Memory.reach_new | by apply ticks_const | done | done]. }
  rewrite (block_expiry_exact [BlockKey demo_ip] 0 (fun _ => 5) demo_ip expiry_store expiry_map Hreach); [vm_compute; reflexivity | discriminate | discriminate].
Defined.
End Witnesses.
