(* ===== verification/Server.v ===== *)
(** * The auth-path server (transport/http/server.go)

    The handlers Angie calls: the auth subrequest behind the admission bound,
    the challenge page, and the pass endpoint that redeems a solution.  Each is
    a function of the request and the server state, with the engine, the
    challenge manager and the counter caches of the other files inside; store
    writes are programs.  Metrics and log lines are left out; the attack detector's
    own counts are flags of the results: [pr_issued] and [pa_redeemed] are set
    exactly where the code calls [ChallengeIssued] and [ChallengeRedeemed]. *)

From S2P Require Export Http Engine PowStateless.
From S2P Require Import CounterCache.

Open Scope Z_scope.

(** ** State

    [sv_powCounters] is the manager's escalation cache.  [sv_lastCfg] is the
    configuration a closed engine still answers. *)
Record Server `{Waf.Regexp, Intel.GeoDB} := mk_server {
  sv_engine : Engine;
  sv_lastCfg : Config;
  sv_pow : option Manager;
  sv_counters : CounterCache;
  sv_powCounters : CounterCache;
  sv_argonInflight : Z
}.
Arguments mk_server {_ _}.

Definition PassPath : gostring := lit "/__guardian/pass".
Definition argonWorkerURL : gostring := lit "/__guardian/assets/argon2id-worker-db57362e2dddfb66.js".
Definition argonWASMURL : gostring := lit "/__guardian/assets/argon2id-4507b469b9b103a5.wasm".
Definition CookieName : gostring := lit "guardian_token".
Definition ClockSkewAllowance : Z := statelessSkew.

(** [mime.ParseMediaType] of a Content-Type, [None] on error; the decoding of
    the posted body (at most 4096 bytes, unknown members rejected). *)
Record solution := mk_solution { sol_ChallengeID : gostring; sol_Nonce : gostring; sol_Proof : gostring; sol_ElapsedMS : Z }.
Class Wire := { ParseMediaType : gostring -> option gostring; decode_solution : gostring -> option solution }.

(** What the challenge page answers, and the challenge it issued. *)
Record page_result `{Waf.Regexp, Intel.GeoDB} := mk_page_result { pr_response : Response; pr_server : Server; pr_issued : option Challenge }.
Arguments mk_page_result {_ _}.

Section Server.
Context `{Unicode, Waf.Regexp, Intel.GeoDB, FloatToInt, Argon2, Signer, PayloadCodec, Wire}.
Variable score_detail : float -> gostring.
Variable hash : nat -> gostring -> Z.

Definition with_engine (e : Engine) (s : Server) : Server :=
  mk_server e (sv_lastCfg s) (sv_pow s) (sv_counters s) (sv_powCounters s) (sv_argonInflight s).
Definition with_counters (c : CounterCache) (s : Server) : Server :=
  mk_server (sv_engine s) (sv_lastCfg s) (sv_pow s) c (sv_powCounters s) (sv_argonInflight s).
Definition with_powCounters (c : CounterCache) (s : Server) : Server :=
  mk_server (sv_engine s) (sv_lastCfg s) (sv_pow s) (sv_counters s) c (sv_argonInflight s).
Definition with_argonInflight (n : Z) (s : Server) : Server :=
  mk_server (sv_engine s) (sv_lastCfg s) (sv_pow s) (sv_counters s) (sv_powCounters s) n.

(** [engine.Config()]. *)
Definition live_config (s : Server) : Config :=
  match eg_snap (sv_engine s) with Some snap => sn_cfg snap | None => sv_lastCfg s end.

(** [require_proxied]: the rejection, when the request did not come through Angie. *)
Definition proxiedOnly (cfg : Config) (r : Request) : option Response :=
  if c_RequireProxied cfg && bool_decide (HGet (hr_Header r) hdrIP = [])
  then Some (http_Error [] (lit "direct access rejected: proxied requests required") StatusForbidden) else None.

(** ** The auth subrequest *)

(** [textproto.CanonicalMIMEHeaderKey]. *)
Fixpoint canonical_bytes (upper : bool) (s : gostring) : gostring :=
  match s with [] => [] | c :: r => (if upper then upper_byte c else lower_byte c) :: canonical_bytes (Ascii.eqb c "-"%char) r end.
Definition CanonicalHeaderKey (s : gostring) : gostring := if forallb tchar s then canonical_bytes true s else s.

Definition requestContext (r : Request) : RequestContext :=
  let h := hr_Header r in
  let host := headerOr r hdrHost (hr_Host r) in
  let header name := if EqualFold name (lit "host") then [host] else Values h (CanonicalHeaderKey name) in
  mk_req host (headerOr r hdrMethod (hr_Method r)) (headerOr r hdrURI (hr_RequestURI r)) (clientIP r)
    (headerOr r hdrUA (HGet h (lit "User-Agent"))) (headerOr r hdrCookie (HGet h (lit "Cookie")))
    (Some header) (negb (bool_decide (refusalKind h = []))).

(** The bound is exceeded by this request, the [current]-th in flight. *)
Definition over_bound (cfg : Config) (current : Z) : bool := (0 <? c_MaxInflight cfg) && (c_MaxInflight cfg <? current).

Definition shed_response (verdict : ShedVerdict) (reason : gostring) : Response :=
  let headers action := [("X-Guardian-Reason"%string, reason); ("X-Guardian-Action"%string, action)] in
  match verdict with
  | ShedPass => respond StatusOK (headers (lit "allow")) NoBody
  | ShedDeny => respond StatusForbidden (headers (lit "deny")) NoBody
  | ShedReject => respond StatusForbidden (headers (lit "shed")) NoBody
  end.

Definition decision_response (h : Header) (d : Stateless.Decision) : Response :=
  let headers := [("X-Guardian-Action"%string, action_name (d_Action d)); ("X-Guardian-Reason"%string, d_Reason d)] ++
    (if bool_decide (d_PoWExemption d = []) then [] else [("X-Guardian-PoW-Exemption"%string, d_PoWExemption d)]) in
  match d_Action d with
  | Stateless.ActionAllow => respond StatusOK headers NoBody
  | Stateless.ActionChallenge =>
    respond StatusUnauthorized (headers ++ [("X-Guardian-Difficulty"%string, FormatInt (d_Difficulty d)); ("X-Guardian-Refusal"%string, refusalNone)]) NoBody
  | ActionRefuse => respond StatusUnauthorized (headers ++ [("X-Guardian-Refusal"%string, refusalKind h)]) NoBody
  | Stateless.ActionDeny => respond StatusForbidden headers NoBody
  end.

(** The response, the evaluation when the request was admitted, and the
    recording of its events. *)
Definition handleAuth (store : gostring -> result (option gostring)) (now : Z) (draws : nat -> event_draw) (current : Z) (r : Request) (s : Server)
  : Response * option evaluation * prog (list gostring) :=
  let req := requestContext r in
  if over_bound (live_config s) current then
    let '(verdict, reason) := ShedDecisionWithReason now req (sv_engine s) in
    (shed_response verdict reason, None, Ret [])
  else
    let '(ev, recorded) := Engine.Evaluate score_detail store now draws req (sv_engine s) in
    (decision_response (hr_Header r) (ou_decision ev), Some ev, recorded).

(** ** Rate limits *)
Definition limit_window (limit : Rate) : Z := Z.max (rt_Per limit) second.
Definition limit_seconds (limit : Rate) : Z := Z.quot (limit_window limit) second.

Definition limit_key (prefix host ip : gostring) (limit : Rate) (now : Z) : gostring :=
  prefix ++ ":"%char :: ToLower host ++ ":"%char :: ip ++ ":"%char :: FormatInt (Z.quot (Unix now) (limit_seconds limit)).

(** [now] builds the key; [at_] and [sweep] are the cache's own readings. *)
Definition rateLimitExceededAt (prefix host ip : gostring) (limit : Rate) (now at_ sweep : Z) (c : CounterCache) : bool * CounterCache :=
  let '(n, _, c) := CounterCache.Incr hash (limit_key prefix host ip limit now) (2 * limit_window limit) at_ sweep c in
  (rt_Count limit <? n, c).

Definition retry_after (limit : Rate) (now : Z) : Z := (limit_seconds limit - Z.rem (Unix now) (limit_seconds limit)) * second.

Definition redemptionRateLimitExceededAt (prefix host ip : gostring) (asn : Z) (limit : Rate) (now : Z) (clk : clock) (c : CounterCache)
  : bool * Z * CounterCache :=
  let '(ipExceeded, c) := rateLimitExceededAt (prefix ++ lit ":ip") host ip limit now (clk 0%nat) (clk 1%nat) c in
  let '(asnExceeded, c) :=
    if asn =? 0 then (false, c)
    else rateLimitExceededAt (prefix ++ lit ":asn") host (FormatUint 10 asn) limit now (clk 2%nat) (clk 3%nat) c in
  if negb ipExceeded && negb asnExceeded then (false, 0, c) else (true, retry_after limit now, c).

Definition retryAfterSeconds (d : Z) : Z := Z.max 1 (Z.quot (d + second - 1) second).

(** ** The challenge page *)
Record issue_draw := mk_draw {
  id_uuid : gostring; id_salt : gostring; id_at : Z;                    (* a stored challenge *)
  id_random : gostring; id_salt2 : gostring; id_at2 : Z;                (* a stateless one *)
  id_refreshed : option Manager                                        (* after its key refresh *)
}.

Definition subresource_message : gostring := lit "proof-of-work challenge requires a same-origin document request".
Definition accept_message : gostring := lit "proof-of-work challenge requires a document navigation: Accept must list text/html or text/*".

Definition page_headers : list (string * gostring) :=
  [("Cache-Control"%string, lit "no-store")] ++ securityHeaders cspChallenge frameSameOrigin.

Definition unavailable_page : Response := http_Error page_headers (lit "challenge unavailable") StatusServiceUnavailable.

(** The kind the page refuses: the relayed one, or its own when none came. *)
Definition page_refusal (h : Header) (dcfg : DomainConfig) : gostring :=
  let '(kind, relayed) := relayedRefusal h in
  if negb relayed && RefusesUnchallengeable (dc_PoW dcfg) then refusalKind h else kind.

(** The difficulty asked of this client before escalation: the relayed one,
    clamped to the posture's window; an absent header does not parse. *)
Definition relayed_difficulty (h : Header) (base maxBits : Z) : Z :=
  match ParseInt (HGet h hdrDifficulty) with
  | Ok n => Z.min (Z.max n base) maxBits
  | Err _ => base
  end.

(** The escalation of unsolved issuances: extra bits, whether to report a
    challenge farm, and the cache. *)
Definition escalate (h : Header) (host ip : gostring) (ttl base maxBits : Z) (at_ sweep : Z) (c : CounterCache) : Z * bool * CounterCache :=
  if unscorableFrame (HGet h hdrSecFetchDest) (HGet h hdrSecFetchSite) then
    let '(extra, _, c) := BumpFrameEscalation hash host ip ttl at_ sweep c in (extra, false, c)
  else
    let '(extra, _, c) := BumpEscalation hash host ip ttl at_ sweep c in (extra, (0 <? extra) && (maxBits <=? base + extra), c).

Definition proof_spec (p : PoWConfig) (level difficulty base : Z) : ProofSpec :=
  if UsesArgon2ID p then
    let iterations := if (base <? difficulty) || (level =? AttackMode.Elevated) then ag_MaxIterations (pw_Argon2ID p) else ag_BaseIterations (pw_Argon2ID p) in
    let iterations := if level =? AttackMode.Attack then ag_AttackIterationsCap (pw_Argon2ID p) else iterations in
    mk_spec AlgorithmArgon2ID 0 (ag_MemoryKiB (pw_Argon2ID p)) iterations (zero_bytes 16)
  else mk_spec AlgorithmSHA256 difficulty 0 0 (zero_bytes 16).

Definition page_payload (m : Manager) (p : PoWConfig) (ch : Challenge) : challengePayload :=
  let argon := bool_decide (ch_Algorithm ch = AlgorithmArgon2ID) in
  let nojs := pw_NoScriptFallback p in
  mk_page (ch_ID ch) (ch_Challenge ch) (ch_Algorithm ch) (ch_Difficulty ch) (ch_MemoryKiB ch) (ch_Iterations ch) (ch_Salt ch) PassPath
    (if argon then argonWorkerURL else []) (if argon then argonWASMURL else []) nojs
    (if nojs then PassPath ++ lit "?cid=" ++ ch_ID ch ++ lit "&nojs=1" else []) (if nojs then Z.quot (mg_NoJSMinDelay m) second else 0).

Definition challenge_page (m : Manager) (p : PoWConfig) (ch : Challenge) : Response :=
  respond StatusOK ([("Content-Type"%string, lit "text/html; charset=utf-8")] ++ page_headers)
    (ChallengePage (page_payload m p ch) (pw_NoScriptFallback p)
       (if pw_NoScriptFallback p then FormatInt (Z.quot (mg_NoJSMinDelay m) second + 1) else [])).

(** A stored challenge; a stateless one while the posture asks for it, or when
    the store fails. *)
Definition issue (m : Manager) (stateless : bool) (d : issue_draw) (host ip uri : gostring) (spec : ProofSpec) (ttl : Z) (allowNoJS : bool)
  : prog (outcome pow_error Challenge) :=
  let fresh := IssueStatelessWithSpec (id_refreshed d) (id_random d) (id_salt2 d) (id_at2 d) host ip uri spec allowNoJS in
  if stateless then Ret fresh
  else bind (IssueWithSpec m (id_uuid d) (id_salt d) (id_at d) host ip uri spec ttl allowNoJS) (fun r =>
       Ret (match r with Ok ch => Ok ch | Err _ => fresh end)).

Definition farm_detail (extra : Z) : gostring := lit "extra_bits=" ++ FormatInt extra.

(** What the request asks for and from whom. *)
Definition page_request (r : Request) (s : Server) : gostring * gostring * gostring * DomainConfig :=
  let host := headerOr r hdrHost (hr_Host r) in
  let uri := headerOr r hdrURI (lit "/") in
  (host, clientIP r, uri, ConfigFor (live_config s) host uri).

(** From the rate limit on. *)
Definition issue_page (clk : clock) (d : issue_draw) (draws : nat -> event_draw) (r : Request) (m : Manager) (s : Server) : prog page_result :=
  let '(host, ip, uri, dcfg) := page_request r s in
  let h := hr_Header r in
  let p := dc_PoW dcfg in
  let '(limited, counters) := rateLimitExceededAt (lit "chrl") host ip (pw_IssuanceRateLimit p) (clk 0%nat) (clk 1%nat) (clk 2%nat) (sv_counters s) in
  let s := with_counters counters s in
  if limited then Ret (mk_page_result (http_Error page_headers (lit "too many challenge requests, slow down") StatusTooManyRequests) s None) else
  let attack := eg_attack (sv_engine s) in
  let '(base, maxBits) := AttackMode.EffectiveBits (Some attack) (BaseBits p) (MaxBits p) (AttackMode.Cap (Some attack) (MaxBits p)) in
  let difficulty := relayed_difficulty h base maxBits in
  let '(extra, farm, counters) := escalate h host ip (pw_ChallengeTTL p) base maxBits (clk 3%nat) (clk 4%nat) (sv_powCounters s) in
  let s := with_powCounters counters s in
  let difficulty := if 0 <? extra then Z.min (difficulty + extra) maxBits else difficulty in
  bind (if farm then ReportEvent host ip EventChallengeFarm (farm_detail extra) draws (sv_engine s) else Ret []) (fun _ =>
  bind (issue m (AttackMode.st_Stateless attack) d host ip uri (proof_spec p (AttackMode.st_Level attack) difficulty base) (pw_ChallengeTTL p) (pw_NoScriptFallback p)) (fun issued =>
  match issued with
  | Err _ => Ret (mk_page_result unavailable_page s None)
  | Ok ch => Ret (mk_page_result (challenge_page m p ch) s (Some ch))
  end)).

(** Past the refusals. *)
Definition serve_page (clk : clock) (d : issue_draw) (draws : nat -> event_draw) (r : Request) (s : Server) : prog page_result :=
  let '(_, _, _, dcfg) := page_request r s in
  match sv_pow s with
  | Some m => if pw_Enabled (dc_PoW dcfg) then issue_page clk d draws r m s else Ret (mk_page_result unavailable_page s None)
  | None => Ret (mk_page_result unavailable_page s None)
  end.

Definition handleChallenge (clk : clock) (d : issue_draw) (draws : nat -> event_draw) (r : Request) (s : Server) : prog page_result :=
  let '(_, _, _, dcfg) := page_request r s in
  let kind := page_refusal (hr_Header r) dcfg in
  if bool_decide (kind = outcomeSubresourceRefused) then Ret (mk_page_result (refuseChallenge subresource_message) s None)
  else if bool_decide (kind = outcomeAcceptRefused) then Ret (mk_page_result (refuseChallenge accept_message) s None)
  else serve_page clk d draws r s.
End Server.
