(* ===== verification/Admission.v ===== *)
(** * Concurrent admission (transport/http/server.go)

    The two counters that bound concurrent work: evaluations in flight, an
    atomic add followed by a comparison, and Argon2 verifications, a
    compare-and-swap loop.  Every atomic operation is one step; handlers
    interleave freely and each reads the configuration live when it runs. *)

From S2P Require Export Server.

Open Scope Z_scope.

Section Admission.
Context `{Unicode}.

(** Configurations that may be live during the run. *)
Variable live : Config -> Prop.

(** ** The auth handler around [Evaluate] *)

(** A handler with what the counter answered when it arrived, the number of
    handlers in flight then (kept for the statements), and whether it waits for
    its verdict or evaluates under the configuration that admitted it.  A bound
    of 0 is off, and every request is counted whatever the bound. *)
Inductive auth_phase := Arrived | Evaluating (cfg : Config).
Record auth_handler := mk_handler { ah_current : Z; ah_others : nat; ah_phase : auth_phase }.
Record auth_state := mk_auth { au_inflight : Z; au_handlers : list auth_handler }.

Inductive auth_step : auth_state -> auth_state -> Prop :=
| auth_arrive n hs : auth_step (mk_auth n hs) (mk_auth (n + 1) (mk_handler (n + 1) (length hs) Arrived :: hs))
| auth_shed cfg n current others l r : live cfg -> over_bound cfg current = true ->
    auth_step (mk_auth n (l ++ mk_handler current others Arrived :: r)) (mk_auth (n - 1) (l ++ r))
| auth_admit cfg n current others l r : live cfg -> over_bound cfg current = false ->
    auth_step (mk_auth n (l ++ mk_handler current others Arrived :: r)) (mk_auth n (l ++ mk_handler current others (Evaluating cfg) :: r))
| auth_return cfg n current others l r :
    auth_step (mk_auth n (l ++ mk_handler current others (Evaluating cfg) :: r)) (mk_auth (n - 1) (l ++ r)).

(** Evaluations admitted under a bound of at most [b]. *)
Definition admitted_under (b : Z) (h : auth_handler) : bool :=
  match ah_phase h with Evaluating cfg => (0 <? c_MaxInflight cfg) && (c_MaxInflight cfg <=? b) | Arrived => false end.
Definition evaluating (b : Z) (s : auth_state) : Z := Z.of_nat (length (List.filter (admitted_under b) (au_handlers s))).

(** ** The Argon2 verifier's slots *)
Inductive argon_position := Looking (cfg : Config) | Loaded (cfg : Config) (current : Z) | Holding.
Record argon_state := mk_slots { sl_inflight : Z; sl_handlers : list argon_position }.

(** [argon_release] covers a rate-limited acquisition too, which gives its slot
    back, and the deferred release after a verification. *)
Inductive argon_step : argon_state -> argon_state -> Prop :=
| argon_start cfg n hs : live cfg -> argon_step (mk_slots n hs) (mk_slots n (Looking cfg :: hs))
| argon_busy cfg n l r : av_MaxConcurrent (c_Argon2Verifier cfg) <= n ->
    argon_step (mk_slots n (l ++ Looking cfg :: r)) (mk_slots n (l ++ r))
| argon_load cfg n l r : n < av_MaxConcurrent (c_Argon2Verifier cfg) ->
    argon_step (mk_slots n (l ++ Looking cfg :: r)) (mk_slots n (l ++ Loaded cfg n :: r))
| argon_cas cfg n l r : argon_step (mk_slots n (l ++ Loaded cfg n :: r)) (mk_slots (n + 1) (l ++ Holding :: r))
| argon_retry cfg n current l r : current <> n ->
    argon_step (mk_slots n (l ++ Loaded cfg current :: r)) (mk_slots n (l ++ Looking cfg :: r))
| argon_release n l r : argon_step (mk_slots n (l ++ Holding :: r)) (mk_slots (n - 1) (l ++ r)).

Definition verifying (s : argon_state) : Z := Z.of_nat (length (List.filter (fun h => match h with Holding => true | _ => false end) (sl_handlers s))).

(** ** Invariants *)
(** The counter is exact, every handler was answered the number in flight, and
    of those answered at most [b] there are at most [b]. *)
Definition handler_ok (h : auth_handler) : Prop :=
  ah_current h = Z.of_nat (S (ah_others h)) /\
  match ah_phase h with Evaluating cfg => over_bound cfg (ah_current h) = false | Arrived => True end.
Definition answered (b : Z) (hs : list auth_handler) : Z := Z.of_nat (length (List.filter (fun h => ah_current h <=? b) hs)).
Definition auth_inv (s : auth_state) : Prop :=
  au_inflight s = Z.of_nat (length (au_handlers s)) /\ Forall handler_ok (au_handlers s) /\ forall b, 0 <= b -> answered b (au_handlers s) <= b.

Lemma filter_length_le {A} (f : A -> bool) l : (length (List.filter f l) <= length l)%nat.
Proof. induction l as [| x l IH]; cbn; [lia |]. destruct (f x); cbn; lia. Qed.

Lemma auth_preserved s s' : auth_step s s' -> auth_inv s -> auth_inv s'.
Proof.
  intros Hstep (Hn & Hf & Hb). unfold auth_inv, answered in *.
  destruct Hstep as [n hs | cfg n current others l r Hc Ho | cfg n current others l r Hc Ho | cfg n current others l r]; cbn [au_inflight au_handlers] in *.
  - split_ands; [cbn [length]; lia | constructor; [split; cbn; [lia | done] | done] |]. intros b Hb0. specialize (Hb b Hb0).
    cbn [List.filter ah_current]. destruct (Z.leb_spec (n + 1) b); cbn [length]; [| done].
    pose proof (filter_length_le (fun h => ah_current h <=? b) hs). lia.
  - rewrite length_app in *. apply Forall_app in Hf as [Hl Hr%Forall_cons]. cbn [length] in Hn.
    split_ands; [lia | apply Forall_app; split; [done | apply Hr] |]. intros b Hb0. specialize (Hb b Hb0).
    rewrite List.filter_app, length_app in *. cbn [List.filter ah_current] in Hb. destruct (current <=? b); cbn [length] in Hb; lia.
  - rewrite length_app in *. apply Forall_app in Hf as [Hl Hr%Forall_cons]. destruct Hr as [[Hcur _] Hr].
    split_ands; [rewrite ?length_app; cbn [length] in *; lia | apply Forall_app; split; [done | constructor; [by split | done]] |]. intros b Hb0. specialize (Hb b Hb0).
    rewrite List.filter_app, length_app in *. cbn [List.filter ah_current] in *. destruct (current <=? b); exact Hb.
  - rewrite length_app in *. apply Forall_app in Hf as [Hl Hr%Forall_cons]. cbn [length] in Hn.
    split_ands; [lia | apply Forall_app; split; [done | apply Hr] |]. intros b Hb0. specialize (Hb b Hb0).
    rewrite List.filter_app, length_app in *. cbn [List.filter ah_current] in Hb. destruct (current <=? b); cbn [length] in Hb; lia.
Qed.

Lemma admitted_answered b hs : Forall handler_ok hs -> Z.of_nat (length (List.filter (admitted_under b) hs)) <= answered b hs.
Proof.
  unfold answered. induction 1 as [| h hs [_ Hh] _ IH]; cbn [List.filter length]; [done |].
  unfold admitted_under at 1. destruct (ah_phase h) as [| cfg]; [destruct (ah_current h <=? b); cbn [length]; lia |].
  unfold over_bound in Hh. destruct (Z.ltb_spec 0 (c_MaxInflight cfg)), (Z.leb_spec (c_MaxInflight cfg) b); cbn [andb] in *; bool_to_prop;
    [rewrite (proj2 (Z.leb_le (ah_current h) b)) by lia; cbn [length]; lia | destruct (ah_current h <=? b); cbn [length]; lia..].
Qed.

Section Bounds.
Variable bound : Z.

Definition argon_inv (s : argon_state) : Prop :=
  sl_inflight s = verifying s /\ sl_inflight s <= bound /\
  Forall (fun h => match h with Looking cfg => live cfg | Loaded cfg current => live cfg /\ current < av_MaxConcurrent (c_Argon2Verifier cfg) | Holding => True end) (sl_handlers s).

Lemma argon_preserved (Hl : forall cfg, live cfg -> av_MaxConcurrent (c_Argon2Verifier cfg) <= bound) s s' : argon_step s s' -> argon_inv s -> argon_inv s'.
Proof.
  intros Hstep (Hn & Hb & Hf). unfold argon_inv, verifying in *.
  destruct Hstep as [cfg n hs Hc | cfg n l r Hc | cfg n l r Hc | cfg n l r | cfg n current l r Hc | n l r]; cbn [sl_inflight sl_handlers] in *;
    rewrite ?List.filter_app, ?length_app, ?Forall_app, ?Forall_cons in *; cbn [List.filter length] in *; destruct_and?.
  - by split_ands.
  - split_ands; done.
  - split_ands; done.
  - match goal with HL : live cfg |- _ => specialize (Hl cfg HL) end. split_ands; [lia | lia | done | done | done].
  - split_ands; done.
  - split_ands; [lia | lia | done | done].
Qed.
End Bounds.

(** * Properties *)

(** C21: In every interleaving of auth handlers, across reloads of the bound, on
    or off, every request in flight is counted, a request evaluates under a
    bound only if at most that many were in flight when it came, those
    admitted without a bound included, and at most b evaluations admitted
    under bounds up to b run at once; and in every interleaving of redemptions
    the Argon2 verifications running at once stay within the largest bound
    configured and are counted exactly. *)
Theorem concurrent_work_bounded :
  (forall s, rtc auth_step (mk_auth 0 []) s ->
     au_inflight s = Z.of_nat (length (au_handlers s)) /\
     (forall h cfg, h ∈ au_handlers s -> ah_phase h = Evaluating cfg -> 0 < c_MaxInflight cfg -> Z.of_nat (S (ah_others h)) <= c_MaxInflight cfg) /\
     (forall b, 0 <= b -> evaluating b s <= b)) /\
  (forall slots s, 0 <= slots -> (forall cfg, live cfg -> av_MaxConcurrent (c_Argon2Verifier cfg) <= slots) ->
     rtc argon_step (mk_slots 0 []) s -> verifying s <= slots /\ sl_inflight s = verifying s).
Proof.
  split.
  - intros s Hr. assert (auth_inv s) as (Hn & Hf & Hb).
    { apply (rtc_invariant auth_step auth_inv auth_preserved _ _ Hr). unfold auth_inv; split_ands; [done | constructor | intros b Hb; exact Hb]. }
    split_ands; [done | |].
    + intros h cfg Hh Hp Hpos. rewrite Forall_forall in Hf. destruct (Hf h Hh) as [Hcur Hover]. rewrite Hp in Hover. unfold over_bound in Hover.
      rewrite (proj2 (Z.ltb_lt _ _) Hpos) in Hover. cbn in Hover. bool_to_prop. lia.
    + intros b Hb0. specialize (Hb b Hb0). pose proof (admitted_answered b _ Hf). unfold evaluating. lia.
  - intros slots s Hs Hl Hr. assert (argon_inv slots s) as (Hn & Ha & _).
    { apply (rtc_invariant argon_step (argon_inv slots) (argon_preserved slots Hl) _ _ Hr).
      unfold argon_inv; split_ands; [done | cbn; lia | constructor]. }
    split; [lia | done].
Qed.
End Admission.

(** Two solutions race for the one slot: the second finds it taken.  A bound of
    one is switched on while a request admitted without one evaluates: the next
    one counts two in flight and is shed, and one that comes after both is
    admitted. *)
Module Ex.
Definition bounded (n : Z) : Config :=
  mk_cfg (c_Defaults DomainConfig.Ex.cfg) ∅ [] [] [] 0 false n (mk_verifier 1 (mk_rate 10 minute)).
Definition limited : Config := bounded 1.
Definition unlimited : Config := bounded 0.
Definition either (cfg : Config) : Prop := cfg = limited \/ cfg = unlimited.
Definition raced : argon_state := mk_slots 1 [Looking limited; Holding].

Lemma raced_reachable : rtc (argon_step either) (mk_slots 0 []) raced.
Proof.
  eapply rtc_l; [by apply (argon_start either limited); left |].
  eapply rtc_l; [by apply (argon_start either limited); left |].
  eapply rtc_l; [apply (argon_load either limited 0 [] [Looking limited]); vm_compute; reflexivity |].
  eapply rtc_l; [apply (argon_load either limited 0 [Loaded limited 0] []); vm_compute; reflexivity |].
  eapply rtc_l; [apply (argon_cas either limited 0 [Loaded limited 0] []) |].
  eapply rtc_l; [by apply (argon_retry either limited 1 0 [] [Holding]) |].
  constructor.
Qed.

Definition enabled_late : auth_state := mk_auth 2 [mk_handler 2 1 Arrived; mk_handler 1 0 (Evaluating unlimited)].
Definition admitted : auth_state := mk_auth 1 [mk_handler 1 0 (Evaluating limited)].

Lemma late_reachable : rtc (auth_step either) (mk_auth 0 []) enabled_late.
Proof.
  eapply rtc_l; [apply auth_arrive |]. eapply rtc_l; [apply (auth_admit either unlimited 1 1 0 [] []); [by right | by vm_compute] |].
  eapply rtc_l; [apply auth_arrive |]. constructor.
Qed.

Lemma admitted_reachable : rtc (auth_step either) (mk_auth 0 []) admitted.
Proof.
  etransitivity; [exact late_reachable |].
  eapply rtc_l; [apply (auth_shed either limited 2 2 1 [] [mk_handler 1 0 (Evaluating unlimited)]); [by left | by vm_compute] |].
  eapply rtc_l; [apply (auth_return either unlimited 1 1 0 [] []) |].
  eapply rtc_l; [apply auth_arrive |]. eapply rtc_l; [apply (auth_admit either limited 1 1 0 [] []); [by left | by vm_compute] |]. constructor.
Qed.

Lemma concurrent_work_bounded_witness :
  (au_inflight enabled_late = 2 /\ over_bound limited (au_inflight enabled_late) = true) /\
  (evaluating 1 admitted = 1 /\ evaluating 1 admitted <= 1) /\ (verifying raced = 1 /\ verifying raced <= 1).
Proof.
  split; [split; [exact (proj1 (proj1 (concurrent_work_bounded either) enabled_late late_reachable)) | vm_compute; reflexivity] | split; (split; [vm_compute; reflexivity |])].
  - exact (proj2 (proj2 (proj1 (concurrent_work_bounded either) admitted admitted_reachable)) 1 ltac:(lia)).
  - refine (proj1 (proj2 (concurrent_work_bounded either) 1 raced ltac:(lia) _ raced_reachable)).
    intros cfg [-> | ->]; vm_compute; discriminate.
Defined.
End Ex.
