(* ===== verification/Pass.v ===== *)
(** * The pass endpoint (transport/http/server.go)

    Redeeming a solution: the admission callbacks of a redemption, the answer
    to the browser, the row in the recent ring and the event that scores a
    failure.  [redeem] runs the manager's program of store calls, applies what
    its effects do to the server, and finishes. *)

From S2P Require Export Server.

Open Scope Z_scope.

(** A program whose effects also move a state. *)
Fixpoint track {A S : Type} (on : effect -> S -> S) (p : prog A) (s : S) : prog (A * S) :=
  match p with
  | Ret a => Ret (a, s)
  | Call op k => Call op (fun r => track on (k r) s)
  | Tell e k => Tell e (track on k (on e s))
  end.

Definition ErrNoJSRateLimited : Z := 1.
Definition ErrVerifierBusy : Z := 2.
Definition ErrVerifierRateLimited : Z := 3.

Definition ReasonBadSolution : gostring := lit "pow:bad_solution".
Definition ReasonBindingMismatch : gostring := lit "pow:binding_mismatch".
Definition ReasonChallengeGone : gostring := lit "pow:unknown_challenge".
Definition ReasonTooFast : gostring := lit "pow:too_fast".
Definition ReasonNoJSDisabled : gostring := lit "pow:nojs_disabled".
Definition ReasonRedeemInternal : gostring := lit "pow:internal_error".

Definition redeemFailReason (e : pow_error) : gostring :=
  match e with
  | ErrBadSolution => ReasonBadSolution
  | ErrHostMismatch | ErrClientAddressMismatch => ReasonBindingMismatch
  | ErrChallengeUnknown => ReasonChallengeGone
  | ErrTooFast => ReasonTooFast
  | ErrNoJSDisabled => ReasonNoJSDisabled
  | _ => ReasonRedeemInternal
  end.

(** The text of the errors a client may read. *)
Definition pow_error_text (e : pow_error) : gostring :=
  match e with
  | ErrBadSolution => lit "solution does not meet the required difficulty"
  | ErrHostMismatch => lit "challenge was issued for a different host"
  | ErrClientAddressMismatch => lit "challenge was issued for a different client address"
  | ErrChallengeUnknown => lit "challenge unknown, expired or already spent"
  | ErrTooFast => lit "no-JS redemption attempted too quickly"
  | ErrNoJSDisabled => lit "no-JS redemption not allowed for this challenge"
  | _ => []
  end.

(** Path [/], HttpOnly and SameSite=Lax always. *)
Record cookie := mk_cookie { ck_Name : gostring; ck_Value : gostring; ck_MaxAge : Z; ck_Secure : bool }.

(** [pa_redeemed]: the attack detector counts a redemption. *)
Record pass_result `{Waf.Regexp, Intel.GeoDB} := mk_pass { pa_response : Response; pa_cookie : option cookie; pa_server : Server; pa_redeemed : bool }.
Arguments mk_pass {_ _}.

Section Pass.
Context `{Unicode, Waf.Regexp, Intel.GeoDB, FloatToInt, Argon2, Signer, PayloadCodec, Wire}.
Variable hash : nat -> gostring -> Z.

(** ** Admission *)

(** The no-JS redemption limit of the challenge's own path: the refusal, the
    wait it advises, and the server. *)
Definition acquire_nojs (cfg : Config) (host ip : gostring) (asn : Z) (clk : clock) (uri : gostring) (s : Server) : option Z * Z * Server :=
  let limit := pw_NoScriptRedemptionRateLimit (dc_PoW (ConfigFor cfg host uri)) in
  let '(exceeded, retryAfter, c) := redemptionRateLimitExceededAt hash (lit "njsrl") host ip asn limit (clk 0%nat) (fun i => clk (1 + i)%nat) (sv_counters s) in
  let s := with_counters c s in
  if exceeded then (Some ErrNoJSRateLimited, retryAfter, s) else (None, second, s).

(** One slot of the Argon2 verifier and its rate limit. *)
Definition acquire_argon (live : Config) (host ip : gostring) (asn : Z) (clk : clock) (s : Server) : option Z * Z * Server :=
  let v := c_Argon2Verifier live in
  if av_MaxConcurrent v <=? sv_argonInflight s then (Some ErrVerifierBusy, second, s) else
  let s := with_argonInflight (sv_argonInflight s + 1) s in
  let '(exceeded, retryAfter, c) := redemptionRateLimitExceededAt hash (lit "argrl") host ip asn (av_VerificationRateLimit v) (clk 0%nat) (fun i => clk (1 + i)%nat) (sv_counters s) in
  let s := with_counters c s in
  if exceeded then (Some ErrVerifierRateLimited, retryAfter, with_argonInflight (sv_argonInflight s - 1) s) else (None, second, s).

Definition release_argon (s : Server) : Server := with_argonInflight (sv_argonInflight s - 1) s.

(** What a redemption's effects do to the server, and the wait to advise. *)
Definition on_effect (cfg : Config) (host ip : gostring) (asn : Z) (clk : clock) (e : effect) (sr : Server * Z) : Server * Z :=
  let '(s, retry) := sr in
  match e with
  | AskNoJS uri => let '(_, retry, s) := acquire_nojs cfg host ip asn clk uri s in (s, retry)
  | AskArgon => let '(_, retry, s) := acquire_argon (live_config s) host ip asn clk s in (s, retry)
  | ReleaseArgonSlot => (release_argon s, retry)
  | ForgetCounter key => (with_powCounters (CounterCache.Forget key (sv_powCounters s)).2 s, retry)
  | _ => (s, retry)
  end.

Definition redeem_request (cfg : Config) (dcfg : DomainConfig) (host ip ua : gostring) (asn : Z) (clk : clock) (sol : solution) (nojs : bool) (s : Server) : RedeemRequest :=
  mk_request (sol_ChallengeID sol) (sol_Nonce sol) (sol_Proof sol) nojs host ip ua (pw_TokenTTL (dc_PoW dcfg)) (pw_ChallengeTTL (dc_PoW dcfg))
    (Some (fun uri => let p := dc_PoW (ConfigFor cfg host uri) in (pw_TokenTTL p, pw_ChallengeTTL p)))
    (Some (fun uri => (acquire_nojs cfg host ip asn clk uri s).1.1))
    (Some (acquire_argon (live_config s) host ip asn clk s).1.1) true.

(** ** Answers *)
Definition log_outcome (f : recentRing -> recentRing) (s : Server) : Server :=
  with_engine (set_recent (f (eg_recent (sv_engine s))) (sv_engine s)) s.

(** Only a client's own failure with a posted solution is scored. *)
Definition scored_event (nojs : bool) (reason : gostring) : option gostring :=
  if bool_decide (reason = ReasonRedeemInternal) || nojs then None
  else if bool_decide (reason ∈ [ReasonChallengeGone; ReasonBindingMismatch; ReasonNoJSDisabled]) then Some EventTamper else Some EventPoWFail.

Definition failure_response (nojs : bool) (e : pow_error) : Response :=
  let reason := redeemFailReason e in
  let internal := bool_decide (reason = ReasonRedeemInternal) in
  let status := if internal then StatusInternalServerError else StatusForbidden in
  if nojs then http_Error [] (lit "challenge verification failed") status
  else writeJSON [] status (failure (if internal then lit "challenge verification unavailable" else pow_error_text e)).

Definition finish_failure (host ip ua : gostring) (nojs : bool) (now : Z) (draws : nat -> event_draw) (e : pow_error) (sr : Server * Z) : prog pass_result :=
  let '(s, retry) := sr in
  let wait := [("Retry-After"%string, FormatInt (retryAfterSeconds retry))] in
  let refused resp := Ret (mk_pass resp None s false) in
  let failed :=
    let reason := redeemFailReason e in
    let s := log_outcome (RecordRedeemFailure host ip ua reason now) s in
    let done := mk_pass (failure_response nojs e) None s false in
    match scored_event nojs reason with
    | Some evtype => bind (ReportEvent host ip evtype (pow_error_text e) draws (sv_engine s)) (fun _ => Ret done)
    | None => Ret done
    end in
  match e with
  | ErrCallback code =>
    if code =? ErrNoJSRateLimited then refused (http_Error wait (lit "too many no-JS redemption attempts") StatusTooManyRequests)
    else if code =? ErrVerifierBusy then refused (writeJSON [("Retry-After"%string, lit "1")] StatusServiceUnavailable (failure (lit "challenge verifier busy")))
    else if code =? ErrVerifierRateLimited then refused (writeJSON wait StatusTooManyRequests (failure (lit "too many verification attempts")))
    else failed
  | _ => failed
  end.

Definition see_other (uri : gostring) : Response := respond StatusSeeOther [("Location"%string, redirect_location (safeRedirect uri))] NoBody.

(** The solve time the browser claims, dropped when it is longer than the
    challenge existed; and the time from issue to redeem. *)
Definition round_trip (now : Z) (res : RedeemResult) : Z := Z.max 0 (Z.quot (dur_sub now (of_milli (rr_IssuedAt res))) millisecond).
Definition believed_elapsed (elapsedMS roundTripMS : Z) : Z :=
  if wrap64 (roundTripMS + Z.quot ClockSkewAllowance millisecond) <? elapsedMS then 0 else elapsedMS.

Definition token_cookie (h : Header) (res : RedeemResult) : cookie :=
  mk_cookie CookieName (rr_Token res) (Z.quot (rr_TokenTTL res) second) (negb (bool_decide (HGet h hdrProto = lit "http"))).

Definition finish_success (h : Header) (host ip ua : gostring) (nojs : bool) (elapsedMS now : Z) (res : RedeemResult) (s : Server) : pass_result :=
  match rr_Outcome res with
  | RedeemNetworkHandover =>
    let s := log_outcome (RecordNetworkHandover host ip (rr_RedirectURI res) ua now) s in
    mk_pass (if nojs then see_other (rr_RedirectURI res)
             else writeJSON [] StatusConflict [(lit "ok", JBool false); (lit "reason", JString (lit "network_handover")); (lit "retry_url", JString (safeRedirect (rr_RedirectURI res)))])
      None s true
  | RedeemSolved =>
    let roundTripMS := round_trip now res in
    let s := log_outcome (RecordSolve (mk_solve host ip (rr_RedirectURI res) ua (believed_elapsed elapsedMS roundTripMS) roundTripMS
                      (rr_Algorithm res) (rr_Difficulty res) (rr_MemoryKiB res) (rr_Iterations res) nojs) now) s in
    mk_pass (if nojs then see_other (rr_RedirectURI res) else writeJSON [] StatusOK [(lit "ok", JBool true)])
      (Some (token_cookie h res)) s true
  end.

(** ** The handlers *)
Definition redeem (clk : clock) (around : surroundings) (draws : nat -> event_draw) (sol : solution) (nojs : bool) (r : Request) (s : Server) : prog pass_result :=
  let host := headerOr r hdrHost (hr_Host r) in
  let ip := clientIP r in
  let cfg := live_config s in
  let domain := DomainFor cfg host in
  match sv_pow s with
  | Some m =>
    if PoWAnywhere domain then
      let ua := headerOr r hdrUA (HGet (hr_Header r) (lit "User-Agent")) in
      let asn := OriginASN ip (sv_engine s) in
      let req := redeem_request cfg (rd_cfg domain) host ip ua asn clk sol nojs s in
      bind (track (on_effect cfg host ip asn clk) (Redeem m around (fun i => clk (5 + i)%nat) req) (s, second)) (fun done =>
      let '(res, sr) := done in
      match res with
      | Err e => finish_failure host ip ua nojs (clk 7%nat) draws e sr
      | Ok res => Ret (finish_success (hr_Header r) host ip ua nojs (sol_ElapsedMS sol) (clk 7%nat) res sr.1)
      end)
    else Ret (mk_pass (writeJSON [] StatusServiceUnavailable (failure (lit "unavailable"))) None s false)
  | None => Ret (mk_pass (writeJSON [] StatusServiceUnavailable (failure (lit "unavailable"))) None s false)
  end.

Definition handlePassSolve (clk : clock) (around : surroundings) (draws : nat -> event_draw) (r : Request) (s : Server) : prog pass_result :=
  if negb (bool_decide (ParseMediaType (HGet (hr_Header r) (lit "Content-Type")) = Some (lit "application/json"))) then
    Ret (mk_pass (writeJSON [] StatusUnsupportedMediaType (failure (lit "Content-Type must be application/json"))) None s false)
  else match decode_solution (hr_Body r) with
       | None => Ret (mk_pass (writeJSON [] StatusBadRequest (failure (lit "malformed request"))) None s false)
       | Some sol => redeem clk around draws sol false r s
       end.

Definition query (r : Request) (name : gostring) : gostring := default [] (hr_Query r !! name).

Definition handlePassNoJS (clk : clock) (around : surroundings) (draws : nat -> event_draw) (r : Request) (s : Server) : prog pass_result :=
  if negb (bool_decide (query r (lit "nojs") = lit "1")) then Ret (mk_pass (http_Error [] (lit "missing solution") StatusBadRequest) None s false)
  else redeem clk around draws (mk_solution (query r (lit "cid")) [] [] 0) true r s.
End Pass.
