(* ===== verification/Transport.v ===== *)
(** * What the transport guarantees (transport/http/server.go)

    The two hops of a challenged request agree whatever reloads between them;
    the difficulty issued lies in the posture's window whatever the headers
    say; an advised wait reaches a fresh counter; concurrent evaluations and
    Argon2 verifications keep their bounds and every slot is given back; and a
    failed redemption tells the client only of its own failures. *)

From S2P Require Export Pass Verdicts.

Open Scope Z_scope.

(** ** Header lookups of a built response *)
Fixpoint header_of (name : gostring) (hs : list (string * gostring)) : option gostring :=
  match hs with [] => None | (n, v) :: rest => if bool_decide (name = lit n) then Some v else header_of name rest end.

Lemma respond_header status hs body name : rs_Headers (respond status hs body) !! name = header_of name hs.
Proof.
  unfold respond. cbn [rs_Headers]. induction hs as [| [n v] hs IH]; [done |]. cbn [map list_to_map header_of foldr fst snd].
  case_bool_decide as Hn; [subst name; apply lookup_insert_eq | rewrite lookup_insert_ne by done; exact IH].
Qed.

Section Transport.
Context `{Unicode, Waf.Regexp, Intel.GeoDB, FloatToInt, Argon2, Signer, PayloadCodec, Wire}.
Variable score_detail : float -> gostring.
Variable hash : nat -> gostring -> Z.

(** ** The relayed verdict *)
Lemma refusalKind_cases h : refusalKind h = [] \/ refusalKind h = outcomeSubresourceRefused \/ refusalKind h = outcomeAcceptRefused.
Proof. unfold refusalKind. destruct (isSubresourceDest _); [by right; left |]. destruct (_ && _); [by right; right | by left]. Qed.

Lemma relayed_refusal h kind : HGet h hdrRefusal = kind -> kind = outcomeSubresourceRefused \/ kind = outcomeAcceptRefused ->
  relayedRefusal h = (kind, true).
Proof. intros Hk Hc. unfold relayedRefusal. rewrite Hk. destruct Hc as [-> | ->]; vm_compute; reflexivity. Qed.

Lemma relayed_none h : HGet h hdrRefusal = refusalNone -> relayedRefusal h = ([], true).
Proof. intros Hk. unfold relayedRefusal. rewrite Hk. vm_compute. reflexivity. Qed.

Lemma page_refusal_cases h dcfg : page_refusal h dcfg = [] \/ page_refusal h dcfg = outcomeSubresourceRefused \/ page_refusal h dcfg = outcomeAcceptRefused.
Proof.
  unfold page_refusal, relayedRefusal. pose proof (refusalKind_cases h) as Hk.
  case_bool_decide; [by left |]. destruct (_ || _) eqn:E; cbn [negb andb].
  - apply orb_true_iff in E as [E | E]; apply bool_decide_eq_true in E; auto.
  - destruct (RefusesUnchallengeable _); [done | by left].
Qed.

(** Only a client that cannot complete a challenge is refused one. *)
Lemma refuse_unchallengeable_only store now draws req e snap : eg_snap e = Some snap -> window_ok req e snap ->
  d_Action (ou_decision (Engine.Evaluate score_detail store now draws req e).1) = ActionRefuse -> q_Unchallengeable req = true.
Proof.
  intros Hs Hw. destruct (Evaluate_policy score_detail store now req e snap draws Hs) as [x ->]. unfold refuse_unchallengeable.
  destruct (q_Unchallengeable req); [done |]. rewrite andb_false_r. cbn [andb]. intros Hr.
  destruct (opinion_of score_detail store now req e snap) as [d |] eqn:Eo; [| done].
  by destruct (opinion_sound _ _ _ _ _ _ d Hw Eo) as [Hn _].
Qed.

Lemma decision_refusal h d : d_Action d = ActionRefuse -> default [] (rs_Headers (decision_response h d) !! hdrRefusal) = refusalKind h.
Proof.
  intros Ha. unfold decision_response. rewrite Ha, respond_header.
  destruct (bool_decide (d_PoWExemption d = [])); cbn [app header_of]; by repeat (rewrite bool_decide_eq_false_2 by (vm_compute; discriminate)).
Qed.

Lemma decision_challenge h d : d_Action d = Stateless.ActionChallenge -> default [] (rs_Headers (decision_response h d) !! hdrRefusal) = refusalNone.
Proof.
  intros Ha. unfold decision_response. rewrite Ha, respond_header.
  destruct (bool_decide (d_PoWExemption d = [])); cbn [app header_of]; by repeat (rewrite bool_decide_eq_false_2 by (vm_compute; discriminate)).
Qed.

(** C15: What the auth subrequest recorded the challenge page does, across a
    config reload, a hot reload of the posture or any other change between the
    two: a refused client is refused there and nothing changes, and a
    challenged client is never refused. *)
Theorem hops_agree_across_reload store now draws current r1 s1 snap resp ev recorded clk d draws' r2 s2
  (Hs : eg_snap (sv_engine s1) = Some snap) (Hw : window_ok (requestContext r1) (sv_engine s1) snap)
  (Hauth : handleAuth score_detail store now draws current r1 s1 = (resp, Some ev, recorded))
  (Hrelay : HGet (hr_Header r2) hdrRefusal = default [] (rs_Headers resp !! hdrRefusal)) :
  (d_Action (ou_decision ev) = ActionRefuse ->
     exists msg, handleChallenge hash clk d draws' r2 s2 = Ret (mk_page_result (refuseChallenge msg) s2 None)) /\
  (d_Action (ou_decision ev) = Stateless.ActionChallenge -> handleChallenge hash clk d draws' r2 s2 = serve_page hash clk d draws' r2 s2).
Proof.
  unfold handleAuth in Hauth. destruct (over_bound _ _); [by destruct (ShedDecisionWithReason _ _ _) |].
  pose proof (refuse_unchallengeable_only store now draws _ _ _ Hs Hw) as Hr.
  destruct (Engine.Evaluate _ _ _ _ _ _) as [ev0 rec0]. injection Hauth as <- <- <-. cbn [fst] in Hr.
  unfold handleChallenge, page_refusal. destruct (page_request r2 s2) as [[[host ip] uri] dcfg]. split; intros Ha.
  - specialize (Hr Ha). rewrite (decision_refusal _ _ Ha) in Hrelay.
    assert (Hk : refusalKind (hr_Header r1) = outcomeSubresourceRefused \/ refusalKind (hr_Header r1) = outcomeAcceptRefused).
    { destruct (refusalKind_cases (hr_Header r1)) as [Hk | Hk]; [| done]. cbn [requestContext q_Unchallengeable] in Hr. by rewrite bool_decide_eq_true_2 in Hr. }
    rewrite (relayed_refusal _ _ Hrelay Hk). cbn [negb andb].
    destruct Hk as [-> | ->]; [exists subresource_message | exists accept_message]; reflexivity.
  - rewrite (decision_challenge _ _ Ha) in Hrelay. rewrite (relayed_none _ Hrelay). reflexivity.
Qed.

(** ** What the page issues *)
Definition issued_from (spec : ProofSpec) (ch : Challenge) : Prop :=
  exists id c salt, ch = challengeFromSpec id c (with_salt salt spec).

Lemma IssueStateless_from refreshed random salt now host ip uri spec nojs ch :
  IssueStatelessWithSpec refreshed random salt now host ip uri spec nojs = Ok ch -> issued_from spec ch.
Proof.
  unfold IssueStatelessWithSpec. destruct (ChallengeRecord.validate spec); [done |]. destruct refreshed as [m |]; [| done].
  destruct (if bool_decide _ then _ else _) as [[prefix auth] solve]. destruct (marshal _); [| done].
  destruct (encodeStatelessChallengeFor _ _ _ _ _) as [id c]. intros [= <-]. by exists id, c, salt.
Qed.

Lemma issue_from m stateless d host ip uri spec ttl nojs :
  returns (fun r => forall ch, r = Ok ch -> issued_from spec ch) (issue m stateless d host ip uri spec ttl nojs).
Proof.
  unfold issue. destruct stateless; [intros ch; apply IssueStateless_from |].
  apply (returns_bind (fun r => forall ch, r = Ok ch -> issued_from spec ch)).
  - unfold IssueWithSpec. destruct (ChallengeRecord.validate spec); [done |]. destruct (encodeChallengeRecord _); [| done].
    intros [[|] | e]; cbn; try done. intros ch [= <-]. by eexists _, _, _.
  - intros [ch | e] Hr; cbn; [by intros ch' [= <-]; apply Hr | intros ch; apply IssueStateless_from].
Qed.

(** The cost of a challenge at a posture level, for a difficulty at or above
    [base]: the difficulty itself, or the Argon2 iterations of the level. *)
Definition cost_of (p : PoWConfig) (level base difficulty : Z) (ch : Challenge) : Prop :=
  if UsesArgon2ID p
  then ch_Algorithm ch = AlgorithmArgon2ID /\ ch_MemoryKiB ch = ag_MemoryKiB (pw_Argon2ID p) /\
       (level = AttackMode.Attack -> ch_Iterations ch = ag_AttackIterationsCap (pw_Argon2ID p)) /\
       (level = AttackMode.Elevated -> ch_Iterations ch = ag_MaxIterations (pw_Argon2ID p)) /\
       (level <> AttackMode.Attack -> base < difficulty -> ch_Iterations ch = ag_MaxIterations (pw_Argon2ID p)) /\
       (level <> AttackMode.Attack -> level <> AttackMode.Elevated -> difficulty = base -> ch_Iterations ch = ag_BaseIterations (pw_Argon2ID p))
  else ch_Algorithm ch = AlgorithmSHA256 /\ ch_Difficulty ch = difficulty.

Lemma issued_cost p level difficulty base ch : issued_from (proof_spec p level difficulty base) ch -> cost_of p level base difficulty ch.
Proof.
  unfold issued_from, proof_spec, cost_of. intros (id & c & salt & ->). destruct (UsesArgon2ID p); [| by cbn].
  assert (AttackMode.Attack <> AttackMode.Elevated) by done. cbn. split_ands; [done | done | | | |].
  - intros ->. by rewrite Z.eqb_refl.
  - intros ->. rewrite (proj2 (Z.eqb_neq _ _)), Z.eqb_refl, orb_true_r by done. done.
  - intros Hl Hd. by rewrite (proj2 (Z.eqb_neq _ _) Hl), (proj2 (Z.ltb_lt _ _) Hd).
  - intros Hl He ->. by rewrite (proj2 (Z.eqb_neq _ _) Hl), (proj2 (Z.eqb_neq _ _) He), Z.ltb_irrefl.
Qed.

Lemma relayed_difficulty_window h base maxBits : base <= maxBits -> base <= relayed_difficulty h base maxBits <= maxBits.
Proof. intros Hb. unfold relayed_difficulty. destruct (ParseInt _); lia. Qed.

Definition posture_window (s : Server) (p : PoWConfig) : Z * Z :=
  AttackMode.EffectiveBits (Some (eg_attack (sv_engine s))) (BaseBits p) (MaxBits p) (AttackMode.Cap (Some (eg_attack (sv_engine s))) (MaxBits p)).

Lemma posture_window_ordered s p : BaseBits p <= MaxBits p -> 0 <= AttackMode.st_ExtraBits (eg_attack (sv_engine s)) ->
  BaseBits p <= (posture_window s p).1 <= (posture_window s p).2.
Proof. intros Hb Hx. unfold posture_window, AttackMode.EffectiveBits. destruct (_ =? 0); cbn [fst snd]; lia. Qed.

(** C16: Every challenge the page issues is for a client that is not refused,
    where proof of work is on.  Its difficulty is the relayed one, raised by
    the client's unsolved issuances and kept between the base and the ceiling
    of the posture, whatever the client relays; under Argon2 its iterations
    are the attack cap at the attack level, the maximum at the elevated level
    or for a raised difficulty, and the base otherwise. *)
Theorem issued_challenge_in_window clk d draws r s
  (Hw : let p := dc_PoW (page_request r s).2 in BaseBits p <= MaxBits p) (Hx : 0 <= AttackMode.st_ExtraBits (eg_attack (sv_engine s))) :
  let '(host, ip, _, dcfg) := page_request r s in
  let p := dc_PoW dcfg in
  let '(base, maxBits) := posture_window s p in
  let extra := (escalate hash (hr_Header r) host ip (pw_ChallengeTTL p) base maxBits (clk 3%nat) (clk 4%nat) (sv_powCounters s)).1.1 in
  let difficulty := Z.min (relayed_difficulty (hr_Header r) base maxBits + Z.max 0 extra) maxBits in
  BaseBits p <= base <= difficulty /\ difficulty <= maxBits /\
  returns (fun res => forall ch, pr_issued res = Some ch ->
    pw_Enabled p = true /\ page_refusal (hr_Header r) dcfg = [] /\ cost_of p (AttackMode.st_Level (eg_attack (sv_engine s))) base difficulty ch /\
    exists m, Server.sv_pow s = Some m /\ pr_response res = challenge_page m p ch) (handleChallenge hash clk d draws r s).
Proof.
  pose proof (posture_window_ordered s _ Hw Hx) as Hpw. unfold handleChallenge, serve_page, issue_page.
  destruct (page_request r s) as [[[host ip] uri] dcfg]. cbn [snd] in *. set (p := dc_PoW dcfg) in *.
  unfold posture_window in Hpw |- *. destruct (AttackMode.EffectiveBits _ _ _ _) as [base maxBits] eqn:Eb. cbn [fst snd] in Hpw.
  pose proof (relayed_difficulty_window (hr_Header r) base maxBits ltac:(lia)) as Hd. cbv zeta. split; [lia | split; [lia |]].
  destruct (page_refusal_cases (hr_Header r) dcfg) as [Hk | [Hk | Hk]]; rewrite Hk; [| done | done].
  destruct (Server.sv_pow s) as [m |]; [| done]. destruct (pw_Enabled p) eqn:Ep; [| done].
  destruct (rateLimitExceededAt _ _ _ _ _ _ _ _ _) as [limited counters]. cbn [sv_engine sv_powCounters with_counters]. destruct limited; [done |].
  rewrite Eb. destruct (escalate _ _ _ _ _ _ _ _ _ _) as [[extra farm] pc]. cbn [fst sv_engine with_powCounters with_counters].
  eapply returns_bind; [apply returns_any |]. intros _ _. eapply returns_bind; [apply issue_from |].
  intros [ch | e] Hr; [| done]. cbn [returns pr_issued pr_response]. intros ch' [= <-]. split_ands; [done | done | | by exists m].
  apply issued_cost. replace (Z.min _ _) with (if 0 <? extra then Z.min (relayed_difficulty (hr_Header r) base maxBits + extra) maxBits else relayed_difficulty (hr_Header r) base maxBits); [by apply Hr |].
  destruct (Z.ltb_spec 0 extra); lia.
Qed.

(** ** Rate-limit windows *)
Lemma limit_seconds_pos limit : 1 <= limit_seconds limit.
Proof. unfold limit_seconds, limit_window, second, millisecond, microsecond. apply Z.quot_le_lower_bound; lia. Qed.

Lemma Unix_add now n : Unix (now + n * second) = Unix now + n.
Proof. unfold Unix. apply Z.div_add. done. Qed.

Lemma retryAfter_exact limit now : 0 <= now ->
  retryAfterSeconds (retry_after limit now) = limit_seconds limit - Z.rem (Unix now) (limit_seconds limit).
Proof.
  intros Hn. pose proof (limit_seconds_pos limit) as Hw. unfold retryAfterSeconds, retry_after. set (w := limit_seconds limit) in *.
  assert (0 <= Unix now) by (apply Z.div_pos; [lia | done]). pose proof (Z.rem_bound_pos (Unix now) w ltac:(lia) ltac:(lia)) as Hr.
  rewrite (Z.quot_div_nonneg _ second) by (unfold second, millisecond, microsecond; lia).
  replace ((w - Z.rem (Unix now) w) * second + second - 1) with (second - 1 + (w - Z.rem (Unix now) w) * second) by ring.
  rewrite Z.div_add by done. rewrite Z.div_small by (unfold second, millisecond, microsecond; lia). lia.
Qed.

(** The Retry-After of a rate limit is between one second and its window,
    and a request made that much later is counted under a fresh key. *)
Theorem advised_wait_reaches_fresh_counter limit now prefix host ip (Hn : 0 <= now)
  (Hl : now + limit_seconds limit * second <= int64_max) :
  let n := retryAfterSeconds (retry_after limit now) in
  1 <= n <= limit_seconds limit /\ limit_key prefix host ip limit (now + n * second) <> limit_key prefix host ip limit now.
Proof.
  cbn zeta. rewrite retryAfter_exact by done. pose proof (limit_seconds_pos limit) as Hw. set (w := limit_seconds limit) in *.
  assert (Hu : 0 <= Unix now) by (apply Z.div_pos; [lia | done]). pose proof (Z.rem_bound_pos (Unix now) w ltac:(lia) ltac:(lia)) as Hr.
  split; [lia |]. unfold limit_key. fold w. rewrite Unix_add. pose proof (Z.quot_rem (Unix now) w ltac:(lia)) as Hq.
  replace (Unix now + (w - Z.rem (Unix now) w)) with ((Z.quot (Unix now) w + 1) * w) by lia. rewrite Z.quot_mul by lia.
  assert (Hsmall : Unix now + w <= int64_max).
  { unfold Unix in *. transitivity ((now + w * second) / second); [by rewrite Z.div_add by done | apply Z.div_le_upper_bound; [done |]].
    unfold int64_max, second, millisecond, microsecond in *; lia. }
  assert (0 <= Z.quot (Unix now) w) by (apply Z.quot_pos; lia).
  intros Heq. apply app_inv_head in Heq. injection Heq as Heq. apply app_inv_head in Heq. injection Heq as Heq. apply app_inv_head in Heq.
  injection Heq as Heq. apply FormatInt_inj in Heq; [lia | |]; unfold int64_ok, int64_min; unfold int64_max in *; nia.
Qed.

(** ** Tracked programs *)
Lemma run_track {S A X : Type} `{!StoreOps S} (on : effect -> X -> X) (p : prog A) : forall (x : X) tm (st : S),
  run (track on p x) tm st = let '(st', es, a) := run p tm st in (st', es, (a, fold_left (fun x e => on e x) es x)).
Proof.
  induction p as [a | R op k IH | e k IH]; intros x tm st; cbn [track run]; [done | |].
  - destruct (exec_op (tm 0%nat) op st) as [st' r]. apply IH.
  - rewrite IH. by destruct (run k tm st) as [[? ?] ?].
Qed.

(** The answers that never score. *)
Lemma finish_failure_quiet host ip ua nojs now draws e sr : nojs = true \/ redeemFailReason e = ReasonRedeemInternal ->
  exists res, finish_failure host ip ua nojs now draws e sr = Ret res.
Proof.
  intros Hq. unfold finish_failure. destruct sr as [s retry].
  assert (Hev : scored_event nojs (redeemFailReason e) = None).
  { unfold scored_event. destruct Hq as [-> | ->]; [by rewrite orb_true_r | by rewrite bool_decide_eq_true_2]. }
  rewrite Hev. destruct e; try by eexists. repeat case_match; by eexists.
Qed.

(** A failure sets no cookie, whatever it answers. *)
Lemma finish_failure_no_cookie host ip ua nojs now draws e sr :
  returns (fun res => pa_cookie res = None /\ pa_redeemed res = false) (finish_failure host ip ua nojs now draws e sr).
Proof.
  unfold finish_failure. destruct sr as [s retry].
  assert (Hf : forall reason done, pa_cookie done = None /\ pa_redeemed done = false -> returns (fun res : pass_result => pa_cookie res = None /\ pa_redeemed res = false)
     (match scored_event nojs reason with
      | Some evtype => bind (ReportEvent host ip evtype (pow_error_text e) draws (sv_engine (log_outcome (RecordRedeemFailure host ip ua reason now) s))) (fun _ => Ret done)
      | None => Ret done end)).
  { intros reason done Hd. destruct (scored_event nojs reason); [| exact Hd]. eapply returns_bind; [apply returns_any | intros _ _; exact Hd]. }
  destruct e; try (by apply Hf). repeat case_match; try done; by apply Hf.
Qed.

(** ** Argon2 slots come back *)
Definition grants (cfg : Config) (host ip : gostring) (asn : Z) (clk : clock) (s : Server) : bool :=
  if (acquire_argon hash (live_config s) host ip asn clk s).1.1 is None then true else false.

(** The verifier slots a program's effects leave taken, [n] being taken
    already; [fresh] while nothing an acquisition reads has changed. *)
Fixpoint balanced {A : Type} (granted fresh : bool) (n : Z) (p : prog A) : Prop :=
  match p with
  | Ret _ => n = 0
  | Call _ k => forall r, balanced granted fresh n (k r)
  | Tell AskArgon k => fresh = true /\ balanced granted false (if granted then n + 1 else n) k
  | Tell ReleaseArgonSlot k => balanced granted false (n - 1) k
  | Tell (AskNoJS _) k => balanced granted false n k
  | Tell _ k => balanced granted fresh n k
  end.

(** Programs that ask for nothing. *)
Fixpoint quiet {A : Type} (p : prog A) : Prop :=
  match p with
  | Ret _ => True
  | Call _ k => forall r, quiet (k r)
  | Tell AskArgon _ | Tell ReleaseArgonSlot _ | Tell (AskNoJS _) _ => False
  | Tell _ k => quiet k
  end.

Lemma quiet_balanced {A} (p : prog A) g fresh : quiet p -> balanced g fresh 0 p.
Proof. induction p as [a | R op k IH | [] k IH]; cbn; intros Hq; try done; auto. Qed.

Lemma quiet_release {A} (p : prog A) g fresh : quiet p -> balanced g fresh 1 (bind p (fun r => Tell ReleaseArgonSlot (Ret r))).
Proof. induction p as [a | R op k IH | [] k IH]; cbn; intros Hq; try done; auto. Qed.

Lemma acquire_nojs_argon cfg host ip asn clk uri s : sv_argonInflight (acquire_nojs hash cfg host ip asn clk uri s).2 = sv_argonInflight s.
Proof. unfold acquire_nojs. destruct (redemptionRateLimitExceededAt _ _ _ _ _ _ _ _ _) as [[[] ?] ?]; done. Qed.

Lemma acquire_argon_count live host ip asn clk s :
  sv_argonInflight (acquire_argon hash live host ip asn clk s).2 =
  sv_argonInflight s + (if (acquire_argon hash live host ip asn clk s).1.1 is None then 1 else 0).
Proof.
  unfold acquire_argon. destruct (_ <=? _); [cbn; lia |]. destruct (redemptionRateLimitExceededAt _ _ _ _ _ _ _ _ _) as [[[] ?] ?]; cbn; lia.
Qed.

(** Two servers an acquisition cannot tell apart. *)
Definition same_admission (s s0 : Server) : Prop :=
  live_config s = live_config s0 /\ sv_counters s = sv_counters s0 /\ sv_argonInflight s = sv_argonInflight s0.

Lemma grants_same cfg host ip asn clk s s0 : same_admission s s0 -> grants cfg host ip asn clk s = grants cfg host ip asn clk s0.
Proof.
  intros (Hc & Hk & Ha). unfold grants, acquire_argon. rewrite Hc, Ha. destruct (_ <=? _); [done |]. cbn [sv_counters with_argonInflight]. rewrite Hk.
  by destruct (redemptionRateLimitExceededAt _ _ _ _ _ _ _ _ _) as [[[] ?] ?].
Qed.

Lemma track_balanced {A} cfg host ip asn clk s0 (p : prog A) : forall fresh n s retry,
  balanced (grants cfg host ip asn clk s0) fresh n p -> (fresh = true -> same_admission s s0) -> sv_argonInflight s = sv_argonInflight s0 + n ->
  returns (fun out => sv_argonInflight out.2.1 = sv_argonInflight s0) (track (on_effect hash cfg host ip asn clk) p (s, retry)).
Proof.
  induction p as [a | R op k IH | e k IH]; intros fresh n s retry Hb Hsame Hn; cbn [track returns].
  - cbn in Hb |- *. lia.
  - intros r. by eapply IH.
  - destruct e; cbn [on_effect balanced] in *; try by eapply IH.
    + pose proof (acquire_nojs_argon cfg host ip asn clk uri s) as Ha. destruct (acquire_nojs _ _ _ _ _ _ _ _) as [[? ?] s1]. cbn in Ha.
      eapply IH; [exact Hb | done | congruence].
    + destruct Hb as [Hf Hb]. pose proof (acquire_argon_count (live_config s) host ip asn clk s) as Ha.
      pose proof (grants_same cfg host ip asn clk s s0 (Hsame Hf)) as Hg. unfold grants at 1 in Hg.
      destruct (acquire_argon _ _ _ _ _ _ _) as [[o ?] s1]. cbn in Ha, Hg. eapply IH; [exact Hb | done |].
      destruct o; rewrite <- Hg; lia.
    + eapply IH; [exact Hb | | cbn; lia]. done.
Qed.

Lemma quiet_forget {A} host ip (p : prog A) : quiet p -> quiet (forget_escalation host ip p).
Proof. done. Qed.

Lemma spend_quiet now req raw rec tokenTTL challengeTTL : quiet (spend now req raw rec tokenTTL challengeTTL).
Proof.
  unfold spend. destruct (encodeChallengeRecord _); [| done]. intros [[|] | e]; cbn; try done.
  destruct (negb _); [done |]. by destruct (mintTokenWithSpec _ _ _ _ _ _).
Qed.

Lemma spend_stateless_quiet around req p spec challenge : quiet (spend_stateless around req p spec challenge).
Proof.
  unfold spend_stateless. destruct (resolved_ttls _ _) as [tokenTTL challengeTTL]. destruct (ar_seen around); [done |].
  assert (Hf : forall soft, quiet (finishStateless around p spec req tokenTTL soft)).
  { intros soft. unfold finishStateless. cbn. by destruct (mintTokenWithSpec _ _ _ _ _ _). }
  cbn. intros [[|] | e]; [| done |]; destruct (negb (bool_decide _)); cbn; try done; [by apply Hf |].
  destruct (negb _); [done | by apply Hf].
Qed.

(** A redemption that asks for a slot gives it back. *)
Lemma ask_argon_balanced {A} granted req (p : prog (outcome pow_error A)) :
  rq_ReleaseArgon req = true -> (exists o, rq_AcquireArgon req = Some o /\ granted = if o is None then true else false) -> quiet p ->
  balanced granted true 0 (ask_argon req p).
Proof.
  intros Hr (o & Ho & ->) Hp. unfold ask_argon, with_release. rewrite Ho, Hr. destruct o; cbn; [done |]. split; [done | by apply quiet_release].
Qed.

Lemma ask_nojs_balanced {A} granted req uri (p : prog (outcome pow_error A)) : quiet p -> balanced granted true 0 (ask_nojs req uri p).
Proof.
  intros Hp. unfold ask_nojs. destruct (rq_AcquireNoJS req) as [f |]; [cbn; destruct (f uri); [done |] |]; by apply quiet_balanced.
Qed.

Lemma Redeem_balanced granted m around clk req :
  rq_ReleaseArgon req = true -> (exists o, rq_AcquireArgon req = Some o /\ granted = if o is None then true else false) ->
  balanced granted true 0 (Redeem m around clk req).
Proof.
  intros Hr Ho. unfold Redeem. destruct (IsStatelessID _).
  - unfold redeem_stateless. destruct (parse_id _) as [i |]; [| done]. destruct (find_secret _ _) as [[secret retired] |]; [| done].
    destruct (admit_payload _ _ _ _) as [[p spec] |]; [| done].
    pose proof (spend_stateless_quiet around req p spec (statelessSolveFor secret (ps_payload i) (ps_solve i))) as Hq.
    destruct (rq_NoJS req).
    + destruct (negb _); [done |]. apply ask_nojs_balanced. by destruct (_ <? _).
    + destruct (bool_decide _); [apply ask_argon_balanced; [done | done |]; by destruct (negb _) |].
      destruct (_ <? _); [done | by apply quiet_balanced].
  - unfold redeem_stateful. destruct (negb _); [done |]. intros [[raw |] | e]; cbn; try done.
    destruct (decodeChallengeRecord raw) as [| [rec |]]; try done. unfold check_and_spend.
    destruct (negb _); [done |]. destruct (negb _); [done |]. destruct (_ && _); [done |]. destruct (resolved_ttls _ _) as [tokenTTL challengeTTL].
    pose proof (spend_quiet (clk 1%nat) req raw rec tokenTTL challengeTTL) as Hq. destruct (rq_NoJS req).
    + destruct (negb _); [done |]. apply ask_nojs_balanced. by destruct (_ <? _).
    + destruct (bool_decide _); [apply ask_argon_balanced; [done | done |]; by destruct (negb _) |].
      destruct (negb _); [done | by apply quiet_balanced].
Qed.

Lemma log_outcome_argon f s : sv_argonInflight (log_outcome f s) = sv_argonInflight s.
Proof. done. Qed.

Lemma finish_failure_argon host ip ua nojs now draws e sr :
  returns (fun res => sv_argonInflight (pa_server res) = sv_argonInflight sr.1) (finish_failure host ip ua nojs now draws e sr).
Proof.
  unfold finish_failure. destruct sr as [s retry].
  assert (Hd : forall reason resp, returns (fun res : pass_result => sv_argonInflight (pa_server res) = sv_argonInflight s)
    (let s1 := log_outcome (RecordRedeemFailure host ip ua reason now) s in
     match scored_event nojs reason with
     | Some evtype => bind (ReportEvent host ip evtype (pow_error_text e) draws (sv_engine s1)) (fun _ => Ret (mk_pass resp None s1 false))
     | None => Ret (mk_pass resp None s1 false) end)).
  { intros reason resp. cbn zeta. destruct (scored_event nojs reason); [| done]. eapply returns_bind; [apply returns_any | done]. }
  destruct e; try (by apply Hd). repeat case_match; try done; by apply Hd.
Qed.

(** A redemption that took an Argon2 verifier slot gives it back whatever
    the store answers and whichever way it ends: the number in flight after it
    is the number before. *)
Theorem verifier_slot_given_back clk around draws sol nojs r s :
  returns (fun res => sv_argonInflight (pa_server res) = sv_argonInflight s) (redeem hash clk around draws sol nojs r s).
Proof.
  unfold redeem. destruct (Server.sv_pow s) as [m |]; [| done]. destruct (PoWAnywhere _); [| done].
  set (host := headerOr r hdrHost _). set (ip := clientIP r). set (asn := OriginASN ip _). set (cfg := live_config s).
  eapply returns_bind.
  - apply (track_balanced cfg host ip asn clk s _ true 0); [| done | lia].
    apply Redeem_balanced; [done |]. eexists. split; [reflexivity |]. reflexivity.
  - intros [[res | e] sr] Hsr; cbn [snd] in Hsr.
    + cbn [returns]. rewrite <- Hsr. unfold finish_success. by destruct (rr_Outcome res).
    + eapply returns_mono; [| apply finish_failure_argon]. cbn. intros res ->. exact Hsr.
Qed.

(** What the browser is told of a failure. *)
Definition internal_answer (nojs : bool) : Response :=
  if nojs then http_Error [] (lit "challenge verification failed") StatusInternalServerError
  else writeJSON [] StatusInternalServerError (failure (lit "challenge verification unavailable")).

Lemma finish_failure_internal host ip ua nojs now draws e sr : redeemFailReason e = ReasonRedeemInternal ->
  (forall code, e <> ErrCallback code) ->
  exists s, finish_failure host ip ua nojs now draws e sr = Ret (mk_pass (internal_answer nojs) None s false).
Proof.
  intros Hr Hc. unfold finish_failure. destruct sr as [s retry]. rewrite Hr. unfold failure_response, scored_event. rewrite Hr.
  rewrite bool_decide_eq_true_2 by done. cbn [orb].
  destruct e; try discriminate Hr; try (by eexists). by destruct (Hc code).
Qed.

(** C17: The answer to a redemption follows its outcome: only a solved one sets
    the cookie, with the token it minted; a failure sets none, leaves the
    store as the redemption left it unless it is a posted solution the client
    got wrong, and an internal failure tells the browser nothing but a fixed
    text. *)
Theorem redemption_answer_matches_outcome {S : Type} `{!StoreOps S} clk around draws sol nojs r s m (tm : nat -> clock) (st : S)
  (Hm : Server.sv_pow s = Some m) (Hp : PoWAnywhere (DomainFor (live_config s) (headerOr r hdrHost (hr_Host r))) = true) :
  let host := headerOr r hdrHost (hr_Host r) in
  let cfg := live_config s in
  let asn := OriginASN (clientIP r) (sv_engine s) in
  let req := redeem_request hash cfg (rd_cfg (DomainFor cfg host)) host (clientIP r) (headerOr r hdrUA (HGet (hr_Header r) (lit "User-Agent"))) asn clk sol nojs s in
  let redemption := run (Redeem m around (fun i => clk (5 + i)%nat) req) tm st in
  let answer := run (redeem hash clk around draws sol nojs r s) tm st in
  let res := answer.2 in
  match redemption.2 with
  | Ok rr =>
    answer.1 = redemption.1 /\ pa_redeemed res = true /\
    pa_cookie res = (if rr_Outcome rr is RedeemSolved then Some (token_cookie (hr_Header r) rr) else None)
  | Err e =>
    pa_cookie res = None /\ pa_redeemed res = false /\
    (nojs = true \/ redeemFailReason e = ReasonRedeemInternal -> answer.1 = redemption.1) /\
    (redeemFailReason e = ReasonRedeemInternal -> (forall code, e <> ErrCallback code) -> pa_response res = internal_answer nojs)
  end.
Proof.
  cbn zeta. unfold redeem. rewrite Hm, Hp. set (host := headerOr r hdrHost _). set (cfg := live_config s).
  set (req := redeem_request _ _ _ _ _ _ _ _ _ _ _). split_run. rewrite run_track.
  destruct (run (Redeem _ _ _ _) _ _) as [[st1 es1] out]. cbn [fst snd]. destruct out as [rr | e].
  - cbn [run fst snd]. rewrite app_nil_r. unfold finish_success. destruct (rr_Outcome rr); done.
  - set (sr := fold_left _ es1 _).
    pose proof (returns_run _ _ tm0 st1 (finish_failure_no_cookie host (clientIP r) (headerOr r hdrUA (HGet (hr_Header r) (lit "User-Agent"))) nojs (clk 7%nat) draws e sr)) as Hc.
    pose proof (finish_failure_quiet host (clientIP r) (headerOr r hdrUA (HGet (hr_Header r) (lit "User-Agent"))) nojs (clk 7%nat) draws e sr) as Hq.
    pose proof (finish_failure_internal host (clientIP r) (headerOr r hdrUA (HGet (hr_Header r) (lit "User-Agent"))) nojs (clk 7%nat) draws e sr) as Hi.
    destruct (run (finish_failure _ _ _ _ _ _ _ _) _ _) as [[st2 es2] res] eqn:Er. cbn [fst snd] in Hc |- *. destruct Hc as [Hc1 Hc2].
    split_ands; [done | done | |].
    + intros Hn. destruct (Hq Hn) as [res' Hr]. rewrite Hr in Er. cbn in Er. injection Er as <- <- <-. by rewrite app_nil_r.
    + intros Hint Hcode. destruct (Hi Hint Hcode) as [s' Hr]. rewrite Hr in Er. cbn in Er. by injection Er as <- <- <-.
Qed.
End Transport.

(** * A concrete exchange *)
Module Ex.
#[export] Existing Instance ascii_only.
#[export] Existing Instance Waf.Ex.literals.
#[export] Existing Instance Intel.Ex.no_db.
#[export] Existing Instance Verdicts.Ex.to_int.
#[export] Existing Instances Pow.Ex.argon Pow.Ex.signer PowStateless.ExS.codec.
#[export] Instance wire : Wire := {| ParseMediaType := fun s => Some s; decode_solution := fun _ => None |}.

Definition no_hash (i : nat) (k : gostring) : Z := 0.
Definition server : Server :=
  mk_server (Verdicts.Ex.engine false) (Verdicts.Ex.cfg false) (Some Pow.Ex.manager) CounterCache.NewCounterCache CounterCache.NewCounterCache 0.
(** The same server after a reload that challenges everybody. *)
Definition from_angie (extra : list (gostring * list gostring)) : Request :=
  mk_http (lit "guardian") (lit "GET") (lit "/auth") (lit "127.0.0.1:5000")
    (list_to_map ([(hdrHost, [lit "example.org"]); (hdrIP, [lit "192.0.2.7"]); (hdrURI, [lit "/favicon.ico"]); (hdrUA, [lit "ua"])] ++ extra)) ∅ [].
Definition favicon : Request := from_angie [(hdrAccept, [lit "*/*"])].
(** The second hop, with the client's Accept header lost on the way. *)
Definition diverted : Request := from_angie [(hdrRefusal, [outcomeAcceptRefused])].
Definition clk : clock := fun _ => Pow.Ex.now + second.
Definition draw : issue_draw := mk_draw Pow.Ex.id [] (Pow.Ex.now + second) (lit "random bytes") [] (Pow.Ex.now + second) (Some Pow.Ex.manager).
Definition auth := handleAuth Verdicts.Ex.no_detail Verdicts.Ex.empty_store 1 Verdicts.Ex.draws 1 favicon server.
Definition auth_eval : evaluation := match auth with (_, Some ev, _) => ev | _ => mk_eval default_allow (Verdicts.Ex.engine false) [] [] end.

Lemma hops_agree_across_reload_witness :
  rs_Status auth.1.1 = StatusUnauthorized /\
  exists msg, handleChallenge no_hash clk draw Verdicts.Ex.draws diverted server = Ret (mk_page_result (refuseChallenge msg) server None).
Proof.
  split; [vm_compute; reflexivity |].
  refine (proj1 (hops_agree_across_reload Verdicts.Ex.no_detail no_hash Verdicts.Ex.empty_store 1 Verdicts.Ex.draws 1 favicon server
    (Verdicts.Ex.snap false) auth.1.1 auth_eval auth.2 clk draw Verdicts.Ex.draws diverted server eq_refl _ _ _) _).
  - vm_compute. split; discriminate.
  - vm_compute. reflexivity.
  - vm_compute. reflexivity.
  - vm_compute. reflexivity.
Defined.

(** A visitor without Fetch metadata that asks for HTML gets a page; a forged
    difficulty below the floor changes nothing. *)
Definition visitor : Request := from_angie [(hdrAccept, [lit "text/html"]); (hdrDifficulty, [lit "1"])].
Definition page : page_result := (run (handleChallenge no_hash clk draw Verdicts.Ex.draws visitor server) (fun _ => clk) (∅ : amap)).2.
Definition page_challenge : Challenge := match pr_issued page with Some ch => ch | None => mk_challenge [] [] [] 0 0 0 [] end.

(** The same visitor of a domain that asks for Argon2, while the posture is at
    the attack level. *)
Definition argon_pow : PoWConfig :=
  let p := dc_PoW (Verdicts.Ex.dcfg false) in
  mk_pow (pw_Enabled p) PoWAlgorithmArgon2ID (pw_Mode p) (pw_BaseDifficulty p) (pw_MaxDifficulty p) (pw_TokenTTL p) (pw_ChallengeTTL p) (pw_IssuanceRateLimit p)
    (pw_NoScriptRedemptionRateLimit p) (pw_NoScriptFallback p) (mk_argon 8192 1 2 3) (pw_RefuseUnchallengeable p) (pw_HeaderExemptions p) (pw_headerExemptionKey p).
Definition argon_cfg : Config :=
  let c := Verdicts.Ex.dcfg false in
  mk_cfg (mk_resolved (mk_domain (dc_WAF c) argon_pow (dc_Geo c) (dc_Reputation c) (dc_Allowlist c) (dc_Denylist c) (dc_VerifiedBots c) (dc_label c)) [])
    ∅ [] [] (lit "key") 0 false 0 (mk_verifier 1 (mk_rate 10 minute)).
Definition under_attack (level : Z) : Engine :=
  let e := Verdicts.Ex.engine false in
  mk_engine (Some (mk_snap argon_cfg (f64 1) Verdicts.Ex.rules Verdicts.Ex.model None ∅)) (eg_pow e) (eg_verifyBot e) (eg_cachedBot e) (eg_board e) (eg_enforcer e)
    (AttackMode.mk_state level 4 30 false false 0 (lit "forced")) (eg_recent e).
Definition argon_server (level : Z) : Server :=
  mk_server (under_attack level) argon_cfg (Some Pow.Ex.manager) CounterCache.NewCounterCache CounterCache.NewCounterCache 0.
Definition argon_page (level : Z) : page_result :=
  (run (handleChallenge no_hash clk draw Verdicts.Ex.draws visitor (argon_server level)) (fun _ => clk) (∅ : amap)).2.
Definition issued_by (res : page_result) : Challenge := match pr_issued res with Some ch => ch | None => mk_challenge [] [] [] 0 0 0 [] end.

Lemma issued_challenge_in_window_witness :
  (pr_issued page = Some page_challenge /\ ch_Difficulty page_challenge = 16) /\
  ch_Iterations (issued_by (argon_page AttackMode.Attack)) = 3 /\ ch_Iterations (issued_by (argon_page AttackMode.Elevated)) = 2.
Proof.
  split; [| split].
  - assert (Hi : pr_issued page = Some page_challenge) by (vm_compute; reflexivity). split; [exact Hi |].
    pose proof (issued_challenge_in_window no_hash clk draw Verdicts.Ex.draws visitor server ltac:(vm_compute; discriminate) ltac:(vm_compute; discriminate)) as Hr.
    destruct Hr as (_ & _ & Hr). destruct (returns_run _ _ (fun _ => clk) (∅ : amap) Hr page_challenge Hi) as (_ & _ & [_ Hc] & _).
    rewrite Hc. vm_compute. reflexivity.
  - pose proof (issued_challenge_in_window no_hash clk draw Verdicts.Ex.draws visitor (argon_server AttackMode.Attack) ltac:(vm_compute; discriminate) ltac:(vm_compute; discriminate)) as Hr.
    destruct Hr as (_ & _ & Hr).
    destruct (returns_run _ _ (fun _ => clk) (∅ : amap) Hr (issued_by (argon_page AttackMode.Attack)) ltac:(vm_compute; reflexivity)) as (_ & _ & (_ & _ & Hc & _) & _).
    exact (Hc eq_refl).
  - pose proof (issued_challenge_in_window no_hash clk draw Verdicts.Ex.draws visitor (argon_server AttackMode.Elevated) ltac:(vm_compute; discriminate) ltac:(vm_compute; discriminate)) as Hr.
    destruct Hr as (_ & _ & Hr).
    destruct (returns_run _ _ (fun _ => clk) (∅ : amap) Hr (issued_by (argon_page AttackMode.Elevated)) ltac:(vm_compute; reflexivity)) as (_ & _ & (_ & _ & _ & Hc & _) & _).
    exact (Hc eq_refl).
Defined.

Lemma advised_wait_reaches_fresh_counter_witness :
  retryAfterSeconds (retry_after (mk_rate 6 minute) (130 * second)) = 50 /\ 1 <= 50 <= 60.
Proof.
  split; [vm_compute; reflexivity |].
  refine (proj1 (advised_wait_reaches_fresh_counter (mk_rate 6 minute) (130 * second) [] [] [] _ _)); vm_compute; discriminate.
Defined.

(** A posted solution of the stored challenge of [Pow.Ex] sets the cookie. *)
Definition solved : solution := mk_solution Pow.Ex.id (lit "38") [] 0.
Definition no_around : surroundings := mk_around None None 0 0 0 0 false false.
Definition redeemed := run (redeem no_hash clk no_around Verdicts.Ex.draws solved false (from_angie []) server) (fun _ => clk) Pow.Ex.store0.

Lemma redemption_answer_matches_outcome_witness :
  pa_redeemed redeemed.2 = true /\ exists token, pa_cookie redeemed.2 = Some (mk_cookie CookieName token (24 * 3600) true).
Proof.
  pose proof (redemption_answer_matches_outcome no_hash clk no_around Verdicts.Ex.draws solved false (from_angie []) server Pow.Ex.manager
    (fun _ => clk) Pow.Ex.store0 eq_refl ltac:(vm_compute; reflexivity)) as Hr. cbn zeta in Hr.
  change (run (redeem _ _ _ _ _ _ _ _) _ _) with redeemed in Hr.
  match type of Hr with context [match ?x with Ok _ => _ | Err _ => _ end] => let v := eval vm_compute in x in replace x with v in Hr by (vm_compute; reflexivity) end.
  destruct Hr as (_ & Hp & Hc). split; [exact Hp |]. eexists. exact Hc.
Defined.
End Ex.
