(* ===== verification/Admin.v ===== *)
(** * The admin API (transport/http/admin.go, admin_diagnostics.go)

    The routes of the operator's listener, the bearer token in front of them,
    and the handlers that change something.  A handler either answers or names
    the command it carries out, with the answer to each of its outcomes; what
    a command does is the business of Operator, Rotation, AttackMode and
    Enforce.  The handlers that only read are in AdminViews or, where they only
    lay out another component's state, a parameter. *)

From S2P Require Export Operator Duration Http.
From S2P Require Health.

Open Scope Z_scope.

(** ** Requests and answers *)

(** [aq_Path]: the segments of the escaped path, unescaped.  [aq_OriginHost]:
    the host of the parsed Origin header. *)
Record AdminRequest := mk_areq {
  aq_Method : gostring;
  aq_Path : list gostring;
  aq_Host : gostring;
  aq_OriginHost : option gostring;
  aq_Header : Header;
  aq_Query : gmap gostring gostring;
  aq_RawQuery : gostring;
  aq_Body : gostring
}.

Definition QGet (q : gmap gostring gostring) (name : string) : gostring := default [] (q !! lit name).
Definition QHas (q : gmap gostring gostring) (name : string) : bool := bool_decide (is_Some (q !! lit name)).

Inductive aval :=
| VBool (b : bool) | VStr (s : gostring) | VInt (n : Z) | VStrs (l : list gostring)
| VReset (r : UnblockReset) | VDetail (d : BlockDetail) | VBlocks (l : list BlockEntry) | VHealth (st : Health.Status)
| VList (l : list aval)
| VObject (fields : list (gostring * aval)).

Record AdminResponse := mk_aresp { ap_Status : Z; ap_Headers : list (gostring * gostring); ap_Body : aval }.

Definition writeAdmin (status : Z) (fields : list (string * aval)) : AdminResponse :=
  mk_aresp status [] (VObject (map (fun f => (lit f.1, f.2)) fields)).
Definition admin_error (status : Z) (msg : gostring) : AdminResponse := writeAdmin status [("error"%string, VStr msg)].

Definition StatusAccepted : Z := 202.
Definition StatusNotFound : Z := 404.
Definition StatusMethodNotAllowed : Z := 405.
Definition StatusUnprocessableEntity : Z := 422.

(** ** Commands *)
Inductive command : Type -> Type :=
| CBlock (ip reason : gostring) (ttl : Z) : command (option gostring)
| CUnblock (ip : gostring) (resetBackoff : bool) : command (UnblockReset * option gostring)
| CRotate (keyPath prevDir : gostring) : command (option gostring)
| CReload : command (option gostring)
| CReconcile : command unit
| CPin (level ttl : Z) : command unit
| CUnpin : command Z
| CCapture : command AdminResponse.

Inductive handled :=
| Answer (r : AdminResponse)
| Perform {X : Type} (c : command X) (k : X -> AdminResponse).

(** ** The server *)
Record AdminServer := mk_admin {
  as_token : gostring;
  as_keyPath : gostring;
  as_prevDir : gostring;
  as_reload : bool;
  as_preflight : option (outcome gostring (list gostring));   (* what the closure answers *)
  as_metrics : bool;
  as_metricsAuth : bool;
  as_dashboard : bool;
  as_pow : bool;
  as_enforcer : bool;
  as_attack : bool;
  as_health : option Health.Checker;
  as_sinks : list (gostring * bool);                          (* name, healthy *)
  as_level : gostring;                                        (* the detector's current level *)
  as_diagnostics : bool;
  as_capturing : bool;                                        (* diagnosticsActive *)
  as_captureNext : Z                                          (* diagnosticsNext *)
}.

(** The handlers that only read. *)
Inductive view :=
| ViewMetrics | ViewDecisions | ViewStats | ViewDistributions | ViewOffenders | ViewAngie | ViewScore | ViewAnomaly | ViewConfig
| ViewIntel | ViewIntelLookup (ip : gostring) | ViewOffload | ViewAttack | ViewDashboard | ViewAsset (path : list gostring).

Class AdminWire := {
  decode_block : gostring -> option (gostring * gostring);    (* reason, ttl *)
  decode_attack : gostring -> option (gostring * gostring)    (* level, ttl *)
}.

Section Admin.
Context `{Unicode, FloatToInt, AdminWire}.
(** Error texts of the libraries, the read-only handlers, the blocks the store
    answers with, and the clock. *)
Variables (json_error netip_error : gostring -> gostring) (duration_text : duration_error -> gostring).
Variable read_only : view -> AdminRequest -> AdminResponse.
Variables (listed : Z -> outcome gostring (list BlockEntry * bool)) (detail : gostring -> outcome gostring BlockDetail).
Variable now : Z.

Definition bearer_prefix : gostring := lit "Bearer ".

Definition authorized (token : gostring) (h : Header) : bool :=
  let got := HGet h (lit "Authorization") in
  has_prefix bearer_prefix got && (length bearer_prefix <? length got)%nat && bool_decide (drop (length bearer_prefix) got = token).

Definition unauthorized : AdminResponse :=
  mk_aresp StatusUnauthorized [(lit "WWW-Authenticate", lit "Bearer")] (VObject [(lit "error", VStr (lit "unauthorized"))]).

(** ** Blocks *)
Definition canonicalAdminIP (raw : gostring) : outcome AdminResponse gostring :=
  match ParseAddr raw with
  | None => Err (admin_error StatusBadRequest (lit "invalid ip: " ++ netip_error raw))
  | Some addr => Ok (addr_String (Unmap addr))
  end.

Definition maxAdminBody : nat := Z.to_nat 4096.

Definition handleBlockStatus (raw : gostring) : handled :=
  match canonicalAdminIP raw with
  | Err r => Answer r
  | Ok ip => Answer (match detail ip with Err e => admin_error StatusInternalServerError e | Ok d => mk_aresp StatusOK [] (VDetail d) end)
  end.

(** The reason reaches a response header and the log. *)
Definition control (c : ascii) : bool := (byteZ c <? 32) || (byteZ c =? 127).

Definition defaultBlockTTL : Z := 24 * hour.

Definition block_body (raw : gostring) : option (gostring * gostring) :=
  if (maxAdminBody <? length raw)%nat then None
  else if bool_decide (TrimSpace raw = []) then Some ([], []) else decode_block raw.

Definition handleBlock (raw : gostring) (body : gostring) : handled :=
  match canonicalAdminIP raw with
  | Err r => Answer r
  | Ok ip =>
    match block_body body with
    | None => Answer (admin_error StatusBadRequest (lit "malformed request: " ++ json_error body))
    | Some (reason, ttl_text) =>
      let parsed := if bool_decide (ttl_text = []) then Ok defaultBlockTTL else
                    match Parse ttl_text with Some (Ok d) => Ok d | Some (Err e) => Err (duration_text e) | None => Err [] end in
      match parsed with
      | Err text => Answer (admin_error StatusBadRequest (lit "invalid ttl: " ++ text))
      | Ok ttl =>
        if ttl <=? 0 then Answer (admin_error StatusBadRequest (lit "ttl must be greater than zero"))
        else if MaxStateTTL <? ttl then Answer (admin_error StatusBadRequest (lit "ttl must be at most " ++ Duration_String MaxStateTTL))
        else
          let reason := if bool_decide (reason = []) then lit "admin" else reason in
          if (200 <? length reason)%nat || existsb control reason then Answer (admin_error StatusBadRequest (lit "reason must be at most 200 characters without control characters"))
          else Perform (CBlock ip reason ttl) (fun failed =>
            match failed with
            | Some e => admin_error StatusInternalServerError e
            | None => writeAdmin StatusOK [("ip"%string, VStr ip); ("blocked"%string, VBool true); ("reason"%string, VStr reason); ("ttl"%string, VStr (Duration_String ttl))]
            end)
      end
    end
  end.

(** [strconv.ParseBool]. *)
Definition ParseBool (s : gostring) : option bool :=
  if one_of ["1"; "t"; "T"; "true"; "TRUE"; "True"]%string s then Some true
  else if one_of ["0"; "f"; "F"; "false"; "FALSE"; "False"]%string s then Some false
  else None.

Definition handleUnblock (raw : gostring) (q : gmap gostring gostring) : handled :=
  match canonicalAdminIP raw with
  | Err r => Answer r
  | Ok ip =>
    let raw := QGet q "reset_backoff" in
    match (if bool_decide (raw = []) then Some true else ParseBool raw) with
    | None => Answer (admin_error StatusBadRequest (lit "reset_backoff must be true or false"))
    | Some resetBackoff =>
      Perform (CUnblock ip resetBackoff) (fun done =>
        match done.2 with
        | Some e => admin_error StatusInternalServerError e
        | None => writeAdmin StatusOK [("ip"%string, VStr ip); ("blocked"%string, VBool false); ("reset"%string, VReset done.1)]
        end)
    end
  end.

Definition defaultBlockListLimit : Z := 1000.
Definition maxBlockListLimit : Z := 10000.

Definition handleBlockList (q : gmap gostring gostring) : handled :=
  let raw := QGet q "limit" in
  let limit := if bool_decide (raw = []) then Some defaultBlockListLimit else
               match ParseInt raw with Ok n => if (n <? 1) || (maxBlockListLimit <? n) then None else Some n | Err _ => None end in
  match limit with
  | None => Answer (admin_error StatusBadRequest (lit "limit must be an integer from 1 through 10000"))
  | Some limit =>
    Answer (match listed limit with
            | Err e => admin_error StatusInternalServerError e
            | Ok (blocks, complete) => writeAdmin StatusOK [("count"%string, VInt (Z.of_nat (length blocks))); ("complete"%string, VBool complete); ("blocks"%string, VBlocks blocks)]
            end)
  end.

(** ** Keys, configuration, offload *)
Definition handleRotateKey (s : AdminServer) : handled :=
  if negb (as_pow s) then Answer (admin_error StatusServiceUnavailable (lit "proof-of-work not configured"))
  else if bool_decide (as_keyPath s = []) then Answer (admin_error StatusBadRequest (lit "no signing_key_file configured; cannot rotate"))
  else if bool_decide (TrimSpace (as_prevDir s) = []) then Answer (admin_error StatusBadRequest (lit "no previous_key_dir configured; safe rotation requires an archive directory"))
  else Perform (CRotate (as_keyPath s) (as_prevDir s)) (fun failed =>
    match failed with Some e => admin_error StatusInternalServerError e | None => writeAdmin StatusOK [("rotated"%string, VBool true)] end).

Definition handleReload (s : AdminServer) : handled :=
  if negb (as_reload s) then Answer (admin_error StatusServiceUnavailable (lit "reload not available"))
  else Perform CReload (fun failed =>
    match failed with
    | Some e => writeAdmin StatusUnprocessableEntity [("reloaded"%string, VBool false); ("error"%string, VStr e)]
    | None => writeAdmin StatusOK [("reloaded"%string, VBool true)]
    end).

Definition handleReloadPreflight (s : AdminServer) : AdminResponse :=
  match as_preflight s with
  | None => admin_error StatusServiceUnavailable (lit "preflight not available")
  | Some (Err e) => writeAdmin StatusUnprocessableEntity [("reloadable"%string, VBool false); ("error"%string, VStr e)]
  | Some (Ok changed) => writeAdmin StatusOK [("reloadable"%string, VBool (bool_decide (changed = []))); ("restart_required"%string, VStrs changed)]
  end.

Definition handleOffloadReconcile (s : AdminServer) : handled :=
  if as_enforcer s then Perform CReconcile (fun _ => writeAdmin StatusAccepted [("status"%string, VStr (lit "reconcile scheduled"))])
  else Answer (admin_error StatusConflict (lit "enforcement offload not active")).

(** ** The attack posture *)
Definition attack_body (raw : gostring) : option (gostring * gostring) := if (maxAdminBody <? length raw)%nat then None else decode_attack raw.

Definition handleAttackSet (s : AdminServer) (body : gostring) : handled :=
  if negb (as_attack s) then Answer (admin_error StatusConflict (lit "attack mode not active")) else
  match attack_body body with
  | None => Answer (admin_error StatusBadRequest (lit "malformed request: " ++ json_error body))
  | Some (level_text, ttl_text) =>
    let '(level, auto, ok) := AttackMode.ParseLevel level_text in
    if negb ok then Answer (admin_error StatusBadRequest (lit "level must be normal, elevated, attack or auto"))
    else if auto : bool then Perform CUnpin (fun level => writeAdmin StatusOK [("pinned"%string, VBool false); ("level"%string, VStr (AttackMode.Level_String level))])
    else
      let pin ttl := Perform (CPin level ttl) (fun _ => writeAdmin StatusOK [("pinned"%string, VBool true); ("level"%string, VStr (AttackMode.Level_String level))]) in
      if bool_decide (ttl_text = []) then pin 0 else
      match Parse ttl_text with
      | Some (Ok ttl) =>
        if ttl <=? 0 then Answer (admin_error StatusBadRequest (lit "ttl must be positive when supplied"))
        else if MaxStateTTL <? ttl then Answer (admin_error StatusBadRequest (lit "ttl must be at most " ++ Duration_String MaxStateTTL))
        else pin ttl
      | Some (Err e) => Answer (admin_error StatusBadRequest (lit "invalid ttl: " ++ duration_text e))
      | None => Answer (admin_error StatusBadRequest (lit "invalid ttl: "))
      end
  end.

(** ** Readiness *)
Definition handleReadyz (s : AdminServer) : AdminResponse :=
  let reason := Health.notReadyReason (as_health s) in
  let ready := bool_decide (reason = []) in
  writeAdmin (if ready then StatusOK else StatusServiceUnavailable)
    ([("ready"%string, VBool ready)] ++ (if ready then [] else [("reason"%string, VStr reason)]) ++
     match as_health s with Some _ => [("store"%string, VHealth (Health.status (as_health s)))] | None => [] end ++
     (if as_enforcer s && negb (bool_decide (as_sinks s = [])) then
        [("enforcement"%string, VObject [(lit "sinks", VList (map (fun k => VObject [(lit "name", VStr k.1); (lit "healthy", VBool k.2)]) (as_sinks s)))])] else []) ++
     (if as_attack s then [("attack"%string, VObject [(lit "level", VStr (as_level s))])] else [])).

(** ** Goroutine captures *)
Definition diagnosticsCooldown : Z := minute.
Definition retrySeconds (next now : Z) : Z := if next <=? now then 0 else Z.quot (next - now + second - 1) second.

Definition handleGoroutineDiagnosticsStatus (s : AdminServer) : AdminResponse :=
  writeAdmin StatusOK [("enabled"%string, VBool (as_diagnostics s)); ("capturing"%string, VBool (as_capturing s)); ("retry_after_seconds"%string, VInt (retrySeconds (as_captureNext s) now))].

Definition handleGoroutineDiagnosticsCapture (s : AdminServer) (r : AdminRequest) : handled :=
  if negb (as_diagnostics s) then Answer (admin_error StatusNotFound (lit "runtime diagnostics are disabled"))
  else if negb (bool_decide (aq_Body r = [])) || negb (bool_decide (aq_RawQuery r = [])) then
    Answer (admin_error StatusBadRequest (lit "diagnostic capture requires an empty body and no query parameters"))
  else if as_capturing s then Answer (admin_error StatusConflict (lit "a diagnostic capture or download is already active"))
  else
    let retry := retrySeconds (as_captureNext s) now in
    if negb (retry =? 0) then Answer (mk_aresp StatusTooManyRequests [(lit "Retry-After", FormatInt retry)] (VObject [(lit "error", VStr (lit "diagnostic capture is cooling down"))]))
    else Perform CCapture (fun r => r).

(** A capture that starts, and its end. *)
Definition begin_capture (s : AdminServer) : AdminServer :=
  mk_admin (as_token s) (as_keyPath s) (as_prevDir s) (as_reload s) (as_preflight s) (as_metrics s) (as_metricsAuth s) (as_dashboard s) (as_pow s) (as_enforcer s)
    (as_attack s) (as_health s) (as_sinks s) (as_level s) (as_diagnostics s) true (now + diagnosticsCooldown).
Definition end_capture (s : AdminServer) : AdminServer :=
  mk_admin (as_token s) (as_keyPath s) (as_prevDir s) (as_reload s) (as_preflight s) (as_metrics s) (as_metricsAuth s) (as_dashboard s) (as_pow s) (as_enforcer s)
    (as_attack s) (as_health s) (as_sinks s) (as_level s) (as_diagnostics s) false (as_captureNext s).

(** ** Routes *)
Inductive seg := Lit (name : string) | Wild.
Record route := mk_route { ro_method : string; ro_pattern : list seg; ro_auth : bool; ro_handler : AdminRequest -> gostring -> handled }.

(** The value of the wildcard, which is not empty. *)
Fixpoint match_pattern (pat : list seg) (path : list gostring) (wild : gostring) : option gostring :=
  match pat, path with
  | [], [] => Some wild
  | Lit name :: pat, x :: path => if bool_decide (x = lit name) then match_pattern pat path wild else None
  | Wild :: pat, x :: path => if bool_decide (x = []) then None else match_pattern pat path x
  | _, _ => None
  end.

(** A GET pattern serves HEAD too. *)
Definition match_method (m : string) (method : gostring) : bool :=
  bool_decide (method = lit m) || (bool_decide (m = "GET"%string) && bool_decide (method = lit "HEAD")).

Definition seen (v : view) : AdminRequest -> gostring -> handled := fun r _ => Answer (read_only v r).
Definition healthz : AdminResponse := mk_aresp StatusOK [] (VStr (lit "ok" ++ [Zbyte 10])).

Definition dashboardAssets : list string :=
  ["chart.umd.min.js"; "chart-geo.umd.min.js"; "hammer.min.js"; "chartjs-plugin-zoom.min.js"; "countries-110m.json"]%string.

Definition under_admin (names : list string) : list seg := Lit "admin" :: map Lit names.

Definition routes (s : AdminServer) : list route :=
  (if as_metrics s then [mk_route "GET" [Lit "metrics"] (as_metricsAuth s) (seen ViewMetrics)] else []) ++
  [ mk_route "GET" [Lit "healthz"] false (fun _ _ => Answer healthz);
    mk_route "GET" [Lit "readyz"] false (fun _ _ => Answer (handleReadyz s));
    mk_route "GET" (under_admin ["blocks"]%string) true (fun r _ => handleBlockList (aq_Query r));
    mk_route "GET" (under_admin ["blocks"]%string ++ [Wild]) true (fun _ ip => handleBlockStatus ip);
    mk_route "PUT" (under_admin ["blocks"]%string ++ [Wild]) true (fun r ip => handleBlock ip (aq_Body r));
    mk_route "DELETE" (under_admin ["blocks"]%string ++ [Wild]) true (fun r ip => handleUnblock ip (aq_Query r));
    mk_route "GET" (under_admin ["decisions"]%string) true (seen ViewDecisions);
    mk_route "GET" (under_admin ["stats"]%string) true (seen ViewStats);
    mk_route "GET" (under_admin ["distributions"]%string) true (seen ViewDistributions);
    mk_route "GET" (under_admin ["offenders"]%string) true (seen ViewOffenders);
    mk_route "GET" (under_admin ["angie"]%string) true (seen ViewAngie);
    mk_route "GET" (under_admin ["score"]%string) true (seen ViewScore);
    mk_route "GET" (under_admin ["anomaly"]%string) true (seen ViewAnomaly);
    mk_route "POST" (under_admin ["rotate-key"]%string) true (fun _ _ => handleRotateKey s);
    mk_route "POST" (under_admin ["reload"]%string) true (fun _ _ => handleReload s);
    mk_route "GET" (under_admin ["reload"; "preflight"]%string) true (fun _ _ => Answer (handleReloadPreflight s));
    mk_route "GET" (under_admin ["config"]%string) true (seen ViewConfig);
    mk_route "GET" (under_admin ["diagnostics"; "goroutines"]%string) true (fun _ _ => Answer (handleGoroutineDiagnosticsStatus s));
    mk_route "POST" (under_admin ["diagnostics"; "goroutines"]%string) true (fun r _ => handleGoroutineDiagnosticsCapture s r);
    mk_route "GET" (under_admin ["intel"]%string) true (seen ViewIntel);
    mk_route "GET" (under_admin ["intel"]%string ++ [Wild]) true (fun r ip => Answer (read_only (ViewIntelLookup ip) r));
    mk_route "GET" (under_admin ["offload"]%string) true (seen ViewOffload);
    mk_route "POST" (under_admin ["offload"; "reconcile"]%string) true (fun _ _ => handleOffloadReconcile s);
    mk_route "GET" (under_admin ["attack"]%string) true (seen ViewAttack);
    mk_route "POST" (under_admin ["attack"]%string) true (fun r _ => handleAttackSet s (aq_Body r)) ] ++
  (if as_dashboard s then
     mk_route "GET" (under_admin ["dashboard"]%string) false (seen ViewDashboard) ::
     map (fun name => mk_route "GET" (under_admin [name]) false (fun r _ => Answer (read_only (ViewAsset (aq_Path r)) r))) dashboardAssets
   else []).

(** [http.CrossOriginProtection]. *)
Definition cross_origin_denied (r : AdminRequest) : bool :=
  if one_of ["GET"; "HEAD"; "OPTIONS"]%string (aq_Method r) then false
  else
    let site := HGet (aq_Header r) hdrSecFetchSite in
    if bool_decide (site = []) then
      if bool_decide (HGet (aq_Header r) (lit "Origin") = []) then false else negb (bool_decide (aq_OriginHost r = Some (aq_Host r)))
    else negb (one_of ["same-origin"; "none"]%string site).

Fixpoint dispatch (rs : list route) (r : AdminRequest) : option (route * gostring) :=
  match rs with
  | [] => None
  | x :: rest =>
    if match_method (ro_method x) (aq_Method r) then
      match match_pattern (ro_pattern x) (aq_Path r) [] with Some w => Some (x, w) | None => dispatch rest r end
    else dispatch rest r
  end.

Definition path_known (rs : list route) (r : AdminRequest) : bool := existsb (fun x => bool_decide (is_Some (match_pattern (ro_pattern x) (aq_Path r) []))) rs.

Definition serve (s : AdminServer) (r : AdminRequest) : handled :=
  if cross_origin_denied r then Answer (mk_aresp StatusForbidden [] (VStr (lit "cross-origin request denied")))
  else
    match dispatch (routes s) r with
    | Some (x, w) => if ro_auth x && negb (authorized (as_token s) (aq_Header r)) then Answer unauthorized else ro_handler x r w
    | None => Answer (mk_aresp (if path_known (routes s) r then StatusMethodNotAllowed else StatusNotFound) [] (VStr []))
    end.
End Admin.

(** * Theory *)

(** ** Routing and the token *)

(** The methods of the routes that change something. *)
Definition changing : list string := ["PUT"; "DELETE"; "POST"]%string.

Lemma dispatch_in rs r x w : dispatch rs r = Some (x, w) -> x ∈ rs /\ match_method (ro_method x) (aq_Method r) = true.
Proof.
  induction rs as [| y rs IH]; [done |]. cbn [dispatch]. rewrite elem_of_cons. destruct (match_method (ro_method y) (aq_Method r)) eqn:Em; [| intros Hd; apply IH in Hd; tauto].
  destruct (match_pattern _ _ _); [intros [= <- <-]; auto |]. intros Hd. apply IH in Hd. tauto.
Qed.

Lemma dispatch_method rs r x w : dispatch rs r = Some (x, w) -> ro_method x ∈ changing -> aq_Method r = lit (ro_method x).
Proof.
  intros [_ Hm]%dispatch_in Hc. unfold match_method in Hm. apply orb_true_iff in Hm as [Hm%bool_decide_eq_true_1 | [Hg%bool_decide_eq_true_1 _]%andb_true_iff]; [done |].
  rewrite Hg in Hc. unfold changing in Hc. set_solver.
Qed.

Lemma authorized_spec token h : authorized token h = true -> HGet h (lit "Authorization") = bearer_prefix ++ token /\ token <> [].
Proof.
  unfold authorized. intros [[Hp Hl%Nat.ltb_lt]%andb_true_iff Hd%bool_decide_eq_true_1]%andb_true_iff. apply has_prefix_spec in Hp as [rest Hr]. rewrite Hr in Hd, Hl |- *.
  rewrite drop_app_length in Hd. subst token. split; [done |]. intros ->. rewrite app_nil_r in Hl. lia.
Qed.

Lemma clean_reason reason token : Forall (fun c => control c = false) reason -> BlockReason (BlockValue reason token) = reason.
Proof. intros Hr. apply BlockReason_BlockValue_aux. intros Hin. rewrite Forall_forall in Hr. by specialize (Hr _ Hin). Qed.

(** ** The handlers *)
Section Facts.
Context `{Unicode, FloatToInt, AdminWire}.
Variables (json_error netip_error : gostring -> gostring) (duration_text : duration_error -> gostring).
Variable read_only : view -> AdminRequest -> AdminResponse.
Variables (listed : Z -> outcome gostring (list BlockEntry * bool)) (detail : gostring -> outcome gostring BlockDetail).
Variable now : Z.

(** The one spelling of an address that the store's keys use. *)
Definition canonical (ip : gostring) : Prop := canonIP ip = ip /\ is_Some (ParseAddr ip).

(** What a command may ask for. *)
Definition valid_command {X} (s : AdminServer) (c : command X) : Prop :=
  match c with
  | CBlock ip reason ttl => canonical ip /\ 0 < ttl <= MaxStateTTL /\ reason <> [] /\ (length reason <= 200)%nat /\ Forall (fun c => control c = false) reason
  | CUnblock ip _ => canonical ip
  | CRotate keyPath prevDir => as_pow s = true /\ keyPath <> [] /\ TrimSpace prevDir <> []
  | CReload => as_reload s = true
  | CReconcile => as_enforcer s = true
  | CPin level ttl => as_attack s = true /\ AttackMode.level_ok level /\ 0 <= ttl <= MaxStateTTL
  | CUnpin => as_attack s = true
  | CCapture => as_diagnostics s = true /\ as_capturing s = false /\ as_captureNext s <= now
  end.

Definition performs_valid (s : AdminServer) (h : handled) : Prop := match h with Answer _ => True | Perform c _ => valid_command s c end.

Lemma canonicalAdminIP_ok raw ip : canonicalAdminIP netip_error raw = Ok ip -> canonical ip /\ ip = canonIP raw.
Proof.
  unfold canonicalAdminIP. destruct (ParseAddr raw) as [a |] eqn:Ea; [| done]. intros [= <-].
  assert (addr_String (Unmap a) = canonIP raw) as -> by (unfold canonIP; by rewrite Ea).
  split; [| done]. split; [apply canonIP_idem |]. unfold canonIP. rewrite Ea.
  pose proof (Unmap_ok a (ParseAddr_ok _ _ Ea)) as [Hu H4]. rewrite ParseAddr_String by done. by eexists.
Qed.

Lemma handleBlock_valid s raw body : performs_valid s (handleBlock json_error netip_error duration_text raw body).
Proof.
  unfold handleBlock. destruct (canonicalAdminIP netip_error raw) as [ip |] eqn:Eip; [| done]. apply canonicalAdminIP_ok in Eip as [Hip _].
  destruct (block_body body) as [[reason text] |]; [| done]. cbv zeta. destruct (if bool_decide _ then _ else _) as [ttl |]; [| done].
  destruct (ttl <=? 0) eqn:E1; [done |]. destruct (MaxStateTTL <? ttl) eqn:E2; [done |].
  set (r := if bool_decide (reason = []) then lit "admin" else reason). destruct (_ || _) eqn:E3; [done |]. apply orb_false_iff in E3 as [Hlen%Nat.ltb_ge Hctl]. bool_to_prop.
  cbn [performs_valid valid_command]. split; [done |]. split; [lia |]. split; [subst r; by case_bool_decide |]. split; [lia |].
  apply Forall_forall. intros c Hc. destruct (control c) eqn:Ec; [| done]. rewrite <- Hctl. symmetry. apply existsb_exists. exists c. split; [by apply list_elem_of_In | done].
Qed.

Lemma handleUnblock_valid s raw q : performs_valid s (handleUnblock netip_error raw q).
Proof.
  unfold handleUnblock. destruct (canonicalAdminIP netip_error raw) as [ip |] eqn:Eip; [| done]. apply canonicalAdminIP_ok in Eip as [Hip _].
  cbv zeta. by destruct (if bool_decide _ then _ else _).
Qed.

Lemma handleAttackSet_valid s body : performs_valid s (handleAttackSet json_error duration_text s body).
Proof.
  unfold handleAttackSet. destruct (as_attack s) eqn:Ea; [| done]. cbn [negb]. destruct (attack_body body) as [[level text] |]; [| done].
  destruct (AttackMode.ParseLevel level) as [[l auto] ok] eqn:El. destruct ok; [| done]. cbn [negb]. destruct auto; [done |].
  assert (Hl : AttackMode.level_ok l).
  { revert El. unfold AttackMode.ParseLevel. repeat case_decide; intros Hx; try discriminate Hx; injection Hx as <-; by vm_compute. }
  case_bool_decide; [split; [done | split; [done |]]; by vm_compute |].
  destruct (Parse text) as [[ttl |] |]; [| done | done]. destruct (ttl <=? 0) eqn:E1; [done |]. destruct (MaxStateTTL <? ttl) eqn:E2; [done |].
  bool_to_prop. split; [done | split; [done | lia]].
Qed.

Lemma handleGoroutineDiagnosticsCapture_valid s r : performs_valid s (handleGoroutineDiagnosticsCapture now s r).
Proof.
  unfold handleGoroutineDiagnosticsCapture. destruct (as_diagnostics s) eqn:Ed; [| done]. cbn [negb]. destruct (_ || _); [done |].
  destruct (as_capturing s) eqn:Ec; [done |]. cbv zeta. destruct (retrySeconds _ _ =? 0) eqn:Er; [| done]. cbn. split; [done | split; [done |]].
  bool_to_prop. unfold retrySeconds in Er. destruct (as_captureNext s <=? now) eqn:El; [by bool_to_prop; lia |]. bool_to_prop. exfalso.
  assert (1 <= Z.quot (as_captureNext s - now + second - 1) second); [| lia].
  rewrite Z.quot_div_nonneg by (unfold second, millisecond, microsecond in *; lia). apply Z.div_le_lower_bound; unfold second, millisecond, microsecond; lia.
Qed.

(** A route is open and only answers, or asks for the token, and changes
    something under another method than GET only. *)
Definition route_valid (s : AdminServer) (x : route) : Prop :=
  forall r w, match ro_handler x r w with Answer _ => True | Perform c _ => ro_auth x = true /\ ro_method x ∈ changing /\ valid_command s c end.

Lemma route_performs s m pat h : m ∈ changing -> (forall r w, performs_valid s (h r w)) -> route_valid s (mk_route m pat true h).
Proof. intros Hm Hv r w. cbn. specialize (Hv r w). by destruct (h r w). Qed.

Lemma routes_valid s : Forall (route_valid s) (routes json_error netip_error duration_text read_only listed detail now s).
Proof.
  unfold routes. rewrite !Forall_app. split; [destruct (as_metrics s); by repeat constructor |]. split.
  - repeat apply Forall_cons_2; try (by intros r w); try (apply route_performs; [by vm_compute; set_solver |]); last by constructor.
    all: intros r w; cbn; try apply handleBlock_valid; try apply handleUnblock_valid; try apply handleAttackSet_valid; try apply handleGoroutineDiagnosticsCapture_valid.
    + unfold handleBlockList. cbv zeta. by destruct (if bool_decide _ then _ else _).
    + unfold handleBlockStatus. by destruct (canonicalAdminIP _ _).
    + unfold handleRotateKey. destruct (as_pow s) eqn:E; [| done]. cbn. case_bool_decide; [done |]. by case_bool_decide.
    + unfold handleReload. by destruct (as_reload s) eqn:E.
    + unfold handleOffloadReconcile. by destruct (as_enforcer s) eqn:E.
  - destruct (as_dashboard s); by repeat constructor.
Qed.




(** The block a handler performs. *)
Definition as_block (h : handled) : option (gostring * gostring * Z * (option gostring -> AdminResponse)) :=
  match h with
  | Answer _ => None
  | Perform c k => match c in command X return (X -> AdminResponse) -> _ with CBlock ip reason ttl => fun k => Some (ip, reason, ttl, k) | _ => fun _ => None end k
  end.

Lemma handleBlock_inv raw body ip reason ttl k : handleBlock json_error netip_error duration_text raw body = Perform (CBlock ip reason ttl) k ->
  canonical ip /\ ip = canonIP raw /\ 0 < ttl <= MaxStateTTL /\ Forall (fun c => control c = false) reason /\
  k None = writeAdmin StatusOK [("ip"%string, VStr ip); ("blocked"%string, VBool true); ("reason"%string, VStr reason); ("ttl"%string, VStr (Duration_String ttl))].
Proof.
  intros Hh. pose proof (handleBlock_valid (mk_admin [] [] [] false None false false false false false false None [] [] false false 0) raw body) as Hv.
  rewrite Hh in Hv. destruct Hv as (Hc & Ht & _ & _ & Hr). split; [done |]. apply (f_equal as_block) in Hh. revert Hh.
  unfold handleBlock. destruct (canonicalAdminIP netip_error raw) as [ip' |] eqn:Eip; [| done]. apply canonicalAdminIP_ok in Eip as [_ Eip].
  destruct (block_body body) as [[reason' text] |]; [| done]. cbv zeta. destruct (if bool_decide (text = []) then _ else _) as [ttl' |]; [| done].
  destruct (ttl' <=? 0); [done |]. destruct (MaxStateTTL <? ttl'); [done |]. destruct (_ || _); [done |]. cbn [as_block]. intros [= -> <- <- <-].
  split; [done | split; [done | split; [done |]]]. done.
Qed.

End Facts.

(** * Properties *)

(** C18: Whatever the admin listener is sent, it changes something only for a
    request that presents the configured non-empty token, under PUT, POST or
    DELETE, past the cross-origin check, and only what the checks of its
    handler allow: a canonical address, a positive TTL within the maximum, a
    reason without control bytes, a known posture level, an archive directory
    for a rotation, no capture during another or in the cooldown. *)
Theorem admin_commands_are_authorized `{Unicode, FloatToInt, AdminWire} json_error netip_error duration_text read_only listed detail now (s : AdminServer) (r : AdminRequest) {X} (c : command X) k
  (Hserve : serve json_error netip_error duration_text read_only listed detail now s r = Perform c k) :
  HGet (aq_Header r) (lit "Authorization") = bearer_prefix ++ as_token s /\ as_token s <> [] /\
  (exists m, m ∈ changing /\ aq_Method r = lit m) /\ cross_origin_denied r = false /\ valid_command now s c.
Proof.
  unfold serve in Hserve. destruct (cross_origin_denied r); [done |].
  destruct (dispatch _ r) as [[x w] |] eqn:Ed; [| done]. pose proof (proj1 (dispatch_in _ _ _ _ Ed)) as Hin.
  pose proof (routes_valid json_error netip_error duration_text read_only listed detail now s) as Hall. rewrite Forall_forall in Hall. specialize (Hall x Hin r w).
  destruct (ro_auth x) eqn:Ea; cbn [andb] in Hserve; [destruct (authorized _ _) eqn:Eauth; [| done] |]; cbn [negb] in Hserve; rewrite Hserve in Hall; [| by destruct Hall].
  destruct Hall as (_ & Hm & Hv). apply authorized_spec in Eauth as [Hh Ht]. split; [done | split; [done | split; [| done]]].
  exists (ro_method x). split; [done |]. by eapply dispatch_method.
Qed.

(** C19: A block the admin API accepts and the store takes is what a lookup
    under any spelling of the address reads back, with the very reason, until
    its TTL has passed and not after; nothing else in the store changes, and
    the enforcement layer is told. *)
Theorem admin_block_takes_effect `{Unicode, FloatToInt, AdminWire} json_error netip_error duration_text raw body ip reason ttl k token tm (m : amap)
  (Hh : handleBlock json_error netip_error duration_text raw body = Perform (CBlock ip reason ttl) k) :
  let '(m', effects, out) := run (Scoreboard.BlockIP ip reason ttl token) tm m in
  out = Ok tt /\ ap_Status (k None) = StatusOK /\ (exists a, ParseAddr ip = Some a /\ effects = [EnforceNotify a reason ttl false]) /\
  (forall spelling t, canonIP spelling = canonIP raw ->
     BlockStatus (fun key => (spec_get (fun _ => t) key m').2) spelling = Ok (if t <=? tm 0%nat 0%nat + ttl then (reason, true) else ([], false))) /\
  (forall key, key <> BlockKey ip -> m' !! key = m !! key).
Proof.
  destruct (handleBlock_inv json_error netip_error duration_text 0 raw body ip reason ttl k Hh) as ([Hcan [a Ha]] & Hip & Ht & Hr & Hk).
  unfold Scoreboard.BlockIP, notifyEnforcer. rewrite Ha. cbn [run exec_op st_set contract_ops spec_set]. rewrite Hk.
  split; [done | split; [done | split; [by exists a | split]]].
  - intros spelling t Hs. assert (BlockKey spelling = BlockKey ip) as Hkey by (rewrite !BlockKey_canon; congruence).
    unfold BlockStatus, spec_get. rewrite Hkey, live_insert. cbn [snd]. unfold expired, expiry. cbn [e_expires].
    rewrite (proj2 (Z.leb_gt ttl 0)) by lia. destruct (Z.leb_spec t (tm 0%nat 0%nat + ttl)).
    + rewrite (proj2 (Z.ltb_ge _ _)) by lia. cbn. by rewrite clean_reason.
    + rewrite (proj2 (Z.ltb_lt _ _)) by lia. cbn. done.
  - intros key Hkey. by rewrite lookup_insert_ne.
Qed.

(** ** An operator's block *)
Module Ex.
#[export] Existing Instance ascii_only.
#[export] Instance wire : AdminWire := { decode_block := fun _ => Some (lit "scraper", lit "30d"); decode_attack := fun _ => None }.
#[export] Instance saturating : FloatToInt := { int_unrepresentable := fun _ => 0 }.

Definition text (_ : gostring) : gostring := [].
Definition server : AdminServer :=
  mk_admin (lit "s3cret") [] [] false None true false true false false false None [] [] false false 0.
Definition request : AdminRequest :=
  mk_areq (lit "PUT") [lit "admin"; lit "blocks"; lit "::ffff:192.0.2.7"] (lit "admin") None
    {[ lit "Authorization" := [lit "Bearer s3cret"] ]} ∅ [] (lit "{}").
Definition answer (r : AdminRequest) : handled :=
  serve text text (fun _ => []) (fun _ _ => healthz) (fun _ => Err []) (fun _ => Err []) 0 server r.

Definition blocked : handled := handleBlock text text (fun _ => []) (lit "::ffff:192.0.2.7") (lit "{}").

Lemma blocked_eq : exists k, blocked = Perform (CBlock (lit "192.0.2.7") (lit "scraper") (30 * 24 * hour)) k.
Proof. eexists. vm_compute. reflexivity. Qed.

Lemma answer_eq : exists k, answer request = Perform (CBlock (lit "192.0.2.7") (lit "scraper") (30 * 24 * hour)) k.
Proof. eexists. vm_compute. reflexivity. Qed.

Theorem admin_commands_are_authorized_witness : exists k, answer request = Perform (CBlock (lit "192.0.2.7") (lit "scraper") (30 * 24 * hour)) k /\ as_token server <> [].
Proof.
  destruct answer_eq as [k Hk]. exists k. split; [exact Hk |].
  exact (proj1 (proj2 (admin_commands_are_authorized text text (fun _ => []) (fun _ _ => healthz) (fun _ => Err []) (fun _ => Err []) 0 server request _ k Hk))).
Defined.

(** The limit of 200 "characters" is one of bytes: 67 euro signs are refused. *)
Lemma multibyte_reason_refused : length (concat (replicate 67 [Zbyte 226; Zbyte 130; Zbyte 172])) = 201%nat /\
  @handleBlock _ _ {| decode_block := fun _ => Some (concat (replicate 67 [Zbyte 226; Zbyte 130; Zbyte 172]), []); decode_attack := fun _ => None |}
    text text (fun _ => []) (lit "192.0.2.7") (lit "{}") = Answer (admin_error StatusBadRequest (lit "reason must be at most 200 characters without control characters")).
Proof. split; vm_compute; reflexivity. Qed.

Theorem admin_block_takes_effect_witness : exists k, blocked = Perform (CBlock (lit "192.0.2.7") (lit "scraper") (30 * 24 * hour)) k /\ ap_Status (k None) = StatusOK.
Proof.
  destruct blocked_eq as [k Hk]. exists k. split; [exact Hk |].
  exact (proj1 (proj2 (admin_block_takes_effect text text (fun _ => []) _ _ _ _ _ k 0 (fun _ _ => 0) ∅ Hk))).
Defined.
End Ex.
