(* ===== verification/AdminViews.v ===== *)
(** * The admin views (transport/http/admin.go)

    What the operator's dashboard reads: the filtered window of recent
    decisions, the rollup of its header, and the ranking of the heaviest
    offenders.  A lookup of IP intelligence answers the same throughout one
    request, so the handlers' memo of it is left out. *)

From S2P Require Export Admin.

Open Scope Z_scope.

(** [reasonCat] and [normalizePath]. *)
Definition reasonCat (reason : gostring) : gostring := match split_at_byte ":"%char reason with Some (cat, _) => cat | None => reason end.

Definition maxPathLen : nat := 128.
Definition ellipsis : gostring := [Zbyte 226; Zbyte 128; Zbyte 166].

Definition normalizePath (uri : gostring) : gostring :=
  let uri := match split_at_byte "?"%char uri with Some (path, _) => path | None => uri end in
  let uri := if bool_decide (uri = []) then lit "/" else uri in
  if (maxPathLen <? length uri)%nat then take maxPathLen uri ++ ellipsis else uri.

(** ** Recent decisions *)
Record recentWindowView := mk_window { wv_Available : nat; wv_Capacity : nat; wv_Full : bool; wv_StartedAt : Z; wv_Oldest : option Z; wv_Newest : option Z }.

Definition recentWindow (snap : RecentDecisionSnapshot) : recentWindowView :=
  mk_window (length (rs_Decisions snap)) (rs_Capacity snap) (rs_Full snap) (rs_StartedAt snap)
    (re_Time <$> last (rs_Decisions snap)) (re_Time <$> head (rs_Decisions snap)).

(** The query: [ql_limit] is 0 for all. *)
Record filters := mk_filters {
  ql_limit : Z; ql_compact : bool; ql_action : gostring; ql_reason : gostring; ql_category : gostring; ql_host : option gostring;
  ql_path : option gostring; ql_ua : option gostring; ql_country : gostring; ql_ip : gostring
}.

(** A row: with IP intelligence in the detailed view. *)
Inductive decision_row := CompactRow (time : Z) (action reason : gostring) | DetailedRow (d : RecentDecision) (info : option Intel.Info).

Record decisions_view := mk_decisions { dv_count : nat; dv_matched : nat; dv_truncated : bool; dv_window : recentWindowView; dv_rows : list decision_row }.

Record countEntry := mk_count { ce_Key : gostring; ce_Count : Z }.
Record offenderIP := mk_offender { oi_IP : gostring; oi_Count : Z; oi_Info : Intel.Info }.

Definition offenderTopK : nat := 15.

(** Counts descending, ties by key. *)
Definition heavier (a b : countEntry) : Prop :=
  if ce_Count a =? ce_Count b then Waf.bytes_le (ce_Key a) (ce_Key b) else ce_Count b < ce_Count a.
#[global] Instance heavier_dec a b : Decision (heavier a b).
Proof. unfold heavier. destruct (_ =? _); apply _. Defined.

Definition entries_of (counts : gmap gostring Z) : list countEntry := map (fun kn => mk_count kn.1 kn.2) (map_to_list counts).
Definition topKEntries (counts : gmap gostring Z) (k : nat) : list countEntry :=
  let entries := merge_sort heavier (entries_of counts) in
  if (k <? length entries)%nat then take k entries else entries.

Definition bump (key : gostring) (n : Z) (m : gmap gostring Z) : gmap gostring Z := <[key := default 0 (m !! key) + n]> m.
Definition count_by (key : RecentDecision -> gostring) (rows : list RecentDecision) : gmap gostring Z :=
  fold_left (fun m d => bump (key d) 1 m) rows ∅.

Record offenders_view := mk_offenders {
  ov_window : nat; ov_ips : list offenderIP; ov_reasons : list countEntry; ov_paths : list countEntry; ov_user_agents : list countEntry;
  ov_hosts : list countEntry; ov_countries : option (list countEntry)
}.

Record stats_view := mk_stats {
  sv_blocksActive : Z; sv_blocksComplete : bool; sv_total : nat; sv_byAction : gmap gostring Z; sv_byReason : gmap gostring Z; sv_newest : option Z; sv_oldest : option Z
}.

Section Views.
Context `{Unicode, Intel.GeoDB}.
Variable netip_error : gostring -> gostring.

Definition country_code (s : gostring) : bool :=
  match s with [a; b] => (65 <=? byteZ a) && (byteZ a <=? 90) && (65 <=? byteZ b) && (byteZ b <=? 90) | _ => false end.

(** The checks of the query, in the order of the source. *)
Definition decisions_limit (q : gmap gostring gostring) : option Z :=
  let v := QGet q "limit" in
  if bool_decide (v = []) then Some 50
  else if bool_decide (v = lit "all") then Some 0
  else match ParseInt v with Ok n => if n <? 1 then None else Some n | Err _ => None end.

Definition optional (q : gmap gostring gostring) (name : string) (f : gostring -> gostring) : option gostring :=
  if QHas q name then Some (f (QGet q name)) else None.

Definition decisions_query (q : gmap gostring gostring) : outcome AdminResponse filters :=
  match decisions_limit q with
  | None => Err (admin_error StatusBadRequest (lit "limit must be a positive integer or all"))
  | Some limit =>
    let view := QGet q "view" in
    if negb (bool_decide (view = [])) && negb (bool_decide (view = lit "compact")) then Err (admin_error StatusBadRequest (lit "view must be compact when set"))
    else if QHas q "reason_category" && bool_decide (QGet q "reason_category" = []) then Err (admin_error StatusBadRequest (lit "reason_category must not be empty"))
    else
      let country := ToUpper (QGet q "country") in
      if QHas q "country" && negb (country_code country) then Err (admin_error StatusBadRequest (lit "country must be an ISO alpha-2 code"))
      else
        let ip := QGet q "ip" in
        let canonical := if bool_decide (ip = []) then Ok [] else canonicalAdminIP netip_error ip in
        match canonical with
        | Err r => Err r
        | Ok ip =>
          Ok (mk_filters limit (bool_decide (view = lit "compact")) (QGet q "action") (QGet q "reason") (QGet q "reason_category")
                (optional q "host" NormalizeHost) (optional q "path" normalizePath) (optional q "ua" id) country ip)
        end
  end.

Definition lookupInfo (provider : option Intel.Provider) (ip : gostring) : Intel.Info :=
  match provider with
  | None => Intel.no_info
  | Some _ => match ParseAddr ip with Some a => Intel.Lookup provider a | None => Intel.no_info end
  end.

Definition unless_set (f : gostring) (test : bool) : bool := bool_decide (f = []) || test.
Definition unless_given (f : option gostring) (v : gostring) : bool := match f with None => true | Some w => bool_decide (v = w) end.

Definition row_matches (provider : option Intel.Provider) (f : filters) (d : RecentDecision) : bool :=
  unless_set (ql_action f) (bool_decide (re_Action d = ql_action f)) &&
  unless_set (ql_reason f) (has_prefix (ql_reason f) (re_Reason d)) &&
  unless_set (ql_category f) (bool_decide (reasonCat (re_Reason d) = ql_category f)) &&
  unless_given (ql_host f) (NormalizeHost (re_Host d)) &&
  unless_given (ql_path f) (normalizePath (re_URI d)) &&
  unless_given (ql_ua f) (re_UA d) &&
  unless_set (ql_country f) (bool_decide (Intel.i_Country (lookupInfo provider (re_IP d)) = ql_country f)) &&
  unless_set (ql_ip f) (bool_decide (re_IP d = ql_ip f)).

Definition compact_row (d : RecentDecision) : decision_row := CompactRow (re_Time d) (re_Action d) (re_Reason d).
Definition detailed_row (provider : option Intel.Provider) (d : RecentDecision) : decision_row :=
  DetailedRow d (match provider with Some _ => Some (lookupInfo provider (re_IP d)) | None => None end).

(** The loops: the compact one appends while there is room, the detailed one
    skips once the page is full. *)
Fixpoint compact_loop (keep : RecentDecision -> bool) (room : nat) (all : list RecentDecision) (out : list decision_row) (matched : nat) : list decision_row * nat :=
  match all with
  | [] => (out, matched)
  | d :: rest =>
    if negb (keep d) then compact_loop keep room rest out matched
    else compact_loop keep room rest (if (length out <? room)%nat then out ++ [compact_row d] else out) (S matched)
  end.
Fixpoint detailed_loop (provider : option Intel.Provider) (keep : RecentDecision -> bool) (room : nat) (all : list RecentDecision) (out : list decision_row) (matched : nat) : list decision_row * nat :=
  match all with
  | [] => (out, matched)
  | d :: rest =>
    if negb (keep d) then detailed_loop provider keep room rest out matched
    else if (length out =? room)%nat then detailed_loop provider keep room rest out (S matched)
    else detailed_loop provider keep room rest (out ++ [detailed_row provider d]) (S matched)
  end.

Definition response_limit (limit : Z) (n : nat) : nat := if (limit =? 0) || (Z.of_nat n <? limit) then n else Z.to_nat limit.

Definition handleDecisions (provider : option Intel.Provider) (ring : recentRing) (q : gmap gostring gostring) : outcome AdminResponse decisions_view :=
  match decisions_query q with
  | Err r => Err r
  | Ok f =>
    let snap := snapshot 0 ring in
    let all := rs_Decisions snap in
    let room := response_limit (ql_limit f) (length all) in
    let keep := row_matches provider f in
    let '(out, matched) := if ql_compact f then compact_loop keep room all [] 0 else detailed_loop provider keep room all [] 0 in
    Ok (mk_decisions (length out) matched (length out <? matched)%nat (recentWindow snap) out)
  end.

(** ** Rollups *)

(** An outcome row is not a verdict. *)
Definition verdicts (rows : list RecentDecision) : list RecentDecision := List.filter (fun d => negb (IsOutcomeAction (re_Action d))) rows.

(** [mirror]: seeded, entries, complete. *)
Definition handleStats (mirror : option (bool * nat * bool)) (ring : recentRing) : stats_view :=
  let recent := rs_Decisions (snapshot 0 ring) in
  let '(active, complete) := match mirror with Some (true, n, c) => (Z.of_nat n, c) | _ => (-1, false) end in
  mk_stats active complete (length (verdicts recent)) (count_by re_Action recent) (count_by (fun d => reasonCat (re_Reason d)) (verdicts recent))
    (re_Time <$> head recent) (re_Time <$> last recent).

Definition countries_of (provider : option Intel.Provider) (byIP : gmap gostring Z) : gmap gostring Z :=
  match provider with
  | None => ∅
  | Some _ =>
    fold_left (fun m kn =>
      match ParseAddr kn.1 with
      | None => m
      | Some a => let cc := Intel.i_Country (Intel.Lookup provider a) in if bool_decide (cc = []) then m else bump cc kn.2 m
      end) (map_to_list byIP) ∅
  end.

Definition handleOffenders (provider : option Intel.Provider) (ring : recentRing) : offenders_view :=
  let rows := verdicts (rs_Decisions (snapshot 0 ring)) in
  let byIP := count_by re_IP rows in
  let byCountry := countries_of provider byIP in
  mk_offenders (length rows)
    (map (fun e => mk_offender (ce_Key e) (ce_Count e) (lookupInfo provider (ce_Key e))) (topKEntries byIP offenderTopK))
    (topKEntries (count_by (fun d => reasonCat (re_Reason d)) rows) offenderTopK)
    (topKEntries (count_by (fun d => normalizePath (re_URI d)) rows) offenderTopK)
    (topKEntries (count_by re_UA rows) offenderTopK)
    (topKEntries (count_by (fun d => NormalizeHost (re_Host d)) rows) offenderTopK)
    (if bool_decide (byCountry = ∅) then None else Some (topKEntries byCountry (size byCountry))).

(** [etagMatches]: a list of tags, or the wildcard. *)
Definition etagMatches (header etag : gostring) : bool :=
  existsb (fun c => let c := TrimSpace c in
    bool_decide (c = lit "*") || bool_decide (c = etag) || bool_decide ((if has_prefix (lit "W/") c then drop 2 c else c) = etag)) (split_on ","%char header).
End Views.

(** * Theory *)

(** ** The page of decisions *)
Lemma compact_loop_spec (keep : RecentDecision -> bool) room all out matched : (length out <= room)%nat ->
  compact_loop keep room all out matched = (out ++ map compact_row (take (room - length out) (List.filter keep all)), (matched + length (List.filter keep all))%nat).
Proof.
  revert out matched. induction all as [| d all IH]; intros out matched Hl; cbn [compact_loop List.filter]; [by rewrite take_nil, app_nil_r, Nat.add_0_r |].
  destruct (keep d); cbn [negb length]; [| by apply IH]. destruct (Nat.ltb_spec (length out) room).
  - rewrite IH by (rewrite length_app; cbn; lia). rewrite length_app. cbn [length]. replace (room - length out)%nat with (S (room - (length out + 1))) by lia.
    cbn [take map]. rewrite <- app_assoc. f_equal. lia.
  - rewrite IH by done. replace (room - length out)%nat with 0%nat by lia. f_equal. lia.
Qed.

Lemma detailed_loop_spec `{Intel.GeoDB} provider keep room all out matched : (length out <= room)%nat ->
  detailed_loop provider keep room all out matched =
    (out ++ map (detailed_row provider) (take (room - length out) (List.filter keep all)), (matched + length (List.filter keep all))%nat).
Proof.
  revert out matched. induction all as [| d all IH]; intros out matched Hl; cbn [detailed_loop List.filter]; [by rewrite take_nil, app_nil_r, Nat.add_0_r |].
  destruct (keep d); cbn [negb length]; [| by apply IH]. destruct (Nat.eqb_spec (length out) room).
  - rewrite IH by lia. replace (room - length out)%nat with 0%nat by lia. f_equal. lia.
  - rewrite IH by (rewrite length_app; cbn; lia). rewrite length_app. cbn [length]. replace (room - length out)%nat with (S (room - (length out + 1))) by lia.
    cbn [take map]. rewrite <- app_assoc. f_equal. lia.
Qed.

(** ** Counting *)
Definition tally (key : RecentDecision -> gostring) (k : gostring) (rows : list RecentDecision) : Z :=
  Z.of_nat (length (List.filter (fun d => bool_decide (key d = k)) rows)).

Lemma count_fold (key : RecentDecision -> gostring) k rows m : default 0 (fold_left (fun m d => bump (key d) 1 m) rows m !! k) = default 0 (m !! k) + tally key k rows.
Proof.
  revert m. induction rows as [| d rows IH]; intros m; [unfold tally; cbn; lia |]. cbn [fold_left]. rewrite IH. unfold tally, bump. cbn [List.filter].
  case_bool_decide as Hk; [subst; rewrite lookup_insert_eq; cbn [default from_option length]; unfold id; lia | by rewrite lookup_insert_ne].
Qed.

Lemma count_keys (key : RecentDecision -> gostring) k rows m : is_Some (fold_left (fun m d => bump (key d) 1 m) rows m !! k) <-> is_Some (m !! k) \/ exists d, d ∈ rows /\ key d = k.
Proof.
  revert m. induction rows as [| d rows IH]; intros m; cbn [fold_left].
  - split; [auto | intros [? | (d & []%elem_of_nil & _)]; done].
  - rewrite IH. unfold bump. destruct (decide (key d = k)) as [<- | Hne].
    + rewrite lookup_insert_eq. split; [intros _; right; exists d; split; [by left | done] | intros _; left; by eexists].
    + rewrite lookup_insert_ne by done. split; intros [? | (e & He & Hk)]; auto.
      * right. exists e. split; [by right | done].
      * apply elem_of_cons in He as [-> | He]; [done |]. right. by exists e.
Qed.

Lemma count_by_lookup key k rows n : count_by key rows !! k = Some n -> n = tally key k rows /\ 0 < n.
Proof.
  intros Hn. pose proof (count_fold key k rows ∅) as Ht. fold (count_by key rows) in Ht. rewrite Hn, lookup_empty in Ht. cbn in Ht.
  pose proof (proj1 (count_keys key k rows ∅) (ex_intro _ n Hn)) as [[? He] | (d & Hd & Hk)]; [by rewrite lookup_empty in He |].
  split; [lia |]. subst n. unfold tally. assert (d ∈ List.filter (fun d => bool_decide (key d = k)) rows) as Hin.
  { apply list_elem_of_In, filter_In. split; [by apply list_elem_of_In | by apply bool_decide_eq_true]. }
  destruct (List.filter _ rows); [by apply elem_of_nil in Hin | cbn; lia].
Qed.

(** ** Ranking *)
#[export] Instance heavier_total : Total heavier.
Proof.
  intros a b. unfold heavier. destruct (Z.eqb_spec (ce_Count a) (ce_Count b)) as [E | E].
  - rewrite (proj2 (Z.eqb_eq _ _)) by done. apply bytes_le_total.
  - rewrite (proj2 (Z.eqb_neq (ce_Count b) _)) by done. lia.
Qed.
#[export] Instance heavier_trans : Transitive heavier.
Proof.
  intros a b c. unfold heavier.
  destruct (Z.eqb_spec (ce_Count a) (ce_Count b)), (Z.eqb_spec (ce_Count b) (ce_Count c)), (Z.eqb_spec (ce_Count a) (ce_Count c)); try lia. apply bytes_le_trans.
Qed.

Lemma heavier_count a b : heavier a b -> ce_Count b <= ce_Count a.
Proof. unfold heavier. destruct (Z.eqb_spec (ce_Count a) (ce_Count b)); lia. Qed.

(** What a ranking of [k] entries promises: true counts, in order, and nothing
    left out that outweighs an entry. *)
Definition ranks (key : RecentDecision -> gostring) (rows : list RecentDecision) (k : nat) (l : list countEntry) : Prop :=
  NoDup (ce_Key <$> l) /\ StronglySorted heavier l /\ (length l <= k)%nat /\
  (forall e, e ∈ l -> ce_Count e = tally key (ce_Key e) rows /\ 0 < ce_Count e) /\
  (forall d, d ∈ rows -> key d ∉ ce_Key <$> l -> length l = k /\ forall e, e ∈ l -> tally key (key d) rows <= ce_Count e).

Lemma entries_of_elem (m : gmap gostring Z) e : e ∈ entries_of m <-> m !! ce_Key e = Some (ce_Count e).
Proof.
  unfold entries_of. rewrite list_elem_of_In, in_map_iff. split.
  - intros ([k n] & <- & Hin%list_elem_of_In). by apply elem_of_map_to_list in Hin.
  - intros He. exists (ce_Key e, ce_Count e). split; [by destruct e |]. by apply list_elem_of_In, elem_of_map_to_list.
Qed.

Lemma entries_of_keys (m : gmap gostring Z) : ce_Key <$> entries_of m = (map_to_list m).*1.
Proof. unfold entries_of. rewrite <- list_fmap_compose. done. Qed.

Lemma topKEntries_split counts k : exists rest, merge_sort heavier (entries_of counts) = topKEntries counts k ++ rest /\ (length (topKEntries counts k) <= k)%nat /\ (rest <> [] -> length (topKEntries counts k) = k).
Proof.
  unfold topKEntries. set (l := merge_sort heavier (entries_of counts)). destruct (Nat.ltb_spec k (length l)).
  - exists (drop k l). rewrite take_drop, length_take. split; [done | split; [lia |]]. intros _. lia.
  - exists []. rewrite app_nil_r. split; [done | split; [done | done]].
Qed.

Lemma topKEntries_ranks key rows k : ranks key rows k (topKEntries (count_by key rows) k).
Proof.
  destruct (topKEntries_split (count_by key rows) k) as (rest & Hsplit & Hlen & Hfull). set (top := topKEntries _ k) in *.
  pose proof (StronglySorted_merge_sort heavier (entries_of (count_by key rows))) as Hs. rewrite Hsplit in Hs.
  pose proof (merge_sort_Permutation heavier (entries_of (count_by key rows))) as Hp. rewrite Hsplit in Hp.
  apply StronglySorted_app in Hs as (Hcross & Hs & _).
  assert (Hin : forall e, e ∈ top -> count_by key rows !! ce_Key e = Some (ce_Count e)).
  { intros e He. apply entries_of_elem. rewrite <- Hp. apply elem_of_app. by left. }
  split; [| split; [done | split; [done | split]]].
  - assert (NoDup (ce_Key <$> top ++ rest)) as Hnd by (rewrite Hp, entries_of_keys; apply NoDup_fst_map_to_list). rewrite fmap_app in Hnd. by apply NoDup_app in Hnd as [? _].
  - intros e He. by apply (count_by_lookup key), Hin.
  - intros d Hd Hnot. destruct (proj2 (count_keys key (key d) rows ∅) (or_intror (ex_intro _ d (conj Hd eq_refl)))) as [n Hn]. fold (count_by key rows) in Hn.
    assert (mk_count (key d) n ∈ rest) as Hrest.
    { assert (mk_count (key d) n ∈ top ++ rest) as Hall by (rewrite Hp; by apply entries_of_elem). apply elem_of_app in Hall as [Ht |]; [| done].
      exfalso. apply Hnot. apply list_elem_of_fmap. exists (mk_count (key d) n). done. }
    split; [apply Hfull; intros ->; by apply elem_of_nil in Hrest |]. intros e He.
    destruct (count_by_lookup key (key d) rows n Hn) as [<- _]. apply (heavier_count e (mk_count (key d) n)). by apply Hcross.
Qed.

(** * Properties *)

(** *)
Theorem decisions_page_exact `{Unicode, Intel.GeoDB} netip_error provider ring q v (Hv : handleDecisions netip_error provider ring q = Ok v) :
  exists f, decisions_query netip_error q = Ok f /\
    let hits := List.filter (row_matches provider f) (list_recent 0 ring) in
    let page := if ql_limit f =? 0 then hits else take (Z.to_nat (ql_limit f)) hits in
    dv_rows v = map (if ql_compact f then compact_row else detailed_row provider) page /\
    dv_matched v = length hits /\ dv_count v = length page /\ (dv_truncated v = true <-> page <> hits).
Proof.
  unfold handleDecisions in Hv. destruct (decisions_query netip_error q) as [f | r] eqn:Eq; [| done]. exists f. split; [done |]. cbv zeta in Hv |- *.
  fold (list_recent 0 ring) in Hv. set (all := list_recent 0 ring) in *. set (hits := List.filter (row_matches provider f) all).
  assert (Hlim : 0 <= ql_limit f).
  { revert Eq. unfold decisions_query. destruct (decisions_limit q) as [l |] eqn:El; [| done]. assert (0 <= l).
    { revert El. unfold decisions_limit. cbv zeta. repeat case_bool_decide; try (intros [= <-]; lia). destruct (ParseInt _); [| done]. destruct (Z.ltb_spec a 1); [done |]. intros [= <-]. lia. }
    cbv zeta. destruct (_ && _); [done |]. destruct (_ && _); [done |]. destruct (_ && _); [done |]. destruct (if bool_decide _ then _ else _); [| done]. by intros [= <-]. }
  assert (Hhits : (length hits <= length all)%nat).
  { subst hits. clear. induction all as [| d l IH]; [done |]. cbn. destruct (row_matches provider f d); cbn; lia. }
  assert (Hroom : take (response_limit (ql_limit f) (length all)) hits = if ql_limit f =? 0 then hits else take (Z.to_nat (ql_limit f)) hits).
  { unfold response_limit. destruct (Z.eqb_spec (ql_limit f) 0); cbn [orb]; [by rewrite take_ge |]. destruct (Z.ltb_spec (Z.of_nat (length all)) (ql_limit f)); [| done]. rewrite !take_ge by lia. done. }
  rewrite <- Hroom. set (room := response_limit _ _).
  rewrite compact_loop_spec, detailed_loop_spec in Hv by (cbn; lia). cbn [length app] in Hv. rewrite Nat.sub_0_r in Hv. fold all hits room in Hv.
  assert (Hcount : (length (take room hits) <? length hits)%nat = true <-> take room hits <> hits).
  { rewrite Nat.ltb_lt, length_take. split; [intros Hlt Heq; apply (f_equal length) in Heq; rewrite length_take in Heq; lia |]. intros Hne.
    destruct (decide (length hits <= room)%nat); [by rewrite take_ge in Hne | lia]. }
  destruct (ql_compact f); injection Hv as <-; cbn [dv_rows dv_matched dv_count dv_truncated]; rewrite ?length_map; done.
Qed.

(** *)
Theorem offenders_ranked_exactly `{Unicode, Intel.GeoDB} provider ring :
  let rows := verdicts (list_recent 0 ring) in
  let v := handleOffenders provider ring in
  ov_window v = length rows /\
  ranks re_IP rows offenderTopK (map (fun o => mk_count (oi_IP o) (oi_Count o)) (ov_ips v)) /\
  ranks (fun d => reasonCat (re_Reason d)) rows offenderTopK (ov_reasons v) /\
  ranks (fun d => normalizePath (re_URI d)) rows offenderTopK (ov_paths v) /\
  ranks re_UA rows offenderTopK (ov_user_agents v) /\
  ranks (fun d => NormalizeHost (re_Host d)) rows offenderTopK (ov_hosts v).
Proof.
  cbv zeta. unfold handleOffenders. cbv zeta. fold (list_recent 0 ring). cbn [ov_window ov_ips ov_reasons ov_paths ov_user_agents ov_hosts].
  split; [done |]. split; [| auto using topKEntries_ranks]. rewrite map_map. cbn [oi_IP oi_Count].
  rewrite (map_ext _ id) by (by intros []). rewrite map_id. apply topKEntries_ranks.
Qed.

(** ** A filtered page *)
Module Ex.
#[export] Existing Instance ascii_only.
#[export] Instance no_db : Intel.GeoDB := { db := unit; db_type := fun _ => []; db_geo := fun _ _ => None; db_asn := fun _ _ => None }.

Definition row (ip : string) (reason : string) : RecentDecision := mk_recent 5 (lit "example.org") (lit ip) (lit "GET") (lit "/a?b") [] (lit "deny") (lit reason) [] 0 0 [] 0 0 0.
Definition ring : recentRing := adds [(row "192.0.2.1" "waf:a", 1); (row "192.0.2.2" "geo:x", 2); (row "192.0.2.3" "waf:b", 3)] (newRecentRing 4 0).
Definition query : gmap gostring gostring := {[ lit "reason_category" := lit "waf"; lit "limit" := lit "1"; lit "view" := lit "compact" ]}.
Definition page : decisions_view := mk_decisions 1 2 true (recentWindow (snapshot 0 ring)) [CompactRow 5 (lit "deny") (lit "waf:b")].

Theorem decisions_page_exact_witness : handleDecisions (fun _ => []) None ring query = Ok page /\ exists f, decisions_query (fun _ => []) query = Ok f /\ ql_limit f = 1.
Proof.
  assert (Hp : handleDecisions (fun _ => []) None ring query = Ok page) by (vm_compute; reflexivity). split; [exact Hp |].
  destruct (decisions_page_exact _ _ _ _ _ Hp) as (f & Hf & _). exists f. split; [exact Hf |]. revert Hf. vm_compute. intros Hf. injection Hf as <-. reflexivity.
Defined.

Example heaviest : ov_reasons (handleOffenders None ring) = [mk_count (lit "waf") 2; mk_count (lit "geo") 1].
Proof. vm_compute. reflexivity. Qed.
End Ex.
